(* ===== verification/_CoqProject ===== *)
-Q . S2P
Prelude.v
Bytes.v
Text.v
ScoreCore.v
Commit.v
Merkle.v
Kernel.v
TypedData.v
Rpc.v
Http.v
Abi.v
Config.v
Chain.v
ChainConfig.v
History.v
Checkpoint.v
CheckpointStore.v
Replay.v
ReplayFacts.v
Artifact.v
Engine.v
IncidentOpen.v
ScoreApi.v
ScoreApiFacts.v
JobProtocol.v
SettlementVerifier.v
CandidateFacts.v
EvidenceFacts.v
Promotion.v
PromotionFacts.v
JobApp.v
JobSystem.v
JobSafety.v
JobAdmission.v
JobRuns.v
Aws.v
AwsFacts.v
Cms.v
CmsFacts.v
Advisory.v
AdvisoryFacts.v
Handler.v
HandlerFacts.v
ScoreServe.v
ScoreServeFacts.v
ScoreLeases.v
Json.v
Tee.v
Enclave.v
Parent.v
