(* ===== verification/Prelude.v ===== *)
(** * USD8 settlement runtime: verification library (root file)

    The library models the off-chain settlement runtime under
    [src/offchain-rust]: the Rust program that computes a settlement inside an
    enclave, the service that starts and supervises the enclave's jobs, and the
    service that serves insurance scores.  File names below are relative to
    [src/offchain-rust].

    ** How the program works

    An incident of the cover module is settled in one run: the engine pins
    finalized blocks, replays the register/cancel stream of the incident,
    derives the policy, pools and prices from the chain, computes every account's
    earned score from the token transfers, allocates the cover pool to the
    claims, and signs a digest over the inputs, the Merkle root of the rows and
    the pools.  An incident is opened the same way, from a price drop found in
    a window of conversion ratios.  The job service turns requests into jobs:
    it admits a bounded number of workers, launches one instance per job
    attempt, polls the terminal object the worker uploads, and publishes a
    settlement after verifying it against the chain.

    ** Files, and the code they model

    - Foundations.  [Prelude]: outcomes, effects, machine integers, sorting,
      the tactics and hints.  [Bytes], [Text]: [[u8; N]], [str], decimal and
      hexadecimal text, and the interfaces of the [hex] and [sha3] crates.
    - Settlement kernel.  [ScoreCore]: [score-core/src/lib.rs].  [Commit],
      [Merkle], [Kernel]: [src/lib.rs] (data and claim-set hash, tree,
      [allocate] and [allocate_with_events]).  [TypedData]: [src/typed_data.rs].
      [Json]: [src/json.rs].
    - Chain.  [Rpc], [Http]: [src/rpc.rs] (values, budgets, chunked logs and
      block receipts; the HTTP client below them).  [Abi]: [src/abi.rs].
      [Config]: [src/config.rs].  [Chain], [ChainConfig], [History]:
      [src/chain.rs] in its three parts.
    - Scores.  [Checkpoint], [CheckpointStore], [Replay], [ReplayFacts]:
      [src/checkpoint.rs].  [ScoreApi], [ScoreApiFacts]: [src/score.rs] and
      [score-api/src/lib.rs].  [ScoreServe], [ScoreServeFacts], [ScoreLeases]:
      [score-api/src/bin/lambda.rs].
    - Runs.  [Artifact]: [src/artifact.rs] and [verify_run].  [Engine]:
      [src/engine.rs].  [IncidentOpen]: [src/incident_open.rs].
    - Jobs.  [JobProtocol]: requests, identifiers, paths, frames, envelopes of
      [job-api/src/lib.rs].  [JobApp]: its [App].  [JobSystem]: the concurrent
      system; [JobSafety], [JobAdmission], [JobRuns]: its theorems.
    - Promotion.  [SettlementVerifier], [Promotion]:
      [job-api/src/settlement_verifier.rs] and [completion_verifier.rs];
      [CandidateFacts], [EvidenceFacts], [PromotionFacts]: their theorems.
    - Cloud.  [Aws]: the S3 store, EC2 launcher and settlement preflight of
      [job-api/src/bin/lambda.rs], [admission_reconciliation.rs] and
      [bin/janitor.rs]; [AwsFacts]: their theorems.  [Cms], [CmsFacts]: the
      enveloped-data reader of [job-api/src/kms_recipient_cms.rs].
    - Enclave.  [Tee]: [src/tee.rs] and [src/attested_runtime.rs].  [Enclave],
      [Parent]: [job-api/src/bin/enclave.rs] and [parent.rs]; a settlement job
      runs through all of them in [EnclaveDemo] and [ParentDemo].
    - Front.  [Advisory], [AdvisoryFacts]: the cached price-drop advisories of
      [open_advisory_cache.rs] and [open_advisory_rpc.rs].  [Handler],
      [HandlerFacts]: routes, responses and the request handler of [lambda.rs].

    ** State and operations

    A struct is a [Record], an enum an [Inductive], with the source's names; a
    function or method is a [Definition] of the same name, a loop a [Fixpoint].
    A [Result] is [outcome], which also has a value for a panic: index out of
    range, [BigUint] below zero, division by zero.  [u64] and [usize] are [N]
    below [2^64] with [checked_], [saturating_] and wrapping operations written
    out; [BigUint] is [N].  [HashMap] and [BTreeMap] are [gmap]s, the latter
    read in key order ([btree_iter]).  Code that performs effects is [io W E A],
    a function of a world [W]: the chain behind the class [RpcIface], the file
    system with a script of faults and crashes in [CheckpointStore], the cloud
    behind [Aws].  Futures joined by [try_join] run in order.

    [JobApp]'s calls are programs (finite trees) over the operations of the
    store, the launcher, the verifier and the clock.  [JobSystem] interleaves
    any number of them on one store: a call may stop between two operations, a
    conditional write may take effect and lose its reply, clocks disagree,
    workers and the storage life cycle change the objects outside [control/].
    [AdvisoryFacts] and [ScoreLeases] do the same for the advisory's object and
    for the score table, whose updates also arrive late or twice and whose
    rows expire.
    [AwsFacts] proves that the S3 store answers as that system assumes.

    ** What the theorems show

    - Money: a pool pays at most what it holds, a row at most its value, only
      live claims are settled, in registration order; the rows are exactly the
      leaves of the committed tree; the commitments and digests are binding up
      to collisions of the hash.
    - Scores: the accumulator is the block-weighted sum of its definition; the
      bulk, checkpoint and served scores are all that sum on the true balance
      history; a checkpoint file survives crashes and round-trips.  The score
      service replays an account at most once at a time and within its budget,
      each stored checkpoint follows from the one before, and an answer is of
      the current day or labelled.
    - Chain: complete and terminating log queries under every budget; searches
      and reads return what the chain pins; a batch answers in the order of its
      requests, and a request is sent a bounded number of times.
    - Runs: a settlement or authorization that is returned has reproduced every
      commitment; the artifact verifier accepts what the kernel produced.
    - Jobs: identifiers are binding; the launch budget holds under every
      interleaving, a record only moves forward, and everything the service
      publishes or answers was verified; a first submission launches.
    - Promotion: what a verified candidate, evidence and completion establish;
      how many requests a verification can issue.
    - Cloud: the store refines its abstract specification; a reservation is
      released only when its job has no live instance; the envelope reader is
      total and accepts exactly the envelopes of the right shape.
    - Enclave: whatever the parent stores is of its job, and a completed terminal
      is a verified result for the compiled Registry, attested and signed for
      that digest; failures leave as codes of a fixed list.
    - Front: refreshes are a minute apart whatever concurrent requests do; a
      fresh advisory was computed from the chain under its configuration; an
      incident is opened only on one, inside its minute; routes round-trip.

    Each of them is about every branch of the code it names, errors included.
    A theorem with hypotheses has a witness that evaluates it on a concrete
    input, with the parameters instantiated.

    ** Fuel

    Loops that are not structural take fuel; running out is a panic of its own
    ("out of fuel"), which the termination theorems exclude.  The timestamp
    search halves a [u64] range (64 rounds); [drain_fuel] is the request budget
    of a log query; [slices_fuel], [twap_fuel], [accept_windows_fuel] and the
    chunk fuel count the pieces of a block range; JSON and trace traversals are
    bounded by the number of nodes ([value_nodes]).  Bounds of the code itself
    (16 retries, 32 pages, nesting depths, request budgets) are the code's.
    The janitor's pages are bounded by its argument only: EC2 decides when the
    listing ends.

    ** Parameters

    Third-party code is a class, and what the program relies on a class of laws
    named after it: [hex] ([HexCrate], [HexLaws]), [sha3] and [sha2]
    digests (length only, or injectivity where a theorem is about binding),
    [hmac], [k256] recovery, [serde_json]'s reader and writer, the ABI codec of
    [alloy], [url] and [reqwest], [tokio]'s clock and timeout, the AWS
    SDK (conditional writes, ETags, complete instance listings), the meaning of
    the table's update expressions, RSA and AES, the security module's driver and
    the CBOR of its documents, KMS and the vsock.

    ** Not modelled

    The C interface [src/ffi.rs]; the command line [src/main.rs] and [examples/];
    device and socket set-up of the enclave and its parent (the loopback
    interface, byte relays, spawning); the signatures and certificates of the
    attestation documents, which the program does not check; the texts of
    displayed errors in the runtime and the processes; the Lambdas' environment
    set-up; the Solidity contracts and the web client, which are not Rust. *)

From stdpp Require Export base tactics option list gmap sets strings sorting.
From Stdlib Require Export NArith ZArith Lia.

#[global] Set Default Goal Selector "!".

(* ------------------------------------------------------------------ *)
(** ** Outcomes and effects

    A Rust call of type [Result<A, E>] ends in one of three ways: [Ok],
    [Err], or a panic (index out of range, [BigUint] subtraction below
    zero, division by zero).  The release profile of the program sets
    [panic = "abort"], so a panic ends the process. *)

Inductive outcome (E A : Type) : Type :=
  | Ok (a : A)
  | Err (e : E)
  | Panic (why : string).
Arguments Ok {E A} a.
Arguments Err {E A} e.
Arguments Panic {E A} why.

#[export] Instance outcome_ret E : MRet (outcome E) := fun A a => Ok a.
#[export] Instance outcome_bind E : MBind (outcome E) := fun A B f m =>
  match m with Ok a => f a | Err e => Err e | Panic s => Panic s end.

#[export] Instance Ok_inj E A : Inj (=) (=) (@Ok E A).
Proof. by intros a b [= ->]. Qed.

#[export] Instance outcome_eq_dec E A `{EqDecision E, EqDecision A} :
  EqDecision (outcome E A).
Proof. solve_decision. Defined.

(** A stateful fallible computation over a state (or outside world) [W]. *)
Definition io (W E A : Type) : Type := W → outcome E A * W.

#[export] Instance io_ret W E : MRet (io W E) := fun A a w => (Ok a, w).
#[export] Instance io_bind W E : MBind (io W E) := fun A B f m w =>
  match m w with
  | (Ok a, w') => f a w'
  | (Err e, w') => (Err e, w')
  | (Panic s, w') => (Panic s, w')
  end.

(** Run a pure fallible computation in a stateful one. *)
Definition lift {W E A} (m : outcome E A) : io W E A := fun w => (m, w).

(** [map_err] is [Result::map_err], and also what the [?] operator does
    when it converts an error with [From]. *)
Definition map_err {E1 E2 A} (f : E1 → E2) (m : outcome E1 A) : outcome E2 A :=
  match m with Ok a => Ok a | Err e => Err (f e) | Panic s => Panic s end.
Definition map_err_io {W E1 E2 A} (f : E1 → E2) (m : io W E1 A) : io W E2 A :=
  fun w => let '(r, w') := m w in (map_err f r, w').

Definition get_state {W E} : io W E W := fun w => (Ok w, w).
Definition put_state {W E} (w : W) : io W E unit := fun _ => (Ok tt, w).
Definition modify_state {W E} (f : W → W) : io W E unit := fun w => (Ok tt, f w).

(** [if b { return Err(e) }] followed by the rest of the function. *)
Definition bail_if {E} (b : bool) (e : E) : outcome E unit :=
  if b then Err e else Ok tt.

(** [option.ok_or(e)]. *)
Definition ok_or {E A} (o : option A) (e : E) : outcome E A :=
  match o with Some a => Ok a | None => Err e end.

(** [for x in xs { ... }] with loop state [s]; early exit through the monad. *)
Section Loops.
Context {M : Type → Type} `{!MRet M, !MBind M}.

Fixpoint fold_m {S A} (f : S → A → M S) (s : S) (l : list A) : M S :=
  match l with
  | [] => mret s
  | x :: l => s' ← f s x; fold_m f s' l
  end.

(** The loop [for (index, x) in xs.iter().enumerate()]. *)
Fixpoint fold_im_from {S A} (i : nat) (f : nat → S → A → M S) (s : S)
    (l : list A) : M S :=
  match l with
  | [] => mret s
  | x :: l => s' ← f i s x; fold_im_from (Datatypes.S i) f s' l
  end.
Definition fold_im {S A} (f : nat → S → A → M S) : S → list A → M S :=
  fold_im_from 0 f.

(** [collect::<Result<Vec<_>, _>>()] over an enumerated iterator. *)
Fixpoint mapM_from {A B} (i : nat) (f : nat → A → M B) (l : list A) : M (list B) :=
  match l with
  | [] => mret []
  | x :: l => y ← f i x; ys ← mapM_from (Datatypes.S i) f l; mret (y :: ys)
  end.
Definition mapM_enum {A B} (f : nat → A → M B) : list A → M (list B) :=
  mapM_from 0 f.
End Loops.

(** *** Laws of the outcome monad *)

Lemma bind_ok {E A B} (m : outcome E A) (f : A → outcome E B) b :
  (m ≫= f) = Ok b ↔ ∃ a, m = Ok a ∧ f a = Ok b.
Proof. destruct m; simpl; naive_solver. Qed.

Lemma bind_err {E A B} (m : outcome E A) (f : A → outcome E B) e :
  (m ≫= f) = Err e ↔ m = Err e ∨ ∃ a, m = Ok a ∧ f a = Err e.
Proof. destruct m; simpl; naive_solver. Qed.

Lemma bind_panic {E A B} (m : outcome E A) (f : A → outcome E B) s :
  (m ≫= f) = Panic s ↔ m = Panic s ∨ ∃ a, m = Ok a ∧ f a = Panic s.
Proof. destruct m; simpl; naive_solver. Qed.

Lemma bail_if_ok {E} b (e : E) u : bail_if b e = Ok u ↔ b = false.
Proof. destruct b, u; simpl; naive_solver. Qed.

Lemma bail_if_err {E} b (e e' : E) : bail_if b e = Err e' ↔ b = true ∧ e' = e.
Proof. destruct b; simpl; naive_solver. Qed.

Lemma ok_or_ok {E A} (o : option A) (e : E) a : ok_or o e = Ok a ↔ o = Some a.
Proof. destruct o; simpl; naive_solver. Qed.

Lemma map_err_ok {E1 E2 A} (f : E1 → E2) (m : outcome E1 A) a :
  map_err f m = Ok a ↔ m = Ok a.
Proof. destruct m; simpl; naive_solver. Qed.

Lemma mret_ok {E A} (a b : A) : (mret a : outcome E A) = Ok b ↔ a = b.
Proof. cbv [mret outcome_ret]. naive_solver. Qed.

Lemma io_bind_ok {W E A B} (m : io W E A) (f : A → io W E B) w b w2 :
  (m ≫= f) w = (Ok b, w2) ↔ ∃ a w1, m w = (Ok a, w1) ∧ f a w1 = (Ok b, w2).
Proof.
  unfold mbind, io_bind. destruct (m w) as [[a|e|s] w1]; naive_solver.
Qed.

Lemma io_bind_eval {W E A B} (m : io W E A) (f : A → io W E B) w a w' :
  m w = (Ok a, w') → (m ≫= f) w = f a w'.
Proof. unfold mbind, io_bind. by intros ->. Qed.

Lemma io_bind_err {W E A B} (m : io W E A) (f : A → io W E B) w e w' :
  m w = (Err e, w') → (m ≫= f) w = (Err e, w').
Proof. unfold mbind, io_bind. by intros ->. Qed.

Lemma io_bind_panic {W E A B} (m : io W E A) (f : A → io W E B) w s w' :
  m w = (Panic s, w') → (m ≫= f) w = (Panic s, w').
Proof. unfold mbind, io_bind. by intros ->. Qed.

Lemma io_bind_lift {W E A B} (a : A) (f : A → io W E B) w : (lift (Ok a) ≫= f) w = f a w.
Proof. reflexivity. Qed.

Lemma io_bind_lift_err {W E A B} (e : E) (f : A → io W E B) w :
  (lift (Err e) ≫= f) w = (Err e, w).
Proof. reflexivity. Qed.

Lemma io_bind_mret {W E A B} (a : A) (f : A → io W E B) w : (mret a ≫= f) w = f a w.
Proof. reflexivity. Qed.

Lemma lift_ok {W E A} (m : outcome E A) (w w' : W) a :
  lift m w = (Ok a, w') ↔ m = Ok a ∧ w' = w.
Proof. unfold lift. naive_solver. Qed.

Lemma io_ret_ok {W E A} (a b : A) (w w' : W) :
  (mret a : io W E A) w = (Ok b, w') ↔ a = b ∧ w = w'.
Proof. cbv [mret io_ret]. naive_solver. Qed.

Lemma map_err_io_ok {W E1 E2 A} (f : E1 → E2) (m : io W E1 A) w a w' :
  map_err_io f m w = (Ok a, w') ↔ m w = (Ok a, w').
Proof.
  unfold map_err_io. destruct (m w) as [[?|?|?] ?]; simpl; naive_solver.
Qed.

Lemma fold_m_app {E S A} (f : S → A → outcome E S) s l k :
  fold_m f s (l ++ k) = (s' ← fold_m f s l; fold_m f s' k).
Proof.
  revert s. induction l as [|x l IH]; intros s; [done|]. cbn [app fold_m].
  destruct (f s x); simpl; [apply IH|done..].
Qed.

Lemma fold_m_snoc {E S A} (f : S → A → outcome E S) s l x :
  fold_m f s (l ++ [x]) = (s' ← fold_m f s l; f s' x).
Proof.
  rewrite fold_m_app. destruct (fold_m f s l) as [s'|?|?]; simpl; [|done..].
  by destruct (f s' x).
Qed.

(** An invariant of the loop body holds after a successful loop. *)
Lemma fold_m_inv {E S A} (f : S → A → outcome E S) (P : list A → S → Prop) s0 l s :
  P [] s0 →
  (∀ done x s s', P done s → f s x = Ok s' → P (done ++ [x]) s') →
  fold_m f s0 l = Ok s → P l s.
Proof.
  intros H0 Hstep. revert s. induction l as [|x l IH] using rev_ind; intros s.
  { by intros [= <-]. }
  rewrite fold_m_snoc. intros (s' & Hl & Hx)%bind_ok. by eapply Hstep; [apply IH|].
Qed.

Lemma fold_m_inv_in {E S A} (f : S → A → outcome E S) (P : list A → S → Prop) l s0 s :
  (∀ pre x s s', x ∈ l → P pre s → f s x = Ok s' → P (pre ++ [x]) s') →
  P [] s0 → fold_m f s0 l = Ok s → P l s.
Proof.
  intros Hstep H0. revert s Hstep. induction l as [|x l IH] using rev_ind; intros s Hstep.
  { by intros [= <-]. }
  rewrite fold_m_snoc. intros (s' & Hl & Hx)%bind_ok. eapply Hstep; [set_solver| |exact Hx].
  apply IH; [|done]. intros; eapply Hstep; [set_solver|done|done].
Qed.

(** The same for a loop with effects. *)
Lemma fold_m_io_inv {W E S A} (f : S → A → io W E S) (P : list A → S → Prop) l :
  (∀ pre x s w s' w', P pre s → f s x w = (Ok s', w') → P (pre ++ [x]) s') →
  ∀ pre s0 w s w', P pre s0 → fold_m f s0 l w = (Ok s, w') → P (pre ++ l) s.
Proof.
  intros Hstep. induction l as [|x l IH]; intros pre s0 w s w' H0; cbn [fold_m].
  - intros [<- _]%io_ret_ok. by rewrite app_nil_r.
  - intros (s1 & w1 & H1 & H2)%io_bind_ok. rewrite (assoc (++) pre [x] l).
    eapply IH; [|exact H2]. by eapply Hstep.
Qed.

(** The same when the step only needs to be known for the elements of the list. *)
Lemma fold_m_io_inv_in {W E S A} (f : S → A → io W E S) (P : list A → S → Prop) l s0 w s w' :
  (∀ pre x s w s' w', x ∈ l → P pre s → f s x w = (Ok s', w') → P (pre ++ [x]) s') →
  P [] s0 → fold_m f s0 l w = (Ok s, w') → P l s.
Proof.
  intros Hstep H0 Hf.
  assert (∀ k pre s0 w, (∀ x, x ∈ k → x ∈ l) → P pre s0 → fold_m f s0 k w = (Ok s, w') →
    P (pre ++ k) s) as Hgo.
  { intros k. induction k as [|x k IH]; intros pre s1 w1 Hin HP; cbn [fold_m].
    - intros [<- _]%io_ret_ok. by rewrite app_nil_r.
    - intros (s2 & w2 & H1 & H2)%io_bind_ok. rewrite (assoc (++) pre [x] k).
      eapply IH; [intros; apply Hin; by right| |exact H2]. eapply Hstep; [|exact HP|exact H1].
      apply Hin. left. }
  by apply (Hgo l [] s0 w).
Qed.

Lemma mapM_ok {E A B} (f : A → outcome E B) l k :
  mapM f l = Ok k ↔ Forall2 (fun x y => f x = Ok y) l k.
Proof.
  split.
  - revert k. induction l as [|x l IH]; intros k; cbn [mapM]; [by intros [= <-]|].
    intros (y & Hy & (ys & Hys & [= <-])%bind_ok)%bind_ok. constructor; auto.
  - induction 1 as [|x y l k Hy _ IH]; cbn [mapM]; [done|]. rewrite Hy. simpl. by rewrite IH.
Qed.

(** A traversal of a total function is a [map]. *)
Lemma mapM_map {E A B} (f : A → outcome E B) (g : A → B) l :
  (∀ x, x ∈ l → f x = Ok (g x)) → mapM f l = Ok (map g l).
Proof.
  intros Hf. apply mapM_ok. induction l as [|x l IH]; cbn [map]; constructor.
  - apply Hf. left.
  - apply IH. intros; apply Hf. by right.
Qed.

(** *** Computations that never panic *)

Definition no_panic {E A} (m : outcome E A) : Prop := ∀ s, m ≠ Panic s.

Create HintDb no_panic.

Lemma no_panic_Ok {E A} (a : A) : no_panic (Ok a : outcome E A).
Proof. by intros s. Qed.
Lemma no_panic_Err {E A} (e : E) : no_panic (Err e : outcome E A).
Proof. by intros s. Qed.
Lemma no_panic_mret {E A} (a : A) : no_panic (mret a : outcome E A).
Proof. by intros s. Qed.
Lemma no_panic_bail_if {E} b (e : E) : no_panic (bail_if b e).
Proof. by destruct b; intros s. Qed.
Lemma no_panic_ok_or {E A} (o : option A) (e : E) : no_panic (ok_or o e).
Proof. by destruct o; intros s. Qed.
Lemma no_panic_map_err {E1 E2 A} (f : E1 → E2) (m : outcome E1 A) :
  no_panic m → no_panic (map_err f m).
Proof. intros Hm s. destruct m; simpl; try done. by specialize (Hm why). Qed.
Lemma no_panic_bind {E A B} (m : outcome E A) (f : A → outcome E B) :
  no_panic m → (∀ a, m = Ok a → no_panic (f a)) → no_panic (m ≫= f).
Proof. intros Hm Hf s [?|(a & Ha & Hs)]%bind_panic; [by eapply Hm|by eapply (Hf a)]. Qed.
Lemma no_panic_mapM {E A B} (f : A → outcome E B) l :
  (∀ x, x ∈ l → no_panic (f x)) → no_panic (mapM f l).
Proof.
  induction l as [|x l IH]; intros Hf; cbn [mapM]; [apply no_panic_mret|].
  apply no_panic_bind; [apply Hf; left|]. intros y _.
  apply no_panic_bind; [apply IH; intros; apply Hf; by right|]. intros ? _. apply no_panic_mret.
Qed.
Lemma no_panic_fold_m {E S A} (f : S → A → outcome E S) s l :
  (∀ s x, x ∈ l → no_panic (f s x)) → no_panic (fold_m f s l).
Proof.
  revert s. induction l as [|x l IH]; intros s Hf; cbn [fold_m]; [apply no_panic_mret|].
  apply no_panic_bind; [apply Hf; left|]. intros s' _. apply IH. intros; apply Hf; by right.
Qed.

#[export] Hint Resolve no_panic_Ok no_panic_Err no_panic_mret no_panic_bail_if no_panic_ok_or
  no_panic_map_err no_panic_bind no_panic_mapM no_panic_fold_m : no_panic.

(** Split a monadic program into its steps and close the known ones. *)
Ltac solve_no_panic :=
  repeat match goal with
  | |- no_panic (_ ≫= _) => apply no_panic_bind; [|intros ? ?]
  | |- no_panic (match ?x with _ => _ end) => destruct x
  | |- no_panic (if ?x then _ else _) => destruct x
  | |- no_panic (mapM _ _) => apply no_panic_mapM; intros
  | |- no_panic (fold_m _ _ _) => apply no_panic_fold_m; intros
  end; eauto with no_panic.

(** *** The errors a computation can end in *)

Definition only_errs {E A} (P : E → Prop) (m : outcome E A) : Prop := ∀ e, m = Err e → P e.

Create HintDb only_errs.

Lemma only_errs_Ok {E A} (P : E → Prop) (a : A) : only_errs P (Ok a).
Proof. by intros e. Qed.
Lemma only_errs_Err {E A} (P : E → Prop) e : P e → only_errs P (Err e : outcome E A).
Proof. by intros He e' [= <-]. Qed.
Lemma only_errs_Panic {E A} (P : E → Prop) s : only_errs P (Panic s : outcome E A).
Proof. by intros e. Qed.
Lemma only_errs_bail_if {E} (P : E → Prop) b (e : E) : P e → only_errs P (bail_if b e).
Proof. intros He e' [_ ->]%bail_if_err. done. Qed.
Lemma only_errs_ok_or {E A} (P : E → Prop) (o : option A) (e : E) : P e → only_errs P (ok_or o e).
Proof. intros He e'. destruct o; simpl; congruence. Qed.
Lemma only_errs_bind {E A B} (P : E → Prop) (m : outcome E A) (f : A → outcome E B) :
  only_errs P m → (∀ a, m = Ok a → only_errs P (f a)) → only_errs P (m ≫= f).
Proof. intros Hm Hf e [?|(a & Ha & Hs)]%bind_err; [by apply Hm|by eapply (Hf a)]. Qed.
Lemma only_errs_mapM {E A B} (P : E → Prop) (f : A → outcome E B) l :
  (∀ x, x ∈ l → only_errs P (f x)) → only_errs P (mapM f l).
Proof.
  induction l as [|x l IH]; intros Hf; cbn [mapM]; [apply only_errs_Ok|].
  apply only_errs_bind; [apply Hf; left|]. intros y _.
  apply only_errs_bind; [apply IH; intros; apply Hf; by right|]. intros ? _. apply only_errs_Ok.
Qed.
Lemma only_errs_fold_m {E S A} (P : E → Prop) (f : S → A → outcome E S) s l :
  (∀ s x, x ∈ l → only_errs P (f s x)) → only_errs P (fold_m f s l).
Proof.
  revert s. induction l as [|x l IH]; intros s Hf; cbn [fold_m]; [apply only_errs_Ok|].
  apply only_errs_bind; [apply Hf; left|]. intros s' _. apply IH. intros; apply Hf; by right.
Qed.

#[export] Hint Resolve only_errs_Ok only_errs_Err only_errs_Panic only_errs_bail_if
  only_errs_ok_or only_errs_bind only_errs_mapM only_errs_fold_m : only_errs.

Ltac solve_only_errs :=
  repeat match goal with
  | |- only_errs _ (_ ≫= _) => apply only_errs_bind; [|intros ? ?]
  | |- only_errs _ (match ?x with _ => _ end) => destruct x
  | |- only_errs _ (if ?x then _ else _) => destruct x
  | |- only_errs _ (mapM _ _) => apply only_errs_mapM; intros
  | |- only_errs _ (fold_m _ _ _) => apply only_errs_fold_m; intros
  end; eauto with only_errs.

(** The panics a stateful computation can end in. *)
Definition panics_only {W E A} (P : string → Prop) (m : io W E A) : Prop :=
  ∀ w s w', m w = (Panic s, w') → P s.

Create HintDb panics.

Lemma panics_only_lift {W E A} P (m : outcome E A) : no_panic m → panics_only P (lift m : io W E A).
Proof. intros Hm w s w' [= Hs _]. by destruct (Hm s). Qed.
Lemma panics_only_lift_panic {W E A} (P : string → Prop) (m : outcome E A) :
  (∀ s, m = Panic s → P s) → panics_only P (lift m : io W E A).
Proof. intros Hm w s w' [= Hs _]. by apply Hm. Qed.
Lemma panics_only_mret {W E A} P (a : A) : panics_only P (mret a : io W E A).
Proof. intros w s w' [=]. Qed.
Lemma panics_only_bind {W E A B} P (m : io W E A) (f : A → io W E B) :
  panics_only P m → (∀ w a w', m w = (Ok a, w') → panics_only P (f a)) → panics_only P (m ≫= f).
Proof.
  intros Hm Hf w s w'. unfold mbind, io_bind. destruct (m w) as [[a|e|t] w1] eqn:Em; intros Hs.
  - by eapply Hf.
  - done.
  - injection Hs as <- <-. by eapply Hm.
Qed.
Lemma panics_only_map_err {W E1 E2 A} P (f : E1 → E2) (m : io W E1 A) :
  panics_only P m → panics_only P (map_err_io f m).
Proof.
  intros Hm w s w'. unfold map_err_io. destruct (m w) as [[a|e|t] w1] eqn:Em; intros [=].
  subst. by eapply Hm.
Qed.
Lemma panics_only_fold_m {W E S A} P (f : S → A → io W E S) l :
  (∀ s x, x ∈ l → panics_only P (f s x)) → ∀ s, panics_only P (fold_m f s l).
Proof.
  induction l as [|x l IH]; intros Hf s; cbn [fold_m]; [apply panics_only_mret|].
  apply panics_only_bind; [apply Hf; left|]. intros w s' w' _. apply IH. intros; apply Hf; by right.
Qed.
#[export] Hint Resolve panics_only_lift panics_only_mret panics_only_map_err panics_only_fold_m : panics.
Ltac solve_panics :=
  repeat match goal with
  | |- panics_only _ (_ ≫= _) => apply panics_only_bind; [|intros ? ? ? ?]
  | |- panics_only _ (match ?x with _ => _ end) => destruct x
  | |- panics_only _ (if ?x then _ else _) => destruct x
  | |- panics_only _ (lift _) => apply panics_only_lift
  end; eauto with panics no_panic.

(** [inv_ok H] turns a success of a monadic program into the successes of
    its steps, repeatedly. *)
Ltac inv_ok_step H :=
  lazymatch type of H with
  | (_ ≫= _) = Ok _ => apply bind_ok in H; destruct H as (? & ? & H)
  | (_ ≫= _) _ = (Ok _, _) => apply io_bind_ok in H; destruct H as (? & ? & ? & H)
  | bail_if _ _ = Ok _ => apply bail_if_ok in H
  | ok_or _ _ = Ok _ => apply ok_or_ok in H
  | map_err _ _ = Ok _ => apply map_err_ok in H
  | map_err_io _ _ _ = (Ok _, _) => apply map_err_io_ok in H
  | lift _ _ = (Ok _, _) => apply lift_ok in H; destruct H as [H ->]
  | mret _ = Ok _ => apply mret_ok in H
  | mret _ _ = (Ok _, _) => apply io_ret_ok in H; destruct H as [H ?]
  | Ok _ = Ok _ => injection H as H
  end.
Ltac inv_all_ok :=
  repeat match goal with H : _ = _ |- _ => progress inv_ok_step H end;
  simplify_eq.

(* ------------------------------------------------------------------ *)
(** ** Integers

    [BigUint] is an unbounded natural number, [N].  A [u64] (and [usize] on
    the 64-bit targets) is an [N] below [2^64]; plain [+], [-] and [*] on it
    wrap, because the release profile leaves overflow checks off. *)

Open Scope N_scope.

Definition u64_modulus : N := 2 ^ 64.
Definition u64_max : N := 2 ^ 64 - 1.
Definition usize_max : N := u64_max.

Definition u64_add (a b : N) : N := (a + b) mod u64_modulus.
Definition u64_sub (a b : N) : N := (a + u64_modulus - b) mod u64_modulus.
Definition u64_mul (a b : N) : N := (a * b) mod u64_modulus.

Definition checked_add (a b : N) : option N :=
  if a + b <=? u64_max then Some (a + b) else None.
Definition checked_sub (a b : N) : option N :=
  if b <=? a then Some (a - b) else None.
Definition checked_mul (a b : N) : option N :=
  if a * b <=? u64_max then Some (a * b) else None.
Definition saturating_add (a b : N) : N := N.min (a + b) u64_max.
Definition saturating_sub (a b : N) : N := a - b.
Definition saturating_mul (a b : N) : N := N.min (a * b) u64_max.

(** [BigUint] subtraction panics below zero, division by zero panics. *)
Definition big_sub {E} (a b : N) : outcome E N :=
  if b <=? a then Ok (a - b) else Panic "BigUint subtraction underflow".
Definition big_div {E} (a b : N) : outcome E N :=
  if b =? 0 then Panic "division by zero" else Ok (a / b).
(** [u64 / u64], [u64::div_ceil] and [%] panic on a zero divisor as well. *)
Definition u64_div {E} (a b : N) : outcome E N := big_div a b.
Definition div_ceil {E} (a b : N) : outcome E N :=
  if b =? 0 then Panic "division by zero"
  else Ok (if 0 <? a mod b then a / b + 1 else a / b).

Lemma u64_add_small a b : a + b < u64_modulus → u64_add a b = a + b.
Proof. intros. by apply N.mod_small. Qed.

Lemma u64_add_unsaturated a b c : saturating_add a b ≤ c → c < u64_max → u64_add a b = a + b.
Proof.
  unfold saturating_add. intros Hs Hc. apply u64_add_small. unfold u64_max, u64_modulus in *. lia.
Qed.

Lemma u64_mul_small a b : a * b < u64_modulus → u64_mul a b = a * b.
Proof. intros. by apply N.mod_small. Qed.

Lemma u64_sub_small a b : b ≤ a → a < u64_modulus → u64_sub a b = a - b.
Proof.
  intros Hle Hlt. unfold u64_sub.
  replace (a + u64_modulus - b) with ((a - b) + 1 * u64_modulus) by lia.
  rewrite N.Div0.mod_add. apply N.mod_small. lia.
Qed.

Lemma checked_add_Some a b c :
  checked_add a b = Some c ↔ c = a + b ∧ a + b ≤ u64_max.
Proof. unfold checked_add. destruct (N.leb_spec (a + b) u64_max); naive_solver lia. Qed.

Lemma checked_sub_Some a b c : checked_sub a b = Some c ↔ c = a - b ∧ b ≤ a.
Proof. unfold checked_sub. destruct (N.leb_spec b a); naive_solver lia. Qed.

Lemma big_sub_ok {E} a b c : (big_sub a b : outcome E N) = Ok c ↔ c = a - b ∧ b ≤ a.
Proof. unfold big_sub. destruct (N.leb_spec b a); naive_solver lia. Qed.

Lemma big_sub_le {E} a b : b ≤ a → (big_sub a b : outcome E N) = Ok (a - b).
Proof. intros. by apply big_sub_ok. Qed.

Lemma big_div_ok {E} a b c : (big_div a b : outcome E N) = Ok c ↔ c = a / b ∧ b ≠ 0.
Proof. unfold big_div. destruct (N.eqb_spec b 0); naive_solver. Qed.

Lemma big_div_nz {E} a b : b ≠ 0 → (big_div a b : outcome E N) = Ok (a / b).
Proof. intros. by apply big_div_ok. Qed.

Lemma div_ceil_spec {E} a b c :
  (div_ceil a b : outcome E N) = Ok c → b ≠ 0 ∧ a ≤ c * b ∧ c * b < a + b.
Proof.
  unfold div_ceil. destruct (N.eqb_spec b 0) as [|Hb]; [done|].
  pose proof (N.div_mod a b Hb). pose proof (N.mod_lt a b Hb).
  revert H H0; generalize (a / b), (a mod b); intros q r -> Hr.
  destruct (N.ltb_spec 0 r); intros [= <-]; lia.
Qed.

Lemma N_div_mul_le a b : a / b * b ≤ a.
Proof. rewrite N.mul_comm. apply N.Div0.mul_div_le. Qed.

Lemma N_div_le_mono a b c : a ≤ b → a / c ≤ b / c.
Proof. apply N.Div0.div_le_mono. Qed.

(** Floor division is subadditive, the fact behind every solvency bound. *)
Lemma N_div_add_le a b c : a / c + b / c ≤ (a + b) / c.
Proof.
  destruct (N.eq_dec c 0) as [->|Hc]; [by destruct a, b|].
  apply N.div_le_lower_bound; [done|].
  pose proof (N.Div0.mul_div_le a c). pose proof (N.Div0.mul_div_le b c). lia.
Qed.

(** *** Sums *)

Definition sum_N (l : list N) : N := foldr N.add 0 l.

Lemma sum_N_app l k : sum_N (l ++ k) = sum_N l + sum_N k.
Proof. induction l; simpl; lia. Qed.

Lemma foldl_add_sum {A} (f : A → N) l a :
  foldl (fun s x => s + f x) a l = a + sum_N (map f l).
Proof. revert a; induction l as [|x l IH]; intros a; simpl; [lia|]. rewrite IH; lia. Qed.

Lemma sum_N_le {A} (f g : A → N) l :
  (∀ x, x ∈ l → f x ≤ g x) → sum_N (map f l) ≤ sum_N (map g l).
Proof.
  induction l as [|x l IH]; simpl; intros H; [lia|].
  pose proof (H x ltac:(left)). assert (sum_N (map f l) ≤ sum_N (map g l)); [|lia].
  apply IH; intros; apply H; by right.
Qed.

Lemma sum_N_zero {A} (f : A → N) l : (∀ x, x ∈ l → f x = 0) → sum_N (map f l) = 0.
Proof.
  induction l as [|x l IH]; simpl; intros Hf; [done|].
  rewrite Hf by left. rewrite IH; [done|]. intros; apply Hf; by right.
Qed.

Lemma sum_N_div_le {A} (f : A → N) l c :
  sum_N (map (fun x => f x / c) l) ≤ sum_N (map f l) / c.
Proof.
  induction l as [|x l IH]; simpl; [apply N.le_0_l|].
  etrans; [|apply N_div_add_le]. lia.
Qed.

Lemma sum_N_mul {A} (f : A → N) l c :
  sum_N (map (fun x => f x * c) l) = sum_N (map f l) * c.
Proof. induction l; simpl; lia. Qed.

Lemma sum_N_perm l k : l ≡ₚ k → sum_N l = sum_N k.
Proof. induction 1; simpl; lia. Qed.

(* ------------------------------------------------------------------ *)
(** ** Ordered keys, stable sorting, [BTreeMap] iteration *)

(** What [sort_by_key], [BTreeMap] and [BTreeSet] ask of a key type
    (Rust's [Ord]): a decidable strict total order. *)
Class KeyOrder (K : Type) := {
  key_lt : relation K;
  key_lt_dec :: RelDecision key_lt;
  key_lt_strict :: StrictOrder key_lt;
  key_trichotomy : ∀ x y, x = y ∨ key_lt x y ∨ key_lt y x
}.

#[export] Instance N_key_order : KeyOrder N.
Proof.
  refine {| key_lt := N.lt; key_lt_dec := N.lt_dec |}.
  intros x y. destruct (N.lt_trichotomy x y); naive_solver.
Defined.

(** Tuples compare lexicographically. *)
Definition pair_lt {A B} `{KeyOrder A, KeyOrder B} (x y : A * B) : Prop :=
  key_lt x.1 y.1 ∨ (x.1 = y.1 ∧ key_lt x.2 y.2).

#[export] Instance pair_lt_dec {A B} `{KeyOrder A, KeyOrder B, !EqDecision A} :
  RelDecision (@pair_lt A B _ _).
Proof. intros x y. unfold Decision, pair_lt. solve_decision. Defined.

#[export] Instance pair_key_order {A B} `{KeyOrder A, KeyOrder B, !EqDecision A} :
  KeyOrder (A * B).
Proof.
  refine {| key_lt := pair_lt; key_lt_dec := pair_lt_dec |}.
  - unfold pair_lt. constructor.
    + intros [a b] [Hl|[_ Hl]]; simpl in Hl; by apply (irreflexivity key_lt) in Hl.
    + intros [a1 b1] [a2 b2] [a3 b3]; simpl. intros [?|[??]] [?|[??]]; simplify_eq/=.
      * left. by transitivity a2.
      * by left.
      * by left.
      * right. split; [done|by transitivity b2].
  - unfold pair_lt. intros [a1 b1] [a2 b2]; simpl.
    destruct (key_trichotomy a1 a2) as [->|[?|?]]; [|by auto..].
    destruct (key_trichotomy b1 b2) as [->|[?|?]]; auto 6.
Defined.

Lemma key_lt_asym {K} `{KeyOrder K} (x y : K) : key_lt x y → ¬ key_lt y x.
Proof. intros H1 H2. exact (irreflexivity key_lt x (transitivity H1 H2)). Qed.

Lemma key_nlt_trans {K} `{KeyOrder K} (x y z : K) :
  ¬ key_lt y x → ¬ key_lt z y → ¬ key_lt z x.
Proof.
  intros Hyx Hzy Hzx. destruct (key_trichotomy y z) as [->|[Hyz|?]]; [done| |done].
  apply Hyx. by etrans.
Qed.

(** [slice::sort_by_key]: stable, so determined by the order. *)
Section StableSort.
Context {A K : Type} `{KeyOrder K} (f : A → K).

Fixpoint insert_by (x : A) (l : list A) : list A :=
  match l with
  | [] => [x]
  | y :: l' => if decide (key_lt (f y) (f x)) then y :: insert_by x l' else x :: l
  end.
Definition sort_by_key (l : list A) : list A := foldr insert_by [] l.

(** Non-decreasing keys. *)
Definition key_le_on (x y : A) : Prop := ¬ key_lt (f y) (f x).
Definition key_lt_on (x y : A) : Prop := key_lt (f x) (f y).

Lemma insert_by_perm x l : insert_by x l ≡ₚ x :: l.
Proof.
  induction l as [|y l IH]; simpl; [done|]. case_decide; [|done].
  rewrite IH. constructor.
Qed.

Lemma sort_by_key_perm l : sort_by_key l ≡ₚ l.
Proof. induction l as [|x l IH]; simpl; [done|]. by rewrite insert_by_perm, IH. Qed.

Lemma sort_by_key_elem l x : x ∈ sort_by_key l ↔ x ∈ l.
Proof. by rewrite sort_by_key_perm. Qed.

Lemma insert_by_sorted x l :
  StronglySorted key_le_on l → StronglySorted key_le_on (insert_by x l).
Proof.
  induction 1 as [|y l Hl IH Hy]; simpl; [repeat constructor|].
  case_decide as Hlt.
  - constructor; [done|]. rewrite insert_by_perm. constructor; [|done].
    by apply key_lt_asym.
  - constructor; [by constructor|]. constructor; [done|].
    eapply Forall_impl; [exact Hy|]. intros z Hz. by eapply key_nlt_trans.
Qed.

Lemma sort_by_key_sorted l : StronglySorted key_le_on (sort_by_key l).
Proof. induction l; simpl; [constructor|]. by apply insert_by_sorted. Qed.

(** With pairwise distinct keys the order is strict. *)
Lemma sorted_nodup_strict l :
  StronglySorted key_le_on l → NoDup (map f l) → StronglySorted key_lt_on l.
Proof.
  induction 1 as [|x l Hl IH Hx]; intros Hnd; [constructor|].
  apply NoDup_cons in Hnd as [Hni Hnd].
  constructor; [by apply IH|]. apply Forall_forall. intros y Hy.
  rewrite Forall_forall in Hx. specialize (Hx y Hy). unfold key_le_on, key_lt_on in *.
  destruct (key_trichotomy (f x) (f y)) as [Heq|[?|?]]; [|done|done].
  destruct Hni. rewrite Heq. apply list_elem_of_fmap. eauto.
Qed.

Lemma strict_sorted_perm_eq l1 l2 :
  StronglySorted key_lt_on l1 → StronglySorted key_lt_on l2 → l1 ≡ₚ l2 → l1 = l2.
Proof.
  intros H1; revert l2. induction H1 as [|x l1 Hl1 IH Hx]; intros l2 H2 Hp.
  { by apply Permutation_nil in Hp. }
  destruct H2 as [|y l2 Hl2 Hy].
  { by apply symmetry, Permutation_nil in Hp. }
  assert (x = y) as ->.
  { rewrite Forall_forall in Hx, Hy.
    assert (x ∈ y :: l2) as Hxi by (rewrite <-Hp; left).
    assert (y ∈ x :: l1) as Hyi by (rewrite Hp; left).
    apply elem_of_cons in Hxi as [?|Hxi]; [done|].
    apply elem_of_cons in Hyi as [?|Hyi]; [done|].
    destruct (key_lt_asym (f x) (f y)); [by apply Hx|by apply Hy]. }
  f_equal. apply IH; [done|]. by apply (inj (y ::.)) in Hp.
Qed.

(** Sorting forgets the input order when keys are distinct. *)
Lemma sort_by_key_perm_eq l1 l2 :
  l1 ≡ₚ l2 → NoDup (map f l1) → sort_by_key l1 = sort_by_key l2.
Proof.
  intros Hp Hnd. apply strict_sorted_perm_eq.
  - apply sorted_nodup_strict; [apply sort_by_key_sorted|].
    by rewrite sort_by_key_perm.
  - apply sorted_nodup_strict; [apply sort_by_key_sorted|].
    by rewrite sort_by_key_perm, <-Hp.
  - by rewrite !sort_by_key_perm.
Qed.

Lemma sort_by_key_id l : StronglySorted key_lt_on l → sort_by_key l = l.
Proof.
  induction 1 as [|x l Hl IH Hx]; simpl; [done|]. rewrite IH.
  destruct l as [|y l]; simpl; [done|]. apply Forall_cons in Hx as [Hxy _].
  rewrite decide_False; [done|]. by apply key_lt_asym.
Qed.
End StableSort.

(** Iterating a [BTreeMap] visits the entries by increasing key. *)
Section BTree.
Context {K V : Type} `{KeyOrder K, Countable K}.

Definition btree_iter (m : gmap K V) : list (K * V) := sort_by_key fst (map_to_list m).
(** [map.entry(k).or_default()] followed by an in-place update [f]. *)
Definition btree_entry (d : V) (f : V → V) (k : K) (m : gmap K V) : gmap K V :=
  <[k := f (default d (m !! k))]> m.

Lemma btree_iter_sorted m : StronglySorted (key_lt_on fst) (btree_iter m).
Proof.
  apply sorted_nodup_strict; [apply sort_by_key_sorted|].
  unfold btree_iter. rewrite sort_by_key_perm. apply NoDup_fst_map_to_list.
Qed.

Lemma elem_of_btree_iter m k v : (k, v) ∈ btree_iter m ↔ m !! k = Some v.
Proof. unfold btree_iter. by rewrite sort_by_key_elem, elem_of_map_to_list. Qed.
End BTree.

Definition btree_set_iter {K} `{KeyOrder K, Countable K} (s : gset K) : list K :=
  sort_by_key id (elements s).

Lemma elem_of_btree_set_iter {K} `{KeyOrder K, Countable K} (s : gset K) k :
  k ∈ btree_set_iter s ↔ k ∈ s.
Proof. unfold btree_set_iter. by rewrite sort_by_key_elem, elem_of_elements. Qed.

Lemma btree_set_iter_nodup {K} `{KeyOrder K, Countable K} (s : gset K) :
  NoDup (btree_set_iter s).
Proof. unfold btree_set_iter. rewrite sort_by_key_perm. apply NoDup_elements. Qed.

(* ------------------------------------------------------------------ *)
(** ** Sums over block ranges *)

(** [range_sum h a b] adds [h k] for [a <= k < b]. *)
Definition range_sum (h : N → N) (a b : N) : N :=
  sum_N (map (fun i => h (a + N.of_nat i)) (seq 0 (N.to_nat (b - a)))).

Lemma range_sum_empty h a b : b ≤ a → range_sum h a b = 0.
Proof. intros. unfold range_sum. by replace (N.to_nat (b - a)) with 0%nat by lia. Qed.

Lemma map_seq_shift {A} (f : nat → A) m n :
  map f (seq m n) = map (fun i => f (m + i)%nat) (seq 0 n).
Proof.
  revert f m. induction n as [|n IH]; intros f m; simpl; [done|]. f_equal.
  - f_equal. lia.
  - rewrite (IH f (S m)), (IH (fun i => f (m + i)%nat) 1%nat).
    apply map_ext. intros i. f_equal. lia.
Qed.

Lemma range_sum_split h a b c : a ≤ b → b ≤ c → range_sum h a c = range_sum h a b + range_sum h b c.
Proof.
  intros Hab Hbc. unfold range_sum.
  replace (N.to_nat (c - a)) with (N.to_nat (b - a) + N.to_nat (c - b))%nat by lia.
  rewrite seq_app, map_app, sum_N_app. f_equal. cbn [Nat.add].
  rewrite map_seq_shift. f_equal. apply map_ext. intros i. f_equal. lia.
Qed.

Lemma range_sum_ext h g a b :
  (∀ k, a ≤ k → k < b → h k = g k) → range_sum h a b = range_sum g a b.
Proof.
  intros E. unfold range_sum. f_equal. apply map_ext_in. intros i Hi.
  apply in_seq in Hi. apply E; lia.
Qed.

Lemma range_sum_const v a b : range_sum (fun _ => v) a b = v * (b - a).
Proof.
  unfold range_sum.
  assert (∀ n j, sum_N (map (fun _ : nat => v) (seq j n)) = v * N.of_nat n) as ->.
  { induction n as [|n IH]; intros j; cbn [seq map sum_N foldr]; [lia|].
    fold (sum_N (map (fun _ : nat => v) (seq (S j) n))). rewrite IH. lia. }
  lia.
Qed.

Lemma range_sum_extend h a b c v :
  a ≤ b → b ≤ c → (∀ k, b ≤ k → k < c → h k = v) →
  range_sum h a c = range_sum h a b + v * (c - b).
Proof.
  intros Hab Hbc E. rewrite (range_sum_split h a b c) by done.
  f_equal. by rewrite <-range_sum_const, (range_sum_ext h (fun _ => v)).
Qed.
