(* ===== verification/Bytes.v ===== *)
(** * Bytes, fixed-size arrays, hexadecimal and decimal text

    The byte-level vocabulary of the program: [[u8; 20]] and [[u8; 32]] as
    length-indexed byte arrays with Rust's lexicographic order, big-endian
    words, [str] helpers, decimal [BigUint] text, and the interface of the
    [hex] and [sha3] crates, which are not part of the repository. *)

From S2P Require Import Prelude.
From stdpp Require Import base tactics option list gmap sets strings countable.
From Stdlib Require Import Strings.Byte.
From Stdlib Require Import NArith DecimalString DecimalN Decimal Lia.

Open Scope N_scope.

(* ------------------------------------------------------------------ *)
(** ** Bytes *)

#[export] Instance byte_eq_dec : EqDecision byte := Byte.byte_eq_dec.
#[export] Instance byte_countable : Countable byte :=
  inj_countable Byte.to_N Byte.of_N Byte.of_to_N.

(** [n as u8]. *)
Definition byte_of_N (n : N) : byte := default x00 (Byte.of_N (n mod 256)).

Lemma byte_to_of_N n : Byte.to_N (byte_of_N n) = n mod 256.
Proof.
  unfold byte_of_N. destruct (Byte.of_N (n mod 256)) eqn:E; simpl.
  - by apply Byte.to_of_N.
  - apply Byte.of_N_None_iff in E. pose proof (N.mod_lt n 256). lia.
Qed.

Lemma byte_of_to_N b : byte_of_N (Byte.to_N b) = b.
Proof.
  unfold byte_of_N. pose proof (Byte.to_N_bounded b).
  rewrite N.mod_small by lia. by rewrite Byte.of_to_N.
Qed.

(** Transport an order along an injection. *)
Section KeyVia.
Context {A B : Type} `{KeyOrder B} (f : A → B) `{!Inj (=) (=) f}.
Definition key_order_via : KeyOrder A.
Proof.
  refine {| key_lt := fun x y => key_lt (f x) (f y);
            key_lt_dec := fun x y => key_lt_dec (f x) (f y) |}.
  - constructor.
    + intros x Hx. by apply (irreflexivity key_lt) in Hx.
    + intros x y z Hxy Hyz. by transitivity (f y).
  - intros x y. destruct (key_trichotomy (f x) (f y)) as [?%(inj f)|?]; auto.
Defined.
End KeyVia.

#[export] Instance byte_to_N_inj : Inj (=) (=) Byte.to_N.
Proof. intros a b E. rewrite <-(byte_of_to_N a), <-(byte_of_to_N b). by f_equal. Qed.
#[export] Instance byte_key_order : KeyOrder byte := key_order_via Byte.to_N.

(** [Ord] of slices: lexicographic, a proper prefix is smaller. *)
Section Lex.
Context {A : Type} `{KeyOrder A, !EqDecision A}.
Fixpoint lex_ltb (l k : list A) : bool :=
  match l, k with
  | _, [] => false
  | [], _ :: _ => true
  | x :: l, y :: k =>
      if decide (key_lt x y) then true
      else if decide (x = y) then lex_ltb l k else false
  end.
Definition lex_lt (l k : list A) : Prop := Is_true (lex_ltb l k).

Lemma lex_lt_cons x y l k :
  lex_lt (x :: l) (y :: k) ↔ key_lt x y ∨ (x = y ∧ lex_lt l k).
Proof.
  unfold lex_lt; simpl. case_decide; [naive_solver|].
  case_decide; naive_solver.
Qed.

Lemma lex_irrefl l : ¬ lex_lt l l.
Proof.
  induction l as [|x l IH]; [by intros []|]. rewrite lex_lt_cons.
  intros [Hx|[_ ?]]; [by apply (irreflexivity key_lt) in Hx|by apply IH].
Qed.

Lemma lex_trans l k m : lex_lt l k → lex_lt k m → lex_lt l m.
Proof.
  revert k m. induction l as [|x l IH]; intros [|y k] [|z m];
    try (unfold lex_lt; simpl; tauto).
  rewrite !lex_lt_cons. intros [?|[-> ?]] [?|[-> ?]].
  - left. by transitivity y.
  - by left.
  - by left.
  - right. split; [done|]. by eapply IH.
Qed.

Lemma lex_trich l k : l = k ∨ lex_lt l k ∨ lex_lt k l.
Proof.
  revert k. induction l as [|x l IH]; intros [|y k];
    [by left|by right; left|by right; right|].
  rewrite !lex_lt_cons.
  destruct (key_trichotomy x y) as [->|[?|?]]; [|by auto..].
  destruct (IH k) as [->|[?|?]]; auto 6.
Qed.

#[export] Instance list_key_order : KeyOrder (list A).
Proof.
  refine {| key_lt := lex_lt; key_lt_dec := fun l k => Is_true_dec (lex_ltb l k) |}.
  - constructor; [exact lex_irrefl|exact lex_trans].
  - exact lex_trich.
Defined.
End Lex.

(* ------------------------------------------------------------------ *)
(** ** Fixed-size byte arrays *)

(** [[u8; n]]. *)
Record array (n : nat) := Array {
  array_val : list byte;
  array_len : Is_true (Nat.eqb (length array_val) n)
}.
Arguments array_val {n} _.
Arguments array_len {n} _.
Arguments Array {n} _ _.

Lemma array_length {n} (a : array n) : length (array_val a) = n.
Proof. destruct a as [l Hl]; simpl. by apply Nat.eqb_eq, Is_true_true. Qed.

#[export] Instance array_val_inj n : Inj (=) (=) (@array_val n).
Proof. intros [l Hl] [k Hk]; simpl; intros ->. f_equal. apply proof_irrel. Qed.

#[export] Instance array_eq_dec n : EqDecision (array n).
Proof.
  intros a b. destruct (decide (array_val a = array_val b)) as [E|E].
  - left. by apply array_val_inj.
  - right. congruence.
Defined.

Lemma array_of_len (n : nat) (l : list byte) :
  Is_true (Nat.eqb (length (resize n x00 l)) n).
Proof. rewrite length_resize. by rewrite Nat.eqb_refl. Qed.

(** Total constructor: zero-fill or truncate on the right. *)
Definition array_of (n : nat) (l : list byte) : array n :=
  Array (resize n x00 l) (array_of_len n l).

(** [<[u8; n]>::try_from(slice)]: only a slice of the exact length. *)
Definition try_array (n : nat) (l : list byte) : option (array n) :=
  if Nat.eqb (length l) n then Some (array_of n l) else None.

Lemma array_val_of n l : length l = n → array_val (array_of n l) = l.
Proof. intros <-. apply resize_all. Qed.

Lemma array_of_val {n} (a : array n) : array_of n (array_val a) = a.
Proof. apply array_val_inj, array_val_of, array_length. Qed.

Lemma try_array_Some n l a : try_array n l = Some a ↔ array_val a = l.
Proof.
  unfold try_array. destruct (Nat.eqb_spec (length l) n) as [E|E]; split.
  - intros [= <-]. by apply array_val_of.
  - intros <-. by rewrite array_of_val.
  - done.
  - intros <-. by rewrite array_length in E.
Qed.

#[export] Instance array_countable n : Countable (array n) :=
  inj_countable' array_val (array_of n) array_of_val.
#[export] Instance array_key_order n : KeyOrder (array n) := key_order_via array_val.

Definition zero_array (n : nat) : array n := array_of n (replicate n x00).

(* ------------------------------------------------------------------ *)
(** ** Big-endian numbers *)

(** The [k] low-order bytes of [n], most significant first. *)
Fixpoint be_bytes (k : nat) (n : N) : list byte :=
  match k with
  | O => []
  | S k => be_bytes k (n / 256) ++ [byte_of_N n]
  end.

(** [BigUint::from_bytes_be]. *)
Definition from_bytes_be (l : list byte) : N :=
  foldl (fun a b => a * 256 + Byte.to_N b) 0 l.

Definition byte_len (n : N) : nat := N.to_nat ((N.size n + 7) / 8).
(** [BigUint::to_bytes_be]: zero is one zero byte. *)
Definition to_bytes_be (n : N) : list byte :=
  if n =? 0 then [x00] else be_bytes (byte_len n) n.

Lemma length_be_bytes k n : length (be_bytes k n) = k.
Proof. revert n; induction k; intros n; simpl; [done|]. rewrite length_app, IHk. simpl. lia. Qed.

Lemma from_bytes_be_snoc l b : from_bytes_be (l ++ [b]) = from_bytes_be l * 256 + Byte.to_N b.
Proof. unfold from_bytes_be. by rewrite foldl_app. Qed.

Lemma from_be_bytes k n : from_bytes_be (be_bytes k n) = n mod 256 ^ N.of_nat k.
Proof.
  revert n. induction k as [|k IH]; intros n.
  { simpl. by rewrite N.mod_1_r. }
  cbn [be_bytes]. rewrite from_bytes_be_snoc, IH, byte_to_of_N.
  rewrite Nat2N.inj_succ, N.pow_succ_r', N.Div0.mod_mul_r. lia.
Qed.

Lemma from_bytes_be_lt l : from_bytes_be l < 256 ^ N.of_nat (length l).
Proof.
  induction l as [|b l IH] using rev_ind; [done|].
  rewrite from_bytes_be_snoc, length_app. simpl length.
  replace (N.of_nat (length l + 1)) with (N.succ (N.of_nat (length l))) by lia.
  rewrite N.pow_succ_r'. pose proof (Byte.to_N_bounded b). lia.
Qed.

Lemma be_bytes_of_from l : be_bytes (length l) (from_bytes_be l) = l.
Proof.
  induction l as [|b l IH] using rev_ind; [done|].
  rewrite length_app, Nat.add_comm. cbn [length Nat.add be_bytes].
  rewrite from_bytes_be_snoc. pose proof (Byte.to_N_bounded b).
  replace ((from_bytes_be l * 256 + Byte.to_N b) / 256) with (from_bytes_be l).
  2:{ rewrite N.div_add_l by done. rewrite N.div_small; lia. }
  rewrite IH. f_equal. f_equal. apply (inj Byte.to_N). rewrite byte_to_of_N.
  rewrite N.add_comm, N.Div0.mod_add. apply N.mod_small. lia.
Qed.

Lemma be_bytes_pad j k n :
  n < 256 ^ N.of_nat k → replicate j x00 ++ be_bytes k n = be_bytes (j + k) n.
Proof.
  revert n. induction k as [|k IH]; intros n Hn.
  - assert (n = 0) as -> by (simpl in Hn; lia). rewrite Nat.add_0_r, app_nil_r.
    induction j as [|j IHj]; [done|]. rewrite replicate_S_end, IHj. done.
  - rewrite Nat.add_succ_r. cbn [be_bytes]. rewrite app_assoc, IH; [done|].
    rewrite Nat2N.inj_succ, N.pow_succ_r' in Hn. apply N.Div0.div_lt_upper_bound; lia.
Qed.

Lemma be_bytes_inj k n m :
  n < 256 ^ N.of_nat k → m < 256 ^ N.of_nat k → be_bytes k n = be_bytes k m → n = m.
Proof.
  intros Hn Hm E. rewrite <-(N.mod_small n (256 ^ N.of_nat k)) by done.
  rewrite <-(N.mod_small m (256 ^ N.of_nat k)) by done. by rewrite <-!from_be_bytes, E.
Qed.

Lemma byte_len_bound n : n < 256 ^ N.of_nat (byte_len n).
Proof.
  unfold byte_len. rewrite N2Nat.id.
  eapply N.lt_le_trans; [apply N.size_gt|].
  change 256 with (2 ^ 8). rewrite <-N.pow_mul_r. apply N.pow_le_mono_r; [done|].
  pose proof (N.div_mod (N.size n + 7) 8 ltac:(done)).
  pose proof (N.mod_lt (N.size n + 7) 8 ltac:(done)). lia.
Qed.

Lemma byte_len_le n k : n < 256 ^ N.of_nat k → (byte_len n ≤ k)%nat.
Proof.
  intros Hn. unfold byte_len.
  assert (N.size n ≤ 8 * N.of_nat k) as Hs.
  { destruct (N.eq_dec n 0) as [->|Hz]; [simpl; lia|].
    rewrite N.size_log2 by done. apply N.le_succ_l. apply N.log2_lt_pow2; [lia|].
    change 256 with (2 ^ 8) in Hn. by rewrite <-N.pow_mul_r in Hn. }
  assert ((N.size n + 7) / 8 ≤ N.of_nat k); [|lia].
  apply N.lt_succ_r. apply N.Div0.div_lt_upper_bound. lia.
Qed.

Lemma length_to_bytes_be n k :
  (0 < k)%nat → (length (to_bytes_be n) ≤ k)%nat ↔ n < 256 ^ N.of_nat k.
Proof.
  intros Hk. unfold to_bytes_be. destruct (N.eqb_spec n 0) as [->|Hz].
  - simpl. split; [|lia]. intros _. apply N.neq_0_lt_0, N.pow_nonzero. done.
  - rewrite length_be_bytes. split; [|apply byte_len_le]. intros Hle.
    eapply N.lt_le_trans; [apply byte_len_bound|]. apply N.pow_le_mono_r; lia.
Qed.

Lemma from_to_bytes_be n : from_bytes_be (to_bytes_be n) = n.
Proof.
  unfold to_bytes_be. destruct (N.eqb_spec n 0) as [->|Hz]; [done|].
  rewrite from_be_bytes. apply N.mod_small, byte_len_bound.
Qed.

Lemma pad_to_bytes_be n k :
  (0 < k)%nat → n < 256 ^ N.of_nat k →
  replicate (k - length (to_bytes_be n)) x00 ++ to_bytes_be n = be_bytes k n.
Proof.
  intros Hk Hn. pose proof (proj2 (length_to_bytes_be n k Hk) Hn) as Hle.
  revert Hle. unfold to_bytes_be. destruct (N.eqb_spec n 0) as [->|Hz].
  - intros _. change [x00] with (be_bytes 1 0). rewrite length_be_bytes.
    rewrite be_bytes_pad by done. f_equal. lia.
  - rewrite length_be_bytes. intros Hle. rewrite be_bytes_pad by apply byte_len_bound.
    f_equal. lia.
Qed.
