(* ===== verification/Text.v ===== *)
(** * Text: [str] operations, decimal and hexadecimal numerals, crates

    Rust strings are byte strings ([String.string]).  The decimal text of a
    [BigUint] is its decimal numeral.  The [hex] and [sha3] crates are not
    part of the repository: [HexCrate] and [Sha3Crate] are their interfaces
    and [HexLaws] the documented behaviour the program relies on. *)

From S2P Require Import Prelude Bytes.
From stdpp Require Import base tactics option list strings.
From Stdlib Require Import Strings.Byte Ascii.
From Stdlib Require Strings.String.
From Stdlib Require Import NArith DecimalString DecimalN Decimal Lia.
From Stdlib Require HexadecimalString HexadecimalN.

Open Scope string_scope.
Open Scope N_scope.

Definition str_len (s : string) : N := N.of_nat (String.length s).
Definition str_is_empty (s : string) : bool := match s with "" => true | _ => false end.

Fixpoint str_all (p : ascii → bool) (s : string) : bool :=
  match s with "" => true | String c s => p c && str_all p s end.
Fixpoint str_map (f : ascii → ascii) (s : string) : string :=
  match s with "" => "" | String c s => String (f c) (str_map f s) end.

Definition starts_with (p s : string) : bool := String.prefix p s.
(** [str::strip_prefix]. *)
Fixpoint strip_prefix (p s : string) : option string :=
  match p, s with
  | "", _ => Some s
  | String a p, String b s => if Ascii.eqb a b then strip_prefix p s else None
  | _, _ => None
  end.

Definition in_range (lo hi : N) (c : ascii) : bool :=
  (lo <=? N_of_ascii c) && (N_of_ascii c <=? hi).
Definition is_ascii_digit (c : ascii) : bool := in_range 48 57 c.
Definition is_ascii_hexdigit (c : ascii) : bool :=
  in_range 48 57 c || in_range 65 70 c || in_range 97 102 c.
Definition ascii_lowercase (c : ascii) : ascii :=
  if in_range 65 90 c then ascii_of_N (N_of_ascii c + 32) else c.
Definition to_ascii_lowercase (s : string) : string := str_map ascii_lowercase s.
Definition eq_ignore_ascii_case (a b : string) : bool :=
  String.eqb (to_ascii_lowercase a) (to_ascii_lowercase b).
Definition str_contains (needle hay : string) : bool :=
  match String.index 0 needle hay with Some _ => true | None => false end.
Fixpoint str_repeat (n : nat) (s : string) : string :=
  match n with O => "" | S n => s ++ str_repeat n s end.
(** [str::as_bytes]. *)
Definition as_bytes (s : string) : list byte := String.list_byte_of_string s.

Lemma str_app_nil s : "" ++ s = s.
Proof. reflexivity. Qed.
Lemma str_app_cons c p s : String c p ++ s = String c (p ++ s).
Proof. reflexivity. Qed.
Create Rewrite HintDb str.
#[export] Hint Rewrite str_app_nil str_app_cons : str.

Lemma strip_prefix_Some p s r : strip_prefix p s = Some r ↔ s = p ++ r.
Proof.
  revert s. induction p as [|a p IH]; intros s; simpl; autorewrite with str;
    [split; congruence|].
  destruct s as [|b s]; [split; discriminate|].
  destruct (Ascii.eqb_spec a b) as [->|Hne].
  - rewrite IH. split; congruence.
  - split; congruence.
Qed.

Lemma strip_prefix_app p s : strip_prefix p (p ++ s) = Some s.
Proof. by apply strip_prefix_Some. Qed.

Lemma ascii_lowercase_idem c : ascii_lowercase (ascii_lowercase c) = ascii_lowercase c.
Proof. destruct c as [[][][][][][][][]]; vm_compute; reflexivity. Qed.

Lemma to_ascii_lowercase_idem s :
  to_ascii_lowercase (to_ascii_lowercase s) = to_ascii_lowercase s.
Proof.
  unfold to_ascii_lowercase. induction s as [|c s IH]; cbn [str_map]; [done|].
  rewrite ascii_lowercase_idem. by f_equal.
Qed.

Lemma to_ascii_lowercase_app a b :
  to_ascii_lowercase (a ++ b) = to_ascii_lowercase a ++ to_ascii_lowercase b.
Proof.
  unfold to_ascii_lowercase. induction a as [|c a IH]; autorewrite with str; [done|].
  cbn [str_map]. autorewrite with str. by f_equal.
Qed.

Lemma str_len_app a b : str_len (a ++ b) = str_len a + str_len b.
Proof.
  unfold str_len. rewrite <-Nat2N.inj_add. f_equal.
  induction a as [|c a IH]; autorewrite with str; simpl; [done|]. by rewrite IH.
Qed.

Lemma eq_ignore_ascii_case_refl s : eq_ignore_ascii_case s s = true.
Proof. apply String.eqb_refl. Qed.

Lemma eq_ignore_ascii_case_spec a b :
  eq_ignore_ascii_case a b = true ↔ to_ascii_lowercase a = to_ascii_lowercase b.
Proof. apply String.eqb_eq. Qed.

(* ------------------------------------------------------------------ *)
(** ** Decimal numerals *)

(** [BigUint]'s and [u64]'s [to_string]. *)
Definition to_decimal (n : N) : string := NilZero.string_of_uint (N.to_uint n).
(** [BigUint::from_str] on a text of ASCII digits. *)
Definition biguint_from_str (s : string) : option N :=
  N.of_uint <$> NilZero.uint_of_string s.

(** Decimal text without sign and without leading zeros. *)
Definition canonical_decimal (s : string) : bool :=
  negb (str_is_empty s) && negb ((1 <? str_len s) && starts_with "0" s)
  && str_all is_ascii_digit s.

Lemma biguint_from_to n : biguint_from_str (to_decimal n) = Some n.
Proof.
  unfold biguint_from_str, to_decimal. rewrite NilZero.usu; simpl.
  - by rewrite DecimalN.Unsigned.of_to.
  - rewrite <-(DecimalN.Unsigned.of_to n) at 1. rewrite DecimalN.Unsigned.to_of.
    apply DecimalFacts.unorm_nonnil.
Qed.

#[export] Instance to_decimal_inj : Inj (=) (=) to_decimal.
Proof.
  intros a b E. apply (inj Some). by rewrite <-!biguint_from_to, E.
Qed.

Lemma digits_of_uint d : str_all is_ascii_digit (NilEmpty.string_of_uint d) = true.
Proof. induction d; simpl; done. Qed.

Lemma nzhead_shape d :
  nzhead d = Nil ∨ (∀ r, nzhead d ≠ D0 r).
Proof. induction d; simpl; auto; right; done. Qed.

Lemma to_decimal_canonical n : canonical_decimal (to_decimal n) = true.
Proof.
  unfold to_decimal.
  assert (N.to_uint n = unorm (N.to_uint n)) as ->.
  { by rewrite <-DecimalN.Unsigned.to_of, DecimalN.Unsigned.of_to. }
  unfold unorm. destruct (nzhead_shape (N.to_uint n)) as [->|Hne]; [done|].
  destruct (nzhead (N.to_uint n)) as [|r|r|r|r|r|r|r|r|r|r] eqn:E; try done;
    try (exfalso; by apply (Hne r));
    unfold canonical_decimal; simpl; rewrite digits_of_uint, andb_true_r;
    by destruct (1 <? _).
Qed.

Lemma uint_of_digits s : str_all is_ascii_digit s = true → ∃ d, NilEmpty.uint_of_string s = Some d.
Proof.
  induction s as [|c s IH]; simpl; [by eexists|].
  intros [Hc [d Hd]%IH]%andb_prop. rewrite Hd.
  destruct c as [[][][][][][][][]]; vm_compute in Hc; try done; simpl; eauto.
Qed.

Lemma biguint_from_digits s :
  s ≠ "" → str_all is_ascii_digit s = true → ∃ n, biguint_from_str s = Some n.
Proof.
  intros Hs [d Hd]%uint_of_digits. exists (N.of_uint d).
  unfold biguint_from_str. destruct s; [done|]. simpl in *. by rewrite Hd.
Qed.

(** Canonical text is the only accepted text of its number. *)
Lemma canonical_decimal_unique s n :
  canonical_decimal s = true → biguint_from_str s = Some n → s = to_decimal n.
Proof.
  unfold canonical_decimal, biguint_from_str.
  intros [[Hne Hlead]%andb_prop _]%andb_prop Hn.
  apply fmap_Some in Hn as [d [Hd ->]]. unfold to_decimal.
  rewrite DecimalN.Unsigned.to_of, <-(NilZero.sus _ _ Hd).
  pose proof (NilZero.sus _ _ Hd) as Hs.
  assert (∀ c s', s = String "0" (String c s') → False) as Hno.
  { intros c s' ->. revert Hlead. unfold str_len; cbn [starts_with String.prefix].
    replace (1 <? _) with true; [done|]. symmetry. apply N.ltb_lt. simpl. lia. }
  destruct d as [|r|r|r|r|r|r|r|r|r|r]; try done.
  destruct r; try done; simpl in Hs; exfalso; symmetry in Hs; by apply Hno in Hs.
Qed.

(** [str::split(c)]. *)
Fixpoint str_split (c : ascii) (s : string) : list string :=
  match s with
  | "" => [""]
  | String a s =>
      if Ascii.eqb a c then "" :: str_split c s
      else match str_split c s with
           | [] => [String a ""]
           | segment :: rest => String a segment :: rest
           end
  end.
(** [str::parse::<u64>()]: digits, with or without a plus sign. *)
Definition parse_u64 (s : string) : option N :=
  let digits := default s (strip_prefix "+" s) in
  if str_is_empty digits || negb (str_all is_ascii_digit digits) then None
  else n ← biguint_from_str digits; if n <=? u64_max then Some n else None.
Lemma parse_u64_decimal n : n ≤ u64_max → parse_u64 (to_decimal n) = Some n.
Proof.
  intros Hn. unfold parse_u64. pose proof (to_decimal_canonical n) as Hc. unfold canonical_decimal in Hc.
  apply andb_prop in Hc as [Hc Hd]. apply andb_prop in Hc as [Hne _]. apply negb_true_iff in Hne.
  assert (strip_prefix "+" (to_decimal n) = None) as ->.
  { destruct (strip_prefix "+" (to_decimal n)) as [r|] eqn:E; [|done]. apply strip_prefix_Some in E.
    rewrite E in Hd. done. }
  simpl default. rewrite Hne, Hd. cbn [negb orb]. rewrite biguint_from_to. simpl.
  by rewrite (proj2 (N.leb_le n u64_max)).
Qed.

(* ------------------------------------------------------------------ *)
(** ** Hexadecimal integers (standard library) *)

(** [format!("{n:x}")]. *)
Definition format_hex (n : N) : string :=
  HexadecimalString.NilZero.string_of_uint (N.to_hex_uint n).

Definition hex_digit (c : ascii) : option N :=
  let n := N_of_ascii c in
  if in_range 48 57 c then Some (n - 48)
  else if in_range 65 70 c then Some (n - 55)
  else if in_range 97 102 c then Some (n - 87)
  else None.

Fixpoint hex_fold (acc : N) (s : string) : option N :=
  match s with
  | "" => Some acc
  | String c s => d ← hex_digit c; hex_fold (acc * 16 + d) s
  end.

(** [u64::from_str_radix(s, 16)]: an optional plus sign, at least one
    digit, and a value that fits. *)
Definition u64_from_str_radix16 (s : string) : option N :=
  let digits := match strip_prefix "+" s with Some r => r | None => s end in
  if str_is_empty digits then None
  else n ← hex_fold 0 digits; if n <=? u64_max then Some n else None.

Lemma u64_from_str_radix16_bound s n : u64_from_str_radix16 s = Some n → n ≤ u64_max.
Proof.
  unfold u64_from_str_radix16. destruct (str_is_empty _); [done|].
  destruct (hex_fold 0 _) as [m|]; simpl; [|done].
  destruct (N.leb_spec m u64_max); naive_solver.
Qed.

(** Printed quantities parse back. *)
Lemma hex_fold_acc d : ∀ p,
  hex_fold (Npos p) (HexadecimalString.NilEmpty.string_of_uint d)
  = Some (Npos (Pos.of_hex_uint_acc d p)).
Proof.
  induction d as [|d IH|d IH|d IH|d IH|d IH|d IH|d IH|d IH|d IH|d IH|d IH|d IH|d IH|d IH|d IH|d IH];
    intros p; [done|..];
    cbn [HexadecimalString.NilEmpty.string_of_uint Pos.of_hex_uint_acc]; rewrite <-IH;
    cbn [hex_fold]; (destruct (hex_digit _) eqn:E; vm_compute in E; [|discriminate]);
    injection E as <-; cbn [mbind option_bind]; f_equal; lia.
Qed.

Lemma hex_fold_of_uint d :
  hex_fold 0 (HexadecimalString.NilEmpty.string_of_uint d) = Some (N.of_hex_uint d).
Proof.
  induction d as [|d IH|d IH|d IH|d IH|d IH|d IH|d IH|d IH|d IH|d IH|d IH|d IH|d IH|d IH|d IH|d IH];
    [done|exact IH|..];
    cbn [HexadecimalString.NilEmpty.string_of_uint hex_fold];
    (destruct (hex_digit _) eqn:E; vm_compute in E; [|discriminate]);
    injection E as <-; cbn [mbind option_bind]; apply hex_fold_acc.
Qed.

Lemma string_of_uint_no_plus d : strip_prefix "+" (HexadecimalString.NilEmpty.string_of_uint d) = None.
Proof. by destruct d. Qed.

Lemma u64_from_str_of_uint d : d ≠ Hexadecimal.Nil →
  u64_from_str_radix16 (HexadecimalString.NilZero.string_of_uint d) =
  if N.of_hex_uint d <=? u64_max then Some (N.of_hex_uint d) else None.
Proof.
  intros Hnil.
  assert (HexadecimalString.NilZero.string_of_uint d = HexadecimalString.NilEmpty.string_of_uint d)
    as -> by by destruct d.
  unfold u64_from_str_radix16. rewrite string_of_uint_no_plus.
  assert (str_is_empty (HexadecimalString.NilEmpty.string_of_uint d) = false) as ->
    by by destruct d.
  by rewrite hex_fold_of_uint.
Qed.

Lemma u64_from_str_format_hex n :
  u64_from_str_radix16 (format_hex n) = if n <=? u64_max then Some n else None.
Proof.
  pose proof (HexadecimalN.Unsigned.of_to n) as Hof. unfold format_hex.
  rewrite u64_from_str_of_uint; rewrite ?Hof; [done|].
  intros E. rewrite E in Hof. cbn in Hof. subst n. discriminate E.
Qed.

(* ------------------------------------------------------------------ *)
(** ** Crates outside the repository *)

(** The [hex] crate: [hex::encode] and [hex::decode]. *)
Class HexCrate := {
  hex_encode : list byte → string;
  hex_decode : string → option (list byte)
}.

(** Its documented behaviour: lower-case output, two digits per byte, decode
    accepts either case and exactly the even-length texts of digits. *)
Class HexLaws `{HexCrate} : Prop := {
  hex_encode_len : ∀ l, str_len (hex_encode l) = 2 * N.of_nat (length l);
  hex_encode_lower : ∀ l, to_ascii_lowercase (hex_encode l) = hex_encode l;
  hex_decode_encode : ∀ l, hex_decode (hex_encode l) = Some l;
  hex_encode_decode : ∀ s l, hex_decode s = Some l → hex_encode l = to_ascii_lowercase s;
  hex_decode_digits : ∀ s l, hex_decode s = Some l → str_all is_ascii_hexdigit s = true;
  hex_encode_app : ∀ l k, hex_encode (l ++ k)%list = hex_encode l +:+ hex_encode k
}.

(** The [sha3] crate: Keccak-256 as the program calls it. *)
Class Sha3Crate := { keccak256 : list byte → array 32 }.

(** Two different inputs with one Keccak-256 digest. *)
Definition keccak_collision `{Sha3Crate} : Prop :=
  ∃ x y : list byte, x ≠ y ∧ keccak256 x = keccak256 y.

Section HexFacts.
Context `{HexLaws}.

Lemma hex_encode_inj l k : hex_encode l = hex_encode k → l = k.
Proof. intros E. apply (inj Some). by rewrite <-!hex_decode_encode, E. Qed.

Lemma hex_decode_len s l : hex_decode s = Some l → str_len s = 2 * N.of_nat (length l).
Proof.
  intros Hd. rewrite <-hex_encode_len. rewrite (hex_encode_decode _ _ Hd).
  unfold str_len, to_ascii_lowercase. f_equal. clear. induction s; simpl; by f_equal.
Qed.

Lemma hex_decode_lower s l : hex_decode s = Some l → hex_decode (to_ascii_lowercase s) = Some l.
Proof. intros Hd. rewrite <-(hex_encode_decode _ _ Hd). apply hex_decode_encode. Qed.
End HexFacts.

(** *** A concrete [hex] implementation, used by the evaluated examples *)
Module RefHex.
Definition nibble (n : N) : ascii :=
  if n <? 10 then ascii_of_N (48 + n) else ascii_of_N (87 + n).
Fixpoint encode (l : list byte) : string :=
  match l with
  | [] => ""
  | b :: l => String (nibble (Byte.to_N b / 16)) (String (nibble (Byte.to_N b mod 16)) (encode l))
  end.
Fixpoint decode (s : string) : option (list byte) :=
  match s with
  | "" => Some []
  | String a (String b s) =>
      x ← hex_digit a; y ← hex_digit b; l ← decode s; Some (byte_of_N (x * 16 + y) :: l)
  | _ => None
  end.

#[export] Instance hex_crate : HexCrate := {| hex_encode := encode; hex_decode := decode |}.

Lemma digit_nibble c d : hex_digit c = Some d → d < 16 ∧ nibble d = ascii_lowercase c.
Proof.
  destruct c as [[][][][][][][][]]; vm_compute; intros [= <-]; split; reflexivity.
Qed.

Lemma digit_is_hexdigit c d : hex_digit c = Some d → is_ascii_hexdigit c = true.
Proof. destruct c as [[][][][][][][][]]; vm_compute; done. Qed.

Lemma byte_nibbles b :
  hex_digit (nibble (Byte.to_N b / 16)) = Some (Byte.to_N b / 16) ∧
  hex_digit (nibble (Byte.to_N b mod 16)) = Some (Byte.to_N b mod 16) ∧
  ascii_lowercase (nibble (Byte.to_N b / 16)) = nibble (Byte.to_N b / 16) ∧
  ascii_lowercase (nibble (Byte.to_N b mod 16)) = nibble (Byte.to_N b mod 16).
Proof. destruct b; vm_compute; auto. Qed.

Lemma decode_ind (P : string → Prop) :
  P "" → (∀ a, P (String a "")) → (∀ a b s, P s → P (String a (String b s))) → ∀ s, P s.
Proof.
  intros H0 H1 H2. fix IH 1. intros [|a [|b s]]; [exact H0|apply H1|apply H2, IH].
Qed.

#[export] Instance hex_laws : HexLaws.
Proof.
  constructor; simpl.
  - induction l as [|b l IH]; simpl; [done|]. unfold str_len in *. simpl String.length. lia.
  - induction l as [|b l IH]; [done|]. destruct (byte_nibbles b) as (_ & _ & E1 & E2).
    unfold to_ascii_lowercase in *. cbn [encode str_map]. by rewrite E1, E2, IH.
  - induction l as [|b l IH]; [done|]. destruct (byte_nibbles b) as (E1 & E2 & _).
    cbn [encode decode]. rewrite E1, E2. cbn. rewrite IH. cbn. do 2 f_equal.
    rewrite <-(byte_of_to_N b) at 3. f_equal.
    pose proof (N.div_mod (Byte.to_N b) 16 ltac:(done)). lia.
  - intros s. induction s as [|a|a b s IH] using decode_ind; intros l.
    + by intros [= <-].
    + done.
    + cbn [decode]. destruct (hex_digit a) as [x|] eqn:Ea; [|done].
      destruct (hex_digit b) as [y|] eqn:Eb; [|done]. cbn.
      destruct (decode s) as [k|] eqn:Es; [|done]. cbn. intros [= <-].
      apply digit_nibble in Ea as [Hx Ex], Eb as [Hy Ey].
      unfold to_ascii_lowercase in *. cbn [encode str_map]. rewrite byte_to_of_N.
      rewrite (N.mod_small (x * 16 + y)) by lia.
      rewrite N.div_add_l, (N.div_small y) by lia.
      rewrite (N.add_comm _ y), N.Div0.mod_add, (N.mod_small y) by lia.
      rewrite N.add_0_r, Ex, Ey. f_equal. f_equal. by apply IH.
  - intros s. induction s as [|a|a b s IH] using decode_ind; intros l; [done|done|].
    cbn [decode str_all]. destruct (hex_digit a) as [x|] eqn:Ea; [|done].
    destruct (hex_digit b) as [y|] eqn:Eb; [|done]. cbn.
    destruct (decode s) as [k|] eqn:Es; [|done]. intros _.
    rewrite (IH _ eq_refl), (digit_is_hexdigit _ _ Ea), (digit_is_hexdigit _ _ Eb). done.
  - intros l k. induction l as [|b l IH]; [done|]. simpl. by rewrite IH.
Qed.
End RefHex.

(** *** A concrete digest for the evaluated examples (not Keccak: the program
    only relies on the digest being a function of the bytes) *)
Module RefSha3.
Definition mix (l : list byte) : N :=
  fold_left (fun acc b => N.land (acc * 257 + Byte.to_N b + 1) 0xffffffff) l 7.
#[export] Instance sha3_crate : Sha3Crate :=
  {| keccak256 := fun l => array_of 32 (be_bytes 32 (mix l)) |}.
End RefSha3.
