(* ===== verification/ScoreCore.v ===== *)
(** * The score accumulator ([score-core/src/lib.rs])

    [AccountScoreState] keeps, per account and scored token, the balance, the
    block the state has reached, the numerator of the finished rate segments
    and the running integral of the open one.  A method that takes
    [&mut AccountScoreState] is a computation over that state: on an error the
    state it had reached stays visible, as in Rust.

    The specification is the block-weighted sum: block [b] contributes the
    balance held at [b], scaled to 18 decimals per rate segment and multiplied
    by the segment's rate.  [Represents] relates a state to that sum. *)

From S2P Require Import Prelude.

Open Scope N_scope.

Definition SCORE_SCALE : N := 1000000000000000000.

Record RatePoint := mkRatePoint { rp_from_block : N; rp_rate : N }.

Record AccountScoreState := mkAccountScoreState {
  balance : N;
  last_block : N;
  completed_numerator : N;
  active_segment_from : option N;
  active_integral : N
}.

(** [AccountScoreState::default()]. *)
Definition default_account_score_state : AccountScoreState :=
  mkAccountScoreState 0 0 0 None 0.

Inductive ScoreCoreError :=
  | RatesNotAscending
  | Backward (from_block to_block : N)
  | MissingRate (from_block : N)
  | BalanceUnderflow (block : N).

#[export] Instance RatePoint_eq_dec : EqDecision RatePoint.
Proof. solve_decision. Defined.
#[export] Instance AccountScoreState_eq_dec : EqDecision AccountScoreState.
Proof. solve_decision. Defined.
#[export] Instance ScoreCoreError_eq_dec : EqDecision ScoreCoreError.
Proof. solve_decision. Defined.

(** [slice.windows(2)]. *)
Definition windows2 {A} (l : list A) : list (A * A) := zip l (tail l).

Definition validate_rates (rates : list RatePoint) : outcome ScoreCoreError unit :=
  bail_if (existsb (fun '(a, b) => rp_from_block b <=? rp_from_block a) (windows2 rates))
    RatesNotAscending.

Definition scaled_integral (integral decimals : N) : N :=
  if decimals <=? 18 then integral * 10 ^ (18 - decimals)
  else integral / 10 ^ (decimals - 18).

Definition rate_for (rates : list RatePoint) (from_block : N) : outcome ScoreCoreError N :=
  ok_or (rp_rate <$> List.find (fun point => rp_from_block point =? from_block) rates)
    (MissingRate from_block).

Definition finalize_active (rates : list RatePoint) (decimals : N) :
    io AccountScoreState ScoreCoreError unit :=
  state ← get_state;
  match active_segment_from state with
  | None => mret tt
  | Some from_block =>
      rate ← lift (rate_for rates from_block);
      put_state {|
        balance := balance state;
        last_block := last_block state;
        completed_numerator :=
          completed_numerator state + scaled_integral (active_integral state) decimals * rate;
        active_segment_from := None;
        active_integral := 0 |}
  end.

(** [state.active_segment_from = a; state.active_integral = i]. *)
Definition set_active (a : option N) (i : N) (state : AccountScoreState) : AccountScoreState :=
  mkAccountScoreState (balance state) (last_block state) (completed_numerator state) a i.
Definition set_last_block (b : N) (state : AccountScoreState) : AccountScoreState :=
  mkAccountScoreState (balance state) b (completed_numerator state)
    (active_segment_from state) (active_integral state).
Definition set_balance (v : N) (state : AccountScoreState) : AccountScoreState :=
  mkAccountScoreState v (last_block state) (completed_numerator state)
    (active_segment_from state) (active_integral state).

(** One iteration of the segment loop of [advance_account]. *)
Definition advance_segment (rates : list RatePoint) (decimals to_block : N)
    (index : nat) (point : RatePoint) : io AccountScoreState ScoreCoreError unit :=
  state ← get_state;
  let next := rp_from_block <$> rates !! S index in
  let overlap_from := N.max (last_block state) (rp_from_block point) in
  let overlap_to := match next with Some next => N.min next to_block | None => to_block end in
  if overlap_to <=? overlap_from then mret tt
  else
    _ ← (if decide (active_segment_from state = Some (rp_from_block point)) then mret tt
         else _ ← finalize_active rates decimals;
              modify_state (set_active (Some (rp_from_block point)) 0));
    state ← get_state;
    _ ← put_state (set_active (active_segment_from state)
          (active_integral state + balance state * (overlap_to - overlap_from)) state);
    if match next with
       | Some next => (overlap_to =? next) && (next <=? to_block)
       | None => false
       end
    then finalize_active rates decimals
    else mret tt.

Definition advance_account (to_block : N) (rates : list RatePoint) (decimals : N) :
    io AccountScoreState ScoreCoreError unit :=
  _ ← lift (validate_rates rates);
  state ← get_state;
  if to_block <? last_block state then
    lift (Err (Backward (last_block state) to_block))
  else if to_block =? last_block state then mret tt
  else
    _ ← fold_im (fun index (_ : unit) point =>
          advance_segment rates decimals to_block index point) tt rates;
    modify_state (set_last_block to_block).

Definition apply_transfer (block inflow outflow : N) (rates : list RatePoint) (decimals : N) :
    io AccountScoreState ScoreCoreError unit :=
  _ ← advance_account block rates decimals;
  state ← get_state;
  if outflow <=? inflow then
    put_state (set_balance (balance state + (inflow - outflow)) state)
  else
    let decrease := outflow - inflow in
    if balance state <? decrease then lift (Err (BalanceUnderflow block))
    else put_state (set_balance (balance state - decrease) state).

(** Works on a clone: the caller's state is not touched. *)
Definition projected_numerator (state : AccountScoreState) (to_block : N)
    (rates : list RatePoint) (decimals : N) : outcome ScoreCoreError N :=
  let '(r, projected) := advance_account to_block rates decimals state in
  _ ← r;
  match active_segment_from projected with
  | Some from_block =>
      rate ← rate_for rates from_block;
      Ok (completed_numerator projected
          + scaled_integral (active_integral projected) decimals * rate)
  | None => Ok (completed_numerator projected)
  end.

Definition gross_score (numerator : N) : N := numerator / SCORE_SCALE.

(* ------------------------------------------------------------------ *)
(** ** Specification: block-weighted integrals per rate segment *)

Definition next_from (rs : list RatePoint) : option N := rp_from_block <$> head rs.
(** End of a segment seen from block [t]. *)
Definition seg_end (next : option N) (t : N) : N :=
  match next with Some n => N.min n t | None => t end.

Section Spec.
(** [h b] is the balance that counts for block [b]; [start] is the block
    from which it counts. *)
Context (h : N → N) (start decimals : N).

Definition seg_start (p : RatePoint) : N := N.max start (rp_from_block p).

(** Score numerator of the blocks [start .. t). *)
Fixpoint spec_numerator (t : N) (rs : list RatePoint) : N :=
  match rs with
  | [] => 0
  | p :: rs =>
      scaled_integral (range_sum h (seg_start p) (seg_end (next_from rs) t)) decimals * rp_rate p
      + spec_numerator t rs
  end.

(** Segments finished by block [t]. *)
Fixpoint closed_sum (t : N) (rs : list RatePoint) : N :=
  match rs with
  | [] => 0
  | p :: rs =>
      match next_from rs with
      | Some n =>
          if n <=? t then scaled_integral (range_sum h (seg_start p) n) decimals * rp_rate p
          else 0
      | None => 0
      end + closed_sum t rs
  end.

(** The segment that block [t] lies strictly inside of. *)
Fixpoint open_segment (t : N) (rs : list RatePoint) : option RatePoint :=
  match rs with
  | [] => None
  | p :: rs =>
      if (seg_start p <? t) && match next_from rs with Some n => t <? n | None => true end
      then Some p else open_segment t rs
  end.
Definition open_integral (t : N) (rs : list RatePoint) : N :=
  match open_segment t rs with Some p => range_sum h (seg_start p) t | None => 0 end.

(** A state that has accumulated exactly the blocks [start .. t). *)
Definition Represents (t : N) (rates : list RatePoint) (st : AccountScoreState) : Prop :=
  start ≤ t ∧
  st = mkAccountScoreState (balance st) t (closed_sum t rates)
         (rp_from_block <$> open_segment t rates) (open_integral t rates).
End Spec.

Abbreviation ascending := (StronglySorted (key_lt_on rp_from_block)).

(* ------------------------------------------------------------------ *)
(** ** Helper lemmas *)

Lemma windows2_check_sorted (rs : list RatePoint) :
  existsb (fun '(a, b) => rp_from_block b <=? rp_from_block a) (windows2 rs) = false
  ↔ ascending rs.
Proof.
  induction rs as [|p rs IH]; [split; [constructor|done]|].
  destruct rs as [|q rs]; [split; [repeat constructor|done]|].
  change (windows2 (p :: q :: rs)) with ((p, q) :: windows2 (q :: rs)).
  cbn [existsb]. rewrite orb_false_iff, IH, N.leb_gt. split.
  - intros [Hpq Hs]. constructor; [done|]. constructor; [done|].
    apply StronglySorted_inv in Hs as [_ Hq]. eapply Forall_impl; [exact Hq|].
    intros x Hx. cbv [key_lt_on key_lt N_key_order] in *. lia.
  - intros [Hs Hp]%StronglySorted_inv. split; [|done]. by apply Forall_cons in Hp as [Hpq _].
Qed.

Lemma validate_rates_ascending rs : validate_rates rs = Ok tt ↔ ascending rs.
Proof. unfold validate_rates. by rewrite bail_if_ok, windows2_check_sorted. Qed.

Lemma ascending_app_r pre rs : ascending (pre ++ rs) → ascending rs.
Proof. induction pre as [|x pre IH]; simpl; [done|]. intros [Hs _]%StronglySorted_inv. auto. Qed.

Lemma rate_for_middle pre p rs :
  ascending (pre ++ p :: rs) → rate_for (pre ++ p :: rs) (rp_from_block p) = Ok (rp_rate p).
Proof.
  unfold rate_for. induction pre as [|q pre IH]; simpl.
  - intros _. by rewrite N.eqb_refl.
  - intros [Hs Hq]%StronglySorted_inv.
    destruct (N.eqb_spec (rp_from_block q) (rp_from_block p)) as [E|_]; [|by apply IH].
    rewrite Forall_forall in Hq. specialize (Hq p). cbv [key_lt_on key_lt N_key_order] in Hq.
    assert (rp_from_block q < rp_from_block p); [|lia].
    apply Hq. apply elem_of_app. right. left.
Qed.

Lemma ascending_next p rs n :
  ascending (p :: rs) → next_from rs = Some n →
  rp_from_block p < n ∧ Forall (fun q => n ≤ rp_from_block q) rs.
Proof.
  intros [Hs Hp]%StronglySorted_inv Hn. destruct rs as [|q rs]; [done|].
  unfold next_from in Hn; simpl in Hn. injection Hn as <-.
  apply Forall_cons in Hp as [Hpq _]. split; [done|]. constructor; [done|].
  apply StronglySorted_inv in Hs as [_ Hq]. eapply Forall_impl; [exact Hq|].
  intros x Hx. cbv [key_lt_on key_lt N_key_order] in Hx. lia.
Qed.

Lemma scaled_integral_0 d : scaled_integral 0 d = 0.
Proof. unfold scaled_integral. destruct (d <=? 18); [done|]. apply N.Div0.div_0_l. Qed.

Lemma open_segment_late start t rs :
  Forall (fun q => t ≤ rp_from_block q) rs → open_segment start t rs = None.
Proof.
  induction 1 as [|q rs Hq _ IH]; simpl; [done|].
  replace (seg_start start q <? t) with false; [done|].
  symmetry. apply N.ltb_ge. unfold seg_start. lia.
Qed.

Lemma closed_sum_late h start d t rs :
  ascending rs → Forall (fun q => t ≤ rp_from_block q) rs → closed_sum h start d t rs = 0.
Proof.
  intros Hs Hf. induction Hf as [|q rs Hq Hf IH]; simpl; [done|].
  pose proof Hs as [Hs' _]%StronglySorted_inv. rewrite IH by done.
  destruct (next_from rs) as [n|] eqn:E; [|done].
  apply (ascending_next q) in E as [Hlt _]; [|done].
  replace (n <=? t) with false; [done|]. symmetry. apply N.leb_gt. lia.
Qed.

(* ------------------------------------------------------------------ *)
(** ** The segment loop *)

Lemma lookup_next (pre : list RatePoint) p rs :
  rp_from_block <$> (pre ++ p :: rs) !! S (length pre) = next_from rs.
Proof.
  rewrite lookup_app_r by lia. replace (S (length pre) - length pre)%nat with 1%nat by lia.
  by destruct rs.
Qed.

Section Loop.
Context (h : N → N) (start decimals : N).

Lemma advance_segment_skip pre p rs to_block st :
  seg_end (next_from rs) to_block ≤ N.max (last_block st) (rp_from_block p) →
  advance_segment (pre ++ p :: rs) decimals to_block (length pre) p st = (Ok tt, st).
Proof.
  intros Hle. unfold advance_segment, mbind, io_bind, get_state. rewrite lookup_next.
  cbn zeta. apply N.leb_le in Hle.
  destruct (next_from rs) as [n|]; cbn [seg_end] in Hle; by rewrite Hle.
Qed.

(** The state after the integral of segment [p] was extended to [upto]. *)
Definition extended (p : RatePoint) (upto : N) (st : AccountScoreState) : AccountScoreState :=
  set_active (Some (rp_from_block p))
    ((if decide (active_segment_from st = Some (rp_from_block p)) then active_integral st else 0)
     + balance st * (upto - N.max (last_block st) (rp_from_block p))) st.

Lemma advance_segment_go pre p rs to_block st :
  N.max (last_block st) (rp_from_block p) < seg_end (next_from rs) to_block →
  active_segment_from st = Some (rp_from_block p) ∨ active_segment_from st = None →
  advance_segment (pre ++ p :: rs) decimals to_block (length pre) p st =
    match next_from rs with
    | Some n =>
        if n <=? to_block then
          finalize_active (pre ++ p :: rs) decimals (extended p n st)
        else (Ok tt, extended p to_block st)
    | None => (Ok tt, extended p to_block st)
    end.
Proof.
  intros Hlt Hact. unfold advance_segment, mbind, io_bind, get_state. rewrite lookup_next.
  cbn zeta. unfold extended, put_state, modify_state, mret, io_ret, finalize_active,
    mbind, io_bind, get_state.
  destruct st as [bal lb cn act ai]; cbn in *.
  destruct (next_from rs) as [n|]; cbn [seg_end] in Hlt.
  - rewrite (proj2 (N.leb_gt _ _)) by lia.
    destruct Hact as [->| ->];
      [rewrite !decide_True by done|rewrite !decide_False by done]; cbn;
      (destruct (N.leb_spec n to_block) as [Hn|Hn];
       [rewrite N.min_l, N.eqb_refl by lia; done
       |rewrite N.min_r, (proj2 (N.eqb_neq _ _)) by lia; done]).
  - rewrite (proj2 (N.leb_gt _ _)) by lia.
    destruct Hact as [->| ->];
      [rewrite !decide_True by done|rewrite !decide_False by done]; done.
Qed.

Lemma advance_loop_late pre rs to_block st :
  Forall (fun q => to_block ≤ rp_from_block q) rs →
  fold_im_from (length pre) (fun index (_ : unit) point =>
    advance_segment (pre ++ rs) decimals to_block index point) tt rs st = (Ok tt, st).
Proof.
  intros Hf. revert pre. induction Hf as [|q rs Hq _ IH]; intros pre; [done|].
  cbn [fold_im_from]. erewrite io_bind_eval.
  2:{ apply advance_segment_skip. destruct (next_from rs); simpl; lia. }
  replace (S (length pre)) with (length (pre ++ [q])) by (rewrite length_app; simpl; lia).
  specialize (IH (pre ++ [q])). by rewrite <-app_assoc in IH.
Qed.

Definition rep_state (bal t0 t c : N) (rs : list RatePoint) : AccountScoreState :=
  mkAccountScoreState bal t0 (c + closed_sum h start decimals t rs)
    (rp_from_block <$> open_segment start t rs) (open_integral h start t rs).

Context (t0 to_block bal : N).
Hypothesis Hstart : start ≤ t0.
Hypothesis Hto : t0 < to_block.
Hypothesis Hbal : ∀ k, t0 ≤ k → k < to_block → h k = bal.

(** Segment [p] overlaps the block range: its extended state. *)
Lemma extended_rep p rs c upto :
  ascending (p :: rs) → t0 < upto → upto ≤ to_block → rp_from_block p < upto →
  (∀ n, next_from rs = Some n → t0 < n) →
  extended p upto (rep_state bal t0 t0 c (p :: rs)) =
    mkAccountScoreState bal t0 c (Some (rp_from_block p))
      (range_sum h (seg_start start p) upto).
Proof.
  intros Hasc Ht0 Hup Hfrom Hnext.
  assert (closed_sum h start decimals t0 (p :: rs) = 0) as Hclosed.
  { simpl. destruct (next_from rs) as [n|] eqn:E.
    - specialize (Hnext n eq_refl). rewrite (proj2 (N.leb_gt _ _)) by done.
      pose proof (ascending_next _ _ _ Hasc E) as [_ Hf].
      apply StronglySorted_inv in Hasc as [Hs _].
      rewrite closed_sum_late; [done..|].
      eapply Forall_impl; [exact Hf|]. simpl. lia.
    - by destruct rs. }
  assert (open_segment start t0 (p :: rs) = if seg_start start p <? t0 then Some p else None) as Hopen.
  { simpl. destruct (seg_start start p <? t0); simpl.
    - destruct (next_from rs) as [n|] eqn:E; [|done].
      specialize (Hnext n eq_refl). by rewrite (proj2 (N.ltb_lt _ _)).
    - destruct (next_from rs) as [n|] eqn:E; [|by destruct rs].
      apply open_segment_late. specialize (Hnext n eq_refl).
      pose proof (ascending_next _ _ _ Hasc E) as [_ Hf].
      eapply Forall_impl; [exact Hf|]. simpl. lia. }
  unfold extended, rep_state, open_integral, set_active. cbn [balance last_block
    completed_numerator active_segment_from active_integral].
  rewrite Hclosed, Hopen, N.add_0_r. f_equal.
  unfold seg_start in *. destruct (N.ltb_spec (N.max start (rp_from_block p)) t0) as [Hs|Hs].
  - cbn. rewrite decide_True by done.
    rewrite (range_sum_extend h _ t0 upto bal) by (try lia; intros; apply Hbal; lia).
    do 2 f_equal. lia.
  - cbn. rewrite decide_False by done.
    rewrite (range_sum_extend h _ (N.max start (rp_from_block p)) upto bal)
      by (try lia; intros; apply Hbal; lia).
    rewrite range_sum_empty by lia. do 2 f_equal. lia.
Qed.

Lemma finalize_active_some rates b l c f i r :
  rate_for rates f = Ok r →
  finalize_active rates decimals (mkAccountScoreState b l c (Some f) i) =
    (Ok tt, mkAccountScoreState b l (c + scaled_integral i decimals * r) None 0).
Proof.
  intros Hr. unfold finalize_active, mbind, io_bind, get_state, lift, put_state. simpl.
  by rewrite Hr.
Qed.

Lemma rep_state_late b l t c rs :
  ascending rs → Forall (fun q => t ≤ rp_from_block q) rs →
  rep_state b l t c rs = mkAccountScoreState b l c None 0.
Proof.
  intros Hasc Hf. unfold rep_state, open_integral.
  by rewrite closed_sum_late, open_segment_late, N.add_0_r.
Qed.

Lemma rep_state_open b l c p rs :
  ascending (p :: rs) → rp_from_block p < to_block →
  Forall (fun q => to_block ≤ rp_from_block q) rs →
  (∀ n, next_from rs = Some n → to_block < n) →
  rep_state b l to_block c (p :: rs) = mkAccountScoreState b l c (Some (rp_from_block p))
    (range_sum h (seg_start start p) to_block).
Proof.
  intros [Hrs _]%StronglySorted_inv Hlt Hf Hn. unfold rep_state, open_integral. simpl.
  rewrite closed_sum_late by done.
  rewrite (proj2 (N.ltb_lt (seg_start start p) _)) by (unfold seg_start; lia).
  destruct (next_from rs) as [n|]; simpl; [|by rewrite N.add_0_r].
  specialize (Hn n eq_refl).
  rewrite (proj2 (N.leb_gt _ _)), (proj2 (N.ltb_lt _ _)) by done. by rewrite N.add_0_r.
Qed.

Lemma rep_state_active c p rs :
  ascending (p :: rs) → (∀ n, next_from rs = Some n → t0 < n) →
  active_segment_from (rep_state bal t0 t0 c (p :: rs)) = Some (rp_from_block p)
  ∨ active_segment_from (rep_state bal t0 t0 c (p :: rs)) = None.
Proof.
  intros Hasc Hnx. unfold rep_state. cbn [active_segment_from]. simpl open_segment.
  destruct (next_from rs) as [n|] eqn:E.
  - specialize (Hnx n eq_refl). pose proof (ascending_next _ _ _ Hasc E) as [_ Hf].
    rewrite (open_segment_late start t0 rs)
      by (eapply Forall_impl; [exact Hf|]; simpl; lia).
    destruct (_ && _); auto.
  - destruct rs; [|done]. simpl. destruct (_ && _); auto.
Qed.

Lemma advance_loop rs : ∀ pre c,
  ascending (pre ++ rs) →
  fold_im_from (length pre) (fun index (_ : unit) point =>
    advance_segment (pre ++ rs) decimals to_block index point) tt rs
    (rep_state bal t0 t0 c rs) = (Ok tt, rep_state bal t0 to_block c rs).
Proof.
  induction rs as [|p rs IH]; intros pre c Hasc; [done|].
  pose proof (ascending_app_r _ _ Hasc) as Hasc'.
  pose proof (StronglySorted_inv Hasc') as [Hrs _].
  assert (length (pre ++ [p]) = S (length pre)) as Hlen by (rewrite length_app; simpl; lia).
  assert ((pre ++ [p]) ++ rs = pre ++ p :: rs) as Happ by by rewrite <-app_assoc.
  specialize (IH (pre ++ [p])). rewrite Hlen, Happ in IH.
  cbn [fold_im_from].
  destruct (N.le_gt_cases (seg_end (next_from rs) to_block) (N.max t0 (rp_from_block p)))
    as [Hskip|Hgo].
  - (* no overlap: the segment is over by [t0] or starts after [to_block] *)
    erewrite io_bind_eval by by apply advance_segment_skip.
    assert (∀ t, t0 ≤ t → t ≤ to_block →
      open_segment start t (p :: rs) = open_segment start t rs) as Hop.
    { intros t Ht1 Ht2. simpl.
      destruct (N.ltb_spec (seg_start start p) t) as [Hs|Hs]; [|done]. unfold seg_start in Hs.
      destruct (next_from rs) as [n|] eqn:E; simpl in *; [|lia].
      pose proof (ascending_next _ _ _ Hasc' E) as [Hlt _].
      rewrite (proj2 (N.ltb_ge _ _)) by lia. done. }
    assert (∃ v, ∀ t, t0 ≤ t → t ≤ to_block →
      closed_sum h start decimals t (p :: rs) = v + closed_sum h start decimals t rs) as [v Hv].
    { simpl. destruct (next_from rs) as [n|] eqn:E; simpl in Hskip; [|by exists 0].
      pose proof (ascending_next _ _ _ Hasc' E) as [Hlt _].
      destruct (N.le_gt_cases n t0).
      - eexists. intros t Ht1 Ht2. rewrite (proj2 (N.leb_le _ _)) by lia. reflexivity.
      - exists 0. intros t Ht1 Ht2. rewrite (proj2 (N.leb_gt _ _)) by lia. done. }
    unfold rep_state, open_integral in *. rewrite !Hop, !Hv, !N.add_assoc by lia. by apply IH.
  - (* overlap *)
    assert (rp_from_block p < to_block ∧ ∀ n, next_from rs = Some n → t0 < n) as [Hft Hnx].
    { destruct (next_from rs) as [n|]; simpl in Hgo.
      - split; [lia|]. intros ? [= <-]. lia.
      - split; [lia|done]. }
    assert (active_segment_from (rep_state bal t0 t0 c (p :: rs)) = Some (rp_from_block p)
      ∨ active_segment_from (rep_state bal t0 t0 c (p :: rs)) = None) as Hact
      by by apply rep_state_active.
    pose proof (advance_segment_go pre p rs to_block
      (rep_state bal t0 t0 c (p :: rs)) Hgo Hact) as Hseg.
    destruct (next_from rs) as [n|] eqn:E;
      [destruct (N.leb_spec n to_block) as [Hn|Hn]|]; cbv beta iota in Hseg.
    + (* the segment ends inside the range and is finalised *)
      pose proof (ascending_next _ _ _ Hasc' E) as [Hlt Hf].
      rewrite extended_rep in Hseg by (rewrite ?E; first [done|lia|exact (Hnx n eq_refl)]).
      rewrite (finalize_active_some _ _ _ _ _ _ (rp_rate p)) in Hseg
        by (by apply rate_for_middle).
      specialize (IH (c + scaled_integral (range_sum h (seg_start start p) n) decimals
        * rp_rate p) Hasc).
      specialize (Hnx n eq_refl).
      rewrite <-(rep_state_late bal t0 t0 _ rs) in Hseg
        by (first [done|eapply Forall_impl; [exact Hf|]; simpl; lia]).
      rewrite (io_bind_eval _ _ _ _ _ Hseg), IH. f_equal.
      unfold rep_state, open_integral. cbn [closed_sum open_segment]. rewrite E.
      rewrite (proj2 (N.leb_le n to_block)), (proj2 (N.ltb_ge to_block n)), andb_false_r
        by lia.
      by rewrite N.add_assoc.
    + pose proof (ascending_next _ _ _ Hasc' E) as [Hlt Hf].
      rewrite extended_rep in Hseg by (rewrite ?E; first [done|lia|exact (Hnx n eq_refl)]).
      rewrite (io_bind_eval _ _ _ _ _ Hseg).
      assert (Forall (fun q => to_block ≤ rp_from_block q) rs) as Hlate
        by (eapply Forall_impl; [exact Hf|]; simpl; lia).
      pose proof (advance_loop_late (pre ++ [p])) as Hl. rewrite Hlen in Hl.
      specialize (Hl rs to_block (mkAccountScoreState bal t0 c (Some (rp_from_block p))
        (range_sum h (seg_start start p) to_block)) Hlate).
      rewrite Happ in Hl. rewrite Hl. f_equal.
      symmetry. apply rep_state_open; [done|lia|done|]. intros ? ?; simplify_eq. lia.
    + rewrite extended_rep in Hseg by (rewrite ?E; first [done|lia|exact (Hnx n eq_refl)]).
      rewrite (io_bind_eval _ _ _ _ _ Hseg).
      destruct rs; [|done]. cbn [fold_im_from]. unfold mret, io_ret. f_equal.
      symmetry. apply rep_state_open; [done|lia|constructor|done].
Qed.
End Loop.

(* ------------------------------------------------------------------ *)
(** ** Operations against the specification *)

Section Refinement.
Context (h : N → N) (start decimals : N) (rates : list RatePoint).
Hypothesis Hasc : ascending rates.

Lemma validate_rates_pass {W} (w : W) : lift (validate_rates rates) w = (Ok tt, w).
Proof. unfold lift. by rewrite (proj2 (validate_rates_ascending rates)). Qed.

(** The state [Represents] fixes, given the balance. *)
Definition represented (bal t : N) : AccountScoreState :=
  mkAccountScoreState bal t (closed_sum h start decimals t rates)
    (rp_from_block <$> open_segment start t rates) (open_integral h start t rates).

Lemma represents_eq t st :
  Represents h start decimals t rates st ↔ start ≤ t ∧ st = represented (balance st) t.
Proof. done. Qed.

Lemma represented_represents bal t :
  start ≤ t → Represents h start decimals t rates (represented bal t).
Proof. done. Qed.

Lemma advance_represented bal t to_block :
  start ≤ t → t ≤ to_block → (∀ k, t ≤ k → k < to_block → h k = bal) →
  advance_account to_block rates decimals (represented bal t)
  = (Ok tt, represented bal to_block).
Proof.
  intros Hst Hto Hbal. unfold advance_account.
  erewrite io_bind_eval by apply validate_rates_pass.
  erewrite io_bind_eval by reflexivity. cbn [last_block represented].
  rewrite (proj2 (N.ltb_ge to_block t)) by done.
  destruct (N.eqb_spec to_block t) as [->|Hne]; [done|].
  pose proof (advance_loop h start decimals t to_block bal Hst ltac:(lia) Hbal rates [] 0 Hasc)
    as Hloop. unfold rep_state in Hloop. cbn [app length] in Hloop.
  rewrite !N.add_0_l in Hloop. unfold fold_im.
  by rewrite (io_bind_eval _ _ _ _ _ Hloop).
Qed.

Lemma initial_represented bal :
  represented bal start = mkAccountScoreState bal start 0 None 0.
Proof.
  unfold represented, open_integral.
  assert (open_segment start start rates = None) as ->.
  { clear Hasc. induction rates as [|p rs IH]; simpl; [done|].
    rewrite (proj2 (N.ltb_ge (seg_start start p) start)) by (unfold seg_start; lia). done. }
  f_equal. clear Hasc. induction rates as [|p rs IH]; simpl; [done|]. rewrite IH.
  destruct (next_from rs) as [n|]; [|done]. destruct (N.leb_spec n start); [|done].
  rewrite range_sum_empty by (unfold seg_start; lia). by rewrite scaled_integral_0.
Qed.

Lemma apply_transfer_represented bal t block inflow outflow :
  start ≤ t → t ≤ block → (∀ k, t ≤ k → k < block → h k = bal) →
  apply_transfer block inflow outflow rates decimals (represented bal t) =
    if bal + inflow <? outflow then (Err (BalanceUnderflow block), represented bal block)
    else (Ok tt, represented (bal + inflow - outflow) block).
Proof.
  intros Hst Hto Hbal. unfold apply_transfer.
  erewrite io_bind_eval by by apply advance_represented.
  erewrite io_bind_eval by reflexivity. cbn [balance represented].
  destruct (N.leb_spec outflow inflow) as [Hle|Hgt].
  - rewrite (proj2 (N.ltb_ge _ _)) by lia. unfold put_state, set_balance, represented.
    cbn [last_block completed_numerator active_segment_from active_integral].
    by replace (bal + (inflow - outflow)) with (bal + inflow - outflow) by lia.
  - cbn zeta. destruct (N.ltb_spec bal (outflow - inflow)).
    + rewrite (proj2 (N.ltb_lt _ _)) by lia. done.
    + rewrite (proj2 (N.ltb_ge _ _)) by lia. unfold put_state, set_balance, represented.
      cbn [last_block completed_numerator active_segment_from active_integral].
      by replace (bal - (outflow - inflow)) with (bal + inflow - outflow) by lia.
Qed.

Lemma spec_numerator_split t :
  start ≤ t → spec_numerator h start decimals t rates =
    closed_sum h start decimals t rates +
    match open_segment start t rates with
    | Some p => scaled_integral (range_sum h (seg_start start p) t) decimals * rp_rate p
    | None => 0
    end.
Proof.
  intros Hst. revert Hasc. induction rates as [|p rs IH]; intros Ha; [done|].
  pose proof Ha as [Hrs _]%StronglySorted_inv. simpl. rewrite IH by done. clear IH.
  assert (∀ n, next_from rs = Some n → t < n → open_segment start t rs = None) as Hlate.
  { intros n E Hn. apply open_segment_late. pose proof (ascending_next _ _ _ Ha E) as [_ Hf].
    eapply Forall_impl; [exact Hf|]. simpl. lia. }
  assert (t ≤ seg_start start p → ∀ e, e ≤ t →
    scaled_integral (range_sum h (seg_start start p) e) decimals = 0) as Hempty.
  { intros ? e ?. rewrite range_sum_empty by lia. apply scaled_integral_0. }
  destruct (next_from rs) as [n|] eqn:E; simpl.
  - destruct (N.leb_spec n t) as [Hn|Hn].
    + rewrite N.min_l, (proj2 (N.ltb_ge t n)), andb_false_r by done. lia.
    + rewrite N.min_r, (proj2 (N.ltb_lt t n)), andb_true_r by lia.
      destruct (N.ltb_spec (seg_start start p) t) as [Hs|Hs].
      * rewrite (Hlate n) by done. lia.
      * rewrite Hempty by done. lia.
  - destruct rs; [|done]. simpl. rewrite andb_true_r.
    destruct (N.ltb_spec (seg_start start p) t) as [Hs|Hs]; [lia|].
    rewrite Hempty by done. lia.
Qed.

Lemma open_segment_rate t p :
  open_segment start t rates = Some p → rate_for rates (rp_from_block p) = Ok (rp_rate p).
Proof.
  intros Ho. assert (p ∈ rates) as (pre & rs & ->)%list_elem_of_split.
  { clear Hasc. induction rates as [|q rs IH]; simpl in Ho; [done|].
    destruct (_ && _); simplify_eq; [left|right; auto]. }
  by apply rate_for_middle.
Qed.

Lemma projected_represented bal t to_block :
  start ≤ t → t ≤ to_block → (∀ k, t ≤ k → k < to_block → h k = bal) →
  projected_numerator (represented bal t) to_block rates decimals
  = Ok (spec_numerator h start decimals to_block rates).
Proof.
  intros Hst Hto Hbal. unfold projected_numerator.
  rewrite (advance_represented bal t to_block) by done.
  change (Ok tt ≫= ?f) with (f tt). cbv beta.
  cbn [represented active_segment_from completed_numerator active_integral].
  rewrite spec_numerator_split by lia. unfold open_integral.
  destruct (open_segment start to_block rates) as [p|] eqn:E; simpl.
  - by rewrite (open_segment_rate _ _ E).
  - by rewrite N.add_0_r.
Qed.
End Refinement.

(* ------------------------------------------------------------------ *)
(** ** Replaying a transfer history *)

(** A net movement of one account: block, amount in, amount out. *)
Definition movement : Type := N * N * N.
Definition mv_block (m : movement) : N := m.1.1.

Definition replay_movements (rates : list RatePoint) (decimals : N) (ms : list movement) :
    io AccountScoreState ScoreCoreError unit :=
  fold_m (fun (_ : unit) '(b, i, o) => apply_transfer b i o rates decimals) tt ms.

(** The token's own bookkeeping: [None] when an account would go negative. *)
Fixpoint run_balance (bal : N) (ms : list movement) : option N :=
  match ms with
  | [] => Some bal
  | (_, i, o) :: ms => if bal + i <? o then None else run_balance (bal + i - o) ms
  end.

(** The balance that counts for block [k]. *)
Definition history (bal : N) (ms : list movement) (k : N) : N :=
  default 0 (run_balance bal (filter (fun m => mv_block m ≤ k) ms)).

(** Movements in block order, none before block [t]. *)
Fixpoint in_order (t : N) (ms : list movement) : Prop :=
  match ms with [] => True | m :: ms => t ≤ mv_block m ∧ in_order (mv_block m) ms end.

Lemma in_order_filter_nil t ms k : in_order t ms → k < t → filter (fun m => mv_block m ≤ k) ms = [].
Proof.
  revert t. induction ms as [|m ms IH]; intros t; simpl; [done|]. intros [Hle Hin] Hk.
  rewrite filter_cons_False by lia. by apply (IH _ Hin); lia.
Qed.

Section Replay.
Context (h : N → N) (start decimals : N) (rates : list RatePoint).
Hypothesis Hasc : ascending rates.

(** From a represented state, a replay of affordable movements ends in the
    represented state of the last movement's block. *)
Lemma replay_represented_upto to ms : ∀ bal t,
  start ≤ t → in_order t ms → (∀ m, m ∈ ms → mv_block m ≤ to) →
  (∀ k, t ≤ k → k < to → h k = history bal ms k) →
  match run_balance bal ms with
  | Some bal' => ∃ t', t ≤ t' ∧ (∀ m, m ∈ ms → mv_block m ≤ t') ∧
      (t' = t ∨ ∃ m, m ∈ ms ∧ mv_block m = t') ∧
      replay_movements rates decimals ms (represented h start decimals rates bal t)
      = (Ok tt, represented h start decimals rates bal' t')
  | None => ∃ m st', m ∈ ms ∧
      replay_movements rates decimals ms (represented h start decimals rates bal t)
      = (Err (BalanceUnderflow (mv_block m)), st')
  end.
Proof.
  induction ms as [|[[b i] o] ms IH]; intros bal t Hst Hin Hto Hh.
  { exists t. split; [done|]. split; [intros m Hm; by apply elem_of_nil in Hm|]. auto. }
  destruct Hin as [Htb Hin]. unfold mv_block in Htb, Hin; cbn [fst] in Htb, Hin.
  assert (b ≤ to) as Hbto by (apply (Hto (b, i, o)); left).
  pose proof (apply_transfer_represented h start decimals rates Hasc bal t b i o Hst Htb)
    as Happly.
  specialize (Happly ltac:(intros k Hk1 Hk2; rewrite Hh by lia; unfold history;
    rewrite (in_order_filter_nil b) by (simpl; auto); done)).
  unfold replay_movements in *. cbn [run_balance fold_m].
  destruct (N.ltb_spec (bal + i) o) as [Hlt|Hge].
  { exists (b, i, o). eexists. split; [left|]. by apply io_bind_err. }
  rewrite (io_bind_eval _ _ _ _ _ Happly). clear Happly.
  specialize (IH (bal + i - o) b ltac:(lia) Hin ltac:(intros; apply Hto; by right)).
  assert (∀ k, b ≤ k → k < to → h k = history (bal + i - o) ms k) as Hh'.
  { intros k Hk Hkto. rewrite Hh by lia. unfold history.
    rewrite filter_cons_True by done. simpl. by rewrite (proj2 (N.ltb_ge _ _)). }
  specialize (IH Hh'). destruct (run_balance (bal + i - o) ms) as [bal'|].
  - destruct IH as (t' & Ht' & Hall & Hlast & Hrun).
    exists t'. split; [lia|]. split; [|split; [|done]].
    + intros m [->|Hm]%elem_of_cons; [done|auto].
    + destruct Hlast as [->|(m & Hm & <-)]; right.
      * exists (b, i, o). split; [left|done].
      * exists m. split; [by right|done].
  - destruct IH as (m & st' & Hm & Hrun). exists m, st'. split; [by right|done].
Qed.

Lemma replay_represented ms bal t :
  start ≤ t → in_order t ms → (∀ k, t ≤ k → h k = history bal ms k) →
  match run_balance bal ms with
  | Some bal' => ∃ t', t ≤ t' ∧ (∀ m, m ∈ ms → mv_block m ≤ t') ∧
      (t' = t ∨ ∃ m, m ∈ ms ∧ mv_block m = t') ∧
      replay_movements rates decimals ms (represented h start decimals rates bal t)
      = (Ok tt, represented h start decimals rates bal' t')
  | None => ∃ m st', m ∈ ms ∧
      replay_movements rates decimals ms (represented h start decimals rates bal t)
      = (Err (BalanceUnderflow (mv_block m)), st')
  end.
Proof.
  intros Hst Hin Hh. apply (replay_represented_upto (foldr N.max 0 (map mv_block ms))); [done|done| |auto].
  clear Hin Hh. induction ms as [|m ms IH]; intros m' Hm; [by apply elem_of_nil in Hm|].
  cbn [map foldr]. apply elem_of_cons in Hm as [->|Hm]; [lia|]. specialize (IH _ Hm). lia.
Qed.
End Replay.

Lemma history_after bal ms bal' t k :
  run_balance bal ms = Some bal' → (∀ m, m ∈ ms → mv_block m ≤ t) → t ≤ k →
  history bal ms k = bal'.
Proof.
  intros Hrun Hall Hk. unfold history.
  assert (filter (λ m : movement, mv_block m ≤ k) ms = ms) as ->.
  { clear Hrun. induction ms as [|m ms IH]; [done|].
    rewrite filter_cons_True by (pose proof (Hall m ltac:(left)); lia).
    f_equal. apply IH. intros; apply Hall. by right. }
  by rewrite Hrun.
Qed.

(** C5: Replaying an account's transfers block by block and projecting the
    result computes exactly the block-weighted score numerator of the balance
    history (per rate segment, scaled to 18 decimals, times the rate); if some
    transfer would make the balance negative the replay reports
    [BalanceUnderflow] at the block of one of the transfers. *)
Theorem score_replay_spec (rates : list RatePoint) (decimals start bal : N)
    (ms : list movement) (to_block : N) :
  validate_rates rates = Ok tt →
  in_order start ms →
  (∀ m, m ∈ ms → mv_block m ≤ to_block) → start ≤ to_block →
  match run_balance bal ms,
    replay_movements rates decimals ms (mkAccountScoreState bal start 0 None 0) with
  | Some bal', (r, st) =>
      r = Ok tt ∧ balance st = bal' ∧
      projected_numerator st to_block rates decimals =
        Ok (spec_numerator (history bal ms) start decimals to_block rates)
  | None, (r, _) => ∃ m, m ∈ ms ∧ r = Err (BalanceUnderflow (mv_block m))
  end.
Proof.
  intros Hasc%validate_rates_ascending Hin Hall Hst.
  rewrite <-(initial_represented (history bal ms) start decimals rates bal).
  pose proof (replay_represented (history bal ms) start decimals rates Hasc ms bal start
    ltac:(done) Hin ltac:(done)) as Hrun.
  destruct (run_balance bal ms) as [bal'|] eqn:E.
  - destruct Hrun as (t' & Ht' & Hmax & Hlast & ->). split; [done|]. split; [done|].
    assert (t' ≤ to_block) by (destruct Hlast as [->|(m & Hm & <-)]; auto).
    apply projected_represented; [done|lia|done|].
    intros k Hk _. by apply (history_after _ _ _ t').
  - destruct Hrun as (m & st' & Hm & ->). by exists m.
Qed.

Example score_replay_spec_witness :
  let rates := [mkRatePoint 10 3; mkRatePoint 20 5] in
  let ms := [(12, 7, 0); (15, 0, 2); (22, 4, 1)] in
  let st := (replay_movements rates 6 ms (mkAccountScoreState 0 5 0 None 0)).2 in
  projected_numerator st 30 rates 6 = Ok (spec_numerator (history 0 ms) 5 6 30 rates)
  ∧ spec_numerator (history 0 ms) 5 6 30 rates = 508000000000000.
Proof.
  split; [|vm_compute; reflexivity].
  refine (proj2 (proj2 (score_replay_spec [mkRatePoint 10 3; mkRatePoint 20 5] 6 5 0
    [(12, 7, 0); (15, 0, 2); (22, 4, 1)] 30 _ _ _ _))).
  - reflexivity.
  - vm_compute. intuition discriminate.
  - intros m Hm. repeat (apply elem_of_cons in Hm as [->|Hm]; [vm_compute; discriminate|]).
    by apply elem_of_nil in Hm.
  - discriminate.
Defined.

(** Advancing a replayed account in two hops gives the same state as one
    hop: the accumulator does not depend on how often it is touched, even
    when the scaling of a segment rounds down. *)
Theorem score_advance_split (rates : list RatePoint) (decimals start bal : N)
    (ms : list movement) (middle to_block : N) (st : AccountScoreState) :
  validate_rates rates = Ok tt →
  in_order start ms →
  replay_movements rates decimals ms (mkAccountScoreState bal start 0 None 0) = (Ok tt, st) →
  last_block st ≤ middle → middle ≤ to_block →
  (_ ← advance_account middle rates decimals; advance_account to_block rates decimals) st
  = advance_account to_block rates decimals st.
Proof.
  intros Hasc%validate_rates_ascending Hin Hrun Hmid Hto.
  rewrite <-(initial_represented (history bal ms) start decimals rates bal) in Hrun.
  pose proof (replay_represented (history bal ms) start decimals rates Hasc ms bal start
    ltac:(done) Hin ltac:(done)) as Hrep.
  destruct (run_balance bal ms) as [bal'|] eqn:E.
  2:{ destruct Hrep as (m & st' & _ & Hrep). congruence. }
  destruct Hrep as (t' & Ht' & Hmax & _ & Hrep).
  assert (st = represented (history bal ms) start decimals rates bal' t') as -> by congruence.
  cbn [last_block represented] in Hmid.
  assert (∀ k, t' ≤ k → history bal ms k = bal') as Hh
    by (intros k Hk; by apply (history_after _ _ _ t')).
  erewrite io_bind_eval.
  2:{ apply advance_represented; [done|lia|done|]. intros k Hk _. by apply Hh. }
  rewrite !advance_represented; try done; try lia; intros k Hk _; apply Hh; lia.
Qed.

Example score_advance_split_witness :
  let rates := [mkRatePoint 10 3; mkRatePoint 20 5] in
  let st := (replay_movements rates 20 [(12, 777, 0)] (mkAccountScoreState 0 5 0 None 0)).2 in
  (_ ← advance_account 17 rates 20; advance_account 31 rates 20) st
  = advance_account 31 rates 20 st.
Proof.
  eapply (score_advance_split _ _ 5 0 [(12, 777, 0)]).
  - reflexivity.
  - vm_compute. intuition discriminate.
  - vm_compute. reflexivity.
  - vm_compute. discriminate.
  - discriminate.
Defined.

Lemma advance_account_invalid_rates to_block rates decimals st :
  validate_rates rates ≠ Ok tt →
  advance_account to_block rates decimals st = (Err RatesNotAscending, st).
Proof.
  unfold advance_account, lift, validate_rates, bail_if, mbind, io_bind.
  by destruct (existsb _ _).
Qed.

(** [advance_account] never panics on a replayed account, and fails in
    exactly two ways, both leaving the state alone: rates that are not
    strictly ascending, and a target before the block already reached. *)
Theorem score_advance_errors (rates : list RatePoint) (decimals start bal : N)
    (ms : list movement) (to_block : N) (st : AccountScoreState) :
  in_order start ms →
  replay_movements rates decimals ms (mkAccountScoreState bal start 0 None 0) = (Ok tt, st) →
  advance_account to_block rates decimals st =
    (if decide (validate_rates rates = Ok tt) then
       if to_block <? last_block st then (Err (Backward (last_block st) to_block), st)
       else (Ok tt, represented (history bal ms) start decimals rates (balance st) to_block)
     else (Err RatesNotAscending, st)).
Proof.
  intros Hin Hrun. case_decide as Hv; [|by apply advance_account_invalid_rates].
  pose proof Hv as Hasc%validate_rates_ascending.
  rewrite <-(initial_represented (history bal ms) start decimals rates bal) in Hrun.
  pose proof (replay_represented (history bal ms) start decimals rates Hasc ms bal start
    ltac:(done) Hin ltac:(done)) as Hrep.
  destruct (run_balance bal ms) as [bal'|] eqn:E.
  2:{ destruct Hrep as (m & st' & _ & Hrep). congruence. }
  destruct Hrep as (t' & Ht' & Hmax & _ & Hrep).
  assert (st = represented (history bal ms) start decimals rates bal' t') as -> by congruence.
  cbn [last_block balance represented]. destruct (N.ltb_spec to_block t') as [Hlt|Hge].
  - unfold advance_account. erewrite io_bind_eval by by apply validate_rates_pass.
    erewrite io_bind_eval by reflexivity. cbn [last_block represented].
    by rewrite (proj2 (N.ltb_lt _ _)).
  - apply advance_represented; [done|lia|done|].
    intros k Hk _. by apply (history_after _ _ _ t').
Qed.

Example score_advance_errors_witness :
  advance_account 3 [mkRatePoint 10 3] 18 (mkAccountScoreState 0 5 0 None 0)
  = (Err (Backward 5 3), mkAccountScoreState 0 5 0 None 0).
Proof.
  refine (score_advance_errors [mkRatePoint 10 3] 18 5 0 [] 3
    (mkAccountScoreState 0 5 0 None 0) _ _); [exact I|reflexivity].
Defined.
