(* ===== verification/Commit.v ===== *)
(** * Kernel data and commitments ([src/lib.rs])

    Addresses and hashes, the kernel's records, the ABI words, the rolling
    claim-set hash with its replay of register/cancel events, and the hash of
    the settlement inputs. *)

From S2P Require Import Prelude Bytes Text.
From Stdlib Require Import Strings.Byte.

Open Scope string_scope.
Open Scope N_scope.
Open Scope list_scope.

Definition BPS : N := 10000.
Definition MAX_COVERAGE_BPS : N := 8000.
Definition MAX_PROTOCOL_FEE_BPS : N := 2000.

Abbreviation Hash := (array 32).
Definition ZERO_HASH : Hash := zero_array 32.

Abbreviation Address := (array 20).

(** [Address::is_zero]. *)
Definition address_is_zero (a : Address) : bool := bool_decide (a = zero_array 20).
(** [Address::abi_word]: left-padded to 32 bytes. *)
Definition abi_word (a : Address) : Hash := array_of 32 (replicate 12 x00 ++ array_val a).

Section AddressText.
Context `{HexCrate}.
(** [Address::from_str]. *)
Definition address_from_str (value : string) : option Address :=
  value ← strip_prefix "0x" value;
  if negb (str_len value =? 40) then None
  else bytes ← hex_decode value; try_array 20 bytes.
(** [Display for Address]. *)
Definition address_to_string (a : Address) : string :=
  String.append "0x" (hex_encode (array_val a)).
Definition hash_hex (h : Hash) : string := String.append "0x" (hex_encode (array_val h)).
End AddressText.

Inductive KernelError :=
  | Json (message : string)
  | InvalidDecimal (field value : string)
  | InvalidAddress (field value : string)
  | Uint256Overflow
  | DuplicateInputUser (user : Address)
  | DuplicateClaim (claim_id : N)
  | MissingClaim (claim_id : N)
  | EmptyMerkleTree
  | DuplicateRegistration (claim_id : N)
  | UnknownCancellation (claim_id : N)
  | DuplicateCancellation (claim_id : N)
  | DuplicateResolvedClaim (claim_id : N)
  | MissingResolvedClaim (claim_id : N)
  | UnexpectedResolvedClaim (claim_id : N)
  | ResolvedClaimMismatch (claim_id : N)
  | EventOrder (previous_block previous_index block index : N)
  | InvalidPolicy (message : string).

Record PoolInput := mkPoolInput {
  pool_balance : N;
  pool_asset_usd : N;
  pool_asset_decimals : N
}.

Record ClaimInput := mkClaimInput {
  ci_claim_id : N;
  ci_user : Address;
  ci_escrow_amount : N;
  ci_min_held : N;
  ci_gross_earned_score : N;
  ci_spent_score : N;
  ci_score_to_spend : N;
  ci_booster_amount : N;
  ci_booster_held : N
}.

Record KernelInput := mkKernelInput {
  ki_incident_id : N;
  ki_coverage_bps : N;
  ki_booster_boost_bps : N;
  ki_insured_decimals : N;
  ki_twap_ratio : N;
  ki_underlying_usd : N;
  ki_max_cover_pool_payout_bps : N;
  ki_protocol_fee_share_bps : N;
  ki_pools : list PoolInput;
  ki_claims : list ClaimInput
}.

Record SettledRow := mkSettledRow {
  sr_claim_id : N;
  sr_user : Address;
  sr_escrow_amount : N;
  sr_eligible_amount : N;
  sr_loss_usd : N;
  sr_gross_earned_score : N;
  sr_earned_score : N;
  sr_score_spent : N;
  sr_boosted_score : N;
  sr_booster_amount : N;
  sr_eligible_booster_amount : N;
  sr_payout_usd : N;
  sr_amounts : list N
}.

Record MerkleRow := mkMerkleRow {
  mr_claim_id : N;
  mr_user : Address;
  mr_amounts : list N;
  mr_score_spent : N;
  mr_boosted_score : N;
  mr_eligible_amount : N;
  mr_eligible_booster_amount : N
}.

Record KernelOutput := mkKernelOutput {
  ko_rows : list SettledRow;
  ko_pool_payouts : list N;
  ko_claim_set_hash : string;
  ko_settlement_input_hash : string;
  ko_root : string;
  ko_proofs : gmap N (list string)
}.

Inductive EventKind := Register | Cancel.

Record ClaimEvent := mkClaimEvent {
  ev_kind : EventKind;
  ev_claim_id : N;
  ev_user : Address;
  ev_amount : N;
  ev_score_to_spend : N;
  ev_booster_amount : N;
  ev_block_number : N;
  ev_log_index : N
}.

Record ClaimSetReplay := mkClaimSetReplay {
  csr_hash : string;
  csr_unresolved_claims : N;
  csr_live_claim_ids : list N
}.

#[export] Instance KernelError_eq_dec : EqDecision KernelError.
Proof. solve_decision. Defined.
#[export] Instance PoolInput_eq_dec : EqDecision PoolInput.
Proof. solve_decision. Defined.
#[export] Instance ClaimInput_eq_dec : EqDecision ClaimInput.
Proof. solve_decision. Defined.
#[export] Instance SettledRow_eq_dec : EqDecision SettledRow.
Proof. solve_decision. Defined.
#[export] Instance MerkleRow_eq_dec : EqDecision MerkleRow.
Proof. solve_decision. Defined.
#[export] Instance EventKind_eq_dec : EqDecision EventKind.
Proof. solve_decision. Defined.
#[export] Instance ClaimEvent_eq_dec : EqDecision ClaimEvent.
Proof. solve_decision. Defined.

(* ------------------------------------------------------------------ *)
(** ** Words *)

Definition pow10 (decimals : N) : N := 10 ^ decimals.

Definition uint256_word (value : N) : outcome KernelError Hash :=
  let bytes := to_bytes_be value in
  if Nat.ltb 32 (length bytes) then Err Uint256Overflow
  else Ok (array_of 32 (replicate (32 - length bytes) x00 ++ bytes)).

(** [usize] is 64 bits wide on the supported targets. *)
Definition usize_word (value : N) : Hash :=
  array_of 32 (replicate 24 x00 ++ be_bytes 8 value).

(* ------------------------------------------------------------------ *)
(** ** Commitments *)

Section Hashing.
Context `{HexCrate, Sha3Crate}.

(** [for pair in canonical.windows(2)]: the first equal neighbours. *)
Fixpoint check_distinct_users (rows : list (Address * N)) : outcome KernelError unit :=
  match rows with
  | a :: (b :: _) as rest =>
      _ ← bail_if (bool_decide (a.1 = b.1)) (DuplicateInputUser b.1);
      check_distinct_users rest
  | _ => Ok tt
  end.

Definition settlement_input_hash (rows : list (Address * N)) : outcome KernelError string :=
  let canonical := sort_by_key fst rows in
  _ ← check_distinct_users canonical;
  let len := N.of_nat (length canonical) in
  array_bytes ← ok_or (checked_mul len 32) Uint256Overflow;
  second_offset ← ok_or (checked_add 96 array_bytes) Uint256Overflow;
  scores ← mapM (fun '(_, score) => uint256_word score) canonical;
  let encoded :=
    array_val (usize_word 64) ++ array_val (usize_word second_offset) ++
    array_val (usize_word len) ++
    mjoin (map (fun '(user, _) => array_val (abi_word user)) canonical) ++
    array_val (usize_word len) ++ mjoin (map array_val scores) in
  Ok (hash_hex (keccak256 encoded)).

(** One round of the rolling hash. *)
Definition claim_set_step (accumulator : Hash) (event : ClaimEvent) : outcome KernelError Hash :=
  claim_id ← uint256_word (ev_claim_id event);
  rest ← match ev_kind event with
         | Register =>
             amount ← uint256_word (ev_amount event);
             score ← uint256_word (ev_score_to_spend event);
             booster ← uint256_word (ev_booster_amount event);
             Ok (array_val (abi_word (ev_user event)) ++ array_val amount ++
                 array_val score ++ array_val booster)
         | Cancel => Ok []
         end;
  Ok (keccak256 (array_val accumulator ++ array_val claim_id ++ rest)).

Definition claim_set_hash (events : list ClaimEvent) : outcome KernelError string :=
  accumulator ← fold_m claim_set_step ZERO_HASH events;
  Ok (hash_hex accumulator).

(** Loop state of [replay_claim_set]. *)
Record ReplayState := mkReplayState {
  rs_registrations : gset N;
  rs_order : list N;
  rs_cancelled : gset N;
  rs_previous : option (N * N)
}.

Definition replay_step (st : ReplayState) (event : ClaimEvent) :
    outcome KernelError ReplayState :=
  let position := (ev_block_number event, ev_log_index event) in
  _ ← match rs_previous st with
      | Some previous =>
          bail_if (bool_decide (¬ key_lt previous position))
            (EventOrder previous.1 previous.2 position.1 position.2)
      | None => Ok tt
      end;
  match ev_kind event with
  | Register =>
      _ ← bail_if (bool_decide (ev_claim_id event ∈ rs_registrations st))
            (DuplicateRegistration (ev_claim_id event));
      Ok (mkReplayState ({[ev_claim_id event]} ∪ rs_registrations st)
            (rs_order st ++ [ev_claim_id event]) (rs_cancelled st) (Some position))
  | Cancel =>
      _ ← bail_if (bool_decide (ev_claim_id event ∉ rs_registrations st))
            (UnknownCancellation (ev_claim_id event));
      _ ← bail_if (bool_decide (ev_claim_id event ∈ rs_cancelled st))
            (DuplicateCancellation (ev_claim_id event));
      Ok (mkReplayState (rs_registrations st) (rs_order st)
            ({[ev_claim_id event]} ∪ rs_cancelled st) (Some position))
  end.

Definition replay_claim_set (events : list ClaimEvent) : outcome KernelError ClaimSetReplay :=
  st ← fold_m replay_step (mkReplayState ∅ [] ∅ None) events;
  let live_claim_ids := filter (fun id => id ∉ rs_cancelled st) (rs_order st) in
  hash ← claim_set_hash events;
  Ok (mkClaimSetReplay hash (N.of_nat (length live_claim_ids)) live_claim_ids).
End Hashing.

(* ------------------------------------------------------------------ *)
(** ** Helper lemmas: words and addresses *)

Lemma uint256_word_ok v w : uint256_word v = Ok w ↔ v < 2 ^ 256 ∧ array_val w = be_bytes 32 v.
Proof.
  unfold uint256_word. pose proof (length_to_bytes_be v 32 ltac:(lia)) as Hlen.
  change (256 ^ N.of_nat 32) with (2 ^ 256) in Hlen.
  destruct (Nat.ltb_spec 32 (length (to_bytes_be v))) as [Hlt|Hle].
  - split; [done|]. intros [Hv _]. apply Hlen in Hv. lia.
  - apply Hlen in Hle as Hv. rewrite pad_to_bytes_be by (done || lia). split.
    + intros [= <-]. split; [done|]. apply array_val_of, length_be_bytes.
    + intros [_ Hw]. f_equal. apply array_val_inj. rewrite Hw.
      by rewrite array_val_of by apply length_be_bytes.
Qed.

Lemma uint256_word_err v e : uint256_word v = Err e ↔ 2 ^ 256 ≤ v ∧ e = Uint256Overflow.
Proof.
  unfold uint256_word. pose proof (length_to_bytes_be v 32 ltac:(lia)) as Hlen.
  change (256 ^ N.of_nat 32) with (2 ^ 256) in Hlen.
  destruct (Nat.ltb_spec 32 (length (to_bytes_be v))) as [Hlt|Hle].
  - assert (2 ^ 256 ≤ v) by (apply N.le_ngt; intros Hv%Hlen; lia). naive_solver.
  - apply Hlen in Hle. split; [done|]. intros [? _]. lia.
Qed.

Lemma uint256_word_no_panic v : no_panic (uint256_word v).
Proof. unfold uint256_word. solve_no_panic. Qed.
#[export] Hint Resolve uint256_word_no_panic : no_panic.

Lemma uint256_word_inj v1 v2 w : uint256_word v1 = Ok w → uint256_word v2 = Ok w → v1 = v2.
Proof.
  intros [H1 E1]%uint256_word_ok [H2 E2]%uint256_word_ok.
  apply (be_bytes_inj 32); [done..|congruence].
Qed.

Lemma abi_word_val a : array_val (abi_word a) = replicate 12 x00 ++ array_val a.
Proof. apply array_val_of. rewrite length_app, length_replicate, array_length. done. Qed.

Lemma abi_word_inj a b : abi_word a = abi_word b → a = b.
Proof.
  intros E. apply array_val_inj. apply (f_equal array_val) in E.
  rewrite !abi_word_val in E. by apply app_inj_1 in E as [_ E].
Qed.

#[export] Instance abi_word_Inj : Inj (=) (=) abi_word := abi_word_inj.

(** Splitting concatenated fixed-size fields. *)
Lemma array_app_inj {n} (a b : array n) l k :
  array_val a ++ l = array_val b ++ k → a = b ∧ l = k.
Proof.
  intros E. apply app_inj_1 in E as [E ->]; [|by rewrite !array_length].
  split; [|done]. by apply array_val_inj.
Qed.

Section TextFacts.
Context `{HexLaws}.

Lemma hash_hex_inj h1 h2 : hash_hex h1 = hash_hex h2 → h1 = h2.
Proof.
  unfold hash_hex. intros E. apply array_val_inj, hex_encode_inj.
  apply (inj Some). by rewrite <-!(strip_prefix_app "0x"), E.
Qed.

Lemma hash_hex_lower h : to_ascii_lowercase (hash_hex h) = hash_hex h.
Proof. unfold hash_hex. rewrite to_ascii_lowercase_app. by rewrite hex_encode_lower. Qed.

Lemma hash_hex_eq_ignore_case h1 h2 :
  eq_ignore_ascii_case (hash_hex h1) (hash_hex h2) = true ↔ h1 = h2.
Proof.
  rewrite eq_ignore_ascii_case_spec, !hash_hex_lower.
  split; [apply hash_hex_inj|by intros ->].
Qed.
End TextFacts.

(* ------------------------------------------------------------------ *)
(** ** Theorems: text and words *)

Lemma address_from_to_string `{HexLaws} a : address_from_str (address_to_string a) = Some a.
Proof.
  unfold address_from_str, address_to_string. rewrite strip_prefix_app. cbn.
  rewrite hex_encode_len, array_length. cbn. rewrite hex_decode_encode. cbn. by apply try_array_Some.
Qed.

(** [Display] and [FromStr] of addresses are inverse: a displayed address
    parses back, a parsed text displays as its lower-case form, and every
    accepted text is [0x] followed by 40 characters. *)
Theorem address_text_roundtrip `{HexLaws} :
  (∀ a, address_from_str (address_to_string a) = Some a) ∧
  (∀ s a, address_from_str s = Some a →
     str_len s = 42 ∧ address_to_string a = to_ascii_lowercase s).
Proof.
  split; [exact address_from_to_string|]. unfold address_from_str, address_to_string.
  - intros s a. destruct (strip_prefix "0x" s) as [r|] eqn:E; [|done]. cbn.
    apply strip_prefix_Some in E as ->.
    destruct (N.eqb_spec (str_len r) 40) as [Hlen|]; [|done]. cbn.
    destruct (hex_decode r) as [l|] eqn:El; [|done]. cbn. intros ->%try_array_Some.
    rewrite str_len_app, Hlen, to_ascii_lowercase_app. split; [done|].
    by rewrite (hex_encode_decode _ _ El).
Qed.

Example address_text_roundtrip_witness :
  let H := RefHex.hex_crate in
  address_from_str "0x00000000000000000000000000000000000000aB"
  = Some (array_of 20 (replicate 19 x00 ++ [xab])) ∧
  address_to_string (array_of 20 (replicate 19 x00 ++ [xab]))
  = "0x00000000000000000000000000000000000000ab".
Proof.
  split; [vm_compute; reflexivity|].
  apply (proj2 (@address_text_roundtrip RefHex.hex_crate RefHex.hex_laws)
    "0x00000000000000000000000000000000000000aB").
  vm_compute. reflexivity.
Defined.

(** A 256-bit ABI word holds exactly the values below [2^256]: encoding
    fails with [Uint256Overflow] from there on, and otherwise reading the 32
    bytes back as a big-endian number returns the value. *)
Theorem uint256_word_roundtrip (value : N) :
  if 2 ^ 256 <=? value then uint256_word value = Err Uint256Overflow
  else ∃ word, uint256_word value = Ok word ∧ from_bytes_be (array_val word) = value.
Proof.
  destruct (N.leb_spec (2 ^ 256) value) as [Hge|Hlt].
  - by apply uint256_word_err.
  - exists (array_of 32 (be_bytes 32 value)).
    rewrite array_val_of by apply length_be_bytes. split.
    + apply uint256_word_ok. split; [done|]. by rewrite array_val_of by apply length_be_bytes.
    + rewrite from_be_bytes. by apply N.mod_small.
Qed.

(* ------------------------------------------------------------------ *)
(** ** Theorems: replaying the claim set *)

Definition event_position (e : ClaimEvent) : N * N := (ev_block_number e, ev_log_index e).
Definition registered_ids (es : list ClaimEvent) : list N :=
  map ev_claim_id (filter (fun e => ev_kind e = Register) es).
Definition cancelled_ids (es : list ClaimEvent) : list N :=
  map ev_claim_id (filter (fun e => ev_kind e = Cancel) es).

Lemma registered_ids_snoc es e :
  registered_ids (es ++ [e]) =
  registered_ids es ++ match ev_kind e with Register => [ev_claim_id e] | Cancel => [] end.
Proof.
  unfold registered_ids. rewrite filter_app, map_app. f_equal.
  rewrite filter_cons. destruct (ev_kind e); by rewrite ?decide_True, ?decide_False by done.
Qed.

Lemma cancelled_ids_snoc es e :
  cancelled_ids (es ++ [e]) =
  cancelled_ids es ++ match ev_kind e with Cancel => [ev_claim_id e] | Register => [] end.
Proof.
  unfold cancelled_ids. rewrite filter_app, map_app. f_equal.
  rewrite filter_cons. destruct (ev_kind e); by rewrite ?decide_True, ?decide_False by done.
Qed.

(** What the loop of [replay_claim_set] has established after [es]. *)
Definition replay_inv (es : list ClaimEvent) (st : ReplayState) : Prop :=
  rs_order st = registered_ids es ∧
  rs_registrations st = list_to_set (registered_ids es) ∧
  rs_cancelled st = list_to_set (cancelled_ids es) ∧
  rs_previous st = event_position <$> last es ∧
  NoDup (registered_ids es) ∧ NoDup (cancelled_ids es) ∧
  (∀ id, id ∈ cancelled_ids es → id ∈ registered_ids es) ∧
  StronglySorted (key_lt_on event_position) es.

Lemma strongly_sorted_snoc {A} (R : relation A) `{!Transitive R} l x :
  StronglySorted R l → (∀ y, last l = Some y → R y x) → StronglySorted R (l ++ [x]).
Proof.
  induction 1 as [|z l Hl IH Hz]; intros Hlast; simpl; [repeat constructor|].
  destruct l as [|w l].
  - repeat constructor. by apply Hlast.
  - constructor; [by apply IH|]. apply Forall_app. split; [done|]. constructor; [|done].
    destruct (last (w :: l)) as [y|] eqn:E; [|by apply last_None in E].
    transitivity y; [|by apply Hlast].
    rewrite Forall_forall in Hz. apply Hz.
    apply last_Some in E as [l' ->]. apply elem_of_app. right. left.
Qed.

Lemma strongly_sorted_app_l {A} (R : relation A) l k :
  StronglySorted R (l ++ k) → StronglySorted R l.
Proof.
  induction l as [|x l IH]; simpl; [constructor|]. intros [Hs Hx]%StronglySorted_inv.
  apply Forall_app in Hx as [Hx _]. constructor; auto.
Qed.

Lemma strongly_sorted_app_r {A} (R : relation A) l k :
  StronglySorted R (l ++ k) → StronglySorted R k.
Proof. induction l as [|x l IH]; simpl; [done|]. intros [Hs _]%StronglySorted_inv. auto. Qed.

#[export] Instance key_lt_on_trans {A K} `{KeyOrder K} (f : A → K) : Transitive (key_lt_on f).
Proof. intros x y z. unfold key_lt_on. apply transitivity. Qed.

Lemma replay_step_inv es st e st' :
  replay_inv es st → replay_step st e = Ok st' → replay_inv (es ++ [e]) st'.
Proof.
  intros (Ho & Hr & Hc & Hp & Hnr & Hnc & Hsub & Hs) Hstep. unfold replay_step in Hstep.
  apply bind_ok in Hstep as (u & Hpos & Hstep).
  assert (StronglySorted (key_lt_on event_position) (es ++ [e])) as Hs'.
  { apply strongly_sorted_snoc; [apply _|done|]. intros y Hy. rewrite Hp, Hy in Hpos.
    cbn [fmap option_fmap option_map] in Hpos. apply bail_if_ok in Hpos.
    apply bool_decide_eq_false in Hpos. by apply dec_stable in Hpos. }
  unfold replay_inv. rewrite registered_ids_snoc, cancelled_ids_snoc, last_snoc.
  destruct (ev_kind e).
  - apply bind_ok in Hstep as (? & Hdup & [= <-]). apply bail_if_ok in Hdup.
    apply bool_decide_eq_false in Hdup. simpl. rewrite Hr in Hdup.
    rewrite elem_of_list_to_set in Hdup. rewrite app_nil_r. repeat split; try done.
    + by rewrite Ho.
    + rewrite Hr, list_to_set_app_L. simpl. set_solver.
    + apply NoDup_app. split; [done|]. split; [|apply NoDup_singleton].
      intros z Hz Hz'. apply list_elem_of_singleton in Hz'. by subst z.
    + intros id Hid. apply elem_of_app. left. auto.
  - apply bind_ok in Hstep as (? & Hunk & Hstep). apply bind_ok in Hstep as (? & Hdup & [= <-]).
    apply bail_if_ok, bool_decide_eq_false in Hunk, Hdup. apply dec_stable in Hunk.
    simpl. rewrite Hr, elem_of_list_to_set in Hunk. rewrite Hc, elem_of_list_to_set in Hdup.
    rewrite app_nil_r. repeat split; try done.
    + rewrite Hc, list_to_set_app_L. simpl. set_solver.
    + apply NoDup_app. split; [done|]. split; [|apply NoDup_singleton].
      intros z Hz Hz'. apply list_elem_of_singleton in Hz'. by subst z.
    + intros id [Hid|Hid]%elem_of_app; [auto|]. apply list_elem_of_singleton in Hid. by subst id.
Qed.

Lemma replay_fold_inv es st :
  fold_m replay_step (mkReplayState ∅ [] ∅ None) es = Ok st → replay_inv es st.
Proof.
  apply (fold_m_inv replay_step replay_inv).
  - unfold replay_inv. cbn. repeat split; try done; try constructor.
  - intros. by eapply replay_step_inv.
Qed.

(** The converse: a step on a well-formed continuation succeeds. *)
Lemma replay_step_ok es st e :
  replay_inv es st → StronglySorted (key_lt_on event_position) (es ++ [e]) →
  (ev_kind e = Register → ev_claim_id e ∉ registered_ids es) →
  (ev_kind e = Cancel → ev_claim_id e ∈ registered_ids es ∧ ev_claim_id e ∉ cancelled_ids es) →
  ∃ st', replay_step st e = Ok st'.
Proof.
  intros (_ & Hr & Hc & Hp & _) Hs Hreg Hcan. unfold replay_step.
  assert (match rs_previous st with
          | Some previous =>
              bail_if (bool_decide (¬ key_lt previous (event_position e)))
                (EventOrder previous.1 previous.2 (event_position e).1 (event_position e).2)
          | None => Ok tt
          end = Ok tt) as Hpos.
  { rewrite Hp. destruct (last es) as [y|] eqn:Hy; cbn; [|done].
    apply last_Some in Hy as [l ->]. rewrite <-app_assoc in Hs.
    apply strongly_sorted_app_r in Hs. apply StronglySorted_inv in Hs as [_ Hye].
    apply Forall_cons in Hye as [Hye _].
    apply bail_if_ok, bool_decide_eq_false_2. intros Hn. by apply Hn. }
  unfold event_position in Hpos. rewrite Hpos. cbn [mbind outcome_bind].
  destruct (ev_kind e); rewrite Hr, ?Hc.
  - rewrite bool_decide_eq_false_2; [by eexists|]. rewrite elem_of_list_to_set. auto.
  - destruct Hcan as [Hin Hni]; [done|].
    rewrite (bool_decide_eq_false_2 (ev_claim_id e ∉ _)).
    + cbn. rewrite bool_decide_eq_false_2; [by eexists|]. by rewrite elem_of_list_to_set.
    + intros Hn. apply Hn. by rewrite elem_of_list_to_set.
Qed.

Lemma filter_not_in_length (l k : list N) :
  NoDup l → NoDup k → (∀ x, x ∈ k → x ∈ l) →
  (length (filter (fun x => x ∉ k) l) + length k = length l)%nat.
Proof.
  intros Hl Hk Hsub.
  assert (l ≡ₚ filter (fun x => x ∉ k) l ++ k) as Hp.
  { apply NoDup_Permutation; [done| |].
    - apply NoDup_app. split; [by apply NoDup_filter|]. split; [|done].
      intros x [Hx _]%list_elem_of_filter. done.
    - intros x. rewrite elem_of_app, list_elem_of_filter.
      destruct (decide (x ∈ k)); naive_solver. }
  apply Permutation_length in Hp. rewrite length_app in Hp. lia.
Qed.

Section ReplayTheorems.
Context `{HexCrate, Sha3Crate}.

(** A successful replay of the register/cancel stream means: the events
    are in strictly increasing (block, log index) order, no claim is
    registered or cancelled twice, only registered claims are cancelled;
    the live ids are the registered ids without the cancelled ones, in
    registration order, and the unresolved count is the number of
    registrations minus the number of cancellations. *)
Theorem replay_claim_set_sound (es : list ClaimEvent) (r : ClaimSetReplay) :
  replay_claim_set es = Ok r →
  StronglySorted (key_lt_on event_position) es ∧
  NoDup (registered_ids es) ∧ NoDup (cancelled_ids es) ∧
  cancelled_ids es ⊆ registered_ids es ∧
  csr_live_claim_ids r = filter (fun id => id ∉ cancelled_ids es) (registered_ids es) ∧
  csr_unresolved_claims r + N.of_nat (length (cancelled_ids es))
    = N.of_nat (length (registered_ids es)) ∧
  claim_set_hash es = Ok (csr_hash r).
Proof.
  unfold replay_claim_set.
  intros (st & Hst & (h & Hh & [= <-])%bind_ok)%bind_ok. simpl.
  apply replay_fold_inv in Hst as (Ho & Hr & Hc & Hp & Hnr & Hnc & Hsub & Hs).
  assert (filter (fun id => id ∉ rs_cancelled st) (rs_order st)
    = filter (fun id => id ∉ cancelled_ids es) (registered_ids es)) as Hlive.
  { rewrite Ho. apply list_filter_iff. intros id. rewrite Hc. set_solver. }
  rewrite Hlive. do 3 (split; [done|]).
  split; [exact Hsub|]. split; [done|]. split; [|done].
  pose proof (filter_not_in_length _ _ Hnr Hnc Hsub). lia.
Qed.

(** The replay rejects exactly the ill-formed streams.  For a stream
    whose numbers fit 256 bits it succeeds whenever the order is strict, ids
    are not reused and cancellations refer to earlier registrations. *)
Theorem replay_claim_set_complete (es : list ClaimEvent) (h : string) :
  claim_set_hash es = Ok h →
  StronglySorted (key_lt_on event_position) es →
  NoDup (registered_ids es) → NoDup (cancelled_ids es) →
  (∀ pre e post, es = pre ++ e :: post → ev_kind e = Cancel →
     ev_claim_id e ∈ registered_ids pre) →
  ∃ r, replay_claim_set es = Ok r ∧ csr_hash r = h.
Proof.
  intros Hh Hs Hnr Hnc Hsub. unfold replay_claim_set.
  assert (∃ st, fold_m replay_step (mkReplayState ∅ [] ∅ None) es = Ok st) as [st Hst].
  { clear Hh. induction es as [|e es IH] using rev_ind; [by eexists|].
    rewrite registered_ids_snoc in Hnr. rewrite cancelled_ids_snoc in Hnc.
    apply NoDup_app in Hnr as (Hnr & Hnr' & _). apply NoDup_app in Hnc as (Hnc & Hnc' & _).
    destruct IH as [st Hst].
    - by apply strongly_sorted_app_l in Hs.
    - done.
    - done.
    - intros pre x post -> Hx. apply (Hsub pre x (post ++ [e])); [|done].
      by rewrite <-app_assoc.
    - rewrite fold_m_snoc, Hst. apply replay_fold_inv in Hst as Hi.
      apply (replay_step_ok es); [done|done|..]; intros Ek; rewrite Ek in *.
      + intros Hin. by apply (Hnr' _ Hin); left.
      + split; [by apply (Hsub es e [])|]. intros Hin. by apply (Hnc' _ Hin); left. }
  rewrite Hst, Hh. simpl. eauto.
Qed.
End ReplayTheorems.

(** *** Evaluated instances *)

Section ReplayWitnesses.
#[local] Existing Instance RefHex.hex_crate.
#[local] Existing Instance RefSha3.sha3_crate.

Definition sample_user : Address := array_of 20 (replicate 19 x00 ++ [x11]).
Definition sample_events : list ClaimEvent :=
  [mkClaimEvent Register 5 sample_user 100 7 1 10 0;
   mkClaimEvent Register 6 sample_user 50 0 0 10 3;
   mkClaimEvent Cancel 5 sample_user 0 0 0 12 1].

Lemma sample_events_sorted : StronglySorted (key_lt_on event_position) sample_events.
Proof. repeat constructor; vm_compute; naive_solver. Qed.

Example replay_claim_set_sound_witness :
  ∃ r, replay_claim_set sample_events = Ok r ∧
  csr_live_claim_ids r = filter (fun id => id ∉ cancelled_ids sample_events)
    (registered_ids sample_events).
Proof.
  assert (∃ r, replay_claim_set sample_events = Ok r) as [r E]
    by (eexists; vm_compute; reflexivity).
  exists r. split; [exact E|].
  destruct (replay_claim_set_sound sample_events r E) as (_ & _ & _ & _ & Hl & _).
  exact Hl.
Defined.

Example replay_claim_set_complete_witness :
  ∃ h r, replay_claim_set sample_events = Ok r ∧ csr_hash r = h.
Proof.
  assert (∃ h, claim_set_hash sample_events = Ok h) as [h E]
    by (eexists; vm_compute; reflexivity).
  exists h. apply (replay_claim_set_complete sample_events h E).
  - exact sample_events_sorted.
  - apply (bool_decide_eq_true_1 _). vm_compute. reflexivity.
  - apply (bool_decide_eq_true_1 _). vm_compute. reflexivity.
  - intros pre e post Epre Hk.
    unfold sample_events in Epre. destruct pre as [|? [|? [|? [|? pre]]]]; simplify_eq/=.
    left.
Defined.
End ReplayWitnesses.

(* ------------------------------------------------------------------ *)
(** ** Theorems: what the commitments bind *)

(** What the rolling hash commits to for one event. *)
Definition committed (e : ClaimEvent) : N * option (Address * N * N * N) :=
  (ev_claim_id e,
   match ev_kind e with
   | Register => Some (ev_user e, ev_amount e, ev_score_to_spend e, ev_booster_amount e)
   | Cancel => None
   end).

Section Binding.
Context `{HexCrate, Sha3Crate}.

Lemma claim_set_step_ok acc e h :
  claim_set_step acc e = Ok h → ∃ id rest,
    uint256_word (ev_claim_id e) = Ok id ∧
    match committed e with
    | (_, Some (user, amount, score, booster)) => ∃ a s b,
        uint256_word amount = Ok a ∧ uint256_word score = Ok s ∧ uint256_word booster = Ok b ∧
        rest = array_val (abi_word user) ++ array_val a ++ array_val s ++ array_val b
    | (_, None) => rest = []
    end ∧ h = keccak256 (array_val acc ++ array_val id ++ rest).
Proof.
  unfold claim_set_step, committed. intros (id & Hid & (rest & Hrest & [= <-])%bind_ok)%bind_ok.
  exists id, rest. split; [done|]. split; [|done]. destruct (ev_kind e).
  - apply bind_ok in Hrest as (a & Ha & (s & Hs & (b & Hb & [= <-])%bind_ok)%bind_ok).
    eauto 10.
  - by injection Hrest as <-.
Qed.

(** Two equal rounds hash equal data, or exhibit a collision. *)
Lemma claim_set_step_inj acc1 acc2 e1 e2 h :
  claim_set_step acc1 e1 = Ok h → claim_set_step acc2 e2 = Ok h →
  (acc1 = acc2 ∧ committed e1 = committed e2) ∨ keccak_collision.
Proof.
  intros (i1 & r1 & Hi1 & Hr1 & E1)%claim_set_step_ok (i2 & r2 & Hi2 & Hr2 & E2)%claim_set_step_ok.
  destruct (decide (array_val acc1 ++ array_val i1 ++ r1 = array_val acc2 ++ array_val i2 ++ r2))
    as [E|Hne]; [left|right; eexists _, _; split; [exact Hne|congruence]].
  apply array_app_inj in E as [-> E]. split; [done|].
  apply array_app_inj in E as [-> E]. pose proof (uint256_word_inj _ _ _ Hi1 Hi2) as Hid.
  unfold committed in *. rewrite Hid. f_equal. subst r2.
  destruct (ev_kind e1), (ev_kind e2).
  - destruct Hr1 as (a1 & s1 & b1 & Ha1 & Hs1 & Hb1 & ->).
    destruct Hr2 as (a2 & s2 & b2 & Ha2 & Hs2 & Hb2 & E).
    apply array_app_inj in E as [Hu%abi_word_inj E].
    apply array_app_inj in E as [-> E]. apply array_app_inj in E as [-> E].
    apply array_val_inj in E as ->. rewrite Hu.
    by rewrite (uint256_word_inj _ _ _ Ha1 Ha2), (uint256_word_inj _ _ _ Hs1 Hs2),
      (uint256_word_inj _ _ _ Hb1 Hb2).
  - destruct Hr1 as (a1 & s1 & b1 & _ & _ & _ & ->). apply (f_equal length) in Hr2.
    by rewrite !length_app, !array_length in Hr2.
  - destruct Hr2 as (a1 & s1 & b1 & _ & _ & _ & Hr2). subst r1. apply (f_equal length) in Hr2.
    by rewrite !length_app, !array_length in Hr2.
  - done.
Qed.

Lemma claim_set_fold_binding es1 : ∀ es2 acc,
  fold_m claim_set_step ZERO_HASH es1 = Ok acc → fold_m claim_set_step ZERO_HASH es2 = Ok acc →
  map committed es1 = map committed es2 ∨ keccak_collision ∨ ∃ l, keccak256 l = ZERO_HASH.
Proof.
  induction es1 as [|e1 es1 IH] using rev_ind; intros es2 acc H1 H2;
    destruct es2 as [|e2 es2 _] using rev_ind; [by left|..].
  - injection H1 as <-. rewrite fold_m_snoc in H2.
    apply bind_ok in H2 as (a & _ & (i & r & _ & _ & ->)%claim_set_step_ok). eauto.
  - injection H2 as <-. rewrite fold_m_snoc in H1.
    apply bind_ok in H1 as (a & _ & (i & r & _ & _ & ->)%claim_set_step_ok). eauto.
  - rewrite fold_m_snoc in H1, H2.
    apply bind_ok in H1 as (a1 & H1 & E1). apply bind_ok in H2 as (a2 & H2 & E2).
    destruct (claim_set_step_inj _ _ _ _ _ E1 E2) as [[-> Hc]|Hc]; [|by right; left].
    destruct (IH es2 a2 H1 H2) as [IHe|IHe]; [left|by right].
    by rewrite !map_app, IHe; simpl; rewrite Hc.
Qed.
End Binding.

(** *** The settlement-input hash *)

Lemma check_distinct_users_cons2 a b rest :
  check_distinct_users (a :: b :: rest) =
  (_ ← bail_if (bool_decide (a.1 = b.1)) (DuplicateInputUser b.1); check_distinct_users (b :: rest)).
Proof. done. Qed.

Lemma check_distinct_users_keys l k :
  map fst l = map fst k → check_distinct_users l = check_distinct_users k.
Proof.
  revert k. induction l as [|a [|b l] IH]; intros [|a' [|b' k]] [=]; try done.
  rewrite !check_distinct_users_cons2.
  assert (a.1 = a'.1) as -> by done. assert (b.1 = b'.1) as E by done. rewrite E.
  destruct (bool_decide _); cbn [bail_if mbind outcome_bind]; [done|].
  apply IH. cbn [map]. by f_equal.
Qed.

Lemma check_distinct_users_ok l u :
  StronglySorted (key_le_on fst) l → check_distinct_users l = Ok u → NoDup (map fst l).
Proof.
  induction l as [|a [|b l] IH]; intros Hs;
    [constructor|repeat constructor; by inversion 1|].
  rewrite check_distinct_users_cons2. intros (v & Hab & Hrest)%bind_ok. apply bail_if_ok, bool_decide_eq_false in Hab.
  apply StronglySorted_inv in Hs as [Hs Ha]. specialize (IH Hs Hrest).
  cbn [map]. constructor; [|exact IH].
  intros [?|[c [Hc Hin]]%list_elem_of_fmap]%elem_of_cons; [done|].
  apply Forall_cons in Ha as [Ha1 _].
  apply StronglySorted_inv in Hs as [_ Hb]. rewrite Forall_forall in Hb.
  specialize (Hb c Hin). unfold key_le_on in *. rewrite <-Hc in Hb.
  destruct (key_trichotomy a.1 b.1) as [?|[?|?]]; done.
Qed.

Lemma check_distinct_users_nodup l :
  NoDup (map fst l) → check_distinct_users l = Ok tt.
Proof.
  induction l as [|a [|b l] IH]; intros Hnd; [done..|].
  rewrite check_distinct_users_cons2.
  cbn [map] in Hnd. apply NoDup_cons in Hnd as [Hni Hnd].
  rewrite bool_decide_eq_false_2 by (intros E; apply Hni; rewrite E; left).
  by apply IH.
Qed.

(** Sorted keys are determined by the multiset of keys. *)
Lemma sorted_keys_unique {A K} `{KeyOrder K} (f : A → K) l k :
  StronglySorted (key_le_on f) l → StronglySorted (key_le_on f) k →
  map f l ≡ₚ map f k → map f l = map f k.
Proof.
  intros Hl. revert k. induction Hl as [|x l Hl IH Hx]; intros k Hk Hp.
  { by apply Permutation_nil in Hp. }
  destruct Hk as [|y k Hk Hy]; [by apply symmetry, Permutation_nil in Hp|].
  cbn [map] in *. assert (f x = f y) as E.
  { rewrite Forall_forall in Hx, Hy. unfold key_le_on in *.
    assert (f x ∈ f y :: map f k) as Hxi by (rewrite <-Hp; left).
    assert (f y ∈ f x :: map f l) as Hyi by (rewrite Hp; left).
    apply elem_of_cons in Hxi as [?|[z [Ez Hz]]%list_elem_of_fmap]; [done|].
    apply elem_of_cons in Hyi as [?|[w [Ew Hw]]%list_elem_of_fmap]; [done|].
    specialize (Hy z Hz). specialize (Hx w Hw). rewrite <-Ew in Hx. rewrite <-Ez in Hy.
    destruct (key_trichotomy (f x) (f y)) as [?|[?|?]]; done. }
  rewrite E in *. f_equal. apply IH; [done|]. by apply (inj (f y ::.)) in Hp.
Qed.

Lemma usize_word_inj a b :
  a < u64_modulus → b < u64_modulus → usize_word a = usize_word b → a = b.
Proof.
  intros Ha Hb E. apply (f_equal array_val) in E. unfold usize_word in E.
  rewrite !array_val_of in E by (by rewrite length_app, length_replicate, length_be_bytes).
  apply app_inv_head in E. by apply (be_bytes_inj 8).
Qed.

Lemma mjoin_arrays_inj {n} (l k : list (array n)) r s :
  length l = length k → mjoin (map array_val l) ++ r = mjoin (map array_val k) ++ s →
  l = k ∧ r = s.
Proof.
  revert k. induction l as [|a l IH]; intros [|b k] [=] E; [done|].
  simpl in E. rewrite <-!app_assoc in E. apply array_app_inj in E as [-> E].
  by apply IH in E as [-> ->].
Qed.

Section InputHash.
Context `{HexCrate, Sha3Crate}.

Lemma settlement_input_hash_ok rows h :
  settlement_input_hash rows = Ok h ↔ ∃ scores,
    let canonical := sort_by_key fst rows in
    let len := N.of_nat (length rows) in
    NoDup (map fst rows) ∧ 96 + len * 32 ≤ u64_max ∧
    Forall2 (fun x w => uint256_word x.2 = Ok w) canonical scores ∧
    h = hash_hex (keccak256
      (array_val (usize_word 64) ++ array_val (usize_word (96 + len * 32)) ++
       array_val (usize_word len) ++
       mjoin (map array_val (map (fun x => abi_word x.1) canonical)) ++
       array_val (usize_word len) ++ mjoin (map array_val scores))).
Proof.
  assert (∀ c : list (Address * N), map array_val (map (fun x => abi_word x.1) c)
    = map (fun '(user, _) => array_val (abi_word user)) c) as Hmap.
  { intros c. rewrite map_map. apply map_ext. by intros []. }
  assert (∀ c : list (Address * N),
    mapM (fun '(_, score) => uint256_word score) c = mapM (fun x => uint256_word x.2) c) as HmapM.
  { induction c as [|[??] c IHc]; [done|]. cbn [mapM]. by rewrite IHc. }
  assert (length (sort_by_key fst rows) = length rows) as Hlen
    by (apply Permutation_length, sort_by_key_perm).
  unfold settlement_input_hash. cbn zeta. rewrite Hlen, HmapM. split.
  - intros (u & Hu & (ab & Hab & (so & Hso & (sc & Hsc & [= <-])%bind_ok)%bind_ok)%bind_ok)%bind_ok.
    apply ok_or_ok in Hab, Hso. apply checked_add_Some in Hso as [-> Hso].
    unfold checked_mul in Hab. destruct (_ <=? _); [|done]. injection Hab as <-.
    exists sc. rewrite Hmap. apply mapM_ok in Hsc.
    apply check_distinct_users_ok in Hu; [|apply sort_by_key_sorted].
    by rewrite sort_by_key_perm in Hu.
  - intros (sc & Hnd & Hle & Hsc & ->). rewrite Hmap.
    rewrite check_distinct_users_nodup by (by rewrite sort_by_key_perm).
    cbn [mbind outcome_bind].
    replace (checked_mul (N.of_nat (length rows)) 32) with (Some (N.of_nat (length rows) * 32))
      by (unfold checked_mul; rewrite (proj2 (N.leb_le _ _)); [done|lia]).
    cbn [ok_or mbind outcome_bind].
    rewrite (proj2 (checked_add_Some 96 _ _) (conj eq_refl Hle)).
    cbn [ok_or mbind outcome_bind]. apply mapM_ok in Hsc. by rewrite Hsc.
Qed.
End InputHash.

Section BindingTheorems.
Context `{HexLaws, Sha3Crate}.

(** The rolling claim-set hash binds the whole register/cancel stream: two
    streams with one hash agree, event by event, on the kind, the claim id and
    (for registrations) the user, the amount, the score and the boosters, or
    else two different inputs of Keccak-256 with one digest, or an input whose
    digest is zero, are known. *)
Theorem claim_set_hash_binding (es1 es2 : list ClaimEvent) (h : string) :
  claim_set_hash es1 = Ok h → claim_set_hash es2 = Ok h →
  map committed es1 = map committed es2 ∨
  keccak_collision ∨ ∃ l, keccak256 l = ZERO_HASH.
Proof.
  unfold claim_set_hash. intros (a & Ha & [= <-])%bind_ok (b & Hb & E%(inj Ok))%bind_ok.
  apply hash_hex_inj in E as ->. by eapply claim_set_fold_binding.
Qed.

(** The settlement-input hash does not depend on the order of its rows:
    permuted rows give the same result, the same error included. *)
Theorem settlement_input_hash_perm (rows1 rows2 : list (Address * N)) :
  rows1 ≡ₚ rows2 → settlement_input_hash rows1 = settlement_input_hash rows2.
Proof.
  intros Hp.
  assert (map fst (sort_by_key fst rows1) = map fst (sort_by_key fst rows2)) as Hkeys.
  { apply sorted_keys_unique; [apply sort_by_key_sorted..|]. by rewrite !sort_by_key_perm, Hp. }
  destruct (check_distinct_users (sort_by_key fst rows1)) as [u|e|s] eqn:Hu.
  - assert (sort_by_key fst rows1 = sort_by_key fst rows2) as Heq.
    { apply sort_by_key_perm_eq; [done|]. rewrite <-(sort_by_key_perm fst rows1).
      eapply check_distinct_users_ok; [apply sort_by_key_sorted|exact Hu]. }
    unfold settlement_input_hash. by rewrite Heq.
  - unfold settlement_input_hash. by rewrite <-(check_distinct_users_keys _ _ Hkeys), Hu.
  - unfold settlement_input_hash. by rewrite <-(check_distinct_users_keys _ _ Hkeys), Hu.
Qed.

(** The settlement-input hash binds its rows: two row sets with one hash
    have pairwise distinct users and are the same set of (user, gross score)
    pairs, or a Keccak-256 collision is known. *)
Theorem settlement_input_hash_binding (rows1 rows2 : list (Address * N)) (h : string) :
  settlement_input_hash rows1 = Ok h → settlement_input_hash rows2 = Ok h →
  (NoDup (map fst rows1) ∧ rows1 ≡ₚ rows2) ∨ keccak_collision.
Proof.
  intros (s1 & Hn1 & Hl1 & Hs1 & E1)%settlement_input_hash_ok.
  intros (s2 & Hn2 & Hl2 & Hs2 & E2)%settlement_input_hash_ok.
  rewrite E1 in E2. apply hash_hex_inj in E2. clear E1.
  match type of E2 with keccak256 ?a = keccak256 ?b => destruct (decide (a = b)) as [E|Hne] end;
    [left|right; by eexists _, _].
  clear E2. split; [done|].
  apply app_inv_head in E. apply array_app_inj in E as [_ E].
  apply array_app_inj in E as [El%usize_word_inj E]; [|unfold u64_max, u64_modulus in *; lia..].
  apply Nat2N.inj in El.
  assert (length (sort_by_key fst rows1) = length rows1) as Hp1
    by (apply Permutation_length, sort_by_key_perm).
  assert (length (sort_by_key fst rows2) = length rows2) as Hp2
    by (apply Permutation_length, sort_by_key_perm).
  apply mjoin_arrays_inj in E as [Hu E]; [|by rewrite !length_map, Hp1, Hp2].
  apply array_app_inj in E as [_ E].
  rewrite <-(app_nil_r (mjoin (map array_val s1))), <-(app_nil_r (mjoin (map array_val s2))) in E.
  apply Forall2_length in Hs1 as Hls1. apply Forall2_length in Hs2 as Hls2.
  apply mjoin_arrays_inj in E as [<- _]; [|congruence].
  assert (sort_by_key fst rows1 = sort_by_key fst rows2) as Hsort.
  { rewrite <-!(map_map fst abi_word) in Hu. apply (inj (fmap abi_word)) in Hu.
    clear -Hs1 Hs2 Hu. revert Hu Hs1 Hs2.
    generalize (sort_by_key fst rows1), (sort_by_key fst rows2). intros l k Hu Hs1.
    revert k Hu. induction Hs1 as [|[u v] w l s Hw Hs IH]; intros [|[u' v'] k] [=] Hs2; [done|].
    apply Forall2_cons in Hs2 as [Hw' Hs2]. simpl in *.
    f_equal; [f_equal; [done|by eapply uint256_word_inj]|by apply IH]. }
  by rewrite <-(sort_by_key_perm fst rows1), Hsort, sort_by_key_perm.
Qed.
End BindingTheorems.

Section BindingWitnesses.
#[local] Existing Instance RefHex.hex_crate.
#[local] Existing Instance RefSha3.sha3_crate.
#[local] Existing Instance RefHex.hex_laws.

Definition other_user : Address := array_of 20 (replicate 19 x00 ++ [x05]).

Example claim_set_hash_binding_witness :
  let es := take 2 sample_events in
  let es' := map (fun e => mkClaimEvent (ev_kind e) (ev_claim_id e) (ev_user e) (ev_amount e)
    (ev_score_to_spend e) (ev_booster_amount e) 0 0) es in
  es ≠ es' ∧ (map committed es = map committed es' ∨ keccak_collision ∨
              ∃ l, keccak256 l = ZERO_HASH).
Proof.
  split; [discriminate|].
  assert (∃ h, claim_set_hash (take 2 sample_events) = Ok h) as [h E]
    by (eexists; vm_compute; reflexivity).
  apply (claim_set_hash_binding _ _ h); [exact E|]. rewrite <-E. vm_compute. reflexivity.
Defined.

Example settlement_input_hash_perm_witness :
  settlement_input_hash [(sample_user, 3); (other_user, 9)] =
  settlement_input_hash [(other_user, 9); (sample_user, 3)].
Proof. apply settlement_input_hash_perm. apply perm_swap. Defined.

Example settlement_input_hash_binding_witness :
  (NoDup (map fst [(sample_user, 3); (other_user, 9)]) ∧
   [(sample_user, 3); (other_user, 9)] ≡ₚ [(other_user, 9); (sample_user, 3)])
  ∨ keccak_collision.
Proof.
  assert (∃ h, settlement_input_hash [(sample_user, 3); (other_user, 9)] = Ok h) as [h E]
    by (eexists; vm_compute; reflexivity).
  apply (settlement_input_hash_binding _ _ h); [exact E|].
  rewrite <-E. vm_compute. reflexivity.
Defined.
End BindingWitnesses.
