(* ===== verification/Merkle.v ===== *)
(** * The settlement Merkle tree ([src/lib.rs], [SettlementTree])

    A standard sorted-pair Keccak tree over the double-hashed settlement rows,
    laid out in one vector: the root at 0, the children of [i] at [2i+1] and
    [2i+2], the sorted leaves from the end.  [usize] arithmetic wraps and an
    index past the end panics. *)

From S2P Require Import Prelude Bytes Text Commit.
From Stdlib Require Import Strings.Byte.

Open Scope string_scope.
Open Scope N_scope.
Open Scope list_scope.

(** [vec[i]] and [vec[i] = x]. *)
Definition vec_get {E A} (v : list A) (i : N) : outcome E A :=
  match v !! N.to_nat i with Some x => Ok x | None => Panic "index out of bounds" end.
Definition vec_set {E A} (v : list A) (i : N) (x : A) : outcome E (list A) :=
  if i <? N.of_nat (length v) then Ok (<[N.to_nat i := x]> v)
  else Panic "index out of bounds".
Definition vec_len {A} (v : list A) : N := N.of_nat (length v).

Record SettlementTree := mkSettlementTree {
  st_root : Hash;
  st_proofs : gmap N (list Hash)
}.

(** [index.is_multiple_of(2)]. *)
Definition sibling_index (index : N) : N :=
  if N.even index then u64_sub index 1 else u64_add index 1.

Section Tree.
Context `{HexCrate, Sha3Crate}.

Definition standard_leaf_hash (incident_id : N) (row : MerkleRow) : outcome KernelError Hash :=
  _ ← ok_or (checked_mul (vec_len (mr_amounts row)) 32) Uint256Overflow;
  incident ← uint256_word incident_id;
  claim ← uint256_word (mr_claim_id row);
  let user := abi_word (mr_user row) in
  spent ← uint256_word (mr_score_spent row);
  boosted ← uint256_word (mr_boosted_score row);
  eligible ← uint256_word (mr_eligible_amount row);
  boosters ← uint256_word (mr_eligible_booster_amount row);
  amounts ← mapM uint256_word (mr_amounts row);
  let encoded :=
    mjoin (map array_val
      ([incident; claim; user; usize_word 256; spent; boosted; eligible; boosters;
        usize_word (vec_len (mr_amounts row))] ++ amounts)) in
  Ok (keccak256 (array_val (keccak256 encoded))).

Definition standard_node_hash (a b : Hash) : Hash :=
  let '(lo, hi) := if decide (key_lt b a) then (b, a) else (a, b) in
  keccak256 (array_val lo ++ array_val hi).

(** First loop of [SettlementTree::new]: reject repeated claims, hash the rows. *)
Definition collect_leaf (incident_id : N) (st : gset N * list (Hash * N)) (row : MerkleRow) :
    outcome KernelError (gset N * list (Hash * N)) :=
  let '(claims, leaves) := st in
  _ ← bail_if (bool_decide (mr_claim_id row ∈ claims)) (DuplicateClaim (mr_claim_id row));
  leaf ← standard_leaf_hash incident_id row;
  Ok ({[mr_claim_id row]} ∪ claims, leaves ++ [(leaf, mr_claim_id row)]).

(** Second loop: the sorted leaves fill the vector from its end. *)
Definition place_leaf (leaf_index : nat) (st : list Hash * gmap N N) (leaf : Hash * N) :
    outcome KernelError (list Hash * gmap N N) :=
  let '(tree, tree_index_by_claim) := st in
  let '(hash, claim_id) := leaf in
  let tree_index := u64_sub (u64_sub (vec_len tree) 1) (N.of_nat leaf_index) in
  tree ← vec_set tree tree_index hash;
  Ok (tree, <[claim_id := tree_index]> tree_index_by_claim).

(** Third loop: the inner nodes, from the last to the root. *)
Definition fill_node (tree : list Hash) (index : N) : outcome KernelError (list Hash) :=
  a ← vec_get tree (u64_add (u64_mul 2 index) 1);
  b ← vec_get tree (u64_add (u64_mul 2 index) 2);
  vec_set tree index (standard_node_hash a b).

(** [(0..n).rev()]. *)
Definition rev_range (n : N) : list N := rev (map N.of_nat (seq 0 (N.to_nat n))).

(** [while index > 0]: the siblings from a leaf up to the root. *)
Fixpoint collect_proof (fuel : nat) (tree : list Hash) (index : N) (proof : list Hash) :
    outcome KernelError (list Hash) :=
  match fuel with
  | O => Panic "out of fuel"
  | S fuel =>
      if 0 <? index then
        sibling ← vec_get tree (sibling_index index);
        collect_proof fuel tree ((index - 1) / 2) (proof ++ [sibling])
      else Ok proof
  end.

Definition SettlementTree_new (incident_id : N) (rows : list MerkleRow) : outcome KernelError SettlementTree :=
  match rows with
  | [] => Err EmptyMerkleTree
  | _ :: _ =>
      '(_, leaves) ← fold_m (collect_leaf incident_id) (∅, []) rows;
      let leaves := sort_by_key fst leaves in
      let tree := replicate (N.to_nat (u64_sub (u64_mul 2 (vec_len leaves)) 1)) ZERO_HASH in
      '(tree, tree_index_by_claim) ← fold_im place_leaf (tree, ∅) leaves;
      tree ← fold_m fill_node tree (rev_range (u64_sub (vec_len tree) (vec_len leaves)));
      proofs ← fold_m (fun proofs '(claim_id, index) =>
          proof ← collect_proof (S (N.to_nat index)) tree index [];
          Ok (<[claim_id := proof]> proofs)) ∅ (map_to_list tree_index_by_claim);
      root ← vec_get tree 0;
      Ok (mkSettlementTree root proofs)
  end.

Definition root_hex (t : SettlementTree) : string := hash_hex (st_root t).
Definition proof_hex (t : SettlementTree) (claim_id : N) : outcome KernelError (list string) :=
  ok_or (map hash_hex <$> st_proofs t !! claim_id) (MissingClaim claim_id).
Definition all_proofs_hex (t : SettlementTree) : gmap N (list string) :=
  map hash_hex <$> st_proofs t.
End Tree.

(* ------------------------------------------------------------------ *)
(** ** Helper lemmas: the node vector *)

Lemma vec_get_Some {E A} (v : list A) i x :
  (vec_get v i : outcome E A) = Ok x ↔ v !! N.to_nat i = Some x.
Proof. unfold vec_get. destruct (v !! N.to_nat i); naive_solver. Qed.

Lemma vec_get_at {E A} (v : list A) i j x :
  v !! j = Some x → i = N.of_nat j → (vec_get v i : outcome E A) = Ok x.
Proof. intros Hv ->. apply vec_get_Some. by rewrite Nat2N.id. Qed.

Lemma vec_set_in {E A} (v : list A) i x :
  i < vec_len v → (vec_set v i x : outcome E (list A)) = Ok (<[N.to_nat i := x]> v).
Proof. unfold vec_set, vec_len. intros. by rewrite (proj2 (N.ltb_lt _ _)). Qed.

Section TreeFacts.
Context `{HexCrate, Sha3Crate}.

Lemma standard_node_hash_comm a b : standard_node_hash a b = standard_node_hash b a.
Proof.
  unfold standard_node_hash. destruct (key_trichotomy a b) as [->|[Hl|Hl]]; [done|..].
  - rewrite (decide_False (P := key_lt b a)) by (by apply key_lt_asym).
    by rewrite decide_True.
  - rewrite decide_True by done. rewrite decide_False by (by apply key_lt_asym). done.
Qed.

(** The nodes of a finished tree over [n] leaves. *)
Definition leaves_placed (leaves : list (Hash * N)) (tree : list Hash) : Prop :=
  length tree = (2 * length leaves - 1)%nat ∧
  ∀ j l, leaves !! j = Some l → tree !! (2 * length leaves - 2 - j)%nat = Some l.1.
Definition inner_filled (from n : nat) (tree : list Hash) : Prop :=
  ∀ i, (from ≤ i < n)%nat → ∃ a b, tree !! (2 * i + 1)%nat = Some a ∧
    tree !! (2 * i + 2)%nat = Some b ∧ tree !! i = Some (standard_node_hash a b).

Lemma place_leaf_ok k tree idx h c :
  (k < length tree)%nat → vec_len tree < u64_modulus →
  place_leaf k (tree, idx) (h, c) =
  Ok (<[(length tree - 1 - k)%nat := h]> tree, <[c := N.of_nat (length tree - 1 - k)]> idx).
Proof.
  intros Hk Hb. unfold vec_len in Hb. unfold place_leaf.
  assert (u64_sub (u64_sub (vec_len tree) 1) (N.of_nat k) = N.of_nat (length tree - 1 - k)) as ->.
  { unfold vec_len. rewrite (u64_sub_small _ 1) by lia. rewrite u64_sub_small; lia. }
  rewrite vec_set_in by (unfold vec_len; lia). cbn [mbind outcome_bind]. by rewrite Nat2N.id.
Qed.

Lemma place_leaves_spec (leaves : list (Hash * N)) : ∀ k tree idx,
  (k + length leaves ≤ length tree)%nat → vec_len tree < u64_modulus →
  NoDup (map snd leaves) →
  ∃ tree' idx', fold_im_from k place_leaf (tree, idx) leaves = Ok (tree', idx') ∧
    length tree' = length tree ∧
    (∀ j l, leaves !! j = Some l → tree' !! (length tree - 1 - k - j)%nat = Some l.1 ∧
       idx' !! l.2 = Some (N.of_nat (length tree - 1 - k - j))) ∧
    (∀ i, (length tree - k ≤ i)%nat → tree' !! i = tree !! i) ∧
    (∀ c, c ∉ map snd leaves → idx' !! c = idx !! c).
Proof.
  induction leaves as [|[h c] leaves IH]; intros k tree idx Hk Hb Hnd.
  { exists tree, idx. repeat split; try done. all: intros; by rewrite lookup_nil in *. }
  cbn [length] in Hk. unfold vec_len in Hb. cbn [map snd] in Hnd.
  apply NoDup_cons in Hnd as [Hc Hnd].
  cbn [fold_im_from]. rewrite place_leaf_ok by (done || lia). cbn [mbind outcome_bind].
  destruct (IH (S k) (<[(length tree - 1 - k)%nat := h]> tree)
    (<[c := N.of_nat (length tree - 1 - k)]> idx)) as (tree' & idx' & Hf & Hl & Hp & Ho & Hi);
    [rewrite length_insert; lia|unfold vec_len; rewrite length_insert; lia|done|].
  rewrite length_insert in Hl, Hp, Ho. exists tree', idx'. split; [exact Hf|].
  split; [done|]. repeat split.
  - destruct j as [|j]; cbn in *; simplify_eq/=.
    + rewrite Nat.sub_0_r, Ho, list_lookup_insert_eq by lia. done.
    + apply Hp in H1 as [H1 _]. rewrite <-H1. f_equal. lia.
  - destruct j as [|j]; cbn in *; simplify_eq/=.
    + rewrite Hi by done. rewrite lookup_insert_eq. f_equal. lia.
    + apply Hp in H1 as [_ H1]. rewrite H1. do 2 f_equal. lia.
  - intros i Hlt. rewrite Ho by lia. rewrite list_lookup_insert_ne by lia. done.
  - intros d Hd. apply not_elem_of_cons in Hd as [Hd1 Hd2]. rewrite Hi by done.
    by rewrite lookup_insert_ne.
Qed.

Lemma rev_range_succ n : rev_range (N.succ n) = n :: rev_range n.
Proof.
  unfold rev_range. rewrite N2Nat.inj_succ, seq_S, map_app, rev_app_distr. simpl.
  by rewrite N2Nat.id.
Qed.

Lemma fill_node_ok tree m a b :
  tree !! (2 * m + 1)%nat = Some a → tree !! (2 * m + 2)%nat = Some b →
  vec_len tree < u64_modulus →
  fill_node tree (N.of_nat m) = Ok (<[m := standard_node_hash a b]> tree).
Proof.
  intros Ha Hb Hlen. apply lookup_lt_Some in Ha as La. apply lookup_lt_Some in Hb as Lb.
  unfold vec_len in Hlen. unfold fill_node.
  rewrite !u64_mul_small, !u64_add_small by lia.
  assert (vec_get tree (2 * N.of_nat m + 1) = (Ok a : outcome KernelError Hash)) as ->
    by (eapply vec_get_at; [exact Ha|lia]).
  cbn [mbind outcome_bind].
  rewrite (vec_get_at _ _ _ _ Hb) by lia. cbn [mbind outcome_bind].
  rewrite vec_set_in by (unfold vec_len; lia).
  by rewrite Nat2N.id.
Qed.

Lemma fill_nodes_spec (leaves : list (Hash * N)) (m : nat) : ∀ tree,
  leaves_placed leaves tree → N.of_nat (2 * length leaves) < u64_modulus →
  (m ≤ length leaves - 1)%nat → inner_filled m (length leaves - 1) tree →
  ∃ tree', fold_m fill_node tree (rev_range (N.of_nat m)) = Ok tree' ∧
    leaves_placed leaves tree' ∧ inner_filled 0 (length leaves - 1) tree'.
Proof.
  induction m as [|m IH]; intros tree Hp Hb Hm Hi; [by exists tree|].
  rewrite Nat2N.inj_succ, rev_range_succ. cbn [fold_m].
  destruct Hp as [Hlen Hleaf].
  destruct (lookup_lt_is_Some_2 tree (2 * m + 1)) as [a Ha]; [lia|].
  destruct (lookup_lt_is_Some_2 tree (2 * m + 2)) as [b Hb']; [lia|].
  rewrite (fill_node_ok _ _ a b) by (done || unfold vec_len; lia).
  cbn [mbind outcome_bind]. apply IH; [|done|lia|].
  - split; [by rewrite length_insert|]. intros j l Hj. apply lookup_lt_Some in Hj as Hlt.
    rewrite list_lookup_insert_ne by lia. by apply Hleaf.
  - intros i Hilt. destruct (decide (i = m)) as [->|Hne].
    + exists a, b. rewrite !list_lookup_insert_ne by lia.
      by rewrite list_lookup_insert_eq by lia.
    + rewrite !list_lookup_insert_ne by lia. apply Hi. lia.
Qed.
End TreeFacts.

Section TreeTheoremsPrep.
Context `{HexCrate, Sha3Crate}.

(** *** What the leaves hash *)

Definition row_fields (incident_id : N) (row : MerkleRow) (fields amounts : list Hash) : Prop :=
  ∃ i c u sp bo el eb n,
    uint256_word incident_id = Ok i ∧ uint256_word (mr_claim_id row) = Ok c ∧
    uint256_word (mr_score_spent row) = Ok sp ∧ uint256_word (mr_boosted_score row) = Ok bo ∧
    uint256_word (mr_eligible_amount row) = Ok el ∧
    uint256_word (mr_eligible_booster_amount row) = Ok eb ∧
    Forall2 (fun x w => uint256_word x = Ok w) (mr_amounts row) amounts ∧
    u = abi_word (mr_user row) ∧ n = usize_word (vec_len (mr_amounts row)) ∧
    fields = [i; c; u; usize_word 256; sp; bo; el; eb; n].

Lemma standard_leaf_hash_ok incident_id row h :
  standard_leaf_hash incident_id row = Ok h → ∃ fields amounts,
    row_fields incident_id row fields amounts ∧ vec_len (mr_amounts row) * 32 ≤ u64_max ∧
    h = keccak256 (array_val (keccak256 (mjoin (map array_val (fields ++ amounts))))).
Proof.
  unfold standard_leaf_hash.
  intros (ab & Hab & (i & Hi & (c & Hc & (sp & Hsp & (bo & Hbo & (el & Hel & (eb & Heb &
    (am & Ham & Hh)%bind_ok)%bind_ok)%bind_ok)%bind_ok)%bind_ok)%bind_ok)%bind_ok)%bind_ok.
  injection Hh as <-. apply mapM_ok in Ham. apply ok_or_ok in Hab. unfold checked_mul in Hab.
  destruct (N.leb_spec (vec_len (mr_amounts row) * 32) u64_max); [|done].
  eexists _, am. split; [|split; [done|]].
  - eexists i, c, _, sp, bo, el, eb, _. repeat (split; [done|]). done.
  - done.
Qed.

Lemma uint256_words_inj l k ws :
  Forall2 (fun x w => uint256_word x = Ok w) l ws →
  Forall2 (fun x w => uint256_word x = Ok w) k ws → l = k.
Proof.
  intros Hl. revert k. induction Hl as [|x w l ws Hx _ IH]; intros k Hk.
  - by apply Forall2_nil_inv_r in Hk.
  - apply Forall2_cons_inv_r in Hk as (y & k' & Hy & Hk & ->).
    f_equal; [by eapply uint256_word_inj|by apply IH].
Qed.

(** Equal leaf digests come from equal incidents and rows, up to collisions. *)
Lemma standard_leaf_hash_inj i1 i2 r1 r2 h :
  standard_leaf_hash i1 r1 = Ok h → standard_leaf_hash i2 r2 = Ok h →
  (i1 = i2 ∧ r1 = r2) ∨ keccak_collision.
Proof.
  intros (f1 & a1 & Hf1 & Hb1 & ->)%standard_leaf_hash_ok.
  intros (f2 & a2 & Hf2 & Hb2 & E)%standard_leaf_hash_ok.
  destruct (decide (array_val (keccak256 (mjoin (map array_val (f1 ++ a1))))
    = array_val (keccak256 (mjoin (map array_val (f2 ++ a2)))))) as [E2|Hne];
    [|right; by eexists _, _].
  apply (inj _) in E2.
  destruct (decide (mjoin (map array_val (f1 ++ a1)) = mjoin (map array_val (f2 ++ a2))))
    as [E3|Hne]; [left|right; by eexists _, _].
  destruct Hf1 as (i1' & c1 & u1 & s1 & b1 & l1 & e1 & n1 & Hi1 & Hc1 & Hs1 & Hbo1 & Hl1 & He1
    & Ha1 & Hu1 & Hn1 & ->).
  destruct Hf2 as (i2' & c2 & u2 & s2 & b2 & l2 & e2 & n2 & Hi2 & Hc2 & Hs2 & Hbo2 & Hl2 & He2
    & Ha2 & Hu2 & Hn2 & ->).
  rewrite !map_app, !join_app in E3. apply mjoin_arrays_inj in E3 as [Ef Ea]; [|done].
  assert (i1' = i2' ∧ c1 = c2 ∧ u1 = u2 ∧ s1 = s2 ∧ b1 = b2 ∧ l1 = l2 ∧ e1 = e2 ∧ n1 = n2)
    as (-> & -> & -> & -> & -> & -> & -> & ->) by (by injection Ef).
  rewrite Hn1 in Hn2. apply usize_word_inj in Hn2; [|unfold u64_max, u64_modulus in *; lia..].
  apply Nat2N.inj in Hn2. rewrite Hu1 in Hu2. apply abi_word_inj in Hu2.
  rewrite <-(app_nil_r (mjoin (map array_val a1))), <-(app_nil_r (mjoin (map array_val a2))) in Ea.
  apply Forall2_length in Ha1 as Hla1. apply Forall2_length in Ha2 as Hla2.
  apply mjoin_arrays_inj in Ea as [<- _]; [|congruence].
  split; [by eapply uint256_word_inj|]. destruct r1, r2; simpl in *.
  f_equal; try done; by (eapply uint256_word_inj || eapply uint256_words_inj).
Qed.

End TreeTheoremsPrep.

Section TreeProofs.
Context `{HexCrate, Sha3Crate}.

Definition tree_ok (leaves : list (Hash * N)) (tree : list Hash) : Prop :=
  leaves_placed leaves tree ∧ inner_filled 0 (length leaves - 1) tree.

(** Recomputing the root from a leaf and its siblings (OpenZeppelin's
    [processProof]). *)
Definition process_proof (proof : list Hash) (leaf : Hash) : Hash :=
  fold_left standard_node_hash proof leaf.

Lemma even_of_nat n : N.even (N.of_nat n) = Nat.even n.
Proof.
  destruct (Nat.even n) eqn:E.
  - apply Nat.even_spec in E as [k ->]. apply N.even_spec. exists (N.of_nat k). lia.
  - rewrite <-Nat.negb_odd, negb_false_iff in E. apply Nat.odd_spec in E as [k ->].
    rewrite <-N.negb_odd, negb_false_iff. apply N.odd_spec. exists (N.of_nat k). lia.
Qed.

(** The parent of a node and its position under it. *)
Lemma parent_index index : (0 < index)%nat → ∃ p, (N.of_nat index - 1) / 2 = N.of_nat p ∧
  ((Nat.even index = true ∧ index = (2 * p + 2)%nat) ∨
   (Nat.even index = false ∧ index = (2 * p + 1)%nat)).
Proof.
  intros Hpos. destruct (Nat.even index) eqn:E.
  - apply Nat.even_spec in E as [k ->]. exists (k - 1)%nat. split; [|left; split; [done|lia]].
    replace (N.of_nat (2 * k) - 1) with (1 + N.of_nat (k - 1) * 2) by lia.
    rewrite N.div_add by lia. reflexivity.
  - rewrite <-Nat.negb_odd, negb_false_iff in E. apply Nat.odd_spec in E as [k ->].
    exists k. split; [|right; split; [done|lia]].
    replace (N.of_nat (2 * k + 1) - 1) with (N.of_nat k * 2) by lia. by rewrite N.div_mul.
Qed.

Lemma sibling_index_nat index p :
  N.of_nat index + 1 < u64_modulus →
  (Nat.even index = true ∧ index = (2 * p + 2)%nat → sibling_index (N.of_nat index) = N.of_nat (2 * p + 1)) ∧
  (Nat.even index = false ∧ index = (2 * p + 1)%nat → sibling_index (N.of_nat index) = N.of_nat (2 * p + 2)).
Proof.
  intros Hb. unfold sibling_index. rewrite even_of_nat. split; intros [-> ->].
  - rewrite u64_sub_small; lia.
  - rewrite u64_add_small; lia.
Qed.

Lemma collect_proof_spec leaves tree root : tree_ok leaves tree →
  N.of_nat (2 * length leaves) < u64_modulus → tree !! 0%nat = Some root →
  ∀ fuel index h acc, (index < fuel)%nat → tree !! index = Some h →
  ∃ sibs, collect_proof fuel tree (N.of_nat index) acc = Ok (acc ++ sibs) ∧
    process_proof sibs h = root ∧ (2 ^ length sibs ≤ index + 1)%nat.
Proof.
  intros [[Hlen _] Hin] Hb Hroot. induction fuel as [|fuel IH]; intros index h acc Hf Hh; [lia|].
  cbn [collect_proof]. destruct (N.ltb_spec 0 (N.of_nat index)) as [Hpos|Hz].
  - destruct (parent_index index) as (p & Ep & Hp); [lia|]. rewrite Ep.
    apply lookup_lt_Some in Hh as Hlt.
    destruct (sibling_index_nat index p) as [Hse Hso]; [lia|].
    destruct (Hin p) as (a & b & Ha & Hb' & Hab); [lia|].
    destruct Hp as [Hp|Hp]; [rewrite Hse by done|rewrite Hso by done]; destruct Hp as [_ ->];
      simplify_eq.
    + rewrite (vec_get_at _ _ _ _ Ha eq_refl). cbn [mbind outcome_bind].
      destruct (IH p (standard_node_hash a h) (acc ++ [a])) as (sibs & E & Hr & Hl); [lia|done|].
      exists (a :: sibs). rewrite E, <-app_assoc. split; [done|]. split.
      * unfold process_proof in *. cbn [fold_left]. by rewrite standard_node_hash_comm.
      * cbn [length Nat.pow]. lia.
    + rewrite (vec_get_at _ _ _ _ Hb' eq_refl). cbn [mbind outcome_bind].
      destruct (IH p (standard_node_hash h b) (acc ++ [b])) as (sibs & E & Hr & Hl); [lia|done|].
      exists (b :: sibs). rewrite E, <-app_assoc. split; [done|]. split; [done|].
      cbn [length Nat.pow]. lia.
  - exists []. rewrite app_nil_r. assert (index = 0%nat) as -> by lia. simplify_eq. done.
Qed.

(** *** Forging a proof *)

Lemma standard_node_hash_inj a b c d :
  standard_node_hash a b = standard_node_hash c d →
  (a = c ∧ b = d) ∨ (a = d ∧ b = c) ∨ keccak_collision.
Proof.
  unfold standard_node_hash.
  destruct (decide (key_lt b a)), (decide (key_lt d c)); intros E;
    match type of E with keccak256 ?x = keccak256 ?y =>
      destruct (decide (x = y)) as [E'|Hne]; [|do 2 right; by exists x, y] end;
    apply array_app_inj in E' as [? ?%(inj _)]; subst; auto.
Qed.

(** An inner digest is not a leaf digest: the preimages differ in length. *)
Lemma node_not_leaf a b (y : Hash) :
  standard_node_hash a b = keccak256 (array_val y) → keccak_collision.
Proof.
  unfold standard_node_hash. destruct (decide _); intros E; eexists _, _; (split; [|exact E]);
    intros E'%(f_equal length); by rewrite length_app, !array_length in E'.
Qed.

Lemma process_proof_sound leaves tree (x : Hash) : tree_ok leaves tree →
  (∀ l, l ∈ leaves → ∃ y : Hash, l.1 = keccak256 (array_val y)) →
  (∃ y : Hash, x = keccak256 (array_val y)) →
  ∀ proof index, tree !! index = Some (process_proof proof x) →
  x ∈ map fst leaves ∨ keccak_collision.
Proof.
  intros [[Hlen Hleaf] Hin] Hpre [y Hy].
  assert (∀ index h, tree !! index = Some h →
    (∃ l, l ∈ leaves ∧ h = l.1) ∨
    (∃ a b i j, tree !! i = Some a ∧ tree !! j = Some b ∧ h = standard_node_hash a b)) as Hcase.
  { intros index h Hh. apply lookup_lt_Some in Hh as Hlt.
    destruct (decide (index < length leaves - 1)%nat) as [Hi|Hi].
    - right. destruct (Hin index) as (a & b & Ha & Hb & Hab); [lia|]. simplify_eq. eauto 10.
    - left. destruct (lookup_lt_is_Some_2 leaves (2 * length leaves - 2 - index)) as [l Hl]; [lia|].
      exists l. split; [by eapply list_elem_of_lookup_2|]. apply Hleaf in Hl.
      replace (2 * length leaves - 2 - (2 * length leaves - 2 - index))%nat with index in Hl by lia.
      by simplify_eq. }
  induction proof as [|s proof IH] using rev_ind; intros index Hh;
    apply Hcase in Hh as [(l & Hl & Heq)|(a & b & i & j & Ha & Hb & Heq)].
  - left. cbn in Heq. subst x. apply list_elem_of_fmap. eauto.
  - right. cbn in Heq. rewrite Hy in Heq. symmetry in Heq. by eapply node_not_leaf.
  - right. destruct (Hpre l Hl) as [z Hz]. rewrite Hz in Heq.
    unfold process_proof in Heq. rewrite fold_left_app in Heq. by eapply node_not_leaf.
  - unfold process_proof in Heq. rewrite fold_left_app in Heq. cbn [fold_left] in Heq.
    apply standard_node_hash_inj in Heq as [[<- _]|[[<- _]|Hc]]; [| |by right].
    + by apply (IH i).
    + by apply (IH j).
Qed.

(** *** Collecting the leaves *)

Lemma collect_leaves_ok incident_id rows cs leaves :
  fold_m (collect_leaf incident_id) (∅, []) rows = Ok (cs, leaves) →
  cs = list_to_set (map mr_claim_id rows) ∧ NoDup (map mr_claim_id rows) ∧
  map snd leaves = map mr_claim_id rows ∧
  Forall2 (fun row l => standard_leaf_hash incident_id row = Ok l.1) rows leaves.
Proof.
  intros Hf.
  apply (fold_m_inv (collect_leaf incident_id) (fun rows st =>
    st.1 = list_to_set (map mr_claim_id rows) ∧ NoDup (map mr_claim_id rows) ∧
    map snd st.2 = map mr_claim_id rows ∧
    Forall2 (fun row l => standard_leaf_hash incident_id row = Ok l.1) rows st.2)) in Hf; [done|..].
  - repeat split; constructor.
  - clear. intros rows row [cs leaves] st' (Hcs & Hnd & Hsnd & Hall) Hstep. simpl in Hcs, Hsnd, Hall.
    apply bind_ok in Hstep as (u & Hdup & (h & Hh & [= <-])%bind_ok).
    apply bail_if_ok, bool_decide_eq_false in Hdup. rewrite Hcs, elem_of_list_to_set in Hdup.
    simpl. rewrite !map_app, list_to_set_app_L. simpl. split; [set_solver|]. split; [|split].
    + apply NoDup_app. split; [done|]. split; [|apply NoDup_singleton].
      intros z Hz Hz'%list_elem_of_singleton. by subst.
    + by rewrite Hsnd.
    + apply Forall2_app; [done|]. by repeat constructor.
Qed.

Lemma collect_leaves_total incident_id rows :
  NoDup (map mr_claim_id rows) →
  (∀ row, row ∈ rows → ∃ h, standard_leaf_hash incident_id row = Ok h) →
  ∃ st, fold_m (collect_leaf incident_id) (∅, []) rows = Ok st.
Proof.
  induction rows as [|row rows IH] using rev_ind; intros Hnd Hall; [by eexists|].
  rewrite map_app in Hnd. apply NoDup_app in Hnd as (Hnd & Hni & _).
  destruct IH as [[cs leaves] Hst]; [done|intros; apply Hall, elem_of_app; auto|].
  apply collect_leaves_ok in Hst as Hcs. destruct Hcs as (-> & _).
  rewrite fold_m_snoc, Hst. cbn [mbind outcome_bind]. unfold collect_leaf.
  rewrite bool_decide_eq_false_2; [|rewrite elem_of_list_to_set; intros Hin; apply (Hni _ Hin); left].
  cbn [bail_if mbind outcome_bind].
  destruct (Hall row) as [h ->]; [apply elem_of_app; right; left|]. by eexists.
Qed.

Lemma standard_leaf_hash_no_panic incident_id row :
  no_panic (standard_leaf_hash incident_id row).
Proof. unfold standard_leaf_hash. solve_no_panic. Qed.

Lemma collect_leaf_no_panic incident_id st row : no_panic (collect_leaf incident_id st row).
Proof.
  destruct st as [cs leaves]. unfold collect_leaf. solve_no_panic.
  apply standard_leaf_hash_no_panic.
Qed.
End TreeProofs.

Section NewSpec.
Context `{HexCrate, Sha3Crate}.

Lemma leaves_perm_facts incident_id rows cs raw :
  fold_m (collect_leaf incident_id) (∅, []) rows = Ok (cs, raw) →
  let leaves := sort_by_key fst raw in
  length leaves = length rows ∧ NoDup (map snd leaves) ∧
  (∀ l, l ∈ leaves → ∃ row, row ∈ rows ∧ standard_leaf_hash incident_id row = Ok l.1 ∧
     l.2 = mr_claim_id row) ∧
  (∀ row, row ∈ rows → ∃ h, standard_leaf_hash incident_id row = Ok h ∧
     (h, mr_claim_id row) ∈ leaves).
Proof.
  intros (_ & Hnd & Hsnd & Hall)%collect_leaves_ok leaves.
  assert (∀ row l, (row, l) ∈ zip rows raw → standard_leaf_hash incident_id row = Ok l.1 ∧
    l.2 = mr_claim_id row) as Hzip.
  { clear leaves Hnd. revert raw Hsnd Hall. induction rows as [|row rows IH]; intros raw Hsnd Hall.
    - intros ? ?. by inversion 1.
    - apply Forall2_cons_inv_l in Hall as (l & raw' & Hl & Hall & ->). simpl in Hsnd.
      injection Hsnd as Hs1 Hs2. intros row' l' [E|Hin]%elem_of_cons.
      + injection E as -> ->. done.
      + by eapply IH. }
  assert (length raw = length rows) as Hlen by (symmetry; by eapply Forall2_length).
  split; [|split; [|split]].
  - by rewrite <-Hlen; apply Permutation_length, sort_by_key_perm.
  - unfold leaves. by rewrite sort_by_key_perm, Hsnd.
  - intros l Hl. apply sort_by_key_elem in Hl. apply list_elem_of_lookup_1 in Hl as [i Hi].
    destruct (lookup_lt_is_Some_2 rows i) as [row Hrow].
    { rewrite <-Hlen. by eapply lookup_lt_Some. }
    destruct (Hzip row l) as [H1 H2].
    { apply list_elem_of_lookup_2 with i. by rewrite lookup_zip_with, Hrow, Hi. }
    exists row. split; [by eapply list_elem_of_lookup_2|done].
  - intros row Hrow. apply list_elem_of_lookup_1 in Hrow as [i Hi].
    destruct (lookup_lt_is_Some_2 raw i) as [[h c] Hl].
    { rewrite Hlen. by eapply lookup_lt_Some. }
    destruct (Hzip row (h, c)) as [H1 H2].
    { apply list_elem_of_lookup_2 with i. by rewrite lookup_zip_with, Hi, Hl. }
    simpl in *. subst c. exists h. split; [done|]. apply sort_by_key_elem.
    by eapply list_elem_of_lookup_2.
Qed.

(** Filling a map from a list of entries with distinct keys. *)
Lemma fold_insert_spec {B} (f : N → N → outcome KernelError B) (Q : N → N → B → Prop) kvs :
  NoDup (map fst kvs) → (∀ k v, (k, v) ∈ kvs → ∃ b, f k v = Ok b ∧ Q k v b) →
  ∀ m : gmap N B, ∃ m',
    fold_m (fun m '(k, v) => b ← f k v; Ok (<[k := b]> m)) m kvs = Ok m' ∧
    (∀ k v, (k, v) ∈ kvs → ∃ b, m' !! k = Some b ∧ Q k v b) ∧
    (∀ k, k ∉ map fst kvs → m' !! k = m !! k).
Proof.
  induction kvs as [|[k v] kvs IH]; intros Hnd Hall m; cbn [fold_m].
  { exists m. split; [done|]. split; [|done]. intros k v. by inversion 1. }
  cbn [map fst] in Hnd. apply NoDup_cons in Hnd as [Hk Hnd].
  destruct (Hall k v) as (b & Hf & Hq); [left|]. rewrite Hf. cbn [mbind outcome_bind].
  destruct (IH Hnd (fun k v Hin => Hall k v (list_elem_of_further _ _ _ Hin)) (<[k := b]> m))
    as (m' & Hm & Hin & Hout).
  exists m'. split; [exact Hm|]. split.
  - intros k' v' [E|Hin']%elem_of_cons; [|by apply Hin].
    injection E as -> ->. exists b. split; [|done]. rewrite Hout by done.
    by rewrite lookup_insert_eq.
  - intros k' [Hne Hni]%not_elem_of_cons. rewrite Hout by done.
    by rewrite lookup_insert_ne.
Qed.

(** The vector built from the sorted leaves, and where each claim sits. *)
Lemma build_tree_spec leaves :
  (0 < length leaves)%nat → 2 * vec_len leaves ≤ u64_max → NoDup (map snd leaves) →
  ∃ tree1 idx tree,
    fold_im place_leaf
      (replicate (N.to_nat (u64_sub (u64_mul 2 (vec_len leaves)) 1)) ZERO_HASH, ∅) leaves
      = Ok (tree1, idx) ∧
    fold_m fill_node tree1 (rev_range (u64_sub (vec_len tree1) (vec_len leaves))) = Ok tree ∧
    tree_ok leaves tree ∧
    (∀ c i, idx !! c = Some i ↔ ∃ j h, leaves !! j = Some (h, c) ∧
       i = N.of_nat (2 * length leaves - 2 - j)).
Proof.
  intros Hpos Hb Hnd. unfold vec_len in Hb.
  assert (N.to_nat (u64_sub (u64_mul 2 (vec_len leaves)) 1) = 2 * length leaves - 1)%nat as ->.
  { unfold vec_len. rewrite u64_mul_small by (unfold u64_max, u64_modulus in *; lia).
    rewrite u64_sub_small by (unfold u64_max, u64_modulus in *; lia). lia. }
  destruct (place_leaves_spec leaves 0 (replicate (2 * length leaves - 1) ZERO_HASH) ∅)
    as (tree1 & idx & Hf & Hl1 & Hp & _ & Hi); [rewrite length_replicate; lia| |done|].
  { unfold vec_len. rewrite length_replicate. unfold u64_max, u64_modulus in *. lia. }
  rewrite length_replicate in Hl1, Hp.
  assert (∀ j, (2 * length leaves - 1 - 0 - j = 2 * length leaves - 1 - j)%nat) as Hz by lia.
  assert (u64_sub (vec_len tree1) (vec_len leaves) = N.of_nat (length leaves - 1)) as Eu.
  { unfold vec_len. rewrite Hl1, u64_sub_small; unfold u64_max, u64_modulus in *; lia. }
  destruct (fill_nodes_spec leaves (length leaves - 1) tree1) as (tree & Hfill & Hpl & Hin).
  - split; [done|]. intros j l Hj. apply Hp in Hj as [Hj _]. rewrite <-Hj. f_equal. lia.
  - unfold u64_max, u64_modulus in *; lia.
  - done.
  - intros i ?. lia.
  - exists tree1, idx, tree. split; [exact Hf|]. split; [by rewrite Eu|]. split; [by split|].
    assert (∀ j h c, leaves !! j = Some (h, c) →
      idx !! c = Some (N.of_nat (2 * length leaves - 2 - j))) as Hidx.
    { intros j h c Hj. apply Hp in Hj as [_ Hj]. simpl in Hj. rewrite Hj. do 2 f_equal. lia. }
    intros c i. split.
    + intros Hci. destruct (decide (c ∈ map snd leaves)) as [Hc|Hc]; [|by rewrite Hi in Hci].
      apply list_elem_of_fmap in Hc as ([h c'] & -> & [j Hj]%list_elem_of_lookup_1).
      apply Hidx in Hj as Hj'. simpl in *. exists j, h. split; [done|]. congruence.
    + intros (j & h & Hj & ->). by eapply Hidx.
Qed.

(** The proof of each leaf, collected into the map. *)
Lemma collect_proofs_spec leaves tree root (idx : gmap N N) : tree_ok leaves tree →
  2 * vec_len leaves ≤ u64_max → NoDup (map snd leaves) → tree !! 0%nat = Some root →
  (∀ c i, idx !! c = Some i ↔ ∃ j h, leaves !! j = Some (h, c) ∧
     i = N.of_nat (2 * length leaves - 2 - j)) →
  ∃ proofs : gmap N (list Hash),
    fold_m (fun proofs '(claim_id, index) =>
      proof ← collect_proof (S (N.to_nat index)) tree index [];
      Ok (<[claim_id := proof]> proofs)) ∅ (map_to_list idx) = Ok proofs ∧
    (∀ l, l ∈ leaves → ∃ proof, proofs !! l.2 = Some proof ∧
       process_proof proof l.1 = root ∧ 2 ^ N.of_nat (length proof) < 2 * vec_len leaves) ∧
    (∀ c, c ∉ map snd leaves → proofs !! c = None).
Proof.
  intros Htree Hb Hnd Hroot Hidx. unfold vec_len in Hb.
  destruct (fold_insert_spec (fun c i => collect_proof (S (N.to_nat i)) tree i [])
    (fun c i proof => ∀ h, (h, c) ∈ leaves → process_proof proof h = root ∧
       2 ^ N.of_nat (length proof) < 2 * vec_len leaves)
    (map_to_list idx) (NoDup_fst_map_to_list idx)) with (m := ∅ : gmap N (list Hash))
    as (proofs & Hproofs & Hpin & Hpout).
  - intros c i (j & h & Hj & ->)%elem_of_map_to_list%Hidx. apply lookup_lt_Some in Hj as Hjl.
    destruct Htree as [[Hl2 Hleaf] Hin]. pose proof (Hleaf _ _ Hj) as Hh. simpl in Hh.
    destruct (collect_proof_spec leaves tree root (conj (conj Hl2 Hleaf) Hin)) with
      (fuel := S (2 * length leaves - 2 - j)) (index := (2 * length leaves - 2 - j)%nat)
      (h := h) (acc := @nil Hash) as (sibs & Hs & Hr & Hk);
      [unfold u64_max, u64_modulus in *; lia|done|lia|done|].
    exists sibs. split; [rewrite Nat2N.id; exact Hs|].
    intros h' [j' Hj']%list_elem_of_lookup_1.
    assert (j = j') as <-.
    { eapply (NoDup_lookup (map snd leaves) j j' c); [done|..];
        rewrite list_lookup_fmap; [by rewrite Hj|by rewrite Hj']. }
    simplify_eq. split; [done|]. unfold vec_len.
    assert (N.of_nat (2 ^ length sibs) < N.of_nat (2 * length leaves)) as Hpow by lia.
    rewrite Nat2N.inj_pow in Hpow. lia.
  - exists proofs. split; [exact Hproofs|]. split.
    + intros [h c] Hl. apply list_elem_of_lookup_1 in Hl as Hj. destruct Hj as [j Hj].
      destruct (Hpin c (N.of_nat (2 * length leaves - 2 - j))) as (proof & Hpr & Hq).
      { apply elem_of_map_to_list, Hidx. eauto. }
      exists proof. split; [done|]. by apply Hq.
    + intros c Hc. rewrite Hpout; [done|]. intros ([c' i] & -> & Hpi)%list_elem_of_fmap.
      apply elem_of_map_to_list, Hidx in Hpi as (j & h & Hj & _). apply Hc.
      apply list_elem_of_fmap. exists (h, c'). split; [done|by eapply list_elem_of_lookup_2].
Qed.

(** Everything [SettlementTree::new] establishes, in one lemma. *)
Lemma new_spec incident_id rows cs raw :
  rows ≠ [] → 2 * vec_len rows ≤ u64_max →
  fold_m (collect_leaf incident_id) (∅, []) rows = Ok (cs, raw) →
  ∃ t tree, SettlementTree_new incident_id rows = Ok t ∧ tree_ok (sort_by_key fst raw) tree ∧
    tree !! 0%nat = Some (st_root t) ∧
    (∀ l, l ∈ sort_by_key fst raw → ∃ proof, st_proofs t !! l.2 = Some proof ∧
       process_proof proof l.1 = st_root t ∧ 2 ^ N.of_nat (length proof) < 2 * vec_len rows) ∧
    (∀ c, c ∉ map snd (sort_by_key fst raw) → st_proofs t !! c = None).
Proof.
  intros Hne Hb Hraw. destruct (leaves_perm_facts _ _ _ _ Hraw) as (Hlen & Hnd & _ & _).
  assert (vec_len rows = vec_len (sort_by_key fst raw)) as Hvl by (unfold vec_len; congruence).
  unfold SettlementTree_new. destruct rows as [|row rows0] eqn:Erows; [done|].
  rewrite <-Erows in *. rewrite Hvl in *. rewrite Hraw. cbn [mbind outcome_bind].
  set (leaves := sort_by_key fst raw) in *.
  destruct (build_tree_spec leaves) as (tree1 & idx & tree & Hf & Hfill & Htree & Hidx);
    [rewrite Hlen, Erows; simpl; lia|done|done|].
  destruct (lookup_lt_is_Some_2 tree 0) as [root Hroot].
  { destruct Htree as [[-> _] _]. rewrite Hlen, Erows. simpl. lia. }
  destruct (collect_proofs_spec leaves tree root idx) as (proofs & Hproofs & Hin & Hout); try done.
  exists (mkSettlementTree root proofs), tree. split; [|done].
  rewrite Hf. cbn [mbind outcome_bind]. rewrite Hfill. cbn [mbind outcome_bind].
  unfold mbind, outcome_bind in Hproofs |- *. rewrite Hproofs.
  by rewrite (vec_get_at _ 0 0 _ Hroot eq_refl).
Qed.
End NewSpec.

(* ------------------------------------------------------------------ *)
(** ** Theorems *)

Section MerkleTheorems.
Context `{HexCrate, Sha3Crate}.

(** A row whose leaf folds to the root is one of the tree's rows. *)
Lemma settlement_tree_member (incident_id incident_id' : N) (rows : list MerkleRow)
    (t : SettlementTree) (row : MerkleRow) (leaf : Hash) (proof : list Hash) :
  2 * vec_len rows ≤ u64_max → SettlementTree_new incident_id rows = Ok t →
  standard_leaf_hash incident_id' row = Ok leaf → process_proof proof leaf = st_root t →
  (incident_id' = incident_id ∧ row ∈ rows) ∨ keccak_collision.
Proof.
  intros Hb Hnew Hleafrow Hproof.
  assert (rows ≠ []) as Hne by (intros ->; done).
  assert (∃ st, fold_m (collect_leaf incident_id) (∅, []) rows = Ok st) as [[cs raw] Hraw].
  { unfold SettlementTree_new in Hnew. destruct rows; [done|]. apply bind_ok in Hnew as (st & Hst & _). eauto. }
  destruct (new_spec _ _ _ _ Hne Hb Hraw) as (t' & tree & Ht' & Htree & Hroot & _).
  rewrite Hnew in Ht'. injection Ht' as <-.
  destruct (leaves_perm_facts _ _ _ _ Hraw) as (_ & _ & Hleaf & _).
  destruct (process_proof_sound _ tree leaf Htree) with (proof := proof) (index := 0%nat)
    as [Hin|Hc]; [| |by rewrite Hproof| |by right].
  - intros l Hl. destruct (Hleaf l Hl) as (r & _ & (? & ? & _ & _ & E)%standard_leaf_hash_ok & _).
    eauto.
  - apply standard_leaf_hash_ok in Hleafrow as (? & ? & _ & _ & E). eauto.
  - apply list_elem_of_fmap in Hin as (l & -> & Hl).
    destruct (Hleaf l Hl) as (r & Hr & Hh & _).
    destruct (standard_leaf_hash_inj _ _ _ _ _ Hleafrow Hh) as [[-> ->]|Hc]; auto.
Qed.
(** The claim ids of a tree's rows are distinct. *)
Lemma settlement_tree_claims incident_id rows t :
  SettlementTree_new incident_id rows = Ok t → NoDup (map mr_claim_id rows).
Proof.
  unfold SettlementTree_new. destruct rows as [|row rows0]; [done|].
  intros ([cs raw] & Hst & _)%bind_ok. by destruct (collect_leaves_ok _ _ _ _ Hst) as (_ & Hnd & _).
Qed.

Lemma settlement_tree_provable (incident_id : N) (rows : list MerkleRow) (t : SettlementTree) :
  2 * vec_len rows ≤ u64_max → SettlementTree_new incident_id rows = Ok t →
  (∀ row, row ∈ rows → ∃ leaf proof,
     standard_leaf_hash incident_id row = Ok leaf ∧
     st_proofs t !! mr_claim_id row = Some proof ∧
     process_proof proof leaf = st_root t ∧
     2 ^ N.of_nat (length proof) < 2 * vec_len rows) ∧
  dom (st_proofs t) = list_to_set (map mr_claim_id rows).
Proof.
  intros Hb Hnew.
  assert (rows ≠ []) as Hne by (intros ->; done).
  assert (∃ st, fold_m (collect_leaf incident_id) (∅, []) rows = Ok st) as [[cs raw] Hraw].
  { unfold SettlementTree_new in Hnew. destruct rows; [done|]. apply bind_ok in Hnew as (st & Hst & _). eauto. }
  destruct (new_spec _ _ _ _ Hne Hb Hraw) as (t' & tree & Ht' & _ & _ & Hin & Hout).
  rewrite Hnew in Ht'. injection Ht' as <-.
  destruct (leaves_perm_facts _ _ _ _ Hraw) as (_ & _ & Hleaf & Hrow). split.
  - intros row Hr. destruct (Hrow row Hr) as (h & Hh & Hl).
    destruct (Hin _ Hl) as (proof & Hp & Hroot & Hlog). eauto 10.
  - apply set_eq. intros c. rewrite elem_of_list_to_set, elem_of_dom, list_elem_of_fmap. split.
    + intros [p Hp]. destruct (decide (c ∈ map snd (sort_by_key fst raw))) as [Hc|Hc].
      * apply list_elem_of_fmap in Hc as (l & -> & Hl).
        destruct (Hleaf l Hl) as (row & Hr & _ & E). eauto.
      * by rewrite Hout in Hp.
    + intros (row & -> & Hr). destruct (Hrow row Hr) as (h & _ & Hl).
      destruct (Hin _ Hl) as (proof & Hp & _). eauto.
Qed.

(** Completeness of the settlement tree: when [SettlementTree::new]
    returns a tree, every row has a stored proof, the proof folded over the
    row's leaf hash with the sorted-pair node hash gives the root, its length
    is at most logarithmic in the number of rows, and no other claim has a
    proof. *)
Theorem settlement_tree_proofs (incident_id : N) (rows : list MerkleRow) (t : SettlementTree) :
  2 * vec_len rows ≤ u64_max → SettlementTree_new incident_id rows = Ok t →
  (∀ row, row ∈ rows → ∃ leaf proof,
     standard_leaf_hash incident_id row = Ok leaf ∧
     st_proofs t !! mr_claim_id row = Some proof ∧
     process_proof proof leaf = st_root t ∧
     2 ^ N.of_nat (length proof) < 2 * vec_len rows) ∧
  dom (st_proofs t) = list_to_set (map mr_claim_id rows).
Proof. apply settlement_tree_provable. Qed.


(** [SettlementTree::new] never panics (no index of the node vector is out
    of range, every loop ends), and it returns a tree exactly for a non-empty
    list of rows with distinct claim ids whose numbers fit their words. *)
Theorem settlement_tree_total (incident_id : N) (rows : list MerkleRow) :
  2 * vec_len rows ≤ u64_max →
  no_panic (SettlementTree_new incident_id rows) ∧
  ((∃ t, SettlementTree_new incident_id rows = Ok t) ↔
   rows ≠ [] ∧ NoDup (map mr_claim_id rows) ∧
   ∀ row, row ∈ rows → ∃ leaf, standard_leaf_hash incident_id row = Ok leaf).
Proof.
  intros Hb. destruct (decide (rows = [])) as [->|Hne].
  { simpl. split; [apply no_panic_Err|]. naive_solver. }
  assert (∀ r, fold_m (collect_leaf incident_id) (∅, []) rows = r →
    match r with Ok _ => True | Err e => SettlementTree_new incident_id rows = Err e | Panic _ => False end) as Hcase.
  { intros [[??]|e|s] Hr; [done|..].
    - unfold SettlementTree_new. destruct rows; [done|]. by rewrite Hr.
    - revert Hr. by apply no_panic_fold_m; intros; apply collect_leaf_no_panic. }
  destruct (fold_m (collect_leaf incident_id) (∅, []) rows) as [[cs raw]|e|s] eqn:Hraw.
  - destruct (new_spec _ _ _ _ Hne Hb Hraw) as (t & _ & -> & _).
    split; [apply no_panic_Ok|]. split; [intros _|by eexists]. split; [done|].
    destruct (collect_leaves_ok _ _ _ _ Hraw) as (_ & Hnd & _). split; [done|].
    intros row Hr. destruct (leaves_perm_facts _ _ _ _ Hraw) as (_ & _ & _ & Hrow).
    destruct (Hrow row Hr) as (h & Hh & _). eauto.
  - rewrite (Hcase _ eq_refl). split; [apply no_panic_Err|]. split; [by intros []|].
    intros (_ & Hnd & Hall). destruct (collect_leaves_total incident_id rows Hnd Hall) as [st Hst].
    congruence.
  - destruct (Hcase _ eq_refl).
Qed.
End MerkleTheorems.

Section MerkleWitnesses.
#[local] Existing Instance RefHex.hex_crate.
#[local] Existing Instance RefSha3.sha3_crate.

Definition sample_rows : list MerkleRow :=
  [mkMerkleRow 5 sample_user [10; 20] 7 8 90 1; mkMerkleRow 6 sample_user [1; 2] 0 0 40 0;
   mkMerkleRow 9 other_user [3; 4] 2 2 10 0].

Lemma sample_tree : ∃ t, SettlementTree_new 77 sample_rows = Ok t.
Proof. eexists. vm_compute. reflexivity. Qed.

Example settlement_tree_proofs_witness :
  ∃ t leaf proof, SettlementTree_new 77 sample_rows = Ok t ∧
    standard_leaf_hash 77 (mkMerkleRow 6 sample_user [1; 2] 0 0 40 0) = Ok leaf ∧
    st_proofs t !! 6 = Some proof ∧ process_proof proof leaf = st_root t.
Proof.
  destruct sample_tree as [t Ht].
  destruct (settlement_tree_proofs 77 sample_rows t) as [Hin _]; [vm_compute; discriminate|exact Ht|].
  destruct (Hin (mkMerkleRow 6 sample_user [1; 2] 0 0 40 0)) as (leaf & proof & ? & ? & ? & _).
  - right. left.
  - exists t, leaf, proof. repeat split; assumption.
Defined.


Example settlement_tree_total_witness :
  no_panic (SettlementTree_new 77 (sample_rows ++ sample_rows)) ∧
  ¬ ∃ t, SettlementTree_new 77 (sample_rows ++ sample_rows) = Ok t.
Proof.
  destruct (settlement_tree_total 77 (sample_rows ++ sample_rows)) as [Hp Hiff];
    [vm_compute; discriminate|].
  split; [exact Hp|]. intros Ht. apply Hiff in Ht as (_ & Hnd & _).
  apply NoDup_cons in Hnd as [Hni _]. apply Hni. right. right. left.
Defined.
End MerkleWitnesses.
