(* ===== verification/Kernel.v ===== *)
(** * The settlement kernel ([src/lib.rs], [allocate], [allocate_with_events])

    [allocate] prices the claims and splits the cover pool; every [BigUint] is
    unbounded and every division is a floor.  [allocate_with_events] replays
    the register/cancel stream first and settles the live claims in
    registration order. *)

From S2P Require Import Prelude Bytes Text Commit Merkle.
From Stdlib Require Import Strings.Byte.

Open Scope string_scope.
Open Scope N_scope.
Open Scope list_scope.

(** [u16::MAX]. *)
Definition MAX_BOOSTER_BOOST_BPS : N := 65535.

(** The early returns of [allocate]. *)
Definition check_policy (input : KernelInput) : outcome KernelError unit :=
  _ ← bail_if (MAX_COVERAGE_BPS <? ki_coverage_bps input)
        (InvalidPolicy ("coverageBps exceeds " +:+ to_decimal MAX_COVERAGE_BPS +:+ ": " +:+
           to_decimal (ki_coverage_bps input)));
  _ ← bail_if (BPS <? ki_max_cover_pool_payout_bps input)
        (InvalidPolicy ("maxCoverPoolPayoutBps exceeds " +:+ to_decimal BPS +:+ ": " +:+
           to_decimal (ki_max_cover_pool_payout_bps input)));
  _ ← bail_if (MAX_PROTOCOL_FEE_BPS <? ki_protocol_fee_share_bps input)
        (InvalidPolicy ("protocolFeeShareBps exceeds " +:+ to_decimal MAX_PROTOCOL_FEE_BPS +:+
           ": " +:+ to_decimal (ki_protocol_fee_share_bps input)));
  _ ← bail_if ((ki_booster_boost_bps input =? 0) ||
               (MAX_BOOSTER_BOOST_BPS <? ki_booster_boost_bps input))
        (InvalidPolicy ("boosterBoostBps must be a nonzero uint16: " +:+
           to_decimal (ki_booster_boost_bps input)));
  _ ← bail_if (255 <? ki_insured_decimals input)
        (InvalidPolicy ("insuredDecimals exceeds uint8: " +:+
           to_decimal (ki_insured_decimals input)));
  match List.find (fun pool => 255 <? pool_asset_decimals pool) (ki_pools input) with
  | Some pool =>
      Err (InvalidPolicy ("pool assetDecimals exceeds uint8: " +:+
        to_decimal (pool_asset_decimals pool)))
  | None => Ok tt
  end.

(** Body of the first loop: one claim priced and its score spent. *)
Definition settle_claim (input : KernelInput) (claim : ClaimInput) : SettledRow :=
  let eligible := N.min (ci_min_held claim) (ci_escrow_amount claim) in
  let loss_usd := ((eligible * ki_twap_ratio input) / pow10 18 * ki_underlying_usd input)
                  / pow10 (ki_insured_decimals input) in
  let unspent := if ci_spent_score claim <? ci_gross_earned_score claim
                 then ci_gross_earned_score claim - ci_spent_score claim else 0 in
  let boost := N.min (ci_booster_amount claim) (ci_booster_held claim) in
  let score_spent := if eligible =? 0 then 0 else N.min (ci_score_to_spend claim) unspent in
  let boosted_score := (score_spent * (BPS + boost * ki_booster_boost_bps input)) / BPS in
  {| sr_claim_id := ci_claim_id claim;
     sr_user := ci_user claim;
     sr_escrow_amount := ci_escrow_amount claim;
     sr_eligible_amount := eligible;
     sr_loss_usd := loss_usd;
     sr_gross_earned_score := ci_gross_earned_score claim;
     sr_earned_score := unspent;
     sr_score_spent := score_spent;
     sr_boosted_score := boosted_score;
     sr_booster_amount := ci_booster_amount claim;
     sr_eligible_booster_amount := boost;
     sr_payout_usd := 0;
     sr_amounts := [] |}.

Definition pool_value (pool : PoolInput) : N :=
  (pool_balance pool * pool_asset_usd pool) / pow10 (pool_asset_decimals pool).
Definition pool_usd_of (pools : list PoolInput) : N :=
  foldl (fun sum pool => sum + pool_value pool) 0 pools.
Definition total_boosted_of (rows : list SettledRow) : N :=
  foldl (fun sum row => sum + sr_boosted_score row) 0 rows.

(** [row.payout_usd = p] and [row.amounts = a]. *)
Definition set_payout (p : N) (r : SettledRow) : SettledRow :=
  {| sr_claim_id := sr_claim_id r; sr_user := sr_user r;
     sr_escrow_amount := sr_escrow_amount r; sr_eligible_amount := sr_eligible_amount r;
     sr_loss_usd := sr_loss_usd r; sr_gross_earned_score := sr_gross_earned_score r;
     sr_earned_score := sr_earned_score r; sr_score_spent := sr_score_spent r;
     sr_boosted_score := sr_boosted_score r; sr_booster_amount := sr_booster_amount r;
     sr_eligible_booster_amount := sr_eligible_booster_amount r;
     sr_payout_usd := p; sr_amounts := sr_amounts r |}.
Definition set_amounts (a : list N) (r : SettledRow) : SettledRow :=
  {| sr_claim_id := sr_claim_id r; sr_user := sr_user r;
     sr_escrow_amount := sr_escrow_amount r; sr_eligible_amount := sr_eligible_amount r;
     sr_loss_usd := sr_loss_usd r; sr_gross_earned_score := sr_gross_earned_score r;
     sr_earned_score := sr_earned_score r; sr_score_spent := sr_score_spent r;
     sr_boosted_score := sr_boosted_score r; sr_booster_amount := sr_booster_amount r;
     sr_eligible_booster_amount := sr_eligible_booster_amount r;
     sr_payout_usd := sr_payout_usd r; sr_amounts := a |}.

(** Body of the payout loop. *)
Definition pay_row (input : KernelInput) (max_total_usd total_boosted_score : N)
    (row : SettledRow) : outcome KernelError SettledRow :=
  let cap := (sr_loss_usd row * ki_coverage_bps input) / BPS in
  entitlement ← big_div (max_total_usd * sr_boosted_score row) total_boosted_score;
  Ok (set_payout (N.min entitlement cap) row).

(** [for (total, amount) in pool_payouts.iter_mut().zip(&row.amounts)]. *)
Fixpoint add_gross (user_share_bps : N) (pool_payouts amounts : list N) :
    outcome KernelError (list N) :=
  match pool_payouts, amounts with
  | total :: pool_payouts, amount :: amounts =>
      gross ← big_div (amount * BPS) user_share_bps;
      rest ← add_gross user_share_bps pool_payouts amounts;
      Ok (total + gross :: rest)
  | _, _ => Ok pool_payouts
  end.

(** Body of the loop that splits each payout over the pools. *)
Definition split_row (pools : list PoolInput) (pool_usd user_share_bps : N)
    (st : list SettledRow * list N) (row : SettledRow) :
    outcome KernelError (list SettledRow * list N) :=
  let '(rows, pool_payouts) := st in
  amounts ← mapM (fun pool =>
    if pool_usd =? 0 then Ok 0 else big_div (sr_payout_usd row * pool_balance pool) pool_usd) pools;
  pool_payouts ← add_gross user_share_bps pool_payouts amounts;
  Ok (rows ++ [set_amounts amounts row], pool_payouts).

Definition claim_event_of (index : nat) (claim : ClaimInput) : ClaimEvent :=
  {| ev_kind := Register;
     ev_claim_id := ci_claim_id claim;
     ev_user := ci_user claim;
     ev_amount := ci_escrow_amount claim;
     ev_score_to_spend := ci_score_to_spend claim;
     ev_booster_amount := ci_booster_amount claim;
     ev_block_number := 0;
     ev_log_index := N.of_nat index |}.

Definition merkle_row_of (row : SettledRow) : MerkleRow :=
  {| mr_claim_id := sr_claim_id row;
     mr_user := sr_user row;
     mr_amounts := sr_amounts row;
     mr_score_spent := sr_score_spent row;
     mr_boosted_score := sr_boosted_score row;
     mr_eligible_amount := sr_eligible_amount row;
     mr_eligible_booster_amount := sr_eligible_booster_amount row |}.

Section Allocate.
Context `{HexCrate, Sha3Crate}.

(** The arithmetic half: rows with payouts and amounts, pool totals. *)
Definition allocate_rows (input : KernelInput) :
    outcome KernelError (list SettledRow * list N) :=
  let rows := map (settle_claim input) (ki_claims input) in
  let pool_usd := pool_usd_of (ki_pools input) in
  user_share_bps ← big_sub BPS (ki_protocol_fee_share_bps input);
  let max_total_gross_usd := (pool_usd * ki_max_cover_pool_payout_bps input) / BPS in
  let max_total_usd := (max_total_gross_usd * user_share_bps) / BPS in
  let total_boosted_score := total_boosted_of rows in
  rows ← (if total_boosted_score =? 0 then Ok rows
          else mapM (pay_row input max_total_usd total_boosted_score) rows);
  fold_m (split_row (ki_pools input) pool_usd user_share_bps)
    ([], replicate (length (ki_pools input)) 0) rows.

(** The commitment half. *)
Definition allocate_commit (input : KernelInput) (rows : list SettledRow)
    (pool_payouts : list N) : outcome KernelError KernelOutput :=
  let claim_events := imap claim_event_of (ki_claims input) in
  claim_set_hash ← claim_set_hash claim_events;
  let input_hash_rows := map (fun row => (sr_user row, sr_gross_earned_score row)) rows in
  settlement_input_hash ← settlement_input_hash input_hash_rows;
  '(root, proofs) ←
    match rows with
    | [] => Ok ("0x" +:+ str_repeat 64 "0", ∅)
    | _ :: _ =>
        tree ← SettlementTree_new (ki_incident_id input) (map merkle_row_of rows);
        Ok (root_hex tree, all_proofs_hex tree)
    end;
  Ok (mkKernelOutput rows pool_payouts claim_set_hash settlement_input_hash root proofs).

Definition allocate (input : KernelInput) : outcome KernelError KernelOutput :=
  _ ← check_policy input;
  '(rows, pool_payouts) ← allocate_rows input;
  allocate_commit input rows pool_payouts.

(** *** [allocate_with_events] *)

Record EventMaps := mkEventMaps {
  em_registrations : gmap N ClaimEvent;
  em_order : list N;
  em_cancelled : gset N
}.

Definition index_event (st : EventMaps) (event : ClaimEvent) : outcome KernelError EventMaps :=
  let id := ev_claim_id event in
  match ev_kind event with
  | Register =>
      _ ← bail_if (bool_decide (is_Some (em_registrations st !! id))) (DuplicateRegistration id);
      Ok (mkEventMaps (<[id := event]> (em_registrations st)) (em_order st ++ [id])
            (em_cancelled st))
  | Cancel =>
      _ ← bail_if (bool_decide (¬ is_Some (em_registrations st !! id))) (UnknownCancellation id);
      _ ← bail_if (bool_decide (id ∈ em_cancelled st)) (DuplicateCancellation id);
      Ok (mkEventMaps (em_registrations st) (em_order st) ({[id]} ∪ em_cancelled st))
  end.

Definition index_resolved (maps : EventMaps) (resolved : gmap N ClaimInput) (claim : ClaimInput) :
    outcome KernelError (gmap N ClaimInput) :=
  let id := ci_claim_id claim in
  _ ← bail_if (bool_decide (is_Some (resolved !! id))) (DuplicateResolvedClaim id);
  _ ← bail_if (bool_decide (¬ is_Some (em_registrations maps !! id) ∨ id ∈ em_cancelled maps))
        (UnexpectedResolvedClaim id);
  Ok (<[id := claim]> resolved).

Definition order_claim (maps : EventMaps) (resolved : gmap N ClaimInput)
    (ordered_claims : list ClaimInput) (claim_id : N) : outcome KernelError (list ClaimInput) :=
  if bool_decide (claim_id ∈ em_cancelled maps) then Ok ordered_claims
  else
    registration ← ok_or (em_registrations maps !! claim_id)
      (InvalidPolicy ("registration order references missing claim " +:+ to_decimal claim_id));
    claim ← ok_or (resolved !! claim_id) (MissingResolvedClaim claim_id);
    _ ← bail_if (negb (bool_decide (ev_user registration = ci_user claim)) ||
                 negb (ev_amount registration =? ci_escrow_amount claim) ||
                 negb (ev_score_to_spend registration =? ci_score_to_spend claim) ||
                 negb (ev_booster_amount registration =? ci_booster_amount claim))
          (ResolvedClaimMismatch claim_id);
    Ok (ordered_claims ++ [claim]).

(** [ordered_input.claims = claims] on a clone. *)
Definition with_claims (claims : list ClaimInput) (input : KernelInput) : KernelInput :=
  {| ki_incident_id := ki_incident_id input; ki_coverage_bps := ki_coverage_bps input;
     ki_booster_boost_bps := ki_booster_boost_bps input;
     ki_insured_decimals := ki_insured_decimals input; ki_twap_ratio := ki_twap_ratio input;
     ki_underlying_usd := ki_underlying_usd input;
     ki_max_cover_pool_payout_bps := ki_max_cover_pool_payout_bps input;
     ki_protocol_fee_share_bps := ki_protocol_fee_share_bps input;
     ki_pools := ki_pools input; ki_claims := claims |}.

Definition order_claims (input : KernelInput) (events : list ClaimEvent) :
    outcome KernelError (list ClaimInput) :=
  maps ← fold_m index_event (mkEventMaps ∅ [] ∅) events;
  resolved ← fold_m (index_resolved maps) ∅ (ki_claims input);
  fold_m (order_claim maps resolved) [] (em_order maps).

Definition allocate_with_events (input : KernelInput) (events : list ClaimEvent) :
    outcome KernelError KernelOutput :=
  _ ← replay_claim_set events;
  ordered_claims ← order_claims input events;
  output ← allocate (with_claims ordered_claims input);
  hash ← claim_set_hash events;
  Ok (mkKernelOutput (ko_rows output) (ko_pool_payouts output) hash
        (ko_settlement_input_hash output) (ko_root output) (ko_proofs output)).
End Allocate.

(* ------------------------------------------------------------------ *)
(** ** Closed forms of the arithmetic *)

Section ClosedForm.
Context (input : KernelInput).

Definition settled : list SettledRow := map (settle_claim input) (ki_claims input).
Definition share : N := BPS - ki_protocol_fee_share_bps input.
(** What the pools may pay in total, fee included, and net of the fee. *)
Definition gross_budget : N :=
  (pool_usd_of (ki_pools input) * ki_max_cover_pool_payout_bps input) / BPS.
Definition budget : N := (gross_budget * share) / BPS.
Definition total_boosted : N := total_boosted_of settled.
Definition cap_of (row : SettledRow) : N := (sr_loss_usd row * ki_coverage_bps input) / BPS.
Definition payout_of (row : SettledRow) : N :=
  if total_boosted =? 0 then 0
  else N.min ((budget * sr_boosted_score row) / total_boosted) (cap_of row).
Definition amount_of (payout : N) (pool : PoolInput) : N :=
  if pool_usd_of (ki_pools input) =? 0 then 0
  else (payout * pool_balance pool) / pool_usd_of (ki_pools input).
Definition final_row (row : SettledRow) : SettledRow :=
  set_amounts (map (amount_of (payout_of row)) (ki_pools input)) (set_payout (payout_of row) row).
Definition pool_payout (pool : PoolInput) : N :=
  sum_N (map (fun row => (amount_of (payout_of row) pool * BPS) / share) settled).

Lemma add_gross_map (g a : PoolInput → N) pools : share ≠ 0 →
  add_gross share (map g pools) (map a pools) =
  Ok (map (fun pool => g pool + (a pool * BPS) / share) pools).
Proof.
  intros Hs. induction pools as [|pool pools IH]; [done|]. cbn [map add_gross].
  rewrite big_div_nz by done. cbn [mbind outcome_bind]. by rewrite IH.
Qed.

Lemma split_rows_map (rows : list SettledRow) : share ≠ 0 → ∀ done (g : PoolInput → N),
  fold_m (split_row (ki_pools input) (pool_usd_of (ki_pools input)) share)
    (done, map g (ki_pools input)) rows =
  Ok (done ++ map (fun row => set_amounts
        (map (amount_of (sr_payout_usd row)) (ki_pools input)) row) rows,
      map (fun pool => g pool +
        sum_N (map (fun row => (amount_of (sr_payout_usd row) pool * BPS) / share) rows))
        (ki_pools input)).
Proof.
  intros Hs. induction rows as [|row rows IH]; intros done g; cbn [fold_m].
  - cbn. rewrite app_nil_r. do 2 f_equal. apply map_ext. intros. lia.
  - unfold split_row at 2.
    rewrite (mapM_map _ (amount_of (sr_payout_usd row))).
    2: { intros pool _. unfold amount_of. destruct (N.eqb_spec (pool_usd_of (ki_pools input)) 0);
         [done|by apply big_div_nz]. }
    cbn [mbind outcome_bind]. rewrite add_gross_map by done. cbn [mbind outcome_bind].
    rewrite IH, <-app_assoc. do 2 f_equal. apply map_ext. intros pool. simpl. lia.
Qed.

Lemma allocate_rows_closed :
  share ≠ 0 → ki_protocol_fee_share_bps input ≤ BPS →
  allocate_rows input = Ok (map final_row settled, map pool_payout (ki_pools input)).
Proof.
  intros Hs Hfee. unfold allocate_rows. rewrite big_sub_le by done. cbn [mbind outcome_bind].
  fold settled. fold share. fold gross_budget. fold budget. fold total_boosted.
  assert ((if total_boosted =? 0 then Ok settled
           else mapM (pay_row input budget total_boosted) settled) =
          Ok (map (fun row => set_payout (payout_of row) row) settled)
          :> outcome KernelError _) as ->.
  { unfold payout_of. destruct (N.eqb_spec total_boosted 0) as [|Ht].
    - f_equal. unfold settled. rewrite map_map. by apply map_ext.
    - apply mapM_map. intros row _. unfold pay_row. rewrite big_div_nz by done. done. }
  cbn [mbind outcome_bind].
  assert (replicate (length (ki_pools input)) 0 = map (fun _ => 0) (ki_pools input)) as ->.
  { induction (ki_pools input); simpl; by f_equal. }
  rewrite split_rows_map by done. rewrite !map_map. cbn [app]. do 2 f_equal.
  apply map_ext. intros pool. unfold pool_payout. rewrite map_map. simpl. lia.
Qed.

(** *** Budget arithmetic *)

Lemma pool_usd_sum : pool_usd_of (ki_pools input) = sum_N (map pool_value (ki_pools input)).
Proof. unfold pool_usd_of. rewrite foldl_add_sum. lia. Qed.

Lemma total_boosted_sum : total_boosted = sum_N (map sr_boosted_score settled).
Proof. unfold total_boosted, total_boosted_of. rewrite foldl_add_sum. lia. Qed.

Lemma payout_of_bounds row :
  payout_of row * BPS ≤ sr_loss_usd row * ki_coverage_bps input ∧
  payout_of row * total_boosted ≤ budget * sr_boosted_score row ∧
  (sr_boosted_score row = 0 → payout_of row = 0).
Proof.
  unfold payout_of. destruct (N.eqb_spec total_boosted 0) as [|Ht].
  { rewrite !N.mul_0_l. split; [apply N.le_0_l|]. split; [apply N.le_0_l|done]. }
  split; [|split].
  - etransitivity; [|apply (N_div_mul_le _ BPS)]. apply N.mul_le_mono_r, N.le_min_r.
  - etransitivity; [|apply (N_div_mul_le _ total_boosted)]. apply N.mul_le_mono_r, N.le_min_l.
  - intros ->. by rewrite N.mul_0_r, N.Div0.div_0_l, N.min_0_l.
Qed.

Lemma settle_claim_bounds claim :
  let row := settle_claim input claim in
  sr_eligible_amount row ≤ ci_min_held claim ∧
  sr_eligible_amount row ≤ ci_escrow_amount claim ∧
  sr_score_spent row ≤ ci_score_to_spend claim ∧
  sr_score_spent row ≤ ci_gross_earned_score claim - ci_spent_score claim ∧
  (sr_eligible_amount row = 0 → sr_score_spent row = 0 ∧ sr_boosted_score row = 0).
Proof.
  unfold settle_claim. cbn [sr_eligible_amount sr_score_spent sr_boosted_score].
  split; [apply N.le_min_l|]. split; [apply N.le_min_r|].
  split; [|split].
  - destruct (N.min (ci_min_held claim) _ =? 0); [apply N.le_0_l|apply N.le_min_l].
  - destruct (N.min (ci_min_held claim) _ =? 0); [apply N.le_0_l|].
    etransitivity; [apply N.le_min_r|].
    destruct (N.ltb_spec (ci_spent_score claim) (ci_gross_earned_score claim)); lia.
  - intros ->. done.
Qed.

Lemma payouts_within_budget : sum_N (map payout_of settled) ≤ budget.
Proof.
  unfold payout_of. destruct (N.eqb_spec total_boosted 0) as [|Ht].
  { rewrite sum_N_zero by done. apply N.le_0_l. }
  transitivity (sum_N (map (fun row => (budget * sr_boosted_score row) / total_boosted) settled)).
  { apply sum_N_le. intros. lia. }
  rewrite sum_N_div_le.
  rewrite (map_ext _ (fun row => sr_boosted_score row * budget)) by (intros; lia).
  rewrite sum_N_mul, <-total_boosted_sum, N.mul_comm. by rewrite N.div_mul.
Qed.

Lemma budget_chain pu m bal s x y g b : pu ≠ 0 → s ≠ 0 →
  x * pu ≤ b * bal → y * s ≤ x * BPS → b * BPS ≤ g * s → g * BPS ≤ pu * m →
  y * BPS ≤ bal * m.
Proof.
  generalize BPS. intros B Hpu Hs Hx Hy Hb Hg.
  assert (y * s * pu ≤ g * s * bal) as H1.
  { transitivity (x * B * pu); [by apply N.mul_le_mono_r|].
    replace (x * B * pu) with (x * pu * B) by lia.
    transitivity (b * bal * B); [by apply N.mul_le_mono_r|].
    replace (b * bal * B) with (b * B * bal) by lia. by apply N.mul_le_mono_r. }
  assert (y * pu ≤ g * bal) as H2.
  { apply (N.mul_le_mono_pos_l _ _ s); lia. }
  apply (N.mul_le_mono_pos_l _ _ pu); [lia|].
  transitivity (g * bal * B); [replace (pu * (y * B)) with (y * pu * B) by lia;
    by apply N.mul_le_mono_r|].
  replace (g * bal * B) with (g * B * bal) by lia.
  replace (pu * (bal * m)) with (pu * m * bal) by lia. by apply N.mul_le_mono_r.
Qed.

Lemma pool_payout_bound pool : share ≠ 0 →
  pool_payout pool * BPS ≤ pool_balance pool * ki_max_cover_pool_payout_bps input.
Proof.
  intros Hs. unfold pool_payout, amount_of.
  set (pu := pool_usd_of (ki_pools input)). destruct (N.eqb_spec pu 0) as [|Hpu].
  { rewrite sum_N_zero by (intros; by rewrite N.mul_0_l, N.Div0.div_0_l). apply N.le_0_l. }
  set (bal := pool_balance pool). set (m := ki_max_cover_pool_payout_bps input).
  etransitivity; [apply N.mul_le_mono_r,
    (sum_N_div_le (fun row => payout_of row * bal / pu * BPS))|]. rewrite sum_N_mul.
  assert (sum_N (map (fun row => (payout_of row * bal) / pu) settled) ≤ budget * bal / pu) as HX.
  { rewrite sum_N_div_le, sum_N_mul. apply N_div_le_mono, N.mul_le_mono_r, payouts_within_budget. }
  revert HX. generalize (sum_N (map (fun row => (payout_of row * bal) / pu) settled)).
  intros X HX. set (Y := X * BPS / share).
  pose proof (N_div_mul_le (X * BPS) share) as HY. fold Y in HY.
  pose proof (N_div_mul_le (budget * bal) pu) as HXpu.
  pose proof (N_div_mul_le (gross_budget * share) BPS) as HB. fold budget in HB.
  pose proof (N_div_mul_le (pu * m) BPS) as HG. fold gross_budget in HG.
  apply (budget_chain pu m bal share X Y gross_budget budget); try done.
  etransitivity; [by apply N.mul_le_mono_r|done].
Qed.

(** Users of a pool never get more than the pool pays before the fee. *)
Lemma amounts_within_pool_payout pool : share ≠ 0 →
  sum_N (map (fun row => amount_of (payout_of row) pool) settled) ≤ pool_payout pool.
Proof.
  intros Hs. unfold pool_payout. apply sum_N_le. intros row _.
  apply N.div_le_lower_bound; [done|]. rewrite N.mul_comm.
  apply N.mul_le_mono_l. unfold share. lia.
Qed.
End ClosedForm.

(* ------------------------------------------------------------------ *)
(** ** Policy checks and the shape of a result *)

Definition policy_ok (input : KernelInput) : Prop :=
  ki_coverage_bps input ≤ MAX_COVERAGE_BPS ∧
  ki_max_cover_pool_payout_bps input ≤ BPS ∧
  ki_protocol_fee_share_bps input ≤ MAX_PROTOCOL_FEE_BPS ∧
  ki_booster_boost_bps input ≠ 0 ∧ ki_booster_boost_bps input ≤ MAX_BOOSTER_BOOST_BPS ∧
  ki_insured_decimals input ≤ 255 ∧
  ∀ pool, pool ∈ ki_pools input → pool_asset_decimals pool ≤ 255.

Lemma check_policy_ok input u : check_policy input = Ok u ↔ policy_ok input.
Proof.
  unfold check_policy, policy_ok. rewrite !bind_ok.
  assert ((match List.find (fun pool => 255 <? pool_asset_decimals pool) (ki_pools input) with
    | Some pool => Err (InvalidPolicy ("pool assetDecimals exceeds uint8: " +:+
        to_decimal (pool_asset_decimals pool)))
    | None => Ok tt end = Ok u) ↔ ∀ pool, pool ∈ ki_pools input → pool_asset_decimals pool ≤ 255)
    as Hpools.
  { destruct u, (List.find _ _) as [pool|] eqn:Hf.
    - apply find_some in Hf as [Hin Hlt]. apply N.ltb_lt in Hlt. split; [done|].
      intros Hall. apply list_elem_of_In, Hall in Hin. lia.
    - split; [|done]. intros _ pool Hin. apply list_elem_of_In in Hin.
      apply (find_none _ _ Hf) in Hin. by apply N.ltb_ge. }
  setoid_rewrite bind_ok. setoid_rewrite bind_ok. setoid_rewrite bind_ok. setoid_rewrite bind_ok.
  setoid_rewrite Hpools. setoid_rewrite bail_if_ok.
  setoid_rewrite orb_false_iff. setoid_rewrite N.ltb_ge. setoid_rewrite N.eqb_neq.
  split.
  - intros (_ & ? & _ & ? & _ & ? & _ & [? ?] & _ & ? & ?). auto 10.
  - intros (? & ? & ? & ? & ? & ? & ?). repeat (exists tt; split; [auto|]). auto.
Qed.

Lemma check_policy_errs input : only_errs (fun e => ∃ m, e = InvalidPolicy m) (check_policy input).
Proof. unfold check_policy. solve_only_errs. Qed.

Lemma check_policy_no_panic input : no_panic (check_policy input).
Proof. unfold check_policy. solve_no_panic. Qed.

Lemma policy_share input : policy_ok input →
  share input ≠ 0 ∧ ki_protocol_fee_share_bps input ≤ BPS.
Proof. unfold policy_ok, share, MAX_PROTOCOL_FEE_BPS, BPS. lia. Qed.

(** Errors that are not about the policy. *)
Definition not_policy (e : KernelError) : Prop := ∀ m, e ≠ InvalidPolicy m.

Lemma uint256_word_errs v : only_errs not_policy (uint256_word v).
Proof. by intros e [_ ->]%uint256_word_err m. Qed.
#[export] Hint Resolve uint256_word_errs : only_errs.

Lemma check_distinct_users_errs rows : only_errs not_policy (check_distinct_users rows).
Proof.
  induction rows as [|a [|b rows] IH]; [apply only_errs_Ok..|].
  rewrite check_distinct_users_cons2. apply only_errs_bind; [|intros _ _; exact IH].
  by apply only_errs_bail_if.
Qed.

Lemma check_distinct_users_no_panic rows : no_panic (check_distinct_users rows).
Proof.
  induction rows as [|a [|b rows] IH]; [apply no_panic_Ok..|].
  rewrite check_distinct_users_cons2. apply no_panic_bind; [|intros _ _; exact IH].
  apply no_panic_bail_if.
Qed.
#[export] Hint Resolve check_distinct_users_errs : only_errs.
#[export] Hint Resolve check_distinct_users_no_panic : no_panic.

Section CommitErrors.
Context `{HexCrate, Sha3Crate}.

Lemma settlement_input_hash_errs rows : only_errs not_policy (settlement_input_hash rows).
Proof. unfold settlement_input_hash. solve_only_errs; by apply only_errs_ok_or. Qed.
Lemma settlement_input_hash_no_panic rows : no_panic (settlement_input_hash rows).
Proof. unfold settlement_input_hash. solve_no_panic. Qed.

Lemma claim_set_hash_errs es : only_errs not_policy (claim_set_hash es).
Proof. unfold claim_set_hash, claim_set_step. solve_only_errs. Qed.
Lemma claim_set_hash_no_panic es : no_panic (claim_set_hash es).
Proof. unfold claim_set_hash, claim_set_step. solve_no_panic. Qed.

Lemma collect_leaf_errs i st row : only_errs not_policy (collect_leaf i st row).
Proof.
  destruct st. unfold collect_leaf, standard_leaf_hash. solve_only_errs.
  - by apply only_errs_bail_if.
  - by apply only_errs_ok_or.
Qed.

Lemma tree_new_cases i rows : 2 * vec_len rows ≤ u64_max →
  no_panic (SettlementTree_new i rows) ∧ only_errs not_policy (SettlementTree_new i rows).
Proof.
  intros Hb. destruct rows as [|row rows]; [split; [apply no_panic_Err|by apply only_errs_Err]|].
  destruct (fold_m (collect_leaf i) (∅, []) (row :: rows)) as [[cs raw]|e|s] eqn:Hf.
  - destruct (new_spec i (row :: rows) cs raw) as (t & _ & -> & _); [done..|].
    split; [apply no_panic_Ok|apply only_errs_Ok].
  - unfold SettlementTree_new. rewrite Hf. split; [apply no_panic_Err|].
    apply only_errs_Err. revert Hf. apply only_errs_fold_m. intros. apply collect_leaf_errs.
  - destruct (no_panic_fold_m (collect_leaf i) (∅, []) (row :: rows)) with (s := s); [|done].
    intros. apply collect_leaf_no_panic.
Qed.

Lemma allocate_commit_cases input rows payouts : 2 * vec_len rows ≤ u64_max →
  no_panic (allocate_commit input rows payouts) ∧
  only_errs not_policy (allocate_commit input rows payouts).
Proof.
  intros Hb. destruct (tree_new_cases (ki_incident_id input) (map merkle_row_of rows)) as [Hp He].
  { unfold vec_len in *. by rewrite length_map. }
  unfold allocate_commit. destruct rows; split.
  - solve_no_panic; auto using claim_set_hash_no_panic, settlement_input_hash_no_panic.
  - solve_only_errs; auto using claim_set_hash_errs, settlement_input_hash_errs.
  - solve_no_panic; auto using claim_set_hash_no_panic, settlement_input_hash_no_panic.
  - solve_only_errs; auto using claim_set_hash_errs, settlement_input_hash_errs.
Qed.

Lemma allocate_unfold input : policy_ok input →
  allocate input =
    allocate_commit input (map (final_row input) (settled input))
      (map (pool_payout input) (ki_pools input)).
Proof.
  intros Hp. destruct (policy_share _ Hp) as [Hs Hfee]. unfold allocate.
  rewrite (proj2 (check_policy_ok input tt) Hp). cbn [mbind outcome_bind].
  by rewrite allocate_rows_closed.
Qed.

Lemma allocate_ok input out : allocate input = Ok out →
  policy_ok input ∧ ko_rows out = map (final_row input) (settled input) ∧
  ko_pool_payouts out = map (pool_payout input) (ki_pools input) ∧
  allocate_commit input (ko_rows out) (ko_pool_payouts out) = Ok out.
Proof.
  intros Hok. assert (policy_ok input) as Hp.
  { unfold allocate in Hok. apply bind_ok in Hok as (u & Hu & _). by apply check_policy_ok in Hu. }
  rewrite allocate_unfold in Hok by done. split; [done|].
  assert (ko_rows out = map (final_row input) (settled input) ∧
    ko_pool_payouts out = map (pool_payout input) (ki_pools input)) as [-> ->]; [|done].
  unfold allocate_commit in Hok.
  apply bind_ok in Hok as (h & _ & (g & _ & ([root proofs] & _ & [= <-])%bind_ok)%bind_ok). done.
Qed.
End CommitErrors.

(* ------------------------------------------------------------------ *)
(** ** Ordering the resolved claims by the event stream *)

Definition registration_matches (e : ClaimEvent) (c : ClaimInput) : Prop :=
  ev_user e = ci_user c ∧ ev_amount e = ci_escrow_amount c ∧
  ev_score_to_spend e = ci_score_to_spend c ∧ ev_booster_amount e = ci_booster_amount c.

(** [cs] are the claims of [input], one per live registration, in order. *)
Definition claims_in_order (events : list ClaimEvent) (claims cs : list ClaimInput) : Prop :=
  cs ≡ₚ claims ∧
  map ci_claim_id cs = filter (fun id => id ∉ cancelled_ids events) (registered_ids events) ∧
  ∀ c, c ∈ cs → ∃ e, e ∈ events ∧ ev_kind e = Register ∧ ev_claim_id e = ci_claim_id c ∧
    registration_matches e c.

Lemma elem_registered_ids es id :
  id ∈ registered_ids es ↔ ∃ e, e ∈ es ∧ ev_kind e = Register ∧ ev_claim_id e = id.
Proof.
  unfold registered_ids. rewrite list_elem_of_fmap. setoid_rewrite list_elem_of_filter.
  naive_solver.
Qed.

Lemma registered_unique es e1 e2 : NoDup (registered_ids es) → e1 ∈ es → e2 ∈ es →
  ev_kind e1 = Register → ev_kind e2 = Register → ev_claim_id e1 = ev_claim_id e2 → e1 = e2.
Proof.
  unfold registered_ids. intros Hnd H1 H2 K1 K2 E.
  assert (e1 ∈ filter (fun e => ev_kind e = Register) es) as [i Hi]%list_elem_of_lookup_1
    by by apply list_elem_of_filter.
  assert (e2 ∈ filter (fun e => ev_kind e = Register) es) as [j Hj]%list_elem_of_lookup_1
    by by apply list_elem_of_filter.
  assert (i = j) as ->; [|congruence].
  eapply NoDup_lookup; [exact Hnd|..]; rewrite list_lookup_fmap, ?Hi, ?Hj; [done|].
  simpl. by rewrite E.
Qed.

Definition maps_inv (es : list ClaimEvent) (maps : EventMaps) : Prop :=
  em_order maps = registered_ids es ∧ em_cancelled maps = list_to_set (cancelled_ids es) ∧
  ∀ id e, em_registrations maps !! id = Some e →
    e ∈ es ∧ ev_kind e = Register ∧ ev_claim_id e = id.

Lemma maps_registered es maps id : maps_inv es maps →
  dom (em_registrations maps) = list_to_set (registered_ids es) →
  is_Some (em_registrations maps !! id) ↔ id ∈ registered_ids es.
Proof. intros _ Hd. rewrite <-elem_of_dom, Hd. apply elem_of_list_to_set. Qed.

(** After a successful replay the second pass over the events succeeds too. *)
Lemma index_events_ok es st : fold_m replay_step (mkReplayState ∅ [] ∅ None) es = Ok st →
  ∃ maps, fold_m index_event (mkEventMaps ∅ [] ∅) es = Ok maps ∧ maps_inv es maps ∧
    dom (em_registrations maps) = list_to_set (registered_ids es).
Proof.
  revert st. induction es as [|e es IH] using rev_ind; intros st Hst.
  { eexists. split; [done|]. by repeat split. }
  rewrite fold_m_snoc in Hst. apply bind_ok in Hst as (st' & Hst' & Hstep).
  destruct (IH _ Hst') as (maps & Hm & Hinv & Hd).
  destruct (replay_fold_inv _ _ Hst') as (_ & Hr & Hc & _).
  unfold replay_step in Hstep. apply bind_ok in Hstep as (? & ? & Hstep).
  rewrite fold_m_snoc, Hm. cbn [mbind outcome_bind]. unfold index_event.
  pose proof (maps_registered _ _ (ev_claim_id e) Hinv Hd) as Hreg.
  destruct Hinv as (Ho & Hcan & Hl). unfold maps_inv.
  rewrite registered_ids_snoc, cancelled_ids_snoc.
  destruct (ev_kind e) eqn:Ek.
  - apply bind_ok in Hstep as (? & Hdup & ?). apply bail_if_ok, bool_decide_eq_false in Hdup.
    rewrite Hr, elem_of_list_to_set in Hdup.
    rewrite bool_decide_eq_false_2 by (by rewrite Hreg). eexists. split; [done|]. simpl.
    rewrite app_nil_r, Ho, dom_insert_L, Hd, list_to_set_app_L.
    split; [split; [done|split; [done|]]|simpl; set_solver].
    intros id y [[<- <-]|[_ (Hy & ? & ?)%Hl]]%lookup_insert_Some; rewrite elem_of_app.
    + split; [right; left|done].
    + auto.
  - apply bind_ok in Hstep as (? & Hunk & (? & Hdup & ?)%bind_ok).
    apply bail_if_ok, bool_decide_eq_false in Hunk, Hdup. apply dec_stable in Hunk.
    rewrite Hr, elem_of_list_to_set in Hunk.
    rewrite (bool_decide_eq_false_2 (¬ is_Some _)) by (by rewrite Hreg; intros Hn).
    cbn [bail_if mbind outcome_bind]. rewrite Hcan, <-Hc, bool_decide_eq_false_2 by done.
    eexists. split; [done|]. simpl. rewrite app_nil_r, Ho, Hd, Hc, list_to_set_app_L.
    split; [split; [done|split; [simpl; set_solver|]]|done].
    intros id y (Hy & ? & ?)%Hl. rewrite elem_of_app. auto.
Qed.

Definition resolvable (maps : EventMaps) (c : ClaimInput) : Prop :=
  is_Some (em_registrations maps !! ci_claim_id c) ∧ ci_claim_id c ∉ em_cancelled maps.

Lemma index_resolved_spec maps claims :
  (∀ resolved, fold_m (index_resolved maps) ∅ claims = Ok resolved →
     NoDup (map ci_claim_id claims) ∧ (∀ c, c ∈ claims → resolvable maps c) ∧
     ∀ id c, resolved !! id = Some c ↔ c ∈ claims ∧ ci_claim_id c = id) ∧
  (NoDup (map ci_claim_id claims) → (∀ c, c ∈ claims → resolvable maps c) →
     ∃ resolved, fold_m (index_resolved maps) ∅ claims = Ok resolved).
Proof.
  induction claims as [|c claims [IHs IHc]] using rev_ind; split.
  - intros ? [= <-]. split; [constructor|]. split; [intros ?; by inversion 1|].
    intros id c. rewrite lookup_empty. split; [done|]. intros [H _]. by inversion H.
  - by eexists.
  - intros resolved Hf. rewrite fold_m_snoc in Hf. apply bind_ok in Hf as (m & Hm & Hstep).
    destruct (IHs _ Hm) as (Hnd & Hall & Hlook). unfold index_resolved in Hstep.
    apply bind_ok in Hstep as (? & Hdup & (? & Hun & [= <-])%bind_ok).
    apply bail_if_ok, bool_decide_eq_false in Hdup, Hun.
    assert (ci_claim_id c ∉ map ci_claim_id claims) as Hni.
    { intros (c' & E & Hin)%list_elem_of_fmap. apply Hdup. exists c'. by apply Hlook. }
    split; [|split].
    + rewrite map_app. apply NoDup_app. split; [done|]. split; [|apply NoDup_singleton].
      intros z Hz Hz'%list_elem_of_singleton. by subst.
    + intros c' [Hin| ->%list_elem_of_singleton]%elem_of_app; [by apply Hall|].
      unfold resolvable. split; [apply dec_stable|]; intros Hn; apply Hun; auto.
    + intros id c'. rewrite lookup_insert_Some, Hlook, elem_of_app, list_elem_of_singleton.
      split; [naive_solver|]. intros [[Hin| ->] <-]; [right|by left].
      split; [|done]. intros E. apply Hni. rewrite E. apply list_elem_of_fmap. eauto.
  - intros Hnd Hall. rewrite map_app in Hnd. apply NoDup_app in Hnd as (Hnd & Hni & _).
    destruct IHc as [m Hm]; [done|intros; apply Hall, elem_of_app; auto|].
    destruct (IHs _ Hm) as (_ & _ & Hlook).
    rewrite fold_m_snoc, Hm. cbn [mbind outcome_bind]. unfold index_resolved.
    rewrite (bool_decide_eq_false_2 (is_Some _)).
    + cbn [bail_if mbind outcome_bind]. rewrite bool_decide_eq_false_2; [by eexists|].
      destruct (Hall c) as [H1 H2]; [apply elem_of_app; right; left|]. tauto.
    + intros [c' (Hin & E)%Hlook]. apply (Hni (ci_claim_id c)); [|left].
      rewrite <-E. apply list_elem_of_fmap. eauto.
Qed.

Lemma order_claim_spec maps resolved acc id cs :
  order_claim maps resolved acc id = Ok cs ↔
  (id ∈ em_cancelled maps ∧ cs = acc) ∨
  ((id ∉ em_cancelled maps) ∧ (∃ e c, em_registrations maps !! id = Some e ∧
     resolved !! id = Some c ∧ registration_matches e c ∧ cs = acc ++ [c])).
Proof.
  unfold order_claim. case_bool_decide as Hc.
  { split; [intros [= <-]; by left|]. intros [[_ ->]|[? _]]; done. }
  rewrite bind_ok. setoid_rewrite bind_ok. setoid_rewrite bind_ok.
  setoid_rewrite ok_or_ok. setoid_rewrite bail_if_ok. setoid_rewrite orb_false_iff.
  setoid_rewrite orb_false_iff. setoid_rewrite orb_false_iff. setoid_rewrite negb_false_iff.
  setoid_rewrite N.eqb_eq. unfold registration_matches. split.
  - intros (e & He & c & Hcl & _ & ((([Hu%bool_decide_eq_true Ha] & Hs) & Hb) & [= <-])).
    right. eauto 12.
  - intros [[? _]|(_ & e & c & He & Hcl & (Hu & Ha & Hs & Hb) & ->)]; [done|].
    exists e. split; [done|]. exists c. split; [done|]. exists tt.
    rewrite bool_decide_eq_true_2 by done. done.
Qed.

Lemma order_claims_fold maps resolved order : ∀ acc cs,
  fold_m (order_claim maps resolved) acc order = Ok cs ↔ ∃ cs', cs = acc ++ cs' ∧
    Forall2 (fun id c => resolved !! id = Some c ∧ ∃ e, em_registrations maps !! id = Some e ∧
      registration_matches e c) (filter (fun id => id ∉ em_cancelled maps) order) cs'.
Proof.
  induction order as [|id order IH]; intros acc cs; cbn [fold_m].
  { rewrite filter_nil. split; [intros [= <-]; exists []; by rewrite app_nil_r|].
    intros (cs' & -> & Hn%Forall2_nil_inv_l). subst. by rewrite app_nil_r. }
  rewrite bind_ok. setoid_rewrite order_claim_spec. setoid_rewrite IH.
  rewrite filter_cons. destruct (decide (id ∉ em_cancelled maps)) as [Hid|Hid]; split.
  - intros (acc' & [[? _]|(_ & e & c & He & Hc & Hm & ->)] & cs' & -> & Hall); [done|].
    exists (c :: cs'). rewrite <-app_assoc. split; [done|]. constructor; eauto.
  - intros (cs' & -> & (c & cs2 & (Hc & e & He & Hm) & Hall & ->)%Forall2_cons_inv_l).
    exists (acc ++ [c]). split; [right; eauto 10|]. exists cs2. by rewrite <-app_assoc.
  - intros (acc' & [[_ ->]|(? & _)] & cs' & -> & Hall); [eauto|done].
  - intros (cs' & -> & Hall). exists acc. apply dec_stable in Hid. eauto 10.
Qed.

(** What [order_claims] computes, and exactly when it succeeds. *)
Section OrderClaims.
Context (events : list ClaimEvent) (maps : EventMaps) (claims : list ClaimInput).
Context (Hinv : maps_inv events maps) (Hnr : NoDup (registered_ids events)).
Context (Hd : dom (em_registrations maps) = list_to_set (registered_ids events)).

Lemma live_order : filter (fun id => id ∉ em_cancelled maps) (em_order maps) =
  filter (fun id => id ∉ cancelled_ids events) (registered_ids events).
Proof.
  destruct Hinv as (-> & Hcan & _). apply list_filter_iff. intros id. rewrite Hcan. set_solver.
Qed.

Lemma resolvable_live c :
  resolvable maps c ↔
  ci_claim_id c ∈ filter (fun id => id ∉ cancelled_ids events) (registered_ids events).
Proof.
  unfold resolvable. rewrite list_elem_of_filter, (maps_registered events) by done.
  destruct Hinv as (_ & -> & _). set_solver.
Qed.

Lemma order_claims_sound resolved cs :
  fold_m (index_resolved maps) ∅ claims = Ok resolved →
  fold_m (order_claim maps resolved) [] (em_order maps) = Ok cs → claims_in_order events claims cs.
Proof.
  intros Hres Hord. destruct (index_resolved_spec maps claims) as [Hsound _].
  destruct (Hsound _ Hres) as (Hnd & Hall & Hlook).
  apply order_claims_fold in Hord as (cs' & -> & Hf). cbn [app]. rewrite live_order in Hf.
  unfold claims_in_order.
  set (live := filter (fun id => id ∉ cancelled_ids events) (registered_ids events)) in *.
  assert (map ci_claim_id cs' = live) as Hids.
  { clear -Hf Hlook. induction Hf as [|id c l cs' [Hc _] _ IH]; [done|]. cbn [map].
    apply Hlook in Hc as [_ ->]. by f_equal. }
  assert (∀ c, c ∈ cs' → c ∈ claims ∧ ∃ e, e ∈ events ∧ ev_kind e = Register ∧
    ev_claim_id e = ci_claim_id c ∧ registration_matches e c) as Hcs.
  { intros c Hin. apply list_elem_of_lookup_1 in Hin as [i Hi].
    destruct (Forall2_lookup_r _ _ _ _ _ Hf Hi) as (id & _ & Hc & e & He & Hmt).
    apply Hlook in Hc as [Hin <-]. apply Hinv in He as (? & ? & ?). eauto 10. }
  split; [|split; [done|intros c Hin; by apply Hcs]].
  apply NoDup_Permutation; [|by apply (NoDup_fmap_1 ci_claim_id)|].
  - apply (NoDup_fmap_1 ci_claim_id). change (NoDup (map ci_claim_id cs')).
    rewrite Hids. by apply NoDup_filter.
  - intros c. split; [intros Hin; by apply Hcs|]. intros Hin.
    pose proof (Hall c Hin) as Hlv. apply resolvable_live in Hlv. fold live in Hlv.
    rewrite <-Hids in Hlv. apply list_elem_of_fmap in Hlv as (c' & E & Hc').
    destruct (Hcs c' Hc') as [Hin' _].
    assert (resolved !! ci_claim_id c = Some c) as Hr1 by by apply Hlook.
    assert (resolved !! ci_claim_id c = Some c') as Hr2 by by apply Hlook.
    congruence.
Qed.

Lemma order_claims_complete cs : claims_in_order events claims cs →
  ∃ resolved, fold_m (index_resolved maps) ∅ claims = Ok resolved ∧
    fold_m (order_claim maps resolved) [] (em_order maps) = Ok cs.
Proof.
  intros (Hp & Hids & Hcs). destruct (index_resolved_spec maps claims) as [Hsound Htotal].
  destruct Htotal as [resolved Hres].
  - rewrite <-Hp, Hids. by apply NoDup_filter.
  - intros c Hin. apply resolvable_live. rewrite <-Hids. apply list_elem_of_fmap.
    exists c. by rewrite Hp.
  - exists resolved. split; [done|]. destruct (Hsound _ Hres) as (Hnd & Hall & Hlook).
    apply order_claims_fold. exists cs. split; [done|]. rewrite live_order, <-Hids.
    apply Forall2_fmap_l, Forall_Forall2_diag, Forall_forall. intros c Hin.
    split; [apply Hlook; split; [by rewrite <-Hp|done]|].
    destruct (Hcs c Hin) as (e & He & Hk & Hid & Hmt).
    destruct (proj2 (maps_registered events maps (ci_claim_id c) Hinv Hd)) as [e' He'].
    { apply elem_registered_ids. eauto. }
    exists e'. split; [done|]. apply Hinv in He' as (Hin' & Hk' & Hid').
    by rewrite (registered_unique events e' e Hnr) by congruence.
Qed.
End OrderClaims.

Lemma order_claims_spec input events st cs :
  fold_m replay_step (mkReplayState ∅ [] ∅ None) events = Ok st →
  order_claims input events = Ok cs ↔ claims_in_order events (ki_claims input) cs.
Proof.
  intros Hst. destruct (index_events_ok _ _ Hst) as (maps & Hm & Hinv & Hd).
  destruct (replay_fold_inv _ _ Hst) as (_ & _ & _ & _ & Hnr & _).
  unfold order_claims. rewrite Hm. cbn [mbind outcome_bind]. rewrite bind_ok. split.
  - intros (resolved & ? & ?). by eapply order_claims_sound.
  - by apply order_claims_complete.
Qed.

(* ------------------------------------------------------------------ *)
(** ** Theorems *)

Section KernelTheorems.
Context `{HexCrate, Sha3Crate}.

(** C1: Solvency of the kernel, pool by pool: the gross amount booked against a
    pool never exceeds the policy's share [maxCoverPoolPayoutBps] of that pool's
    balance (so never the balance), and the users' amounts taken from the pool
    sum to at most that gross amount. *)
Theorem kernel_pool_solvency (input : KernelInput) (out : KernelOutput) (j : nat)
    (pool : PoolInput) :
  allocate input = Ok out → ki_pools input !! j = Some pool →
  ∃ gross, ko_pool_payouts out !! j = Some gross ∧
    gross * BPS ≤ pool_balance pool * ki_max_cover_pool_payout_bps input ∧
    gross ≤ pool_balance pool ∧
    sum_N (map (fun row => default 0 (sr_amounts row !! j)) (ko_rows out)) ≤ gross.
Proof.
  intros (Hp & -> & -> & _)%allocate_ok Hj. destruct (policy_share _ Hp) as [Hs _].
  exists (pool_payout input pool). rewrite list_lookup_fmap, Hj. split; [done|].
  pose proof (pool_payout_bound input pool Hs) as Hb. split; [exact Hb|]. split.
  - destruct Hp as (_ & Hm & _).
    apply (N.mul_le_mono_pos_r _ _ BPS); [done|]. etransitivity; [exact Hb|].
    by apply N.mul_le_mono_l.
  - rewrite map_map. etransitivity; [|by apply amounts_within_pool_payout].
    apply sum_N_le. intros row _. simpl. rewrite list_lookup_fmap, Hj. simpl. lia.
Qed.

(** C2: Each settled row is bounded by its own claim and by the budget: the
    eligible amount is at most the escrowed and the held amount; the score spent
    is at most what the user asked to spend and what the user has left; the
    payout is at most the covered share of the loss and the row's boosted-score
    share of the budget; a claim with nothing eligible spends no score, carries
    no weight and is paid nothing; and all payouts together stay within the
    budget left after the protocol fee. *)
Theorem kernel_row_bounds (input : KernelInput) (out : KernelOutput) :
  allocate input = Ok out →
  Forall2 (fun claim row =>
    sr_claim_id row = ci_claim_id claim ∧ sr_user row = ci_user claim ∧
    sr_eligible_amount row ≤ ci_min_held claim ∧
    sr_eligible_amount row ≤ ci_escrow_amount claim ∧
    sr_score_spent row ≤ ci_score_to_spend claim ∧
    sr_score_spent row ≤ ci_gross_earned_score claim - ci_spent_score claim ∧
    sr_payout_usd row * BPS ≤ sr_loss_usd row * ki_coverage_bps input ∧
    sr_payout_usd row * sum_N (map sr_boosted_score (ko_rows out))
      ≤ budget input * sr_boosted_score row ∧
    (sr_eligible_amount row = 0 →
       sr_score_spent row = 0 ∧ sr_boosted_score row = 0 ∧ sr_payout_usd row = 0))
    (ki_claims input) (ko_rows out) ∧
  sum_N (map sr_payout_usd (ko_rows out)) ≤ budget input.
Proof.
  intros (Hp & -> & _ & _)%allocate_ok.
  assert (map sr_boosted_score (map (final_row input) (settled input))
    = map sr_boosted_score (settled input)) as Eb by (rewrite map_map; by apply map_ext).
  assert (map sr_payout_usd (map (final_row input) (settled input))
    = map (payout_of input) (settled input)) as Ep by (rewrite map_map; by apply map_ext).
  split; [|rewrite Ep; apply payouts_within_budget].
  rewrite Eb, <-total_boosted_sum. unfold settled. rewrite map_map.
  apply Forall2_fmap_r, Forall_Forall2_diag, Forall_forall. intros claim _.
  destruct (settle_claim_bounds input claim) as (He1 & He2 & Hs1 & Hs2 & Hz).
  destruct (payout_of_bounds input (settle_claim input claim)) as (Hc & Hb & Hz').
  repeat (split; [done|]). intros He. destruct (Hz He) as [H1 H2].
  split; [done|]. split; [done|]. by apply Hz'.
Qed.

(** The kernel's policy errors are exact: on an input of realistic size
    [allocate] never panics (no subtraction below zero, no division by zero),
    and it ends in [InvalidPolicy] exactly when a bound on the coverage, the
    pool payout, the fee, the booster boost or a decimals field is violated. *)
Theorem kernel_policy_errors (input : KernelInput) :
  2 * vec_len (ki_claims input) ≤ u64_max →
  no_panic (allocate input) ∧
  ((∃ message, allocate input = Err (InvalidPolicy message)) ↔ ¬ policy_ok input).
Proof.
  intros Hb. destruct (check_policy input) as [u|e|s] eqn:Hc.
  - apply check_policy_ok in Hc as Hp. rewrite allocate_unfold by done.
    destruct (allocate_commit_cases input (map (final_row input) (settled input))
      (map (pool_payout input) (ki_pools input))) as [Hn He].
    { unfold settled, vec_len. rewrite !length_map. exact Hb. }
    split; [exact Hn|]. split; [|by intros []].
    intros [m Hm]. by apply He in Hm; destruct (Hm m).
  - assert (¬ policy_ok input) as Hn.
    { intros Hp%(check_policy_ok input tt). congruence. }
    unfold allocate. rewrite Hc. split; [apply no_panic_Err|]. split; [done|].
    intros _. destruct (check_policy_errs input e Hc) as [m ->]. by exists m.
  - by apply check_policy_no_panic in Hc.
Qed.

Lemma allocate_with_events_ok input events out :
  allocate_with_events input events = Ok out ↔ ∃ st h cs out',
    fold_m replay_step (mkReplayState ∅ [] ∅ None) events = Ok st ∧
    claim_set_hash events = Ok h ∧ claims_in_order events (ki_claims input) cs ∧
    allocate (with_claims cs input) = Ok out' ∧
    out = mkKernelOutput (ko_rows out') (ko_pool_payouts out') h
            (ko_settlement_input_hash out') (ko_root out') (ko_proofs out').
Proof.
  unfold allocate_with_events, replay_claim_set. split.
  - intros (r & (st & Hst & Hr)%bind_ok & Hrest)%bind_ok.
    apply bind_ok in Hrest as (cs & Hcs & (out' & Ho & (h & Hh & [= <-])%bind_ok)%bind_ok).
    exists st, h, cs, out'. split; [done|]. split; [done|].
    split; [by eapply order_claims_spec|done].
  - intros (st & h & cs & out' & Hst & Hh & Hcs & Ho & ->). rewrite Hst.
    cbn [mbind outcome_bind]. rewrite Hh. cbn [mbind outcome_bind].
    rewrite (proj2 (order_claims_spec input events st cs Hst)) by done.
    cbn [mbind outcome_bind]. by rewrite Ho.
Qed.

(** C3: The production entry point settles exactly the live claims: on success
    the rows' claim ids are the registered ids without the cancelled ones, in
    registration order; the resolved claims of the input are a permutation of
    them; every row repeats the user, escrow amount and boosters of its
    registration event; and the claim-set hash is the hash of the whole stream,
    cancelled registrations included. *)
Theorem kernel_settles_live_claims (input : KernelInput) (events : list ClaimEvent)
    (out : KernelOutput) :
  allocate_with_events input events = Ok out →
  ∃ replay, replay_claim_set events = Ok replay ∧
    map sr_claim_id (ko_rows out) = csr_live_claim_ids replay ∧
    ko_claim_set_hash out = csr_hash replay ∧
    map ci_claim_id (ki_claims input) ≡ₚ csr_live_claim_ids replay ∧
    ∀ row, row ∈ ko_rows out → ∃ event, event ∈ events ∧ ev_kind event = Register ∧
      ev_claim_id event = sr_claim_id row ∧ ev_user event = sr_user row ∧
      ev_amount event = sr_escrow_amount row ∧ ev_booster_amount event = sr_booster_amount row ∧
      sr_score_spent row ≤ ev_score_to_spend event.
Proof.
  intros (st & h & cs & out' & Hst & Hh & (Hp & Hids & Hcs) & Ho & ->)%allocate_with_events_ok.
  simpl. destruct (replay_fold_inv _ _ Hst) as (Hor & _ & Hc & _).
  eexists. split; [unfold replay_claim_set; rewrite Hst; cbn [mbind outcome_bind];
    rewrite Hh; reflexivity|]. simpl.
  assert (filter (fun id => id ∉ rs_cancelled st) (rs_order st) =
    filter (fun id => id ∉ cancelled_ids events) (registered_ids events)) as Hlive.
  { rewrite Hor. apply list_filter_iff. intros id. rewrite Hc. set_solver. }
  rewrite Hlive, <-Hids. apply allocate_ok in Ho as (_ & -> & _ & _). unfold settled.
  rewrite !map_map. split; [done|]. split; [done|]. split; [by rewrite Hp|].
  intros row (c & -> & Hin)%list_elem_of_fmap.
  destruct (Hcs c Hin) as (e & He & Hk & Hid & Hu & Ha & Hsc & Hb).
  exists e. repeat (split; [done|]). rewrite Hsc. unfold final_row, settle_claim.
  cbn [sr_score_spent set_amounts set_payout]. destruct (_ =? 0); lia.
Qed.

(** The order in which the resolved claims are supplied does not matter:
    permuting [input.claims] leaves a successful settlement unchanged. *)
Theorem kernel_claim_order_irrelevant (input : KernelInput) (claims : list ClaimInput)
    (events : list ClaimEvent) (out : KernelOutput) :
  claims ≡ₚ ki_claims input → allocate_with_events input events = Ok out →
  allocate_with_events (with_claims claims input) events = Ok out.
Proof.
  intros Hp (st & h & cs & out' & Hst & Hh & (Hp' & Hids & Hcs) & Ho & ->)%allocate_with_events_ok.
  apply allocate_with_events_ok. exists st, h, cs, out'.
  split; [done|]. split; [done|]. split; [|done]. split; [|done]. simpl. by rewrite Hp, Hp'.
Qed.

(** The published root authenticates the settlement: for every settled row
    the output holds a list of sibling digests that folds the row's leaf hash
    to the published root. *)
Theorem kernel_rows_authenticated (input : KernelInput) (out : KernelOutput) (row : SettledRow) :
  2 * vec_len (ki_claims input) ≤ u64_max →
  allocate input = Ok out → row ∈ ko_rows out →
  ∃ leaf proof, standard_leaf_hash (ki_incident_id input) (merkle_row_of row) = Ok leaf ∧
    ko_proofs out !! sr_claim_id row = Some (map hash_hex proof) ∧
    hash_hex (process_proof proof leaf) = ko_root out.
Proof.
  intros Hb (Hp & Hrows & _ & Hcommit)%allocate_ok Hin. unfold allocate_commit in Hcommit.
  apply bind_ok in Hcommit as (h & _ & (g & _ & ([root proofs] & Ht & Hout)%bind_ok)%bind_ok).
  apply (inj Ok) in Hout.
  destruct (ko_rows out) as [|r rows] eqn:Er; [by inversion Hin|]. rewrite <-Er in *.
  apply bind_ok in Ht as (t & Ht & [= <- <-]).
  set (mrows := map merkle_row_of (ko_rows out)) in *.
  assert (mrows ≠ []) as Hne by (unfold mrows; by rewrite Er).
  assert (2 * vec_len mrows ≤ u64_max) as Hb'.
  { unfold mrows, vec_len. rewrite Hrows. unfold settled. by rewrite !length_map. }
  assert (∃ st, fold_m (collect_leaf (ki_incident_id input)) (∅, []) mrows = Ok st) as [[cs raw] Hraw].
  { unfold SettlementTree_new in Ht. destruct mrows; [done|].
    apply bind_ok in Ht as (st & Hst & _). eauto. }
  destruct (new_spec _ _ _ _ Hne Hb' Hraw) as (t' & tree & Ht' & _ & _ & Hl & _).
  rewrite Ht in Ht'. injection Ht' as <-.
  destruct (leaves_perm_facts _ _ _ _ Hraw) as (_ & _ & _ & Hrow).
  destruct (Hrow (merkle_row_of row)) as (leaf & Hleaf & Hlin).
  { apply list_elem_of_fmap. eauto. }
  destruct (Hl _ Hlin) as (proof & Hproof & Hroot & _). exists leaf, proof.
  split; [done|]. rewrite <-Hout. simpl. split.
  - unfold all_proofs_hex. rewrite lookup_fmap. simpl in Hproof. by rewrite Hproof.
  - simpl in Hroot. by rewrite Hroot.
Qed.
End KernelTheorems.

Section KernelWitnesses.
#[local] Existing Instance RefHex.hex_crate.
#[local] Existing Instance RefSha3.sha3_crate.

Definition demo_events : list ClaimEvent :=
  [mkClaimEvent Register 5 sample_user 1000 7 1 10 0;
   mkClaimEvent Register 6 other_user 500 3 0 10 3;
   mkClaimEvent Register 7 other_user 500 3 0 11 0;
   mkClaimEvent Cancel 7 other_user 0 0 0 12 1].
Definition demo_claims : list ClaimInput :=
  [mkClaimInput 5 sample_user 1000 900 20 4 7 1 1; mkClaimInput 6 other_user 500 0 9 1 3 0 0].
Definition demo_input (claims : list ClaimInput) : KernelInput :=
  mkKernelInput 77 8000 500 0 (10 ^ 18) 3 5000 1000
    [mkPoolInput 4000 2 0; mkPoolInput 100000 3 1] claims.

Lemma demo_allocates : ∃ out, allocate (demo_input demo_claims) = Ok out.
Proof. eexists. vm_compute. reflexivity. Qed.

Lemma demo_settles : ∃ out, allocate_with_events (demo_input demo_claims) demo_events = Ok out.
Proof. eexists. vm_compute. reflexivity. Qed.

Example kernel_pool_solvency_witness :
  ∃ out gross, allocate (demo_input demo_claims) = Ok out ∧
    ko_pool_payouts out !! 1%nat = Some gross ∧ gross * BPS ≤ 100000 * 5000.
Proof.
  destruct demo_allocates as [out Ho]. exists out.
  destruct (kernel_pool_solvency (demo_input demo_claims) out 1 (mkPoolInput 100000 3 1) Ho)
    as (gross & Hg & Hb & _); [reflexivity|].
  exists gross. split; [exact Ho|]. split; [exact Hg|exact Hb].
Defined.

Example kernel_row_bounds_witness :
  ∃ out, allocate (demo_input demo_claims) = Ok out ∧
    sum_N (map sr_payout_usd (ko_rows out)) ≤ budget (demo_input demo_claims).
Proof.
  destruct demo_allocates as [out Ho]. exists out. split; [exact Ho|].
  exact (proj2 (kernel_row_bounds (demo_input demo_claims) out Ho)).
Defined.

Example kernel_policy_errors_witness :
  no_panic (allocate (demo_input demo_claims)) ∧
  ¬ ∃ message, allocate (demo_input demo_claims) = Err (InvalidPolicy message).
Proof.
  destruct (kernel_policy_errors (demo_input demo_claims)) as [Hn Hiff]; [vm_compute; discriminate|].
  split; [exact Hn|]. intros He. apply Hiff in He. apply He.
  apply (check_policy_ok _ tt). vm_compute. reflexivity.
Defined.

Example kernel_settles_live_claims_witness :
  ∃ out, allocate_with_events (demo_input demo_claims) demo_events = Ok out ∧
    map sr_claim_id (ko_rows out) = [5; 6].
Proof.
  destruct demo_settles as [out Ho]. exists out. split; [exact Ho|].
  destruct (kernel_settles_live_claims (demo_input demo_claims) demo_events out Ho)
    as (r & Hr & Hids & _).
  rewrite Hids. vm_compute in Hr. injection Hr as <-. reflexivity.
Defined.

Example kernel_claim_order_irrelevant_witness :
  ∃ out, allocate_with_events (demo_input demo_claims) demo_events = Ok out ∧
    allocate_with_events (with_claims (rev demo_claims) (demo_input demo_claims)) demo_events
    = Ok out.
Proof.
  destruct demo_settles as [out Ho]. exists out. split; [exact Ho|].
  apply kernel_claim_order_irrelevant; [|exact Ho]. apply perm_swap.
Defined.

Example kernel_rows_authenticated_witness :
  ∃ out row leaf proof, allocate (demo_input demo_claims) = Ok out ∧ row ∈ ko_rows out ∧
    standard_leaf_hash 77 (merkle_row_of row) = Ok leaf ∧
    ko_proofs out !! sr_claim_id row = Some (map hash_hex proof) ∧
    hash_hex (process_proof proof leaf) = ko_root out.
Proof.
  destruct demo_allocates as [out Ho].
  destruct (ko_rows out) as [|row rows] eqn:Er.
  - vm_compute in Ho. injection Ho as <-. discriminate Er.
  - assert (row ∈ ko_rows out) as Hin by (rewrite Er; left).
    destruct (kernel_rows_authenticated (demo_input demo_claims) out row) as (leaf & proof & H1 & H2 & H3);
      [vm_compute; discriminate|exact Ho|exact Hin|].
    exists out, row, leaf, proof. repeat split; assumption.
Defined.
End KernelWitnesses.
