(* ===== verification/TypedData.v ===== *)
(** * EIP-712 digests ([src/typed_data.rs])

    The settlement digest and the incident-open digest the enclave signs, and
    the pools hash. *)

From S2P Require Import Prelude Bytes Text Commit.
From Stdlib Require Import Strings.Byte.

Open Scope string_scope.
Open Scope N_scope.
Open Scope list_scope.

Definition DOMAIN_TYPE : string :=
  "EIP712Domain(string name,string version,uint256 chainId,address verifyingContract)".
Definition SETTLEMENT_TYPE : string :=
  "Settlement(uint256 incidentId,bytes32 root,uint256 unresolvedClaims,uint256[] poolPayouts,bytes32 pools,bytes32 claimSet,bytes32 teePcrHash)".
Definition INCIDENT_OPEN_TYPE : string :=
  "IncidentOpen(address insuredToken,uint64 referenceBlock,uint256 incidentId,bytes32 teePcrHash,bytes32 eligibilityHash)".

Record SettlementDigestInput := mkSettlementDigestInput {
  sd_chain_id : N;
  sd_verifying_contract : Address;
  sd_incident_id : N;
  sd_root : string;
  sd_unresolved_claims : N;
  sd_pool_payouts : list N;
  sd_pool_addrs : list Address;
  sd_claim_set : string;
  sd_tee_pcr_hash : string
}.

Record IncidentOpenDigestInput := mkIncidentOpenDigestInput {
  od_chain_id : N;
  od_verifying_contract : Address;
  od_insured_token : Address;
  od_reference_block : N;
  od_incident_id : N;
  od_tee_pcr_hash : string;
  od_eligibility_hash : string
}.

Inductive TypedDataError :=
  | InvalidHash (field value : string)
  | TypedUint256Overflow.

#[export] Instance TypedDataError_eq_dec : EqDecision TypedDataError.
Proof. solve_decision. Defined.

Section Digests.
Context `{HexCrate, Sha3Crate}.

Definition hash32 (field value : string) : outcome TypedDataError Hash :=
  ok_or
    (raw ← strip_prefix "0x" value;
     if str_len raw =? 64 then bytes ← hex_decode raw; try_array 32 bytes else None)
    (InvalidHash field value).

Definition word (value : N) : outcome TypedDataError Hash :=
  map_err (fun _ => TypedUint256Overflow) (uint256_word value).

Definition packed_uint256_hash (values : list N) : outcome TypedDataError Hash :=
  packed ← mapM word values;
  Ok (keccak256 (mjoin (map array_val packed))).

Definition packed_address_hash (values : list Address) : Hash :=
  keccak256 (mjoin (map array_val (map abi_word values))).

Definition domain_hash (chain_id : N) (verifying_contract : Address) :
    outcome TypedDataError Hash :=
  chain ← word chain_id;
  Ok (keccak256 (mjoin (map array_val
    [keccak256 (as_bytes DOMAIN_TYPE); keccak256 (as_bytes "DefiInsurance");
     keccak256 (as_bytes "1"); chain; abi_word verifying_contract]))).

Definition typed_digest (domain_hash struct_hash : Hash) : string :=
  hash_hex (keccak256 ([x19; x01] ++ array_val domain_hash ++ array_val struct_hash)).

Definition pools_hash (values : list Address) : string := hash_hex (packed_address_hash values).

Definition settlement_digest (input : SettlementDigestInput) : outcome TypedDataError string :=
  root ← hash32 "root" (sd_root input);
  claim_set ← hash32 "claimSet" (sd_claim_set input);
  tee_pcr_hash ← hash32 "teePcrHash" (sd_tee_pcr_hash input);
  domain ← domain_hash (sd_chain_id input) (sd_verifying_contract input);
  incident ← word (sd_incident_id input);
  unresolved ← word (sd_unresolved_claims input);
  payouts ← packed_uint256_hash (sd_pool_payouts input);
  let structure := [keccak256 (as_bytes SETTLEMENT_TYPE); incident; root; unresolved; payouts;
    packed_address_hash (sd_pool_addrs input); claim_set; tee_pcr_hash] in
  Ok (typed_digest domain (keccak256 (mjoin (map array_val structure)))).

Definition incident_open_digest (input : IncidentOpenDigestInput) :
    outcome TypedDataError string :=
  tee_pcr_hash ← hash32 "teePcrHash" (od_tee_pcr_hash input);
  eligibility_hash ← hash32 "eligibilityHash" (od_eligibility_hash input);
  reference ← word (od_reference_block input);
  incident ← word (od_incident_id input);
  let structure := [keccak256 (as_bytes INCIDENT_OPEN_TYPE); abi_word (od_insured_token input);
    reference; incident; tee_pcr_hash; eligibility_hash] in
  domain ← domain_hash (od_chain_id input) (od_verifying_contract input);
  Ok (typed_digest domain (keccak256 (mjoin (map array_val structure)))).
End Digests.

(* ------------------------------------------------------------------ *)
(** ** Helper lemmas *)

Section DigestFacts.
Context `{HexLaws, Sha3Crate}.

Lemma hash32_ok field value h : hash32 field value = Ok h ↔
  ∃ raw, value = ("0x" +:+ raw)%string ∧ hex_decode raw = Some (array_val h).
Proof.
  unfold hash32. rewrite ok_or_ok. split.
  - destruct (strip_prefix "0x" value) as [raw|] eqn:E; [|done]. cbn.
    apply strip_prefix_Some in E as ->. destruct (str_len raw =? 64); [|done].
    destruct (hex_decode raw) as [l|] eqn:El; [|done]. cbn. intros <-%try_array_Some. eauto.
  - intros (raw & -> & E). rewrite strip_prefix_app. cbn.
    rewrite (hex_decode_len _ _ E), array_length. cbn. rewrite E. cbn. by apply try_array_Some.
Qed.

Lemma hash32_inj f g a b h : hash32 f a = Ok h → hash32 g b = Ok h →
  to_ascii_lowercase a = to_ascii_lowercase b.
Proof.
  intros (r & -> & Er)%hash32_ok (s & -> & Es)%hash32_ok.
  rewrite !to_ascii_lowercase_app.
  by rewrite <-(hex_encode_decode _ _ Er), <-(hex_encode_decode _ _ Es).
Qed.

Lemma word_ok v w : word v = Ok w ↔ uint256_word v = Ok w.
Proof. apply map_err_ok. Qed.

Lemma word_inj a b w : word a = Ok w → word b = Ok w → a = b.
Proof. rewrite !word_ok. apply uint256_word_inj. Qed.

Lemma mjoin_words_length (l : list Hash) :
  length (mjoin (map array_val l)) = (32 * length l)%nat.
Proof. induction l as [|a l IH]; simpl; [done|]. rewrite length_app, array_length, IH. lia. Qed.

(** Hashes of concatenated words determine the words, up to collisions. *)
Lemma keccak_words_inj (l k : list Hash) :
  keccak256 (mjoin (map array_val l)) = keccak256 (mjoin (map array_val k)) →
  l = k ∨ keccak_collision.
Proof.
  intros E. destruct (decide (mjoin (map array_val l) = mjoin (map array_val k))) as [E'|Hne];
    [left|right; by eexists _, _].
  apply (f_equal length) in E' as El. rewrite !mjoin_words_length in El.
  apply (mjoin_arrays_inj l k [] []); [lia|by rewrite !app_nil_r].
Qed.

Lemma mapM_word_inj l k ws : mapM word l = Ok ws → mapM word k = Ok ws → l = k.
Proof.
  intros Hl%mapM_ok. revert k. induction Hl as [|x w l ws Hx _ IH]; intros k Hk%mapM_ok.
  - by apply Forall2_nil_inv_r in Hk.
  - apply Forall2_cons_inv_r in Hk as (y & k' & Hy & Hk%mapM_ok & ->).
    f_equal; [by eapply word_inj|by apply IH].
Qed.

Lemma packed_uint256_hash_inj l k h :
  packed_uint256_hash l = Ok h → packed_uint256_hash k = Ok h → l = k ∨ keccak_collision.
Proof.
  intros (ws & Hw & E)%bind_ok (vs & Hv & E')%bind_ok.
  apply (inj Ok) in E, E'. subst h. apply keccak_words_inj in E' as [->|?]; [left|by right].
  by eapply mapM_word_inj.
Qed.

Lemma packed_address_hash_inj l k :
  packed_address_hash l = packed_address_hash k → l = k ∨ keccak_collision.
Proof. intros [E|?]%keccak_words_inj; [left|by right]. by apply (inj (fmap abi_word)) in E. Qed.

Lemma domain_hash_inj c1 a1 c2 a2 d :
  domain_hash c1 a1 = Ok d → domain_hash c2 a2 = Ok d → (c1 = c2 ∧ a1 = a2) ∨ keccak_collision.
Proof.
  intros (w1 & K1 & E1)%bind_ok (w2 & K2 & E2)%bind_ok. apply (inj Ok) in E1, E2. subst d.
  apply keccak_words_inj in E2 as [E|?]; [left|by right].
  assert (w2 = w1 ∧ abi_word a2 = abi_word a1) as [-> Ea].
  { revert E. generalize (abi_word a1), (abi_word a2). intros ? ? E. by injection E. }
  split; [by eapply word_inj|]. by apply abi_word_inj.
Qed.

Lemma typed_digest_inj d1 s1 d2 s2 :
  typed_digest d1 s1 = typed_digest d2 s2 → (d1 = d2 ∧ s1 = s2) ∨ keccak_collision.
Proof.
  intros E%hash_hex_inj.
  destruct (decide ([x19; x01] ++ array_val d1 ++ array_val s1
    = [x19; x01] ++ array_val d2 ++ array_val s2)) as [E'|Hne]; [left|right; by eexists _, _].
  apply app_inv_head in E'. apply array_app_inj in E' as [-> ?%(inj _)]. done.
Qed.

(** What a successful settlement digest is made of. *)
Lemma settlement_digest_ok a d : settlement_digest a = Ok d →
  ∃ root cs pcr dom inc unr pay ,
    hash32 "root" (sd_root a) = Ok root ∧ hash32 "claimSet" (sd_claim_set a) = Ok cs ∧
    hash32 "teePcrHash" (sd_tee_pcr_hash a) = Ok pcr ∧
    domain_hash (sd_chain_id a) (sd_verifying_contract a) = Ok dom ∧
    word (sd_incident_id a) = Ok inc ∧ word (sd_unresolved_claims a) = Ok unr ∧
    packed_uint256_hash (sd_pool_payouts a) = Ok pay ∧
    d = typed_digest dom (keccak256 (mjoin (map array_val
          [keccak256 (as_bytes SETTLEMENT_TYPE); inc; root; unr; pay;
           packed_address_hash (sd_pool_addrs a); cs; pcr]))).
Proof.
  unfold settlement_digest.
  intros (root & K1 & (cs & K2 & (pcr & K3 & (dom & K4 & (inc & K5 & (unr & K6 & (pay & K7 &
    E)%bind_ok)%bind_ok)%bind_ok)%bind_ok)%bind_ok)%bind_ok)%bind_ok.
  apply (inj Ok) in E. exists root, cs, pcr, dom, inc, unr, pay. auto 10.
Qed.

Lemma incident_open_digest_ok a d : incident_open_digest a = Ok d →
  ∃ pcr el ref inc dom,
    hash32 "teePcrHash" (od_tee_pcr_hash a) = Ok pcr ∧
    hash32 "eligibilityHash" (od_eligibility_hash a) = Ok el ∧
    word (od_reference_block a) = Ok ref ∧ word (od_incident_id a) = Ok inc ∧
    domain_hash (od_chain_id a) (od_verifying_contract a) = Ok dom ∧
    d = typed_digest dom (keccak256 (mjoin (map array_val
          [keccak256 (as_bytes INCIDENT_OPEN_TYPE); abi_word (od_insured_token a);
           ref; inc; pcr; el]))).
Proof.
  unfold incident_open_digest.
  intros (pcr & K1 & (el & K2 & (ref & K3 & (inc & K4 & (dom & K5 & E)%bind_ok)%bind_ok)%bind_ok)
    %bind_ok)%bind_ok.
  apply (inj Ok) in E. exists pcr, el, ref, inc, dom. auto 10.
Qed.
End DigestFacts.

(** Two settlements that a signer of the digest cannot tell apart: equal up to
    the letter case of the hex texts. *)
Definition same_settlement (a b : SettlementDigestInput) : Prop :=
  sd_chain_id a = sd_chain_id b ∧ sd_verifying_contract a = sd_verifying_contract b ∧
  sd_incident_id a = sd_incident_id b ∧
  to_ascii_lowercase (sd_root a) = to_ascii_lowercase (sd_root b) ∧
  sd_unresolved_claims a = sd_unresolved_claims b ∧
  sd_pool_payouts a = sd_pool_payouts b ∧ sd_pool_addrs a = sd_pool_addrs b ∧
  to_ascii_lowercase (sd_claim_set a) = to_ascii_lowercase (sd_claim_set b) ∧
  to_ascii_lowercase (sd_tee_pcr_hash a) = to_ascii_lowercase (sd_tee_pcr_hash b).

Definition same_incident_open (a b : IncidentOpenDigestInput) : Prop :=
  od_chain_id a = od_chain_id b ∧ od_verifying_contract a = od_verifying_contract b ∧
  od_insured_token a = od_insured_token b ∧ od_reference_block a = od_reference_block b ∧
  od_incident_id a = od_incident_id b ∧
  to_ascii_lowercase (od_tee_pcr_hash a) = to_ascii_lowercase (od_tee_pcr_hash b) ∧
  to_ascii_lowercase (od_eligibility_hash a) = to_ascii_lowercase (od_eligibility_hash b).

(* ------------------------------------------------------------------ *)
(** ** Theorems *)

Section DigestTheorems.
Context `{HexLaws, Sha3Crate}.


(** The incident-open digest binds the token, the reference block, the
    incident, the enclave measurement and the eligibility hash, as well as the
    chain and the contract, unless a Keccak-256 collision is known. *)
Theorem incident_open_digest_binding (a b : IncidentOpenDigestInput) (d : string) :
  incident_open_digest a = Ok d → incident_open_digest b = Ok d →
  same_incident_open a b ∨ keccak_collision.
Proof.
  intros (pcr & el & ref & inc & dom & K1 & K2 & K3 & K4 & K5 & E)%incident_open_digest_ok.
  intros (pcr' & el' & ref' & inc' & dom' & K1' & K2' & K3' & K4' & K5' & E')
    %incident_open_digest_ok.
  rewrite E in E'. apply typed_digest_inj in E' as [[-> Es]|?]; [|by right].
  apply keccak_words_inj in Es as [Es|?]; [|by right].
  assert (abi_word (od_insured_token a) = abi_word (od_insured_token b) ∧ ref = ref' ∧
    inc = inc' ∧ pcr = pcr' ∧ el = el') as (Et & -> & -> & -> & ->).
  { revert Es. generalize (abi_word (od_insured_token a)), (abi_word (od_insured_token b)).
    intros ? ? Es. by injection Es. }
  destruct (domain_hash_inj _ _ _ _ _ K5 K5') as [[Ec Ev]|?]; [|by right].
  left. repeat split; try done; by (eapply word_inj || eapply hash32_inj || apply abi_word_inj).
Qed.
End DigestTheorems.

Section DigestWitnesses.
#[local] Existing Instance RefHex.hex_crate.
#[local] Existing Instance RefSha3.sha3_crate.
#[local] Existing Instance RefHex.hex_laws.

Definition demo_hash : string := "0x" +:+ str_repeat 64 "a".
Definition demo_hash_upper : string := "0x" +:+ str_repeat 64 "A".
Definition demo_digest_input (root : string) : SettlementDigestInput :=
  mkSettlementDigestInput 1 sample_user 7 root 0 [3; 4] [sample_user; other_user]
    demo_hash demo_hash.
Definition demo_open_input (h : string) : IncidentOpenDigestInput :=
  mkIncidentOpenDigestInput 1 sample_user other_user 99 7 h demo_hash.


Example incident_open_digest_binding_witness :
  same_incident_open (demo_open_input demo_hash) (demo_open_input demo_hash_upper)
  ∨ keccak_collision.
Proof.
  assert (∃ d, incident_open_digest (demo_open_input demo_hash) = Ok d) as [d E]
    by (eexists; vm_compute; reflexivity).
  apply (incident_open_digest_binding _ _ d E). rewrite <-E. vm_compute. reflexivity.
Defined.
End DigestWitnesses.
