(* ===== verification/Rpc.v ===== *)
(** * JSON-RPC reads and complete log queries ([src/rpc.rs])

    [Value] is [serde_json::Value].  [RpcIface] is the trait [Rpc] together
    with the clock and the timer of the runtime, over an outside world [W]:
    the transport is not part of this file, so a request is an arbitrary
    stateful computation.  [get_logs_chunked] splits a block range until every
    piece is below the provider's result cap, falling back to block receipts
    for a single block, under request, bisection, attempt and time budgets. *)

From S2P Require Import Prelude Bytes Text.

Open Scope string_scope.
Open Scope N_scope.
Open Scope list_scope.

(* ------------------------------------------------------------------ *)
(** ** [serde_json::Value] *)

Inductive Number :=
  | PosInt (n : N)
  | NegInt (z : Z)
  | Float (bits : N).

#[warnings="-register-all"]
Inductive Value :=
  | VNull
  | VBool (b : bool)
  | VNumber (n : Number)
  | VString (s : string)
  | VArray (l : list Value)
  | VObject (fields : list (string * Value)).

Definition assoc (key : string) (fields : list (string * Value)) : option Value :=
  snd <$> List.find (fun '(k, _) => String.eqb k key) fields.
(** [value.get(key)], [value[key]] (null when absent) and [map[key]] on a
    [serde_json::Map] (a panic when absent). *)
Definition get (key : string) (value : Value) : option Value :=
  match value with VObject fields => assoc key fields | _ => None end.
Definition at_key (value : Value) (key : string) : Value := default VNull (get key value).
Definition map_index {E} (fields : list (string * Value)) (key : string) : outcome E Value :=
  match assoc key fields with Some v => Ok v | None => Panic "no entry found for key" end.

Definition as_str (value : Value) : option string :=
  match value with VString s => Some s | _ => None end.
Definition as_bool (value : Value) : option bool :=
  match value with VBool b => Some b | _ => None end.
Definition as_array (value : Value) : option (list Value) :=
  match value with VArray l => Some l | _ => None end.
Definition as_object (value : Value) : option (list (string * Value)) :=
  match value with VObject m => Some m | _ => None end.
Definition as_u64 (value : Value) : option N :=
  match value with VNumber (PosInt n) => Some n | _ => None end.
Definition as_i64 (value : Value) : option Z :=
  match value with
  | VNumber (PosInt n) => if n <? 2 ^ 63 then Some (Z.of_N n) else None
  | VNumber (NegInt z) => Some z
  | _ => None
  end.

(* ------------------------------------------------------------------ *)
(** ** Constants, metrics, errors *)

Definition MAX_LOG_RANGE : N := 1000.
Definition LOG_RESULT_CAP : N := 1000.
Definition MAX_LOG_RESULT_CAP : N := LOG_RESULT_CAP.
Definition MAX_RPC_RETRIES : N := 8.
Definition MAX_INITIAL_LOG_RANGE : N := 5000.
Definition MAX_LOG_REQUESTS_PER_CHUNK : N := 4096.
Definition MAX_LOG_BISECTIONS_PER_CHUNK : N := 2048.
Definition MAX_LOG_TRANSPORT_ATTEMPTS_PER_CHUNK : N :=
  MAX_LOG_REQUESTS_PER_CHUNK * (MAX_RPC_RETRIES + 1).
(** [Duration::from_secs(300)], in nanoseconds. *)
Definition MAX_LOG_CHUNK_DURATION : N := 300 * 10 ^ 9.
Definition MAX_TOPIC_OPTIONS : N := 64.

Record RpcMetrics := mkRpcMetrics {
  logical_requests : N;
  transport_attempts : N;
  transport_responses : N;
  transport_retries : N
}.

Record LogMetrics := mkLogMetrics {
  lm_requests : N;
  lm_bisections : N;
  lm_errors : N;
  lm_elapsed_ms : N
}.
Definition default_log_metrics : LogMetrics := mkLogMetrics 0 0 0 0.

Inductive RpcError :=
  | UnsupportedBatch
  | InvalidBatch
  | InvalidEndpoint
  | UnsupportedScheme
  | UntrustedDrpcEndpoint
  | InvalidTimeout (maximum_ms : N)
  | InvalidRetryPolicy
  | InvalidResponseLimit (maximum : N)
  | InvalidDrpcKey
  | Transport (method message : string)
  | HttpStatus (method : string) (status : N)
  | InvalidResponse (method message : string)
  | ResponseTooLarge (method : string) (limit : N)
  | JsonRpc (code : Z) (message : string)
  | InvalidLog (message : string)
  | LogCompleteness (count cap block : N)
  | InvalidLogPolicy
  | LogBudgetExceeded (what : string).

#[export] Instance RpcMetrics_eq_dec : EqDecision RpcMetrics.
Proof. solve_decision. Defined.
#[export] Instance LogMetrics_eq_dec : EqDecision LogMetrics.
Proof. solve_decision. Defined.
#[export] Instance RpcError_eq_dec : EqDecision RpcError.
Proof. solve_decision. Defined.

(** The trait [Rpc], the monotonic clock (nanoseconds) and [tokio]'s
    [timeout], which either finishes the computation within the duration or
    drops it. *)
Class RpcIface (W : Type) := {
  rpc_request : string → Value → io W RpcError Value;
  rpc_batch_request : string → list Value → io W RpcError (list Value);
  rpc_metrics : W → RpcMetrics;
  rpc_now : W → N * W;
  rpc_timeout : ∀ {A}, N → io W RpcError A → W → option (outcome RpcError A) * W
}.

Record RpcLog := mkRpcLog {
  log_address : string;
  log_topics : list string;
  log_data : string;
  log_block_number : N;
  log_transaction_hash : string;
  log_log_index : N
}.
#[export] Instance RpcLog_eq_dec : EqDecision RpcLog.
Proof. solve_decision. Defined.

Record LogFilter := mkLogFilter {
  filter_address : string;
  filter_topics : list Value
}.

(* ------------------------------------------------------------------ *)
(** ** Field parsers *)

Section Parse.
Context `{HexCrate}.

Definition hex_quantity (field : string) (value : Value) : outcome RpcError N :=
  text ← ok_or
    (value ← as_str value; value ← strip_prefix "0x" value;
     if str_is_empty value then None else Some value)
    (InvalidLog ("missing " +:+ field));
  ok_or (u64_from_str_radix16 text) (InvalidLog ("invalid " +:+ field)).

Definition exact_hex (field : string) (value : Value) (bytes : N) : outcome RpcError string :=
  text ← ok_or (as_str value) (InvalidLog ("missing " +:+ field));
  raw ← ok_or
    (raw ← strip_prefix "0x" text;
     if str_len raw =? saturating_mul bytes 2 then Some raw else None)
    (InvalidLog ("invalid " +:+ field));
  _ ← ok_or (hex_decode raw) (InvalidLog ("invalid " +:+ field));
  Ok (to_ascii_lowercase text).

Definition canonical_topic_filter (value : Value) (index : nat) : outcome RpcError Value :=
  let invalid := Err (InvalidLog ("invalid filter topics[" +:+ to_decimal (N.of_nat index) +:+ "]")) in
  match value with
  | VNull => Ok VNull
  | VString _ =>
      topic ← exact_hex ("filter topics[" +:+ to_decimal (N.of_nat index) +:+ "]") value 32;
      Ok (VString topic)
  | VArray options =>
      if negb (bool_decide (options = [])) && (N.of_nat (length options) <=? MAX_TOPIC_OPTIONS) then
        topics ← mapM_enum (fun option value =>
          exact_hex ("filter topics[" +:+ to_decimal (N.of_nat index) +:+ "][" +:+
            to_decimal (N.of_nat option) +:+ "]") value 32) options;
        Ok (VArray (map VString topics))
      else invalid
  | _ => invalid
  end.

Definition canonical_filter (filter : LogFilter) : outcome RpcError LogFilter :=
  _ ← bail_if (Nat.ltb 4 (length (filter_topics filter)))
        (InvalidLog "filter has more than four topics");
  address ← exact_hex "filter address" (VString (filter_address filter)) 20;
  topics ← mapM_enum (fun index topic => canonical_topic_filter topic index) (filter_topics filter);
  Ok (mkLogFilter address topics).

Definition topic_matches (filter : Value) (topic : string) : bool :=
  match filter with
  | VNull => true
  | VString expected => String.eqb expected topic
  | VArray options => existsb (fun expected => bool_decide (as_str expected = Some topic)) options
  | _ => false
  end.

Definition log_matches_filter (log : RpcLog) (filter : LogFilter) : bool :=
  forallb (fun '(index, expected) =>
    match log_topics log !! index with
    | Some actual => topic_matches expected actual
    | None => false
    end) (imap pair (filter_topics filter)).

Definition parse_log (value : Value) : outcome RpcError RpcLog :=
  _ ← match get "removed" value ≫= as_bool with
      | Some false => Ok tt
      | Some true => Err (InvalidLog "removed log returned for pinned range")
      | None => Err (InvalidLog "missing removed flag")
      end;
  address ← exact_hex "address" (at_key value "address") 20;
  topic_values ← ok_or (as_array (at_key value "topics")) (InvalidLog "missing topics");
  _ ← bail_if (Nat.ltb 4 (length topic_values)) (InvalidLog "log has more than four topics");
  topics ← mapM_enum (fun index topic =>
    exact_hex ("topics[" +:+ to_decimal (N.of_nat index) +:+ "]") topic 32) topic_values;
  data ← ok_or
    (text ← as_str (at_key value "data"); raw ← strip_prefix "0x" text;
     if N.even (str_len raw) && bool_decide (is_Some (hex_decode raw)) then Some text else None)
    (InvalidLog "invalid data");
  block_number ← hex_quantity "blockNumber" (at_key value "blockNumber");
  transaction_hash ← exact_hex "transactionHash" (at_key value "transactionHash") 32;
  log_index ← hex_quantity "logIndex" (at_key value "logIndex");
  Ok (mkRpcLog address topics (to_ascii_lowercase data) block_number transaction_hash log_index).

Definition range_limit_phrases : list string :=
  ["block range"; "range too large"; "range is too large"; "range too wide";
   "range is too wide"; "too many results"; "result size"; "results size"; "result set size";
   "result limit"; "results limit"; "response size"; "response too large"].

Definition range_limited (error : RpcError) : bool :=
  match error with
  | ResponseTooLarge _ _ => true
  | JsonRpc _ message =>
      let message := to_ascii_lowercase message in
      existsb (fun needle => str_contains needle message) range_limit_phrases
  | _ => false
  end.
End Parse.

(* ------------------------------------------------------------------ *)
(** ** Requests *)

Section Requests.
Context `{HexCrate} {W : Type} `{!RpcIface W}.

Definition clock {E} : io W E N := fun w => let '(t, w') := rpc_now w in (Ok t, w').
Definition transport_attempts_now {E} : io W E N :=
  fun w => (Ok (transport_attempts (rpc_metrics w)), w).

(** [format!("0x{n:x}")]. *)
Definition block_tag (n : N) : string := "0x" +:+ format_hex n.

(** Body of the loop of [fetch_logs]. *)
Definition accept_log (filter : LogFilter) (from to : N) (logs : list RpcLog) (value : Value) :
    outcome RpcError (list RpcLog) :=
  log ← parse_log value;
  _ ← bail_if ((log_block_number log <? from) || (to <? log_block_number log))
        (InvalidLog ("log at block " +:+ to_decimal (log_block_number log) +:+
           " is outside requested range " +:+ to_decimal from +:+ "..=" +:+ to_decimal to));
  _ ← bail_if (negb (String.eqb (log_address log) (filter_address filter)))
        (InvalidLog "log does not match requested address");
  _ ← bail_if (negb (log_matches_filter log filter))
        (InvalidLog "log does not match requested topics");
  Ok (logs ++ [log]).

Definition logs_request (filter : LogFilter) (from to : N) : Value :=
  VObject ([("address", VString (filter_address filter)); ("fromBlock", VString (block_tag from));
            ("toBlock", VString (block_tag to))] ++
           (if bool_decide (filter_topics filter = []) then []
            else [("topics", VArray (filter_topics filter))])).

Definition fetch_logs (filter : LogFilter) (from to : N) : io W RpcError (list RpcLog) :=
  result ← rpc_request "eth_getLogs" (VArray [logs_request filter from to]);
  values ← lift (ok_or (as_array result)
    (InvalidResponse "eth_getLogs" "result is not an array"));
  lift (fold_m (accept_log filter from to) [] values).

(** Body of the inner loop over one receipt's logs. *)
Definition accept_receipt_log (filter : LogFilter) (block : N) (block_hash transaction_hash : string)
    (output : list RpcLog) (value : Value) : outcome RpcError (list RpcLog) :=
  hash ← exact_hex "log blockHash" (at_key value "blockHash") 32;
  _ ← bail_if (negb (String.eqb hash block_hash)) (InvalidLog "receipt log block hash mismatch");
  log ← parse_log value;
  _ ← bail_if (negb (log_block_number log =? block) ||
               negb (String.eqb (log_transaction_hash log) transaction_hash))
        (InvalidLog "receipt log position does not match its receipt");
  if String.eqb (log_address log) (filter_address filter) && log_matches_filter log filter
  then Ok (output ++ [log]) else Ok output.

(** [a != b || ...]: later fields are not parsed once one differs. *)
Definition receipt_matches (block : N) (block_hash transaction_hash : string) (index : nat)
    (receipt : Value) : outcome RpcError bool :=
  number ← hex_quantity "receipt blockNumber" (at_key receipt "blockNumber");
  if negb (number =? block) then Ok false else
  hash ← exact_hex "receipt blockHash" (at_key receipt "blockHash") 32;
  if negb (String.eqb hash block_hash) then Ok false else
  position ← hex_quantity "receipt transactionIndex" (at_key receipt "transactionIndex");
  if negb (position =? N.of_nat index) then Ok false else
  transaction ← exact_hex "receipt transactionHash" (at_key receipt "transactionHash") 32;
  Ok (String.eqb transaction transaction_hash).

Definition accept_receipt (filter : LogFilter) (block : N) (block_hash : string)
    (transaction_hashes : list string) (index : nat) (output : list RpcLog) (receipt : Value) :
    outcome RpcError (list RpcLog) :=
  transaction_hash ← match transaction_hashes !! index with
                     | Some h => Ok h | None => Panic "index out of bounds" end;
  matches ← receipt_matches block block_hash transaction_hash index receipt;
  _ ← bail_if (negb matches)
        (InvalidLog "receipt does not match the requested canonical block");
  values ← ok_or (as_array (at_key receipt "logs"))
    (InvalidResponse "eth_getBlockReceipts" "receipt logs is not an array");
  fold_m (accept_receipt_log filter block block_hash transaction_hash) output values.

Definition fetch_block_receipt_logs (filter : LogFilter) (block : N) :
    io W RpcError (list RpcLog) :=
  block_value ← rpc_request "eth_getBlockByNumber"
    (VArray [VString (block_tag block); VBool false]);
  block_object ← lift (ok_or (as_object block_value)
    (InvalidResponse "eth_getBlockByNumber" "result is not an object"));
  number_value ← lift (map_index block_object "number");
  number ← lift (hex_quantity "block number" number_value);
  _ ← lift (bail_if (negb (number =? block))
              (InvalidLog "block response does not match requested number"));
  hash_value ← lift (map_index block_object "hash");
  block_hash ← lift (exact_hex "block hash" hash_value 32);
  transactions_value ← lift (map_index block_object "transactions");
  transaction_values ← lift (ok_or (as_array transactions_value)
    (InvalidResponse "eth_getBlockByNumber" "transactions is not an array"));
  transaction_hashes ← lift (mapM_enum (fun index hash =>
    exact_hex ("transactions[" +:+ to_decimal (N.of_nat index) +:+ "]") hash 32)
    transaction_values);
  _ ← lift (bail_if (negb (bool_decide (NoDup transaction_hashes)))
              (InvalidLog "block contains duplicate transaction hashes"));
  receipts_value ← rpc_request "eth_getBlockReceipts" (VArray [VString (block_tag block)]);
  receipts ← lift (ok_or (as_array receipts_value)
    (InvalidResponse "eth_getBlockReceipts" "result is not an array"));
  _ ← lift (bail_if (negb (Nat.eqb (length receipts) (length transaction_hashes)))
              (InvalidLog ("receipt count " +:+ to_decimal (N.of_nat (length receipts)) +:+
                 " does not match block transaction count " +:+
                 to_decimal (N.of_nat (length transaction_hashes)))));
  lift (fold_im (fun index output receipt =>
    accept_receipt filter block block_hash transaction_hashes index output receipt) [] receipts).

(* ------------------------------------------------------------------ *)
(** ** [get_logs_chunked] *)

(** State of the loop over the pending sub-ranges of one chunk; the stack's
    top is the head of the list. *)
Record ChunkState := mkChunkState {
  cs_pending : list (N * N);
  cs_chunk_requests : N;
  cs_chunk_bisections : N;
  cs_metrics : LogMetrics;
  cs_output : list RpcLog
}.

Definition add_requests (n : N) (m : LogMetrics) : LogMetrics :=
  mkLogMetrics (u64_add (lm_requests m) n) (lm_bisections m) (lm_errors m) (lm_elapsed_ms m).
Definition add_bisection (m : LogMetrics) : LogMetrics :=
  mkLogMetrics (lm_requests m) (u64_add (lm_bisections m) 1) (lm_errors m) (lm_elapsed_ms m).
Definition add_error (m : LogMetrics) : LogMetrics :=
  mkLogMetrics (lm_requests m) (lm_bisections m) (u64_add (lm_errors m) 1) (lm_elapsed_ms m).

(** [MAX_LOG_CHUNK_DURATION.checked_sub(chunk_started.elapsed())]. *)
Definition remaining_time (chunk_started : N) : io W RpcError N :=
  now ← clock;
  lift (ok_or (checked_sub MAX_LOG_CHUNK_DURATION (now - chunk_started))
          (LogBudgetExceeded "deadline")).

(** [timeout(remaining, m).await.map_err(deadline)?]: the inner result is a
    value; a panic of the computation ends the process. *)
Definition with_timeout {A} (remaining : N) (m : io W RpcError A) :
    io W RpcError (outcome RpcError A) :=
  fun w => match rpc_timeout remaining m w with
           | (Some (Panic s), w') => (Panic s, w')
           | (Some r, w') => (Ok r, w')
           | (None, w') => (Err (LogBudgetExceeded "deadline"), w')
           end.

Definition attempts_within (started : N) (over : N → bool) : io W RpcError unit :=
  attempts ← transport_attempts_now;
  lift (bail_if (over (saturating_sub attempts started)) (LogBudgetExceeded "transport-attempt")).

(** [middle = from + (to - from) / 2], upper half pushed first. *)
Definition bisect (from to : N) (st : ChunkState) : outcome RpcError ChunkState :=
  _ ← bail_if (MAX_LOG_BISECTIONS_PER_CHUNK <=? cs_chunk_bisections st)
        (LogBudgetExceeded "bisection");
  let middle := u64_add from (u64_sub to from / 2) in
  Ok (mkChunkState ((from, middle) :: (u64_add middle 1, to) :: cs_pending st)
        (cs_chunk_requests st) (u64_add (cs_chunk_bisections st) 1)
        (add_bisection (cs_metrics st)) (cs_output st)).

(** The receipt fallback for a single block. *)
Definition receipt_fallback (filter : LogFilter) (chunk_started from : N) (st : ChunkState) :
    io W RpcError ChunkState :=
  _ ← lift (bail_if (MAX_LOG_REQUESTS_PER_CHUNK <? saturating_add (cs_chunk_requests st) 2)
              (LogBudgetExceeded "logical-request"));
  let st := mkChunkState (cs_pending st) (u64_add (cs_chunk_requests st) 2)
              (cs_chunk_bisections st) (add_requests 2 (cs_metrics st)) (cs_output st) in
  remaining ← remaining_time chunk_started;
  result ← with_timeout remaining (fetch_block_receipt_logs filter from);
  receipt_logs ← lift result;
  mret (mkChunkState (cs_pending st) (cs_chunk_requests st) (cs_chunk_bisections st)
          (cs_metrics st) (cs_output st ++ receipt_logs)).

(** One iteration of the [while let Some((from, to)) = pending.pop()] loop. *)
Definition drain_step (filter : LogFilter) (result_cap chunk_started attempts_started from to : N)
    (st : ChunkState) : io W RpcError ChunkState :=
  _ ← lift (bail_if (MAX_LOG_REQUESTS_PER_CHUNK <=? cs_chunk_requests st)
              (LogBudgetExceeded "logical-request"));
  remaining ← remaining_time chunk_started;
  _ ← attempts_within attempts_started (fun n => MAX_LOG_TRANSPORT_ATTEMPTS_PER_CHUNK <=? n);
  let st := mkChunkState (cs_pending st) (u64_add (cs_chunk_requests st) 1)
              (cs_chunk_bisections st) (add_requests 1 (cs_metrics st)) (cs_output st) in
  fetched ← with_timeout remaining (fetch_logs filter from to);
  _ ← attempts_within attempts_started (fun n => MAX_LOG_TRANSPORT_ATTEMPTS_PER_CHUNK <? n);
  match fetched with
  | Panic s => lift (Panic s)
  | Err error =>
      let st := mkChunkState (cs_pending st) (cs_chunk_requests st) (cs_chunk_bisections st)
                  (add_error (cs_metrics st)) (cs_output st) in
      if range_limited error && (from =? to) then receipt_fallback filter chunk_started from st
      else if range_limited error && (from <? to) then lift (bisect from to st)
      else lift (Err error)
  | Ok logs =>
      if result_cap <=? N.of_nat (length logs) then
        if from =? to then
          st ← receipt_fallback filter chunk_started from st;
          _ ← attempts_within attempts_started
                (fun n => MAX_LOG_TRANSPORT_ATTEMPTS_PER_CHUNK <? n);
          mret st
        else lift (bisect from to st)
      else mret (mkChunkState (cs_pending st) (cs_chunk_requests st) (cs_chunk_bisections st)
                   (cs_metrics st) (cs_output st ++ logs))
  end.

Fixpoint drain (fuel : nat) (filter : LogFilter) (result_cap chunk_started attempts_started : N)
    (st : ChunkState) : io W RpcError ChunkState :=
  match fuel with
  | O => lift (Panic "out of fuel")
  | S fuel =>
      match cs_pending st with
      | [] => mret st
      | (from, to) :: pending =>
          st ← drain_step filter result_cap chunk_started attempts_started from to
                 (mkChunkState pending (cs_chunk_requests st) (cs_chunk_bisections st)
                    (cs_metrics st) (cs_output st));
          drain fuel filter result_cap chunk_started attempts_started st
      end
  end.

(** Each iteration spends at least one request of the chunk's budget. *)
Definition drain_fuel : nat := 4098.

(** One chunk of at most [max_range] blocks. *)
Definition fetch_chunk (filter : LogFilter) (result_cap chunk_start chunk_end : N)
    (metrics : LogMetrics) (output : list RpcLog) : io W RpcError (LogMetrics * list RpcLog) :=
  chunk_started ← clock;
  attempts_started ← transport_attempts_now;
  st ← drain drain_fuel filter result_cap chunk_started attempts_started
         (mkChunkState [(chunk_start, chunk_end)] 0 0 metrics output);
  mret (cs_metrics st, cs_output st).

(** The [while chunk_start <= to_block] loop. *)
Fixpoint fetch_chunks (fuel : nat) (filter : LogFilter) (max_range result_cap to_block chunk_start : N)
    (metrics : LogMetrics) (output : list RpcLog) : io W RpcError (LogMetrics * list RpcLog) :=
  match fuel with
  | O => lift (Panic "out of fuel")
  | S fuel =>
      if chunk_start <=? to_block then
        let chunk_end := N.min (saturating_add chunk_start (u64_sub max_range 1)) to_block in
        '(metrics, output) ← fetch_chunk filter result_cap chunk_start chunk_end metrics output;
        if chunk_end =? u64_max then mret (metrics, output)
        else fetch_chunks fuel filter max_range result_cap to_block (u64_add chunk_end 1)
               metrics output
      else mret (metrics, output)
  end.

Definition log_position (log : RpcLog) : N * N := (log_block_number log, log_log_index log).

(** The [seen] loop: the first repeated position. *)
Definition check_position (seen : gset (N * N)) (log : RpcLog) : outcome RpcError (gset (N * N)) :=
  _ ← bail_if (bool_decide (log_position log ∈ seen))
        (InvalidLog ("duplicate log position " +:+ to_decimal (log_block_number log) +:+ ":" +:+
           to_decimal (log_log_index log)));
  Ok ({[log_position log]} ∪ seen).

Definition get_logs_chunked (filter : LogFilter) (from_block to_block max_range result_cap : N) :
    io W RpcError (list RpcLog * LogMetrics) :=
  _ ← lift (bail_if ((max_range =? 0) || (MAX_INITIAL_LOG_RANGE <? max_range) ||
                     (result_cap =? 0) || (MAX_LOG_RESULT_CAP <? result_cap)) InvalidLogPolicy);
  filter ← lift (canonical_filter filter);
  if to_block <? from_block then mret ([], default_log_metrics)
  else
    started ← clock;
    '(metrics, output) ← fetch_chunks (S (S (N.to_nat (to_block - from_block)))) filter max_range
        result_cap to_block from_block default_log_metrics [];
    let output := sort_by_key log_position output in
    _ ← lift (fold_m check_position ∅ output);
    finished ← clock;
    let elapsed_ms := N.min ((finished - started) / 10 ^ 6) u64_max in
    mret (output, mkLogMetrics (lm_requests metrics) (lm_bisections metrics) (lm_errors metrics)
                    elapsed_ms).
End Requests.

(* ------------------------------------------------------------------ *)
(** ** Helper lemmas: accepted logs *)

Section RpcFacts.
Context `{HexCrate} {W : Type} `{!RpcIface W}.

Definition log_accepted (filter : LogFilter) (from to : N) (log : RpcLog) : Prop :=
  from ≤ log_block_number log ∧ log_block_number log ≤ to ∧
  log_address log = filter_address filter ∧ log_matches_filter log filter = true.

Lemma accept_log_ok filter from to logs v logs' :
  accept_log filter from to logs v = Ok logs' →
  ∃ log, parse_log v = Ok log ∧ logs' = logs ++ [log] ∧ log_accepted filter from to log.
Proof.
  unfold accept_log, log_accepted.
  intros (log & Hp & (? & H1 & (? & H2 & (? & H3 & [= <-])%bind_ok)%bind_ok)%bind_ok)%bind_ok.
  apply bail_if_ok in H1, H2, H3. apply orb_false_iff in H1 as [?%N.ltb_ge ?%N.ltb_ge].
  apply negb_false_iff in H2, H3. apply String.eqb_eq in H2. exists log. auto 10.
Qed.

Lemma accept_logs_ok filter from to vs logs :
  fold_m (accept_log filter from to) [] vs = Ok logs → Forall (log_accepted filter from to) logs.
Proof.
  apply (fold_m_inv _ (fun _ logs => Forall (log_accepted filter from to) logs)); [constructor|].
  intros _ v ls ls' Hf (log & _ & -> & Hacc)%accept_log_ok. by apply Forall_app; split; [|constructor].
Qed.

Lemma fetch_logs_ok filter from to w logs w' :
  fetch_logs filter from to w = (Ok logs, w') → Forall (log_accepted filter from to) logs.
Proof.
  unfold fetch_logs. intros Hf. inv_all_ok. by eapply accept_logs_ok.
Qed.

Lemma accept_receipt_log_ok filter block bh th out v out' :
  accept_receipt_log filter block bh th out v = Ok out' →
  out' = out ∨ ∃ log, out' = out ++ [log] ∧ log_accepted filter block block log.
Proof.
  unfold accept_receipt_log.
  intros (h & Hh & (? & H1 & (log & Hp & (? & H2 & H3)%bind_ok)%bind_ok)%bind_ok)%bind_ok.
  apply bail_if_ok in H2. apply orb_false_iff in H2 as [Hb _].
  apply negb_false_iff, N.eqb_eq in Hb.
  destruct (String.eqb (log_address log) (filter_address filter)) eqn:Ea;
    destruct (log_matches_filter log filter) eqn:Em; cbn in H3; injection H3 as <-; auto.
  right. exists log. split; [done|]. apply String.eqb_eq in Ea. unfold log_accepted.
  rewrite Hb. split; [done|]. split; [done|]. by split.
Qed.

Lemma fold_im_inv {E S A} (f : nat → S → A → outcome E S) (P : S → Prop) :
  (∀ i x s s', P s → f i s x = Ok s' → P s') →
  ∀ l i s s', P s → fold_im_from i f s l = Ok s' → P s'.
Proof.
  intros Hstep l. induction l as [|x l IH]; intros i s s' Hs; cbn [fold_im_from].
  - by intros [= <-].
  - intros (s1 & H1 & H2)%bind_ok. by eapply IH; [|exact H2]; eapply Hstep.
Qed.

Lemma accept_receipt_ok filter block bh ths i out v out' :
  Forall (log_accepted filter block block) out →
  accept_receipt filter block bh ths i out v = Ok out' →
  Forall (log_accepted filter block block) out'.
Proof.
  unfold accept_receipt. intros Hf.
  intros (th & Hth & (m & Hm & (? & H1 & (vs & Hvs & Hfold)%bind_ok)%bind_ok)%bind_ok)%bind_ok.
  revert Hfold. apply (fold_m_inv _ (fun _ out => Forall (log_accepted filter block block) out));
    [done|].
  intros _ v' o o' Ho [->|(log & -> & Hacc)]%accept_receipt_log_ok; [done|].
  by apply Forall_app; split; [|constructor].
Qed.

Lemma fetch_receipts_ok filter block w logs w' :
  fetch_block_receipt_logs filter block w = (Ok logs, w') →
  Forall (log_accepted filter block block) logs.
Proof.
  unfold fetch_block_receipt_logs. intros Hf.
  repeat (apply io_bind_ok in Hf as (? & ? & _ & Hf)).
  apply lift_ok in Hf as [Hf _]. revert Hf. apply fold_im_inv; [|constructor].
  intros. by eapply accept_receipt_ok.
Qed.

(* ------------------------------------------------------------------ *)
(** ** Helper lemmas: the pieces of a chunked query *)

(** Contiguous non-empty ranges from [a] up to (not including) [e]. *)
Fixpoint tiles (a : N) (l : list (N * N)) (e : N) : Prop :=
  match l with
  | [] => a = e
  | (x, y) :: l => x = a ∧ x ≤ y ∧ tiles (y + 1) l e
  end.

Lemma tiles_app a l k e : tiles a (l ++ k) e ↔ ∃ m, tiles a l m ∧ tiles m k e.
Proof.
  revert a. induction l as [|[x y] l IH]; intros a; cbn [app tiles]; [naive_solver|].
  rewrite IH. naive_solver.
Qed.

Lemma tiles_le a l e : tiles a l e → a ≤ e.
Proof.
  revert a. induction l as [|[x y] l IH]; intros a; cbn [tiles]; [lia|].
  intros (-> & Hxy & Ht%IH). lia.
Qed.

(** A piece: a range with the logs that one successful read returned for it,
    either an [eth_getLogs] answer below the cap or one block's receipts. *)
Definition produced (filter : LogFilter) (result_cap : N) (p : N * N * list RpcLog) : Prop :=
  let '((from, to), logs) := p in
  ∃ w w', (fetch_logs filter from to w = (Ok logs, w') ∧ N.of_nat (length logs) < result_cap) ∨
          (from = to ∧ fetch_block_receipt_logs filter from w = (Ok logs, w')).

Definition piece_logs (ps : list (N * N * list RpcLog)) : list RpcLog := mjoin (map snd ps).

(** The behaviour of [tokio::time::timeout] the program relies on: a result
    within the deadline is the computation's result. *)
Class RpcLaws : Prop := {
  rpc_timeout_done : ∀ {A} d (m : io W RpcError A) w r w',
    rpc_timeout d m w = (Some r, w') → m w = (r, w')
}.
Context `{!RpcLaws}.

Lemma with_timeout_ok {A} d (m : io W RpcError A) w r w' :
  with_timeout d m w = (Ok r, w') → m w = (r, w').
Proof.
  unfold with_timeout. destruct (rpc_timeout d m w) as [[[a|e|s]|] w1] eqn:E;
    intros [= <- <-]; by apply rpc_timeout_done in E.
Qed.

Lemma attempts_within_ok started over w u w' :
  attempts_within started over w = (Ok u, w') → w' = w.
Proof.
  unfold attempts_within. intros (a & w1 & Ha & H2)%io_bind_ok. apply lift_ok in H2 as [_ ->].
  unfold transport_attempts_now in Ha. congruence.
Qed.

Lemma bisect_ok from to st st' : to ≤ u64_max → from < to → bisect from to st = Ok st' →
  ∃ m, from ≤ m ∧ m < to ∧ cs_pending st' = (from, m) :: (m + 1, to) :: cs_pending st ∧
    cs_output st' = cs_output st ∧ cs_chunk_requests st' = cs_chunk_requests st.
Proof.
  intros Ht Hlt (? & _ & [= <-])%bind_ok. simpl.
  rewrite (u64_sub_small to from) by (unfold u64_max, u64_modulus in *; lia).
  assert ((to - from) / 2 < to - from) as Hh by (apply N.div_lt; lia).
  revert Hh. generalize ((to - from) / 2). intros h Hh.
  rewrite (u64_add_small from) by (unfold u64_max, u64_modulus in *; lia).
  exists (from + h).
  rewrite (u64_add_small _ 1) by (unfold u64_max, u64_modulus in *; lia).
  split; [lia|]. split; [lia|]. done.
Qed.

Lemma receipt_fallback_ok filter cap t b st w st' w' :
  receipt_fallback filter t b st w = (Ok st', w') →
  ∃ logs, produced filter cap (b, b, logs) ∧ cs_pending st' = cs_pending st ∧
    cs_output st' = cs_output st ++ logs ∧ cs_chunk_requests st < cs_chunk_requests st'.
Proof.
  unfold receipt_fallback.
  intros (u & w1 & H1 & (rem & w2 & H2 & (r & w3 & H3 & (logs & w4 & H4 & H5)%io_bind_ok)
    %io_bind_ok)%io_bind_ok)%io_bind_ok.
  apply lift_ok in H1 as [H1%bail_if_ok%N.ltb_ge ->]. apply with_timeout_ok in H3.
  apply lift_ok in H4 as [-> ->]. apply io_ret_ok in H5 as [<- <-]. exists logs. simpl.
  split; [|split; [done|split; [done|]]].
  - exists w2, w3. by right.
  - rewrite (u64_add_unsaturated _ _ _ H1) by reflexivity. lia.
Qed.

(** Each iteration of the drain loop reads one piece or bisects it. *)
Lemma drain_step_ok filter cap t att from to st w st' w' :
  from ≤ to → to ≤ u64_max →
  drain_step filter cap t att from to st w = (Ok st', w') →
  cs_chunk_requests st < cs_chunk_requests st' ∧
  ((∃ logs, produced filter cap (from, to, logs) ∧ cs_pending st' = cs_pending st ∧
      cs_output st' = cs_output st ++ logs) ∨
   (∃ m, from ≤ m ∧ m < to ∧ cs_pending st' = (from, m) :: (m + 1, to) :: cs_pending st ∧
      cs_output st' = cs_output st)).
Proof.
  intros Hft Hto. unfold drain_step.
  intros (u & w1 & H1 & (rem & w2 & H2 & (u2 & w3 & H3 & (r & w4 & H4 & (u3 & w5 & H5 & H6)
    %io_bind_ok)%io_bind_ok)%io_bind_ok)%io_bind_ok)%io_bind_ok.
  apply lift_ok in H1 as [H1%bail_if_ok%N.leb_gt ->]. apply attempts_within_ok in H5 as ->.
  apply with_timeout_ok in H4. unfold MAX_LOG_REQUESTS_PER_CHUNK in H1.
  assert (u64_add (cs_chunk_requests st) 1 = cs_chunk_requests st + 1) as Hreq
    by (apply u64_add_small; unfold u64_modulus; lia).
  destruct r as [logs|error|s]; [| |by apply lift_ok in H6 as [? _]].
  - destruct (N.leb_spec cap (N.of_nat (length logs))) as [Hcap|Hcap].
    + destruct (N.eqb_spec from to) as [<-|Hne].
      * apply io_bind_ok in H6 as (st2 & w6 & H6 & (u4 & w7 & _ & H7)%io_bind_ok).
        apply io_ret_ok in H7 as [<- _].
        apply (receipt_fallback_ok _ cap) in H6 as (ls & Hp & Hpend & Hout & Hlt). simpl in *.
        split; [lia|]. left. eauto.
      * apply lift_ok in H6 as [H6 _].
        apply bisect_ok in H6 as (m & ? & ? & Hp & Ho & Hc); [|lia..]. simpl in *.
        split; [lia|]. right. eauto 10.
    + apply io_ret_ok in H6 as [<- _]. simpl. split; [lia|]. left. exists logs.
      split; [|done]. exists w3, w4. by left.
  - destruct (range_limited error); cbn [andb] in H6; [|by apply lift_ok in H6 as [? _]].
    destruct (N.eqb_spec from to) as [<-|Hne].
    + apply (receipt_fallback_ok _ cap) in H6 as (ls & Hp & Hpend & Hout & Hlt). simpl in *.
      split; [lia|]. left. eauto.
    + rewrite (proj2 (N.ltb_lt from to)) in H6 by lia. apply lift_ok in H6 as [H6 _].
      apply bisect_ok in H6 as (m & ? & ? & Hp & Ho & Hc); [|lia..]. simpl in *.
      split; [lia|]. right. eauto 10.
Qed.

Lemma drain_ok fuel : ∀ filter cap t att st w st' w' c e,
  tiles c (cs_pending st) e → e ≤ u64_max + 1 →
  drain fuel filter cap t att st w = (Ok st', w') →
  ∃ ps, tiles c (map fst ps) e ∧ Forall (produced filter cap) ps ∧
    cs_output st' = cs_output st ++ piece_logs ps.
Proof.
  induction fuel as [|fuel IH]; intros filter cap t att st w st' w' c e Ht He; cbn [drain].
  { intros [? _]%lift_ok. done. }
  destruct (cs_pending st) as [|[from to] pending] eqn:Ep.
  { intros [<- _]%io_ret_ok. exists []. by rewrite app_nil_r. }
  cbn [tiles] in Ht. destruct Ht as (-> & Hle & Ht). pose proof (tiles_le _ _ _ Ht) as Hte.
  intros (st1 & w1 & Hstep & Hrest)%io_bind_ok.
  destruct (drain_step_ok _ _ _ _ _ _ _ _ _ _ Hle ltac:(lia) Hstep)
    as [_ [(logs & Hp & Hpend & Hout)|(m & H1 & H2 & Hpend & Hout)]]; simpl in Hpend, Hout.
  - eapply (IH _ _ _ _ _ _ _ _ (to + 1) e) in Hrest as (ps & Htl & Hall & Ho);
      [|by rewrite Hpend|done].
    exists ((c, to, logs) :: ps). cbn [map fst tiles]. split; [done|]. split; [by constructor|].
    rewrite Ho, Hout, <-app_assoc. done.
  - eapply (IH _ _ _ _ _ _ _ _ c e) in Hrest as (ps & Htl & Hall & Ho); [| |done].
    + exists ps. by rewrite Ho, Hout.
    + rewrite Hpend. cbn [tiles]. split; [done|]. split; [lia|]. split; [done|]. by split; [lia|].
Qed.

Lemma fetch_chunks_ok fuel : ∀ filter mr cap to start metrics out w metrics' out' w',
  0 < mr → to ≤ u64_max → start ≤ to + 1 →
  fetch_chunks fuel filter mr cap to start metrics out w = (Ok (metrics', out'), w') →
  ∃ ps, tiles start (map fst ps) (to + 1) ∧ Forall (produced filter cap) ps ∧
    out' = out ++ piece_logs ps.
Proof.
  induction fuel as [|fuel IH]; intros filter mr cap to start metrics out w metrics' out' w' Hmr Hto
    Hst; cbn [fetch_chunks].
  { intros [? _]%lift_ok. done. }
  destruct (N.leb_spec start to) as [Hle|Hgt].
  2: { intros [[= <- <-] _]%io_ret_ok. exists []. rewrite app_nil_r. cbn. split; [lia|done]. }
  set (ce := N.min (saturating_add start (u64_sub mr 1)) to).
  assert (start ≤ ce) as Hce by (unfold ce, saturating_add; lia).
  assert (ce ≤ to) as Hce' by (unfold ce; lia).
  intros ([m1 o1] & w1 & Hchunk & Hrest)%io_bind_ok. unfold fetch_chunk in Hchunk.
  apply io_bind_ok in Hchunk as (t & w2 & _ & (att & w3 & _ & (st & w4 & Hd & Hr)%io_bind_ok)
    %io_bind_ok).
  apply io_ret_ok in Hr as [[= <- <-] _].
  apply (drain_ok _ _ _ _ _ _ _ _ _ start (ce + 1)) in Hd as (ps & Htl & Hall & Ho);
    [|by cbn|lia]. simpl in Ho.
  destruct (N.eqb_spec ce u64_max) as [Emax|Hne].
  - apply io_ret_ok in Hrest as [[= <- <-] _]. exists ps. rewrite Ho.
    assert (ce = to) as -> by lia. done.
  - rewrite u64_add_small in Hrest by (unfold u64_max, u64_modulus in *; lia).
    apply IH in Hrest as (ps' & Htl' & Hall' & ->); [|done|done|lia].
    exists (ps ++ ps'). rewrite map_app, tiles_app. split; [by eexists|].
    split; [by apply Forall_app|]. rewrite Ho, <-app_assoc. unfold piece_logs.
    by rewrite map_app, join_app.
Qed.

(* ------------------------------------------------------------------ *)
(** ** Helper lemmas: termination and panics *)

Definition missing_key (s : string) : Prop := s = "no entry found for key".

Lemma hex_quantity_no_panic f v : no_panic (hex_quantity f v).
Proof. unfold hex_quantity. solve_no_panic. Qed.
Lemma exact_hex_no_panic f v b : no_panic (exact_hex f v b).
Proof. unfold exact_hex. solve_no_panic. Qed.
Hint Resolve hex_quantity_no_panic exact_hex_no_panic : no_panic.

Lemma mapM_enum_no_panic {E A B} (f : nat → A → outcome E B) l :
  (∀ i x, no_panic (f i x)) → no_panic (mapM_enum f l).
Proof.
  intros Hf. unfold mapM_enum. generalize 0%nat. induction l as [|x l IH]; intros i;
    cbn [mapM_from]; [apply no_panic_mret|]. apply no_panic_bind; [done|]. intros ? _.
  apply no_panic_bind; [apply IH|]. intros ? _. apply no_panic_mret.
Qed.
Hint Resolve mapM_enum_no_panic : no_panic.

Lemma parse_log_no_panic v : no_panic (parse_log v).
Proof. unfold parse_log. solve_no_panic. Qed.
Hint Resolve parse_log_no_panic : no_panic.

Lemma canonical_filter_no_panic f : no_panic (canonical_filter f).
Proof.
  unfold canonical_filter, canonical_topic_filter. solve_no_panic.
  apply mapM_enum_no_panic. intros. solve_no_panic.
Qed.

Context (Hrpc : ∀ method params, panics_only (fun _ => False) (rpc_request (W := W) method params)).

Lemma request_panics P method params : panics_only P (rpc_request (W := W) method params).
Proof. intros w s w' Hs. by destruct (Hrpc _ _ _ _ _ Hs). Qed.
Hint Resolve request_panics : panics.

Lemma fetch_logs_panics P filter from to : panics_only P (fetch_logs filter from to).
Proof. unfold fetch_logs, accept_log. solve_panics. apply no_panic_fold_m. intros. solve_no_panic. Qed.

Lemma receipts_no_panic filter block bh ths receipts : ∀ i out,
  (i + length receipts ≤ length ths)%nat →
  no_panic (fold_im_from i (fun index output receipt =>
    accept_receipt filter block bh ths index output receipt) out receipts).
Proof.
  induction receipts as [|r receipts IH]; intros i out Hl; cbn [fold_im_from];
    [apply no_panic_mret|]. cbn [length] in Hl.
  apply no_panic_bind; [|intros out' _; apply IH; lia].
  unfold accept_receipt. destruct (lookup_lt_is_Some_2 ths i) as [th ->]; [lia|].
  unfold receipt_matches, accept_receipt_log. solve_no_panic.
Qed.

Lemma mapM_from_length {E A B} (f : nat → A → outcome E B) l : ∀ i k,
  mapM_from i f l = Ok k → length k = length l.
Proof.
  induction l as [|x l IH]; intros i k; cbn [mapM_from]; [by intros [= <-]|].
  intros (y & _ & (ys & Hys & [= <-])%bind_ok)%bind_ok. simpl. f_equal. by eapply IH.
Qed.

Lemma map_index_panics {E} fields key :
  panics_only missing_key (lift (map_index fields key) : io W E Value).
Proof.
  apply panics_only_lift_panic. intros s. unfold map_index, missing_key.
  destruct (assoc key fields); [done|]. by intros [= <-].
Qed.
Hint Resolve map_index_panics : panics.

Lemma fetch_receipts_panics filter block :
  panics_only missing_key (fetch_block_receipt_logs filter block).
Proof.
  unfold fetch_block_receipt_logs.
  repeat (apply panics_only_bind; [solve [eauto with panics no_panic]|intros ? ? ? ?]).
  apply panics_only_lift. apply receipts_no_panic.
  match goal with H : lift (bail_if (negb (Nat.eqb ?a ?b)) _) _ = _ |- _ =>
    apply lift_ok in H as [H%bail_if_ok%negb_false_iff%Nat.eqb_eq _] end.
  lia.
Qed.

Lemma with_timeout_panics {A} P d (m : io W RpcError A) :
  panics_only P m → panics_only P (with_timeout d m).
Proof.
  intros Hm w s w'. unfold with_timeout.
  destruct (rpc_timeout d m w) as [[[a|e|t]|] w1] eqn:E; intros [=]; subst.
  apply rpc_timeout_done in E. by eapply Hm.
Qed.

Lemma clock_panics {E} P : panics_only P (clock (E := E)).
Proof. intros w s w'. unfold clock. by destruct (rpc_now w). Qed.
Lemma attempts_now_panics {E} P : panics_only P (transport_attempts_now (E := E)).
Proof. intros w s w'. unfold transport_attempts_now. done. Qed.
Hint Resolve clock_panics attempts_now_panics with_timeout_panics fetch_logs_panics
  fetch_receipts_panics : panics.

Lemma remaining_time_panics P t : panics_only P (remaining_time t).
Proof. unfold remaining_time. solve_panics. Qed.
Lemma attempts_within_panics P a f : panics_only P (attempts_within a f).
Proof. unfold attempts_within. solve_panics. Qed.
Hint Resolve remaining_time_panics attempts_within_panics : panics.

Lemma receipt_fallback_panics filter t b st :
  panics_only missing_key (receipt_fallback filter t b st).
Proof.
  unfold receipt_fallback.
  repeat (apply panics_only_bind; [|intros ? ? ? ?]); eauto with panics no_panic.
  match goal with H : with_timeout _ _ _ = (Ok ?r, _) |- _ => rename H into Hr end.
  apply with_timeout_ok in Hr. apply panics_only_lift_panic. intros s ->.
  by eapply fetch_receipts_panics.
Qed.
Hint Resolve receipt_fallback_panics : panics.

Lemma drain_step_panics filter cap t att from to st :
  panics_only missing_key (drain_step filter cap t att from to st).
Proof.
  unfold drain_step.
  do 5 (apply panics_only_bind; [eauto with panics no_panic|intros ? ? ? ?]).
  match goal with H : with_timeout _ _ _ = (Ok ?r, _) |- _ =>
    apply with_timeout_ok in H; destruct r as [logs|error|s] end.
  - unfold bisect. solve_panics.
  - unfold bisect. solve_panics.
  - match goal with H : fetch_logs _ _ _ _ = _ |- _ =>
      by destruct (fetch_logs_panics (fun _ => False) _ _ _ _ _ _ H) end.
Qed.

Lemma drain_step_requests filter cap t att from to st w st' w' :
  drain_step filter cap t att from to st w = (Ok st', w') →
  cs_chunk_requests st < cs_chunk_requests st' ∧ cs_chunk_requests st < MAX_LOG_REQUESTS_PER_CHUNK.
Proof.
  assert (∀ s s', bisect from to s = Ok s' → cs_chunk_requests s' = cs_chunk_requests s) as Hbis.
  { unfold bisect. by intros s s' (? & _ & [= <-])%bind_ok. }
  unfold drain_step.
  intros (u & w1 & H1 & (rem & w2 & _ & (u2 & w3 & _ & (r & w4 & _ & (u3 & w5 & _ & H6)
    %io_bind_ok)%io_bind_ok)%io_bind_ok)%io_bind_ok)%io_bind_ok.
  apply lift_ok in H1 as [H1%bail_if_ok%N.leb_gt ->]. split; [|done].
  assert (u64_add (cs_chunk_requests st) 1 = cs_chunk_requests st + 1) as Hreq
    by (apply u64_add_small; unfold MAX_LOG_REQUESTS_PER_CHUNK, u64_modulus in *; lia).
  destruct r as [logs|error|s]; [| |by apply lift_ok in H6 as [? _]].
  - destruct (cap <=? _); [destruct (from =? to)|].
    + apply io_bind_ok in H6 as (st2 & w6 & H6 & (u4 & w7 & _ & H7)%io_bind_ok).
      apply io_ret_ok in H7 as [<- _].
      apply (receipt_fallback_ok _ cap) in H6 as (ls & _ & _ & _ & Hlt). simpl in *. lia.
    + apply lift_ok in H6 as [->%Hbis _]. simpl. lia.
    + apply io_ret_ok in H6 as [<- _]. simpl. lia.
  - destruct (range_limited error && (from =? to)); [|destruct (range_limited error && (from <? to))].
    + apply (receipt_fallback_ok _ cap) in H6 as (ls & _ & _ & _ & Hlt). simpl in *. lia.
    + apply lift_ok in H6 as [->%Hbis _]. simpl. lia.
    + by apply lift_ok in H6 as [? _].
Qed.

(** The request budget bounds the iterations: this much fuel is enough. *)
Lemma drain_panics fuel : ∀ filter cap t att st,
  (N.to_nat (MAX_LOG_REQUESTS_PER_CHUNK + 1 - cs_chunk_requests st) < fuel)%nat →
  panics_only missing_key (drain fuel filter cap t att st).
Proof.
  induction fuel as [|fuel IH]; intros filter cap t att st Hf; [lia|]. cbn [drain].
  destruct (cs_pending st) as [|[from to] pending]; [apply panics_only_mret|].
  apply panics_only_bind; [apply drain_step_panics|]. intros w st' w' Hstep.
  apply drain_step_requests in Hstep as [H1 H2]. simpl in *. apply IH. lia.
Qed.

Lemma fetch_chunks_panics fuel : ∀ filter mr cap to start metrics out,
  to ≤ u64_max → (N.to_nat (to + 1 - start) < fuel)%nat →
  panics_only missing_key (fetch_chunks fuel filter mr cap to start metrics out).
Proof.
  induction fuel as [|fuel IH]; intros filter mr cap to start metrics out Hto Hf; [lia|].
  cbn [fetch_chunks]. destruct (N.leb_spec start to) as [Hle|]; [|apply panics_only_mret].
  apply panics_only_bind.
  - unfold fetch_chunk. apply panics_only_bind; [apply clock_panics|]. intros ? t ? _.
    apply panics_only_bind; [apply attempts_now_panics|]. intros ? att ? _.
    apply panics_only_bind; [|intros; apply panics_only_mret].
    apply drain_panics. unfold drain_fuel, MAX_LOG_REQUESTS_PER_CHUNK. cbn [cs_chunk_requests]. lia.
  - intros w [m o] w' _.
    set (ce := N.min (saturating_add start (u64_sub mr 1)) to).
    destruct (N.eqb_spec ce u64_max) as [|Hne]; [apply panics_only_mret|].
    assert (start ≤ ce) by (unfold ce, saturating_add; lia).
    assert (ce ≤ to) by (unfold ce; lia).
    rewrite u64_add_small by (unfold u64_max, u64_modulus in *; lia). apply IH; [done|lia].
Qed.
End RpcFacts.

(* ------------------------------------------------------------------ *)
(** ** Theorems *)

Definition logs_between (ledger : list RpcLog) (a b : N) : list RpcLog :=
  filter (fun log => a ≤ log_block_number log ∧ log_block_number log ≤ b) ledger.

Section RpcTheorems.
Context `{HexCrate} {W : Type} `{!RpcIface W} `{!RpcLaws}.

Lemma check_positions_ok logs seen :
  fold_m check_position ∅ logs = Ok seen →
  seen = list_to_set (map log_position logs) ∧ NoDup (map log_position logs).
Proof.
  intros Hf. apply (fold_m_inv check_position (fun logs seen =>
    seen = list_to_set (map log_position logs) ∧ NoDup (map log_position logs))) in Hf; [done|..].
  - split; [done|constructor].
  - clear. intros logs log seen seen' [-> Hnd] (? & Hd & [= <-])%bind_ok.
    apply bail_if_ok, bool_decide_eq_false in Hd. rewrite elem_of_list_to_set in Hd.
    rewrite map_app, list_to_set_app_L. cbn [map]. split; [set_solver|].
    apply NoDup_app. split; [done|]. split; [|apply NoDup_singleton].
    intros z Hz Hz'%list_elem_of_singleton. by subst.
Qed.

Lemma get_logs_chunked_ok filter from to mr cap w logs m w' :
  to ≤ u64_max → from ≤ to → get_logs_chunked filter from to mr cap w = (Ok (logs, m), w') →
  ∃ f ps, canonical_filter filter = Ok f ∧ tiles from (map fst ps) (to + 1) ∧
    Forall (produced f cap) ps ∧ logs = sort_by_key log_position (piece_logs ps) ∧
    StronglySorted (key_lt_on log_position) logs.
Proof.
  intros Hto Hft. unfold get_logs_chunked.
  intros (u & w1 & H1 & (f & w2 & H2 & H3)%io_bind_ok)%io_bind_ok.
  apply lift_ok in H1 as [H1%bail_if_ok ->]. apply lift_ok in H2 as [H2 ->].
  repeat (apply orb_false_iff in H1 as [H1 ?]). apply N.eqb_neq in H1.
  rewrite (proj2 (N.ltb_ge to from) Hft) in H3.
  apply io_bind_ok in H3 as (t & w3 & _ & ([m1 out] & w4 & Hf & (seen & w5 & Hc &
    (t2 & w6 & _ & Hr)%io_bind_ok)%io_bind_ok)%io_bind_ok).
  apply io_ret_ok in Hr as [[= Hl _] _]. apply lift_ok in Hc as [Hc _].
  apply check_positions_ok in Hc as [_ Hnd].
  apply fetch_chunks_ok in Hf as (ps & Htl & Hall & Ho); [|lia|done|lia].
  cbn [app] in Ho. subst out. exists f, ps. rewrite Hl in *. split; [done|]. split; [done|].
  split; [done|]. split; [done|]. subst logs.
  apply sorted_nodup_strict; [apply sort_by_key_sorted|done].
Qed.

Lemma pieces_accepted f cap to ps : ∀ c from, from ≤ c → tiles c (map fst ps) (to + 1) →
  Forall (produced f cap) ps → Forall (log_accepted f from to) (piece_logs ps).
Proof.
  induction ps as [|[[a b] ls] ps IH]; intros c from Hc Htl Hall; [constructor|].
  cbn [map fst tiles] in Htl. destruct Htl as (-> & Hab & Htl).
  apply Forall_cons in Hall as [Hp Hall]. unfold piece_logs. cbn [map snd mjoin list_join].
  apply Forall_app. split; [|apply (IH (b + 1) from); [lia|done|done]].
  apply tiles_le in Htl. unfold produced in Hp.
  assert (Forall (log_accepted f c b) ls) as Hls.
  { destruct Hp as (w1 & w2 & [[Hp _]|[-> Hp]]);
      [by eapply fetch_logs_ok|by eapply fetch_receipts_ok]. }
  eapply Forall_impl; [exact Hls|]. intros log (? & ? & ? & ?).
  split; [lia|]. split; [lia|done].
Qed.

(** Logs from block [a] on and before block [e]. *)
Definition logs_until (ledger : list RpcLog) (a e : N) : list RpcLog :=
  filter (fun log => a ≤ log_block_number log ∧ log_block_number log < e) ledger.

Lemma logs_until_between ledger a b : logs_until ledger a (b + 1) = logs_between ledger a b.
Proof. apply list_filter_iff. intros log. lia. Qed.

Lemma logs_until_split ledger a m e : a ≤ m → m ≤ e →
  logs_until ledger a e ≡ₚ logs_until ledger a m ++ logs_until ledger m e.
Proof.
  intros Ham Hme. unfold logs_until. induction ledger as [|log ledger IH]; [done|].
  rewrite !filter_cons. repeat case_decide; try lia; rewrite IH.
  - done.
  - apply Permutation_middle.
  - done.
Qed.

Lemma pieces_complete ledger ps e : ∀ c, tiles c (map fst ps) e →
  Forall (fun '((a, b), ls) => ls ≡ₚ logs_between ledger a b) ps →
  piece_logs ps ≡ₚ logs_until ledger c e.
Proof.
  induction ps as [|[[a b] ls] ps IH]; intros c; cbn [map fst tiles].
  - intros -> _. unfold logs_until, piece_logs. cbn. symmetry.
    induction ledger as [|log ledger IHl]; [done|]. rewrite filter_cons. case_decide; [lia|done].
  - intros (-> & Hab & Htl) [Hp Hall]%Forall_cons. apply tiles_le in Htl as Hle.
    rewrite (logs_until_split ledger c (b + 1) e) by lia.
    unfold piece_logs. cbn [map snd mjoin list_join]. rewrite Hp, logs_until_between.
    f_equiv. by apply IH.
Qed.

(** A successful chunked log query covers its range exactly once: the range
    splits into contiguous pieces, each read by one successful [eth_getLogs]
    below the result cap or, for a single block, from the block's receipts; the
    result is the logs of these pieces in strictly increasing (block, log index)
    order, and every log lies in the range and matches the filter's address and
    topics. *)
Theorem get_logs_partition (filter : LogFilter) (from to max_range result_cap : N)
    (w w' : W) (logs : list RpcLog) (metrics : LogMetrics) :
  to ≤ u64_max → from ≤ to →
  get_logs_chunked filter from to max_range result_cap w = (Ok (logs, metrics), w') →
  ∃ f pieces, canonical_filter filter = Ok f ∧
    tiles from (map fst pieces) (to + 1) ∧ Forall (produced f result_cap) pieces ∧
    logs ≡ₚ piece_logs pieces ∧ StronglySorted (key_lt_on log_position) logs ∧
    Forall (log_accepted f from to) logs.
Proof.
  intros Hto Hft Hq.
  destruct (get_logs_chunked_ok _ _ _ _ _ _ _ _ _ Hto Hft Hq) as (f & ps & Hf & Htl & Hall & Hl & Hs).
  assert (logs ≡ₚ piece_logs ps) as Hp by (rewrite Hl; apply sort_by_key_perm).
  exists f, ps. repeat (split; [done|]). rewrite Hp.
  by apply (pieces_accepted f result_cap to ps from from).
Qed.

(** C6: A chunked log query is complete: if every [eth_getLogs] answer below
    the result cap holds all matching logs of its range, and a block's receipts
    hold all matching logs of the block, then a successful query returns
    exactly the matching logs of the whole range, whatever the bisections. *)
Theorem get_logs_complete (filter f : LogFilter) (from to max_range result_cap : N)
    (ledger : list RpcLog) (w w' : W) (logs : list RpcLog) (metrics : LogMetrics) :
  to ≤ u64_max → from ≤ to → canonical_filter filter = Ok f →
  (∀ a b w1 ls w2, fetch_logs f a b w1 = (Ok ls, w2) → N.of_nat (length ls) < result_cap →
     ls ≡ₚ logs_between ledger a b) →
  (∀ a w1 ls w2, fetch_block_receipt_logs f a w1 = (Ok ls, w2) → ls ≡ₚ logs_between ledger a a) →
  get_logs_chunked filter from to max_range result_cap w = (Ok (logs, metrics), w') →
  logs ≡ₚ logs_between ledger from to ∧ StronglySorted (key_lt_on log_position) logs.
Proof.
  intros Hto Hft Hcf Hhonest Hreceipts Hq.
  destruct (get_logs_chunked_ok _ _ _ _ _ _ _ _ _ Hto Hft Hq) as (f' & ps & Hf & Htl & Hall & Hl & Hs).
  rewrite Hcf in Hf. injection Hf as <-. split; [|done]. rewrite Hl, sort_by_key_perm.
  rewrite <-(logs_until_between ledger from to).
  eapply pieces_complete; [exact Htl|]. eapply Forall_impl; [exact Hall|].
  intros [[a b] ls] (w1 & w2 & [[H1 H2]|[-> H1]]); eauto.
Qed.

(** C7: A log query always ends: for block numbers of 64 bits and a transport
    that does not panic, the loops of [get_logs_chunked] stay within their
    request budgets, so the fuel of the model is never exhausted, no index is
    out of range, and the only panic left is a block object that lacks one of
    the keys [number], [hash] or [transactions]. *)
Theorem get_logs_terminates (filter : LogFilter) (from to max_range result_cap : N)
    (w w' : W) (s : string) :
  (∀ method params, panics_only (fun _ => False) (rpc_request (W := W) method params)) →
  to ≤ u64_max →
  get_logs_chunked filter from to max_range result_cap w = (Panic s, w') → missing_key s.
Proof.
  intros Hrpc Hto. revert w s w'. change (panics_only missing_key
    (get_logs_chunked filter from to max_range result_cap)).
  unfold get_logs_chunked.
  apply panics_only_bind; [auto with panics no_panic|]. intros _ u _ _.
  apply panics_only_bind; [apply panics_only_lift, canonical_filter_no_panic|]. intros _ f _ _.
  destruct (N.ltb_spec to from); [apply panics_only_mret|].
  apply panics_only_bind; [apply clock_panics|]. intros _ t _ _.
  apply panics_only_bind; [apply fetch_chunks_panics; [done|done|lia]|]. intros _ [m out] _ _.
  apply panics_only_bind.
  - apply panics_only_lift, no_panic_fold_m. intros. unfold check_position. solve_no_panic.
  - intros _ seen _ _. apply panics_only_bind; [apply clock_panics|]. intros. apply panics_only_mret.
Qed.

(** The receipt fallback aborts on a malformed block: when the provider
    answers [eth_getBlockByNumber] with an object that lacks the key [number],
    the function panics instead of returning an error. *)
Theorem receipt_block_missing_key_panics (filter : LogFilter) (block : N) (w w' : W)
    (fields : list (string * Value)) :
  rpc_request "eth_getBlockByNumber" (VArray [VString (block_tag block); VBool false]) w
    = (Ok (VObject fields), w') →
  assoc "number" fields = None →
  fetch_block_receipt_logs filter block w = (Panic "no entry found for key", w').
Proof.
  intros Hr Hn. unfold fetch_block_receipt_logs. erewrite io_bind_eval; [|exact Hr].
  erewrite io_bind_eval by reflexivity. apply io_bind_panic.
  unfold lift, map_index. by rewrite Hn.
Qed.
End RpcTheorems.

(* ------------------------------------------------------------------ *)
(** ** A concrete provider for the evaluated instances *)

Section RpcWitnesses.
#[local] Existing Instance RefHex.hex_crate.

Definition demo_addr : string := "0x" +:+ str_repeat 40 "1".
Definition demo_tx : string := "0x" +:+ str_repeat 64 "2".
Definition demo_log (block index : N) : RpcLog := mkRpcLog demo_addr [] "0x" block demo_tx index.
Definition demo_json (log : RpcLog) : Value :=
  VObject [("removed", VBool false); ("address", VString (log_address log)); ("topics", VArray []);
    ("data", VString (log_data log)); ("blockNumber", VString (block_tag (log_block_number log)));
    ("transactionHash", VString (log_transaction_hash log));
    ("logIndex", VString (block_tag (log_log_index log)))].
Definition demo_ledger : list RpcLog := [demo_log 5 0; demo_log 7 2].
Definition demo_filter : LogFilter := mkLogFilter demo_addr [].

(** Answers [eth_getLogs] from the ledger and a block request with an empty
    object; the world counts the clock readings. *)
Definition demo_request (method : string) (params : Value) : io N RpcError Value :=
  lift (if String.eqb method "eth_getLogs" then
    match params with
    | VArray [req] =>
        match hex_quantity "fromBlock" (at_key req "fromBlock"),
              hex_quantity "toBlock" (at_key req "toBlock") with
        | Ok a, Ok b => Ok (VArray (map demo_json (logs_between demo_ledger a b)))
        | _, _ => Err (Transport method "bad range")
        end
    | _ => Err (Transport method "bad params")
    end
  else if String.eqb method "eth_getBlockByNumber" then Ok (VObject [])
  else Err (Transport method "unsupported")).

#[local] Instance demo_rpc : RpcIface N := {|
  rpc_request := demo_request;
  rpc_batch_request := fun method _ => lift (Err UnsupportedBatch);
  rpc_metrics := fun _ => mkRpcMetrics 0 0 0 0;
  rpc_now := fun w => (w, w + 1);
  rpc_timeout := fun A d m w => let '(r, w') := m w in (Some r, w')
|}.

#[local] Instance demo_laws : RpcLaws.
Proof. constructor. intros A d m w r w'. simpl. destruct (m w). by intros [= -> ->]. Qed.

Lemma demo_no_panic method params :
  panics_only (fun _ => False) (rpc_request (W := N) method params).
Proof. simpl. unfold demo_request. apply panics_only_lift. solve_no_panic. Qed.

Lemma hex_quantity_tag field n :
  hex_quantity field (VString (block_tag n)) =
  if n <=? u64_max then Ok n else Err (InvalidLog ("invalid " +:+ field)).
Proof.
  unfold hex_quantity, block_tag. cbn [as_str mbind option_bind]. rewrite strip_prefix_app.
  cbn [mbind option_bind].
  pose proof (u64_from_str_format_hex n) as Hf.
  destruct (str_is_empty (format_hex n)) eqn:E.
  - unfold str_is_empty in E. destruct (format_hex n) eqn:En; [|done].
    pose proof (HexadecimalN.Unsigned.of_to n) as Hof. unfold format_hex in En.
    destruct (N.to_hex_uint n); discriminate En.
  - cbn [ok_or mbind outcome_bind]. rewrite Hf. by destruct (n <=? u64_max).
Qed.

Lemma demo_accept a b log : log ∈ demo_ledger → a ≤ log_block_number log → log_block_number log ≤ b →
  ∀ logs, accept_log demo_filter a b logs (demo_json log) = Ok (logs ++ [log]).
Proof.
  intros Hin Ha Hb logs. unfold accept_log.
  assert (parse_log (demo_json log) = Ok log) as ->.
  { apply elem_of_cons in Hin as [->|[->|Hin%elem_of_nil]%elem_of_cons]; [..|done]; vm_compute; reflexivity. }
  cbn [mbind outcome_bind].
  rewrite (proj2 (N.ltb_ge _ _) Ha), (proj2 (N.ltb_ge _ _) Hb). cbn [orb bail_if mbind outcome_bind].
  apply elem_of_cons in Hin as [->|[->|Hin%elem_of_nil]%elem_of_cons]; [..|done]; reflexivity.
Qed.

Lemma demo_honest a b w1 ls w2 :
  fetch_logs demo_filter a b w1 = (Ok ls, w2) → ls ≡ₚ logs_between demo_ledger a b.
Proof.
  unfold fetch_logs. intros (v & w3 & Hr & (vs & w4 & Hv & Hf)%io_bind_ok)%io_bind_ok.
  apply lift_ok in Hr as [Hr ->], Hv as [Hv ->], Hf as [Hf _].
  cbn [String.eqb Ascii.eqb Bool.eqb] in Hr. cbv [logs_request] in Hr.
  change (at_key (VObject _) "fromBlock") with (VString (block_tag a)) in Hr.
  change (at_key (VObject _) "toBlock") with (VString (block_tag b)) in Hr.
  rewrite !hex_quantity_tag in Hr.
  destruct (a <=? u64_max); [|done]. destruct (b <=? u64_max); [|done].
  injection Hr as <-. injection Hv as <-.
  assert (∀ l, l ⊆ demo_ledger → ∀ acc,
    fold_m (accept_log demo_filter a b) acc (map demo_json (logs_between l a b))
    = Ok (acc ++ logs_between l a b)) as Hgen.
  { induction l as [|log l IH]; intros Hl acc; unfold logs_between; cbn [map fold_m];
      [by rewrite app_nil_r|].
    rewrite filter_cons. case_decide as Hd; [|apply IH; set_solver].
    cbn [map fold_m]. rewrite demo_accept; [|apply Hl; left|lia..]. cbn [mbind outcome_bind].
    unfold logs_between in IH. rewrite IH by set_solver. by rewrite <-app_assoc. }
  rewrite Hgen in Hf by done. cbn [app] in Hf. by injection Hf as <-.
Qed.

Lemma demo_receipts a w1 ls w2 : fetch_block_receipt_logs demo_filter a w1 = (Ok ls, w2) → False.
Proof.
  unfold fetch_block_receipt_logs.
  by intros (v & w3 & [[= <-] ->]%lift_ok & (o & w4 & [[= <-] ->]%lift_ok &
    (n & w5 & [Hn _]%lift_ok & _)%io_bind_ok)%io_bind_ok)%io_bind_ok.
Qed.

Lemma demo_query : ∃ m w',
  get_logs_chunked demo_filter 4 7 4 2 0 = (Ok (demo_ledger, m), w').
Proof. eexists _, _. vm_compute. reflexivity. Qed.

Example get_logs_partition_witness :
  ∃ m w', get_logs_chunked demo_filter 4 7 4 2 0 = (Ok (demo_ledger, m), w') ∧
    Forall (log_accepted demo_filter 4 7) demo_ledger.
Proof.
  destruct demo_query as (m & w' & Hq). exists m, w'. split; [exact Hq|].
  destruct (get_logs_partition demo_filter 4 7 4 2 0 w' demo_ledger m) as
    (f & pieces & Hf & _ & _ & _ & _ & Hall); [vm_compute; discriminate|lia|exact Hq|].
  assert (Ok f = Ok demo_filter :> outcome RpcError LogFilter) as E
    by (rewrite <-Hf; vm_compute; reflexivity).
  injection E as ->. exact Hall.
Defined.

Example get_logs_complete_witness :
  ∃ logs m w', get_logs_chunked demo_filter 4 7 4 2 0 = (Ok (logs, m), w') ∧
    logs ≡ₚ logs_between demo_ledger 4 7.
Proof.
  destruct demo_query as (m & w' & Hq). exists demo_ledger, m, w'. split; [exact Hq|].
  apply (get_logs_complete demo_filter demo_filter 4 7 4 2 demo_ledger 0 w' demo_ledger m).
  - vm_compute. discriminate.
  - lia.
  - vm_compute. reflexivity.
  - intros a b w1 ls w2 Hf _. by eapply demo_honest.
  - intros a w1 ls w2 Hf. destruct (demo_receipts _ _ _ _ Hf).
  - exact Hq.
Defined.

Example get_logs_terminates_witness :
  ∃ w', get_logs_chunked demo_filter 5 5 4 1 0 = (Panic "no entry found for key", w') ∧
    missing_key "no entry found for key".
Proof.
  assert (∃ w', get_logs_chunked demo_filter 5 5 4 1 0 = (Panic "no entry found for key", w'))
    as [w' Hq] by (eexists; vm_compute; reflexivity).
  exists w'. split; [exact Hq|].
  apply (get_logs_terminates demo_filter 5 5 4 1 0 w' _ demo_no_panic); [|exact Hq].
  vm_compute. discriminate.
Defined.

Example receipt_block_missing_key_panics_witness :
  fetch_block_receipt_logs demo_filter 5 0 = (Panic "no entry found for key", 0).
Proof. apply (receipt_block_missing_key_panics demo_filter 5 0 0 []); reflexivity. Defined.
End RpcWitnesses.
