(* ===== verification/Http.v ===== *)
(** * The JSON-RPC client over HTTP ([src/rpc.rs], [HttpRpc])

    The client validates its endpoint and limits once; a request takes a fresh
    identifier, is posted, retried when the failure may be passing, and its answer is
    checked against what was asked; a batch puts the members of the answer back into
    the order of the requests.  The state is what the client's atomics hold next to the
    world; the HTTP library is a parameter.  The theorems at the end: what a batch
    returns, how often a request is sent and for how long, and what a client that
    carries a key connects to. *)

From S2P Require Import Prelude Bytes Text Rpc.
From Stdlib Require Import Strings.Byte.

Open Scope string_scope.
Open Scope N_scope.
Open Scope list_scope.

Definition TRUSTED_DRPC_HOSTS : list string := ["lb.drpc.org"; "lb.drpc.live"].
Definition MAX_RPC_TIMEOUT_MS : N := 120000.
Definition MAX_RPC_RETRY_DELAY_MS : N := 10000.
Definition DEFAULT_RPC_RESPONSE_BYTE_CAP : N := 16 * 1024 * 1024.

(* ------------------------------------------------------------------ *)
(** ** Third-party code *)

(** The [url] crate: [port] is [None] when it is the scheme's own. *)
Class UrlCrate := {
  Url : Type;
  url_parse : string → option Url;
  url_scheme : Url → string;
  url_host_str : Url → option string;
  url_port : Url → option N;
  url_username : Url → string;
  url_password : Url → option string
}.
(** [reqwest::Error]. *)
Record HttpFailure := mkHttpFailure { hf_timeout : bool; hf_connect : bool; hf_body : bool }.
(** A response: its head and what [chunk] returns one call after the other. *)
Record HttpResponse := mkHttpResponse {
  hr_status : N;
  hr_content_length : option N;
  hr_chunks : list (outcome HttpFailure (list byte))
}.
(** What [ClientBuilder] was given; redirects are off. *)
Record HttpClient := mkHttpClient {
  hc_drpc_key : option string;
  hc_timeout_ms : N;
  hc_proxy : option string
}.
(** [reqwest] and [tokio::time::sleep] (milliseconds): the header value, the proxy and
    the client that can be built, a request that is posted. *)
Class HttpCrate `{UrlCrate} (W : Type) := {
  header_value_ok : string → bool;
  proxy_https : string → outcome string unit;
  client_build : HttpClient → outcome string unit;
  client_post : HttpClient → Url → Value → W → outcome HttpFailure HttpResponse * W;
  sleep_ms : N → W → W
}.
(** [serde_json::from_slice] and [to_writer] at [Value]. *)
Class ValueJson := {
  value_from_slice : list byte → option Value;
  value_to_bytes : Value → list byte
}.

(* ------------------------------------------------------------------ *)
(** ** The client *)

Section Client.
Context `{UrlCrate} {W : Type} `{!HttpCrate W, !ValueJson}.

Definition validate_rpc_endpoint (endpoint : string) (has_drpc_key : bool) : outcome RpcError Url :=
  url ← ok_or (url_parse endpoint) InvalidEndpoint;
  _ ← bail_if (negb (String.eqb (url_scheme url) "http") && negb (String.eqb (url_scheme url) "https")) UnsupportedScheme;
  let trusted :=
    String.eqb (url_scheme url) "https" &&
    match url_host_str url with Some host => existsb (String.eqb host) TRUSTED_DRPC_HOSTS | None => false end &&
    match url_port url with None => true | Some port => port =? 443 end &&
    str_is_empty (url_username url) && match url_password url with None => true | Some _ => false end in
  _ ← bail_if (has_drpc_key && negb trusted) UntrustedDrpcEndpoint;
  Ok url.

(** The client's atomics live in the state [HttpState * W]. *)
Record HttpRpc := mkHttpRpc {
  hp_endpoint : Url;
  hp_client : HttpClient;
  hp_retry_count : N;
  hp_retry_delay_ms : N;
  hp_response_byte_cap : N
}.
Record HttpState := mkHttpState { hs_next_id : N; hs_metrics : RpcMetrics }.
Definition new_state : HttpState := mkHttpState 1 (mkRpcMetrics 0 0 0 0).

Definition new_inner (endpoint : string) (drpc_key : option string)
    (timeout_ms retry_count retry_delay_ms response_byte_cap : N) (proxy_url : option string) :
    outcome RpcError HttpRpc :=
  _ ← bail_if ((timeout_ms =? 0) || (MAX_RPC_TIMEOUT_MS <? timeout_ms)) (InvalidTimeout MAX_RPC_TIMEOUT_MS);
  _ ← bail_if ((MAX_RPC_RETRIES <? retry_count) || (MAX_RPC_RETRY_DELAY_MS <? retry_delay_ms)) InvalidRetryPolicy;
  _ ← bail_if ((response_byte_cap =? 0) || (DEFAULT_RPC_RESPONSE_BYTE_CAP <? response_byte_cap))
        (InvalidResponseLimit DEFAULT_RPC_RESPONSE_BYTE_CAP);
  endpoint ← validate_rpc_endpoint endpoint (match drpc_key with Some _ => true | None => false end);
  _ ← bail_if (match drpc_key with Some key => negb (header_value_ok key) | None => false end) InvalidDrpcKey;
  _ ← (match proxy_url with
       | Some proxy_url => map_err (Transport "proxy initialization") (proxy_https proxy_url)
       | None => Ok tt
       end);
  let client := mkHttpClient drpc_key timeout_ms proxy_url in
  _ ← map_err (Transport "client initialization") (client_build client);
  Ok (mkHttpRpc endpoint client retry_count retry_delay_ms response_byte_cap).

(** [enclave_proxy]: the environment's [USD8_ENCLAVE_PROXY] is 1. *)
Definition new_with_retry_delay_and_response_limit (enclave_proxy : bool) (endpoint : string)
    (drpc_key : option string) (timeout_ms retry_count retry_delay_ms response_byte_cap : N) : outcome RpcError HttpRpc :=
  new_inner endpoint drpc_key timeout_ms retry_count retry_delay_ms response_byte_cap
    (if enclave_proxy then Some "http://127.0.0.1:8080" else None).
Definition new_with_retry_delay (enclave_proxy : bool) (endpoint : string) (drpc_key : option string)
    (timeout_ms retry_count retry_delay_ms : N) : outcome RpcError HttpRpc :=
  new_with_retry_delay_and_response_limit enclave_proxy endpoint drpc_key timeout_ms retry_count retry_delay_ms
    DEFAULT_RPC_RESPONSE_BYTE_CAP.
Definition http_new (enclave_proxy : bool) (endpoint : string) (drpc_key : option string) (timeout_ms : N) :
    outcome RpcError HttpRpc :=
  new_with_retry_delay enclave_proxy endpoint drpc_key timeout_ms 5 200.
Definition new_with_https_proxy (endpoint : string) (drpc_key : option string) (timeout_ms : N) (proxy_url : string) :
    outcome RpcError HttpRpc :=
  new_inner endpoint drpc_key timeout_ms 5 200 DEFAULT_RPC_RESPONSE_BYTE_CAP (Some proxy_url).

(* ------------------------------------------------------------------ *)
(** ** One request *)

Definition http (A : Type) : Type := io (HttpState * W) RpcError A.
(** [fetch_add(.., Relaxed)] on a counter of the metrics. *)
Definition count (f : RpcMetrics → RpcMetrics) : http unit :=
  modify_state (fun '(s, w) => (mkHttpState (hs_next_id s) (f (hs_metrics s)), w)).
Definition add_requests (n : N) (m : RpcMetrics) : RpcMetrics :=
  mkRpcMetrics (u64_add (logical_requests m) n) (transport_attempts m) (transport_responses m) (transport_retries m).
Definition add_attempt (m : RpcMetrics) : RpcMetrics :=
  mkRpcMetrics (logical_requests m) (u64_add (transport_attempts m) 1) (transport_responses m) (transport_retries m).
Definition add_response (m : RpcMetrics) : RpcMetrics :=
  mkRpcMetrics (logical_requests m) (transport_attempts m) (u64_add (transport_responses m) 1) (transport_retries m).
Definition add_retry (m : RpcMetrics) : RpcMetrics :=
  mkRpcMetrics (logical_requests m) (transport_attempts m) (transport_responses m) (u64_add (transport_retries m) 1).

Definition transport_error (method : string) (error : HttpFailure) : RpcError :=
  Transport method
    (if hf_timeout error then "request timed out"
     else if hf_connect error then "connection failed"
     else if hf_body error then "response body failed" else "request failed").

Definition send_attempt (self : HttpRpc) (method : string) (body : Value) : http HttpResponse :=
  _ ← count add_attempt;
  response ← (fun '(s, w) => let '(r, w) := client_post (hp_client self) (hp_endpoint self) body w in
                (map_err (transport_error method) r, (s, w)));
  _ ← count add_response;
  mret response.

(** The chunks, as long as they stay within the limit. *)
Fixpoint read_chunks (self : HttpRpc) (method : string) (chunks : list (outcome HttpFailure (list byte)))
    (bytes : list byte) : outcome RpcError (list byte) :=
  match chunks with
  | [] => Ok bytes
  | chunk :: chunks =>
      chunk ← map_err (transport_error method) chunk;
      _ ← bail_if (hp_response_byte_cap self <? N.of_nat (length bytes + length chunk))
            (ResponseTooLarge method (hp_response_byte_cap self));
      read_chunks self method chunks (bytes ++ chunk)
  end.
Definition is_success (status : N) : bool := (200 <=? status) && (status <? 300).
Definition complete_attempt (self : HttpRpc) (method : string) (body : Value) : http Value :=
  response ← send_attempt self method body;
  _ ← lift (bail_if (negb (is_success (hr_status response))) (HttpStatus method (hr_status response)));
  _ ← lift (bail_if (match hr_content_length response with
                     | Some length => hp_response_byte_cap self <? length
                     | None => false
                     end) (ResponseTooLarge method (hp_response_byte_cap self)));
  bytes ← lift (read_chunks self method (hr_chunks response) []);
  lift (ok_or (value_from_slice bytes) (InvalidResponse method "body is not valid JSON")).

Definition retryable (error : RpcError) : bool :=
  match error with
  | Transport _ _ => true
  | HttpStatus _ status => (status =? 408) || (status =? 429) || ((500 <=? status) && (status <=? 504))
  | _ => false
  end.
(** The wait before the next attempt. *)
Definition backoff (self : HttpRpc) (attempt : N) : N :=
  saturating_mul (hp_retry_delay_ms self) (N.shiftl 1 (N.min attempt 10)).
(** The loop from [attempt] on, with [retries] to go: [attempt + retries] is the
    retry count. *)
Fixpoint attempts (self : HttpRpc) (method : string) (body : Value) (attempt : N) (retries : nat) : http Value :=
  fun w =>
    match complete_attempt self method body w, retries with
    | (Err error, w), S retries =>
        if retryable error then
          (_ ← count add_retry;
           _ ← modify_state (fun '(s, w) => (s, sleep_ms (backoff self attempt) w));
           attempts self method body (attempt + 1) retries) w
        else (Err error, w)
    | result, _ => result
    end.
Definition complete_request (self : HttpRpc) (method : string) (body : Value) : http Value :=
  attempts self method body 0 (N.to_nat (hp_retry_count self)).

Definition number_value (n : N) : Value := VNumber (PosInt n).
Definition request_body (id : N) (method : string) (params : Value) : Value :=
  VObject [("jsonrpc", VString "2.0"); ("id", number_value id); ("method", VString method); ("params", params)].
Definition is_2_0 (value : Value) : bool :=
  bool_decide ((get "jsonrpc" value ≫= as_str) = Some "2.0").
(** The answer to the request [id]. *)
Definition check_answer (method : string) (id : N) (value : Value) : outcome RpcError Value :=
  _ ← bail_if (negb (is_2_0 value)) (InvalidResponse method "jsonrpc is not 2.0");
  _ ← bail_if (negb (bool_decide ((get "id" value ≫= as_u64) = Some id)))
        (InvalidResponse method "response id does not match request");
  match get "error" value with
  | Some error =>
      code ← ok_or (get "code" error ≫= as_i64) (InvalidResponse method "error object lacks integer code");
      Err (JsonRpc code (default "unspecified provider error" (get "message" error ≫= as_str)))
  | None => ok_or (get "result" value) (InvalidResponse method "missing result")
  end.
Definition next_id : http N :=
  fun '(s, w) => (Ok (hs_next_id s), (mkHttpState (u64_add (hs_next_id s) 1) (hs_metrics s), w)).
Definition http_request (self : HttpRpc) (method : string) (params : Value) : http Value :=
  _ ← count (add_requests 1);
  id ← next_id;
  value ← complete_request self method (request_body id method params);
  lift (check_answer method id value).

(* ------------------------------------------------------------------ *)
(** ** A batch *)

Definition BATCH_BYTES : N := 1024 * 1024.
Definition reserve_ids (count : N) : http N :=
  fun '(s, w) =>
    match checked_add (hs_next_id s) count with
    | Some next => (Ok (hs_next_id s), (mkHttpState next (hs_metrics s), w))
    | None => (Err InvalidBatch, (s, w))
    end.
Definition batch_body (first : N) (method : string) (params : list Value) : Value :=
  VArray (imap (fun index params => request_body (first + N.of_nat index) method params) params).
Definition invalid_batch (method : string) : RpcError :=
  InvalidResponse method "invalid batch response envelope or member".

(** One member of the answer, put where its identifier says. *)
Definition place_member (method : string) (first : N) (results : list (option Value)) (member : Value) :
    outcome RpcError (list (option Value)) :=
  id ← ok_or (get "id" member ≫= as_u64) (invalid_batch method);
  index ← ok_or (i ← checked_sub id first; if i <? N.of_nat (length results) then Some (N.to_nat i) else None)
            (invalid_batch method);
  slot ← match results !! index with Some slot => Ok slot | None => Panic "index out of bounds" end;
  _ ← bail_if (match slot with Some _ => true | None => false end || negb (is_2_0 member)) (invalid_batch method);
  _ ← match get "error" member with
      | Some error =>
          _ ← bail_if (match get "result" member with Some _ => true | None => false end) (invalid_batch method);
          code ← ok_or (get "code" error ≫= as_i64) (invalid_batch method);
          _ ← ok_or (get "message" error ≫= as_str) (invalid_batch method);
          Err (JsonRpc code "batch member failed")
      | None => Ok tt
      end;
  result ← ok_or (get "result" member) (invalid_batch method);
  Ok (<[index := Some result]> results).
Definition check_batch (method : string) (first : N) (count : nat) (value : Value) : outcome RpcError (list Value) :=
  members ← ok_or (members ← as_array value; if (length members =? count)%nat then Some members else None)
              (invalid_batch method);
  results ← fold_m (place_member method first) (replicate count None) members;
  mapM (fun result => ok_or result (invalid_batch method)) results.

Definition http_batch_request (self : HttpRpc) (method : string) (params : list Value) : http (list Value) :=
  _ ← lift (bail_if (match params with [] => true | _ => false end || (256 <? N.of_nat (length params))) InvalidBatch);
  let count_ := N.of_nat (length params) in
  first ← reserve_ids count_;
  let body := batch_body first method params in
  _ ← lift (bail_if (BATCH_BYTES <? N.of_nat (length (value_to_bytes body))) InvalidBatch);
  _ ← count (add_requests count_);
  value ← complete_request self method body;
  lift (check_batch method first (length params) value).

(** The client as an [Rpc], with the world's clock and timeout. *)
Definition http_rpc (self : HttpRpc) (now : HttpState * W → N * (HttpState * W))
    (timeout : ∀ {A}, N → http A → HttpState * W → option (outcome RpcError A) * (HttpState * W)) :
    RpcIface (HttpState * W) := {|
  rpc_request := http_request self;
  rpc_batch_request := http_batch_request self;
  rpc_metrics := fun '(s, _) => hs_metrics s;
  rpc_now := now;
  rpc_timeout := fun A => timeout
|}.
End Client.

(* ------------------------------------------------------------------ *)
(** ** A batch answers in the order of its requests *)

(** [m] is a well-formed member answering the request [id] with [r]. *)
Definition answers (id : N) (m r : Value) : Prop :=
  (get "id" m ≫= as_u64) = Some id ∧ is_2_0 m = true ∧ get "error" m = None ∧ get "result" m = Some r.
(** The members, each in the slot of its identifier, next to the results. *)
Definition slots_ok (first : N) (slots results : list (option Value)) : Prop :=
  length slots = length results ∧
  ∀ i, match slots !! i, results !! i with
       | Some (Some m), Some (Some r) => answers (first + N.of_nat i) m r
       | Some None, Some None | None, None => True
       | _, _ => False
       end.

Lemma omap_insert_slot (slots : list (option Value)) i m : slots !! i = Some None →
  omap id (<[i := Some m]> slots) ≡ₚ m :: omap id slots.
Proof.
  revert i. induction slots as [|slot slots IH]; intros [|i] H; simpl in *; try done; [by simplify_eq|].
  specialize (IH i H). destruct slot as [m'|]; simpl; [|done]. rewrite IH. constructor.
Qed.
Lemma slots_insert first slots results i m r : slots_ok first slots results → results !! i = Some None →
  answers (first + N.of_nat i) m r →
  slots !! i = Some None ∧ slots_ok first (<[i := Some m]> slots) (<[i := Some r]> results).
Proof.
  intros [Hl H] Hi Ha. pose proof (H i) as Hs. rewrite Hi in Hs.
  destruct (slots !! i) as [[?|]|] eqn:Es; try done. split; [done|]. split; [by rewrite !length_insert|].
  intros j. destruct (decide (j = i)) as [->|Hne].
  - rewrite !list_lookup_insert_eq; [done|by eapply lookup_lt_Some..].
  - rewrite !list_lookup_insert_ne by done. apply H.
Qed.

Lemma place_member_inv method first results member results' : place_member method first results member = Ok results' →
  ∃ i r, results !! i = Some None ∧ answers (first + N.of_nat i) member r ∧ results' = <[i := Some r]> results.
Proof.
  unfold place_member. intros H. apply bind_ok in H as (n & Hid%ok_or_ok & H).
  apply bind_ok in H as (i & Hi%ok_or_ok & H). apply bind_Some in Hi as (k & Hk%checked_sub_Some & Hi).
  destruct Hk as [-> Hle]. destruct (N.ltb_spec (n - first) (N.of_nat (length results))) as [Hlt|]; simplify_eq.
  apply bind_ok in H as (slot & Hslot & H). destruct (results !! N.to_nat (n - first)) as [slot'|] eqn:Es; simplify_eq.
  apply bind_ok in H as (u & Hb%bail_if_ok & H). apply orb_false_iff in Hb as [Hnone H2].
  apply negb_false_iff in H2. destruct slot as [?|]; [done|]. apply bind_ok in H as (u' & He & H).
  destruct (get "error" member) as [error|] eqn:Ee.
  { apply bind_ok in He as (? & _ & He). apply bind_ok in He as (? & _ & He). by apply bind_ok in He as (? & _ & He). }
  apply bind_ok in H as (r & Hr%ok_or_ok & H). simplify_eq. exists (N.to_nat (n - first)), r.
  split_and!; try done. rewrite N2Nat.id. unfold answers. replace (first + (n - first)) with n by lia. by split_and!.
Qed.
Lemma place_members method first members : ∀ results results' slots,
  slots_ok first slots results → fold_m (place_member method first) results members = Ok results' →
  ∃ slots', slots_ok first slots' results' ∧ omap id slots' ≡ₚ members ++ omap id slots.
Proof.
  induction members as [|m members IH]; intros results results' slots Hs H; [injection H as <-; by exists slots|].
  apply bind_ok in H as (results1 & Hp & H). apply place_member_inv in Hp as (i & r & Hi & Ha & ->).
  destruct (slots_insert _ _ _ _ _ _ Hs Hi Ha) as [Hslot Hs1].
  destruct (IH _ _ _ Hs1 H) as (slots' & Hs' & Hperm). exists slots'. split; [done|].
  rewrite Hperm, omap_insert_slot by done. symmetry. apply Permutation_middle.
Qed.

Lemma slots_empty first n : slots_ok first (replicate n None) (replicate n None).
Proof.
  split; [done|]. intros i. destruct (decide (i < n)%nat).
  - by rewrite lookup_replicate_2.
  - by rewrite (proj1 (lookup_replicate_None _ _ _)) by lia.
Qed.
Lemma omap_replicate_None n : omap id (replicate n (None : option Value)) = [].
Proof. by induction n. Qed.
Lemma mapM_some method (results : list (option Value)) l :
  mapM (fun result => ok_or result (invalid_batch method)) results = Ok l ↔ results = map Some l.
Proof.
  rewrite mapM_ok. split.
  - induction 1 as [|x y results l Hx _ IH]; [done|]. apply ok_or_ok in Hx. cbn. by rewrite Hx, IH.
  - intros ->. induction l as [|x l IH]; by constructor.
Qed.
Lemma map_some_Forall {A} (l : list (option A)) : Forall is_Some l → ∃ k, l = map Some k.
Proof.
  induction 1 as [|o l [x ->] _ [k ->]]; [by exists []|by exists (x :: k)].
Qed.
(** Slots next to full results are full, and the other way round. *)
Lemma slots_full first slots l : slots_ok first slots (map Some l) → ∃ ordered, slots = map Some ordered ∧ length ordered = length l ∧
  ∀ i m r, ordered !! i = Some m → l !! i = Some r → answers (first + N.of_nat i) m r.
Proof.
  intros [Hlen H]. destruct (map_some_Forall slots) as [ordered ->].
  { apply Forall_lookup. intros i slot Hi. specialize (H i). rewrite Hi, list_lookup_fmap in H.
    destruct slot; [by eexists|]. by destruct (l !! i). }
  exists ordered. rewrite !length_map in Hlen. split_and!; [done|done|].
  intros i m r Hm Hr. specialize (H i). by rewrite !list_lookup_fmap, Hm, Hr in H.
Qed.
Lemma slots_full_results first ordered found : slots_ok first (map Some ordered) found → ∃ l, found = map Some l.
Proof.
  intros [_ H]. apply map_some_Forall, Forall_lookup. intros i slot Hi. specialize (H i).
  rewrite Hi, list_lookup_fmap in H. destruct slot; [by eexists|]. by destruct (ordered !! i).
Qed.

Definition in_order (first : N) (ordered results : list Value) : Prop :=
  length ordered = length results ∧
  ∀ i m r, ordered !! i = Some m → results !! i = Some r → answers (first + N.of_nat i) m r.
Lemma check_batch_sound method first n value results : check_batch method first n value = Ok results →
  ∃ members ordered, value = VArray members ∧ members ≡ₚ ordered ∧ length results = n ∧ in_order first ordered results.
Proof.
  unfold check_batch. intros H. apply bind_ok in H as (members & Hm%ok_or_ok & H).
  apply bind_Some in Hm as (l & Hv & Hm). destruct value as [| | | |l'|]; try done. cbn in Hv. simplify_eq.
  destruct (Nat.eqb_spec (length l) n) as [Hn|]; simplify_eq.
  apply bind_ok in H as (slots & Hf & Hm%mapM_some). subst slots.
  destruct (place_members _ _ _ _ _ _ (slots_empty first (length members)) Hf) as (slots & Hs & Hp).
  destruct (slots_full _ _ _ Hs) as (ordered & -> & Hlen & Ha). rewrite omap_replicate_None, app_nil_r in Hp.
  assert (omap id (map Some ordered) = ordered) as E by (clear; induction ordered; cbn; congruence).
  rewrite E in Hp. exists members, ordered. split_and!; [done|done| |done].
  rewrite <- Hlen. by apply Permutation_length in Hp.
Qed.

Lemma answers_id id id' m r r' : answers id m r → answers id' m r' → id = id' ∧ r = r'.
Proof. intros (H1 & _ & _ & H2) (H1' & _ & _ & H2'). split; congruence. Qed.
Lemma in_order_lookup first ordered results m : in_order first ordered results → m ∈ ordered →
  ∃ i r, (i < length results)%nat ∧ answers (first + N.of_nat i) m r.
Proof.
  intros [Hl Ha] (i & Hi)%list_elem_of_lookup. pose proof (lookup_lt_Some _ _ _ Hi) as Hlt. rewrite Hl in Hlt.
  destruct (lookup_lt_is_Some_2 _ _ Hlt) as [r Hr]. exists i, r. split; [done|]. by apply Ha.
Qed.
(** The result a well-formed set of members stands for does not depend on their order. *)
Lemma in_order_unique first ordered ordered' results results' : ordered ≡ₚ ordered' →
  in_order first ordered results → in_order first ordered' results' → results = results'.
Proof.
  intros Hp [Hl Ha] [Hl' Ha']. apply list_eq_same_length with (n := length results); [|done|].
  { rewrite <- Hl, <- Hl'. symmetry. by apply Permutation_length. }
  intros i r r' Hi Hr Hr'.
  assert (is_Some (ordered !! i)) as [m Hm] by (apply lookup_lt_is_Some_2; rewrite Hl; by eapply lookup_lt_Some).
  assert (m ∈ ordered') as (k & Hk)%list_elem_of_lookup by (rewrite <- Hp; by eapply list_elem_of_lookup_2).
  assert (is_Some (results' !! k)) as [rk Hrk] by (apply lookup_lt_is_Some_2; rewrite <- Hl'; by eapply lookup_lt_Some).
  destruct (answers_id _ _ _ _ _ (Ha i m r Hm Hr) (Ha' k m rk Hk Hrk)) as [E ->].
  assert (i = k) as <- by lia. congruence.
Qed.

Lemma place_member_ok method first results m i r : results !! i = Some None → answers (first + N.of_nat i) m r →
  place_member method first results m = Ok (<[i := Some r]> results).
Proof.
  intros Hi (Hid & H2 & He & Hr). unfold place_member. rewrite Hid, H2, He, Hr. cbn [ok_or].
  pose proof (lookup_lt_Some _ _ _ Hi) as Hlt.
  assert (checked_sub (first + N.of_nat i) first = Some (N.of_nat i)) as E by (apply checked_sub_Some; lia).
  cbn. rewrite E. cbn. destruct (N.ltb_spec (N.of_nat i) (N.of_nat (length results))); [|lia].
  cbn. rewrite Nat2N.id. by rewrite Hi.
Qed.
Lemma in_order_NoDup first ordered results : in_order first ordered results → NoDup ordered.
Proof.
  intros [Hl Ha]. apply NoDup_alt. intros i j m Hi Hj.
  assert (is_Some (results !! i)) as [ri Hri] by (apply lookup_lt_is_Some_2; rewrite <- Hl; by eapply lookup_lt_Some).
  assert (is_Some (results !! j)) as [rj Hrj] by (apply lookup_lt_is_Some_2; rewrite <- Hl; by eapply lookup_lt_Some).
  destruct (answers_id _ _ _ _ _ (Ha _ _ _ Hi Hri) (Ha _ _ _ Hj Hrj)). lia.
Qed.
Lemma place_members_total method first ordered results members : in_order first ordered results →
  ∀ slots found, members ++ omap id slots ≡ₚ ordered → slots_ok first slots found → length found = length results →
  ∃ found', fold_m (place_member method first) found members = Ok found'.
Proof.
  intros Ho. induction members as [|m members IH]; intros slots found Hp Hs Hlen; [by exists found|].
  assert (m ∈ ordered) as Hm by (rewrite <- Hp; left).
  destruct (in_order_lookup _ _ _ _ Ho Hm) as (i & r & Hi & Ha).
  assert (found !! i = Some None) as Hfree.
  { destruct Hs as [Hl Hs]. specialize (Hs i).
    assert (is_Some (found !! i)) as [slot Hslot] by (apply lookup_lt_is_Some_2; lia).
    rewrite Hslot in Hs. destruct slot as [r0|]; [exfalso|done].
    destruct (slots !! i) as [[m0|]|] eqn:Em; try done.
    assert (m0 ∈ omap id slots) as Hin.
    { apply list_elem_of_omap. exists (Some m0). split; [by eapply list_elem_of_lookup_2|done]. }
    assert (m0 ∈ ordered) as Hm0 by (rewrite <- Hp; set_solver).
    assert (m0 = m) as ->.
    { apply list_elem_of_lookup in Hm as (k & Hk), Hm0 as (k0 & Hk0). destruct Ho as [Hl' Ho].
      assert (is_Some (results !! k)) as [rk Hrk] by (apply lookup_lt_is_Some_2; rewrite <- Hl'; by eapply lookup_lt_Some).
      assert (is_Some (results !! k0)) as [rk0 Hrk0] by (apply lookup_lt_is_Some_2; rewrite <- Hl'; by eapply lookup_lt_Some).
      destruct (answers_id _ _ _ _ _ Ha (Ho _ _ _ Hk Hrk)), (answers_id _ _ _ _ _ Hs (Ho _ _ _ Hk0 Hrk0)).
      assert (k = k0) as -> by lia. congruence. }
    pose proof (in_order_NoDup _ _ _ Ho) as Hnd. rewrite <- Hp in Hnd. cbn in Hnd. apply NoDup_cons in Hnd as [Hnd _].
    set_solver. }
  cbn [fold_m]. rewrite (place_member_ok _ _ _ _ _ _ Hfree Ha). cbn.
  destruct (slots_insert _ _ _ _ _ _ Hs Hfree Ha) as [Hslot Hs'].
  apply (IH (<[i := Some m]> slots)); [|done|by rewrite length_insert].
  rewrite <- Hp, omap_insert_slot by done. symmetry. apply Permutation_middle.
Qed.
Lemma omap_full (slots : list (option Value)) : length (omap id slots) = length slots → slots = map Some (omap id slots).
Proof.
  assert (∀ slots : list (option Value), (length (omap id slots) ≤ length slots)%nat) as Hle.
  { intros l. induction l as [|[m|] l IH]; cbn; [done|..]; lia. }
  induction slots as [|[m|] slots IH]; cbn; intros H; [done|f_equal; apply IH; lia|]. specialize (Hle slots). lia.
Qed.
Lemma place_members_length method first members found found' :
  fold_m (place_member method first) found members = Ok found' → length found' = length found.
Proof.
  apply (fold_m_inv _ (fun _ l => length l = length found)); [done|].
  intros _ m l l' Hl (i & r & _ & _ & ->)%place_member_inv. by rewrite length_insert.
Qed.
Lemma check_batch_complete method first members ordered results : members ≡ₚ ordered → in_order first ordered results →
  check_batch method first (length results) (VArray members) = Ok results.
Proof.
  intros Hp Ho. pose proof (Permutation_length Hp) as Hlen. pose proof Ho as [Hlo _].
  destruct (place_members_total method first ordered results members Ho (replicate (length results) None)
              (replicate (length results) None)) as [found Hf].
  { by rewrite omap_replicate_None, app_nil_r. }
  { apply slots_empty. }
  { apply length_replicate. }
  destruct (place_members _ _ _ _ _ _ (slots_empty first (length results)) Hf) as (slots & Hs & Hps).
  rewrite omap_replicate_None, app_nil_r in Hps.
  pose proof (place_members_length _ _ _ _ _ Hf) as Hfl. rewrite length_replicate in Hfl.
  assert (slots = map Some (omap id slots)) as Hfull.
  { apply omap_full. rewrite Hps. destruct Hs as [Hsl _]. lia. }
  rewrite Hfull in Hs. destruct (slots_full_results _ _ _ Hs) as [l ->].
  destruct (slots_full _ _ _ Hs) as (placed & Eq & Hl & Ha).
  assert (placed = omap id slots) as -> by (symmetry; by apply (inj (map Some))).
  assert (l = results) as ->.
  { apply (in_order_unique first (omap id slots) ordered); [by rewrite Hps|by split|done]. }
  unfold check_batch. cbn. destruct (Nat.eqb_spec (length members) (length results)) as [_|]; [|lia].
  cbn. rewrite Hf. cbn. by apply mapM_some.
Qed.

Section Batches.
Context `{UrlCrate} {W : Type} `{!HttpCrate W, !ValueJson}.
Implicit Types (self : HttpRpc) (s : HttpState).

(** A batch that may be sent after identifier [hs_next_id s]. *)
Definition sendable (s : HttpState) (method : string) (params : list Value) : Prop :=
  params ≠ [] ∧ N.of_nat (length params) ≤ 256 ∧ hs_next_id s + N.of_nat (length params) ≤ u64_max ∧
  N.of_nat (length (value_to_bytes (batch_body (hs_next_id s) method params))) ≤ BATCH_BYTES.
(** The client's state when the batch goes out. *)
Definition reserved (s : HttpState) (n : N) : HttpState :=
  mkHttpState (hs_next_id s + n) (add_requests n (hs_metrics s)).

(** C37: a batch of between one and 256 requests whose body is within 1 MiB reserves
    consecutive identifiers and answers [results] exactly when the (retried) request
    brings back an array that is a rearrangement of one well-formed member per request,
    version 2.0, without error, its identifier that of the request: the results are
    those members' results in the order of the requests, however the server ordered
    them; a missing, doubled, foreign, failed or unversioned member never gives a
    result. *)
Theorem batch_results_in_order self method params s w w' results :
  http_batch_request self method params (s, w) = (Ok results, w') ↔
  sendable s method params ∧ length results = length params ∧
  ∃ members ordered,
    complete_request self method (batch_body (hs_next_id s) method params)
      (reserved s (N.of_nat (length params)), w) = (Ok (VArray members), w') ∧
    members ≡ₚ ordered ∧ in_order (hs_next_id s) ordered results.
Proof.
  unfold http_batch_request, sendable. split.
  - intros (u & w1 & H1 & Hr)%io_bind_ok. apply lift_ok in H1 as [H1%bail_if_ok ->].
    apply orb_false_iff in H1 as [Hne Hmax%N.ltb_ge]. apply io_bind_ok in Hr as (first & w2 & H2 & Hr).
    unfold reserve_ids in H2. destruct (checked_add _ _) as [next|] eqn:Ea; [|done].
    apply checked_add_Some in Ea as [-> Hid]. injection H2 as <- <-.
    apply io_bind_ok in Hr as (u2 & w3 & H3 & Hr). apply lift_ok in H3 as [H3%bail_if_ok ->].
    apply N.ltb_ge in H3. apply io_bind_ok in Hr as (u3 & w4 & H4 & Hr). cbn in H4. injection H4 as _ <-.
    apply io_bind_ok in Hr as (value & w5 & H5 & Hr). apply lift_ok in Hr as [Hr ->].
    destruct (check_batch_sound _ _ _ _ _ Hr) as (members & ordered & -> & Hp & Hl & Ho).
    split_and!; try done; [by destruct params|]. exists members, ordered. by split_and!.
  - intros ((Hne & Hmax & Hid & Hb) & Hl & members & ordered & Hc & Hp & Ho).
    assert (bail_if (match params with [] => true | _ => false end || (256 <? N.of_nat (length params))) InvalidBatch = Ok tt) as ->.
    { apply bail_if_ok, orb_false_iff. split; [by destruct params|by apply N.ltb_ge]. }
    rewrite io_bind_lift. rewrite (io_bind_eval _ _ _ (hs_next_id s) (mkHttpState (hs_next_id s + N.of_nat (length params)) (hs_metrics s), w)).
    2:{ unfold reserve_ids. by rewrite (proj2 (checked_add_Some _ _ _)) by done. }
    rewrite (proj2 (bail_if_ok _ _ tt)) by (by apply N.ltb_ge). rewrite io_bind_lift.
    rewrite (io_bind_eval _ _ _ tt (reserved s (N.of_nat (length params)), w)) by done.
    rewrite (io_bind_eval _ _ _ _ _ Hc). unfold lift. rewrite <- Hl.
    by rewrite (check_batch_complete _ _ _ _ _ Hp Ho).
Qed.
End Batches.

(* ------------------------------------------------------------------ *)
(** ** Attempts, waits and what a response may weigh *)

Section Attempts.
Context `{HU : UrlCrate} {W : Type} `{HC : !HttpCrate W, HV : !ValueJson}.
Implicit Types (self : HttpRpc) (s : HttpState).

Lemma new_inner_ok endpoint drpc_key timeout_ms retry_count retry_delay_ms cap proxy self :
  new_inner endpoint drpc_key timeout_ms retry_count retry_delay_ms cap proxy = Ok self →
  validate_rpc_endpoint endpoint (bool_decide (is_Some drpc_key)) = Ok (hp_endpoint self) ∧
  hp_client self = mkHttpClient drpc_key timeout_ms proxy ∧
  0 < timeout_ms ≤ MAX_RPC_TIMEOUT_MS ∧ hp_retry_count self ≤ MAX_RPC_RETRIES ∧
  hp_retry_delay_ms self ≤ MAX_RPC_RETRY_DELAY_MS ∧ 0 < hp_response_byte_cap self ≤ DEFAULT_RPC_RESPONSE_BYTE_CAP.
Proof.
  unfold new_inner. intros H.
  apply bind_ok in H as (_ & [Ht%N.eqb_neq Ht'%N.ltb_ge]%bail_if_ok%orb_false_iff & H).
  apply bind_ok in H as (_ & [Hr%N.ltb_ge Hd%N.ltb_ge]%bail_if_ok%orb_false_iff & H).
  apply bind_ok in H as (_ & [Hc%N.eqb_neq Hc'%N.ltb_ge]%bail_if_ok%orb_false_iff & H).
  apply bind_ok in H as (url & Hurl & H). apply bind_ok in H as (_ & _ & H). apply bind_ok in H as (_ & _ & H).
  apply bind_ok in H as (_ & _ & H). injection H as <-. cbn. split_and!; try done; try lia. by destruct drpc_key.
Qed.
(** A client that carries the provider's key talks TLS to one of its hosts, on the
    scheme's port and without credentials in the address. *)
Lemma keyed_client_endpoint endpoint key timeout_ms retry_count retry_delay_ms cap proxy self :
  new_inner endpoint (Some key) timeout_ms retry_count retry_delay_ms cap proxy = Ok self →
  url_parse endpoint = Some (hp_endpoint self) ∧ url_scheme (hp_endpoint self) = "https" ∧
  (∃ host, url_host_str (hp_endpoint self) = Some host ∧ host ∈ TRUSTED_DRPC_HOSTS) ∧
  (url_port (hp_endpoint self) = None ∨ url_port (hp_endpoint self) = Some 443) ∧
  url_username (hp_endpoint self) = "" ∧ url_password (hp_endpoint self) = None.
Proof.
  intros (Hv & _)%new_inner_ok. unfold validate_rpc_endpoint in Hv. rewrite bool_decide_true in Hv by done.
  apply bind_ok in Hv as (url & Hp%ok_or_ok & Hv). apply bind_ok in Hv as (_ & _ & Hv).
  apply bind_ok in Hv as (_ & Ht%bail_if_ok & Hv). injection Hv as <-.
  rewrite andb_true_l in Ht. apply negb_false_iff in Ht. rewrite !andb_true_iff in Ht.
  destruct Ht as ((((Hs%String.eqb_eq & Hh) & Hport) & Hu) & Hw). split_and!; try done.
  - destruct (url_host_str url) as [host|]; [|done]. exists host. split; [done|].
    apply existsb_exists in Hh as (h & Hin & ->%String.eqb_eq). by apply list_elem_of_In.
  - destruct (url_port url) as [port|]; [right|by left]. apply N.eqb_eq in Hport. by subst.
  - by destruct (url_username url).
  - by destruct (url_password url).
Qed.

Lemma read_chunks_cap self method chunks : ∀ bytes body, N.of_nat (length bytes) ≤ hp_response_byte_cap self →
  read_chunks self method chunks bytes = Ok body → N.of_nat (length body) ≤ hp_response_byte_cap self.
Proof.
  induction chunks as [|chunk chunks IH]; intros bytes body Hb H; [by injection H as <-|].
  apply bind_ok in H as (c & _ & H). apply bind_ok in H as (_ & Hc%bail_if_ok%N.ltb_ge & H).
  apply IH in H; [done|]. rewrite length_app. lia.
Qed.

(** The attempts from number [attempt] on, with the waits between them. *)
Inductive retried self (method : string) (body : Value) :
    N → HttpState * W → list N → outcome RpcError Value → HttpState * W → Prop :=
| retried_last attempt w r w' :
    complete_attempt self method body w = (r, w') →
    (∀ e, r = Err e → retryable e = true → attempt = hp_retry_count self) →
    retried self method body attempt w [] r w'
| retried_more attempt w e s1 w1 waits r w' :
    complete_attempt self method body w = (Err e, (s1, w1)) → retryable e = true → attempt < hp_retry_count self →
    retried self method body (attempt + 1)
      (mkHttpState (hs_next_id s1) (add_retry (hs_metrics s1)), sleep_ms (backoff self attempt) w1) waits r w' →
    retried self method body attempt w (backoff self attempt :: waits) r w'.

Lemma attempts_retried self method body retries : ∀ attempt w r w',
  attempt + N.of_nat retries = hp_retry_count self →
  attempts self method body attempt retries w = (r, w') →
  ∃ waits, retried self method body attempt w waits r w' ∧ (length waits ≤ retries)%nat ∧
    waits = map (fun i => backoff self (attempt + N.of_nat i)) (seq 0 (length waits)).
Proof.
  induction retries as [|retries IH]; intros attempt w r w' Hn H.
  - exists []. split_and!; [|done|done]. constructor; [|intros; lia]. cbn in H. by destruct (complete_attempt _ _ _ _) as [[|?|] ?].
  - cbn in H. destruct (complete_attempt self method body w) as [[v|e|p] [s1 w1]] eqn:Ec.
    + injection H as <- <-. exists []. split_and!; [by constructor|cbn; lia|done].
    + destruct (retryable e) eqn:Er.
      * apply IH in H as (waits & Hw & Hl & Hm); [|lia]. exists (backoff self attempt :: waits). split_and!.
        -- eapply retried_more; [done|done|lia|done].
        -- cbn. lia.
        -- cbn. rewrite N.add_0_r. f_equal. rewrite Hm at 1. rewrite <- seq_shift, map_map. apply map_ext. intros i. f_equal. lia.
      * injection H as <- <-. exists []. split_and!; [|cbn; lia|done]. constructor; [done|]. intros ? [= <-]. by rewrite Er.
    + injection H as <- <-. exists []. split_and!; [by constructor|cbn; lia|done].
Qed.
End Attempts.

Section Bounds.
Context `{HU : UrlCrate} {W : Type} `{HC : !HttpCrate W, HV : !ValueJson}.
Implicit Types (self : HttpRpc) (s : HttpState).

(** A counter bumped [k] times. *)
Fixpoint bumps (k : nat) (n : N) : N := match k with O => n | S k => bumps k (u64_add n 1) end.
Lemma io_bind_step {S E A B} (m : io S E A) (f : A → io S E B) w r w' : (m ≫= f) w = (r, w') →
  ∃ x w1, m w = (x, w1) ∧ match x with Ok a => f a w1 = (r, w') | _ => w' = w1 end.
Proof. unfold mbind, io_bind. destruct (m w) as [[a|e|p] w1]; intros Hm; eexists _, _; (split; [done|]); cbn; congruence. Qed.
Lemma lift_state {S E A} (m : outcome E A) (w w1 : S) x : lift m w = (x, w1) → w1 = w.
Proof. by intros [= _ <-]. Qed.

Lemma send_attempt_state self method body s w r s1 w1 : send_attempt self method body (s, w) = (r, (s1, w1)) →
  hs_next_id s1 = hs_next_id s ∧ logical_requests (hs_metrics s1) = logical_requests (hs_metrics s) ∧
  transport_attempts (hs_metrics s1) = bumps 1 (transport_attempts (hs_metrics s)) ∧
  transport_retries (hs_metrics s1) = transport_retries (hs_metrics s).
Proof.
  unfold send_attempt. intros (u & w2 & H1 & Hr)%io_bind_step. cbn in H1. injection H1 as <- <-.
  apply io_bind_step in Hr as (x & w2 & H2 & Hr). destruct (client_post _ _ _ _) as [y w3]. injection H2 as <- <-.
  destruct (map_err _ y) as [response|e|p]; [|by injection Hr as -> ->..].
  apply io_bind_step in Hr as (u & w2 & H3 & Hr). cbn in H3. injection H3 as <- <-. by injection Hr as _ <- <-.
Qed.
Lemma complete_attempt_state self method body s w r s1 w1 : complete_attempt self method body (s, w) = (r, (s1, w1)) →
  hs_next_id s1 = hs_next_id s ∧ logical_requests (hs_metrics s1) = logical_requests (hs_metrics s) ∧
  transport_attempts (hs_metrics s1) = bumps 1 (transport_attempts (hs_metrics s)) ∧
  transport_retries (hs_metrics s1) = transport_retries (hs_metrics s).
Proof.
  unfold complete_attempt. intros (x & [s2 w2] & H1 & Hr)%io_bind_step.
  enough ((s1, w1) = (s2, w2)) as [= -> ->] by by apply send_attempt_state in H1.
  destruct x; [|done..].
  repeat (apply io_bind_step in Hr as (? & ? & ->%lift_state & Hr); case_match; [|done..]).
  by apply lift_state in Hr.
Qed.
Lemma retried_state self method body attempt w waits r w' : retried self method body attempt w waits r w' →
  hs_next_id w'.1 = hs_next_id w.1 ∧ logical_requests (hs_metrics w'.1) = logical_requests (hs_metrics w.1) ∧
  transport_attempts (hs_metrics w'.1) = bumps (S (length waits)) (transport_attempts (hs_metrics w.1)) ∧
  transport_retries (hs_metrics w'.1) = bumps (length waits) (transport_retries (hs_metrics w.1)).
Proof.
  induction 1 as [attempt [s w] r [s' w'] Hc _|attempt [s w] e s1 w1 waits r [s' w'] Hc _ _ _ IH];
    apply complete_attempt_state in Hc as (Hi & Hl & Ha & Hr); cbn in *; [by rewrite Ha|].
  destruct IH as (Hi' & Hl' & Ha' & Hr'). rewrite Ha', Hr', Ha, Hr. split_and!; congruence.
Qed.

Lemma sum_map_le (f g : nat → N) l : (∀ i, i ∈ l → f i ≤ g i) → sum_N (map f l) ≤ sum_N (map g l).
Proof.
  unfold sum_N. induction l as [|i l IH]; intros Hfg; cbn; [done|]. apply N.add_le_mono; [apply Hfg|apply IH; intros; apply Hfg]; set_solver.
Qed.
Lemma backoff_le self attempt : hp_retry_delay_ms self ≤ MAX_RPC_RETRY_DELAY_MS → 
  backoff self attempt ≤ MAX_RPC_RETRY_DELAY_MS * 2 ^ attempt.
Proof.
  intros Hd. unfold backoff, saturating_mul. rewrite N.shiftl_1_l.
  etransitivity; [apply N.le_min_l|]. apply N.mul_le_mono; [done|]. apply N.pow_le_mono_r; lia.
Qed.

(** C38: a client that could be built posts a request at least once and at most nine
    times: its attempts follow each other from number zero, each one but the last ends
    in an error that may pass and is followed by the wait of its number, the last one's
    answer is the request's, and it is retryable only when the retry count is spent.
    The waits double from the configured delay, and never come to more than 2,550
    seconds together; each attempt and each retry is counted once, and no attempt takes
    an identifier. *)
Theorem request_attempts_bounded endpoint drpc_key timeout_ms retry_count retry_delay_ms cap proxy self method body w r w' :
  new_inner endpoint drpc_key timeout_ms retry_count retry_delay_ms cap proxy = Ok self →
  complete_request self method body w = (r, w') →
  ∃ waits, retried self method body 0 w waits r w' ∧ (length waits ≤ 8)%nat ∧
    waits = map (fun i => backoff self (N.of_nat i)) (seq 0 (length waits)) ∧ sum_N waits ≤ 2550000 ∧
    transport_attempts (hs_metrics w'.1) = bumps (S (length waits)) (transport_attempts (hs_metrics w.1)) ∧
    transport_retries (hs_metrics w'.1) = bumps (length waits) (transport_retries (hs_metrics w.1)) ∧
    hs_next_id w'.1 = hs_next_id w.1.
Proof.
  intros (_ & _ & _ & Hr & Hd & _)%new_inner_ok Hq.
  apply attempts_retried in Hq as (waits & Hw & Hl & Hm); [|lia].
  exists waits. destruct (retried_state _ _ _ _ _ _ _ _ Hw) as (Hi & _ & Ha & Ht). unfold MAX_RPC_RETRIES in Hr.
  split_and!; try done; [lia|]. rewrite Hm.
  etransitivity; [apply (sum_map_le _ (fun i => MAX_RPC_RETRY_DELAY_MS * 2 ^ N.of_nat i)); intros; by apply backoff_le|].
  assert (length waits ≤ 8)%nat as H8 by lia. revert H8. generalize (length waits). intros n H8.
  do 9 (destruct n as [|n]; [by vm_compute|]). lia.
Qed.
End Bounds.

(* ------------------------------------------------------------------ *)
(** ** A client at work *)

Module HttpDemo.
(** An address is its scheme and its host; the server's next replies and the waits so
    far are the world; a body's first byte picks the value it stands for. *)
#[local] Instance demo_url : UrlCrate := {|
  Url := string * string;
  url_parse s := if String.prefix "https://" s then Some ("https", String.substring 8 (String.length s - 8) s) else None;
  url_scheme := fst;
  url_host_str u := Some u.2;
  url_port _ := None;
  url_username _ := "";
  url_password _ := None
|}.
Definition Replies : Type := list (outcome HttpFailure HttpResponse) * list N.
#[local] Instance demo_http : HttpCrate Replies := {|
  header_value_ok _ := true;
  proxy_https _ := Ok tt;
  client_build _ := Ok tt;
  client_post _ _ _ w := match w.1 with
                         | [] => (Err (mkHttpFailure false true false), w)
                         | r :: rs => (r, (rs, w.2))
                         end;
  sleep_ms n w := (w.1, w.2 ++ [n])
|}.
Definition member (id : N) (result : string) : Value :=
  VObject [("id", number_value id); ("jsonrpc", VString "2.0"); ("result", VString result)].
#[local] Instance demo_json : ValueJson := {|
  value_from_slice bytes := match bytes with [] => None | _ => Some (VArray [member 2 "second"; member 1 "first"]) end;
  value_to_bytes _ := []
|}.
Definition busy : outcome HttpFailure HttpResponse := Ok (mkHttpResponse 429 None []).
Definition broken : outcome HttpFailure HttpResponse := Err (mkHttpFailure true false false).
Definition answered : outcome HttpFailure HttpResponse := Ok (mkHttpResponse 200 (Some 1) [Ok ["x"%byte]]).
Definition endpoint : string := "https://lb.drpc.org".
Definition client : HttpRpc := mkHttpRpc ("https", "lb.drpc.org") (mkHttpClient (Some "key") 1000 None) 5 200 DEFAULT_RPC_RESPONSE_BYTE_CAP.
Definition body : Value := batch_body 1 "eth_call" [VNull; VNull].
Definition start : HttpState * Replies := (new_state, ([busy; broken; answered], [])).

(** The provider is busy, then silent, then answers out of order. *)
Example batch_reordered :
  let '(r, (s, w)) := http_batch_request client "eth_call" [VNull; VNull] start in
  r = Ok [VString "first"; VString "second"] ∧ w = ([], [200; 400]) ∧
  hs_next_id s = 3 ∧ hs_metrics s = mkRpcMetrics 2 3 2 2.
Proof. by vm_compute. Qed.

Lemma request_attempts_bounded_witness :
  new_inner endpoint (Some "key") 1000 5 200 DEFAULT_RPC_RESPONSE_BYTE_CAP None = Ok client ∧
  (∃ w', complete_request client "eth_call" body start = (Ok (VArray [member 2 "second"; member 1 "first"]), w')) ∧
  let '(r, w') := complete_request client "eth_call" body start in
  ∃ waits, retried client "eth_call" body 0 start waits r w' ∧ (length waits ≤ 8)%nat ∧
    waits = map (fun i => backoff client (N.of_nat i)) (seq 0 (length waits)) ∧ sum_N waits ≤ 2550000 ∧
    transport_attempts (hs_metrics w'.1) = bumps (S (length waits)) (transport_attempts (hs_metrics start.1)) ∧
    transport_retries (hs_metrics w'.1) = bumps (length waits) (transport_retries (hs_metrics start.1)) ∧
    hs_next_id w'.1 = hs_next_id start.1.
Proof.
  split; [reflexivity|]. split; [eexists; vm_compute; reflexivity|].
  destruct (complete_request client "eth_call" body start) as [r w'] eqn:E.
  apply (request_attempts_bounded endpoint (Some "key") 1000 5 200 DEFAULT_RPC_RESPONSE_BYTE_CAP None client
           "eth_call" body start r w'); [reflexivity|exact E].
Defined.
End HttpDemo.
