(* ===== verification/Abi.v ===== *)
(** * The contract interfaces ([src/abi.rs])

    The Solidity functions and events the program reads, with the Rust types
    [alloy] gives their arguments and results: integers of every width are
    numbers, [bytes32] a 32-byte array, [bytes] a byte list.  The ABI encoding
    itself is the [alloy-sol-types] crate, behind [AbiCodec]. *)

From S2P Require Import Prelude Bytes Text Commit.
From Stdlib Require Import Strings.Byte.

Open Scope N_scope.

(** [IMulticall3::Call3] and [IMulticall3::Result]. *)
Record Call3 := mkCall3 { target : Address; allowFailure : bool; callData : list byte }.
Record CallResult := mkCallResult { success : bool; returnData : list byte }.

Record InsuredToken := mkInsuredToken {
  maxCoverageBps : N;
  underlyingPriceOracle : Address;
  underlyingConversionAddress : Address;
  underlyingConversionCallData : list byte
}.
Record incidentsReturn := mkIncidentsReturn {
  ir_insuredToken : Address;
  ir_resolvedAt : N;
  ir_referenceBlock : N;
  ir_openBlock : N;
  ir_phaseDeadline : N;
  ir_root : Hash;
  ir_unresolvedClaims : N;
  ir_claimSetHash : Hash;
  ir_teePcrHash : Hash;
  ir_protocolFeeShareBps : N
}.
Record settlementParamsReturn := mkSettlementParamsReturn {
  twapLookbackBlocks : N;
  minHoldingRequired : N;
  sampleStepBlocks : N
}.
Record IncidentTimingConfig := mkIncidentTimingConfig {
  phaseWindow : N;
  maxReferenceBlockAge : N
}.
Record IncidentOpenPriceConfig := mkIncidentOpenPriceConfig {
  twapBlocks : N;
  op_sampleStepBlocks : N;
  minimumDropBps : N
}.
Record SolRatePoint := mkSolRatePoint { fromBlock : N; sol_rate : N }.
Record coverPoolsReturn := mkCoverPoolsReturn { cp_assets : list Address; cp_poolAddrs : list Address }.
Record boosterConfigReturn := mkBoosterConfigReturn {
  bc_collection : Address;
  bc_tokenId : N;
  bc_boostBps : N
}.
Record latestRoundDataReturn := mkLatestRoundDataReturn {
  roundId : N;
  answer : Z;
  startedAt : N;
  updatedAt : N;
  answeredInRound : N
}.

(** The functions called, each with its contract. *)
Inductive SolFn :=
  | aggregate3
  | incidents | getInsuredToken | settlementParams | nextIncidentId | incidentPhaseWindow
  | incidentPools | isTeeSigner | incidentOpenEligibilityHash | registry
  | coverPools | coverPoolsLength | getScoredTokens | getScoredRateHistory
  | maxCoverPoolPayoutBps | scoreSpent | defiInsurance | assetUsdFeed | maxOracleStaleness
  | boosterConfig | teePcrHash | incidentTimingConfig | incidentOpenPriceConfig
  | asset | totalAssets
  | latestRoundData | feed_decimals
  | erc20_balanceOf | erc20_decimals
  | erc1155_balanceOf.

Definition sol_args (f : SolFn) : Type :=
  match f with
  | aggregate3 => list Call3
  | incidents | incidentPhaseWindow | incidentPools => N
  | getInsuredToken | incidentOpenEligibilityHash | getScoredRateHistory
  | scoreSpent | assetUsdFeed | isTeeSigner | erc20_balanceOf => Address
  | erc1155_balanceOf => Address * N
  | _ => unit
  end.

Definition sol_return (f : SolFn) : Type :=
  match f with
  | aggregate3 => list CallResult
  | incidents => incidentsReturn
  | getInsuredToken => InsuredToken
  | settlementParams => settlementParamsReturn
  | incidentPools | getScoredTokens => list Address
  | isTeeSigner => bool
  | incidentOpenEligibilityHash | teePcrHash => Hash
  | registry | defiInsurance | assetUsdFeed | asset => Address
  | coverPools => coverPoolsReturn
  | getScoredRateHistory => list SolRatePoint
  | boosterConfig => boosterConfigReturn
  | incidentTimingConfig => IncidentTimingConfig
  | incidentOpenPriceConfig => IncidentOpenPriceConfig
  | latestRoundData => latestRoundDataReturn
  | _ => N
  end.

(** The events decoded. *)
Inductive SolEvent := ClaimRegistered | ClaimCancelled | Transfer | TransferSingle | TransferBatch.

Record ClaimRegisteredData := mkClaimRegisteredData {
  cr_claimId : N; cr_incidentId : N; cr_user : Address;
  cr_insuredTokenAmount : N; cr_scoreToSpend : N; cr_boosterAmount : N
}.
Record ClaimCancelledData := mkClaimCancelledData { cc_claimId : N; cc_user : Address }.
Record TransferData := mkTransferData { tr_from : Address; tr_to : Address; tr_value : N }.
Record TransferSingleData := mkTransferSingleData {
  ts_operator : Address; ts_from : Address; ts_to : Address; ts_id : N; ts_value : N
}.
Record TransferBatchData := mkTransferBatchData {
  tb_operator : Address; tb_from : Address; tb_to : Address; tb_ids : list N; tb_values : list N
}.

Definition event_data (e : SolEvent) : Type :=
  match e with
  | ClaimRegistered => ClaimRegisteredData
  | ClaimCancelled => ClaimCancelledData
  | Transfer => TransferData
  | TransferSingle => TransferSingleData
  | TransferBatch => TransferBatchData
  end.

(** The crate: encoding of calls, validated decoding of results (with the
    error's text), re-encoding of results, and the same for logs. *)
Class AbiCodec := {
  abi_signature : SolFn → string;
  abi_encode : ∀ f, sol_args f → list byte;
  abi_decode_returns_validate : ∀ f, list byte → string + sol_return f;
  abi_encode_returns : ∀ f, sol_return f → list byte;
  event_signature : SolEvent → string;
  event_signature_hash : SolEvent → Hash;
  b256_from_str : string → string + Hash;
  hex_decode_error : string → string;
  decode_raw_log_validate : ∀ e, list Hash → list byte → string + event_data e
}.

(* ------------------------------------------------------------------ *)
(** ** A reference codec, used by the evaluated instances

    Every argument, result and event is numbered and written as big-endian
    bytes after a four-byte selector (arguments) or bare (results, events). *)
Module RefAbi.
Ltac record_eq_dec := solve_decision.

#[export] Instance Call3_eq_dec : EqDecision Call3. Proof. record_eq_dec. Defined.
#[export] Instance CallResult_eq_dec : EqDecision CallResult. Proof. record_eq_dec. Defined.
#[export] Instance InsuredToken_eq_dec : EqDecision InsuredToken. Proof. record_eq_dec. Defined.
#[export] Instance incidentsReturn_eq_dec : EqDecision incidentsReturn.
Proof. record_eq_dec. Defined.
#[export] Instance settlementParamsReturn_eq_dec : EqDecision settlementParamsReturn.
Proof. record_eq_dec. Defined.
#[export] Instance IncidentTimingConfig_eq_dec : EqDecision IncidentTimingConfig.
Proof. record_eq_dec. Defined.
#[export] Instance IncidentOpenPriceConfig_eq_dec : EqDecision IncidentOpenPriceConfig.
Proof. record_eq_dec. Defined.
#[export] Instance SolRatePoint_eq_dec : EqDecision SolRatePoint. Proof. record_eq_dec. Defined.
#[export] Instance coverPoolsReturn_eq_dec : EqDecision coverPoolsReturn.
Proof. record_eq_dec. Defined.
#[export] Instance boosterConfigReturn_eq_dec : EqDecision boosterConfigReturn.
Proof. record_eq_dec. Defined.
#[export] Instance latestRoundDataReturn_eq_dec : EqDecision latestRoundDataReturn.
Proof. record_eq_dec. Defined.
#[export] Instance ClaimRegisteredData_eq_dec : EqDecision ClaimRegisteredData.
Proof. record_eq_dec. Defined.
#[export] Instance ClaimCancelledData_eq_dec : EqDecision ClaimCancelledData.
Proof. record_eq_dec. Defined.
#[export] Instance TransferData_eq_dec : EqDecision TransferData. Proof. record_eq_dec. Defined.
#[export] Instance TransferSingleData_eq_dec : EqDecision TransferSingleData.
Proof. record_eq_dec. Defined.
#[export] Instance TransferBatchData_eq_dec : EqDecision TransferBatchData.
Proof. record_eq_dec. Defined.

#[export] Instance Call3_countable : Countable Call3 :=
  inj_countable' (fun c => (target c, allowFailure c, callData c))
    (fun '(a, b, c) => mkCall3 a b c) (fun '(mkCall3 _ _ _) => eq_refl).
#[export] Instance CallResult_countable : Countable CallResult :=
  inj_countable' (fun c => (success c, returnData c))
    (fun '(a, b) => mkCallResult a b) (fun '(mkCallResult _ _) => eq_refl).
#[export] Instance InsuredToken_countable : Countable InsuredToken :=
  inj_countable' (fun '(mkInsuredToken a b c d) => (a, b, c, d))
    (fun '(a, b, c, d) => mkInsuredToken a b c d) (fun '(mkInsuredToken _ _ _ _) => eq_refl).
#[export] Instance incidentsReturn_countable : Countable incidentsReturn :=
  inj_countable' (fun '(mkIncidentsReturn a b c d e f g h i j) => (a, b, c, d, e, f, g, h, i, j))
    (fun '(a, b, c, d, e, f, g, h, i, j) => mkIncidentsReturn a b c d e f g h i j)
    (fun '(mkIncidentsReturn _ _ _ _ _ _ _ _ _ _) => eq_refl).
#[export] Instance settlementParamsReturn_countable : Countable settlementParamsReturn :=
  inj_countable' (fun '(mkSettlementParamsReturn a b c) => (a, b, c))
    (fun '(a, b, c) => mkSettlementParamsReturn a b c)
    (fun '(mkSettlementParamsReturn _ _ _) => eq_refl).
#[export] Instance IncidentTimingConfig_countable : Countable IncidentTimingConfig :=
  inj_countable' (fun '(mkIncidentTimingConfig a b) => (a, b))
    (fun '(a, b) => mkIncidentTimingConfig a b) (fun '(mkIncidentTimingConfig _ _) => eq_refl).
#[export] Instance IncidentOpenPriceConfig_countable : Countable IncidentOpenPriceConfig :=
  inj_countable' (fun '(mkIncidentOpenPriceConfig a b c) => (a, b, c))
    (fun '(a, b, c) => mkIncidentOpenPriceConfig a b c)
    (fun '(mkIncidentOpenPriceConfig _ _ _) => eq_refl).
#[export] Instance SolRatePoint_countable : Countable SolRatePoint :=
  inj_countable' (fun '(mkSolRatePoint a b) => (a, b))
    (fun '(a, b) => mkSolRatePoint a b) (fun '(mkSolRatePoint _ _) => eq_refl).
#[export] Instance coverPoolsReturn_countable : Countable coverPoolsReturn :=
  inj_countable' (fun '(mkCoverPoolsReturn a b) => (a, b))
    (fun '(a, b) => mkCoverPoolsReturn a b) (fun '(mkCoverPoolsReturn _ _) => eq_refl).
#[export] Instance boosterConfigReturn_countable : Countable boosterConfigReturn :=
  inj_countable' (fun '(mkBoosterConfigReturn a b c) => (a, b, c))
    (fun '(a, b, c) => mkBoosterConfigReturn a b c) (fun '(mkBoosterConfigReturn _ _ _) => eq_refl).
#[export] Instance latestRoundDataReturn_countable : Countable latestRoundDataReturn :=
  inj_countable' (fun '(mkLatestRoundDataReturn a b c d e) => (a, b, c, d, e))
    (fun '(a, b, c, d, e) => mkLatestRoundDataReturn a b c d e)
    (fun '(mkLatestRoundDataReturn _ _ _ _ _) => eq_refl).
#[export] Instance ClaimRegisteredData_countable : Countable ClaimRegisteredData :=
  inj_countable' (fun '(mkClaimRegisteredData a b c d e f) => (a, b, c, d, e, f))
    (fun '(a, b, c, d, e, f) => mkClaimRegisteredData a b c d e f)
    (fun '(mkClaimRegisteredData _ _ _ _ _ _) => eq_refl).
#[export] Instance ClaimCancelledData_countable : Countable ClaimCancelledData :=
  inj_countable' (fun '(mkClaimCancelledData a b) => (a, b))
    (fun '(a, b) => mkClaimCancelledData a b) (fun '(mkClaimCancelledData _ _) => eq_refl).
#[export] Instance TransferData_countable : Countable TransferData :=
  inj_countable' (fun '(mkTransferData a b c) => (a, b, c))
    (fun '(a, b, c) => mkTransferData a b c) (fun '(mkTransferData _ _ _) => eq_refl).
#[export] Instance TransferSingleData_countable : Countable TransferSingleData :=
  inj_countable' (fun '(mkTransferSingleData a b c d e) => (a, b, c, d, e))
    (fun '(a, b, c, d, e) => mkTransferSingleData a b c d e)
    (fun '(mkTransferSingleData _ _ _ _ _) => eq_refl).
#[export] Instance TransferBatchData_countable : Countable TransferBatchData :=
  inj_countable' (fun '(mkTransferBatchData a b c d e) => (a, b, c, d, e))
    (fun '(a, b, c, d, e) => mkTransferBatchData a b c d e)
    (fun '(mkTransferBatchData _ _ _ _ _) => eq_refl).

#[export] Instance sol_args_eq_dec f : EqDecision (sol_args f).
Proof. destruct f; simpl; apply _. Defined.
#[export] Instance sol_args_countable f : Countable (sol_args f).
Proof. destruct f; simpl; apply _. Defined.
#[export] Instance sol_return_eq_dec f : EqDecision (sol_return f).
Proof. destruct f; simpl; apply _. Defined.
#[export] Instance sol_return_countable f : Countable (sol_return f).
Proof. destruct f; simpl; apply _. Defined.
#[export] Instance event_data_eq_dec e : EqDecision (event_data e).
Proof. destruct e; simpl; apply _. Defined.
#[export] Instance event_data_countable e : Countable (event_data e).
Proof. destruct e; simpl; apply _. Defined.

(** The bits of an encoding, eight to a byte; the last set bit ends them. *)
Fixpoint bits_of (p : positive) : list bool :=
  match p with xH => [true] | xO p => false :: bits_of p | xI p => true :: bits_of p end.
Fixpoint of_bits (l : list bool) : option positive :=
  match l with
  | [] => None
  | b :: l =>
      match of_bits l with
      | Some p => Some (if (b : bool) then xI p else xO p)
      | None => if b then Some xH else None
      end
  end.
Definition pack8 (a b c d e f g h : bool) : byte := Byte.of_bits (a, (b, (c, (d, (e, (f, (g, h))))))).
Fixpoint pack (l : list bool) : list byte :=
  match l with
  | a :: b :: c :: d :: e :: f :: g :: h :: l => pack8 a b c d e f g h :: pack l
  | [a; b; c; d; e; f; g] => [pack8 a b c d e f g false]
  | [a; b; c; d; e; f] => [pack8 a b c d e f false false]
  | [a; b; c; d; e] => [pack8 a b c d e false false false]
  | [a; b; c; d] => [pack8 a b c d false false false false]
  | [a; b; c] => [pack8 a b c false false false false false]
  | [a; b] => [pack8 a b false false false false false false]
  | [a] => [pack8 a false false false false false false false]
  | [] => []
  end.
Definition unpack8 (x : byte) : list bool :=
  let '(a, (b, (c, (d, (e, (f, (g, h))))))) := Byte.to_bits x in [a; b; c; d; e; f; g; h].
Definition unpack (data : list byte) : list bool := concat (map unpack8 data).

Lemma of_bits_zeros k : of_bits (replicate k false) = None.
Proof. induction k as [|k IH]; [done|]. cbn. by rewrite IH. Qed.
Lemma of_bits_of p k : of_bits (bits_of p ++ replicate k false) = Some p.
Proof. induction p as [p IH|p IH|]; cbn; [by rewrite IH..|]. by rewrite of_bits_zeros. Qed.
Lemma unpack8_pack8 a b c d e f g h : unpack8 (pack8 a b c d e f g h) = [a; b; c; d; e; f; g; h].
Proof. unfold unpack8, pack8. by rewrite Byte.to_bits_of_bits. Qed.
Lemma unpack_pack l : ∃ k, unpack (pack l) = l ++ replicate k false.
Proof.
  assert (∀ n l, (length l < n)%nat → ∃ k, unpack (pack l) = l ++ replicate k false) as Hn.
  { clear l. intros n. induction n as [|n IH]; intros l Hl; [lia|].
    destruct l as [|a [|b [|c [|d [|e [|f [|g [|h l]]]]]]]].
    1: by exists 0%nat.
    8: { destruct (IH l) as [k E]; [cbn in Hl; lia|]. exists k. cbn [pack]. unfold unpack in *.
         cbn [map concat]. by rewrite unpack8_pack8, E. }
    1: exists 7%nat. 2: exists 6%nat. 3: exists 5%nat. 4: exists 4%nat. 5: exists 3%nat.
    6: exists 2%nat. 7: exists 1%nat.
    all: cbn [pack]; unfold unpack; cbn [map concat]; by rewrite unpack8_pack8. }
  by apply (Hn (S (length l))); lia.
Qed.
Definition write {A} `{Countable A} (x : A) : list byte := pack (bits_of (encode x)).
Definition read {A} `{Countable A} (data : list byte) : option A := p ← of_bits (unpack data); decode p.

Lemma read_write {A} `{Countable A} (x : A) : read (write x) = Some x.
Proof.
  unfold read, write. destruct (unpack_pack (bits_of (encode x))) as [k ->].
  rewrite of_bits_of. apply decode_encode.
Qed.
#[export] Instance SolFn_eq_dec : EqDecision SolFn. Proof. solve_decision. Defined.
Definition all_fns : list SolFn :=
  [aggregate3; incidents; getInsuredToken; settlementParams; nextIncidentId; incidentPhaseWindow;
   incidentPools; isTeeSigner; incidentOpenEligibilityHash; registry; coverPools; coverPoolsLength;
   getScoredTokens; getScoredRateHistory; maxCoverPoolPayoutBps; scoreSpent; defiInsurance;
   assetUsdFeed; maxOracleStaleness; boosterConfig; teePcrHash; incidentTimingConfig;
   incidentOpenPriceConfig; asset; totalAssets; latestRoundData; feed_decimals; erc20_balanceOf;
   erc20_decimals; erc1155_balanceOf].
Definition selector (f : SolFn) : list byte :=
  be_bytes 4 (N.of_nat (default 99%nat (fst <$> list_find (fun g => f = g) all_fns))).
Definition event_number (e : SolEvent) : N :=
  match e with
  | ClaimRegistered => 1 | ClaimCancelled => 2 | Transfer => 3 | TransferSingle => 4
  | TransferBatch => 5
  end.
Definition event_hash (e : SolEvent) : Hash := array_of 32 (be_bytes 32 (event_number e)).

#[export] Instance abi_codec : AbiCodec := {|
  abi_signature := fun _ => "signature";
  abi_encode := fun f args => selector f ++ write args;
  abi_decode_returns_validate := fun f data =>
    match read data with Some v => inr v | None => inl "type check failed" end;
  abi_encode_returns := fun f v => write v;
  event_signature := fun _ => "event";
  event_signature_hash := event_hash;
  b256_from_str := fun s =>
    match (raw ← strip_prefix "0x" s; bytes ← RefHex.decode raw; try_array 32 bytes) with
    | Some h => inr h | None => inl "invalid string length" end;
  hex_decode_error := fun _ => "invalid character";
  decode_raw_log_validate := fun e topics data =>
    if bool_decide (head topics = Some (event_hash e)) then
      match read data with Some v => inr v | None => inl "type check failed" end
    else inl "invalid signature hash"
|}.
End RefAbi.
