(* ===== verification/Config.v ===== *)
(** * Derived configuration ([src/config.rs])

    The bootstrap configuration read from the registry, its checks and its
    committed hash.  [SerdeJson] is the writer of the [serde_json] crate; a
    serialized struct is an object with its fields in declaration order. *)

From S2P Require Import Prelude Bytes Text Commit Rpc.
From Stdlib Require Import Strings.Byte.

Open Scope string_scope.
Open Scope N_scope.
Open Scope list_scope.

Class SerdeJson := { serde_to_string : Value → outcome string string }.
(** JSON text determines the value it was written from. *)
Class SerdeLaws `{SerdeJson} : Prop := {
  serde_to_string_inj : ∀ a b s, serde_to_string a = Ok s → serde_to_string b = Ok s → a = b
}.

Definition CONFIG_VERSION : string := "5.0.0".

Inductive ConfigError :=
  | ZeroRegistry
  | ConfigZeroDefiInsurance
  | InvalidBoosterBoostBps (bps : N)
  | InvalidOracleStaleness
  | MissingAssetFeed (asset : Address)
  | ConfigJson (message : string).

#[export] Instance ConfigError_eq_dec : EqDecision ConfigError.
Proof. solve_decision. Defined.

Record BootstrapConfig := mkBootstrapConfig {
  cfg_version : string;
  cfg_chain_id : N;
  cfg_registry : Address;
  cfg_defi_insurance : Address;
  cfg_booster_id : N;
  cfg_booster_boost_bps : N;
  cfg_asset_usd_feed : gmap Address Address;
  cfg_max_oracle_staleness : N
}.

Record Commitment := mkCommitment {
  cm_version : string;
  cm_chain_id : string;
  cm_registry : string;
  cm_defi_insurance : string;
  cm_booster_id : string;
  cm_booster_boost_bps : string;
  cm_asset_usd_feed : list (string * string);
  cm_max_oracle_staleness : string;
  cm_max_log_range : string;
  cm_log_result_cap : string
}.

(** The derived [Serialize] of [Commitment] (camelCase names). *)
Definition commitment_value (c : Commitment) : Value :=
  VObject
    [("version", VString (cm_version c)); ("chainId", VString (cm_chain_id c));
     ("registry", VString (cm_registry c)); ("defiInsurance", VString (cm_defi_insurance c));
     ("boosterId", VString (cm_booster_id c));
     ("boosterBoostBps", VString (cm_booster_boost_bps c));
     ("assetUsdFeed", VArray (map (fun '(asset, feed) => VArray [VString asset; VString feed])
                                (cm_asset_usd_feed c)));
     ("maxOracleStaleness", VString (cm_max_oracle_staleness c));
     ("maxLogRange", VString (cm_max_log_range c));
     ("logResultCap", VString (cm_log_result_cap c))].

Section Config.
Context `{HexCrate, Sha3Crate, SerdeJson}.
(** [CHAIN_ID]: 1, or 11155111 when built with the [sepolia] feature. *)
Context (CHAIN_ID : N).

Definition derived (registry defi_insurance : Address) (booster_id booster_boost_bps : N)
    (asset_usd_feed : gmap Address Address) (max_oracle_staleness : N) :
    outcome ConfigError BootstrapConfig :=
  _ ← bail_if (address_is_zero registry) ZeroRegistry;
  _ ← bail_if (address_is_zero defi_insurance) ConfigZeroDefiInsurance;
  _ ← bail_if ((booster_boost_bps =? 0) || (65535 <? booster_boost_bps))
        (InvalidBoosterBoostBps booster_boost_bps);
  _ ← bail_if (max_oracle_staleness =? 0) InvalidOracleStaleness;
  match List.find (fun '(_, feed) => address_is_zero feed) (btree_iter asset_usd_feed) with
  | Some (asset, _) => Err (MissingAssetFeed asset)
  | None => Ok (mkBootstrapConfig CONFIG_VERSION CHAIN_ID registry defi_insurance booster_id
                  booster_boost_bps asset_usd_feed max_oracle_staleness)
  end.

Definition commitment (config : BootstrapConfig) : Commitment :=
  {| cm_version := cfg_version config;
     cm_chain_id := to_decimal (cfg_chain_id config);
     cm_registry := address_to_string (cfg_registry config);
     cm_defi_insurance := address_to_string (cfg_defi_insurance config);
     cm_booster_id := to_decimal (cfg_booster_id config);
     cm_booster_boost_bps := to_decimal (cfg_booster_boost_bps config);
     cm_asset_usd_feed :=
       map (fun '(asset, feed) => (address_to_string asset, address_to_string feed))
         (btree_iter (cfg_asset_usd_feed config));
     cm_max_oracle_staleness := to_decimal (cfg_max_oracle_staleness config);
     cm_max_log_range := to_decimal MAX_LOG_RANGE;
     cm_log_result_cap := to_decimal LOG_RESULT_CAP |}.

Definition commitment_json (config : BootstrapConfig) : outcome ConfigError string :=
  map_err ConfigJson (serde_to_string (commitment_value (commitment config))).

Definition config_hash (config : BootstrapConfig) : outcome ConfigError string :=
  json ← commitment_json config;
  Ok (hash_hex (keccak256 (as_bytes json))).

Definition asset_feed (config : BootstrapConfig) (asset : Address) : outcome ConfigError Address :=
  ok_or (cfg_asset_usd_feed config !! asset) (MissingAssetFeed asset).
End Config.

(* ------------------------------------------------------------------ *)
(** ** Helper lemmas *)

Section ConfigFacts.
Context `{HexLaws, Sha3Crate, SerdeLaws}.

Lemma address_to_string_inj a b : address_to_string a = address_to_string b → a = b.
Proof.
  unfold address_to_string. intros E. apply array_val_inj, hex_encode_inj.
  apply (inj Some). by rewrite <-!(strip_prefix_app "0x"), E.
Qed.
#[local] Instance address_to_string_Inj : Inj (=) (=) address_to_string := address_to_string_inj.

Lemma as_bytes_inj s t : as_bytes s = as_bytes t → s = t.
Proof.
  unfold as_bytes. intros E.
  by rewrite <-(String.string_of_list_byte_of_string s), E, String.string_of_list_byte_of_string.
Qed.

Lemma btree_iter_inj {K V} `{KeyOrder K, Countable K} (m1 m2 : gmap K V) :
  btree_iter m1 = btree_iter m2 → m1 = m2.
Proof.
  intros E. apply map_eq. intros k. apply option_eq. intros v.
  by rewrite <-!elem_of_btree_iter, E.
Qed.

Lemma commitment_value_inj a b : commitment_value a = commitment_value b → a = b.
Proof.
  destruct a, b. unfold commitment_value. simpl. intros [= -> -> -> -> -> -> E -> -> ->]. f_equal.
  revert E. generalize cm_asset_usd_feed0, cm_asset_usd_feed1. intros l.
  induction l as [|[? ?] l IH]; intros [|[? ?] k] [=]; [done|]. subst. f_equal. by apply IH.
Qed.
End ConfigFacts.

(* ------------------------------------------------------------------ *)
(** ** Theorems *)

Section ConfigTheorems.
Context `{HexLaws, Sha3Crate, SerdeLaws}.

(** The configuration hash commits to the whole derived configuration: two
    configurations with one hash are equal (registry, contracts, booster, every
    feed, staleness), unless a Keccak-256 collision is known. *)
Theorem config_hash_binding (a b : BootstrapConfig) (h : string) :
  config_hash a = Ok h → config_hash b = Ok h → a = b ∨ keccak_collision.
Proof.
  unfold config_hash, commitment_json.
  intros (ja & Ha%map_err_ok & Ea%(inj Ok))%bind_ok (jb & Hb%map_err_ok & Eb%(inj Ok))%bind_ok.
  subst h. apply hash_hex_inj in Eb.
  destruct (decide (as_bytes ja = as_bytes jb)) as [E%as_bytes_inj|Hne]; [left|right; by eexists _, _].
  subst jb. pose proof (serde_to_string_inj _ _ _ Ha Hb) as E. apply commitment_value_inj in E.
  destruct a as [v1 c1 r1 d1 b1 bb1 f1 s1], b as [v2 c2 r2 d2 b2 bb2 f2 s2].
  unfold commitment in E. cbn [cfg_version cfg_chain_id cfg_registry cfg_defi_insurance
    cfg_booster_id cfg_booster_boost_bps cfg_asset_usd_feed cfg_max_oracle_staleness] in E.
  assert (v1 = v2) as -> by congruence.
  assert (to_decimal c1 = to_decimal c2) as ->%(inj _) by congruence.
  assert (address_to_string r1 = address_to_string r2) as ->%address_to_string_inj by congruence.
  assert (address_to_string d1 = address_to_string d2) as ->%address_to_string_inj by congruence.
  assert (to_decimal b1 = to_decimal b2) as ->%(inj _) by congruence.
  assert (to_decimal bb1 = to_decimal bb2) as ->%(inj _) by congruence.
  assert (to_decimal s1 = to_decimal s2) as ->%(inj _) by congruence.
  f_equal. apply btree_iter_inj.
  apply (f_equal cm_asset_usd_feed) in E. simpl in E. revert E.
  generalize (btree_iter f1), (btree_iter f2). intros l.
  induction l as [|[x y] l IH]; intros [|[x' y'] k] E; try done.
  cbn [map] in E. assert (address_to_string x = address_to_string x') as ->%address_to_string_inj
    by congruence.
  assert (address_to_string y = address_to_string y') as ->%address_to_string_inj by congruence.
  f_equal. apply IH. congruence.
Qed.

(** Exactly the sound configurations are derived: [derived] succeeds if and
    only if registry and contract are non-zero, the boost is a non-zero 16-bit
    number, the staleness is positive and no asset has a zero feed; the result
    then carries its arguments, and each configured asset's feed is found. *)
Theorem derived_config_sound (chain : N) (registry defi : Address) (booster boost staleness : N)
    (feeds : gmap Address Address) :
  (∃ c, derived chain registry defi booster boost feeds staleness = Ok c) ↔
  address_is_zero registry = false ∧ address_is_zero defi = false ∧
  0 < boost ∧ boost ≤ 65535 ∧ 0 < staleness ∧
  ∀ asset feed, feeds !! asset = Some feed → address_is_zero feed = false.
Proof.
  unfold derived. split.
  - intros [c Hc]. repeat (apply bind_ok in Hc as (? & ?%bail_if_ok & Hc)).
    rewrite orb_false_iff, N.eqb_neq, N.ltb_ge in *.
    destruct (List.find _ _) as [[? ?]|] eqn:Hf; [done|].
    repeat split; try done; try lia. intros asset feed Hl.
    apply elem_of_btree_iter, list_elem_of_In in Hl. by apply (find_none _ _ Hf) in Hl.
  - intros (-> & -> & Hb1 & Hb2 & Hs & Hfeeds). cbn [bail_if mbind outcome_bind].
    rewrite (proj2 (N.eqb_neq boost 0)), (proj2 (N.ltb_ge 65535 boost)) by lia.
    cbn [orb bail_if mbind outcome_bind].
    rewrite (proj2 (N.eqb_neq staleness 0)) by lia. cbn [bail_if mbind outcome_bind].
    destruct (List.find _ _) as [[asset feed]|] eqn:Hf; [|by eexists].
    apply find_some in Hf as [Hin Hz]. apply list_elem_of_In, elem_of_btree_iter in Hin.
    by rewrite (Hfeeds _ _ Hin) in Hz.
Qed.
End ConfigTheorems.

(** *** An evaluated instance *)

(** A reference JSON writer: the text numbers the value, through the generic
    tree it is isomorphic to. *)
Module RefSerde.
#[export] Instance Number_eq_dec : EqDecision Number.
Proof. solve_decision. Defined.
#[export] Instance Number_countable : Countable Number :=
  inj_countable'
    (fun n => match n with PosInt n => inl (inl n) | NegInt z => inl (inr z) | Float b => inr b end)
    (fun s => match s with inl (inl n) => PosInt n | inl (inr z) => NegInt z | inr b => Float b end)
    (fun n => match n with PosInt _ | NegInt _ | Float _ => eq_refl end).

Definition leaf : Type := unit + bool + Number + string.
Fixpoint tree_of (v : Value) : gen_tree leaf :=
  match v with
  | VNull => GenLeaf (inl (inl (inl tt)))
  | VBool b => GenLeaf (inl (inl (inr b)))
  | VNumber n => GenLeaf (inl (inr n))
  | VString s => GenLeaf (inr s)
  | VArray l => GenNode 0 (map tree_of l)
  | VObject fields => GenNode 1 (map (fun '(k, v) => GenNode 2 [GenLeaf (inr k); tree_of v]) fields)
  end.

Fixpoint tree_of_inj (v w : Value) : tree_of v = tree_of w → v = w.
Proof.
  destruct v as [|b|n|s|l|fields], w as [|b'|n'|s'|l'|fields']; intros E; try done;
    try (injection E as E; by subst).
  - f_equal. injection E as E. revert l' E. induction l as [|x l IH]; intros [|y l'] E; try done.
    injection E as Ex El. f_equal; [by apply tree_of_inj|by apply IH].
  - f_equal. injection E as E. revert fields' E.
    induction fields as [|[k x] fields IH]; intros [|[k' y] fields'] E; try done.
    injection E as -> Ex El. f_equal; [f_equal; by apply tree_of_inj|by apply IH].
Qed.

#[export] Instance serde_json : SerdeJson :=
  {| serde_to_string v := Ok (to_decimal (N.pos (encode (tree_of v)))) |}.
#[export] Instance serde_laws : SerdeLaws.
Proof.
  constructor. intros a b s Ha Hb. apply (inj Ok) in Ha, Hb. subst s.
  apply (inj _) in Hb. apply tree_of_inj, (inj encode). congruence.
Qed.
End RefSerde.

Section ConfigWitnesses.
#[local] Existing Instance RefHex.hex_crate.
#[local] Existing Instance RefHex.hex_laws.
#[local] Existing Instance RefSha3.sha3_crate.
#[local] Existing Instance RefSerde.serde_json.
#[local] Existing Instance RefSerde.serde_laws.

Definition demo_config : BootstrapConfig :=
  mkBootstrapConfig CONFIG_VERSION 1 sample_user sample_user 1 100 {[sample_user := sample_user]} 3600.

Lemma config_hash_binding_witness : ∃ h, config_hash demo_config = Ok h ∧
  (demo_config = demo_config ∨ keccak_collision).
Proof.
  assert (∃ h, config_hash demo_config = Ok h) as [h E] by (eexists; reflexivity).
  exists h. split; [exact E|]. exact (config_hash_binding demo_config demo_config h E E).
Defined.
End ConfigWitnesses.
