(* ===== verification/Chain.v ===== *)
(** * Pinned chain reads ([src/chain.rs], first part)

    Blocks, finalized settlement anchors, the binary search of a block by its
    timestamp, contract calls and the Multicall3 aggregation of getters.  All
    reads go through the trait [Rpc], so every operation is a computation over
    the outside world [W]. *)

From S2P Require Import Prelude Bytes Text Commit Rpc Abi.
From Stdlib Require Import Strings.Byte.

Open Scope string_scope.
Open Scope N_scope.
Open Scope list_scope.

Record BlockAnchor := mkBlockAnchor { ba_number : N; ba_timestamp : N; ba_hash : string }.
Record SettlementAnchors := mkSettlementAnchors {
  sa_reference : BlockAnchor;
  sa_open : BlockAnchor;
  sa_window_end : BlockAnchor;
  sa_finalized_head : BlockAnchor
}.
#[export] Instance BlockAnchor_eq_dec : EqDecision BlockAnchor.
Proof. solve_decision. Defined.
#[export] Instance SettlementAnchors_eq_dec : EqDecision SettlementAnchors.
Proof. solve_decision. Defined.

Inductive ChainError :=
  | ChainRpc (error : RpcError)
  | InvalidQuantity (field : string)
  | InvalidBlock (message : string)
  | WindowNotFinalized (deadline head timestamp : N)
  | AnchorNotFinalized (reference open head : N)
  | AnchorChanged (name : string) (block : N) (before after : string)
  | MissingCode (label address : string) (block : N)
  | AbiError (function message : string)
  | InvalidCallResult (message : string)
  | ChainUint256Overflow (field : string)
  | InvalidConfiguration (message : string)
  | InvalidPoolTopology (message : string)
  | PoolAssetMismatch (pool actual expected : Address)
  | InvalidOracle (oracle : Address) (message : string)
  | InvalidConversion (address : Address) (message : string)
  | EventDecode (event : string) (block index : N) (message : string)
  | ReplayUnderflow (asset : Address) (block index : N)
  | BalanceReplayMismatch (asset : Address) (replayed actual block : N)
  | BatchLengthMismatch.
#[export] Instance ChainError_eq_dec : EqDecision ChainError.
Proof. solve_decision. Defined.

(** [vec[i]]: a panic out of range. *)
Definition index_at {E A} (l : list A) (i : nat) : outcome E A :=
  match l !! i with Some x => Ok x | None => Panic "index out of bounds" end.

(** [slice::chunks(n)], for [n] positive. *)
Fixpoint chunks_go {A} (fuel n : nat) (l : list A) : list (list A) :=
  match fuel, l with
  | S fuel, _ :: _ => take n l :: chunks_go fuel n (drop n l)
  | _, _ => []
  end.
Definition chunks {A} (n : nat) (l : list A) : list (list A) := chunks_go (length l) n l.

Section Chain.
Context `{HexCrate, AbiCodec} {W : Type} `{!RpcIface W}.

(** The trait's requests, their errors converted by [?]. *)
Definition chain_request (method : string) (params : Value) : io W ChainError Value :=
  map_err_io ChainRpc (rpc_request method params).

Definition quantity (value : Value) (field : string) : outcome ChainError N :=
  raw ← ok_or
    (value ← as_str value; value ← strip_prefix "0x" value;
     if str_is_empty value then None else Some value)
    (InvalidQuantity field);
  ok_or (u64_from_str_radix16 raw) (InvalidQuantity field).

Definition block_hash (value : Value) : outcome ChainError string :=
  hash ← ok_or
    (value ← as_str value; value ← strip_prefix "0x" value;
     if (str_len value =? 64) && bool_decide (is_Some (hex_decode value)) then Some value else None)
    (InvalidBlock "missing or malformed hash");
  Ok ("0x" +:+ to_ascii_lowercase hash).

Definition is_null (value : Value) : bool := match value with VNull => true | _ => false end.

Definition block (tag : string) (expected_number : option N) : io W ChainError BlockAnchor :=
  value ← chain_request "eth_getBlockByNumber" (VArray [VString tag; VBool false]);
  _ ← lift (bail_if (is_null value) (InvalidBlock ("block " +:+ tag +:+ " not found")));
  number ← lift (quantity (at_key value "number") "block.number");
  _ ← lift (match expected_number with
            | Some expected => bail_if (negb (expected =? number))
                (InvalidBlock ("requested block " +:+ to_decimal expected +:+
                   " but provider returned " +:+ to_decimal number))
            | None => Ok tt
            end);
  timestamp ← lift (quantity (at_key value "timestamp") "block.timestamp");
  hash ← lift (block_hash (at_key value "hash"));
  mret (mkBlockAnchor number timestamp hash).

Definition block_by_number (number : N) : io W ChainError BlockAnchor :=
  block (block_tag number) (Some number).
Definition finalized_block : io W ChainError BlockAnchor := block "finalized" None.
Definition latest_block : io W ChainError BlockAnchor := block "latest" None.
Definition chain_id : io W ChainError N :=
  value ← chain_request "eth_chainId" (VArray []);
  lift (quantity value "chainId").

(** The loop [while low < high]; every iteration at least halves [high - low]. *)
Fixpoint timestamp_search (fuel : nat) (timestamp low high : N) : io W ChainError N :=
  if low <? high then
    match fuel with
    | O => lift (Panic "out of fuel")
    | S fuel =>
        half ← lift (div_ceil (u64_sub high low) 2);
        let middle := u64_add low half in
        candidate ← block_by_number middle;
        if ba_timestamp candidate <=? timestamp then timestamp_search fuel timestamp middle high
        else timestamp_search fuel timestamp low (u64_sub middle 1)
    end
  else mret low.

Definition block_at_or_before_timestamp (timestamp upper_bound : N) : io W ChainError N :=
  head ← block_by_number upper_bound;
  _ ← lift (bail_if (ba_timestamp head <? timestamp)
              (WindowNotFinalized timestamp (ba_number head) (ba_timestamp head)));
  timestamp_search 64 timestamp 1 upper_bound.

Definition finalized_settlement_anchors (reference_block open_block window_end_timestamp : N) :
    io W ChainError SettlementAnchors :=
  finalized ← finalized_block;
  _ ← lift (bail_if (ba_timestamp finalized <? window_end_timestamp)
              (WindowNotFinalized window_end_timestamp (ba_number finalized)
                 (ba_timestamp finalized)));
  _ ← lift (bail_if ((ba_number finalized <? reference_block) || (ba_number finalized <? open_block))
              (AnchorNotFinalized reference_block open_block (ba_number finalized)));
  window_end_block ← block_at_or_before_timestamp window_end_timestamp (ba_number finalized);
  reference ← block_by_number reference_block;
  open ← block_by_number open_block;
  window_end ← block_by_number window_end_block;
  mret (mkSettlementAnchors reference open window_end finalized).

Definition anchor_list (anchors : SettlementAnchors) : list (string * BlockAnchor) :=
  [("reference", sa_reference anchors); ("open", sa_open anchors);
   ("windowEnd", sa_window_end anchors); ("finalizedHead", sa_finalized_head anchors)].

Definition assert_anchor (anchor : string * BlockAnchor) : io W ChainError unit :=
  let '(name, expected) := anchor in
  actual ← block_by_number (ba_number expected);
  lift (bail_if (negb (String.eqb (ba_hash actual) (ba_hash expected)))
          (AnchorChanged name (ba_number expected) (ba_hash expected) (ba_hash actual))).

Definition assert_anchors_unchanged (anchors : SettlementAnchors) : io W ChainError unit :=
  fold_m (fun _ anchor => assert_anchor anchor) tt (anchor_list anchors).

Definition assert_contract_code_at (address label : string) (block_number : N) :
    io W ChainError unit :=
  code ← chain_request "eth_getCode" (VArray [VString address; VString (block_tag block_number)]);
  lift (bail_if (match as_str code with
                 | None => true
                 | Some code => String.eqb code "0x" || str_is_empty code
                 end) (MissingCode label address block_number)).

(** *** Integers of the contract interface *)

Definition u256_to_big (value : N) : N := value.
Definition u256_to_u64 (value : N) (field : string) : outcome ChainError N :=
  if u256_to_big value <=? u64_max then Ok (u256_to_big value) else Err (ChainUint256Overflow field).
Definition big_to_u256 (value : N) (field : string) : outcome ChainError N :=
  let bytes := to_bytes_be value in
  _ ← bail_if (Nat.ltb 32 (length bytes)) (ChainUint256Overflow field);
  Ok (from_bytes_be bytes).

(** *** Calls *)

Definition decode_call_result (value : Value) : outcome ChainError (list byte) :=
  encoded ← ok_or
    (value ← as_str value; value ← strip_prefix "0x" value;
     if N.even (str_len value) then Some value else None)
    (InvalidCallResult "result is not 0x-prefixed even-length hex");
  ok_or (hex_decode encoded) (InvalidCallResult "result is not valid hex").

Definition call_params (to : Address) (data : list byte) (tag : string) : Value :=
  VArray [VObject [("to", VString (address_to_string to));
                   ("data", VString ("0x" +:+ hex_encode data))]; VString tag].

Definition raw_call (to : Address) (data : list byte) (block_number : option N) :
    io W ChainError (list byte) :=
  let tag := match block_number with Some number => block_tag number | None => "latest" end in
  result ← chain_request "eth_call" (call_params to data tag);
  lift (decode_call_result result).

Definition contract_call (f : SolFn) (to : Address) (call : sol_args f) (block_number : option N) :
    io W ChainError (sol_return f) :=
  data ← raw_call to (abi_encode f call) block_number;
  lift (match abi_decode_returns_validate f data with
        | inl message => Err (AbiError (abi_signature f) message)
        | inr value => Ok value
        end).

Definition MULTICALL3 : Address :=
  array_of 20 [xca; x11; xbd; xe0; x59; x77; xb3; x63; x11; x67;
               x02; x88; x62; xbe; x2a; x17; x39; x76; xca; x11].

Definition read_call (f : SolFn) (target : Address) (call : sol_args f) : Call3 :=
  mkCall3 target false (abi_encode f call).

(** The result of a read must be its exact ABI encoding. *)
Definition decode_read (f : SolFn) (data : list byte) : outcome ChainError (sol_return f) :=
  match abi_decode_returns_validate f data with
  | inl message => Err (AbiError (abi_signature f) message)
  | inr value =>
      if bool_decide (abi_encode_returns f value = data) then Ok value
      else Err (AbiError (abi_signature f) "non-canonical or trailing return data")
  end.

Definition MAX_CALLS : nat := 64.
Definition MAX_INPUT_BYTES : N := 32 * 1024.

Definition invalid_read (call : Call3) : bool :=
  allowFailure call || Nat.ltb (length (callData call)) 4.

(** One plan per chunk, its encoding below the byte cap. *)
Definition plan_chunk (plans : list (list Call3 * list byte)) (chunk : list Call3) :
    outcome ChainError (list (list Call3 * list byte)) :=
  let data := abi_encode aggregate3 chunk in
  _ ← bail_if (MAX_INPUT_BYTES <? N.of_nat (length data))
        (InvalidCallResult "Multicall3 request byte cap exceeded");
  Ok (plans ++ [(chunk, data)]).

Definition accept_result (output : list (list byte)) (item : CallResult * Call3) :
    outcome ChainError (list (list byte)) :=
  let '(result, input) := item in
  _ ← bail_if (negb (success result) || bool_decide (returnData result = []))
        (InvalidCallResult ("Multicall3 failed or empty subcall to " +:+
           address_to_string (target input) +:+ " selector 0x" +:+
           hex_encode (take 4 (callData input))));
  Ok (output ++ [returnData result]).

Definition run_plan (block : N) (output : list (list byte)) (plan : list Call3 * list byte) :
    io W ChainError (list (list byte)) :=
  let '(calls, encoded) := plan in
  match calls with
  | [input] =>
      data ← raw_call (target input) (callData input) (Some block);
      _ ← lift (bail_if (bool_decide (data = [])) (InvalidCallResult "empty required read"));
      mret (output ++ [data])
  | _ =>
      data ← raw_call MULTICALL3 encoded (Some block);
      results ← lift (decode_read aggregate3 data);
      _ ← lift (bail_if (negb (Nat.eqb (length results) (length calls)))
                  (InvalidCallResult "Multicall3 result count mismatch"));
      lift (fold_m accept_result output (zip results calls))
  end.

Definition aggregate_reads (calls : list Call3) (block : N) : io W ChainError (list (list byte)) :=
  _ ← lift (bail_if (existsb invalid_read calls) (InvalidCallResult "invalid required read plan"));
  plans ← lift (fold_m plan_chunk [] (chunks MAX_CALLS calls));
  fold_m (run_plan block) [] plans.
End Chain.

(* ------------------------------------------------------------------ *)
(** ** Helper lemmas: block reads of a provider that serves one chain *)

Lemma format_hex_nonempty n : str_is_empty (format_hex n) = false.
Proof.
  destruct (str_is_empty (format_hex n)) eqn:E; [|done].
  unfold str_is_empty in E. destruct (format_hex n) eqn:En; [|done].
  pose proof (HexadecimalN.Unsigned.of_to n) as Hof. unfold format_hex in En.
  destruct (N.to_hex_uint n); discriminate En.
Qed.

Lemma quantity_tag field n : n ≤ u64_max → quantity (VString (block_tag n)) field = Ok n.
Proof.
  intros Hn. unfold quantity, block_tag. cbn [as_str mbind option_bind]. rewrite strip_prefix_app.
  cbn [mbind option_bind]. rewrite format_hex_nonempty. cbn [ok_or mbind outcome_bind].
  rewrite u64_from_str_format_hex. by rewrite (proj2 (N.leb_le n u64_max)).
Qed.

(** [chunks] splits a list in order into non-empty pieces. *)
Lemma chunks_go_join {A} fuel n (l : list A) : (0 < n)%nat → (length l ≤ fuel)%nat →
  mjoin (chunks_go fuel n l) = l ∧ [] ∉ chunks_go fuel n l.
Proof.
  intros Hn. revert l. induction fuel as [|fuel IH]; intros [|x l] Hl; cbn [chunks_go length] in *;
    try (split; [done|apply not_elem_of_nil]); [lia|].
  destruct (IH (drop n (x :: l))) as [Hj Hni].
  { rewrite length_drop. cbn [length]. lia. }
  split.
  - change (mjoin (?a :: ?b)) with (a ++ mjoin b). rewrite Hj. apply take_drop.
  - apply not_elem_of_cons. split; [|done]. destruct n; [lia|done].
Qed.

Lemma chunks_join {A} n (l : list A) : (0 < n)%nat → mjoin (chunks n l) = l ∧ [] ∉ chunks n l.
Proof. intros Hn. by apply chunks_go_join. Qed.

Section Serves.
Context `{HexLaws} {W : Type} `{!RpcIface W}.
(** The chain: each block's timestamp and hash. *)
Context (ts : N → N) (hashes : N → Hash).

Definition block_json (n : N) : Value :=
  VObject [("number", VString (block_tag n)); ("timestamp", VString (block_tag (ts n)));
           ("hash", VString (hash_hex (hashes n)))].
Definition chain_anchor (n : N) : BlockAnchor := mkBlockAnchor n (ts n) (hash_hex (hashes n)).

(** The provider answers every block request up to [upper] from that chain. *)
Definition serves_chain (upper : N) : Prop :=
  ∀ n w, n ≤ upper →
    ∃ w', rpc_request "eth_getBlockByNumber" (VArray [VString (block_tag n); VBool false]) w
          = (Ok (block_json n), w').

Definition widths (upper : N) : Prop := upper ≤ u64_max ∧ ∀ n, n ≤ upper → ts n ≤ u64_max.

Lemma block_hash_hex (h : Hash) : block_hash (VString (hash_hex h)) = Ok (hash_hex h).
Proof.
  unfold block_hash, hash_hex. cbn [as_str mbind option_bind]. rewrite strip_prefix_app.
  cbn [mbind option_bind]. rewrite hex_encode_len, array_length, hex_decode_encode.
  rewrite bool_decide_eq_true_2 by done. change (2 * N.of_nat 32 =? 64) with true.
  cbn [andb ok_or mbind outcome_bind].
  by rewrite hex_encode_lower.
Qed.

Lemma serves_block upper n w : serves_chain upper → widths upper → n ≤ upper →
  ∃ w', block_by_number n w = (Ok (chain_anchor n), w').
Proof.
  intros Hs [Hu Ht] Hn. destruct (Hs n w Hn) as [w' Hr]. exists w'.
  unfold block_by_number, block, chain_request.
  rewrite (io_bind_eval _ _ _ (block_json n) w') by (unfold map_err_io; by rewrite Hr).
  cbn [block_json is_null bail_if].
  change (at_key (block_json n) "number") with (VString (block_tag n)).
  change (at_key (block_json n) "timestamp") with (VString (block_tag (ts n))).
  change (at_key (block_json n) "hash") with (VString (hash_hex (hashes n))).
  specialize (Ht n Hn). rewrite io_bind_lift, (quantity_tag _ n), io_bind_lift, N.eqb_refl by lia.
  cbn [negb bail_if]. by rewrite io_bind_lift, quantity_tag, io_bind_lift, block_hash_hex.
Qed.

Lemma div_ceil_total a b : b ≠ 0 → ∃ c, ∀ E, div_ceil (E := E) a b = Ok c.
Proof. intros Hb. unfold div_ceil. destruct (N.eqb_spec b 0); [done|]. by eexists. Qed.

(** The loop keeps the answer between [low] and [high] and halves the gap. *)
Lemma timestamp_search_spec upper t : serves_chain upper → widths upper →
  ∀ fuel low high w,
  1 ≤ low → low ≤ high → high ≤ upper → high - low < 2 ^ N.of_nat fuel →
  ts low ≤ t → (∀ k, high < k → k ≤ upper → t < ts k) →
  (∀ a b, 1 ≤ a → a ≤ b → b ≤ upper → ts a ≤ ts b) →
  ∃ b w', timestamp_search fuel t low high w = (Ok b, w') ∧ low ≤ b ∧ b ≤ high ∧ ts b ≤ t ∧
    ∀ k, b < k → k ≤ upper → t < ts k.
Proof.
  intros Hs Hw fuel. induction fuel as [|fuel IH]; intros low high w Hl Hlh Hu Hf Ht Hlate Hmono;
    cbn [timestamp_search]; destruct (N.ltb_spec low high) as [Hlt|Hge].
  - cbn in Hf. lia.
  - exists low, w. assert (high = low) as -> by lia. auto with lia.
  - destruct (div_ceil_total (u64_sub high low) 2) as [h Hh]; [done|].
    assert (high ≤ u64_max) as Hmax by (destruct Hw; lia).
    assert (Hd : ∃ c, div_ceil (E := unit) (u64_sub high low) 2 = Ok c) by (by exists h).
    pose proof (div_ceil_spec (E := unit) _ _ h (Hh _)) as (_ & Hh1 & Hh2).
    rewrite u64_sub_small in Hh1, Hh2 by (unfold u64_max, u64_modulus in *; lia).
    rewrite (io_bind_eval _ _ _ h w) by (unfold lift; by rewrite Hh).
    rewrite u64_add_small by (unfold u64_max, u64_modulus in *; lia).
    destruct (serves_block upper (low + h) w Hs Hw) as [w1 Hb]; [lia|].
    rewrite (io_bind_eval _ _ _ _ _ Hb). cbn [chain_anchor ba_timestamp].
    rewrite Nat2N.inj_succ, N.pow_succ_r' in Hf.
    destruct (N.leb_spec (ts (low + h)) t) as [Hle|Hgt].
    + destruct (IH (low + h) high w1) as (b & w' & Hr & ? & ? & ? & ?); [lia..|done|done|done|].
      exists b, w'. auto with lia.
    + rewrite u64_sub_small by (unfold u64_max, u64_modulus in *; lia).
      destruct (IH low (low + h - 1) w1) as (b & w' & Hr & ? & ? & ? & ?); [lia..|done| |done|].
      { intros k Hk1 Hk2. eapply N.lt_le_trans; [exact Hgt|]. apply Hmono; lia. }
      exists b, w'. auto with lia.
  - exists low, w. assert (high = low) as -> by lia. auto with lia.
Qed.
End Serves.

(* ------------------------------------------------------------------ *)
(** ** Helper lemmas: aggregated reads *)

Section Aggregate.
Context `{HexCrate, AbiCodec} {W : Type} `{!RpcIface W}.

Definition chunk_fits (chunk : list Call3) : bool :=
  N.of_nat (length (abi_encode aggregate3 chunk)) <=? MAX_INPUT_BYTES.
(** What the preflight accepts. *)
Definition plan_ok (calls : list Call3) : bool :=
  negb (existsb invalid_read calls) && forallb chunk_fits (chunks MAX_CALLS calls).
Definition plan_of (chunk : list Call3) : list Call3 * list byte :=
  (chunk, abi_encode aggregate3 chunk).

Lemma plan_fold cs plans :
  fold_m plan_chunk plans cs =
  if forallb chunk_fits cs then Ok (plans ++ map plan_of cs)
  else Err (InvalidCallResult "Multicall3 request byte cap exceeded").
Proof.
  revert plans. induction cs as [|c cs IH]; intros plans; cbn [fold_m forallb map].
  { by rewrite app_nil_r. }
  assert (plan_chunk plans c = if chunk_fits c then Ok (plans ++ [plan_of c])
    else Err (InvalidCallResult "Multicall3 request byte cap exceeded")) as ->.
  { unfold plan_chunk, chunk_fits. rewrite N.leb_antisym. by destruct (MAX_INPUT_BYTES <? _). }
  destruct (chunk_fits c); cbn [andb mbind outcome_bind]; [|done].
  by rewrite IH, <-app_assoc.
Qed.

Lemma accept_results_ok rs calls output out : length rs = length calls →
  fold_m accept_result output (zip rs calls) = Ok out →
  ∃ datas, out = output ++ datas ∧ length datas = length calls ∧ Forall (fun d => d ≠ []) datas.
Proof.
  revert calls output. induction rs as [|r rs IH]; intros [|c calls] output Hlen; try done; cbn [zip_with fold_m].
  - intros <-%(inj Ok). exists []. by rewrite app_nil_r.
  - intros (o & (? & Hb%bail_if_ok & <-%(inj Ok))%bind_ok & Hf)%bind_ok.
    apply orb_false_iff in Hb as [_ Hne%bool_decide_eq_false].
    apply IH in Hf as (ds & -> & Hl & Hall); [|by injection Hlen].
    exists (returnData r :: ds). rewrite <-app_assoc. cbn [length]. auto with lia.
Qed.

Lemma run_plan_ok block calls enc output w out w' :
  run_plan block output (calls, enc) w = (Ok out, w') →
  ∃ datas, out = output ++ datas ∧ length datas = length calls ∧ Forall (fun d => d ≠ []) datas.
Proof.
  unfold run_plan. intros Hr. destruct calls as [|c1 [|c2 cs]].
  2:{ apply io_bind_ok in Hr as (d & w1 & _ & (u & w2 & [Hb%bail_if_ok ->]%lift_ok & [<- _]%io_ret_ok)
        %io_bind_ok). apply bool_decide_eq_false in Hb. exists [d]. auto. }
  all: apply io_bind_ok in Hr as (d & w1 & _ & (rs & w2 & _ & (u & w3 & [Hb%bail_if_ok _]%lift_ok
         & [Hf _]%lift_ok)%io_bind_ok)%io_bind_ok); apply negb_false_iff, Nat.eqb_eq in Hb;
       by eapply accept_results_ok.
Qed.

Lemma run_plans_ok block chunks : ∀ output w out w',
  fold_m (run_plan block) output (map plan_of chunks) w = (Ok out, w') →
  ∃ datas, out = output ++ datas ∧ length datas = length (mjoin chunks) ∧
    Forall (fun d => d ≠ []) datas.
Proof.
  induction chunks as [|c cs IH]; intros output w out w'; cbn [map fold_m].
  - intros [<- _]%io_ret_ok. exists []. by rewrite app_nil_r.
  - intros (o & w1 & (ds1 & -> & Hl1 & Hn1)%run_plan_ok & (ds2 & -> & Hl2 & Hn2)%IH)%io_bind_ok.
    exists (ds1 ++ ds2). rewrite app_assoc. split; [done|]. split.
    + change (mjoin (c :: cs)) with (c ++ mjoin cs). rewrite !length_app. lia.
    + by apply Forall_app.
Qed.

Lemma aggregate_reads_ok calls block w out w' :
  aggregate_reads calls block w = (Ok out, w') →
  plan_ok calls = true ∧ length out = length calls ∧ Forall (fun d => d ≠ []) out.
Proof.
  unfold aggregate_reads, plan_ok. destruct (existsb invalid_read calls); cbn [negb andb bail_if].
  { by rewrite io_bind_lift_err. }
  rewrite io_bind_lift, plan_fold. destruct (forallb chunk_fits _).
  - rewrite io_bind_lift. cbn [app]. intros (ds & -> & Hl & Hn)%run_plans_ok. cbn [app].
    by rewrite Hl, (proj1 (chunks_join MAX_CALLS calls ltac:(unfold MAX_CALLS; lia))).
  - by rewrite io_bind_lift_err.
Qed.
End Aggregate.

(** The round trip of the crate the aggregation relies on. *)
Class MulticallLaws `{AbiCodec} : Prop := {
  aggregate3_returns : ∀ results,
    abi_decode_returns_validate aggregate3 (abi_encode_returns aggregate3 results) = inr results
}.

Section FaithfulProvider.
Context `{HexLaws, AbiCodec, !MulticallLaws} {W : Type} `{!RpcIface W}.
(** What each contract answers to call data at the pinned block. *)
Context (answer : Address → list byte → list byte) (block : N).

Definition call_result (c : Call3) : list byte := answer (target c) (callData c).

Definition answers_calls : Prop :=
  ∀ to data w, to ≠ MULTICALL3 →
    ∃ w', rpc_request "eth_call" (call_params to data (block_tag block)) w
          = (Ok (VString ("0x" +:+ hex_encode (answer to data))), w').
(** Multicall3 performs the calls of its argument. *)
Definition answers_multicall : Prop :=
  ∀ calls w,
    ∃ w', rpc_request "eth_call"
            (call_params MULTICALL3 (abi_encode aggregate3 calls) (block_tag block)) w
          = (Ok (VString ("0x" +:+ hex_encode (abi_encode_returns aggregate3
              (map (fun c => mkCallResult true (call_result c)) calls)))), w').

Lemma decode_call_result_hex data :
  decode_call_result (VString ("0x" +:+ hex_encode data)) = Ok data.
Proof.
  unfold decode_call_result. cbn [as_str mbind option_bind]. rewrite strip_prefix_app.
  cbn [mbind option_bind]. rewrite hex_encode_len, N.even_even.
  cbn [ok_or mbind outcome_bind]. by rewrite hex_decode_encode.
Qed.

Lemma raw_call_answered to data result w w1 :
  rpc_request "eth_call" (call_params to data (block_tag block)) w
    = (Ok (VString ("0x" +:+ hex_encode result)), w1) →
  raw_call to data (Some block) w = (Ok result, w1).
Proof.
  intros Hr. unfold raw_call, chain_request.
  rewrite (io_bind_eval _ _ _ (VString ("0x" +:+ hex_encode result)) w1)
    by (unfold map_err_io; by rewrite Hr).
  by rewrite decode_call_result_hex.
Qed.

Lemma accept_answers calls output : Forall (fun c => call_result c ≠ []) calls →
  fold_m accept_result output
    (zip (map (fun c => mkCallResult true (call_result c)) calls) calls)
  = Ok (output ++ map call_result calls).
Proof.
  intros Hne. revert output. induction Hne as [|c calls Hc _ IH]; intros output; cbn [map zip_with fold_m].
  { by rewrite app_nil_r. }
  assert (accept_result output (mkCallResult true (call_result c), c)
    = Ok (output ++ [call_result c])) as ->.
  { unfold accept_result. cbn [success returnData negb orb].
    by rewrite bool_decide_eq_false_2. }
  cbn [mbind outcome_bind]. by rewrite IH, <-app_assoc.
Qed.

Definition direct_target (c : Call3) : Prop := target c ≠ MULTICALL3 ∧ call_result c ≠ [].

Lemma run_plan_answered chunk output w : answers_calls → answers_multicall →
  Forall direct_target chunk →
  ∃ w', run_plan block output (plan_of chunk) w = (Ok (output ++ map call_result chunk), w').
Proof.
  intros Hc Hm Hall.
  assert (Forall (fun c => call_result c ≠ []) chunk) as Hne
    by (eapply Forall_impl; [exact Hall|]; by intros ? [_ ?]).
  assert (∃ w', (data ← raw_call MULTICALL3 (abi_encode aggregate3 chunk) (Some block);
      results ← lift (decode_read aggregate3 data);
      _ ← lift (bail_if (negb (Nat.eqb (length results) (length chunk)))
                  (InvalidCallResult "Multicall3 result count mismatch"));
      lift (fold_m accept_result output (zip results chunk))) w
      = (Ok (output ++ map call_result chunk), w')) as Hmany.
  { destruct (Hm chunk w) as [w1 Hr%raw_call_answered]. exists w1.
    rewrite (io_bind_eval _ _ _ _ _ Hr). unfold decode_read. rewrite aggregate3_returns.
    rewrite bool_decide_eq_true_2 by done. rewrite io_bind_lift, length_map, Nat.eqb_refl.
    cbn [negb bail_if]. rewrite io_bind_lift. unfold lift. by rewrite accept_answers. }
  destruct chunk as [|c [|c2 cs]]; [exact Hmany| |exact Hmany].
  apply Forall_inv in Hall as [Ht Hd].
  destruct (Hc (target c) (callData c) w Ht) as [w1 Hr%raw_call_answered]. exists w1.
  unfold run_plan, plan_of. rewrite (io_bind_eval _ _ _ _ _ Hr).
  rewrite bool_decide_eq_false_2 by done. done.
Qed.

Lemma run_plans_answered chunks : answers_calls → answers_multicall →
  Forall (Forall direct_target) chunks → ∀ output w,
  ∃ w', fold_m (run_plan block) output (map plan_of chunks) w
        = (Ok (output ++ map call_result (mjoin chunks)), w').
Proof.
  intros Hc Hm. induction 1 as [|c cs Hall _ IH]; intros output w; cbn [map fold_m].
  - exists w. by rewrite app_nil_r.
  - destruct (run_plan_answered c output w Hc Hm Hall) as [w1 Hr1].
    rewrite (io_bind_eval _ _ _ _ _ Hr1). destruct (IH (output ++ map call_result c) w1) as [w2 Hr2].
    exists w2. change (mjoin (c :: cs)) with (c ++ mjoin cs). rewrite Hr2.
    by rewrite map_app, app_assoc.
Qed.
End FaithfulProvider.

(* ------------------------------------------------------------------ *)
(** ** Theorems *)

Section ChainTheorems.
Context `{HexLaws} {W : Type} `{!RpcIface W}.

(** C9: On a provider that serves one chain with non-decreasing timestamps
    (block 1 not after the deadline), the search for the last block at or before
    a timestamp terminates, whatever the upper bound, and returns exactly that
    block; a deadline the head has not reached is refused with
    [WindowNotFinalized]. *)
Theorem block_at_or_before_timestamp_correct (ts : N → N) (hashes : N → Hash) (upper t : N) (w : W) :
  serves_chain ts hashes upper → widths ts upper → 1 ≤ upper → ts 1 ≤ t →
  (∀ a b, 1 ≤ a → a ≤ b → b ≤ upper → ts a ≤ ts b) →
  if ts upper <? t
  then ∃ w', block_at_or_before_timestamp t upper w = (Err (WindowNotFinalized t upper (ts upper)), w')
  else ∃ b w', block_at_or_before_timestamp t upper w = (Ok b, w') ∧ 1 ≤ b ∧ b ≤ upper ∧
         ∀ k, 1 ≤ k → k ≤ upper → (ts k ≤ t ↔ k ≤ b).
Proof.
  intros Hs Hw Hu H1t Hmono. unfold block_at_or_before_timestamp.
  destruct (serves_block ts hashes upper upper w Hs Hw) as [w1 Hb]; [reflexivity|].
  rewrite (io_bind_eval _ _ _ _ _ Hb). cbn [chain_anchor ba_timestamp ba_number].
  destruct (ts upper <? t); cbn [bail_if]; [by exists w1|]. rewrite io_bind_lift.
  destruct (timestamp_search_spec ts hashes upper t Hs Hw 64 1 upper w1) as
    (b & w' & Hr & Hb1 & Hb2 & Hbt & Hlate); [done|done|reflexivity| |done| |done|].
  - destruct Hw as [Hmax _]. unfold u64_max in Hmax. change (2 ^ N.of_nat 64) with (2 ^ 64). lia.
  - intros k ??. lia.
  - exists b, w'. split; [done|]. split; [done|]. split; [done|]. intros k Hk1 Hk2. split.
    + intros Hkt. destruct (N.le_gt_cases k b) as [|Hgt]; [done|].
      pose proof (Hlate k Hgt Hk2). lia.
    + intros Hkb. transitivity (ts b); [|done]. by apply Hmono.
Qed.

(** Re-reading the anchors on a provider that serves one chain succeeds
    exactly when every anchor still has that chain's hash; otherwise the error
    names the first changed anchor with both hashes. *)
Theorem assert_anchors_unchanged_spec (ts : N → N) (hashes : N → Hash) (upper : N)
    (anchors : SettlementAnchors) (w : W) :
  serves_chain ts hashes upper → widths ts upper →
  Forall (fun '(_, a) => ba_number a ≤ upper) (anchor_list anchors) →
  ∃ w', assert_anchors_unchanged anchors w =
    (match List.find (fun '(_, a) => negb (String.eqb (hash_hex (hashes (ba_number a))) (ba_hash a)))
             (anchor_list anchors) with
     | None => Ok tt
     | Some (name, a) => Err (AnchorChanged name (ba_number a) (ba_hash a)
                                (hash_hex (hashes (ba_number a))))
     end, w').
Proof.
  intros Hs Hw. unfold assert_anchors_unchanged. generalize (anchor_list anchors) as l. intros l Hl.
  revert w. induction Hl as [|[name a] l Ha _ IH]; intros w; cbn [fold_m List.find].
  { by exists w. }
  destruct (serves_block ts hashes upper (ba_number a) w Hs Hw Ha) as [w1 Hb].
  assert (assert_anchor (name, a) w =
    (bail_if (negb (String.eqb (hash_hex (hashes (ba_number a))) (ba_hash a)))
       (AnchorChanged name (ba_number a) (ba_hash a) (hash_hex (hashes (ba_number a)))), w1)) as Hstep.
  { unfold assert_anchor. by rewrite (io_bind_eval _ _ _ _ _ Hb). }
  destruct (String.eqb (hash_hex (hashes (ba_number a))) (ba_hash a)); cbn [negb bail_if] in *.
  - rewrite (io_bind_eval _ _ _ _ _ Hstep). apply IH.
  - exists w1. by rewrite (io_bind_err _ _ _ _ _ Hstep).
Qed.
End ChainTheorems.

Section AggregateTheorems.
Context `{HexLaws, AbiCodec} {W : Type} `{!RpcIface W}.

(** Batched reads are equivalent to direct calls: on a provider whose
    Multicall3 performs the calls it is given, every accepted plan returns, in
    order, exactly what each target answers to its call data, across chunk
    boundaries and for the direct single-call path. *)
Theorem aggregate_reads_equivalence `{!MulticallLaws} (answer : Address → list byte → list byte)
    (block : N) (calls : list Call3) (w : W) :
  answers_calls answer block → answers_multicall answer block →
  plan_ok calls = true → Forall (direct_target answer) calls →
  ∃ w', aggregate_reads calls block w
        = (Ok (map (fun c => answer (target c) (callData c)) calls), w').
Proof.
  intros Hc Hm [Hv Hcap]%andb_prop Hall. apply negb_true_iff in Hv.
  unfold aggregate_reads. rewrite Hv. cbn [bail_if]. rewrite io_bind_lift, plan_fold, Hcap.
  rewrite io_bind_lift. cbn [app].
  destruct (chunks_join MAX_CALLS calls) as [Hj _]; [unfold MAX_CALLS; lia|].
  destruct (run_plans_answered answer block (chunks MAX_CALLS calls) Hc Hm) with (output := [] : list (list byte)) (w := w)
    as [w' Hr].
  { apply Forall_forall. intros c Hin. rewrite <-Hj in Hall.
    clear -Hall Hin. induction (chunks MAX_CALLS calls) as [|x l IH]; [by apply elem_of_nil in Hin|].
    change (mjoin (x :: l)) with (x ++ mjoin l) in Hall. apply Forall_app in Hall as [??].
    apply elem_of_cons in Hin as [->|?]; auto. }
  exists w'. rewrite Hj in Hr. exact Hr.
Qed.

(** The whole read plan is checked before any request: an invalid call or an
    oversized chunk is refused with the outside world untouched.  A plan that
    succeeds was valid and yields one non-empty result per call. *)
Theorem aggregate_reads_preflight (calls : list Call3) (block : N) (w : W) :
  (plan_ok calls = false →
     ∃ m, aggregate_reads calls block w = (Err (InvalidCallResult m), w)) ∧
  (∀ out w', aggregate_reads calls block w = (Ok out, w') →
     plan_ok calls = true ∧ length out = length calls ∧ Forall (fun d => d ≠ []) out).
Proof.
  split; [|intros; by eapply aggregate_reads_ok].
  unfold aggregate_reads, plan_ok. destruct (existsb invalid_read calls); cbn [negb andb bail_if].
  { rewrite io_bind_lift_err. by eexists. }
  rewrite io_bind_lift, plan_fold. destruct (forallb chunk_fits _); [done|].
  intros _. rewrite io_bind_lift_err. by eexists.
Qed.
End AggregateTheorems.

(* ------------------------------------------------------------------ *)
(** ** A reference provider for the evaluated instances

    It serves a fixed chain, answers calls by a function of target and call
    data, performs Multicall3 batches and answers log queries from a ledger.
    It keeps no state. *)

Module RefProvider.
Section Provider.
#[local] Existing Instance RefHex.hex_crate.
#[local] Existing Instance RefAbi.abi_codec.
#[local] Existing Instances RefAbi.Call3_eq_dec RefAbi.CallResult_eq_dec RefAbi.Call3_countable
  RefAbi.CallResult_countable.
Context (ts : N → N) (hashes : N → Hash) (head : N).
Context (answer : Address → list byte → N → list byte) (ledger : list RpcLog).

Definition parse_tag (tag : string) : option N :=
  if String.eqb tag "finalized" || String.eqb tag "latest" then Some head
  else raw ← strip_prefix "0x" tag; u64_from_str_radix16 raw.

Definition perform (to : Address) (data : list byte) (number : N) : option (list byte) :=
  if bool_decide (to = MULTICALL3) then
    calls ← (RefAbi.read (drop 4 data) : option (list Call3));
    Some (RefAbi.write (map (fun c => mkCallResult true (answer (target c) (callData c) number)) calls))
  else Some (answer to data number).

Definition call_reply (params : Value) : option Value :=
  match params with
  | VArray [obj; VString tag] =>
      number ← parse_tag tag;
      to ← as_str (at_key obj "to") ≫= address_from_str;
      raw ← as_str (at_key obj "data") ≫= strip_prefix "0x";
      data ← hex_decode raw;
      result ← perform to data number;
      Some (VString ("0x" +:+ hex_encode result))
  | _ => None
  end.

Definition log_value (log : RpcLog) : Value :=
  VObject [("removed", VBool false); ("address", VString (log_address log));
    ("topics", VArray (map VString (log_topics log)));
    ("data", VString (log_data log)); ("blockNumber", VString (block_tag (log_block_number log)));
    ("transactionHash", VString (log_transaction_hash log));
    ("logIndex", VString (block_tag (log_log_index log)))].

Definition logs_reply (params : Value) : option Value :=
  match params with
  | VArray [req] =>
      from ← as_str (at_key req "fromBlock") ≫= parse_tag;
      to ← as_str (at_key req "toBlock") ≫= parse_tag;
      address ← as_str (at_key req "address");
      let topics := default [] (as_array (at_key req "topics")) in
      Some (VArray (map log_value (List.filter (fun log =>
        (from <=? log_block_number log) && (log_block_number log <=? to) &&
        String.eqb (log_address log) address &&
        log_matches_filter log (mkLogFilter address topics)) ledger)))
  | _ => None
  end.

Definition reply (method : string) (params : Value) : outcome RpcError Value :=
  ok_or
    (if String.eqb method "eth_getBlockByNumber" then
       match params with
       | VArray [VString tag; _] => block_json ts hashes <$> parse_tag tag
       | _ => None
       end
     else if String.eqb method "eth_call" then call_reply params
     else if String.eqb method "eth_getLogs" then logs_reply params
     else if String.eqb method "eth_chainId" then Some (VString "0x1")
     else if String.eqb method "eth_getCode" then Some (VString "0x60")
     else None)
    (Transport method "unsupported").

Definition provider : RpcIface unit := {|
  rpc_request := fun method params => lift (reply method params);
  rpc_batch_request := fun method batch => lift (mapM (reply method) batch);
  rpc_metrics := fun _ => mkRpcMetrics 0 0 0 0;
  rpc_now := fun w => (0, w);
  rpc_timeout := fun A d m w => let '(r, w') := m w in (Some r, w')
|}.

Lemma parse_block_tag n : n ≤ u64_max → parse_tag (block_tag n) = Some n.
Proof.
  intros Hn. unfold parse_tag, block_tag.
  cbn [String.eqb String.append Ascii.eqb Bool.eqb andb orb].
  rewrite strip_prefix_app. cbn [mbind option_bind]. rewrite u64_from_str_format_hex.
  by rewrite (proj2 (N.leb_le n u64_max)).
Qed.

Lemma provider_serves upper : upper ≤ u64_max →
  serves_chain (W := unit) (RpcIface0 := provider) ts hashes upper.
Proof.
  intros Hu n w Hn. exists w. simpl. unfold lift, reply. cbn [String.eqb Ascii.eqb Bool.eqb].
  by rewrite parse_block_tag by lia.
Qed.
End Provider.
End RefProvider.

Section ChainWitnesses.
#[local] Existing Instances RefHex.hex_crate RefHex.hex_laws RefAbi.abi_codec.
#[local] Existing Instances RefAbi.Call3_eq_dec RefAbi.CallResult_eq_dec RefAbi.Call3_countable
  RefAbi.CallResult_countable.

Definition demo_ts (n : N) : N := 1000 + 12 * N.min n 100.
Definition demo_block_hash (n : N) : Hash := array_of 32 (be_bytes 32 (n + 1)).
Definition echo (to : Address) (data : list byte) (number : N) : list byte := data.
#[local] Instance echo_provider : RpcIface unit :=
  RefProvider.provider demo_ts demo_block_hash 20 echo [].

Lemma demo_serves upper : upper ≤ u64_max → serves_chain demo_ts demo_block_hash upper.
Proof. apply RefProvider.provider_serves. Qed.

Lemma demo_widths upper : upper ≤ 1000 → widths demo_ts upper.
Proof. unfold widths, demo_ts, u64_max. intros. split; intros; lia. Qed.

Example block_at_or_before_timestamp_correct_witness :
  ∃ b w', block_at_or_before_timestamp 1100 20 tt = (Ok b, w') ∧ 1 ≤ b ∧ b ≤ 20 ∧
    ∀ k, 1 ≤ k → k ≤ 20 → (demo_ts k ≤ 1100 ↔ k ≤ b).
Proof.
  apply (block_at_or_before_timestamp_correct demo_ts demo_block_hash 20 1100 tt).
  - apply demo_serves. vm_compute. discriminate.
  - apply demo_widths. lia.
  - lia.
  - vm_compute. discriminate.
  - intros a b ???. unfold demo_ts. lia.
Defined.

Example assert_anchors_unchanged_spec_witness :
  ∃ w', assert_anchors_unchanged
    (mkSettlementAnchors (chain_anchor demo_ts demo_block_hash 3) (mkBlockAnchor 5 0 "0xother")
       (chain_anchor demo_ts demo_block_hash 8) (chain_anchor demo_ts demo_block_hash 20)) tt
  = (Err (AnchorChanged "open" 5 "0xother" (hash_hex (demo_block_hash 5))), w').
Proof.
  destruct (assert_anchors_unchanged_spec demo_ts demo_block_hash 20
    (mkSettlementAnchors (chain_anchor demo_ts demo_block_hash 3) (mkBlockAnchor 5 0 "0xother")
       (chain_anchor demo_ts demo_block_hash 8) (chain_anchor demo_ts demo_block_hash 20)) tt)
    as [w' E].
  - apply demo_serves. vm_compute. discriminate.
  - apply demo_widths. lia.
  - repeat constructor; vm_compute; discriminate.
  - exists w'. etransitivity; [exact E|]. vm_compute. reflexivity.
Defined.

#[local] Instance demo_multicall : MulticallLaws.
Proof. constructor. intros rs. simpl. by rewrite RefAbi.read_write. Qed.

Definition demo_calls : list Call3 :=
  [read_call totalAssets (zero_array 20) tt; read_call asset (zero_array 20) tt].

Example aggregate_reads_equivalence_witness :
  ∃ w', aggregate_reads demo_calls 7 tt = (Ok (map callData demo_calls), w').
Proof.
  apply (aggregate_reads_equivalence (fun to data => echo to data 7) 7 demo_calls tt).
  - intros to data w Hto. exists w. simpl. unfold lift, RefProvider.reply.
    cbn [String.eqb Ascii.eqb Bool.eqb]. unfold RefProvider.call_reply, call_params.
    rewrite RefProvider.parse_block_tag by (vm_compute; discriminate).
    cbn [mbind option_bind].
    change (as_str (at_key _ "to")) with (Some (address_to_string to)).
    change (as_str (at_key _ "data")) with (Some ("0x" +:+ hex_encode data)).
    cbn [mbind option_bind]. rewrite address_from_to_string, strip_prefix_app.
    cbn [mbind option_bind]. rewrite hex_decode_encode. cbn [mbind option_bind].
    unfold RefProvider.perform. by rewrite bool_decide_eq_false_2.
  - intros calls w. exists w. simpl. unfold lift, RefProvider.reply.
    cbn [String.eqb Ascii.eqb Bool.eqb]. unfold RefProvider.call_reply, call_params.
    rewrite RefProvider.parse_block_tag by (vm_compute; discriminate).
    cbn [mbind option_bind].
    change (as_str (at_key _ "to")) with (Some (address_to_string MULTICALL3)).
    change (as_str (at_key _ "data")) with
      (Some ("0x" +:+ hex_encode (RefAbi.selector aggregate3 ++ RefAbi.write calls))).
    cbn [mbind option_bind]. rewrite address_from_to_string, strip_prefix_app.
    cbn [mbind option_bind]. rewrite hex_decode_encode. cbn [mbind option_bind].
    unfold RefProvider.perform. rewrite bool_decide_eq_true_2 by done.
    rewrite drop_app_length' by (vm_compute; reflexivity). by rewrite RefAbi.read_write.
  - vm_compute. reflexivity.
  - repeat constructor; unfold MULTICALL3; vm_compute; discriminate.
Defined.

Example aggregate_reads_preflight_witness :
  ∃ m, aggregate_reads [mkCall3 (zero_array 20) true []] 7 tt = (Err (InvalidCallResult m), tt).
Proof. apply (aggregate_reads_preflight [mkCall3 (zero_array 20) true []] 7 tt). reflexivity. Defined.
End ChainWitnesses.
