(* ===== verification/ChainConfig.v ===== *)
(** * On-chain configuration, pools and prices ([src/chain.rs], second part)

    The reads that derive the configuration of a settlement at a pinned block:
    the bootstrap configuration, an incident, the score configuration, the pool
    topology and state, conversion ratios and oracle prices. *)

From S2P Require Import Prelude Bytes Text Commit ScoreCore Rpc Abi Config Chain.
From Stdlib Require Import Strings.Byte.

Open Scope string_scope.
Open Scope N_scope.
Open Scope list_scope.

Record Incident := mkIncident {
  inc_insured_token : Address;
  inc_resolved_at : N;
  inc_reference_block : N;
  inc_open_block : N;
  inc_phase_deadline : N;
  inc_root : string;
  inc_unresolved_claims : N;
  inc_claim_set_hash : string;
  inc_tee_pcr_hash : string;
  inc_protocol_fee_share_bps : N
}.
Record SettlementParams := mkSettlementParams {
  twap_lookback_blocks : N;
  holding_margin_blocks : N;
  sample_step_blocks : N
}.
Record ScoredToken := mkScoredToken {
  st_token : Address;
  st_decimals : N;
  st_rates : list RatePoint
}.
Record ScoreConfig := mkScoreConfig {
  sc_params : SettlementParams;
  sc_scored_tokens : list ScoredToken
}.
Record IncidentConfig := mkIncidentConfig {
  ic_coverage_bps : N;
  ic_underlying_price_oracle : Address;
  ic_conversion_address : Address;
  ic_conversion_call_data : list byte;
  ic_params : SettlementParams;
  ic_scored_tokens : list ScoredToken
}.
Record PoolTopology := mkPoolTopology {
  pt_assets : list Address;
  pt_pool_addrs : list Address
}.
Record PoolState := mkPoolState {
  ps_asset : Address;
  ps_pool : Address;
  ps_balance : N;
  ps_asset_usd : N;
  ps_asset_decimals : N
}.
Record PoolPolicy := mkPoolPolicy {
  pp_topology : PoolTopology;
  pp_max_payout_bps : N;
  pp_booster : option boosterConfigReturn
}.

Section ChainConfig.
Context `{HexCrate, AbiCodec} {W : Type} `{!RpcIface W}.
(** [CHAIN_ID] of the build. *)
Context (CHAIN_ID : N).

(** [ConfigError]'s display text. *)
Definition config_error_to_string (error : ConfigError) : string :=
  match error with
  | ZeroRegistry => "registry address is zero"
  | ConfigZeroDefiInsurance => "defiInsurance address is zero"
  | InvalidBoosterBoostBps bps =>
      "booster boostBps must be a nonzero uint16: " +:+ to_decimal bps
  | InvalidOracleStaleness => "maxOracleStaleness must be positive"
  | MissingAssetFeed asset_ =>
      "no on-chain USD feed configured for pool asset " +:+ address_to_string asset_
  | ConfigJson message => "derived configuration JSON failed: " +:+ message
  end.

(** [decode_read::<F>(&reads[i])?]. *)
Definition decode_nth (f : SolFn) (reads : list (list byte)) (i : nat) :
    outcome ChainError (sol_return f) :=
  data ← index_at reads i; decode_read f data.

Definition defi_insurance_at (registry : Address) (block_number : option N) :
    io W ChainError Address :=
  contract_call defiInsurance registry tt block_number.

Definition protocol_bindings_at (registry_ defi_insurance : Address) (block : N) :
    io W ChainError (Address * Address) :=
  reads ← aggregate_reads [read_call defiInsurance registry_ tt; read_call registry defi_insurance tt]
            block;
  a ← lift (decode_nth defiInsurance reads 0);
  b ← lift (decode_nth registry reads 1);
  mret (a, b).

Definition incident_pools_and_signer_at (defi_insurance : Address) (incident_id : N)
    (signer : Address) (block : N) : io W ChainError (list Address * bool) :=
  id ← lift (big_to_u256 incident_id "incidentId");
  reads ← aggregate_reads [read_call incidentPools defi_insurance id;
                           read_call isTeeSigner defi_insurance signer] block;
  pools ← lift (decode_nth incidentPools reads 0);
  trusted ← lift (decode_nth isTeeSigner reads 1);
  mret (pools, trusted).

(** The loop that fills [feeds]. *)
Definition insert_feed (feeds : gmap Address Address) (item : Address * list byte) :
    outcome ChainError (gmap Address Address) :=
  let '(asset_, data) := item in
  feed ← decode_read assetUsdFeed data;
  Ok (<[asset_ := feed]> feeds).

Definition derive_bootstrap_config_at (registry_ expected_defi_insurance : Address)
    (block_number : N) : io W ChainError BootstrapConfig :=
  defi_insurance ← defi_insurance_at registry_ (Some block_number);
  _ ← lift (bail_if (negb (bool_decide (defi_insurance = expected_defi_insurance)))
        (InvalidConfiguration ("Registry defiInsurance changed at block " +:+
           to_decimal block_number +:+ ": expected " +:+ address_to_string expected_defi_insurance
           +:+ ", got " +:+ address_to_string defi_insurance)));
  reads ← aggregate_reads
    [read_call registry defi_insurance tt; read_call boosterConfig registry_ tt;
     read_call coverPools registry_ tt; read_call maxOracleStaleness registry_ tt] block_number;
  reverse_registry ← lift (decode_nth registry reads 0);
  _ ← lift (bail_if (negb (bool_decide (reverse_registry = registry_)))
        (InvalidConfiguration ("DefiInsurance registry mismatch: expected " +:+
           address_to_string registry_ +:+ ", got " +:+ address_to_string reverse_registry)));
  booster ← lift (decode_nth boosterConfig reads 1);
  pools ← lift (decode_nth coverPools reads 2);
  let assets := cp_assets pools in
  max_oracle_staleness ← lift (decode_nth maxOracleStaleness reads 3);
  feed_reads ← aggregate_reads (map (fun asset_ => read_call assetUsdFeed registry_ asset_) assets)
                 block_number;
  feeds ← lift (fold_m insert_feed ∅ (zip assets feed_reads));
  lift (map_err (fun error => InvalidConfiguration (config_error_to_string error))
    (derived CHAIN_ID registry_ defi_insurance (bc_tokenId booster) (bc_boostBps booster) feeds
       max_oracle_staleness)).

Definition incident_at (defi_insurance : Address) (incident_id : N) (block_number : option N) :
    io W ChainError Incident :=
  id ← lift (big_to_u256 incident_id "incidentId");
  result ← contract_call incidents defi_insurance id block_number;
  mret {| inc_insured_token := ir_insuredToken result;
          inc_resolved_at := ir_resolvedAt result;
          inc_reference_block := ir_referenceBlock result;
          inc_open_block := ir_openBlock result;
          inc_phase_deadline := ir_phaseDeadline result;
          inc_root := hash_hex (ir_root result);
          inc_unresolved_claims := u256_to_big (ir_unresolvedClaims result);
          inc_claim_set_hash := hash_hex (ir_claimSetHash result);
          inc_tee_pcr_hash := hash_hex (ir_teePcrHash result);
          inc_protocol_fee_share_bps := ir_protocolFeeShareBps result |}.

Definition incident_claim_deadline_at (defi_insurance : Address) (incident_id open_block : N) :
    io W ChainError N :=
  id ← lift (big_to_u256 incident_id "incidentId");
  phase_window ← contract_call incidentPhaseWindow defi_insurance id (Some open_block);
  opened ← block_by_number open_block;
  let opened_at := ba_timestamp opened in
  lift (ok_or (checked_add opened_at phase_window)
    (InvalidConfiguration ("claim deadline overflow: open timestamp " +:+ to_decimal opened_at +:+
       ", phase window " +:+ to_decimal phase_window))).

Definition decimals_at (token : Address) (block_number : N) : io W ChainError N :=
  contract_call erc20_decimals token tt (Some block_number).

Definition balance_of_at (token account : Address) (block_number : N) : io W ChainError N :=
  value ← contract_call erc20_balanceOf token account (Some block_number);
  mret (u256_to_big value).

Definition erc1155_balance_of_at (collection account : Address) (id block_number : N) :
    io W ChainError N :=
  id ← lift (big_to_u256 id "ERC1155 id");
  value ← contract_call erc1155_balanceOf collection (account, id) (Some block_number);
  mret (u256_to_big value).

Definition spent_score_at (registry_ account : Address) (block_number : N) : io W ChainError N :=
  value ← contract_call scoreSpent registry_ account (Some block_number);
  mret (u256_to_big value).

Definition spent_scores_at (registry_ : Address) (accounts : gset Address) (block_number : N) :
    io W ChainError (gmap Address N) :=
  let accounts := btree_set_iter accounts in
  reads ← aggregate_reads (map (fun account => read_call scoreSpent registry_ account) accounts)
            block_number;
  entries ← lift (mapM (fun '(account, data) =>
    spent ← decode_read scoreSpent data; Ok (account, u256_to_big spent)) (zip accounts reads));
  mret (list_to_map entries).

Definition incident_tee_pcr_hash_at (defi_insurance : Address) (incident_id block_number : N) :
    io W ChainError string :=
  incident ← incident_at defi_insurance incident_id (Some block_number);
  _ ← lift (bail_if (String.eqb (inc_tee_pcr_hash incident) ("0x" +:+ str_repeat 64 "0"))
              (InvalidConfiguration "incident teePcrHash is zero"));
  mret (inc_tee_pcr_hash incident).

Definition max_cover_pool_payout_bps_at (registry_ : Address) (block_number : N) :
    io W ChainError N :=
  value ← contract_call maxCoverPoolPayoutBps registry_ tt (Some block_number);
  mret (u256_to_big value).

(** The closure over [previous] that converts one token's rate history. *)
Definition accept_rate (token : Address) (st : option N * list RatePoint) (point : SolRatePoint) :
    outcome ChainError (option N * list RatePoint) :=
  let '(previous, rates) := st in
  _ ← bail_if (match previous with Some block => fromBlock point <=? block | None => false end)
        (InvalidConfiguration ("rate history for " +:+ address_to_string token +:+
           " is not strictly ascending"));
  Ok (Some (fromBlock point), rates ++ [mkRatePoint (fromBlock point) (sol_rate point)]).

(** One iteration of the loop over the scored tokens. *)
Definition accept_scored_token (block_number : N) (st : gset Address * list ScoredToken)
    (item : Address * list byte) : io W ChainError (gset Address * list ScoredToken) :=
  let '(seen, scored_tokens) := st in
  let '(token, data) := item in
  _ ← lift (bail_if (bool_decide (token ∈ seen))
              (InvalidConfiguration ("duplicate scored token " +:+ address_to_string token)));
  rates ← lift (decode_read getScoredRateHistory data);
  _ ← lift (bail_if (bool_decide (rates = []))
              (InvalidConfiguration ("scored token " +:+ address_to_string token +:+
                 " has no rate history")));
  '(_, rates) ← lift (fold_m (accept_rate token) (None, []) rates);
  decimals ← decimals_at token block_number;
  mret ({[token]} ∪ seen, scored_tokens ++ [mkScoredToken token decimals rates]).

Definition complete_score_config (registry_ : Address) (block_number : N)
    (params : settlementParamsReturn) (token_addresses : list Address) :
    io W ChainError ScoreConfig :=
  _ ← lift (bail_if (sampleStepBlocks params =? 0) (InvalidConfiguration "sampleStepBlocks is zero"));
  histories ← aggregate_reads
    (map (fun token => read_call getScoredRateHistory registry_ token) token_addresses)
    block_number;
  '(_, scored_tokens) ← fold_m (accept_scored_token block_number) (∅, [])
                          (zip token_addresses histories);
  mret (mkScoreConfig
    (mkSettlementParams (twapLookbackBlocks params) (minHoldingRequired params)
       (sampleStepBlocks params)) scored_tokens).

Definition incident_config_at (config : BootstrapConfig) (insured_token : Address)
    (open_block : N) : io W ChainError IncidentConfig :=
  reads ← aggregate_reads
    [read_call getInsuredToken (cfg_defi_insurance config) insured_token;
     read_call settlementParams (cfg_defi_insurance config) tt;
     read_call getScoredTokens (cfg_registry config) tt] open_block;
  insured ← lift (decode_nth getInsuredToken reads 0);
  _ ← lift (bail_if ((maxCoverageBps insured =? 0) || (10000 <? maxCoverageBps insured))
        (InvalidConfiguration "maxCoverageBps must be in 1..=10000 at open block"));
  _ ← lift (bail_if (address_is_zero (underlyingPriceOracle insured))
        (InvalidConfiguration "underlyingPriceOracle is zero"));
  params ← lift (decode_nth settlementParams reads 1);
  tokens ← lift (decode_nth getScoredTokens reads 2);
  score_config ← complete_score_config (cfg_registry config) open_block params tokens;
  mret {| ic_coverage_bps := maxCoverageBps insured;
          ic_underlying_price_oracle := underlyingPriceOracle insured;
          ic_conversion_address := underlyingConversionAddress insured;
          ic_conversion_call_data := underlyingConversionCallData insured;
          ic_params := sc_params score_config;
          ic_scored_tokens := sc_scored_tokens score_config |}.

Definition score_config_at (registry_ defi_insurance : Address) (block_number : N) :
    io W ChainError ScoreConfig :=
  reads ← aggregate_reads [read_call settlementParams defi_insurance tt;
                           read_call getScoredTokens registry_ tt] block_number;
  params ← lift (decode_nth settlementParams reads 0);
  tokens ← lift (decode_nth getScoredTokens reads 1);
  complete_score_config registry_ block_number params tokens.

Definition score_config_and_spent_at (registry_ defi_insurance account : Address)
    (block_number : N) : io W ChainError (ScoreConfig * N) :=
  reads ← aggregate_reads [read_call settlementParams defi_insurance tt;
                           read_call getScoredTokens registry_ tt;
                           read_call scoreSpent registry_ account] block_number;
  spent ← lift (decode_nth scoreSpent reads 2);
  params ← lift (decode_nth settlementParams reads 0);
  tokens ← lift (decode_nth getScoredTokens reads 1);
  config ← complete_score_config registry_ block_number params tokens;
  mret (config, u256_to_big spent).

Definition decode_pool_topology (result : coverPoolsReturn) : outcome ChainError PoolTopology :=
  let assets := cp_assets result in
  let pool_addrs := cp_poolAddrs result in
  _ ← bail_if (negb (Nat.eqb (length assets) (length pool_addrs)))
        (InvalidPoolTopology (to_decimal (N.of_nat (length assets)) +:+ " assets but " +:+
           to_decimal (N.of_nat (length pool_addrs)) +:+ " pools"));
  let unique_assets : gset Address := list_to_set assets in
  let unique_pools : gset Address := list_to_set pool_addrs in
  _ ← bail_if (negb (Nat.eqb (size unique_assets) (length assets)) ||
               negb (Nat.eqb (size unique_pools) (length pool_addrs)))
        (InvalidPoolTopology "duplicate asset or pool");
  Ok (mkPoolTopology assets pool_addrs).

Definition pool_policy_at (config : BootstrapConfig) (block : N) (include_booster : bool) :
    io W ChainError PoolPolicy :=
  let calls := [read_call coverPools (cfg_registry config) tt;
                read_call maxCoverPoolPayoutBps (cfg_registry config) tt] ++
               (if include_booster then [read_call boosterConfig (cfg_registry config) tt] else []) in
  reads ← aggregate_reads calls block;
  pools ← lift (decode_nth coverPools reads 0);
  topology ← lift (decode_pool_topology pools);
  max_payout_bps ← lift (decode_nth maxCoverPoolPayoutBps reads 1);
  booster ← lift (if include_booster then b ← decode_nth boosterConfig reads 2; Ok (Some b) else Ok None);
  mret (mkPoolPolicy topology (u256_to_big max_payout_bps) booster).

Definition pools_at (config : BootstrapConfig) (block_number : N) : io W ChainError PoolTopology :=
  result ← contract_call coverPools (cfg_registry config) tt (Some block_number);
  lift (decode_pool_topology result).
End ChainConfig.

(* ------------------------------------------------------------------ *)
(** ** Ratios, prices, pool states *)

Section Prices.
Context `{HexCrate, AbiCodec} {W : Type} `{!RpcIface W}.

Definition ONE_RATIO : N := 1000000000000000000.

Definition decode_ratio (conversion_address : Address) (result : list byte) :
    outcome ChainError N :=
  _ ← bail_if (negb (Nat.eqb (length result) 32))
        (InvalidConversion conversion_address "returned malformed uint256 data");
  let ratio := from_bytes_be result in
  _ ← bail_if (ratio =? 0) (InvalidConversion conversion_address "returned non-positive ratio");
  Ok ratio.

Definition ratios_at (conversion_address : Address) (conversion_call_data : list byte)
    (blocks : list N) : io W ChainError (list N) :=
  if address_is_zero conversion_address then mret (replicate (length blocks) ONE_RATIO)
  else
    _ ← lift (bail_if (bool_decide (blocks = []) || Nat.ltb 256 (length blocks) ||
                       (16 * 1024 <? N.of_nat (length conversion_call_data)))
                (ChainRpc InvalidBatch));
    let params := map (fun block => call_params conversion_address conversion_call_data
                                      (block_tag block)) blocks in
    results ← map_err_io ChainRpc (rpc_batch_request "eth_call" params);
    _ ← lift (bail_if (negb (Nat.eqb (length results) (length blocks)))
                (ChainRpc (InvalidResponse "eth_call" "conversion batch result count mismatch")));
    lift (mapM (fun result =>
      data ← decode_call_result result; decode_ratio conversion_address data) results).

Definition ratio_at (conversion_address : Address) (conversion_call_data : list byte)
    (block_number : N) : io W ChainError N :=
  if address_is_zero conversion_address then mret ONE_RATIO
  else
    result ← raw_call conversion_address conversion_call_data (Some block_number);
    lift (decode_ratio conversion_address result).

(** The checks on a round that need no further read; its update time. *)
Definition check_round (oracle : Address) (round : latestRoundDataReturn) :
    outcome ChainError N :=
  _ ← bail_if (Z.leb (answer round) 0) (InvalidOracle oracle "returned non-positive price");
  started_at ← u256_to_u64 (startedAt round) "oracle.startedAt";
  updated_at ← u256_to_u64 (updatedAt round) "oracle.updatedAt";
  _ ← bail_if ((started_at =? 0) || (updated_at =? 0)) (InvalidOracle oracle "round incomplete");
  _ ← bail_if (updated_at <? started_at)
        (InvalidOracle oracle ("startedAt " +:+ to_decimal started_at +:+ " is after updatedAt " +:+
           to_decimal updated_at));
  _ ← bail_if (answeredInRound round <? roundId round)
        (InvalidOracle oracle "answeredInRound is older than roundId");
  Ok updated_at.

Definition check_staleness (oracle : Address) (updated_at block_timestamp max_staleness : N) :
    outcome ChainError unit :=
  _ ← bail_if (block_timestamp <? updated_at)
        (InvalidOracle oracle ("updatedAt " +:+ to_decimal updated_at +:+
           " is later than pinned block ts " +:+ to_decimal block_timestamp));
  bail_if (max_staleness <? u64_sub block_timestamp updated_at)
    (InvalidOracle oracle ("stale at pinned block timestamp " +:+ to_decimal block_timestamp)).

(** The answer at 18 decimals. *)
Definition scale_price (answer decimals : N) : N :=
  if decimals <=? 18 then answer * pow10 (18 - decimals) else answer / pow10 (decimals - 18).

Definition price_usd_1e18 (oracle : Address) (block_number max_staleness : N) :
    io W ChainError N :=
  round ← contract_call latestRoundData oracle tt (Some block_number);
  updated_at ← lift (check_round oracle round);
  pinned ← block_by_number block_number;
  _ ← lift (check_staleness oracle updated_at (ba_timestamp pinned) max_staleness);
  decimals ← contract_call feed_decimals oracle tt (Some block_number);
  let scaled := scale_price (Z.abs_N (answer round)) decimals in
  _ ← lift (bail_if (scaled =? 0) (InvalidOracle oracle "normalized price rounds to zero"));
  mret scaled.

(** [reads.chunks_exact(2)]. *)
Fixpoint chunks_exact2 {A} (l : list A) : list (A * A) :=
  match l with a :: b :: l => (a, b) :: chunks_exact2 l | _ => [] end.

(** One iteration of the loop over the pools. *)
Definition accept_pool (config : BootstrapConfig) (block_number : N) (states : list PoolState)
    (item : (Address * Address) * (list byte * list byte)) : io W ChainError (list PoolState) :=
  let '((asset_, pool), chunk) := item in
  actual_asset ← lift (decode_read asset chunk.1);
  _ ← lift (bail_if (negb (bool_decide (actual_asset = asset_)))
              (PoolAssetMismatch pool actual_asset asset_));
  balance ← lift (decode_read totalAssets chunk.2);
  feed ← lift (map_err (fun _ =>
                 InvalidPoolTopology ("missing USD feed for " +:+ address_to_string asset_))
               (asset_feed config asset_));
  asset_usd ← price_usd_1e18 feed block_number (cfg_max_oracle_staleness config);
  asset_decimals ← decimals_at asset_ block_number;
  mret (states ++ [mkPoolState asset_ pool (u256_to_big balance) asset_usd asset_decimals]).

Definition pool_states_at (config : BootstrapConfig) (pools : list (Address * Address))
    (block_number : N) : io W ChainError (list PoolState) :=
  reads ← aggregate_reads
    (mjoin (map (fun '(_, pool) => [read_call asset pool tt; read_call totalAssets pool tt]) pools))
    block_number;
  fold_m (accept_pool config block_number) [] (zip pools (chunks_exact2 reads)).

Definition pool_state_at (config : BootstrapConfig) (asset_ pool : Address) (block_number : N) :
    io W ChainError PoolState :=
  states ← pool_states_at config [(asset_, pool)] block_number;
  lift (index_at states 0).
End Prices.

(* ------------------------------------------------------------------ *)
(** ** Helper lemmas *)

Section ConfigReadFacts.
Context `{HexCrate, AbiCodec} {W : Type} `{!RpcIface W}.

Lemma quantity_bound value field n : quantity value field = Ok n → n ≤ u64_max.
Proof.
  unfold quantity. intros (raw & _ & Hn%ok_or_ok)%bind_ok. by eapply u64_from_str_radix16_bound.
Qed.

Lemma block_timestamp_bound tag expected w b w' :
  block tag expected w = (Ok b, w') → ba_timestamp b ≤ u64_max.
Proof.
  unfold block. intros Hb. repeat (apply io_bind_ok in Hb as (? & ? & ?Hstep & Hb)).
  apply io_ret_ok in Hb as [<- _]. simpl.
  repeat match goal with Hs : lift _ _ = (Ok _, _) |- _ => apply lift_ok in Hs as [Hs _] end.
  by eapply quantity_bound.
Qed.

(** *** Oracle rounds *)

(** A complete round, answered no earlier than asked. *)
Definition round_valid (round : latestRoundDataReturn) : Prop :=
  (0 < answer round)%Z ∧ 0 < startedAt round ∧ startedAt round ≤ updatedAt round ∧
  updatedAt round ≤ u64_max ∧ roundId round ≤ answeredInRound round.

Lemma check_round_ok oracle round u :
  check_round oracle round = Ok u ↔ round_valid round ∧ u = updatedAt round.
Proof.
  unfold check_round, round_valid, u256_to_u64, u256_to_big.
  destruct (Z.leb_spec (answer round) 0) as [|Hz]; cbn [bail_if mbind outcome_bind].
  { split; [done|]. lia. }
  destruct (N.leb_spec (startedAt round) u64_max); cbn [mbind outcome_bind].
  2:{ split; [done|]. lia. }
  destruct (N.leb_spec (updatedAt round) u64_max); cbn [mbind outcome_bind].
  2:{ split; [done|]. lia. }
  destruct (N.eqb_spec (startedAt round) 0); cbn [orb bail_if mbind outcome_bind].
  { split; [done|]. lia. }
  destruct (N.eqb_spec (updatedAt round) 0); cbn [orb bail_if mbind outcome_bind].
  { split; [done|]. lia. }
  destruct (N.ltb_spec (updatedAt round) (startedAt round)); cbn [bail_if mbind outcome_bind].
  { split; [done|]. lia. }
  destruct (N.ltb_spec (answeredInRound round) (roundId round)); cbn [bail_if mbind outcome_bind].
  { split; [done|]. lia. }
  split; [intros <-%(inj Ok); lia|by intros [_ ->]].
Qed.

Lemma check_staleness_ok oracle updated ts staleness u : ts ≤ u64_max →
  check_staleness oracle updated ts staleness = Ok u ↔ updated ≤ ts ∧ ts - updated ≤ staleness.
Proof.
  unfold check_staleness, u64_max. intros Ht.
  destruct (N.ltb_spec ts updated); cbn [bail_if mbind outcome_bind]; [split; [done|lia]|].
  rewrite u64_sub_small by (unfold u64_modulus; lia). rewrite bail_if_ok, N.ltb_ge. tauto.
Qed.

(** *** Scored tokens *)

Definition rate_of (p : SolRatePoint) : RatePoint := mkRatePoint (fromBlock p) (sol_rate p).

Lemma accept_rates_ok token points prev rates :
  fold_m (accept_rate token) (None, []) points = Ok (prev, rates) →
  rates = map rate_of points ∧ ascending rates.
Proof.
  intros Hf.
  apply (fold_m_inv _ (fun pre st => st.2 = map rate_of pre ∧ st.1 = rp_from_block <$> last st.2 ∧
    ascending st.2)) in Hf; [naive_solver|repeat split; constructor|].
  intros pre p [prev0 rates0] st' (Hr & Hp & Hs) (? & Hb%bail_if_ok & <-%(inj Ok))%bind_ok.
  cbn [fst snd] in *. split; [by rewrite map_app, Hr|]. split; [by rewrite last_snoc|].
  apply (strongly_sorted_snoc _ _ _ Hs). intros l Hl. rewrite Hl in Hp. simpl in Hp.
  subst prev0. apply N.leb_gt in Hb. exact Hb.
Qed.

Definition token_ok (t : ScoredToken) : Prop := st_rates t ≠ [] ∧ ascending (st_rates t).

Lemma accept_scored_token_ok block seen tokens item w st' w' :
  accept_scored_token block (seen, tokens) item w = (Ok st', w') →
  (item.1 ∉ seen) ∧ ∃ t, st_token t = item.1 ∧ token_ok t ∧ st' = ({[item.1]} ∪ seen, tokens ++ [t]).
Proof.
  destruct item as [token data]. unfold accept_scored_token. cbn [fst].
  intros (u & w1 & [Hs%bail_if_ok%bool_decide_eq_false ->]%lift_ok &
    (points & w2 & [Hp ->]%lift_ok & (u2 & w3 & [Hne%bail_if_ok%bool_decide_eq_false ->]%lift_ok &
    ([prev rates] & w4 & [Hr ->]%lift_ok & (d & w5 & Hd & [<- _]%io_ret_ok)%io_bind_ok)
    %io_bind_ok)%io_bind_ok)%io_bind_ok)%io_bind_ok.
  split; [done|]. eexists. split; [|split; [|done]]; [done|].
  apply accept_rates_ok in Hr as [-> Ha]. split; [|done]. cbn [st_rates].
  by destruct points.
Qed.

Lemma scored_tokens_ok block items w seen tokens w' :
  fold_m (accept_scored_token block) (∅, []) items w = (Ok (seen, tokens), w') →
  map st_token tokens = map fst items ∧ NoDup (map fst items) ∧ Forall token_ok tokens.
Proof.
  intros Hf. pose (P := fun (pre : list (Address * list byte)) (st : gset Address * list ScoredToken) =>
    map st_token st.2 = map fst pre ∧ st.1 = list_to_set (map fst pre) ∧ NoDup (map fst pre) ∧
    Forall token_ok st.2).
  assert (P ([] ++ items) (seen, tokens)) as (Hm & _ & Hnd & Hall); [|done].
  assert (P [] (∅, [])) as HP0 by (unfold P; cbn; repeat split; constructor).
  eapply (fold_m_io_inv _ P); [|exact HP0|exact Hf].
  clear. intros pre item [seen tokens] w st' w' (Hm & Hseen & Hnd & Hall)
    (Hni & t & Ht & Hok & ->)%accept_scored_token_ok.
  unfold P in *. cbn [fst snd] in *. subst seen. rewrite !map_app. cbn [map].
  split; [congruence|]. split; [|split].
  - rewrite list_to_set_app_L. cbn [list_to_set]. set_solver.
  - apply NoDup_app. split; [done|]. split; [|apply NoDup_singleton].
    intros x Hx ->%list_elem_of_singleton. set_solver.
  - apply Forall_app. split; [done|]. by constructor.
Qed.

Lemma zip_fst {A B} (l : list A) (k : list B) : length k = length l → map fst (zip l k) = l.
Proof.
  revert k. induction l as [|x l IH]; intros [|y k] Hl; try done. cbn. f_equal. apply IH.
  by injection Hl.
Qed.

(** *** Pools *)

Lemma chunks_exact2_length {A} n : ∀ l : list A, length l = (2 * n)%nat →
  length (chunks_exact2 l) = n.
Proof.
  induction n as [|n IH]; intros [|a [|b l]]; cbn [length chunks_exact2]; try lia.
  intros Hl. rewrite IH; lia.
Qed.

Lemma accept_pools_ok config block items w states w' :
  fold_m (accept_pool config block) [] items w = (Ok states, w') →
  map (fun s => (ps_asset s, ps_pool s)) states = map fst items ∧
  Forall2 (fun s (item : (Address * Address) * (list byte * list byte)) =>
    decode_read asset item.2.1 = Ok (ps_asset s) ∧
    decode_read totalAssets item.2.2 = Ok (ps_balance s) ∧
    ∃ feed wa wb, asset_feed config (ps_asset s) = Ok feed ∧
      price_usd_1e18 feed block (cfg_max_oracle_staleness config) wa = (Ok (ps_asset_usd s), wb))
    states items.
Proof.
  intros Hf. eapply (fold_m_io_inv _ (fun pre states =>
    map (fun s => (ps_asset s, ps_pool s)) states = map fst pre ∧
    Forall2 (fun s (item : (Address * Address) * (list byte * list byte)) =>
      decode_read asset item.2.1 = Ok (ps_asset s) ∧
      decode_read totalAssets item.2.2 = Ok (ps_balance s) ∧
      ∃ feed wa wb, asset_feed config (ps_asset s) = Ok feed ∧
        price_usd_1e18 feed block (cfg_max_oracle_staleness config) wa = (Ok (ps_asset_usd s), wb))
      states pre) items _ []) in Hf; [exact Hf|by split].
  Unshelve. clear. intros pre [[a p] chunk] states w st' w' [Hm Hall]. unfold accept_pool.
  intros (a' & w1 & [Ha ->]%lift_ok & (u & w2 & [Hb%bail_if_ok ->]%lift_ok &
    (bal & w3 & [Hbal ->]%lift_ok & (feed & w4 & [Hfeed%map_err_ok ->]%lift_ok &
    (usd & w5 & Hp & (d & w6 & Hd & [<- _]%io_ret_ok)%io_bind_ok)%io_bind_ok)%io_bind_ok)
    %io_bind_ok)%io_bind_ok)%io_bind_ok.
  apply negb_false_iff, bool_decide_eq_true in Hb as ->. rewrite !map_app, Hm. split; [done|].
  apply Forall2_app; [done|]. constructor; [|constructor]. cbn. split; [done|]. split; [done|].
  by eexists _, _, _.
Qed.
End ConfigReadFacts.

(* ------------------------------------------------------------------ *)
(** ** Theorems *)

Section ConfigReadTheorems.
Context `{HexCrate, AbiCodec} {W : Type} `{!RpcIface W}.

(** A price is accepted exactly when the oracle's round is positive, complete
    (startedAt and updatedAt set, in order, of 64 bits), answered in its own
    round, not later than the pinned block and at most the configured staleness
    older; the result is the answer rescaled to 18 decimals, never zero. *)
Theorem price_usd_1e18_spec (oracle : Address) (block_number max_staleness : N) (w : W) (p : N) (w' : W) :
  price_usd_1e18 oracle block_number max_staleness w = (Ok p, w') ↔
  ∃ round pinned decimals w1 w2,
    contract_call latestRoundData oracle tt (Some block_number) w = (Ok round, w1) ∧
    block_by_number block_number w1 = (Ok pinned, w2) ∧
    contract_call feed_decimals oracle tt (Some block_number) w2 = (Ok decimals, w') ∧
    round_valid round ∧
    updatedAt round ≤ ba_timestamp pinned ∧
    ba_timestamp pinned - updatedAt round ≤ max_staleness ∧
    p = scale_price (Z.abs_N (answer round)) decimals ∧ p ≠ 0.
Proof.
  unfold price_usd_1e18. split.
  - intros (round & w1 & Hr & (u & w2 & [Hc ->]%lift_ok & (pinned & w3 & Hb & (v & w4 & [Hs ->]%lift_ok
      & (d & w5 & Hd & (z & w6 & [Hz%bail_if_ok%N.eqb_neq ->]%lift_ok & [<- <-]%io_ret_ok)
      %io_bind_ok)%io_bind_ok)%io_bind_ok)%io_bind_ok)%io_bind_ok)%io_bind_ok.
    apply check_round_ok in Hc as [Hv ->].
    apply check_staleness_ok in Hs as [Hs1 Hs2]; [|by eapply block_timestamp_bound].
    by exists round, pinned, d, w1, w3.
  - intros (round & pinned & d & w1 & w2 & Hr & Hb & Hd & Hv & Hs1 & Hs2 & -> & Hz).
    rewrite (io_bind_eval _ _ _ _ _ Hr).
    rewrite (proj2 (check_round_ok oracle round (updatedAt round))) by done. rewrite io_bind_lift.
    rewrite (io_bind_eval _ _ _ _ _ Hb).
    assert (ba_timestamp pinned ≤ u64_max) as Hmax by (by eapply block_timestamp_bound).
    rewrite (proj2 (check_staleness_ok oracle _ _ max_staleness tt Hmax)) by done.
    rewrite io_bind_lift, (io_bind_eval _ _ _ _ _ Hd). cbv zeta.
    rewrite (proj2 (N.eqb_neq _ _) Hz). done.
Qed.

(** C10: A score configuration that is accepted is well formed: the sampling step
    is positive, the tokens are the registry's, in order and without duplicates,
    and every rate history is non-empty and strictly ascending, so the score
    accumulator's own validation accepts it. *)
Theorem complete_score_config_sound (registry_ : Address) (block_number : N)
    (params : settlementParamsReturn) (tokens : list Address) (w : W) (c : ScoreConfig) (w' : W) :
  complete_score_config registry_ block_number params tokens w = (Ok c, w') →
  0 < sample_step_blocks (sc_params c) ∧
  map st_token (sc_scored_tokens c) = tokens ∧ NoDup tokens ∧
  Forall (fun t => st_rates t ≠ [] ∧ validate_rates (st_rates t) = Ok tt) (sc_scored_tokens c).
Proof.
  unfold complete_score_config.
  intros (u & w1 & [Hz%bail_if_ok%N.eqb_neq ->]%lift_ok & (reads & w2 & Hr & ([seen ts] & w3 & Hf
    & [<- <-]%io_ret_ok)%io_bind_ok)%io_bind_ok)%io_bind_ok.
  apply aggregate_reads_ok in Hr as (_ & Hlen & _). rewrite length_map in Hlen.
  apply scored_tokens_ok in Hf as (Hm & Hnd & Hall). rewrite zip_fst in Hm, Hnd by done.
  cbn [sc_params sc_scored_tokens sample_step_blocks]. split; [lia|]. split; [done|]. split; [done|].
  eapply Forall_impl; [exact Hall|]. intros t [Hne Ha]. by rewrite validate_rates_ascending.
Qed.

(** Pool states are read for exactly the requested pools, in order: each
    pool itself reports the configured asset and balance, and its price comes
    from the asset's configured feed under the configured staleness. *)
Theorem pool_states_at_sound (config : BootstrapConfig) (pools : list (Address * Address))
    (block_number : N) (w : W) (states : list PoolState) (w' : W) :
  pool_states_at config pools block_number w = (Ok states, w') →
  map (fun s => (ps_asset s, ps_pool s)) states = pools ∧
  Forall (fun s =>
    (∃ data, decode_read asset data = Ok (ps_asset s)) ∧
    (∃ data, decode_read totalAssets data = Ok (ps_balance s)) ∧
    ∃ feed wa wb, asset_feed config (ps_asset s) = Ok feed ∧
      price_usd_1e18 feed block_number (cfg_max_oracle_staleness config) wa
        = (Ok (ps_asset_usd s), wb)) states.
Proof.
  unfold pool_states_at. intros (reads & w1 & Hr & Hf)%io_bind_ok.
  apply aggregate_reads_ok in Hr as (_ & Hlen & _).
  assert (length reads = (2 * length pools)%nat) as Hlen2.
  { rewrite Hlen. clear. induction pools as [|[a p] pools IH]; [done|]. cbn [map].
    change (mjoin (?x :: ?l)) with (x ++ mjoin l). rewrite length_app, IH. cbn [length]. lia. }
  apply accept_pools_ok in Hf as [Hm Hall].
  rewrite zip_fst in Hm by (by apply chunks_exact2_length). split; [done|].
  clear -Hall. induction Hall as [|s item states items Hs _ IH]; constructor; [|done].
  destruct Hs as (Ha & Hb & Hp). split; [by eexists|]. split; [by eexists|exact Hp].
Qed.
End ConfigReadTheorems.

(* ------------------------------------------------------------------ *)
(** ** Evaluated instances *)

Section ConfigReadWitnesses.
#[local] Existing Instances RefHex.hex_crate RefHex.hex_laws RefAbi.abi_codec.

Definition demo_registry : Address := array_of 20 [x01].
Definition demo_token : Address := array_of 20 [x02].
Definition demo_pool : Address := array_of 20 [x03].
Definition demo_feed : Address := array_of 20 [x04].

(** A reply of the reference codec. *)
Definition returns (f : SolFn) (v : sol_return f) : list byte := abi_encode_returns f v.
(** Answers by target and selector. *)
Definition table_answer (table : list (Address * SolFn * list byte)) (to : Address)
    (data : list byte) (number : N) : list byte :=
  default [] (snd <$> List.find (fun '(a, f, _) =>
    bool_decide (a = to) && bool_decide (take 4 data = RefAbi.selector f)) table).

Definition demo_table : list (Address * SolFn * list byte) :=
  [(demo_registry, getScoredRateHistory,
      returns getScoredRateHistory [mkSolRatePoint 2 5; mkSolRatePoint 9 7]);
   (demo_token, erc20_decimals, returns erc20_decimals 6);
   (demo_pool, asset, returns asset demo_token);
   (demo_pool, totalAssets, returns totalAssets 1000);
   (demo_feed, latestRoundData, returns latestRoundData (mkLatestRoundDataReturn 3 200000000 1050 1060 3));
   (demo_feed, feed_decimals, returns feed_decimals 8)].
#[local] Instance table_provider : RpcIface unit :=
  RefProvider.provider demo_ts demo_block_hash 20 (table_answer demo_table) [].

Example complete_score_config_sound_witness :
  ∃ c w', complete_score_config demo_registry 10 (mkSettlementParamsReturn 4 2 1) [demo_token] tt
          = (Ok c, w') ∧ map st_token (sc_scored_tokens c) = [demo_token].
Proof.
  assert (∃ c w', complete_score_config demo_registry 10 (mkSettlementParamsReturn 4 2 1)
    [demo_token] tt = (Ok c, w')) as (c & w' & E) by (eexists _, _; vm_compute; reflexivity).
  exists c, w'. split; [exact E|]. by apply complete_score_config_sound in E as (_ & Hm & _).
Defined.

Definition demo_bootstrap : BootstrapConfig :=
  mkBootstrapConfig CONFIG_VERSION 1 demo_registry demo_registry 1 100
    {[demo_token := demo_feed]} 3600.

Example pool_states_at_sound_witness :
  ∃ states w', pool_states_at demo_bootstrap [(demo_token, demo_pool)] 10 tt = (Ok states, w') ∧
    map (fun s => (ps_asset s, ps_pool s)) states = [(demo_token, demo_pool)].
Proof.
  assert (∃ states w', pool_states_at demo_bootstrap [(demo_token, demo_pool)] 10 tt
    = (Ok states, w')) as (states & w' & E) by (eexists _, _; vm_compute; reflexivity).
  exists states, w'. split; [exact E|]. by apply pool_states_at_sound in E as [Hm _].
Defined.
End ConfigReadWitnesses.
