(* ===== verification/History.v ===== *)
(** * Event and balance history ([src/chain.rs], third part)

    The claim events of an incident, the balance histories of ERC-20 and
    ERC-1155 accounts replayed from their transfer logs, the earned score as a
    sum of block integrals, and the TWAP of a conversion ratio. *)

From S2P Require Import Prelude Bytes Text Commit ScoreCore Rpc Abi Config Chain ChainConfig.
From Stdlib Require Import Strings.Byte.

Open Scope string_scope.
Open Scope N_scope.
Open Scope list_scope.

(** [str::trim_start_matches(p)], for a non-empty [p]. *)
Fixpoint trim_start_go (fuel : nat) (p s : string) : string :=
  match fuel with
  | O => s
  | S fuel => match strip_prefix p s with Some r => trim_start_go fuel p r | None => s end
  end.
Definition trim_start_matches (p s : string) : string := trim_start_go (String.length s) p s.

Record NetDelta := mkNetDelta { inflow : N; outflow : N }.
Definition default_net_delta : NetDelta := mkNetDelta 0 0.
Abbreviation Deltas := (gmap (N * N) NetDelta).

Record TokenTransfer := mkTokenTransfer {
  tt_from : Address;
  tt_to : Address;
  tt_value : N;
  tt_block_number : N;
  tt_log_index : N
}.
#[export] Instance TokenTransfer_eq_dec : EqDecision TokenTransfer.
Proof. solve_decision. Defined.

Definition merge_log_metrics (left right : LogMetrics) : LogMetrics :=
  mkLogMetrics (saturating_add (lm_requests left) (lm_requests right))
    (saturating_add (lm_bisections left) (lm_bisections right))
    (saturating_add (lm_errors left) (lm_errors right))
    (saturating_add (lm_elapsed_ms left) (lm_elapsed_ms right)).

Definition add_flow (value : N) (is_inflow : bool) (delta : NetDelta) : NetDelta :=
  if is_inflow then mkNetDelta (inflow delta + value) (outflow delta)
  else mkNetDelta (inflow delta) (outflow delta + value).
Definition add_delta (deltas : Deltas) (log : RpcLog) (value : N) (is_inflow : bool) : Deltas :=
  btree_entry default_net_delta (add_flow value is_inflow)
    (log_block_number log, log_log_index log) deltas.

(** The balance after one net movement. *)
Definition apply_delta (asset_ : Address) (balance : N) (item : (N * N) * NetDelta) :
    outcome ChainError N :=
  let '((block, index), delta) := item in
  if outflow delta <=? inflow delta then Ok (balance + (inflow delta - outflow delta))
  else
    let decrease := outflow delta - inflow delta in
    _ ← bail_if (balance <? decrease) (ReplayUnderflow asset_ block index);
    Ok (balance - decrease).

(** One iteration of the loop of [apply_deltas]: the minimum moves only when
    the balance decreases. *)
Definition apply_deltas_step (asset_ : Address) (st : N * N) (item : (N * N) * NetDelta) :
    outcome ChainError (N * N) :=
  let '(minimum, balance) := st in
  balance' ← apply_delta asset_ balance item;
  Ok (if outflow item.2 <=? inflow item.2 then (minimum, balance')
      else (if balance' <? minimum then balance' else minimum, balance')).
Definition apply_deltas (asset_ : Address) (balance : N) (deltas : Deltas) :
    outcome ChainError (N * N) :=
  fold_m (apply_deltas_step asset_) (balance, balance) (btree_iter deltas).

Section Topics.
Context `{HexCrate, AbiCodec}.

Definition topic_hash (value : Hash) : Value := VString (hash_hex value).
Definition uint_topic (value : N) (field : string) : outcome ChainError Value :=
  word ← big_to_u256 value field;
  Ok (VString ("0x" +:+ hex_encode (be_bytes 32 word))).
Definition address_topic (value : Address) : Value :=
  VString ("0x" +:+ hex_encode (replicate 12 x00 ++ array_val value)).

(** [topics.map(B256::from_str).collect()]: the first failing topic's error. *)
Fixpoint parse_topics (topics : list string) : string + list Hash :=
  match topics with
  | [] => inr []
  | topic :: topics =>
      match b256_from_str topic with
      | inl error => inl error
      | inr h => match parse_topics topics with inl error => inl error | inr hs => inr (h :: hs) end
      end
  end.

Definition decode_event (e : SolEvent) (log : RpcLog) : outcome ChainError (event_data e) :=
  let failed message :=
    EventDecode (event_signature e) (log_block_number log) (log_log_index log) message in
  match parse_topics (log_topics log) with
  | inl message => Err (failed message)
  | inr topics =>
      let text := trim_start_matches "0x" (log_data log) in
      match hex_decode text with
      | None => Err (failed (hex_decode_error text))
      | Some data =>
          match decode_raw_log_validate e topics data with
          | inl message => Err (failed message)
          | inr event => Ok event
          end
      end
  end.
End Topics.

Section History.
Context `{HexCrate, AbiCodec} {W : Type} `{!RpcIface W}.

Definition chain_logs (filter : LogFilter) (from_block to_block max_range result_cap : N) :
    io W ChainError (list RpcLog * LogMetrics) :=
  map_err_io ChainRpc (get_logs_chunked filter from_block to_block max_range result_cap).

(** *** Claim events *)

Definition registration_event (log : RpcLog) (decoded : ClaimRegisteredData) : ClaimEvent :=
  {| ev_kind := Register; ev_claim_id := u256_to_big (cr_claimId decoded);
     ev_user := cr_user decoded; ev_amount := cr_insuredTokenAmount decoded;
     ev_score_to_spend := u256_to_big (cr_scoreToSpend decoded);
     ev_booster_amount := u256_to_big (cr_boosterAmount decoded);
     ev_block_number := log_block_number log; ev_log_index := log_log_index log |}.
Definition cancellation_event (log : RpcLog) (decoded : ClaimCancelledData) : ClaimEvent :=
  {| ev_kind := Cancel; ev_claim_id := u256_to_big (cc_claimId decoded);
     ev_user := cc_user decoded; ev_amount := 0; ev_score_to_spend := 0; ev_booster_amount := 0;
     ev_block_number := log_block_number log; ev_log_index := log_log_index log |}.

(** Bodies of the two loops over the logs. *)
Definition accept_registration (st : gset N * list ClaimEvent) (log : RpcLog) :
    outcome ChainError (gset N * list ClaimEvent) :=
  let '(claim_ids, events) := st in
  decoded ← decode_event ClaimRegistered log;
  let event := registration_event log decoded in
  Ok ({[ev_claim_id event]} ∪ claim_ids, events ++ [event]).
Definition accept_cancellation (claim_ids : gset N) (events : list ClaimEvent) (log : RpcLog) :
    outcome ChainError (list ClaimEvent) :=
  decoded ← decode_event ClaimCancelled log;
  let event := cancellation_event log decoded in
  Ok (if bool_decide (ev_claim_id event ∈ claim_ids) then events ++ [event] else events).

Definition read_input_events (defi_insurance : Address) (incident_id from_block to_block : N)
    (max_range result_cap : N) : io W ChainError (list ClaimEvent * LogMetrics) :=
  incident_topic ← lift (uint_topic incident_id "incidentId");
  let registration_filter := mkLogFilter (address_to_string defi_insurance)
    [topic_hash (event_signature_hash ClaimRegistered); VNull; incident_topic] in
  '(registration_logs, registration_metrics) ←
    chain_logs registration_filter from_block to_block max_range result_cap;
  '(claim_ids, events) ← lift (fold_m accept_registration (∅, []) registration_logs);
  let cancellation_filter := mkLogFilter (address_to_string defi_insurance)
    [topic_hash (event_signature_hash ClaimCancelled)] in
  '(cancellation_logs, cancellation_metrics) ←
    chain_logs cancellation_filter from_block to_block max_range result_cap;
  events ← lift (fold_m (accept_cancellation claim_ids) events cancellation_logs);
  mret (sort_by_key (fun event => (ev_block_number event, ev_log_index event)) events,
        merge_log_metrics registration_metrics cancellation_metrics).

(** *** ERC-20 transfers *)

Definition transfer_of (log : RpcLog) : outcome ChainError TokenTransfer :=
  event ← decode_event Transfer log;
  Ok (mkTokenTransfer (tr_from event) (tr_to event) (u256_to_big (tr_value event))
        (log_block_number log) (log_log_index log)).

(** [unique.insert(key, log)] with its check of a previous log. *)
Definition insert_unique (unique : gmap (N * N) RpcLog) (log : RpcLog) :
    outcome ChainError (gmap (N * N) RpcLog) :=
  let key := (log_block_number log, log_log_index log) in
  _ ← bail_if (match unique !! key with
               | Some previous => negb (bool_decide (previous = log))
               | None => false
               end)
        (InvalidConfiguration ("conflicting duplicate transfer log at " +:+ to_decimal key.1 +:+
           ":" +:+ to_decimal key.2));
  Ok (<[key := log]> unique).

(** One batch of at most 64 accounts; [try_join!] runs the two queries, here
    one after the other. *)
Definition transfer_batch (token : Address) (from_block to_block max_range result_cap : N)
    (st : gmap (N * N) RpcLog * LogMetrics) (batch : list Value) :
    io W ChainError (gmap (N * N) RpcLog * LogMetrics) :=
  let '(unique, metrics) := st in
  let options := VArray batch in
  let transfer := topic_hash (event_signature_hash Transfer) in
  '(outgoing, outgoing_metrics) ← chain_logs
    (mkLogFilter (address_to_string token) [transfer; options])
    from_block to_block max_range result_cap;
  '(incoming, incoming_metrics) ← chain_logs
    (mkLogFilter (address_to_string token) [transfer; VNull; options])
    from_block to_block max_range result_cap;
  let metrics := merge_log_metrics (merge_log_metrics metrics outgoing_metrics) incoming_metrics in
  unique ← lift (fold_m insert_unique unique outgoing);
  unique ← lift (fold_m insert_unique unique incoming);
  mret (unique, metrics).

Definition erc20_transfers_for_accounts (token : Address) (accounts : gset Address)
    (from_block to_block max_range result_cap : N) :
    io W ChainError (list TokenTransfer * LogMetrics) :=
  if (to_block <? from_block) || bool_decide (accounts = ∅) then mret ([], default_log_metrics)
  else
    let account_topics := map address_topic (btree_set_iter accounts) in
    '(unique, metrics) ← fold_m (transfer_batch token from_block to_block max_range result_cap)
                           (∅, default_log_metrics) (chunks 64 account_topics);
    transfers ← lift (mapM (fun '(_, log) => transfer_of log) (btree_iter unique));
    mret (transfers, metrics).

Definition erc20_transfers (token : Address) (from_block to_block max_range result_cap : N) :
    io W ChainError (list TokenTransfer * LogMetrics) :=
  if to_block <? from_block then mret ([], default_log_metrics)
  else
    let filter := mkLogFilter (address_to_string token)
      [topic_hash (event_signature_hash Transfer)] in
    '(logs, metrics) ← chain_logs filter from_block to_block max_range result_cap;
    transfers ← lift (mapM transfer_of logs);
    mret (sort_by_key (fun transfer => (tt_block_number transfer, tt_log_index transfer)) transfers,
          metrics).
End History.

(* ------------------------------------------------------------------ *)
(** ** Minimum balances over a range *)

Section Balances.
Context `{HexCrate, AbiCodec} {W : Type} `{!RpcIface W}.

(** The nested entry of one account's deltas. *)
Definition account_flow (account : Address) (position : N * N) (value : N) (is_inflow : bool)
    (deltas : gmap Address Deltas) : gmap Address Deltas :=
  btree_entry ∅ (btree_entry default_net_delta (add_flow value is_inflow) position) account deltas.

Definition record_transfer (accounts : gset Address) (deltas : gmap Address Deltas)
    (transfer : TokenTransfer) : gmap Address Deltas :=
  let position := (tt_block_number transfer, tt_log_index transfer) in
  let deltas := if bool_decide (tt_from transfer ∈ accounts)
    then account_flow (tt_from transfer) position (tt_value transfer) false deltas else deltas in
  if bool_decide (tt_to transfer ∈ accounts)
  then account_flow (tt_to transfer) position (tt_value transfer) true deltas else deltas.

Definition read_starting_balance (token : Address) (from_block : N) (balances : gmap Address N)
    (account : Address) : io W ChainError (gmap Address N) :=
  balance ← balance_of_at token account from_block;
  mret (<[account := balance]> balances).

(** [balanceOf] at the end of the range must confirm the replay. *)
Definition confirm_balance (asset_ : Address) (replayed actual block : N) :
    outcome ChainError unit :=
  bail_if (negb (actual =? replayed)) (BalanceReplayMismatch asset_ replayed actual block).

Definition account_minimum (token : Address) (to_block : N) (account_deltas : gmap Address Deltas)
    (minimums : gmap Address N) (entry : Address * N) : io W ChainError (gmap Address N) :=
  let '(account, starting_balance) := entry in
  let deltas := default ∅ (account_deltas !! account) in
  '(minimum, replayed) ← lift (apply_deltas token starting_balance deltas);
  actual ← balance_of_at token account to_block;
  _ ← lift (confirm_balance token replayed actual to_block);
  mret (<[account := minimum]> minimums).

Definition min_balances_over (token : Address) (accounts : gset Address)
    (from_block to_block max_range result_cap : N) :
    io W ChainError (gmap Address N * LogMetrics) :=
  starting_balances ← fold_m (read_starting_balance token from_block) ∅ (btree_set_iter accounts);
  if to_block <=? from_block then mret (starting_balances, default_log_metrics)
  else
    '(transfers, metrics) ← erc20_transfers_for_accounts token accounts (u64_add from_block 1)
                              to_block max_range result_cap;
    let account_deltas := fold_left (record_transfer accounts) transfers ∅ in
    minimums ← fold_m (account_minimum token to_block account_deltas) ∅
                 (btree_iter starting_balances);
    mret (minimums, metrics).

Definition min_balance_over (token account : Address)
    (from_block to_block max_range result_cap : N) : io W ChainError (N * LogMetrics) :=
  '(minimums, metrics) ← min_balances_over token {[account]} from_block to_block max_range
                           result_cap;
  minimum ← lift (ok_or (minimums !! account)
                    (InvalidConfiguration "missing replayed account minimum"));
  mret (minimum, metrics).

Definition values_for_id (ids values : list N) (wanted : N) : outcome ChainError N :=
  _ ← bail_if (negb (Nat.eqb (length ids) (length values))) BatchLengthMismatch;
  Ok (fold_left (fun sum '(_, value) => sum + u256_to_big value)
        (List.filter (fun '(id, _) => id =? wanted) (zip ids values)) 0).

(** The value one log moves of the wanted id. *)
Definition erc1155_value (wanted : N) (batch : bool) (log : RpcLog) : outcome ChainError N :=
  if batch then
    event ← decode_event TransferBatch log;
    values_for_id (tb_ids event) (tb_values event) wanted
  else
    event ← decode_event TransferSingle log;
    Ok (if ts_id event =? wanted then u256_to_big (ts_value event) else 0).

Definition accept_erc1155_log (wanted : N) (is_inflow batch : bool) (deltas : Deltas)
    (log : RpcLog) : outcome ChainError Deltas :=
  value ← erc1155_value wanted batch log;
  Ok (if value =? 0 then deltas else add_delta deltas log value is_inflow).

(** The four queries: single and batch transfers, out of and into the account. *)
Definition erc1155_queries (collection account : Address) : list (LogFilter * bool * bool) :=
  let filter event topics := mkLogFilter (address_to_string collection)
    (topic_hash (event_signature_hash event) :: topics) in
  [(filter TransferSingle [VNull; address_topic account], false, false);
   (filter TransferSingle [VNull; VNull; address_topic account], true, false);
   (filter TransferBatch [VNull; address_topic account], false, true);
   (filter TransferBatch [VNull; VNull; address_topic account], true, true)].

Definition run_erc1155_query (wanted from_block to_block max_range result_cap : N)
    (st : Deltas * LogMetrics) (query : LogFilter * bool * bool) :
    io W ChainError (Deltas * LogMetrics) :=
  let '(deltas, metrics) := st in
  let '((filter, is_inflow), batch) := query in
  '(logs, query_metrics) ← chain_logs filter (u64_add from_block 1) to_block max_range result_cap;
  deltas ← lift (fold_m (accept_erc1155_log wanted is_inflow batch) deltas logs);
  mret (deltas, merge_log_metrics metrics query_metrics).

Definition min_erc1155_balance_over (collection account : Address)
    (id from_block to_block max_range result_cap : N) : io W ChainError (N * LogMetrics) :=
  starting_balance ← erc1155_balance_of_at collection account id from_block;
  if to_block <=? from_block then mret (starting_balance, default_log_metrics)
  else
    wanted ← lift (big_to_u256 id "ERC1155 id");
    '(deltas, metrics) ← fold_m (run_erc1155_query wanted from_block to_block max_range result_cap)
      (∅, default_log_metrics) (erc1155_queries collection account);
    '(minimum, replayed) ← lift (apply_deltas collection starting_balance deltas);
    actual ← erc1155_balance_of_at collection account id to_block;
    _ ← lift (confirm_balance collection replayed actual to_block);
    mret (minimum, metrics).

(** *** Block integrals and the earned score *)

Definition outgoing_filter (token account : Address) : LogFilter :=
  mkLogFilter (address_to_string token)
    [topic_hash (event_signature_hash Transfer); address_topic account].
Definition incoming_filter (token account : Address) : LogFilter :=
  mkLogFilter (address_to_string token)
    [topic_hash (event_signature_hash Transfer); VNull; address_topic account].

Definition accept_flow (is_inflow : bool) (deltas : Deltas) (log : RpcLog) :
    outcome ChainError Deltas :=
  event ← decode_event Transfer log;
  Ok (add_delta deltas log (u256_to_big (tr_value event)) is_inflow).
Definition transfer_deltas (outgoing incoming : list RpcLog) : outcome ChainError Deltas :=
  deltas ← fold_m (accept_flow false) ∅ outgoing;
  fold_m (accept_flow true) deltas incoming.

(** The loop state: accumulator, cursor and balance. *)
Definition integral_step (token : Address) (st : N * N * N) (item : (N * N) * NetDelta) :
    outcome ChainError (N * N * N) :=
  let '(accumulator, cursor, balance) := st in
  let block := item.1.1 in
  let accumulator := accumulator + balance * u64_sub block cursor in
  balance ← apply_delta token balance item;
  Ok (accumulator, block, balance).

Definition token_block_integral (token account : Address)
    (from_block to_block max_range result_cap : N) : io W ChainError (N * LogMetrics) :=
  if to_block <=? from_block then mret (0, default_log_metrics)
  else
    balance ← balance_of_at token account from_block;
    '(outgoing, outgoing_metrics) ← chain_logs (outgoing_filter token account)
      (u64_add from_block 1) to_block max_range result_cap;
    '(incoming, incoming_metrics) ← chain_logs (incoming_filter token account)
      (u64_add from_block 1) to_block max_range result_cap;
    deltas ← lift (transfer_deltas outgoing incoming);
    '(accumulator, cursor, balance) ←
      lift (fold_m (integral_step token) (0, from_block, balance) (btree_iter deltas));
    let accumulator := accumulator + balance * u64_sub to_block cursor in
    actual ← balance_of_at token account to_block;
    _ ← lift (confirm_balance token balance actual to_block);
    mret (accumulator, merge_log_metrics outgoing_metrics incoming_metrics).

(** One rate segment of one token; [numerator] and [metrics] are threaded. *)
Definition score_segment (account : Address) (as_of_block max_range result_cap : N)
    (scored : ScoredToken) (index : nat) (st : N * LogMetrics) (point : RatePoint) :
    io W ChainError (N * LogMetrics) :=
  let '(numerator, metrics) := st in
  let next_from := match st_rates scored !! S index with
                   | Some next => rp_from_block next
                   | None => as_of_block
                   end in
  let to_block := N.min next_from as_of_block in
  if (rp_rate point =? 0) || (to_block <=? rp_from_block point) then mret (numerator, metrics)
  else
    '(integral, segment_metrics) ← token_block_integral (st_token scored) account
      (rp_from_block point) to_block max_range result_cap;
    let metrics := merge_log_metrics metrics segment_metrics in
    let normalized := if st_decimals scored <=? 18 then integral * pow10 (18 - st_decimals scored)
                      else integral / pow10 (st_decimals scored - 18) in
    mret (numerator + normalized * rp_rate point, metrics).

Definition earned_score_of (scored_tokens : list ScoredToken) (account : Address)
    (as_of_block max_range result_cap : N) : io W ChainError (N * LogMetrics) :=
  '(numerator, metrics) ← fold_m (fun st scored =>
      fold_im (score_segment account as_of_block max_range result_cap scored) st (st_rates scored))
    (0, default_log_metrics) scored_tokens;
  mret (numerator / 1000000000000000000, metrics).

(** *** TWAP of the conversion ratio *)

(** The sampling loop from [block] on; [samples] counts the ratios read. *)
Fixpoint twap_loop (fuel : nat) (config : IncidentConfig) (step reference_block block sum samples : N) :
    io W ChainError (N * N) :=
  if block <=? reference_block then
    match fuel with
    | O => lift (Panic "out of fuel")
    | S fuel =>
        ratio ← ratio_at (ic_conversion_address config) (ic_conversion_call_data config) block;
        samples ← lift (ok_or (checked_add samples 1)
                          (InvalidConfiguration "TWAP sample count overflow"));
        match checked_add block step with
        | None => mret (sum + ratio, samples)
        | Some next => twap_loop fuel config step reference_block next (sum + ratio) samples
        end
    end
  else mret (sum, samples).

(** Enough for every sample: each iteration advances by [step]. *)
Definition twap_fuel (step reference_block start : N) : nat :=
  S (N.to_nat ((reference_block - start) / step)).

Definition twap_ratio_before (config : IncidentConfig) (reference_block : N) :
    io W ChainError N :=
  let step := sample_step_blocks (ic_params config) in
  _ ← lift (bail_if (step =? 0) (InvalidConfiguration "sampleStepBlocks is zero"));
  let lookback := twap_lookback_blocks (ic_params config) in
  let start := if lookback <? reference_block then u64_sub reference_block lookback else 1 in
  '(sum, samples) ← twap_loop (twap_fuel step reference_block start) config step reference_block
                      start 0 0;
  if samples =? 0 then mret 0 else lift (big_div sum samples).
End Balances.

(* ------------------------------------------------------------------ *)
(** ** Helper lemmas: replays as movement lists *)

Definition movement_of (item : (N * N) * NetDelta) : movement :=
  (item.1.1, inflow item.2, outflow item.2).
(** The movements of a delta map, in log order. *)
Definition movements (deltas : Deltas) : list movement := map movement_of (btree_iter deltas).

Lemma apply_delta_run asset_ bal item :
  apply_delta asset_ bal item =
  match run_balance bal [movement_of item] with
  | Some bal' => Ok bal'
  | None => Err (ReplayUnderflow asset_ item.1.1 item.1.2)
  end.
Proof.
  destruct item as [[b i] [inn out]]. unfold apply_delta, movement_of. cbn [fst snd inflow outflow run_balance].
  destruct (N.leb_spec out inn) as [Hle|Hgt].
  - rewrite (proj2 (N.ltb_ge (bal + inn) out)) by lia. f_equal. lia.
  - destruct (N.ltb_spec bal (out - inn)) as [Hlt|Hge].
    + by rewrite (proj2 (N.ltb_lt (bal + inn) out)) by lia.
    + rewrite (proj2 (N.ltb_ge (bal + inn) out)) by lia. cbn. f_equal. lia.
Qed.

Lemma run_balance_cons bal m ms :
  run_balance bal (m :: ms) = bal' ← run_balance bal [m]; run_balance bal' ms.
Proof. destruct m as [[b i] o]. cbn [run_balance]. by destruct (bal + i <? o). Qed.

(** The replayed minimum is the least balance after any prefix. *)
Lemma apply_deltas_fold asset_ l : ∀ m b, m ≤ b →
  match fold_m (apply_deltas_step asset_) (m, b) l with
  | Ok (m', b') =>
      run_balance b (map movement_of l) = Some b' ∧ m' ≤ m ∧
      (m' = m ∨ ∃ n, run_balance b (take n (map movement_of l)) = Some m') ∧
      (∀ n v, run_balance b (take n (map movement_of l)) = Some v → m' ≤ v)
  | Err e => ∃ n item, l !! n = Some item ∧ e = ReplayUnderflow asset_ item.1.1 item.1.2 ∧
      is_Some (run_balance b (take n (map movement_of l))) ∧
      run_balance b (take (S n) (map movement_of l)) = None
  | Panic _ => False
  end.
Proof.
  induction l as [|x l IH]; intros m b Hmb; cbn [fold_m map].
  { split; [done|]. split; [done|]. split; [by left|]. intros n v. rewrite take_nil. naive_solver. }
  unfold apply_deltas_step at 2. rewrite apply_delta_run.
  destruct (run_balance b [movement_of x]) as [b1|] eqn:E1; cbn [mbind outcome_bind].
  2:{ exists 0%nat, x. split; [done|]. split; [done|]. cbn [take]. split; [by eexists|exact E1]. }
  set (m1 := if outflow x.2 <=? inflow x.2 then m else if b1 <? m then b1 else m).
  assert ((if outflow x.2 <=? inflow x.2 then (m, b1) else (if b1 <? m then b1 else m, b1)) = (m1, b1))
    as -> by (unfold m1; by destruct (_ <=? _)).
  assert (m1 ≤ b1 ∧ m1 ≤ m ∧ (m1 = m ∨ m1 = b1)) as (Hm1 & Hm1' & Hm1'').
  { unfold m1. unfold movement_of in E1. cbn [run_balance] in E1.
    destruct (N.ltb_spec (b + inflow x.2) (outflow x.2)); [done|]. injection E1 as <-.
    destruct (N.leb_spec (outflow x.2) (inflow x.2)); [lia|].
    destruct (N.ltb_spec (b + inflow x.2 - outflow x.2) m); lia. }
  specialize (IH m1 b1 Hm1). destruct (fold_m (apply_deltas_step asset_) (m1, b1) l) as [[m' b']|e|s]; [| |done].
  - destruct IH as (Hrun & Hle & Hex & Hall). rewrite run_balance_cons, E1. split; [exact Hrun|].
    split; [lia|]. split.
    + destruct Hex as [->|[n Hn]].
      * destruct Hm1'' as [->| ->]; [by left|]. right. exists 1%nat. cbn [take]. exact E1.
      * right. exists (S n). cbn [take]. by rewrite run_balance_cons, E1.
    + intros [|n] v; cbn [take]; [intros [= <-]; lia|]. rewrite run_balance_cons, E1. apply Hall.
  - destruct IH as (n & item & Hl & -> & [v Hv] & Hn). exists (S n), item.
    split; [done|]. split; [done|]. cbn [take]. rewrite run_balance_cons, E1. split; [by exists v|].
    rewrite run_balance_cons, E1. exact Hn.
Qed.

(** The accumulated integral is the sum of the balance history over blocks. *)
Lemma integral_fold token to l : ∀ acc cursor bal acc' cursor' bal',
  to ≤ u64_max → cursor ≤ to → in_order cursor (map movement_of l) →
  (∀ item, item ∈ l → item.1.1 ≤ to) →
  fold_m (integral_step token) (acc, cursor, bal) l = Ok (acc', cursor', bal') →
  acc' + bal' * u64_sub to cursor' = acc + range_sum (history bal (map movement_of l)) cursor to ∧
  run_balance bal (map movement_of l) = Some bal'.
Proof.
  induction l as [|x l IH]; intros acc cursor bal acc' cursor' bal' Hmax Hc Hin Hto; cbn [fold_m map].
  - intros [= <- <- <-]. split; [|done]. unfold u64_max in Hmax.
    rewrite u64_sub_small by (unfold u64_modulus; lia). f_equal.
    by rewrite <-range_sum_const.
  - cbn [map in_order] in Hin. destruct Hin as [Hx Hin]. change (mv_block (movement_of x)) with x.1.1 in Hx, Hin.
    assert (x.1.1 ≤ to) as Hxt by (apply Hto; left).
    intros ([[acc1 cur1] bal1] & Hstep & Hf)%bind_ok. unfold integral_step in Hstep.
    apply bind_ok in Hstep as (bal2 & Hd & [= <- <- <-]). rewrite apply_delta_run in Hd.
    destruct (run_balance bal [movement_of x]) as [b|] eqn:E1; [|done]. injection Hd as ->.
    apply IH in Hf as [Hsum Hrun]; [|done|done|done|intros; apply Hto; by right].
    rewrite run_balance_cons, E1. split; [|exact Hrun]. rewrite Hsum. unfold u64_max in Hmax.
    rewrite u64_sub_small by (unfold u64_modulus; lia).
    rewrite (range_sum_split _ cursor x.1.1 to) by done. rewrite N.add_assoc. f_equal.
    + f_equal. rewrite <-range_sum_const. apply range_sum_ext. intros k Hk1 Hk2. symmetry.
      unfold history. rewrite (in_order_filter_nil x.1.1) by (try done; by split). done.
    + apply range_sum_ext. intros k Hk1 Hk2. unfold history.
      rewrite filter_cons_True by done. rewrite run_balance_cons, E1. done.
Qed.

Lemma movements_in_order deltas from :
  (∀ key d, deltas !! key = Some d → from ≤ key.1) → in_order from (movements deltas).
Proof.
  intros Hk. unfold movements. pose proof (btree_iter_sorted deltas) as Hs.
  assert (∀ item, item ∈ btree_iter deltas → from ≤ item.1.1) as Hall.
  { intros [key d] Hi%elem_of_btree_iter. by eapply Hk. }
  clear Hk. revert from Hall. induction Hs as [|x l Hs IH Hx]; intros from Hall; cbn [map in_order]; [done|].
  split; [apply Hall; left|]. apply IH. intros item Hi. rewrite Forall_forall in Hx.
  specialize (Hx item Hi). unfold key_lt_on in Hx. cbn in Hx. destruct Hx as [Hx|[Hx _]].
  - change (x.1.1 < item.1.1) in Hx. unfold movement_of, mv_block. simpl. lia.
  - unfold movement_of, mv_block. simpl. rewrite Hx. reflexivity.
Qed.

Section HistoryFacts.
Context `{HexCrate, AbiCodec} {W : Type} `{!RpcIface W, !RpcLaws}.

Lemma chain_logs_blocks filter from to mr cap w logs m w' log :
  to ≤ u64_max → from ≤ to → chain_logs filter from to mr cap w = (Ok (logs, m), w') →
  log ∈ logs → from ≤ log_block_number log ∧ log_block_number log ≤ to.
Proof.
  intros Hto Hft Hl%map_err_io_ok Hin.
  apply get_logs_chunked_ok in Hl as (f & ps & _ & Htl & Hall & -> & _); [|done..].
  apply sort_by_key_elem in Hin.
  pose proof (pieces_accepted f cap to ps from from ltac:(done) Htl Hall) as Hacc.
  rewrite Forall_forall in Hacc. by destruct (Hacc log Hin) as (? & ? & _).
Qed.

Lemma accept_flows_keys is_inflow logs : ∀ deltas ds (P : N * N → Prop),
  (∀ key, is_Some (deltas !! key) → P key) →
  (∀ log, log ∈ logs → P (log_block_number log, log_log_index log)) →
  fold_m (accept_flow is_inflow) deltas logs = Ok ds → ∀ key, is_Some (ds !! key) → P key.
Proof.
  induction logs as [|log logs IH]; intros deltas ds P Hd Hl; cbn [fold_m].
  { by intros <-%(inj Ok). }
  intros (d1 & (event & _ & <-%(inj Ok))%bind_ok & Hf)%bind_ok. eapply IH; [| |exact Hf].
  - intros key. unfold add_delta, btree_entry.
    destruct (decide (key = (log_block_number log, log_log_index log))) as [->|Hne].
    + intros _. apply Hl. left.
    + rewrite lookup_insert_ne by done. apply Hd.
  - intros; apply Hl. by right.
Qed.

Lemma transfer_deltas_keys outgoing incoming ds (P : N * N → Prop) :
  (∀ log, log ∈ outgoing ∨ log ∈ incoming → P (log_block_number log, log_log_index log)) →
  transfer_deltas outgoing incoming = Ok ds → ∀ key, is_Some (ds !! key) → P key.
Proof.
  intros Hl (d & Ho & Hi)%bind_ok. eapply accept_flows_keys; [| |exact Hi].
  - eapply accept_flows_keys; [| |exact Ho].
    + intros key [? Hk]. rewrite lookup_empty in Hk. done.
    + intros; apply Hl. by left.
  - intros; apply Hl. by right.
Qed.

(** What a successful [token_block_integral] has read and computed. *)
Lemma token_block_integral_ok token account from to mr cap w v m w' :
  from < to → to ≤ u64_max →
  token_block_integral token account from to mr cap w = (Ok (v, m), w') →
  ∃ bal0 final outgoing incoming mo mi ds w1 w2 w3,
    balance_of_at token account from w = (Ok bal0, w1) ∧
    chain_logs (outgoing_filter token account) (u64_add from 1) to mr cap w1
      = (Ok (outgoing, mo), w2) ∧
    chain_logs (incoming_filter token account) (u64_add from 1) to mr cap w2
      = (Ok (incoming, mi), w3) ∧
    transfer_deltas outgoing incoming = Ok ds ∧
    balance_of_at token account to w3 = (Ok final, w') ∧
    run_balance bal0 (movements ds) = Some final ∧
    v = range_sum (history bal0 (movements ds)) from to.
Proof.
  intros Hft Hto. unfold token_block_integral. rewrite (proj2 (N.leb_gt to from) Hft).
  intros (bal0 & w1 & Hb & ([out mo] & w2 & Ho & ([inc mi] & w3 & Hi & (ds & w4 & [Hd ->]%lift_ok
    & ([[acc cur] bal] & w5 & [Hf ->]%lift_ok & (final & w6 & Hb2 & (u & w7 & [Hc ->]%lift_ok &
    [[= Hv Hm] ->]%io_ret_ok)%io_bind_ok)%io_bind_ok)%io_bind_ok)%io_bind_ok)%io_bind_ok)%io_bind_ok)
    %io_bind_ok.
  apply bail_if_ok, negb_false_iff, N.eqb_eq in Hc as ->.
  assert (u64_add from 1 = from + 1) as Hadd
    by (apply u64_add_small; unfold u64_max, u64_modulus in *; lia).
  assert (∀ key, is_Some (ds !! key) → from < key.1 ∧ key.1 ≤ to) as Hkeys.
  { refine (transfer_deltas_keys out inc ds (fun key => from < key.1 ∧ key.1 ≤ to) _ Hd).
    cbn [fst]. assert (from + 1 ≤ to) as Hft1 by lia. rewrite Hadd in Ho, Hi.
    intros log [Hin|Hin];
      [eapply (chain_logs_blocks _ _ _ _ _ _ _ _ _ _ Hto Hft1 Ho) in Hin
      |eapply (chain_logs_blocks _ _ _ _ _ _ _ _ _ _ Hto Hft1 Hi) in Hin]; lia. }
  apply (integral_fold token to) in Hf as [Hsum Hrun]; [|done|lia| |].
  - exists bal0, bal, out, inc, mo, mi, ds, w1, w2, w3. do 6 (split; [done|]).
    subst v. rewrite Hsum. apply N.add_0_l.
  - apply movements_in_order. intros key d Hk. destruct (Hkeys key) as [??]; [by exists d|]. lia.
  - intros [key d] Hi'%elem_of_btree_iter. by destruct (Hkeys key) as [??]; [exists d|].
Qed.
End HistoryFacts.

(* ------------------------------------------------------------------ *)
(** ** Helper lemmas: the earned score as a specification sum *)

Section EarnedFacts.
Context `{HexCrate, AbiCodec} {W : Type} `{!RpcIface W, !RpcLaws}.
Context (account : Address) (as_of max_range result_cap : N) (Hmax : as_of ≤ u64_max).

(** [h] is the account's balance after each block: [balanceOf] reads it, and the
    transfer logs of every queried range move it. *)
Definition true_history (token : Address) (h : N → N) : Prop :=
  (∀ b w v w', b ≤ as_of → balance_of_at token account b w = (Ok v, w') → v = h b) ∧
  (∀ from to outgoing incoming ds mo mi wo wo' wi wi', from < to → to ≤ as_of →
     chain_logs (outgoing_filter token account) (u64_add from 1) to max_range result_cap wo
       = (Ok (outgoing, mo), wo') →
     chain_logs (incoming_filter token account) (u64_add from 1) to max_range result_cap wi
       = (Ok (incoming, mi), wi') →
     transfer_deltas outgoing incoming = Ok ds →
     ∀ k, from ≤ k → k < to → history (h from) (movements ds) k = h k).

Lemma integral_of_history token h from to w v m w' : true_history token h →
  from < to → to ≤ as_of →
  token_block_integral token account from to max_range result_cap w = (Ok (v, m), w') →
  v = range_sum h from to.
Proof.
  intros [Hbal Hlogs] Hft Hto Hi.
  apply token_block_integral_ok in Hi as
    (bal0 & final & out & inc & mo & mi & ds & w1 & w2 & w3 & Hb & Ho & Hin & Hd & _ & _ & ->);
    [|done|lia].
  apply Hbal in Hb as ->; [|lia]. apply range_sum_ext. intros k Hk1 Hk2. by eapply Hlogs.
Qed.

Lemma segments_sum (scored : ScoredToken) h : true_history (st_token scored) h →
  ∀ l pre st w st' w', st_rates scored = pre ++ l →
  fold_im_from (length pre) (score_segment account as_of max_range result_cap scored) st l w
    = (Ok st', w') →
  st'.1 = st.1 + spec_numerator h 0 (st_decimals scored) as_of l.
Proof.
  intros Htrue. induction l as [|p l IH]; intros pre [num mets] w st' w' Hpre; cbn [fold_im_from spec_numerator].
  { intros [<- _]%io_ret_ok. cbn. lia. }
  intros ([num1 mets1] & w1 & Hs & Hf)%io_bind_ok.
  replace (S (length pre)) with (length (pre ++ [p])) in Hf
    by (rewrite length_app; simpl; lia).
  apply (IH (pre ++ [p])) in Hf; [|by rewrite Hpre, <-app_assoc].
  cbn [fst] in *. rewrite Hf, N.add_assoc. f_equal. clear IH Hf.
  unfold score_segment in Hs.
  assert (st_rates scored !! S (length pre) = head l) as Hnext.
  { rewrite Hpre, lookup_app_r by lia.
    replace (S (length pre) - length pre)%nat with 1%nat by lia. by destruct l. }
  rewrite Hnext in Hs. unfold seg_start. rewrite N.max_0_l.
  set (to := N.min match head l with Some next => rp_from_block next | None => as_of end as_of) in Hs.
  assert (seg_end (next_from l) as_of = to) as ->.
  { unfold seg_end, next_from, to. destruct (head l); simpl; [done|]. by rewrite N.min_id. }
  destruct (N.eqb_spec (rp_rate p) 0) as [->|Hr]; cbn [orb] in Hs.
  { apply io_ret_ok in Hs as [[= <- _] _]. lia. }
  destruct (N.leb_spec to (rp_from_block p)) as [Hle|Hlt].
  { apply io_ret_ok in Hs as [[= <- _] _]. rewrite range_sum_empty by done.
    rewrite scaled_integral_0. lia. }
  apply io_bind_ok in Hs as ([v mv] & w2 & Hi & [[= <- _] _]%io_ret_ok).
  apply (integral_of_history _ h) in Hi as ->; [done|done|done|unfold to; apply N.le_min_r].
Qed.
End EarnedFacts.

(* ------------------------------------------------------------------ *)
(** ** Helper lemmas: sampling, claim events *)

Section TwapFacts.
Context `{HexCrate, AbiCodec} {W : Type} `{!RpcIface W}.
Context (config : IncidentConfig) (step reference : N) (ratio : N → N).
Hypothesis Hstep : step ≠ 0.
Hypothesis Href : reference ≤ u64_max.
Hypothesis Hratio : ∀ b w, ∃ w',
  ratio_at (ic_conversion_address config) (ic_conversion_call_data config) b w = (Ok (ratio b), w').

(** The sampled blocks from [block] on, and their number. *)
Definition sample_count (block : N) : nat :=
  if block <=? reference then S (N.to_nat ((reference - block) / step)) else 0.
Definition sample_blocks (block : N) : list N :=
  map (fun i => block + N.of_nat i * step) (seq 0 (sample_count block)).

Lemma sample_count_next block : block ≤ reference →
  sample_count block = S (sample_count (block + step)).
Proof.
  intros Hb. unfold sample_count. rewrite (proj2 (N.leb_le _ _) Hb). f_equal.
  destruct (N.leb_spec (block + step) reference) as [Hle|Hgt].
  - replace (reference - block) with (reference - (block + step) + 1 * step) by lia.
    rewrite N.div_add by done. lia.
  - rewrite N.div_small by lia. done.
Qed.

Lemma sample_blocks_next block : block ≤ reference →
  sample_blocks block = block :: sample_blocks (block + step).
Proof.
  intros Hb. unfold sample_blocks. rewrite sample_count_next by done. cbn [seq map].
  f_equal; [lia|]. rewrite map_seq_shift. apply map_ext. intros i. lia.
Qed.

Lemma twap_loop_spec fuel : ∀ block sum samples w,
  (sample_count block ≤ fuel)%nat → samples + N.of_nat (sample_count block) ≤ u64_max →
  ∃ w', twap_loop fuel config step reference block sum samples w =
    (Ok (sum + sum_N (map ratio (sample_blocks block)), samples + N.of_nat (sample_count block)), w').
Proof.
  induction fuel as [|fuel IH]; intros block sum samples w Hf Hs; cbn [twap_loop];
    destruct (N.leb_spec block reference) as [Hb|Hb].
  - rewrite sample_count_next in Hf by done. lia.
  - exists w. unfold sample_blocks, sample_count. rewrite (proj2 (N.leb_gt _ _) Hb). cbn.
    by rewrite !N.add_0_r.
  - rewrite sample_blocks_next by done. rewrite sample_count_next in Hf, Hs |- * by done.
    destruct (Hratio block w) as [w1 Hr]. rewrite (io_bind_eval _ _ _ _ _ Hr).
    assert (checked_add samples 1 = Some (samples + 1)) as -> by (apply checked_add_Some; lia).
    cbn [ok_or]. rewrite io_bind_lift. cbn [map].
    change (sum_N (?x :: ?l)) with (x + sum_N l).
    destruct (checked_add block step) as [next|] eqn:En.
    + apply checked_add_Some in En as [-> _].
      destruct (IH (block + step) (sum + ratio block) (samples + 1) w1) as [w' Hw]; [lia..|].
      exists w'. rewrite Hw. do 2 f_equal. f_equal; lia.
    + exists w1. assert (reference < block + step) as Hlate.
      { unfold checked_add in En. destruct (N.leb_spec (block + step) u64_max); [done|lia]. }
      assert (sample_count (block + step) = 0%nat) as E0
        by (unfold sample_count; by rewrite (proj2 (N.leb_gt _ _) Hlate)).
      unfold sample_blocks. rewrite E0. cbn [seq map sum_N foldr]. unfold mret, io_ret.
      do 2 f_equal. f_equal; lia.
  - exists w. unfold sample_blocks, sample_count. rewrite (proj2 (N.leb_gt _ _) Hb). cbn.
    by rewrite !N.add_0_r.
Qed.

Lemma sample_count_fuel start : (sample_count start ≤ twap_fuel step reference start)%nat.
Proof. unfold sample_count, twap_fuel. destruct (_ <=? _); [reflexivity|apply Nat.le_0_l]. Qed.

Lemma sample_count_bound start : 1 ≤ start → N.of_nat (sample_count start) ≤ u64_max.
Proof.
  intros Hs. unfold sample_count. destruct (N.leb_spec start reference) as [Hle|]; [|unfold u64_max; lia].
  assert ((reference - start) / step ≤ reference - start) as Hd
    by (apply N.Div0.div_le_upper_bound; nia).
  revert Hd. generalize ((reference - start) / step). intros q Hd. lia.
Qed.
End TwapFacts.

Section EventFacts.
Context `{HexCrate, AbiCodec}.

Definition registered (log : RpcLog) (e : ClaimEvent) : Prop :=
  ∃ d, decode_event ClaimRegistered log = Ok d ∧ e = registration_event log d.
Definition cancelled (log : RpcLog) (e : ClaimEvent) : Prop :=
  ∃ d, decode_event ClaimCancelled log = Ok d ∧ e = cancellation_event log d.

Lemma registrations_ok logs ids events :
  fold_m accept_registration (∅, []) logs = Ok (ids, events) →
  Forall2 registered logs events ∧ ids = list_to_set (map ev_claim_id events).
Proof.
  intros Hf. apply (fold_m_inv _ (fun pre st => Forall2 registered pre st.2 ∧
    st.1 = list_to_set (map ev_claim_id st.2))) in Hf; [exact Hf|by split|].
  intros pre log [ids0 es0] st' [Hall Hids] (d & Hd & <-%(inj Ok))%bind_ok. cbn [fst snd] in *. split.
  - apply Forall2_app; [done|]. constructor; [|constructor]. by exists d.
  - rewrite map_app, list_to_set_app_L, Hids. cbn [map list_to_set]. set_solver.
Qed.

Lemma cancellations_ok ids events logs events' :
  fold_m (accept_cancellation ids) events logs = Ok events' →
  ∃ cs, Forall2 cancelled logs cs ∧ events' = events ++ filter (fun e => ev_claim_id e ∈ ids) cs.
Proof.
  intros Hf. apply (fold_m_inv _ (fun pre st => ∃ cs, Forall2 cancelled pre cs ∧
    st = events ++ filter (fun e => ev_claim_id e ∈ ids) cs)) in Hf; [exact Hf| |].
  { exists []. by rewrite app_nil_r. }
  intros pre log st st' (cs & Hall & ->) (d & Hd & <-%(inj Ok))%bind_ok.
  exists (cs ++ [cancellation_event log d]). split.
  - apply Forall2_app; [done|]. constructor; [|constructor]. by exists d.
  - rewrite filter_app, filter_cons. cbn [filter list_filter]. case_bool_decide as Hb.
    + rewrite decide_True by done. by rewrite app_assoc.
    + rewrite decide_False by done. by rewrite app_nil_r.
Qed.
End EventFacts.

(* ------------------------------------------------------------------ *)
(** ** Theorems *)

Section HistoryTheorems.
Context `{HexCrate, AbiCodec} {W : Type} `{!RpcIface W}.

(** The replayed minimum balance is exact: on success it is the least of the
    starting balance and the balances after every prefix of the movements in log
    order, and the final balance is that of all movements; the only failure is
    [ReplayUnderflow], at the first movement the running balance cannot cover. *)
Theorem apply_deltas_spec (asset_ : Address) (bal : N) (ds : Deltas) :
  match apply_deltas asset_ bal ds with
  | Ok (minimum, final) =>
      run_balance bal (movements ds) = Some final ∧
      (∃ n, run_balance bal (take n (movements ds)) = Some minimum) ∧
      (∀ n v, run_balance bal (take n (movements ds)) = Some v → minimum ≤ v)
  | Err e => ∃ n item, btree_iter ds !! n = Some item ∧
      e = ReplayUnderflow asset_ item.1.1 item.1.2 ∧
      is_Some (run_balance bal (take n (movements ds))) ∧
      run_balance bal (take (S n) (movements ds)) = None
  | Panic _ => False
  end.
Proof.
  unfold apply_deltas, movements. pose proof (apply_deltas_fold asset_ (btree_iter ds) bal bal) as Hf.
  specialize (Hf ltac:(done)). destruct (fold_m _ _ _) as [[m b]|e|s]; [|exact Hf|exact Hf].
  destruct Hf as (Hrun & _ & Hex & Hall). split; [done|]. split; [|done].
  destruct Hex as [->|Hn]; [|done]. by exists 0%nat.
Qed.

(** The token-block integral that is accepted is the exact sum, over the
    blocks of the range, of the balance replayed from the starting [balanceOf]
    and the transfer logs, and the replayed balance agrees with [balanceOf] at
    the end of the range. *)
Theorem token_block_integral_correct `{!RpcLaws} (token account : Address)
    (from to max_range result_cap : N) (w : W) (v : N) (m : LogMetrics) (w' : W) :
  from < to → to ≤ u64_max →
  token_block_integral token account from to max_range result_cap w = (Ok (v, m), w') →
  ∃ bal0 final outgoing incoming mo mi ds w1 w2 w3,
    balance_of_at token account from w = (Ok bal0, w1) ∧
    chain_logs (outgoing_filter token account) (from + 1) to max_range result_cap w1
      = (Ok (outgoing, mo), w2) ∧
    chain_logs (incoming_filter token account) (from + 1) to max_range result_cap w2
      = (Ok (incoming, mi), w3) ∧
    transfer_deltas outgoing incoming = Ok ds ∧
    balance_of_at token account to w3 = (Ok final, w') ∧
    run_balance bal0 (movements ds) = Some final ∧
    v = range_sum (history bal0 (movements ds)) from to.
Proof.
  intros Hft Hto Hi. rewrite <-(u64_add_small from 1) by (unfold u64_max, u64_modulus in *; lia).
  by eapply token_block_integral_ok.
Qed.

(** The earned score read from the chain is the score of the specification:
    against the true balance history of every scored token it is the gross score
    of the summed numerators, the quantity the incremental accumulator of the
    score core also computes. *)
Theorem earned_score_of_spec `{!RpcLaws} (tokens : list ScoredToken) (account : Address)
    (as_of max_range result_cap : N) (h : Address → N → N) (w : W) (score : N) (m : LogMetrics) (w' : W) :
  as_of ≤ u64_max →
  (∀ t, t ∈ tokens → true_history account as_of max_range result_cap (st_token t) (h (st_token t))) →
  earned_score_of tokens account as_of max_range result_cap w = (Ok (score, m), w') →
  score = gross_score (sum_N (map (fun t =>
    spec_numerator (h (st_token t)) 0 (st_decimals t) as_of (st_rates t)) tokens)).
Proof.
  intros Hmax Htrue. unfold earned_score_of.
  intros ([num mets] & w1 & Hf & [[= <- _] _]%io_ret_ok)%io_bind_ok.
  unfold gross_score, SCORE_SCALE. f_equal.
  pose (f := fun t => spec_numerator (h (st_token t)) 0 (st_decimals t) as_of (st_rates t)).
  fold f. rewrite <-(N.add_0_l (sum_N _)).
  change ((num, mets).1 = (0, default_log_metrics).1 + sum_N (map f tokens)).
  revert Hf. generalize (num, mets), (0, default_log_metrics), w. clear w num mets.
  induction tokens as [|t tokens IH]; intros st' st w; cbn [fold_m map].
  - intros [<- _]%io_ret_ok. cbn. lia.
  - intros (st1 & w2 & Ht & Hf)%io_bind_ok.
    apply IH in Hf; [|intros; apply Htrue; by right]. rewrite Hf.
    apply (segments_sum account as_of max_range result_cap Hmax t _ (Htrue t ltac:(left)) _ [])
      in Ht; [|done]. rewrite Ht. unfold f at 2. cbn [sum_N foldr]. fold (sum_N (map f tokens)). lia.
Qed.

(** The pre-incident ratio is the plain average of the conversion ratio over
    every sampling block from the start of the lookback to the reference block,
    the sampling always terminates, and block 0 has the value 0. *)
Theorem twap_ratio_before_spec (config : IncidentConfig) (reference : N) (ratio : N → N) (w : W) :
  let step := sample_step_blocks (ic_params config) in
  let lookback := twap_lookback_blocks (ic_params config) in
  let start := if lookback <? reference then reference - lookback else 1 in
  step ≠ 0 → reference ≤ u64_max →
  (∀ b w, ∃ w', ratio_at (ic_conversion_address config) (ic_conversion_call_data config) b w
                = (Ok (ratio b), w')) →
  ∃ w', twap_ratio_before config reference w =
    (Ok (if reference =? 0 then 0
         else sum_N (map ratio (sample_blocks step reference start)) /
              N.of_nat (sample_count step reference start)), w').
Proof.
  intros step lookback start Hstep Href Hratio. unfold twap_ratio_before. fold step lookback.
  cbv zeta. rewrite (proj2 (N.eqb_neq _ _) Hstep). cbn [bail_if]. rewrite io_bind_lift.
  assert ((if lookback <? reference then u64_sub reference lookback else 1) = start) as ->.
  { unfold start. destruct (N.ltb_spec lookback reference); [|done].
    apply u64_sub_small; unfold u64_max, u64_modulus in *; lia. }
  assert (1 ≤ start) as Hstart by (unfold start; destruct (N.ltb_spec lookback reference); lia).
  destruct (twap_loop_spec config step reference ratio Hstep Href Hratio
    (twap_fuel step reference start) start 0 0 w) as [w1 Hl].
  { apply sample_count_fuel. }
  { by apply sample_count_bound. }
  rewrite (io_bind_eval _ _ _ _ _ Hl). rewrite !N.add_0_l. exists w1.
  assert (start ≤ reference ∨ reference = 0) as Hs.
  { unfold start. destruct (N.ltb_spec lookback reference); lia. }
  destruct (N.eqb_spec reference 0) as [Hr0|Hr0].
  - unfold sample_count. rewrite (proj2 (N.leb_gt start reference)) by lia. done.
  - assert (start ≤ reference) as Hle by (destruct Hs; [done|lia]).
    assert (N.of_nat (sample_count step reference start) ≠ 0) as Hc.
    { rewrite sample_count_next by done. lia. }
    rewrite (proj2 (N.eqb_neq _ _) Hc). unfold lift. by rewrite big_div_nz.
Qed.

(** The claim events of an incident are, sorted by log position, the decoded
    registrations of the incident's own log query together with those decoded
    cancellations whose claim id was registered; nothing is added or lost. *)
Theorem read_input_events_spec (defi_insurance : Address)
    (incident_id from to max_range result_cap : N) (w : W) (events : list ClaimEvent)
    (m : LogMetrics) (w' : W) :
  read_input_events defi_insurance incident_id from to max_range result_cap w
    = (Ok (events, m), w') →
  ∃ topic reg_logs can_logs mr mc w1 regs cans,
    uint_topic incident_id "incidentId" = Ok topic ∧
    chain_logs (mkLogFilter (address_to_string defi_insurance)
      [topic_hash (event_signature_hash ClaimRegistered); VNull; topic]) from to max_range
      result_cap w = (Ok (reg_logs, mr), w1) ∧
    chain_logs (mkLogFilter (address_to_string defi_insurance)
      [topic_hash (event_signature_hash ClaimCancelled)]) from to max_range result_cap w1
      = (Ok (can_logs, mc), w') ∧
    Forall2 registered reg_logs regs ∧ Forall2 cancelled can_logs cans ∧
    events ≡ₚ regs ++ filter (fun e => ev_claim_id e ∈ map ev_claim_id regs) cans ∧
    StronglySorted (key_le_on (fun e => (ev_block_number e, ev_log_index e))) events.
Proof.
  unfold read_input_events.
  intros (topic & w0 & [Ht ->]%lift_ok & ([rl mr] & w1 & Hr & ([ids regs] & w2 & [Hregs ->]%lift_ok &
    ([cl mc] & w3 & Hc & (es & w4 & [Hcans ->]%lift_ok & [[= <- _] <-]%io_ret_ok)%io_bind_ok)
    %io_bind_ok)%io_bind_ok)%io_bind_ok)%io_bind_ok.
  apply registrations_ok in Hregs as [Hregs ->].
  apply cancellations_ok in Hcans as (cans & Hcans & ->).
  exists topic, rl, cl, mr, mc, w1, regs, cans. do 5 (split; [done|]). split.
  - rewrite sort_by_key_perm. f_equiv.
    assert (∀ (P Q : ClaimEvent → Prop) `{!∀ e, Decision (P e), !∀ e, Decision (Q e)},
      (∀ e, P e ↔ Q e) → filter P cans = filter Q cans) as Hext.
    { intros P Q ?? HPQ. clear Hcans. induction cans as [|e l IH]; [done|].
      rewrite !filter_cons, IH. destruct (decide (P e)) as [p|p], (decide (Q e)) as [q|q]; naive_solver. }
    erewrite Hext; [done|]. intros e. by rewrite elem_of_list_to_set.
  - apply sort_by_key_sorted.
Qed.
End HistoryTheorems.

(* ------------------------------------------------------------------ *)
(** ** Evaluated instances *)

Section HistoryWitnesses.
#[local] Existing Instances RefHex.hex_crate RefHex.hex_laws RefAbi.abi_codec.
#[local] Existing Instances RefAbi.TransferData_eq_dec RefAbi.TransferData_countable
  RefAbi.ClaimRegisteredData_eq_dec RefAbi.ClaimRegisteredData_countable
  RefAbi.ClaimCancelledData_eq_dec RefAbi.ClaimCancelledData_countable.

Definition demo_account : Address := array_of 20 [x07].
Definition demo_other : Address := array_of 20 [x08].
(** The account's balance after each block. *)
Definition demo_balance (n : N) : N := if n <? 2 then 0 else if n <? 3 then 7 else 4.

Definition demo_event_log (contract : Address) (topics : list Value) (data : list byte)
    (block index : N) : RpcLog :=
  mkRpcLog (address_to_string contract)
    (map (fun v => default "" (as_str v)) topics) ("0x" +:+ hex_encode data) block demo_tx index.
Definition demo_transfer (from to : Address) (value block index : N) : RpcLog :=
  demo_event_log demo_token
    [topic_hash (event_signature_hash Transfer); address_topic from; address_topic to]
    (RefAbi.write (mkTransferData from to value)) block index.
Definition demo_uint_topic (n : N) : Value := VString ("0x" +:+ hex_encode (be_bytes 32 n)).
Definition demo_history_ledger : list RpcLog := Eval vm_compute in
  [demo_transfer demo_other demo_account 7 2 0; demo_transfer demo_account demo_other 3 3 1;
   demo_event_log demo_registry
     [topic_hash (event_signature_hash ClaimRegistered); demo_uint_topic 9; demo_uint_topic 4]
     (RefAbi.write (mkClaimRegisteredData 9 4 demo_account 100 50 1)) 2 1;
   demo_event_log demo_registry
     [topic_hash (event_signature_hash ClaimCancelled); demo_uint_topic 9]
     (RefAbi.write (mkClaimCancelledData 9 demo_account)) 3 0].
Definition demo_history_answer (to : Address) (data : list byte) (number : N) : list byte :=
  if bool_decide (take 4 data = RefAbi.selector erc20_balanceOf)
  then abi_encode_returns erc20_balanceOf (demo_balance number)
  else be_bytes 32 (number + 1).
#[local] Instance history_provider : RpcIface unit :=
  RefProvider.provider demo_ts demo_block_hash 20 demo_history_answer demo_history_ledger.
#[local] Instance history_laws : RpcLaws.
Proof. constructor. intros A d m w r w'. simpl. destruct (m w). by intros [= -> ->]. Qed.

Definition demo_blocks : list N := [0; 1; 2; 3; 4].
Lemma demo_blocks_elem b : b ≤ 4 → In b demo_blocks.
Proof.
  intros Hb. destruct b as [|p]; [by left|]. do 3 try (destruct p as [p|p|]; try (exfalso; lia));
    simpl; tauto.
Qed.

(** [true_history] of a provider without state, evaluated range by range. *)
Section CheckedHistory.
Context `{!RpcIface unit} (max_range result_cap : N).

Definition demo_range_ok (from to : N) : bool :=
  match (chain_logs (outgoing_filter demo_token demo_account) (u64_add from 1) to max_range result_cap tt).1,
        (chain_logs (incoming_filter demo_token demo_account) (u64_add from 1) to max_range result_cap tt).1 with
  | Ok (outgoing, _), Ok (incoming, _) =>
      match transfer_deltas outgoing incoming with
      | Ok ds => forallb (fun k => (k <? from) || (to <=? k) ||
                   (history (demo_balance from) (movements ds) k =? demo_balance k)) demo_blocks
      | _ => true
      end
  | _, _ => true
  end.
Definition demo_balance_ok (b : N) : bool :=
  match (balance_of_at demo_token demo_account b tt).1 with Ok v => v =? demo_balance b | _ => true end.

Lemma demo_balance_checked b w v w' : forallb demo_balance_ok demo_blocks = true → b ≤ 4 →
  balance_of_at demo_token demo_account b w = (Ok v, w') → v = demo_balance b.
Proof.
  intros Hall Hb%demo_blocks_elem. destruct w. intros E. rewrite forallb_forall in Hall.
  specialize (Hall b Hb). unfold demo_balance_ok in Hall. rewrite E in Hall. by apply N.eqb_eq.
Qed.

Lemma demo_history_checked : forallb demo_balance_ok demo_blocks = true →
  forallb (fun '(from, to) => demo_range_ok from to) (list_prod demo_blocks demo_blocks) = true →
  true_history demo_account 4 max_range result_cap demo_token demo_balance.
Proof.
  intros Hbal Hall. split; [intros; by eapply demo_balance_checked|].
  intros from to outgoing incoming ds mo mi [] wo' [] wi' Hft Hto Ho Hi Hd k Hk1 Hk2.
  rewrite forallb_forall in Hall.
  specialize (Hall (from, to) ltac:(apply in_prod; apply demo_blocks_elem; lia)).
  cbv beta iota in Hall.
  unfold demo_range_ok in Hall. rewrite Ho, Hi in Hall. cbn [fst] in Hall. rewrite Hd in Hall.
  rewrite forallb_forall in Hall.
  specialize (Hall k (demo_blocks_elem k ltac:(lia))).
  rewrite (proj2 (N.ltb_ge _ _) Hk1), (proj2 (N.leb_gt _ _) Hk2) in Hall. by apply N.eqb_eq.
Qed.
End CheckedHistory.

Lemma demo_true_history : true_history demo_account 4 100 10 demo_token demo_balance.
Proof. apply demo_history_checked; vm_compute; reflexivity. Qed.

Definition demo_scored : ScoredToken := mkScoredToken demo_token 6 [mkRatePoint 1 5; mkRatePoint 3 7].

Example earned_score_of_spec_witness :
  ∃ score m w', earned_score_of [demo_scored] demo_account 4 100 10 tt = (Ok (score, m), w') ∧
    score = gross_score (spec_numerator demo_balance 0 6 4 (st_rates demo_scored) + 0).
Proof.
  assert (∃ r, earned_score_of [demo_scored] demo_account 4 100 10 tt = (Ok r, tt)) as [[score m] E]
    by (eexists; vm_compute; reflexivity).
  exists score, m, tt. split; [exact E|].
  apply (earned_score_of_spec [demo_scored] demo_account 4 100 10 (fun _ => demo_balance) tt score m tt).
  - vm_compute. discriminate.
  - intros t Ht. apply list_elem_of_singleton in Ht. rewrite Ht. exact demo_true_history.
  - exact E.
Defined.

Example token_block_integral_correct_witness :
  ∃ v m w' bal0 ds, token_block_integral demo_token demo_account 1 4 100 10 tt = (Ok (v, m), w') ∧
    v = range_sum (history bal0 (movements ds)) 1 4.
Proof.
  assert (∃ r, token_block_integral demo_token demo_account 1 4 100 10 tt = (Ok r, tt)) as [[v m] E]
    by (eexists; vm_compute; reflexivity).
  destruct (token_block_integral_correct demo_token demo_account 1 4 100 10 tt v m tt) as
    (bal0 & final & out & inc & mo & mi & ds & w1 & w2 & w3 & _ & _ & _ & _ & _ & _ & Hv);
    [lia|vm_compute; discriminate|exact E|].
  exists v, m, tt, bal0, ds. split; [exact E|exact Hv].
Defined.

Example twap_ratio_before_spec_witness :
  let config := mkIncidentConfig 8000 demo_feed (zero_array 20) [] (mkSettlementParams 3 0 2) [] in
  ∃ w', twap_ratio_before config 9 tt = (Ok (sum_N [ONE_RATIO; ONE_RATIO] / 2), w').
Proof.
  apply (twap_ratio_before_spec
    (mkIncidentConfig 8000 demo_feed (zero_array 20) [] (mkSettlementParams 3 0 2) []) 9
    (fun _ => ONE_RATIO) tt).
  - discriminate.
  - vm_compute. discriminate.
  - intros b w. exists w. reflexivity.
Defined.

Example read_input_events_spec_witness :
  ∃ events m w' regs cans, read_input_events demo_registry 4 1 6 100 10 tt = (Ok (events, m), w') ∧
    length events = 2%nat ∧
    events ≡ₚ regs ++ filter (fun e => ev_claim_id e ∈ map ev_claim_id regs) cans.
Proof.
  assert (∃ events m, read_input_events demo_registry 4 1 6 100 10 tt = (Ok (events, m), tt) ∧
    length events = 2%nat) as (events & m & E & Hl)
    by (eexists _, _; split; [vm_compute; reflexivity|reflexivity]).
  destruct (read_input_events_spec demo_registry 4 1 6 100 10 tt events m tt E) as
    (topic & rl & cl & mr & mc & w1 & regs & cans & _ & _ & _ & _ & _ & Hp & _).
  exists events, m, tt, regs, cans. split; [exact E|]. split; [exact Hl|exact Hp].
Defined.
End HistoryWitnesses.
