(* ===== verification/Checkpoint.v ===== *)
(** * The score checkpoint: data, text form, authentication
      ([src/checkpoint.rs], first part)

    A checkpoint maps each scored token to a cursor block, the rate history it
    was advanced with and the score state of every indexed account.  It is
    persisted as JSON with decimal strings under an HMAC.  The [serde_json],
    [hmac] and [sha2] crates and the file system are parameters. *)

From S2P Require Import Prelude Bytes Text Commit ScoreCore Rpc Abi Config Chain ChainConfig.
From Stdlib Require Import Strings.Byte.

Open Scope string_scope.
Open Scope N_scope.
Open Scope list_scope.

Definition SCHEMA_VERSION : N := 1.
Definition ZERO_HASH_TEXT : string :=
  "0x0000000000000000000000000000000000000000000000000000000000000000".
Definition MAX_CHECKPOINT_BYTES : N := 128 * 1024 * 1024.

(** [std::io::Error]: the kinds the program tells apart, and the text. *)
Inductive IoError := IoNotFound | IoAlreadyExists | IoOther (text : string).
#[export] Instance IoError_eq_dec : EqDecision IoError.
Proof. solve_decision. Defined.

Inductive CheckpointError :=
  | CpChain (error : ChainError)
  | CpIo (path : string) (source : IoError)
  | CpJson (message : string)
  | CpAuthentication (message : string)
  | CpInvalid (message : string)
  | CpLocked (path : string).
#[export] Instance CheckpointError_eq_dec : EqDecision CheckpointError.
Proof. solve_decision. Defined.

Abbreviation AccountState := AccountScoreState.

Record TokenState := mkTokenState {
  tk_decimals : N;
  tk_cursor_block : N;
  tk_cursor_block_hash : string;
  tk_rates : list RatePoint;
  tk_accounts : gmap Address AccountState
}.
Record CheckpointState := mkCheckpointState {
  cs_chain_id : N;
  cs_tokens : gmap Address TokenState
}.

Record PersistedAccount := mkPersistedAccount {
  pa_balance : string;
  pa_last_block : string;
  pa_completed_numerator : string;
  pa_active_segment_from : option string;
  pa_active_integral : string
}.
Record PersistedRate := mkPersistedRate { pr_from_block : string; pr_rate : string }.
Record PersistedToken := mkPersistedToken {
  pk_decimals : N;
  pk_cursor_block : string;
  pk_cursor_block_hash : string;
  pk_rates : list PersistedRate;
  pk_accounts : gmap string PersistedAccount
}.
Record PersistedCheckpoint := mkPersistedCheckpoint {
  pc_schema_version : N;
  pc_chain_id : N;
  pc_tokens : gmap string PersistedToken
}.
Record AuthenticatedCheckpoint := mkAuthenticatedCheckpoint {
  au_schema_version : N;
  au_chain_id : N;
  au_tokens : gmap string PersistedToken;
  au_authentication : string
}.
Definition checkpoint_of (self : AuthenticatedCheckpoint) : PersistedCheckpoint :=
  mkPersistedCheckpoint (au_schema_version self) (au_chain_id self) (au_tokens self).

(** [Ord] of [String]: the order of its bytes. *)
#[export] Instance as_bytes_Inj : Inj (=) (=) as_bytes := as_bytes_inj.
#[export] Instance string_key_order : KeyOrder string := key_order_via as_bytes.

(** The display text of [ScoreCoreError]. *)
Definition score_core_error_to_string (error : ScoreCoreError) : string :=
  match error with
  | RatesNotAscending => "score rate history must be strictly ascending"
  | Backward from_block to_block =>
      "cannot move score account backward from " +:+ to_decimal from_block +:+ " to " +:+
      to_decimal to_block
  | MissingRate from_block =>
      "active score rate segment " +:+ to_decimal from_block +:+ " is absent from rate history"
  | BalanceUnderflow block =>
      "score transfer produces a negative balance at block " +:+ to_decimal block
  end.
Definition core (error : ScoreCoreError) : CheckpointError :=
  CpInvalid (score_core_error_to_string error).

(** *** Numbers and hashes *)

Definition checkpoint_decimal (value field : string) : outcome CheckpointError N :=
  _ ← bail_if (negb (canonical_decimal value)) (CpInvalid ("non-canonical bigint " +:+ field));
  ok_or (biguint_from_str value) (CpInvalid ("invalid bigint " +:+ field)).

Definition decimal_u64 (value field : string) : outcome CheckpointError N :=
  n ← checkpoint_decimal value field;
  if n <=? u64_max then Ok n
  else Err (CpInvalid ("checkpoint integer " +:+ field +:+ " exceeds u64")).

Definition valid_hash (hash : string) : bool :=
  (str_len hash =? 66) &&
  match strip_prefix "0x" hash with Some digits => str_all is_ascii_hexdigit digits | None => false end.

(** *** Contribution of a token *)

(** The first point with a non-zero rate and a non-empty segment. *)
Fixpoint first_contributing (rates : list RatePoint) (as_of_block : N) : option N :=
  match rates with
  | [] => None
  | point :: rest =>
      let next := match head rest with Some next => rp_from_block next | None => as_of_block end in
      if negb (rp_rate point =? 0) && (rp_from_block point <? N.min next as_of_block)
      then Some (rp_from_block point) else first_contributing rest as_of_block
  end.
Definition first_contributing_block (scored : ScoredToken) (as_of_block : N) : option N :=
  first_contributing (st_rates scored) as_of_block.
Definition contributes_at (scored : ScoredToken) (as_of_block : N) : bool :=
  bool_decide (is_Some (first_contributing_block scored as_of_block)).

Section CheckpointText.
Context `{HexCrate}.

(** *** Serialization *)

Definition persist_account (value : AccountState) : PersistedAccount :=
  mkPersistedAccount (to_decimal (balance value)) (to_decimal (last_block value))
    (to_decimal (completed_numerator value)) (to_decimal <$> active_segment_from value)
    (to_decimal (active_integral value)).
Definition persist_rate (rate : RatePoint) : PersistedRate :=
  mkPersistedRate (to_decimal (rp_from_block rate)) (to_decimal (rp_rate rate)).
Definition persist_token (token : TokenState) : PersistedToken :=
  mkPersistedToken (tk_decimals token) (to_decimal (tk_cursor_block token))
    (tk_cursor_block_hash token) (map persist_rate (tk_rates token))
    (kmap address_to_string (persist_account <$> tk_accounts token)).
Definition serialize_state (state : CheckpointState) : PersistedCheckpoint :=
  mkPersistedCheckpoint SCHEMA_VERSION (cs_chain_id state)
    (kmap address_to_string (persist_token <$> cs_tokens state)).

(** *** Parsing *)

Definition parse_rate (token : string) (index : nat) (rate : PersistedRate) :
    outcome CheckpointError RatePoint :=
  let field := token +:+ ".rates[" +:+ to_decimal (N.of_nat index) +:+ "]" in
  from_block ← decimal_u64 (pr_from_block rate) (field +:+ ".fromBlock");
  rate ← checkpoint_decimal (pr_rate rate) (field +:+ ".rate");
  Ok (mkRatePoint from_block rate).

(** The text of an address key must be its canonical text, in any case. *)
Definition parse_key (what text : string) : outcome CheckpointError Address :=
  key ← ok_or (address_from_str text)
    (CpInvalid ("invalid " +:+ what +:+ " address " +:+ text));
  _ ← bail_if (negb (String.eqb (address_to_string key) (to_ascii_lowercase text)))
        (CpInvalid ("non-canonical " +:+ what +:+ " address " +:+ text));
  Ok key.

Definition parse_account (token : string) (cursor_block : N) (rates : list RatePoint)
    (accounts : gmap Address AccountState) (entry : string * PersistedAccount) :
    outcome CheckpointError (gmap Address AccountState) :=
  let '(account_text, value) := entry in
  account ← parse_key "account" account_text;
  let name := address_to_string account in
  let field suffix := token +:+ "." +:+ name +:+ suffix in
  last_block ← decimal_u64 (pa_last_block value) (field ".lastBlock");
  _ ← bail_if (cursor_block <? last_block)
        (CpInvalid ("account " +:+ name +:+ " is ahead of token cursor " +:+
           to_decimal cursor_block));
  active_segment_from ← match pa_active_segment_from value with
                        | Some raw => b ← decimal_u64 raw (field ".activeSegmentFrom"); Ok (Some b)
                        | None => Ok None
                        end;
  _ ← match active_segment_from with
      | Some from_block =>
          bail_if (negb (existsb (fun rate => rp_from_block rate =? from_block) rates))
            (CpInvalid ("account " +:+ name +:+ " references absent rate segment " +:+
               to_decimal from_block))
      | None =>
          bail_if (negb (String.eqb (pa_active_integral value) "0"))
            (CpInvalid ("account " +:+ name +:+ " has inactive nonzero integral"))
      end;
  balance ← checkpoint_decimal (pa_balance value) (field ".balance");
  completed_numerator ← checkpoint_decimal (pa_completed_numerator value)
                          (field ".completedNumerator");
  active_integral ← checkpoint_decimal (pa_active_integral value) (field ".activeIntegral");
  Ok (<[account := mkAccountScoreState balance last_block completed_numerator active_segment_from
                     active_integral]> accounts).

Definition parse_token (tokens : gmap Address TokenState) (entry : string * PersistedToken) :
    outcome CheckpointError (gmap Address TokenState) :=
  let '(token_text, raw) := entry in
  token ← parse_key "token" token_text;
  let name := address_to_string token in
  _ ← bail_if (negb (valid_hash (pk_cursor_block_hash raw)))
        (CpInvalid ("invalid cursor block hash for " +:+ name));
  cursor_block ← decimal_u64 (pk_cursor_block raw) (name +:+ ".cursorBlock");
  _ ← bail_if ((cursor_block =? 0) &&
               negb (eq_ignore_ascii_case (pk_cursor_block_hash raw) ZERO_HASH_TEXT))
        (CpInvalid ("nonzero genesis cursor hash for " +:+ name));
  rates ← mapM_enum (parse_rate name) (pk_rates raw);
  _ ← map_err core (validate_rates rates);
  accounts ← fold_m (parse_account name cursor_block rates) ∅ (btree_iter (pk_accounts raw));
  _ ← bail_if (bool_decide (is_Some (tokens !! token)))
        (CpInvalid ("duplicate token address " +:+ name));
  Ok (<[token := mkTokenState (pk_decimals raw) cursor_block
                   (to_ascii_lowercase (pk_cursor_block_hash raw)) rates accounts]> tokens).

Definition parse_state (persisted : PersistedCheckpoint) : outcome CheckpointError CheckpointState :=
  _ ← bail_if (negb (pc_schema_version persisted =? SCHEMA_VERSION))
        (CpInvalid ("unsupported schema version " +:+ to_decimal (pc_schema_version persisted)));
  tokens ← fold_m parse_token ∅ (btree_iter (pc_tokens persisted));
  Ok (mkCheckpointState (pc_chain_id persisted) tokens).
End CheckpointText.

(* ------------------------------------------------------------------ *)
(** ** Authentication *)

(** The [hmac] crate with [sha2]: [HmacSha256::new_from_slice(key)] may refuse a
    key; then one message is fed and either the tag is produced or a tag is
    compared with it ([verify_slice]). *)
Class HmacCrate := {
  hmac_mac : Type;
  hmac_new : list byte → option hmac_mac;
  hmac_finalize : hmac_mac → list byte → array 32;
  hmac_verify_slice : hmac_mac → list byte → list byte → bool
}.
Class HmacLaws `{HmacCrate} : Prop := {
  hmac_verify_spec : ∀ mac message tag,
    hmac_verify_slice mac message tag = bool_decide (tag = array_val (hmac_finalize mac message))
}.

(** [serde_json] on the derived [Serialize] and [Deserialize] of the envelope. *)
Class CheckpointJson := {
  checkpoint_to_vec : PersistedCheckpoint → outcome string (list byte);
  envelope_to_vec : AuthenticatedCheckpoint → outcome string (list byte);
  envelope_from_slice : list byte → outcome string AuthenticatedCheckpoint
}.
(** Text that was written reads back, trailing white space is skipped, and the
    text of a checkpoint determines it. *)
Class CheckpointJsonLaws `{CheckpointJson} : Prop := {
  envelope_roundtrip : ∀ e bytes, envelope_to_vec e = Ok bytes →
    envelope_from_slice (bytes ++ [x0a]) = Ok e;
  checkpoint_to_vec_inj : ∀ a b bytes, checkpoint_to_vec a = Ok bytes →
    checkpoint_to_vec b = Ok bytes → a = b
}.

Section Authentication.
Context `{HexCrate, HmacCrate, CheckpointJson}.

Definition authentication (checkpoint : PersistedCheckpoint) (integrity_key : list byte) :
    outcome CheckpointError Hash :=
  mac ← ok_or (hmac_new integrity_key) (CpInvalid "invalid HMAC key");
  json ← map_err CpJson (checkpoint_to_vec checkpoint);
  Ok (hmac_finalize mac json).

(** The HMAC text of an envelope. *)
Definition supplied_tag (envelope : AuthenticatedCheckpoint) : option (list byte) :=
  value ← strip_prefix "0x" (au_authentication envelope);
  if str_len value =? 64 then hex_decode value else None.

(** [load_checkpoint] from the bytes of the file on; [None] is a missing file. *)
Definition load_checkpoint_bytes (bytes : option (list byte)) (expected_chain_id : N)
    (integrity_key : list byte) : outcome CheckpointError CheckpointState :=
  match bytes with
  | None => Ok (mkCheckpointState expected_chain_id ∅)
  | Some bytes =>
      envelope ← map_err CpJson (envelope_from_slice bytes);
      supplied ← ok_or (supplied_tag envelope) (CpAuthentication "missing or malformed HMAC");
      let checkpoint := checkpoint_of envelope in
      _ ← authentication checkpoint integrity_key;
      verifier ← ok_or (hmac_new integrity_key) (CpInvalid "invalid HMAC key");
      json ← map_err CpJson (checkpoint_to_vec checkpoint);
      _ ← bail_if (negb (hmac_verify_slice verifier json supplied))
            (CpAuthentication "HMAC mismatch");
      state ← parse_state checkpoint;
      _ ← bail_if (negb (cs_chain_id state =? expected_chain_id))
            (CpInvalid ("checkpoint chain " +:+ to_decimal (cs_chain_id state) +:+
               " does not match RPC chain " +:+ to_decimal expected_chain_id));
      Ok state
  end.

(** The bytes [save_checkpoint] writes. *)
Definition checkpoint_bytes (state : CheckpointState) (integrity_key : list byte) :
    outcome CheckpointError (list byte) :=
  let checkpoint := serialize_state state in
  tag ← authentication checkpoint integrity_key;
  bytes ← map_err CpJson (envelope_to_vec
    (mkAuthenticatedCheckpoint (pc_schema_version checkpoint) (pc_chain_id checkpoint)
       (pc_tokens checkpoint) ("0x" +:+ hex_encode (array_val tag))));
  Ok (bytes ++ [x0a]).
End Authentication.

(* ------------------------------------------------------------------ *)
(** ** Well-formed states *)

Definition account_wf (cursor_block : N) (rates : list RatePoint) (a : AccountState) : Prop :=
  last_block a ≤ cursor_block ∧
  match active_segment_from a with
  | Some from_block => ∃ r, r ∈ rates ∧ rp_from_block r = from_block
  | None => active_integral a = 0
  end.
Definition hash_text_wf (hash : string) : Prop :=
  valid_hash hash = true ∧ to_ascii_lowercase hash = hash.
Definition token_wf (t : TokenState) : Prop :=
  tk_cursor_block t ≤ u64_max ∧ hash_text_wf (tk_cursor_block_hash t) ∧
  (tk_cursor_block t = 0 → tk_cursor_block_hash t = ZERO_HASH_TEXT) ∧
  (∀ r, r ∈ tk_rates t → rp_from_block r ≤ u64_max) ∧ ascending (tk_rates t) ∧
  map_Forall (fun _ => account_wf (tk_cursor_block t) (tk_rates t)) (tk_accounts t).
Definition state_wf (st : CheckpointState) : Prop := map_Forall (fun _ => token_wf) (cs_tokens st).

(* ------------------------------------------------------------------ *)
(** ** Helper lemmas *)

Lemma hexdigit_lowercase c : is_ascii_hexdigit (ascii_lowercase c) = is_ascii_hexdigit c.
Proof. destruct c as [[][][][][][][][]]; vm_compute; reflexivity. Qed.

Lemma str_all_hexdigit_lowercase s :
  str_all is_ascii_hexdigit (to_ascii_lowercase s) = str_all is_ascii_hexdigit s.
Proof.
  unfold to_ascii_lowercase. induction s as [|c s IH]; cbn [str_map str_all]; [done|].
  by rewrite hexdigit_lowercase, IH.
Qed.

Lemma str_len_lowercase s : str_len (to_ascii_lowercase s) = str_len s.
Proof.
  unfold str_len. f_equal. unfold to_ascii_lowercase.
  induction s as [|c s IH]; cbn [str_map String.length]; [done|]. by rewrite IH.
Qed.

Lemma valid_hash_lowercase h : valid_hash h = true → hash_text_wf (to_ascii_lowercase h).
Proof.
  unfold hash_text_wf, valid_hash. rewrite str_len_lowercase, to_ascii_lowercase_idem.
  intros [Hl Hd]%andb_prop. rewrite Hl. split; [|done]. cbn [andb].
  destruct (strip_prefix "0x" h) as [d|] eqn:E; [|done]. apply strip_prefix_Some in E as ->.
  rewrite to_ascii_lowercase_app. change (to_ascii_lowercase "0x") with "0x".
  by rewrite strip_prefix_app, str_all_hexdigit_lowercase.
Qed.

Lemma checkpoint_decimal_of n field : checkpoint_decimal (to_decimal n) field = Ok n.
Proof. unfold checkpoint_decimal. by rewrite to_decimal_canonical, biguint_from_to. Qed.

Lemma decimal_u64_of n field : n ≤ u64_max → decimal_u64 (to_decimal n) field = Ok n.
Proof.
  intros Hn. unfold decimal_u64. rewrite checkpoint_decimal_of. cbn [mbind outcome_bind].
  by rewrite (proj2 (N.leb_le _ _) Hn).
Qed.

Lemma checkpoint_decimal_ok s field n : checkpoint_decimal s field = Ok n → s = to_decimal n.
Proof.
  intros (u & Hc%bail_if_ok%negb_false_iff & Hn%ok_or_ok)%bind_ok.
  by apply canonical_decimal_unique.
Qed.

Lemma decimal_u64_ok s field n : decimal_u64 s field = Ok n → n ≤ u64_max.
Proof.
  intros (m & _ & Hn)%bind_ok. destruct (N.leb_spec m u64_max); [|done]. by injection Hn as <-.
Qed.

(** A loop that inserts each entry of a re-keyed map gives the map back. *)
Lemma fold_m_kmap {E V P} (f : Address → string) (g : V → P) `{!Inj (=) (=) f}
    (step : gmap Address V → string * P → outcome E (gmap Address V)) (m : gmap Address V) :
  (∀ acc k v, m !! k = Some v → acc !! k = None → step acc (f k, g v) = Ok (<[k := v]> acc)) →
  fold_m step ∅ (btree_iter (kmap f (g <$> m))) = Ok m.
Proof.
  intros Hstep.
  assert (btree_iter (kmap (M2 := gmap string) f (g <$> m)) ≡ₚ
    map (fun kv => (f kv.1, g kv.2)) (map_to_list m)) as Hp.
  { unfold btree_iter. rewrite sort_by_key_perm, (map_to_list_kmap (M1 := gmap Address) f).
    rewrite map_to_list_fmap, <-list_fmap_compose. reflexivity. }
  apply Permutation_map_inv in Hp as (l & -> & Hl).
  assert (∀ k v, (k, v) ∈ l → m !! k = Some v) as Hm.
  { intros k v Hkv. rewrite <-Hl in Hkv. by apply elem_of_map_to_list. }
  assert (NoDup l.*1) as Hnd by (rewrite <-Hl; apply NoDup_fst_map_to_list).
  assert (m = list_to_map l ∪ ∅) as Hml.
  { rewrite map_union_empty. rewrite <-(list_to_map_to_list m). apply list_to_map_proper;
      [apply NoDup_fst_map_to_list|done]. }
  assert (∀ acc, (∀ k v, (k, v) ∈ l → acc !! k = None) →
    fold_m step acc (map (fun kv => (f kv.1, g kv.2)) l) = Ok (list_to_map l ∪ acc)) as Hf.
  { clear Hml Hl. induction l as [|[k v] l IH]; intros acc Hacc; cbn [map fold_m].
    - change (@list_to_map Address V (gmap Address V) _ _ []) with (∅ : gmap Address V).
      by rewrite (left_id_L ∅ (∪)).
    - cbn [fst snd]. rewrite (Hstep acc k v) by (apply Hm || eapply Hacc; left).
      cbn [mbind outcome_bind]. cbn [fmap list_fmap fst] in Hnd. apply NoDup_cons in Hnd as [Hk Hnd].
      rewrite IH; [| |done|].
      + f_equal. rewrite list_to_map_cons, <-insert_union_l, insert_union_r; [done|].
        by apply not_elem_of_list_to_map_1.
      + intros; apply Hm. by right.
      + intros k' v' Hin. rewrite lookup_insert_ne; [by eapply Hacc; right|].
        intros ->. apply Hk. apply list_elem_of_fmap. by exists (k', v'). }
  rewrite Hf by (intros; apply lookup_empty). by f_equal.
Qed.

Section CheckpointFacts.
Context `{HexLaws}.

Lemma parse_key_of what a : parse_key what (address_to_string a) = Ok a.
Proof.
  unfold parse_key. rewrite address_from_to_string. cbn [ok_or mbind outcome_bind].
  unfold address_to_string. rewrite to_ascii_lowercase_app, hex_encode_lower.
  change (to_ascii_lowercase "0x") with "0x". by rewrite String.eqb_refl.
Qed.

Lemma parse_rate_of name i r : rp_from_block r ≤ u64_max →
  parse_rate name i (persist_rate r) = Ok r.
Proof.
  intros Hr. unfold parse_rate. cbn [pr_from_block pr_rate persist_rate]. cbn zeta.
  rewrite decimal_u64_of by done. cbn [mbind outcome_bind].
  rewrite checkpoint_decimal_of. by destruct r.
Qed.

Lemma parse_rates_of name rates : (∀ r, r ∈ rates → rp_from_block r ≤ u64_max) →
  mapM_enum (parse_rate name) (map persist_rate rates) = Ok rates.
Proof.
  intros Hr. unfold mapM_enum. generalize 0%nat.
  induction rates as [|r rates IH]; intros i; cbn [map mapM_from]; [done|].
  rewrite parse_rate_of by (apply Hr; left). cbn [mbind outcome_bind].
  by rewrite IH by (intros; apply Hr; by right).
Qed.

Lemma parse_account_of name cursor rates accounts a v :
  cursor ≤ u64_max → (∀ r, r ∈ rates → rp_from_block r ≤ u64_max) → account_wf cursor rates v →
  parse_account name cursor rates accounts (address_to_string a, persist_account v)
  = Ok (<[a := v]> accounts).
Proof.
  intros Hc Hr [Hl Hseg]. unfold parse_account. rewrite parse_key_of. cbn [mbind outcome_bind].
  cbn zeta. destruct v as [bal lb cn seg ai].
  cbn [persist_account pa_last_block pa_active_segment_from pa_active_integral pa_balance
    pa_completed_numerator balance last_block completed_numerator active_segment_from
    active_integral] in *.
  rewrite decimal_u64_of by lia. cbn [mbind outcome_bind].
  rewrite (proj2 (N.ltb_ge _ _)) by done. cbn [bail_if mbind outcome_bind].
  destruct seg as [from_block|]; cbn [fmap option_fmap option_map].
  - destruct Hseg as (r & Hin & <-). rewrite decimal_u64_of by (by apply Hr).
    cbn [mbind outcome_bind].
    assert (existsb (fun rate => rp_from_block rate =? rp_from_block r) rates = true) as ->.
    { apply existsb_exists. exists r. split; [by apply list_elem_of_In|apply N.eqb_refl]. }
    cbn [negb bail_if mbind outcome_bind]. by rewrite !checkpoint_decimal_of.
  - rewrite Hseg. change (to_decimal 0) with "0". cbn [String.eqb Ascii.eqb Bool.eqb negb bail_if
      mbind outcome_bind].
    rewrite !checkpoint_decimal_of. cbn [mbind outcome_bind].
    change "0" with (to_decimal 0). by rewrite checkpoint_decimal_of.
Qed.

Lemma parse_token_of tokens a t : tokens !! a = None → token_wf t →
  parse_token tokens (address_to_string a, persist_token t) = Ok (<[a := t]> tokens).
Proof.
  intros Hn (Hc & [Hv Hlow] & Hz & Hr & Hasc & Hacc). unfold parse_token. rewrite parse_key_of.
  cbn [mbind outcome_bind]. cbn zeta.
  cbn [persist_token pk_cursor_block_hash pk_cursor_block pk_rates pk_accounts pk_decimals].
  rewrite Hv. cbn [negb bail_if mbind outcome_bind].
  rewrite decimal_u64_of by done. cbn [mbind outcome_bind].
  assert ((tk_cursor_block t =? 0) && negb (eq_ignore_ascii_case (tk_cursor_block_hash t)
    ZERO_HASH_TEXT) = false) as ->.
  { destruct (N.eqb_spec (tk_cursor_block t) 0) as [E|]; [|done]. by rewrite (Hz E). }
  cbn [bail_if mbind outcome_bind]. rewrite parse_rates_of by done. cbn [mbind outcome_bind].
  rewrite (proj2 (validate_rates_ascending _)) by done. cbn [map_err mbind outcome_bind].
  rewrite fold_m_kmap.
  - cbn [mbind outcome_bind]. rewrite Hn, bool_decide_false by (by intros []).
    cbn [bail_if mbind outcome_bind]. rewrite Hlow. by destruct t.
  - intros x y E. by apply (address_to_string_inj x y).
  - intros accounts k v Hk _. by apply parse_account_of; [..|eapply Hacc].
Qed.

Lemma parse_serialize_state st : state_wf st → parse_state (serialize_state st) = Ok st.
Proof.
  intros Hwf. unfold parse_state, serialize_state. cbn [pc_schema_version pc_tokens pc_chain_id].
  rewrite N.eqb_refl. cbn [negb bail_if mbind outcome_bind]. rewrite fold_m_kmap.
  - by destruct st.
  - intros x y E. by apply (address_to_string_inj x y).
  - intros tokens k v Hk Hn. apply parse_token_of; [done|by eapply Hwf].
Qed.

Lemma parse_rates_ok name rates rs i : mapM_from i (parse_rate name) rates = Ok rs →
  ∀ r, r ∈ rs → rp_from_block r ≤ u64_max.
Proof.
  revert i rs. induction rates as [|p rates IH]; intros i rs; cbn [mapM_from].
  - intros <-%(inj Ok) r Hr. by apply elem_of_nil in Hr.
  - intros (r0 & Hp & (rs' & Hrs & <-%(inj Ok))%bind_ok)%bind_ok r [->|Hr]%elem_of_cons.
    + apply bind_ok in Hp as (b & Hb%decimal_u64_ok & (q & _ & <-%(inj Ok))%bind_ok). exact Hb.
    + by eapply IH.
Qed.

Lemma parse_account_ok name cursor rates accounts entry accounts' :
  parse_account name cursor rates accounts entry = Ok accounts' →
  ∃ a v, account_wf cursor rates v ∧ accounts' = <[a := v]> accounts.
Proof.
  destruct entry as [text value]. unfold parse_account.
  intros (a & _ & Hk)%bind_ok. apply bind_ok in Hk as (lb & _ & Hk).
  apply bind_ok in Hk as (? & Hlb%bail_if_ok%N.ltb_ge & Hk). apply bind_ok in Hk as (seg & Hseg & Hk).
  apply bind_ok in Hk as (u & Hcheck & Hk). apply bind_ok in Hk as (bal & _ & Hk).
  apply bind_ok in Hk as (cn & _ & Hk). apply bind_ok in Hk as (ai & Hai & Hk).
  apply (inj Ok) in Hk as <-. eexists a, _. split; [|reflexivity]. split; [exact Hlb|].
  cbn [active_segment_from active_integral]. destruct seg as [from_block|].
  - apply bail_if_ok, negb_false_iff, existsb_exists in Hcheck as (r & Hin & He%N.eqb_eq).
    exists r. split; [by apply list_elem_of_In|done].
  - apply bail_if_ok, negb_false_iff, String.eqb_eq in Hcheck. rewrite Hcheck in Hai.
    apply checkpoint_decimal_ok in Hai. change "0" with (to_decimal 0) in Hai.
    by apply (inj to_decimal) in Hai as <-.
Qed.

Lemma parse_token_ok tokens entry tokens' : parse_token tokens entry = Ok tokens' →
  ∃ a t, tokens !! a = None ∧ token_wf t ∧ tokens' = <[a := t]> tokens.
Proof.
  destruct entry as [text raw]. unfold parse_token.
  intros (a & _ & Hk)%bind_ok. apply bind_ok in Hk as (? & Hv%bail_if_ok%negb_false_iff & Hk).
  apply bind_ok in Hk as (cursor & Hc%decimal_u64_ok & Hk).
  apply bind_ok in Hk as (? & Hz%bail_if_ok & Hk). apply bind_ok in Hk as (rates & Hr & Hk).
  apply bind_ok in Hk as ([] & Hasc%map_err_ok%validate_rates_ascending & Hk).
  apply bind_ok in Hk as (accounts & Hacc & Hk). apply bind_ok in Hk as (? & Hd%bail_if_ok & Hk).
  apply (inj Ok) in Hk as <-. eexists a, _. split; [|split; [|reflexivity]].
  { apply bool_decide_eq_false in Hd. destruct (tokens !! a); [|done]. destruct Hd. by eexists. }
  split; [exact Hc|]. split; [by apply valid_hash_lowercase|]. split.
  { cbn [tk_cursor_block]. intros ->. rewrite N.eqb_refl in Hz. apply negb_false_iff, eq_ignore_ascii_case_spec in Hz.
    cbn [tk_cursor_block_hash]. rewrite Hz. reflexivity. }
  split; [by eapply parse_rates_ok|]. split; [exact Hasc|]. cbn [tk_accounts tk_cursor_block tk_rates].
  refine (fold_m_inv _ (fun _ m => map_Forall (fun _ => account_wf cursor rates) m) ∅ _ _ _ _ Hacc);
    [apply map_Forall_empty|].
  intros _ entry m m' Hm (k & v & Hwf & ->)%parse_account_ok. by apply map_Forall_insert_2.
Qed.

Lemma parse_state_wf p st : parse_state p = Ok st → state_wf st.
Proof.
  intros (? & _ & (tokens & Ht & <-%(inj Ok))%bind_ok)%bind_ok. unfold state_wf. cbn [cs_tokens].
  refine (fold_m_inv _ (fun _ m => map_Forall (fun _ => token_wf) m) ∅ _ _ _ _ Ht);
    [apply map_Forall_empty|].
  intros _ entry m m' Hm (k & t & _ & Hwf & ->)%parse_token_ok. by apply map_Forall_insert_2.
Qed.
End CheckpointFacts.

Section AuthenticationFacts.
Context `{HexLaws, HmacLaws, CheckpointJsonLaws}.

(** What is written under a key is accepted under that key. *)
Lemma load_checkpoint_bytes_of st key bytes :
  state_wf st → checkpoint_bytes st key = Ok bytes →
  load_checkpoint_bytes (Some bytes) (cs_chain_id st) key = Ok st.
Proof.
  intros Hwf (tag & Ht & (text & He%map_err_ok & <-%(inj Ok))%bind_ok)%bind_ok.
  unfold load_checkpoint_bytes. rewrite (envelope_roundtrip _ _ He). cbn [map_err mbind outcome_bind].
  unfold supplied_tag. cbn [au_authentication]. rewrite strip_prefix_app. cbn [mbind option_bind].
  rewrite hex_encode_len, array_length, N.eqb_refl, hex_decode_encode. cbn [ok_or mbind outcome_bind].
  change (checkpoint_of _) with (serialize_state st). cbn zeta. rewrite Ht. cbn [mbind outcome_bind].
  apply bind_ok in Ht as (mac & -> & (json & -> & <-%(inj Ok))%bind_ok).
  cbn [mbind outcome_bind]. rewrite hmac_verify_spec, bool_decide_true by done.
  cbn [negb bail_if mbind outcome_bind]. rewrite parse_serialize_state by done.
  cbn [mbind outcome_bind]. by rewrite N.eqb_refl.
Qed.

(** What is accepted carries the tag of its own content, and is well formed. *)
Lemma load_checkpoint_bytes_ok bytes chain key st :
  load_checkpoint_bytes (Some bytes) chain key = Ok st →
  ∃ envelope mac json supplied,
    envelope_from_slice bytes = Ok envelope ∧ hmac_new key = Some mac ∧
    checkpoint_to_vec (checkpoint_of envelope) = Ok json ∧ supplied_tag envelope = Some supplied ∧
    supplied = array_val (hmac_finalize mac json) ∧
    parse_state (checkpoint_of envelope) = Ok st ∧ cs_chain_id st = chain.
Proof.
  intros (envelope & He%map_err_ok & Hk)%bind_ok. apply bind_ok in Hk as (supplied & Hs%ok_or_ok & Hk).
  cbn zeta in Hk. apply bind_ok in Hk as (? & _ & Hk). apply bind_ok in Hk as (mac & Hm%ok_or_ok & Hk).
  apply bind_ok in Hk as (json & Hj%map_err_ok & Hk).
  apply bind_ok in Hk as (? & Hv%bail_if_ok%negb_false_iff & Hk).
  apply bind_ok in Hk as (st' & Hp & Hk). apply bind_ok in Hk as (? & Hc%bail_if_ok & <-%(inj Ok)).
  apply negb_false_iff, N.eqb_eq in Hc.
  rewrite hmac_verify_spec in Hv. apply bool_decide_eq_true in Hv.
  exists envelope, mac, json, supplied. repeat split; assumption.
Qed.
End AuthenticationFacts.
