(* ===== verification/CheckpointStore.v ===== *)
(** * The checkpoint file ([src/checkpoint.rs], file-system part)

    [std::fs] is modelled by the files' contents and a script of faults: each
    operation takes the next entry, which lets it succeed, makes it report an
    I/O error, or ends the process there ([Crash]), and says how much of a write
    was done by then.  Directories are not tracked.  Saving goes through a
    temporary file and a rename; the lock file keeps two processes apart. *)

From S2P Require Import Prelude Bytes Text Commit ScoreCore Rpc Abi Config Chain ChainConfig.
From S2P Require Import Checkpoint.
From Stdlib Require Import Strings.Byte Ascii.

Open Scope string_scope.
Open Scope N_scope.
Open Scope list_scope.

(** *** Paths, as text without a trailing slash *)

(** Text before and after the last [c]. *)
Fixpoint rsplit_once (c : ascii) (s : string) : option (string * string) :=
  match s with
  | "" => None
  | String a s =>
      match rsplit_once c s with
      | Some (before, after) => Some (String a before, after)
      | None => if Ascii.eqb a c then Some ("", s) else None
      end
  end.

(** Directory text, slash included, and last component. *)
Definition split_path (p : string) : string * string :=
  match rsplit_once "/" p with
  | Some (directory, name) => (directory +:+ "/", name)
  | None => ("", p)
  end.
(** [Path::parent]. *)
Definition path_parent (p : string) : option string :=
  match rsplit_once "/" p with
  | Some ("", "") => None
  | Some ("", _) => Some "/"
  | Some (directory, _) => Some directory
  | None => if str_is_empty p then None else Some ""
  end.
(** [Path::file_name]. *)
Definition file_name (p : string) : option string :=
  let name := (split_path p).2 in
  if str_is_empty name || String.eqb name "." || String.eqb name ".." then None else Some name.
Definition file_stem (name : string) : string :=
  match rsplit_once "." name with
  | Some ("", _) | None => name
  | Some (stem, _) => stem
  end.
(** [Path::with_extension]. *)
Definition with_extension (p extension : string) : string :=
  match file_name p with
  | Some name => (split_path p).1 +:+ file_stem name +:+ "." +:+ extension
  | None => p
  end.

(** *** The file system *)

Inductive Fault :=
  | NoFault
  | IoFault (text : string) (done_bytes : nat)
  | Crash (done_bytes : nat).
Abbreviation Files := (gmap string (list byte)).

Record FileSystem := mkFileSystem {
  fs_files : Files;
  fs_faults : list Fault;
  (** nanoseconds since the Unix epoch, [None] before it *)
  fs_clock : option N;
  fs_process_id : N
}.
Definition set_files (files : Files) (fs : FileSystem) : FileSystem :=
  mkFileSystem files (fs_faults fs) (fs_clock fs) (fs_process_id fs).
Definition next_operation (fs : FileSystem) : FileSystem :=
  mkFileSystem (fs_files fs) (tail (fs_faults fs)) (fs_clock fs) (fs_process_id fs).

Abbreviation fs_io := (io FileSystem).

(** One operation: [run] when it succeeds, [partial n] what a failure leaves. *)
Definition fs_operation {A} (run : Files → outcome IoError A * Files) (partial : nat → Files → Files) :
    fs_io IoError A :=
  fun fs =>
    let next := next_operation fs in
    match fs_faults fs with
    | IoFault text n :: _ => (Err (IoOther text), set_files (partial n (fs_files fs)) next)
    | Crash n :: _ => (Panic "crash", set_files (partial n (fs_files fs)) next)
    | NoFault :: _ | [] =>
        let '(r, files) := run (fs_files fs) in (r, set_files files next)
    end.
Definition untouched (_ : nat) (files : Files) : Files := files.

Definition create_dir_all (_ : string) : fs_io IoError unit :=
  fs_operation (fun files => (Ok tt, files)) untouched.
Definition open_directory (_ : string) : fs_io IoError unit :=
  fs_operation (fun files => (Ok tt, files)) untouched.
Definition sync_directory (_ : string) : fs_io IoError unit :=
  fs_operation (fun files => (Ok tt, files)) untouched.
(** [OpenOptions::new().read(true).open(path)], or the handle's metadata. *)
Definition open_read (path : string) : fs_io IoError (list byte) :=
  fs_operation (fun files =>
    (match files !! path with Some bytes => Ok bytes | None => Err IoNotFound end, files)) untouched.
Definition file_len (bytes : list byte) : fs_io IoError N :=
  fs_operation (fun files => (Ok (N.of_nat (length bytes)), files)) untouched.
(** [file.take(limit).read_to_end(..)] on an open file. *)
Definition read_take (bytes : list byte) (limit : N) : fs_io IoError (list byte) :=
  fs_operation (fun files =>
    (Ok (if N.of_nat (length bytes) <=? limit then bytes else take (N.to_nat limit) bytes), files))
    untouched.
Definition create_new (path : string) : fs_io IoError unit :=
  fs_operation (fun files =>
    match files !! path with
    | Some _ => (Err IoAlreadyExists, files)
    | None => (Ok tt, <[path := []]> files)
    end) untouched.
(** [write_all] on the file just created. *)
Definition write_all (path : string) (bytes : list byte) : fs_io IoError unit :=
  fs_operation (fun files => (Ok tt, <[path := bytes]> files))
    (fun n files => <[path := take n bytes]> files).
Definition sync_all : fs_io IoError unit := fs_operation (fun files => (Ok tt, files)) untouched.
Definition remove_file (path : string) : fs_io IoError unit :=
  fs_operation (fun files =>
    match files !! path with
    | Some _ => (Ok tt, delete path files)
    | None => (Err IoNotFound, files)
    end) untouched.
(** The rename is atomic. *)
Definition rename (from to : string) : fs_io IoError unit :=
  fs_operation (fun files =>
    match files !! from with
    | Some bytes => (Ok tt, <[to := bytes]> (delete from files))
    | None => (Err IoNotFound, files)
    end) untouched.

(** [match result { Ok(..) => .., Err(..) => .. }]. *)
Definition attempt {W E F A} (m : io W E A) : io W F (E + A) :=
  fun w => match m w with
           | (Ok a, w) => (Ok (inr a), w)
           | (Err e, w) => (Ok (inl e), w)
           | (Panic s, w) => (Panic s, w)
           end.
(** [map_err(|error| io(path, error))?]. *)
Definition at_path {W A} (path : string) : io W IoError A → io W CheckpointError A :=
  map_err_io (CpIo path).
(** [let _ = fs::remove_file(path); return Err(error);]. *)
Definition discard {A} (path : string) (error : CheckpointError) : fs_io CheckpointError A :=
  _ ← attempt (F := CheckpointError) (remove_file path);
  lift (Err error).

Definition lock_path_for_checkpoint (path : string) : string := path +:+ ".lock".

Definition ensure_checkpoint_size (length limit : N) : outcome CheckpointError unit :=
  bail_if (limit <? length)
    (CpInvalid ("checkpoint file exceeds " +:+ to_decimal limit +:+ "-byte limit")).

Definition read_checkpoint_bytes_with_limit (path : string) (limit : N) :
    fs_io CheckpointError (option (list byte)) :=
  opened ← attempt (open_read path);
  match opened with
  | inl IoNotFound => mret None
  | inl error => lift (Err (CpIo path error))
  | inr file =>
      length ← at_path path (file_len file);
      _ ← lift (ensure_checkpoint_size length limit);
      bytes ← at_path path (read_take file (saturating_add limit 1));
      _ ← lift (ensure_checkpoint_size (N.of_nat (List.length bytes)) limit);
      mret (Some bytes)
  end.

Definition verify_checkpoint_bytes (path : string) (expected : list byte) :
    fs_io CheckpointError unit :=
  found ← read_checkpoint_bytes_with_limit path MAX_CHECKPOINT_BYTES;
  persisted ← lift (ok_or found (CpInvalid "checkpoint read-back is missing"));
  lift (bail_if (negb (bool_decide (persisted = expected)))
          (CpInvalid "checkpoint read-back differs from serialized bytes")).

Section Store.
Context `{HexCrate, HmacCrate, CheckpointJson}.

Definition load_checkpoint (path : string) (expected_chain_id : N) (integrity_key : list byte) :
    fs_io CheckpointError CheckpointState :=
  bytes ← read_checkpoint_bytes_with_limit path MAX_CHECKPOINT_BYTES;
  lift (load_checkpoint_bytes bytes expected_chain_id integrity_key).

Definition temporary_path (path : string) (process_id nonce : N) : string :=
  with_extension path (to_decimal process_id +:+ "." +:+ to_decimal nonce +:+ ".tmp").

(** The file operations of [save_checkpoint], once the bytes and the name of the
    temporary are known. *)
Definition replace_file (path parent temporary : string) (bytes : list byte) :
    fs_io CheckpointError unit :=
  _ ← at_path temporary (create_new temporary);
  written ← attempt (_ ← write_all temporary bytes; sync_all);
  match written with
  | inl error => discard temporary (CpIo temporary error)
  | inr _ =>
      checked ← attempt (verify_checkpoint_bytes temporary bytes);
      match checked with
      | inl error => discard temporary error
      | inr _ =>
          renamed ← attempt (rename temporary path);
          match renamed with
          | inl error => discard temporary (CpIo path error)
          | inr _ =>
              _ ← at_path parent (open_directory parent);
              _ ← at_path parent (sync_directory parent);
              verify_checkpoint_bytes path bytes
          end
      end
  end.

Definition save_checkpoint (path : string) (state : CheckpointState) (integrity_key : list byte) :
    fs_io CheckpointError unit :=
  let parent := default "." (path_parent path) in
  _ ← at_path parent (create_dir_all parent);
  bytes ← lift (checkpoint_bytes state integrity_key);
  _ ← lift (ensure_checkpoint_size (N.of_nat (length bytes)) MAX_CHECKPOINT_BYTES);
  fs ← get_state;
  nonce ← lift (ok_or (fs_clock fs) (CpInvalid "system clock before Unix epoch"));
  replace_file path parent (temporary_path path (fs_process_id fs) nonce) bytes.
End Store.

(** *** The lock *)

Definition lock_acquire (path : string) : fs_io CheckpointError unit :=
  let parent := default "." (path_parent path) in
  _ ← at_path parent (create_dir_all parent);
  created ← attempt (create_new path);
  match created with
  | inr _ =>
      fs ← get_state;
      written ← attempt (_ ← write_all path (as_bytes (to_decimal (fs_process_id fs)) ++ [x0a]);
                         sync_all);
      match written with
      | inl error => discard path (CpIo path error)
      | inr _ => mret tt
      end
  | inl IoAlreadyExists => lift (Err (CpLocked path))
  | inl error => lift (Err (CpIo path error))
  end.

(** [Drop for LockGuard]. *)
Definition lock_drop (path : string) : fs_io CheckpointError unit :=
  _ ← attempt (F := CheckpointError) (remove_file path);
  mret tt.

(* ------------------------------------------------------------------ *)
(** ** Helper lemmas: paths *)

Lemma rsplit_once_Some c s before after :
  rsplit_once c s = Some (before, after) →
  s = before +:+ String c after ∧ rsplit_once c after = None.
Proof.
  revert before. induction s as [|a s IH]; intros before; cbn [rsplit_once]; [done|].
  destruct (rsplit_once c s) as [[b r]|] eqn:E.
  - intros [= <- <-]. destruct (IH b eq_refl) as [-> Hn]. done.
  - destruct (Ascii.eqb_spec a c) as [->|]; [|done]. by intros [= <- <-].
Qed.

Lemma rsplit_once_app c a b : rsplit_once c (a +:+ String c b) ≠ None.
Proof.
  induction a as [|x a IH]; autorewrite with str; cbn [rsplit_once].
  - destruct (rsplit_once c b) as [[??]|]; [done|]. by rewrite Ascii.eqb_refl.
  - destruct (rsplit_once c (a +:+ String c b)) as [[??]|]; [done|done].
Qed.

Lemma str_app_length a b : String.length (a +:+ b) = (String.length a + String.length b)%nat.
Proof. induction a as [|x a IH]; autorewrite with str; cbn [String.length]; [done|]. by rewrite IH. Qed.

Lemma str_app_cancel a b c : a +:+ b = a +:+ c → b = c.
Proof. induction a; autorewrite with str; [done|]. intros [= E]. auto. Qed.

Lemma split_path_join p : (split_path p).1 +:+ (split_path p).2 = p.
Proof.
  unfold split_path. destruct (rsplit_once "/" p) as [[d n]|] eqn:E; [|done].
  apply rsplit_once_Some in E as [-> _]. cbn [fst snd]. clear.
  induction d as [|x d IH]; autorewrite with str; [done|]. by rewrite IH.
Qed.

(** A new extension with a dot in it gives a different path. *)
Lemma with_extension_ne p a b :
  is_Some (file_name p) → with_extension p (a +:+ String "." b) ≠ p.
Proof.
  unfold with_extension. intros [name Hn]. rewrite Hn. intros E.
  rewrite <-(split_path_join p) in E at 2. apply str_app_cancel in E.
  unfold file_name in Hn. destruct (_ || _ || _); [done|]. injection Hn as Hn. rewrite Hn in E.
  unfold file_stem in E. destruct (rsplit_once "." name) as [[stem ext]|] eqn:Es.
  - assert (name +:+ "." +:+ a +:+ String "." b ≠ name) as Hlong.
    { intros E2. apply (f_equal String.length) in E2.
      rewrite !str_app_length in E2. cbn [String.length] in E2. lia. }
    apply rsplit_once_Some in Es as [Hname Hext]. destruct stem as [|x stem]; [done|].
    rewrite Hname in E. apply str_app_cancel in E. injection E as E.
    rewrite <-E in Hext. by apply rsplit_once_app in Hext.
  - apply (f_equal String.length) in E. rewrite !str_app_length in E. cbn [String.length] in E. lia.
Qed.

Lemma temporary_path_ne p pid nonce : is_Some (file_name p) → temporary_path p pid nonce ≠ p.
Proof. intros Hn. unfold temporary_path. by apply with_extension_ne. Qed.

(* ------------------------------------------------------------------ *)
(** ** Helper lemmas: a program logic for file operations *)

(** From files in [P], a normal end is in [Q] and an error or crash leaves [R]. *)
Definition triple {E A} (P : Files → Prop) (m : fs_io E A) (Q : A → Files → Prop)
    (R : Files → Prop) : Prop :=
  ∀ fs, P (fs_files fs) →
    match m fs with
    | (Ok a, fs') => Q a (fs_files fs')
    | (_, fs') => R (fs_files fs')
    end.

Create HintDb triple.

Lemma triple_bind {E A B} P (m : fs_io E A) Q (f : A → fs_io E B) Q' R :
  triple P m Q R → (∀ a, triple (Q a) (f a) Q' R) → triple P (m ≫= f) Q' R.
Proof.
  intros Hm Hf fs HP. specialize (Hm fs HP). unfold mbind, io_bind.
  destruct (m fs) as [[a|e|s] fs']; [by apply Hf|done|done].
Qed.

Lemma triple_lift {E A} P (m : outcome E A) (Q : A → Files → Prop) R :
  (∀ files, P files → R files) → (∀ a files, m = Ok a → P files → Q a files) →
  triple P (lift m) Q R.
Proof. intros HR HQ fs HP. unfold lift. destruct m; auto. Qed.

Lemma triple_get_state {E A} P (f : FileSystem → fs_io E A) Q R :
  (∀ fs0, triple P (f fs0) Q R) → triple P (get_state ≫= f) Q R.
Proof. intros Hf fs HP. by apply (Hf fs). Qed.

(** A pure step whose value the rest may rely on. *)
Lemma triple_bind_lift {E A B} (P : Files → Prop) (m : outcome E A) (f : A → fs_io E B) Q (R : Files → Prop) :
  (∀ files, P files → R files) → (∀ a, m = Ok a → triple P (f a) Q R) →
  triple P (lift m ≫= f) Q R.
Proof.
  intros HR Hf fs HP. unfold lift, mbind, io_bind. destruct m as [a|e|s]; [|auto|auto].
  by apply (Hf a eq_refl).
Qed.

Lemma triple_attempt {E F A} P (m : fs_io E A) Q R :
  triple P m Q R →
  triple P (attempt (F := F) m) (fun r => match r with inr a => Q a | inl _ => R end) R.
Proof. intros Hm fs HP. specialize (Hm fs HP). unfold attempt. by destruct (m fs) as [[a|e|s] fs']. Qed.

Lemma triple_map_err {E F A} P (f : E → F) (m : fs_io E A) Q R :
  triple P m Q R → triple P (map_err_io f m) Q R.
Proof.
  intros Hm fs HP. specialize (Hm fs HP). unfold map_err_io.
  by destruct (m fs) as [[a|e|s] fs'].
Qed.

Lemma triple_at_path {A} P path (m : fs_io IoError A) Q R :
  triple P m Q R → triple P (at_path path m) Q R.
Proof.
  intros Hm fs HP. specialize (Hm fs HP). unfold at_path, map_err_io.
  by destruct (m fs) as [[a|e|s] fs'].
Qed.

Lemma triple_operation {A} P run partial (Q : A → Files → Prop) R :
  (∀ files, P files → match run files with (Ok a, files') => Q a files' | (_, files') => R files' end) →
  (∀ files n, P files → R (partial n files)) →
  triple P (fs_operation run partial) Q R.
Proof.
  intros Hrun Hpart [files faults clock pid] HP. unfold fs_operation, next_operation, set_files. cbn.
  cbn in HP. destruct faults as [|[|text n|n] faults]; cbn; try by apply Hpart.
  - specialize (Hrun files HP). by destruct (run files) as [[a|e|s] files'].
  - specialize (Hrun files HP). by destruct (run files) as [[a|e|s] files'].
Qed.

Lemma triple_post {E A} P (m : fs_io E A) (Q Q' : A → Files → Prop) (R R' : Files → Prop) :
  triple P m Q R → (∀ a files, Q a files → Q' a files) → (∀ files, R files → R' files) →
  triple P m Q' R'.
Proof.
  intros Hm HQ HR fs HP. specialize (Hm fs HP). destruct (m fs) as [[a|e|s] fs']; auto.
Qed.

Lemma triple_pre {E A} (P P' : Files → Prop) (m : fs_io E A) Q R :
  triple P m Q R → (∀ files, P' files → P files) → triple P' m Q R.
Proof. intros Hm HP fs HP'. apply Hm. auto. Qed.

(** Operations that only look leave every file as it is. *)
Definition reads {E A} (m : fs_io E A) : Prop := ∀ fs, fs_files (m fs).2 = fs_files fs.

Lemma reads_bind {E A B} (m : fs_io E A) (f : A → fs_io E B) :
  reads m → (∀ a, reads (f a)) → reads (m ≫= f).
Proof.
  intros Hm Hf fs. specialize (Hm fs). unfold mbind, io_bind.
  destruct (m fs) as [[a|e|s] fs']; [|done|done]. by rewrite Hf.
Qed.
Lemma reads_lift {E A} (m : outcome E A) : reads (lift m).
Proof. by intros fs. Qed.
Lemma reads_mret {E A} (a : A) : reads (mret a : fs_io E A).
Proof. by intros fs. Qed.
Lemma reads_attempt {E F A} (m : fs_io E A) : reads m → reads (attempt (F := F) m).
Proof. intros Hm fs. specialize (Hm fs). unfold attempt. by destruct (m fs) as [[a|e|s] fs']. Qed.
Lemma reads_at_path {A} path (m : fs_io IoError A) : reads m → reads (at_path path m).
Proof.
  intros Hm fs. specialize (Hm fs). unfold at_path, map_err_io.
  by destruct (m fs) as [[a|e|s] fs'].
Qed.
Lemma reads_operation {A} (run : Files → outcome IoError A * Files) :
  (∀ files, (run files).2 = files) → reads (fs_operation run untouched).
Proof.
  intros Hrun [files faults clock pid]. unfold fs_operation, next_operation, set_files, untouched.
  cbn. destruct faults as [|[|text n|n] faults]; cbn; try done;
    specialize (Hrun files); by destruct (run files).
Qed.

Lemma reads_limited path limit : reads (read_checkpoint_bytes_with_limit path limit).
Proof.
  unfold read_checkpoint_bytes_with_limit.
  apply reads_bind; [by apply reads_attempt, reads_operation|].
  intros [[]|file]; [apply reads_mret|apply reads_lift|apply reads_lift|].
  apply reads_bind; [by apply reads_at_path, reads_operation|]. intros len.
  apply reads_bind; [apply reads_lift|]. intros _.
  apply reads_bind; [by apply reads_at_path, reads_operation|]. intros bytes.
  apply reads_bind; [apply reads_lift|]. intros _. apply reads_mret.
Qed.

Lemma reads_verify path expected : reads (verify_checkpoint_bytes path expected).
Proof.
  unfold verify_checkpoint_bytes. apply reads_bind; [apply reads_limited|]. intros found.
  apply reads_bind; [apply reads_lift|]. intros persisted. apply reads_lift.
Qed.

#[export] Hint Resolve reads_lift reads_mret reads_at_path reads_limited reads_verify : triple.

Lemma triple_reads {E A} P (m : fs_io E A) : reads m → triple P m (fun _ => P) P.
Proof. intros Hm fs HP. specialize (Hm fs). destruct (m fs) as [[a|e|s] fs']; by rewrite <-Hm in HP. Qed.

(** A read that succeeds returns the contents. *)
Lemma read_limited_ok path limit fs r fs' :
  limit ≤ u64_max → read_checkpoint_bytes_with_limit path limit fs = (Ok r, fs') →
  r = fs_files fs !! path ∧ fs_files fs' = fs_files fs.
Proof.
  intros Hlimit Hr. pose proof (reads_limited path limit fs) as Hsame. rewrite Hr in Hsame.
  split; [|exact Hsame]. clear Hsame. unfold read_checkpoint_bytes_with_limit in Hr.
  apply io_bind_ok in Hr as (opened & fs1 & Ho & Hr).
  unfold attempt, open_read, fs_operation in Ho.
  assert (match opened with
          | inr file => fs_files fs !! path = Some file
          | inl IoNotFound => fs_files fs !! path = None
          | inl _ => True end) as Hop.
  { destruct (fs_faults fs) as [|[|text n|n] faults]; [| | |done];
      destruct (fs_files fs !! path); naive_solver. }
  destruct opened as [[]|file]; [by apply io_ret_ok in Hr as [<- _]|done|done|].
  apply io_bind_ok in Hr as (len & fs2 & Hl & Hr). apply io_bind_ok in Hr as (? & fs3 & Hs & Hr).
  apply lift_ok in Hs as [Hs%bail_if_ok ->]. apply io_bind_ok in Hr as (bytes & fs4 & Hb & Hr).
  apply io_bind_ok in Hr as (? & fs5 & Hs2 & [<- _]%io_ret_ok).
  apply lift_ok in Hs2 as [Hs2%bail_if_ok ->]. rewrite Hop. f_equal. symmetry.
  apply map_err_io_ok in Hl, Hb. unfold file_len, read_take, fs_operation in Hl, Hb.
  assert (len = N.of_nat (length file)) as ->
    by (destruct (fs_faults fs1) as [|[|? ?|?] ?]; naive_solver).
  apply N.ltb_ge in Hs.
  assert ((N.of_nat (length file) <=? saturating_add limit 1) = true) as Hall
    by (apply N.leb_le; unfold saturating_add; lia).
  rewrite Hall in Hb. destruct (fs_faults fs2) as [|[|? ?|?] ?]; naive_solver.
Qed.

(* ------------------------------------------------------------------ *)
(** ** Helper lemmas: saving *)

Section SaveFacts.
Context `{HexCrate, HmacCrate, CheckpointJson}.
Context (path : string) (st : CheckpointState) (key : list byte) (before : Files).
Hypothesis Hname : is_Some (file_name path).

(** Files that are neither the checkpoint nor a temporary of it are kept. *)
Definition kept (files : Files) : Prop :=
  ∀ other, other ≠ path → (∀ pid nonce, other ≠ temporary_path path pid nonce) →
    files !! other = before !! other.
Definition old_checkpoint (files : Files) : Prop := kept files ∧ files !! path = before !! path.
Definition new_checkpoint (files : Files) : Prop :=
  kept files ∧ ∃ bytes, checkpoint_bytes st key = Ok bytes ∧ files !! path = Some bytes.
Definition some_checkpoint (files : Files) : Prop := old_checkpoint files ∨ new_checkpoint files.

(** The temporary can hold anything. *)
Lemma old_checkpoint_temporary (pid nonce : N) files f :
  old_checkpoint files → old_checkpoint (partial_alter f (temporary_path path pid nonce) files).
Proof.
  intros [Hk Ho]. split.
  - intros other Hp Ht. rewrite lookup_partial_alter_ne by (by apply not_eq_sym, Ht). by apply Hk.
  - by rewrite lookup_partial_alter_ne by (by apply temporary_path_ne).
Qed.

(** A checkpoint's temporary file that is ready holds the bytes. *)
Definition ready_at (temporary : string) (bytes : list byte) (files : Files) : Prop :=
  old_checkpoint files ∧ files !! temporary = Some bytes.

Lemma triple_discard {A} pid nonce error (Q : A → Files → Prop) :
  triple old_checkpoint (discard (temporary_path path pid nonce) error) Q some_checkpoint.
Proof.
  unfold discard. eapply (triple_bind _ _ (fun _ => some_checkpoint)).
  - eapply triple_post; [apply (triple_attempt _ _ (fun _ => some_checkpoint) some_checkpoint)| |done].
    + apply triple_operation.
      * intros files Ho. destruct (files !! _); [|by left]. left. by apply old_checkpoint_temporary.
      * intros files n Ho. by left.
    + by intros [e|u].
  - intros r. by apply triple_lift.
Qed.

Lemma triple_write pid nonce bytes :
  let temporary := temporary_path path pid nonce in
  triple old_checkpoint (attempt (F := CheckpointError) (_ ← write_all temporary bytes; sync_all))
    (fun r => match r with inr _ => ready_at temporary bytes | inl _ => old_checkpoint end)
    old_checkpoint.
Proof.
  apply triple_attempt. eapply (triple_bind _ _ (fun _ => ready_at (temporary_path path pid nonce) bytes)).
  - apply triple_operation.
    + intros files Ho. split; [by apply old_checkpoint_temporary|by rewrite lookup_insert_eq].
    + intros files n Ho. by apply old_checkpoint_temporary.
  - intros _. eapply triple_post; [by apply triple_reads, reads_operation|done|]. by intros files [Ho _].
Qed.

Lemma triple_rename pid nonce bytes :
  checkpoint_bytes st key = Ok bytes →
  let temporary := temporary_path path pid nonce in
  triple (ready_at temporary bytes) (attempt (F := CheckpointError) (rename temporary path))
    (fun r => match r with inr _ => new_checkpoint | inl _ => old_checkpoint end) old_checkpoint.
Proof.
  intros Hb temporary. apply triple_attempt. apply triple_operation.
  - intros files [[Hk Ho] Ht]. rewrite Ht. split.
    + intros other Hp Hnt. rewrite lookup_insert_ne by (by apply not_eq_sym).
      rewrite lookup_delete_ne by (by apply not_eq_sym, Hnt). by apply Hk.
    + exists bytes. by rewrite lookup_insert_eq.
  - by intros files n [Ho _].
Qed.

Lemma triple_replace_file parent pid nonce bytes : checkpoint_bytes st key = Ok bytes →
  triple old_checkpoint (replace_file path parent (temporary_path path pid nonce) bytes)
    (fun _ => new_checkpoint) some_checkpoint.
Proof.
  intros Hb. assert (∀ files, old_checkpoint files → some_checkpoint files) as Hos by (by left).
  assert (∀ files, new_checkpoint files → some_checkpoint files) as Hns by (by right).
  unfold replace_file. eapply (triple_bind _ _ (fun _ => old_checkpoint)).
  { apply triple_at_path, triple_operation; [|by intros files n Ho; left].
    intros files Ho. destruct (files !! _); [by left|]. by apply old_checkpoint_temporary. }
  intros _. eapply triple_bind.
  { eapply triple_post; [apply triple_write|intros r files Hr; exact Hr|exact Hos]. }
  intros [e|_]; [apply triple_discard|]. eapply triple_bind.
  { eapply triple_post; [apply triple_attempt, triple_reads; auto with triple| |].
    - intros r files Hr. refine (_ : ready_at (temporary_path path pid nonce) bytes files). by destruct r.
    - intros files [Ho _]. by apply Hos. }
  intros [e|_]; [eapply triple_pre; [apply triple_discard|by intros files [Ho _]]|].
  eapply triple_bind.
  { eapply triple_post; [by apply triple_rename|intros r files Hr; exact Hr|exact Hos]. }
  intros [e|_]; [apply triple_discard|].
  assert (∀ {E A} (m : fs_io E A), reads m → triple new_checkpoint m (fun _ => new_checkpoint)
    some_checkpoint) as Hread.
  { intros E A m Hm. eapply triple_post; [by apply triple_reads|done|exact Hns]. }
  eapply (triple_bind _ _ (fun _ => new_checkpoint)); [by apply Hread, reads_at_path, reads_operation|]. intros _.
  eapply (triple_bind _ _ (fun _ => new_checkpoint)); [by apply Hread, reads_at_path, reads_operation|]. intros _.
  apply Hread. auto with triple.
Qed.

Lemma triple_save : triple old_checkpoint (save_checkpoint path st key)
  (fun _ => new_checkpoint) some_checkpoint.
Proof.
  assert (∀ files, old_checkpoint files → some_checkpoint files) as Hos by (by left).
  unfold save_checkpoint. cbn zeta. eapply (triple_bind _ _ (fun _ => old_checkpoint)).
  { eapply triple_post; [by apply triple_reads, reads_at_path, reads_operation|done|exact Hos]. }
  intros _. apply triple_bind_lift; [exact Hos|]. intros bytes Hb.
  apply triple_bind_lift; [exact Hos|]. intros _ _. apply triple_get_state. intros fs0.
  apply triple_bind_lift; [exact Hos|]. intros nonce _. by apply triple_replace_file.
Qed.
End SaveFacts.

(** Reading at [path] after a save that succeeded. *)
Lemma load_after_read `{HexLaws, HmacLaws, CheckpointJsonLaws} path st key fs r fs' :
  state_wf st →
  (∃ bytes, checkpoint_bytes st key = Ok bytes ∧ fs_files fs !! path = Some bytes) →
  load_checkpoint path (cs_chain_id st) key fs = (Ok r, fs') → r = st.
Proof.
  intros Hwf (bytes & Hb & Hf) (found & fs1 & Hr & [Hl _]%lift_ok)%io_bind_ok.
  apply read_limited_ok in Hr as [-> _]; [|vm_compute; discriminate].
  rewrite Hf, (load_checkpoint_bytes_of st key bytes Hwf Hb) in Hl. by apply (inj Ok) in Hl.
Qed.

(* ------------------------------------------------------------------ *)
(** ** Theorems *)

Section StoreTheorems.
Context `{HexLaws, HmacLaws, CheckpointJsonLaws}.

(** C11: Saving a checkpoint is atomic: whichever operation fails and wherever the
    process is stopped, the checkpoint file afterwards holds either what it held
    before or the complete authenticated text of the new state, it holds the
    latter when saving reports success, and no file but the temporary changes. *)
Theorem save_checkpoint_atomic (path : string) (st : CheckpointState) (key : list byte)
    (fs fs' : FileSystem) (r : outcome CheckpointError unit) :
  is_Some (file_name path) → save_checkpoint path st key fs = (r, fs') →
  (fs_files fs' !! path = fs_files fs !! path ∨
   ∃ bytes, checkpoint_bytes st key = Ok bytes ∧ fs_files fs' !! path = Some bytes) ∧
  (r = Ok tt → ∃ bytes, checkpoint_bytes st key = Ok bytes ∧ fs_files fs' !! path = Some bytes) ∧
  (∀ other, other ≠ path → (∀ pid nonce, other ≠ temporary_path path pid nonce) →
     fs_files fs' !! other = fs_files fs !! other).
Proof.
  intros Hn Hs. pose proof (triple_save path st key (fs_files fs) Hn fs (conj (fun _ _ _ => eq_refl) eq_refl)) as Ht.
  rewrite Hs in Ht. destruct r as [[]|e|s].
  - destruct Ht as [Hk Hb]. split; [by right|]. split; [intros _; exact Hb|exact Hk].
  - destruct Ht as [[Hk Ho]|[Hk Hb]];
      (split; [|split; [discriminate|exact Hk]]); [by left|by right].
  - destruct Ht as [[Hk Ho]|[Hk Hb]];
      (split; [|split; [discriminate|exact Hk]]); [by left|by right].
Qed.

(** C12: A saved checkpoint loads back: after a save that reported success, loading
    the same path under the same key and chain can only return the saved state,
    for every well-formed state. *)
Theorem checkpoint_store_roundtrip (path : string) (st st' : CheckpointState) (key : list byte)
    (fs fs1 fs2 : FileSystem) :
  is_Some (file_name path) → state_wf st →
  save_checkpoint path st key fs = (Ok tt, fs1) →
  load_checkpoint path (cs_chain_id st) key fs1 = (Ok st', fs2) → st' = st.
Proof.
  intros Hn Hwf Hs. pose proof (triple_save path st key (fs_files fs) Hn fs (conj (fun _ _ _ => eq_refl) eq_refl)) as Ht.
  rewrite Hs in Ht. intros Hl. exact (load_after_read _ _ _ _ _ _ Hwf (proj2 Ht) Hl).
Qed.

(** A checkpoint that is loaded is authentic and well formed: the file's
    envelope carries the HMAC of its own content under the key, the state is the
    parse of that content, belongs to the expected chain and satisfies the
    well-formedness invariant; a missing file gives the empty state. *)
Theorem load_checkpoint_sound (path : string) (chain : N) (key : list byte)
    (fs fs' : FileSystem) (st : CheckpointState) :
  load_checkpoint path chain key fs = (Ok st, fs') →
  state_wf st ∧ cs_chain_id st = chain ∧ fs_files fs' = fs_files fs ∧
  match fs_files fs !! path with
  | None => cs_tokens st = ∅
  | Some bytes => ∃ envelope mac json,
      envelope_from_slice bytes = Ok envelope ∧ hmac_new key = Some mac ∧
      checkpoint_to_vec (checkpoint_of envelope) = Ok json ∧
      supplied_tag envelope = Some (array_val (hmac_finalize mac json)) ∧
      parse_state (checkpoint_of envelope) = Ok st
  end.
Proof.
  intros (found & fs1 & Hr & [Hl ->]%lift_ok)%io_bind_ok.
  apply read_limited_ok in Hr as [-> Hsame]; [|vm_compute; discriminate].
  destruct (fs_files fs !! path) as [bytes|].
  - apply load_checkpoint_bytes_ok in Hl as
      (envelope & mac & json & supplied & He & Hm & Hj & Hs & -> & Hp & Hc).
    split; [by eapply parse_state_wf|]. do 2 (split; [done|]). by exists envelope, mac, json.
  - apply (inj Ok) in Hl as <-. split; [apply map_Forall_empty|]. done.
Qed.
End StoreTheorems.

(* ------------------------------------------------------------------ *)
(** ** Evaluated instances *)

(** A reference MAC and a reference text form for the evaluated examples: the
    text spells the bits of the value's number. *)
Module RefCheckpoint.
#[export] Instance hmac_crate : HmacCrate := {|
  hmac_mac := list byte;
  hmac_new key := Some key;
  hmac_finalize key message := array_of 32 (be_bytes 32 (RefSha3.mix (key ++ message)));
  hmac_verify_slice key message tag :=
    bool_decide (tag = array_val (array_of 32 (be_bytes 32 (RefSha3.mix (key ++ message)))))
|}.
#[export] Instance hmac_laws : HmacLaws.
Proof. constructor. done. Qed.

#[export] Instance PersistedAccount_eq_dec : EqDecision PersistedAccount.
Proof. solve_decision. Defined.
#[export] Instance PersistedAccount_countable : Countable PersistedAccount :=
  inj_countable'
    (fun a => (pa_balance a, pa_last_block a, pa_completed_numerator a, pa_active_segment_from a,
               pa_active_integral a))
    (fun '(a, b, c, d, e) => mkPersistedAccount a b c d e) (fun '(mkPersistedAccount _ _ _ _ _) => eq_refl).
#[export] Instance PersistedRate_eq_dec : EqDecision PersistedRate.
Proof. solve_decision. Defined.
#[export] Instance PersistedRate_countable : Countable PersistedRate :=
  inj_countable' (fun r => (pr_from_block r, pr_rate r)) (fun '(a, b) => mkPersistedRate a b)
    (fun '(mkPersistedRate _ _) => eq_refl).
#[export] Instance PersistedToken_eq_dec : EqDecision PersistedToken.
Proof. solve_decision. Defined.
#[export] Instance PersistedToken_countable : Countable PersistedToken :=
  inj_countable'
    (fun t => (pk_decimals t, pk_cursor_block t, pk_rates t, pk_accounts t, pk_cursor_block_hash t))
    (fun '(a, b, d, e, c) => mkPersistedToken a b c d e) (fun '(mkPersistedToken _ _ _ _ _) => eq_refl).
#[export] Instance PersistedCheckpoint_eq_dec : EqDecision PersistedCheckpoint.
Proof. solve_decision. Defined.
#[export] Instance PersistedCheckpoint_countable : Countable PersistedCheckpoint :=
  inj_countable' (fun c => (pc_schema_version c, pc_chain_id c, pc_tokens c))
    (fun '(a, b, c) => mkPersistedCheckpoint a b c) (fun '(mkPersistedCheckpoint _ _ _) => eq_refl).
#[export] Instance AuthenticatedCheckpoint_eq_dec : EqDecision AuthenticatedCheckpoint.
Proof. solve_decision. Defined.
#[export] Instance AuthenticatedCheckpoint_countable : Countable AuthenticatedCheckpoint :=
  inj_countable' (fun c => (checkpoint_of c, au_authentication c))
    (fun '(c, a) => mkAuthenticatedCheckpoint (pc_schema_version c) (pc_chain_id c) (pc_tokens c) a)
    (fun '(mkAuthenticatedCheckpoint _ _ _ _) => eq_refl).

Fixpoint bits (p : positive) : list byte :=
  match p with xH => [] | xO p => x00 :: bits p | xI p => x01 :: bits p end.
Fixpoint of_bits (l : list byte) : option positive :=
  match l with
  | [] => None
  | x0a :: _ => Some xH
  | x00 :: l => xO <$> of_bits l
  | x01 :: l => xI <$> of_bits l
  | _ => None
  end.
Lemma of_bits_bits p : of_bits (bits p ++ [x0a]) = Some p.
Proof. induction p as [p IH|p IH|]; simpl; [by rewrite IH|by rewrite IH|done]. Qed.

#[export] Instance checkpoint_json : CheckpointJson := {|
  checkpoint_to_vec c := Ok (bits (encode c));
  envelope_to_vec e := Ok (bits (encode e));
  envelope_from_slice bytes :=
    match p ← of_bits bytes; decode p with Some e => Ok e | None => Err "expected value" end
|}.
#[export] Instance checkpoint_json_laws : CheckpointJsonLaws.
Proof.
  constructor.
  - intros e bytes <-%(inj Ok). cbn. rewrite of_bits_bits. cbn. by rewrite decode_encode.
  - intros a b bytes <-%(inj Ok) E%(inj Ok). apply (inj encode), (inj Some).
    by rewrite <-!of_bits_bits, E.
Qed.
End RefCheckpoint.

#[local] Existing Instances RefHex.hex_crate RefHex.hex_laws RefCheckpoint.hmac_crate
  RefCheckpoint.hmac_laws RefCheckpoint.checkpoint_json RefCheckpoint.checkpoint_json_laws.

Definition demo_key : list byte := replicate 32 x2a.
Definition demo_path : string := "/var/score.json".
Definition demo_state : CheckpointState := mkCheckpointState 1
  {[array_of 20 [x05] := mkTokenState 6 9
      "0x00000000000000000000000000000000000000000000000000000000000000ff" [mkRatePoint 2 5]
      {[array_of 20 [x07] := mkAccountScoreState 10 8 3 (Some 2) 40]}]}.
Definition demo_empty : CheckpointState := mkCheckpointState 1 ∅.
Definition demo_fs (faults : list Fault) : FileSystem := mkFileSystem ∅ faults (Some 17) 3.

Lemma demo_state_wf : state_wf demo_state.
Proof.
  unfold state_wf, demo_state. cbn [cs_tokens]. apply map_Forall_singleton.
  split; [vm_compute; discriminate|]. split; [by split; vm_compute|]. split; [done|].
  split; [|split].
  - intros r ->%list_elem_of_singleton. vm_compute. discriminate.
  - repeat constructor.
  - apply map_Forall_singleton. split; [vm_compute; discriminate|].
    exists (mkRatePoint 2 5). split; [left|done].
Qed.

(** The disk fails while the temporary is written. *)
Example save_checkpoint_atomic_witness :
  ∃ r fs', save_checkpoint demo_path demo_empty demo_key (demo_fs [NoFault; NoFault; Crash 5])
    = (r, fs') ∧ fs_files fs' !! demo_path = None ∧ length (map_to_list (fs_files fs')) = 1%nat ∧
    (fs_files fs' !! demo_path = None ∨
     ∃ bytes, checkpoint_bytes demo_empty demo_key = Ok bytes ∧ fs_files fs' !! demo_path = Some bytes).
Proof.
  destruct (save_checkpoint demo_path demo_empty demo_key (demo_fs [NoFault; NoFault; Crash 5]))
    as [r fs'] eqn:E.
  exists r, fs'. split; [reflexivity|].
  assert (fs_files fs' = <[temporary_path demo_path 3 17 :=
    take 5 (match checkpoint_bytes demo_empty demo_key with Ok b => b | _ => [] end)]> ∅) as Hf.
  { change fs' with (r, fs').2. rewrite <-E. vm_compute. reflexivity. }
  split; [rewrite Hf; reflexivity|]. split; [rewrite Hf; reflexivity|].
  refine (proj1 (save_checkpoint_atomic demo_path demo_empty demo_key _ fs' r _ E)).
  vm_compute. by eexists.
Defined.

Definition demo_saved : FileSystem :=
  (save_checkpoint demo_path demo_state demo_key (demo_fs [])).2.

Example checkpoint_store_roundtrip_witness :
  ∃ st' fs2, load_checkpoint demo_path 1 demo_key demo_saved = (Ok st', fs2) ∧ st' = demo_state.
Proof.
  destruct (save_checkpoint demo_path demo_state demo_key (demo_fs [])) as [r fs1] eqn:Es.
  assert (r = Ok tt) as -> by (change r with (r, fs1).1; rewrite <-Es; vm_compute; reflexivity).
  assert (∃ st', (load_checkpoint demo_path 1 demo_key demo_saved).1 = Ok st') as [st' El].
  { eexists. vm_compute. reflexivity. }
  destruct (load_checkpoint demo_path 1 demo_key demo_saved) as [r' fs2] eqn:El'.
  cbn [fst] in El. subst r'. exists st', fs2. split; [reflexivity|].
  unfold demo_saved in El'. rewrite Es in El'. cbn [snd] in El'.
  apply (checkpoint_store_roundtrip demo_path demo_state st' demo_key (demo_fs []) fs1 fs2);
    [by eexists|exact demo_state_wf|exact Es|exact El'].
Defined.

Example load_checkpoint_sound_witness :
  ∃ st fs', load_checkpoint demo_path 1 demo_key demo_saved = (Ok st, fs') ∧ state_wf st ∧
    cs_chain_id st = 1.
Proof.
  assert (∃ st', (load_checkpoint demo_path 1 demo_key demo_saved).1 = Ok st') as [st' El].
  { eexists. vm_compute. reflexivity. }
  destruct (load_checkpoint demo_path 1 demo_key demo_saved) as [r' fs2] eqn:El'.
  cbn [fst] in El. subst r'. exists st', fs2. split; [reflexivity|].
  destruct (load_checkpoint_sound demo_path 1 demo_key demo_saved fs2 st' El') as (Hwf & Hc & _).
  split; [exact Hwf|exact Hc].
Defined.
