(* ===== verification/Replay.v ===== *)
(** * Score replay ([src/checkpoint.rs], last part)

    Transfer logs are replayed into the score states of a token, slice by slice
    of the block range.  [BulkScoreSource] starts afresh for a fixed set of
    accounts; [CheckpointScoreSource] continues the stored checkpoint for every
    account under a file lock.  A function that fails returns no state: its
    caller drops the state it was changing. *)

From S2P Require Import Prelude Bytes Text Commit ScoreCore Rpc Abi Config Chain ChainConfig.
From S2P Require Import History Checkpoint CheckpointStore.
From Stdlib Require Import Strings.Byte.

Open Scope string_scope.
Open Scope N_scope.
Open Scope list_scope.

Record CheckpointMetadata := mkCheckpointMetadata {
  cm_path : string;
  cm_as_of_block : N;
  cm_as_of_block_hash : string;
  cm_indexed_transfers : N;
  cm_indexed_tokens : N;
  cm_log_metrics : LogMetrics
}.
Record BulkMetadata := mkBulkMetadata {
  bm_as_of_block : N;
  bm_as_of_block_hash : string;
  bm_indexed_transfers : N;
  bm_indexed_tokens : N;
  bm_tracked_accounts : N;
  bm_log_metrics : LogMetrics
}.

Definition set_accounts (accounts : gmap Address AccountState) (token : TokenState) : TokenState :=
  mkTokenState (tk_decimals token) (tk_cursor_block token) (tk_cursor_block_hash token)
    (tk_rates token) accounts.
Definition set_tokens (tokens : gmap Address TokenState) (state : CheckpointState) :
    CheckpointState :=
  mkCheckpointState (cs_chain_id state) tokens.
(** [token.accounts.get(user).cloned().unwrap_or_default()]. *)
Definition account_of (token : TokenState) (user : Address) : AccountState :=
  default default_account_score_state (tk_accounts token !! user).

Definition merge_metrics (left right : LogMetrics) : LogMetrics :=
  mkLogMetrics (saturating_add (lm_requests left) (lm_requests right))
    (saturating_add (lm_bisections left) (lm_bisections right))
    (saturating_add (lm_errors left) (lm_errors right))
    (saturating_add (lm_elapsed_ms left) (lm_elapsed_ms right)).

(** [is_some_and(|tracked| !tracked.contains(&address))]. *)
Definition untracked (tracked_accounts : option (gset Address)) (address : Address) : bool :=
  match tracked_accounts with
  | Some tracked => negb (bool_decide (address ∈ tracked))
  | None => false
  end.

Section Text.
Context `{HexCrate}.

Definition validate_stored_token (stored : TokenState) (current : ScoredToken) :
    outcome CheckpointError unit :=
  let name := address_to_string (st_token current) in
  _ ← bail_if (negb (tk_decimals stored =? st_decimals current))
        (CpInvalid ("decimals mismatch for " +:+ name +:+ ": " +:+
           to_decimal (tk_decimals stored) +:+ " != " +:+ to_decimal (st_decimals current)));
  _ ← bail_if (length (st_rates current) <? length (tk_rates stored))%nat
        (CpInvalid ("rate history shrank for " +:+ name));
  _ ← fold_im (fun index (_ : unit) old =>
        bail_if (negb (bool_decide (st_rates current !! index = Some old)))
          (CpInvalid ("rate history mismatch for " +:+ name +:+ " at index " +:+
             to_decimal (N.of_nat index)))) tt (tk_rates stored);
  bail_if (existsb (fun rate => rp_from_block rate <=? tk_cursor_block stored)
             (drop (length (tk_rates stored)) (st_rates current)))
    (CpInvalid ("new rate for " +:+ name +:+ " begins at/before checkpoint block " +:+
       to_decimal (tk_cursor_block stored))).

(** The error of a movement; outflows report an underflow in their own words. *)
Definition transfer_error (address : Address) (block : N) (is_inflow : bool)
    (error : ScoreCoreError) : CheckpointError :=
  match is_inflow, error with
  | false, BalanceUnderflow _ =>
      CpInvalid ("Transfer index produced negative balance for " +:+ address_to_string address +:+
        " at block " +:+ to_decimal block)
  | _, _ => core error
  end.

Definition apply_transfer_delta (rates : list RatePoint) (tracked_accounts : option (gset Address))
    (token : TokenState) (address : Address) (block value : N) (is_inflow : bool) :
    outcome CheckpointError TokenState :=
  if address_is_zero address || untracked tracked_accounts address then Ok token
  else
    let account := account_of token address in
    let '(result, account) :=
      if is_inflow then apply_transfer block value 0 rates (tk_decimals token) account
      else apply_transfer block 0 value rates (tk_decimals token) account in
    _ ← map_err (transfer_error address block is_inflow) result;
    Ok (set_accounts (<[address := account]> (tk_accounts token)) token).

(** The loop body over one transfer: out of the sender, into the receiver. *)
Definition replay_transfer (rates : list RatePoint) (tracked_accounts : option (gset Address))
    (token : TokenState) (transfer : TokenTransfer) : outcome CheckpointError TokenState :=
  token ← apply_transfer_delta rates tracked_accounts token (tt_from transfer)
            (tt_block_number transfer) (tt_value transfer) false;
  apply_transfer_delta rates tracked_accounts token (tt_to transfer)
    (tt_block_number transfer) (tt_value transfer) true.
End Text.

Section Advance.
Context `{HexCrate, AbiCodec} {W : Type} `{!RpcIface W}.

Definition chain_io {A} : io W ChainError A → io W CheckpointError A := map_err_io CpChain.

Definition slice_transfers (token : Address) (tracked_accounts : option (gset Address))
    (slice_from slice_to max_range result_cap : N) :
    io W CheckpointError (list TokenTransfer * LogMetrics) :=
  chain_io match tracked_accounts with
           | Some accounts =>
               erc20_transfers_for_accounts token accounts slice_from slice_to max_range result_cap
           | None => erc20_transfers token slice_from slice_to max_range result_cap
           end.

(** The loop [while slice_from <= target_block]. *)
Fixpoint replay_slices (fuel : nat) (scored : ScoredToken) (target_block max_range result_cap : N)
    (tracked_accounts : option (gset Address)) (slice_from : N) (token : TokenState)
    (indexed_transfers : N) (metrics : LogMetrics) :
    io W CheckpointError (TokenState * N * LogMetrics) :=
  if slice_from <=? target_block then
    match fuel with
    | O => lift (Panic "out of fuel")
    | S fuel =>
        let slice_to := N.min (saturating_add slice_from (max_range - 1)) target_block in
        '(transfers, slice_metrics) ← slice_transfers (st_token scored) tracked_accounts
                                        slice_from slice_to max_range result_cap;
        token ← lift (fold_m (replay_transfer (st_rates scored) tracked_accounts) token transfers);
        replay_slices fuel scored target_block max_range result_cap tracked_accounts
          (saturating_add slice_to 1) token
          (saturating_add indexed_transfers (N.of_nat (length transfers)))
          (merge_metrics metrics slice_metrics)
    end
  else mret (token, indexed_transfers, metrics).

(** Every slice but the last has [max_range] blocks. *)
Definition slices_fuel (cursor_block target_block max_range : N) : nat :=
  S (N.to_nat ((target_block - cursor_block) / max_range)).

Definition advance_token (scored : ScoredToken) (token : TokenState)
    (target_block max_range result_cap : N) (tracked_accounts : option (gset Address)) :
    io W CheckpointError (TokenState * N * LogMetrics) :=
  let name := address_to_string (st_token scored) in
  _ ← lift (bail_if (target_block <? tk_cursor_block token)
        (CpInvalid ("checkpoint for " +:+ name +:+ " is ahead of requested block " +:+
           to_decimal target_block)));
  if target_block =? tk_cursor_block token then mret (token, 0, default_log_metrics)
  else
    _ ← lift (bail_if (max_range =? 0)
          (CpInvalid "score replay max range must be nonzero"));
    '(token, indexed_transfers, metrics) ←
      replay_slices (slices_fuel (tk_cursor_block token) target_block max_range) scored target_block
        max_range result_cap tracked_accounts (u64_add (tk_cursor_block token) 1) token 0
        default_log_metrics;
    target ← chain_io (block_by_number target_block);
    mret (mkTokenState (tk_decimals token) target_block (ba_hash target) (st_rates scored)
            (tk_accounts token), indexed_transfers, metrics).

Definition unsupported_balance (token user : Address) (indexed actual block : N) : CheckpointError :=
  CpInvalid ("unsupported token balance semantics for " +:+ address_to_string token +:+
    ": indexed balance " +:+ to_decimal indexed +:+ ", balanceOf(" +:+ address_to_string user +:+
    ") at block " +:+ to_decimal block +:+ " is " +:+ to_decimal actual).

Definition require_chain (expected_chain_id : N) : io W CheckpointError unit :=
  actual_chain_id ← chain_io chain_id;
  lift (bail_if (negb (actual_chain_id =? expected_chain_id))
    (CpInvalid ("RPC chain " +:+ to_decimal actual_chain_id +:+
       " does not match expected chain " +:+ to_decimal expected_chain_id))).
End Advance.

(* ------------------------------------------------------------------ *)
(** ** [BulkScoreSource] *)

Record BulkScoreSource := mkBulkScoreSource {
  bs_config : IncidentConfig;
  bs_as_of_block : N;
  bs_state : CheckpointState;
  bs_tracked_accounts : gset Address;
  bs_metadata : BulkMetadata
}.
(** What the token loop threads: state, transfers, metrics, indexed tokens. *)
Record TokenLoop := mkTokenLoop {
  tl_state : CheckpointState;
  tl_indexed_transfers : N;
  tl_log_metrics : LogMetrics;
  tl_indexed_tokens : gset Address
}.

Section Bulk.
Context `{HexCrate, AbiCodec} {W : Type} `{!RpcIface W}.

(** [state.tokens.get(..).ok_or_else(..)]. *)
Definition find_token (state : CheckpointState) (token : Address) (missing : string) :
    outcome CheckpointError TokenState :=
  ok_or (cs_tokens state !! token) (CpInvalid missing).

Definition read_initial_account (token : Address) (scoring_start : N)
    (accounts : gmap Address AccountState) (user : Address) :
    io W CheckpointError (gmap Address AccountState) :=
  balance ← chain_io (balance_of_at token user scoring_start);
  mret (<[user := mkAccountScoreState balance scoring_start 0 None 0]> accounts).

Definition bulk_token (as_of_block : N) (tracked_accounts : gset Address)
    (max_range result_cap : N) (loop : TokenLoop) (scored : ScoredToken) :
    io W CheckpointError TokenLoop :=
  let token_address := st_token scored in
  let disappeared := "bulk token " +:+ address_to_string token_address +:+ " disappeared" in
  _ ← lift (map_err core (validate_rates (st_rates scored)));
  if bool_decide (token_address ∈ tl_indexed_tokens loop) then
    stored ← lift (find_token (tl_state loop) token_address disappeared);
    _ ← lift (bail_if (negb (tk_decimals stored =? st_decimals scored) ||
                       negb (bool_decide (tk_rates stored = st_rates scored)))
          (CpInvalid ("conflicting duplicate scored-token configuration for " +:+
             address_to_string token_address)));
    mret loop
  else
    scoring_start ← lift (ok_or (first_contributing_block scored as_of_block)
      (CpInvalid ("bulk token " +:+ address_to_string token_address +:+
         " has no contributing rate segment")));
    accounts ← fold_m (read_initial_account token_address scoring_start) ∅
                 (btree_set_iter tracked_accounts);
    let initial := mkTokenState (st_decimals scored) scoring_start ZERO_HASH_TEXT (st_rates scored)
                     accounts in
    '(token, count, metrics) ← advance_token scored initial as_of_block max_range result_cap
                                 (Some tracked_accounts);
    mret (mkTokenLoop
      (set_tokens (<[token_address := token]> (cs_tokens (tl_state loop))) (tl_state loop))
      (saturating_add (tl_indexed_transfers loop) count)
      (merge_metrics (tl_log_metrics loop) metrics)
      ({[token_address]} ∪ tl_indexed_tokens loop)).

Definition confirm_account (token_address : Address) (token : TokenState) (as_of_block : N)
    (_ : unit) (user : Address) : io W CheckpointError unit :=
  let indexed := balance (account_of token user) in
  actual ← chain_io (balance_of_at token_address user as_of_block);
  lift (bail_if (negb (actual =? indexed))
          (unsupported_balance token_address user indexed actual as_of_block)).
Definition confirm_token (state : CheckpointState) (tracked_accounts : gset Address)
    (as_of_block : N) (_ : unit) (token_address : Address) : io W CheckpointError unit :=
  token ← lift (find_token state token_address
                  ("missing token " +:+ address_to_string token_address));
  fold_m (confirm_account token_address token as_of_block) tt (btree_set_iter tracked_accounts).

Definition bulk_open (config : IncidentConfig) (as_of_block : N) (tracked_accounts : gset Address)
    (expected_chain_id max_range result_cap : N) : io W CheckpointError BulkScoreSource :=
  _ ← lift (bail_if (existsb address_is_zero (btree_set_iter tracked_accounts))
        (CpInvalid "bulk score claimant set contains the zero address"));
  _ ← require_chain expected_chain_id;
  loop ← fold_m (bulk_token as_of_block tracked_accounts max_range result_cap)
    (mkTokenLoop (mkCheckpointState expected_chain_id ∅) 0 default_log_metrics ∅)
    (List.filter (fun scored => contributes_at scored as_of_block) (ic_scored_tokens config));
  _ ← fold_m (confirm_token (tl_state loop) tracked_accounts as_of_block) tt
        (btree_set_iter (tl_indexed_tokens loop));
  head ← chain_io (block_by_number as_of_block);
  mret (mkBulkScoreSource config as_of_block (tl_state loop) tracked_accounts
    (mkBulkMetadata as_of_block (ba_hash head) (tl_indexed_transfers loop)
       (N.of_nat (size (tl_indexed_tokens loop))) (N.of_nat (size tracked_accounts))
       (tl_log_metrics loop))).

(** The projected numerator of one token, added up. *)
Definition add_numerator (as_of_block : N) (token : TokenState) (user : Address)
    (scored : ScoredToken) (numerator : N) : outcome CheckpointError N :=
  projected ← map_err core (projected_numerator (account_of token user) as_of_block
                              (st_rates scored) (st_decimals scored));
  Ok (numerator + projected).

Definition bulk_gross_score_of (self : BulkScoreSource) (user : Address) : outcome CheckpointError N :=
  _ ← bail_if (negb (bool_decide (user ∈ bs_tracked_accounts self)))
        (CpInvalid ("bulk score requested for untracked claimant " +:+ address_to_string user));
  numerator ← fold_m (fun numerator scored =>
      if negb (contributes_at scored (bs_as_of_block self)) then Ok numerator
      else
        token ← find_token (bs_state self) (st_token scored)
                  ("missing token " +:+ address_to_string (st_token scored));
        add_numerator (bs_as_of_block self) token user scored numerator)
    0 (ic_scored_tokens (bs_config self));
  Ok (gross_score numerator).
End Bulk.

(* ------------------------------------------------------------------ *)
(** ** [CheckpointScoreSource]: the file system beside the RPC *)

(** Run a computation on one half of the world. *)
Definition on_files {W E A} (m : fs_io E A) : io (FileSystem * W) E A :=
  fun '(fs, w) => let '(r, fs) := m fs in (r, (fs, w)).
Definition on_rpc {W E A} (m : io W E A) : io (FileSystem * W) E A :=
  fun '(fs, w) => let '(r, w) := m w in (r, (fs, w)).
(** A guard held by the body: an early error return drops it. *)
Definition guarded {W E A} (drop_guard : io W E unit) (body : io W E A) : io W E A :=
  fun w => match body w with
           | (Err e, w) => ((_ ← drop_guard; lift (Err e)) w)
           | r => r
           end.

Record CheckpointScoreSource := mkCheckpointScoreSource {
  css_config : IncidentConfig;
  css_as_of_block : N;
  css_state : CheckpointState;
  css_lock : string;
  css_metadata : CheckpointMetadata
}.

Section CheckpointSource.
Context `{HexCrate, AbiCodec, HmacCrate, CheckpointJson} {W : Type} `{!RpcIface W}.

(** The loop state: checkpoint, transfers and metrics. *)
Definition checkpoint_token (as_of_block max_range result_cap : N)
    (loop : CheckpointState * N * LogMetrics) (scored : ScoredToken) :
    io W CheckpointError (CheckpointState * N * LogMetrics) :=
  let '(state, indexed_transfers, log_metrics) := loop in
  _ ← lift (map_err core (validate_rates (st_rates scored)));
  token ← match cs_tokens state !! st_token scored with
          | Some stored =>
              _ ← lift (validate_stored_token stored scored);
              _ ← (if tk_cursor_block stored =? 0 then mret tt
                   else
                     current ← chain_io (block_by_number (tk_cursor_block stored));
                     lift (bail_if (negb (eq_ignore_ascii_case (ba_hash current)
                                            (tk_cursor_block_hash stored)))
                       (CpInvalid ("checkpoint block hash mismatch for " +:+
                          address_to_string (st_token scored) +:+ " at " +:+
                          to_decimal (tk_cursor_block stored) +:+ ": " +:+
                          tk_cursor_block_hash stored +:+ " != " +:+ ba_hash current))));
              mret stored
          | None => mret (mkTokenState (st_decimals scored) 0 ZERO_HASH_TEXT (st_rates scored) ∅)
          end;
  '(token, count, metrics) ← advance_token scored token as_of_block max_range result_cap None;
  mret (set_tokens (<[st_token scored := token]> (cs_tokens state)) state,
        saturating_add indexed_transfers count, merge_metrics log_metrics metrics).

Definition active_tokens (config : IncidentConfig) (as_of_block : N) : list ScoredToken :=
  List.filter (fun scored => contributes_at scored as_of_block) (ic_scored_tokens config).

(** What [open] does under the lock. *)
Definition open_locked (config : IncidentConfig) (as_of_block : N) (path : string)
    (expected_chain_id : N) (integrity_key : list byte) (max_range result_cap : N) :
    io (FileSystem * W) CheckpointError CheckpointScoreSource :=
  _ ← on_rpc (require_chain expected_chain_id);
  state ← on_files (load_checkpoint path expected_chain_id integrity_key);
  let active := active_tokens config as_of_block in
  '(state, indexed_transfers, log_metrics) ←
    on_rpc (fold_m (checkpoint_token as_of_block max_range result_cap)
              (state, 0, default_log_metrics) active);
  head ← on_rpc (chain_io (block_by_number as_of_block));
  mret (mkCheckpointScoreSource config as_of_block state (lock_path_for_checkpoint path)
    (mkCheckpointMetadata path as_of_block (ba_hash head) indexed_transfers
       (N.of_nat (length active)) log_metrics)).

(** [current_dir] is [std::env::current_dir()]. *)
Definition absolute_path (current_dir : outcome IoError string) (checkpoint_path : string) :
    outcome CheckpointError string :=
  if starts_with "/" checkpoint_path then Ok checkpoint_path
  else directory ← map_err (CpIo ".") current_dir; Ok (directory +:+ "/" +:+ checkpoint_path).

Definition short_key (integrity_key : list byte) : outcome CheckpointError unit :=
  bail_if (length integrity_key <? 32)%nat (CpInvalid "integrity key must be at least 32 bytes").

Definition checkpoint_open (current_dir : outcome IoError string) (config : IncidentConfig)
    (as_of_block : N) (checkpoint_path : string) (expected_chain_id : N)
    (integrity_key : list byte) (max_range result_cap : N) :
    io (FileSystem * W) CheckpointError CheckpointScoreSource :=
  _ ← lift (short_key integrity_key);
  path ← lift (absolute_path current_dir checkpoint_path);
  let lock_path := lock_path_for_checkpoint path in
  _ ← on_files (lock_acquire lock_path);
  guarded (on_files (lock_drop lock_path))
    (open_locked config as_of_block path expected_chain_id integrity_key max_range result_cap).

(** [commit] consumes the source, so the lock is dropped on every path. *)
Definition checkpoint_commit (self : CheckpointScoreSource) (integrity_key : list byte) :
    fs_io CheckpointError unit :=
  guarded (lock_drop (css_lock self))
    (_ ← lift (short_key integrity_key);
     _ ← save_checkpoint (cm_path (css_metadata self)) (css_state self) integrity_key;
     lock_drop (css_lock self)).

Definition checkpoint_gross_score_of (self : CheckpointScoreSource) (user : Address) :
    io W CheckpointError N :=
  numerator ← fold_m (fun numerator scored =>
      if negb (contributes_at scored (css_as_of_block self)) then mret numerator
      else
        token ← lift (find_token (css_state self) (st_token scored)
                        ("missing token " +:+ address_to_string (st_token scored)));
        let indexed := balance (account_of token user) in
        actual ← chain_io (balance_of_at (st_token scored) user (css_as_of_block self));
        _ ← lift (bail_if (negb (actual =? indexed))
              (unsupported_balance (st_token scored) user indexed actual (css_as_of_block self)));
        lift (add_numerator (css_as_of_block self) token user scored numerator))
    0 (ic_scored_tokens (css_config self));
  mret (gross_score numerator).
End CheckpointSource.
