(* ===== verification/ReplayFacts.v ===== *)
(** * Correctness of the score replay

    Against the true balance history of every followed account the replayed
    score states are the represented states of the score accumulator, so both
    score sources return the gross score of the specification.  The theorems
    are about the definitions of [Replay]. *)

From S2P Require Import Prelude Bytes Text Commit ScoreCore Rpc Abi Config Chain ChainConfig.
From S2P Require Import History Checkpoint CheckpointStore Replay.
From Stdlib Require Import Strings.Byte.

Open Scope N_scope.
Open Scope list_scope.

(* ------------------------------------------------------------------ *)
(** ** Helper lemmas: the specification and the rate history *)

Lemma closed_sum_extend h start d c new : ∀ rates,
  ascending (rates ++ new) → Forall (fun q => c < rp_from_block q) new →
  ∀ t, t ≤ c → closed_sum h start d t (rates ++ new) = closed_sum h start d t rates.
Proof.
  induction rates as [|p rates IH]; intros Hasc Hnew t Ht; cbn [app closed_sum].
  - apply closed_sum_late; [done|]. eapply Forall_impl; [exact Hnew|]. simpl. lia.
  - apply StronglySorted_inv in Hasc as [Hasc _]. rewrite IH by done. f_equal.
    destruct rates as [|q rates]; [|done]. cbn [app next_from head fmap option_fmap option_map].
    destruct new as [|n new]; [done|]. cbn. apply Forall_cons in Hnew as [Hn _].
    by rewrite (proj2 (N.leb_gt _ _)) by lia.
Qed.

Lemma open_segment_extend start c new : ∀ rates,
  Forall (fun q => c < rp_from_block q) new →
  ∀ t, t ≤ c → open_segment start t (rates ++ new) = open_segment start t rates.
Proof.
  induction rates as [|p rates IH]; intros Hnew t Ht; cbn [app open_segment].
  - apply open_segment_late. eapply Forall_impl; [exact Hnew|]. simpl. lia.
  - rewrite IH by done. destruct rates as [|q rates]; [|done].
    cbn [app next_from head fmap option_fmap option_map]. destruct new as [|n new]; [done|].
    cbn. apply Forall_cons in Hnew as [Hn _]. by rewrite (proj2 (N.ltb_lt t _)) by lia.
Qed.

(** A state up to block [c] does not see rates that begin after [c]. *)
Lemma represented_extend h start d c new rates bal t :
  ascending (rates ++ new) → Forall (fun q => c < rp_from_block q) new → t ≤ c →
  represented h start d (rates ++ new) bal t = represented h start d rates bal t.
Proof.
  intros Hasc Hnew Ht. unfold represented, open_integral.
  by rewrite (closed_sum_extend h start d c new rates), (open_segment_extend start c new rates).
Qed.

(** Rates of zero, or segments without blocks, score nothing. *)
Lemma spec_no_contribution h d t rates :
  first_contributing rates t = None → spec_numerator h 0 d t rates = 0.
Proof.
  induction rates as [|p rates IH]; cbn [first_contributing spec_numerator]; [done|].
  destruct (negb _ && _) eqn:E; [done|]. intros Hf. rewrite IH by done.
  assert (seg_end (next_from rates) t =
    N.min match head rates with Some next => rp_from_block next | None => t end t) as Hend.
  { unfold seg_end, next_from. destruct (head rates); simpl; [done|]. by rewrite N.min_id. }
  apply andb_false_iff in E as [E|E].
  - apply negb_false_iff, N.eqb_eq in E. rewrite E. lia.
  - apply N.ltb_ge in E. rewrite range_sum_empty; [rewrite scaled_integral_0; lia|].
    rewrite Hend. unfold seg_start. lia.
Qed.

(** Scoring may start at the first contributing block. *)
Lemma spec_from_contribution h d t rates start :
  ascending rates → first_contributing rates t = Some start →
  spec_numerator h start d t rates = spec_numerator h 0 d t rates.
Proof.
  intros Hasc. induction rates as [|p rates IH]; cbn [first_contributing spec_numerator]; [done|].
  pose proof Hasc as [Hs Hp]%StronglySorted_inv.
  assert (seg_end (next_from rates) t =
    N.min match head rates with Some next => rp_from_block next | None => t end t) as Hend.
  { unfold seg_end, next_from. destruct (head rates); simpl; [done|]. by rewrite N.min_id. }
  destruct (negb _ && _) eqn:E.
  - intros [= <-]. unfold seg_start. rewrite N.max_id, N.max_0_l. f_equal.
    clear IH E Hend Hasc. induction rates as [|q rates IH]; cbn [spec_numerator]; [done|].
    apply StronglySorted_inv in Hs as [Hs _]. apply Forall_cons in Hp as [Hq Hp].
    change (rp_from_block p < rp_from_block q) in Hq.
    rewrite IH by done. unfold seg_start. by rewrite N.max_0_l, N.max_r by lia.
  - intros Hf. rewrite IH by done. f_equal. apply andb_false_iff in E as [E|E].
    + apply negb_false_iff, N.eqb_eq in E. rewrite E. lia.
    + apply N.ltb_ge in E. rewrite !range_sum_empty; [done| |]; rewrite Hend; unfold seg_start; lia.
Qed.

Lemma first_contributing_bounds rates t start :
  first_contributing rates t = Some start → start < t ∧ ∃ p, p ∈ rates ∧ rp_from_block p = start.
Proof.
  induction rates as [|p rates IH]; cbn [first_contributing]; [done|].
  destruct (negb _ && _) eqn:E.
  - intros [= <-]. apply andb_prop in E as [_ E%N.ltb_lt]. split; [lia|]. exists p. split; [left|done].
  - intros (Hlt & q & Hq & Hf)%IH. split; [done|]. exists q. split; [by right|done].
Qed.

(* ------------------------------------------------------------------ *)
(** ** Helper lemmas: one account through a list of transfers *)

(** The movements of one account, in the order the replay applies them. *)
Definition transfer_movements (u : Address) (tr : TokenTransfer) : list movement :=
  (if bool_decide (tt_from tr = u) then [(tt_block_number tr, 0, tt_value tr)] else []) ++
  (if bool_decide (tt_to tr = u) then [(tt_block_number tr, tt_value tr, 0)] else []).
Definition account_movements (u : Address) (transfers : list TokenTransfer) : list movement :=
  flat_map (transfer_movements u) transfers.

(** Accounts a replay follows. *)
Definition followed (tracked : option (gset Address)) (u : Address) : Prop :=
  address_is_zero u = false ∧ untracked tracked u = false.

(** Everything of a token but its accounts. *)
Definition same_token (t t' : TokenState) : Prop :=
  tk_decimals t' = tk_decimals t ∧ tk_cursor_block t' = tk_cursor_block t ∧
  tk_cursor_block_hash t' = tk_cursor_block_hash t ∧ tk_rates t' = tk_rates t.
#[export] Instance same_token_preorder : PreOrder same_token.
Proof.
  split; [by intros t|]. intros t1 t2 t3 (?&?&?&?) (?&?&?&?). repeat split; congruence.
Qed.

Lemma replay_movements_app rates d ms1 ms2 st st1 :
  replay_movements rates d ms1 st = (Ok tt, st1) →
  replay_movements rates d (ms1 ++ ms2) st = replay_movements rates d ms2 st1.
Proof.
  unfold replay_movements. revert st. induction ms1 as [|m ms1 IH]; intros st; cbn [app fold_m].
  { by intros [_ ->]%io_ret_ok. }
  destruct m as [[b i] o]. intros ([] & st2 & H1 & H2)%io_bind_ok.
  rewrite (io_bind_eval _ _ _ _ _ H1). by apply IH.
Qed.

Section Transfers.
Context `{HexCrate} (rates : list RatePoint) (tracked : option (gset Address)).

Lemma apply_transfer_delta_ok token a block value is_inflow token' :
  apply_transfer_delta rates tracked token a block value is_inflow = Ok token' →
  same_token token token' ∧ ∀ u, followed tracked u →
    replay_movements rates (tk_decimals token)
      (if bool_decide (a = u)
       then [if is_inflow then (block, value, 0) else (block, 0, value)] else [])
      (account_of token u) = (Ok tt, account_of token' u).
Proof.
  unfold apply_transfer_delta. destruct (address_is_zero a || untracked tracked a) eqn:Ef.
  { intros <-%(inj Ok). split; [done|]. intros u [Hz Ht]. apply orb_true_iff in Ef.
    rewrite bool_decide_false; [done|]. intros ->. naive_solver congruence. }
  destruct (if is_inflow then _ else _) as [r acc] eqn:E.
  intros ([] & Hr%map_err_ok & <-%(inj Ok))%bind_ok. subst r. split; [done|].
  intros u [Hz Ht]. unfold account_of at 2. cbn [tk_accounts set_accounts].
  destruct (decide (a = u)) as [->|Hne].
  - rewrite bool_decide_true, lookup_insert_eq by done. cbn [default].
    unfold replay_movements. destruct is_inflow; cbn [fold_m];
      rewrite (io_bind_eval _ _ _ _ _ E); done.
  - by rewrite bool_decide_false, lookup_insert_ne by done.
Qed.

Lemma replay_transfer_ok token transfer token' :
  replay_transfer rates tracked token transfer = Ok token' →
  same_token token token' ∧ ∀ u, followed tracked u →
    replay_movements rates (tk_decimals token) (transfer_movements u transfer) (account_of token u)
    = (Ok tt, account_of token' u).
Proof.
  intros (t1 & [Hs1 H1]%apply_transfer_delta_ok & [Hs2 H2]%apply_transfer_delta_ok)%bind_ok.
  split; [by etrans|]. intros u Hu. unfold transfer_movements.
  rewrite (replay_movements_app _ _ _ _ _ _ (H1 u Hu)).
  destruct Hs1 as [<- _]. by apply H2.
Qed.

Lemma replay_transfers_ok transfers : ∀ token token',
  fold_m (replay_transfer rates tracked) token transfers = Ok token' →
  same_token token token' ∧ ∀ u, followed tracked u →
    replay_movements rates (tk_decimals token) (account_movements u transfers) (account_of token u)
    = (Ok tt, account_of token' u).
Proof.
  induction transfers as [|tr transfers IH]; intros token token'; cbn [fold_m].
  { intros <-%(inj Ok). split; [done|]. intros u _. reflexivity. }
  intros (t1 & [Hs1 H1]%replay_transfer_ok & [Hs2 H2]%IH)%bind_ok.
  split; [by etrans|]. intros u Hu. unfold account_movements. cbn [flat_map].
  rewrite (replay_movements_app _ _ _ _ _ _ (H1 u Hu)). destruct Hs1 as [<- _]. by apply H2.
Qed.
End Transfers.

(* ------------------------------------------------------------------ *)
(** ** Helper lemmas: the transfers of a slice *)

Fixpoint blocks_in_order (t : N) (transfers : list TokenTransfer) : Prop :=
  match transfers with
  | [] => True
  | tr :: transfers => t ≤ tt_block_number tr ∧ blocks_in_order (tt_block_number tr) transfers
  end.

Lemma in_order_weaken t t' ms : t' ≤ t → in_order t ms → in_order t' ms.
Proof. destruct ms as [|m ms]; [done|]. intros Ht [Hm Hms]. split; [lia|done]. Qed.

Lemma account_movements_order u transfers : ∀ t,
  blocks_in_order t transfers → in_order t (account_movements u transfers).
Proof.
  induction transfers as [|tr transfers IH]; intros t; [done|]. intros [Ht Hr%IH].
  unfold account_movements. cbn [flat_map].
  assert (∀ ms, in_order (tt_block_number tr) ms → in_order t (transfer_movements u tr ++ ms)) as Hgo.
  { intros ms Hms. unfold transfer_movements.
    destruct (bool_decide (tt_from tr = u)), (bool_decide (tt_to tr = u)); cbn [app in_order mv_block fst];
      [done..|by eapply in_order_weaken]. }
  by apply Hgo.
Qed.

Lemma account_movements_block u transfers m :
  m ∈ account_movements u transfers → ∃ tr, tr ∈ transfers ∧ mv_block m = tt_block_number tr.
Proof.
  intros Hm%list_elem_of_In. apply in_flat_map in Hm as (tr & Htr%list_elem_of_In & Hm%list_elem_of_In).
  exists tr. split; [done|]. unfold transfer_movements in Hm.
  apply elem_of_app in Hm as [Hm|Hm]; [destruct (bool_decide (tt_from tr = u))|destruct (bool_decide (tt_to tr = u))];
    (try by apply elem_of_nil in Hm); by apply list_elem_of_singleton in Hm as ->.
Qed.

Lemma sorted_weaken {A} (R S : relation A) l :
  (∀ x y, R x y → S x y) → StronglySorted R l → StronglySorted S l.
Proof.
  intros HRS. induction 1 as [|x l Hs IH Hx]; constructor; [done|].
  eapply Forall_impl; [exact Hx|]. auto.
Qed.

Section Slices.
Context `{HexCrate, AbiCodec} {W : Type} `{!RpcIface W, !RpcLaws}.

Lemma transfer_of_block log tr : transfer_of log = Ok tr →
  tt_block_number tr = log_block_number log ∧ tt_log_index tr = log_log_index log.
Proof. by intros (event & _ & <-%(inj Ok))%bind_ok. Qed.

Abbreviation block_le := (fun a b : TokenTransfer => tt_block_number a ≤ tt_block_number b).

Lemma sorted_blocks_in_order trs : StronglySorted block_le trs → ∀ from,
  (∀ tr, tr ∈ trs → from ≤ tt_block_number tr) → blocks_in_order from trs.
Proof.
  induction 1 as [|tr trs Hs IH Hle]; intros from Hr; [done|]. split; [apply Hr; left|].
  apply IH. by apply Forall_forall.
Qed.

Lemma transfers_in_range from to logs trs :
  (∀ log, log ∈ logs → from ≤ log_block_number log ∧ log_block_number log ≤ to) →
  mapM transfer_of logs = Ok trs →
  ∀ tr, tr ∈ trs → from ≤ tt_block_number tr ∧ tt_block_number tr ≤ to.
Proof.
  intros Hr Hm%mapM_ok. induction Hm as [|log tr' logs trs Hl Hm IH]; intros tr Htr;
    [by apply elem_of_nil in Htr|].
  apply elem_of_cons in Htr as [->|Htr]; [|apply IH; [intros; apply Hr; by right|done]].
  apply transfer_of_block in Hl as [-> _]. apply Hr. left.
Qed.

Lemma transfers_sorted logs trs :
  StronglySorted (fun a b => log_block_number a ≤ log_block_number b) logs →
  mapM transfer_of logs = Ok trs → StronglySorted block_le trs.
Proof.
  intros Hs Hm%mapM_ok. induction Hm as [|log tr logs trs Hl Hm IH]; [constructor|].
  apply StronglySorted_inv in Hs as [Hs Hle]. constructor; [by apply IH|]. clear IH Hs.
  apply transfer_of_block in Hl as [-> _]. induction Hm as [|log' tr' logs trs Hl' Hm IH]; constructor.
  - apply transfer_of_block in Hl' as [-> _]. by apply Forall_cons in Hle as [? _].
  - apply IH. by apply Forall_cons in Hle as [_ ?].
Qed.

(** The deduplicated logs are keyed by their own position, in range. *)
Definition keyed_in (from to : N) (unique : gmap (N * N) RpcLog) : Prop :=
  ∀ key log, unique !! key = Some log →
    key = (log_block_number log, log_log_index log) ∧
    from ≤ log_block_number log ∧ log_block_number log ≤ to.

Lemma insert_unique_keyed from to logs unique unique' :
  (∀ log, log ∈ logs → from ≤ log_block_number log ∧ log_block_number log ≤ to) →
  keyed_in from to unique → fold_m insert_unique unique logs = Ok unique' → keyed_in from to unique'.
Proof.
  revert unique. induction logs as [|log logs IH]; intros unique Hr Hk; cbn [fold_m].
  { by intros <-%(inj Ok). }
  intros (u1 & (? & _ & <-%(inj Ok))%bind_ok & Hf)%bind_ok. eapply IH; [| |exact Hf].
  { intros; apply Hr; by right. }
  intros key log' Hl. destruct (decide (key = (log_block_number log, log_log_index log))) as [->|Hne].
  - rewrite lookup_insert_eq in Hl. injection Hl as <-. split; [done|]. apply Hr. left.
  - rewrite lookup_insert_ne in Hl by done. by apply Hk.
Qed.

Lemma keyed_sorted from to unique : keyed_in from to unique →
  StronglySorted (fun a b => log_block_number a ≤ log_block_number b) (btree_iter unique).*2.
Proof.
  intros Hk. assert (∀ kl, kl ∈ btree_iter unique →
    kl.1 = (log_block_number kl.2, log_log_index kl.2)) as Hkey.
  { intros [key log] Hin%elem_of_btree_iter. by apply Hk in Hin as [-> _]. }
  pose proof (btree_iter_sorted unique) as Hs. clear Hk. revert Hkey.
  induction Hs as [|x l Hs IH Hx]; intros Hkey; cbn [fmap list_fmap]; constructor.
  { apply IH. intros; apply Hkey; by right. }
  apply Forall_forall. intros log (y & -> & Hy)%list_elem_of_fmap.
  rewrite Forall_forall in Hx. specialize (Hx y Hy). unfold key_lt_on in Hx.
  rewrite (Hkey x), (Hkey y) in Hx by (by left || by right).
  destruct Hx as [Hx|[Hx _]]; cbn in Hx; [by apply N.lt_le_incl|by rewrite Hx].
Qed.

Lemma slice_transfers_ok token tracked from to mr cap w trs m w' :
  to ≤ u64_max → from ≤ to → slice_transfers token tracked from to mr cap w = (Ok (trs, m), w') →
  blocks_in_order from trs ∧ ∀ tr, tr ∈ trs → from ≤ tt_block_number tr ∧ tt_block_number tr ≤ to.
Proof.
  intros Hmax Hft Hs%map_err_io_ok. destruct tracked as [accounts|].
  - unfold erc20_transfers_for_accounts in Hs. rewrite (proj2 (N.ltb_ge to from) Hft) in Hs.
    cbn [orb] in Hs. destruct (bool_decide (accounts = ∅)).
    { apply io_ret_ok in Hs as [[= <- _] _]. split; [done|]. intros tr Htr.
      by apply elem_of_nil in Htr. }
    apply io_bind_ok in Hs as ([unique mets] & w1 & Hb & (trs' & w2 & Ht & [[= <- _] _]%io_ret_ok)%io_bind_ok).
    apply lift_ok in Ht as [Ht _].
    assert (keyed_in from to unique) as Hk.
    { refine (fold_m_io_inv _ (fun _ st => keyed_in from to st.1) _ _ [] _ _ _ _ _ Hb); [|by intros ???].
      intros _ batch [un me] w3 [un' me'] w4 Hk Hstep.
      apply io_bind_ok in Hstep as ([out mo] & w5 & Ho & Hstep).
      apply io_bind_ok in Hstep as ([inc mi] & w6 & Hi & Hstep).
      apply io_bind_ok in Hstep as (u1 & w7 & [Hu1 _]%lift_ok & Hstep).
      apply io_bind_ok in Hstep as (u2 & w8 & [Hu2 _]%lift_ok & [[= <- _] _]%io_ret_ok).
      cbn [fst] in Hk |- *.
      assert (∀ log, log ∈ out → from ≤ log_block_number log ∧ log_block_number log ≤ to) as Hout
        by (intros log; by eapply (chain_logs_blocks _ from to)).
      assert (∀ log, log ∈ inc → from ≤ log_block_number log ∧ log_block_number log ≤ to) as Hinc
        by (intros log; by eapply (chain_logs_blocks _ from to)).
      eapply insert_unique_keyed; [exact Hinc| |exact Hu2].
      eapply insert_unique_keyed; [exact Hout|exact Hk|exact Hu1]. }
    assert (mapM transfer_of (btree_iter unique).*2 = Ok trs') as Hmap.
    { apply mapM_ok. apply mapM_ok in Ht. clear -Ht. induction Ht as [|[k l] t ? ? Hx _ IH]; [constructor|].
      by constructor. }
    assert (∀ tr, tr ∈ trs' → from ≤ tt_block_number tr ∧ tt_block_number tr ≤ to) as Hrange.
    { eapply transfers_in_range; [|exact Hmap].
      intros log ([key log'] & -> & Hin%elem_of_btree_iter)%list_elem_of_fmap. by apply Hk in Hin as [_ ?]. }
    split; [|exact Hrange]. apply sorted_blocks_in_order; [|intros; by apply Hrange].
    eapply transfers_sorted; [|exact Hmap]. by eapply keyed_sorted.
  - unfold erc20_transfers in Hs. rewrite (proj2 (N.ltb_ge to from) Hft) in Hs.
    apply io_bind_ok in Hs as ([logs mets] & w1 & Hl & (trs' & w2 & [Ht _]%lift_ok & [[= <- _] _]%io_ret_ok)%io_bind_ok).
    assert (∀ tr, tr ∈ sort_by_key (fun tr => (tt_block_number tr, tt_log_index tr)) trs' →
      from ≤ tt_block_number tr ∧ tt_block_number tr ≤ to) as Hrange.
    { intros tr Htr%sort_by_key_elem. revert tr Htr. eapply transfers_in_range; [|exact Ht].
      intros log. by eapply (chain_logs_blocks _ from to). }
    split; [|exact Hrange]. apply sorted_blocks_in_order; [|intros; by apply Hrange].
    eapply sorted_weaken; [|apply sort_by_key_sorted]. intros x y Hxy. cbv beta.
    apply N.le_ngt. intros Hlt. apply Hxy. left. exact Hlt.
Qed.
End Slices.

(* ------------------------------------------------------------------ *)
(** ** Helper lemmas: a token that tracks the true history *)

(** Every followed account has been accounted for exactly up to block [c]. *)
Definition tracks (tracked : option (gset Address)) (h : Address → N → N) (start : N)
    (rates : list RatePoint) (c : N) (token : TokenState) : Prop :=
  ∀ u, followed tracked u → ∃ t bal, start ≤ t ∧ t ≤ c ∧ (∀ k, t ≤ k → k ≤ c → h u k = bal) ∧
    account_of token u = represented (h u) start (tk_decimals token) rates bal t.

Lemma tracks_extend tracked h start rates new c token :
  ascending (rates ++ new) → Forall (fun q => c < rp_from_block q) new →
  tracks tracked h start rates c token ↔ tracks tracked h start (rates ++ new) c token.
Proof.
  intros Hasc Hnew. split; intros Ht u Hu; destruct (Ht u Hu) as (t & bal & Hst & Htc & Hb & He);
    exists t, bal; (do 3 (split; [done|])); rewrite He.
  - symmetry. by apply (represented_extend _ _ _ c).
  - by apply (represented_extend _ _ _ c).
Qed.

Lemma tracks_same tracked h start rates c token token' :
  tk_decimals token' = tk_decimals token → tk_accounts token' = tk_accounts token →
  tracks tracked h start rates c token → tracks tracked h start rates c token'.
Proof.
  intros Hd Ha Ht u Hu. destruct (Ht u Hu) as (t & bal & Hst & Htc & Hb & He).
  exists t, bal. do 3 (split; [done|]). unfold account_of. by rewrite Hd, Ha.
Qed.

Section Tracking.
Context `{HexCrate, AbiCodec} {W : Type} `{!RpcIface W, !RpcLaws}.
Context (tracked : option (gset Address)) (as_of max_range result_cap : N).
Hypothesis Hmax : as_of < u64_max.

(** [h u b] is the balance of [u] after block [b]: every slice of transfer logs
    moves the balances of the followed accounts along it. *)
Definition true_transfers (token : Address) (h : Address → N → N) : Prop :=
  ∀ from to w trs m w', 1 ≤ from → from ≤ to → to ≤ as_of →
    slice_transfers (W := W) token tracked from to max_range result_cap w = (Ok (trs, m), w') →
    ∀ u, followed tracked u → ∀ k, from - 1 ≤ k → k ≤ to →
      history (h u (from - 1)) (account_movements u trs) k = h u k.

Context (scored : ScoredToken) (h : Address → N → N) (start : N).
Hypothesis Hasc : ascending (st_rates scored).
Hypothesis Htrue : true_transfers (st_token scored) h.

Lemma slice_tracks from to w trs m w' token token' :
  1 ≤ from → from ≤ to → to ≤ as_of →
  tracks tracked h start (st_rates scored) (from - 1) token →
  slice_transfers (W := W) (st_token scored) tracked from to max_range result_cap w
    = (Ok (trs, m), w') →
  fold_m (replay_transfer (st_rates scored) tracked) token trs = Ok token' →
  same_token token token' ∧ tracks tracked h start (st_rates scored) to token'.
Proof.
  intros Hf1 Hft Hto Htr Hs Hrep. pose proof (Htrue _ _ _ _ _ _ Hf1 Hft Hto Hs) as Hhist.
  apply slice_transfers_ok in Hs as [Hord Hrange]; [|lia|done].
  apply replay_transfers_ok in Hrep as [Hsame Hrep]. split; [done|].
  intros u Hu. destruct (Htr u Hu) as (t & bal & Hst & Htc & Hb & He).
  specialize (Hrep u Hu). rewrite He in Hrep. set (ms := account_movements u trs) in *.
  assert (in_order from ms) as Hin by by apply account_movements_order.
  assert (∀ m, m ∈ ms → mv_block m ≤ to) as Hms.
  { intros mv (tr & Htr' & ->)%account_movements_block. by destruct (Hrange tr Htr'). }
  assert (∀ k, t ≤ k → k ≤ to → h u k = history bal ms k) as Hh.
  { intros k Hk1 Hk2. destruct (N.le_gt_cases (from - 1) k) as [Hk|Hk].
    - rewrite <-(Hhist u Hu k Hk Hk2). rewrite (Hb (from - 1)) by lia. done.
    - unfold history. rewrite (in_order_filter_nil from) by (done || lia). apply Hb; lia. }
  pose proof (replay_represented_upto (h u) start (tk_decimals token) (st_rates scored) Hasc to ms
    bal t Hst ltac:(eapply in_order_weaken; [|exact Hin]; lia) Hms) as Hrun.
  specialize (Hrun ltac:(intros k ? ?; apply Hh; lia)).
  destruct (run_balance bal ms) as [bal'|] eqn:Eb.
  - destruct Hrun as (t' & Htt & Hall & Hlast & Hrun). rewrite Hrun in Hrep. injection Hrep as Hrep.
    exists t', bal'. split; [lia|]. split; [|split].
    + destruct Hlast as [->|(mv & Hmv & <-)]; [lia|by apply Hms].
    + intros k Hk1 Hk2. rewrite Hh by lia. by apply (history_after _ _ _ t').
    + destruct Hsame as (-> & _). by rewrite Hrep.
  - destruct Hrun as (mv & st' & _ & Hrun). rewrite Hrun in Hrep. done.
Qed.

Lemma slices_track fuel : ∀ slice_from token n m w token' n' m' w',
  1 ≤ slice_from → slice_from ≤ as_of + 1 → 0 < max_range →
  tracks tracked h start (st_rates scored) (slice_from - 1) token →
  replay_slices (W := W) fuel scored as_of max_range result_cap tracked slice_from token n m w
    = (Ok (token', n', m'), w') →
  same_token token token' ∧ tracks tracked h start (st_rates scored) as_of token'.
Proof.
  induction fuel as [|fuel IH]; intros from token n m w token' n' m' w' Hf1 Hf2 Hmr Htr; cbn [replay_slices];
    destruct (N.leb_spec from as_of) as [Hle|Hgt].
  - done.
  - intros [[= <- _ _] _]%io_ret_ok. split; [done|]. by replace as_of with (from - 1) by lia.
  - intros ([trs sm] & w1 & Hs & (token1 & w2 & [Hrep ->]%lift_ok & Hrest)%io_bind_ok)%io_bind_ok.
    unfold saturating_add in *. set (to := N.min (N.min (from + (max_range - 1)) u64_max) as_of) in *.
    assert (from ≤ to ∧ to ≤ as_of) as [Hft Hta] by lia.
    destruct (slice_tracks from to w trs sm w1 token token1) as [Hsame Htr1]; [done..|].
    rewrite (N.min_l (to + 1)) in Hrest by lia.
    eapply IH in Hrest as [Hsame' Htr2]; [|lia..|].
    + split; [by etrans|done].
    + by replace (to + 1 - 1) with to by lia.
  - intros [[= <- _ _] _]%io_ret_ok. split; [done|]. by replace as_of with (from - 1) by lia.
Qed.

(** Advancing a tracked token to [as_of]. *)
Lemma advance_token_tracks token w token' n m w' :
  tracks tracked h start (st_rates scored) (tk_cursor_block token) token →
  advance_token (W := W) scored token as_of max_range result_cap tracked w
    = (Ok (token', n, m), w') →
  tk_decimals token' = tk_decimals token ∧ tk_cursor_block token' = as_of ∧
  tracks tracked h start (st_rates scored) as_of token' ∧
  (tk_cursor_block token = as_of ∧ token' = token ∨
   tk_cursor_block token < as_of ∧ tk_rates token' = st_rates scored).
Proof.
  intros Htr (? & w1 & [Hlt%bail_if_ok%N.ltb_ge ->]%lift_ok & Hadv)%io_bind_ok.
  destruct (N.eqb_spec as_of (tk_cursor_block token)) as [E|Hne].
  - apply io_ret_ok in Hadv as [[= <- _ _] _]. rewrite E. do 3 (split; [done|]). by left.
  - apply io_bind_ok in Hadv as (? & w2 & [Hmr%bail_if_ok%N.eqb_neq ->]%lift_ok & Hadv).
    apply io_bind_ok in Hadv as ([[tok1 n1] m1] & w3 & Hs & Hadv).
    apply io_bind_ok in Hadv as (blk & w4 & _ & [[= <- _ _] _]%io_ret_ok).
    rewrite u64_add_small in Hs by (unfold u64_max, u64_modulus in *; lia).
    apply slices_track in Hs as [(Hd & _) Htr1]; [|lia..|by replace (tk_cursor_block token + 1 - 1)
      with (tk_cursor_block token) by lia].
    split; [exact Hd|]. split; [done|]. split; [by eapply tracks_same; [..|exact Htr1]|].
    right. split; [lia|done].
Qed.
End Tracking.

(** A tracked account projects to the specified numerator. *)
Lemma tracked_numerator `{HexCrate} tracked h start as_of token scored u numerator :
  ascending (st_rates scored) → tk_decimals token = st_decimals scored →
  tracks tracked h start (st_rates scored) as_of token → followed tracked u →
  add_numerator as_of token u scored numerator =
    Ok (numerator + spec_numerator (h u) start (st_decimals scored) as_of (st_rates scored)).
Proof.
  intros Hasc Hd Htr Hu. destruct (Htr u Hu) as (t & bal & Hst & Htc & Hb & He).
  unfold add_numerator. rewrite He, <-Hd.
  rewrite projected_represented; [done|done|done|done|]. intros k Hk1 Hk2. apply Hb; lia.
Qed.

(* ------------------------------------------------------------------ *)
(** ** Helper lemmas: the bulk source *)

Lemma fold_accounts_read `{HexCrate, AbiCodec} {W} `{!RpcIface W} token start us : ∀ acc w acc' w',
  fold_m (M := io W CheckpointError) (read_initial_account token start) acc us w = (Ok acc', w') →
  ∀ u, acc' !! u = acc !! u ∨ u ∈ us ∧ ∃ b w1 w2,
    balance_of_at (W := W) token u start w1 = (Ok b, w2) ∧
    acc' !! u = Some (mkAccountScoreState b start 0 None 0).
Proof.
  induction us as [|x us IH]; intros acc w acc' w'; cbn [fold_m].
  { intros [<- _]%io_ret_ok u. by left. }
  intros (acc1 & w1 & (b & w2 & Hb%map_err_io_ok & [<- _]%io_ret_ok)%io_bind_ok & Hf)%io_bind_ok u.
  destruct (IH _ _ _ _ Hf u) as [->|(Hu & He)].
  - destruct (decide (x = u)) as [->|Hne].
    + rewrite lookup_insert_eq. right. split; [left|]. by exists b, w, w2.
    + rewrite lookup_insert_ne by done. by left.
  - right. split; [by right|done].
Qed.

Lemma fold_accounts_all `{HexCrate, AbiCodec} {W} `{!RpcIface W} token start us : ∀ acc w acc' w',
  fold_m (M := io W CheckpointError) (read_initial_account token start) acc us w = (Ok acc', w') →
  ∀ u, u ∈ us ∨ is_Some (acc !! u) → is_Some (acc' !! u).
Proof.
  induction us as [|x us IH]; intros acc w acc' w'; cbn [fold_m].
  { intros [<- _]%io_ret_ok u [Hu|Hu]; [by apply elem_of_nil in Hu|done]. }
  intros (acc1 & w1 & (b & w2 & _ & [<- _]%io_ret_ok)%io_bind_ok & Hf)%io_bind_ok u Hu.
  eapply IH; [exact Hf|]. destruct (decide (x = u)) as [->|Hne].
  - right. rewrite lookup_insert_eq. by eexists.
  - rewrite lookup_insert_ne by done. destruct Hu as [Hu|Hu]; [|by right].
    apply elem_of_cons in Hu as [->|Hu]; [done|by left].
Qed.

Section BulkFacts.
Context `{HexCrate, AbiCodec} {W : Type} `{!RpcIface W, !RpcLaws}.
Context (as_of max_range result_cap : N) (users : gset Address) (h : Address → Address → N → N).
Hypothesis Hmax : as_of < u64_max.

(** The chain tells the truth about a token: balances and transfer logs. *)
Definition true_token (tracked : option (gset Address)) (token : Address) : Prop :=
  (∀ u b w v w', followed tracked u → b ≤ as_of →
     balance_of_at (W := W) token u b w = (Ok v, w') → v = h token u b) ∧
  true_transfers (W := W) tracked as_of max_range result_cap token (h token).

(** What the token loop keeps of every token of the state. *)
Definition bulk_token_ok (token_address : Address) (token : TokenState) : Prop :=
  ascending (tk_rates token) ∧ ∃ start, first_contributing (tk_rates token) as_of = Some start ∧
    tracks (Some users) (h token_address) start (tk_rates token) as_of token.
Definition bulk_loop_ok (pre : list ScoredToken) (loop : TokenLoop) : Prop :=
  let tokens := cs_tokens (tl_state loop) in
  map_Forall bulk_token_ok tokens ∧
  (∀ a, is_Some (tokens !! a) → a ∈ tl_indexed_tokens loop) ∧
  ∀ scored, scored ∈ pre → ∃ token, tokens !! st_token scored = Some token ∧
    tk_decimals token = st_decimals scored ∧ tk_rates token = st_rates scored.

Lemma bulk_token_step pre loop scored w loop' w' :
  true_token (Some users) (st_token scored) → bulk_loop_ok pre loop →
  bulk_token (W := W) as_of users max_range result_cap loop scored w = (Ok loop', w') →
  bulk_loop_ok (pre ++ [scored]) loop'.
Proof.
  intros [Hbal Htrue] (Hall & Hdom & Hpre) Hstep. unfold bulk_token in Hstep. cbn zeta in Hstep.
  apply io_bind_ok in Hstep as ([] & w1 & [Hv%map_err_ok%validate_rates_ascending ->]%lift_ok & Hstep).
  destruct (bool_decide (st_token scored ∈ tl_indexed_tokens loop)) eqn:Ed.
  - apply io_bind_ok in Hstep as (tok & w2 & [Hf%ok_or_ok ->]%lift_ok & Hstep).
    apply io_bind_ok in Hstep as (? & w3 & [Hc%bail_if_ok ->]%lift_ok & [<- _]%io_ret_ok).
    apply orb_false_iff in Hc as [Hd%negb_false_iff%N.eqb_eq Hr%negb_false_iff].
    apply bool_decide_eq_true in Hr. split; [done|]. split; [done|].
    intros s [Hs|Hs]%elem_of_app; [by apply Hpre|]. apply list_elem_of_singleton in Hs as ->.
    by exists tok.
  - apply bool_decide_eq_false in Ed.
    apply io_bind_ok in Hstep as (start & w2 & [Hstart%ok_or_ok ->]%lift_ok & Hstep).
    apply io_bind_ok in Hstep as (accounts & w3 & Hacc & Hstep).
    apply io_bind_ok in Hstep as ([[tok n] m] & w4 & Hadv & [<- _]%io_ret_ok).
    destruct (first_contributing_bounds _ _ _ Hstart) as [Hlt _].
    apply (advance_token_tracks (Some users) as_of max_range result_cap Hmax scored
      (h (st_token scored)) start Hv Htrue) in Hadv as (Hd & Hc & Htr & [[E _]|[_ Hr]]).
    1:{ cbn in E. lia. }
    1:{ unfold bulk_loop_ok. cbn [tl_state tl_indexed_tokens cs_tokens set_tokens].
        split; [|split].
        - apply map_Forall_insert_2; [|done]. unfold bulk_token_ok. rewrite Hr.
          split; [done|]. exists start. by split.
        - intros a. destruct (decide (a = st_token scored)) as [->|Hne]; [set_solver|].
          rewrite lookup_insert_ne by done. intros Ha%Hdom. set_solver.
        - intros s [Hs|Hs]%elem_of_app.
          + destruct (Hpre s Hs) as (tok' & Ht & ?). exists tok'.
            rewrite lookup_insert_ne; [done|]. intros E. apply Ed, Hdom. rewrite E. by eexists.
          + apply list_elem_of_singleton in Hs as ->. exists tok. rewrite lookup_insert_eq.
            split; [done|]. by split; [rewrite Hd|]. }
    cbn [tk_cursor_block]. intros u Hu. exists start, (h (st_token scored) u start).
    split; [done|]. split; [done|]. split; [intros k ? ?; f_equal; lia|].
    rewrite initial_represented. unfold account_of. cbn [tk_accounts].
    assert (u ∈ btree_set_iter users) as Hin.
    { apply elem_of_btree_set_iter. destruct Hu as [_ Hu%negb_false_iff]. by apply bool_decide_eq_true in Hu. }
    destruct (fold_accounts_all _ _ _ _ _ _ _ Hacc u (or_introl Hin)) as [a Ha].
    destruct (fold_accounts_read _ _ _ _ _ _ _ Hacc u) as [He|(_ & b & w5 & w6 & Hb & ->)].
    { rewrite lookup_empty in He. congruence. }
    cbn [default]. apply Hbal in Hb as ->; [done|done|lia].
Qed.
End BulkFacts.

(** The numerator sum both sources and the one-shot query compute. *)
Definition specified_numerator (h : Address → Address → N → N) (as_of : N) (user : Address)
    (tokens : list ScoredToken) : N :=
  sum_N (map (fun t => spec_numerator (h (st_token t) user) 0 (st_decimals t) as_of (st_rates t)) tokens).

(** A loop that adds each contributing token's numerator computes that sum. *)
Lemma numerator_fold (h : Address → Address → N → N) as_of user tokens
    (step : N → ScoredToken → outcome CheckpointError N) :
  (∀ scored numerator, scored ∈ tokens → contributes_at scored as_of = true →
     step numerator scored = Ok (numerator +
       spec_numerator (h (st_token scored) user) 0 (st_decimals scored) as_of (st_rates scored))) →
  ∀ numerator, fold_m (fun numerator scored =>
    if negb (contributes_at scored as_of) then Ok numerator else step numerator scored) numerator tokens
  = Ok (numerator + specified_numerator h as_of user tokens).
Proof.
  unfold specified_numerator.
  induction tokens as [|t tokens IH]; intros Hstep numerator; cbn [fold_m map sum_N foldr].
  { unfold mret, outcome_ret. f_equal. lia. }
  fold (sum_N (map (fun t => spec_numerator (h (st_token t) user) 0 (st_decimals t) as_of
    (st_rates t)) tokens)).
  assert ((if negb (contributes_at t as_of) then Ok numerator else step numerator t)
    = Ok (numerator + spec_numerator (h (st_token t) user) 0 (st_decimals t) as_of (st_rates t))) as ->.
  { destruct (contributes_at t as_of) eqn:E; cbn [negb]; [by apply Hstep; [left|]|].
    rewrite spec_no_contribution; [by rewrite N.add_0_r|].
    unfold contributes_at, first_contributing_block in E. apply bool_decide_eq_false in E.
    by apply eq_None_not_Some. }
  cbn [mbind outcome_bind]. rewrite IH by (intros; apply Hstep; [by right|done]).
  f_equal. lia.
Qed.

Lemma no_zero_user users u :
  existsb address_is_zero (btree_set_iter users) = false → u ∈ users → followed (Some users) u.
Proof.
  intros Hz Hu. split.
  - apply not_true_iff_false. intros E. apply not_true_iff_false in Hz. apply Hz, existsb_exists.
    exists u. split; [|done]. by apply list_elem_of_In, elem_of_btree_set_iter.
  - cbn. by rewrite bool_decide_true.
Qed.

Lemma contributing_start scored as_of : contributes_at scored as_of = true →
  ∃ start, first_contributing_block scored as_of = Some start.
Proof. intros Hc%bool_decide_eq_true. destruct Hc as [s Hs]. by exists s. Qed.

Section ReplayTheorems.
Context `{HexCrate, AbiCodec} {W : Type} `{!RpcIface W, !RpcLaws}.

(** Bulk scores are the specified scores: when balances and transfer logs of
    the contributing tokens follow a true balance history, a bulk source that
    opens gives every tracked account exactly the gross score of the
    block-weighted numerators of that history, the quantity the direct query
    [earned_score_of] computes too; no error is possible after opening. *)
Theorem bulk_score_correct (config : IncidentConfig) (as_of : N) (users : gset Address)
    (chain max_range result_cap : N) (h : Address → Address → N → N) (w w' : W)
    (source : BulkScoreSource) (user : Address) :
  as_of < u64_max →
  (∀ scored, scored ∈ ic_scored_tokens config → contributes_at scored as_of = true →
     true_token (W := W) as_of max_range result_cap h (Some users) (st_token scored)) →
  bulk_open (W := W) config as_of users chain max_range result_cap w = (Ok source, w') →
  user ∈ users →
  bulk_gross_score_of source user =
    Ok (gross_score (specified_numerator h as_of user (ic_scored_tokens config))).
Proof.
  intros Hmax Htrue Hopen Hu. unfold bulk_open in Hopen.
  apply io_bind_ok in Hopen as (? & w1 & [Hz%bail_if_ok ->]%lift_ok & Hopen).
  apply io_bind_ok in Hopen as (? & w2 & _ & Hopen). apply io_bind_ok in Hopen as (loop & w3 & Hloop & Hopen).
  apply io_bind_ok in Hopen as (? & w4 & _ & Hopen). apply io_bind_ok in Hopen as (blk & w5 & _ & Hopen).
  apply io_ret_ok in Hopen as [<- _].
  set (active := List.filter _ _) in Hloop.
  assert (∀ s, s ∈ active ↔ s ∈ ic_scored_tokens config ∧ contributes_at s as_of = true) as Hactive.
  { intros s. unfold active. by rewrite !list_elem_of_In, filter_In. }
  assert (bulk_loop_ok as_of users h active loop) as (Hall & _ & Hpre).
  { eapply (fold_m_io_inv_in _ (bulk_loop_ok as_of users h) active); [|..|exact Hloop].
    - intros pre s st w6 st' w7 Hin Hst Hs. eapply bulk_token_step; [exact Hmax| |exact Hst|exact Hs].
      apply Htrue; by apply Hactive.
    - split; [apply map_Forall_empty|]. split; [intros a [? Ha]; cbn in Ha; by rewrite lookup_empty in Ha|].
      intros s Hs. by apply elem_of_nil in Hs. }
  unfold bulk_gross_score_of. cbn [bs_tracked_accounts bs_as_of_block bs_state bs_config].
  rewrite bool_decide_true by done. cbn [negb bail_if mbind outcome_bind].
  rewrite (numerator_fold h as_of user); [done|]. intros scored numerator Hin Hc.
  destruct (Hpre scored) as (tok & Ht & Hd & Hr); [by apply Hactive|].
  unfold find_token. rewrite Ht. cbn [ok_or mbind outcome_bind].
  destruct (Hall _ _ Ht) as (Hasc & start & Hstart & Htr). rewrite Hr in Hasc, Hstart, Htr.
  rewrite (tracked_numerator (Some users) (h (st_token scored)) start) by
    (try done; by eapply no_zero_user). by rewrite (spec_from_contribution _ _ _ _ _ Hasc Hstart).
Qed.
End ReplayTheorems.

(* ------------------------------------------------------------------ *)
(** ** Helper lemmas: well-formed states are kept *)

Definition segment_ok (rates : list RatePoint) (a : AccountState) : Prop :=
  match active_segment_from a with
  | Some from_block => ∃ r, r ∈ rates ∧ rp_from_block r = from_block
  | None => active_integral a = 0
  end.

Lemma account_wf_segment c rates a : account_wf c rates a ↔ last_block a ≤ c ∧ segment_ok rates a.
Proof. done. Qed.

Lemma finalize_segment rates rates' d st r st' :
  segment_ok rates st → finalize_active rates' d st = (r, st') →
  segment_ok rates st' ∧ last_block st' = last_block st ∧ (r = Ok tt → active_segment_from st' = None).
Proof.
  unfold finalize_active, mbind, io_bind, get_state, mret, io_ret. intros Hs.
  destruct (active_segment_from st) as [f|] eqn:E.
  - unfold lift, put_state. destruct (rate_for rates' f) as [v|e|s]; intros [= <- <-]; [|done|done].
    cbn. done.
  - intros [= <- <-]. done.
Qed.

Lemma advance_segment_segment rates d to index p st r st' :
  p ∈ rates → segment_ok rates st → advance_segment rates d to index p st = (r, st') →
  segment_ok rates st' ∧ last_block st' = last_block st.
Proof.
  intros Hp Hs. unfold advance_segment. unfold mbind at 1, io_bind at 1, get_state at 1.
  destruct (_ <=? N.max _ _); [by intros [= <- <-]|].
  unfold mbind at 1, io_bind at 1.
  destruct ((if decide (active_segment_from st = Some (rp_from_block p)) then mret tt
    else _ ← finalize_active rates d; modify_state (set_active (Some (rp_from_block p)) 0)) st)
    as [r1 st1] eqn:E1.
  assert (segment_ok rates st1 ∧ last_block st1 = last_block st ∧
    (r1 = Ok tt → active_segment_from st1 = Some (rp_from_block p))) as (Hs1 & Hl1 & Ha1).
  { destruct (decide (active_segment_from st = Some (rp_from_block p))) as [Ea|_].
    - by injection E1 as <- <-.
    - unfold mbind, io_bind in E1. destruct (finalize_active rates d st) as [rf stf] eqn:Ef.
      apply (finalize_segment rates) in Ef as (Hsf & Hlf & _); [|done].
      destruct rf; injection E1 as <- <-; [|done|done].
      split; [by exists p|]. split; [exact Hlf|done]. }
  destruct r1 as [[]|e|s]; [|by intros [= <- <-]|by intros [= <- <-]].
  specialize (Ha1 eq_refl). unfold mbind, io_bind, get_state, put_state. set (st2 := set_active _ _ st1).
  assert (segment_ok rates st2 ∧ last_block st2 = last_block st) as [Hs2 Hl2].
  { split; [|exact Hl1]. unfold segment_ok, st2. cbn. rewrite Ha1. by exists p. }
  destruct (match rp_from_block <$> rates !! S index with Some next => _ | None => false end).
  - intros (Hs3 & Hl3 & _)%(finalize_segment rates); [|done]. split; [done|congruence].
  - by intros [= <- <-].
Qed.

Lemma advance_loop_segment rates d to l : ∀ i st r st',
  (∀ p, p ∈ l → p ∈ rates) → segment_ok rates st →
  fold_im_from i (fun index (_ : unit) point => advance_segment rates d to index point) tt l st
    = (r, st') → segment_ok rates st' ∧ last_block st' = last_block st.
Proof.
  induction l as [|p l IH]; intros i st r st' Hl Hs; cbn [fold_im_from].
  { by intros [= <- <-]. }
  unfold mbind, io_bind. destruct (advance_segment rates d to i p st) as [r1 st1] eqn:E1.
  apply advance_segment_segment in E1 as [Hs1 Hl1]; [|by apply Hl; left|done].
  destruct r1 as [[]|e|s]; [|by intros [= <- <-]|by intros [= <- <-]].
  intros [Hs2 Hl2]%IH; [|intros; apply Hl; by right|done]. split; [done|congruence].
Qed.

(** Whatever the chain says, a movement keeps a state well formed. *)
Lemma apply_transfer_segment b i o rates d st st' :
  segment_ok rates st → apply_transfer b i o rates d st = (Ok tt, st') →
  segment_ok rates st' ∧ last_block st' = b.
Proof.
  intros Hs Ha. unfold apply_transfer in Ha. apply io_bind_ok in Ha as ([] & st1 & Hadv & Ha).
  assert (segment_ok rates st1 ∧ last_block st1 = b) as [Hs1 Hl1].
  { unfold advance_account in Hadv. apply io_bind_ok in Hadv as (? & st2 & [_ ->]%lift_ok & Hadv).
    apply io_bind_ok in Hadv as (st3 & st4 & Hg & Hadv). injection Hg as <- <-.
    destruct (b <? last_block st); [done|].
    destruct (N.eqb_spec b (last_block st)) as [->|Hne].
    - by apply io_ret_ok in Hadv as [_ <-].
    - apply io_bind_ok in Hadv as ([] & st2 & Hloop & Hm). injection Hm as <-.
      by apply advance_loop_segment in Hloop as [Hs2 _]. }
  apply io_bind_ok in Ha as (st2 & st3 & Hg & Ha). injection Hg as <- <-.
  destruct (o <=? i); [by injection Ha as <-|].
  destruct (balance st1 <? o - i); [done|]. by injection Ha as <-.
Qed.

Definition accounts_wf (c : N) (rates : list RatePoint) (token : TokenState) : Prop :=
  map_Forall (fun _ => account_wf c rates) (tk_accounts token).

Lemma replay_transfer_wf `{HexCrate} c rates tracked token tr token' :
  tt_block_number tr ≤ c → accounts_wf c rates token →
  replay_transfer rates tracked token tr = Ok token' → accounts_wf c rates token'.
Proof.
  intros Hb Hwf.
  assert (∀ token a v is_inflow token', accounts_wf c rates token →
    apply_transfer_delta rates tracked token a (tt_block_number tr) v is_inflow = Ok token' →
    accounts_wf c rates token') as Hstep.
  { clear -Hb. intros token a v is_inflow token' Hwf. unfold apply_transfer_delta.
    destruct (_ || _); [by intros <-%(inj Ok)|].
    destruct (if is_inflow then _ else _) as [r acc] eqn:E.
    intros ([] & Hr%map_err_ok & <-%(inj Ok))%bind_ok. subst r.
    apply map_Forall_insert_2; [|exact Hwf]. apply account_wf_segment.
    assert (segment_ok rates (account_of token a)) as Hs.
    { unfold account_of. destruct (tk_accounts token !! a) as [st|] eqn:Ea; [|done].
      by apply Hwf, account_wf_segment in Ea as [_ Hs]. }
    destruct is_inflow; by apply apply_transfer_segment in E as [Hs' ->]. }
  intros (t1 & H1 & H2)%bind_ok. eapply Hstep; [|exact H2]. by eapply Hstep.
Qed.

Lemma accounts_wf_mono c c' rates rates' token :
  c ≤ c' → (∀ r, r ∈ rates → r ∈ rates') → accounts_wf c rates token → accounts_wf c' rates' token.
Proof.
  intros Hc Hr Hwf u a [Hl Hs]%Hwf. split; [lia|]. destruct (active_segment_from a); [|done].
  destruct Hs as (r & Hin & He). exists r. auto.
Qed.

Section WellFormed.
Context `{HexLaws, AbiCodec} {W : Type} `{!RpcIface W, !RpcLaws}.
Context (as_of max_range result_cap : N).
Hypothesis Hmax : as_of < u64_max.

Lemma block_hash_text v h : block_hash v = Ok h → hash_text_wf h.
Proof.
  unfold block_hash. intros (hash & Hk%ok_or_ok & <-%(inj Ok))%bind_ok.
  destruct (as_str v) as [s|]; [|done]. cbn [mbind option_bind] in Hk.
  destruct (strip_prefix "0x" s) as [d|]; [|done]. cbn [mbind option_bind] in Hk.
  destruct ((str_len d =? 64) && _) eqn:E; [|done]. injection Hk as <-.
  apply andb_prop in E as [El%N.eqb_eq Ed%bool_decide_eq_true]. destruct Ed as [l Ed].
  unfold hash_text_wf, valid_hash. rewrite str_len_app, str_len_lowercase, El, strip_prefix_app.
  rewrite str_all_hexdigit_lowercase, (hex_decode_digits _ _ Ed).
  split; [done|]. by rewrite to_ascii_lowercase_app, to_ascii_lowercase_idem.
Qed.

Lemma block_by_number_hash n w b w' : block_by_number (W := W) n w = (Ok b, w') → hash_text_wf (ba_hash b).
Proof.
  unfold block_by_number, block. intros Hb. inv_all_ok. cbn [ba_hash]. by eapply block_hash_text.
Qed.

Lemma slices_wf fuel scored : ∀ slice_from token n m w token' n' m' w',
  slice_from ≤ as_of + 1 → 0 < max_range → accounts_wf as_of (st_rates scored) token →
  replay_slices (W := W) fuel scored as_of max_range result_cap None slice_from token n m w
    = (Ok (token', n', m'), w') → accounts_wf as_of (st_rates scored) token'.
Proof.
  induction fuel as [|fuel IH]; intros from token n m w token' n' m' w' Hf Hmr Hwf; cbn [replay_slices];
    destruct (N.leb_spec from as_of) as [Hle|Hgt]; [done|by intros [[= <- _ _] _]%io_ret_ok| |
      by intros [[= <- _ _] _]%io_ret_ok].
  intros ([trs sm] & w1 & Hs & (token1 & w2 & [Hrep ->]%lift_ok & Hrest)%io_bind_ok)%io_bind_ok.
  unfold saturating_add in Hs, Hrest. set (to := N.min (N.min (from + (max_range - 1)) u64_max) as_of) in *.
  apply slice_transfers_ok in Hs as [_ Hrange]; [|lia..].
  eapply IH; [| | |exact Hrest]; [lia|done|].
  refine (fold_m_inv_in _ (fun _ tok => accounts_wf as_of (st_rates scored) tok) trs _ _ _ Hwf Hrep).
  intros _ tr tok tok' Hin Ht. apply replay_transfer_wf; [|done]. destruct (Hrange tr Hin). lia.
Qed.

Definition rates_u64 (scored : ScoredToken) : Prop :=
  ∀ r, r ∈ st_rates scored → rp_from_block r ≤ u64_max.

Lemma advance_token_wf scored token w token' n m w' :
  rates_u64 scored → ascending (st_rates scored) →
  token_wf token → accounts_wf (tk_cursor_block token) (st_rates scored) token →
  advance_token (W := W) scored token as_of max_range result_cap None w = (Ok (token', n, m), w') →
  token_wf token'.
Proof.
  intros Hru Hasc Hwf Hacc (? & w1 & [Hlt%bail_if_ok%N.ltb_ge ->]%lift_ok & Hadv)%io_bind_ok.
  destruct (N.eqb_spec as_of (tk_cursor_block token)) as [E|Hne].
  { by apply io_ret_ok in Hadv as [[= <- _ _] _]. }
  apply io_bind_ok in Hadv as (? & w2 & [Hmr%bail_if_ok%N.eqb_neq ->]%lift_ok & Hadv).
  apply io_bind_ok in Hadv as ([[tok1 n1] m1] & w3 & Hs & Hadv).
  apply io_bind_ok in Hadv as (blk & w4 & Hb%map_err_io_ok & [[= <- _ _] _]%io_ret_ok).
  rewrite u64_add_small in Hs by (unfold u64_max, u64_modulus in *; lia).
  apply slices_wf in Hs; [|lia..|by eapply accounts_wf_mono; [..|exact Hacc]].
  apply block_by_number_hash in Hb. split; [cbn; lia|]. split; [exact Hb|]. cbn [tk_cursor_block].
  split; [lia|]. split; [exact Hru|]. split; [exact Hasc|]. exact Hs.
Qed.

Lemma validate_stored_token_ok stored scored :
  validate_stored_token stored scored = Ok tt →
  tk_decimals stored = st_decimals scored ∧
  ∃ new, st_rates scored = tk_rates stored ++ new ∧
    Forall (fun q => tk_cursor_block stored < rp_from_block q) new.
Proof.
  unfold validate_stored_token. cbn zeta. intros (? & Hd%bail_if_ok%negb_false_iff%N.eqb_eq & Hv)%bind_ok.
  apply bind_ok in Hv as (? & Hlen%bail_if_ok & Hv). apply bind_ok in Hv as ([] & Hpre & Hv).
  apply bail_if_ok in Hv. split; [done|]. exists (drop (length (tk_rates stored)) (st_rates scored)).
  assert (∀ l i, fold_im_from (M := outcome CheckpointError) i (fun index (_ : unit) old =>
    bail_if (negb (bool_decide (st_rates scored !! index = Some old)))
      (CpInvalid ("rate history mismatch for " +:+ address_to_string (st_token scored) +:+
        " at index " +:+ to_decimal (N.of_nat index)))) tt l = Ok tt →
    ∀ j old, l !! j = Some old → st_rates scored !! (i + j)%nat = Some old) as Hgo.
  { clear Hpre. induction l as [|y l IH]; intros i; cbn [fold_im_from]; [done|].
    intros ([] & Hb%bail_if_ok%negb_false_iff%bool_decide_eq_true & Hf)%bind_ok [|j] old; cbn.
    - intros [= <-]. by rewrite Nat.add_0_r.
    - intros Hj. apply (IH _ Hf) in Hj. by rewrite <-Hj, Nat.add_succ_r. }
  specialize (Hgo _ _ Hpre). apply Nat.ltb_ge in Hlen. split.
  - assert (tk_rates stored = take (length (tk_rates stored)) (st_rates scored)) as Ht.
    { apply list_eq. intros j. destruct (tk_rates stored !! j) as [old|] eqn:E.
      - rewrite lookup_take_lt by (by eapply lookup_lt_Some). symmetry. by apply (Hgo j).
      - symmetry. apply lookup_take_ge. by apply lookup_ge_None. }
    rewrite Ht at 1. by rewrite take_drop.
  - apply Forall_forall. intros q Hq. apply N.lt_nge. intros Hle.
    rewrite <-not_true_iff_false in Hv. apply Hv, existsb_exists. exists q.
    split; [by apply list_elem_of_In|by apply N.leb_le].
Qed.
End WellFormed.

(* ------------------------------------------------------------------ *)
(** ** Helper lemmas: the checkpoint source *)

(** Every stored token tracks the true history up to its own cursor. *)
Definition state_tracks (h : Address → Address → N → N) (st : CheckpointState) : Prop :=
  map_Forall (fun a token => ascending (tk_rates token) ∧
    tracks None (h a) 0 (tk_rates token) (tk_cursor_block token) token) (cs_tokens st).

Section CheckpointLoop.
Context `{HexLaws, AbiCodec} {W : Type} `{!RpcIface W, !RpcLaws}.
Context (as_of max_range result_cap : N) (h : Address → Address → N → N).
Hypothesis Hmax : as_of < u64_max.

(** A scored token whose stored state is complete at [as_of]. *)
Definition completed (st : CheckpointState) (scored : ScoredToken) : Prop :=
  ∃ token, cs_tokens st !! st_token scored = Some token ∧ tk_cursor_block token = as_of ∧
    tk_decimals token = st_decimals scored ∧ ascending (st_rates scored) ∧
    tracks None (h (st_token scored)) 0 (st_rates scored) as_of token.
Definition checkpoint_loop_ok (pre : list ScoredToken) (st : CheckpointState) : Prop :=
  state_tracks h st ∧ ∀ scored, scored ∈ pre → completed st scored.

(** The token that is advanced: validated, or new. *)
Lemma checkpoint_token_start st n m scored w st' n' m' w' :
  checkpoint_token (W := W) as_of max_range result_cap (st, n, m) scored w
    = (Ok (st', n', m'), w') →
  ascending (st_rates scored) ∧ ∃ token token' c mets w1,
    (cs_tokens st !! st_token scored = Some token ∧
       validate_stored_token token scored = Ok tt ∨
     cs_tokens st !! st_token scored = None ∧
       token = mkTokenState (st_decimals scored) 0 ZERO_HASH_TEXT (st_rates scored) ∅) ∧
    advance_token scored token as_of max_range result_cap None w1 = (Ok (token', c, mets), w') ∧
    st' = set_tokens (<[st_token scored := token']> (cs_tokens st)) st.
Proof.
  unfold checkpoint_token.
  intros ([] & w1 & [Hv%map_err_ok%validate_rates_ascending ->]%lift_ok & Hstep)%io_bind_ok.
  split; [exact Hv|]. apply io_bind_ok in Hstep as (token & w2 & Htok & Hstep).
  apply io_bind_ok in Hstep as ([[token' c] mets] & w3 & Hadv & [[= <- _ _] ->]%io_ret_ok).
  exists token, token', c, mets, w2. split; [|by split].
  destruct (cs_tokens st !! st_token scored) as [stored|].
  - left. apply io_bind_ok in Htok as ([] & w4 & [Hval ->]%lift_ok & Htok).
    apply io_bind_ok in Htok as (? & w5 & _ & [-> _]%io_ret_ok). by split.
  - right. by apply io_ret_ok in Htok as [<- _].
Qed.

Lemma checkpoint_token_step pre st n m scored w st' n' m' w' :
  true_transfers (W := W) None as_of max_range result_cap (st_token scored) (h (st_token scored)) →
  (∀ u, h (st_token scored) u 0 = 0) →
  checkpoint_loop_ok pre st →
  checkpoint_token (W := W) as_of max_range result_cap (st, n, m) scored w
    = (Ok (st', n', m'), w') →
  checkpoint_loop_ok (pre ++ [scored]) st'.
Proof.
  intros Htrue Hzero [Hall Hpre] Hstep.
  apply checkpoint_token_start in Hstep as (Hasc & token & token' & c & mets & w1 & Hstart & Hadv & ->).
  assert (tk_decimals token = st_decimals scored ∧
    tracks None (h (st_token scored)) 0 (st_rates scored) (tk_cursor_block token) token ∧
    ascending (tk_rates token) ∧
    tracks None (h (st_token scored)) 0 (tk_rates token) (tk_cursor_block token) token)
    as (Hd & Htr & Ha & Hold).
  { destruct Hstart as [[Hl (Hd & new & Hr & Hnew)%validate_stored_token_ok]|[_ ->]].
    - destruct (Hall _ _ Hl) as [Ha Ht]. split; [done|]. split; [|by split].
      rewrite Hr in Hasc |- *. by apply tracks_extend.
    - assert (tracks None (h (st_token scored)) 0 (st_rates scored) 0
        (mkTokenState (st_decimals scored) 0 ZERO_HASH_TEXT (st_rates scored) ∅)) as Ht; [|done].
      intros u _. exists 0, 0. split; [done|]. split; [done|]. split.
      { intros k _ Hk. assert (k = 0) as -> by lia. apply Hzero. }
      by rewrite initial_represented. }
  apply (advance_token_tracks None as_of max_range result_cap Hmax scored (h (st_token scored)) 0
    Hasc Htrue _ _ _ _ _ _ Htr) in Hadv as (Hd' & Hc & Htr' & Hcase).
  split.
  - apply map_Forall_insert_2; [|done]. destruct Hcase as [[Hc0 ->]|[_ ->]]; [done|].
    split; [done|]. by rewrite Hc.
  - intros s [Hs|Hs]%elem_of_app.
    + destruct (Hpre s Hs) as (tok & Hl & Htc & Htd & Hsa & Hst). unfold completed. cbn [cs_tokens set_tokens].
      destruct (decide (st_token scored = st_token s)) as [E|Hne].
      * destruct Hstart as [[Hl' _]|[Hl' _]]; rewrite E, Hl in Hl'; [|done]. injection Hl' as <-.
        exists token'. rewrite E, lookup_insert_eq. destruct Hcase as [[_ ->]|[Hlt _]]; [|lia].
        by split.
      * exists tok. rewrite lookup_insert_ne by done. by split.
    + apply list_elem_of_singleton in Hs as ->. exists token'. cbn [cs_tokens set_tokens].
      rewrite lookup_insert_eq. split; [done|]. split; [done|]. split; [congruence|]. by split.
Qed.

Lemma checkpoint_token_wf st n m scored w st' n' m' w' :
  rates_u64 scored → state_wf st →
  checkpoint_token (W := W) as_of max_range result_cap (st, n, m) scored w
    = (Ok (st', n', m'), w') → state_wf st' ∧ cs_chain_id st' = cs_chain_id st.
Proof.
  intros Hru Hwf Hstep.
  apply checkpoint_token_start in Hstep as (Hasc & token & token' & c & mets & w1 & Hstart & Hadv & ->).
  split; [|done]. apply map_Forall_insert_2; [|done].
  assert (token_wf token ∧ accounts_wf (tk_cursor_block token) (st_rates scored) token) as [Ht Ha].
  { destruct Hstart as [[Hl (_ & new & Hr & _)%validate_stored_token_ok]|[_ ->]].
    - pose proof (Hwf _ _ Hl) as Ht. split; [done|]. destruct Ht as (_ & _ & _ & _ & _ & Ha).
      eapply accounts_wf_mono; [..|exact Ha]; [done|]. intros r Hin. rewrite Hr. set_solver.
    - split; [|apply map_Forall_empty]. split; [vm_compute; discriminate|]. split; [by split|].
      split; [done|]. split; [exact Hru|]. split; [exact Hasc|apply map_Forall_empty]. }
  by eapply advance_token_wf.
Qed.
End CheckpointLoop.

(** Acquiring the lock leaves the checkpoint file alone. *)
Lemma lock_path_ne path : lock_path_for_checkpoint path ≠ path.
Proof.
  unfold lock_path_for_checkpoint. intros E. apply (f_equal String.length) in E.
  rewrite str_app_length in E. cbn [String.length] in E. lia.
Qed.

(** Taking and dropping the lock only touches the lock file. *)
Section LockFacts.
Context (path : string) (P : Files → Prop).
Hypothesis Hstable : ∀ files f, P files → P (partial_alter f path files).

Lemma triple_lock_acquire : triple P (lock_acquire path) (fun _ => P) P.
Proof.
  unfold lock_acquire. cbn zeta. eapply (triple_bind _ _ (fun _ => P)).
  { by apply triple_reads, reads_at_path, reads_operation. }
  intros _. eapply (triple_bind _ _ (fun _ => P)).
  { eapply triple_post; [apply (triple_attempt _ _ (fun _ => P) P)|by intros [e|a]|done].
    apply triple_operation; [|done]. intros files HP. destruct (files !! path); [done|].
    by apply Hstable. }
  intros [[]|_]; [by apply triple_lift..|]. apply triple_get_state. intros fs0.
  eapply (triple_bind _ _ (fun _ => P)).
  { eapply triple_post; [apply (triple_attempt _ _ (fun _ => P) P)|by intros [e|a]|done].
    eapply (triple_bind _ _ (fun _ => P)); [|intros _; by apply triple_reads, reads_operation].
    apply triple_operation; intros files; [|intros n]; intros HP; by apply Hstable. }
  intros [e|_]; [|by apply triple_reads, reads_mret]. unfold discard.
  eapply (triple_bind _ _ (fun _ => P)); [|intros; by apply triple_lift].
  eapply triple_post; [apply (triple_attempt _ _ (fun _ => P) P)|by intros [e'|a]|done].
  apply triple_operation; [|done]. intros files HP. destruct (files !! path); [|done].
  by apply Hstable.
Qed.

Lemma triple_lock_drop : triple P (lock_drop path) (fun _ => P) P.
Proof.
  unfold lock_drop. eapply (triple_bind _ _ (fun _ => P)); [|intros; by apply triple_reads, reads_mret].
  eapply triple_post; [apply (triple_attempt _ _ (fun _ => P) P)|by intros [e|a]|done].
  apply triple_operation; [|done]. intros files HP. destruct (files !! path); [|done].
  by apply Hstable.
Qed.
End LockFacts.

Lemma lock_acquire_keeps path fs r fs' : lock_acquire path fs = (Ok r, fs') →
  ∀ other, other ≠ path → fs_files fs' !! other = fs_files fs !! other.
Proof.
  intros Hl other Hne.
  pose proof (triple_lock_acquire path (fun files => files !! other = fs_files fs !! other)
    ltac:(intros ? ?; cbn beta; by rewrite lookup_partial_alter_ne) fs eq_refl) as Ht. by rewrite Hl in Ht.
Qed.
Lemma lock_drop_keeps path fs r fs' : lock_drop path fs = (Ok r, fs') →
  ∀ other, other ≠ path → fs_files fs' !! other = fs_files fs !! other.
Proof.
  intros Hl other Hne.
  pose proof (triple_lock_drop path (fun files => files !! other = fs_files fs !! other)
    ltac:(intros ? ?; cbn beta; by rewrite lookup_partial_alter_ne) fs eq_refl) as Ht. by rewrite Hl in Ht.
Qed.

Lemma on_files_ok {W E A} (m : fs_io E A) (a : A) fw fw' :
  on_files (W := W) m fw = (Ok a, fw') ↔ m fw.1 = (Ok a, fw'.1) ∧ fw'.2 = fw.2.
Proof.
  destruct fw as [fs w], fw' as [fs' w']. cbn. destruct (m fs) as [r fs1]. naive_solver.
Qed.
Lemma on_rpc_ok {W E A} (m : io W E A) (a : A) fw fw' :
  on_rpc m fw = (Ok a, fw') ↔ m fw.2 = (Ok a, fw'.2) ∧ fw'.1 = fw.1.
Proof.
  destruct fw as [fs w], fw' as [fs' w']. cbn. destruct (m w) as [r w1]. naive_solver.
Qed.
Lemma guarded_ok {W E A} (g : io W E unit) (m : io W E A) a w w' :
  guarded g m w = (Ok a, w') ↔ m w = (Ok a, w').
Proof.
  unfold guarded. destruct (m w) as [[b|e|s] w1]; [done| |done].
  unfold mbind, io_bind, lift. destruct (g w1) as [[?|?|?] ?]; naive_solver.
Qed.

Section SessionFacts.
Context `{HexLaws, AbiCodec, HmacLaws, CheckpointJsonLaws} {W : Type} `{!RpcIface W, !RpcLaws}.
Context (current_dir : outcome IoError string) (config : IncidentConfig) (as_of : N).
Context (checkpoint_path path : string) (chain : N) (key : list byte) (max_range result_cap : N).
Context (h : Address → Address → N → N).
Hypothesis Hmax : as_of < u64_max.
Hypothesis Hrates : ∀ scored, scored ∈ ic_scored_tokens config → rates_u64 scored.
Hypothesis Hpath : absolute_path current_dir checkpoint_path = Ok path.
Hypothesis Htrue : ∀ scored, scored ∈ ic_scored_tokens config → contributes_at scored as_of = true →
  true_transfers (W := W) None as_of max_range result_cap (st_token scored) (h (st_token scored)) ∧
  ∀ u, h (st_token scored) u 0 = 0.

(** A checkpoint file that loads, loads a state that tracks the true history. *)
Definition stored_tracks (files : Files) : Prop := ∀ bytes st,
  files !! path = Some bytes → load_checkpoint_bytes (Some bytes) chain key = Ok st →
  state_tracks h st.

Lemma checkpoint_open_ok fs w source fs' w' :
  stored_tracks (fs_files fs) →
  checkpoint_open (W := W) current_dir config as_of checkpoint_path chain key max_range result_cap
    (fs, w) = (Ok source, (fs', w')) →
  css_config source = config ∧ css_as_of_block source = as_of ∧
  css_lock source = lock_path_for_checkpoint path ∧ cm_path (css_metadata source) = path ∧
  cs_chain_id (css_state source) = chain ∧ state_wf (css_state source) ∧
  checkpoint_loop_ok as_of h (active_tokens config as_of) (css_state source).
Proof.
  intros Hstored Hopen. unfold checkpoint_open in Hopen. rewrite Hpath in Hopen. cbn zeta in Hopen.
  apply io_bind_ok in Hopen as (? & [fs1 w1] & [_ [= -> ->]]%lift_ok & Hopen).
  rewrite io_bind_lift in Hopen.
  apply io_bind_ok in Hopen as (? & [fs2 w2] & [Hlock Hw]%on_files_ok & Hopen). cbn in Hlock, Hw.
  pose proof (lock_acquire_keeps _ _ _ _ Hlock path ltac:(apply not_eq_sym, lock_path_ne)) as Hkeep.
  apply guarded_ok in Hopen. unfold open_locked in Hopen.
  apply io_bind_ok in Hopen as (? & [fs3 w3] & [_ Hf3]%on_rpc_ok & Hopen). cbn in Hf3. subst fs3.
  apply io_bind_ok in Hopen as (st & [fs4 w4] & [Hload _]%on_files_ok & Hopen). cbn in Hload.
  apply io_bind_ok in Hopen as ([[st' n] m] & [fs5 w5] & [Hloop _]%on_rpc_ok & Hopen). cbn in Hloop.
  apply io_bind_ok in Hopen as (blk & w6 & _ & [<- _]%io_ret_ok). cbn.
  assert (state_wf st ∧ cs_chain_id st = chain ∧ state_tracks h st) as (Hwf & Hchain & Htr).
  { apply io_bind_ok in Hload as (found & fs6 & Hr & [Hl _]%lift_ok).
    apply read_limited_ok in Hr as [-> _]; [|vm_compute; discriminate]. rewrite Hkeep in Hl.
    destruct (fs_files fs !! path) as [bytes|] eqn:Eb.
    - split; [|split; [|by eapply Hstored]].
      + apply load_checkpoint_bytes_ok in Hl as (? & ? & ? & ? & _ & _ & _ & _ & _ & Hp & _).
        by eapply parse_state_wf.
      + by apply load_checkpoint_bytes_ok in Hl as (? & ? & ? & ? & _ & _ & _ & _ & _ & _ & ?).
    - apply (inj Ok) in Hl as <-. split; [apply map_Forall_empty|]. split; [done|apply map_Forall_empty]. }
  do 4 (split; [done|]).
  refine (_ (fold_m_io_inv_in _ (fun pre s => (cs_chain_id s.1.1 = chain ∧ state_wf s.1.1) ∧
    checkpoint_loop_ok as_of h pre s.1.1) (active_tokens config as_of) _ _ _ _ _ _ Hloop)).
  - intros [[Hc Hw'] Hok]. done.
  - intros pre scored [[s sn] sm] wa [[s' sn'] sm'] wb Hin [[Hc Hws] Hok] Hstep.
    assert (scored ∈ ic_scored_tokens config ∧ contributes_at scored as_of = true) as [Hin' Hcon].
    { unfold active_tokens in Hin. apply list_elem_of_In in Hin. apply filter_In in Hin as [Hin ?].
      split; [by apply list_elem_of_In|done]. }
    destruct (Htrue scored Hin' Hcon) as [Htt Hz]. cbn [fst] in *. split.
    + destruct (checkpoint_token_wf as_of max_range result_cap Hmax _ _ _ _ _ _ _ _ _
        (Hrates scored Hin') Hws Hstep) as [? ->]. done.
    + by eapply checkpoint_token_step.
  - cbn [fst]. split; [done|]. split; [done|]. intros s Hs. by apply elem_of_nil in Hs.
Qed.
End SessionFacts.

(** [numerator_fold] for a loop with effects. *)
Lemma numerator_fold_io {W} (h : Address → Address → N → N) as_of user tokens
    (step : N → ScoredToken → io W CheckpointError N) :
  (∀ scored numerator w r w', scored ∈ tokens → contributes_at scored as_of = true →
     step numerator scored w = (Ok r, w') →
     r = numerator + spec_numerator (h (st_token scored) user) 0 (st_decimals scored) as_of (st_rates scored)) →
  ∀ numerator w r w', fold_m (fun numerator scored =>
    if negb (contributes_at scored as_of) then mret numerator else step numerator scored)
    numerator tokens w = (Ok r, w') →
  r = numerator + specified_numerator h as_of user tokens.
Proof.
  unfold specified_numerator.
  induction tokens as [|t tokens IH]; intros Hstep numerator w r w'; cbn [fold_m map sum_N foldr].
  { intros [<- _]%io_ret_ok. lia. }
  fold (sum_N (map (fun t => spec_numerator (h (st_token t) user) 0 (st_decimals t) as_of
    (st_rates t)) tokens)).
  intros (n1 & w1 & H1 & Hf)%io_bind_ok.
  assert (n1 = numerator + spec_numerator (h (st_token t) user) 0 (st_decimals t) as_of (st_rates t)) as ->.
  { destruct (contributes_at t as_of) eqn:E; cbn [negb] in H1; [by eapply Hstep; [left|..]|].
    apply io_ret_ok in H1 as [<- _]. rewrite spec_no_contribution; [by rewrite N.add_0_r|].
    unfold contributes_at, first_contributing_block in E. apply bool_decide_eq_false in E.
    by apply eq_None_not_Some. }
  apply IH in Hf; [lia|]. intros; eapply Hstep; [by right|done..].
Qed.

Section CheckpointTheorems.
Context `{HexLaws, AbiCodec, HmacLaws, CheckpointJsonLaws} {W : Type} `{!RpcIface W, !RpcLaws}.

(** Checkpoint scores are the specified scores: a checkpoint source opened on a
    stored checkpoint that tracks the true balance history (or on no file) gives
    every account exactly the gross score of that history, however far the
    stored cursors are and however the range is sliced: incremental and fresh
    replay agree. *)
Theorem checkpoint_score_correct (current_dir : outcome IoError string) (config : IncidentConfig)
    (as_of : N) (checkpoint_path path : string) (chain : N) (key : list byte)
    (max_range result_cap : N) (h : Address → Address → N → N)
    (fs fs' : FileSystem) (w w' w1 w2 : W) (source : CheckpointScoreSource) (user : Address) (score : N) :
  as_of < u64_max →
  (∀ scored, scored ∈ ic_scored_tokens config → rates_u64 scored) →
  absolute_path current_dir checkpoint_path = Ok path →
  (∀ scored, scored ∈ ic_scored_tokens config → contributes_at scored as_of = true →
     true_transfers (W := W) None as_of max_range result_cap (st_token scored) (h (st_token scored)) ∧
     ∀ u, h (st_token scored) u 0 = 0) →
  stored_tracks path chain key h (fs_files fs) →
  checkpoint_open (W := W) current_dir config as_of checkpoint_path chain key max_range result_cap
    (fs, w) = (Ok source, (fs', w')) →
  address_is_zero user = false →
  checkpoint_gross_score_of (W := W) source user w1 = (Ok score, w2) →
  score = gross_score (specified_numerator h as_of user (ic_scored_tokens config)).
Proof.
  intros Hmax Hrates Hpath Htrue Hstored Hopen Hu Hscore.
  destruct (checkpoint_open_ok _ _ _ _ _ _ _ _ _ h Hmax Hrates Hpath Htrue _ _ _ _ _ Hstored Hopen)
    as (Ec & Ea & _ & _ & _ & _ & _ & Hdone).
  unfold checkpoint_gross_score_of in Hscore. rewrite Ec, Ea in Hscore.
  apply io_bind_ok in Hscore as (num & w3 & Hf & [<- _]%io_ret_ok). f_equal.
  rewrite <-(N.add_0_l (specified_numerator _ _ _ _)).
  eapply (numerator_fold_io h as_of user (ic_scored_tokens config)); [|exact Hf].
  intros scored numerator wa r wb Hin Hc Hstep.
  destruct (Hdone scored) as (tok & Ht & _ & Hd & Hasc & Htr).
  { unfold active_tokens. apply list_elem_of_In, filter_In. split; [by apply list_elem_of_In|done]. }
  unfold find_token in Hstep. rewrite Ht in Hstep. cbn [ok_or] in Hstep. rewrite io_bind_lift in Hstep.
  cbn zeta in Hstep. apply io_bind_ok in Hstep as (actual & w4 & _ & Hstep).
  apply io_bind_ok in Hstep as (? & w5 & _ & [Hadd _]%lift_ok).
  rewrite (tracked_numerator None (h (st_token scored)) 0) in Hadd by (done || by split).
  by apply (inj Ok) in Hadd as <-.
Qed.

(** C13: The checkpoint keeps its invariant across sessions: after a session that
    opened on a checkpoint tracking the true history and committed with success,
    the file again holds a well-formed checkpoint that tracks the history, namely
    exactly the session's state, so the next session may start from it. *)
Theorem checkpoint_session_invariant (current_dir : outcome IoError string) (config : IncidentConfig)
    (as_of : N) (checkpoint_path path : string) (chain : N) (key : list byte)
    (max_range result_cap : N) (h : Address → Address → N → N)
    (fs fs1 fs2 fs3 : FileSystem) (w w' : W) (source : CheckpointScoreSource) :
  as_of < u64_max →
  (∀ scored, scored ∈ ic_scored_tokens config → rates_u64 scored) →
  absolute_path current_dir checkpoint_path = Ok path → is_Some (file_name path) →
  (∀ scored, scored ∈ ic_scored_tokens config → contributes_at scored as_of = true →
     true_transfers (W := W) None as_of max_range result_cap (st_token scored) (h (st_token scored)) ∧
     ∀ u, h (st_token scored) u 0 = 0) →
  stored_tracks path chain key h (fs_files fs) →
  checkpoint_open (W := W) current_dir config as_of checkpoint_path chain key max_range result_cap
    (fs, w) = (Ok source, (fs1, w')) →
  checkpoint_commit source key fs2 = (Ok tt, fs3) →
  state_wf (css_state source) ∧ stored_tracks path chain key h (fs_files fs3) ∧
  ∃ bytes, fs_files fs3 !! path = Some bytes ∧
    load_checkpoint_bytes (Some bytes) chain key = Ok (css_state source).
Proof.
  intros Hmax Hrates Hpath Hname Htrue Hstored Hopen Hcommit.
  destruct (checkpoint_open_ok _ _ _ _ _ _ _ _ _ h Hmax Hrates Hpath Htrue _ _ _ _ _ Hstored Hopen)
    as (_ & _ & El & Ep & Ech & Hwf & [Htr _]).
  split; [done|]. unfold checkpoint_commit in Hcommit. rewrite El, Ep in Hcommit.
  apply guarded_ok in Hcommit. apply io_bind_ok in Hcommit as (? & fs4 & [_ ->]%lift_ok & Hcommit).
  apply io_bind_ok in Hcommit as ([] & fs5 & Hsave & Hdrop).
  pose proof (triple_save path (css_state source) key (fs_files fs2) Hname fs2
    (conj (fun _ _ _ => eq_refl) eq_refl)) as Ht. rewrite Hsave in Ht.
  destruct Ht as (_ & bytes & Hb & Hf).
  assert (fs_files fs3 !! path = Some bytes) as Hf3.
  { rewrite <-Hf. eapply lock_drop_keeps; [exact Hdrop|]. apply not_eq_sym, lock_path_ne. }
  pose proof (load_checkpoint_bytes_of _ _ _ Hwf Hb) as Hload. rewrite Ech in Hload.
  split; [|by exists bytes]. intros bytes' st Hb' Hl. rewrite Hf3 in Hb'. injection Hb' as <-.
  rewrite Hload in Hl. by apply (inj Ok) in Hl as <-.
Qed.
End CheckpointTheorems.

(* ------------------------------------------------------------------ *)
(** ** Evaluated instances *)

#[local] Existing Instances RefHex.hex_crate RefHex.hex_laws RefAbi.abi_codec.
#[local] Existing Instances RefAbi.TransferData_eq_dec RefAbi.TransferData_countable.
#[local] Existing Instances RefCheckpoint.hmac_crate RefCheckpoint.hmac_laws
  RefCheckpoint.checkpoint_json RefCheckpoint.checkpoint_json_laws.

(** Seven tokens are minted to one account, which passes three on. *)
Definition demo_mint_ledger : list RpcLog := Eval vm_compute in
  [demo_transfer (zero_array 20) demo_account 7 2 0; demo_transfer demo_account demo_other 3 3 1].
#[local] Instance replay_provider : RpcIface unit :=
  RefProvider.provider demo_ts demo_block_hash 20 demo_history_answer demo_mint_ledger.
#[local] Instance replay_laws : RpcLaws.
Proof. constructor. intros A d m w r w'. simpl. destruct (m w). by intros [= -> ->]. Qed.

(** Everybody's balance after each block. *)
Definition demo_balances (_ : Address) (u : Address) (n : N) : N :=
  if bool_decide (u = demo_account) then demo_balance n
  else if bool_decide (u = demo_other) then (if n <? 3 then 0 else 3) else 0.
Definition demo_tokens : list ScoredToken :=
  [demo_scored; mkScoredToken demo_token 6 [mkRatePoint 9 5]].
Definition demo_replay_config : IncidentConfig :=
  mkIncidentConfig 8000 demo_feed (zero_array 20) [] (mkSettlementParams 3 0 2) demo_tokens.

(** One slice, evaluated: known parties, and the two histories. *)
Definition demo_slice_ok (range cap : N) (tracked : option (gset Address)) (from to : N) : bool :=
  match (slice_transfers (W := unit) demo_token tracked from to range cap tt).1 with
  | Ok (trs, _) =>
      (from =? 0) || (to <? from) ||
      forallb (fun tr => bool_decide (tt_from tr ∈ [zero_array 20; demo_account; demo_other]) &&
                         bool_decide (tt_to tr ∈ [zero_array 20; demo_account; demo_other])) trs &&
      forallb (fun u => forallb (fun k => (k <? from - 1) || (to <? k) ||
        (history (demo_balances demo_token u (from - 1)) (account_movements u trs) k
         =? demo_balances demo_token u k)) demo_blocks) [demo_account; demo_other]
  | _ => true
  end.

Lemma no_movements u trs (parties : list Address) :
  u ∉ parties → (∀ tr, tr ∈ trs → tt_from tr ∈ parties ∧ tt_to tr ∈ parties) →
  account_movements u trs = [].
Proof.
  intros Hu. induction trs as [|tr trs IH]; intros Hp; [done|]. unfold account_movements.
  cbn [flat_map]. fold (account_movements u trs). rewrite IH by (intros; apply Hp; by right).
  destruct (Hp tr ltac:(left)) as [Hf Ht]. unfold transfer_movements.
  rewrite !bool_decide_false; [done|intros E; congruence..].
Qed.

Lemma demo_true_transfers range cap tracked :
  forallb (fun '(from, to) => demo_slice_ok range cap tracked from to)
    (list_prod demo_blocks demo_blocks) = true →
  true_transfers (W := unit) tracked 4 range cap demo_token (demo_balances demo_token).
Proof.
  intros Hall from to [] trs m [] Hf1 Hft Hto Hs u Hu k Hk1 Hk2.
  rewrite forallb_forall in Hall.
  specialize (Hall (from, to) ltac:(apply in_prod; apply demo_blocks_elem; lia)).
  cbv beta iota in Hall. unfold demo_slice_ok in Hall. rewrite Hs in Hall. cbn [fst] in Hall.
  rewrite (proj2 (N.eqb_neq _ _)), (proj2 (N.ltb_ge _ _)) in Hall by lia. cbn [orb] in Hall.
  apply andb_prop in Hall as [Hp Hh]. rewrite forallb_forall in Hp, Hh.
  destruct (decide (u ∈ [demo_account; demo_other])) as [Hin|Hnin].
  - specialize (Hh u ltac:(by apply list_elem_of_In)). rewrite forallb_forall in Hh.
    specialize (Hh k (demo_blocks_elem k ltac:(lia))).
    rewrite (proj2 (N.ltb_ge _ _) Hk1), (proj2 (N.ltb_ge _ _) Hk2) in Hh. by apply N.eqb_eq.
  - rewrite (no_movements u trs [zero_array 20; demo_account; demo_other]).
    + unfold demo_balances. rewrite !bool_decide_false by set_solver. done.
    + intros [->|Hin]%elem_of_cons; [by destruct Hu|done].
    + intros tr Htr. apply list_elem_of_In, Hp in Htr. apply andb_prop in Htr as [Hx Hy].
      by apply bool_decide_eq_true in Hx, Hy.
Qed.

Lemma demo_true_balance b v : In b demo_blocks →
  balance_of_at (W := unit) demo_token demo_account b tt = (Ok v, tt) →
  v = demo_balances demo_token demo_account b.
Proof.
  intros Hb Hv.
  assert (forallb (fun b => match (balance_of_at (W := unit) demo_token demo_account b tt).1 with
    | Ok v => v =? demo_balances demo_token demo_account b | _ => true end) demo_blocks = true) as Hall
    by (vm_compute; reflexivity).
  rewrite forallb_forall in Hall. specialize (Hall b Hb). rewrite Hv in Hall. by apply N.eqb_eq.
Qed.

Definition demo_users : gset Address := {[demo_account]}.

Example bulk_score_correct_witness :
  ∃ source w', bulk_open (W := unit) demo_replay_config 4 demo_users 1 2 10 tt = (Ok source, w') ∧
    bulk_gross_score_of source demo_account =
      Ok (gross_score (specified_numerator demo_balances 4 demo_account demo_tokens)).
Proof.
  destruct (bulk_open (W := unit) demo_replay_config 4 demo_users 1 2 10 tt) as [r w'] eqn:E.
  assert (match r with Ok _ => true | _ => false end = true) as Hr.
  { change r with (r, w').1. rewrite <-E. vm_compute. reflexivity. }
  destruct r as [source|e|s]; [|discriminate Hr|discriminate Hr].
  exists source, w'. split; [reflexivity|].
  apply (bulk_score_correct demo_replay_config 4 demo_users 1 2 10 demo_balances tt w' source demo_account).
  - vm_compute. reflexivity.
  - intros scored Hin _. assert (st_token scored = demo_token) as ->.
    { apply elem_of_cons in Hin as [->|Hin]; [reflexivity|].
      apply list_elem_of_singleton in Hin. by rewrite Hin. }
    split.
    + intros u b [] v [] [_ Hu] Hb%demo_blocks_elem.
      assert (u = demo_account) as ->.
      { apply negb_false_iff, bool_decide_eq_true in Hu. by apply elem_of_singleton in Hu. }
      by apply demo_true_balance.
    + apply demo_true_transfers. vm_compute. reflexivity.
  - exact E.
  - by apply elem_of_singleton.
Defined.

Definition demo_opened :=
  checkpoint_open (W := unit) (Ok "/") demo_replay_config 4 demo_path 1 demo_key 2 10 (demo_fs [], tt).

Lemma demo_rates_u64 scored : scored ∈ demo_tokens → rates_u64 scored.
Proof.
  intros Hin r Hr. apply elem_of_cons in Hin as [->|Hin%list_elem_of_singleton]; [|rewrite Hin in Hr];
    repeat (apply elem_of_cons in Hr as [->|Hr]; [vm_compute; discriminate|]); by apply elem_of_nil in Hr.
Qed.

Lemma demo_checkpoint_truth scored : scored ∈ demo_tokens → contributes_at scored 4 = true →
  true_transfers (W := unit) None 4 2 10 (st_token scored) (demo_balances (st_token scored)) ∧
  ∀ u, demo_balances (st_token scored) u 0 = 0.
Proof.
  intros Hin _. assert (st_token scored = demo_token) as ->.
  { apply elem_of_cons in Hin as [->|Hin]; [reflexivity|].
    apply list_elem_of_singleton in Hin. by rewrite Hin. }
  split; [apply demo_true_transfers; vm_compute; reflexivity|].
  intros u. unfold demo_balances. by repeat case_bool_decide.
Qed.

Lemma demo_nothing_stored : stored_tracks demo_path 1 demo_key demo_balances (fs_files (demo_fs [])).
Proof. intros bytes st Hb. done. Qed.

Example checkpoint_score_correct_witness :
  ∃ source fs' w' score w2, demo_opened = (Ok source, (fs', w')) ∧
    checkpoint_gross_score_of (W := unit) source demo_account tt = (Ok score, w2) ∧
    score = gross_score (specified_numerator demo_balances 4 demo_account demo_tokens).
Proof.
  destruct demo_opened as [r [fs' w']] eqn:E.
  assert (match r with Ok source =>
    match (checkpoint_gross_score_of (W := unit) source demo_account tt).1 with Ok _ => true | _ => false end
    | _ => false end = true) as Hr.
  { change r with (r, (fs', w')).1. rewrite <-E. vm_compute. reflexivity. }
  destruct r as [source|e|s]; [|discriminate Hr|discriminate Hr].
  destruct (checkpoint_gross_score_of (W := unit) source demo_account tt) as [r2 w2] eqn:E2.
  destruct r2 as [score|e|s]; [|discriminate Hr|discriminate Hr].
  exists source, fs', w', score, w2. split; [reflexivity|]. split; [exact E2|].
  apply (checkpoint_score_correct (Ok "/") demo_replay_config 4 demo_path demo_path 1 demo_key 2 10
    demo_balances (demo_fs []) fs' tt w' tt w2 source demo_account score).
  - vm_compute. reflexivity.
  - exact demo_rates_u64.
  - reflexivity.
  - exact demo_checkpoint_truth.
  - exact demo_nothing_stored.
  - exact E.
  - vm_compute. reflexivity.
  - exact E2.
Defined.

Example checkpoint_session_invariant_witness :
  ∃ source fs1 w' fs3, demo_opened = (Ok source, (fs1, w')) ∧
    checkpoint_commit source demo_key fs1 = (Ok tt, fs3) ∧ state_wf (css_state source).
Proof.
  assert (match demo_opened with
    | (Ok source, (fs1, _)) =>
        match (checkpoint_commit source demo_key fs1).1 with Ok _ => true | _ => false end
    | _ => false
    end = true) as Hr by (vm_compute; reflexivity).
  destruct demo_opened as [[source|e|s] [fs1 w']] eqn:E; [|discriminate Hr|discriminate Hr].
  destruct (checkpoint_commit source demo_key fs1) as [r2 fs3] eqn:E2.
  destruct r2 as [[]|e|s]; [|discriminate Hr|discriminate Hr].
  exists source, fs1, w', fs3. split; [reflexivity|]. split; [exact E2|].
  apply (checkpoint_session_invariant (Ok "/") demo_replay_config 4 demo_path demo_path 1 demo_key 2 10
    demo_balances (demo_fs []) fs1 fs1 fs3 tt w' source).
  - vm_compute. reflexivity.
  - exact demo_rates_u64.
  - reflexivity.
  - by eexists.
  - exact demo_checkpoint_truth.
  - exact demo_nothing_stored.
  - exact E.
  - exact E2.
Defined.
