(* ===== verification/Artifact.v ===== *)
(** * Settlement runs and their artifacts ([src/artifact.rs], [src/engine.rs])

    The record of a settlement run, the check that its hashes, Merkle tree,
    pool totals and digest all reproduce, its JSON artifact, and the atomic
    writing of JSON files. *)

From S2P Require Import Prelude Bytes Text Commit ScoreCore Merkle Kernel TypedData Rpc Abi Config.
From S2P Require Import Chain ChainConfig Checkpoint CheckpointStore.
From Stdlib Require Import Strings.Byte.

Open Scope string_scope.
Open Scope N_scope.
Open Scope list_scope.

Definition ZERO_ROOT : string :=
  "0x0000000000000000000000000000000000000000000000000000000000000000".

Inductive ScoreSourceMetadata :=
  | MetaRaw (as_of_block : N)
  | MetaBulk (as_of_block : N) (as_of_block_hash : string)
      (indexed_transfers indexed_tokens tracked_accounts : N)
  | MetaCheckpoint (path : string) (as_of_block : N) (as_of_block_hash : string)
      (indexed_transfers indexed_tokens : N).

Record SettlementRun := mkSettlementRun {
  run_incident_id : N;
  run_incident : Incident;
  run_window_incident : Incident;
  run_latest_incident : Incident;
  run_anchors : SettlementAnchors;
  run_config_hash : string;
  run_tee_pcr_hash : string;
  run_pool_order : list Address;
  run_pool_addrs : list Address;
  run_twap_ratio : N;
  run_underlying_usd : N;
  run_events : list ClaimEvent;
  run_output : KernelOutput;
  run_digest : string;
  run_score_source : ScoreSourceMetadata;
  run_rpc_metrics : RpcMetrics;
  run_log_metrics : LogMetrics
}.

Definition is_unsettled (run : SettlementRun) : bool :=
  eq_ignore_ascii_case (inc_root (run_latest_incident run)) ZERO_ROOT.
Definition root_matches (run : SettlementRun) : bool :=
  eq_ignore_ascii_case (ko_root (run_output run)) (inc_root (run_latest_incident run)).

Inductive ArtifactError :=
  | ArInvariant (message : string)
  | ArIo (error : IoError)
  | ArJson (message : string)
  | ArCompute (message : string).
#[export] Instance ArtifactError_eq_dec : EqDecision ArtifactError.
Proof. solve_decision. Defined.

(** Display texts. *)
Definition io_error_to_string (error : IoError) : string :=
  match error with
  | IoNotFound => "No such file or directory (os error 2)"
  | IoAlreadyExists => "File exists (os error 17)"
  | IoOther text => text
  end.
Definition artifact_error_to_string (error : ArtifactError) : string :=
  match error with
  | ArInvariant message => "artifact invariant failed: " +:+ message
  | ArIo error => "artifact I/O failed: " +:+ io_error_to_string error
  | ArJson message => "artifact JSON failed: " +:+ message
  | ArCompute message => "artifact computation failed: " +:+ message
  end.

Section Verify.
Context `{HexCrate, Sha3Crate, SerdeJson}.

(** The display texts of [KernelError] and [TypedDataError]. *)
Definition kernel_error_to_string (error : KernelError) : string :=
  match error with
  | Json message => "invalid JSON: " +:+ message
  | InvalidDecimal field value => "invalid decimal string for " +:+ field +:+ ": " +:+ value
  | InvalidAddress field value => "invalid address for " +:+ field +:+ ": " +:+ value
  | Uint256Overflow => "value exceeds uint256"
  | DuplicateInputUser user => "duplicate settlement input user: " +:+ address_to_string user
  | DuplicateClaim id => "duplicate claim " +:+ to_decimal id +:+ " in settlement"
  | MissingClaim id => "claim " +:+ to_decimal id +:+ " not in settlement"
  | EmptyMerkleTree => "merkle tree requires at least one row"
  | DuplicateRegistration id => "duplicate registration for claim " +:+ to_decimal id
  | UnknownCancellation id => "cancellation references unknown claim " +:+ to_decimal id
  | DuplicateCancellation id => "duplicate cancellation for claim " +:+ to_decimal id
  | DuplicateResolvedClaim id => "duplicate resolved claim " +:+ to_decimal id
  | MissingResolvedClaim id => "missing resolved claim " +:+ to_decimal id
  | UnexpectedResolvedClaim id =>
      "resolved claim " +:+ to_decimal id +:+ " is not live in replayed events"
  | ResolvedClaimMismatch id =>
      "resolved claim does not match replayed registration for claim " +:+ to_decimal id
  | EventOrder previous_block previous_index block index =>
      "claim event position is not strictly increasing: (" +:+ to_decimal previous_block +:+ "," +:+
      to_decimal previous_index +:+ ") then (" +:+ to_decimal block +:+ "," +:+ to_decimal index +:+ ")"
  | InvalidPolicy message => "invalid settlement policy: " +:+ message
  end.
Definition typed_data_error_to_string (error : TypedDataError) : string :=
  match error with
  | InvalidHash field value =>
      "invalid " +:+ field +:+ ": expected 32-byte 0x-prefixed hex, got " +:+ value
  | TypedUint256Overflow => "value exceeds uint256"
  end.

(** The inner loop: grossed amounts added to the pool totals. *)
Fixpoint add_grossed (user_share_bps : N) (totals amounts : list N) : outcome ArtifactError (list N) :=
  match totals, amounts with
  | total :: totals, amount :: amounts =>
      gross ← big_div (amount * BPS) user_share_bps;
      rest ← add_grossed user_share_bps totals amounts;
      Ok (total + gross :: rest)
  | _, _ => Ok totals
  end.
Definition add_row (user_share_bps : N) (totals : list N) (row : SettledRow) :
    outcome ArtifactError (list N) :=
  _ ← bail_if (negb (Nat.eqb (length (sr_amounts row)) (length totals)))
        (ArInvariant ("claim " +:+ to_decimal (sr_claim_id row) +:+
           " payout row length differs from pool count"));
  add_grossed user_share_bps totals (sr_amounts row).

(** The Merkle part of [verify_run]. *)
Definition verify_tree (run : SettlementRun) : outcome ArtifactError unit :=
  let output := run_output run in
  match map merkle_row_of (ko_rows output) with
  | [] =>
      bail_if (negb (String.eqb (ko_root output) ("0x" +:+ str_repeat 64 "0")) ||
               negb (bool_decide (ko_proofs output = ∅)))
        (ArInvariant "empty settlement root/proofs are noncanonical")
  | merkle_rows =>
      tree ← map_err (fun error => ArCompute (kernel_error_to_string error))
               (SettlementTree_new (run_incident_id run) merkle_rows);
      _ ← bail_if (negb (eq_ignore_ascii_case (root_hex tree) (ko_root output)))
            (ArInvariant "Merkle root does not reproduce");
      bail_if (negb (bool_decide (all_proofs_hex tree = ko_proofs output)))
        (ArInvariant "Merkle proofs do not reproduce")
  end.

Definition digest_input_of (run : SettlementRun) (config : BootstrapConfig) : SettlementDigestInput :=
  {| sd_chain_id := cfg_chain_id config; sd_verifying_contract := cfg_defi_insurance config;
     sd_incident_id := run_incident_id run; sd_root := ko_root (run_output run);
     sd_unresolved_claims := inc_unresolved_claims (run_window_incident run);
     sd_pool_payouts := ko_pool_payouts (run_output run); sd_pool_addrs := run_pool_addrs run;
     sd_claim_set := ko_claim_set_hash (run_output run); sd_tee_pcr_hash := run_tee_pcr_hash run |}.

Definition verify_run (run : SettlementRun) (config : BootstrapConfig) : outcome ArtifactError unit :=
  let output := run_output run in
  config_hash ← map_err (fun error => ArCompute (config_error_to_string error)) (config_hash config);
  _ ← bail_if (negb (eq_ignore_ascii_case config_hash (run_config_hash run)))
        (ArInvariant "config hash does not reproduce");
  replayed_claim_set ← map_err (fun error => ArCompute (kernel_error_to_string error))
                         (claim_set_hash (run_events run));
  _ ← bail_if (negb (eq_ignore_ascii_case replayed_claim_set (ko_claim_set_hash output)))
        (ArInvariant "claim-set hash does not reproduce");
  input_hash ← map_err (fun error => ArCompute (kernel_error_to_string error))
    (settlement_input_hash (map (fun row => (sr_user row, sr_gross_earned_score row)) (ko_rows output)));
  _ ← bail_if (negb (eq_ignore_ascii_case input_hash (ko_settlement_input_hash output)))
        (ArInvariant "settlement input hash does not reproduce");
  _ ← verify_tree run;
  _ ← bail_if (negb (Nat.eqb (length (run_pool_addrs run)) (length (ko_pool_payouts output))))
        (ArInvariant "pool address/payout arrays have different lengths");
  let fee := inc_protocol_fee_share_bps (run_incident run) in
  _ ← bail_if (MAX_PROTOCOL_FEE_BPS <? fee)
        (ArInvariant "incident protocol fee share exceeds maximum");
  user_share_bps ← big_sub BPS fee;
  totals ← fold_m (add_row user_share_bps) (replicate (length (run_pool_addrs run)) 0) (ko_rows output);
  _ ← bail_if (negb (bool_decide (totals = ko_pool_payouts output)))
        (ArInvariant "pool payout totals do not equal grossed row sums");
  digest ← map_err (fun error => ArCompute (typed_data_error_to_string error))
             (settlement_digest (digest_input_of run config));
  bail_if (negb (eq_ignore_ascii_case digest (run_digest run)))
    (ArInvariant "settlement digest does not reproduce").
End Verify.

(** *** JSON artifacts *)

Section Json.
Context `{HexCrate}.

Definition number (n : N) : Value := VNumber (PosInt n).
Definition decimal_text (n : N) : Value := VString (to_decimal n).

Definition anchor_json (anchor : BlockAnchor) : Value :=
  VObject [("number", decimal_text (ba_number anchor));
           ("timestamp", decimal_text (ba_timestamp anchor)); ("hash", VString (ba_hash anchor))].
Definition metrics_json (metrics : RpcMetrics) : Value :=
  VObject [("logicalRequests", number (logical_requests metrics));
           ("transportAttempts", number (transport_attempts metrics));
           ("transportResponses", number (transport_responses metrics));
           ("transportRetries", number (transport_retries metrics))].
Definition log_metrics_json (metrics : LogMetrics) : Value :=
  VObject [("requests", number (lm_requests metrics)); ("bisections", number (lm_bisections metrics));
           ("errors", number (lm_errors metrics)); ("elapsedMs", number (lm_elapsed_ms metrics))].

Definition row_json (run : SettlementRun) (include_proofs : bool) (row : SettledRow) : Value :=
  VObject ([("claimId", decimal_text (sr_claim_id row)); ("user", VString (address_to_string (sr_user row)));
    ("escrowAmount", decimal_text (sr_escrow_amount row));
    ("eligibleAmount", decimal_text (sr_eligible_amount row));
    ("lossUsd", decimal_text (sr_loss_usd row));
    ("grossEarnedScore", decimal_text (sr_gross_earned_score row));
    ("earnedScore", decimal_text (sr_earned_score row));
    ("scoreSpent", decimal_text (sr_score_spent row));
    ("boostedScore", decimal_text (sr_boosted_score row));
    ("boosterAmount", decimal_text (sr_booster_amount row));
    ("eligibleBoosterAmount", decimal_text (sr_eligible_booster_amount row));
    ("payoutUsd", decimal_text (sr_payout_usd row));
    ("amounts", VArray (map decimal_text (sr_amounts row)));
    ("acceptPayoutRecommended", VBool (existsb (fun amount => negb (amount =? 0)) (sr_amounts row)))] ++
    if include_proofs then
      [("proof", VArray (map VString (default [] (ko_proofs (run_output run) !! sr_claim_id row))))]
    else []).

Definition score_source_json (source : ScoreSourceMetadata) : Value :=
  match source with
  | MetaRaw as_of_block =>
      VObject [("kind", VString "raw-rpc"); ("asOfBlock", decimal_text as_of_block)]
  | MetaBulk as_of_block as_of_block_hash indexed_transfers indexed_tokens tracked_accounts =>
      VObject [("kind", VString "ephemeral-bulk-rpc"); ("asOfBlock", decimal_text as_of_block);
        ("asOfBlockHash", VString as_of_block_hash); ("indexedTransfers", number indexed_transfers);
        ("indexedTokens", number indexed_tokens); ("trackedAccounts", number tracked_accounts)]
  | MetaCheckpoint path as_of_block as_of_block_hash indexed_transfers indexed_tokens =>
      VObject [("kind", VString "checkpoint"); ("path", VString path);
        ("asOfBlock", decimal_text as_of_block); ("asOfBlockHash", VString as_of_block_hash);
        ("indexedTransfers", number indexed_transfers); ("indexedTokens", number indexed_tokens)]
  end.

(** [serde_json] orders object keys; the fields are listed as the source does. *)
Definition artifact (run : SettlementRun) (config : BootstrapConfig) (include_proofs : bool) : Value :=
  let output := run_output run in
  let anchors := run_anchors run in
  VObject
   [("schemaVersion", number 2); ("configVersion", VString (cfg_version config));
    ("configHash", VString (run_config_hash run));
    ("bootstrapConfig", VObject
      [("version", VString (cfg_version config)); ("chainId", decimal_text (cfg_chain_id config));
       ("registry", VString (address_to_string (cfg_registry config)));
       ("defiInsurance", VString (address_to_string (cfg_defi_insurance config)));
       ("boosterId", decimal_text (cfg_booster_id config));
       ("boosterBoostBps", decimal_text (cfg_booster_boost_bps config));
       ("assetUsdFeed", VArray (map (fun '(asset_, feed) =>
          VArray [VString (address_to_string asset_); VString (address_to_string feed)])
          (btree_iter (cfg_asset_usd_feed config))));
       ("maxOracleStaleness", decimal_text (cfg_max_oracle_staleness config));
       ("maxLogRange", decimal_text MAX_LOG_RANGE); ("logResultCap", decimal_text LOG_RESULT_CAP);
       ("anchorBlock", decimal_text (ba_number (sa_open anchors)))]);
    ("teePcrHash", VString (run_tee_pcr_hash run));
    ("claimSetHash", VString (ko_claim_set_hash output));
    ("settlementInputHash", VString (ko_settlement_input_hash output));
    ("settlementInputRows", VArray (map (fun row => VObject
       [("user", VString (address_to_string (sr_user row)));
        ("grossEarnedScore", decimal_text (sr_gross_earned_score row))]) (ko_rows output)));
    ("chainId", number (cfg_chain_id config));
    ("blockAnchors", VObject
      [("finalizedHead", anchor_json (sa_finalized_head anchors)); ("open", anchor_json (sa_open anchors));
       ("reference", anchor_json (sa_reference anchors));
       ("windowEnd", anchor_json (sa_window_end anchors))]);
    ("rpcMetrics", metrics_json (run_rpc_metrics run));
    ("historicalLogMetrics", log_metrics_json (run_log_metrics run));
    ("scoreSource", score_source_json (run_score_source run));
    ("registry", VString (address_to_string (cfg_registry config)));
    ("defiInsurance", VString (address_to_string (cfg_defi_insurance config)));
    ("incidentId", decimal_text (run_incident_id run));
    ("referenceBlock", decimal_text (inc_reference_block (run_incident run)));
    ("windowEndBlock", decimal_text (ba_number (sa_window_end anchors)));
    ("twapRatio", decimal_text (run_twap_ratio run));
    ("underlyingUsd", decimal_text (run_underlying_usd run));
    ("root", VString (ko_root output)); ("onchainRoot", VString (inc_root (run_latest_incident run)));
    ("rootMatches", VBool (root_matches run)); ("settlementDigest", VString (run_digest run));
    ("unresolvedClaims", decimal_text (inc_unresolved_claims (run_window_incident run)));
    ("protocolFeeShareBps", decimal_text (inc_protocol_fee_share_bps (run_incident run)));
    ("poolOrder", VArray (map (fun a => VString (address_to_string a)) (run_pool_order run)));
    ("poolAddrs", VArray (map (fun a => VString (address_to_string a)) (run_pool_addrs run)));
    ("poolPayouts", VArray (map decimal_text (ko_pool_payouts output)));
    ("rows", VArray (map (row_json run include_proofs) (ko_rows output)))].
End Json.

(* ------------------------------------------------------------------ *)
(** ** Atomic JSON files *)

(** [PartialEq for Value], by its structure. *)
#[local] Existing Instance RefSerde.Number_eq_dec.
#[local] Instance leaf_eq_dec : EqDecision RefSerde.leaf := ltac:(unfold RefSerde.leaf; apply _).
#[export] Instance Value_eq_dec : EqDecision Value := fun v w =>
  match decide (RefSerde.tree_of v = RefSerde.tree_of w) with
  | left E => left (RefSerde.tree_of_inj v w E)
  | right N => right (fun E => N (f_equal RefSerde.tree_of E))
  end.

(** [serde_json] on a [Value]. *)
Class JsonText := {
  to_vec_pretty : Value → outcome string (list byte);
  value_from_slice : list byte → outcome string Value
}.

(** [Path::with_file_name]. *)
Definition with_file_name (path name : string) : string := (split_path path).1 +:+ name.

Definition temp_path (path : string) (clock : option N) (process_id : N) : outcome ArtifactError string :=
  name ← ok_or (file_name path) (ArInvariant "output path has no file name");
  nonce ← ok_or clock (ArInvariant "system clock is before epoch");
  Ok (with_file_name path ("." +:+ name +:+ "." +:+ to_decimal process_id +:+ "." +:+
        to_decimal nonce +:+ ".tmp")).

Section Write.
Context `{JsonText}.
(** [Path::is_dir], for the output directory. *)
Context (is_dir : string → bool).

Abbreviation io_error := (map_err_io ArIo).
(** [fs::read]. *)
Definition read_file (path : string) : fs_io IoError (list byte) :=
  bytes ← open_read path; fs_operation (fun files => (Ok bytes, files)) untouched.

(** The closure whose error triggers the removal of the temporary. *)
Definition write_and_rename (path parent temporary : string) (bytes : list byte) (value : Value) :
    fs_io ArtifactError unit :=
  _ ← io_error (create_new temporary);
  _ ← io_error (write_all temporary bytes);
  _ ← io_error sync_all;
  _ ← io_error (rename temporary path);
  _ ← io_error (open_directory parent);
  _ ← io_error (sync_directory parent);
  persisted ← io_error (read_file path);
  _ ← lift (bail_if (negb (bool_decide (persisted = bytes)))
        (ArInvariant "atomic artifact read-back differs from serialized bytes"));
  parsed ← lift (map_err ArJson (value_from_slice persisted));
  lift (bail_if (negb (bool_decide (parsed = value)))
    (ArInvariant "atomic artifact JSON read-back differs from source value")).

(** [result], with the removal of the temporary on an error. *)
Definition write_or_remove (path parent temporary : string) (bytes : list byte) (value : Value) :
    fs_io ArtifactError unit :=
  result ← attempt (F := ArtifactError) (write_and_rename path parent temporary bytes value);
  match result with
  | inr _ => mret tt
  | inl error =>
      _ ← attempt (F := ArtifactError) (remove_file temporary);
      lift (Err error)
  end.

Definition write_atomic_json (path : string) (value : Value) : fs_io ArtifactError unit :=
  let parent := match path_parent path with
                | Some parent => if str_is_empty parent then "." else parent
                | None => "."
                end in
  _ ← lift (bail_if (negb (is_dir parent))
        (ArInvariant ("output directory does not exist: " +:+ parent)));
  text ← lift (map_err ArJson (to_vec_pretty value));
  fs ← get_state;
  temporary ← lift (temp_path path (fs_clock fs) (fs_process_id fs));
  write_or_remove path parent temporary (text ++ [x0a]) value.
End Write.

(* ------------------------------------------------------------------ *)
(** ** Helper lemmas: the kernel's output reproduces *)

Section Reproduce.
Context `{HexLaws, Sha3Crate, SerdeJson}.

Lemma add_grossed_map {A} (share : N) (g a : A → N) (pools : list A) : share ≠ 0 →
  add_grossed share (map g pools) (map a pools) =
  Ok (map (fun pool => g pool + (a pool * BPS) / share) pools).
Proof.
  intros Hs. induction pools as [|pool pools IH]; [done|]. cbn [map add_grossed].
  rewrite big_div_nz by done. cbn [mbind outcome_bind]. by rewrite IH.
Qed.

Lemma add_rows_map {A} (share : N) (pools : list A) (amount : SettledRow → A → N) rows :
  share ≠ 0 → (∀ row, row ∈ rows → sr_amounts row = map (amount row) pools) →
  ∀ g, fold_m (add_row share) (map g pools) rows =
    Ok (map (fun pool => g pool + sum_N (map (fun row => (amount row pool * BPS) / share) rows)) pools).
Proof.
  intros Hs Ham. induction rows as [|row rows IH]; intros g; cbn [fold_m].
  - unfold mret, outcome_ret. f_equal. apply map_ext. intros. cbn. lia.
  - unfold add_row at 2. rewrite (Ham row) by left. rewrite !length_map, Nat.eqb_refl.
    cbn [negb bail_if mbind outcome_bind]. rewrite add_grossed_map by done.
    cbn [mbind outcome_bind]. rewrite IH by (intros; apply Ham; by right).
    f_equal. apply map_ext. intros pool. cbn [map sum_N foldr].
    fold (sum_N (map (fun row => (amount row pool * BPS) / share) rows)). lia.
Qed.

Lemma check_policy_fee input : check_policy input = Ok tt →
  ki_protocol_fee_share_bps input ≤ MAX_PROTOCOL_FEE_BPS.
Proof.
  unfold check_policy. intros Hp. apply bind_ok in Hp as (? & _ & Hp).
  apply bind_ok in Hp as (? & _ & Hp). apply bind_ok in Hp as (? & Hf%bail_if_ok & Hp).
  by apply N.ltb_ge in Hf.
Qed.

(** What the output of [allocate_with_events] is made of. *)
Lemma allocate_with_events_parts input events output :
  allocate_with_events input events = Ok output →
  ∃ claims, order_claims input events = Ok claims ∧
    let ordered := with_claims claims input in
    ki_protocol_fee_share_bps input ≤ MAX_PROTOCOL_FEE_BPS ∧
    ko_rows output = map (final_row ordered) (settled ordered) ∧
    ko_pool_payouts output = map (pool_payout ordered) (ki_pools input) ∧
    claim_set_hash events = Ok (ko_claim_set_hash output) ∧
    settlement_input_hash (map (fun row => (sr_user row, sr_gross_earned_score row)) (ko_rows output))
      = Ok (ko_settlement_input_hash output) ∧
    match ko_rows output with
    | [] => ko_root output = "0x" +:+ str_repeat 64 "0" ∧ ko_proofs output = ∅
    | _ => ∃ tree, SettlementTree_new (ki_incident_id input) (map merkle_row_of (ko_rows output)) = Ok tree ∧
        root_hex tree = ko_root output ∧ all_proofs_hex tree = ko_proofs output
    end.
Proof.
  unfold allocate_with_events. intros (rep & _ & Ha)%bind_ok.
  apply bind_ok in Ha as (claims & Hc & Ha). apply bind_ok in Ha as (out & Ho & Ha).
  apply bind_ok in Ha as (hash & Hh & <-%(inj Ok)). exists claims. split; [done|]. cbn zeta.
  set (ordered := with_claims claims input) in *. unfold allocate in Ho.
  apply bind_ok in Ho as ([] & Hp%check_policy_fee & Ho). split; [exact Hp|].
  change (ki_protocol_fee_share_bps ordered) with (ki_protocol_fee_share_bps input) in Hp.
  rewrite allocate_rows_closed in Ho
    by (unfold share, BPS, MAX_PROTOCOL_FEE_BPS in *; cbn [ordered with_claims ki_protocol_fee_share_bps]; lia).
  cbn [mbind outcome_bind] in Ho. unfold allocate_commit in Ho.
  apply bind_ok in Ho as (h1 & _ & Ho). apply bind_ok in Ho as (h2 & Hsih & Ho).
  apply bind_ok in Ho as ([root proofs] & Ht & <-%(inj Ok)).
  cbn [ko_rows ko_pool_payouts ko_claim_set_hash ko_settlement_input_hash ko_root ko_proofs].
  do 4 (split; [done|]). destruct (map (final_row ordered) (settled ordered)) as [|r rows].
  - by injection Ht as <- <-.
  - apply bind_ok in Ht as (tree & Hn & [= <- <-]). by exists tree.
Qed.

(** The run of a settlement whose output is the kernel's. *)
Lemma verify_run_of_kernel run config input events h :
  allocate_with_events input events = Ok (run_output run) →
  run_events run = events → run_incident_id run = ki_incident_id input →
  inc_protocol_fee_share_bps (run_incident run) = ki_protocol_fee_share_bps input →
  length (run_pool_addrs run) = length (ki_pools input) →
  config_hash config = Ok h → run_config_hash run = h →
  settlement_digest (digest_input_of run config) = Ok (run_digest run) →
  verify_run run config = Ok tt.
Proof.
  intros Hout Hev Hid Hfee Hlen Hch Hrh Hdig.
  apply allocate_with_events_parts in Hout as
    (claims & _ & Hmax & Hrows & Hpay & Hcs & Hsi & Htree).
  unfold verify_run. rewrite Hch. cbn [map_err mbind outcome_bind].
  rewrite Hrh, eq_ignore_ascii_case_refl. cbn [negb bail_if mbind outcome_bind].
  rewrite Hev, Hcs. cbn [map_err mbind outcome_bind].
  rewrite eq_ignore_ascii_case_refl. cbn [negb bail_if mbind outcome_bind].
  rewrite Hsi. cbn [map_err mbind outcome_bind].
  rewrite eq_ignore_ascii_case_refl. cbn [negb bail_if mbind outcome_bind].
  assert (verify_tree run = Ok tt) as ->.
  { unfold verify_tree. destruct (ko_rows (run_output run)) as [|r rows] eqn:Er; cbn [map].
    - destruct Htree as [-> ->]. rewrite String.eqb_refl, bool_decide_true by done. done.
    - destruct Htree as (tree & Hn & Hr & Hp). rewrite Hid. cbn [map] in Hn. rewrite Hn.
      cbn [map_err mbind outcome_bind]. rewrite Hr, eq_ignore_ascii_case_refl.
      cbn [negb bail_if mbind outcome_bind]. by rewrite Hp, bool_decide_true. }
  cbn [mbind outcome_bind]. rewrite Hlen, Hpay, length_map, Nat.eqb_refl.
  cbn [negb bail_if mbind outcome_bind]. rewrite Hfee, (proj2 (N.ltb_ge _ _)) by done.
  cbn [bail_if mbind outcome_bind]. rewrite big_sub_le
    by (unfold BPS, MAX_PROTOCOL_FEE_BPS in *; lia). cbn [mbind outcome_bind].
  set (ordered := with_claims claims input) in *.
  assert (replicate (length (ki_pools input)) 0 = map (fun _ => 0) (ki_pools input)) as ->.
  { clear. induction (ki_pools input) as [|p l IH]; simpl; [done|]. by rewrite IH. }
  rewrite Hrows, (add_rows_map _ _ (fun row pool =>
    amount_of ordered (sr_payout_usd row) pool)).
  - cbn [mbind outcome_bind]. rewrite bool_decide_true.
    + cbn [negb bail_if mbind outcome_bind]. rewrite Hdig. cbn [map_err mbind outcome_bind].
      by rewrite eq_ignore_ascii_case_refl.
    + apply map_ext. intros pool. rewrite map_map. cbn. done.
  - unfold BPS, MAX_PROTOCOL_FEE_BPS in *. lia.
  - intros row (r & <- & _)%list_elem_of_In%in_map_iff. done.
Qed.
End Reproduce.

(* ------------------------------------------------------------------ *)
(** ** Helper lemmas: writing an artifact *)

Section WriteFacts.
Context `{JsonText} (path temporary : string) (bytes : list byte) (before : Files).
Hypothesis Hne : temporary ≠ path.

Definition others_kept (files : Files) : Prop :=
  ∀ other, other ≠ path → other ≠ temporary → files !! other = before !! other.
Definition not_written (files : Files) : Prop := others_kept files ∧ files !! path = before !! path.
Definition written (files : Files) : Prop := others_kept files ∧ files !! path = Some bytes.
Definition settled_file (files : Files) : Prop := not_written files ∨ written files.

Lemma not_written_temporary f files :
  not_written files → not_written (partial_alter f temporary files).
Proof.
  intros [Hk Ho]. split; [intros other Hp Ht; rewrite lookup_partial_alter_ne by done; by apply Hk|].
  by rewrite lookup_partial_alter_ne.
Qed.
Lemma settled_temporary f files :
  settled_file files → settled_file (partial_alter f temporary files).
Proof.
  intros [Hn|[Hk Hw]]; [left; by apply not_written_temporary|right]. split.
  - intros other Hp Ht. rewrite lookup_partial_alter_ne by done. by apply Hk.
  - by rewrite lookup_partial_alter_ne.
Qed.

Lemma triple_write_and_rename parent value :
  triple not_written (write_and_rename path parent temporary bytes value)
    (fun _ files => written files ∧ value_from_slice bytes = Ok value) settled_file.
Proof.
  assert (∀ files, not_written files → settled_file files) as Hns by (by left).
  assert (∀ files, written files → settled_file files) as Hws by (by right).
  assert (∀ {A} P (m : fs_io IoError A), reads m → (∀ files, P files → settled_file files) →
    triple P (map_err_io ArIo m) (fun _ => P) settled_file) as Hread.
  { intros A P m Hm HP. apply triple_map_err. eapply triple_post; [by apply triple_reads|done|done]. }
  unfold write_and_rename. eapply (triple_bind _ _ (fun _ => not_written)).
  { apply triple_map_err, triple_operation; [|by intros files n Ho; left].
    intros files Ho. destruct (files !! temporary); [by left|]. by apply not_written_temporary. }
  intros _. eapply (triple_bind _ _ (fun _ files => not_written files ∧ files !! temporary = Some bytes)).
  { apply triple_map_err, triple_operation.
    - intros files Ho. split; [by apply not_written_temporary|by rewrite lookup_insert_eq].
    - intros files n Ho. left. by apply not_written_temporary. }
  intros _. eapply (triple_bind _ _ (fun _ files => not_written files ∧ files !! temporary = Some bytes)).
  { apply Hread; [by apply reads_operation|]. intros files [Ho _]. by left. }
  intros _. eapply (triple_bind _ _ (fun _ => written)).
  { apply triple_map_err, triple_operation; [|intros files n [Ho _]; by left].
    intros files [[Hk Ho] Ht]. rewrite Ht. split.
    - intros other Hp Hnt. rewrite lookup_insert_ne, lookup_delete_ne by done. by apply Hk.
    - by rewrite lookup_insert_eq. }
  intros _. eapply (triple_bind _ _ (fun _ => written)); [by apply Hread; [apply reads_operation|]|].
  intros _. eapply (triple_bind _ _ (fun _ => written)); [by apply Hread; [apply reads_operation|]|].
  intros _. eapply (triple_bind _ _ (fun _ => written)).
  { apply Hread; [|done]. unfold read_file. apply reads_bind; [|intros]; by apply reads_operation. }
  intros persisted. apply triple_bind_lift; [done|].
  intros ? Hb%bail_if_ok%negb_false_iff%bool_decide_eq_true.
  apply triple_bind_lift; [done|]. intros parsed Hp%map_err_ok. apply triple_lift; [done|].
  intros ? files Hv%bail_if_ok%negb_false_iff%bool_decide_eq_true Hw. split; [done|congruence].
Qed.

Lemma triple_write_or_remove parent value :
  triple not_written (write_or_remove path parent temporary bytes value)
    (fun _ files => written files ∧ value_from_slice bytes = Ok value) settled_file.
Proof.
  unfold write_or_remove. eapply triple_bind.
  { eapply triple_post; [apply triple_attempt, triple_write_and_rename|intros r files Hr; exact Hr|done]. }
  intros [e|_]; [|apply triple_lift; [intros files [Hw _]; by right|by intros]].
  eapply (triple_bind _ _ (fun _ => settled_file)); [|intros; by apply triple_lift].
  eapply triple_post; [apply (triple_attempt _ _ (fun _ => settled_file) settled_file)|by intros [e'|a]|done].
  apply triple_operation; [|done]. intros files Hs. destruct (files !! temporary); [|done].
  by apply settled_temporary.
Qed.
End WriteFacts.

Lemma temp_path_ne path clock pid t : temp_path path clock pid = Ok t → t ≠ path.
Proof.
  unfold temp_path, with_file_name. intros (name & Hn%ok_or_ok & (nonce & _ & <-%(inj Ok))%bind_ok)%bind_ok.
  intros E. rewrite <-(split_path_join path) in E at 2. apply str_app_cancel in E.
  unfold file_name in Hn. destruct (_ || _ || _); [done|]. injection Hn as Hn. rewrite Hn in E.
  apply (f_equal String.length) in E. rewrite !str_app_length in E. cbn [String.length] in E. lia.
Qed.

(* ------------------------------------------------------------------ *)
(** ** Theorems *)

(** Writing an artifact is atomic and verified: whatever fails or crashes, the
    output file afterwards holds what it held before or the complete new text;
    on success it holds the pretty-printed value and a newline, which parses back
    to the value; no other file but the temporary changes. *)
Theorem write_atomic_json_spec `{JsonText} (is_dir : string → bool) (path : string) (value : Value)
    (fs fs' : FileSystem) (r : outcome ArtifactError unit) :
  write_atomic_json is_dir path value fs = (r, fs') →
  (fs_files fs' !! path = fs_files fs !! path ∨
   ∃ text, to_vec_pretty value = Ok text ∧ fs_files fs' !! path = Some (text ++ [x0a])) ∧
  (r = Ok tt → ∃ text, to_vec_pretty value = Ok text ∧
     fs_files fs' !! path = Some (text ++ [x0a]) ∧ value_from_slice (text ++ [x0a]) = Ok value) ∧
  (∀ other, other ≠ path → temp_path path (fs_clock fs) (fs_process_id fs) ≠ Ok other →
     fs_files fs' !! other = fs_files fs !! other).
Proof.
  unfold write_atomic_json. cbn zeta. set (parent := match path_parent path with Some _ => _ | None => _ end).
  unfold lift at 1, mbind at 1, io_bind at 1.
  destruct (bail_if _ _) as [u|e|s]; [|intros [= <- <-]; split; [by left|split; [discriminate|done]]|intros [= <- <-]; split; [by left|split; [discriminate|done]]].
  unfold lift at 1, mbind at 1, io_bind at 1.
  destruct (to_vec_pretty value) as [text|e|s] eqn:Et; cbn [map_err];
    [|intros [= <- <-]; split; [by left|split; [discriminate|done]]|intros [= <- <-]; split; [by left|split; [discriminate|done]]].
  unfold get_state at 1, mbind at 1, io_bind at 1. unfold lift at 1, mbind at 1, io_bind at 1.
  destruct (temp_path path (fs_clock fs) (fs_process_id fs)) as [t|e|s] eqn:Ep;
    [|intros [= <- <-]; split; [by left|split; [discriminate|done]]|intros [= <- <-]; split; [by left|split; [discriminate|done]]].
  pose proof (triple_write_or_remove path t (text ++ [x0a]) (fs_files fs) (temp_path_ne _ _ _ _ Ep)
    parent value fs (conj (fun _ _ _ => eq_refl) eq_refl)) as Ht.
  intros Hw. rewrite Hw in Ht.
  assert (settled_file path t (text ++ [x0a]) (fs_files fs) (fs_files fs') ∧
    (r = Ok tt → written path t (text ++ [x0a]) (fs_files fs) (fs_files fs') ∧
       value_from_slice (text ++ [x0a]) = Ok value)) as [Hs Hok].
  { destruct r as [[]|e|s]; [destruct Ht as [Hwr Hp]; split; [by right|done]|done..]. }
  split; [|split].
  - destruct Hs as [[_ Ho]|[_ Ho]]; [by left|right; by exists text].
  - intros [[_ Ho] Hp]%Hok. by exists text.
  - intros other Hp Hnt. assert (other ≠ t) by congruence. destruct Hs as [[Hk _]|[Hk _]]; by apply Hk.
Qed.

(** The kernel's output always verifies: a run that carries the kernel's output
    for its own events, incident and fee, with the configuration's hash and the
    digest of those values, passes every check of [verify_run]; the root, the
    proofs, the pool totals and the hashes reproduce. *)
Theorem verify_run_accepts_kernel `{HexLaws, Sha3Crate, SerdeJson} (run : SettlementRun)
    (config : BootstrapConfig) (input : KernelInput) :
  allocate_with_events input (run_events run) = Ok (run_output run) →
  run_incident_id run = ki_incident_id input →
  inc_protocol_fee_share_bps (run_incident run) = ki_protocol_fee_share_bps input →
  length (run_pool_addrs run) = length (ki_pools input) →
  config_hash config = Ok (run_config_hash run) →
  settlement_digest (digest_input_of run config) = Ok (run_digest run) →
  verify_run run config = Ok tt.
Proof. intros. by eapply verify_run_of_kernel. Qed.

(* ------------------------------------------------------------------ *)
(** ** Evaluated instances *)

#[local] Existing Instances RefHex.hex_crate RefHex.hex_laws RefSha3.sha3_crate RefSerde.serde_json.

Definition demo_value : Value := VObject [("root", VString ZERO_ROOT); ("chainId", number 1)].
Definition demo_text : list byte := as_bytes "{root:0,chainId:1}".
#[local] Instance demo_json_text : JsonText := {|
  to_vec_pretty value := if bool_decide (value = demo_value) then Ok demo_text else Err "unknown";
  value_from_slice bytes :=
    if bool_decide (bytes = demo_text ++ [x0a]) then Ok demo_value else Err "expected value"
|}.

(** The rename is refused by the disk: the old file stays. *)
Definition demo_out_fs : FileSystem :=
  mkFileSystem {["/out/run.json" := [x41]]} [NoFault; NoFault; NoFault; IoFault "read-only" 0] (Some 9) 4.

Example write_atomic_json_spec_witness :
  ∃ r fs', write_atomic_json (fun _ => true) "/out/run.json" demo_value demo_out_fs = (r, fs') ∧
    fs_files fs' !! "/out/run.json" = Some [x41] ∧
    (fs_files fs' !! "/out/run.json" = Some [x41] ∨
     ∃ text, to_vec_pretty demo_value = Ok text ∧ fs_files fs' !! "/out/run.json" = Some (text ++ [x0a])).
Proof.
  destruct (write_atomic_json (fun _ => true) "/out/run.json" demo_value demo_out_fs) as [r fs'] eqn:E.
  exists r, fs'. split; [reflexivity|]. split.
  - change fs' with (r, fs').2. rewrite <-E. vm_compute. reflexivity.
  - exact (proj1 (write_atomic_json_spec (fun _ => true) "/out/run.json" demo_value demo_out_fs fs' r E)).
Defined.

Definition demo_incident : Incident :=
  mkIncident sample_user 0 100 90 500 ZERO_ROOT 2 ZERO_ROOT ZERO_ROOT
    (ki_protocol_fee_share_bps (demo_input demo_claims)).
Definition demo_anchor : BlockAnchor := mkBlockAnchor 100 900 ZERO_ROOT.
Definition demo_run (output : KernelOutput) (hash digest : string) : SettlementRun :=
  mkSettlementRun (ki_incident_id (demo_input demo_claims)) demo_incident demo_incident demo_incident
    (mkSettlementAnchors demo_anchor demo_anchor demo_anchor demo_anchor) hash ZERO_ROOT
    (map (fun _ => sample_user) (ki_pools (demo_input demo_claims)))
    (map (fun _ => other_user) (ki_pools (demo_input demo_claims))) 1 1 demo_events output digest
    (MetaRaw 1) (mkRpcMetrics 0 0 0 0) default_log_metrics.

Example verify_run_accepts_kernel_witness :
  ∃ output hash digest, allocate_with_events (demo_input demo_claims) demo_events = Ok output ∧
    verify_run (demo_run output hash digest) demo_config = Ok tt.
Proof.
  destruct (allocate_with_events (demo_input demo_claims) demo_events) as [output|e|s] eqn:Eo;
    [|vm_compute in Eo; discriminate Eo|vm_compute in Eo; discriminate Eo].
  destruct (config_hash demo_config) as [hash|e|s] eqn:Eh;
    [|vm_compute in Eh; discriminate Eh|vm_compute in Eh; discriminate Eh].
  destruct (settlement_digest (digest_input_of (demo_run output hash "") demo_config))
    as [digest|e|s] eqn:Ed.
  2,3: vm_compute in Eo; injection Eo as <-; vm_compute in Ed; discriminate Ed.
  exists output, hash, digest. split; [reflexivity|].
  apply (verify_run_accepts_kernel (demo_run output hash digest) demo_config (demo_input demo_claims));
    [exact Eo|reflexivity|reflexivity|reflexivity|exact Eh|exact Ed].
Defined.
