(* ===== verification/Engine.v ===== *)
(** * The settlement engine ([src/engine.rs])

    [build_settlement] reads an incident at pinned finalized blocks, replays its
    claim set, resolves policy, pools, prices and scores, allocates the payout
    and signs it off with a digest, after every commitment has reproduced.  The
    world is the file system (for the checkpoint source) beside the RPC. *)

From S2P Require Import Prelude Bytes Text Commit ScoreCore Merkle Kernel TypedData Rpc Abi Config.
From S2P Require Import Chain ChainConfig History Checkpoint CheckpointStore Replay ReplayFacts.
From S2P Require Import Artifact.
From Stdlib Require Import Strings.Byte.

Open Scope string_scope.
Open Scope N_scope.
Open Scope list_scope.

Inductive ScoreMode :=
  | RawMode
  | BulkMode
  | CheckpointMode (path : string) (integrity_key : list byte).

(** [EngAnchorsDiffer] is the [Invariant] whose text prints both incidents. *)
Inductive EngineError :=
  | EngChain (error : ChainError)
  | EngCheckpoint (error : CheckpointError)
  | EngConfig (error : ConfigError)
  | EngKernel (error : KernelError)
  | EngTypedData (error : TypedDataError)
  | EngInvariant (message : string)
  | EngAnchorsDiffer (provisional finalized : Incident).

Definition assert_incident_anchors (provisional finalized : Incident) : outcome EngineError unit :=
  bail_if (negb (bool_decide (inc_insured_token provisional = inc_insured_token finalized)) ||
           negb (inc_reference_block provisional =? inc_reference_block finalized) ||
           negb (inc_open_block provisional =? inc_open_block finalized) ||
           negb (inc_protocol_fee_share_bps provisional =? inc_protocol_fee_share_bps finalized))
    (EngAnchorsDiffer provisional finalized).

(** The settlement phase of an incident without a standing root. *)
Definition check_phase (provisional : Incident) (anchors : SettlementAnchors) (claim_deadline : N) :
    outcome EngineError unit :=
  if eq_ignore_ascii_case (inc_root provisional) ZERO_ROOT then
    let finalized_at := ba_timestamp (sa_finalized_head anchors) in
    phase_window ← ok_or
      (window ← checked_sub claim_deadline (ba_timestamp (sa_open anchors));
       if window =? 0 then None else Some window)
      (EngInvariant "invalid snapshotted incident phase window");
    settlement_deadline ← ok_or (checked_add claim_deadline phase_window)
      (EngInvariant "settlement deadline overflow");
    _ ← bail_if (finalized_at <=? claim_deadline)
          (EngInvariant ("settlement phase is not open: finalized timestamp " +:+
             to_decimal finalized_at +:+ " is not after claim deadline " +:+ to_decimal claim_deadline));
    bail_if (settlement_deadline <? finalized_at)
      (EngInvariant ("settlement phase expired: finalized timestamp " +:+ to_decimal finalized_at +:+
         " exceeds deadline " +:+ to_decimal settlement_deadline))
  else Ok tt.

(** The replayed claim set against the counters of the contract. *)
Definition check_replay (window_incident : Incident) (claim_deadline : N) (replay : ClaimSetReplay) :
    outcome EngineError unit :=
  _ ← bail_if (negb (csr_unresolved_claims replay =? inc_unresolved_claims window_incident))
        (EngInvariant ("unresolved claim count mismatch: replayed " +:+
           to_decimal (csr_unresolved_claims replay) +:+ ", on-chain " +:+
           to_decimal (inc_unresolved_claims window_incident)));
  bail_if (negb (eq_ignore_ascii_case (csr_hash replay) (inc_claim_set_hash window_incident)))
    (EngInvariant ("claim-set hash mismatch: replayed " +:+ csr_hash replay +:+ ", on-chain " +:+
       inc_claim_set_hash window_incident)).

(** [registrations]: a later registration of an id replaces an earlier one. *)
Definition registrations_of (events : list ClaimEvent) : gmap N ClaimEvent :=
  fold_left (fun m event => <[ev_claim_id event := event]> m)
    (List.filter (fun event => match ev_kind event with Register => true | Cancel => false end) events) ∅.
Definition live_events_of (registrations : gmap N ClaimEvent) (live_claim_ids : list N) :
    outcome EngineError (list ClaimEvent) :=
  mapM (fun claim_id => ok_or (registrations !! claim_id)
    (EngInvariant ("missing registration for live claim " +:+ to_decimal claim_id))) live_claim_ids.
Definition users_of (events : list ClaimEvent) : gset Address := list_to_set (map ev_user events).

(** Score cutoff: the holding margin before the reference block. *)
Definition score_cutoff (reference_block margin : N) : N :=
  if margin <? reference_block then reference_block - margin else 1.

(** What is read of the incident before any policy. *)
Record Snapshot := mkSnapshot {
  sn_provisional : Incident;
  sn_anchors : SettlementAnchors;
  sn_tee_pcr_hash : string;
  sn_events : list ClaimEvent;
  sn_event_metrics : LogMetrics;
  sn_window_incident : Incident;
  sn_replay : ClaimSetReplay
}.
(** The resolved policy, pools and prices. *)
Record Terms := mkTerms {
  tm_config : IncidentConfig;
  tm_insured_decimals : N;
  tm_topology : PoolTopology;
  tm_booster : option boosterConfigReturn;
  tm_pools : list PoolInput;
  tm_max_payout_bps : N;
  tm_twap_ratio : N;
  tm_underlying_usd : N
}.
Inductive ScoreSource :=
  | FromRpc
  | FromBulk (source : BulkScoreSource)
  | FromCheckpoint (source : CheckpointScoreSource) (integrity_key : list byte).

Section Engine.
Context `{HexCrate, Sha3Crate, AbiCodec, SerdeJson, HmacCrate, CheckpointJson}.
Context {W : Type} `{!RpcIface W}.

Definition engine_io {A} : io W ChainError A → io W EngineError A := map_err_io EngChain.
Definition assert_code (address : Address) (label : string) (block : N) : io W EngineError unit :=
  engine_io (assert_contract_code_at (address_to_string address) label block).

Definition require_engine_chain (expected : N) : io W EngineError unit :=
  actual_chain ← engine_io chain_id;
  lift (bail_if (negb (actual_chain =? expected))
    (EngInvariant ("wrong chain: RPC reports " +:+ to_decimal actual_chain +:+ ", expected " +:+
       to_decimal expected))).
Definition require_incident (incident : Incident) (incident_id : N) : outcome EngineError unit :=
  bail_if (address_is_zero (inc_insured_token incident))
    (EngInvariant ("incident " +:+ to_decimal incident_id +:+ " does not exist")).

Definition settlement_config_from_registry (CHAIN_ID : N) (registry_ : Address) (incident_id : N) :
    io W EngineError BootstrapConfig :=
  _ ← require_engine_chain CHAIN_ID;
  defi_insurance ← engine_io (defi_insurance_at registry_ None);
  _ ← lift (bail_if (address_is_zero defi_insurance)
              (EngInvariant "Registry defiInsurance is zero"));
  incident ← engine_io (incident_at defi_insurance incident_id None);
  _ ← lift (require_incident incident incident_id);
  engine_io (derive_bootstrap_config_at CHAIN_ID registry_ defi_insurance (inc_open_block incident)).

Definition read_snapshot (config : BootstrapConfig) (incident_id : N) : io W EngineError Snapshot :=
  let defi := cfg_defi_insurance config in
  _ ← require_engine_chain (cfg_chain_id config);
  provisional ← engine_io (incident_at defi incident_id None);
  _ ← lift (require_incident provisional incident_id);
  let open_block := inc_open_block provisional in
  claim_deadline ← engine_io (incident_claim_deadline_at defi incident_id open_block);
  anchors ← engine_io (finalized_settlement_anchors (inc_reference_block provisional) open_block
                         claim_deadline);
  _ ← lift (check_phase provisional anchors claim_deadline);
  finalized_incident ← engine_io (incident_at defi incident_id
                         (Some (ba_number (sa_finalized_head anchors))));
  _ ← lift (assert_incident_anchors provisional finalized_incident);
  _ ← assert_code (cfg_registry config) "Registry" open_block;
  tee_pcr_hash ← engine_io (incident_tee_pcr_hash_at defi incident_id open_block);
  _ ← assert_code defi "DefiInsurance" open_block;
  _ ← assert_code (inc_insured_token provisional) "insured token" open_block;
  let window_end := ba_number (sa_window_end anchors) in
  '(events, event_metrics) ← engine_io (read_input_events defi incident_id open_block window_end
                               MAX_LOG_RANGE LOG_RESULT_CAP);
  window_incident ← engine_io (incident_at defi incident_id (Some window_end));
  _ ← lift (assert_incident_anchors provisional window_incident);
  _ ← lift (bail_if (negb (inc_phase_deadline window_incident =? claim_deadline))
        (EngInvariant ("historical claim deadline mismatch: reconstructed " +:+
           to_decimal claim_deadline +:+ ", on-chain " +:+
           to_decimal (inc_phase_deadline window_incident))));
  replay ← lift (map_err EngKernel (replay_claim_set events));
  _ ← lift (check_replay window_incident claim_deadline replay);
  mret (mkSnapshot provisional anchors tee_pcr_hash events event_metrics window_incident replay).

(** The contracts behind one pool must have code. *)
Definition assert_pool (config : BootstrapConfig) (open_block window_end : N) (index : nat)
    (_ : unit) (pair : Address * Address) : io W EngineError unit :=
  let '(asset_, pool) := pair in
  let i := to_decimal (N.of_nat index) in
  feed ← lift (map_err EngConfig (asset_feed config asset_));
  _ ← assert_code pool ("cover pool " +:+ i) open_block;
  _ ← assert_code asset_ ("pool asset " +:+ i) window_end;
  assert_code feed ("USD feed for pool asset " +:+ i) window_end.

Definition pool_input_of (state : PoolState) : PoolInput :=
  mkPoolInput (ps_balance state) (ps_asset_usd state) (ps_asset_decimals state).

Definition include_booster (events : list ClaimEvent) (live_claim_ids : list N) : bool :=
  existsb (fun event => bool_decide (ev_claim_id event ∈ live_claim_ids) &&
                        negb (ev_booster_amount event =? 0)) events.

Definition resolve_terms (config : BootstrapConfig) (snapshot : Snapshot) : io W EngineError Terms :=
  let provisional := sn_provisional snapshot in
  let open_block := inc_open_block provisional in
  let reference_block := inc_reference_block provisional in
  let window_end := ba_number (sa_window_end (sn_anchors snapshot)) in
  incident_config ← engine_io (incident_config_at config (inc_insured_token provisional) open_block);
  _ ← assert_code (ic_underlying_price_oracle incident_config) "underlying USD oracle" window_end;
  _ ← (if address_is_zero (ic_conversion_address incident_config) then mret tt
       else assert_code (ic_conversion_address incident_config) "underlying conversion" reference_block);
  _ ← fold_m (fun (_ : unit) scored => assert_code (st_token scored) "scored token" reference_block)
        tt (ic_scored_tokens incident_config);
  insured_decimals ← engine_io (decimals_at (inc_insured_token provisional) open_block);
  policy ← engine_io (pool_policy_at config open_block
             (include_booster (sn_events snapshot) (csr_live_claim_ids (sn_replay snapshot))));
  let topology := pp_topology policy in
  let pool_pairs := zip (pt_assets topology) (pt_pool_addrs topology) in
  _ ← fold_im (assert_pool config open_block window_end) tt pool_pairs;
  states ← engine_io (pool_states_at config pool_pairs window_end);
  _ ← lift (bail_if (10000 <? pp_max_payout_bps policy)
        (EngInvariant ("maxCoverPoolPayoutBps exceeds 10000: " +:+ to_decimal (pp_max_payout_bps policy))));
  twap_ratio ← engine_io (twap_ratio_before incident_config reference_block);
  underlying_usd ← engine_io (price_usd_1e18 (ic_underlying_price_oracle incident_config) window_end
                                (cfg_max_oracle_staleness config));
  mret (mkTerms incident_config insured_decimals topology (pp_booster policy)
          (map pool_input_of states) (pp_max_payout_bps policy) twap_ratio underlying_usd).

(** *** Score sources *)

(** [current_dir] is [std::env::current_dir()]. *)
Definition open_source (current_dir : outcome IoError string) (config : BootstrapConfig)
    (incident_config : IncidentConfig) (cutoff : N) (users : gset Address) (score_mode : ScoreMode) :
    io (FileSystem * W) EngineError ScoreSource :=
  match score_mode with
  | RawMode => mret FromRpc
  | BulkMode =>
      source ← map_err_io EngCheckpoint (on_rpc (bulk_open incident_config cutoff users
                 (cfg_chain_id config) MAX_LOG_RANGE LOG_RESULT_CAP));
      mret (FromBulk source)
  | CheckpointMode path integrity_key =>
      source ← map_err_io EngCheckpoint (checkpoint_open current_dir incident_config cutoff path
                 (cfg_chain_id config) integrity_key MAX_LOG_RANGE LOG_RESULT_CAP);
      mret (FromCheckpoint source integrity_key)
  end.

Definition source_metadata (source : ScoreSource) (cutoff : N) : ScoreSourceMetadata :=
  match source with
  | FromRpc => MetaRaw cutoff
  | FromBulk source =>
      let m := bs_metadata source in
      MetaBulk (bm_as_of_block m) (bm_as_of_block_hash m) (bm_indexed_transfers m)
        (bm_indexed_tokens m) (bm_tracked_accounts m)
  | FromCheckpoint source _ =>
      let m := css_metadata source in
      MetaCheckpoint (cm_path m) (cm_as_of_block m) (cm_as_of_block_hash m)
        (cm_indexed_transfers m) (cm_indexed_tokens m)
  end.
Definition source_log_metrics (source : ScoreSource) (event_metrics : LogMetrics) : LogMetrics :=
  match source with
  | FromRpc => event_metrics
  | FromBulk source => merge_metrics event_metrics (bm_log_metrics (bs_metadata source))
  | FromCheckpoint source _ => merge_metrics event_metrics (cm_log_metrics (css_metadata source))
  end.

(** The gross score of one claimant, and the metrics with the queries it took. *)
Definition gross_score_from (source : ScoreSource) (incident_config : IncidentConfig) (cutoff : N)
    (user : Address) (log_metrics : LogMetrics) : io W EngineError (N * LogMetrics) :=
  match source with
  | FromBulk source =>
      score ← lift (map_err EngCheckpoint (bulk_gross_score_of source user));
      mret (score, log_metrics)
  | FromCheckpoint source _ =>
      score ← map_err_io EngCheckpoint (checkpoint_gross_score_of source user);
      mret (score, log_metrics)
  | FromRpc =>
      '(score, score_metrics) ← engine_io (earned_score_of (ic_scored_tokens incident_config) user
                                  cutoff MAX_LOG_RANGE LOG_RESULT_CAP);
      mret (score, merge_metrics log_metrics score_metrics)
  end.

(** *** Claims *)

Definition booster_held_of (booster : option boosterConfigReturn) (hold_from reference_block : N)
    (event : ClaimEvent) (log_metrics : LogMetrics) : io W EngineError (N * LogMetrics) :=
  match booster with
  | Some booster =>
      if ev_booster_amount event =? 0 then mret (0, log_metrics)
      else
        '(minimum, metrics) ← engine_io (min_erc1155_balance_over (bc_collection booster)
          (ev_user event) (bc_tokenId booster) hold_from reference_block MAX_LOG_RANGE LOG_RESULT_CAP);
        mret (minimum, merge_metrics log_metrics metrics)
  | None => mret (0, log_metrics)
  end.

(** One iteration of the claim loop. *)
Definition resolve_claim (source : ScoreSource) (terms : Terms) (cutoff reference_block : N)
    (minimums spent_scores : gmap Address N) (st : list ClaimInput * LogMetrics) (event : ClaimEvent) :
    io W EngineError (list ClaimInput * LogMetrics) :=
  let '(claims, log_metrics) := st in
  let user := ev_user event in
  min_held ← lift (ok_or (minimums !! user)
    (EngInvariant ("missing eligibility replay for claimant " +:+ address_to_string user)));
  '(booster_held, log_metrics) ← booster_held_of (tm_booster terms) cutoff reference_block event
                                   log_metrics;
  '(gross_earned_score, log_metrics) ← gross_score_from source (tm_config terms) cutoff user
                                         log_metrics;
  spent_score ← lift (ok_or (spent_scores !! user)
    (EngInvariant ("missing spent score for " +:+ address_to_string user)));
  mret (claims ++ [mkClaimInput (ev_claim_id event) user (ev_amount event) min_held
                     gross_earned_score spent_score (ev_score_to_spend event)
                     (ev_booster_amount event) booster_held], log_metrics).

Definition resolve_claims (config : BootstrapConfig) (snapshot : Snapshot) (terms : Terms)
    (source : ScoreSource) (cutoff : N) (live_events : list ClaimEvent) :
    io W EngineError (list ClaimInput * LogMetrics) :=
  let provisional := sn_provisional snapshot in
  let accounts := users_of live_events in
  let log_metrics := source_log_metrics source (sn_event_metrics snapshot) in
  '(minimums, eligibility_metrics) ← engine_io (min_balances_over (inc_insured_token provisional)
    accounts cutoff (inc_reference_block provisional) MAX_LOG_RANGE LOG_RESULT_CAP);
  spent_scores ← engine_io (spent_scores_at (cfg_registry config) accounts (inc_open_block provisional));
  fold_m (resolve_claim source terms cutoff (inc_reference_block provisional) minimums spent_scores)
    ([], merge_metrics log_metrics eligibility_metrics) live_events.

Definition kernel_input_of (config : BootstrapConfig) (incident_id : N) (snapshot : Snapshot)
    (terms : Terms) (claims : list ClaimInput) : KernelInput :=
  {| ki_incident_id := incident_id; ki_coverage_bps := ic_coverage_bps (tm_config terms);
     ki_booster_boost_bps := cfg_booster_boost_bps config;
     ki_insured_decimals := tm_insured_decimals terms; ki_twap_ratio := tm_twap_ratio terms;
     ki_underlying_usd := tm_underlying_usd terms;
     ki_max_cover_pool_payout_bps := tm_max_payout_bps terms;
     ki_protocol_fee_share_bps := inc_protocol_fee_share_bps (sn_provisional snapshot);
     ki_pools := tm_pools terms; ki_claims := claims |}.

(** The run, once its output, hash, digest and last reads are known. *)
Definition run_of (incident_id : N) (snapshot : Snapshot) (terms : Terms) (source : ScoreSource)
    (cutoff : N) (output : KernelOutput) (latest : Incident) (config_hash digest : string)
    (metrics : RpcMetrics) (log_metrics : LogMetrics) : SettlementRun :=
  {| run_incident_id := incident_id; run_incident := sn_provisional snapshot;
     run_window_incident := sn_window_incident snapshot; run_latest_incident := latest;
     run_anchors := sn_anchors snapshot; run_config_hash := config_hash;
     run_tee_pcr_hash := sn_tee_pcr_hash snapshot; run_pool_order := pt_assets (tm_topology terms);
     run_pool_addrs := pt_pool_addrs (tm_topology terms); run_twap_ratio := tm_twap_ratio terms;
     run_underlying_usd := tm_underlying_usd terms; run_events := sn_events snapshot;
     run_output := output; run_digest := digest; run_score_source := source_metadata source cutoff;
     run_rpc_metrics := metrics; run_log_metrics := log_metrics |}.

(** The closing checks of a run. *)
Definition check_run (run : SettlementRun) (config : BootstrapConfig) : outcome EngineError unit :=
  _ ← bail_if (negb (is_unsettled run) && negb (root_matches run))
        (EngInvariant ("standing settlement root mismatch: on-chain " +:+
           inc_root (run_latest_incident run) +:+ ", recomputed " +:+ ko_root (run_output run)));
  map_err (fun error => EngInvariant ("internal artifact verification failed: " +:+
             artifact_error_to_string error)) (verify_run run config).

Definition finish_run (config : BootstrapConfig) (incident_id : N) (snapshot : Snapshot)
    (terms : Terms) (source : ScoreSource) (cutoff : N) (claims : list ClaimInput)
    (log_metrics : LogMetrics) : io W EngineError SettlementRun :=
  output ← lift (map_err EngKernel (allocate_with_events
             (kernel_input_of config incident_id snapshot terms claims) (sn_events snapshot)));
  _ ← lift (bail_if (negb (eq_ignore_ascii_case (ko_claim_set_hash output)
                             (inc_claim_set_hash (sn_window_incident snapshot))))
        (EngInvariant "kernel claim-set commitment differs after allocation"));
  config_hash ← lift (map_err EngConfig (config_hash config));
  digest ← lift (map_err EngTypedData (settlement_digest
    {| sd_chain_id := cfg_chain_id config; sd_verifying_contract := cfg_defi_insurance config;
       sd_incident_id := incident_id; sd_root := ko_root output;
       sd_unresolved_claims := inc_unresolved_claims (sn_window_incident snapshot);
       sd_pool_payouts := ko_pool_payouts output; sd_pool_addrs := pt_pool_addrs (tm_topology terms);
       sd_claim_set := ko_claim_set_hash output; sd_tee_pcr_hash := sn_tee_pcr_hash snapshot |}));
  latest ← engine_io (incident_at (cfg_defi_insurance config) incident_id None);
  _ ← engine_io (assert_anchors_unchanged (sn_anchors snapshot));
  w ← get_state;
  let run := run_of incident_id snapshot terms source cutoff output latest config_hash digest
               (rpc_metrics w) log_metrics in
  _ ← lift (check_run run config);
  mret run.

(** The source goes out of scope on an error: a checkpoint source drops its lock. *)
Definition drop_source (source : ScoreSource) : io (FileSystem * W) EngineError unit :=
  match source with
  | FromCheckpoint source _ => map_err_io EngCheckpoint (on_files (lock_drop (css_lock source)))
  | _ => mret tt
  end.
Definition commit_source (source : ScoreSource) : io (FileSystem * W) EngineError unit :=
  match source with
  | FromCheckpoint source integrity_key =>
      map_err_io EngCheckpoint (on_files (checkpoint_commit source integrity_key))
  | _ => mret tt
  end.

Definition build_settlement (current_dir : outcome IoError string) (config : BootstrapConfig)
    (incident_id : N) (score_mode : ScoreMode) : io (FileSystem * W) EngineError SettlementRun :=
  snapshot ← on_rpc (read_snapshot config incident_id);
  terms ← on_rpc (resolve_terms config snapshot);
  let registrations := registrations_of (sn_events snapshot) in
  live_events ← lift (live_events_of registrations (csr_live_claim_ids (sn_replay snapshot)));
  let cutoff := score_cutoff (inc_reference_block (sn_provisional snapshot))
                  (holding_margin_blocks (ic_params (tm_config terms))) in
  source ← open_source current_dir config (tm_config terms) cutoff (users_of live_events) score_mode;
  run ← guarded (drop_source source)
    (on_rpc ('(claims, log_metrics) ← resolve_claims config snapshot terms source cutoff live_events;
             finish_run config incident_id snapshot terms source cutoff claims log_metrics));
  _ ← commit_source source;
  mret run.
End Engine.

(* ------------------------------------------------------------------ *)
(** ** Helper lemmas *)

Section ModeFacts.
Context `{HexLaws, Sha3Crate, AbiCodec, SerdeJson, HmacLaws, CheckpointJsonLaws}.
Context {W : Type} `{!RpcIface W, !RpcLaws}.

(** What has to be true of the chain, and of the stored checkpoint, for the
    scores of a mode to be the specified ones. *)
Definition mode_truth (current_dir : outcome IoError string) (config : BootstrapConfig)
    (incident_config : IncidentConfig) (as_of : N) (users : gset Address)
    (h : Address → Address → N → N) (files : Files) (mode : ScoreMode) : Prop :=
  let tokens := ic_scored_tokens incident_config in
  match mode with
  | RawMode => ∀ user scored, user ∈ users → scored ∈ tokens →
      true_history (W := W) user as_of MAX_LOG_RANGE LOG_RESULT_CAP (st_token scored)
        (h (st_token scored) user)
  | BulkMode => ∀ scored, scored ∈ tokens → contributes_at scored as_of = true →
      true_token (W := W) as_of MAX_LOG_RANGE LOG_RESULT_CAP h (Some users) (st_token scored)
  | CheckpointMode checkpoint_path key => ∃ path,
      absolute_path current_dir checkpoint_path = Ok path ∧
      (∀ scored, scored ∈ tokens → rates_u64 scored) ∧
      (∀ scored, scored ∈ tokens → contributes_at scored as_of = true →
         true_transfers (W := W) None as_of MAX_LOG_RANGE LOG_RESULT_CAP (st_token scored)
           (h (st_token scored)) ∧ ∀ u, h (st_token scored) u 0 = 0) ∧
      stored_tracks path (cfg_chain_id config) key h files
  end.
End ModeFacts.

Section BuildFacts.
Context `{HexLaws, Sha3Crate, AbiCodec, SerdeJson, HmacCrate, CheckpointJson}.
Context {W : Type} `{!RpcIface W}.

Lemma check_phase_ok provisional anchors deadline : check_phase provisional anchors deadline = Ok tt →
  eq_ignore_ascii_case (inc_root provisional) ZERO_ROOT = true →
  ba_timestamp (sa_open anchors) < deadline ∧ deadline < ba_timestamp (sa_finalized_head anchors) ∧
  ba_timestamp (sa_finalized_head anchors) ≤ deadline + (deadline - ba_timestamp (sa_open anchors)) ∧
  deadline + (deadline - ba_timestamp (sa_open anchors)) ≤ u64_max.
Proof.
  unfold check_phase. intros Hc Hz. rewrite Hz in Hc. apply bind_ok in Hc as (window & Hw%ok_or_ok & Hc).
  apply bind_ok in Hc as (settle & Hs%ok_or_ok & Hc).
  apply bind_ok in Hc as (? & Ha%bail_if_ok%N.leb_gt & Hb%bail_if_ok%N.ltb_ge).
  unfold checked_sub, checked_add in *.
  destruct (N.leb_spec (ba_timestamp (sa_open anchors)) deadline) as [Hle|?]; [|done].
  cbn [mbind option_bind] in Hw. destruct (N.eqb_spec (deadline - ba_timestamp (sa_open anchors)) 0); [done|].
  injection Hw as <-.
  destruct (N.leb_spec (deadline + (deadline - ba_timestamp (sa_open anchors))) u64_max); [|done].
  injection Hs as <-. lia.
Qed.

Lemma check_replay_ok window_incident deadline replay : check_replay window_incident deadline replay = Ok tt →
  csr_unresolved_claims replay = inc_unresolved_claims window_incident ∧
  eq_ignore_ascii_case (csr_hash replay) (inc_claim_set_hash window_incident) = true.
Proof.
  unfold check_replay. intros (? & Ha%bail_if_ok%negb_false_iff%N.eqb_eq & Hb%bail_if_ok%negb_false_iff)%bind_ok.
  done.
Qed.

Lemma read_snapshot_ok config id w snapshot w' : read_snapshot (W := W) config id w = (Ok snapshot, w') →
  let window := sn_window_incident snapshot in
  check_phase (sn_provisional snapshot) (sn_anchors snapshot) (inc_phase_deadline window) = Ok tt ∧
  assert_incident_anchors (sn_provisional snapshot) window = Ok tt ∧
  replay_claim_set (sn_events snapshot) = Ok (sn_replay snapshot) ∧
  check_replay window (inc_phase_deadline window) (sn_replay snapshot) = Ok tt.
Proof.
  unfold read_snapshot. cbn zeta.
  intros (? & w1 & _ & (provisional & w2 & _ & (? & w3 & _ & (deadline & w4 & _ & Hs)%io_bind_ok)%io_bind_ok)
    %io_bind_ok)%io_bind_ok.
  apply io_bind_ok in Hs as (anchors & w5 & _ & Hs).
  apply io_bind_ok in Hs as ([] & w6 & [Hphase _]%lift_ok & Hs).
  do 6 (apply io_bind_ok in Hs as (? & ? & _ & Hs)).
  apply io_bind_ok in Hs as ([events metrics] & w7 & _ & Hs).
  apply io_bind_ok in Hs as (window & w8 & _ & Hs).
  apply io_bind_ok in Hs as ([] & w9 & [Hanchors _]%lift_ok & Hs).
  apply io_bind_ok in Hs as (? & w10 & [Hd%bail_if_ok%negb_false_iff%N.eqb_eq _]%lift_ok & Hs).
  apply io_bind_ok in Hs as (replay & w11 & [Hr%map_err_ok _]%lift_ok & Hs).
  apply io_bind_ok in Hs as ([] & w12 & [Hc _]%lift_ok & [<- _]%io_ret_ok).
  cbn. by rewrite Hd.
Qed.

Lemma live_events_ids registrations ids events :
  (∀ id e, registrations !! id = Some e → ev_claim_id e = id) →
  live_events_of registrations ids = Ok events → map ev_claim_id events = ids.
Proof.
  intros Hreg. revert events. unfold live_events_of.
  induction ids as [|id ids IH]; intros events; [by intros [= <-]|].
  intros (e & He%ok_or_ok & (es & Hes & <-%(inj Ok))%bind_ok)%bind_ok.
  cbn [map]. by rewrite (Hreg _ _ He), (IH es).
Qed.

Lemma live_events_registered registrations ids events e :
  live_events_of registrations ids = Ok events → e ∈ events → ∃ id, registrations !! id = Some e.
Proof.
  revert events. unfold live_events_of. induction ids as [|id ids IH]; intros events.
  - intros [= <-] He. by apply elem_of_nil in He.
  - intros (x & Hx%ok_or_ok & (xs & Hxs & <-%(inj Ok))%bind_ok)%bind_ok.
    intros [->|He]%elem_of_cons; [by exists id|by eapply IH].
Qed.

Lemma registrations_of_ids events id e : registrations_of events !! id = Some e →
  ev_claim_id e = id ∧ e ∈ events ∧ ev_kind e = Register.
Proof.
  unfold registrations_of.
  set (regs := List.filter _ events).
  assert (∀ x, x ∈ regs → x ∈ events ∧ ev_kind x = Register) as Hregs.
  { intros x Hx%list_elem_of_In. apply filter_In in Hx as [Hx Hk].
    split; [by apply list_elem_of_In|]. by destruct (ev_kind x). }
  assert (∀ m : gmap N ClaimEvent,
    (∀ i x, m !! i = Some x → ev_claim_id x = i ∧ x ∈ events ∧ ev_kind x = Register) →
    ∀ i x, fold_left (fun m event => <[ev_claim_id event := event]> m) regs m !! i = Some x →
    ev_claim_id x = i ∧ x ∈ events ∧ ev_kind x = Register) as Hall.
  { clearbody regs. induction regs as [|r regs IH]; intros m Hm; [exact Hm|]. cbn [fold_left].
    apply IH; [intros; apply Hregs; by right|]. intros i x.
    destruct (decide (ev_claim_id r = i)) as [<-|Hne].
    - rewrite lookup_insert_eq. intros [= <-]. split; [done|]. apply Hregs. by left.
    - rewrite lookup_insert_ne by done. apply Hm. }
  intros Hl. eapply Hall; [|exact Hl]. intros i x Hi. by rewrite lookup_empty in Hi.
Qed.

(** A claim input carries what its registration committed to. *)
Definition claim_of_event (claim : ClaimInput) (event : ClaimEvent) : Prop :=
  ci_claim_id claim = ev_claim_id event ∧ ci_user claim = ev_user event ∧
  ci_escrow_amount claim = ev_amount event ∧ ci_score_to_spend claim = ev_score_to_spend event ∧
  ci_booster_amount claim = ev_booster_amount event.

Lemma resolve_claims_ok config snapshot terms source cutoff live_events w claims metrics w' :
  resolve_claims (W := W) config snapshot terms source cutoff live_events w = (Ok (claims, metrics), w') →
  Forall2 claim_of_event claims live_events.
Proof.
  unfold resolve_claims. cbn zeta.
  intros ([minimums em] & w1 & _ & (spent & w2 & _ & Hf)%io_bind_ok)%io_bind_ok.
  refine (fold_m_io_inv _ (fun pre st => Forall2 claim_of_event st.1 pre) _ _ [] _ _ _ _ _ Hf);
    [|by constructor]. clear.
  intros pre event [cs m] w [cs' m'] w' Hp Hs. unfold resolve_claim in Hs.
  apply io_bind_ok in Hs as (held & w1 & _ & Hs).
  apply io_bind_ok in Hs as ([booster m1] & w2 & _ & Hs).
  apply io_bind_ok in Hs as ([score m2] & w3 & _ & Hs).
  apply io_bind_ok in Hs as (sp & w4 & _ & [[= <- <-] _]%io_ret_ok).
  cbn [fst] in *. apply Forall2_app; [done|]. by repeat constructor.
Qed.
End BuildFacts.

Section BuildParts.
Context `{HexLaws, Sha3Crate, AbiCodec, SerdeJson, HmacCrate, CheckpointJson}.
Context {W : Type} `{!RpcIface W}.

Lemma resolve_terms_pools config snapshot w terms w' :
  resolve_terms (W := W) config snapshot w = (Ok terms, w') →
  length (pt_pool_addrs (tm_topology terms)) = length (tm_pools terms).
Proof.
  unfold resolve_terms. cbn zeta. intros Hs.
  do 5 (apply io_bind_ok in Hs as (? & ? & _ & Hs)).
  apply io_bind_ok in Hs as (policy & w1 & Hp%map_err_io_ok & Hs).
  apply io_bind_ok in Hs as (? & w2 & _ & Hs).
  apply io_bind_ok in Hs as (states & w3 & Hst%map_err_io_ok & Hs).
  do 3 (apply io_bind_ok in Hs as (? & ? & _ & Hs)). apply io_ret_ok in Hs as [<- _].
  cbn [tm_topology tm_pools]. rewrite length_map.
  apply pool_states_at_sound in Hst as [Hm _]. apply (f_equal length) in Hm.
  rewrite length_map in Hm. rewrite Hm, length_zip_with.
  assert (length (pt_assets (pp_topology policy)) = length (pt_pool_addrs (pp_topology policy))) as Hl;
    [|lia].
  unfold pool_policy_at in Hp. apply io_bind_ok in Hp as (reads & w4 & _ & Hp).
  apply io_bind_ok in Hp as (pools & w5 & _ & Hp).
  apply io_bind_ok in Hp as (topology & w6 & [Ht _]%lift_ok & Hp).
  apply io_bind_ok in Hp as (? & w7 & _ & Hp). apply io_bind_ok in Hp as (? & w8 & _ & [<- _]%io_ret_ok).
  cbn [pp_topology]. unfold decode_pool_topology in Ht.
  apply bind_ok in Ht as (? & Hb%bail_if_ok%negb_false_iff%Nat.eqb_eq & Ht).
  apply bind_ok in Ht as (? & _ & <-%(inj Ok)). done.
Qed.

Lemma finish_run_ok config id snapshot terms source cutoff claims metrics w run w' :
  finish_run (W := W) config id snapshot terms source cutoff claims metrics w = (Ok run, w') →
  let input := kernel_input_of config id snapshot terms claims in
  allocate_with_events input (sn_events snapshot) = Ok (run_output run) ∧
  eq_ignore_ascii_case (ko_claim_set_hash (run_output run))
    (inc_claim_set_hash (sn_window_incident snapshot)) = true ∧
  config_hash config = Ok (run_config_hash run) ∧
  settlement_digest (digest_input_of run config) = Ok (run_digest run) ∧
  check_run run config = Ok tt ∧
  run_incident_id run = id ∧ run_incident run = sn_provisional snapshot ∧
  run_window_incident run = sn_window_incident snapshot ∧ run_anchors run = sn_anchors snapshot ∧
  run_events run = sn_events snapshot ∧ run_pool_addrs run = pt_pool_addrs (tm_topology terms) ∧
  run_score_source run = source_metadata source cutoff ∧
  ∃ w1 w2, assert_anchors_unchanged (W := W) (sn_anchors snapshot) w1 = (Ok tt, w2).
Proof.
  unfold finish_run. cbn zeta. intros (output & w1 & [Ho%map_err_ok _]%lift_ok & Hs)%io_bind_ok.
  apply io_bind_ok in Hs as (? & w2 & [Hc%bail_if_ok%negb_false_iff _]%lift_ok & Hs).
  apply io_bind_ok in Hs as (hash & w3 & [Hh%map_err_ok _]%lift_ok & Hs).
  apply io_bind_ok in Hs as (digest & w4 & [Hd%map_err_ok _]%lift_ok & Hs).
  apply io_bind_ok in Hs as (latest & w5 & _ & Hs).
  apply io_bind_ok in Hs as ([] & w6 & Ha%map_err_io_ok & Hs).
  apply io_bind_ok in Hs as (wm & w7 & _ & Hs).
  apply io_bind_ok in Hs as ([] & w8 & [Hk _]%lift_ok & [<- _]%io_ret_ok).
  repeat (split; [done|]). by exists w5, w6.
Qed.

(** What a settlement is made of. *)
Lemma build_settlement_parts current_dir config id mode fs w run fw' :
  build_settlement (W := W) current_dir config id mode (fs, w) = (Ok run, fw') →
  ∃ snapshot terms live_events claims source cutoff metrics w1 w2 w3 w4 w5 w6 w7,
    read_snapshot (W := W) config id w = (Ok snapshot, w1) ∧
    resolve_terms (W := W) config snapshot w1 = (Ok terms, w2) ∧
    live_events_of (registrations_of (sn_events snapshot)) (csr_live_claim_ids (sn_replay snapshot))
      = Ok live_events ∧
    cutoff = score_cutoff (inc_reference_block (sn_provisional snapshot))
               (holding_margin_blocks (ic_params (tm_config terms))) ∧
    open_source (W := W) current_dir config (tm_config terms) cutoff (users_of live_events) mode w3
      = (Ok source, w4) ∧
    resolve_claims (W := W) config snapshot terms source cutoff live_events w5 = (Ok (claims, metrics), w6) ∧
    finish_run (W := W) config id snapshot terms source cutoff claims metrics w6 = (Ok run, w7).
Proof.
  unfold build_settlement. cbn zeta.
  intros (snapshot & [fs1 w1] & [Hsnap _]%on_rpc_ok & Hs)%io_bind_ok.
  apply io_bind_ok in Hs as (terms & [fs2 w2] & [Hterms _]%on_rpc_ok & Hs).
  apply io_bind_ok in Hs as (live_events & w3 & [Hlive ->]%lift_ok & Hs).
  apply io_bind_ok in Hs as (source & [fs4 w4] & Hopen & Hs).
  apply io_bind_ok in Hs as (run' & w5 & [Hrun _]%guarded_ok%on_rpc_ok & Hs).
  apply io_bind_ok in Hs as ([] & w6 & _ & [-> _]%io_ret_ok).
  apply io_bind_ok in Hrun as ([claims metrics] & w7 & Hclaims & Hfin).
  cbn [fst snd] in *.
  by exists snapshot, terms, live_events, claims, source, (score_cutoff
    (inc_reference_block (sn_provisional snapshot)) (holding_margin_blocks (ic_params (tm_config terms)))),
    metrics, w1, w2, (fs2, w2), (fs4, w4), w4, w7, (w5.2).
Qed.
End BuildParts.

(* ------------------------------------------------------------------ *)
(** ** Helper lemmas: what becomes of the checkpoint file *)

Section Leaves.
Context {W : Type} (P : Files → Prop).

(** However it ends, the computation leaves a file system that satisfies [P]. *)
Definition leaves {E A} (m : io (FileSystem * W) E A) : Prop :=
  ∀ fs w, P (fs_files fs) → P (fs_files (m (fs, w)).2.1).

Lemma leaves_bind {E A B} (m : io (FileSystem * W) E A) (f : A → io (FileSystem * W) E B) :
  leaves m → (∀ a fw fw', m fw = (Ok a, fw') → leaves (f a)) → leaves (m ≫= f).
Proof.
  intros Hm Hf fs w HP. specialize (Hm fs w HP). unfold mbind, io_bind.
  destruct (m (fs, w)) as [[a|e|s] [fs' w']] eqn:Em; [|done|done]. by eapply Hf.
Qed.
Lemma leaves_lift {E A} (m : outcome E A) : leaves (lift m).
Proof. by intros fs w HP. Qed.
Lemma leaves_mret {E A} (a : A) : leaves (mret a : io (FileSystem * W) E A).
Proof. by intros fs w HP. Qed.
Lemma leaves_on_rpc {E A} (m : io W E A) : leaves (on_rpc m).
Proof. intros fs w HP. unfold on_rpc. by destruct (m w). Qed.
Lemma leaves_on_files {E A} (m : fs_io E A) : triple P m (fun _ => P) P → leaves (on_files m).
Proof.
  intros Hm fs w HP. specialize (Hm fs HP). unfold on_files. by destruct (m fs) as [[a|e|s] fs'].
Qed.
Lemma leaves_map_err {E F A} (f : E → F) (m : io (FileSystem * W) E A) :
  leaves m → leaves (map_err_io f m).
Proof.
  intros Hm fs w HP. specialize (Hm fs w HP). unfold map_err_io.
  by destruct (m (fs, w)) as [[a|e|s] [fs' w']].
Qed.
Lemma leaves_guarded {E A} (g : io (FileSystem * W) E unit) (m : io (FileSystem * W) E A) :
  leaves g → leaves m → leaves (guarded g m).
Proof.
  intros Hg Hm fs w HP. specialize (Hm fs w HP). unfold guarded.
  destruct (m (fs, w)) as [[a|e|s] [fs' w']]; [done| |done]. cbn in Hm.
  by apply (leaves_bind g (fun _ => lift (Err e)) Hg (fun _ _ _ _ => leaves_lift _)).
Qed.
End Leaves.

Lemma triple_guarded {E A} (P : Files → Prop) (g : fs_io E unit) (m : fs_io E A) (Q : A → Files → Prop) :
  triple P g (fun _ => P) P → triple P m Q P → triple P (guarded g m) Q P.
Proof.
  intros Hg Hm fs HP. specialize (Hm fs HP). unfold guarded.
  destruct (m fs) as [[a|e|s] fs1]; [done| |done].
  apply (triple_bind P g (fun _ => P) (fun _ => lift (Err e)) Q P); [done| |done].
  intros _. by apply triple_lift.
Qed.

Section CheckpointFile.
Context `{HexCrate, Sha3Crate, AbiCodec, SerdeJson, HmacCrate, CheckpointJson}.
Context {W : Type} `{!RpcIface W}.

Lemma checkpoint_open_paths current_dir config as_of checkpoint_path path chain key range cap fw source fw' :
  absolute_path current_dir checkpoint_path = Ok path →
  checkpoint_open (W := W) current_dir config as_of checkpoint_path chain key range cap fw
    = (Ok source, fw') →
  css_lock source = lock_path_for_checkpoint path ∧ cm_path (css_metadata source) = path.
Proof.
  unfold checkpoint_open. intros -> (? & w1 & _ & Hs)%io_bind_ok. rewrite io_bind_lift in Hs.
  cbn zeta in Hs. apply io_bind_ok in Hs as (? & w2 & _ & Hs%guarded_ok). unfold open_locked in Hs.
  apply io_bind_ok in Hs as (? & w3 & _ & Hs). apply io_bind_ok in Hs as (st & w4 & _ & Hs).
  apply io_bind_ok in Hs as ([[st' n] m] & w5 & _ & Hs).
  by apply io_bind_ok in Hs as (hd & w6 & _ & [<- _]%io_ret_ok).
Qed.

Context (path : string) (key : list byte) (before : Files).
Hypothesis Hname : is_Some (file_name path).

(** The checkpoint file is as before, or a complete authenticated checkpoint. *)
Definition intact (files : Files) : Prop :=
  files !! path = before !! path ∨
  ∃ st bytes, checkpoint_bytes st key = Ok bytes ∧ files !! path = Some bytes.

Lemma intact_lock files f : intact files → intact (partial_alter f (lock_path_for_checkpoint path) files).
Proof. unfold intact. by rewrite lookup_partial_alter_ne by apply lock_path_ne. Qed.

Lemma triple_save_intact st : triple intact (save_checkpoint path st key) (fun _ => intact) intact.
Proof.
  assert (∀ files files', intact files → some_checkpoint path st key files files' → intact files') as Hkeep.
  { intros files files' Hi [[_ Ho]|(_ & bytes & Hb & Hf)]; unfold intact in *; [by rewrite Ho|].
    right. by exists st, bytes. }
  intros fs Hi. pose proof (triple_save path st key (fs_files fs) Hname fs
    (conj (fun _ _ _ => eq_refl) eq_refl)) as Ht.
  destruct (save_checkpoint path st key fs) as [[[]|e|s] fs'];
    eapply Hkeep; try exact Hi; try exact Ht. by right.
Qed.

Lemma triple_commit source :
  css_lock source = lock_path_for_checkpoint path → cm_path (css_metadata source) = path →
  triple intact (checkpoint_commit source key) (fun _ => intact) intact.
Proof.
  intros Hl Hp. unfold checkpoint_commit. rewrite Hl, Hp.
  pose proof (triple_lock_drop _ intact intact_lock) as Hdrop. apply triple_guarded; [exact Hdrop|].
  apply triple_bind_lift; [done|]. intros ? ?.
  eapply triple_bind; [apply triple_save_intact|]. intros ?. exact Hdrop.
Qed.

Lemma leaves_checkpoint_open current_dir config as_of checkpoint_path chain range cap :
  absolute_path current_dir checkpoint_path = Ok path →
  leaves (W := W) intact
    (checkpoint_open current_dir config as_of checkpoint_path chain key range cap).
Proof.
  intros Hp. unfold checkpoint_open. rewrite Hp.
  apply leaves_bind; [apply leaves_lift|intros _ _ _ _].
  apply leaves_bind; [apply leaves_lift|]. intros p fw fw' [[= <-] _]%lift_ok. cbn zeta.
  apply leaves_bind; [apply leaves_on_files, triple_lock_acquire, intact_lock|intros _ _ _ _].
  apply leaves_guarded; [apply leaves_on_files, triple_lock_drop, intact_lock|]. unfold open_locked.
  apply leaves_bind; [apply leaves_on_rpc|intros _ _ _ _].
  apply leaves_bind.
  { apply leaves_on_files, triple_reads. unfold load_checkpoint.
    apply reads_bind; [apply reads_limited|intros; apply reads_lift]. }
  intros st _ _ _. apply leaves_bind; [apply leaves_on_rpc|intros [[st' n] m] _ _ _].
  apply leaves_bind; [apply leaves_on_rpc|intros; apply leaves_mret].
Qed.
End CheckpointFile.

(* ------------------------------------------------------------------ *)
(** ** Theorems *)

(** C14: A settlement that is returned is the settlement of its incident: it was made
    in the settlement phase when no root stands, its events replay to the count
    and hash the contract holds at the end of the window, the kernel settled
    exactly the live claims with what their registrations committed to, the
    digest is the one of these values, a standing root equals the new one, and
    every hash, proof and total reproduces. *)
Theorem build_settlement_sound `{HexLaws, Sha3Crate, AbiCodec, SerdeJson, HmacCrate, CheckpointJson}
    {W : Type} `{!RpcIface W} (current_dir : outcome IoError string) (config : BootstrapConfig)
    (incident_id : N) (mode : ScoreMode) (fs : FileSystem) (w : W) (run : SettlementRun)
    (fw' : FileSystem * W) :
  build_settlement (W := W) current_dir config incident_id mode (fs, w) = (Ok run, fw') →
  let window := run_window_incident run in
  let deadline := inc_phase_deadline window in
  let opened := ba_timestamp (sa_open (run_anchors run)) in
  let finalized := ba_timestamp (sa_finalized_head (run_anchors run)) in
  run_incident_id run = incident_id ∧
  (eq_ignore_ascii_case (inc_root (run_incident run)) ZERO_ROOT = true →
     opened < deadline ∧ deadline < finalized ∧ finalized ≤ deadline + (deadline - opened)) ∧
  (∃ replay input,
     replay_claim_set (run_events run) = Ok replay ∧
     csr_unresolved_claims replay = inc_unresolved_claims window ∧
     eq_ignore_ascii_case (csr_hash replay) (inc_claim_set_hash window) = true ∧
     allocate_with_events input (run_events run) = Ok (run_output run) ∧
     ki_incident_id input = incident_id ∧
     ki_protocol_fee_share_bps input = inc_protocol_fee_share_bps (run_incident run) ∧
     length (ki_pools input) = length (run_pool_addrs run) ∧
     map ci_claim_id (ki_claims input) = csr_live_claim_ids replay ∧
     Forall (fun claim => ∃ event, event ∈ run_events run ∧ ev_kind event = Register ∧
       claim_of_event claim event) (ki_claims input)) ∧
  eq_ignore_ascii_case (ko_claim_set_hash (run_output run)) (inc_claim_set_hash window) = true ∧
  settlement_digest (digest_input_of run config) = Ok (run_digest run) ∧
  is_unsettled run || root_matches run = true ∧
  verify_run run config = Ok tt.
Proof.
  intros (snapshot & terms & live_events & claims & source & cutoff & metrics & w1 & w2 & w3 & w4 & w5 &
    w6 & w7 & Hsnap & Hterms & Hlive & Hcut & _ & Hclaims & Hfin)%build_settlement_parts.
  apply read_snapshot_ok in Hsnap as (Hphase & _ & Hreplay & [Hcount Hhash]%check_replay_ok).
  apply resolve_terms_pools in Hterms. apply resolve_claims_ok in Hclaims.
  apply finish_run_ok in Hfin as (Hout & Hset & _ & Hdigest & Hcheck & Hid & Hinc & Hwin & Hanc & Hev &
    Haddrs & _ & _).
  cbn zeta. rewrite Hinc, Hwin, Hanc, Hev. split; [done|]. split.
  { intros Hz. by destruct (check_phase_ok _ _ _ Hphase Hz) as (? & ? & ? & _). }
  assert (map ci_claim_id claims = map ev_claim_id live_events) as Hmap.
  { clear -Hclaims. induction Hclaims as [|c e cs es [Hc _] _ IH]; [done|]. cbn [map]. by rewrite Hc, IH. }
  split.
  { exists (sn_replay snapshot), (kernel_input_of config incident_id snapshot terms claims).
    cbn [kernel_input_of ki_incident_id ki_protocol_fee_share_bps ki_pools ki_claims].
    do 6 (split; [done|]). split; [by rewrite Haddrs|]. split.
    - rewrite Hmap. eapply live_events_ids; [|exact Hlive].
      intros i e Hi. by apply registrations_of_ids in Hi as [-> _].
    - apply Forall_forall. intros c Hc. apply list_elem_of_lookup in Hc as [i Hi].
      destruct (Forall2_lookup_l _ _ _ _ _ Hclaims Hi) as (e & He & Hce). exists e.
      assert (e ∈ live_events) as Hel by (by eapply list_elem_of_lookup_2).
      destruct (live_events_registered _ _ _ _ Hlive Hel) as [j Hj].
      apply registrations_of_ids in Hj as (_ & Hin & Hk). done. }
  split; [done|]. split; [done|]. unfold check_run in Hcheck.
  apply bind_ok in Hcheck as ([] & Hb%bail_if_ok & Hv%map_err_ok). split; [|done].
  destruct (is_unsettled run); [done|]. by apply negb_false_iff in Hb.
Qed.

(** However a settlement ends (success, an error of any stage, a panic, a crash
    during a file operation), the checkpoint file is intact: it holds what it held
    before or a complete authenticated checkpoint; in the other score modes no
    file is touched at all. *)
Theorem build_settlement_checkpoint_intact
    `{HexCrate, Sha3Crate, AbiCodec, SerdeJson, HmacCrate, CheckpointJson} {W : Type} `{!RpcIface W}
    (current_dir : outcome IoError string) (config : BootstrapConfig) (incident_id : N)
    (mode : ScoreMode) (fs : FileSystem) (w : W) :
  let files' := fs_files (build_settlement (W := W) current_dir config incident_id mode (fs, w)).2.1 in
  match mode with
  | CheckpointMode checkpoint_path key => ∀ path,
      absolute_path current_dir checkpoint_path = Ok path → is_Some (file_name path) →
      files' !! path = fs_files fs !! path ∨
      ∃ st bytes, checkpoint_bytes st key = Ok bytes ∧ files' !! path = Some bytes
  | _ => files' = fs_files fs
  end.
Proof.
  cbn zeta.
  assert (∀ P : Files → Prop, P (fs_files fs) →
    (∀ ic cutoff users, leaves (W := W) P (open_source (W := W) current_dir config ic cutoff users mode)) →
    (∀ ic cutoff users fw source fw',
       open_source (W := W) current_dir config ic cutoff users mode fw = (Ok source, fw') →
       leaves (W := W) P (drop_source source) ∧ leaves (W := W) P (commit_source source)) →
    P (fs_files (build_settlement (W := W) current_dir config incident_id mode (fs, w)).2.1)) as Hall.
  { intros P HP Hopen Hsource.
    assert (leaves (W := W) P (build_settlement (W := W) current_dir config incident_id mode)) as Hk; [|by apply Hk].
    unfold build_settlement. apply leaves_bind; [apply leaves_on_rpc|intros snapshot _ _ _].
    apply leaves_bind; [apply leaves_on_rpc|intros terms _ _ _]. cbn zeta.
    apply leaves_bind; [apply leaves_lift|intros live_events _ _ _].
    apply leaves_bind; [apply Hopen|]. intros source fw fw' [Hd Hc]%Hsource.
    apply leaves_bind; [by apply leaves_guarded, leaves_on_rpc|intros run _ _ _].
    apply leaves_bind; [exact Hc|intros; apply leaves_mret]. }
  destruct mode as [| |checkpoint_path key].
  1,2: apply (Hall (fun files => files = fs_files fs)); [done| |].
  - intros. apply leaves_mret.
  - intros ic cutoff users fw source fw' [<- _]%io_ret_ok. split; apply leaves_mret.
  - intros. apply leaves_bind; [apply leaves_map_err, leaves_on_rpc|intros; apply leaves_mret].
  - intros ic cutoff users fw source fw' (src & fw1 & _ & [<- _]%io_ret_ok)%io_bind_ok.
    split; apply leaves_mret.
  - intros path Hp Hname. apply (Hall (intact path key (fs_files fs))); [by left| |].
    + intros. apply leaves_bind; [|intros; apply leaves_mret].
      by apply leaves_map_err, leaves_checkpoint_open.
    + intros ic cutoff users fw source fw' (src & fw1 & Ho%map_err_io_ok & [<- _]%io_ret_ok)%io_bind_ok.
      destruct (checkpoint_open_paths _ _ _ _ _ _ _ _ _ _ _ _ Hp Ho) as [Hl Hm].
      split; cbn [drop_source commit_source]; apply leaves_map_err, leaves_on_files.
      * rewrite Hl. apply triple_lock_drop, intact_lock.
      * by apply triple_commit.
Qed.

(** C15: The score does not depend on the score mode: in each of the three modes, on
    a chain (and a stored checkpoint) that follows one true balance history, the
    gross score a claim gets is the gross score of the block-weighted numerators
    of that history; so direct queries, bulk replay and incremental checkpoints
    settle the same amounts. *)
Theorem score_mode_irrelevant `{HexLaws, Sha3Crate, AbiCodec, SerdeJson, HmacLaws, CheckpointJsonLaws}
    {W : Type} `{!RpcIface W, !RpcLaws} (current_dir : outcome IoError string)
    (config : BootstrapConfig) (incident_config : IncidentConfig) (as_of : N) (users : gset Address)
    (mode : ScoreMode) (h : Address → Address → N → N) (fs fs' : FileSystem) (w w' w1 w2 : W)
    (source : ScoreSource) (user : Address) (score : N) (metrics metrics' : LogMetrics) :
  as_of < u64_max →
  mode_truth (W := W) current_dir config incident_config as_of users h (fs_files fs) mode →
  open_source (W := W) current_dir config incident_config as_of users mode (fs, w)
    = (Ok source, (fs', w')) →
  user ∈ users → address_is_zero user = false →
  gross_score_from (W := W) source incident_config as_of user metrics w1 = (Ok (score, metrics'), w2) →
  score = gross_score (specified_numerator h as_of user (ic_scored_tokens incident_config)).
Proof.
  intros Hmax Htrue Hopen Hu Hz Hscore. destruct mode as [| |path key]; cbn [open_source mode_truth] in *.
  - apply io_ret_ok in Hopen as [<- _]. cbn [gross_score_from] in Hscore.
    apply io_bind_ok in Hscore as ([s m] & w3 & He & [[= <- _] _]%io_ret_ok).
    apply map_err_io_ok in He.
    apply (earned_score_of_spec _ _ _ _ _ (fun token => h token user)) in He; [done|lia|].
    intros t Ht. by apply Htrue.
  - apply io_bind_ok in Hopen as (src & fw & Ho & [<- _]%io_ret_ok).
    apply map_err_io_ok, on_rpc_ok in Ho as [Ho _]. cbn [gross_score_from] in Hscore.
    apply io_bind_ok in Hscore as (s & w3 & [Hs%map_err_ok ->]%lift_ok & [[= <- _] _]%io_ret_ok).
    rewrite (bulk_score_correct _ _ _ _ _ _ _ _ _ _ _ Hmax Htrue Ho Hu) in Hs. by injection Hs.
  - apply io_bind_ok in Hopen as (src & [fs1 wa] & Ho & [<- _]%io_ret_ok).
    apply map_err_io_ok in Ho. cbn [gross_score_from] in Hscore.
    apply io_bind_ok in Hscore as (s & w3 & Hs%map_err_io_ok & [[= <- _] _]%io_ret_ok).
    destruct Htrue as (p & Hp & Hr & Ht & Hst).
    eapply (checkpoint_score_correct current_dir); [exact Hmax|exact Hr|exact Hp|exact Ht|exact Hst|exact Ho|exact Hz|exact Hs].
Qed.

(* ------------------------------------------------------------------ *)
(** ** Evaluated instances *)

#[local] Existing Instances RefHex.hex_crate RefHex.hex_laws RefSha3.sha3_crate RefSerde.serde_json.
#[local] Existing Instances RefAbi.abi_codec RefAbi.TransferData_eq_dec RefAbi.TransferData_countable.
#[local] Existing Instances RefCheckpoint.hmac_crate RefCheckpoint.hmac_laws.
#[local] Existing Instances RefCheckpoint.checkpoint_json RefCheckpoint.checkpoint_json_laws.

Module BulkDemo.
#[local] Existing Instances replay_provider replay_laws.

Definition source_of : outcome EngineError ScoreSource * (FileSystem * unit) :=
  open_source (W := unit) (Ok "/") demo_bootstrap demo_replay_config 4 demo_users BulkMode (demo_fs [], tt).

Example score_mode_irrelevant_witness :
  ∃ source fs' w' score metrics' w2, source_of = (Ok source, (fs', w')) ∧
    gross_score_from (W := unit) source demo_replay_config 4 demo_account default_log_metrics tt
      = (Ok (score, metrics'), w2) ∧
    score = gross_score (specified_numerator demo_balances 4 demo_account demo_tokens).
Proof.
  assert (match source_of with
    | (Ok source, _) => match (gross_score_from (W := unit) source demo_replay_config 4 demo_account
                                 default_log_metrics tt).1 with Ok _ => true | _ => false end
    | _ => false end = true) as Hr by (vm_compute; reflexivity).
  destruct source_of as [[source|e|s] [fs' w']] eqn:E; [|discriminate Hr|discriminate Hr].
  destruct (gross_score_from (W := unit) source demo_replay_config 4 demo_account default_log_metrics tt)
    as [[[score metrics']|e|s] w2] eqn:E2; [|discriminate Hr|discriminate Hr].
  exists source, fs', w', score, metrics', w2. split; [reflexivity|]. split; [exact E2|].
  apply (score_mode_irrelevant (Ok "/") demo_bootstrap demo_replay_config 4 demo_users BulkMode
    demo_balances (demo_fs []) fs' tt w' tt w2 source demo_account score default_log_metrics metrics').
  - vm_compute. reflexivity.
  - intros scored Hin _. assert (st_token scored = demo_token) as ->.
    { apply elem_of_cons in Hin as [->|Hin]; [reflexivity|].
      apply list_elem_of_singleton in Hin. by rewrite Hin. }
    split.
    + intros u b [] v [] [_ Hu] Hb%demo_blocks_elem.
      assert (u = demo_account) as ->.
      { apply negb_false_iff, bool_decide_eq_true in Hu. by apply elem_of_singleton in Hu. }
      by apply demo_true_balance.
    + apply demo_true_transfers. vm_compute. reflexivity.
  - exact E.
  - by apply elem_of_singleton.
  - vm_compute. reflexivity.
  - exact E2.
Defined.
End BulkDemo.

Module SettleDemo.
#[local] Existing Instances RefAbi.ClaimRegisteredData_eq_dec RefAbi.ClaimRegisteredData_countable.
Definition insured : Address := array_of 20 [x05].
Definition pcr : Hash := array_of 32 (be_bytes 32 77).
Definition claim_log : RpcLog := demo_event_log demo_registry
  [topic_hash (event_signature_hash ClaimRegistered); demo_uint_topic 9; demo_uint_topic 4]
  (RefAbi.write (mkClaimRegisteredData 9 4 demo_account 60 2 0)) 11 1.
Definition ledger : list RpcLog := Eval vm_compute in
  [demo_transfer demo_other demo_account 7 2 0; demo_transfer demo_account demo_other 3 3 1; claim_log].
Definition events : list ClaimEvent := [mkClaimEvent Register 9 demo_account 60 2 0 11 1].
Definition set_hash : Hash :=
  match claim_set_hash events with
  | Ok text => array_of 32 (default [] (hex_decode (String.substring 2 64 text)))
  | _ => array_of 32 []
  end.
Definition incident_return : incidentsReturn :=
  mkIncidentsReturn insured 0 8 10 1220 (array_of 32 (be_bytes 32 0)) 1 set_hash pcr 500.
Definition table : list (Address * SolFn * list byte) := Eval vm_compute in
  [(demo_registry, incidents, returns incidents incident_return);
   (demo_registry, incidentPhaseWindow, returns incidentPhaseWindow 100);
   (demo_registry, getInsuredToken,
      returns getInsuredToken (mkInsuredToken 8000 demo_feed (zero_array 20) []));
   (demo_registry, settlementParams, returns settlementParams (mkSettlementParamsReturn 3 2 1));
   (demo_registry, getScoredTokens, returns getScoredTokens [demo_token]);
   (demo_registry, getScoredRateHistory,
      returns getScoredRateHistory [mkSolRatePoint 2 (10 ^ 30); mkSolRatePoint 9 7]);
   (demo_pool, totalAssets, returns totalAssets 1000000000);
   (demo_registry, coverPools, returns coverPools (mkCoverPoolsReturn [demo_token] [demo_pool]));
   (demo_registry, maxCoverPoolPayoutBps, returns maxCoverPoolPayoutBps 5000);
   (demo_registry, scoreSpent, returns scoreSpent 1);
   (insured, erc20_decimals, returns erc20_decimals 2);
   (insured, erc20_balanceOf, returns erc20_balanceOf 50)] ++ demo_table.
Definition answer (to : Address) (data : list byte) (number : N) : list byte :=
  if bool_decide (to = demo_token) && bool_decide (take 4 data = RefAbi.selector erc20_balanceOf)
  then abi_encode_returns erc20_balanceOf (demo_balance number)
  else table_answer table to data number.
#[local] Instance provider : RpcIface unit :=
  RefProvider.provider demo_ts demo_block_hash 20 answer ledger.

Abbreviation settlement :=
  (build_settlement (W := unit) (Ok "/") demo_bootstrap 4 RawMode (demo_fs [], tt)).

(** One claim, settled on a chain that serves every read. *)
Example build_settlement_sound_witness :
  ∃ run fw', settlement = (Ok run, fw') ∧ ko_pool_payouts (run_output run) = [421052] ∧
    settlement_digest (digest_input_of run demo_bootstrap) = Ok (run_digest run) ∧
    verify_run run demo_bootstrap = Ok tt.
Proof.
  assert (match settlement with
    | (Ok run, _) => bool_decide (ko_pool_payouts (run_output run) = [421052])
    | _ => false end = true) as Hr by (vm_compute; reflexivity).
  destruct settlement as [[run|e|s] fw'] eqn:E; [|discriminate Hr|discriminate Hr].
  exists run, fw'. split; [reflexivity|]. split; [by apply bool_decide_eq_true in Hr|].
  destruct (build_settlement_sound (W := unit) (Ok "/") demo_bootstrap 4 RawMode (demo_fs []) tt run fw' E)
    as (_ & _ & _ & _ & Hd & _ & Hv).
  split; [exact Hd|exact Hv].
Defined.
End SettleDemo.
