(* ===== verification/IncidentOpen.v ===== *)
(** * Opening an incident ([src/incident_open.rs])

    The price-drop discovery over a sliding window of conversion ratios, the
    admission precheck and the authorization the enclave signs. *)

From S2P Require Import Prelude Bytes Text Commit TypedData Rpc Abi Chain ChainConfig Config Artifact.
From Stdlib Require Import Strings.Byte.

Open Scope string_scope.
Open Scope N_scope.
Open Scope list_scope.

Definition MAX_INCIDENT_OPEN_SAMPLES : N := 256.
Definition MAX_INCIDENT_OPEN_DISCOVERY_POINTS : N := 256.

Record IncidentOpenAuthorization := mkIncidentOpenAuthorization {
  ia_schema_version : N;
  ia_artifact_type : string;
  ia_chain_id : N;
  ia_registry : string;
  ia_defi_insurance : string;
  ia_insured_token : string;
  ia_reference_block : N;
  ia_observation_block : N;
  ia_baseline_twap : string;
  ia_distress_twap : string;
  ia_baseline_ratio_sum : string;
  ia_distress_ratio_sum : string;
  ia_sample_count : N;
  ia_twap_blocks : N;
  ia_sample_step_blocks : N;
  ia_minimum_drop_bps : N;
  ia_eligibility_hash : string;
  ia_incident_id : string;
  ia_tee_pcr_hash : string;
  ia_open_digest : string
}.

Inductive IncidentOpenError :=
  | OpenChain (error : ChainError)
  | OpenChainId (actual expected : N)
  | RegistryMismatch
  | ZeroIncidentId
  | FinalizedAheadOfLatest (finalized latest : N)
  | UnapprovedToken
  | UnauthorizedSigner
  | ZeroPcrCommitment
  | ActiveIncident
  | InvalidPriceConfig
  | InsufficientPriceDrop (minimum_drop_bps : N)
  | NoFinalizedCandidateWindow
  | DiscoveryTooLarge (points maximum : N)
  | HeadChanged
  | FinalizedHeadChanged
  | OpenTypedData (message : string).

Record IncidentOpenPrecheck := mkIncidentOpenPrecheck {
  ip_chain_id : N;
  ip_registry : string;
  ip_defi_insurance : string;
  ip_insured_token : string;
  ip_reference_block : N;
  ip_observation_block : N;
  ip_baseline_twap : string;
  ip_distress_twap : string;
  ip_sample_count : N;
  ip_twap_blocks : N;
  ip_sample_step_blocks : N;
  ip_minimum_drop_bps : N
}.

Record TwapSelection := mkTwapSelection {
  sel_reference_block : N;
  sel_baseline_sum : N;
  sel_distress_sum : N;
  sel_sample_count : N
}.
Record DiscoveryPolicy := mkDiscoveryPolicy {
  dp_latest_block : N;
  dp_finalized_block : N;
  dp_max_age : N;
  dp_twap_blocks : N;
  dp_sample_step_blocks : N;
  dp_minimum_drop_bps : N
}.

(** *** Discovery *)

Definition u16_sub (a b : N) : N := (a + 2 ^ 16 - b) mod 2 ^ 16.
(** [&vec[from..to]]: a panic when the range is not one of the vector. *)
Definition slice_range {E A} (l : list A) (from to : nat) : outcome E (list A) :=
  if (from <=? to)%nat && (to <=? length l)%nat then Ok (take (to - from) (drop from l))
  else Panic "range out of bounds for slice".

(** The candidate reference blocks: the first, the last and how many. *)
Definition candidate_range (policy : DiscoveryPolicy) : outcome IncidentOpenError (N * N * N) :=
  let step := dp_sample_step_blocks policy in
  let earliest := N.max (N.max (saturating_sub (dp_latest_block policy) (dp_max_age policy))
                           (dp_twap_blocks policy)) 1 in
  latest ← ok_or (checked_sub (dp_finalized_block policy) (dp_twap_blocks policy))
             NoFinalizedCandidateWindow;
  rounds ← div_ceil earliest step;
  first_candidate ← ok_or (checked_mul rounds step) InvalidPriceConfig;
  whole ← u64_div latest step;
  let last_candidate := u64_mul whole step in
  _ ← bail_if ((last_candidate <? first_candidate) || (dp_latest_block policy <=? first_candidate))
        NoFinalizedCandidateWindow;
  gaps ← u64_div (u64_sub last_candidate first_candidate) step;
  Ok (first_candidate, last_candidate, u64_add gaps 1).

(** The loop [while block <= last_point]; one iteration per point. *)
Fixpoint discovery_blocks (fuel : nat) (step last_point block : N) : outcome IncidentOpenError (list N) :=
  if block <=? last_point then
    match fuel with
    | O => Panic "out of fuel"
    | S fuel =>
        match checked_add block step with
        | Some next => rest ← discovery_blocks fuel step last_point next; Ok (block :: rest)
        | None => Ok [block]
        end
    end
  else Ok [].

(** The two running sums, the last rising edge and whether the previous
    candidate qualified. *)
Record Slide := mkSlide {
  sl_baseline : N;
  sl_distress : N;
  sl_selected : option TwapSelection;
  sl_previous_qualified : bool
}.
(** [sum -= &ratios[out]; sum += &ratios[in];]. *)
Definition slide_sum (ratios : list N) (sum : N) (leaving entering : nat) : outcome IncidentOpenError N :=
  r ← index_at ratios leaving;
  sum ← big_sub sum r;
  r ← index_at ratios entering;
  Ok (sum + r).

Definition slide_step (ratios : list N) (first_candidate step sample_count minimum_drop_bps : N)
    (candidate_count : nat) (st : Slide) (candidate_index : nat) : outcome IncidentOpenError Slide :=
  let n := N.to_nat sample_count in
  let qualified := sl_distress st * 10000 <? sl_baseline st * u16_sub 10000 minimum_drop_bps in
  let selected :=
    if qualified && negb (sl_previous_qualified st) then
      Some (mkTwapSelection
        (u64_add first_candidate (u64_mul (N.of_nat candidate_index) step))
        (sl_baseline st) (sl_distress st) sample_count)
    else sl_selected st in
  if (candidate_index + 1 <? candidate_count)%nat then
    baseline ← slide_sum ratios (sl_baseline st) candidate_index (candidate_index + n);
    distress ← slide_sum ratios (sl_distress st) (candidate_index + n + 1) (candidate_index + n * 2 + 1);
    Ok (mkSlide baseline distress selected qualified)
  else Ok (mkSlide (sl_baseline st) (sl_distress st) selected qualified).

Definition select_candidate (ratios : list N)
    (first_candidate step sample_count minimum_drop_bps candidate_count : N) :
    outcome IncidentOpenError TwapSelection :=
  let n := N.to_nat sample_count in
  let count := N.to_nat candidate_count in
  baseline ← slice_range ratios 0 n;
  distress ← slice_range ratios (n + 1) (n * 2 + 1);
  final ← fold_m (slide_step ratios first_candidate step sample_count minimum_drop_bps count)
            (mkSlide (sum_N baseline) (sum_N distress) None false) (seq 0 count);
  ok_or (sl_selected final) (InsufficientPriceDrop minimum_drop_bps).

Section Discovery.
Context `{HexCrate, AbiCodec} {W : Type} `{!RpcIface W}.

Definition open_io {A} : io W ChainError A → io W IncidentOpenError A := map_err_io OpenChain.

Definition discover_incident_open_twap (conversion_address : Address)
    (conversion_call_data : list byte) (policy : DiscoveryPolicy) :
    io W IncidentOpenError TwapSelection :=
  let step := dp_sample_step_blocks policy in
  let twap_blocks := dp_twap_blocks policy in
  '(first_candidate, last_candidate, candidate_count) ← lift (candidate_range policy);
  sample_count ← lift (u64_div twap_blocks step);
  point_count ← lift (ok_or (checked_add candidate_count (saturating_mul sample_count 2))
                       InvalidPriceConfig);
  _ ← lift (bail_if (MAX_INCIDENT_OPEN_DISCOVERY_POINTS <? point_count)
              (DiscoveryTooLarge point_count MAX_INCIDENT_OPEN_DISCOVERY_POINTS));
  let first_point := u64_sub first_candidate twap_blocks in
  last_point ← lift (ok_or (checked_add last_candidate twap_blocks) InvalidPriceConfig);
  blocks ← lift (discovery_blocks (N.to_nat point_count) step last_point first_point);
  ratios ← open_io (ratios_at conversion_address conversion_call_data blocks);
  lift (select_candidate ratios first_candidate step sample_count (dp_minimum_drop_bps policy)
          candidate_count).
End Discovery.

(** *** Authorization *)

(** The checks on the price configuration, written out in both operations. *)
Definition check_price_config (price_config : IncidentOpenPriceConfig) (max_age : N) :
    outcome IncidentOpenError unit :=
  let twap := twapBlocks price_config in
  let step := op_sampleStepBlocks price_config in
  let drop := minimumDropBps price_config in
  bail_if ((twap =? 0) || (step =? 0) || (twap <? step) || negb (twap mod step =? 0) ||
           (twap / step <? 2) || (MAX_INCIDENT_OPEN_SAMPLES <? twap / step) ||
           (drop =? 0) || (10000 <=? drop) || (max_age <=? twap)) InvalidPriceConfig.

(** Whether the previous incident still runs at the head. *)
Definition incident_active (previous : incidentsReturn) (phase_window head_timestamp : N) : bool :=
  if head_timestamp <=? ir_phaseDeadline previous then true
  else if ir_unresolvedClaims previous =? 0 then false
  else head_timestamp <=? ir_phaseDeadline previous + phase_window.

Section Authorization.
Context `{HexCrate, Sha3Crate, AbiCodec} {W : Type} `{!RpcIface W}.
(** [CHAIN_ID] of the build. *)
Context (CHAIN_ID : N).

Definition open_decode (f : SolFn) (reads : list (list byte)) (i : nat) :
    io W IncidentOpenError (sol_return f) := lift (map_err OpenChain (decode_nth f reads i)).

(** The chain id, the finalized and the latest block. *)
Definition open_heads : io W IncidentOpenError (N * BlockAnchor * BlockAnchor) :=
  actual_chain_id ← open_io chain_id;
  _ ← lift (bail_if (negb (actual_chain_id =? CHAIN_ID)) (OpenChainId actual_chain_id CHAIN_ID));
  finalized ← open_io finalized_block;
  head ← open_io latest_block;
  _ ← lift (bail_if (ba_number head <? ba_number finalized)
              (FinalizedAheadOfLatest (ba_number finalized) (ba_number head)));
  mret (actual_chain_id, finalized, head).

Definition require_no_active_incident (defi_insurance : Address) (next_incident : N)
    (head : BlockAnchor) : io W IncidentOpenError unit :=
  if 1 <? next_incident then
    let previous_id := next_incident - 1 in
    previous_reads ← open_io (aggregate_reads
      [read_call incidents defi_insurance previous_id;
       read_call incidentPhaseWindow defi_insurance previous_id] (ba_number head));
    previous ← open_decode incidents previous_reads 0;
    phase_window ← open_decode incidentPhaseWindow previous_reads 1;
    lift (bail_if (incident_active previous phase_window (ba_timestamp head)) ActiveIncident)
  else mret tt.

Definition require_heads_unchanged (finalized head : BlockAnchor) : io W IncidentOpenError unit :=
  finalized_now ← open_io (block_by_number (ba_number finalized));
  _ ← lift (bail_if (negb (String.eqb (ba_hash finalized_now) (ba_hash finalized)))
              FinalizedHeadChanged);
  head_now ← open_io (block_by_number (ba_number head));
  lift (bail_if (negb (String.eqb (ba_hash head_now) (ba_hash head))) HeadChanged).

Definition policy_of (finalized head : BlockAnchor) (timing : IncidentTimingConfig)
    (price_config : IncidentOpenPriceConfig) : DiscoveryPolicy :=
  {| dp_latest_block := ba_number head; dp_finalized_block := ba_number finalized;
     dp_max_age := maxReferenceBlockAge timing; dp_twap_blocks := twapBlocks price_config;
     dp_sample_step_blocks := op_sampleStepBlocks price_config;
     dp_minimum_drop_bps := minimumDropBps price_config |}.

Definition precheck_incident_open (registry_ insured_token : Address) :
    io W IncidentOpenError IncidentOpenPrecheck :=
  '(actual_chain_id, finalized, head) ← open_heads;
  defi_insurance ← open_io (defi_insurance_at registry_ (Some (ba_number head)));
  reads ← open_io (aggregate_reads
    [read_call registry defi_insurance tt; read_call nextIncidentId defi_insurance tt;
     read_call incidentTimingConfig registry_ tt; read_call incidentOpenPriceConfig registry_ tt;
     read_call getInsuredToken defi_insurance insured_token] (ba_number head));
  reverse_registry ← open_decode registry reads 0;
  _ ← lift (bail_if (negb (bool_decide (reverse_registry = registry_))) RegistryMismatch);
  next_incident ← open_decode nextIncidentId reads 1;
  _ ← lift (bail_if (next_incident =? 0) ZeroIncidentId);
  _ ← require_no_active_incident defi_insurance next_incident head;
  timing ← open_decode incidentTimingConfig reads 2;
  price_config ← open_decode incidentOpenPriceConfig reads 3;
  _ ← lift (check_price_config price_config (maxReferenceBlockAge timing));
  token ← open_decode getInsuredToken reads 4;
  _ ← lift (bail_if (maxCoverageBps token =? 0) UnapprovedToken);
  selection ← discover_incident_open_twap (underlyingConversionAddress token)
                (underlyingConversionCallData token) (policy_of finalized head timing price_config);
  _ ← require_heads_unchanged finalized head;
  observation_block ← lift (ok_or (checked_add (sel_reference_block selection) (twapBlocks price_config))
                             InvalidPriceConfig);
  baseline_twap ← lift (big_div (sel_baseline_sum selection) (sel_sample_count selection));
  distress_twap ← lift (big_div (sel_distress_sum selection) (sel_sample_count selection));
  mret {| ip_chain_id := actual_chain_id; ip_registry := address_to_string registry_;
          ip_defi_insurance := address_to_string defi_insurance;
          ip_insured_token := address_to_string insured_token;
          ip_reference_block := sel_reference_block selection;
          ip_observation_block := observation_block;
          ip_baseline_twap := to_decimal baseline_twap; ip_distress_twap := to_decimal distress_twap;
          ip_sample_count := sel_sample_count selection; ip_twap_blocks := twapBlocks price_config;
          ip_sample_step_blocks := op_sampleStepBlocks price_config;
          ip_minimum_drop_bps := minimumDropBps price_config |}.

Definition is_zero_hash (hash : Hash) : bool := forallb (fun b => Byte.eqb b x00) (array_val hash).

Definition build_incident_open (registry_ insured_token expected_signer : Address) :
    io W IncidentOpenError IncidentOpenAuthorization :=
  '(actual_chain_id, finalized, head) ← open_heads;
  defi_insurance ← open_io (defi_insurance_at registry_ (Some (ba_number head)));
  reads ← open_io (aggregate_reads
    [read_call registry defi_insurance tt; read_call nextIncidentId defi_insurance tt;
     read_call incidentTimingConfig registry_ tt; read_call incidentOpenPriceConfig registry_ tt;
     read_call getInsuredToken defi_insurance insured_token;
     read_call incidentOpenEligibilityHash defi_insurance insured_token;
     read_call isTeeSigner defi_insurance expected_signer; read_call teePcrHash registry_ tt]
    (ba_number head));
  reverse_registry ← open_decode registry reads 0;
  _ ← lift (bail_if (negb (bool_decide (reverse_registry = registry_))) RegistryMismatch);
  next_incident ← open_decode nextIncidentId reads 1;
  _ ← lift (bail_if (next_incident =? 0) ZeroIncidentId);
  timing ← open_decode incidentTimingConfig reads 2;
  price_config ← open_decode incidentOpenPriceConfig reads 3;
  _ ← lift (check_price_config price_config (maxReferenceBlockAge timing));
  token ← open_decode getInsuredToken reads 4;
  _ ← lift (bail_if (maxCoverageBps token =? 0) UnapprovedToken);
  eligibility_hash ← open_decode incidentOpenEligibilityHash reads 5;
  signer_authorized ← open_decode isTeeSigner reads 6;
  _ ← lift (bail_if (negb signer_authorized) UnauthorizedSigner);
  tee_pcr_hash ← open_decode teePcrHash reads 7;
  _ ← lift (bail_if (is_zero_hash tee_pcr_hash) ZeroPcrCommitment);
  _ ← require_no_active_incident defi_insurance next_incident head;
  selection ← discover_incident_open_twap (underlyingConversionAddress token)
                (underlyingConversionCallData token) (policy_of finalized head timing price_config);
  observation_block ← lift (ok_or (checked_add (sel_reference_block selection) (twapBlocks price_config))
                             InvalidPriceConfig);
  baseline_twap ← lift (big_div (sel_baseline_sum selection) (sel_sample_count selection));
  distress_twap ← lift (big_div (sel_distress_sum selection) (sel_sample_count selection));
  digest ← lift (map_err (fun error => OpenTypedData (typed_data_error_to_string error))
    (incident_open_digest
       {| od_chain_id := actual_chain_id; od_verifying_contract := defi_insurance;
          od_insured_token := insured_token; od_reference_block := sel_reference_block selection;
          od_incident_id := next_incident; od_tee_pcr_hash := hash_hex tee_pcr_hash;
          od_eligibility_hash := hash_hex eligibility_hash |}));
  _ ← require_heads_unchanged finalized head;
  mret {| ia_schema_version := 1; ia_artifact_type := "incidentOpen"; ia_chain_id := actual_chain_id;
          ia_registry := address_to_string registry_;
          ia_defi_insurance := address_to_string defi_insurance;
          ia_insured_token := address_to_string insured_token;
          ia_reference_block := sel_reference_block selection;
          ia_observation_block := observation_block;
          ia_baseline_twap := to_decimal baseline_twap; ia_distress_twap := to_decimal distress_twap;
          ia_baseline_ratio_sum := to_decimal (sel_baseline_sum selection);
          ia_distress_ratio_sum := to_decimal (sel_distress_sum selection);
          ia_sample_count := sel_sample_count selection; ia_twap_blocks := twapBlocks price_config;
          ia_sample_step_blocks := op_sampleStepBlocks price_config;
          ia_minimum_drop_bps := minimumDropBps price_config;
          ia_eligibility_hash := hash_hex eligibility_hash; ia_incident_id := to_decimal next_incident;
          ia_tee_pcr_hash := hash_hex tee_pcr_hash; ia_open_digest := digest |}.
End Authorization.

(* ------------------------------------------------------------------ *)
(** ** The reference definition of the discovery *)

(** The sum of [n] consecutive ratios. *)
Definition window_sum (ratios : list N) (from n : nat) : N := sum_N (take n (drop from ratios)).

Section Reference.
Context (ratios : list N) (first_candidate step : N) (n : nat) (minimum_drop_bps : N).

(** Candidate [i] has the [n] samples before it and the [n] samples after it. *)
Definition qualifies (i : nat) : bool :=
  window_sum ratios (i + n + 1) n * 10000 <? window_sum ratios i n * (10000 - minimum_drop_bps).
(** It starts a drop: it qualifies and the candidate before it does not. *)
Definition starts_drop (i : nat) : bool :=
  qualifies i && negb match i with O => false | S j => qualifies j end.
Definition selection_at (i : nat) : TwapSelection :=
  mkTwapSelection (first_candidate + N.of_nat i * step) (window_sum ratios i n)
    (window_sum ratios (i + n + 1) n) (N.of_nat n).
(** The latest start of a drop among the first [count] candidates. *)
Definition latest_drop (count : nat) : option TwapSelection :=
  selection_at <$> last (List.filter starts_drop (seq 0 count)).
End Reference.

(** The policies [check_price_config] lets through. *)
Definition policy_ok (policy : DiscoveryPolicy) : Prop :=
  let twap := dp_twap_blocks policy in
  let step := dp_sample_step_blocks policy in
  step ≠ 0 ∧ twap mod step = 0 ∧ 2 ≤ twap / step ∧ twap / step ≤ MAX_INCIDENT_OPEN_SAMPLES ∧
  0 < dp_minimum_drop_bps policy ∧ dp_minimum_drop_bps policy < 10000 ∧
  dp_finalized_block policy ≤ dp_latest_block policy ∧ dp_latest_block policy ≤ u64_max.

(* ------------------------------------------------------------------ *)
(** ** Helper lemmas *)

Lemma discovery_blocks_spec step last_point : step ≠ 0 → last_point ≤ u64_max → ∀ m fuel block,
  last_point = block + N.of_nat m * step → (m < fuel)%nat →
  discovery_blocks fuel step last_point block
    = Ok (map (fun k => block + N.of_nat k * step) (seq 0 (S m))).
Proof.
  intros Hs Hmax. induction m as [|m IH]; intros [|fuel] block Hl Hf; try lia; cbn [discovery_blocks].
  - assert (block = last_point) as -> by lia. rewrite N.leb_refl. cbn [seq map].
    rewrite N.add_0_r. destruct (checked_add last_point step) as [next|] eqn:E; [|done].
    apply checked_add_Some in E as [-> _]. assert (discovery_blocks fuel step last_point (last_point + step) = Ok []) as ->; [|done].
    destruct fuel; cbn [discovery_blocks]; rewrite (proj2 (N.leb_gt _ _)) by lia; done.
  - rewrite (proj2 (N.leb_le _ _)) by lia.
    rewrite (proj2 (checked_add_Some block step (block + step))) by (split; lia).
    rewrite (IH fuel (block + step)) by lia. cbn [mbind outcome_bind].
    change (seq 0 (S (S m))) with (0%nat :: seq 1 (S m)). rewrite <-seq_shift, map_cons, map_map.
    f_equal. f_equal; [lia|]. apply map_ext. intros k. lia.
Qed.

Lemma window_sum_next ratios a n : (0 < n)%nat → (a + n < length ratios)%nat →
  ∃ leaving entering, ratios !! a = Some leaving ∧ ratios !! (a + n)%nat = Some entering ∧
    leaving ≤ window_sum ratios a n ∧ window_sum ratios (S a) n = window_sum ratios a n - leaving + entering.
Proof.
  intros Hn Hl. destruct (lookup_lt_is_Some_2 ratios a) as [x Hx]; [lia|].
  destruct (lookup_lt_is_Some_2 ratios (a + n)) as [y Hy]; [lia|]. exists x, y.
  split; [done|]. split; [done|]. unfold window_sum.
  rewrite (drop_S ratios x a Hx). destruct n as [|n]; [lia|]. cbn [take].
  rewrite (take_S_r (drop (S a) ratios) n y) by (rewrite lookup_drop; rewrite <-Hy; f_equal; lia).
  rewrite sum_N_app. change (sum_N [y]) with (y + 0).
  change (sum_N (x :: take n (drop (S a) ratios))) with (x + sum_N (take n (drop (S a) ratios))). lia.
Qed.

Lemma slide_sum_window ratios a n : (0 < n)%nat → (a + n < length ratios)%nat →
  slide_sum ratios (window_sum ratios a n) a (a + n) = Ok (window_sum ratios (S a) n).
Proof.
  intros Hn Hl. destruct (window_sum_next ratios a n Hn Hl) as (x & y & Hx & Hy & Hle & Hw).
  unfold slide_sum, index_at. rewrite Hx, Hy. cbn [mbind outcome_bind].
  rewrite big_sub_le by done. cbn [mbind outcome_bind]. by rewrite Hw.
Qed.

Section Slide.
Context (ratios : list N) (first_candidate step : N) (n : nat) (drop : N) (count : nat).
Hypothesis Hn : (0 < n)%nat.
Hypothesis Hcount : (0 < count)%nat.
Hypothesis Hlen : length ratios = (count + 2 * n)%nat.
Hypothesis Hdrop : drop ≤ 10000.
Hypothesis Hfit : first_candidate + N.of_nat count * step ≤ u64_max.

Definition selected_upto (i : nat) : option TwapSelection :=
  selection_at ratios first_candidate step n <$> last (List.filter (starts_drop ratios n drop) (seq 0 i)).
Definition previous_of (i : nat) : bool :=
  match i with O => false | S j => qualifies ratios n drop j end.

Lemma slide_step_spec i : (i < count)%nat →
  let selected := selected_upto (S i) in
  let qualified := qualifies ratios n drop i in
  slide_step ratios first_candidate step (N.of_nat n) drop count
    (mkSlide (window_sum ratios i n) (window_sum ratios (i + n + 1) n) (selected_upto i) (previous_of i)) i
  = Ok (if (i + 1 <? count)%nat
        then mkSlide (window_sum ratios (S i) n) (window_sum ratios (S i + n + 1) n) selected qualified
        else mkSlide (window_sum ratios i n) (window_sum ratios (i + n + 1) n) selected qualified).
Proof.
  intros Hi. cbn zeta. unfold slide_step. rewrite Nat2N.id.
  cbn [sl_baseline sl_distress sl_previous_qualified sl_selected].
  assert (u16_sub 10000 drop = 10000 - drop) as ->.
  { unfold u16_sub. replace (10000 + 2 ^ 16 - drop) with (10000 - drop + 1 * 2 ^ 16) by lia.
    rewrite N.Div0.mod_add. apply N.mod_small. lia. }
  fold (qualifies ratios n drop i).
  assert (u64_add first_candidate (u64_mul (N.of_nat i) step) = first_candidate + N.of_nat i * step) as ->.
  { assert (N.of_nat i * step ≤ N.of_nat count * step) by nia.
    rewrite u64_mul_small, u64_add_small by (unfold u64_max, u64_modulus in *; lia). done. }
  assert ((if qualifies ratios n drop i && negb (previous_of i)
    then Some (selection_at ratios first_candidate step n i) else selected_upto i) = selected_upto (S i)) as Hsel.
  { change (qualifies ratios n drop i && negb (previous_of i)) with (starts_drop ratios n drop i).
    unfold selected_upto. rewrite seq_S, List.filter_app. cbn [List.filter Nat.add].
    destruct (starts_drop ratios n drop i); [by rewrite last_snoc|by rewrite app_nil_r]. }
  unfold selection_at in Hsel. rewrite Hsel.
  destruct (Nat.ltb_spec (i + 1) count) as [Hlt|Hge]; [|done].
  rewrite slide_sum_window by lia. cbn [mbind outcome_bind].
  replace (i + n * 2 + 1)%nat with (i + n + 1 + n)%nat by lia.
  rewrite slide_sum_window by lia. done.
Qed.

Lemma slide_fold m : ∀ i, (i + m)%nat = count → ∃ b d q,
  fold_m (slide_step ratios first_candidate step (N.of_nat n) drop count)
    (mkSlide (window_sum ratios i n) (window_sum ratios (i + n + 1) n) (selected_upto i) (previous_of i))
    (seq i m) = Ok (mkSlide b d (selected_upto (i + m)) q).
Proof.
  induction m as [|m IH]; intros i Hi; cbn [seq fold_m].
  { rewrite Nat.add_0_r. by eexists _, _, _. }
  rewrite slide_step_spec by lia. cbn [mbind outcome_bind].
  destruct (Nat.ltb_spec (i + 1) count) as [Hlt|Hge].
  - destruct (IH (S i)) as (b & d & q & Hf); [lia|]. exists b, d, q.
    replace (i + S m)%nat with (S i + m)%nat by lia. exact Hf.
  - assert (m = 0)%nat as -> by lia. cbn [seq fold_m].
    replace (i + 1)%nat with (S i) by lia. by eexists _, _, _.
Qed.

Lemma select_candidate_spec :
  select_candidate ratios first_candidate step (N.of_nat n) drop (N.of_nat count)
  = ok_or (selected_upto count) (InsufficientPriceDrop drop).
Proof.
  unfold select_candidate. rewrite !Nat2N.id. unfold slice_range.
  rewrite (proj2 (Nat.leb_le 0 n)), (proj2 (Nat.leb_le n (length ratios))),
    (proj2 (Nat.leb_le (n + 1) (n * 2 + 1))), (proj2 (Nat.leb_le (n * 2 + 1) (length ratios))) by lia.
  cbn [andb mbind outcome_bind]. rewrite Nat.sub_0_r. replace (n * 2 + 1 - (n + 1))%nat with n by lia.
  destruct (slide_fold count 0) as (b & d & q & Hf); [done|].
  change (selected_upto 0) with (@None TwapSelection) in Hf. change (previous_of 0) with false in Hf.
  change (sum_N (take n (list.drop 0 ratios))) with (window_sum ratios 0 n).
  change (sum_N (take n (list.drop (n + 1) ratios))) with (window_sum ratios (0 + n + 1) n).
  by rewrite Hf.
Qed.
End Slide.

(** The candidates in units of the sampling step. *)
Lemma candidate_range_ok policy first_candidate last_candidate count : policy_ok policy →
  candidate_range policy = Ok (first_candidate, last_candidate, count) →
  let step := dp_sample_step_blocks policy in
  let n := dp_twap_blocks policy / step in
  ∃ a b, first_candidate = a * step ∧ last_candidate = b * step ∧ a ≤ b ∧ count = b - a + 1 ∧ n ≤ a ∧
    1 ≤ first_candidate ∧ dp_latest_block policy ≤ first_candidate + dp_max_age policy ∧
    last_candidate + dp_twap_blocks policy ≤ dp_finalized_block policy ∧
    first_candidate < dp_latest_block policy ∧ dp_twap_blocks policy = n * step.
Proof.
  intros (Hs & Hmod & _ & _ & _ & _ & Hfl & Hmax). cbn zeta. unfold candidate_range. cbn zeta.
  set (step := dp_sample_step_blocks policy) in *. set (twap := dp_twap_blocks policy) in *.
  assert (twap = twap / step * step) as Htw.
  { pose proof (N.div_mod twap step Hs). rewrite Hmod in *. lia. }
  set (earliest := N.max (N.max (saturating_sub _ _) _) 1).
  intros (latest & Hl%ok_or_ok%checked_sub_Some & (rounds & Hr & (fc & Hf%ok_or_ok & Hc)%bind_ok)%bind_ok)%bind_ok.
  apply bind_ok in Hc as (whole & [-> _]%big_div_ok & Hc).
  apply bind_ok in Hc as (? & Hb%bail_if_ok & Hc). apply orb_false_iff in Hb as [Hb1%N.ltb_ge Hb2%N.leb_gt].
  apply bind_ok in Hc as (gaps & [-> _]%big_div_ok & [= <- <- <-]).
  apply div_ceil_spec in Hr as (_ & Hr & _). unfold checked_mul in Hf.
  destruct (N.leb_spec (rounds * step) u64_max) as [Hfit|]; [|done]. injection Hf as <-.
  pose proof (N_div_mul_le latest step) as Hlast. unfold saturating_sub in *.
  assert (latest / step * step < u64_modulus) as Hsmall by (unfold u64_max, u64_modulus in *; lia).
  rewrite u64_mul_small in * by done.
  assert (rounds ≤ latest / step) as Hab by (apply N.mul_le_mono_pos_r with step; lia).
  assert ((latest / step * step - rounds * step) / step = latest / step - rounds) as Hgap.
  { rewrite <-N.mul_sub_distr_r. by apply N.div_mul. }
  assert (1 ≤ step) by lia. assert (latest / step ≤ latest / step * step) by nia.
  exists rounds, (latest / step). split; [done|]. split; [done|]. split; [done|].
  rewrite u64_sub_small, Hgap, u64_add_small by (unfold u64_max, u64_modulus in *; lia).
  split; [done|]. assert (earliest ≤ rounds * step) as He by lia.
  assert (twap ≤ earliest) by (unfold earliest; lia).
  split; [apply N.mul_le_mono_pos_r with step; lia|]. unfold earliest in *. lia.
Qed.

Lemma ratios_at_length `{HexCrate, AbiCodec} {W} `{!RpcIface W} address data blocks (w : W) ratios w' :
  ratios_at address data blocks w = (Ok ratios, w') → length ratios = length blocks.
Proof.
  unfold ratios_at. destruct (address_is_zero address).
  { intros [<- _]%io_ret_ok. apply length_replicate. }
  intros (? & w1 & _ & (results & w2 & _ & (? & w3 & [Hb%bail_if_ok _]%lift_ok & [Hm _]%lift_ok)
    %io_bind_ok)%io_bind_ok)%io_bind_ok.
  apply negb_false_iff, Nat.eqb_eq in Hb. rewrite <-Hb. clear Hb. revert ratios Hm.
  induction results as [|y results IH]; intros ratios; [by intros [= <-]|].
  intros (r & _ & (rs & Hrs & <-%(inj Ok))%bind_ok)%bind_ok. cbn [length]. f_equal. by apply IH.
Qed.

(** A slice of a mapped sequence. *)
Lemma window_map (f : nat → N) m i n : (i + n ≤ m)%nat →
  window_sum (map f (seq 0 m)) i n = sum_N (map (fun k => f (i + k)%nat) (seq 0 n)).
Proof.
  intros Hm. unfold window_sum. f_equal. rewrite skipn_map, firstn_map.
  replace m with (i + (n + (m - i - n)))%nat by lia. rewrite seq_app, drop_app_length' by (by rewrite length_seq).
  rewrite seq_app, take_app_length' by (by rewrite length_seq). cbn [Nat.add].
  rewrite <-(Nat.add_0_r i) at 1. rewrite <-fmap_add_seq, map_map. done.
Qed.

Lemma latest_drop_spec ratios first_candidate step n minimum count :
  match latest_drop ratios first_candidate step n minimum count with
  | Some selection => ∃ i, (i < count)%nat ∧ selection = selection_at ratios first_candidate step n i ∧
      starts_drop ratios n minimum i = true ∧
      ∀ j, (i < j)%nat → (j < count)%nat → starts_drop ratios n minimum j = false
  | None => ∀ j, (j < count)%nat → qualifies ratios n minimum j = false
  end.
Proof.
  unfold latest_drop. induction count as [|count IH]; [cbn; intros; lia|].
  rewrite seq_S, List.filter_app. cbn [List.filter Nat.add].
  destruct (starts_drop ratios n minimum count) eqn:E.
  - rewrite last_snoc. cbn [fmap option_fmap option_map]. exists count. split; [lia|]. split; [done|].
    split; [done|]. intros; lia.
  - rewrite app_nil_r. destruct (last _) as [i|]; cbn [fmap option_fmap option_map] in *.
    + destruct IH as (i' & Hi & Hsel & Hst & Hlater). exists i'. split; [lia|]. split; [done|].
      split; [done|]. intros j Hj1 Hj2. destruct (decide (j = count)) as [->|]; [done|]. apply Hlater; lia.
    + intros j Hj. destruct (decide (j = count)) as [->|]; [|apply IH; lia].
      unfold starts_drop in E. apply andb_false_iff in E as [E|E]; [done|].
      destruct count as [|k]; [done|]. apply negb_false_iff in E. rewrite IH in E by lia. done.
Qed.

Section Evaluation.
Context `{HexCrate, AbiCodec} {W : Type} `{!RpcIface W}.
Context (address : Address) (data : list byte) (policy : DiscoveryPolicy).
Let step := dp_sample_step_blocks policy.
Let twap := dp_twap_blocks policy.
Let n := N.to_nat (twap / step).
Hypothesis Hok : policy_ok policy.
Context (first_candidate last_candidate count : N).
Hypothesis Hrange : candidate_range policy = Ok (first_candidate, last_candidate, count).

(** The blocks whose ratios are read. *)
Definition sampled_blocks : list N :=
  map (fun k => first_candidate - twap + N.of_nat k * step) (seq 0 (N.to_nat count + 2 * n)).

Lemma discover_eval w : count + 2 * (twap / step) ≤ MAX_INCIDENT_OPEN_DISCOVERY_POINTS →
  discover_incident_open_twap address data policy w =
  match ratios_at address data sampled_blocks w with
  | (Ok ratios, w') =>
      (ok_or (latest_drop ratios first_candidate step n (dp_minimum_drop_bps policy) (N.to_nat count))
         (InsufficientPriceDrop (dp_minimum_drop_bps policy)), w')
  | (Err e, w') => (Err (OpenChain e), w')
  | (Panic s, w') => (Panic s, w')
  end.
Proof.
  intros Hfits. destruct (candidate_range_ok _ _ _ _ Hok Hrange) as
    (a & b & Ha & Hb & Hab & Hcount & Hna & H1 & Hage & Hfin & Hlt & Htw).
  fold step twap in Ha, Hb, Hna, Hfin, Htw. pose proof Hok as (Hs & _ & Hn2 & _ & _ & Hdrop & Hfl & Hmax).
  fold step twap in Hs, Hn2.
  set (q := twap / step) in *. unfold MAX_INCIDENT_OPEN_DISCOVERY_POINTS in Hfits.
  assert (n = N.to_nat q) as Hn by done.
  unfold discover_incident_open_twap. fold step twap. rewrite Hrange, io_bind_lift.
  unfold u64_div at 1, big_div. rewrite (proj2 (N.eqb_neq _ _) Hs), io_bind_lift. fold q.
  assert (saturating_mul q 2 = 2 * q) as -> by (unfold saturating_mul, u64_max; lia).
  rewrite (proj2 (checked_add_Some count (2 * q) _)) by (split; [done|unfold u64_max; lia]).
  cbn [ok_or]. rewrite io_bind_lift.
  rewrite (proj2 (N.ltb_ge MAX_INCIDENT_OPEN_DISCOVERY_POINTS _) Hfits). cbn [bail_if]. rewrite io_bind_lift.
  rewrite (proj2 (checked_add_Some last_candidate twap _)) by (split; [done|lia]).
  cbn [ok_or]. rewrite io_bind_lift.
  assert (twap ≤ first_candidate) by (rewrite Ha, Htw; nia).
  rewrite u64_sub_small by (unfold u64_max, u64_modulus in *; lia).
  rewrite (discovery_blocks_spec step (last_candidate + twap) Hs ltac:(lia)
    (N.to_nat (count + 2 * q - 1))) by first [lia|rewrite N2Nat.id; nia].
  rewrite io_bind_lift. replace (S (N.to_nat (count + 2 * q - 1))) with (N.to_nat count + 2 * n)%nat by lia.
  fold sampled_blocks. unfold mbind, io_bind, open_io, map_err_io, lift.
  destruct (ratios_at address data sampled_blocks w) as [[ratios|e|s] w'] eqn:Er; [|done|done]. f_equal.
  apply ratios_at_length in Er. unfold sampled_blocks in Er. rewrite length_map, length_seq in Er.
  rewrite <-(N2Nat.id q), <-(N2Nat.id count) at 1. rewrite <-Hn.
  rewrite select_candidate_spec; [done|lia..|].
  rewrite N2Nat.id. assert (first_candidate + count * step = last_candidate + step) as -> by nia.
  assert (step ≤ twap) by (rewrite Htw; nia). lia.
Qed.
End Evaluation.

Section Discovered.
Context `{HexCrate, AbiCodec} {W : Type} `{!RpcIface W}.
Context (address : Address) (data : list byte) (policy : DiscoveryPolicy).
(** The conversion ratio of every block. *)
Context (ratio : N → N).
Let step := dp_sample_step_blocks policy.
Let twap := dp_twap_blocks policy.
Let n := N.to_nat (twap / step).

(** The sums of the samples in the window before and in the window after a block. *)
Definition baseline_at (block : N) : N :=
  sum_N (map (fun k => ratio (block - twap + N.of_nat k * step)) (seq 0 n)).
Definition distress_at (block : N) : N :=
  sum_N (map (fun k => ratio (block + N.of_nat (S k) * step)) (seq 0 n)).
(** The price fell by more than the required basis points around the block. *)
Definition price_dropped (block : N) : Prop :=
  distress_at block * 10000 < baseline_at block * (10000 - dp_minimum_drop_bps policy).

Hypothesis Hok : policy_ok policy.
Context (first_candidate last_candidate count : N).
Let blocks := sampled_blocks policy first_candidate count.
Hypothesis Hratio : ∀ w : W, ∃ w', ratios_at address data blocks w = (Ok (map ratio blocks), w').
Hypothesis Hrange : candidate_range policy = Ok (first_candidate, last_candidate, count).
Hypothesis Hfits : count + 2 * (twap / step) ≤ MAX_INCIDENT_OPEN_DISCOVERY_POINTS.

Let ratios := map ratio blocks.

Lemma discover_selects w : ∃ w', discover_incident_open_twap address data policy w
  = (ok_or (latest_drop ratios first_candidate step n (dp_minimum_drop_bps policy) (N.to_nat count))
       (InsufficientPriceDrop (dp_minimum_drop_bps policy)), w').
Proof.
  destruct (Hratio w) as [w' Hr]. exists w'.
  rewrite (discover_eval _ _ _ Hok _ _ _ Hrange) by done. unfold blocks in Hr. by rewrite Hr.
Qed.

(** The reference blocks considered. *)
Definition candidate (block : N) : Prop :=
  first_candidate ≤ block ∧ block ≤ last_candidate ∧ block mod step = 0.
Let block_at (i : nat) : N := first_candidate + N.of_nat i * step.

Lemma candidate_index block : candidate block ↔ ∃ i, (i < N.to_nat count)%nat ∧ block = block_at i.
Proof.
  destruct (candidate_range_ok _ _ _ _ Hok Hrange) as
    (a & b & Ha & Hb & Hab & Hcount & _ & _ & _ & _ & _ & _). destruct Hok as (Hs & _).
  fold step in Ha, Hb, Hs. unfold candidate, block_at. split.
  - intros (Hl & Hu & Hm). pose proof (N.div_mod block step Hs) as Hd. rewrite Hm in Hd.
    exists (N.to_nat (block / step - a)).
    assert (a ≤ block / step) by (apply N.mul_le_mono_pos_r with step; lia).
    assert (block / step ≤ b) by (apply N.mul_le_mono_pos_r with step; lia).
    split; [lia|]. rewrite N2Nat.id. nia.
  - intros (i & Hi & ->). split; [nia|]. split; [nia|]. rewrite Ha, <-N.mul_add_distr_r.
    by apply N.Div0.mod_mul.
Qed.

Lemma qualifies_dropped i : (i < N.to_nat count)%nat →
  window_sum ratios i n = baseline_at (block_at i) ∧
  window_sum ratios (i + n + 1) n = distress_at (block_at i).
Proof.
  destruct (candidate_range_ok _ _ _ _ Hok Hrange) as
    (a & b & Ha & Hb & Hab & Hcount & Hna & _ & _ & _ & _ & Htw).
  fold step twap in Ha, Htw, Hna. intros Hi. unfold ratios, blocks, sampled_blocks. fold step twap n. rewrite map_map.
  assert (twap = N.of_nat n * step) as Htw' by (unfold n; rewrite N2Nat.id; exact Htw).
  assert (twap ≤ first_candidate) by (rewrite Ha, Htw; nia).
  rewrite !window_map by lia. unfold baseline_at, distress_at, block_at.
  split; f_equal; apply map_ext; intros k; f_equal; nia.
Qed.

Lemma qualifies_iff i : (i < N.to_nat count)%nat →
  qualifies ratios n (dp_minimum_drop_bps policy) i = true ↔ price_dropped (block_at i).
Proof.
  intros Hi. destruct (qualifies_dropped i Hi) as [Hb Hd]. unfold qualifies, price_dropped.
  rewrite Hb, Hd. apply N.ltb_lt.
Qed.

Lemma latest_drop_meaning :
  match latest_drop ratios first_candidate step n (dp_minimum_drop_bps policy) (N.to_nat count) with
  | Some selection =>
      let block := sel_reference_block selection in
      candidate block ∧ price_dropped block ∧
      (block ≠ first_candidate → ¬ price_dropped (block - step)) ∧
      (∀ later, candidate later → block < later → price_dropped later → price_dropped (later - step)) ∧
      sel_baseline_sum selection = baseline_at block ∧ sel_distress_sum selection = distress_at block ∧
      sel_sample_count selection = twap / step
  | None => ∀ block, candidate block → ¬ price_dropped block
  end.
Proof.
  destruct Hok as (Hs & _). fold step in Hs.
  assert (∀ i, block_at (S i) - step = block_at i) as Hprev by (intros; unfold block_at; lia).
  pose proof (latest_drop_spec ratios first_candidate step n (dp_minimum_drop_bps policy) (N.to_nat count)) as Hl.
  destruct (latest_drop _ _ _ _ _ _) as [selection|].
  - destruct Hl as (i & Hi & -> & Hst & Hlater). cbn [selection_at sel_reference_block sel_baseline_sum
      sel_distress_sum sel_sample_count]. fold (block_at i). cbn zeta.
    destruct (qualifies_dropped i Hi) as [Hb Hd]. apply andb_true_iff in Hst as [Hq Hp].
    split; [apply candidate_index; by exists i|]. split; [by apply qualifies_iff|]. split.
    { intros Hne. destruct i as [|i]; [unfold block_at in Hne; lia|].
      rewrite Hprev, <-qualifies_iff by lia. by apply not_true_iff_false, negb_true_iff. }
    split; [|by rewrite Hb, Hd; unfold n; rewrite N2Nat.id].
    intros later (j & Hj & ->)%candidate_index Hlt Hdrop. assert (i < j)%nat as Hij by (unfold block_at in Hlt; nia).
    specialize (Hlater j Hij Hj). destruct j as [|j]; [lia|]. rewrite Hprev.
    apply qualifies_iff; [lia|]. unfold starts_drop in Hlater.
    rewrite (proj2 (qualifies_iff (S j) Hj) Hdrop) in Hlater. by apply negb_false_iff in Hlater.
  - intros block (i & Hi & ->)%candidate_index Hdrop. apply qualifies_iff in Hdrop; [|done].
    by rewrite (Hl i Hi) in Hdrop.
Qed.
End Discovered.

Lemma block_number_bound `{HexCrate} {W} `{!RpcIface W} tag expected (w : W) b w' :
  block tag expected w = (Ok b, w') → ba_number b ≤ u64_max.
Proof.
  unfold block. intros (v & w1 & _ & (? & w2 & _ & (n & w3 & [Hn _]%lift_ok & Hb)%io_bind_ok)%io_bind_ok)%io_bind_ok.
  apply io_bind_ok in Hb as (? & w4 & _ & Hb). apply io_bind_ok in Hb as (ts & w5 & _ & Hb).
  apply io_bind_ok in Hb as (hash & w6 & _ & [<- _]%io_ret_ok). cbn [ba_number].
  unfold quantity in Hn. apply bind_ok in Hn as (raw & _ & Hn%ok_or_ok).
  by eapply u64_from_str_radix16_bound.
Qed.

Section OpenFacts.
Context `{HexCrate, Sha3Crate, AbiCodec} {W : Type} `{!RpcIface W}.

Lemma open_heads_ok CHAIN_ID (w : W) chain finalized head w' :
  open_heads CHAIN_ID w = (Ok (chain, finalized, head), w') →
  chain = CHAIN_ID ∧ ba_number finalized ≤ ba_number head ∧ ba_number head ≤ u64_max.
Proof.
  unfold open_heads. intros (c & w1 & _ & (? & w2 & [Hc%bail_if_ok _]%lift_ok & Hs)%io_bind_ok)%io_bind_ok.
  apply io_bind_ok in Hs as (f & w3 & _ & Hs). apply io_bind_ok in Hs as (h & w4 & Hh%map_err_io_ok & Hs).
  apply io_bind_ok in Hs as (? & w5 & [Hb%bail_if_ok%N.ltb_ge _]%lift_ok & [[= <- <- <-] _]%io_ret_ok).
  apply negb_false_iff, N.eqb_eq in Hc. apply block_number_bound in Hh. done.
Qed.

Lemma check_price_config_ok finalized head timing price_config :
  check_price_config price_config (maxReferenceBlockAge timing) = Ok tt →
  ba_number finalized ≤ ba_number head → ba_number head ≤ u64_max →
  policy_ok (policy_of finalized head timing price_config).
Proof.
  unfold check_price_config, policy_ok. cbn zeta.
  intros Hb%bail_if_ok Hf Hh. rewrite !orb_false_iff, negb_false_iff in Hb.
  destruct Hb as ((((((((_ & Hs%N.eqb_neq) & _) & Hm%N.eqb_eq) & H2%N.ltb_ge) & H3%N.ltb_ge) & H4%N.eqb_neq) &
    H5%N.leb_gt) & _). cbn [policy_of dp_twap_blocks dp_sample_step_blocks dp_minimum_drop_bps
    dp_finalized_block dp_latest_block]. repeat (split; [first [done|lia]|]). done.
Qed.

Lemma no_active_ok defi next head (w : W) w' :
  require_no_active_incident defi next head w = (Ok tt, w') → 1 < next →
  ∃ previous phase_window, incident_active previous phase_window (ba_timestamp head) = false.
Proof.
  unfold require_no_active_incident. intros Hs Hn. rewrite (proj2 (N.ltb_lt _ _) Hn) in Hs. cbn zeta in Hs.
  apply io_bind_ok in Hs as (reads & w1 & _ & Hs). apply io_bind_ok in Hs as (previous & w2 & _ & Hs).
  apply io_bind_ok in Hs as (window & w3 & _ & [Hb%bail_if_ok _]%lift_ok). by exists previous, window.
Qed.

(** What a selection satisfies, whatever the provider answered. *)
Lemma discover_ok address data policy (w : W) selection w' : policy_ok policy →
  discover_incident_open_twap address data policy w = (Ok selection, w') →
  let block := sel_reference_block selection in
  let step := dp_sample_step_blocks policy in
  block mod step = 0 ∧ block < dp_latest_block policy ∧
  dp_latest_block policy ≤ block + dp_max_age policy ∧
  block + dp_twap_blocks policy ≤ dp_finalized_block policy ∧
  dp_twap_blocks policy = sel_sample_count selection * step ∧
  sel_distress_sum selection * 10000 < sel_baseline_sum selection * (10000 - dp_minimum_drop_bps policy).
Proof.
  intros Hok Hd. cbn zeta.
  destruct (candidate_range policy) as [[[first_candidate last_candidate] count]|e|s] eqn:Hrange.
  2,3: unfold discover_incident_open_twap in Hd; rewrite Hrange in Hd; discriminate Hd.
  destruct (candidate_range_ok _ _ _ _ Hok Hrange) as
    (a & b & Ha & Hb & Hab & Hcount & Hna & H1' & Hage & Hfin & Hlt & Htw).
  set (q := dp_twap_blocks policy / dp_sample_step_blocks policy) in *.
  destruct (decide (count + 2 * q ≤ MAX_INCIDENT_OPEN_DISCOVERY_POINTS)) as [Hfits|Hbig].
  - rewrite (discover_eval _ _ _ Hok _ _ _ Hrange w Hfits) in Hd.
    destruct (ratios_at _ _ _ w) as [[ratios|e|s] w1]; [|discriminate Hd..].
    injection Hd as Hsel _. apply ok_or_ok in Hsel.
    pose proof (latest_drop_spec ratios first_candidate (dp_sample_step_blocks policy) (N.to_nat q)
      (dp_minimum_drop_bps policy) (N.to_nat count)) as Hl.
    fold q in Hsel. rewrite Hsel in Hl. destruct Hl as (i & Hi & -> & Hst & _).
    cbn [selection_at sel_reference_block sel_sample_count sel_distress_sum sel_baseline_sum].
    apply andb_true_iff in Hst as [Hq%N.ltb_lt _]. rewrite N2Nat.id.
    destruct Hok as (Hs & _ & Hn2 & _ & _ & _ & Hfl & _).
    split; [rewrite Ha, <-N.mul_add_distr_r; by apply N.Div0.mod_mul|].
    assert (N.of_nat i + a ≤ b) as Hib by lia.
    assert ((N.of_nat i + a) * dp_sample_step_blocks policy ≤ b * dp_sample_step_blocks policy) as Hmul
      by (by apply N.mul_le_mono_r).
    assert (1 ≤ dp_twap_blocks policy) by (rewrite Htw; nia).
    split; [lia|]. split; [lia|]. split; [lia|]. split; [done|exact Hq].
  - exfalso. revert Hd. unfold discover_incident_open_twap. rewrite Hrange, io_bind_lift.
    destruct Hok as (Hs & _ & _ & Hn3 & _ & _ & Hfl & Hmax). unfold u64_div at 1, big_div.
    rewrite (proj2 (N.eqb_neq _ _) Hs), io_bind_lift. fold q.
    assert (saturating_mul q 2 = 2 * q) as ->
      by (unfold saturating_mul, u64_max, MAX_INCIDENT_OPEN_SAMPLES in *; lia).
    destruct (checked_add count (2 * q)) as [points|] eqn:Ep; [|discriminate].
    apply checked_add_Some in Ep as [-> _]. cbn [ok_or]. rewrite io_bind_lift.
    rewrite (proj2 (N.ltb_lt MAX_INCIDENT_OPEN_DISCOVERY_POINTS _)) by lia. discriminate.
Qed.
End OpenFacts.

(* ------------------------------------------------------------------ *)
(** ** Theorems *)

(** C16: The discovery of a price drop is the reference one, and total: with a
    checked price configuration and a window that fits, when the provider answers
    the sampled blocks with a conversion ratio per block, the sliding sums select the latest candidate
    block at which a drop starts (it qualifies and the candidate one step before
    does not), with the exact sums of the samples around it, or report that no
    candidate qualifies; every candidate is at most the maximum age old, has
    its whole window finalized, and no index or subtraction fails. *)
Theorem discover_incident_open_twap_spec `{HexCrate, AbiCodec} {W : Type} `{!RpcIface W}
    (address : Address) (data : list byte) (policy : DiscoveryPolicy) (ratio : N → N)
    (first_candidate last_candidate count : N) (w : W) :
  let blocks := sampled_blocks policy first_candidate count in
  policy_ok policy →
  (∀ w, ∃ w', ratios_at (W := W) address data blocks w = (Ok (map ratio blocks), w')) →
  candidate_range policy = Ok (first_candidate, last_candidate, count) →
  count + 2 * (dp_twap_blocks policy / dp_sample_step_blocks policy) ≤ MAX_INCIDENT_OPEN_DISCOVERY_POINTS →
  let step := dp_sample_step_blocks policy in
  let is_candidate := candidate policy first_candidate last_candidate in
  let dropped := price_dropped policy ratio in
  (∀ block, is_candidate block → dp_twap_blocks policy ≤ block ∧ block < dp_latest_block policy ∧
     dp_latest_block policy ≤ block + dp_max_age policy ∧
     block + dp_twap_blocks policy ≤ dp_finalized_block policy) ∧
  ∃ r w', discover_incident_open_twap address data policy w = (r, w') ∧
    match r with
    | Ok selection =>
        let block := sel_reference_block selection in
        is_candidate block ∧ dropped block ∧ (block ≠ first_candidate → ¬ dropped (block - step)) ∧
        (∀ later, is_candidate later → block < later → dropped later → dropped (later - step)) ∧
        sel_baseline_sum selection = baseline_at policy ratio block ∧
        sel_distress_sum selection = distress_at policy ratio block ∧
        sel_sample_count selection = dp_twap_blocks policy / step
    | Err (InsufficientPriceDrop _) => ∀ block, is_candidate block → ¬ dropped block
    | _ => False
    end.
Proof.
  intros blocks Hok Hratio Hrange Hfits. cbn zeta. split.
  - intros block (Hl & Hu & _). destruct (candidate_range_ok _ _ _ _ Hok Hrange) as
      (a & b & Ha & Hb & Hab & Hcount & Hna & H1 & Hage & Hfin & Hlt & Htw).
    assert (dp_twap_blocks policy ≤ first_candidate) by (rewrite Ha, Htw; nia).
    destruct Hok as (Hs & _ & Hn2 & _ & _ & _ & Hfl & _).
    assert (1 ≤ dp_twap_blocks policy) by (rewrite Htw; nia). lia.
  - destruct (discover_selects address data policy ratio Hok _ _ _ Hratio Hrange Hfits w) as [w' Hd].
    eexists _, w'. split; [exact Hd|].
    pose proof (latest_drop_meaning policy ratio Hok _ _ _ Hrange Hfits) as Hm.
    by destruct (latest_drop _ _ _ _ _ _).
Qed.


(* ------------------------------------------------------------------ *)
(** ** Evaluated instances *)

#[local] Existing Instances RefHex.hex_crate RefHex.hex_laws RefSha3.sha3_crate RefAbi.abi_codec.

(** The price halves at block 13. *)
Definition demo_ratio (block : N) : N := if block <? 13 then 1000 else 500.
Definition demo_open_table : list (Address * SolFn * list byte) := Eval vm_compute in
  [(demo_registry, defiInsurance, returns defiInsurance demo_registry);
   (demo_registry, registry, returns registry demo_registry);
   (demo_registry, nextIncidentId, returns nextIncidentId 5);
   (demo_registry, incidentTimingConfig, returns incidentTimingConfig (mkIncidentTimingConfig 100 10));
   (demo_registry, incidentOpenPriceConfig,
      returns incidentOpenPriceConfig (mkIncidentOpenPriceConfig 4 2 3000));
   (demo_registry, getInsuredToken,
      returns getInsuredToken (mkInsuredToken 8000 demo_feed demo_pool [x01; x02; x03; x04]));
   (demo_registry, incidentOpenEligibilityHash, returns incidentOpenEligibilityHash (demo_block_hash 3));
   (demo_registry, isTeeSigner, returns isTeeSigner true);
   (demo_registry, teePcrHash, returns teePcrHash (demo_block_hash 4));
   (demo_registry, incidents, returns incidents (mkIncidentsReturn demo_token 0 2 3 1100
      (zero_array 32) 1 (zero_array 32) (zero_array 32) 500));
   (demo_registry, incidentPhaseWindow, returns incidentPhaseWindow 100)].
Definition demo_open_answer (to : Address) (data : list byte) (number : N) : list byte :=
  if bool_decide (to = demo_pool) then be_bytes 32 (demo_ratio number)
  else table_answer demo_open_table to data number.
#[local] Instance open_provider : RpcIface unit :=
  RefProvider.provider demo_ts demo_block_hash 20 demo_open_answer [].
Definition demo_policy : DiscoveryPolicy := mkDiscoveryPolicy 20 20 10 4 2 3000.

Example discover_incident_open_twap_spec_witness :
  ∃ selection w', discover_incident_open_twap (W := unit) demo_pool [x01] demo_policy tt
    = (Ok selection, w') ∧ sel_reference_block selection = 12 ∧
    sel_baseline_sum selection = 2000 ∧ sel_distress_sum selection = 1000 ∧
    price_dropped demo_policy demo_ratio 12.
Proof.
  assert (match (discover_incident_open_twap (W := unit) demo_pool [x01] demo_policy tt).1 with
    | Ok selection => (sel_reference_block selection =? 12) && (sel_baseline_sum selection =? 2000) &&
                      (sel_distress_sum selection =? 1000)
    | _ => false end = true) as Hc by (vm_compute; reflexivity).
  destruct (discover_incident_open_twap_spec (W := unit) demo_pool [x01] demo_policy demo_ratio 10 16 4 tt)
    as (_ & r & w' & E & Hr).
  - vm_compute. intuition discriminate.
  - intros []. eexists. vm_compute. reflexivity.
  - vm_compute. reflexivity.
  - vm_compute. discriminate.
  - rewrite E in Hc. destruct r as [selection|e|s]; [|discriminate Hc|discriminate Hc].
    cbn [fst] in Hc. rewrite !andb_true_iff, !N.eqb_eq in Hc. destruct Hc as ((H1 & H2) & H3).
    destruct Hr as (_ & Hd & _). rewrite H1 in Hd. exists selection, w'.
    split; [exact E|]. split; [exact H1|]. split; [exact H2|]. split; [exact H3|exact Hd].
Defined.

