(* ===== verification/ScoreApi.v ===== *)
(** * Insurance scores served to one account
      ([src/score.rs] and [score-api/src/lib.rs])

    [insurance_score_at] replays an account from the first rate block on every
    call.  The score service keeps a checkpoint per account instead: per scored
    token the score state at a cursor block, once at the maturity cutoff and
    once at the reference block, as decimal text.  A request validates the
    checkpoint against the current rate history, replays the transfers between
    the cursor and the target and confirms the balance on chain. *)

From S2P Require Import Prelude Bytes Text Commit ScoreCore Rpc Abi Config Chain ChainConfig History.

Open Scope string_scope.
Open Scope N_scope.
Open Scope list_scope.

(* ------------------------------------------------------------------ *)
(** ** The one-shot query ([src/score.rs]) *)

Inductive ScoreError :=
  | SeChain (error : ChainError)
  | SeWrongChain (actual expected : N)
  | SeZeroDefiInsurance.
#[export] Instance ScoreError_eq_dec : EqDecision ScoreError.
Proof. solve_decision. Defined.

Record InsuranceScoreSnapshot := mkInsuranceScoreSnapshot {
  iss_network : string;
  iss_chain_id : string;
  iss_registry : string;
  iss_account : string;
  iss_reference_block : string;
  iss_reference_block_hash : string;
  iss_score_cutoff_block : string;
  iss_score_cutoff_block_hash : string;
  iss_min_holding_required : string;
  iss_gross_earned_score : string;
  iss_score_spent : string;
  iss_available_score : string;
  iss_scored_tokens : list string;
  iss_log_requests : string
}.

Definition score_cutoff_block (reference_block min_holding_required : N) : N :=
  if min_holding_required <? reference_block then u64_sub reference_block min_holding_required
  else 1.

Definition available_score {E} (gross spent : N) : outcome E N :=
  if spent <? gross then big_sub gross spent else Ok 0.

Section InsuranceScore.
Context `{HexCrate, AbiCodec} {W : Type} `{!RpcIface W}.
(** [CHAIN_ID] of the build. *)
Context (CHAIN_ID : N).

(** [block_by_number(..)] once more: the hash must be the one read before. *)
Definition recheck_anchor (name : string) (number : N) (before : string) : io W ChainError unit :=
  final ← block_by_number number;
  lift (bail_if (negb (String.eqb (ba_hash final) before))
    (AnchorChanged name number before (ba_hash final))).

Definition insurance_score_at (registry account : Address) :
    io W ScoreError InsuranceScoreSnapshot :=
  actual_chain ← map_err_io SeChain chain_id;
  _ ← lift (bail_if (negb (actual_chain =? CHAIN_ID)) (SeWrongChain actual_chain CHAIN_ID));
  finalized ← map_err_io SeChain finalized_block;
  defi_insurance ← map_err_io SeChain (defi_insurance_at registry (Some (ba_number finalized)));
  _ ← lift (bail_if (address_is_zero defi_insurance) SeZeroDefiInsurance);
  '(config, spent) ← map_err_io SeChain
    (score_config_and_spent_at registry defi_insurance account (ba_number finalized));
  let cutoff := score_cutoff_block (ba_number finalized)
                  (holding_margin_blocks (sc_params config)) in
  cutoff_anchor ← map_err_io SeChain (block_by_number cutoff);
  '(gross, metrics) ← map_err_io SeChain
    (earned_score_of (sc_scored_tokens config) account cutoff MAX_LOG_RANGE LOG_RESULT_CAP);
  available ← lift (available_score gross spent);
  _ ← map_err_io SeChain (recheck_anchor "score cutoff" cutoff (ba_hash cutoff_anchor));
  _ ← map_err_io SeChain
        (recheck_anchor "score reference" (ba_number finalized) (ba_hash finalized));
  mret {| iss_network := if CHAIN_ID =? 11155111 then "sepolia" else "mainnet";
          iss_chain_id := to_decimal CHAIN_ID;
          iss_registry := address_to_string registry;
          iss_account := address_to_string account;
          iss_reference_block := to_decimal (ba_number finalized);
          iss_reference_block_hash := ba_hash finalized;
          iss_score_cutoff_block := to_decimal cutoff;
          iss_score_cutoff_block_hash := ba_hash cutoff_anchor;
          iss_min_holding_required := to_decimal (holding_margin_blocks (sc_params config));
          iss_gross_earned_score := to_decimal gross;
          iss_score_spent := to_decimal spent;
          iss_available_score := to_decimal available;
          iss_scored_tokens := map (fun t => address_to_string (st_token t)) (sc_scored_tokens config);
          iss_log_requests := to_decimal (lm_requests metrics) |}.
End InsuranceScore.

(* ------------------------------------------------------------------ *)
(** ** Data of the score service ([score-api/src/lib.rs]) *)

Definition CHECKPOINT_SCHEMA_VERSION : N := 3.
Definition SCORE_SNAPSHOT_VERSION : N := 3.
Definition MAX_PARALLEL_TOKEN_REPLAYS : nat := 4.
Definition SCORE_MAX_INITIAL_LOG_RANGE : N := 5000.

Record ScoreNetwork := mkScoreNetwork { sn_chain_id : N; sn_name : string }.

Record PersistedAccountState := mkPersistedAccountState {
  pas_balance : string;
  pas_last_block : string;
  pas_completed_numerator : string;
  pas_active_segment_from : option string;
  pas_active_integral : string
}.
Record PersistedRatePoint := mkPersistedRatePoint { prp_from_block : string; prp_rate : string }.
Record TokenCheckpoint := mkTokenCheckpoint {
  tc_token : string;
  tc_decimals : N;
  tc_cursor_block : string;
  tc_cursor_block_hash : string;
  tc_rates : list PersistedRatePoint;
  tc_account : PersistedAccountState
}.
Record UserCheckpoint := mkUserCheckpoint {
  uc_schema_version : N;
  uc_chain_id : string;
  uc_registry : string;
  uc_account : string;
  uc_tokens : list TokenCheckpoint;
  uc_visible_tokens : list TokenCheckpoint
}.
Record TokenScoreSnapshot := mkTokenScoreSnapshot {
  ts_token : string;
  ts_balance : string;
  ts_gross_earned_score : string;
  ts_gross_score_per_second : string
}.
Record CachedInsuranceScoreSnapshot := mkCachedInsuranceScoreSnapshot {
  cs_snapshot_version : N;
  cs_network : string;
  cs_chain_id : string;
  cs_registry : string;
  cs_account : string;
  cs_reference_block : string;
  cs_reference_block_hash : string;
  cs_score_cutoff_block : string;
  cs_score_cutoff_block_hash : string;
  cs_min_holding_required : string;
  cs_snapshot_timestamp : string;
  cs_gross_earned_score : string;
  cs_matured_gross_earned_score : string;
  cs_score_spent : string;
  cs_available_score : string;
  cs_gross_score_per_second : string;
  cs_maturing_score_per_second : string;
  cs_token_scores : list TokenScoreSnapshot;
  cs_scored_tokens : list string;
  cs_log_requests : string;
  cs_cache_status : string
}.

Record ScoreBreakdown := mkScoreBreakdown {
  sb_gross_earned_score : N;
  sb_matured_gross_earned_score : N;
  sb_available_score : N
}.

Inductive IncrementalScoreError :=
  | Malformed (field : string)
  | TokenMismatch
  | DecimalsMismatch
  | RateHistoryMismatch
  | RetroactiveRate
  | CursorRollback
  | InvalidTransferOrder
  | Core (error : ScoreCoreError)
  | IsChain (error : ChainError)
  | IsWrongChain (actual expected : N)
  | IsZeroDefiInsurance
  | CheckpointIdentity
  | CheckpointBlockHash.
#[export] Instance IncrementalScoreError_eq_dec : EqDecision IncrementalScoreError.
Proof. solve_decision. Defined.

(* ------------------------------------------------------------------ *)
(** ** Pure operations *)

Definition score_breakdown (reference_numerator matured_numerator spent : N) :
    outcome IncrementalScoreError ScoreBreakdown :=
  let gross_earned_score := gross_score reference_numerator in
  let matured_gross_earned_score := gross_score matured_numerator in
  available_score ← (if spent <? matured_gross_earned_score
                     then big_sub matured_gross_earned_score spent else Ok 0);
  Ok (mkScoreBreakdown gross_earned_score matured_gross_earned_score available_score).

(** [if let Some(last) = scores.last_mut() { *last += v }]. *)
Fixpoint add_to_last (v : N) (scores : list N) : list N :=
  match scores with
  | [] => []
  | [last] => [last + v]
  | s :: scores => s :: add_to_last v scores
  end.

(** Each token's floor; the last one takes what flooring the total leaves. *)
Definition allocate_token_scores (numerators : list N) : outcome IncrementalScoreError (list N) :=
  let total := gross_score (sum_N numerators) in
  let scores := map gross_score numerators in
  let allocated := sum_N scores in
  match scores with
  | [] => Ok []
  | _ => rest ← big_sub total allocated; Ok (add_to_last rest scores)
  end.

Definition scaled_balance (balance decimals : N) : N :=
  if decimals <=? 18 then balance * 10 ^ (18 - decimals) else balance / 10 ^ (decimals - 18).

Definition valid_hash (value : string) : bool :=
  (str_len value =? 66) &&
  match strip_prefix "0x" value with Some digits => str_all is_ascii_hexdigit digits | None => false end.

Definition decimal (value field : string) : outcome IncrementalScoreError N :=
  _ ← bail_if (negb (canonical_decimal value)) (Malformed field);
  ok_or (biguint_from_str value) (Malformed field).
(** [value.parse::<u64>()] fails beyond [u64::MAX]. *)
Definition decimal_u64 (value field : string) : outcome IncrementalScoreError N :=
  n ← decimal value field;
  if n <=? u64_max then Ok n else Err (Malformed field).

Definition checkpoint_cursor (checkpoint : TokenCheckpoint) : outcome IncrementalScoreError N :=
  decimal_u64 (tc_cursor_block checkpoint) "cursorBlock".
Definition checkpoint_balance (checkpoint : TokenCheckpoint) : outcome IncrementalScoreError N :=
  decimal (pas_balance (tc_account checkpoint)) "account.balance".

Definition live_score_per_second (checkpoint : TokenCheckpoint) (scored : ScoredToken)
    (target_block : N) : outcome IncrementalScoreError N :=
  let rate := default 0 (rp_rate <$>
    List.find (fun point => rp_from_block point <=? target_block) (rev (st_rates scored))) in
  balance ← checkpoint_balance checkpoint;
  Ok (scaled_balance balance (st_decimals scored) * rate / SCORE_SCALE / 12).

Definition persisted_rate (point : RatePoint) : PersistedRatePoint :=
  mkPersistedRatePoint (to_decimal (rp_from_block point)) (to_decimal (rp_rate point)).
Definition persisted_rates (rates : list RatePoint) : list PersistedRatePoint :=
  map persisted_rate rates.

Definition parse_rate (point : PersistedRatePoint) : outcome IncrementalScoreError RatePoint :=
  from_block ← decimal_u64 (prp_from_block point) "rates.fromBlock";
  rate ← decimal (prp_rate point) "rates.rate";
  Ok (mkRatePoint from_block rate).
Definition parse_rates (rates : list PersistedRatePoint) :
    outcome IncrementalScoreError (list RatePoint) :=
  parsed ← mapM parse_rate rates;
  _ ← map_err Core (validate_rates parsed);
  Ok parsed.

Definition persisted_account (state : AccountScoreState) : PersistedAccountState :=
  mkPersistedAccountState (to_decimal (balance state)) (to_decimal (last_block state))
    (to_decimal (completed_numerator state)) (to_decimal <$> active_segment_from state)
    (to_decimal (active_integral state)).

Definition parse_account (state : PersistedAccountState) :
    outcome IncrementalScoreError AccountScoreState :=
  balance ← decimal (pas_balance state) "account.balance";
  last_block ← decimal_u64 (pas_last_block state) "account.lastBlock";
  completed_numerator ← decimal (pas_completed_numerator state) "account.completedNumerator";
  active_segment_from ← match pas_active_segment_from state with
    | Some value => from_block ← decimal_u64 value "account.activeSegmentFrom"; Ok (Some from_block)
    | None => Ok None
    end;
  active_integral ← decimal (pas_active_integral state) "account.activeIntegral";
  Ok (mkAccountScoreState balance last_block completed_numerator active_segment_from active_integral).

Definition first_contributing_block (scored : ScoredToken) (target : N) : option N :=
  rp_from_block <$> List.find (fun point => negb (rp_rate point =? 0) &&
    (rp_from_block point <? target)) (st_rates scored).

Definition merge_metrics (left right : LogMetrics) : LogMetrics :=
  mkLogMetrics (saturating_add (lm_requests left) (lm_requests right))
    (saturating_add (lm_bisections left) (lm_bisections right))
    (saturating_add (lm_errors left) (lm_errors right))
    (saturating_add (lm_elapsed_ms left) (lm_elapsed_ms right)).

Section ScoreText.
Context `{HexCrate}.

Definition validate_checkpoint (checkpoint : TokenCheckpoint) (scored : ScoredToken) :
    outcome IncrementalScoreError (N * AccountScoreState) :=
  _ ← bail_if (negb (String.eqb (tc_token checkpoint) (address_to_string (st_token scored))))
        TokenMismatch;
  _ ← bail_if (negb (tc_decimals checkpoint =? st_decimals scored)) DecimalsMismatch;
  _ ← bail_if (negb (valid_hash (tc_cursor_block_hash checkpoint))) (Malformed "cursorBlockHash");
  cursor ← decimal_u64 (tc_cursor_block checkpoint) "cursorBlock";
  old_rates ← parse_rates (tc_rates checkpoint);
  _ ← bail_if ((length (st_rates scored) <? length old_rates)%nat ||
               existsb (fun '(old, current) => negb (bool_decide (old = current)))
                 (zip old_rates (st_rates scored))) RateHistoryMismatch;
  _ ← bail_if (existsb (fun rate => rp_from_block rate <=? cursor)
                 (drop (length old_rates) (st_rates scored))) RetroactiveRate;
  state ← parse_account (tc_account checkpoint);
  _ ← bail_if (negb (last_block state =? cursor)) (Malformed "account.lastBlock");
  Ok (cursor, state).

Definition new_token_checkpoint (scored : ScoredToken) (starting_block starting_balance : N)
    (starting_block_hash : string) : TokenCheckpoint :=
  let state := mkAccountScoreState starting_balance starting_block 0 None 0 in
  mkTokenCheckpoint (address_to_string (st_token scored)) (st_decimals scored)
    (to_decimal starting_block) (to_ascii_lowercase starting_block_hash)
    (persisted_rates (st_rates scored)) (persisted_account state).

(** One iteration of the transfer loop; the position of the previous transfer
    and the score state are threaded. *)
Definition replay_one (account : Address) (scored : ScoredToken) (cursor target_block : N)
    (loop : option (N * N) * AccountScoreState) (transfer : TokenTransfer) :
    outcome IncrementalScoreError (option (N * N) * AccountScoreState) :=
  let '(previous, state) := loop in
  let order := (tt_block_number transfer, tt_log_index transfer) in
  _ ← bail_if ((tt_block_number transfer <=? cursor) || (target_block <? tt_block_number transfer) ||
               match previous with
               | Some previous => negb (bool_decide (key_lt previous order))
               | None => false
               end) InvalidTransferOrder;
  let inflow := if bool_decide (tt_to transfer = account) then tt_value transfer else 0 in
  let outflow := if bool_decide (tt_from transfer = account) then tt_value transfer else 0 in
  if negb (inflow =? 0) || negb (outflow =? 0) then
    let '(applied, state) := apply_transfer (tt_block_number transfer) inflow outflow
                               (st_rates scored) (st_decimals scored) state in
    _ ← map_err Core applied;
    Ok (Some order, state)
  else Ok (Some order, state).

(** The fields are assigned after the last failure: the checkpoint of the
    caller changes only on success. *)
Definition advance_token_checkpoint (checkpoint : TokenCheckpoint) (scored : ScoredToken)
    (account : Address) (transfers : list TokenTransfer) (target_block : N)
    (target_block_hash : string) : outcome IncrementalScoreError TokenCheckpoint :=
  _ ← bail_if (negb (valid_hash target_block_hash)) (Malformed "targetBlockHash");
  _ ← map_err Core (validate_rates (st_rates scored));
  '(cursor, state) ← validate_checkpoint checkpoint scored;
  _ ← bail_if (target_block <? cursor) CursorRollback;
  '(_, state) ← fold_m (replay_one account scored cursor target_block) (None, state) transfers;
  let '(advanced, state) := advance_account target_block (st_rates scored) (st_decimals scored) state in
  _ ← map_err Core advanced;
  Ok (mkTokenCheckpoint (tc_token checkpoint) (tc_decimals checkpoint) (to_decimal target_block)
        (to_ascii_lowercase target_block_hash) (persisted_rates (st_rates scored))
        (persisted_account state)).

Definition token_numerator (checkpoint : TokenCheckpoint) (scored : ScoredToken)
    (target_block : N) : outcome IncrementalScoreError N :=
  '(cursor, state) ← validate_checkpoint checkpoint scored;
  _ ← bail_if (target_block <? cursor) CursorRollback;
  map_err Core (projected_numerator state target_block (st_rates scored) (st_decimals scored)).

(** [checkpoints.iter().find(|item| item.token == scored.token.to_string())]. *)
Definition find_checkpoint (checkpoints : list TokenCheckpoint) (scored : ScoredToken) :
    option TokenCheckpoint :=
  List.find (fun item => String.eqb (tc_token item) (address_to_string (st_token scored))) checkpoints.

Definition token_numerators (checkpoints : list TokenCheckpoint) (scored_tokens : list ScoredToken)
    (target_block : N) : outcome IncrementalScoreError (list N) :=
  mapM (fun scored => match find_checkpoint checkpoints scored with
        | Some checkpoint => token_numerator checkpoint scored target_block
        | None => Ok 0
        end) scored_tokens.

Definition live_score_rates (checkpoints : list TokenCheckpoint) (scored_tokens : list ScoredToken)
    (target_block : N) : outcome IncrementalScoreError (list N) :=
  mapM (fun scored => match find_checkpoint checkpoints scored with
        | Some checkpoint => live_score_per_second checkpoint scored target_block
        | None => Ok 0
        end) scored_tokens.

Definition visible_balances (checkpoints : list TokenCheckpoint) (scored_tokens : list ScoredToken) :
    outcome IncrementalScoreError (list N) :=
  mapM (fun scored => match find_checkpoint checkpoints scored with
        | Some checkpoint => checkpoint_balance checkpoint
        | None => Ok 0
        end) scored_tokens.

Definition validate_user_checkpoint (checkpoint : UserCheckpoint) (network : ScoreNetwork)
    (registry account : Address) : outcome IncrementalScoreError unit :=
  bail_if (negb (uc_schema_version checkpoint =? CHECKPOINT_SCHEMA_VERSION) ||
           negb (String.eqb (uc_chain_id checkpoint) (to_decimal (sn_chain_id network))) ||
           negb (String.eqb (uc_registry checkpoint) (address_to_string registry)) ||
           negb (String.eqb (uc_account checkpoint) (address_to_string account)))
    CheckpointIdentity.
End ScoreText.

(* ------------------------------------------------------------------ *)
(** ** Replaying to a block *)

(** What one token replay yields, and what [score_to_block] accumulates. *)
Record TokenReplay := mkTokenReplay {
  tr_checkpoint : option TokenCheckpoint;
  tr_numerator : N;
  tr_metrics : LogMetrics;
  tr_advanced : bool;
  tr_missed : bool
}.
Record BlockScore := mkBlockScore {
  bs_next_tokens : list TokenCheckpoint;
  bs_numerator : N;
  bs_metrics : LogMetrics;
  bs_advanced : bool;
  bs_missed : bool
}.

Section Replays.
Context `{HexCrate, AbiCodec} {W : Type} `{!RpcIface W}.

Definition score_io {A} : io W ChainError A → io W IncrementalScoreError A := map_err_io IsChain.

(** The stored checkpoint of a token, its block confirmed, or a new one. *)
Definition starting_checkpoint (account : Address) (previous_tokens : list TokenCheckpoint)
    (scored : ScoredToken) (starting_block : N) : io W IncrementalScoreError TokenCheckpoint :=
  match find_checkpoint previous_tokens scored with
  | Some stored =>
      cursor ← lift (checkpoint_cursor stored);
      current ← score_io (block_by_number cursor);
      _ ← lift (bail_if (negb (eq_ignore_ascii_case (ba_hash current) (tc_cursor_block_hash stored)))
            CheckpointBlockHash);
      mret stored
  | None =>
      balance ← score_io (balance_of_at (st_token scored) account starting_block);
      current ← score_io (block_by_number starting_block);
      mret (new_token_checkpoint scored starting_block balance (ba_hash current))
  end.

Definition token_to_block (account : Address) (previous_tokens : list TokenCheckpoint)
    (target_block : N) (target_block_hash : string) (scored : ScoredToken) :
    io W IncrementalScoreError TokenReplay :=
  match first_contributing_block scored target_block with
  | None => mret (mkTokenReplay None 0 default_log_metrics false false)
  | Some starting_block =>
      let stored := find_checkpoint previous_tokens scored in
      checkpoint ← starting_checkpoint account previous_tokens scored starting_block;
      cursor ← lift (checkpoint_cursor checkpoint);
      '(checkpoint, transfer_metrics, token_advanced) ←
        (if cursor <? target_block then
           '(transfers, transfer_metrics) ← score_io (erc20_transfers_for_accounts (st_token scored)
             {[account]} (u64_add cursor 1) target_block SCORE_MAX_INITIAL_LOG_RANGE LOG_RESULT_CAP);
           checkpoint ← lift (advance_token_checkpoint checkpoint scored account transfers
                                target_block target_block_hash);
           mret (checkpoint, transfer_metrics, true)
         else if target_block <? cursor then lift (Err CursorRollback)
         else mret (checkpoint, default_log_metrics, false));
      actual_balance ← score_io (balance_of_at (st_token scored) account target_block);
      replayed_balance ← lift (checkpoint_balance checkpoint);
      _ ← lift (bail_if (negb (replayed_balance =? actual_balance)) (Malformed "replayedBalance"));
      numerator ← lift (token_numerator checkpoint scored target_block);
      mret (mkTokenReplay (Some checkpoint) numerator transfer_metrics token_advanced
              (match stored with Some _ => false | None => true end))
  end.

Definition add_replay (out : BlockScore) (replay : TokenReplay) : BlockScore :=
  mkBlockScore
    (bs_next_tokens out ++ match tr_checkpoint replay with Some c => [c] | None => [] end)
    (bs_numerator out + tr_numerator replay)
    (merge_metrics (bs_metrics out) (tr_metrics replay))
    (bs_advanced out || tr_advanced replay)
    (bs_missed out || tr_missed replay).

(** [try_join_all] runs the up to four replays of a chunk, here one after the
    other; their results are merged in the order of the tokens. *)
Definition score_to_block (scored_tokens : list ScoredToken) (account : Address)
    (previous_tokens : list TokenCheckpoint) (target_block : N) (target_block_hash : string) :
    io W IncrementalScoreError BlockScore :=
  fold_m (fun out scored_chunk =>
      replayed ← mapM (M := io W IncrementalScoreError)
        (token_to_block account previous_tokens target_block target_block_hash) scored_chunk;
      mret (foldl add_replay out replayed))
    (mkBlockScore [] 0 default_log_metrics false false)
    (chunks MAX_PARALLEL_TOKEN_REPLAYS scored_tokens).

(** The rows of [token_scores], zipped in the order of the configuration. *)
Definition token_score (row : ScoredToken * N * N * N) : TokenScoreSnapshot :=
  let '(token, gross_earned_score, gross_score_per_second, balance) := row in
  mkTokenScoreSnapshot (address_to_string (st_token token)) (to_decimal balance)
    (to_decimal gross_earned_score) (to_decimal gross_score_per_second).

Definition cache_status (matured visible : BlockScore) : string :=
  if bs_missed matured || bs_missed visible then "miss"
  else if bs_advanced matured || bs_advanced visible then "advanced" else "hit".

Definition compute_incremental_score_at (network : ScoreNetwork) (registry account : Address)
    (reference : BlockAnchor) (previous : option UserCheckpoint) :
    io W IncrementalScoreError (CachedInsuranceScoreSnapshot * UserCheckpoint) :=
  actual_chain ← score_io chain_id;
  _ ← lift (bail_if (negb (actual_chain =? sn_chain_id network))
        (IsWrongChain actual_chain (sn_chain_id network)));
  _ ← lift (match previous with
            | Some checkpoint => validate_user_checkpoint checkpoint network registry account
            | None => Ok tt
            end);
  defi_insurance ← score_io (defi_insurance_at registry (Some (ba_number reference)));
  _ ← lift (bail_if (address_is_zero defi_insurance) IsZeroDefiInsurance);
  '(config, spent) ← score_io
    (score_config_and_spent_at registry defi_insurance account (ba_number reference));
  let tokens := sc_scored_tokens config in
  let cutoff := score_cutoff_block (ba_number reference)
                  (holding_margin_blocks (sc_params config)) in
  cutoff_anchor ← score_io (block_by_number cutoff);
  matured ← score_to_block tokens account
    (match previous with Some checkpoint => uc_tokens checkpoint | None => [] end)
    cutoff (ba_hash cutoff_anchor);
  visible ← score_to_block tokens account
    (match previous with Some checkpoint => uc_visible_tokens checkpoint
                       | None => bs_next_tokens matured end)
    (ba_number reference) (ba_hash reference);
  let metrics := merge_metrics (bs_metrics matured) (bs_metrics visible) in
  score ← lift (score_breakdown (bs_numerator visible) (bs_numerator matured) spent);
  visible_token_numerators ← lift (token_numerators (bs_next_tokens visible) tokens
                                     (ba_number reference));
  visible_token_scores ← lift (allocate_token_scores visible_token_numerators);
  visible_rates ← lift (live_score_rates (bs_next_tokens visible) tokens (ba_number reference));
  balances ← lift (visible_balances (bs_next_tokens visible) tokens);
  matured_rates ← lift (live_score_rates (bs_next_tokens matured) tokens cutoff);
  let token_scores := map token_score
    (zip (zip (zip tokens visible_token_scores) visible_rates) balances) in
  _ ← score_io (recheck_anchor "score cutoff" cutoff (ba_hash cutoff_anchor));
  _ ← score_io (recheck_anchor "score reference" (ba_number reference) (ba_hash reference));
  mret ({| cs_snapshot_version := SCORE_SNAPSHOT_VERSION;
           cs_network := sn_name network;
           cs_chain_id := to_decimal (sn_chain_id network);
           cs_registry := address_to_string registry;
           cs_account := address_to_string account;
           cs_reference_block := to_decimal (ba_number reference);
           cs_reference_block_hash := ba_hash reference;
           cs_score_cutoff_block := to_decimal cutoff;
           cs_score_cutoff_block_hash := ba_hash cutoff_anchor;
           cs_min_holding_required := to_decimal (holding_margin_blocks (sc_params config));
           cs_snapshot_timestamp := to_decimal (ba_timestamp reference);
           cs_gross_earned_score := to_decimal (sb_gross_earned_score score);
           cs_matured_gross_earned_score := to_decimal (sb_matured_gross_earned_score score);
           cs_score_spent := to_decimal spent;
           cs_available_score := to_decimal (sb_available_score score);
           cs_gross_score_per_second := to_decimal (sum_N visible_rates);
           cs_maturing_score_per_second := to_decimal (sum_N matured_rates);
           cs_token_scores := token_scores;
           cs_scored_tokens := map (fun t => address_to_string (st_token t)) tokens;
           cs_log_requests := to_decimal (lm_requests metrics);
           cs_cache_status := cache_status matured visible |},
        {| uc_schema_version := CHECKPOINT_SCHEMA_VERSION;
           uc_chain_id := to_decimal (sn_chain_id network);
           uc_registry := address_to_string registry;
           uc_account := address_to_string account;
           uc_tokens := bs_next_tokens matured;
           uc_visible_tokens := bs_next_tokens visible |}).

Definition compute_incremental_score (network : ScoreNetwork) (registry account : Address)
    (previous : option UserCheckpoint) :
    io W IncrementalScoreError (CachedInsuranceScoreSnapshot * UserCheckpoint) :=
  reference ← score_io finalized_block;
  compute_incremental_score_at network registry account reference previous.
End Replays.
