(* ===== verification/ScoreApiFacts.v ===== *)
(** * Correctness of the score service

    A checkpoint is faithful to a balance history when its text is the text of
    the represented score state at its cursor.  Validation, replay and
    projection keep faithful checkpoints faithful, so every response of a chain
    of requests carries the score of the specification.  The theorems are about
    the definitions of [ScoreApi]. *)

From S2P Require Import Prelude Bytes Text Commit ScoreCore Rpc Abi Config Chain ChainConfig History.
From S2P Require Import Checkpoint CheckpointStore Replay ReplayFacts ScoreApi.
From Stdlib Require Import Strings.Byte.

Open Scope N_scope.
Open Scope list_scope.

(* ------------------------------------------------------------------ *)
(** ** Helper lemmas: the text forms *)

Lemma existsb_false {A} (f : A → bool) l :
  existsb f l = false ↔ ∀ x, In x l → f x = false.
Proof.
  induction l as [|y l IH]; cbn [existsb In]; [by split|]. rewrite orb_false_iff, IH. split.
  - intros [Hy Hl] x [->|Hx]; [done|by apply Hl].
  - intros Hl. split; [apply Hl; by left|]. intros x Hx. apply Hl. by right.
Qed.

Lemma score_decimal_ok s field n : decimal s field = Ok n → s = to_decimal n.
Proof.
  intros (u & Hc%bail_if_ok%negb_false_iff & Hn%ok_or_ok)%bind_ok. by apply canonical_decimal_unique.
Qed.
Lemma score_decimal_of n field : decimal (to_decimal n) field = Ok n.
Proof. unfold decimal. by rewrite to_decimal_canonical, biguint_from_to. Qed.
Lemma score_u64_ok s field n : decimal_u64 s field = Ok n → s = to_decimal n ∧ n ≤ u64_max.
Proof.
  intros (m & Hm%score_decimal_ok & Hn)%bind_ok. destruct (N.leb_spec m u64_max); [|done].
  by injection Hn as <-.
Qed.
Lemma score_u64_of n field : n ≤ u64_max → decimal_u64 (to_decimal n) field = Ok n.
Proof.
  intros Hn. unfold decimal_u64. rewrite score_decimal_of. cbn [mbind outcome_bind].
  by rewrite (proj2 (N.leb_le n u64_max) Hn).
Qed.

Lemma parse_account_persisted st st' : parse_account (persisted_account st) = Ok st' → st' = st.
Proof.
  unfold parse_account, persisted_account. cbn [pas_balance pas_last_block pas_completed_numerator
    pas_active_segment_from pas_active_integral].
  intros (b & Hb%score_decimal_ok & (l & [Hl _]%score_u64_ok & (c & Hc%score_decimal_ok &
    (a & Ha & (i & Hi%score_decimal_ok & <-%(inj Ok))%bind_ok)%bind_ok)%bind_ok)%bind_ok)%bind_ok.
  apply (inj to_decimal) in Hb, Hl, Hc, Hi. subst. destruct st as [sb sl sc sa si]. cbn in *. f_equal.
  destruct sa as [f|]; cbn in Ha.
  - apply bind_ok in Ha as (v & [Hv _]%score_u64_ok & <-%(inj Ok)). by apply (inj to_decimal) in Hv as ->.
  - by injection Ha as <-.
Qed.

Lemma persisted_rate_inj r r' : persisted_rate r = persisted_rate r' → r = r'.
Proof.
  destruct r as [f v], r' as [f' v']. unfold persisted_rate. cbn. intros [= Hf%(inj to_decimal) Hv%(inj to_decimal)].
  by subst.
Qed.

Lemma parse_rate_ok p r : parse_rate p = Ok r → p = persisted_rate r ∧ rp_from_block r ≤ u64_max.
Proof.
  destruct p as [f v].
  intros (n & [Hn Hle]%score_u64_ok & (m & Hm%score_decimal_ok & <-%(inj Ok))%bind_ok)%bind_ok.
  cbn in *. by subst.
Qed.

Lemma parsed_rates_ok ps rs : parse_rates ps = Ok rs →
  ps = persisted_rates rs ∧ ascending rs.
Proof.
  intros (parsed & Hm%mapM_ok & (? & Hv%map_err_ok & <-%(inj Ok))%bind_ok)%bind_ok.
  destruct x. apply validate_rates_ascending in Hv. split; [|done].
  clear Hv. unfold persisted_rates.
  induction Hm as [|p r ps rs Hp _ IH]; [done|]. apply parse_rate_ok in Hp as [-> _]. cbn. by f_equal.
Qed.

Lemma persisted_rates_inj rs rs' : persisted_rates rs = persisted_rates rs' → rs = rs'.
Proof.
  unfold persisted_rates. revert rs'. induction rs as [|r rs IH]; intros [|r' rs'] E; try done.
  cbn in E. injection E as Hf Hv E. f_equal; [|by apply IH].
  apply persisted_rate_inj. unfold persisted_rate. congruence.
Qed.

Lemma prefix_of_zip (old current : list RatePoint) :
  (length current <? length old)%nat ||
    existsb (fun '(o, c) => negb (bool_decide (o = c))) (zip old current) = false →
  ∃ new, current = old ++ new ∧ drop (length old) current = new.
Proof.
  revert current. induction old as [|o old IH]; intros current; [by exists current|].
  destruct current as [|c current]; [done|]. cbn [zip zip_with existsb length].
  intros [Hl [Hc%negb_false_iff%bool_decide_eq_true He]%orb_false_iff]%orb_false_iff. subst c.
  destruct (IH current) as (new & -> & Hd).
  { apply orb_false_iff. split; [|done]. apply Nat.ltb_ge. apply Nat.ltb_ge in Hl. lia. }
  exists new. split; [done|exact Hd].
Qed.

(* ------------------------------------------------------------------ *)
(** ** Helper lemmas: the first scoring block *)

(** The first point with a rate: no earlier point scores anything. *)
Definition first_rate (rates : list RatePoint) : option RatePoint :=
  List.find (fun point => negb (rp_rate point =? 0)) rates.

Lemma find_head_bound (p : RatePoint) rs t : ascending (p :: rs) → t ≤ rp_from_block p →
  List.find (fun point => negb (rp_rate point =? 0) && (rp_from_block point <? t)) rs = None.
Proof.
  intros [_ Hp]%StronglySorted_inv Ht. induction Hp as [|q rs Hq Hp IH]; [done|]. cbn [List.find].
  cbv [key_lt_on key_lt N_key_order] in Hq.
  by rewrite (proj2 (N.ltb_ge (rp_from_block q) t)), andb_false_r by lia.
Qed.

Lemma first_contributing_rate scored t start : ascending (st_rates scored) →
  first_contributing_block scored t = Some start →
  start < t ∧ rp_from_block <$> first_rate (st_rates scored) = Some start.
Proof.
  unfold first_contributing_block, first_rate. intros Hasc.
  induction (st_rates scored) as [|p rs IH]; [done|]. cbn [List.find].
  destruct (negb (rp_rate p =? 0)); cbn [andb].
  - destruct (N.ltb_spec (rp_from_block p) t) as [Hlt|Hge].
    + intros [= <-]. done.
    + rewrite (find_head_bound p) by done. done.
  - apply IH. by apply StronglySorted_inv in Hasc as [Hasc _].
Qed.

Lemma first_rate_late p rs h s d t : Forall (fun q => s ≤ rp_from_block q) rs → s ≤ rp_from_block p →
  spec_numerator h 0 d t (p :: rs) = spec_numerator h s d t (p :: rs).
Proof.
  intros Hrs Hp. cut (∀ l, Forall (fun q => s ≤ rp_from_block q) l →
    spec_numerator h 0 d t l = spec_numerator h s d t l); [intros Hl; apply Hl; by constructor|].
  clear. induction 1 as [|q l Hq _ IH]; cbn [spec_numerator]; [done|]. rewrite IH. f_equal.
  unfold seg_start. by rewrite N.max_0_l, N.max_r.
Qed.

(** Scoring may start at the first point with a rate. *)
Lemma spec_from_first_rate h d t rs p : ascending rs → first_rate rs = Some p →
  spec_numerator h 0 d t rs = spec_numerator h (rp_from_block p) d t rs.
Proof.
  unfold first_rate. induction rs as [|q rs IH]; [done|]. cbn [List.find]. intros Hasc.
  destruct (negb (rp_rate q =? 0)) eqn:E.
  - intros [= ->]. apply first_rate_late; [|done].
    apply StronglySorted_inv in Hasc as [_ Hp]. eapply Forall_impl; [exact Hp|].
    intros x Hx. cbv [key_lt_on key_lt N_key_order] in Hx. lia.
  - intros Hf. apply StronglySorted_inv in Hasc as [Hasc _]. cbn [spec_numerator].
    rewrite IH by done. apply negb_false_iff, N.eqb_eq in E. rewrite E. lia.
Qed.

(** Without one there is no score. *)
Lemma spec_no_rate h d t scored : first_contributing_block scored t = None →
  spec_numerator h 0 d t (st_rates scored) = 0.
Proof.
  unfold first_contributing_block.
  induction (st_rates scored) as [|p rs IH]; [done|]. cbn [List.find spec_numerator].
  destruct (N.eqb_spec (rp_rate p) 0) as [->|Hne]; cbn [negb andb].
  { intros Hn. rewrite IH by done. lia. }
  destruct (N.ltb_spec (rp_from_block p) t) as [Hlt|Hge]; [done|].
  intros Hn. rewrite IH by done. rewrite range_sum_empty, scaled_integral_0; [done|].
  unfold seg_start, seg_end. destruct (next_from rs); lia.
Qed.

Lemma first_rate_app rs new p : first_rate rs = Some p → first_rate (rs ++ new) = Some p.
Proof.
  unfold first_rate. induction rs as [|q rs IH]; [done|]. cbn [app List.find].
  destruct (negb _); [done|exact IH].
Qed.

(* ------------------------------------------------------------------ *)
(** ** Helper lemmas: the transfers of one account, net *)

(** What a transfer moves in and out of [u]; one to itself moves both ways. *)
Definition net_movement (u : Address) (tr : TokenTransfer) : list movement :=
  let inflow := if bool_decide (tt_to tr = u) then tt_value tr else 0 in
  let outflow := if bool_decide (tt_from tr = u) then tt_value tr else 0 in
  if negb (inflow =? 0) || negb (outflow =? 0) then [(tt_block_number tr, inflow, outflow)] else [].
Definition net_movements (u : Address) (transfers : list TokenTransfer) : list movement :=
  flat_map (net_movement u) transfers.

Lemma net_movement_block u tr m : m ∈ net_movement u tr → mv_block m = tt_block_number tr.
Proof.
  unfold net_movement. destruct (negb _ || _); intros Hm; [|by apply elem_of_nil in Hm].
  by apply list_elem_of_singleton in Hm as ->.
Qed.

Lemma replay_one_ok u scored c t prev st tr prev' st' :
  replay_one u scored c t (prev, st) tr = Ok (prev', st') →
  c < tt_block_number tr ∧ tt_block_number tr ≤ t ∧
  (∀ p, prev = Some p → p.1 ≤ tt_block_number tr) ∧
  prev' = Some (tt_block_number tr, tt_log_index tr) ∧
  replay_movements (st_rates scored) (st_decimals scored) (net_movement u tr) st = (Ok tt, st').
Proof.
  unfold replay_one, net_movement.
  intros (? & [[Hc%N.leb_gt Ht%N.ltb_ge]%orb_false_iff Hp]%bail_if_ok%orb_false_iff & Hs)%bind_ok.
  split; [done|]. split; [done|].
  assert (∀ p, prev = Some p → p.1 ≤ tt_block_number tr) as Hprev.
  { intros [pb pi] ->. apply negb_false_iff, bool_decide_eq_true in Hp.
    destruct Hp as [Hp|[Hp _]]; cbn in Hp |- *; [by apply N.lt_le_incl|by rewrite Hp]. }
  destruct (negb _ || _).
  - destruct (apply_transfer _ _ _ _ _ st) as [r st1] eqn:E.
    apply bind_ok in Hs as ([] & ->%map_err_ok & [= <- <-]). split; [done|]. split; [done|].
    unfold replay_movements. cbn [fold_m]. by rewrite (io_bind_eval _ _ _ _ _ E).
  - injection Hs as <- <-. done.
Qed.

Lemma replay_all_ok u scored c t trs : ∀ prev st prev' st',
  fold_m (replay_one u scored c t) (prev, st) trs = Ok (prev', st') →
  replay_movements (st_rates scored) (st_decimals scored) (net_movements u trs) st = (Ok tt, st') ∧
  (∀ m, m ∈ net_movements u trs → c < mv_block m ∧ mv_block m ≤ t) ∧
  ∀ low, low ≤ c → (∀ p, prev = Some p → low ≤ p.1) → in_order (default low (fst <$> prev)) (net_movements u trs).
Proof.
  induction trs as [|tr trs IH]; intros prev st prev' st'; cbn [fold_m net_movements flat_map].
  { intros [= _ <-]. split; [done|]. split; [|done]. intros m Hm. by apply elem_of_nil in Hm. }
  intros ([prev1 st1] & (Hc & Ht & Hp & -> & Hone)%replay_one_ok & Hf)%bind_ok.
  fold (net_movements u trs). apply IH in Hf as (Hrun & Hall & Hord). split; [|split].
  - by rewrite (replay_movements_app _ _ _ _ _ _ Hone).
  - intros m [Hm|Hm]%elem_of_app; [|by apply Hall]. by rewrite (net_movement_block u tr m Hm).
  - intros low Hlow Hprev.
    assert (default low (fst <$> prev) ≤ tt_block_number tr) as Hle.
    { destruct prev as [p|]; cbn; [by apply Hp|lia]. }
    specialize (Hord low Hlow ltac:(intros ? [= <-]; cbn; lia)). cbn in Hord.
    unfold net_movement. destruct (negb _ || _); cbn [app in_order]; [by split|].
    by eapply in_order_weaken; [exact Hle|].
Qed.

(* ------------------------------------------------------------------ *)
(** ** Faithful checkpoints *)

Section Faithful.
Context `{HexLaws}.
(** [h token b] is the account's balance of [token] after block [b]. *)
Context (h : Address → N → N).

(** The text of the represented state at the cursor, for the token [token]
    scored with [decimals] and, up to the cursor, with [rates]. *)
Definition faithful_at (token : Address) (decimals : N) (rates : list RatePoint) (cursor : N)
    (checkpoint : TokenCheckpoint) : Prop :=
  ascending rates ∧ cursor ≤ u64_max ∧
  ∃ p, first_rate rates = Some p ∧ rp_from_block p ≤ cursor ∧
    tc_token checkpoint = address_to_string token ∧ tc_decimals checkpoint = decimals ∧
    tc_cursor_block checkpoint = to_decimal cursor ∧ tc_rates checkpoint = persisted_rates rates ∧
    tc_account checkpoint = persisted_account
      (represented (h token) (rp_from_block p) decimals rates (h token cursor) cursor).
Definition faithful (checkpoint : TokenCheckpoint) : Prop :=
  ∃ token decimals rates cursor, faithful_at token decimals rates cursor checkpoint.

Lemma validate_cursor checkpoint scored cursor state :
  validate_checkpoint checkpoint scored = Ok (cursor, state) →
  checkpoint_cursor checkpoint = Ok cursor ∧ tc_token checkpoint = address_to_string (st_token scored) ∧
  tc_decimals checkpoint = st_decimals scored.
Proof.
  intros (? & E1%bail_if_ok%negb_false_iff%String.eqb_eq & Hv)%bind_ok.
  apply bind_ok in Hv as (? & E2%bail_if_ok%negb_false_iff%N.eqb_eq & Hv).
  apply bind_ok in Hv as (? & _ & Hv). apply bind_ok in Hv as (c & Hc & Hv).
  do 4 apply bind_ok in Hv as (? & _ & Hv). by apply bind_ok in Hv as (? & _ & [= <- _]).
Qed.

(** A faithful checkpoint that validates against the current configuration holds
    the represented state for the current rates too. *)
Lemma validate_faithful checkpoint scored cursor state :
  ascending (st_rates scored) → faithful checkpoint →
  validate_checkpoint checkpoint scored = Ok (cursor, state) →
  tc_account checkpoint = persisted_account state ∧ cursor ≤ u64_max ∧
  ∃ p, first_rate (st_rates scored) = Some p ∧ rp_from_block p ≤ cursor ∧
    state = represented (h (st_token scored)) (rp_from_block p) (st_decimals scored) (st_rates scored)
      (h (st_token scored) cursor) cursor.
Proof.
  intros Hasc (token & dec & rates & cur & Hr & Hu & p & Hp & Hpc & Et & Ed & Ec & Er & Ea) Hv.
  pose proof (validate_cursor _ _ _ _ Hv) as ([Hc _]%score_u64_ok & Ht & Hd).
  rewrite Et in Ht. apply address_to_string_inj in Ht as ->. rewrite Ed in Hd. subst dec.
  rewrite Ec in Hc. apply (inj to_decimal) in Hc as ->.
  unfold validate_checkpoint in Hv. rewrite Ec, Er, Ea in Hv.
  do 3 apply bind_ok in Hv as (? & _ & Hv).
  apply bind_ok in Hv as (c & [<-%(inj to_decimal) _]%score_u64_ok & Hv).
  apply bind_ok in Hv as (rs & [<-%persisted_rates_inj _]%parsed_rates_ok & Hv).
  apply bind_ok in Hv as (? & (new & Hnew & Hdrop)%bail_if_ok%prefix_of_zip & Hv).
  apply bind_ok in Hv as (? & Hlate%bail_if_ok & Hv). rewrite Hdrop in Hlate.
  apply bind_ok in Hv as (st & ->%parse_account_persisted & Hv).
  apply bind_ok in Hv as (? & _ & [= <-]).
  assert (Forall (fun q => cursor < rp_from_block q) new) as Hafter.
  { apply Forall_forall. intros q Hq%list_elem_of_In. apply N.leb_gt.
    by apply (proj1 (existsb_false _ _) Hlate). }
  split; [done|]. split; [done|]. exists p.
  split; [rewrite Hnew; by apply first_rate_app|]. split; [done|].
  rewrite <-Hd, Hnew. symmetry. by apply (represented_extend _ _ _ cursor); [rewrite <-Hnew| |].
Qed.

Lemma faithful_at_faithful token decimals rates cursor checkpoint :
  faithful_at token decimals rates cursor checkpoint → faithful checkpoint.
Proof. by exists token, decimals, rates, cursor. Qed.

(** The numerator of a faithful checkpoint at its cursor is the specified one. *)
Lemma token_numerator_faithful checkpoint scored target v :
  ascending (st_rates scored) → faithful checkpoint →
  (∀ cursor, checkpoint_cursor checkpoint = Ok cursor → target ≤ cursor) →
  token_numerator checkpoint scored target = Ok v →
  v = spec_numerator (h (st_token scored)) 0 (st_decimals scored) target (st_rates scored).
Proof.
  intros Hasc Hf Hcur Hv. unfold token_numerator in Hv.
  apply bind_ok in Hv as ([c st] & Hval & Hv). apply bind_ok in Hv as (? & Hle%bail_if_ok%N.ltb_ge & Hv).
  apply map_err_ok in Hv.
  pose proof (validate_cursor _ _ _ _ Hval) as (Hc & Et & Ed).
  assert (c = target) as -> by (specialize (Hcur c Hc); lia).
  apply validate_faithful in Hval as (_ & _ & p & Hp & Hpc & ->); [|done|done].
  rewrite projected_represented in Hv; [|done|done|done|intros; lia]. injection Hv as <-.
  by rewrite (spec_from_first_rate _ _ _ _ p).
Qed.

(** Replaying the true transfers up to the target. *)
Lemma advance_faithful checkpoint scored account transfers target hash checkpoint' :
  target ≤ u64_max → faithful checkpoint →
  (∀ cursor, checkpoint_cursor checkpoint = Ok cursor →
     ∀ k, cursor ≤ k → k ≤ target →
       history (h (st_token scored) cursor) (net_movements account transfers) k = h (st_token scored) k) →
  advance_token_checkpoint checkpoint scored account transfers target hash = Ok checkpoint' →
  faithful_at (st_token scored) (st_decimals scored) (st_rates scored) target checkpoint'.
Proof.
  intros Hmax Hf Htrue Hadv. unfold advance_token_checkpoint in Hadv.
  apply bind_ok in Hadv as (? & _ & Hadv).
  apply bind_ok in Hadv as ([] & Hasc%map_err_ok%validate_rates_ascending & Hadv).
  apply bind_ok in Hadv as ([c st] & Hval & Hadv).
  apply bind_ok in Hadv as (? & Hct%bail_if_ok%N.ltb_ge & Hadv).
  apply bind_ok in Hadv as ([prev st1] & (Hrun & Hms & Hord)%replay_all_ok & Hadv).
  specialize (Hord c ltac:(done) ltac:(done)). cbn in Hord.
  destruct (advance_account _ _ _ st1) as [r st2] eqn:E.
  apply bind_ok in Hadv as ([] & ->%map_err_ok & <-%(inj Ok)).
  pose proof (validate_cursor _ _ _ _ Hval) as (Hc & Et & Ed).
  apply validate_faithful in Hval as (_ & _ & p & Hp & Hpc & ->); [|done|done].
  specialize (Htrue c Hc). set (ht := h (st_token scored)) in *. set (ms := net_movements account transfers) in *.
  pose proof (replay_represented_upto ht (rp_from_block p) (st_decimals scored) (st_rates scored) Hasc target ms
    (ht c) c Hpc Hord ltac:(intros m Hm; by apply Hms)) as Hrep.
  specialize (Hrep ltac:(intros k Hk1 Hk2; symmetry; apply Htrue; lia)).
  destruct (run_balance (ht c) ms) as [bal'|] eqn:Eb.
  2:{ destruct Hrep as (m & st' & _ & Hrep). rewrite Hrun in Hrep. done. }
  destruct Hrep as (t' & Htt & Hall & Hlast & Hrep). rewrite Hrun in Hrep. injection Hrep as ->.
  assert (t' ≤ target) as Ht'.
  { destruct Hlast as [->|(m & Hm & <-)]; [done|by apply Hms]. }
  assert (∀ k, t' ≤ k → k ≤ target → ht k = bal') as Hbal.
  { intros k Hk1 Hk2. rewrite <-(Htrue k) by lia. by apply (history_after _ _ _ t'). }
  rewrite (advance_represented _ _ _ _ Hasc bal' t' target) in E;
    [|lia|done|intros; apply Hbal; lia]. injection E as <-.
  split; [done|]. split; [done|]. exists p. split; [done|]. split; [lia|]. cbn. fold ht. rewrite (Hbal target) by lia. by rewrite Ed.
Qed.

(** A new checkpoint at the first scoring block. *)
Lemma new_checkpoint_faithful scored start hash :
  ascending (st_rates scored) → start ≤ u64_max →
  rp_from_block <$> first_rate (st_rates scored) = Some start →
  faithful_at (st_token scored) (st_decimals scored) (st_rates scored) start
    (new_token_checkpoint scored start (h (st_token scored) start) hash).
Proof.
  intros Hasc Hs Hf. destruct (first_rate (st_rates scored)) as [p|] eqn:Ep; [|done].
  injection Hf as <-. split; [done|]. split; [done|]. exists p. split; [done|]. split; [done|]. unfold new_token_checkpoint. cbn.
  by rewrite initial_represented.
Qed.
End Faithful.

(* ------------------------------------------------------------------ *)
(** ** Helper lemmas: a checkpoint the service wrote, read again *)

Section Written.
Context `{HexLaws}.

(** The checkpoint of the represented state at [cursor]. *)
Definition written (token : Address) (decimals : N) (rates : list RatePoint) (h : N → N)
    (start bal cursor : N) (hash : string) : TokenCheckpoint :=
  mkTokenCheckpoint (address_to_string token) decimals (to_decimal cursor) (to_ascii_lowercase hash)
    (persisted_rates rates) (persisted_account (represented h start decimals rates bal cursor)).

Definition rates_bounded (rates : list RatePoint) : Prop :=
  Forall (fun p => rp_from_block p ≤ u64_max) rates.

Lemma parse_persisted_rates rates : ascending rates → rates_bounded rates →
  parse_rates (persisted_rates rates) = Ok rates.
Proof.
  intros Hasc Hb. unfold parse_rates, persisted_rates.
  assert (mapM parse_rate (map persisted_rate rates) = Ok rates) as ->.
  { clear Hasc. induction Hb as [|p rates Hp _ IH]; [done|]. cbn [map mapM].
    assert (parse_rate (persisted_rate p) = Ok p) as ->.
    { unfold parse_rate, persisted_rate. cbn [prp_from_block prp_rate].
      rewrite score_u64_of by done. cbn [mbind outcome_bind]. rewrite score_decimal_of. by destruct p. }
    cbn [mbind outcome_bind]. by rewrite IH. }
  cbn [mbind outcome_bind]. by rewrite (proj2 (validate_rates_ascending rates)).
Qed.

Lemma parse_persisted_account st : last_block st ≤ u64_max →
  (∀ f, active_segment_from st = Some f → f ≤ u64_max) → parse_account (persisted_account st) = Ok st.
Proof.
  intros Hl Hf. destruct st as [b l c a i]. unfold parse_account, persisted_account.
  cbn [balance last_block completed_numerator active_segment_from active_integral pas_balance pas_last_block
    pas_completed_numerator pas_active_segment_from pas_active_integral] in *.
  rewrite !score_decimal_of, score_u64_of by done. cbn [mbind outcome_bind].
  destruct a as [f|]; cbn [fmap option_fmap option_map mbind outcome_bind]; [|done].
  by rewrite score_u64_of by by apply Hf.
Qed.

Lemma open_segment_elem start t rates p : open_segment start t rates = Some p → p ∈ rates.
Proof.
  induction rates as [|q rates IH]; cbn [open_segment]; [done|].
  destruct (_ && _); [intros [= ->]; left|intros Hp; right; auto].
Qed.

Lemma prefix_check (old current : list RatePoint) :
  (length current <? length old)%nat ||
    existsb (fun '(o, c) => negb (bool_decide (o = c))) (zip old current)
  = negb (bool_decide (old `prefix_of` current)).
Proof.
  destruct ((length current <? length old)%nat || _) eqn:E; symmetry.
  - apply negb_true_iff, bool_decide_eq_false. intros [new ->]. apply not_false_iff_true in E. apply E. clear E.
    apply orb_false_iff. split; [apply Nat.ltb_ge; rewrite length_app; lia|].
    induction old as [|o old IH]; [done|]. cbn [app zip zip_with existsb]. apply orb_false_iff.
    split; [by rewrite bool_decide_true|exact IH].
  - apply negb_false_iff, bool_decide_eq_true. apply prefix_of_zip in E as (new & -> & _). by exists new.
Qed.

Lemma validate_written token decimals rates h start bal cursor hash scored :
  ascending rates → rates_bounded rates → cursor ≤ u64_max → valid_hash hash = true →
  validate_checkpoint (written token decimals rates h start bal cursor hash) scored =
    if negb (bool_decide (token = st_token scored)) then Err TokenMismatch
    else if negb (decimals =? st_decimals scored) then Err DecimalsMismatch
    else if negb (bool_decide (rates `prefix_of` st_rates scored)) then Err RateHistoryMismatch
    else if existsb (fun rate => rp_from_block rate <=? cursor)
              (drop (length rates) (st_rates scored)) then Err RetroactiveRate
    else Ok (cursor, represented h start decimals rates bal cursor).
Proof.
  intros Hasc Hb Hc Hh. unfold validate_checkpoint, written. cbn [tc_token tc_decimals
    tc_cursor_block_hash tc_cursor_block tc_rates tc_account].
  assert (String.eqb (address_to_string token) (address_to_string (st_token scored))
    = bool_decide (token = st_token scored)) as ->.
  { case_bool_decide as E; [subst; apply String.eqb_refl|]. apply String.eqb_neq.
    by intros ?%address_to_string_inj. }
  case_bool_decide as E; cbn [negb bail_if mbind outcome_bind]; [|done]. subst token.
  destruct (decimals =? st_decimals scored); cbn [negb bail_if mbind outcome_bind]; [|done].
  destruct (valid_hash_lowercase hash Hh) as [Hvh _]. unfold valid_hash in Hvh |- *.
  unfold Checkpoint.valid_hash in Hvh. rewrite Hvh. cbn [negb bail_if mbind outcome_bind].
  rewrite score_u64_of by done. cbn [mbind outcome_bind]. rewrite parse_persisted_rates by done.
  cbn [mbind outcome_bind]. rewrite prefix_check.
  case_bool_decide; cbn [negb bail_if mbind outcome_bind]; [|done].
  destruct (existsb _ _); cbn [bail_if mbind outcome_bind]; [done|].
  rewrite parse_persisted_account; [|done|].
  - cbn [mbind outcome_bind last_block represented]. by rewrite N.eqb_refl.
  - cbn. intros f Hf. destruct (open_segment start cursor rates) as [p|] eqn:Ep; [|done].
    injection Hf as <-. apply open_segment_elem in Ep. unfold rates_bounded in Hb.
    rewrite Forall_forall in Hb. by apply Hb.
Qed.

(** Transfers in a range, in strictly increasing positions. *)
Definition stream (from to : N) (transfers : list TokenTransfer) : Prop :=
  StronglySorted (key_lt_on (fun t => (tt_block_number t, tt_log_index t))) transfers ∧
  Forall (fun t => from < tt_block_number t ∧ tt_block_number t ≤ to) transfers.

Lemma replay_all_run account scored c t trs : ∀ prev st st',
  stream c t trs →
  (∀ p tr, prev = Some p → tr ∈ trs → key_lt p (tt_block_number tr, tt_log_index tr)) →
  replay_movements (st_rates scored) (st_decimals scored) (net_movements account trs) st = (Ok tt, st') →
  ∃ prev', fold_m (replay_one account scored c t) (prev, st) trs = Ok (prev', st').
Proof.
  induction trs as [|tr trs IH]; intros prev st st' [Hs Hr] Hp Hrun.
  { injection Hrun as ->. by exists prev. }
  apply StronglySorted_inv in Hs as [Hs Hlt]. apply Forall_cons in Hr as [[Hc Ht] Hr].
  assert (replay_one account scored c t (prev, st) tr
    = let '(r, st1) := replay_movements (st_rates scored) (st_decimals scored) (net_movement account tr) st in
      _ ← map_err Core r; Ok (Some (tt_block_number tr, tt_log_index tr), st1)) as Hone.
  { unfold replay_one, net_movement. rewrite (proj2 (N.leb_gt _ _) Hc), (proj2 (N.ltb_ge _ _) Ht).
    assert (match prev with Some p => negb (bool_decide (key_lt p (tt_block_number tr, tt_log_index tr)))
      | None => false end = false) as ->.
    { destruct prev as [p|]; [|done]. rewrite bool_decide_true; [done|]. apply (Hp p tr); [done|left]. }
    cbn [orb bail_if mbind outcome_bind]. destruct (negb _ || _); [|done].
    unfold replay_movements. cbn [fold_m]. unfold mbind at 2, io_bind at 1.
    by destruct (apply_transfer _ _ _ _ _ st) as [[[]|e|s] st1]. }
  cbn [net_movements flat_map] in Hrun. fold (net_movements account trs) in Hrun.
  destruct (replay_movements (st_rates scored) (st_decimals scored) (net_movement account tr) st)
    as [r st1] eqn:E.
  destruct r as [[]|e|s].
  2,3: exfalso; unfold replay_movements in Hrun, E; revert Hrun; unfold net_movement in E |- *;
    destruct (negb _ || _); [|discriminate E]; cbn [app fold_m] in E |- *;
    unfold mbind, io_bind in E |- *; destruct (apply_transfer _ _ _ _ _ st) as [[[]|?|?] ?];
    [discriminate E|discriminate|discriminate].
  rewrite (replay_movements_app _ _ _ _ _ _ E) in Hrun.
  destruct (IH (Some (tt_block_number tr, tt_log_index tr)) st1 st') as [prev' Hf]; [by split| |done|].
  { intros p tr' [= <-] Hin. rewrite Forall_forall in Hlt. by apply Hlt. }
  exists prev'. cbn [fold_m]. rewrite Hone. cbn [map_err mbind outcome_bind]. exact Hf.
Qed.
End Written.

(* ------------------------------------------------------------------ *)
(** ** Helper lemmas: replays against a truthful provider *)

Definition exact_score (h : Address → N → N) (tokens : list ScoredToken) (target : N) : N :=
  sum_N (map (fun t => spec_numerator (h (st_token t)) 0 (st_decimals t) target (st_rates t)) tokens).

Lemma faithful_cursor `{HexLaws} h token decimals rates cursor checkpoint :
  faithful_at h token decimals rates cursor checkpoint → checkpoint_cursor checkpoint = Ok cursor.
Proof.
  intros (_ & Hu & p & _ & _ & _ & _ & Ec & _). unfold checkpoint_cursor. rewrite Ec. by apply score_u64_of.
Qed.

Lemma token_numerator_ascending `{HexCrate} checkpoint scored target v :
  token_numerator checkpoint scored target = Ok v → ascending (st_rates scored).
Proof.
  intros ([c st] & _ & (? & _ & Hv%map_err_ok)%bind_ok)%bind_ok. unfold projected_numerator in Hv.
  destruct (advance_account target (st_rates scored) (st_decimals scored) st) as [r st'] eqn:E.
  apply bind_ok in Hv as ([] & -> & _). apply validate_rates_ascending.
  by apply io_bind_ok in E as ([] & ? & [Hv _]%lift_ok & _).
Qed.

Section Replays.
Context `{HexLaws, AbiCodec} {W : Type} `{!RpcIface W}.
Context (account : Address) (h : Address → N → N) (as_of : N).
Hypothesis Hmax : as_of ≤ u64_max.

(** The provider tells the truth about a token, up to [as_of]: [balanceOf] reads
    the account's balance and the transfer logs of every range move it. *)
Definition truthful (token : Address) : Prop :=
  (∀ b w v w', b ≤ as_of → balance_of_at (W := W) token account b w = (Ok v, w') → v = h token b) ∧
  (∀ from to w trs m w', 1 ≤ from → from ≤ to → to ≤ as_of →
     erc20_transfers_for_accounts (W := W) token {[account]} from to SCORE_MAX_INITIAL_LOG_RANGE
       LOG_RESULT_CAP w = (Ok (trs, m), w') →
     ∀ k, from - 1 ≤ k → k ≤ to → history (h token (from - 1)) (net_movements account trs) k = h token k).

(** A checkpoint of this token, faithful, at the block [target]. *)
Definition reached (target : N) (scored : ScoredToken) (checkpoint : TokenCheckpoint) : Prop :=
  faithful h checkpoint ∧ checkpoint_cursor checkpoint = Ok target ∧
  tc_token checkpoint = address_to_string (st_token scored).

Lemma find_checkpoint_ok checkpoints scored c : find_checkpoint checkpoints scored = Some c →
  c ∈ checkpoints ∧ tc_token c = address_to_string (st_token scored).
Proof. by intros [Hin%list_elem_of_In ?%String.eqb_eq]%find_some. Qed.

Lemma starting_checkpoint_ok previous scored start target w c w' :
  ascending (st_rates scored) → first_contributing_block scored target = Some start → target ≤ as_of →
  truthful (st_token scored) → Forall (faithful h) previous →
  starting_checkpoint account previous scored start w = (Ok c, w') →
  faithful h c ∧ tc_token c = address_to_string (st_token scored).
Proof.
  intros Hasc Hfirst Ht Htrue Hprev. unfold starting_checkpoint.
  destruct (find_checkpoint previous scored) as [stored|] eqn:E.
  - intros (cur & w1 & _ & (blk & w2 & _ & (? & w3 & _ & [<- _]%io_ret_ok)%io_bind_ok)%io_bind_ok)%io_bind_ok.
    apply find_checkpoint_ok in E as [Hin Htok]. rewrite Forall_forall in Hprev. auto.
  - intros (bal & w1 & Hb%map_err_io_ok & (blk & w2 & _ & [<- _]%io_ret_ok)%io_bind_ok)%io_bind_ok.
    apply first_contributing_rate in Hfirst as [Hlt Hrate]; [|done].
    apply Htrue in Hb as ->; [|lia]. split; [|done].
    eapply faithful_at_faithful, new_checkpoint_faithful; [done|lia|done].
Qed.

Lemma token_to_block_ok previous target hash scored w r w' :
  target ≤ as_of → truthful (st_token scored) → Forall (faithful h) previous →
  token_to_block account previous target hash scored w = (Ok r, w') →
  tr_numerator r = spec_numerator (h (st_token scored)) 0 (st_decimals scored) target (st_rates scored) ∧
  match tr_checkpoint r with
  | Some c => reached target scored c
  | None => first_contributing_block scored target = None
  end.
Proof.
  intros Ht Htrue Hprev. unfold token_to_block.
  destruct (first_contributing_block scored target) as [start|] eqn:Efirst.
  2:{ intros [<- _]%io_ret_ok. cbn. by rewrite spec_no_rate. }
  intros (c0 & w1 & Hstart & (cur & w2 & [Hcur _]%lift_ok & (((c1 & m) & adv) & w3 & Hadv & Hs)%io_bind_ok)
    %io_bind_ok)%io_bind_ok.
  apply io_bind_ok in Hs as (actual & w4 & _ & Hs). apply io_bind_ok in Hs as (replayed & w5 & _ & Hs).
  apply io_bind_ok in Hs as (? & w6 & _ & Hs).
  apply io_bind_ok in Hs as (v & w7 & [Hv _]%lift_ok & [<- _]%io_ret_ok). cbn [tr_numerator tr_checkpoint].
  pose proof (token_numerator_ascending _ _ _ _ Hv) as Hasc.
  eapply starting_checkpoint_ok in Hstart as [Hf0 Htok0]; [|done..].
  assert (reached target scored c1) as Hreached.
  { destruct (N.ltb_spec cur target) as [Hlt|Hge].
    - apply io_bind_ok in Hadv as ([trs tm] & w8 & Htrs%map_err_io_ok & Hadv).
      apply io_bind_ok in Hadv as (c2 & w9 & [Hadv _]%lift_ok & [[= <- _ _] _]%io_ret_ok).
      rewrite u64_add_small in Htrs by (unfold u64_max, u64_modulus in *; lia).
      pose proof Hadv as Hat. eapply advance_faithful in Hat; [|lia|exact Hf0|].
      + split; [by eapply faithful_at_faithful|]. split; [by eapply faithful_cursor|].
        by destruct Hat as (_ & _ & p & _ & _ & -> & _).
      + intros c Hc. rewrite Hcur in Hc. injection Hc as <-. intros k Hk1 Hk2.
        destruct Htrue as [_ Htr]. specialize (Htr (cur + 1) target _ _ _ _ ltac:(lia) ltac:(lia) ltac:(lia) Htrs k).
        replace (cur + 1 - 1) with cur in Htr by lia. by apply Htr.
    - destruct (N.ltb_spec target cur) as [Hgt|Hle]; [by apply lift_ok in Hadv as [? _]|].
      apply io_ret_ok in Hadv as [[= <- _ _] _]. split; [done|]. split; [|done]. rewrite Hcur. f_equal. lia. }
  split; [|exact Hreached]. destruct Hreached as (Hf & Hc & _).
  eapply token_numerator_faithful; [done|exact Hf| |exact Hv]. intros c Hc'. rewrite Hc in Hc'.
  by injection Hc' as <-.
Qed.

(** What the loop over the tokens has accumulated. *)
Definition accumulated (target : N) (pre : list ScoredToken) (out : BlockScore) : Prop :=
  bs_numerator out = exact_score h pre target ∧
  Forall (fun c => faithful h c ∧ checkpoint_cursor c = Ok target) (bs_next_tokens out) ∧
  Forall (fun scored => first_contributing_block scored target = None ∨
    ∃ c, c ∈ bs_next_tokens out ∧ tc_token c = address_to_string (st_token scored)) pre.

Lemma exact_score_app tokens tokens' target :
  exact_score h (tokens ++ tokens') target = exact_score h tokens target + exact_score h tokens' target.
Proof. unfold exact_score. by rewrite map_app, sum_N_app. Qed.

Lemma add_replay_ok target pre out scored r :
  accumulated target pre out →
  tr_numerator r = spec_numerator (h (st_token scored)) 0 (st_decimals scored) target (st_rates scored) ∧
  match tr_checkpoint r with
  | Some c => reached target scored c
  | None => first_contributing_block scored target = None
  end →
  accumulated target (pre ++ [scored]) (add_replay out r).
Proof.
  intros (Hn & Hf & Hc) [Hv Hr]. unfold accumulated, add_replay. cbn. split; [|split].
  - rewrite Hn, exact_score_app, Hv. unfold exact_score at 3. cbn. lia.
  - apply Forall_app. split; [done|]. destruct (tr_checkpoint r) as [c|]; [|constructor].
    destruct Hr as (? & ? & _). by constructor.
  - apply Forall_app. split.
    + eapply Forall_impl; [exact Hc|]. cbv beta. intros s [?|(c & Hin & ?)]; [by left|right].
      exists c. split; [|done]. apply elem_of_app. by left.
    + constructor; [|constructor]. destruct (tr_checkpoint r) as [c|]; [right|by left].
      destruct Hr as (_ & _ & ?). exists c. split; [|done]. apply elem_of_app. right. left.
Qed.

Lemma chunk_ok previous target hash chunk : ∀ pre out w rs w',
  target ≤ as_of → (∀ scored, scored ∈ chunk → truthful (st_token scored)) →
  Forall (faithful h) previous → accumulated target pre out →
  mapM (M := io W IncrementalScoreError) (token_to_block account previous target hash) chunk w = (Ok rs, w') →
  accumulated target (pre ++ chunk) (foldl add_replay out rs).
Proof.
  induction chunk as [|scored chunk IH]; intros pre out w rs w' Ht Htrue Hprev Hacc; cbn [mapM].
  { intros [<- _]%io_ret_ok. by rewrite app_nil_r. }
  intros (r & w1 & Hr & (rs' & w2 & Hrs & [<- _]%io_ret_ok)%io_bind_ok)%io_bind_ok. cbn [foldl].
  change (scored :: chunk) with ([scored] ++ chunk). rewrite app_assoc.
  eapply IH; [done|intros; apply Htrue; by right|done| |exact Hrs].
  apply add_replay_ok; [done|]. eapply token_to_block_ok; [done| |done|exact Hr]. apply Htrue. left.
Qed.

Lemma score_to_block_ok tokens previous target hash w out w' :
  target ≤ as_of → (∀ scored, scored ∈ tokens → truthful (st_token scored)) →
  Forall (faithful h) previous →
  score_to_block tokens account previous target hash w = (Ok out, w') → accumulated target tokens out.
Proof.
  intros Ht Htrue Hprev Hs. destruct (chunks_join MAX_PARALLEL_TOKEN_REPLAYS tokens) as [Hj _];
    [unfold MAX_PARALLEL_TOKEN_REPLAYS; lia|].
  rewrite <-Hj.
  refine (fold_m_io_inv_in _ (fun pre out => accumulated target (mjoin pre) out) _ _ _ _ _ _ _ Hs).
  - intros pre chunk st w1 st' w2 Hin Hacc (rs & w3 & Hrs & [<- _]%io_ret_ok)%io_bind_ok.
    rewrite join_app. cbn [mjoin list_join]. rewrite app_nil_r.
    eapply chunk_ok; [done| |done|done|exact Hrs]. intros scored Hsc. apply Htrue. rewrite <-Hj.
    apply list_elem_of_join. by exists chunk.
  - done.
Qed.

(** The numerators recomputed from the checkpoints reached are the specified ones. *)
Lemma token_numerators_ok target tokens : ∀ all out vs,
  accumulated target all out → (∀ s, s ∈ tokens → s ∈ all) →
  token_numerators (bs_next_tokens out) tokens target = Ok vs →
  vs = map (fun t => spec_numerator (h (st_token t)) 0 (st_decimals t) target (st_rates t)) tokens.
Proof.
  induction tokens as [|scored tokens IH]; intros all out vs Hacc Hin Hm.
  { unfold token_numerators in Hm. by injection Hm as <-. }
  unfold token_numerators in Hm. cbn [mapM] in Hm.
  apply bind_ok in Hm as (v & Hv & (vs' & Hvs & <-%(inj Ok))%bind_ok). cbn [map]. f_equal.
  2:{ eapply IH; [exact Hacc| |exact Hvs]. intros; apply Hin. by right. }
  destruct Hacc as (_ & Hf & Hc). rewrite Forall_forall in Hf. rewrite Forall_forall in Hc.
  destruct (find_checkpoint (bs_next_tokens out) scored) as [c|] eqn:E.
  - apply find_checkpoint_ok in E as [Hcin _]. destruct (Hf c Hcin) as [Hfc Hcur].
    eapply token_numerator_faithful; [by eapply token_numerator_ascending|exact Hfc| |exact Hv].
    intros c' Hc'. rewrite Hcur in Hc'. by injection Hc' as <-.
  - injection Hv as <-. destruct (Hc scored) as [Hn|(c & Hcin & Htok)]; [apply Hin; left|by rewrite spec_no_rate|].
    apply list_elem_of_In in Hcin. pose proof (find_none _ _ E c Hcin) as Hne.
    by apply String.eqb_neq in Hne.
Qed.
End Replays.

(* ------------------------------------------------------------------ *)
(** ** Helper lemmas: shares of the total *)

Lemma gross_scores_le ns : sum_N (map gross_score ns) ≤ gross_score (sum_N ns).
Proof. unfold gross_score. rewrite <-(map_id ns) at 2. apply sum_N_div_le. Qed.

(** Flooring the parts loses less than one per part. *)
Lemma gross_scores_loss ns : ns ≠ [] →
  gross_score (sum_N ns) < sum_N (map gross_score ns) + N.of_nat (length ns).
Proof.
  unfold gross_score, SCORE_SCALE. set (c := 1000000000000000000).
  assert (c ≠ 0) as Hc by done. clearbody c. intros Hne.
  apply N.Div0.div_lt_upper_bound. rewrite N.mul_add_distr_l.
  induction ns as [|n ns IH]; [done|]. cbn [map sum_N foldr length]. fold (sum_N ns).
  fold (sum_N (map (fun x => x / c) ns)).
  pose proof (N.div_mod n c Hc). pose proof (N.mod_lt n c Hc).
  destruct ns as [|n' ns]; [cbn; lia|]. specialize (IH ltac:(done)). lia.
Qed.

Lemma add_to_last_sum v ns : ns ≠ [] → sum_N (add_to_last v ns) = sum_N ns + v.
Proof.
  induction ns as [|n ns IH]; [done|]. intros _. destruct ns as [|n' ns]; [cbn; lia|].
  change (add_to_last v (n :: n' :: ns)) with (n :: add_to_last v (n' :: ns)).
  cbn [sum_N foldr]. fold (sum_N (add_to_last v (n' :: ns))). rewrite IH by done. cbn. lia.
Qed.

Lemma add_to_last_lookup v ns i n : ns !! i = Some n →
  add_to_last v ns !! i = Some (if decide (S i = length ns) then n + v else n).
Proof.
  revert i. induction ns as [|m ns IH]; intros [|i] Hi; [done|done| |]; destruct ns as [|m' ns].
  - by injection Hi as ->.
  - by injection Hi as ->.
  - done.
  - change (add_to_last v (m :: m' :: ns) !! S i) with (add_to_last v (m' :: ns) !! i).
    rewrite (IH i Hi). cbn [length]. repeat case_decide; (done || lia).
Qed.

Lemma add_to_last_length v ns : length (add_to_last v ns) = length ns.
Proof.
  induction ns as [|n ns IH]; [done|]. destruct ns as [|n' ns]; [done|].
  change (add_to_last v (n :: n' :: ns)) with (n :: add_to_last v (n' :: ns)). cbn [length] in *. lia.
Qed.

Lemma allocated_ok ns : ∃ scores, allocate_token_scores ns = Ok scores ∧
  scores = add_to_last (gross_score (sum_N ns) - sum_N (map gross_score ns)) (map gross_score ns).
Proof.
  unfold allocate_token_scores. destruct ns as [|n ns]; [by exists []|].
  cbn [map]. rewrite big_sub_le by apply (gross_scores_le (n :: ns)). by eexists.
Qed.

Lemma allocate_sum ns scores : allocate_token_scores ns = Ok scores →
  sum_N scores = gross_score (sum_N ns).
Proof.
  destruct (allocated_ok ns) as (scores' & -> & E). intros [= <-]. rewrite E.
  destruct ns as [|n ns]; [done|]. rewrite add_to_last_sum by done.
  pose proof (gross_scores_le (n :: ns)). lia.
Qed.

(* ------------------------------------------------------------------ *)
(** ** Responses of the service *)

Section Service.
Context `{HexLaws, AbiCodec} {W : Type} `{!RpcIface W}.
Context (network : ScoreNetwork) (registry account : Address).
(** The account's true balances, the DefiInsurance contract, and what the chain
    holds at each block: score configuration and spent score. *)
Context (h : Address → N → N) (defi : Address) (conf : N → ScoreConfig * N) (as_of : N).

Definition tokens_at (block : N) : list ScoredToken := sc_scored_tokens (conf block).1.
Definition cutoff_of (block : N) : N :=
  score_cutoff_block block (holding_margin_blocks (sc_params (conf block).1)).

(** Up to [as_of] the provider answers from one chain. *)
Record truthful_chain : Prop := {
  defi_read : ∀ b w d w', b ≤ as_of →
    defi_insurance_at (W := W) registry (Some b) w = (Ok d, w') → d = defi;
  config_read : ∀ b w c w', b ≤ as_of →
    score_config_and_spent_at (W := W) registry defi account b w = (Ok c, w') → c = conf b;
  replayed_truth : ∀ b scored, b ≤ as_of → scored ∈ tokens_at b →
    truthful (W := W) account h as_of (st_token scored)
}.

(** The checkpoints the service can be handed: what an earlier request for the
    same account returned, or none. *)
Inductive served : option UserCheckpoint → Prop :=
  | served_none : served None
  | served_some previous reference w snapshot checkpoint w' :
      served previous → ba_number reference ≤ as_of →
      compute_incremental_score_at (W := W) network registry account reference previous w
        = (Ok (snapshot, checkpoint), w') →
      served (Some checkpoint).

Record exact_response (reference : BlockAnchor) (snapshot : CachedInsuranceScoreSnapshot) : Prop := {
  exact_cutoff : cs_score_cutoff_block snapshot = to_decimal (cutoff_of (ba_number reference));
  exact_gross : cs_gross_earned_score snapshot = to_decimal
    (gross_score (exact_score h (tokens_at (ba_number reference)) (ba_number reference)));
  exact_matured : cs_matured_gross_earned_score snapshot = to_decimal
    (gross_score (exact_score h (tokens_at (ba_number reference)) (cutoff_of (ba_number reference))));
  exact_spent : cs_score_spent snapshot = to_decimal (conf (ba_number reference)).2;
  exact_available : cs_available_score snapshot = to_decimal
    (gross_score (exact_score h (tokens_at (ba_number reference)) (cutoff_of (ba_number reference)))
     - (conf (ba_number reference)).2);
  exact_rows : map ts_token (cs_token_scores snapshot)
    = map (fun t => address_to_string (st_token t)) (tokens_at (ba_number reference));
  exact_shares : ∃ shares,
    map ts_gross_earned_score (cs_token_scores snapshot) = map to_decimal shares ∧
    sum_N shares = gross_score (exact_score h (tokens_at (ba_number reference)) (ba_number reference))
}.

Definition faithful_user (previous : option UserCheckpoint) : Prop :=
  match previous with
  | Some c => Forall (faithful h) (uc_tokens c) ∧ Forall (faithful h) (uc_visible_tokens c)
  | None => True
  end.

Lemma cutoff_bound block : 1 ≤ as_of → as_of ≤ u64_max → block ≤ as_of → cutoff_of block ≤ as_of.
Proof.
  intros Hone Hmax Hb. unfold cutoff_of, score_cutoff_block. destruct (N.ltb_spec
    (holding_margin_blocks (sc_params (conf block).1)) block); [|done].
  rewrite u64_sub_small by (unfold u64_max, u64_modulus in *; lia). lia.
Qed.

Lemma available_ok {E} gross spent v : (available_score gross spent : outcome E N) = Ok v → v = gross - spent.
Proof.
  unfold available_score. destruct (N.ltb_spec spent gross); [by intros [-> _]%big_sub_ok|].
  intros [= <-]. lia.
Qed.

(** The rows zip without loss: every column has one entry per token. *)
Lemma token_score_rows tokens : ∀ shares rates balances,
  length shares = length tokens → length rates = length tokens → length balances = length tokens →
  map ts_token (map token_score (zip (zip (zip tokens shares) rates) balances))
    = map (fun t => address_to_string (st_token t)) tokens ∧
  map ts_gross_earned_score (map token_score (zip (zip (zip tokens shares) rates) balances))
    = map to_decimal shares.
Proof.
  induction tokens as [|t tokens IH]; intros [|s shares] [|r rates] [|b balances]; try done.
  intros [= Hs] [= Hr] [= Hb]. destruct (IH _ _ _ Hs Hr Hb) as [Etoken Eshare].
  split; [exact (f_equal (cons _) Etoken)|exact (f_equal (cons _) Eshare)].
Qed.

Lemma mapM_length {E A B} (f : A → outcome E B) l k : mapM f l = Ok k → length k = length l.
Proof. intros Hm%mapM_ok. symmetry. by eapply Forall2_length. Qed.

Lemma accumulated_faithful target pre out :
  accumulated h target pre out → Forall (faithful h) (bs_next_tokens out).
Proof. intros (_ & Hf & _). eapply Forall_impl; [exact Hf|]. by intros c [? _]. Qed.

(** One request: the response is exact and the checkpoint it returns faithful. *)
Lemma compute_exact reference previous w snapshot checkpoint w' :
  truthful_chain → 1 ≤ as_of → as_of ≤ u64_max → ba_number reference ≤ as_of →
  faithful_user previous →
  compute_incremental_score_at (W := W) network registry account reference previous w
    = (Ok (snapshot, checkpoint), w') →
  exact_response reference snapshot ∧ faithful_user (Some checkpoint).
Proof.
  intros Hchain Hone Hmax Href Hprev Hs. unfold compute_incremental_score_at in Hs.
  apply io_bind_ok in Hs as (id & w1 & _ & Hs). apply io_bind_ok in Hs as (? & w2 & _ & Hs).
  apply io_bind_ok in Hs as (? & w3 & _ & Hs).
  apply io_bind_ok in Hs as (d & w4 & Hd%map_err_io_ok & Hs).
  apply (defi_read Hchain) in Hd as ->; [|done].
  apply io_bind_ok in Hs as (? & w5 & _ & Hs).
  apply io_bind_ok in Hs as ([config spent] & w6 & Hc%map_err_io_ok & Hs).
  apply (config_read Hchain) in Hc; [|done].
  assert (config = (conf (ba_number reference)).1) as -> by by rewrite <-Hc.
  assert (spent = (conf (ba_number reference)).2) as -> by by rewrite <-Hc. clear Hc.
  fold (tokens_at (ba_number reference)) (cutoff_of (ba_number reference)) in Hs.
  set (tokens := tokens_at (ba_number reference)) in *. set (cutoff := cutoff_of (ba_number reference)) in *.
  pose proof (cutoff_bound _ Hone Hmax Href) as Hcut. fold cutoff in Hcut.
  assert (∀ scored, scored ∈ tokens → truthful (W := W) account h as_of (st_token scored)) as Htrue
    by (intros scored; by apply (replayed_truth Hchain)).
  apply io_bind_ok in Hs as (anchor & w7 & _ & Hs).
  apply io_bind_ok in Hs as (matured & w8 & Hm & Hs).
  eapply score_to_block_ok in Hm; [|done..|by destruct previous as [c|]; [destruct Hprev|constructor]].
  apply io_bind_ok in Hs as (visible & w9 & Hv & Hs).
  eapply score_to_block_ok in Hv;
    [|done..|by destruct previous as [c|]; [destruct Hprev|eapply accumulated_faithful]].
  apply io_bind_ok in Hs as (score & w10 & [Hb _]%lift_ok & Hs).
  apply io_bind_ok in Hs as (vs & w11 & [Hvs _]%lift_ok & Hs).
  apply io_bind_ok in Hs as (shares & w12 & [Hsh _]%lift_ok & Hs).
  apply io_bind_ok in Hs as (rates & w13 & [Hr%mapM_length _]%lift_ok & Hs).
  apply io_bind_ok in Hs as (bals & w14 & [Hbl%mapM_length _]%lift_ok & Hs).
  apply io_bind_ok in Hs as (mrates & w15 & _ & Hs).
  apply io_bind_ok in Hs as (? & w16 & _ & Hs). apply io_bind_ok in Hs as (? & w17 & _ & Hs).
  apply io_ret_ok in Hs as [[= <- <-] _].
  pose proof (token_numerators_ok h _ tokens _ _ _ Hv ltac:(done) Hvs) as ->.
  destruct (allocated_ok (map (fun t => spec_numerator (h (st_token t)) 0 (st_decimals t)
    (ba_number reference) (st_rates t)) tokens)) as (shares' & Hsh' & Eshares).
  pose proof (allocate_sum _ _ Hsh) as Hsum.
  assert (length shares = length tokens) as Hlen.
  { rewrite Hsh in Hsh'. injection Hsh' as ->. rewrite Eshares, add_to_last_length. by rewrite !length_map. }
  destruct (token_score_rows tokens shares rates bals Hlen Hr Hbl) as [Erow Eshare].
  apply bind_ok in Hb as (av & Hav & <-%(inj Ok)).
  destruct Hm as (Hmn & Hmf & Hmc), Hv as (Hvn & Hvf & Hvc).
  split.
  - split; cbn [cs_score_cutoff_block cs_gross_earned_score cs_matured_gross_earned_score cs_score_spent
      cs_available_score cs_token_scores sb_gross_earned_score sb_matured_gross_earned_score
      sb_available_score]; fold tokens cutoff; [done|by rewrite Hvn|by rewrite Hmn|done| |done|].
    + rewrite Hmn in Hav. by apply available_ok in Hav as ->.
    + by exists shares.
  - split; cbn; eapply accumulated_faithful; by split.
Qed.

(** What a one-shot query that succeeds publishes. *)
Lemma one_shot_ok `{!RpcLaws} chain w one_shot w' :
  truthful_chain → 1 ≤ as_of → as_of ≤ u64_max →
  (∀ b scored, b ≤ as_of → scored ∈ tokens_at b →
     true_history (W := W) account (cutoff_of b) MAX_LOG_RANGE LOG_RESULT_CAP (st_token scored)
       (h (st_token scored))) →
  insurance_score_at (W := W) chain registry account w = (Ok one_shot, w') →
  (∀ b, iss_reference_block one_shot = to_decimal b → b ≤ as_of) →
  ∃ b, iss_reference_block one_shot = to_decimal b ∧
    iss_score_cutoff_block one_shot = to_decimal (cutoff_of b) ∧
    iss_gross_earned_score one_shot = to_decimal (gross_score (exact_score h (tokens_at b) (cutoff_of b))) ∧
    iss_score_spent one_shot = to_decimal (conf b).2 ∧
    iss_available_score one_shot = to_decimal
      (gross_score (exact_score h (tokens_at b) (cutoff_of b)) - (conf b).2).
Proof.
  intros Hchain Hone Hmax Hist Hs Hb. unfold insurance_score_at in Hs.
  apply io_bind_ok in Hs as (id & w1 & _ & Hs). apply io_bind_ok in Hs as (? & w2 & _ & Hs).
  apply io_bind_ok in Hs as (fin & w3 & _ & Hs).
  apply io_bind_ok in Hs as (d & w4 & Hd%map_err_io_ok & Hs). apply io_bind_ok in Hs as (? & w5 & _ & Hs).
  apply io_bind_ok in Hs as ([config spent] & w6 & Hc%map_err_io_ok & Hs).
  apply io_bind_ok in Hs as (anchor & w7 & _ & Hs).
  apply io_bind_ok in Hs as ([gross metrics] & w8 & Hg%map_err_io_ok & Hs).
  apply io_bind_ok in Hs as (av & w9 & [Hav%available_ok _]%lift_ok & Hs).
  apply io_bind_ok in Hs as (? & w10 & _ & Hs). apply io_bind_ok in Hs as (? & w11 & _ & Hs).
  apply io_ret_ok in Hs as [<- _]. specialize (Hb _ eq_refl).
  apply (defi_read Hchain) in Hd as ->; [|done]. apply (config_read Hchain) in Hc; [|done].
  exists (ba_number fin). cbn [iss_reference_block iss_score_cutoff_block iss_gross_earned_score iss_score_spent
    iss_available_score]. specialize (Hist (ba_number fin)).
  unfold cutoff_of, tokens_at in *. rewrite <-Hc in Hist |- *. cbn [fst snd] in *.
  eapply earned_score_of_spec in Hg; [|..|intros t Ht; by apply Hist].
  - subst gross av. done.
  - etrans; [|exact Hmax]. pose proof (cutoff_bound (ba_number fin) Hone Hmax Hb) as Hcut.
    unfold cutoff_of in Hcut. by rewrite <-Hc in Hcut.
Qed.

Lemma served_faithful previous : truthful_chain → 1 ≤ as_of → as_of ≤ u64_max →
  served previous → faithful_user previous.
Proof.
  intros Hchain Hone Hmax. induction 1 as [|previous reference w snapshot checkpoint w' _ IH Href Hc]; [done|].
  by eapply compute_exact in Hc as [_ ?].
Qed.
End Service.

(* ------------------------------------------------------------------ *)
(** ** Helper lemmas: total advances *)

Lemma run_balance_split bal ms1 ms2 :
  run_balance bal (ms1 ++ ms2) = run_balance bal ms1 ≫= fun b => run_balance b ms2.
Proof.
  revert bal. induction ms1 as [|[[b i] o] ms1 IH]; intros bal; cbn [app run_balance]; [done|].
  destruct (bal + i <? o); [done|apply IH].
Qed.

Lemma filter_all {A} (P : A → Prop) `{∀ x, Decision (P x)} (l : list A) : (∀ x, x ∈ l → P x) → filter P l = l.
Proof.
  induction l as [|x l IH]; intros Hl; [done|]. rewrite filter_cons_True by (apply Hl; left).
  f_equal. apply IH. intros; apply Hl; by right.
Qed.
Lemma filter_none {A} (P : A → Prop) `{∀ x, Decision (P x)} (l : list A) : (∀ x, x ∈ l → ¬ P x) → filter P l = [].
Proof.
  induction l as [|x l IH]; intros Hl; [done|]. rewrite filter_cons_False by (apply Hl; left).
  apply IH. intros; apply Hl; by right.
Qed.

(** Movements after [k] do not show at [k]; earlier ones move the start. *)
Lemma history_before bal ms1 ms2 k : (∀ m, m ∈ ms2 → k < mv_block m) →
  history bal (ms1 ++ ms2) k = history bal ms1 k.
Proof.
  intros Hk. unfold history. rewrite filter_app, (filter_none _ ms2), app_nil_r; [done|].
  intros m Hm%Hk. lia.
Qed.
Lemma history_from bal bal' ms1 ms2 k : run_balance bal ms1 = Some bal' →
  (∀ m, m ∈ ms1 → mv_block m ≤ k) → history bal (ms1 ++ ms2) k = history bal' ms2 k.
Proof.
  intros Hrun Hk. unfold history. rewrite filter_app, (filter_all _ ms1) by done.
  by rewrite run_balance_split, Hrun.
Qed.

Section Totals.
Context `{HexLaws}.

Lemma stream_movements account from to trs m : stream from to trs →
  m ∈ net_movements account trs → from < mv_block m ∧ mv_block m ≤ to.
Proof.
  intros [_ Hr] Hm%list_elem_of_In. apply in_flat_map in Hm as (tr & Htr%list_elem_of_In & Hm%list_elem_of_In).
  rewrite (net_movement_block _ _ _ Hm). rewrite Forall_forall in Hr. by apply Hr.
Qed.

Lemma stream_order account from to trs : stream from to trs → in_order from (net_movements account trs).
Proof.
  intros [Hs Hr]. cut (∀ low, Forall (fun t => low ≤ tt_block_number t) trs →
    in_order low (net_movements account trs)).
  { intros Hlow. apply Hlow. eapply Forall_impl; [exact Hr|]. cbv beta. lia. }
  clear Hr. induction Hs as [|tr trs Hs IH Hlt]; intros low Hlow; [done|].
  apply Forall_cons in Hlow as [Hl _]. cbn [net_movements flat_map]. fold (net_movements account trs).
  assert (in_order (tt_block_number tr) (net_movements account trs)) as Hord.
  { apply IH. eapply Forall_impl; [exact Hlt|]. intros t [Ht|[Ht _]]; cbn in Ht;
      [by apply N.lt_le_incl|by rewrite Ht]. }
  unfold net_movement. destruct (negb _ || _); cbn [app in_order]; [done|].
  by eapply in_order_weaken.
Qed.

(** A written checkpoint advances over true transfers: no error is possible. *)
Lemma advance_written token decimals rates new h start bal c hash account trs target hash' bal' :
  ascending (rates ++ new) → rates_bounded (rates ++ new) → Forall (fun q => c < rp_from_block q) new →
  start ≤ c → c ≤ target → target ≤ u64_max → valid_hash hash = true → valid_hash hash' = true →
  stream c target trs →
  (∀ k, c ≤ k → k ≤ target → h k = history bal (net_movements account trs) k) →
  run_balance bal (net_movements account trs) = Some bal' →
  advance_token_checkpoint (written token decimals rates h start bal c hash)
    (mkScoredToken token decimals (rates ++ new)) account trs target hash'
  = Ok (written token decimals (rates ++ new) h start bal' target hash').
Proof.
  intros Hasc Hb Hnew Hsc Hct Hmax Hh Hh' Hstream Htrue Hrun.
  set (scored := mkScoredToken token decimals (rates ++ new)).
  assert (ascending rates ∧ rates_bounded rates) as [Hasc1 Hb1].
  { split; [|by apply Forall_app in Hb as [? _]]. by eapply StronglySorted_app_1_l. }
  assert (validate_checkpoint (written token decimals rates h start bal c hash) scored
    = Ok (c, represented h start decimals (rates ++ new) bal c)) as Hval.
  { rewrite validate_written by (done || lia). unfold scored. cbn [st_token st_decimals st_rates].
    rewrite bool_decide_true by done. rewrite N.eqb_refl, bool_decide_true by by exists new.
    cbn [negb]. rewrite drop_app_length. rewrite (proj2 (existsb_false _ new)).
    - by rewrite (represented_extend _ _ _ c).
    - intros q Hq. apply N.leb_gt. rewrite Forall_forall in Hnew. by apply Hnew, list_elem_of_In. }
  pose proof (replay_represented_upto h start decimals (rates ++ new) Hasc target (net_movements account trs) bal c
    Hsc (stream_order _ _ _ _ Hstream)
    ltac:(intros m Hm; by apply (stream_movements account c target trs))
    ltac:(intros; apply Htrue; lia)) as Hrep.
  rewrite Hrun in Hrep. destruct Hrep as (t' & Htt & Hall & Hlast & Hrep).
  assert (t' ≤ target) as Ht'.
  { destruct Hlast as [->|(m & Hm & <-)]; [done|by eapply stream_movements]. }
  destruct (replay_all_run account scored c target trs None _ _ Hstream ltac:(done) Hrep) as [prev Hfold].
  unfold advance_token_checkpoint. rewrite Hh'. cbn [negb bail_if mbind outcome_bind].
  change (st_rates scored) with (rates ++ new). change (st_decimals scored) with decimals.
  rewrite (proj2 (validate_rates_ascending _) Hasc). cbn [map_err mbind outcome_bind].
  rewrite Hval. cbn [mbind outcome_bind]. rewrite (proj2 (N.ltb_ge _ _) Hct). cbn [bail_if mbind outcome_bind].
  rewrite Hfold. cbn [mbind outcome_bind].
  rewrite (advance_represented _ _ _ _ Hasc bal' t' target); [done|lia|done|].
  intros k Hk1 Hk2. rewrite Htrue by lia. by apply (history_after _ _ _ t').
Qed.

Lemma stream_app from mid to trs1 trs2 : from ≤ mid → mid ≤ to →
  stream from mid trs1 → stream mid to trs2 → stream from to (trs1 ++ trs2).
Proof.
  intros Hfm Hmt [Hs1 Hr1] [Hs2 Hr2]. split.
  - induction Hs1 as [|tr trs1 Hs1 IH Hlt]; [done|]. apply Forall_cons in Hr1 as [[_ Htr] Hr1].
    cbn [app]. constructor; [by apply IH|]. apply Forall_app. split; [done|].
    eapply Forall_impl; [exact Hr2|]. intros t [Ht _]. left. change (tt_block_number tr < tt_block_number t). lia.
  - apply Forall_app. split; eapply Forall_impl; [exact Hr1| |exact Hr2|]; cbv beta; lia.
Qed.

Lemma new_written token decimals rates h start bal hash :
  new_token_checkpoint (mkScoredToken token decimals rates) start bal hash
  = written token decimals rates h start bal start hash.
Proof. unfold new_token_checkpoint, written. by rewrite initial_represented. Qed.
End Totals.

(* ------------------------------------------------------------------ *)
(** ** Properties *)

(** An incremental score is the cold one, and cannot get stuck. Take transfers in
    strictly increasing positions that the starting balance can pay, and a rate
    history that is extended only after the block [mid] of the first request. Then
    advancing a new checkpoint to [mid], storing it as text and advancing it to
    [target] under the extended history succeeds with exactly the checkpoint one
    replay of the whole range computes, and the numerator read from it is the
    block-weighted score of the balances. *)
Theorem incremental_equals_cold `{HexLaws} (token account : Address)
    (decimals start bal bal1 bal2 mid target : N) (rates new : list RatePoint)
    (trs1 trs2 : list TokenTransfer) (hash0 hash1 hash2 : string) :
  let scored1 := mkScoredToken token decimals rates in
  let scored2 := mkScoredToken token decimals (rates ++ new) in
  let movements := net_movements account (trs1 ++ trs2) in
  ascending (rates ++ new) → rates_bounded (rates ++ new) →
  Forall (fun q => mid < rp_from_block q) new →
  start ≤ mid → mid ≤ target → target ≤ u64_max →
  valid_hash hash0 = true → valid_hash hash1 = true → valid_hash hash2 = true →
  stream start mid trs1 → stream mid target trs2 →
  run_balance bal (net_movements account trs1) = Some bal1 →
  run_balance bal1 (net_movements account trs2) = Some bal2 →
  ∃ stored result,
    advance_token_checkpoint (new_token_checkpoint scored1 start bal hash0) scored1 account trs1 mid hash1
      = Ok stored ∧
    advance_token_checkpoint stored scored2 account trs2 target hash2 = Ok result ∧
    advance_token_checkpoint (new_token_checkpoint scored2 start bal hash0) scored2 account (trs1 ++ trs2)
      target hash2 = Ok result ∧
    token_numerator result scored2 target
      = Ok (spec_numerator (history bal movements) start decimals target (rates ++ new)).
Proof.
  intros scored1 scored2 ms Hasc Hb Hnew Hsm Hmt Hmax Hh0 Hh1 Hh2 Hs1 Hs2 Hrun1 Hrun2.
  set (h := history bal ms).
  assert (ms = net_movements account trs1 ++ net_movements account trs2) as Ems
    by (unfold ms, net_movements; apply flat_map_app).
  assert (run_balance bal ms = Some bal2) as Hrun by by rewrite Ems, run_balance_split, Hrun1.
  assert (ascending rates) as Hasc1 by by eapply StronglySorted_app_1_l.
  assert (rates_bounded rates) as Hb1 by by apply Forall_app in Hb as [? _].
  assert (stream start target (trs1 ++ trs2)) as Hs12 by by eapply stream_app.
  exists (written token decimals rates h start bal1 mid hash1),
    (written token decimals (rates ++ new) h start bal2 target hash2).
  split; [|split; [|split]].
  - rewrite (new_written token decimals rates h). unfold scored1. rewrite <-(app_nil_r rates) at 2 3.
    apply advance_written; try done; [by rewrite app_nil_r|by rewrite app_nil_r|lia|].
    intros k Hk1 Hk2. unfold h. rewrite Ems. apply history_before.
    intros m Hm. destruct (stream_movements account mid target trs2 m Hs2 Hm). lia.
  - apply advance_written; try done. intros k Hk1 Hk2. unfold h. rewrite Ems.
    apply history_from; [done|]. intros m Hm. destruct (stream_movements account start mid trs1 m Hs1 Hm). lia.
  - rewrite (new_written token decimals (rates ++ new) h). unfold scored2.
    rewrite <-(app_nil_r (rates ++ new)) at 2 3.
    apply advance_written; try done; [by rewrite app_nil_r|by rewrite app_nil_r|lia].
  - unfold token_numerator. rewrite validate_written by done. cbn [st_token st_decimals st_rates scored2].
    rewrite bool_decide_true, N.eqb_refl, (bool_decide_true (rates ++ new `prefix_of` rates ++ new)) by done.
    cbn [negb]. rewrite drop_all. cbn [existsb mbind outcome_bind]. rewrite N.ltb_irrefl.
    cbn [bail_if mbind outcome_bind]. rewrite projected_represented; [done|done|lia|done|intros; lia].
Qed.

(** The shares of the tokens add up. Allocating a score to its tokens never
    underflows; the shares sum to the published total, every share but the last is
    the token's own score, and the last one exceeds its own by less than the number
    of tokens. *)
Theorem token_scores_total (numerators : list N) :
  ∃ scores, allocate_token_scores numerators = Ok scores ∧
    length scores = length numerators ∧
    sum_N scores = gross_score (sum_N numerators) ∧
    ∀ i n s, numerators !! i = Some n → scores !! i = Some s →
      (S i < length numerators → s = gross_score n)%nat ∧
      gross_score n ≤ s ∧ s < gross_score n + N.of_nat (length numerators).
Proof.
  destruct (allocated_ok numerators) as (scores & Ha & E). exists scores. split; [done|].
  split; [by rewrite E, add_to_last_length, length_map|]. split; [by apply allocate_sum|].
  intros i n s Hn Hs.
  assert (numerators ≠ []) as Hne by (intros ->; done).
  pose proof (gross_scores_le numerators). pose proof (gross_scores_loss numerators Hne).
  assert (0 < length numerators)%nat by (apply lookup_lt_Some in Hn; lia).
  rewrite E in Hs. rewrite (add_to_last_lookup _ _ _ (gross_score n)) in Hs
    by (by rewrite list_lookup_fmap, Hn || by rewrite <-Hn; apply list_lookup_fmap).
  rewrite length_map in Hs. injection Hs as <-.
  case_decide; split; lia.
Qed.

(** C26: Every response of the score service is exact. On a provider that answers from
    one chain, whatever chain of requests produced the stored checkpoint, with any
    references in any order, a request that succeeds publishes the cutoff, the gross
    and the matured score of the account's true balances, the spent score of the
    chain, their difference floored at zero, and token rows that sum to the gross
    score. *)
Theorem served_scores_exact `{HexLaws, AbiCodec} {W : Type} `{!RpcIface W}
    (network : ScoreNetwork) (registry account : Address) (h : Address → N → N) (defi : Address)
    (conf : N → ScoreConfig * N) (as_of : N) (previous : option UserCheckpoint)
    (reference : BlockAnchor) (w w' : W) (snapshot : CachedInsuranceScoreSnapshot)
    (checkpoint : UserCheckpoint) :
  truthful_chain (W := W) registry account h defi conf as_of → 1 ≤ as_of → as_of ≤ u64_max →
  served (W := W) network registry account as_of previous → ba_number reference ≤ as_of →
  compute_incremental_score_at network registry account reference previous w
    = (Ok (snapshot, checkpoint), w') →
  exact_response h conf reference snapshot.
Proof.
  intros Hchain Hone Hmax Hserved Href Hc.
  eapply compute_exact in Hc as [? _]; [done..|]. by eapply served_faithful.
Qed.

(** The two score paths agree. Where the one-shot query and the score service both
    answer for the same reference block of one chain, they publish the same cutoff,
    the same matured score, the same spent and the same available score. *)
Theorem score_paths_agree `{HexLaws, AbiCodec} {W : Type} `{!RpcIface W, !RpcLaws}
    (network : ScoreNetwork) (registry account : Address) (h : Address → N → N) (defi : Address)
    (conf : N → ScoreConfig * N) (as_of : N) (previous : option UserCheckpoint)
    (reference : BlockAnchor) (w w' v v' : W) (snapshot : CachedInsuranceScoreSnapshot)
    (checkpoint : UserCheckpoint) (one_shot : InsuranceScoreSnapshot) :
  truthful_chain (W := W) registry account h defi conf as_of → 1 ≤ as_of → as_of ≤ u64_max →
  (∀ b scored, b ≤ as_of → scored ∈ tokens_at conf b →
     true_history (W := W) account (cutoff_of conf b) MAX_LOG_RANGE LOG_RESULT_CAP (st_token scored)
       (h (st_token scored))) →
  served (W := W) network registry account as_of previous → ba_number reference ≤ as_of →
  compute_incremental_score_at network registry account reference previous w
    = (Ok (snapshot, checkpoint), w') →
  insurance_score_at (sn_chain_id network) registry account v = (Ok one_shot, v') →
  iss_reference_block one_shot = to_decimal (ba_number reference) →
  iss_score_cutoff_block one_shot = cs_score_cutoff_block snapshot ∧
  iss_gross_earned_score one_shot = cs_matured_gross_earned_score snapshot ∧
  iss_score_spent one_shot = cs_score_spent snapshot ∧
  iss_available_score one_shot = cs_available_score snapshot.
Proof.
  intros Hchain Hone Hmax Hist Hserved Href Hc Hs Eref.
  eapply compute_exact in Hc as [[Ecut _ Emat Espent Eav _ _] _];
    [|done..|by eapply served_faithful].
  eapply one_shot_ok in Hs as (b & Eb & E1 & E2 & E3 & E4); [|done..|].
  - rewrite Eref in Eb. apply (inj to_decimal) in Eb as <-. by rewrite Ecut, Emat, Espent, Eav.
  - intros b Eb. rewrite Eref in Eb. by apply (inj to_decimal) in Eb as <-.
Qed.

(* ------------------------------------------------------------------ *)
(** ** Evaluated instances *)

#[local] Existing Instances RefHex.hex_crate RefHex.hex_laws RefAbi.abi_codec.
#[local] Existing Instances RefAbi.TransferData_eq_dec RefAbi.TransferData_countable.

Definition demo_stream (from to : Address) (value block index : N) : TokenTransfer :=
  mkTokenTransfer from to value block index.

(** Seven tokens arrive, are replayed, stored; a new rate is announced and three leave. *)
Example incremental_equals_cold_witness :
  let trs1 := [demo_stream demo_other demo_account 7 2 0] in
  let trs2 := [demo_stream demo_account demo_other 3 5 1] in
  let scored2 := mkScoredToken demo_token 6 [mkRatePoint 1 (10 ^ 18); mkRatePoint 5 (10 ^ 18)] in
  ∃ stored result,
    advance_token_checkpoint stored scored2 demo_account trs2 6 ZERO_HASH_TEXT = Ok result ∧
    token_numerator result scored2 6 = Ok (25 * 10 ^ 12 * 10 ^ 18).
Proof.
  destruct (incremental_equals_cold demo_token demo_account 6 1 0 7 4 3 6 [mkRatePoint 1 (10 ^ 18)]
    [mkRatePoint 5 (10 ^ 18)] [demo_stream demo_other demo_account 7 2 0]
    [demo_stream demo_account demo_other 3 5 1] ZERO_HASH_TEXT ZERO_HASH_TEXT ZERO_HASH_TEXT)
    as (stored & result & _ & Hadv & _ & Hnum).
  - apply validate_rates_ascending. reflexivity.
  - repeat constructor; vm_compute; discriminate.
  - repeat constructor.
  - vm_compute. discriminate.
  - vm_compute. discriminate.
  - vm_compute. discriminate.
  - reflexivity.
  - reflexivity.
  - reflexivity.
  - split; repeat constructor; vm_compute; congruence.
  - split; repeat constructor; vm_compute; congruence.
  - reflexivity.
  - reflexivity.
  - exists stored, result. split; [exact Hadv|]. etransitivity; [exact Hnum|]. vm_compute. reflexivity.
Defined.

Module ScoreDemo.
Definition table : list (Address * SolFn * list byte) := Eval vm_compute in
  [(demo_registry, defiInsurance, returns defiInsurance demo_registry);
   (demo_registry, settlementParams, returns settlementParams (mkSettlementParamsReturn 3 1 1));
   (demo_registry, getScoredTokens, returns getScoredTokens [demo_token]);
   (demo_registry, getScoredRateHistory,
      returns getScoredRateHistory [mkSolRatePoint 1 (10 ^ 18); mkSolRatePoint 3 (10 ^ 18)]);
   (demo_token, erc20_decimals, returns erc20_decimals 6);
   (demo_registry, scoreSpent, returns scoreSpent (10 ^ 12))].
Definition answer (to : Address) (data : list byte) (number : N) : list byte :=
  if bool_decide (to = demo_token) && bool_decide (take 4 data = RefAbi.selector erc20_balanceOf)
  then abi_encode_returns erc20_balanceOf (demo_balance number)
  else table_answer table to data number.
#[local] Instance provider : RpcIface unit :=
  RefProvider.provider demo_ts demo_block_hash 4 answer demo_mint_ledger.
#[local] Instance laws : RpcLaws.
Proof. constructor. intros A d m w r w'. simpl. destruct (m w). by intros [= -> ->]. Qed.

#[local] Instance SettlementParams_eq_dec : EqDecision SettlementParams.
Proof. solve_decision. Defined.
#[local] Instance ScoredToken_eq_dec : EqDecision ScoredToken.
Proof. solve_decision. Defined.
#[local] Instance ScoreConfig_eq_dec : EqDecision ScoreConfig.
Proof. solve_decision. Defined.

Definition scored : ScoredToken :=
  mkScoredToken demo_token 6 [mkRatePoint 1 (10 ^ 18); mkRatePoint 3 (10 ^ 18)].
Definition conf (_ : N) : ScoreConfig * N := (mkScoreConfig (mkSettlementParams 3 1 1) [scored], 10 ^ 12).
Definition balances (_ : Address) : N → N := demo_balance.
Definition network : ScoreNetwork := mkScoreNetwork 1 "mainnet".

(** The transfers of one range, evaluated. *)
Definition range_ok (from to : N) : bool :=
  match (erc20_transfers_for_accounts demo_token {[demo_account]} from to SCORE_MAX_INITIAL_LOG_RANGE
           LOG_RESULT_CAP tt).1 with
  | Ok (trs, _) => (from =? 0) || (to <? from) || forallb (fun k => (k <? from - 1) || (to <? k) ||
      (history (demo_balance (from - 1)) (net_movements demo_account trs) k =? demo_balance k)) demo_blocks
  | _ => true
  end.

Lemma tokens_truthful : truthful (W := unit) demo_account balances 4 demo_token.
Proof.
  split.
  - intros b w v w' Hb Hv. eapply demo_balance_checked; [vm_compute; reflexivity|exact Hb|exact Hv].
  - intros from to [] trs m [] Hone Hft Hto Hs k Hk1 Hk2.
    assert (forallb (fun '(from, to) => range_ok from to) (list_prod demo_blocks demo_blocks) = true) as Hall
      by (vm_compute; reflexivity).
    rewrite forallb_forall in Hall.
    specialize (Hall (from, to) ltac:(apply in_prod; apply demo_blocks_elem; lia)).
    cbv beta iota in Hall. unfold range_ok in Hall. rewrite Hs in Hall. cbn [fst] in Hall.
    rewrite (proj2 (N.eqb_neq _ _)), (proj2 (N.ltb_ge _ _)) in Hall by lia. cbn [orb] in Hall.
    rewrite forallb_forall in Hall. specialize (Hall k (demo_blocks_elem k ltac:(lia))).
    rewrite (proj2 (N.ltb_ge _ _) Hk1), (proj2 (N.ltb_ge _ _) Hk2) in Hall. by apply N.eqb_eq.
Qed.

Lemma chain_truthful :
  truthful_chain (W := unit) demo_registry demo_account balances demo_registry conf 4.
Proof.
  split.
  - intros b [] d [] Hb%demo_blocks_elem Hd.
    assert (forallb (fun b => match (defi_insurance_at (W := unit) demo_registry (Some b) tt).1 with
      | Ok d => bool_decide (d = demo_registry) | _ => true end) demo_blocks = true) as Hall
      by (vm_compute; reflexivity).
    rewrite forallb_forall in Hall. specialize (Hall b Hb). rewrite Hd in Hall.
    by apply bool_decide_eq_true in Hall.
  - intros b [] c [] Hb%demo_blocks_elem Hc.
    assert (forallb (fun b => match (score_config_and_spent_at (W := unit) demo_registry demo_registry
      demo_account b tt).1 with Ok c => bool_decide (c = conf b) | _ => true end) demo_blocks = true) as Hall
      by (vm_compute; reflexivity).
    rewrite forallb_forall in Hall. specialize (Hall b Hb). rewrite Hc in Hall.
    by apply bool_decide_eq_true in Hall.
  - intros b s _ Hs%list_elem_of_singleton. rewrite Hs. exact tokens_truthful.
Qed.

Lemma history_truthful b s : b ≤ 4 → s ∈ tokens_at conf b →
  true_history (W := unit) demo_account (cutoff_of conf b) MAX_LOG_RANGE LOG_RESULT_CAP (st_token s)
    (balances (st_token s)).
Proof.
  intros Hb Hs%list_elem_of_singleton. rewrite Hs.
  assert (true_history (W := unit) demo_account 4 MAX_LOG_RANGE LOG_RESULT_CAP demo_token demo_balance)
    as [Hbal Hlogs] by (apply demo_history_checked; vm_compute; reflexivity).
  assert (cutoff_of conf b ≤ 4) as Hcut by by apply (cutoff_bound conf 4 b).
  split.
  - intros k w v w' Hk Hv. eapply Hbal; [|exact Hv]. lia.
  - intros from to outgoing incoming ds mo mi wo wo' wi wi' Hft Hto Ho Hi Hd.
    exact (Hlogs from to outgoing incoming ds mo mi wo wo' wi wi' Hft ltac:(lia) Ho Hi Hd).
Qed.

Definition reference (n : N) : BlockAnchor := chain_anchor demo_ts demo_block_hash n.
Definition request (n : N) (previous : option UserCheckpoint) :
    outcome IncrementalScoreError (CachedInsuranceScoreSnapshot * UserCheckpoint) * unit :=
  compute_incremental_score_at network demo_registry demo_account (reference n) previous tt.

(** The checkpoint of a cold request at block 3. *)
Lemma first_served : ∃ snapshot checkpoint, request 3 None = (Ok (snapshot, checkpoint), tt) ∧
  served (W := unit) network demo_registry demo_account 4 (Some checkpoint) ∧
  match request 4 (Some checkpoint) with
  | (Ok (next, _), _) => (cs_cache_status next =? "advanced")%string
  | _ => false
  end = true.
Proof.
  assert (match request 3 None with
    | (Ok (_, checkpoint), _) => match request 4 (Some checkpoint) with
        | (Ok (next, _), _) => (cs_cache_status next =? "advanced")%string | _ => false end
    | _ => false end = true) as Hr by (vm_compute; reflexivity).
  destruct (request 3 None) as [[[snapshot checkpoint]|e|m] []] eqn:E; [|discriminate Hr|discriminate Hr].
  exists snapshot, checkpoint. split; [done|]. split; [|exact Hr].
  eapply served_some; [apply served_none| |exact E]. vm_compute. discriminate.
Qed.

Example served_scores_exact_witness :
  ∃ previous snapshot checkpoint, request 4 (Some previous) = (Ok (snapshot, checkpoint), tt) ∧
    exact_response balances conf (reference 4) snapshot.
Proof.
  destruct first_served as (_ & previous & _ & Hserved & Hr).
  destruct (request 4 (Some previous)) as [[[snapshot checkpoint]|e|m] []] eqn:E;
    [|discriminate Hr|discriminate Hr].
  exists previous, snapshot, checkpoint. split; [exact E|].
  apply (served_scores_exact network demo_registry demo_account balances demo_registry conf 4 (Some previous)
    (reference 4) tt tt snapshot checkpoint).
  - exact chain_truthful.
  - vm_compute. discriminate.
  - vm_compute. discriminate.
  - exact Hserved.
  - vm_compute. discriminate.
  - exact E.
Defined.

Example score_paths_agree_witness :
  ∃ previous snapshot checkpoint one_shot, request 4 (Some previous) = (Ok (snapshot, checkpoint), tt) ∧
    insurance_score_at 1 demo_registry demo_account tt = (Ok one_shot, tt) ∧
    iss_available_score one_shot = cs_available_score snapshot.
Proof.
  destruct first_served as (_ & previous & _ & Hserved & Hr).
  destruct (request 4 (Some previous)) as [[[snapshot checkpoint]|e|m] []] eqn:E;
    [|discriminate Hr|discriminate Hr].
  assert (match insurance_score_at 1 demo_registry demo_account tt with
    | (Ok one_shot, _) => (iss_reference_block one_shot =? to_decimal 4)%string | _ => false end = true) as Ho
    by (vm_compute; reflexivity).
  destruct (insurance_score_at 1 demo_registry demo_account tt) as [[one_shot|e|m] []] eqn:E1;
    [|discriminate Ho|discriminate Ho].
  exists previous, snapshot, checkpoint, one_shot. split; [exact E|]. split; [reflexivity|].
  refine (proj2 (proj2 (proj2 (score_paths_agree network demo_registry demo_account balances demo_registry
    conf 4 (Some previous) (reference 4) tt tt tt tt snapshot checkpoint one_shot _ _ _ _ _ _ _ _ _)))).
  - exact chain_truthful.
  - vm_compute. discriminate.
  - vm_compute. discriminate.
  - exact history_truthful.
  - exact Hserved.
  - vm_compute. discriminate.
  - exact E.
  - exact E1.
  - by apply String.eqb_eq in Ho.
Defined.
End ScoreDemo.
