(* ===== verification/JobProtocol.v ===== *)
(** * The settlement job protocol ([job-api/src/lib.rs], data and formats)

    Requests, job identifiers, storage paths, settlement locators, wire frames,
    launch scripts, signatures, attested artifacts and terminal envelopes. *)

From S2P Require Import Prelude Bytes Text Commit Rpc Abi Config Checkpoint CheckpointStore.
From Stdlib Require Import Strings.Byte Strings.Ascii.

Open Scope string_scope.
Open Scope N_scope.
Open Scope list_scope.

Definition MAX_UINT256 : string :=
  "115792089237316195423570985008687907853269984665640564039457584007913129639935".
Definition JOB_ID_DOMAIN : list byte := as_bytes "USD8_TEE_JOB_V3" ++ [x00].
Definition REQUEST_COMMITMENT_DOMAIN : list byte := as_bytes "USD8_TEE_REQUEST_V1" ++ [x00].
Definition JOB_WIRE_SCHEMA_VERSION : N := 3.
Definition STORED_REQUEST_SCHEMA_VERSION : N := 3.
Definition MAX_RESULT_BYTES : N := 64 * 1024 * 1024.
Definition MAX_ARTIFACT_BYTES : N := MAX_RESULT_BYTES - 64 * 1024.
Definition MAX_STORED_REQUEST_BYTES : N := 4096.
Definition MAX_CIPHERTEXT_BYTES : N := 65536.
Definition MAX_CIPHERTEXT_B64_BYTES : N := 4 * ((MAX_CIPHERTEXT_BYTES + 2) / 3).
Definition MAX_ACCESS_KEY_ID_BYTES : N := 256.
Definition MAX_SECRET_ACCESS_KEY_BYTES : N := 256.
Definition MAX_SESSION_TOKEN_BYTES : N := 4096.
Definition MAX_JSON_ESCAPE_EXPANSION : N := 6.
Definition MAX_WIRE_JSON_OVERHEAD_BYTES : N := 1024.
Definition MAX_WIRE_REQUEST_BYTES : N :=
  MAX_WIRE_JSON_OVERHEAD_BYTES + MAX_STORED_REQUEST_BYTES +
  MAX_JSON_ESCAPE_EXPANSION *
    (MAX_ACCESS_KEY_ID_BYTES + MAX_SECRET_ACCESS_KEY_BYTES + MAX_SESSION_TOKEN_BYTES) +
  2 * MAX_CIPHERTEXT_B64_BYTES.

(** *** Requests *)

Record CanonicalSettlementRequest := mkCanonicalSettlementRequest {
  cs_incident_id : string;
  cs_registry : string
}.
Record CanonicalOpenRequest := mkCanonicalOpenRequest {
  co_insured_token : string;
  co_registry : string
}.
Inductive CanonicalRequest :=
  | SettlementRequest (request : CanonicalSettlementRequest)
  | OpenRequest (request : CanonicalOpenRequest).
#[export] Instance CanonicalSettlementRequest_eq_dec : EqDecision CanonicalSettlementRequest.
Proof. solve_decision. Defined.
#[export] Instance CanonicalOpenRequest_eq_dec : EqDecision CanonicalOpenRequest.
Proof. solve_decision. Defined.
#[export] Instance CanonicalRequest_eq_dec : EqDecision CanonicalRequest.
Proof. solve_decision. Defined.

Definition enclave_timeout_seconds (request : CanonicalRequest) : N :=
  match request with SettlementRequest _ => 1100 | OpenRequest _ => 300 end.
Definition parent_timeout_seconds (request : CanonicalRequest) : N :=
  match request with SettlementRequest _ => 1200 | OpenRequest _ => 360 end.

Record StoredRequest := mkStoredRequest {
  stq_schema_version : N;
  stq_job_id : string;
  stq_request : CanonicalRequest;
  stq_created_at : N;
  stq_expires_at : N
}.
#[export] Instance StoredRequest_eq_dec : EqDecision StoredRequest.
Proof. solve_decision. Defined.
Record JobWireRequest := mkJobWireRequest {
  jw_schema_version : N;
  jw_stored_request : StoredRequest;
  jw_region : string;
  jw_access_key_id : string;
  jw_secret_access_key : string;
  jw_session_token : string;
  jw_signer_ciphertext_b64 : string;
  jw_drpc_ciphertext_b64 : string
}.

Inductive TerminalStatus := Completed | Failed.
#[export] Instance TerminalStatus_eq_dec : EqDecision TerminalStatus.
Proof. solve_decision. Defined.
Record TerminalEnvelope := mkTerminalEnvelope {
  te_schema_version : N;
  te_job_id : string;
  te_status : TerminalStatus;
  te_payload : Value
}.
Definition terminal_completed (job_id : string) (payload : Value) : TerminalEnvelope :=
  mkTerminalEnvelope 1 job_id Completed payload.
Definition terminal_failed (job_id code : string) : TerminalEnvelope :=
  mkTerminalEnvelope 1 job_id Failed (VObject [("code", VString code)]).

Inductive ProtocolError :=
  | InvalidJson | InvalidIncidentId | InvalidRegistry | InvalidInsuredToken | ProtoRegistryMismatch
  | WeakSecret | InvalidIdempotencyKey | InvalidJobId | InvalidChainId | InvalidDefiInsurance
  | InvalidSettlementRoot.

Inductive ServiceError :=
  | InvalidRequest | NotFound | SettlementNotEligible | AdmissionLimited | Unavailable
  | RequestWriteUnavailable | RequestReadUnavailable | RequestReadDenied
  | RequestReadDeniedDetail (detail : string)
  | RequestReadIdentityDenied | RequestReadExplicitDenied | CapabilitiesUnavailable
  | LaunchUnavailable | LaunchUnavailableDetail (detail : string) | InvalidStoredResult.
#[export] Instance ServiceError_eq_dec : EqDecision ServiceError.
Proof. solve_decision. Defined.

(** *** Third-party code

    [serde_json] on the derived traits, [sha2] and [k256]. *)
Class JobJson := {
  settlement_api_from_slice : list byte → option string;
  open_api_from_slice : list byte → option string;
  canonical_to_vec : CanonicalRequest → list byte;
  stored_to_vec : StoredRequest → list byte;
  stored_from_slice : list byte → option StoredRequest;
  terminal_from_slice : list byte → option TerminalEnvelope
}.
(** Text that was written reads back; equal texts are of equal requests. *)
Class JobJsonLaws `{JobJson} : Prop := {
  canonical_to_vec_inj : ∀ a b, canonical_to_vec a = canonical_to_vec b → a = b;
  stored_round_trip : ∀ stored, stored_from_slice (stored_to_vec stored) = Some stored
}.
Class Sha2Crate := { sha256 : list byte → array 32 }.

Class K256Crate := {
  signing_key : Type;
  ecdsa_signature : Type;
  signing_key_from_slice : list byte → option signing_key;
  uncompressed_public_key : signing_key → list byte;
  (** The signature with the recovery identifier's two bits: odd [y], reduced [x]. *)
  sign_prehash_recoverable : signing_key → array 32 → option (ecdsa_signature * (bool * bool));
  normalize_s : ecdsa_signature → option ecdsa_signature;
  signature_to_bytes : ecdsa_signature → list byte
}.

(** *** Small checks *)

(** [i64] subtraction that stops at the bounds. *)
Definition i64_saturating_sub (a b : Z) : Z := Z.max (- 2 ^ 63) (Z.min (2 ^ 63 - 1) (a - b)).
Definition is_expired (launched_at_secs now_secs ttl_secs : Z) : bool :=
  (0 <? ttl_secs)%Z && (ttl_secs <? i64_saturating_sub now_secs launched_at_secs)%Z.

(** [str] ordering is that of the bytes. *)
Definition str_ltb (a b : string) : bool :=
  match String.compare a b with Lt => true | _ => false end.
Definition is_zero_digit (c : ascii) : bool := Ascii.eqb c "0"%char.

Definition validate_incident_id (value : string) : outcome ProtocolError unit :=
  bail_if (str_is_empty value || ((1 <? str_len value) && starts_with "0" value) ||
           negb (str_all is_ascii_digit value) || (str_len MAX_UINT256 <? str_len value) ||
           ((str_len value =? str_len MAX_UINT256) && str_ltb MAX_UINT256 value))
    InvalidIncidentId.

Definition normalize_address (value : string) : outcome ProtocolError string :=
  hex ← ok_or (strip_prefix "0x" value) InvalidRegistry;
  _ ← bail_if (negb (str_len hex =? 40) || negb (str_all is_ascii_hexdigit hex)) InvalidRegistry;
  _ ← bail_if (str_all is_zero_digit hex) InvalidRegistry;
  Ok ("0x" +:+ to_ascii_lowercase hex).
Definition normalize_registry (value : string) : outcome ProtocolError string :=
  map_err (fun _ => InvalidRegistry) (normalize_address value).

Definition is_lower_hex (c : ascii) : bool := is_ascii_hexdigit c && negb (in_range 65 90 c).
Record JobPaths := mkJobPaths { jp_request : string; jp_terminal : string }.
Definition JobPaths_new (job_id : string) : outcome ProtocolError JobPaths :=
  _ ← bail_if (negb (str_len job_id =? 64) || negb (str_all is_lower_hex job_id)) InvalidJobId;
  Ok (mkJobPaths ("requests/" +:+ job_id +:+ ".json") ("terminal/" +:+ job_id +:+ ".json")).

Definition is_ok {E A} (m : outcome E A) : bool := match m with Ok _ => true | _ => false end.

(** *** Proxy and wire frames *)

Definition kms_connect : list byte :=
  as_bytes "CONNECT kms.eu-central-1.amazonaws.com:443 HTTP/1.1".
Definition CRLF : list byte := [x0d; x0a].
Definition settlement_rpc_authority (sepolia : bool) : string :=
  if sepolia then "rpc.sepolia.ethpandaops.io:443" else "lb.drpc.org:443".

(** The bytes before the first [\r\n]: [windows(2).position(..)]. *)
Fixpoint first_line (request : list byte) : option (list byte) :=
  match request with
  | a :: ((b :: _) as rest) =>
      if bool_decide ([a; b] = CRLF) then Some [] else cons a <$> first_line rest
  | _ => None
  end.
Definition ends_with (suffix l : list byte) : bool :=
  (length suffix <=? length l)%nat && bool_decide (drop (length l - length suffix) l = suffix).

Definition connect_proxy_port (sepolia : bool) (request : list byte) : option N :=
  if (4096 <? N.of_nat (length request)) || negb (ends_with (CRLF ++ CRLF) request) then None
  else
    line ← first_line request;
    if bool_decide (line = kms_connect) then Some 9001
    else if bool_decide (line = as_bytes ("CONNECT " +:+ settlement_rpc_authority sepolia +:+ " HTTP/1.1"))
    then Some 9002 else None.

Inductive WireError := WireIo | TooLarge | WireInvalidJson.

(** A frame: the length in four bytes, most significant first, and the text.  The
    stream is the list of bytes still to be read; [read_exact] fails at its end. *)
Definition u32_max : N := 2 ^ 32 - 1.
Definition write_frame {T} (to_vec : T → option (list byte)) (value : T) (max_bytes : N) :
    outcome WireError (list byte) :=
  bytes ← ok_or (to_vec value) WireInvalidJson;
  let len := N.of_nat (length bytes) in
  _ ← bail_if ((len =? 0) || (max_bytes <? len) || (u32_max <? len)) TooLarge;
  Ok (be_bytes 4 len ++ bytes).
Definition read_exact (n : nat) (stream : list byte) : outcome WireError (list byte * list byte) :=
  if (n <=? length stream)%nat then Ok (take n stream, drop n stream) else Err WireIo.
Definition read_frame {T} (from_slice : list byte → option T) (max_bytes : N) (stream : list byte) :
    outcome WireError (T * list byte) :=
  '(prefix, stream) ← read_exact 4 stream;
  let len := from_bytes_be prefix in
  _ ← bail_if ((len =? 0) || (max_bytes <? len)) TooLarge;
  '(bytes, stream) ← read_exact (N.to_nat len) stream;
  value ← ok_or (from_slice bytes) WireInvalidJson;
  Ok (value, stream).

(** *** Signatures *)

Record EthereumSignature := mkEthereumSignature {
  es_digest : string;
  es_signer : string;
  es_signature : string
}.
Inductive SigningError := InvalidPrivateKey | InvalidDigest | InvalidRecoveryId.

Section Signing.
Context `{HexCrate, Sha3Crate, K256Crate}.

Definition hex0x (l : list byte) : string := "0x" +:+ hex_encode l.
Definition address_of_key (key : signing_key) : string :=
  hex0x (drop 12 (array_val (keccak256 (drop 1 (uncompressed_public_key key))))).
Definition ethereum_address (private_key : list byte) : outcome SigningError string :=
  key ← ok_or (signing_key_from_slice private_key) InvalidPrivateKey;
  Ok (address_of_key key).

Definition sign_digest (private_key digest : list byte) : outcome SigningError EthereumSignature :=
  digest ← ok_or (try_array 32 digest) InvalidDigest;
  key ← ok_or (signing_key_from_slice private_key) InvalidPrivateKey;
  '(signature, (y_odd, x_reduced)) ← ok_or (sign_prehash_recoverable key digest) InvalidDigest;
  let '(signature, y_odd) := match normalize_s signature with
                             | Some normalized => (normalized, negb y_odd)
                             | None => (signature, y_odd)
                             end in
  _ ← bail_if x_reduced InvalidRecoveryId;
  let bytes := signature_to_bytes signature ++ [if (y_odd : bool) then x1c else x1b] in
  signer ← ethereum_address private_key;
  Ok (mkEthereumSignature (hex0x (array_val digest)) signer (hex0x bytes)).
End Signing.

(** *** Attested artifacts *)

Inductive ArtifactError := ArtifactInvalid | ArtifactMismatch.
Inductive AttestedDigestKind := DigestSettlement | DigestIncidentOpen.

Section Artifact.
Context `{HexCrate}.

Definition text_at {E} (object : Value) (name : string) (e : E) : outcome E string :=
  ok_or (as_str (at_key object name)) e.
(** [hex::decode_to_slice] into 32 bytes. *)
Definition decode_32 (digits : string) : option (array 32) := hex_decode digits ≫= try_array 32.

Definition attested_text (object : Value) (expected : AttestedDigestKind) : option string :=
  match expected, as_str (at_key object "settlementDigest"), as_str (at_key object "openDigest") with
  | DigestSettlement, Some digest, None => Some digest
  | DigestIncidentOpen, None, Some digest =>
      if bool_decide (as_str (at_key object "artifactType") = Some "incidentOpen") then Some digest else None
  | _, _, _ => None
  end.

Definition extract_attested_digest (artifact : Value) (expected : AttestedDigestKind) :
    outcome ArtifactError (array 32) :=
  _ ← ok_or (as_object artifact) ArtifactInvalid;
  let version := match expected with DigestSettlement => 2 | DigestIncidentOpen => 1 end in
  _ ← bail_if (negb (bool_decide (as_u64 (at_key artifact "schemaVersion") = Some version)))
        ArtifactInvalid;
  digest ← ok_or (attested_text artifact expected) ArtifactInvalid;
  nitro ← text_at artifact "nitroAttestedDigest" ArtifactInvalid;
  _ ← bail_if (negb (eq_ignore_ascii_case digest nitro)) ArtifactMismatch;
  pcr ← text_at artifact "teePcrHash" ArtifactInvalid;
  measured ← text_at artifact "measuredTeePcrHash" ArtifactInvalid;
  _ ← bail_if (negb (eq_ignore_ascii_case pcr measured)) ArtifactMismatch;
  document ← text_at artifact "nitroAttestationDocument" ArtifactInvalid;
  document ← ok_or (strip_prefix "0x" document) ArtifactInvalid;
  _ ← bail_if (str_is_empty document || negb (N.even (str_len document)) ||
               negb (str_all is_ascii_hexdigit document)) ArtifactInvalid;
  digest ← ok_or (strip_prefix "0x" digest) ArtifactInvalid;
  ok_or (decode_32 digest) ArtifactInvalid.
End Artifact.

(** *** Requests and identifiers *)

Section Ids.
Context `{HexCrate, HmacCrate, Sha2Crate, JobJson}.
(** [cfg!(feature = "sepolia")]. *)
Context (sepolia : bool).

Definition canonicalize_request (body : list byte) (configured_registry : string) :
    outcome ProtocolError CanonicalRequest :=
  incident_id ← ok_or (settlement_api_from_slice body) InvalidJson;
  _ ← validate_incident_id incident_id;
  registry ← normalize_registry configured_registry;
  Ok (SettlementRequest (mkCanonicalSettlementRequest incident_id registry)).
Definition canonicalize_open_request (body : list byte) (configured_registry : string) :
    outcome ProtocolError CanonicalRequest :=
  insured_token ← ok_or (open_api_from_slice body) InvalidJson;
  insured_token ← map_err (fun _ => InvalidInsuredToken) (normalize_address insured_token);
  registry ← normalize_registry configured_registry;
  Ok (OpenRequest (mkCanonicalOpenRequest insured_token registry)).

Definition configured_chain_id : N := if sepolia then 11155111 else 1.
Definition WORK_DOMAIN : list byte := as_bytes "USD8_CANONICAL_WORK_V1" ++ [x00].
Definition canonical_work_id (request : CanonicalRequest) (configured_module : string) :
    outcome ServiceError string :=
  module ← map_err (fun _ => InvalidRequest) (normalize_address configured_module);
  Ok (hex_encode (array_val (sha256 (WORK_DOMAIN ++ be_bytes 8 configured_chain_id ++
        as_bytes module ++ canonical_to_vec request)))).

Definition is_key_char (c : ascii) : bool :=
  is_ascii_digit c || in_range 65 90 c || in_range 97 122 c ||
  bool_decide (c ∈ ["-"; "."; "_"; ":"]%char).
Definition request_commitment (canonical_request : list byte) : list byte :=
  take 16 (array_val (sha256 (REQUEST_COMMITMENT_DOMAIN ++ canonical_request))).

Definition derive_job_id (secret : list byte) (idempotency_key : string) (request : CanonicalRequest) :
    outcome ProtocolError string :=
  _ ← bail_if (length secret <? 32)%nat WeakSecret;
  _ ← bail_if (str_is_empty idempotency_key || (128 <? str_len idempotency_key) ||
               negb (str_all is_key_char idempotency_key)) InvalidIdempotencyKey;
  let canonical := canonical_to_vec request in
  mac ← ok_or (hmac_new secret) WeakSecret;
  let opaque := hmac_finalize mac (JOB_ID_DOMAIN ++ as_bytes idempotency_key ++ [x00] ++ canonical) in
  Ok (hex_encode (take 16 (array_val opaque)) +:+ hex_encode (request_commitment canonical)).

Definition verify_job_request_binding (job_id : string) (request : CanonicalRequest) :
    outcome ProtocolError unit :=
  _ ← JobPaths_new job_id;
  let expected := request_commitment (canonical_to_vec request) in
  encoded ← ok_or (hex_decode job_id) InvalidJobId;
  bail_if (negb (bool_decide (drop 16 encoded = expected))) InvalidJobId.

Definition stored_request_is_live (request : StoredRequest) (now : N) : bool :=
  (stq_schema_version request =? STORED_REQUEST_SCHEMA_VERSION) &&
  (stq_created_at request <? stq_expires_at request) && (now <=? stq_expires_at request) &&
  is_ok (JobPaths_new (stq_job_id request)) &&
  is_ok (verify_job_request_binding (stq_job_id request) (stq_request request)).
End Ids.

(** *** Settlement locators *)

Record SettlementLocator := mkSettlementLocator {
  loc_chain_id : N;
  loc_registry : string;
  loc_defi_insurance : string;
  loc_incident_id : string;
  loc_root : string
}.
#[export] Instance SettlementLocator_eq_dec : EqDecision SettlementLocator.
Proof. solve_decision. Defined.

Definition SettlementLocator_new (chain_id : N) (registry defi_insurance incident_id root : string) :
    outcome ProtocolError SettlementLocator :=
  _ ← bail_if (chain_id =? 0) InvalidChainId;
  _ ← validate_incident_id incident_id;
  registry ← normalize_registry registry;
  defi_insurance ← map_err (fun _ => InvalidDefiInsurance) (normalize_address defi_insurance);
  root_hex ← ok_or (strip_prefix "0x" root) InvalidSettlementRoot;
  _ ← bail_if (negb (str_len root_hex =? 64) || negb (str_all is_ascii_hexdigit root_hex) ||
               str_all is_zero_digit root_hex) InvalidSettlementRoot;
  Ok (mkSettlementLocator chain_id registry defi_insurance incident_id
        ("0x" +:+ to_ascii_lowercase root_hex)).

Definition locator_path (version : string) (self : SettlementLocator) : string :=
  "settlements/" +:+ version +:+ "/" +:+ to_decimal (loc_chain_id self) +:+ "/" +:+ loc_registry self +:+
  "/" +:+ loc_defi_insurance self +:+ "/" +:+ loc_incident_id self +:+ "/" +:+ loc_root self +:+ ".json".
Definition locator_key : SettlementLocator → string := locator_path "v2".

Section Locators.
Context `{HexCrate}.

(** A field of the artifact, an error when it is missing or of another type. *)
Definition stored_str (object : Value) (name : string) : outcome ServiceError string :=
  ok_or (as_str (at_key object name)) InvalidStoredResult.
Definition stored_0x (object : Value) (name : string) : outcome ServiceError string :=
  ok_or (value ← as_str (at_key object name); strip_prefix "0x" value) InvalidStoredResult.
Definition invalid_stored {E A} : outcome E A → outcome ServiceError A :=
  map_err (fun _ => InvalidStoredResult).

Definition locator_of_artifact (terminal : TerminalEnvelope) (artifact : Value)
    (configured_registry : string) : outcome ServiceError SettlementLocator :=
  attested_digest ← invalid_stored (extract_attested_digest artifact DigestSettlement);
  payload_digest ← stored_0x (te_payload terminal) "digest";
  payload_digest ← ok_or (decode_32 payload_digest) InvalidStoredResult;
  _ ← bail_if (negb (bool_decide (payload_digest = attested_digest))) InvalidStoredResult;
  signature ← stored_0x (te_payload terminal) "signature";
  _ ← bail_if (negb (str_len signature =? 130) || negb (str_all is_ascii_hexdigit signature))
        InvalidStoredResult;
  signer ← stored_str (te_payload terminal) "signer";
  _ ← invalid_stored (normalize_address signer);
  chain_id ← ok_or (as_u64 (at_key artifact "chainId")) InvalidStoredResult;
  registry ← stored_str artifact "registry";
  defi_insurance ← stored_str artifact "defiInsurance";
  incident_id ← stored_str artifact "incidentId";
  root ← stored_str artifact "root";
  locator ← invalid_stored (SettlementLocator_new chain_id registry defi_insurance incident_id root);
  configured_registry ← map_err (fun _ => InvalidRequest) (normalize_registry configured_registry);
  _ ← bail_if (negb (String.eqb (loc_registry locator) configured_registry)) InvalidStoredResult;
  Ok locator.

Definition settlement_locator_from_terminal (terminal : TerminalEnvelope)
    (configured_registry : string) : outcome ServiceError (option SettlementLocator) :=
  match te_status terminal with
  | Failed => Ok None
  | Completed =>
      match get "artifact" (te_payload terminal) with
      | None => Ok None
      | Some artifact =>
          match get "root" artifact with
          | None => Ok None
          | Some _ =>
              locator ← locator_of_artifact terminal artifact configured_registry; Ok (Some locator)
          end
      end
  end.
End Locators.

(** *** Launching a worker *)

Definition valid_capability_url (value : string) : bool :=
  (str_len value <=? 4096) && starts_with "https://" value &&
  str_all (fun c => negb (in_range 0 31 c) && negb (in_range 127 127 c)) value.
Definition is_label_char (c : ascii) : bool :=
  in_range 97 122 c || is_ascii_digit c || Ascii.eqb c "-"%char.
Definition is_alphanumeric (c : ascii) : bool :=
  is_ascii_digit c || in_range 65 90 c || in_range 97 122 c.
Definition valid_dns_label (value : string) (min max : N) : bool :=
  (min <=? str_len value) && (str_len value <=? max) && str_all is_label_char value &&
  match String.get 0 value with Some c => is_alphanumeric c | None => false end &&
  match String.get (String.length value - 1) value with Some c => is_alphanumeric c | None => false end.

Record LaunchTemplate := mkLaunchTemplate { lt_region : string }.
Record WorkerCapabilities := mkWorkerCapabilities {
  wc_request_get_url : string;
  wc_signer_get_url : string;
  wc_drpc_get_url : string;
  wc_terminal_put_url : string
}.
Definition LaunchTemplate_new (region : string) : outcome ServiceError LaunchTemplate :=
  _ ← bail_if (negb (valid_dns_label region 3 32)) InvalidRequest;
  Ok (mkLaunchTemplate region).

Definition newline : string := String (ascii_of_nat 10) "".
Definition lines_of (lines : list string) : string :=
  foldr (fun line text => line +:+ newline +:+ text) "" lines.
Definition quote : string := "'".

Section Launch.
Context `{HexCrate}.
Definition url_line (name url : string) : string := name +:+ "=" +:+ hex_encode (as_bytes url).
Definition launch_script (region job_id : string) (capabilities : WorkerCapabilities) : string :=
  lines_of
    ["#!/bin/bash"; "set -euo pipefail"; "umask 077"; "install -d -m 0700 /run/usd8";
     "cat > /run/usd8/job.env <<" +:+ quote +:+ "USD8_JOB_ENV" +:+ quote;
     "USD8_JOB_ID=" +:+ job_id; "AWS_REGION=" +:+ region;
     url_line "USD8_REQUEST_GET_URL_HEX" (wc_request_get_url capabilities);
     url_line "USD8_SIGNER_GET_URL_HEX" (wc_signer_get_url capabilities);
     url_line "USD8_DRPC_GET_URL_HEX" (wc_drpc_get_url capabilities);
     url_line "USD8_TERMINAL_PUT_URL_HEX" (wc_terminal_put_url capabilities);
     "USD8_JOB_ENV"; "chmod 0600 /run/usd8/job.env"; "systemctl start usd8-tee-job.service"].

Definition user_data (self : LaunchTemplate) (job_id : string) (capabilities : WorkerCapabilities) :
    outcome ServiceError string :=
  _ ← map_err (fun _ => InvalidRequest) (JobPaths_new job_id);
  let request_path := "/requests/" +:+ job_id +:+ ".json" in
  let terminal_path := "/terminal/" +:+ job_id +:+ ".json" in
  _ ← bail_if (negb (valid_capability_url (wc_request_get_url capabilities)) ||
               negb (valid_capability_url (wc_signer_get_url capabilities)) ||
               negb (valid_capability_url (wc_drpc_get_url capabilities)) ||
               negb (valid_capability_url (wc_terminal_put_url capabilities)) ||
               negb (str_contains request_path (wc_request_get_url capabilities)) ||
               negb (str_contains terminal_path (wc_terminal_put_url capabilities))) InvalidRequest;
  let script := launch_script (lt_region self) job_id capabilities in
  _ ← bail_if (16 * 1024 <? str_len script) InvalidRequest;
  Ok script.
End Launch.


(* ------------------------------------------------------------------ *)
(** ** Helper lemmas: characters *)

Lemma str_all_app p a b : str_all p (a +:+ b) = str_all p a && str_all p b.
Proof.
  induction a as [|c a IH]; [done|].
  change (p c && str_all p (a +:+ b) = p c && str_all p a && str_all p b). by rewrite IH, andb_assoc.
Qed.
Lemma str_all_impl (p q : ascii → bool) s : (∀ c, p c = true → q c = true) →
  str_all p s = true → str_all q s = true.
Proof.
  intros Hpq. induction s as [|c s IH]; [done|]. cbn. rewrite !andb_true_iff. intros [??]. auto.
Qed.

Lemma lower_hex_char c : is_ascii_hexdigit c = true → is_ascii_hexdigit (ascii_lowercase c) = true ∧
  is_lower_hex (ascii_lowercase c) = true.
Proof. destruct c as [[][][][][][][][]]; vm_compute; done. Qed.
Lemma lower_hex s : str_all is_ascii_hexdigit s = true → str_all is_lower_hex (to_ascii_lowercase s) = true.
Proof.
  unfold to_ascii_lowercase. induction s as [|c s IH]; [done|]. cbn. rewrite !andb_true_iff.
  intros [Hc Hs]. split; [by apply lower_hex_char|by apply IH].
Qed.
(** Splitting at a separator that the left parts do not contain. *)
Lemma app_separator c a b x y : str_all (fun d => negb (Ascii.eqb d c)) a = true →
  str_all (fun d => negb (Ascii.eqb d c)) b = true → a +:+ String c x = b +:+ String c y → a = b ∧ x = y.
Proof.
  revert b. induction a as [|d a IH]; intros [|e b]; cbn; rewrite ?andb_true_iff; intros Ha Hb.
  - by intros [= ->].
  - intros [= <- _]. destruct Hb as [Hb _]. by rewrite Ascii.eqb_refl in Hb.
  - intros [= -> _]. destruct Ha as [Ha _]. by rewrite Ascii.eqb_refl in Ha.
  - intros [= -> E]. destruct Ha as [_ Ha], Hb as [_ Hb]. by destruct (IH b Ha Hb E) as [-> ->].
Qed.

Section HexText.
Context `{HexLaws}.
Lemma hex_encode_hexdigits l : str_all is_ascii_hexdigit (hex_encode l) = true.
Proof. eapply hex_decode_digits. apply hex_decode_encode. Qed.
Lemma hex_encode_is_lower l : str_all is_lower_hex (hex_encode l) = true.
Proof. rewrite <-hex_encode_lower. apply lower_hex, hex_encode_hexdigits. Qed.
End HexText.

(* ------------------------------------------------------------------ *)
(** ** Helper lemmas: identifiers and locators *)

Lemma JobPaths_new_ok job_id paths : JobPaths_new job_id = Ok paths ↔
  str_len job_id = 64 ∧ str_all is_lower_hex job_id = true ∧
  paths = mkJobPaths ("requests/" +:+ job_id +:+ ".json") ("terminal/" +:+ job_id +:+ ".json").
Proof.
  unfold JobPaths_new. rewrite bind_ok. setoid_rewrite bail_if_ok. setoid_rewrite orb_false_iff.
  setoid_rewrite negb_false_iff. setoid_rewrite N.eqb_eq. split.
  - by intros (_ & [? ?] & [= <-]).
  - intros (? & ? & ->). by exists tt.
Qed.

Section IdFacts.
Context `{HexLaws, HmacCrate, Sha2Crate, JobJson}.

Lemma derived_job_id secret key request job_id : derive_job_id secret key request = Ok job_id →
  ∃ opaque, length opaque = 16%nat ∧
    job_id = hex_encode (opaque ++ request_commitment (canonical_to_vec request)).
Proof.
  unfold derive_job_id. cbn zeta. intros (? & _ & (? & _ & (mac & _ & <-%(inj Ok))%bind_ok)%bind_ok)%bind_ok.
  eexists. split; [|by rewrite hex_encode_app]. rewrite length_take, array_length. done.
Qed.

Lemma request_commitment_length canonical : length (request_commitment canonical) = 16%nat.
Proof. unfold request_commitment. by rewrite length_take, array_length. Qed.

Lemma binding_of_encoded opaque request : length opaque = 16%nat →
  verify_job_request_binding (hex_encode (opaque ++ request_commitment (canonical_to_vec request))) request
    = Ok tt ∧
  ∀ other, verify_job_request_binding
    (hex_encode (opaque ++ request_commitment (canonical_to_vec request))) other = Ok tt →
    request_commitment (canonical_to_vec other) = request_commitment (canonical_to_vec request).
Proof.
  intros Hlen. set (bytes := opaque ++ request_commitment (canonical_to_vec request)).
  assert (drop 16 bytes = request_commitment (canonical_to_vec request)) as Hdrop
    by (unfold bytes; by rewrite drop_app_length').
  assert (∃ paths, JobPaths_new (hex_encode bytes) = Ok paths) as [paths Hpaths].
  { eexists. apply JobPaths_new_ok. split; [|split; [apply hex_encode_is_lower|done]].
    rewrite hex_encode_len. unfold bytes. by rewrite length_app, request_commitment_length, Hlen. }
  unfold verify_job_request_binding. rewrite Hpaths. cbn [mbind outcome_bind].
  rewrite hex_decode_encode. cbn [ok_or mbind outcome_bind]. rewrite Hdrop. split.
  - by rewrite bool_decide_true.
  - intros other Hb%bail_if_ok%negb_false_iff%bool_decide_eq_true. done.
Qed.
End IdFacts.

(** Text that is one component of a path. *)
Definition no_slash (s : string) : bool := str_all (fun c => negb (Ascii.eqb c "/")) s.

Lemma lower_hex_no_slash s : str_all is_lower_hex s = true → no_slash s = true.
Proof. apply str_all_impl. intros [[][][][][][][][]]; vm_compute; done. Qed.
Lemma digits_no_slash s : str_all is_ascii_digit s = true → no_slash s = true.
Proof. apply str_all_impl. intros [[][][][][][][][]]; vm_compute; done. Qed.
Lemma to_decimal_no_slash n : no_slash (to_decimal n) = true.
Proof.
  apply digits_no_slash. pose proof (to_decimal_canonical n) as Hc. unfold canonical_decimal in Hc.
  by apply andb_prop in Hc as [_ ?].
Qed.

Lemma normalize_address_ok value out : normalize_address value = Ok out →
  ∃ digits, out = "0x" +:+ digits ∧ str_len digits = 40 ∧ str_all is_lower_hex digits = true.
Proof.
  unfold normalize_address. intros (hex & _ & (? & Hb%bail_if_ok & (? & _ & <-%(inj Ok))%bind_ok)%bind_ok)%bind_ok.
  apply orb_false_iff in Hb as [Hl%negb_false_iff%N.eqb_eq Hh%negb_false_iff].
  exists (to_ascii_lowercase hex). split; [done|]. split; [by rewrite str_len_lowercase|by apply lower_hex].
Qed.

Lemma locator_new_ok chain registry defi incident root loc :
  SettlementLocator_new chain registry defi incident root = Ok loc →
  no_slash (loc_registry loc) = true ∧ no_slash (loc_defi_insurance loc) = true ∧
  no_slash (loc_incident_id loc) = true ∧ no_slash (loc_root loc) = true.
Proof.
  unfold SettlementLocator_new.
  intros (? & _ & ([] & Hv%bail_if_ok & (reg & Hr & (ins & Hd & Hs)%bind_ok)%bind_ok)%bind_ok)%bind_ok.
  apply bind_ok in Hs as (hex & _ & Hs). apply bind_ok in Hs as (? & Hb%bail_if_ok & <-%(inj Ok)).
  cbn [loc_registry loc_defi_insurance loc_incident_id loc_root].
  assert (∀ digits, str_all is_lower_hex digits = true → no_slash ("0x" +:+ digits) = true) as H0x
    by (intros digits ?; change (no_slash digits = true); by apply lower_hex_no_slash).
  apply map_err_ok in Hr, Hd.
  apply normalize_address_ok in Hr as (hr & -> & _ & Hx), Hd as (hd & -> & _ & Hy).
  apply orb_false_iff in Hb as [[_ Hh%negb_false_iff]%orb_false_iff _].
  apply orb_false_iff in Hv as [Hv _]. apply orb_false_iff in Hv as [Hv _].
  apply orb_false_iff in Hv as [_ Hdig%negb_false_iff].
  split; [by apply H0x|]. split; [by apply H0x|]. split; [by apply digits_no_slash|].
  apply H0x. by apply lower_hex.
Qed.

(** *** Decimal values *)

Fixpoint decimal_from (value : N) (s : string) : N :=
  match s with "" => value | String c s => decimal_from (value * 10 + (N_of_ascii c - 48)) s end.
(** The number a text of digits denotes. *)
Definition decimal_value : string → N := decimal_from 0.
Definition uint256_max : N := 2 ^ 256 - 1.

Lemma decimal_from_spec s : ∀ v, decimal_from v s = v * 10 ^ str_len s + decimal_value s.
Proof.
  unfold decimal_value, str_len. induction s as [|c s IH]; intros v; cbn [decimal_from String.length].
  - cbn. lia.
  - rewrite IH, (IH (0 * 10 + _)), Nat2N.inj_succ, N.pow_succ_r'. nia.
Qed.
Lemma decimal_value_cons c s :
  decimal_value (String c s) = (N_of_ascii c - 48) * 10 ^ str_len s + decimal_value s.
Proof. unfold decimal_value at 1. cbn [decimal_from]. rewrite decimal_from_spec. lia. Qed.
Lemma decimal_value_lt s : str_all is_ascii_digit s = true → decimal_value s < 10 ^ str_len s.
Proof.
  induction s as [|c s IH]; [by intros|]. cbn [str_all]. intros [Hc Hs%IH]%andb_prop.
  rewrite decimal_value_cons. unfold is_ascii_digit, in_range in Hc.
  apply andb_prop in Hc as [?%N.leb_le ?%N.leb_le].
  assert (str_len (String c s) = N.succ (str_len s)) as -> by (unfold str_len; cbn [String.length]; lia).
  rewrite N.pow_succ_r'. nia.
Qed.

(** Texts of digits of one length are ordered as their values. *)
Lemma digits_compare a : ∀ b, str_len a = str_len b → str_all is_ascii_digit a = true →
  str_all is_ascii_digit b = true → String.compare a b = N.compare (decimal_value a) (decimal_value b).
Proof.
  induction a as [|c a IH]; intros [|d b]; unfold str_len in *; cbn [String.length]; try (intros; lia); [done|].
  intros Hl. cbn [str_all]. intros [Hc Ha]%andb_prop [Hd Hb]%andb_prop.
  assert (str_len a = str_len b) as Hl' by (unfold str_len; lia).
  rewrite !decimal_value_cons, <-Hl'. cbn [String.compare].
  pose proof (decimal_value_lt a Ha) as Hva. pose proof (decimal_value_lt b Hb) as Hvb. rewrite <-Hl' in Hvb.
  unfold is_ascii_digit, in_range in Hc, Hd.
  apply andb_prop in Hc as [?%N.leb_le ?%N.leb_le], Hd as [?%N.leb_le ?%N.leb_le].
  unfold Ascii.compare. destruct (N.compare_spec (N_of_ascii c) (N_of_ascii d)) as [E|E|E].
  - rewrite E, IH by (done || lia). symmetry.
    destruct (N.compare_spec (decimal_value a) (decimal_value b));
      [apply N.compare_eq_iff|apply N.compare_lt_iff|apply N.compare_gt_iff]; lia.
  - symmetry. apply N.compare_lt_iff.
    apply N.lt_le_trans with ((N_of_ascii c - 48 + 1) * 10 ^ str_len a); nia.
  - symmetry. apply N.compare_gt_iff.
    apply N.lt_le_trans with ((N_of_ascii d - 48 + 1) * 10 ^ str_len a); nia.
Qed.

Lemma max_uint256_value : decimal_value MAX_UINT256 = uint256_max.
Proof. vm_compute. reflexivity. Qed.

(** The texts accepted, with the largest number as a parameter. *)
Lemma incident_id_cases limit value (max : string) : str_len max = 78 → decimal_value max = limit →
  str_all is_ascii_digit max = true → 10 ^ 77 ≤ limit → limit < 10 ^ 78 →
  canonical_decimal value = true →
  (78 <? str_len value) = false ∧ (str_len value =? 78) && str_ltb max value = false ↔
  decimal_value value ≤ limit.
Proof.
  intros Hmax Hlimit Hdigits Hlo Hhi Hcan. unfold canonical_decimal in Hcan.
  apply andb_prop in Hcan as [Hcan Hd]. apply andb_prop in Hcan as [Hne Hlead].
  pose proof (decimal_value_lt value Hd) as Hv.
  assert (78 < str_len value → limit < decimal_value value) as Hlong.
  { intros Hbig. destruct value as [|c s]; [discriminate Hne|]. rewrite decimal_value_cons.
    assert (str_len (String c s) = N.succ (str_len s)) as Hsucc by (unfold str_len; cbn [String.length]; lia).
    assert (10 ^ 78 ≤ 10 ^ str_len s) by (apply N.pow_le_mono_r; lia).
    cbn [str_all] in Hd. apply andb_prop in Hd as [Hc _].
    unfold is_ascii_digit, in_range in Hc. apply andb_prop in Hc as [?%N.leb_le ?%N.leb_le].
    assert (N_of_ascii c ≠ 48) as Hn0; [|nia]. intros Hc0.
    assert (c = "0"%char) as -> by (rewrite <-(ascii_N_embedding c), Hc0; reflexivity).
    apply negb_true_iff, andb_false_iff in Hlead as [Hlead%N.ltb_ge|Hlead]; [lia|].
    cbn [starts_with String.prefix] in Hlead. by destruct s. }
  rewrite N.ltb_ge. destruct (N.eqb_spec (str_len value) 78) as [E|E]; cbn [andb].
  - unfold str_ltb. rewrite digits_compare by (rewrite ?Hmax; done). rewrite Hlimit, E.
    clear. destruct (N.compare_spec limit (decimal_value value)); split;
      intros Hc; try destruct Hc as [_ Hc]; try split; first [lia|reflexivity|discriminate Hc].
  - split; [|intros Hle; split; [|reflexivity]].
    + intros [Hle _]. assert (10 ^ str_len value ≤ 10 ^ 77) by (apply N.pow_le_mono_r; lia). lia.
    + destruct (N.le_gt_cases (str_len value) 78) as [|Hbig%Hlong]; lia.
Qed.

Lemma incident_id_accepted value : validate_incident_id value = Ok tt ↔
  canonical_decimal value = true ∧ decimal_value value ≤ uint256_max.
Proof.
  assert (validate_incident_id value = Ok tt ↔ canonical_decimal value = true ∧
    (78 <? str_len value) = false ∧ (str_len value =? 78) && str_ltb MAX_UINT256 value = false) as ->.
  { unfold validate_incident_id, canonical_decimal. change (str_len MAX_UINT256) with 78.
    rewrite bail_if_ok, !orb_false_iff, !andb_true_iff, !negb_true_iff, negb_false_iff. tauto. }
  assert (canonical_decimal value = true →
    (78 <? str_len value) = false ∧ (str_len value =? 78) && str_ltb MAX_UINT256 value = false ↔
    decimal_value value ≤ uint256_max) as Hcases.
  { apply incident_id_cases; [vm_compute; reflexivity|exact max_uint256_value|vm_compute; reflexivity|
      vm_compute; discriminate|vm_compute; reflexivity]. }
  clear -Hcases. generalize dependent uint256_max. intros limit Hcases.
  split; intros [Hc Hx]; (split; [exact Hc|]); by apply (Hcases Hc).
Qed.


Lemma str_app_cancel_r a b c : a +:+ c = b +:+ c → a = b.
Proof.
  intros E. assert (String.length a = String.length b) as Hl.
  { apply (f_equal String.length) in E. rewrite !str_app_length in E. lia. }
  revert b E Hl. induction a as [|x a IH]; intros [|y b]; autorewrite with str; cbn [String.length]; try done.
  intros [= -> E] [= Hl]. f_equal. by apply IH.
Qed.

(** *** Reading *)

Lemma read_exact_app n (a b : list byte) : length a = n → read_exact n (a ++ b) = Ok (a, b).
Proof.
  intros <-. unfold read_exact. rewrite (proj2 (Nat.leb_le _ _)) by (rewrite length_app; lia).
  by rewrite take_app_length, drop_app_length.
Qed.
Lemma read_exact_short n (s : list byte) : (length s < n)%nat → read_exact n s = Err WireIo.
Proof. intros Hl. unfold read_exact. by rewrite (proj2 (Nat.leb_gt _ _)). Qed.

(** *** Launch scripts *)

(** No line break and no quote: text that stays on its line of the script. *)
Definition plain_text (s : string) : bool :=
  str_all (fun c => negb (in_range 0 31 c) && negb (in_range 39 39 c)) s.

Lemma lower_hex_plain s : str_all is_lower_hex s = true → plain_text s = true.
Proof. apply str_all_impl. intros [[][][][][][][][]]; vm_compute; done. Qed.
Lemma label_plain s : str_all is_label_char s = true → plain_text s = true.
Proof. apply str_all_impl. intros [[][][][][][][][]]; vm_compute; done. Qed.

Section ScriptFacts.
Context `{HexLaws}.
Lemma url_line_plain name url : plain_text name = true → plain_text (url_line name url) = true.
Proof.
  intros Hn. unfold url_line, plain_text. rewrite str_all_app. fold (plain_text name). rewrite Hn.
  cbn [andb]. change (plain_text (hex_encode (as_bytes url)) = true).
  apply lower_hex_plain, hex_encode_is_lower.
Qed.
Lemma plain_app a b : plain_text a = true → plain_text b = true → plain_text (a +:+ b) = true.
Proof. intros Ha Hb. unfold plain_text in *. by rewrite str_all_app, Ha, Hb. Qed.
End ScriptFacts.

(* ------------------------------------------------------------------ *)
(** ** Theorems *)

(** The incident ids accepted are exactly the canonical decimal texts of the
    numbers below [2^256]: no sign, no leading zero, and the comparison of texts
    with the largest number decides the bound. *)
Theorem validate_incident_id_spec (value : string) :
  (validate_incident_id value = Ok tt ↔
   canonical_decimal value = true ∧ decimal_value value ≤ uint256_max) ∧
  (∀ e, validate_incident_id value = Err e → e = InvalidIncidentId).
Proof.
  split; [apply incident_id_accepted|]. unfold validate_incident_id.
  by intros e [_ ->]%bail_if_err.
Qed.

(** A wire frame that is written reads back, whatever follows it in the stream,
    which is left untouched; a frame cut short is an I/O error and never a value. *)
Theorem frame_roundtrip {T} (to_vec : T → option (list byte)) (from_slice : list byte → option T)
    (value : T) (max_bytes : N) (frame rest : list byte) :
  (∀ v bytes, to_vec v = Some bytes → from_slice bytes = Some v) →
  write_frame to_vec value max_bytes = Ok frame →
  read_frame from_slice max_bytes (frame ++ rest) = Ok (value, rest) ∧
  ∀ cut, (cut < length frame)%nat → read_frame from_slice max_bytes (take cut frame) = Err WireIo.
Proof.
  intros Hround. unfold write_frame. intros (bytes & Hv%ok_or_ok & Hw)%bind_ok. cbn zeta in Hw.
  apply bind_ok in Hw as (? & Hb%bail_if_ok & <-%(inj Ok)).
  apply orb_false_iff in Hb as [[Hz Hm]%orb_false_iff Hu%N.ltb_ge].
  set (len := N.of_nat (length bytes)) in *. set (prefix := be_bytes 4 len).
  assert (length prefix = 4%nat) as Hp by apply length_be_bytes.
  assert (from_bytes_be prefix = len) as Hlen.
  { unfold prefix. rewrite from_be_bytes. apply N.mod_small. unfold u32_max in Hu.
    change (256 ^ N.of_nat 4) with (2 ^ 32). lia. }
  unfold read_frame. split.
  - rewrite <-app_assoc, (read_exact_app 4 prefix) by done. cbn [mbind outcome_bind]. cbn zeta.
    rewrite Hlen, Hz, Hm. cbn [orb bail_if mbind outcome_bind].
    rewrite read_exact_app by (unfold len; by rewrite Nat2N.id). cbn [mbind outcome_bind].
    by rewrite (Hround _ _ Hv).
  - intros cut Hcut. rewrite length_app, Hp in Hcut. destruct (Nat.le_gt_cases 4 cut) as [H4|H4].
    + rewrite take_app_ge by (by rewrite Hp). rewrite Hp, (read_exact_app 4 prefix) by done.
      cbn [mbind outcome_bind]. cbn zeta. rewrite Hlen, Hz, Hm. cbn [orb bail_if mbind outcome_bind].
      rewrite read_exact_short; [done|]. rewrite length_take. unfold len. lia.
    + rewrite read_exact_short; [done|]. rewrite length_take. lia.
Qed.

(** A job id is bound to its request: the id derived from a request passes the
    binding check of that request, names its two storage paths, and passes the
    check of another request only if two different requests share the 128-bit
    commitment of SHA-256. *)
Theorem job_id_binding `{HexLaws, HmacCrate, Sha2Crate, JobJsonLaws} (secret : list byte)
    (key : string) (request : CanonicalRequest) (job_id : string) :
  derive_job_id secret key request = Ok job_id →
  verify_job_request_binding job_id request = Ok tt ∧ is_ok (JobPaths_new job_id) = true ∧
  ∀ other, verify_job_request_binding job_id other = Ok tt → other ≠ request →
    canonical_to_vec other ≠ canonical_to_vec request ∧
    request_commitment (canonical_to_vec other) = request_commitment (canonical_to_vec request).
Proof.
  intros (opaque & Hl & ->)%derived_job_id.
  destruct (binding_of_encoded opaque request Hl) as [Hv Hother]. split; [exact Hv|]. split.
  - unfold verify_job_request_binding in Hv. apply bind_ok in Hv as (paths & -> & _). done.
  - intros other Ho Hne. split; [|by apply Hother]. intros E. by apply Hne, canonical_to_vec_inj.
Qed.

(** A settlement's storage key names one settlement: two validated locators with
    the same key are equal, so no settlement can be stored or read under another
    chain, registry, module, incident or root. *)
Theorem locator_key_injective (chain chain' : N)
    (registry registry' defi defi' incident incident' root root' : string) (a b : SettlementLocator) :
  SettlementLocator_new chain registry defi incident root = Ok a →
  SettlementLocator_new chain' registry' defi' incident' root' = Ok b →
  locator_key a = locator_key b → a = b.
Proof.
  intros (Ha1 & Ha2 & Ha3 & Ha4)%locator_new_ok (Hb1 & Hb2 & Hb3 & Hb4)%locator_new_ok.
  destruct a as [n1 r1 d1 i1 t1], b as [n2 r2 d2 i2 t2]. unfold locator_key, locator_path.
  cbn [loc_chain_id loc_registry loc_defi_insurance loc_incident_id loc_root] in *.
  intros E. do 3 apply str_app_cancel in E.
  apply app_separator in E as [<-%(inj to_decimal) E]; [|apply to_decimal_no_slash..].
  apply app_separator in E as [<- E]; [|done..]. apply app_separator in E as [<- E]; [|done..].
  apply app_separator in E as [<- E]; [|done..]. apply str_app_cancel_r in E as <-. done.
Qed.

(** A launch script cannot be injected into: the job id, the region and the
    capability URLs, as written, have no line break and no quote, so the script
    has its fourteen lines whatever the inputs are. *)
Theorem user_data_lines `{HexLaws} (self : LaunchTemplate) (region job_id script : string)
    (capabilities : WorkerCapabilities) :
  LaunchTemplate_new region = Ok self → user_data self job_id capabilities = Ok script →
  ∃ lines, script = lines_of lines ∧ length lines = 14%nat ∧
    lines !! 5%nat = Some ("USD8_JOB_ID=" +:+ job_id) ∧ lines !! 6%nat = Some ("AWS_REGION=" +:+ region) ∧
    ∀ i line, lines !! i = Some line → i ≠ 4%nat → plain_text line = true.
Proof.
  unfold LaunchTemplate_new, user_data.
  intros (? & Hr%bail_if_ok%negb_false_iff & <-%(inj Ok))%bind_ok (paths & Hp%map_err_ok & Hs)%bind_ok.
  apply bind_ok in Hs as (? & _ & Hs). apply bind_ok in Hs as (? & _ & <-%(inj Ok)).
  cbn [lt_region]. unfold launch_script. eexists. split; [reflexivity|]. split; [reflexivity|].
  split; [reflexivity|]. split; [reflexivity|].
  apply JobPaths_new_ok in Hp as (_ & Hid%lower_hex_plain & _).
  assert (plain_text region = true) as Hregion.
  { apply label_plain. unfold valid_dns_label in Hr. apply andb_prop in Hr as [Hr _].
    apply andb_prop in Hr as [Hr _]. by apply andb_prop in Hr as [_ ?]. }
  intros i line Hi Hne.
  do 14 (destruct i as [|i]; [injection Hi as <-;
    first [done|by apply plain_app|by apply url_line_plain|reflexivity]|]).
  discriminate Hi.
Qed.


(* ------------------------------------------------------------------ *)
(** ** A reference encoding, used by the evaluated instances *)

Module RefJob.
(** A text is the list of the fields. *)
Definition field : Type := (N + string)%type.
Definition canonical_fields (r : CanonicalRequest) : list field :=
  match r with
  | SettlementRequest r => [inl 0; inr (cs_incident_id r); inr (cs_registry r)]
  | OpenRequest r => [inl 1; inr (co_insured_token r); inr (co_registry r)]
  end.
Definition canonical_of (l : list field) : option CanonicalRequest :=
  match l with
  | [inl 0; inr a; inr b] => Some (SettlementRequest (mkCanonicalSettlementRequest a b))
  | [inl 1; inr a; inr b] => Some (OpenRequest (mkCanonicalOpenRequest a b))
  | _ => None
  end.
#[export] Instance canonical_countable : Countable CanonicalRequest.
Proof. by apply (inj_countable canonical_fields canonical_of); intros [[]|[]]. Defined.
Definition stored_fields (r : StoredRequest) : list field :=
  [inl (stq_schema_version r); inr (stq_job_id r); inl (stq_created_at r); inl (stq_expires_at r)] ++
  canonical_fields (stq_request r).
Definition stored_of (l : list field) : option StoredRequest :=
  match l with
  | inl a :: inr b :: inl c :: inl d :: l => r ← canonical_of l; Some (mkStoredRequest a b r c d)
  | _ => None
  end.
Lemma stored_of_fields r : stored_of (stored_fields r) = Some r.
Proof. by destruct r as [? ? [[]|[]] ? ?]. Qed.
#[export] Instance stored_countable : Countable StoredRequest.
Proof. exact (inj_countable stored_fields stored_of stored_of_fields). Defined.

#[local] Existing Instance RefSerde.Number_eq_dec.
#[local] Existing Instance RefSerde.Number_countable.
#[local] Instance leaf_eq_dec : EqDecision RefSerde.leaf := ltac:(unfold RefSerde.leaf; apply _).
#[local] Instance leaf_countable : Countable RefSerde.leaf := ltac:(unfold RefSerde.leaf; apply _).
Fixpoint value_of (t : gen_tree RefSerde.leaf) : Value :=
  match t with
  | GenLeaf (inl (inl (inl _))) => VNull
  | GenLeaf (inl (inl (inr b))) => VBool b
  | GenLeaf (inl (inr n)) => VNumber n
  | GenLeaf (inr s) => VString s
  | GenNode 0 l => VArray (map value_of l)
  | GenNode _ l => VObject (map (fun t => match t with
                     | GenNode _ [GenLeaf (inr key); t] => (key, value_of t)
                     | _ => ("", VNull)
                     end) l)
  end.
Definition terminal_text (t : TerminalEnvelope) : list byte :=
  RefAbi.write (te_schema_version t, te_job_id t, bool_decide (te_status t = Completed),
                RefSerde.tree_of (te_payload t)).
Definition terminal_read (text : list byte) : option TerminalEnvelope :=
  '(version, job_id, ok, tree) ←
    (RefAbi.read text : option (N * string * bool * gen_tree RefSerde.leaf));
  Some (mkTerminalEnvelope version job_id (if (ok : bool) then Completed else Failed) (value_of tree)).

#[export] Instance job_json : JobJson := {|
  settlement_api_from_slice text := RefAbi.read text;
  open_api_from_slice text := RefAbi.read text;
  canonical_to_vec request := RefAbi.write request;
  stored_to_vec stored := RefAbi.write stored;
  stored_from_slice text := RefAbi.read text;
  terminal_from_slice := terminal_read
|}.
#[export] Instance job_json_laws : JobJsonLaws.
Proof.
  constructor.
  - intros a b E. apply (inj Some). rewrite <-(RefAbi.read_write a), <-(RefAbi.read_write b).
    simpl in E. by rewrite E.
  - intros stored. apply RefAbi.read_write.
Qed.
#[export] Instance sha2_crate : Sha2Crate :=
  {| sha256 bytes := array_of 32 (be_bytes 32 (RefSha3.mix bytes)) |}.
End RefJob.

#[local] Existing Instances RefHex.hex_crate RefHex.hex_laws RefCheckpoint.hmac_crate.
#[local] Existing Instances RefJob.job_json RefJob.job_json_laws RefJob.sha2_crate.

Definition demo_request : CanonicalRequest :=
  SettlementRequest (mkCanonicalSettlementRequest "7" ("0x" +:+ str_repeat 20 "0a")).
Definition demo_secret : list byte := replicate 32 x11.

Example frame_roundtrip_witness :
  ∃ frame, write_frame (T := list byte) Some [x41; x42] 10 = Ok frame ∧
    read_frame Some 10 (frame ++ [x43]) = Ok ([x41; x42], [x43]) ∧
    read_frame (T := list byte) Some 10 (take 5 frame) = Err WireIo.
Proof.
  assert (∃ frame, write_frame (T := list byte) Some [x41; x42] 10 = Ok frame ∧ (5 < length frame)%nat)
    as (frame & E & Hl) by (eexists; split; [vm_compute; reflexivity|vm_compute; lia]).
  exists frame. split; [exact E|].
  destruct (frame_roundtrip Some Some [x41; x42] 10 frame [x43]) as [Hr Hc].
  - intros v bytes Hv. by symmetry.
  - exact E.
  - split; [exact Hr|exact (Hc 5%nat Hl)].
Defined.

Example job_id_binding_witness :
  ∃ job_id, derive_job_id demo_secret "work:0" demo_request = Ok job_id ∧
    verify_job_request_binding job_id demo_request = Ok tt.
Proof.
  assert (∃ job_id, derive_job_id demo_secret "work:0" demo_request = Ok job_id) as [job_id E]
    by (eexists; vm_compute; reflexivity).
  exists job_id. split; [exact E|]. exact (proj1 (job_id_binding demo_secret "work:0" demo_request job_id E)).
Defined.

Example locator_key_injective_witness :
  let address := "0x" +:+ str_repeat 20 "0A" in
  let lower := "0x" +:+ str_repeat 20 "0a" in
  let root := "0x" +:+ str_repeat 32 "1c" in
  ∃ a b, SettlementLocator_new 1 address address "7" root = Ok a ∧
    SettlementLocator_new 1 lower address "7" root = Ok b ∧ a = b.
Proof.
  cbn zeta. eexists _, _. split; [vm_compute; reflexivity|]. split; [vm_compute; reflexivity|].
  eapply (locator_key_injective 1 1 ("0x" +:+ str_repeat 20 "0A") ("0x" +:+ str_repeat 20 "0a")
    ("0x" +:+ str_repeat 20 "0A") ("0x" +:+ str_repeat 20 "0A") "7" "7" ("0x" +:+ str_repeat 32 "1c")
    ("0x" +:+ str_repeat 32 "1c")); vm_compute; reflexivity.
Defined.

Definition demo_capabilities (job_id : string) : WorkerCapabilities :=
  mkWorkerCapabilities ("https://b/requests/" +:+ job_id +:+ ".json") "https://s" "https://d"
    ("https://b/terminal/" +:+ job_id +:+ ".json").

Example user_data_lines_witness :
  let job_id := str_repeat 32 "0a" in
  ∃ self script lines, LaunchTemplate_new "eu-central-1" = Ok self ∧
    user_data self job_id (demo_capabilities job_id) = Ok script ∧ script = lines_of lines ∧
    length lines = 14%nat.
Proof.
  cbn zeta. set (job_id := str_repeat 32 "0a").
  assert (∃ self, LaunchTemplate_new "eu-central-1" = Ok self) as [self Es]
    by (eexists; vm_compute; reflexivity).
  assert (∃ script, user_data self job_id (demo_capabilities job_id) = Ok script) as [script E].
  { apply bind_ok in Es as (? & _ & <-%(inj Ok)). eexists. vm_compute. reflexivity. }
  destruct (user_data_lines self "eu-central-1" job_id script (demo_capabilities job_id) Es E)
    as (lines & Hs & Hl & _).
  exists self, script, lines. split; [exact Es|]. split; [exact E|]. split; [exact Hs|exact Hl].
Defined.
