(* ===== verification/SettlementVerifier.v ===== *)
(** * The settlement verifier ([job-api/src/settlement_verifier.rs], first part)

    The checks of an uploaded settlement before it is published: the candidate's
    internal consistency, the bounded traversal of the RPC evidence, the calldata and
    the call trace of an accepted settlement, and the budget of one verification. *)

From S2P Require Import Prelude Bytes Text Commit Merkle Kernel TypedData Rpc Abi Config Chain ChainConfig Checkpoint CheckpointStore Artifact JobProtocol.
From Stdlib Require Import Strings.Byte Strings.Ascii.

Open Scope string_scope.
Open Scope N_scope.
Open Scope list_scope.

Record PromotionPolicy := mkPromotionPolicy {
  pol_chain_id : N;
  pol_registry : Address;
  pol_defi_insurance : Address
}.
Inductive VerificationError :=
  | Invalid (why : string)
  | VChain (error : ChainError)
  | VRpc (error : RpcError).
#[export] Instance VerificationError_eq_dec : EqDecision VerificationError.
Proof. solve_decision. Defined.

Definition require (ok : bool) (why : string) : outcome VerificationError unit :=
  bail_if (negb ok) (Invalid why).
(** RPC evidence is not the uploaded artifact: its faults are RPC errors. *)
Definition evidence {A} (result : outcome VerificationError A) : outcome VerificationError A :=
  map_err (fun e => match e with
                    | Invalid why => VRpc (InvalidResponse "settlement evidence" why)
                    | other => other
                    end) result.
Definition evidence_require (ok : bool) (why : string) : outcome VerificationError unit :=
  evidence (require ok why).

(** [a? && b? && ...]: later conditions are evaluated after those that hold. *)
Fixpoint all_of {E} (conditions : list (outcome E bool)) : outcome E bool :=
  match conditions with
  | [] => Ok true
  | c :: conditions => b ← c; if (b : bool) then all_of conditions else Ok false
  end.

Definition text (v : Value) : outcome VerificationError string :=
  ok_or (as_str v) (Invalid "expected string").
Definition canonical_uint256 (s : string) : bool :=
  negb (str_is_empty s) && str_all is_ascii_digit s &&
  (String.eqb s "0" || negb (starts_with "0" s)) &&
  ((str_len s <? str_len MAX_UINT256) ||
   ((str_len s =? str_len MAX_UINT256) && negb (str_ltb MAX_UINT256 s))).
(** [decimal::<BigUint>] and [decimal::<u64>]. *)
Definition decimal (v : Value) : outcome VerificationError N :=
  s ← text v;
  _ ← require (canonical_uint256 s) "noncanonical uint256";
  ok_or (biguint_from_str s) (Invalid "integer overflow").
Definition decimal_u64 (v : Value) : outcome VerificationError N :=
  s ← text v;
  _ ← require (canonical_uint256 s) "noncanonical uint256";
  ok_or (n ← biguint_from_str s; if n <=? u64_max then Some n else None) (Invalid "integer overflow").
Definition array_of_values (v : Value) : outcome VerificationError (list Value) :=
  ok_or (as_array v) (Invalid "array").

Record Candidate := mkCandidate {
  cd_input : SettlementDigestInput;
  cd_digest : string;
  cd_signer : Address;
  cd_signature : list byte;
  cd_fee_bps : N;
  cd_reference_block : N
}.

(** [k256]'s signatures and key recovery. *)
Class K256Recover `{K256Crate} := {
  signature_from_slice : list byte → option ecdsa_signature;
  (** The uncompressed key of a digest, a signature and a recovery identifier. *)
  recover_from_prehash : list byte → ecdsa_signature → N → option (list byte)
}.

(** What ECDSA over secp256k1 promises: a signature reads back, its normal form is
    normal and recovers under the other parity, and a signature recovers its key. *)
Definition parity (odd : bool) : N := if odd then 1 else 0.
Class K256Laws `{K256Recover} : Prop := {
  signature_len : ∀ s, length (signature_to_bytes s) = 64%nat;
  signature_round_trip : ∀ s, signature_from_slice (signature_to_bytes s) = Some s;
  normalized_low : ∀ s t, normalize_s s = Some t → normalize_s t = None;
  recover_normalized : ∀ d s t odd key, normalize_s s = Some t →
    recover_from_prehash d s (parity odd) = Some key →
    recover_from_prehash d t (parity (negb odd)) = Some key;
  recover_signed : ∀ key d s odd, sign_prehash_recoverable key d = Some (s, (odd, false)) →
    recover_from_prehash (array_val d) s (parity odd) = Some (uncompressed_public_key key)
}.

Section Verifier.
Context `{HexCrate, Sha3Crate}.

Definition evidence_input (v : Value) : outcome VerificationError string :=
  s ← evidence (text v);
  _ ← evidence_require
        match strip_prefix "0x" s with
        | Some raw => N.even (str_len raw) && str_all is_ascii_hexdigit raw
        | None => false
        end "malformed RPC calldata";
  Ok s.
Definition address (v : Value) : outcome VerificationError Address :=
  s ← text v; ok_or (address_from_str s) (Invalid "address").
Definition bytes_of (v : Value) (size : N) : outcome VerificationError (list byte) :=
  s ← text v;
  raw ← ok_or (strip_prefix "0x" s) (Invalid "hex prefix");
  _ ← require (str_len raw =? size * 2) "hex width";
  ok_or (hex_decode raw) (Invalid "hex encoding").
Definition hash (v : Value) : outcome VerificationError string :=
  bytes ← bytes_of v 32; Ok ("0x" +:+ hex_encode bytes).

(** *** The candidate *)

Definition ZERO_HEX : string := "0x" +:+ str_repeat 32 "00".

Definition digest_input (policy : PromotionPolicy) (artifact : Value) :
    outcome VerificationError SettlementDigestInput :=
  incident_id ← decimal (at_key artifact "incidentId");
  root ← hash (at_key artifact "root");
  unresolved_claims ← decimal (at_key artifact "unresolvedClaims");
  pool_payouts ← array_of_values (at_key artifact "poolPayouts");
  pool_payouts ← mapM decimal pool_payouts;
  pool_addrs ← array_of_values (at_key artifact "poolAddrs");
  pool_addrs ← mapM address pool_addrs;
  claim_set ← hash (at_key artifact "claimSetHash");
  tee_pcr_hash ← hash (at_key artifact "teePcrHash");
  Ok (mkSettlementDigestInput (pol_chain_id policy) (pol_defi_insurance policy) incident_id root
        unresolved_claims pool_payouts pool_addrs claim_set tee_pcr_hash).
Definition merkle_row (r : Value) : outcome VerificationError MerkleRow :=
  claim_id ← decimal (at_key r "claimId");
  user ← address (at_key r "user");
  amounts ← array_of_values (at_key r "amounts");
  amounts ← mapM decimal amounts;
  score_spent ← decimal (at_key r "scoreSpent");
  boosted_score ← decimal (at_key r "boostedScore");
  eligible_amount ← decimal (at_key r "eligibleAmount");
  eligible_booster_amount ← decimal (at_key r "eligibleBoosterAmount");
  Ok (mkMerkleRow claim_id user amounts score_spent boosted_score eligible_amount
        eligible_booster_amount).

Fixpoint add_gross_amounts (user_share_bps : N) (totals amounts : list N) :
    outcome VerificationError (list N) :=
  match totals, amounts with
  | total :: totals, amount :: amounts =>
      gross ← big_div (amount * 10000) user_share_bps;
      rest ← add_gross_amounts user_share_bps totals amounts;
      Ok (total + gross :: rest)
  | _, _ => Ok totals
  end.
Definition check_proof (tree : SettlementTree) (claim_id : N) (json_row : Value) :
    outcome VerificationError unit :=
  match get "proof" json_row with
  | Some proof =>
      values ← array_of_values proof;
      actual ← mapM hash values;
      expected ← map_err (fun _ => Invalid "proof") (proof_hex tree claim_id);
      require (bool_decide (actual = expected)) "proof mismatch"
  | None => Ok tt
  end.
Definition check_row (tree : SettlementTree) (fee_bps : N) (totals : list N) (item : MerkleRow * Value) :
    outcome VerificationError (list N) :=
  let '(r, json_row) := item in
  _ ← require (Nat.eqb (length (mr_amounts r)) (length totals)) "row pool width";
  totals ← add_gross_amounts (10000 - fee_bps) totals (mr_amounts r);
  _ ← check_proof tree (mr_claim_id r) json_row;
  Ok totals.

Definition check_binding (policy : PromotionPolicy) (incident_id : string) (artifact : Value) :
    outcome VerificationError unit :=
  _ ← require (negb (pol_chain_id policy =? 0) && negb (address_is_zero (pol_registry policy)) &&
               negb (address_is_zero (pol_defi_insurance policy))) "invalid trusted policy";
  _ ← require (bool_decide (as_i64 (at_key artifact "schemaVersion") = Some 2%Z) &&
               bool_decide (as_u64 (at_key artifact "chainId") = Some (pol_chain_id policy)))
        "schema/network";
  bound ← all_of
    [registry ← address (at_key artifact "registry"); Ok (bool_decide (registry = pol_registry policy));
     module ← address (at_key artifact "defiInsurance"); Ok (bool_decide (module = pol_defi_insurance policy))];
  _ ← require bound "protocol binding";
  locator ← text (at_key artifact "incidentId");
  require (String.eqb locator incident_id) "incident locator".
Definition check_pools (input : SettlementDigestInput) : outcome VerificationError unit :=
  require (Nat.eqb (length (sd_pool_addrs input)) (length (sd_pool_payouts input)) &&
           forallb (fun a => negb (address_is_zero a)) (sd_pool_addrs input) &&
           bool_decide (NoDup (sd_pool_addrs input))) "pool shape".
(** The Merkle tree of the rows, and the gross totals of every pool. *)
Definition check_rows (input : SettlementDigestInput) (fee_bps : N) (json_rows : list Value) :
    outcome VerificationError unit :=
  rows ← mapM merkle_row json_rows;
  _ ← require (sd_unresolved_claims input =? N.of_nat (length rows)) "row count";
  tree ← map_err (fun _ => Invalid "Merkle rows") (SettlementTree_new (sd_incident_id input) rows);
  _ ← require (String.eqb (root_hex tree) (sd_root input)) "Merkle root";
  totals ← fold_m (check_row tree fee_bps) (replicate (length (sd_pool_payouts input)) 0)
             (zip rows json_rows);
  require (bool_decide (totals = sd_pool_payouts input)) "gross pool totals".

Context `{K256Recover}.
(** The signer of a digest: [r], [s] with [s] low, and [v] 27 or 28. *)
Definition recover_signer (digest : string) (signature : list byte) : outcome VerificationError Address :=
  v ← index_at signature 64;
  _ ← require (bool_decide (v = x1b ∨ v = x1c)) "signature v";
  sig ← ok_or (signature_from_slice (take 64 signature)) (Invalid "signature scalars");
  _ ← require (match normalize_s sig with None => true | Some _ => false end) "high-s signature";
  prehash ← bytes_of (VString digest) 32;
  key ← ok_or (recover_from_prehash prehash sig (Byte.to_N v - 27)) (Invalid "signature recovery");
  Ok (array_of 20 (drop 12 (array_val (keccak256 (drop 1 key))))).

Definition verify_candidate (policy : PromotionPolicy) (incident_id : string) (artifact : Value) :
    outcome VerificationError Candidate :=
  _ ← check_binding policy incident_id artifact;
  input ← digest_input policy artifact;
  _ ← require (negb (sd_incident_id input =? 0) && negb (String.eqb (sd_root input) ZERO_HEX))
        "zero incident/root";
  _ ← check_pools input;
  fee_bps ← decimal_u64 (at_key artifact "protocolFeeShareBps");
  _ ← require (fee_bps <=? 2000) "fee cap";
  json_rows ← array_of_values (at_key artifact "rows");
  _ ← check_rows input fee_bps json_rows;
  digest ← map_err (fun _ => Invalid "typed data") (settlement_digest input);
  declared ← hash (at_key artifact "settlementDigest");
  _ ← require (String.eqb declared digest) "digest mismatch";
  signature ← bytes_of (at_key artifact "signature") 65;
  signer ← recover_signer digest signature;
  declared ← address (at_key artifact "signer");
  _ ← require (bool_decide (declared = signer)) "declared signer mismatch";
  reference_block ← decimal_u64 (at_key artifact "referenceBlock");
  Ok (mkCandidate input digest signer signature fee_bps reference_block).
End Verifier.

(* ------------------------------------------------------------------ *)
(** ** Bounded evidence *)

Definition VERIFICATION_RPC_CAP : N := 256.
Definition VERIFICATION_BYTE_CAP : N := 8 * 1024 * 1024.
Definition TRACE_METHOD : string := "debug_traceTransaction".
Definition TRACE_BYTE_CAP : N := 2 * 1024 * 1024.
Definition trace_unavailable (message : string) : VerificationError :=
  VRpc (InvalidResponse TRACE_METHOD message).

(** The nodes of a value: the traversal pops each of them once. *)
Fixpoint value_nodes (v : Value) : nat :=
  match v with
  | VArray l => S (list_sum (map value_nodes l))
  | VObject fields => S (list_sum (map (fun field => value_nodes (snd field)) fields))
  | _ => 1
  end.

(** The charge of one node, and the values pushed for it in the order pushed. *)
Definition charge_of (value : Value) : outcome VerificationError (N * list Value) :=
  match value with
  | VString s => Ok (saturating_add 32 (saturating_mul (str_len s) 6), [])
  | VArray a =>
      _ ← bail_if (65536 <? N.of_nat (length a)) (trace_unavailable "trace array limit");
      Ok (32, a)
  | VObject o =>
      _ ← bail_if (65536 <? N.of_nat (length o)) (trace_unavailable "trace object limit");
      Ok (fold_left (fun charge field =>
            saturating_add charge (saturating_add (saturating_mul (str_len (fst field)) 6) 4)) o 32,
          map snd o)
  | _ => Ok (32, [])
  end.

(** The loop [while let Some((value, depth)) = stack.pop()] over the mutable budget;
    the top of the stack is the head of the list. *)
Fixpoint evidence_loop (fuel : nat) (nodes : N) (stack : list (Value * N)) :
    io N VerificationError unit :=
  match stack with
  | [] => mret tt
  | (value, depth) :: stack =>
      match fuel with
      | O => lift (Panic "out of fuel")
      | S fuel =>
          _ ← lift (bail_if ((96 <? depth) || (65536 <? nodes + 1))
                      (trace_unavailable "trace depth/node limit"));
          '(charge, children) ← lift (charge_of value);
          budget ← get_state;
          budget ← lift (ok_or (checked_sub budget charge)
                           (VRpc (ResponseTooLarge TRACE_METHOD TRACE_BYTE_CAP)));
          _ ← put_state budget;
          evidence_loop fuel (nodes + 1)
            (rev (map (fun v => (v, depth + 1)) children) ++ stack)
      end
  end.
Definition bounded_evidence (value : Value) : io N VerificationError unit :=
  evidence_loop (value_nodes value) 0 [(value, 0)].
Definition bounded_trace (value : Value) : outcome VerificationError unit :=
  fst (bounded_evidence value TRACE_BYTE_CAP).

(** *** The budget of one verification

    [BudgetRpc] holds an inner [Rpc] and a mutex over the remaining requests and bytes:
    the world of the inner one has a cell for them, which a dropped computation leaves
    as it is. *)
Definition Budget : Type := N * N.
Class BudgetCell (W : Type) := {
  remaining : W → Budget;
  set_remaining : Budget → W → W
}.
(** The cell keeps what is stored, and only [BudgetRpc] stores in it. *)
Class BudgetLaws (W : Type) `{RpcIface W, BudgetCell W} : Prop := {
  remaining_set : ∀ b w, remaining (set_remaining b w) = b;
  request_keeps_budget : ∀ method params w, remaining (rpc_request method params w).2 = remaining w;
  batch_keeps_budget : ∀ method params w, remaining (rpc_batch_request method params w).2 = remaining w;
  now_keeps_budget : ∀ w, remaining (rpc_now w).2 = remaining w
}.

Section BudgetRpc.
Context {W : Type} `{!RpcIface W, !BudgetCell W}.

Definition spend_requests (n : N) : io W RpcError unit :=
  fun w =>
    match checked_sub (remaining w).1 n with
    | Some requests => (Ok tt, set_remaining (requests, (remaining w).2) w)
    | None => (Err (LogBudgetExceeded "verification requests"), w)
    end.
Definition spend_bytes (value : Value) : io W RpcError unit :=
  fun w =>
    let '(r, bytes) := bounded_evidence value (remaining w).2 in
    (map_err (fun _ => LogBudgetExceeded "verification bytes/depth/nodes") r,
     set_remaining ((remaining w).1, bytes) w).
Definition budget_request (method : string) (params : Value) : io W RpcError Value :=
  _ ← spend_requests 1;
  value ← rpc_request method params;
  _ ← spend_bytes value;
  mret value.
Definition budget_batch_request (method : string) (params : list Value) : io W RpcError (list Value) :=
  _ ← spend_requests (N.of_nat (length params));
  values ← rpc_batch_request method params;
  _ ← fold_m (fun _ value => spend_bytes value) tt values;
  mret values.
Definition budget_rpc : RpcIface W := {|
  rpc_request := budget_request;
  rpc_batch_request := budget_batch_request;
  rpc_metrics := rpc_metrics;
  rpc_now := rpc_now;
  rpc_timeout := @rpc_timeout W _
|}.
End BudgetRpc.

(* ------------------------------------------------------------------ *)
(** ** The calldata of an accepted settlement *)

Section Calldata.
Context `{HexCrate, Sha3Crate}.

(** [data.get(start..start.checked_add(len)?)]; an [Err] is the [None] of [matches]. *)
Definition range (data : list byte) (start len : N) : outcome unit (list byte) :=
  stop ← ok_or (if start + len <=? usize_max then Some (start + len) else None) tt;
  if stop <=? N.of_nat (length data)
  then Ok (take (N.to_nat len) (drop (N.to_nat start) data)) else Err tt.
Definition size_at (data : list byte) (start : N) : outcome unit N :=
  word ← range data start 32;
  fold_m (fun n b => n ← ok_or (checked_mul n 256) tt; ok_or (checked_add n (Byte.to_N b)) tt) 0 word.
(** [abi_word]: left-padded to 32 bytes; more than 32 bytes are a panic. *)
Definition padded_word {E} (bytes : list byte) : outcome E (list byte) :=
  if (length bytes <=? 32)%nat then Ok (replicate (32 - length bytes) x00 ++ bytes)
  else Panic "capacity overflow".
Definition selector (signature : string) : list byte := take 4 (array_val (keccak256 (as_bytes signature))).
(** [text[2..]]. *)
Definition skip2 {E} (s : string) : outcome E string :=
  match s with String _ (String _ rest) => Ok rest | _ => Panic "byte index 2 is out of bounds" end.

Definition root_bytes (candidate : Candidate) : outcome unit (list byte) :=
  digits ← skip2 (sd_root (cd_input candidate)); ok_or (hex_decode digits) tt.
Definition words_match (words : list byte) (payouts : list N) : outcome unit bool :=
  all_of (map (fun '(word, payout) =>
    expected ← padded_word (to_bytes_be payout); Ok (bool_decide (word = expected)))
    (zip (chunks 32 words) payouts)).
Definition matches (candidate : Candidate) (input : string) : outcome unit bool :=
  raw ← ok_or (strip_prefix "0x" input) tt;
  data ← ok_or (hex_decode raw) tt;
  head ← range data 0 4;
  if negb (bool_decide (head = selector "settleIncident(bytes32,uint256[],bytes)")) then Ok false
  else
    args ← (if (4 <=? length data)%nat then Ok (drop 4 data) else Err tt);
    _ ← range args 0 96;
    root ← range args 0 32;
    expected ← root_bytes candidate;
    if negb (bool_decide (root = expected)) then Ok false
    else
      payouts ← size_at args 32;
      signature ← size_at args 64;
      count ← size_at args payouts;
      shaped ← (if negb (count =? N.of_nat (length (sd_pool_payouts (cd_input candidate)))) then Ok false
                else n ← size_at args signature; Ok (n =? 65));
      if negb shaped then Ok false
      else
        start ← ok_or (checked_add payouts 32) tt;
        len ← ok_or (checked_mul count 32) tt;
        words ← range args start len;
        same ← words_match words (sd_pool_payouts (cd_input candidate));
        if negb same then Ok false
        else
          start ← ok_or (checked_add signature 32) tt;
          found ← range args start 65;
          Ok (bool_decide (found = cd_signature candidate)).
(** [matches(..).unwrap_or(false)]. *)
Definition settlement_call_matches (candidate : Candidate) (input : string) :
    outcome VerificationError bool :=
  match matches candidate input with
  | Ok b => Ok b
  | Err _ => Ok false
  | Panic why => Panic why
  end.

(** *** The call trace *)

Definition frame_types : list string :=
  ["CALL"; "STATICCALL"; "DELEGATECALL"; "CALLCODE"; "CREATE"; "CREATE2"; "SELFDESTRUCT"].
Definition frame_type (frame : Value) : option string := as_str (at_key frame "type").
Definition frame_reverted (frame : Value) : bool :=
  negb (is_null (at_key frame "error")) || negb (is_null (at_key frame "revertReason")).
Definition frame_settles (policy : PromotionPolicy) (candidate : Candidate) (frame : Value) :
    outcome VerificationError bool :=
  all_of
    [Ok (bool_decide (frame_type frame = Some "CALL"));
     to ← evidence (address (at_key frame "to")); Ok (bool_decide (to = pol_defi_insurance policy));
     input ← evidence_input (at_key frame "input"); settlement_call_matches candidate input].
Definition frame_children (frame : Value) : outcome VerificationError (list Value) :=
  match get "calls" frame with
  | Some children => ok_or (as_array children) (trace_unavailable "malformed callTracer children")
  | None => Ok []
  end.
Fixpoint trace_loop (fuel : nat) (policy : PromotionPolicy) (candidate : Candidate) (stack : list Value) :
    outcome VerificationError bool :=
  match stack with
  | [] => Ok false
  | frame :: stack =>
      match fuel with
      | O => Panic "out of fuel"
      | S fuel =>
          _ ← bail_if (match frame_type frame with
                       | Some t => negb (bool_decide (t ∈ frame_types))
                       | None => true
                       end) (trace_unavailable "malformed callTracer frame");
          if frame_reverted frame then trace_loop fuel policy candidate stack
          else
            settles ← frame_settles policy candidate frame;
            if (settles : bool) then Ok true
            else
              children ← frame_children frame;
              trace_loop fuel policy candidate (rev children ++ stack)
      end
  end.

Definition outer_frame (tx receipt : Value) : string * Value :=
  if is_null (at_key tx "to") then ("CREATE", at_key receipt "contractAddress")
  else ("CALL", at_key tx "to").
Definition trace_bound (trace tx receipt : Value) : outcome VerificationError bool :=
  let '(outer_type, outer_to) := outer_frame tx receipt in
  all_of
    [Ok (bool_decide (frame_type trace = Some outer_type));
     a ← evidence (address (at_key trace "from")); b ← evidence (address (at_key tx "from"));
     Ok (bool_decide (a = b));
     a ← evidence (address (at_key trace "to")); b ← evidence (address outer_to); Ok (bool_decide (a = b));
     a ← evidence_input (at_key trace "input"); b ← evidence_input (at_key tx "input");
     Ok (eq_ignore_ascii_case a b);
     Ok (bool_decide (at_key trace "value" = at_key tx "value"))].
(** [traced_settlement] after its request. *)
Definition judge_trace (policy : PromotionPolicy) (candidate : Candidate) (trace tx receipt : Value) :
    outcome VerificationError bool :=
  _ ← bounded_trace trace;
  _ ← bail_if (bool_decide (as_object trace = None) || bool_decide (frame_type trace = None))
        (trace_unavailable "callTracer result unavailable");
  bound ← trace_bound trace tx receipt;
  _ ← evidence_require bound "trace transaction binding";
  trace_loop (value_nodes trace) policy candidate [trace].
Definition trace_params (tx : Value) : Value :=
  VArray [at_key tx "hash";
          VObject [("tracer", VString "callTracer"); ("timeout", VString "5s");
                   ("tracerConfig", VObject [("onlyTopCall", VBool false)])]].
End Calldata.
