(* ===== verification/CandidateFacts.v ===== *)
(** * What a verified candidate is ([job-api/src/settlement_verifier.rs])

    The decimals and hashes an artifact may hold, what [verify_candidate] accepts, and
    that it accepts the signed artifact of every run [verify_run] accepts. *)

From S2P Require Import Prelude Bytes Text Commit Merkle Kernel TypedData Rpc Abi Config Chain ChainConfig Checkpoint CheckpointStore Artifact JobProtocol SettlementVerifier.
From Stdlib Require Import Strings.Byte Strings.Ascii.
From Stdlib Require Import Numbers.DecimalString.

Open Scope string_scope.
Open Scope N_scope.
Open Scope list_scope.

(** *** Decimals *)

Lemma pos_of_uint_value d : ∀ acc,
  N.pos (Pos.of_uint_acc d acc) = decimal_from (N.pos acc) (NilEmpty.string_of_uint d).
Proof.
  induction d as [|d IH|d IH|d IH|d IH|d IH|d IH|d IH|d IH|d IH|d IH]; intros acc;
    cbn [Pos.of_uint_acc NilEmpty.string_of_uint decimal_from]; [done|..]; rewrite IH;
    f_equal; cbv [N_of_ascii N_of_digits]; lia.
Qed.
Lemma of_uint_value d : N.of_uint d = decimal_value (NilEmpty.string_of_uint d).
Proof.
  unfold decimal_value. induction d as [|d IH|d IH|d IH|d IH|d IH|d IH|d IH|d IH|d IH|d IH]; [done|exact IH|..];
    change (N.of_uint _) with (N.pos (Pos.of_uint_acc d 1)) || idtac;
    cbn [NilEmpty.string_of_uint decimal_from]; try (cbn; apply pos_of_uint_value).
Qed.
Lemma biguint_value s n : str_all is_ascii_digit s = true → biguint_from_str s = Some n →
  decimal_value s = n.
Proof.
  intros Hd. unfold biguint_from_str. intros (d & Hu & ->)%fmap_Some.
  rewrite of_uint_value. f_equal. symmetry. destruct s as [|c s]; [done|].
  apply NilEmpty.sus. exact Hu.
Qed.

Lemma no_leading_zero s : str_is_empty s = false →
  String.eqb s "0" || negb (starts_with "0" s) = negb ((1 <? str_len s) && starts_with "0" s).
Proof.
  destruct s as [|c [|d s]]; [done|intros _..].
  - change (1 <? str_len (String c "")) with false. cbn [andb negb starts_with String.prefix].
    destruct (ascii_dec "0" c) as [<-|]; [done|]. by rewrite orb_true_r.
  - assert ((1 <? str_len (String c (String d s))) = true) as ->.
    { apply N.ltb_lt. unfold str_len. cbn [String.length]. lia. }
    cbn [andb]. destruct (String.eqb_spec (String c (String d s)) "0") as [E|]; [discriminate E|done].
Qed.
(** The accepted texts are those of incident ids: [uint256] in canonical decimal. *)
Lemma canonical_uint256_spec s : canonical_uint256 s = true ↔
  canonical_decimal s = true ∧ decimal_value s ≤ uint256_max.
Proof.
  rewrite <-incident_id_accepted. unfold validate_incident_id, canonical_uint256.
  rewrite bail_if_ok. destruct (str_is_empty s) eqn:Ee; [done|]. rewrite no_leading_zero by done.
  generalize (starts_with "0" s) (str_all is_ascii_digit s) (1 <? str_len s) (str_ltb MAX_UINT256 s).
  intros z d l b. destruct (N.lt_trichotomy (str_len s) (str_len MAX_UINT256)) as [H|[H|H]].
  - rewrite (proj2 (N.ltb_lt _ _) H), (proj2 (N.ltb_ge _ _)), (proj2 (N.eqb_neq _ _)) by lia.
    by destruct z, d, l, b.
  - rewrite H, N.ltb_irrefl, N.eqb_refl. by destruct z, d, l, b.
  - rewrite (proj2 (N.ltb_lt _ _) H), (proj2 (N.ltb_ge (str_len s) _)), (proj2 (N.eqb_neq _ _)) by lia.
    by destruct z, d, l, b.
Qed.
Lemma canonical_digits s : canonical_decimal s = true → str_all is_ascii_digit s = true.
Proof. unfold canonical_decimal. by intros [_ Hd]%andb_prop. Qed.
Lemma canonical_value s n : canonical_decimal s = true → biguint_from_str s = Some n → decimal_value s = n.
Proof. intros Hc. apply biguint_value. by apply canonical_digits. Qed.
Lemma uint256_max_lt n : n ≤ uint256_max ↔ n < 2 ^ 256.
Proof.
  unfold uint256_max. assert (2 ^ 256 ≠ 0) as H by by vm_compute. revert H.
  generalize (2 ^ 256) as m. lia.
Qed.

Lemma require_ok b why u : require b why = Ok u ↔ b = true.
Proof. unfold require. rewrite bail_if_ok. by destruct b. Qed.

Lemma decimal_ok v n : decimal v = Ok n ↔ v = VString (to_decimal n) ∧ n < 2 ^ 256.
Proof.
  unfold decimal, text. rewrite bind_ok. setoid_rewrite bind_ok. setoid_rewrite require_ok.
  setoid_rewrite ok_or_ok. setoid_rewrite canonical_uint256_spec. rewrite <-uint256_max_lt. split.
  - intros (s & Hs & _ & [Hc Hle] & Hn). destruct v; try discriminate Hs. injection Hs as ->.
    rewrite (canonical_value s n) in Hle by done. by rewrite (canonical_decimal_unique s n).
  - intros [-> Hn]. exists (to_decimal n). split; [done|]. exists tt.
    rewrite (canonical_value _ n (to_decimal_canonical n) (biguint_from_to n)).
    split; [split; [apply to_decimal_canonical|done]|apply biguint_from_to].
Qed.
Lemma decimal_number_ok v n : decimal_u64 v = Ok n ↔ v = VString (to_decimal n) ∧ n ≤ u64_max.
Proof.
  unfold decimal_u64, text. rewrite bind_ok. setoid_rewrite bind_ok. setoid_rewrite require_ok.
  setoid_rewrite ok_or_ok. setoid_rewrite canonical_uint256_spec. split.
  - intros (s & Hs & _ & [Hc Hle] & (m & Hm & Hn)%bind_Some). destruct v; try discriminate Hs.
    injection Hs as ->. destruct (N.leb_spec m u64_max) as [Hu|]; [|discriminate Hn].
    injection Hn as ->. by rewrite (canonical_decimal_unique s n).
  - intros [-> Hn]. exists (to_decimal n). split; [done|]. exists tt.
    rewrite (canonical_value _ n (to_decimal_canonical n) (biguint_from_to n)).
    split; [split; [apply to_decimal_canonical|]|].
    + apply uint256_max_lt. eapply N.le_lt_trans; [exact Hn|]. by vm_compute.
    + rewrite biguint_from_to. cbn. by rewrite (proj2 (N.leb_le _ _) Hn).
Qed.
(** A traversal of a decoder that has one text per value. *)
Lemma mapM_decoded {E A B} (f : A → outcome E B) (g : B → A) (P : B → Prop) :
  (∀ v x, f v = Ok x ↔ v = g x ∧ P x) → ∀ l k, mapM f l = Ok k ↔ l = map g k ∧ Forall P k.
Proof.
  intros Hf l k. rewrite mapM_ok. split.
  - induction 1 as [|v x l k Hx _ [-> IH]]; [done|]. apply Hf in Hx as [-> Hx].
    split; [done|by constructor].
  - intros [-> H]. induction H; constructor; [by apply Hf|done].
Qed.
Lemma mapM_map_map {E A B C} (f : B → outcome E C) (g : A → B) (h : A → C) l :
  (∀ x, x ∈ l → f (g x) = Ok (h x)) → mapM f (map g l) = Ok (map h l).
Proof.
  intros Hf. apply mapM_ok. induction l as [|x l IH]; cbn [map]; constructor; [apply Hf; by left|].
  apply IH. intros; apply Hf; by right.
Qed.
Lemma array_of_values_ok v l : array_of_values v = Ok l ↔ v = VArray l.
Proof. unfold array_of_values. rewrite ok_or_ok. destruct v; simpl; naive_solver. Qed.

(** *** Hashes, byte strings and addresses *)

Section Fields.
Context `{HexLaws, Sha3Crate}.

Lemma bytes_of_ok v n l : bytes_of v n = Ok l ↔
  ∃ raw, v = VString ("0x" +:+ raw) ∧ hex_decode raw = Some l ∧ N.of_nat (length l) = n.
Proof.
  unfold bytes_of, text. rewrite bind_ok. setoid_rewrite bind_ok. setoid_rewrite ok_or_ok.
  setoid_rewrite bind_ok. setoid_rewrite require_ok. setoid_rewrite ok_or_ok. split.
  - intros (s & Hs & raw & ->%strip_prefix_Some & _ & Hl%N.eqb_eq & Hd). exists raw.
    destruct v; try discriminate Hs. injection Hs as ->. rewrite (hex_decode_len _ _ Hd) in Hl.
    split; [done|]. split; [done|lia].
  - intros (raw & -> & Hd & Hl). exists ("0x" +:+ raw). split; [done|]. exists raw.
    rewrite strip_prefix_app. split; [done|]. exists tt. split; [|done].
    rewrite (hex_decode_len _ _ Hd). apply N.eqb_eq. lia.
Qed.
Lemma bytes_of_encoded l n : N.of_nat (length l) = n → bytes_of (VString ("0x" +:+ hex_encode l)) n = Ok l.
Proof. intros Hl. apply bytes_of_ok. exists (hex_encode l). by rewrite hex_decode_encode. Qed.
Lemma hash_ok v s : hash v = Ok s ↔ ∃ t f h, v = VString t ∧ hash32 f t = Ok h ∧ s = hash_hex h.
Proof.
  unfold hash. rewrite bind_ok. setoid_rewrite bytes_of_ok. split.
  - intros (l & (raw & -> & Hd & Hl) & [= <-]).
    exists ("0x" +:+ raw), "", (array_of 32 l). split; [done|].
    assert (array_val (array_of 32 l) = l) as E by (apply array_val_of; lia).
    rewrite hash32_ok. unfold hash_hex. rewrite E. eauto.
  - intros (t & f & h & -> & (raw & -> & Hd)%hash32_ok & ->). exists (array_val h). split; [|done].
    exists raw. split; [done|]. split; [done|]. by rewrite array_length.
Qed.
Lemma hash_of_hash_hex h : hash (VString (hash_hex h)) = Ok (hash_hex h).
Proof.
  apply hash_ok. exists (hash_hex h), "", h. split; [done|]. split; [|done]. apply hash32_ok.
  exists (hex_encode (array_val h)). by rewrite hex_decode_encode.
Qed.
Lemma address_of_string a : address (VString (address_to_string a)) = Ok a.
Proof. unfold address, text. cbn [as_str ok_or mbind outcome_bind]. by rewrite address_from_to_string. Qed.
End Fields.

(* ------------------------------------------------------------------ *)
(** ** What a candidate establishes *)

(** The gross amounts of the rows in a pool: the net amounts over the users' share. *)
Definition gross (fee_bps amount : N) : N := (amount * 10000) / (10000 - fee_bps).
Definition gross_total (fee_bps : N) (rows : list MerkleRow) (pool : nat) : N :=
  sum_N (map (fun row => gross fee_bps (nth pool (mr_amounts row) 0)) rows).

Section Totals.
Context `{HexCrate, Sha3Crate}.

Lemma add_gross_amounts_ok fee : fee ≤ 2000 → ∀ totals amounts, length amounts = length totals →
  ∃ totals', add_gross_amounts (10000 - fee) totals amounts = Ok totals' ∧
    length totals' = length totals ∧
    ∀ j t, totals !! j = Some t → totals' !! j = Some (t + gross fee (nth j amounts 0)).
Proof.
  intros Hfee. induction totals as [|t totals IH]; intros [|a amounts] Hl; try discriminate Hl.
  - by exists [].
  - injection Hl as Hl. destruct (IH amounts Hl) as (totals' & E & Hl' & Hj).
    exists (t + gross fee a :: totals'). cbn [add_gross_amounts]. rewrite big_div_nz by lia.
    cbn [mbind outcome_bind]. rewrite E. split; [done|]. split; [cbn; lia|].
    intros [|j] x; cbn [lookup list_lookup nth]; [by intros [= <-]|apply Hj].
Qed.
Lemma check_row_ok tree fee totals r json totals' : fee ≤ 2000 →
  check_row tree fee totals (r, json) = Ok totals' →
  length (mr_amounts r) = length totals ∧ length totals' = length totals ∧
  check_proof tree (mr_claim_id r) json = Ok tt ∧
  ∀ j t, totals !! j = Some t → totals' !! j = Some (t + gross fee (nth j (mr_amounts r) 0)).
Proof.
  intros Hfee. unfold check_row.
  intros ([] & Hl%require_ok%Nat.eqb_eq & (t1 & Ht & ([] & Hp & [= <-])%bind_ok)%bind_ok)%bind_ok.
  destruct (add_gross_amounts_ok fee Hfee totals (mr_amounts r) Hl) as (t2 & E & Hl2 & Hj).
  rewrite Ht in E. injection E as <-. done.
Qed.
Lemma check_rows_totals tree fee : fee ≤ 2000 → ∀ rows jsons totals totals',
  length rows = length jsons →
  fold_m (check_row tree fee) totals (zip rows jsons) = Ok totals' →
  length totals' = length totals ∧
  Forall (fun row => length (mr_amounts row) = length totals) rows ∧
  ∀ j t, totals !! j = Some t → totals' !! j = Some (t + gross_total fee rows j).
Proof.
  intros Hfee. induction rows as [|r rows IH]; intros [|json jsons] totals totals' Hl; try discriminate Hl;
    cbn [zip zip_with fold_m].
  - intros [= <-]. split; [done|]. split; [done|]. intros j t Ht. rewrite Ht. f_equal. cbn. lia.
  - injection Hl as Hl. intros (t1 & Hr & Hf)%bind_ok.
    destruct (check_row_ok _ _ _ _ _ _ Hfee Hr) as (Hw & Hl1 & _ & Hj1).
    destruct (IH _ _ _ Hl Hf) as (Hl2 & Hall & Hj2). split; [congruence|]. split.
    + constructor; [done|]. eapply Forall_impl; [exact Hall|]. cbn. congruence.
    + intros j t Ht. rewrite (Hj2 j _ (Hj1 j t Ht)). f_equal. unfold gross_total. cbn [map sum_N foldr].
      fold (sum_N (map (fun row => gross fee (nth j (mr_amounts row) 0)) rows)). lia.
Qed.
Lemma zero_totals (n : nat) totals fee rows :
  length totals = n →
  (∀ j t, replicate n 0 !! j = Some t → totals !! j = Some (t + gross_total fee rows j)) →
  ∀ j payout, totals !! j = Some payout → payout = gross_total fee rows j.
Proof.
  intros Hl Hj j payout Hp.
  assert (replicate n 0 !! j = Some 0) as Hz.
  { apply lookup_replicate. split; [done|]. rewrite <-Hl. by eapply lookup_lt_Some. }
  apply Hj in Hz. rewrite Hp in Hz. by injection Hz.
Qed.
End Totals.

(** An accepted artifact: its policy, its rows and their tree, its pools and their
    totals, its digest and its signer. *)
Record establishes `{HexCrate, Sha3Crate, !K256Crate, !K256Recover} (policy : PromotionPolicy)
    (incident_id : string) (artifact : Value) (c : Candidate) (rows : list MerkleRow)
    (tree : SettlementTree) : Prop := {
  ec_chain : sd_chain_id (cd_input c) = pol_chain_id policy ∧ pol_chain_id policy ≠ 0;
  ec_contract : sd_verifying_contract (cd_input c) = pol_defi_insurance policy;
  ec_protocol : address (at_key artifact "registry") = Ok (pol_registry policy) ∧
    address (at_key artifact "defiInsurance") = Ok (pol_defi_insurance policy);
  ec_incident : incident_id = to_decimal (sd_incident_id (cd_input c)) ∧
    0 < sd_incident_id (cd_input c) ∧ sd_incident_id (cd_input c) < 2 ^ 256;
  ec_rows : ∃ json_rows, at_key artifact "rows" = VArray json_rows ∧
    Forall2 (fun v row => merkle_row v = Ok row) json_rows rows;
  ec_hashes : ∃ claim_set pcr, sd_claim_set (cd_input c) = hash_hex claim_set ∧
    sd_tee_pcr_hash (cd_input c) = hash_hex pcr;
  ec_tree : SettlementTree_new (sd_incident_id (cd_input c)) rows = Ok tree ∧
    root_hex tree = sd_root (cd_input c) ∧ sd_root (cd_input c) ≠ ZERO_HEX;
  ec_count : sd_unresolved_claims (cd_input c) = N.of_nat (length rows);
  ec_pools : length (sd_pool_addrs (cd_input c)) = length (sd_pool_payouts (cd_input c)) ∧
    NoDup (sd_pool_addrs (cd_input c)) ∧
    Forall (fun a => address_is_zero a = false) (sd_pool_addrs (cd_input c));
  ec_fee : cd_fee_bps c ≤ 2000;
  ec_width : Forall (fun row => length (mr_amounts row) = length (sd_pool_payouts (cd_input c))) rows;
  ec_totals : ∀ j payout, sd_pool_payouts (cd_input c) !! j = Some payout →
    payout = gross_total (cd_fee_bps c) rows j;
  ec_digest : settlement_digest (cd_input c) = Ok (cd_digest c);
  ec_signer : length (cd_signature c) = 65%nat ∧ recover_signer (cd_digest c) (cd_signature c) = Ok (cd_signer c)
}.

Section Sound.
Context `{HexLaws, Sha3Crate, !K256Crate, !K256Recover}.

Lemma check_rows_ok input fee json_rows : fee ≤ 2000 → check_rows input fee json_rows = Ok tt →
  ∃ rows tree, Forall2 (fun v row => merkle_row v = Ok row) json_rows rows ∧
    SettlementTree_new (sd_incident_id input) rows = Ok tree ∧ root_hex tree = sd_root input ∧
    sd_unresolved_claims input = N.of_nat (length rows) ∧
    Forall (fun row => length (mr_amounts row) = length (sd_pool_payouts input)) rows ∧
    ∀ j payout, sd_pool_payouts input !! j = Some payout → payout = gross_total fee rows j.
Proof.
  intros Hfee. unfold check_rows. intros (rows & Hrows & Hc)%bind_ok. apply mapM_ok in Hrows.
  apply bind_ok in Hc as ([] & Hn%require_ok%N.eqb_eq & (tree & Ht%map_err_ok & Hc)%bind_ok).
  apply bind_ok in Hc as ([] & Hr%require_ok%String.eqb_eq & (totals & Hf & Hc)%bind_ok).
  apply require_ok, bool_decide_eq_true in Hc. subst totals.
  destruct (check_rows_totals _ _ Hfee _ _ _ _ (eq_sym (Forall2_length _ _ _ Hrows)) Hf) as (Hl & Hw & Hj).
  rewrite length_replicate in Hl, Hw. exists rows, tree. do 5 (split; [done|]).
  by eapply zero_totals; [|exact Hj].
Qed.
Lemma check_pools_ok input : check_pools input = Ok tt →
  length (sd_pool_addrs input) = length (sd_pool_payouts input) ∧ NoDup (sd_pool_addrs input) ∧
  Forall (fun a => address_is_zero a = false) (sd_pool_addrs input).
Proof.
  intros [[Hl%Nat.eqb_eq Hz]%andb_prop Hn%bool_decide_eq_true]%require_ok%andb_prop.
  split; [done|]. split; [done|]. apply Forall_forall. intros a Ha%list_elem_of_In.
  rewrite forallb_forall in Hz. by apply negb_true_iff, Hz.
Qed.
Lemma digest_input_ok policy artifact input : digest_input policy artifact = Ok input →
  sd_chain_id input = pol_chain_id policy ∧ sd_verifying_contract input = pol_defi_insurance policy ∧
  at_key artifact "incidentId" = VString (to_decimal (sd_incident_id input)) ∧
  sd_incident_id input < 2 ^ 256 ∧
  ∃ claim_set pcr, sd_claim_set input = hash_hex claim_set ∧ sd_tee_pcr_hash input = hash_hex pcr.
Proof.
  unfold digest_input. intros (id & [Hid Hlt]%decimal_ok & Hr)%bind_ok.
  do 6 (apply bind_ok in Hr as (? & _ & Hr)).
  apply bind_ok in Hr as (cs & (? & ? & hc & _ & _ & ->)%hash_ok & Hr).
  apply bind_ok in Hr as (pcr & (? & ? & hp & _ & _ & ->)%hash_ok & Hr). injection Hr as <-.
  do 4 (split; [done|]). by exists hc, hp.
Qed.
Lemma check_binding_ok policy incident_id artifact : check_binding policy incident_id artifact = Ok tt →
  pol_chain_id policy ≠ 0 ∧ address (at_key artifact "registry") = Ok (pol_registry policy) ∧
  address (at_key artifact "defiInsurance") = Ok (pol_defi_insurance policy) ∧
  at_key artifact "incidentId" = VString incident_id.
Proof.
  unfold check_binding. intros ([] & Hp%require_ok & Hc)%bind_ok.
  apply andb_prop in Hp as [[Hp%negb_true_iff%N.eqb_neq _]%andb_prop _].
  apply bind_ok in Hc as ([] & _ & (bound & Hb & Hc)%bind_ok).
  apply bind_ok in Hc as ([] & ->%require_ok & (id & Hid & Hl%require_ok%String.eqb_eq)%bind_ok). subst id.
  cbn [all_of] in Hb. apply bind_ok in Hb as (b1 & (a1 & Ha1 & [= <-])%bind_ok & Hb).
  case_bool_decide as E1; [subst a1|discriminate Hb].
  apply bind_ok in Hb as (b2 & (a2 & Ha2 & [= <-])%bind_ok & Hb).
  case_bool_decide as E2; [subst a2|discriminate Hb].
  split; [done|]. split; [done|]. split; [done|].
  unfold text in Hid. apply ok_or_ok in Hid. destruct (at_key artifact "incidentId"); try discriminate Hid.
  by injection Hid as ->.
Qed.

Lemma verify_candidate_establishes policy incident_id artifact c :
  verify_candidate policy incident_id artifact = Ok c →
  ∃ rows tree, establishes policy incident_id artifact c rows tree.
Proof.
  unfold verify_candidate. intros ([] & Hb & (input & Hi & Hc)%bind_ok)%bind_ok.
  apply bind_ok in Hc as ([] & Hz%require_ok & Hc). apply bind_ok in Hc as ([] & Hpools & Hc).
  apply bind_ok in Hc as (fee & _ & ([] & Hfee%require_ok%N.leb_le & Hc)%bind_ok).
  apply bind_ok in Hc as (json_rows & Hjr%array_of_values_ok & ([] & Hrows & Hc)%bind_ok).
  apply bind_ok in Hc as (digest & Hd%map_err_ok & (declared & _ & ([] & _ & Hc)%bind_ok)%bind_ok).
  apply bind_ok in Hc as (signature & (raw & _ & _ & Hlen)%bytes_of_ok & (signer & Hs & Hc)%bind_ok).
  apply bind_ok in Hc as (? & _ & ([] & _ & (reference & _ & [= <-])%bind_ok)%bind_ok).
  apply andb_prop in Hz as [Hz0%negb_true_iff%N.eqb_neq Hzr%negb_true_iff%String.eqb_neq].
  destruct (digest_input_ok _ _ _ Hi) as (Hchain & Hcontract & Hid & Hlt & Hhashes).
  destruct (check_binding_ok _ _ _ Hb) as (Hpol & Hreg & Hins & Hloc).
  destruct (check_rows_ok _ _ _ Hfee Hrows) as (rows & tree & Hall & Ht & Hroot & Hn & Hw & Htot).
  exists rows, tree. rewrite Hid in Hloc. injection Hloc as Hloc.
  split; cbn [cd_input cd_fee_bps cd_digest cd_signature cd_signer]; try done.
  - split; [done|]. split; [lia|done].
  - by exists json_rows.
  - by apply check_pools_ok.
  - split; [lia|done].
Qed.
(** The checks, one after the other. *)
Lemma verify_candidate_steps policy incident_id v input fee jsons digest signature signer reference :
  check_binding policy incident_id v = Ok tt → digest_input policy v = Ok input →
  sd_incident_id input ≠ 0 → sd_root input ≠ ZERO_HEX → check_pools input = Ok tt →
  decimal_u64 (at_key v "protocolFeeShareBps") = Ok fee → fee ≤ 2000 →
  at_key v "rows" = VArray jsons → check_rows input fee jsons = Ok tt →
  settlement_digest input = Ok digest → hash (at_key v "settlementDigest") = Ok digest →
  bytes_of (at_key v "signature") 65 = Ok signature → recover_signer digest signature = Ok signer →
  address (at_key v "signer") = Ok signer → decimal_u64 (at_key v "referenceBlock") = Ok reference →
  verify_candidate policy incident_id v = Ok (mkCandidate input digest signer signature fee reference).
Proof.
  intros Hb Hi Hnz Hz Hp Hf Hfee Hj Hr Hd Hdd Hs Hsig Ha Href. unfold verify_candidate.
  rewrite Hb. cbn [mbind outcome_bind]. rewrite Hi. cbn [mbind outcome_bind].
  rewrite (proj2 (N.eqb_neq _ _) Hnz), (proj2 (String.eqb_neq _ _) Hz).
  cbn [negb andb require bail_if mbind outcome_bind]. rewrite Hp. cbn [mbind outcome_bind].
  rewrite Hf. cbn [mbind outcome_bind]. rewrite (proj2 (N.leb_le _ _) Hfee), Hj.
  cbn [require negb bail_if mbind outcome_bind array_of_values as_array ok_or].
  rewrite Hr. cbn [mbind outcome_bind]. rewrite Hd. cbn [map_err mbind outcome_bind]. rewrite Hdd.
  cbn [mbind outcome_bind]. rewrite String.eqb_refl. cbn [require negb bail_if mbind outcome_bind].
  rewrite Hs. cbn [mbind outcome_bind]. rewrite Hsig. cbn [mbind outcome_bind]. rewrite Ha.
  cbn [mbind outcome_bind]. rewrite bool_decide_eq_true_2 by done.
  cbn [require negb bail_if mbind outcome_bind]. by rewrite Href.
Qed.
End Sound.

(* ------------------------------------------------------------------ *)
(** ** Claims that can be proved against an accepted root *)

Section Claims.
Context `{HexLaws, Sha3Crate}.

(** A row the contract can be shown: its leaf folds to the root along some siblings. *)
Definition provable (incident_id : N) (root : string) (row : MerkleRow) : Prop :=
  ∃ leaf proof, standard_leaf_hash incident_id row = Ok leaf ∧ hash_hex (process_proof proof leaf) = root.

Lemma provable_members incident_id rows tree claims : 2 * vec_len rows ≤ u64_max →
  SettlementTree_new incident_id rows = Ok tree →
  Forall (provable incident_id (root_hex tree)) claims → keccak_collision ∨ ∀ r, r ∈ claims → r ∈ rows.
Proof.
  intros Hb Ht. induction 1 as [|r claims (leaf & proof & Hl & Hp%hash_hex_inj) _ IH]; [right; set_solver|].
  destruct IH as [|IH]; [by left|].
  destruct (settlement_tree_member _ _ _ _ _ _ _ Hb Ht Hl Hp) as [[_ Hr]|]; [|by left].
  right. intros x [->|Hx]%elem_of_cons; [done|by apply IH].
Qed.
Lemma NoDup_of_map {A B} (f : A → B) l : NoDup (map f l) → NoDup l.
Proof.
  induction l as [|x l IH]; cbn [map]; [constructor|]. intros [Hx Hl]%NoDup_cons. constructor; [|by apply IH].
  intros Hin. apply Hx. by apply list_elem_of_fmap_2.
Qed.
Lemma gross_total_members fee claims rows j : NoDup (map mr_claim_id claims) →
  (∀ r, r ∈ claims → r ∈ rows) →
  (length claims ≤ length rows)%nat ∧ gross_total fee claims j ≤ gross_total fee rows j.
Proof.
  intros Hnd%NoDup_of_map Hin. destruct (submseteq_Permutation claims rows) as [k Hk].
  { by apply NoDup_submseteq. }
  split; [rewrite Hk, length_app; lia|]. unfold gross_total.
  rewrite (sum_N_perm _ _ (Permutation_map (fun row => gross fee (nth j (mr_amounts row) 0)) Hk)).
  rewrite map_app, sum_N_app. lia.
Qed.
End Claims.

(* ------------------------------------------------------------------ *)
(** ** The artifacts of the kernel's settlements *)

Section Honest.
Context `{HexLaws, Sha3Crate}.

Lemma word_small v w : uint256_word v = Ok w → v < 2 ^ 256.
Proof. by intros [Hv _]%uint256_word_ok. Qed.
Lemma words_small l ws : Forall2 (fun x w => uint256_word x = Ok w) l ws → Forall (fun x => x < 2 ^ 256) l.
Proof. induction 1; constructor; [by eapply word_small|done]. Qed.
Lemma decimals_texts l : Forall (fun n => n < 2 ^ 256) l → mapM decimal (map decimal_text l) = Ok l.
Proof. intros Hl. by apply (mapM_decoded decimal decimal_text _ decimal_ok). Qed.
Lemma decimal_of_text n : n < 2 ^ 256 → decimal (decimal_text n) = Ok n.
Proof. intros Hn. by apply decimal_ok. Qed.

(** A row whose leaf exists is read back from its JSON. *)
Lemma merkle_row_json run p id row leaf :
  standard_leaf_hash id (merkle_row_of row) = Ok leaf →
  merkle_row (row_json run p row) = Ok (merkle_row_of row).
Proof.
  intros (fields & amounts & Hf & _ & _)%standard_leaf_hash_ok.
  destruct Hf as (i & c & u & sp & bo & el & eb & n & _ & Hc%word_small & Hsp%word_small & Hbo%word_small &
    Hel%word_small & Heb%word_small & Ham%words_small & _).
  cbn [merkle_row_of mr_claim_id mr_score_spent mr_boosted_score mr_eligible_amount
    mr_eligible_booster_amount mr_amounts] in *.
  unfold merkle_row.
  change (at_key (row_json run p row) "claimId") with (decimal_text (sr_claim_id row)).
  change (at_key (row_json run p row) "user") with (VString (address_to_string (sr_user row))).
  change (at_key (row_json run p row) "amounts") with (VArray (map decimal_text (sr_amounts row))).
  change (at_key (row_json run p row) "scoreSpent") with (decimal_text (sr_score_spent row)).
  change (at_key (row_json run p row) "boostedScore") with (decimal_text (sr_boosted_score row)).
  change (at_key (row_json run p row) "eligibleAmount") with (decimal_text (sr_eligible_amount row)).
  change (at_key (row_json run p row) "eligibleBoosterAmount")
    with (decimal_text (sr_eligible_booster_amount row)).
  rewrite decimal_of_text by done. cbn [mbind outcome_bind]. rewrite address_of_string.
  cbn [mbind outcome_bind array_of_values as_array ok_or]. rewrite decimals_texts by done.
  cbn [mbind outcome_bind]. by rewrite !decimal_of_text by done.
Qed.

Lemma hashes_of_proof proof : mapM hash (map VString (map hash_hex proof)) = Ok (map hash_hex proof).
Proof.
  rewrite map_map. apply mapM_ok. induction proof as [|h proof IH]; cbn [map]; constructor; [|done].
  apply hash_of_hash_hex.
Qed.
Lemma check_proof_json run p row tree proof :
  all_proofs_hex tree = ko_proofs (run_output run) → st_proofs tree !! sr_claim_id row = Some proof →
  check_proof tree (sr_claim_id row) (row_json run p row) = Ok tt.
Proof.
  intros Hp Hr. destruct p; [|done]. unfold check_proof.
  change (get "proof" (row_json run true row)) with
    (Some (VArray (map VString (default [] (ko_proofs (run_output run) !! sr_claim_id row))))).
  rewrite <-Hp. unfold all_proofs_hex, proof_hex. rewrite lookup_fmap, Hr.
  cbn [fmap option_fmap option_map from_option id array_of_values as_array ok_or mbind outcome_bind map_err].
  rewrite hashes_of_proof. cbn [mbind outcome_bind]. by rewrite bool_decide_eq_true_2.
Qed.

(** The totals of rows whose amounts are functions of the pool. *)
Lemma add_gross_amounts_map {A} fee (g a : A → N) (pools : list A) : fee ≤ 2000 →
  add_gross_amounts (10000 - fee) (map g pools) (map a pools) =
  Ok (map (fun pool => g pool + gross fee (a pool)) pools).
Proof.
  intros Hf. induction pools as [|pool pools IH]; [done|]. cbn [map add_gross_amounts].
  rewrite big_div_nz by lia. cbn [mbind outcome_bind]. by rewrite IH.
Qed.
Lemma check_rows_map {A} tree fee (pools : list A) (amount : SettledRow → A → N) (json : SettledRow → Value)
    rows : fee ≤ 2000 →
  (∀ row, row ∈ rows → sr_amounts row = map (amount row) pools ∧
     check_proof tree (sr_claim_id row) (json row) = Ok tt) →
  ∀ g, fold_m (check_row tree fee) (map g pools) (zip (map merkle_row_of rows) (map json rows)) =
    Ok (map (fun pool => g pool + sum_N (map (fun row => gross fee (amount row pool)) rows)) pools).
Proof.
  intros Hf Ham. induction rows as [|row rows IH]; intros g; cbn [map zip zip_with fold_m].
  - unfold mret, outcome_ret. f_equal. apply map_ext. intros. cbn. lia.
  - destruct (Ham row) as [Ea Ep]; [by left|]. unfold check_row at 2.
    cbn [merkle_row_of mr_amounts mr_claim_id]. rewrite Ea, !length_map, Nat.eqb_refl.
    cbn [require negb bail_if mbind outcome_bind]. rewrite add_gross_amounts_map by done.
    cbn [mbind outcome_bind]. rewrite Ep. cbn [mbind outcome_bind].
    change (zip_with pair (map merkle_row_of rows) (map json rows))
      with (zip (map merkle_row_of rows) (map json rows)).
    rewrite IH by (intros; apply Ham; by right).
    f_equal. apply map_ext. intros pool. cbn [map sum_N foldr].
    fold (sum_N (map (fun row => gross fee (amount row pool)) rows)). lia.
Qed.
End Honest.

(** A signed artifact: the run's fields, with those the signing adds. *)
Definition candidate_keys : list string :=
  ["schemaVersion"; "chainId"; "registry"; "defiInsurance"; "incidentId"; "root"; "unresolvedClaims";
   "poolPayouts"; "poolAddrs"; "claimSetHash"; "teePcrHash"; "protocolFeeShareBps"; "rows";
   "settlementDigest"; "referenceBlock"].
Definition signed_run `{HexCrate} (run : SettlementRun) (config : BootstrapConfig) (p : bool)
    (s : EthereumSignature) (v : Value) : Prop :=
  (∀ key, key ∈ candidate_keys → at_key v key = at_key (artifact run config p) key) ∧
  at_key v "signature" = VString (es_signature s) ∧ at_key v "signer" = VString (es_signer s).
(** The trusted policy is that of the run's configuration. *)
Definition policy_of (config : BootstrapConfig) : PromotionPolicy :=
  mkPromotionPolicy (cfg_chain_id config) (cfg_registry config) (cfg_defi_insurance config).
Definition policy_valid (policy : PromotionPolicy) : Prop :=
  pol_chain_id policy ≠ 0 ∧ address_is_zero (pol_registry policy) = false ∧
  address_is_zero (pol_defi_insurance policy) = false.

Section Accepts.
Context `{HexLaws, Sha3Crate, !K256Crate, !K256Recover}.
Context (run : SettlementRun) (config : BootstrapConfig) (p : bool)
  (s : EthereumSignature) (v : Value).
Hypothesis Hsigned : signed_run run config p s v.
Let policy := policy_of config.

Lemma key_at key : key ∈ candidate_keys → at_key v key = at_key (artifact run config p) key.
Proof. apply Hsigned. Qed.
Ltac at_run := rewrite key_at by (unfold candidate_keys; set_solver).

Lemma binding_of_run : policy_valid policy →
  check_binding policy (to_decimal (run_incident_id run)) v = Ok tt.
Proof.
  intros (Hc & Hr & Hd). unfold check_binding. do 5 at_run. rewrite Hr, Hd, (proj2 (N.eqb_neq _ _) Hc).
  cbn [negb andb require bail_if mbind outcome_bind].
  change (at_key (artifact run config p) "registry") with (VString (address_to_string (cfg_registry config))).
  change (at_key (artifact run config p) "defiInsurance")
    with (VString (address_to_string (cfg_defi_insurance config))).
  change (at_key (artifact run config p) "incidentId") with (decimal_text (run_incident_id run)).
  change (as_i64 (at_key (artifact run config p) "schemaVersion")) with (Some 2%Z).
  change (as_u64 (at_key (artifact run config p) "chainId")) with (Some (pol_chain_id policy)).
  rewrite !bool_decide_eq_true_2 by done. cbn [andb require negb bail_if mbind outcome_bind all_of].
  rewrite !address_of_string. cbn [mbind outcome_bind]. rewrite bool_decide_eq_true_2 by done.
  cbn [mbind outcome_bind]. rewrite bool_decide_eq_true_2 by done.
  cbn [mbind outcome_bind require negb bail_if text decimal_text as_str ok_or].
  by rewrite String.eqb_refl.
Qed.

(** The digest input is read back, with its hashes in lower case. *)
Definition lower_hashes (input : SettlementDigestInput) : SettlementDigestInput :=
  mkSettlementDigestInput (sd_chain_id input) (sd_verifying_contract input) (sd_incident_id input)
    (to_ascii_lowercase (sd_root input)) (sd_unresolved_claims input) (sd_pool_payouts input)
    (sd_pool_addrs input) (to_ascii_lowercase (sd_claim_set input))
    (to_ascii_lowercase (sd_tee_pcr_hash input)).
Lemma hash_lower field t h : hash32 field t = Ok h → hash (VString t) = Ok (to_ascii_lowercase t).
Proof.
  intros Hh. apply hash_ok. exists t, field, h. split; [done|]. split; [done|].
  apply hash32_ok in Hh as (raw & -> & Hd). unfold hash_hex. rewrite (hex_encode_decode _ _ Hd).
  by rewrite to_ascii_lowercase_app.
Qed.
Lemma hash32_lower field t h : hash32 field t = Ok h → hash32 field (to_ascii_lowercase t) = Ok h.
Proof.
  rewrite !hash32_ok. intros (raw & -> & Hd). exists (to_ascii_lowercase raw).
  split; [by rewrite to_ascii_lowercase_app|by apply hex_decode_lower].
Qed.
Lemma settlement_digest_lower input d : settlement_digest input = Ok d →
  settlement_digest (lower_hashes input) = Ok d.
Proof.
  intros Hd. pose proof Hd as (root & cs & pcr & _ & _ & _ & _ & Hr & Hc & Hp & _)%settlement_digest_ok.
  revert Hd. unfold settlement_digest. cbn [lower_hashes sd_root sd_claim_set sd_tee_pcr_hash sd_chain_id
    sd_verifying_contract sd_incident_id sd_unresolved_claims sd_pool_payouts sd_pool_addrs].
  by rewrite Hr, Hc, Hp, (hash32_lower _ _ _ Hr), (hash32_lower _ _ _ Hc), (hash32_lower _ _ _ Hp).
Qed.
Lemma packed_small l h : packed_uint256_hash l = Ok h → Forall (fun n => n < 2 ^ 256) l.
Proof.
  unfold packed_uint256_hash. intros (ws & Hw%mapM_ok & _)%bind_ok.
  induction Hw; constructor; [by eapply word_small, word_ok|done].
Qed.
Lemma digest_input_of_run d : settlement_digest (digest_input_of run config) = Ok d →
  digest_input policy v = Ok (lower_hashes (digest_input_of run config)).
Proof.
  intros (root & cs & pcr & dom & inc & unr & pay & Hr & Hc & Hp & _ & Hi%word_ok%word_small &
    Hu%word_ok%word_small & Hpay%packed_small & _)%settlement_digest_ok.
  cbn [digest_input_of sd_root sd_claim_set sd_tee_pcr_hash sd_incident_id sd_unresolved_claims
    sd_pool_payouts] in *.
  unfold digest_input. do 7 at_run.
  change (at_key (artifact run config p) "incidentId") with (decimal_text (run_incident_id run)).
  change (at_key (artifact run config p) "root") with (VString (ko_root (run_output run))).
  change (at_key (artifact run config p) "unresolvedClaims")
    with (decimal_text (inc_unresolved_claims (run_window_incident run))).
  change (at_key (artifact run config p) "poolPayouts")
    with (VArray (map decimal_text (ko_pool_payouts (run_output run)))).
  change (at_key (artifact run config p) "poolAddrs")
    with (VArray (map (fun a => VString (address_to_string a)) (run_pool_addrs run))).
  change (at_key (artifact run config p) "claimSetHash") with (VString (ko_claim_set_hash (run_output run))).
  change (at_key (artifact run config p) "teePcrHash") with (VString (run_tee_pcr_hash run)).
  rewrite decimal_of_text by done. cbn [mbind outcome_bind]. rewrite (hash_lower _ _ _ Hr).
  cbn [mbind outcome_bind]. rewrite decimal_of_text by done.
  cbn [mbind outcome_bind array_of_values as_array ok_or]. rewrite decimals_texts by done.
  cbn [mbind outcome_bind array_of_values as_array ok_or].
  assert (∀ l, mapM address (map (fun a => VString (address_to_string a)) l) = Ok l) as Ha.
  { intros l. apply mapM_ok. induction l; constructor; [apply address_of_string|done]. }
  rewrite Ha. cbn [mbind outcome_bind]. rewrite (hash_lower _ _ _ Hc). cbn [mbind outcome_bind].
  by rewrite (hash_lower _ _ _ Hp).
Qed.

(** The kernel's rows and totals are those the verifier recomputes. *)
Lemma tree_rows incident_id (rows : list SettledRow) tree : 2 * vec_len rows ≤ u64_max →
  SettlementTree_new incident_id (map merkle_row_of rows) = Ok tree →
  ∀ row, row ∈ rows → ∃ leaf proof, standard_leaf_hash incident_id (merkle_row_of row) = Ok leaf ∧
    st_proofs tree !! sr_claim_id row = Some proof.
Proof.
  intros Hb Ht row Hr.
  destruct (settlement_tree_provable incident_id (map merkle_row_of rows) tree) as [Hall _].
  - unfold vec_len in *. by rewrite length_map.
  - done.
  - destruct (Hall (merkle_row_of row)) as (leaf & proof & Hl & Hp & _); [by apply list_elem_of_fmap_2|].
    by exists leaf, proof.
Qed.
Lemma check_rows_of_run input output :
  allocate_with_events input (run_events run) = Ok output → run_output run = output →
  run_incident_id run = ki_incident_id input →
  inc_protocol_fee_share_bps (run_incident run) = ki_protocol_fee_share_bps input →
  ko_rows output ≠ [] → 2 * vec_len (ko_rows output) ≤ u64_max →
  inc_unresolved_claims (run_window_incident run) = N.of_nat (length (ko_rows output)) →
  check_rows (lower_hashes (digest_input_of run config)) (inc_protocol_fee_share_bps (run_incident run))
    (map (row_json run p) (ko_rows output)) = Ok tt.
Proof.
  intros Hout Hrun Hid Hfee Hne Hbig Hn.
  apply allocate_with_events_parts in Hout as (claims & _ & Hmax & Hrows & Hpay & _ & _ & Htree).
  set (ordered := with_claims claims input) in *.
  assert (∃ tree, SettlementTree_new (ki_incident_id input) (map merkle_row_of (ko_rows output)) = Ok tree ∧
    root_hex tree = ko_root output ∧ all_proofs_hex tree = ko_proofs output) as (tree & Ht & Hroot & Hproofs).
  { destruct (ko_rows output); [done|exact Htree]. }
  pose proof (tree_rows _ _ _ Hbig Ht) as Hleaf.
  assert (mapM merkle_row (map (row_json run p) (ko_rows output)) =
    Ok (map merkle_row_of (ko_rows output))) as Hread.
  { apply mapM_map_map. intros row Hr. destruct (Hleaf row Hr) as (leaf & ? & Hl & _).
    by eapply merkle_row_json. }
  unfold check_rows. rewrite Hread.
  cbn [mbind outcome_bind lower_hashes digest_input_of sd_unresolved_claims sd_incident_id sd_root
    sd_pool_payouts].
  rewrite Hn, length_map, N.eqb_refl, Hid, Ht. cbn [require negb bail_if mbind outcome_bind map_err].
  rewrite Hrun, <-Hroot. unfold root_hex at 2. rewrite hash_hex_lower. unfold root_hex.
  rewrite String.eqb_refl. cbn [require negb bail_if mbind outcome_bind].
  rewrite Hpay, length_map, Hfee.
  assert (replicate (length (ki_pools input)) 0 = map (fun _ => 0) (ki_pools input)) as ->.
  { clear. induction (ki_pools input) as [|q l IH]; simpl; [done|]. by rewrite IH. }
  rewrite (check_rows_map tree (ki_protocol_fee_share_bps input) (ki_pools input)
    (fun row pool => amount_of ordered (sr_payout_usd row) pool) (row_json run p) (ko_rows output)).
  - cbn [mbind outcome_bind]. rewrite bool_decide_eq_true_2; [done|].
    apply map_ext. intros pool. rewrite Hrows, map_map. unfold pool_payout, gross, share, BPS. cbn. done.
  - unfold MAX_PROTOCOL_FEE_BPS in Hmax. done.
  - intros row Hr. split.
    + rewrite Hrows in Hr. apply list_elem_of_fmap in Hr as (r & -> & _). done.
    + destruct (Hleaf row Hr) as (leaf & proof & _ & Hp). eapply check_proof_json; [|exact Hp].
      by rewrite Hrun.
Qed.
End Accepts.

(** *** Signatures *)

Section Signatures.
Context `{HexLaws, Sha3Crate, K256Laws}.

Lemma recover_signer_of h sig odd key : normalize_s sig = None →
  recover_from_prehash (array_val h) sig (parity odd) = Some key →
  recover_signer (hash_hex h) (signature_to_bytes sig ++ [if odd : bool then x1c else x1b]) =
    Ok (array_of 20 (drop 12 (array_val (keccak256 (drop 1 key))))).
Proof.
  intros Hn Hr. unfold recover_signer, index_at. rewrite lookup_app_r by by rewrite signature_len.
  rewrite signature_len. change ([if odd then x1c else x1b] !! (64 - 64)%nat)
    with (Some (if odd then x1c else x1b)).
  cbn [mbind outcome_bind]. rewrite bool_decide_eq_true_2 by (destruct odd; auto).
  cbn [require negb bail_if mbind outcome_bind].
  rewrite take_app_length' by by rewrite signature_len. rewrite signature_round_trip.
  cbn [ok_or mbind outcome_bind]. rewrite Hn. cbn [ok_or require negb bail_if mbind outcome_bind]. unfold hash_hex.
  rewrite bytes_of_encoded by by rewrite array_length.
  cbn [mbind outcome_bind].
  assert (Byte.to_N (if odd then x1c else x1b) - 27 = parity odd) as -> by by destruct odd.
  by rewrite Hr.
Qed.
(** What [sign_digest] signs is recovered, with its signer. *)
Lemma sign_digest_recovers private_key h s : sign_digest private_key (array_val h) = Ok s →
  ∃ signature signer, es_signature s = ("0x" +:+ hex_encode signature)%string ∧
    length signature = 65%nat ∧ es_signer s = address_to_string signer ∧
    recover_signer (hash_hex h) signature = Ok signer.
Proof.
  unfold sign_digest. intros (d & Hd%ok_or_ok%try_array_Some%(inj array_val) & Hs)%bind_ok. subst d.
  apply bind_ok in Hs as (key & Hk & ([sig [odd reduced]] & Hsign%ok_or_ok & Hs)%bind_ok).
  destruct (match normalize_s sig with Some n => (n, negb odd) | None => (sig, odd) end)
    as [sig' odd'] eqn:En.
  apply bind_ok in Hs as ([] & ->%bail_if_ok & (signer & Hsigner & [= <-])%bind_ok).
  apply recover_signed in Hsign.
  assert (normalize_s sig' = None ∧
    recover_from_prehash (array_val h) sig' (parity odd') = Some (uncompressed_public_key key)) as [Hlow Hr].
  { destruct (normalize_s sig) as [n|] eqn:Es; injection En as <- <-; [|done].
    split; [by eapply normalized_low|by eapply recover_normalized]. }
  unfold ethereum_address in Hsigner. rewrite Hk in Hsigner. injection Hsigner as <-.
  eexists _, _. split; [done|]. split; [by rewrite length_app, signature_len|].
  split; [|by apply recover_signer_of].
  cbn [es_signer]. unfold address_of_key, address_to_string, hex0x. rewrite array_val_of; [done|].
  by rewrite length_drop, array_length.
Qed.
End Signatures.

(* ------------------------------------------------------------------ *)
(** ** Theorems *)

Section CandidateTheorems.
Context `{HexLaws, Sha3Crate, K256Laws}.


(** C24: The artifacts the program makes are accepted: for a settlement the kernel
    computes from its events, with at least one row and distinct nonzero pools, the
    artifact signed by [sign_digest] passes [verify_candidate] under the policy of the
    run's own configuration, for the signer of the key and the digest of the run,
    whether or not the proofs are included. *)
Theorem signed_run_accepted (run : SettlementRun) (config : BootstrapConfig) (p : bool)
    (private_key : list byte) (s : EthereumSignature) (v : Value) (input : KernelInput) (digest : Hash) :
  settlement_digest (digest_input_of run config) = Ok (run_digest run) → run_digest run = hash_hex digest →
  sign_digest private_key (array_val digest) = Ok s → signed_run run config p s v →
  allocate_with_events input (run_events run) = Ok (run_output run) →
  run_incident_id run = ki_incident_id input → 0 < run_incident_id run →
  inc_protocol_fee_share_bps (run_incident run) = ki_protocol_fee_share_bps input →
  inc_reference_block (run_incident run) ≤ u64_max →
  ko_rows (run_output run) ≠ [] → 2 * vec_len (ko_rows (run_output run)) ≤ u64_max →
  inc_unresolved_claims (run_window_incident run) = N.of_nat (length (ko_rows (run_output run))) →
  length (run_pool_addrs run) = length (ki_pools input) → NoDup (run_pool_addrs run) →
  forallb (fun a => negb (address_is_zero a)) (run_pool_addrs run) = true →
  policy_valid (policy_of config) → to_ascii_lowercase (ko_root (run_output run)) ≠ ZERO_HEX →
  ∃ c, verify_candidate (policy_of config) (to_decimal (run_incident_id run)) v = Ok c ∧
    address_to_string (cd_signer c) = es_signer s ∧ cd_digest c = run_digest run ∧
    cd_reference_block c = inc_reference_block (run_incident run).
Proof.
  intros Hdig Ehex Hsign Hsigned Hout Hid Hpos Hfee Href Hne Hbig Hn Hpools Hnd Hnz Hpolicy Hroot.
  pose proof Hout as (claims & _ & Hmax & _ & Hpay & _)%allocate_with_events_parts.
  pose proof (check_rows_of_run run config p input _ Hout eq_refl Hid Hfee Hne Hbig Hn) as Hrows.
  pose proof Hsigned as (Hkeys & Hvs & Hva).
  destruct (sign_digest_recovers _ _ _ Hsign) as (signature & signer & Es & Hlen & Ea & Hsig).
  rewrite <-Ehex in Hsig.
  eexists. split; [eapply (verify_candidate_steps _ _ _ (lower_hashes (digest_input_of run config))
    (inc_protocol_fee_share_bps (run_incident run)) (map (row_json run p) (ko_rows (run_output run)))
    (run_digest run) signature signer (inc_reference_block (run_incident run)))|by rewrite Ea].
  - by eapply binding_of_run.
  - by eapply digest_input_of_run.
  - cbn. lia.
  - exact Hroot.
  - unfold check_pools. cbn [lower_hashes digest_input_of sd_pool_addrs sd_pool_payouts].
    by rewrite Hpay, length_map, Hpools, Nat.eqb_refl, Hnz, bool_decide_eq_true_2.
  - rewrite Hkeys by (unfold candidate_keys; set_solver). apply decimal_number_ok. split; [done|]. rewrite Hfee.
    eapply N.le_trans; [exact Hmax|]. by vm_compute.
  - rewrite Hfee. exact Hmax.
  - by rewrite Hkeys by (unfold candidate_keys; set_solver).
  - exact Hrows.
  - by apply settlement_digest_lower.
  - rewrite Hkeys by (unfold candidate_keys; set_solver).
    change (at_key (artifact run config p) "settlementDigest") with (VString (run_digest run)).
    rewrite Ehex. apply hash_of_hash_hex.
  - rewrite Hvs, Es. apply bytes_of_encoded. lia.
  - exact Hsig.
  - rewrite Hva, Ea. apply address_of_string.
  - rewrite Hkeys by (unfold candidate_keys; set_solver). by apply decimal_number_ok.
Qed.
End CandidateTheorems.

(* ------------------------------------------------------------------ *)
(** ** Evaluated instances *)

(** A signature scheme with the laws: a signature is the key, twice. *)
Module RefK256.
#[export] Instance k256_crate : K256Crate := {|
  signing_key := array 32;
  ecdsa_signature := array 64;
  signing_key_from_slice bytes := try_array 32 bytes;
  uncompressed_public_key key := x04 :: array_val key ++ array_val key;
  sign_prehash_recoverable key _ := Some (array_of 64 (array_val key ++ array_val key), (false, false));
  normalize_s _ := None;
  signature_to_bytes s := array_val s
|}.
#[export] Instance k256_recover : K256Recover := {|
  signature_from_slice bytes := try_array 64 bytes;
  recover_from_prehash _ (s : ecdsa_signature) _ := Some (x04 :: array_val s)
|}.
#[export] Instance k256_laws : K256Laws.
Proof.
  split.
  - intros s. apply array_length.
  - intros s. by apply try_array_Some.
  - done.
  - done.
  - intros key d s odd [= <- <-]. cbn [recover_from_prehash k256_recover uncompressed_public_key k256_crate].
    do 2 f_equal. apply array_val_of. by rewrite length_app, !array_length.
Qed.
End RefK256.

#[local] Existing Instances RefHex.hex_crate RefHex.hex_laws RefSha3.sha3_crate RefSerde.serde_json.
#[local] Existing Instances RefK256.k256_crate RefK256.k256_recover RefK256.k256_laws.

Definition demo_key : list byte := replicate 32 x07.
Definition demo_pcr : Hash := array_of 32 (be_bytes 32 42).
(** Opened at block 12, with the scores of block 10 and two unresolved claims. *)
Definition demo_opened : Incident :=
  mkIncident sample_user 0 10 12 1164 ZERO_ROOT 2 ZERO_ROOT (hash_hex demo_pcr)
    (ki_protocol_fee_share_bps (demo_input demo_claims)).
Definition demo_signed_run (output : KernelOutput) (hash digest : string) : SettlementRun :=
  mkSettlementRun (ki_incident_id (demo_input demo_claims)) demo_opened demo_opened demo_opened
    (mkSettlementAnchors demo_anchor demo_anchor demo_anchor demo_anchor) hash (hash_hex demo_pcr)
    [sample_user; other_user] [sample_user; other_user] 1 1 demo_events output digest
    (MetaRaw 1) (mkRpcMetrics 0 0 0 0) default_log_metrics.
Definition sign_fields (fields : Value) (s : EthereumSignature) : Value :=
  match fields with
  | VObject fields => VObject (fields ++ [("signature", VString (es_signature s)); ("signer", VString (es_signer s))])
  | other => other
  end.
Lemma assoc_app key (fields rest : list (string * Value)) :
  is_Some (assoc key fields) → assoc key (fields ++ rest) = assoc key fields.
Proof.
  unfold assoc. induction fields as [|[k x] fields IH]; [by intros [? ?]|]. cbn [app List.find].
  by destruct (String.eqb k key).
Qed.
Lemma sign_fields_signed run config p s : signed_run run config p s (sign_fields (artifact run config p) s).
Proof.
  split; [|split; reflexivity]. intros key Hkey. unfold artifact. cbn [sign_fields]. unfold at_key, get.
  rewrite assoc_app; [done|].
  repeat (apply elem_of_cons in Hkey as [->|Hkey];
    [eexists; reflexivity|]). by apply elem_of_nil in Hkey.
Qed.
Definition demo_output : KernelOutput :=
  match allocate_with_events (demo_input demo_claims) demo_events with
  | Ok output => output
  | _ => mkKernelOutput [] [] "" "" "" ∅
  end.
Definition demo_signed_digest : Hash :=
  match settlement_digest (digest_input_of (demo_signed_run demo_output "" "") demo_config) with
  | Ok text => match hash32 "" text with Ok h => h | _ => ZERO_HASH end
  | _ => ZERO_HASH
  end.
Definition demo_finished : SettlementRun := demo_signed_run demo_output "" (hash_hex demo_signed_digest).
Definition demo_signature : EthereumSignature :=
  match sign_digest demo_key (array_val demo_signed_digest) with
  | Ok s => s | _ => mkEthereumSignature "" "" "" end.
Definition demo_signed_artifact : Value := sign_fields (artifact demo_finished demo_config true) demo_signature.

Example signed_run_accepted_witness : ∃ c,
  verify_candidate (policy_of demo_config) (to_decimal 77) demo_signed_artifact = Ok c ∧
  address_to_string (cd_signer c) = es_signer demo_signature.
Proof.
  destruct (signed_run_accepted demo_finished demo_config true demo_key demo_signature demo_signed_artifact
    (demo_input demo_claims) demo_signed_digest) as (c & Hc & Hs & _).
  - vm_compute. reflexivity.
  - reflexivity.
  - vm_compute. reflexivity.
  - apply sign_fields_signed.
  - vm_compute. reflexivity.
  - reflexivity.
  - reflexivity.
  - reflexivity.
  - vm_compute. discriminate.
  - vm_compute. discriminate.
  - vm_compute. discriminate.
  - vm_compute. reflexivity.
  - reflexivity.
  - apply (bool_decide_unpack _). vm_compute. exact I.
  - vm_compute. reflexivity.
  - split; [discriminate|split; vm_compute; reflexivity].
  - vm_compute. discriminate.
  - exists c. split; [exact Hc|exact Hs].
Defined.

Lemma ok_of_test {E A} (m : outcome E A) :
  match m with Ok _ => true | _ => false end = true → ∃ a, m = Ok a.
Proof. destruct m as [a|e|w]; [by exists a|discriminate|discriminate]. Qed.
Lemma demo_accepted : ∃ c,
  verify_candidate (policy_of demo_config) (to_decimal 77) demo_signed_artifact = Ok c.
Proof. apply ok_of_test. vm_compute. reflexivity. Qed.
Lemma demo_row_count json_rows : at_key demo_signed_artifact "rows" = VArray json_rows → vec_len json_rows = 2.
Proof.
  intros Hj. assert (vec_len <$> as_array (at_key demo_signed_artifact "rows") = Some 2) as Hn.
  { vm_compute. reflexivity. }
  rewrite Hj in Hn. by injection Hn.
Qed.
Lemma established_claim policy id artifact c rows tree : 2 * vec_len rows ≤ u64_max →
  establishes policy id artifact c rows tree →
  ∃ claim, provable (sd_incident_id (cd_input c)) (sd_root (cd_input c)) claim.
Proof.
  intros Hb He. destruct (ec_tree _ _ _ _ _ _ He) as (Ht & Hroot & _).
  destruct rows as [|claim rows]; [discriminate Ht|]. exists claim.
  destruct (settlement_tree_provable _ _ _ Hb Ht) as [Hall _].
  destruct (Hall claim) as (leaf & proof & Hl & _ & Hp & _); [left|].
  exists leaf, proof. split; [exact Hl|]. by rewrite <-Hroot, Hp.
Qed.
