(* ===== verification/EvidenceFacts.v ===== *)
(** * Evidence of an accepted settlement ([job-api/src/settlement_verifier.rs])

    What the bounded traversal accepts and charges, which calldata is a settlement
    call, and which frames of a call trace are judged. *)

From S2P Require Import Prelude Bytes Text Commit Merkle Kernel TypedData Rpc Abi Config Chain ChainConfig Checkpoint CheckpointStore Artifact JobProtocol SettlementVerifier CandidateFacts.
From Stdlib Require Import Strings.Byte Strings.Ascii.

Open Scope string_scope.
Open Scope N_scope.
Open Scope list_scope.

(* ------------------------------------------------------------------ *)
(** ** The bounded traversal *)

(** The depth of a value and the bytes it is charged, without machine widths. *)
Definition max_N (l : list N) : N := foldr N.max 0 l.
Fixpoint value_depth (v : Value) : N :=
  match v with
  | VArray l => max_N (map (fun v => 1 + value_depth v) l)
  | VObject fields => max_N (map (fun field => 1 + value_depth (snd field)) fields)
  | _ => 0
  end.
Fixpoint value_cost (v : Value) : N :=
  match v with
  | VString s => 32 + 6 * str_len s
  | VArray l => 32 + sum_N (map value_cost l)
  | VObject fields =>
      32 + sum_N (map (fun field => 6 * str_len (fst field) + 4 + value_cost (snd field)) fields)
  | _ => 32
  end.
Definition own_cost (v : Value) : N :=
  match v with
  | VString s => 32 + 6 * str_len s
  | VObject fields => 32 + sum_N (map (fun field => 6 * str_len (fst field) + 4) fields)
  | _ => 32
  end.
Definition children_of (v : Value) : list Value :=
  match v with VArray l => l | VObject fields => map snd fields | _ => [] end.

Lemma max_N_le l n : max_N l ≤ n ↔ Forall (fun x => x ≤ n) l.
Proof.
  unfold max_N. induction l as [|x l IH]; cbn [foldr]; [split; [constructor|lia]|].
  rewrite Forall_cons, <-IH. lia.
Qed.
Lemma list_sum_perm l k : l ≡ₚ k → list_sum l = list_sum k.
Proof. unfold list_sum. induction 1; cbn [foldr]; lia. Qed.

Lemma value_nodes_children v : value_nodes v = S (list_sum (map value_nodes (children_of v))).
Proof. destruct v; try done. cbn [value_nodes children_of]. by rewrite map_map. Qed.
Lemma value_cost_children v : value_cost v = own_cost v + sum_N (map value_cost (children_of v)).
Proof.
  destruct v as [|b|n|s|l|fields]; cbn [value_cost own_cost children_of]; try (cbn; lia).
  rewrite map_map. assert (∀ a, a + sum_N (map (fun field : string * Value =>
      6 * str_len field.1 + 4 + value_cost field.2) fields) =
    a + sum_N (map (fun field => 6 * str_len field.1 + 4) fields) +
    sum_N (map (fun field => value_cost field.2) fields)) as Hs; [|apply Hs].
  intros a. induction fields as [|f fields IH]; cbn [map sum_N foldr] in *; [lia|].
  unfold sum_N in *. lia.
Qed.
Lemma value_depth_children v d : 1 + value_depth v ≤ d ↔
  1 ≤ d ∧ Forall (fun c => 1 + value_depth c ≤ d - 1) (children_of v).
Proof.
  assert (∀ l, 1 + max_N (map (fun c => 1 + value_depth c) l) ≤ d ↔
    1 ≤ d ∧ Forall (fun c => 1 + value_depth c ≤ d - 1) l) as Hl.
  { intros l. destruct (N.le_gt_cases 1 d) as [Hd|Hd]; [|split; [intros; exfalso; lia|intros [? _]; lia]].
    rewrite <-(Forall_map (fun c => 1 + value_depth c) (fun n => n ≤ d - 1)), <-max_N_le.
    unfold max_N. lia. }
  destruct v as [|b|n|s|l|fields]; try (rewrite <-(Hl []); done); cbn [value_depth children_of].
  - apply Hl.
  - rewrite <-(map_map snd (fun v => 1 + value_depth v)). apply Hl.
Qed.
Lemma nodes_length l : (length l ≤ list_sum (map value_nodes l))%nat.
Proof.
  induction l as [|v l IH]; [done|]. cbn [length map list_sum foldr]. rewrite value_nodes_children.
  unfold list_sum in *. lia.
Qed.

(** The charge is the cost, up to saturation. *)
Lemma field_charges fields : ∀ a, fold_left (fun charge (field : string * Value) =>
    saturating_add charge (saturating_add (saturating_mul (str_len (fst field)) 6) 4)) fields (N.min a u64_max) =
  N.min (a + sum_N (map (fun field => 6 * str_len (fst field) + 4) fields)) u64_max.
Proof.
  induction fields as [|f fields IH]; intros a; cbn [fold_left map sum_N foldr]; [f_equal; lia|].
  replace (saturating_add (N.min a u64_max) (saturating_add (saturating_mul (str_len f.1) 6) 4))
    with (N.min (a + (6 * str_len f.1 + 4)) u64_max).
  - rewrite IH. unfold sum_N. f_equal. lia.
  - unfold saturating_add, saturating_mul. generalize u64_max. lia.
Qed.
Lemma charge_of_cases v :
  (∃ e, charge_of v = Err e ∧ 65536 < N.of_nat (length (children_of v))) ∨
  (charge_of v = Ok (N.min (own_cost v) u64_max, children_of v)).
Proof.
  assert (32 = N.min 32 u64_max) as H32 by reflexivity.
  destruct v as [|b|n|s|l|fields]; try (right; cbn [charge_of own_cost children_of]; by rewrite <-H32).
  - right. cbn [charge_of own_cost children_of]. do 2 f_equal. unfold saturating_add, saturating_mul. lia.
  - cbn [charge_of own_cost children_of]. destruct (N.ltb_spec 65536 (N.of_nat (length l))) as [Hl|Hl].
    + left. eexists. split; [done|lia].
    + right. by rewrite <-H32.
  - cbn [charge_of own_cost children_of]. rewrite length_map.
    destruct (N.ltb_spec 65536 (N.of_nat (length fields))) as [Hl|Hl].
    + left. eexists. split; [done|lia].
    + right. cbn [bail_if mbind outcome_bind]. rewrite H32 at 1. by rewrite field_charges.
Qed.

(** What remains on the stack: its nodes, its cost, and whether its depths fit. *)
Definition stack_nodes (stack : list (Value * N)) : nat :=
  list_sum (map (fun item => value_nodes (fst item)) stack).
Definition stack_cost (stack : list (Value * N)) : N :=
  sum_N (map (fun item => value_cost (fst item)) stack).
Definition stack_fits (stack : list (Value * N)) : Prop :=
  Forall (fun item => snd item + value_depth (fst item) ≤ 96) stack.
(** The limits of one traversal. *)
Definition within (nodes : N) (stack : list (Value * N)) (budget : N) : Prop :=
  stack_fits stack ∧ nodes + N.of_nat (stack_nodes stack) ≤ 65536 ∧ stack_cost stack ≤ budget.

Definition pushed (children : list Value) (depth : N) (stack : list (Value * N)) : list (Value * N) :=
  rev (map (fun v => (v, depth + 1)) children) ++ stack.

Lemma sum_N_rev l : sum_N (rev l) = sum_N l.
Proof. apply sum_N_perm. symmetry. apply Permutation_rev. Qed.
Lemma list_sum_rev l : list_sum (rev l) = list_sum l.
Proof. apply list_sum_perm. symmetry. apply Permutation_rev. Qed.
Lemma map_paired {B} (f : Value → B) (d : N) l :
  map (fun item => f (fst item)) (map (fun v => (v, d)) l) = map f l.
Proof. by rewrite map_map. Qed.
Lemma pushed_nodes v d stack :
  S (stack_nodes (pushed (children_of v) d stack)) = stack_nodes ((v, d) :: stack).
Proof.
  unfold stack_nodes, pushed. cbn [map list_sum foldr fst]. rewrite value_nodes_children.
  rewrite map_app, list_sum_app, map_rev, list_sum_rev, map_paired. unfold list_sum. lia.
Qed.
Lemma pushed_cost v d stack :
  own_cost v + stack_cost (pushed (children_of v) d stack) = stack_cost ((v, d) :: stack).
Proof.
  unfold stack_cost, pushed. cbn [map sum_N foldr fst]. rewrite value_cost_children.
  rewrite map_app, sum_N_app, map_rev, sum_N_rev, map_paired. unfold sum_N. lia.
Qed.
Lemma pushed_fits v d stack :
  stack_fits ((v, d) :: stack) ↔ d ≤ 96 ∧ stack_fits (pushed (children_of v) d stack).
Proof.
  unfold stack_fits, pushed. rewrite Forall_cons, Forall_app, <-Permutation_rev, Forall_map.
  cbn [compose fst snd].
  assert (d + value_depth v ≤ 96 ↔ 1 + value_depth v ≤ 97 - d ∧ d ≤ 96) as -> by lia.
  rewrite value_depth_children. split.
  - intros [[[_ Hc] Hd] Hs]. split; [done|]. split; [|done].
    eapply Forall_impl; [exact Hc|]. cbn. intros c. lia.
  - intros (Hd & Hc & Hs). split; [|done]. split; [|done]. split; [lia|].
    eapply Forall_impl; [exact Hc|]. cbn. intros c. lia.
Qed.

(** The loop charges exactly the cost of what it accepts, and accepts what is within
    the limits; the fuel it is given is enough. *)
Lemma evidence_loop_spec fuel : ∀ nodes stack budget, budget < u64_max → nodes ≤ 65536 →
  (stack_nodes stack ≤ fuel)%nat →
  (within nodes stack budget ∧
   evidence_loop fuel nodes stack budget = (Ok tt, budget - stack_cost stack)) ∨
  (¬ within nodes stack budget ∧ ∃ e budget', evidence_loop fuel nodes stack budget = (Err e, budget')).
Proof.
  induction fuel as [|fuel IH]; intros nodes [|[v d] stack] budget Hb Hn Hf.
  1, 3: left; cbn [evidence_loop]; unfold stack_cost, within, stack_cost, stack_nodes; cbn;
    rewrite N.sub_0_r; split; [split; [constructor|split; lia]|done].
  { exfalso. unfold stack_nodes in Hf. cbn [map list_sum foldr fst] in Hf.
    rewrite value_nodes_children in Hf. cbn in Hf. lia. }
  pose proof (pushed_nodes v d stack) as Pn. pose proof (pushed_cost v d stack) as Pc.
  pose proof (pushed_fits v d stack) as Pf. unfold within.
  cbn [evidence_loop]. unfold mbind, io_bind, lift. cbv beta.
  destruct (N.ltb_spec 96 d) as [Hd|Hd]; cbn [orb].
  { right. split; [rewrite Pf; lia|]. by eexists _, _. }
  destruct (N.ltb_spec 65536 (nodes + 1)) as [Hn1|Hn1]; cbn [bail_if].
  { right. split; [rewrite <-Pn; lia|]. by eexists _, _. }
  destruct (charge_of_cases v) as [(e & -> & Hl)| ->].
  { right. split; [|by eexists _, _]. rewrite <-Pn. unfold stack_nodes, pushed.
    rewrite map_app, list_sum_app, map_rev, list_sum_rev, map_paired.
    pose proof (nodes_length (children_of v)) as Hc. intros (_ & Hnodes & _). lia. }
  cbn [get_state]. unfold checked_sub.
  destruct (N.leb_spec (N.min (own_cost v) u64_max) budget) as [Hc|Hc]; cbn [ok_or].
  2: { right. split; [rewrite <-Pc; lia|]. by eexists _, _. }
  unfold put_state. fold (pushed (children_of v) d stack).
  destruct (IH (nodes + 1) (pushed (children_of v) d stack) (budget - N.min (own_cost v) u64_max))
    as [[[Hw1 [Hw2 Hw3]] ->]|[Hw (e & b' & ->)]]; [lia|lia|lia|..].
  - left. rewrite Pf, <-Pn, <-Pc. split; [split; [done|lia]|]. f_equal. lia.
  - right. rewrite Pf, <-Pn, <-Pc. split; [|by eexists _, _].
    intros ([_ Hs] & Hns & Hcs). apply Hw. split; [done|]. split; lia.
Qed.

Lemma bounded_evidence_cases (value : Value) (budget : N) : budget < u64_max →
  (value_depth value ≤ 96 ∧ N.of_nat (value_nodes value) ≤ 65536 ∧ value_cost value ≤ budget ∧
   bounded_evidence value budget = (Ok tt, budget - value_cost value)) ∨
  (¬ (value_depth value ≤ 96 ∧ N.of_nat (value_nodes value) ≤ 65536 ∧ value_cost value ≤ budget) ∧
   ∃ e budget', bounded_evidence value budget = (Err e, budget')).
Proof.
  intros Hb. unfold bounded_evidence.
  assert (stack_nodes [(value, 0)] = value_nodes value ∧ stack_cost [(value, 0)] = value_cost value ∧
    (stack_fits [(value, 0)] ↔ value_depth value ≤ 96)) as (En & Ec & Ef).
  { unfold stack_nodes, stack_cost, stack_fits. cbn. rewrite Forall_singleton. cbn. repeat split; lia. }
  destruct (evidence_loop_spec (value_nodes value) 0 [(value, 0)] budget) as [[Hw ->]|[Hw He]];
    [done|lia|lia|left|right]; unfold within in Hw; rewrite Ef, En, Ec, N.add_0_l in Hw.
  - rewrite Ec. naive_solver.
  - done.
Qed.
Lemma bounded_evidence_limits value budget : budget < u64_max →
  (value_depth value ≤ 96 ∧ N.of_nat (value_nodes value) ≤ 65536 ∧ value_cost value ≤ budget ∧
   bounded_evidence value budget = (Ok tt, budget - value_cost value)) ∨
  ∃ e budget', bounded_evidence value budget = (Err e, budget').
Proof. intros Hb. destruct (bounded_evidence_cases value budget Hb) as [?|[_ ?]]; [by left|by right]. Qed.

(* ------------------------------------------------------------------ *)
(** ** Calldata *)

(** The bytes of [data] at [start]. *)
Definition slice (data : list byte) (start len : N) (piece : list byte) : Prop :=
  start + len ≤ N.of_nat (length data) ∧ piece = take (N.to_nat len) (drop (N.to_nat start) data).
Definition number_at (data : list byte) (start n : N) : Prop :=
  ∃ word, slice data start 32 word ∧ from_bytes_be word = n.

Lemma slice_length data start len piece : slice data start len piece → length piece = N.to_nat len.
Proof. intros [Hl ->]. rewrite length_take, length_drop. lia. Qed.
Lemma slice_det data start len a b : slice data start len a → slice data start len b → a = b.
Proof. by intros [_ ->] [_ ->]. Qed.
Lemma number_det data start n m : number_at data start n → number_at data start m → n = m.
Proof. intros (a & Ha & <-) (b & Hb & <-). by rewrite (slice_det _ _ _ _ _ Ha Hb). Qed.
Lemma slice_app (pre piece rest : list byte) start len :
  N.of_nat (length pre) = start → N.of_nat (length piece) = len → slice (pre ++ piece ++ rest) start len piece.
Proof.
  intros Hs Hl. split; [rewrite !length_app; lia|].
  rewrite drop_app_length' by lia. by rewrite take_app_length' by lia.
Qed.

(** [settleIncident(bytes32,uint256[],bytes)]: the root, and the offsets of the
    payouts and of the signature, each with its length before it. *)
Definition payout_words (payouts : list N) : list byte := concat (map (be_bytes 32) payouts).
Definition encodes_settlement `{Sha3Crate} (data root : list byte) (payouts : list N)
    (signature : list byte) : Prop :=
  ∃ args payouts_at signature_at,
    data = SettlementVerifier.selector "settleIncident(bytes32,uint256[],bytes)" ++ args ∧
    slice args 0 32 root ∧ number_at args 32 payouts_at ∧ number_at args 64 signature_at ∧
    number_at args payouts_at (N.of_nat (length payouts)) ∧
    slice args (payouts_at + 32) (32 * N.of_nat (length payouts)) (payout_words payouts) ∧
    number_at args signature_at 65 ∧ slice args (signature_at + 32) 65 signature.

(** The canonical encoding. *)
Definition settle_calldata `{Sha3Crate} (root : list byte) (payouts : list N) (signature : list byte) : list byte :=
  let n := N.of_nat (length payouts) in
  SettlementVerifier.selector "settleIncident(bytes32,uint256[],bytes)" ++
  root ++ be_bytes 32 96 ++ be_bytes 32 (96 + 32 + 32 * n) ++
  be_bytes 32 n ++ payout_words payouts ++ be_bytes 32 65 ++ signature ++ replicate 31 x00.

Lemma length_payout_words l : length (payout_words l) = (32 * length l)%nat.
Proof.
  unfold payout_words. induction l as [|n l IH]; [done|]. cbn [map concat].
  rewrite length_app, length_be_bytes, IH. cbn [length]. lia.
Qed.
Lemma payout_words_inj l : ∀ k, length l = length k → Forall (fun n => n < 2 ^ 256) l →
  Forall (fun n => n < 2 ^ 256) k → payout_words l = payout_words k → l = k.
Proof.
  unfold payout_words. induction l as [|n l IH]; intros [|m k] Hlen Hl Hk E; try discriminate Hlen; [done|].
  inversion_clear Hl as [|?? Hn Hl']. inversion_clear Hk as [|?? Hm Hk']. cbn [map concat] in E.
  apply app_inj_1 in E as [E1 E2]; [|by rewrite !length_be_bytes]. injection Hlen as Hlen.
  f_equal; [|by apply IH]. by apply (be_bytes_inj 32) in E1.
Qed.

Lemma number_at_app pre n k rest start : n < 2 ^ 256 → k = 32%nat → N.of_nat (length pre) = start →
  number_at (pre ++ be_bytes k n ++ rest) start n.
Proof.
  intros Hn -> Hs. exists (be_bytes 32 n). split; [apply slice_app; [done|by rewrite length_be_bytes]|].
  rewrite from_be_bytes. apply N.mod_small. exact Hn.
Qed.

Section CalldataFacts.
Context `{HexLaws, Sha3Crate}.

Lemma selector_length name : length (SettlementVerifier.selector name) = 4%nat.
Proof. unfold SettlementVerifier.selector. by rewrite length_take, array_length. Qed.
Lemma settle_calldata_encodes root payouts signature : length root = 32%nat → length signature = 65%nat →
  N.of_nat (length payouts) ≤ u64_max → Forall (fun n => n < 2 ^ 256) payouts →
  encodes_settlement (settle_calldata root payouts signature) root payouts signature.
Proof.
  intros Hr Hs Hn Hp. unfold settle_calldata, encodes_settlement. set (n := N.of_nat (length payouts)) in *.
  assert (96 + 32 + 32 * n < 2 ^ 256) as Hoff.
  { eapply N.le_lt_trans with (96 + 32 + 32 * u64_max); [lia|]. by vm_compute. }
  assert (n < 2 ^ 256) as Hn' by lia. assert (96 < 2 ^ 256 ∧ 65 < 2 ^ 256) as [H96 H65] by by vm_compute.
  eexists _, 96, (96 + 32 + 32 * n). split; [done|].
  set (r := root) in *. repeat split.
  - rewrite !length_app. lia.
  - change (drop (N.to_nat 0) (?x)) with x. by rewrite take_app_length' by lia.
  - apply number_at_app; [done|done|lia].
  - rewrite (app_assoc r). apply number_at_app; [done|done|]. rewrite length_app, length_be_bytes. lia.
  - rewrite (app_assoc r), (app_assoc (r ++ _)). apply number_at_app; [done|done|].
    rewrite !length_app, !length_be_bytes. lia.
  - rewrite !length_app, !length_be_bytes, length_payout_words. lia.
  - rewrite (app_assoc r), (app_assoc (r ++ _)), (app_assoc ((r ++ _) ++ _)).
    eapply slice_app; [|rewrite length_payout_words; lia].
    rewrite !length_app, !length_be_bytes. lia.
  - rewrite (app_assoc r), (app_assoc (r ++ _)), (app_assoc ((r ++ _) ++ _)),
      (app_assoc (((r ++ _) ++ _) ++ _)). apply number_at_app; [done|done|].
    rewrite !length_app, !length_be_bytes, length_payout_words. lia.
  - rewrite !length_app, !length_be_bytes, length_payout_words. lia.
  - rewrite (app_assoc r), (app_assoc (r ++ _)), (app_assoc ((r ++ _) ++ _)),
      (app_assoc (((r ++ _) ++ _) ++ _)), (app_assoc ((((r ++ _) ++ _) ++ _) ++ _)).
    eapply slice_app; [|lia]. rewrite !length_app, !length_be_bytes, length_payout_words. lia.
Qed.
(** The calldata determines what it settles. *)
Lemma encodes_settlement_det data r1 p1 s1 r2 p2 s2 :
  Forall (fun n => n < 2 ^ 256) p1 → Forall (fun n => n < 2 ^ 256) p2 →
  encodes_settlement data r1 p1 s1 → encodes_settlement data r2 p2 s2 → r1 = r2 ∧ p1 = p2 ∧ s1 = s2.
Proof.
  intros Hp1 Hp2 (a1 & o1 & q1 & -> & R1 & O1 & Q1 & N1 & W1 & _ & S1)
    (a2 & o2 & q2 & E & R2 & O2 & Q2 & N2 & W2 & _ & S2).
  apply app_inv_head in E. subst a2. pose proof (number_det _ _ _ _ O1 O2) as <-.
  pose proof (number_det _ _ _ _ Q1 Q2) as <-.
  pose proof (number_det _ _ _ _ N1 N2) as Hlen%Nat2N.inj.
  split; [by eapply slice_det|]. split; [|by eapply slice_det].
  apply payout_words_inj; [done..|]. rewrite <-Hlen in W2. by eapply slice_det.
Qed.

(** *** The checked reads *)

Section Reads.
Context (data : list byte).
Hypothesis Hmem : N.of_nat (length data) ≤ usize_max.

Lemma range_ok start len piece : range data start len = Ok piece ↔ slice data start len piece.
Proof.
  unfold range, slice. destruct (N.leb_spec (start + len) usize_max) as [Hu|Hu]; cbn [ok_or mbind outcome_bind].
  - destruct (N.leb_spec (start + len) (N.of_nat (length data))) as [Hl|Hl]; [|split; [done|lia]].
    split; [intros [= <-]; done|by intros [_ ->]].
  - split; [done|lia].
Qed.
Lemma range_no_panic start len : no_panic (range data start len).
Proof. unfold range. solve_no_panic. Qed.
Lemma size_fold word n :
  fold_m (fun n b => n ← ok_or (checked_mul n 256) tt; ok_or (checked_add n (Byte.to_N b)) tt) 0 word
    = (Ok n : outcome unit N) ↔ from_bytes_be word = n ∧ n ≤ u64_max.
Proof.
  revert n. induction word as [|b word IH] using rev_ind; intros n.
  { split; [by intros [= <-]|by intros [<- _]]. }
  rewrite fold_m_snoc, from_bytes_be_snoc, bind_ok. setoid_rewrite bind_ok. setoid_rewrite ok_or_ok.
  setoid_rewrite IH. unfold checked_mul. setoid_rewrite checked_add_Some. split.
  - intros (m & [<- Hm] & x & Hx & -> & Hle). destruct (N.leb_spec (from_bytes_be word * 256) u64_max);
      [|discriminate Hx]. by injection Hx as <-.
  - intros [<- Hle]. exists (from_bytes_be word). split; [split; [done|lia]|].
    exists (from_bytes_be word * 256). rewrite (proj2 (N.leb_le _ _)) by lia. done.
Qed.
Lemma size_at_ok start n : size_at data start = Ok n ↔ number_at data start n ∧ n ≤ u64_max.
Proof.
  unfold size_at, number_at. rewrite bind_ok. setoid_rewrite range_ok. setoid_rewrite size_fold. naive_solver.
Qed.
Lemma size_at_no_panic start : no_panic (size_at data start).
Proof.
  unfold size_at. apply no_panic_bind; [apply range_no_panic|intros]. apply no_panic_fold_m. intros.
  solve_no_panic.
Qed.
End Reads.
End CalldataFacts.

(** *** The call of a candidate *)

Lemma chunks_go_fuel {A} n : (0 < n)%nat → ∀ f g (l : list A), (length l ≤ f)%nat → (length l ≤ g)%nat →
  chunks_go f n l = chunks_go g n l.
Proof.
  intros Hn. induction f as [|f IH]; intros [|g] [|x l] Hf Hg; try done; cbn [length] in *; [lia..|].
  cbn [chunks_go]. f_equal. apply IH; rewrite length_drop; cbn [length]; lia.
Qed.

(** What [verify_candidate] leaves in a candidate: its hashes are of 32 bytes and its
    payouts are words. *)
Definition well_formed `{HexCrate} (c : Candidate) (root pcr : Hash) : Prop :=
  sd_root (cd_input c) = hash_hex root ∧ sd_tee_pcr_hash (cd_input c) = hash_hex pcr ∧
  Forall (fun n => n < 2 ^ 256) (sd_pool_payouts (cd_input c)) ∧ length (cd_signature c) = 65%nat ∧
  sd_incident_id (cd_input c) < 2 ^ 256.

Section Matching.
Context `{HexLaws, Sha3Crate}.

Lemma skip2_hash {E} h : (skip2 (hash_hex h) : outcome E string) = Ok (hex_encode (array_val h)).
Proof. done. Qed.
Lemma padded_word_payout {E} n : n < 2 ^ 256 → (padded_word (to_bytes_be n) : outcome E (list byte)) = Ok (be_bytes 32 n).
Proof.
  intros Hn. unfold padded_word.
  rewrite (proj2 (Nat.leb_le _ _)) by (apply length_to_bytes_be; [lia|exact Hn]).
  by rewrite pad_to_bytes_be by (lia || exact Hn).
Qed.
Lemma words_match_spec payouts : Forall (fun n => n < 2 ^ 256) payouts → ∀ words,
  length words = (32 * length payouts)%nat →
  words_match words payouts = Ok (bool_decide (words = payout_words payouts)).
Proof.
  unfold words_match, chunks.
  induction 1 as [|n payouts Hn Hp IH]; intros words Hl.
  { destruct words; [done|discriminate Hl]. }
  cbn [length] in Hl.
  assert (chunks_go (length words) 32 words =
    take 32 words :: chunks_go (length (drop 32 words)) 32 (drop 32 words)) as ->.
  { destruct words as [|b words]; [cbn in Hl; lia|]. cbn [length chunks_go]. f_equal.
    apply chunks_go_fuel; [lia|rewrite length_drop; cbn [length]; lia|done]. }
  cbn [zip zip_with map all_of]. rewrite padded_word_payout by done. cbn [mbind outcome_bind].
  assert (payout_words (n :: payouts) = be_bytes 32 n ++ payout_words payouts) as -> by done.
  destruct (decide (take 32 words = be_bytes 32 n)) as [E|E].
  - rewrite bool_decide_eq_true_2 by done. rewrite IH by (rewrite length_drop; lia). f_equal.
    apply bool_decide_ext. rewrite <-(take_drop 32 words) at 2. rewrite E. split; [by intros ->|].
    by intros ?%app_inv_head.
  - rewrite bool_decide_eq_false_2 by done. rewrite bool_decide_eq_false_2; [done|].
    intros Eq. apply E. rewrite Eq. apply take_app_length'. by rewrite length_be_bytes.
Qed.

Context (c : Candidate) (root pcr : Hash).
Hypothesis Hc : well_formed c root pcr.
Let payouts := sd_pool_payouts (cd_input c).

Lemma root_bytes_ok : root_bytes c = Ok (array_val root).
Proof.
  destruct Hc as (Hr & _). unfold root_bytes. rewrite Hr, skip2_hash. cbn [mbind outcome_bind].
  by rewrite hex_decode_encode.
Qed.
Lemma if_negb_ok {E} (b : bool) (m : outcome E bool) : (if negb b then Ok false else m) = Ok true ↔ b = true ∧ m = Ok true.
Proof. destruct b; cbn; naive_solver. Qed.

Lemma matches_sound data raw : N.of_nat (length data) ≤ usize_max → hex_decode raw = Some data →
  matches c ("0x" +:+ raw) = Ok true → encodes_settlement data (array_val root) payouts (cd_signature c).
Proof.
  intros Hmem Hd. unfold matches. rewrite strip_prefix_app. cbn [ok_or mbind outcome_bind]. rewrite Hd.
  cbn [ok_or mbind outcome_bind]. intros (hd & Hhd%range_ok & Hm)%bind_ok; [|done].
  apply if_negb_ok in Hm as [->%bool_decide_eq_true Hm]. apply bind_ok in Hm as (args & Ha & Hm).
  destruct (Nat.leb_spec 4 (length data)) as [Hl|]; [injection Ha as <-|discriminate Ha].
  set (args := drop 4 data) in *.
  assert (N.of_nat (length args) ≤ usize_max) as Hmem' by (unfold args; rewrite length_drop; lia).
  apply bind_ok in Hm as (? & _ & (r & Hr%range_ok & Hm)%bind_ok); [|done]. rewrite root_bytes_ok in Hm.
  cbn [mbind outcome_bind] in Hm. apply if_negb_ok in Hm as [->%bool_decide_eq_true Hm].
  apply bind_ok in Hm as (p & [Hp _]%size_at_ok & (q & [Hq _]%size_at_ok & Hm)%bind_ok); [|done..].
  apply bind_ok in Hm as (n & [Hn _]%size_at_ok & (shaped & Hs & Hm)%bind_ok); [|done].
  apply if_negb_ok in Hm as [-> Hm]. apply if_negb_ok in Hs as [->%N.eqb_eq Hs].
  apply bind_ok in Hs as (n65 & [H65 _]%size_at_ok & [= ->%N.eqb_eq]); [|done].
  apply bind_ok in Hm as (start & [-> _]%ok_or_ok%checked_add_Some & Hm).
  apply bind_ok in Hm as (len & Hlen%ok_or_ok & (words & Hw%range_ok & Hm)%bind_ok); [|done].
  unfold checked_mul in Hlen. destruct (_ <=? _); [injection Hlen as <-|discriminate Hlen].
  pose proof (slice_length _ _ _ _ Hw) as Hwl. destruct Hc as (_ & _ & Hpay & _).
  fold payouts in Hn, Hw, Hm, Hpay, Hwl. rewrite (words_match_spec payouts Hpay) in Hm by lia.
  cbn [mbind outcome_bind] in Hm. apply if_negb_ok in Hm as [->%bool_decide_eq_true Hm].
  apply bind_ok in Hm as (start & [-> _]%ok_or_ok%checked_add_Some & (found & Hf%range_ok & Hm)%bind_ok); [|done].
  injection Hm as ->%bool_decide_eq_true.
  exists args, p, q. split; [|do 4 (split; [done|])].
  - unfold args. destruct Hhd as [_ Hhd]. change (drop (N.to_nat 0) data) with data in Hhd.
    change (N.to_nat 4) with 4%nat in Hhd. rewrite Hhd. symmetry. apply take_drop.
  - rewrite (N.mul_comm 32). done.
Qed.

Lemma matches_complete data raw : N.of_nat (length data) ≤ usize_max → hex_decode raw = Some data →
  encodes_settlement data (array_val root) payouts (cd_signature c) → matches c ("0x" +:+ raw) = Ok true.
Proof.
  intros Hmem Hd (args & p & q & -> & Hr & Hp & Hq & Hn & Hw & H65 & Hs).
  rewrite length_app, selector_length in Hmem.
  assert (N.of_nat (length args) ≤ usize_max) as Hmem' by lia.
  assert (∀ start n, number_at args start n → start ≤ u64_max ∧ start + 32 ≤ N.of_nat (length args)) as Hoff.
  { intros start n (w & [Hb _] & _). unfold usize_max in *. lia. }
  unfold matches. rewrite strip_prefix_app. cbn [ok_or mbind outcome_bind]. rewrite Hd.
  cbn [ok_or mbind outcome_bind].
  set (sel := SettlementVerifier.selector "settleIncident(bytes32,uint256[],bytes)") in *.
  assert (length sel = 4%nat) as Hsel by apply selector_length.
  assert (N.of_nat (length (sel ++ args)) ≤ usize_max) as Hmem4 by (rewrite length_app; lia).
  rewrite (proj2 (range_ok (sel ++ args) Hmem4 0 4 sel)) by (apply (slice_app []); [done|by rewrite Hsel]).
  cbn [mbind outcome_bind]. rewrite bool_decide_eq_true_2 by done. cbn [negb].
  rewrite (proj2 (Nat.leb_le _ _)) by (rewrite length_app; lia).
  rewrite drop_app_length' by done. cbn [mbind outcome_bind].
  pose proof (Hoff _ _ Hq) as Hq'. pose proof (Hoff _ _ Hn) as Hn'. pose proof (Hoff _ _ H65) as Hs'.
  rewrite (proj2 (range_ok args Hmem' 0 96 (take 96 args))) by (split; [lia|done]). cbn [mbind outcome_bind].
  rewrite (proj2 (range_ok args Hmem' _ _ _) Hr). cbn [mbind outcome_bind]. rewrite root_bytes_ok.
  cbn [mbind outcome_bind]. rewrite bool_decide_eq_true_2 by done. cbn [negb].
  rewrite (proj2 (size_at_ok args Hmem' 32 p)) by (split; [done|lia]). cbn [mbind outcome_bind].
  rewrite (proj2 (size_at_ok args Hmem' 64 q)) by (split; [done|lia]). cbn [mbind outcome_bind].
  assert (32 * N.of_nat (length payouts) ≤ u64_max) as Hnb.
  { destruct Hw as [Hw _]. unfold usize_max in *. lia. }
  rewrite (proj2 (size_at_ok args Hmem' p _)) by (split; [exact Hn|lia]). cbn [mbind outcome_bind].
  fold payouts. rewrite N.eqb_refl. cbn [negb].
  rewrite (proj2 (size_at_ok args Hmem' q 65)) by (split; [done|by vm_compute]).
  cbn [mbind outcome_bind N.eqb negb]. change (65 =? 65) with true. cbn [negb].
  unfold usize_max in *.
  rewrite (proj2 (checked_add_Some p 32 (p + 32))) by lia. cbn [ok_or mbind outcome_bind].
  unfold checked_mul. rewrite (proj2 (N.leb_le _ _)) by lia. cbn [ok_or mbind outcome_bind].
  rewrite (N.mul_comm _ 32), (proj2 (range_ok args Hmem' _ _ _) Hw). cbn [mbind outcome_bind].
  destruct Hc as (_ & _ & Hpay & _). fold payouts in Hpay. rewrite (words_match_spec payouts Hpay).
  2: { rewrite (slice_length _ _ _ _ Hw). lia. }
  rewrite bool_decide_eq_true_2 by done. cbn [mbind outcome_bind negb].
  rewrite (proj2 (checked_add_Some q 32 (q + 32))) by lia. cbn [ok_or mbind outcome_bind].
  rewrite (proj2 (range_ok args Hmem' _ _ _) Hs). cbn [mbind outcome_bind].
  by rewrite bool_decide_eq_true_2.
Qed.

Lemma all_of_no_panic {E} (l : list (outcome E bool)) : Forall no_panic l → no_panic (all_of l).
Proof.
  induction 1 as [|m l Hm _ IH]; cbn [all_of]; [solve_no_panic|].
  apply no_panic_bind; [done|]. intros [] _; [done|solve_no_panic].
Qed.
Lemma words_match_no_panic words : no_panic (words_match words payouts).
Proof.
  unfold words_match. apply all_of_no_panic, Forall_forall. intros m ([word n] & -> & Hin)%list_elem_of_fmap.
  apply elem_of_zip_r in Hin. destruct Hc as (_ & _ & Hpay & _). rewrite Forall_forall in Hpay.
  rewrite padded_word_payout by by apply Hpay. solve_no_panic.
Qed.
Lemma settlement_call_no_panic input : no_panic (settlement_call_matches c input).
Proof.
  assert (no_panic (matches c input)) as Hn.
  { unfold matches. rewrite root_bytes_ok. repeat (apply no_panic_bind;
      [first [apply range_no_panic|apply size_at_no_panic|apply words_match_no_panic|solve_no_panic]|intros ? _]);
      repeat first [apply no_panic_Ok|apply range_no_panic|apply size_at_no_panic|apply words_match_no_panic
        |apply no_panic_ok_or|apply no_panic_Err
        |match goal with |- no_panic (if ?b then _ else _) => destruct b end|apply no_panic_bind; [|intros ? _]]. }
  unfold settlement_call_matches. intros why. specialize (Hn why). destruct (matches c input); congruence.
Qed.
Lemma settlement_call_true input : str_len input ≤ usize_max →
  settlement_call_matches c input = Ok true ↔
  ∃ raw data, input = ("0x" +:+ raw)%string ∧ hex_decode raw = Some data ∧
    encodes_settlement data (array_val root) payouts (cd_signature c).
Proof.
  intros Hmem. assert (settlement_call_matches c input = Ok true ↔ matches c input = Ok true) as ->.
  { unfold settlement_call_matches. destruct (matches c input); naive_solver. }
  assert (∀ raw data, input = ("0x" +:+ raw)%string → hex_decode raw = Some data →
    N.of_nat (length data) ≤ usize_max) as Hlen.
  { intros raw data -> Hd. apply hex_decode_len in Hd. rewrite str_len_app in Hmem. lia. }
  split.
  - intros Hm. assert (∃ raw data, input = ("0x" +:+ raw)%string ∧ hex_decode raw = Some data)
      as (raw & data & -> & Hd).
    { unfold matches in Hm. apply bind_ok in Hm as (raw & ->%ok_or_ok%strip_prefix_Some & Hm).
      apply bind_ok in Hm as (data & Hd%ok_or_ok & _). by exists raw, data. }
    exists raw, data. split; [done|]. split; [done|]. eapply matches_sound; [by eapply Hlen|done|done].
  - intros (raw & data & -> & Hd & He). eapply matches_complete; [by eapply Hlen|done|done].
Qed.
End Matching.

(* ------------------------------------------------------------------ *)
(** ** Call traces *)

Lemma get_nodes key v w : get key v = Some w → (value_nodes w < value_nodes v)%nat.
Proof.
  destruct v as [|b|n|s|l|fields]; try discriminate. cbn [get]. unfold assoc.
  intros ([k x] & Hf & ->)%fmap_Some. apply List.find_some in Hf as [Hin _]. cbn [value_nodes snd].
  apply list_elem_of_In in Hin. apply elem_of_Permutation in Hin as [rest Hp].
  rewrite (list_sum_perm _ _ (Permutation_map (fun field => value_nodes (snd field)) Hp)).
  cbn [map list_sum foldr snd]. unfold list_sum. lia.
Qed.
Lemma frame_children_nodes frame l : frame_children frame = Ok l →
  (list_sum (map value_nodes l) < value_nodes frame)%nat.
Proof.
  unfold frame_children. destruct (get "calls" frame) as [w|] eqn:Hg.
  - intros Hw%ok_or_ok. destruct w; try discriminate Hw. injection Hw as ->.
    apply get_nodes in Hg. cbn [value_nodes] in Hg. lia.
  - intros [= <-]. rewrite value_nodes_children. cbn. lia.
Qed.

(** The frames a trace executed to their effects: those below no reverted frame. *)
Inductive live (trace : Value) : Value → Prop :=
  | live_root : live trace trace
  | live_call frame children child :
      live trace frame → frame_reverted frame = false → frame_children frame = Ok children →
      child ∈ children → live trace child.
(** The same, from the top. *)
Lemma live_down trace children child frame : frame_reverted trace = false →
  frame_children trace = Ok children → child ∈ children → live child frame → live trace frame.
Proof.
  intros Hr Hc Hin. induction 1 as [|f cs g _ IH Hfr Hfc Hg]; [|by eapply live_call].
  eapply live_call; [apply live_root|done..].
Qed.
Lemma live_inv trace frame : live trace frame → frame = trace ∨
  ∃ children child, frame_reverted trace = false ∧ frame_children trace = Ok children ∧
    child ∈ children ∧ live child frame.
Proof.
  induction 1 as [|f cs g _ IH Hfr Hfc Hg]; [by left|]. right.
  destruct IH as [->|(children & child & Hr & Hc & Hin & Hl)].
  - exists cs, g. split; [done|]. split; [done|]. split; [done|apply live_root].
  - exists children, child. split; [done|]. split; [done|]. split; [done|]. by eapply live_call.
Qed.

Section Traces.
Context `{HexLaws, Sha3Crate} (policy : PromotionPolicy) (c : Candidate) (root pcr : Hash).
Hypothesis Hc : well_formed c root pcr.

Definition known_type (frame : Value) : Prop := ∃ t, frame_type frame = Some t ∧ t ∈ frame_types.
Definition settling (frame : Value) : Prop :=
  known_type frame ∧ frame_reverted frame = false ∧ frame_settles policy c frame = Ok true.
(** A frame examined without effect: of a known type, and reverted or not a settlement. *)
Definition idle (frame : Value) : Prop :=
  known_type frame ∧ (frame_reverted frame = false →
    frame_settles policy c frame = Ok false ∧ ∃ children, frame_children frame = Ok children).

Lemma evidence_ok {A} (m : outcome VerificationError A) a : evidence m = Ok a ↔ m = Ok a.
Proof. apply map_err_ok. Qed.
Lemma decimal_no_panic v : no_panic (decimal v).
Proof. unfold decimal, text, require. solve_no_panic. Qed.
Lemma address_no_panic v : no_panic (address v).
Proof. unfold address, text. solve_no_panic. Qed.
Lemma evidence_input_no_panic v : no_panic (evidence_input v).
Proof. unfold evidence_input, evidence_require, evidence, require, text. solve_no_panic. Qed.
Lemma frame_settles_no_panic frame : no_panic (frame_settles policy c frame).
Proof.
  unfold frame_settles. apply all_of_no_panic. repeat constructor.
  - solve_no_panic.
  - apply no_panic_bind; [apply no_panic_map_err, address_no_panic|solve_no_panic].
  - apply no_panic_bind; [apply evidence_input_no_panic|intros ? _]. by eapply settlement_call_no_panic.
Qed.

Lemma trace_bound_no_panic trace tx receipt : no_panic (trace_bound trace tx receipt).
Proof.
  unfold trace_bound. destruct (outer_frame tx receipt) as [outer_type outer_to].
  apply all_of_no_panic. repeat constructor; repeat (apply no_panic_bind;
    [first [apply no_panic_map_err, address_no_panic|apply evidence_input_no_panic]|intros ? _]); solve_no_panic.
Qed.
Lemma trace_loop_spec fuel : ∀ stack, (list_sum (map value_nodes stack) ≤ fuel)%nat →
  match trace_loop fuel policy c stack with
  | Ok true => ∃ trace frame, trace ∈ stack ∧ live trace frame ∧ settling frame
  | Ok false => ∀ trace frame, trace ∈ stack → live trace frame → idle frame
  | Err _ => True
  | Panic _ => False
  end.
Proof.
  induction fuel as [|fuel IH]; intros [|frame stack] Hf; cbn [trace_loop].
  1, 3: by intros ?? ?%elem_of_nil.
  { cbn [map list_sum foldr] in Hf. rewrite value_nodes_children in Hf. lia. }
  destruct (match frame_type frame with Some t => negb (bool_decide (t ∈ frame_types)) | None => true end)
    eqn:Ht; cbn [bail_if mbind outcome_bind]; [done|].
  assert (known_type frame) as Hk.
  { destruct (frame_type frame) as [t|] eqn:Et; [|discriminate Ht].
    apply negb_false_iff, bool_decide_eq_true in Ht. by exists t. }
  assert (list_sum (map value_nodes stack) ≤ fuel)%nat as Hfs.
  { cbn [map list_sum foldr] in Hf. rewrite value_nodes_children in Hf. unfold list_sum. lia. }
  destruct (frame_reverted frame) eqn:Hr.
  { specialize (IH stack Hfs). destruct (trace_loop fuel policy c stack) as [[]|e|w]; try done.
    - destruct IH as (trace & g & Hin & Hg). exists trace, g. split; [by right|done].
    - intros trace g [->|Hin]%elem_of_cons Hl; [|by eapply IH].
      apply live_inv in Hl as [->|(? & ? & Hr' & _)]; [|congruence]. split; [done|]. intros; congruence. }
  pose proof (frame_settles_no_panic frame) as Hp.
  destruct (frame_settles policy c frame) as [[]|e|w] eqn:Es; cbn [mbind outcome_bind];
    [|..|done|by apply (Hp w)].
  { exists frame, frame. split; [left|]. split; [apply live_root|done]. }
  destruct (frame_children frame) as [children|e|w] eqn:Ec; cbn [mbind outcome_bind]; [|done|].
  2: { unfold frame_children in Ec. destruct (get "calls" frame); [|discriminate Ec].
       by destruct (as_array v). }
  pose proof (frame_children_nodes _ _ Ec) as Hn. specialize (IH (rev children ++ stack)).
  assert (list_sum (map value_nodes (rev children ++ stack)) ≤ fuel)%nat as Hfc.
  { rewrite map_app, list_sum_app, map_rev, list_sum_rev. cbn [map list_sum foldr] in Hf.
    unfold list_sum in *. lia. }
  specialize (IH Hfc). destruct (trace_loop fuel policy c (rev children ++ stack)) as [[]|e|w]; try done.
  - destruct IH as (trace & g & [Hin|Hin]%elem_of_app & Hl & Hs).
    + rewrite <-Permutation_rev in Hin. exists frame, g. split; [left|]. split; [|done]. by eapply live_down.
    + exists trace, g. split; [by right|done].
  - intros trace g [->|Hin]%elem_of_cons Hl.
    + apply live_inv in Hl as [->|(cs & child & _ & Hcs & Hin & Hl)].
      * split; [done|]. intros _. split; [done|]. by exists children.
      * rewrite Ec in Hcs. injection Hcs as <-. eapply IH; [|exact Hl]. apply elem_of_app. left.
        by rewrite <-Permutation_rev.
    + eapply IH; [|exact Hl]. apply elem_of_app. by right.
Qed.
End Traces.

(* ------------------------------------------------------------------ *)
(** ** Theorems *)

Section EvidenceTheorems.
Context `{HexLaws, Sha3Crate, !K256Crate, !K256Recover}.

Lemma candidate_well_formed policy incident_id artifact c :
  verify_candidate policy incident_id artifact = Ok c → ∃ root pcr, well_formed c root pcr.
Proof.
  intros (rows & tree & He)%verify_candidate_establishes.
  destruct (ec_tree _ _ _ _ _ _ He) as (_ & Hr & _). destruct (ec_hashes _ _ _ _ _ _ He) as (? & pcr & _ & Hp).
  exists (st_root tree), pcr. split; [done|]. split; [done|].
  destruct (settlement_digest_ok _ _ (ec_digest _ _ _ _ _ _ He)) as
    (? & ? & ? & ? & ? & ? & ? & _ & _ & _ & _ & _ & _ & Hpay%packed_small & _).
  split; [done|]. split; [by apply (ec_signer _ _ _ _ _ _ He)|]. apply (ec_incident _ _ _ _ _ _ He).
Qed.

(** The bounded traversal of RPC evidence, for any value and any budget below the
    machine's largest number: it accepts a value exactly when no node is deeper than
    96, it has at most 65536 nodes and the cost of its nodes, keys and texts is within
    the budget; then the budget is charged exactly that cost, and otherwise the answer
    is an error.  The traversal always ends: the charges that saturate and the limits
    on the entries of one array or object never change the answer. *)
Theorem bounded_evidence_spec (value : Value) (budget : N) : budget < u64_max →
  (value_depth value ≤ 96 ∧ N.of_nat (value_nodes value) ≤ 65536 ∧ value_cost value ≤ budget ∧
   bounded_evidence value budget = (Ok tt, budget - value_cost value)) ∨
  (¬ (value_depth value ≤ 96 ∧ N.of_nat (value_nodes value) ≤ 65536 ∧ value_cost value ≤ budget) ∧
   ∃ e budget', bounded_evidence value budget = (Err e, budget')).
Proof. apply bounded_evidence_cases. Qed.

(** Which calldata settles a candidate: for a candidate that was verified, the
    calldata matches exactly when it decodes, along the offsets it gives itself, to
    [settleIncident] with the candidate's root, payouts and signature; it never
    panics; the canonical encoding of the candidate's call matches; and no calldata
    matches two settlements. *)
Theorem settlement_call_spec (policy : PromotionPolicy) (incident_id : string) (artifact : Value)
    (c : Candidate) : verify_candidate policy incident_id artifact = Ok c →
  ∃ root : Hash, sd_root (cd_input c) = hash_hex root ∧
  let payouts := sd_pool_payouts (cd_input c) in
  let canonical := ("0x" +:+ hex_encode (settle_calldata (array_val root) payouts (cd_signature c)))%string in
  (∀ input, str_len input ≤ usize_max → ∃ b, settlement_call_matches c input = Ok b ∧
     (b = true ↔ ∃ raw data, input = ("0x" +:+ raw)%string ∧ hex_decode raw = Some data ∧
        encodes_settlement data (array_val root) payouts (cd_signature c))) ∧
  (str_len canonical ≤ usize_max → settlement_call_matches c canonical = Ok true) ∧
  (∀ data root' payouts' signature', Forall (fun n => n < 2 ^ 256) payouts' →
     encodes_settlement data (array_val root) payouts (cd_signature c) →
     encodes_settlement data root' payouts' signature' →
     root' = array_val root ∧ payouts' = payouts ∧ signature' = cd_signature c).
Proof.
  intros (root & pcr & Hc)%candidate_well_formed. pose proof Hc as (Hr & _ & Hp & Hs & _).
  exists root. split; [done|]. cbn zeta. split; [|split].
  - intros input Hmem. pose proof (settlement_call_true c root pcr Hc input Hmem) as Ht.
    pose proof (settlement_call_no_panic c root pcr Hc input) as Hn.
    destruct (settlement_call_matches c input) as [b|e|w] eqn:E; [|..|by destruct (Hn w)].
    + exists b. split; [done|]. rewrite <-Ht. destruct b; naive_solver.
    + unfold settlement_call_matches in E. by destruct (matches c input).
  - intros Hmem. apply (settlement_call_true c root pcr Hc _ Hmem). eexists _, _. split; [done|].
    split; [apply hex_decode_encode|]. apply settle_calldata_encodes; [apply array_length|done| |done].
    rewrite str_len_app, hex_encode_len in Hmem. unfold settle_calldata in Hmem.
    rewrite !length_app, length_payout_words in Hmem. unfold usize_max in Hmem. lia.
  - intros data root' payouts' signature' Hp' He He'.
    destruct (encodes_settlement_det _ _ _ _ _ _ _ Hp Hp' He He') as (-> & -> & ->). done.
Qed.

(** The judgement of a call trace, for a verified candidate: it ends, without a
    panic; when it answers, the trace is bound to the transaction (its sender, its
    target, its input and its value) and within the limits, and the answer is yes
    exactly when some frame that took effect, with no reverted frame above it, is a
    CALL of the insurance contract that settles the candidate. *)
Theorem judge_trace_spec (policy : PromotionPolicy) (incident_id : string) (artifact : Value)
    (c : Candidate) (trace tx receipt : Value) : verify_candidate policy incident_id artifact = Ok c →
  match judge_trace policy c trace tx receipt with
  | Ok b =>
      trace_bound trace tx receipt = Ok true ∧ value_depth trace ≤ 96 ∧
      N.of_nat (value_nodes trace) ≤ 65536 ∧ value_cost trace ≤ TRACE_BYTE_CAP ∧
      (b = true ↔ ∃ frame, live trace frame ∧ settling policy c frame) ∧
      (b = false → ∀ frame, live trace frame → idle policy c frame)
  | Err _ => True
  | Panic _ => False
  end.
Proof.
  intros (root & pcr & Hc)%candidate_well_formed. unfold judge_trace, bounded_trace.
  destruct (bounded_evidence_limits trace TRACE_BYTE_CAP) as [(Hd & Hn & Hcost & ->)|(e & b & ->)];
    [by vm_compute| |done].
  cbn [fst mbind outcome_bind]. destruct (bail_if _ _) as [[]|e|w] eqn:Eb; [|done|by destruct (_ || _)].
  cbn [mbind outcome_bind]. destruct (trace_bound trace tx receipt) as [bound|e|w] eqn:Et;
    [|done|by destruct (trace_bound_no_panic trace tx receipt w)].
  cbn [mbind outcome_bind]. destruct bound; [|done]. cbn [evidence_require evidence map_err require negb bail_if
    mbind outcome_bind]. pose proof (trace_loop_spec policy c root pcr Hc (value_nodes trace) [trace]) as Hl.
  destruct (trace_loop (value_nodes trace) policy c [trace]) as [[]|e|w];
    [|..|done|apply Hl; cbn; lia]; (split; [done|]); (do 3 (split; [done|])); (split; [|try done]).
  - split; [|done]. intros _. destruct Hl as (t & f & ->%list_elem_of_singleton & Hlive & Hset); [cbn; lia|].
    by exists f.
  - split; [done|]. intros (f & Hf & Hk & Hr & Hs). destruct (Hl ltac:(cbn; lia) trace f) as [_ Hi]; [left|done|].
    destruct (Hi Hr) as [Hi' _]. congruence.
  - intros _ f Hf. by apply (Hl ltac:(cbn; lia) trace f); [left|].
Qed.
End EvidenceTheorems.

(* ------------------------------------------------------------------ *)
(** ** Evaluated instances *)

#[local] Existing Instances RefHex.hex_crate RefHex.hex_laws RefSha3.sha3_crate RefSerde.serde_json.
#[local] Existing Instances RefK256.k256_crate RefK256.k256_recover RefK256.k256_laws.

Definition demo_default : Candidate := mkCandidate (digest_input_of demo_finished demo_config) "" sample_user [] 0 0.
Definition demo_candidate : Candidate :=
  match verify_candidate (policy_of demo_config) (to_decimal 77) demo_signed_artifact with
  | Ok c => c | _ => demo_default end.
Lemma demo_candidate_verified :
  verify_candidate (policy_of demo_config) (to_decimal 77) demo_signed_artifact = Ok demo_candidate.
Proof. unfold demo_candidate. destruct demo_accepted as [c ->]. reflexivity. Qed.
(** A wrapper's transaction whose inner call settles. *)
Definition demo_input_text : string :=
  "0x" +:+ hex_encode (settle_calldata
    match hex_decode (String.substring 2 64 (sd_root (cd_input demo_candidate))) with Some l => l | None => [] end
    (sd_pool_payouts (cd_input demo_candidate)) (cd_signature demo_candidate)).
Definition demo_frame (to input : string) (calls : list Value) : Value :=
  VObject [("type", VString "CALL"); ("from", VString (address_to_string sample_user)); ("to", VString to);
           ("input", VString input); ("value", VString "0x0"); ("calls", VArray calls)].
Definition demo_wrapper : string := address_to_string other_user.
Definition demo_trace : Value :=
  demo_frame demo_wrapper "0x00" [demo_frame demo_wrapper "0x" [];
    demo_frame (address_to_string (cfg_defi_insurance demo_config)) demo_input_text []].
Definition demo_tx : Value :=
  VObject [("hash", VString "0x01"); ("from", VString (address_to_string sample_user));
           ("to", VString demo_wrapper); ("input", VString "0x00"); ("value", VString "0x0")].

Example bounded_evidence_spec_witness :
  bounded_evidence demo_trace 100000 = (Ok tt, 100000 - value_cost demo_trace) ∧ value_cost demo_trace ≤ 100000.
Proof.
  destruct (bounded_evidence_spec demo_trace 100000) as [(_ & _ & Hc & He)|[Hn _]].
  - vm_compute. reflexivity.
  - split; [exact He|exact Hc].
  - exfalso. apply Hn. split; [vm_compute; discriminate|]. split; vm_compute; discriminate.
Defined.
Example settlement_call_spec_witness : ∃ (root : Hash) b,
  sd_root (cd_input demo_candidate) = hash_hex root ∧ settlement_call_matches demo_candidate "0x00" = Ok b.
Proof.
  destruct (settlement_call_spec _ _ _ _ demo_candidate_verified) as (root & Hr & Hall & _).
  destruct (Hall "0x00") as (b & Hb & _); [vm_compute; discriminate|].
  exists root, b. split; [exact Hr|exact Hb].
Defined.
Example judge_trace_spec_witness :
  judge_trace (policy_of demo_config) demo_candidate demo_trace demo_tx VNull = Ok true ∧
  ∃ frame, live demo_trace frame ∧ settling (policy_of demo_config) demo_candidate frame.
Proof.
  assert (judge_trace (policy_of demo_config) demo_candidate demo_trace demo_tx VNull = Ok true) as Hj
    by (vm_compute; reflexivity).
  pose proof (judge_trace_spec _ _ _ _ demo_trace demo_tx VNull demo_candidate_verified) as Hs.
  rewrite Hj in Hs. destruct Hs as (_ & _ & _ & _ & Hs & _). split; [exact Hj|]. apply Hs. reflexivity.
Defined.
