(* ===== verification/Promotion.v ===== *)
(** * Promotion of a settlement ([job-api/src/settlement_verifier.rs], second part, and
    [job-api/src/completion_verifier.rs])

    The candidate is checked against the finalized chain, under one budget of requests
    and bytes, and either its signer is authorized now or the very call that settled
    the incident is found. *)

From S2P Require Import Prelude Bytes Text Commit Merkle Kernel TypedData Rpc Abi Config Chain ChainConfig Checkpoint CheckpointStore Artifact JobProtocol SettlementVerifier.
From Stdlib Require Import Strings.Byte Strings.Ascii.

Open Scope string_scope.
Open Scope N_scope.
Open Scope list_scope.

Inductive Authorization := CurrentSigner | AcceptedOnchain.
#[export] Instance Authorization_eq_dec : EqDecision Authorization.
Proof. solve_decision. Defined.
Record VerifiedSettlement := mkVerifiedSettlement {
  vs_block : BlockAnchor;
  vs_authorization : Authorization
}.

(** Errors of the chain and of the RPC, converted by [?]. *)
Definition on_chain {W A} : io W ChainError A → io W VerificationError A := map_err_io VChain.
Definition on_rpc {W A} : io W RpcError A → io W VerificationError A := map_err_io VRpc.

Section Reads.
Context `{HexCrate, Sha3Crate, AbiCodec} {W : Type} `{!RpcIface W}.

Definition bindings (policy : PromotionPolicy) (block : N) : io W VerificationError unit :=
  _ ← fold_m (fun _ a => on_chain (assert_contract_code_at (address_to_string a) "canonical contract" block))
        tt [pol_registry policy; pol_defi_insurance policy];
  '(module, registry_) ← on_chain (protocol_bindings_at (pol_registry policy) (pol_defi_insurance policy) block);
  _ ← lift (require (bool_decide (module = pol_defi_insurance policy)) "Registry module");
  lift (require (bool_decide (registry_ = pol_registry policy)) "module Registry").

Definition SETTLED_EVENT : string := "IncidentSettled(uint256,bytes32,bytes32)".
Definition settled_filter (policy : PromotionPolicy) (incident_id : N) :
    outcome VerificationError LogFilter :=
  word ← padded_word (to_bytes_be incident_id);
  Ok (mkLogFilter (address_to_string (pol_defi_insurance policy))
        [VString ("0x" +:+ hex_encode (array_val (keccak256 (as_bytes SETTLED_EVENT))));
         VString ("0x" +:+ hex_encode word)]).
Definition settled_data (candidate : Candidate) : outcome VerificationError string :=
  pcr ← skip2 (sd_tee_pcr_hash (cd_input candidate)); Ok (sd_root (cd_input candidate) +:+ pcr).

Definition receipt_entry_matches (log : RpcLog) (anchor : BlockAnchor) (entry : Value) : bool :=
  match as_str (at_key entry "address") with
  | Some a => eq_ignore_ascii_case a (log_address log)
  | None => false
  end &&
  bool_decide (at_key entry "topics" = VArray (map VString (log_topics log))) &&
  bool_decide (as_str (at_key entry "data") = Some (log_data log)) &&
  bool_decide (as_str (at_key entry "transactionHash") = Some (log_transaction_hash log)) &&
  bool_decide (as_str (at_key entry "blockHash") = Some (ba_hash anchor)) &&
  bool_decide (as_str (at_key entry "blockNumber") = Some (block_tag (log_block_number log))) &&
  bool_decide (as_str (at_key entry "logIndex") = Some (block_tag (log_log_index log))) &&
  bool_decide (at_key entry "removed" = VBool false).

(** The transaction and the receipt are those of the log, in its block. *)
Definition chain_outcome {A} (m : outcome ChainError A) : outcome VerificationError A := map_err VChain m.
Definition acceptance_bound (log : RpcLog) (anchor : BlockAnchor) (tx receipt : Value) :
    outcome VerificationError unit :=
  identity ← all_of
    [h ← evidence (hash (at_key tx "hash")); Ok (String.eqb h (log_transaction_hash log));
     h ← evidence (hash (at_key receipt "transactionHash")); Ok (String.eqb h (log_transaction_hash log))];
  _ ← evidence_require identity "acceptance transaction identity";
  in_block ← all_of
    [n ← chain_outcome (quantity (at_key tx "blockNumber") "tx block"); Ok (n =? log_block_number log);
     n ← chain_outcome (quantity (at_key receipt "blockNumber") "receipt block"); Ok (n =? log_block_number log);
     h ← evidence (hash (at_key tx "blockHash")); Ok (String.eqb h (ba_hash anchor));
     h ← evidence (hash (at_key receipt "blockHash")); Ok (String.eqb h (ba_hash anchor))];
  _ ← evidence_require in_block "acceptance block binding";
  status ← chain_outcome (quantity (at_key receipt "status") "receipt status");
  _ ← evidence_require (status =? 1) "reverted acceptance";
  entries ← evidence (array_of_values (at_key receipt "logs"));
  evidence_require (existsb (receipt_entry_matches log anchor) entries) "acceptance receipt event".

Definition direct_call (policy : PromotionPolicy) (candidate : Candidate) (tx : Value) :
    outcome VerificationError bool :=
  all_of
    [Ok (negb (is_null (at_key tx "to")));
     to ← evidence (address (at_key tx "to")); Ok (bool_decide (to = pol_defi_insurance policy));
     input ← evidence_input (at_key tx "input"); settlement_call_matches candidate input].
Definition traced_settlement (policy : PromotionPolicy) (candidate : Candidate) (tx receipt : Value) :
    io W VerificationError bool :=
  trace ← on_rpc (rpc_request TRACE_METHOD (trace_params tx));
  lift (judge_trace policy candidate trace tx receipt).

(** One log: whether it is of the call that settled the incident with this candidate. *)
Definition judge_log (policy : PromotionPolicy) (candidate : Candidate) (expected_data : string)
    (log : RpcLog) : io W VerificationError bool :=
  if negb (String.eqb (log_data log) expected_data) || negb (Nat.eqb (length (log_topics log)) 2)
  then mret false
  else
    anchor ← on_chain (block_by_number (log_block_number log));
    tx ← on_rpc (rpc_request "eth_getTransactionByHash" (VArray [VString (log_transaction_hash log)]));
    receipt ← on_rpc (rpc_request "eth_getTransactionReceipt" (VArray [VString (log_transaction_hash log)]));
    _ ← lift (acceptance_bound log anchor tx receipt);
    direct ← lift (direct_call policy candidate tx);
    settled ← (if (direct : bool) then mret true else traced_settlement policy candidate tx receipt);
    if negb settled then mret false
    else
      _ ← bindings policy (log_block_number log);
      again ← on_chain (block_by_number (ba_number anchor));
      _ ← lift (evidence_require (String.eqb (ba_hash again) (ba_hash anchor)) "acceptance reorg");
      mret true.
Fixpoint any_log (policy : PromotionPolicy) (candidate : Candidate) (expected_data : string)
    (logs : list RpcLog) : io W VerificationError bool :=
  match logs with
  | [] => mret false
  | log :: logs =>
      accepted ← judge_log policy candidate expected_data log;
      if (accepted : bool) then mret true else any_log policy candidate expected_data logs
  end.
(** The loop [while start <= to]. *)
Fixpoint accept_windows (fuel : nat) (policy : PromotionPolicy) (candidate : Candidate)
    (filter : LogFilter) (expected_data : string) (start to : N) : io W VerificationError unit :=
  match fuel with
  | O => lift (Panic "out of fuel")
  | S fuel =>
      if start <=? to then
        let stop := N.min (saturating_add start (MAX_LOG_RANGE - 1)) to in
        '(logs, _) ← on_rpc (get_logs_chunked filter start stop MAX_LOG_RANGE LOG_RESULT_CAP);
        accepted ← any_log policy candidate expected_data logs;
        if (accepted : bool) then mret tt
        else if stop =? to then lift (Err (Invalid "no exact accepted settlement call"))
        else accept_windows fuel policy candidate filter expected_data (stop + 1) to
      else lift (Err (Invalid "no exact accepted settlement call"))
  end.
Definition windows_fuel (start to : N) : nat := S (N.to_nat ((to - start) / MAX_LOG_RANGE)).
Definition accepted_onchain (policy : PromotionPolicy) (candidate : Candidate) (start to : N) :
    io W VerificationError unit :=
  filter ← lift (settled_filter policy (sd_incident_id (cd_input candidate)));
  expected_data ← lift (settled_data candidate);
  accept_windows (windows_fuel start to) policy candidate filter expected_data start to.

(** *** [verify_for_promotion] after the candidate's own checks *)

Definition check_incident (candidate : Candidate) (inc : Incident) (head : N) :
    outcome VerificationError unit :=
  _ ← require ((0 <? inc_open_block inc) && (inc_open_block inc <=? head) &&
               (inc_reference_block inc =? cd_reference_block candidate) &&
               (inc_reference_block inc <=? inc_open_block inc) &&
               negb (address_is_zero (inc_insured_token inc))) "incident anchors";
  require (String.eqb (inc_tee_pcr_hash inc) (sd_tee_pcr_hash (cd_input candidate)) &&
           negb (String.eqb (inc_tee_pcr_hash inc) ZERO_HEX) &&
           (inc_protocol_fee_share_bps inc =? cd_fee_bps candidate)) "incident PCR/fee snapshot".
Definition check_snapshot (candidate : Candidate) (snapshot : Incident) : outcome VerificationError unit :=
  let input := cd_input candidate in
  require ((inc_unresolved_claims snapshot =? sd_unresolved_claims input) &&
           String.eqb (inc_claim_set_hash snapshot) (sd_claim_set input) &&
           String.eqb (inc_tee_pcr_hash snapshot) (sd_tee_pcr_hash input)) "claim-window snapshot".
Definition authorize (policy : PromotionPolicy) (candidate : Candidate) (inc : Incident)
    (authorized : bool) (deadline window_number : N) (head : BlockAnchor) :
    io W VerificationError Authorization :=
  let input := cd_input candidate in
  if String.eqb (inc_root inc) ZERO_HEX then
    _ ← lift (require authorized "unauthorized signer");
    _ ← lift (require ((inc_resolved_at inc =? 0) &&
                       (inc_unresolved_claims inc =? sd_unresolved_claims input) &&
                       String.eqb (inc_claim_set_hash inc) (sd_claim_set input) &&
                       (inc_phase_deadline inc =? deadline)) "unsettled incident state");
    mret CurrentSigner
  else
    _ ← lift (require (String.eqb (inc_root inc) (sd_root input)) "standing root mismatch");
    if authorized then mret CurrentSigner
    else
      to ← (if (deadline <? inc_phase_deadline inc) && (inc_phase_deadline inc <? ba_timestamp head)
            then on_chain (block_at_or_before_timestamp (inc_phase_deadline inc) (ba_number head))
            else mret (ba_number head));
      _ ← accepted_onchain policy candidate window_number to;
      mret AcceptedOnchain.
Definition anchor_unchanged (anchor : BlockAnchor) : io W VerificationError unit :=
  again ← on_chain (block_by_number (ba_number anchor));
  lift (evidence_require (String.eqb (ba_hash again) (ba_hash anchor)) "anchor changed").

Definition promote (policy : PromotionPolicy) (candidate : Candidate) :
    io W VerificationError VerifiedSettlement :=
  let input := cd_input candidate in
  chain ← on_chain chain_id;
  _ ← lift (require (chain =? pol_chain_id policy) "RPC network");
  head ← on_chain finalized_block;
  latest ← on_chain latest_block;
  _ ← lift (evidence_require ((ba_number head <=? ba_number latest) && (ba_timestamp head <=? ba_timestamp latest))
              "impossible finalized head");
  _ ← bindings policy (ba_number head);
  inc ← on_chain (incident_at (pol_defi_insurance policy) (sd_incident_id input) (Some (ba_number head)));
  _ ← lift (check_incident candidate inc (ba_number head));
  '(pools, authorized) ← on_chain (incident_pools_and_signer_at (pol_defi_insurance policy)
                            (sd_incident_id input) (cd_signer candidate) (ba_number head));
  _ ← lift (require (bool_decide (pools = sd_pool_addrs input)) "incident pool order");
  deadline ← on_chain (incident_claim_deadline_at (pol_defi_insurance policy) (sd_incident_id input)
                         (inc_open_block inc));
  _ ← lift (require (deadline <? ba_timestamp head) "claim window not finalized");
  window_number ← on_chain (block_at_or_before_timestamp deadline (ba_number head));
  window ← on_chain (block_by_number window_number);
  snapshot ← on_chain (incident_at (pol_defi_insurance policy) (sd_incident_id input) (Some window_number));
  _ ← lift (check_snapshot candidate snapshot);
  authorization ← authorize policy candidate inc authorized deadline window_number head;
  _ ← fold_m (fun _ anchor => anchor_unchanged anchor) tt [head; window];
  mret (mkVerifiedSettlement head authorization).
End Reads.

Section Promotion.
Context `{HexCrate, Sha3Crate, AbiCodec, K256Recover} {W : Type} `{!RpcIface W, !BudgetCell W}.

(** A computation over a new [BudgetRpc]. *)
Definition budgeted {E A} (m : io W E A) : io W E A :=
  _ ← modify_state (set_remaining (VERIFICATION_RPC_CAP, VERIFICATION_BYTE_CAP));
  m.
Definition verify_for_promotion (policy : PromotionPolicy) (incident_id : string) (artifact : Value) :
    io W VerificationError VerifiedSettlement :=
  candidate ← lift (verify_candidate policy incident_id artifact);
  budgeted (promote (RpcIface0 := budget_rpc) policy candidate).

(** The payload's artifact with the payload's own signature and signer. *)
Definition signed_artifact (result : Value) : outcome VerificationError Value :=
  outer ← hash (at_key result "digest");
  attested ← hash (at_key (at_key result "artifact") "settlementDigest");
  _ ← require (String.eqb outer attested) "outer digest";
  object ← ok_or (as_object (at_key result "artifact")) (Invalid "artifact object");
  let artifact := VObject object in
  _ ← require (bool_decide (get "signature" artifact = None) && bool_decide (get "signer" artifact = None) &&
               bool_decide (get "digest" artifact = None)) "ambiguous signature metadata";
  Ok (VObject (object ++ [("signature", at_key result "signature"); ("signer", at_key result "signer")])).
Definition verify_result_for_promotion (policy : PromotionPolicy) (incident_id : string) (result : Value) :
    io W VerificationError VerifiedSettlement :=
  artifact ← lift (signed_artifact result);
  verify_for_promotion policy incident_id artifact.

(** *** [RpcCompletionVerifier] *)

(** Durations are in nanoseconds. *)
Record RpcCompletionVerifier := mkRpcCompletionVerifier {
  cv_policy : PromotionPolicy;
  cv_timeout : N
}.
Definition RpcCompletionVerifier_new (policy : PromotionPolicy) (timeout : N) :
    outcome ServiceError RpcCompletionVerifier :=
  _ ← bail_if ((timeout =? 0) || (30 * 10 ^ 9 <? timeout) || (pol_chain_id policy =? 0) ||
               address_is_zero (pol_registry policy) || address_is_zero (pol_defi_insurance policy))
        InvalidRequest;
  Ok (mkRpcCompletionVerifier policy timeout).
(** [tokio::time::timeout] and the [match] on its result. *)
Definition within_deadline {A} (timeout : N) (m : io W VerificationError A) : io W ServiceError unit :=
  fun w =>
    match rpc_timeout timeout (fun w => let '(r, w) := m w in (Ok r, w)) w with
    | (Some (Ok (Ok _)), w) => (Ok tt, w)
    | (Some (Ok (Err (Invalid _))), w) => (Err InvalidStoredResult, w)
    | (Some (Ok (Panic why)), w) | (Some (Panic why), w) => (Panic why, w)
    | (_, w) => (Err Unavailable, w)
    end.
Definition completion_verify (self : RpcCompletionVerifier) (request : CanonicalRequest)
    (terminal : TerminalEnvelope) : io W ServiceError unit :=
  _ ← lift (bail_if (negb (te_schema_version terminal =? 1) ||
                     negb (bool_decide (te_status terminal = Completed))) InvalidStoredResult);
  match request with
  | OpenRequest _ => lift (Err InvalidStoredResult)
  | SettlementRequest request =>
      _ ← lift (bail_if (negb (bool_decide (address_from_str (cs_registry request) =
                                              Some (pol_registry (cv_policy self))))) InvalidStoredResult);
      within_deadline (cv_timeout self)
        (verify_result_for_promotion (cv_policy self) (cs_incident_id request) (te_payload terminal))
  end.
End Promotion.
