(* ===== verification/PromotionFacts.v ===== *)
(** * What a promotion establishes ([job-api/src/settlement_verifier.rs],
    [job-api/src/completion_verifier.rs])

    The requests one verification may issue, the search of the accepted call, and what
    the chain answered when a completion is verified. *)

From S2P Require Import Prelude Bytes Text Commit Merkle Kernel TypedData Rpc Abi Config Chain ChainConfig Checkpoint CheckpointStore Artifact JobProtocol SettlementVerifier CandidateFacts EvidenceFacts Promotion.
From Stdlib Require Import Strings.Byte Strings.Ascii.

Open Scope string_scope.
Open Scope N_scope.
Open Scope list_scope.

(* ------------------------------------------------------------------ *)
(** ** Relations the chain reads keep

    A preorder on the world that every request keeps is kept by every read: by all
    outcomes of a read without a deadline, and by the successes of the others. *)

Definition keeps {W E A} (I : W → W → Prop) (m : io W E A) : Prop := ∀ w r w', m w = (r, w') → I w w'.
Definition ok_keeps {W E A} (I : W → W → Prop) (m : io W E A) : Prop := ∀ w a w', m w = (Ok a, w') → I w w'.

Create HintDb keeps.

Section Keeps.
Context {W : Type} (I : W → W → Prop) `{!PreOrder I}.

Lemma keeps_ok {E A} (m : io W E A) : keeps I m → ok_keeps I m.
Proof. intros Hm w a w'. apply Hm. Qed.
Lemma keeps_lift {E A} (m : outcome E A) : keeps I (lift m).
Proof. intros w r w' [= _ <-]. reflexivity. Qed.
Lemma keeps_mret {E A} (a : A) : keeps I (mret a : io W E A).
Proof. intros w r w' [= _ <-]. reflexivity. Qed.
Lemma keeps_bind {E A B} (m : io W E A) (f : A → io W E B) :
  keeps I m → (∀ a, keeps I (f a)) → keeps I (m ≫= f).
Proof.
  intros Hm Hf w r w'. unfold mbind, io_bind. destruct (m w) as [[a|e|s] w1] eqn:Em; intros Hs.
  - transitivity w1; [by eapply Hm|by eapply Hf].
  - injection Hs as _ <-. by eapply Hm.
  - injection Hs as _ <-. by eapply Hm.
Qed.
Lemma keeps_map_err {E1 E2 A} (f : E1 → E2) (m : io W E1 A) : keeps I m → keeps I (map_err_io f m).
Proof. intros Hm w r w'. unfold map_err_io. destruct (m w) as [r1 w1] eqn:Em. intros [= _ <-]. by eapply Hm. Qed.
Lemma keeps_fold_m {E S A} (f : S → A → io W E S) l : (∀ s x, keeps I (f s x)) → ∀ s, keeps I (fold_m f s l).
Proof.
  intros Hf. induction l as [|x l IH]; intros s; cbn [fold_m]; [apply keeps_mret|].
  by apply keeps_bind.
Qed.
Lemma ok_keeps_bind {E A B} (m : io W E A) (f : A → io W E B) :
  ok_keeps I m → (∀ a, ok_keeps I (f a)) → ok_keeps I (m ≫= f).
Proof.
  intros Hm Hf w b w' (a & w1 & H1 & H2)%io_bind_ok. transitivity w1; [by eapply Hm|by eapply Hf].
Qed.
Lemma ok_keeps_map_err {E1 E2 A} (f : E1 → E2) (m : io W E1 A) : ok_keeps I m → ok_keeps I (map_err_io f m).
Proof. intros Hm w a w' Ha%map_err_io_ok. by eapply Hm. Qed.
Lemma ok_keeps_fold_m {E S A} (f : S → A → io W E S) l :
  (∀ s x, ok_keeps I (f s x)) → ∀ s, ok_keeps I (fold_m f s l).
Proof.
  intros Hf. induction l as [|x l IH]; intros s; cbn [fold_m]; [apply keeps_ok, keeps_mret|].
  by apply ok_keeps_bind.
Qed.
End Keeps.
#[export] Hint Resolve keeps_lift keeps_mret keeps_map_err keeps_fold_m ok_keeps_map_err ok_keeps_fold_m : keeps.
#[export] Hint Extern 9 (ok_keeps _ _) => apply keeps_ok : keeps.

(** Split a computation into its requests. *)
Ltac solve_keeps :=
  repeat match goal with
  | |- keeps _ (_ ≫= _) => apply keeps_bind; [apply _| |intros ?]
  | |- ok_keeps _ (_ ≫= _) => apply ok_keeps_bind; [apply _| |intros ?]
  | |- keeps _ (map_err_io _ _) => apply keeps_map_err
  | |- ok_keeps _ (map_err_io _ _) => apply ok_keeps_map_err
  | |- keeps _ (fold_m _ _ _) => apply keeps_fold_m; [apply _|intros ? ?]
  | |- ok_keeps _ (fold_m _ _ _) => apply ok_keeps_fold_m; [apply _|intros ? ?]
  | |- keeps _ (match ?x with _ => _ end) => destruct x
  | |- ok_keeps _ (match ?x with _ => _ end) => destruct x
  | |- keeps _ (let '_ := ?x in _) => destruct x
  | |- ok_keeps _ (let '_ := ?x in _) => destruct x
  end; eauto with keeps typeclass_instances.

Section ChainReads.
Context `{HexCrate, Sha3Crate, AbiCodec} {W : Type} `{!RpcIface W, !RpcLaws} (I : W → W → Prop) `{!PreOrder I}.
Hypothesis Hrequest : ∀ method params, keeps I (rpc_request method params).
Hypothesis Hnow : ∀ w, I w (rpc_now w).2.
#[local] Hint Resolve Hrequest : keeps.

Lemma clock_keeps {E} : keeps I (clock (E := E)).
Proof. intros w r w'. unfold clock. pose proof (Hnow w). destruct (rpc_now w). intros [= _ <-]. done. Qed.
Lemma attempts_keeps {E} : keeps I (transport_attempts_now (E := E)).
Proof. intros w r w' [= _ <-]. reflexivity. Qed.
#[local] Hint Resolve clock_keeps attempts_keeps : keeps.
Lemma fetch_logs_keeps filter from to : keeps I (fetch_logs filter from to).
Proof. unfold fetch_logs. solve_keeps. Qed.
Lemma fetch_receipts_keeps filter n : keeps I (fetch_block_receipt_logs filter n).
Proof. unfold fetch_block_receipt_logs. solve_keeps. Qed.
Lemma with_timeout_keeps {A} d (m : io W RpcError A) : keeps I m → ok_keeps I (with_timeout d m).
Proof. intros Hm w r w' Hr%with_timeout_ok. by eapply Hm. Qed.
#[local] Hint Resolve fetch_logs_keeps fetch_receipts_keeps with_timeout_keeps : keeps.
Lemma remaining_time_keeps t : ok_keeps I (remaining_time t).
Proof. unfold remaining_time. solve_keeps. Qed.
Lemma attempts_within_keeps a f : ok_keeps I (attempts_within a f).
Proof. unfold attempts_within. solve_keeps. Qed.
#[local] Hint Resolve remaining_time_keeps attempts_within_keeps : keeps.
Lemma receipt_fallback_keeps filter started from st : ok_keeps I (receipt_fallback filter started from st).
Proof. unfold receipt_fallback. solve_keeps. Qed.
#[local] Hint Resolve receipt_fallback_keeps : keeps.
Lemma drain_step_keeps filter cap s a from to st : ok_keeps I (drain_step filter cap s a from to st).
Proof. unfold drain_step. solve_keeps. Qed.
#[local] Hint Resolve drain_step_keeps : keeps.
Lemma drain_keeps filter cap s a fuel : ∀ st, ok_keeps I (drain fuel filter cap s a st).
Proof. induction fuel as [|fuel IH]; intros st; cbn [drain]; solve_keeps. Qed.
#[local] Hint Resolve drain_keeps : keeps.
Lemma fetch_chunks_keeps filter range cap to fuel : ∀ start metrics output,
  ok_keeps I (fetch_chunks fuel filter range cap to start metrics output).
Proof.
  induction fuel as [|fuel IH]; intros start metrics output; cbn [fetch_chunks]; unfold fetch_chunk; solve_keeps.
Qed.
#[local] Hint Resolve fetch_chunks_keeps : keeps.
Lemma get_logs_keeps filter from to range cap : ok_keeps I (get_logs_chunked filter from to range cap).
Proof. unfold get_logs_chunked. solve_keeps. Qed.

(** Reads of blocks and contracts. *)
Lemma block_keeps tag n : keeps I (block tag n).
Proof. unfold block, chain_request. solve_keeps. Qed.
Lemma raw_call_keeps to data n : keeps I (raw_call to data n).
Proof. unfold raw_call, chain_request. solve_keeps. Qed.
#[local] Hint Resolve block_keeps raw_call_keeps get_logs_keeps : keeps.
Lemma run_plan_keeps n output plan : keeps I (run_plan n output plan).
Proof. unfold run_plan. destruct plan as [[|call [|]] encoded]; solve_keeps. Qed.
#[local] Hint Resolve run_plan_keeps : keeps.
Lemma aggregate_reads_keeps calls n : keeps I (aggregate_reads calls n).
Proof. unfold aggregate_reads. solve_keeps. Qed.
Lemma timestamp_search_keeps timestamp fuel : ∀ low high, keeps I (timestamp_search fuel timestamp low high).
Proof.
  induction fuel as [|fuel IH]; intros low high; cbn [timestamp_search]; destruct (low <? high);
    unfold block_by_number; solve_keeps.
Qed.
#[local] Hint Resolve aggregate_reads_keeps timestamp_search_keeps : keeps.
Lemma block_before_keeps t n : keeps I (block_at_or_before_timestamp t n).
Proof. unfold block_at_or_before_timestamp, block_by_number. solve_keeps. Qed.
#[local] Hint Resolve block_before_keeps : keeps.

(** *** The promotion *)

Lemma bindings_keeps policy n : keeps I (bindings policy n).
Proof.
  unfold bindings, on_chain, assert_contract_code_at, protocol_bindings_at, chain_request.
  solve_keeps.
Qed.
#[local] Hint Resolve bindings_keeps : keeps.
Lemma anchor_keeps anchor : keeps I (anchor_unchanged anchor).
Proof. unfold anchor_unchanged, on_chain, block_by_number. solve_keeps. Qed.
Lemma judge_log_keeps policy c data log : keeps I (judge_log policy c data log).
Proof. unfold judge_log, traced_settlement, on_chain, on_rpc, block_by_number. solve_keeps. Qed.
#[local] Hint Resolve anchor_keeps judge_log_keeps : keeps.
Lemma any_log_keeps policy c data logs : keeps I (any_log policy c data logs).
Proof. induction logs as [|log logs IH]; cbn [any_log]; solve_keeps. Qed.
#[local] Hint Resolve any_log_keeps : keeps.
Lemma accept_windows_keeps policy c filter data to fuel : ∀ start,
  ok_keeps I (accept_windows fuel policy c filter data start to).
Proof. induction fuel as [|fuel IH]; intros start; cbn [accept_windows]; unfold on_rpc; solve_keeps. Qed.
#[local] Hint Resolve accept_windows_keeps : keeps.
Lemma authorize_keeps policy c inc authorized deadline window head :
  ok_keeps I (authorize policy c inc authorized deadline window head).
Proof. unfold authorize, accepted_onchain, on_chain. solve_keeps. Qed.
#[local] Hint Resolve authorize_keeps : keeps.
Lemma promote_keeps policy c : ok_keeps I (promote policy c).
Proof.
  unfold promote, on_chain, finalized_block, latest_block, block_by_number, chain_id, incident_at,
    incident_pools_and_signer_at, incident_claim_deadline_at, contract_call, chain_request. solve_keeps.
Qed.
End ChainReads.

(* ------------------------------------------------------------------ *)
(** ** The requests of one verification *)

(** A count of the requests issued to the inner [Rpc]: a request counts one, a batch
    its members, and nothing else counts. *)
Class Metered (W : Type) `{RpcIface W, BudgetCell W} (issued : W → N) : Prop := {
  request_counts : ∀ method params w, issued (rpc_request method params w).2 ≤ issued w + 1;
  batch_counts : ∀ method params w,
    issued (rpc_batch_request method params w).2 ≤ issued w + N.of_nat (length params);
  now_counts : ∀ w, issued (rpc_now w).2 ≤ issued w;
  set_counts : ∀ b w, issued (set_remaining b w) = issued w
}.

Section Requests.
Context {W : Type} `{!RpcIface W, !BudgetCell W} (issued : W → N) `{!BudgetLaws W, !Metered W issued}.

(** What was issued and what may still be. *)
Definition frugal (w w' : W) : Prop :=
  issued w' + (remaining w').1 ≤ issued w + (remaining w).1.
#[export] Instance frugal_preorder : PreOrder frugal.
Proof. split; [intros w|intros a b c]; unfold frugal; lia. Qed.

Lemma spend_bytes_frugal value : keeps frugal (spend_bytes value).
Proof.
  intros w r w'. unfold spend_bytes. destruct (bounded_evidence value (remaining w).2) as [r1 bytes].
  intros [= _ <-]. unfold frugal. rewrite remaining_set, set_counts. cbn. lia.
Qed.
Lemma budget_request_frugal method params : keeps frugal (budget_request method params).
Proof.
  intros w r w'. unfold budget_request. unfold mbind at 1, io_bind at 1. unfold spend_requests.
  destruct (checked_sub (remaining w).1 1) as [left|] eqn:Es; [|intros [= _ <-]; reflexivity].
  apply checked_sub_Some in Es as [-> Hle].
  set (w1 := set_remaining ((remaining w).1 - 1, (remaining w).2) w). intros Hr.
  assert (issued w1 = issued w ∧ (remaining w1).1 = (remaining w).1 - 1) as [E1 E2].
  { unfold w1. by rewrite set_counts, remaining_set. }
  pose proof (request_counts method params w1) as Hc.
  pose proof (request_keeps_budget method params w1) as Hk.
  unfold mbind at 1, io_bind at 1 in Hr. destruct (rpc_request method params w1) as [v w2]. cbn in Hc, Hk.
  assert (frugal w w2) as H2 by (unfold frugal; rewrite Hk, E2; lia).
  destruct v as [v|e|s]; [|by injection Hr as _ <-..]. transitivity w2; [done|].
  assert (keeps frugal (_ ← spend_bytes v; mret v : io W RpcError Value)) as Hs; [|by eapply Hs].
  apply keeps_bind; [apply _|apply spend_bytes_frugal|intros; apply keeps_mret, _].
Qed.
End Requests.

(* ------------------------------------------------------------------ *)
(** ** The search of the accepted call *)

Section Windows.
Context `{HexCrate, Sha3Crate, AbiCodec} {W : Type} `{!RpcIface W}.

(** More fuel than the windows of the range changes nothing. *)
Lemma accept_windows_fuel policy c filter data to : to ≤ u64_max → ∀ n start fuel w,
  (to - start) / MAX_LOG_RANGE = N.of_nat n → (S n ≤ fuel)%nat →
  accept_windows fuel policy c filter data start to w =
  accept_windows (S n) policy c filter data start to w.
Proof.
  intros Hto. assert (MAX_LOG_RANGE ≠ 0 ∧ MAX_LOG_RANGE ≤ u64_max) as [Hr0 Hr] by by vm_compute.
  induction n as [|n IH]; intros start [|fuel] w Hn Hf; try lia; cbn [accept_windows];
    (destruct (N.leb_spec start to) as [Hs|Hs]; [|done]); set (stop := N.min _ to);
    unfold mbind, io_bind; destruct (on_rpc _ w) as [[[logs m]|e|s] w1]; [|done|done| |done|done];
    destruct (any_log policy c data logs w1) as [[[]|e|s] w2]; try done;
    destruct (N.eqb_spec stop to) as [|Hne]; try done.
  - exfalso. apply Hne. unfold stop, saturating_add.
    assert (to - start < MAX_LOG_RANGE).
    { pose proof (N.mod_lt (to - start) MAX_LOG_RANGE Hr0).
      pose proof (N.div_mod (to - start) MAX_LOG_RANGE Hr0). rewrite Hn in *. lia. }
    revert Hr Hto. generalize u64_max. intros. lia.
  - apply IH; [|lia].
    assert (stop + 1 = start + MAX_LOG_RANGE) as ->.
    { unfold stop, saturating_add in *. revert Hne Hr Hto. generalize u64_max. intros. lia. }
    assert (start + MAX_LOG_RANGE ≤ to) as Hle.
    { destruct (N.le_gt_cases (start + MAX_LOG_RANGE) to) as [|Hgt]; [done|exfalso].
      rewrite N.div_small in Hn by lia. lia. }
    assert (to - start = (to - (start + MAX_LOG_RANGE)) + 1 * MAX_LOG_RANGE) as E by lia.
    rewrite E, N.div_add in Hn by done. lia.
Qed.

(** What made an accepted log one: the call that emitted it, direct or traced. *)
Definition accepting_log (policy : PromotionPolicy) (c : Candidate) (log : RpcLog) : Prop :=
  ∃ anchor tx receipt, settled_data c = Ok (log_data log) ∧ length (log_topics log) = 2%nat ∧
    acceptance_bound log anchor tx receipt = Ok tt ∧
    (direct_call policy c tx = Ok true ∨ ∃ trace, judge_trace policy c trace tx receipt = Ok true).
Lemma judge_log_accepts policy c data log w w' : settled_data c = Ok data →
  judge_log policy c data log w = (Ok true, w') → accepting_log policy c log.
Proof.
  intros Hd. unfold judge_log.
  destruct (String.eqb_spec (log_data log) data) as [<-|]; cbn [negb orb]; [|by intros [=]].
  destruct (Nat.eqb_spec (length (log_topics log)) 2) as [Hl|]; cbn [negb]; [|by intros [=]].
  intros (anchor & w1 & _ & (tx & w2 & _ & Hr)%io_bind_ok)%io_bind_ok.
  apply io_bind_ok in Hr as (receipt & w3 & _ & ([] & w4 & [Hb ->]%lift_ok & Hr)%io_bind_ok).
  apply io_bind_ok in Hr as (direct & w5 & [Hdir ->]%lift_ok & (settled & w6 & Hs & Hr)%io_bind_ok).
  destruct settled; [|by injection Hr]. exists anchor, tx, receipt. do 3 (split; [done|]).
  destruct direct; [by left|right]. apply io_bind_ok in Hs as (trace & w7 & _ & [Hj _]%lift_ok).
  by exists trace.
Qed.
Lemma any_log_accepts policy c data logs : settled_data c = Ok data → ∀ w w',
  any_log policy c data logs w = (Ok true, w') → ∃ log, log ∈ logs ∧ accepting_log policy c log.
Proof.
  intros Hd. induction logs as [|log logs IH]; intros w w'; cbn [any_log]; [by intros [=]|].
  intros ([] & w1 & Hj & Ha)%io_bind_ok.
  - exists log. split; [left|]. by eapply judge_log_accepts.
  - destruct (IH _ _ Ha) as (log' & Hin & Hl). exists log'. split; [by right|done].
Qed.
(** The log that ended the search, and that the search answered for its range. *)
Lemma accept_windows_accepts policy c filter data to fuel : settled_data c = Ok data → ∀ start w u w',
  accept_windows fuel policy c filter data start to w = (Ok u, w') →
  ∃ from stop logs m log w1 w2, stop ≤ to ∧
    get_logs_chunked filter from stop MAX_LOG_RANGE LOG_RESULT_CAP w1 = (Ok (logs, m), w2) ∧
    log ∈ logs ∧ accepting_log policy c log.
Proof.
  intros Hd. induction fuel as [|fuel IH]; intros start w u w'; cbn [accept_windows]; [by intros [=]|].
  destruct (N.leb_spec start to) as [Hs|]; [|by intros [=]]. set (stop := N.min _ to).
  intros ([logs m] & w1 & Hl%map_err_io_ok & (accepted & w2 & Ha & Hr)%io_bind_ok)%io_bind_ok.
  destruct accepted.
  - destruct (any_log_accepts _ _ _ _ Hd _ _ Ha) as (log & Hin & Hacc).
    exists start, stop, logs, m, log, w, w1. split; [unfold stop; lia|]. done.
  - destruct (N.eqb_spec stop to) as [|Hne]; [by injection Hr|].
    destruct (IH _ _ _ _ Hr) as (from & stop' & ls & m' & log & wa & wb & Hrest).
    by exists from, stop', ls, m', log, wa, wb.
Qed.
End Windows.

(* ------------------------------------------------------------------ *)
(** ** What the chain answered *)

(** A read that answered [a]. *)
Definition answered {W E A} (m : io W E A) (a : A) : Prop := ∃ w w', m w = (Ok a, w').

Section Promoted.
Context `{HexCrate, Sha3Crate, AbiCodec} {W : Type} `{!RpcIface W}.
Context (policy : PromotionPolicy) (c : Candidate).
Let input := cd_input c.

(** The standing of the incident at the finalized head: unsettled with an authorized
    signer, or settled by this very root, by an authorized signer or an accepted call. *)
Definition justified (inc : Incident) (authorized : bool) (deadline : N) (how : Authorization) : Prop :=
  (inc_root inc = ZERO_HEX ∧ authorized = true ∧ how = CurrentSigner ∧ inc_resolved_at inc = 0 ∧
   inc_unresolved_claims inc = sd_unresolved_claims input ∧ inc_claim_set_hash inc = sd_claim_set input ∧
   inc_phase_deadline inc = deadline) ∨
  (inc_root inc = sd_root input ∧
   (authorized = true ∧ how = CurrentSigner ∨
    authorized = false ∧ how = AcceptedOnchain ∧ ∃ log, accepting_log policy c log)).

Record promoted (vs : VerifiedSettlement) : Prop := {
  pm_network : answered chain_id (pol_chain_id policy);
  pm_head : answered finalized_block (vs_block vs);
  pm_incident : ∃ inc authorized deadline window snapshot,
    answered (incident_at (pol_defi_insurance policy) (sd_incident_id input) (Some (ba_number (vs_block vs)))) inc ∧
    0 < inc_open_block inc ∧ inc_open_block inc ≤ ba_number (vs_block vs) ∧
    inc_reference_block inc = cd_reference_block c ∧ inc_reference_block inc ≤ inc_open_block inc ∧
    inc_tee_pcr_hash inc = sd_tee_pcr_hash input ∧ inc_protocol_fee_share_bps inc = cd_fee_bps c ∧
    answered (incident_pools_and_signer_at (pol_defi_insurance policy) (sd_incident_id input) (cd_signer c)
      (ba_number (vs_block vs))) (sd_pool_addrs input, authorized) ∧
    answered (incident_claim_deadline_at (pol_defi_insurance policy) (sd_incident_id input)
      (inc_open_block inc)) deadline ∧ deadline < ba_timestamp (vs_block vs) ∧
    answered (block_at_or_before_timestamp deadline (ba_number (vs_block vs))) window ∧
    answered (incident_at (pol_defi_insurance policy) (sd_incident_id input) (Some window)) snapshot ∧
    inc_unresolved_claims snapshot = sd_unresolved_claims input ∧
    inc_claim_set_hash snapshot = sd_claim_set input ∧ inc_tee_pcr_hash snapshot = sd_tee_pcr_hash input ∧
    justified inc authorized deadline (vs_authorization vs)
}.

Lemma authorize_justified inc authorized deadline window head how w w' :
  authorize policy c inc authorized deadline window head w = (Ok how, w') →
  justified inc authorized deadline how.
Proof.
  unfold authorize, justified. destruct (String.eqb_spec (inc_root inc) ZERO_HEX) as [Hz|Hz].
  - intros ([] & w1 & [Ha%require_ok ->]%lift_ok & Hr)%io_bind_ok. left.
    apply io_bind_ok in Hr as ([] & w2 & [Hs%require_ok ->]%lift_ok & Hr). injection Hr as <- _.
    apply andb_prop in Hs as [Hs Hd%N.eqb_eq]. apply andb_prop in Hs as [Hs Hc%String.eqb_eq].
    apply andb_prop in Hs as [Ht%N.eqb_eq Hu%N.eqb_eq]. done.
  - intros ([] & w1 & [Hs%require_ok%String.eqb_eq ->]%lift_ok & Hr)%io_bind_ok. right. split; [done|].
    destruct authorized; [injection Hr as <- _; by left|right]. split; [done|].
    apply io_bind_ok in Hr as (to & w2 & _ & (u & w3 & Ha & [= <- _])%io_bind_ok). split; [done|].
    unfold accepted_onchain in Ha. apply io_bind_ok in Ha as (filter & w4 & _ & Ha).
    apply io_bind_ok in Ha as (data & w5 & [Hd ->]%lift_ok & Ha).
    destruct (accept_windows_accepts _ _ _ _ _ _ Hd _ _ _ _ Ha) as (? & ? & ? & ? & log & ? & ? & _ & _ & _ & Hl).
    by exists log.
Qed.

Lemma promote_promoted vs w w' : promote policy c w = (Ok vs, w') → promoted vs.
Proof.
  unfold promote. fold input.
  intros (chain & w1 & Hchain%map_err_io_ok & ([] & w2 & [->%require_ok%N.eqb_eq ->]%lift_ok & Hr)%io_bind_ok)%io_bind_ok.
  apply io_bind_ok in Hr as (head & w3 & Hhead%map_err_io_ok & (latest & w4 & _ & Hr)%io_bind_ok).
  apply io_bind_ok in Hr as ([] & w5 & _ & ([] & w6 & _ & Hr)%io_bind_ok).
  apply io_bind_ok in Hr as (inc & w7 & Hinc%map_err_io_ok & ([] & w8 & [Hci ->]%lift_ok & Hr)%io_bind_ok).
  apply io_bind_ok in Hr as ([pools authorized] & w9 & Hpools%map_err_io_ok & Hr).
  apply io_bind_ok in Hr as ([] & w10 & [->%require_ok%bool_decide_eq_true ->]%lift_ok & Hr).
  apply io_bind_ok in Hr as (deadline & w11 & Hdl%map_err_io_ok & ([] & w12 & [Hlt%require_ok%N.ltb_lt ->]%lift_ok & Hr)%io_bind_ok).
  apply io_bind_ok in Hr as (window & w13 & Hw%map_err_io_ok & (wb & w14 & _ & Hr)%io_bind_ok).
  apply io_bind_ok in Hr as (snapshot & w15 & Hsn%map_err_io_ok & ([] & w16 & [Hcs ->]%lift_ok & Hr)%io_bind_ok).
  apply io_bind_ok in Hr as (how & w17 & Hj%authorize_justified & ([] & w18 & _ & Hr)%io_bind_ok).
  injection Hr as <- _. split; cbn [vs_block vs_authorization]; [by eexists _, _..|].
  exists inc, authorized, deadline, window, snapshot.
  unfold check_incident in Hci. apply bind_ok in Hci as ([] & Ha%require_ok & Hb%require_ok).
  unfold check_snapshot in Hcs. apply require_ok in Hcs. fold input in Hb, Hcs.
  repeat match goal with H : _ && _ = true |- _ => apply andb_prop in H as [? ?] end.
  repeat match goal with
  | H : (_ =? _) = true |- _ => apply N.eqb_eq in H
  | H : (_ <=? _) = true |- _ => apply N.leb_le in H
  | H : (_ <? _) = true |- _ => apply N.ltb_lt in H
  | H : String.eqb _ _ = true |- _ => apply String.eqb_eq in H
  end.
  split; [by eexists _, _|]. do 6 (split; [done|]). split; [by eexists _, _|]. split; [by eexists _, _|].
  split; [done|]. split; [by eexists _, _|]. split; [by eexists _, _|]. done.
Qed.
End Promoted.

(* ------------------------------------------------------------------ *)
(** ** Theorems *)

Lemma budget_laws {W} (inner : RpcIface W) (cell : BudgetCell W) :
  RpcLaws (RpcIface0 := inner) → RpcLaws (RpcIface0 := budget_rpc).
Proof. intros [Hdone]. split. exact @Hdone. Qed.

Section PromotionTheorems.
Context `{HexLaws, Sha3Crate, AbiCodec, !K256Crate, !K256Recover}.
Context {W : Type} `{!RpcIface W, !BudgetCell W, !RpcLaws (W := W)}.

Lemma verify_for_promotion_ok policy incident_id artifact w vs w' :
  verify_for_promotion policy incident_id artifact w = (Ok vs, w') →
  ∃ c, verify_candidate policy incident_id artifact = Ok c ∧
    promote (RpcIface0 := budget_rpc) policy c
      (set_remaining (VERIFICATION_RPC_CAP, VERIFICATION_BYTE_CAP) w) = (Ok vs, w').
Proof.
  unfold verify_for_promotion, budgeted. intros (c & w1 & [Hc ->]%lift_ok & Hr)%io_bind_ok.
  exists c. split; [done|]. by apply io_bind_ok in Hr as ([] & w2 & [= <-] & Hr).
Qed.

(** C25: Completion of a settlement job is safe: when [RpcCompletionVerifier] accepts a
    terminal, the request is for a settlement of the trusted registry, the terminal is
    a completed one, and its payload, with its own signature and signer, is an
    accepted candidate for the requested incident under the trusted policy; the chain
    answered, at its finalized head, that the incident has the candidate's reference
    block, fee, enclave measurement and pools, that its claim window had ended with
    the candidate's claim set, and that it is unsettled with an authorized signer, or
    settled by the candidate's own root. *)
Theorem completion_verify_sound (self : RpcCompletionVerifier) (request : CanonicalRequest)
    (terminal : TerminalEnvelope) (w w' : W) :
  completion_verify self request terminal w = (Ok tt, w') →
  ∃ request' artifact c vs, request = SettlementRequest request' ∧
    address_from_str (cs_registry request') = Some (pol_registry (cv_policy self)) ∧
    te_schema_version terminal = 1 ∧ te_status terminal = Completed ∧
    signed_artifact (te_payload terminal) = Ok artifact ∧
    verify_candidate (cv_policy self) (cs_incident_id request') artifact = Ok c ∧
    promoted (RpcIface0 := budget_rpc) (cv_policy self) c vs.
Proof.
  unfold completion_verify. intros ([] & w1 & [Hb%bail_if_ok ->]%lift_ok & Hr)%io_bind_ok.
  apply orb_false_iff in Hb as [Hv%negb_false_iff%N.eqb_eq Hs%negb_false_iff%bool_decide_eq_true].
  destruct request as [request|request]; [|by injection Hr].
  apply io_bind_ok in Hr as ([] & w2 & [Hreg%bail_if_ok%negb_false_iff%bool_decide_eq_true ->]%lift_ok & Hr).
  unfold within_deadline in Hr. destruct (rpc_timeout _ _ _) as [[[[vs|[why|e|e]|p]|e|p]|] w3] eqn:Et; try done.
  apply rpc_timeout_done in Et. destruct (verify_result_for_promotion _ _ _ w) as [r w4] eqn:Ev.
  injection Et as -> ->. unfold verify_result_for_promotion in Ev.
  apply io_bind_ok in Ev as (artifact & w5 & [Ha ->]%lift_ok & Ev).
  apply verify_for_promotion_ok in Ev as (c & Hc & Hp%promote_promoted).
  by exists request, artifact, c, vs.
Qed.

(** A verification is bounded: one that answers issued at most 256 requests to the
    RPC, over all its reads, log chunks with their bisections and receipts, and
    traces, for any replies. *)
Theorem verification_requests_bounded (issued : W → N) `{!BudgetLaws W, !Metered W issued}
    (policy : PromotionPolicy) (incident_id : string) (artifact : Value) (w w' : W) (vs : VerifiedSettlement) :
  verify_for_promotion policy incident_id artifact w = (Ok vs, w') → issued w' ≤ issued w + 256.
Proof.
  intros (c & _ & Hp)%verify_for_promotion_ok.
  pose proof (promote_keeps (RpcIface0 := budget_rpc) (H2 := budget_laws _ _ RpcLaws0) (frugal issued)) as Hk.
  assert (frugal issued (set_remaining (VERIFICATION_RPC_CAP, VERIFICATION_BYTE_CAP) w) w') as Hf.
  { eapply Hk; [intros; by apply budget_request_frugal| |exact Hp]. intros w1. unfold frugal. cbn.
    rewrite now_keeps_budget. pose proof (now_counts w1). lia. }
  unfold frugal in Hf. rewrite remaining_set, set_counts in Hf. unfold VERIFICATION_RPC_CAP in Hf. cbn in Hf. lia.
Qed.
End PromotionTheorems.

(* ------------------------------------------------------------------ *)
(** ** Evaluated instances *)

#[local] Existing Instances RefHex.hex_crate RefHex.hex_laws RefSha3.sha3_crate RefSerde.serde_json.
#[local] Existing Instances RefK256.k256_crate RefK256.k256_recover RefK256.k256_laws RefAbi.abi_codec.

(** A chain that serves the demo's incident, and counts its requests. *)
Definition demo_word (text : string) : Hash :=
  array_of 32 (default [] (hex_decode (String.substring 2 64 text))).
Definition demo_chain_incident : incidentsReturn :=
  mkIncidentsReturn sample_user 0 10 12 1164 (array_of 32 (be_bytes 32 0)) 2
    (demo_word (ko_claim_set_hash demo_output)) demo_pcr (ki_protocol_fee_share_bps (demo_input demo_claims)).
Definition demo_signer_address : Address := default sample_user (address_from_str (es_signer demo_signature)).
Definition demo_answers : list (Address * SolFn * list byte) :=
  [(sample_user, defiInsurance, returns defiInsurance sample_user);
   (sample_user, registry, returns registry sample_user);
   (sample_user, incidents, returns incidents demo_chain_incident);
   (sample_user, incidentPools, returns incidentPools [sample_user; other_user]);
   (sample_user, isTeeSigner, returns isTeeSigner true);
   (sample_user, incidentPhaseWindow, returns incidentPhaseWindow 20)].
Definition demo_reply (method : string) (params : Value) : outcome RpcError Value :=
  RefProvider.reply demo_ts demo_block_hash 20 (table_answer demo_answers) [] method params.
Definition counted : Type := N * Budget.
#[local] Instance counted_rpc : RpcIface counted := {|
  rpc_request := fun method params '(n, b) => (demo_reply method params, (n + 1, b));
  rpc_batch_request := fun method batch '(n, b) =>
    (mapM (demo_reply method) batch, (n + N.of_nat (length batch), b));
  rpc_metrics := fun _ => mkRpcMetrics 0 0 0 0;
  rpc_now := fun w => (0, w);
  rpc_timeout := fun A d m w => let '(r, w') := m w in (Some r, w')
|}.
#[local] Instance counted_cell : BudgetCell counted := {|
  remaining := snd;
  set_remaining := fun b w => (w.1, b)
|}.
#[local] Instance counted_laws : RpcLaws (W := counted).
Proof. split. intros A d m w r w'. cbn. destruct (m w). by intros [= <- <-]. Qed.
#[local] Instance counted_budget : BudgetLaws counted.
Proof. by split; intros; try destruct w. Qed.
#[local] Instance counted_metered : Metered counted fst.
Proof. split; intros; try destruct w; cbn; lia. Qed.

Definition demo_payload : Value :=
  VObject [("artifact", artifact demo_finished demo_config true); ("digest", VString (run_digest demo_finished));
           ("signature", VString (es_signature demo_signature)); ("signer", VString (es_signer demo_signature))].
Definition demo_verifier : RpcCompletionVerifier := mkRpcCompletionVerifier (policy_of demo_config) (10 ^ 9).
Definition demo_terminal : TerminalEnvelope := mkTerminalEnvelope 1 "job" Completed demo_payload.
Definition demo_settlement_request : CanonicalRequest :=
  SettlementRequest (mkCanonicalSettlementRequest "77" (address_to_string sample_user)).
Definition is_ok {E A W} (r : outcome E A * W) : bool := match r.1 with Ok _ => true | _ => false end.

Example completion_verify_sound_witness : ∃ w' request artifact c,
  completion_verify demo_verifier demo_settlement_request demo_terminal (0, (0, 0)) = (Ok tt, w') ∧
  demo_settlement_request = SettlementRequest request ∧ signed_artifact (te_payload demo_terminal) = Ok artifact ∧
  verify_candidate (cv_policy demo_verifier) (cs_incident_id request) artifact = Ok c.
Proof.
  assert (is_ok (completion_verify demo_verifier demo_settlement_request demo_terminal (0, (0, 0))) = true) as Ht
    by (vm_compute; reflexivity).
  destruct (completion_verify demo_verifier demo_settlement_request demo_terminal (0, (0, 0)))
    as [[[]|e|s] w'] eqn:E; [|discriminate Ht|discriminate Ht].
  destruct (completion_verify_sound demo_verifier demo_settlement_request demo_terminal (0, (0, 0)) w' E)
    as (request & artifact & c & vs & Hr & _ & _ & _ & Ha & Hc & _).
  exists w', request, artifact, c. split; [reflexivity|]. split; [exact Hr|]. split; [exact Ha|exact Hc].
Defined.
Example verification_requests_bounded_witness : ∃ vs w',
  verify_for_promotion (policy_of demo_config) (to_decimal 77) demo_signed_artifact (0, (0, 0)) = (Ok vs, w') ∧
  0 < w'.1 ∧ w'.1 ≤ 256.
Proof.
  assert (match verify_for_promotion (policy_of demo_config) (to_decimal 77) demo_signed_artifact (0, (0, 0)) with
    | (Ok _, w') => 0 <? w'.1 | _ => false end = true) as Ht by (vm_compute; reflexivity).
  destruct (verify_for_promotion (policy_of demo_config) (to_decimal 77) demo_signed_artifact (0, (0, 0)))
    as [[vs|e|s] w'] eqn:E; [|discriminate Ht|discriminate Ht].
  exists vs, w'. split; [reflexivity|]. split; [by apply N.ltb_lt|].
  exact (verification_requests_bounded fst (policy_of demo_config) (to_decimal 77) demo_signed_artifact
    (0, (0, 0)) w' vs E).
Defined.
