(* ===== verification/JobApp.v ===== *)
(** * The job service ([job-api/src/lib.rs], [App])

    Every call of the service is a program over the operations of its store, its
    launcher, its verifier and its clock: a finite tree that performs one
    operation at a time and continues on the answer.  [JobSystem] runs any number
    of such programs against one shared store. *)

From S2P Require Import Prelude Bytes Text Commit Rpc Abi Config Checkpoint CheckpointStore JobProtocol.
From Stdlib Require Import Strings.Byte Strings.Ascii.

Open Scope string_scope.
Open Scope N_scope.
Open Scope list_scope.

(** ** State and messages *)

Record AppConfig := mkAppConfig {
  ac_registry : string;
  ac_defi_insurance : string;
  ac_job_secret : list byte;
  ac_max_result_bytes : N;
  ac_max_inline_result_bytes : N;
  ac_result_url_ttl_seconds : N;
  ac_job_ttl_seconds : N
}.
Inductive CreateOutcome := Created | Exists (existing : list byte).
Record VersionedObject := mkVersionedObject { vo_bytes : list byte; vo_revision : string }.

Record WorkAttempt := mkWorkAttempt {
  wa_generation : N;
  wa_stored : StoredRequest;
  wa_launch_retry_at : N;
  wa_launched : bool;
  wa_completed : bool;
  wa_admission_denied : bool
}.
Definition set_launch_retry_at (t : N) (w : WorkAttempt) : WorkAttempt :=
  mkWorkAttempt (wa_generation w) (wa_stored w) t (wa_launched w) (wa_completed w) (wa_admission_denied w).
Definition set_launched (w : WorkAttempt) : WorkAttempt :=
  mkWorkAttempt (wa_generation w) (wa_stored w) (wa_launch_retry_at w) true (wa_completed w)
    (wa_admission_denied w).
Definition set_completed (w : WorkAttempt) : WorkAttempt :=
  mkWorkAttempt (wa_generation w) (wa_stored w) (wa_launch_retry_at w) (wa_launched w) true
    (wa_admission_denied w).
Definition set_admission_denied (w : WorkAttempt) : WorkAttempt :=
  mkWorkAttempt (wa_generation w) (wa_stored w) (wa_launch_retry_at w) (wa_launched w) (wa_completed w) true.

Record AdmissionPolicy := mkAdmissionPolicy { max_active_workers : N; max_starts_per_hour : N }.
Definition AdmissionPolicy_default : AdmissionPolicy := mkAdmissionPolicy 0 16.

Definition ADMISSION_KEY : string := "control/admission/v1.json".
Definition MAX_CONTROL_BYTES : N := 524288.
Definition MAX_RESERVATIONS : N := 2048.

Record WorkerReservation := mkWorkerReservation {
  wr_job_id : string;
  wr_launch_until : N;
  wr_started_at : option N
}.
Record AdmissionLedger := mkAdmissionLedger {
  al_reservations : list WorkerReservation;
  al_starts : list N;
  al_observed_at : N
}.
Definition AdmissionLedger_default : AdmissionLedger := mkAdmissionLedger [] [] 0.

Record SubmitOutcome := mkSubmitOutcome { so_accepted : bool; so_job_id : string }.
Record ResultDownload := mkResultDownload {
  rd_url : string;
  rd_sha256 : string;
  rd_bytes : N;
  rd_expires_in_seconds : N
}.
Record PollOutcome := mkPollOutcome {
  po_job_id : string;
  po_status : string;
  po_api_verified : bool;
  po_payload : option Value;
  po_download : option ResultDownload
}.

Record App := mkApp {
  app_config : AppConfig;
  app_admission : AdmissionPolicy;
  app_has_verifier : bool
}.

(** [serde_json] on the two control records. *)
Class WorkJson := {
  work_to_vec : WorkAttempt → list byte;
  work_from_slice : list byte → option WorkAttempt;
  ledger_to_vec : AdmissionLedger → list byte;
  ledger_from_slice : list byte → option AdmissionLedger
}.
Class WorkJsonLaws `{WorkJson} : Prop := {
  work_round_trip : ∀ w, work_from_slice (work_to_vec w) = Some w;
  ledger_round_trip : ∀ l, ledger_from_slice (ledger_to_vec l) = Some l
}.

(** ** Operations of the traits [JobStore], [InstanceLauncher] and
    [CompletionVerifier], and of the clocks *)

Inductive op :=
  | GetVersioned (key : string) (max_bytes : N)
  | CompareExchange (key : string) (revision : option string) (value : list byte)
  | Create (key : string) (value : list byte)
  | Get (key : string) (max_bytes : N)
  | DownloadUrl (key : string) (ttl_seconds : N)
  | Precheck (request : CanonicalRequest)
  | IsTerminated (job_id : string)
  | CanReleaseReservation (job_id : string) (launch_until now : N)
  | LaunchBefore (job_id : string) (deadline : N)
  | Verify (request : CanonicalRequest) (terminal : TerminalEnvelope)
  | Clock
  | SystemClock.
Definition answer (o : op) : Type :=
  match o with
  | GetVersioned _ _ => outcome ServiceError (option VersionedObject)
  | CompareExchange _ _ _ => outcome ServiceError bool
  | Create _ _ => outcome ServiceError CreateOutcome
  | Get _ _ => outcome ServiceError (option (list byte))
  | DownloadUrl _ _ => outcome ServiceError string
  | Precheck _ => outcome ServiceError unit
  | IsTerminated _ => outcome ServiceError bool
  | CanReleaseReservation _ _ _ => outcome ServiceError bool
  | LaunchBefore _ _ => outcome ServiceError unit
  | Verify _ _ => outcome ServiceError unit
  | Clock => N
  | SystemClock => outcome ServiceError N
  end.

Inductive prog (A : Type) : Type :=
  | Ret (a : A)
  | Call (o : op) (k : answer o → prog A).
Arguments Ret {A} a.
Arguments Call {A} o k.

Fixpoint prog_bind {A B} (f : A → prog B) (m : prog A) : prog B :=
  match m with Ret a => f a | Call o k => Call o (fun r => prog_bind f (k r)) end.

(** Programs that may fail; [?] stops at the first error. *)
Definition job (A : Type) : Type := prog (outcome ServiceError A).
#[export] Instance job_ret : MRet job := fun A a => Ret (Ok a).
#[export] Instance job_bind : MBind job := fun A B f =>
  prog_bind (fun r => match r with Ok a => f a | Err e => Ret (Err e) | Panic s => Ret (Panic s) end).
Definition of_outcome {A} (m : outcome ServiceError A) : job A := Ret m.
(** The result of a call, looked at by the caller. *)
Definition attempt {A} (m : job A) : job (outcome ServiceError A) :=
  prog_bind (fun r => match r with Panic s => Ret (Panic s) | r => Ret (Ok r) end) m.

Definition get_versioned (key : string) (max_bytes : N) : job (option VersionedObject) :=
  Call (GetVersioned key max_bytes) Ret.
Definition compare_exchange (key : string) (revision : option string) (value : list byte) : job bool :=
  Call (CompareExchange key revision value) Ret.
Definition create (key : string) (value : list byte) : job CreateOutcome := Call (Create key value) Ret.
Definition store_get (key : string) (max_bytes : N) : job (option (list byte)) :=
  Call (Get key max_bytes) Ret.
Definition download_url (key : string) (ttl_seconds : N) : job string := Call (DownloadUrl key ttl_seconds) Ret.
Definition precheck (request : CanonicalRequest) : job unit := Call (Precheck request) Ret.
Definition is_terminated (job_id : string) : job bool := Call (IsTerminated job_id) Ret.
Definition can_release_reservation (job_id : string) (launch_until now : N) : job bool :=
  Call (CanReleaseReservation job_id launch_until now) Ret.
Definition launch_before (job_id : string) (deadline : N) : job unit := Call (LaunchBefore job_id deadline) Ret.
Definition verify (request : CanonicalRequest) (terminal : TerminalEnvelope) : job unit :=
  Call (Verify request terminal) Ret.
Definition clock : job N := Call Clock (fun now => Ret (Ok now)).
Definition system_clock : job N := Call SystemClock Ret.

(** The launcher's default methods. *)
Definition default_precheck (request : CanonicalRequest) : job unit :=
  match request with OpenRequest _ => mret tt | SettlementRequest _ => of_outcome (Err Unavailable) end.
Definition default_can_release_reservation (job_id : string) (launch_until now : N) : job bool :=
  if now <=? saturating_add launch_until 900 then mret false else is_terminated job_id.

(** [for _ in 0..n { ... continue ... }] and [Err(Unavailable)] after it. *)
Fixpoint retry {A} (n : nat) (body : job (option A)) : job A :=
  match n with
  | O => of_outcome (Err Unavailable)
  | S n => r ← body; match r with Some a => mret a | None => retry n body end
  end.

(** [str::replacen(pattern, replacement, 1)] for a pattern that is not empty. *)
Fixpoint replace_first (pattern replacement s : string) : string :=
  match strip_prefix pattern s with
  | Some rest => replacement +:+ rest
  | None => match s with "" => "" | String c s => String c (replace_first pattern replacement s) end
  end.

(** ** Building the service *)

Definition App_new (config : AppConfig) : outcome ServiceError App :=
  _ ← map_err (fun _ => InvalidRequest) (normalize_registry (ac_registry config));
  _ ← map_err (fun _ => InvalidRequest) (normalize_address (ac_defi_insurance config));
  _ ← bail_if ((length (ac_job_secret config) <? 32)%nat ||
               (ac_max_result_bytes config =? 0) || (ac_max_inline_result_bytes config =? 0) ||
               (ac_max_result_bytes config <? ac_max_inline_result_bytes config) ||
               negb ((1 <=? ac_result_url_ttl_seconds config) && (ac_result_url_ttl_seconds config <=? 3600)) ||
               negb ((300 <=? ac_job_ttl_seconds config) && (ac_job_ttl_seconds config <=? 86400)))
        InvalidRequest;
  Ok (mkApp config AdmissionPolicy_default false).
Definition with_completion_verifier (self : App) : App :=
  mkApp (app_config self) (app_admission self) true.
Definition with_admission_policy (self : App) (policy : AdmissionPolicy) : outcome ServiceError App :=
  _ ← bail_if ((128 <? max_active_workers policy) ||
               negb ((1 <=? max_starts_per_hour policy) && (max_starts_per_hour policy <=? 1024)))
        InvalidRequest;
  Ok (mkApp (app_config self) policy (app_has_verifier self)).

(* ------------------------------------------------------------------ *)
(** ** The handlers *)

Section Handlers.
Context `{HexCrate, HmacCrate, Sha2Crate, JobJson, WorkJson}.
(** The build's feature flag, and the service. *)
Context (sepolia : bool) (self : App).
Abbreviation config := (app_config self).

(** *** Admission: one paid start *)

(** What a slot is kept until when only the cost is bounded. *)
Definition retain_until (slot : WorkerReservation) : N :=
  N.max (saturating_add (default (wr_launch_until slot) (wr_started_at slot)) 3600)
    (saturating_add (wr_launch_until slot) 900).
Definition released (now : N) (slot : WorkerReservation) : job bool :=
  if max_active_workers (app_admission self) =? 0 then mret (retain_until slot <? now)
  else
    verdict ← attempt (can_release_reservation (wr_job_id slot) (wr_launch_until slot) now);
    mret (match verdict with Ok true => true | _ => false end).
Definition retain_step (now : N) (retained : list WorkerReservation) (slot : WorkerReservation) :
    job (list WorkerReservation) :=
  _ ← of_outcome (map_err (fun _ => InvalidStoredResult) (JobPaths_new (wr_job_id slot)));
  gone ← released now slot;
  mret (if (gone : bool) then retained else retained ++ [slot]).

(** The start is in the hour that ends at [now]. *)
Definition recent (now started : N) : bool :=
  match checked_sub now started with None => true | Some elapsed => elapsed <=? 3600 end.
Definition find_slot (job_id : string) (slots : list WorkerReservation) : option WorkerReservation :=
  head (List.filter (fun slot => String.eqb (wr_job_id slot) job_id) slots).
Definition admission_denied (retained : list WorkerReservation) (starts : list N) : bool :=
  ((0 <? max_active_workers (app_admission self)) &&
   (max_active_workers (app_admission self) <=? N.of_nat (length retained))) ||
  (max_starts_per_hour (app_admission self) <=? N.of_nat (length starts)) ||
  (MAX_RESERVATIONS <=? N.of_nat (length retained)).

Definition ledger_of (current : option (list byte)) : outcome ServiceError AdmissionLedger :=
  match current with
  | Some bytes => ok_or (ledger_from_slice bytes) InvalidStoredResult
  | None => Ok AdmissionLedger_default
  end.
Definition check_ledger (ledger : AdmissionLedger) : outcome ServiceError unit :=
  bail_if ((MAX_RESERVATIONS <? N.of_nat (length (al_reservations ledger))) ||
           (1024 <? N.of_nat (length (al_starts ledger)))) InvalidStoredResult.
Definition check_time (ledger : AdmissionLedger) (now : N) : outcome ServiceError unit :=
  bail_if ((now =? 0) || (now <? al_observed_at ledger) ||
           existsb (fun started => now <? started) (al_starts ledger)) Unavailable.

Definition commit_reservation (current : option VersionedObject) (ledger : AdmissionLedger)
    (job_id : string) (launch_until now : N) : job (option unit) :=
  retained ← fold_m (retain_step now) [] (al_reservations ledger);
  let starts := List.filter (recent now) (al_starts ledger) in
  let denied := admission_denied retained starts in
  let ledger :=
    if denied then mkAdmissionLedger retained starts now
    else mkAdmissionLedger (retained ++ [mkWorkerReservation job_id launch_until (Some now)])
           (starts ++ [now]) now in
  swapped ← compare_exchange ADMISSION_KEY (vo_revision <$> current) (ledger_to_vec ledger);
  if (swapped : bool) then
    if denied then of_outcome (Err AdmissionLimited) else mret (Some tt)
  else mret None.
Definition reserve_attempt (job_id : string) (launch_until : N) : job (option unit) :=
  current ← get_versioned ADMISSION_KEY MAX_CONTROL_BYTES;
  ledger ← of_outcome (ledger_of (vo_bytes <$> current));
  _ ← of_outcome (check_ledger ledger);
  now ← clock;
  _ ← of_outcome (check_time ledger now);
  match find_slot job_id (al_reservations ledger) with
  | Some slot =>
      _ ← of_outcome (bail_if (negb (wr_launch_until slot =? launch_until)) InvalidStoredResult);
      mret (Some tt)
  | None => commit_reservation current ledger job_id launch_until now
  end.
Definition reserve_worker (job_id : string) (launch_until : N) : job unit :=
  retry 16 (reserve_attempt job_id launch_until).

(** *** Completions *)

Definition parse_terminal (bytes : list byte) (expected_job_id : option string) :
    outcome ServiceError TerminalEnvelope :=
  _ ← bail_if (ac_max_result_bytes config <? N.of_nat (length bytes)) InvalidStoredResult;
  terminal ← ok_or (terminal_from_slice bytes) InvalidStoredResult;
  _ ← bail_if (negb (te_schema_version terminal =? 1) ||
               match expected_job_id with
               | Some job_id => negb (String.eqb (te_job_id terminal) job_id)
               | None => false
               end ||
               negb (is_ok (JobPaths_new (te_job_id terminal))) ||
               bool_decide (as_object (te_payload terminal) = None)) InvalidStoredResult;
  Ok terminal.

Definition call_verifier (request : CanonicalRequest) (terminal : TerminalEnvelope) : job unit :=
  _ ← of_outcome (bail_if (negb (app_has_verifier self)) Unavailable);
  verify request terminal.

(** The request names the locator's incident and registry. *)
Definition request_matches (request : CanonicalRequest) (locator : SettlementLocator) : bool :=
  match request with
  | SettlementRequest request =>
      String.eqb (cs_incident_id request) (loc_incident_id locator) &&
      String.eqb (cs_registry request) (loc_registry locator)
  | OpenRequest _ => false
  end.
Definition verify_completion (stored : StoredRequest) (terminal : TerminalEnvelope) : job unit :=
  match stq_request stored with
  | OpenRequest _ => mret tt
  | SettlementRequest _ =>
      _ ← call_verifier (stq_request stored) terminal;
      locator ← of_outcome (settlement_locator_from_terminal terminal (ac_registry config));
      locator ← of_outcome (ok_or locator InvalidStoredResult);
      _ ← of_outcome (bail_if (negb (request_matches (stq_request stored) locator)) InvalidStoredResult);
      defi_insurance ← of_outcome (map_err (fun _ => InvalidRequest)
                                     (normalize_address (ac_defi_insurance config)));
      of_outcome (bail_if (negb (String.eqb (loc_defi_insurance locator) defi_insurance))
                    InvalidStoredResult)
  end.

Definition work_key (work_id : string) : string := "control/work/" +:+ work_id +:+ ".json".
Definition decode_work (bytes : list byte) : outcome ServiceError WorkAttempt :=
  ok_or (work_from_slice bytes) InvalidStoredResult.

Definition seal_attempt (stored : StoredRequest) (key : string) : job (option bool) :=
  current ← get_versioned key MAX_STORED_REQUEST_BYTES;
  match current with
  | None => mret (Some false)
  | Some current =>
      state ← of_outcome (decode_work (vo_bytes current));
      if negb (bool_decide (wa_stored state = stored)) then mret (Some false)
      else if wa_completed state then mret (Some true)
      else
        swapped ← compare_exchange key (Some (vo_revision current)) (work_to_vec (set_completed state));
        mret (if (swapped : bool) then Some true else None)
  end.
Definition seal_settlement_completion (stored : StoredRequest) : job bool :=
  work_id ← of_outcome (canonical_work_id sepolia (stq_request stored) (ac_defi_insurance config));
  retry 16 (seal_attempt stored (work_key work_id)).

Definition completion_bytes (paths : JobPaths) : job (option (list byte)) :=
  bytes ← store_get (jp_terminal paths) (ac_max_result_bytes config);
  match bytes with
  | Some bytes => mret (Some bytes)
  | None => store_get (replace_first "terminal/" "control/completions/" (jp_terminal paths))
              (ac_max_result_bytes config)
  end.

Definition completion_key (job_id : string) : string := "control/completions/" +:+ job_id +:+ ".json".
Definition completion_request_key (job_id : string) : string :=
  "control/completion-requests/" +:+ job_id +:+ ".json".
(** Create an object that must be the given bytes. *)
Definition create_same (key : string) (value : list byte) : job unit :=
  result ← create key value;
  match result with
  | Created => mret tt
  | Exists existing => of_outcome (bail_if (negb (bool_decide (existing = value))) InvalidStoredResult)
  end.
Definition retain_completion (stored : StoredRequest) (bytes : list byte) : job unit :=
  fold_m (fun _ '(key, value) => create_same key value) tt
    [(completion_key (stq_job_id stored), bytes);
     (completion_request_key (stq_job_id stored), stored_to_vec stored)].

Definition check_published (stored : StoredRequest) (locator : SettlementLocator)
    (existing : list byte) : job unit :=
  existing_terminal ← of_outcome (parse_terminal existing None);
  _ ← of_outcome (map_err (fun _ => InvalidStoredResult)
        (verify_job_request_binding (te_job_id existing_terminal) (stq_request stored)));
  _ ← verify_completion stored existing_terminal;
  _ ← of_outcome (bail_if (negb (bool_decide (te_status existing_terminal = Completed))) InvalidStoredResult);
  existing_locator ← of_outcome (settlement_locator_from_terminal existing_terminal (ac_registry config));
  of_outcome (bail_if (negb (bool_decide (existing_locator = Some locator))) InvalidStoredResult).
Definition publish_settlement (stored : StoredRequest) (bytes : list byte) (terminal : TerminalEnvelope) :
    job unit :=
  locator ← of_outcome (settlement_locator_from_terminal terminal (ac_registry config));
  match locator with
  | None => mret tt
  | Some locator =>
      _ ← of_outcome (bail_if (negb (stq_schema_version stored =? STORED_REQUEST_SCHEMA_VERSION) ||
                      negb (String.eqb (stq_job_id stored) (te_job_id terminal)) ||
                      negb (is_ok (verify_job_request_binding (stq_job_id stored) (stq_request stored))) ||
                      negb (request_matches (stq_request stored) locator)) InvalidStoredResult);
      sealed ← seal_settlement_completion stored;
      if negb sealed then mret tt
      else
        created ← create (locator_key locator) bytes;
        match created with
        | Created => mret tt
        | Exists existing => check_published stored locator existing
        end
  end.

(** *** Submitting work *)

(** The completion candidate, and whether it is an invalid one. *)
Definition read_candidate (job_id : string) (candidate : outcome ServiceError (option (list byte))) :
    outcome ServiceError (option TerminalEnvelope * bool) :=
  match candidate with
  | Ok (Some bytes) =>
      match parse_terminal bytes (Some job_id) with
      | Ok terminal => Ok (Some terminal, false)
      | Err InvalidStoredResult => Ok (None, true)
      | Err error => Err error
      | Panic why => Panic why
      end
  | Ok None => Ok (None, false)
  | Err InvalidStoredResult => Ok (None, true)
  | Err error => Err error
  | Panic why => Panic why
  end.
(** [verified_completion] and [invalid_completion]. *)
Definition check_candidate (state : WorkAttempt) (terminal : option TerminalEnvelope) (invalid : bool) :
    job (bool * bool) :=
  if wa_completed state then mret (true, invalid)
  else
    match terminal with
    | Some terminal =>
        if bool_decide (te_status terminal = Completed) then
          verdict ← attempt (verify_completion (wa_stored state) terminal);
          match verdict with
          | Ok _ => mret (true, invalid)
          | Err InvalidStoredResult => mret (false, true)
          | Err error => of_outcome (Err error)
          | Panic why => of_outcome (Panic why)
          end
        else mret (false, invalid)
    | None => mret (false, invalid)
    end.

(** What a call does about the work record it has read: answer, read it again,
    start the next generation, or take up the launch of the present one. *)
Inductive decision :=
  | Accepted (job_id : string)
  | Again
  | Fresh (generation : N)
  | Resume (state : WorkAttempt).

Definition finish_completed (key : string) (revision : string) (state : WorkAttempt)
    (terminal : option TerminalEnvelope) (candidate : outcome ServiceError (option (list byte))) :
    job decision :=
  terminal ← of_outcome (ok_or terminal InvalidStoredResult);
  _ ← verify_completion (wa_stored state) terminal;
  bytes ← of_outcome candidate;
  bytes ← of_outcome (ok_or bytes InvalidStoredResult);
  _ ← retain_completion (wa_stored state) bytes;
  swapped ←
    (if wa_completed state then mret true
     else compare_exchange key (Some revision) (work_to_vec (set_completed state)));
  if negb swapped then mret Again
  else
    _ ← publish_settlement (wa_stored state) bytes terminal;
    mret (Accepted (stq_job_id (wa_stored state))).

Definition check_work (request : CanonicalRequest) (state : WorkAttempt) : outcome ServiceError unit :=
  bail_if (negb (bool_decide (stq_request (wa_stored state) = request)) ||
           negb (stored_request_is_live (wa_stored state) (stq_created_at (wa_stored state))) ||
           (wa_admission_denied state && (wa_launched state || wa_completed state))) InvalidStoredResult.
Definition launch_deadline (stored : StoredRequest) : N := saturating_add (stq_created_at stored) 120.

Definition next_step (state : WorkAttempt) (has_terminal invalid : bool) (now : N) :
    outcome ServiceError decision :=
  if wa_admission_denied state || (has_terminal && negb invalid) || (stq_expires_at (wa_stored state) <? now)
  then
    generation ← ok_or (checked_add (wa_generation state) 1) Unavailable;
    Ok (Fresh generation)
  else if negb invalid && negb (wa_launched state) && (wa_launch_retry_at state <=? now) &&
          (now <? launch_deadline (wa_stored state))
  then Ok (Resume (set_launch_retry_at (saturating_add now 60) state))
  else Ok (Accepted (stq_job_id (wa_stored state))).

Definition decide_existing (key : string) (request : CanonicalRequest) (now : N)
    (current : VersionedObject) : job decision :=
  state ← of_outcome (decode_work (vo_bytes current));
  _ ← of_outcome (check_work request state);
  let job_id := stq_job_id (wa_stored state) in
  paths ← of_outcome (map_err (fun _ => InvalidStoredResult) (JobPaths_new job_id));
  candidate ← attempt (completion_bytes paths);
  '(terminal, invalid) ← of_outcome (read_candidate job_id candidate);
  '(verified, invalid) ← check_candidate state terminal invalid;
  if (verified : bool) then finish_completed key (vo_revision current) state terminal candidate
  else of_outcome (next_step state (bool_decide (terminal ≠ None)) invalid now).

Definition fresh_attempt (work_id : string) (request : CanonicalRequest) (now generation : N) :
    outcome ServiceError WorkAttempt :=
  job_id ← map_err (fun _ => InvalidRequest)
             (derive_job_id (ac_job_secret config) (work_id +:+ ":" +:+ to_decimal generation) request);
  Ok (mkWorkAttempt generation
        (mkStoredRequest STORED_REQUEST_SCHEMA_VERSION job_id request now
           (saturating_add now (ac_job_ttl_seconds config)))
        (saturating_add now 60) false false false).

(** A reservation that is refused is recorded; every error goes to the caller. *)
Definition reserve_or_deny (key revision : string) (state : WorkAttempt) : job unit :=
  reserved ← attempt (reserve_worker (stq_job_id (wa_stored state)) (launch_deadline (wa_stored state)));
  match reserved with
  | Ok _ => mret tt
  | Err error =>
      _ ← (if bool_decide (error = AdmissionLimited)
           then compare_exchange key (Some revision) (work_to_vec (set_admission_denied state))
           else mret true);
      of_outcome (Err error)
  | Panic why => of_outcome (Panic why)
  end.
(** The launch of a reserved attempt, if the record is still the one written. *)
Definition launch_owned (key revision : string) (state : WorkAttempt) (bytes : list byte) : job unit :=
  fresh ← get_versioned key MAX_STORED_REQUEST_BYTES;
  now ← clock;
  if (launch_deadline (wa_stored state) <=? now) || negb (bool_decide (vo_bytes <$> fresh = Some bytes))
  then mret tt
  else
    _ ← launch_before (stq_job_id (wa_stored state)) (launch_deadline (wa_stored state));
    _ ← compare_exchange key (Some revision) (work_to_vec (set_launched state));
    mret tt.
Definition reserve_and_launch (key : string) (state : WorkAttempt) (bytes : list byte) : job unit :=
  owned ← get_versioned key MAX_STORED_REQUEST_BYTES;
  match owned with
  | None => mret tt
  | Some owned =>
      if negb (bool_decide (vo_bytes owned = bytes)) then mret tt
      else
        now ← clock;
        if launch_deadline (wa_stored state) <=? now then mret tt
        else
          _ ← reserve_or_deny key (vo_revision owned) state;
          launch_owned key (vo_revision owned) state bytes
  end.

Definition start_attempt (key : string) (current : option VersionedObject) (state : WorkAttempt) :
    job (option SubmitOutcome) :=
  let bytes := work_to_vec state in
  swapped ← compare_exchange key (vo_revision <$> current) bytes;
  if negb swapped then mret None
  else
    let job_id := stq_job_id (wa_stored state) in
    paths ← of_outcome (map_err (fun _ => InvalidRequest) (JobPaths_new job_id));
    _ ← create_same (jp_request paths) (stored_to_vec (wa_stored state));
    _ ← reserve_and_launch key state bytes;
    mret (Some (mkSubmitOutcome true job_id)).

Definition submit_attempt (work_id : string) (request : CanonicalRequest) : job (option SubmitOutcome) :=
  now ← clock;
  _ ← of_outcome (bail_if (now =? 0) Unavailable);
  current ← get_versioned (work_key work_id) MAX_STORED_REQUEST_BYTES;
  step ← match current with
         | Some current => decide_existing (work_key work_id) request now current
         | None => mret (Fresh 0)
         end;
  match step with
  | Accepted job_id => mret (Some (mkSubmitOutcome true job_id))
  | Again => mret None
  | Resume state => _ ← precheck request; start_attempt (work_key work_id) current state
  | Fresh generation =>
      _ ← precheck request;
      state ← of_outcome (fresh_attempt work_id request now generation);
      start_attempt (work_key work_id) current state
  end.
Definition submit_canonical (work_id : string) (request : CanonicalRequest) : job SubmitOutcome :=
  retry 16 (submit_attempt work_id request).

Definition submit (idempotency_key : string) (body : list byte) : job SubmitOutcome :=
  request ← of_outcome (map_err (fun _ => InvalidRequest)
                          (canonicalize_request body (ac_registry config)));
  _ ← of_outcome (map_err (fun _ => InvalidRequest)
                    (derive_job_id (ac_job_secret config) idempotency_key request));
  work_id ← of_outcome (canonical_work_id sepolia request (ac_defi_insurance config));
  submit_canonical work_id request.
Definition submit_open (idempotency_key : string) (body : list byte) : job SubmitOutcome :=
  request ← of_outcome (map_err (fun _ => InvalidRequest)
                          (canonicalize_open_request body (ac_registry config)));
  _ ← of_outcome (map_err (fun _ => InvalidRequest)
                    (derive_job_id (ac_job_secret config) idempotency_key request));
  work_id ← of_outcome (canonical_work_id sepolia request (ac_defi_insurance config));
  submit_canonical (hex_encode (array_val (sha256 (as_bytes work_id ++ as_bytes idempotency_key)))) request.

(** *** Reading results *)

Definition terminal_outcome (key : string) (bytes : list byte) (terminal : TerminalEnvelope) :
    job PollOutcome :=
  let status := match te_status terminal with Completed => "completed" | Failed => "failed" end in
  let len := N.of_nat (length bytes) in
  if len <=? ac_max_inline_result_bytes config then
    mret (mkPollOutcome (te_job_id terminal) status false (Some (te_payload terminal)) None)
  else
    url ← download_url key (ac_result_url_ttl_seconds config);
    mret (mkPollOutcome (te_job_id terminal) status false None
            (Some (mkResultDownload url (hex_encode (array_val (sha256 bytes))) len
                     (ac_result_url_ttl_seconds config)))).

Definition poll_pending (paths : JobPaths) (job_id : string) : job PollOutcome :=
  request ← store_get (jp_request paths) (ac_max_result_bytes config);
  request ← of_outcome (ok_or request NotFound);
  stored ← of_outcome (ok_or (stored_from_slice request) InvalidStoredResult);
  _ ← of_outcome (bail_if (negb (stq_schema_version stored =? STORED_REQUEST_SCHEMA_VERSION) ||
        negb (String.eqb (stq_job_id stored) job_id) ||
        negb (is_ok (verify_job_request_binding job_id (stq_request stored))) ||
        negb (saturating_sub (stq_expires_at stored) (stq_created_at stored) =? ac_job_ttl_seconds config))
        InvalidStoredResult);
  now ← system_clock;
  mret (mkPollOutcome job_id (if stq_expires_at stored <? now then "expired" else "pending") false None None).
Definition poll_completed (paths : JobPaths) (job_id : string) (bytes : list byte)
    (terminal : TerminalEnvelope) : job PollOutcome :=
  kept ← store_get (completion_request_key job_id) MAX_STORED_REQUEST_BYTES;
  request_bytes ←
    match kept with
    | Some bytes => mret bytes
    | None =>
        request ← store_get (jp_request paths) MAX_STORED_REQUEST_BYTES;
        of_outcome (ok_or request InvalidStoredResult)
    end;
  stored ← of_outcome (ok_or (stored_from_slice request_bytes) InvalidStoredResult);
  _ ← of_outcome (bail_if (negb (String.eqb (stq_job_id stored) job_id) ||
        negb (stored_request_is_live stored (stq_created_at stored))) InvalidStoredResult);
  _ ← verify_completion stored terminal;
  _ ← retain_completion stored bytes;
  _ ← publish_settlement stored bytes terminal;
  terminal_outcome (completion_key job_id) bytes terminal.
Definition poll (job_id : string) : job PollOutcome :=
  paths ← of_outcome (map_err (fun _ => InvalidRequest) (JobPaths_new job_id));
  candidate ← completion_bytes paths;
  match candidate with
  | None => poll_pending paths job_id
  | Some bytes =>
      terminal ← of_outcome (parse_terminal bytes (Some job_id));
      if bool_decide (te_status terminal = Completed) then poll_completed paths job_id bytes terminal
      else terminal_outcome (jp_terminal paths) bytes terminal
  end.

Definition find_settlement (locator : SettlementLocator) : job (string * list byte) :=
  let key := locator_key locator in
  bytes ← store_get key (ac_max_result_bytes config);
  match bytes with
  | Some bytes => mret (key, bytes)
  | None =>
      let key := replace_first "settlements/v2/" "settlements/v1/" key in
      bytes ← store_get key (ac_max_result_bytes config);
      bytes ← of_outcome (ok_or bytes NotFound);
      mret (key, bytes)
  end.
Definition settlement (chain_id : N) (registry defi_insurance incident_id root : string) :
    job PollOutcome :=
  locator ← of_outcome (map_err (fun _ => InvalidRequest)
              (SettlementLocator_new chain_id registry defi_insurance incident_id root));
  configured ← of_outcome (map_err (fun _ => InvalidRequest) (normalize_registry (ac_registry config)));
  _ ← of_outcome (bail_if (negb (String.eqb (loc_registry locator) configured)) InvalidRequest);
  '(key, bytes) ← find_settlement locator;
  terminal ← of_outcome (parse_terminal bytes None);
  _ ← of_outcome (bail_if (negb (bool_decide (te_status terminal = Completed))) InvalidStoredResult);
  found ← of_outcome (settlement_locator_from_terminal terminal (ac_registry config));
  _ ← of_outcome (bail_if (negb (bool_decide (found = Some locator))) InvalidStoredResult);
  registry ← of_outcome (map_err (fun _ => InvalidRequest) (normalize_registry registry));
  let request := SettlementRequest (mkCanonicalSettlementRequest incident_id registry) in
  _ ← of_outcome (map_err (fun _ => InvalidStoredResult)
        (verify_job_request_binding (te_job_id terminal) request));
  _ ← call_verifier request terminal;
  terminal_outcome key bytes terminal.
End Handlers.
