(* ===== verification/JobSystem.v ===== *)
(** * Concurrent calls of the job service

    Any number of calls of the service ([JobApp]) run against one store, one
    operation at a time, in any order; calls can crash between operations,
    conditional writes can lose their reply, and workers and the storage life
    cycle change the objects outside [control/].  A log of the writes, launches and
    verdicts is kept beside the store.  Every write of a call is shown to be a step of
    the admission ledger or of a work record; the theorems follow from the log. *)

From S2P Require Import Prelude Bytes Text Commit Rpc Abi Config Checkpoint CheckpointStore JobProtocol JobApp.
From Stdlib Require Import Strings.Byte Strings.Ascii.

Open Scope string_scope.
Open Scope N_scope.
Open Scope list_scope.

(** ** The shared world *)

Inductive event :=
  | Written (key : string) (old : option (list byte)) (revision : string) (value : list byte)
  | Stored (key : string) (value : list byte)
  | Launched (job_id : string) (deadline : N)
  | Verified (request : CanonicalRequest) (terminal : TerminalEnvelope).

(** The newest event comes first. *)
Record world := mkWorld { objects : gmap string VersionedObject; log : list event }.
Definition contents (w : world) (key : string) : option (list byte) := vo_bytes <$> objects w !! key.
Definition record_event (e : event) (w : world) : world := mkWorld (objects w) (e :: log w).

(** A revision never names two contents of one key. *)
Definition revision_free (l : list event) (key revision : string) (value : list byte) : Prop :=
  ∀ old other, Written key old revision other ∈ l → other = value.

(** The write of [compare_exchange]: the revision it expects is the present one. *)
Definition swapped_to (w : world) (key : string) (revision : option string) (value : list byte)
    (w' : world) : Prop :=
  vo_revision <$> objects w !! key = revision ∧
  ∃ new, revision_free (log w) key new value ∧
    w' = mkWorld (<[key := mkVersionedObject value new]> (objects w))
           (Written key (contents w key) new value :: log w).
Definition created_at (w : world) (key : string) (value : list byte) (w' : world) : Prop :=
  objects w !! key = None ∧
  ∃ new, w' = mkWorld (<[key := mkVersionedObject value new]> (objects w)) (Stored key value :: log w).

(** What an operation may answer, and the world after it.  A conditional write that
    happened may be answered by an error or as a lost race: its reply was lost. *)
Definition respond (w : world) (o : op) : answer o → world → Prop :=
  match o return answer o → world → Prop with
  | GetVersioned key _ => fun r w' => w' = w ∧ ∀ v, r = Ok v → v = objects w !! key
  | CompareExchange key revision value => fun r w' =>
      (w' = w ∧ r ≠ Ok true) ∨ swapped_to w key revision value w'
  | Create key value => fun r w' =>
      (w' = w ∧ r ≠ Ok Created ∧ ∀ existing, r = Ok (Exists existing) → contents w key = Some existing) ∨
      (created_at w key value w' ∧ ∀ existing, r = Ok (Exists existing) → existing = value)
  | Get key _ => fun r w' => w' = w ∧ ∀ v, r = Ok v → v = contents w key
  | LaunchBefore job_id deadline => fun _ w' => w' = record_event (Launched job_id deadline) w
  | Verify request terminal => fun r w' =>
      w' = match r with Ok _ => record_event (Verified request terminal) w | _ => w end
  | _ => fun _ w' => w' = w
  end.

Section System.
Context `{HexCrate, HmacCrate, Sha2Crate, JobJson, WorkJson}.
Context (sepolia : bool) (self : App).

Inductive request_call :=
  | CallSubmit (idempotency_key : string) (body : list byte)
  | CallSubmitOpen (idempotency_key : string) (body : list byte)
  | CallPoll (job_id : string)
  | CallSettlement (chain_id : N) (registry defi_insurance incident_id root : string).
Inductive reply :=
  | SubmitReply (outcome : SubmitOutcome)
  | PollReply (outcome : PollOutcome).
Definition run_call (call : request_call) : job reply :=
  match call with
  | CallSubmit key body => outcome ← submit sepolia self key body; mret (SubmitReply outcome)
  | CallSubmitOpen key body => outcome ← submit_open sepolia self key body; mret (SubmitReply outcome)
  | CallPoll job_id => outcome ← poll sepolia self job_id; mret (PollReply outcome)
  | CallSettlement chain_id reg defi_insurance incident_id root =>
      outcome ← settlement self chain_id reg defi_insurance incident_id root; mret (PollReply outcome)
  end.

Record process := mkProcess { pr_call : request_call; pr_rest : job reply }.
Record system := mkSystem { sy_world : world; sy_processes : list process }.
Definition initial : system := mkSystem (mkWorld ∅ []) [].

Definition is_control (key : string) : Prop := ∃ rest, key = "control/" +:+ rest.

Inductive step : system → system → Prop :=
  | step_call w ps call :
      step (mkSystem w ps) (mkSystem w (ps ++ [mkProcess call (run_call call)]))
  | step_operation w w' ps ps' call o k r :
      respond w o r w' →
      step (mkSystem w (ps ++ mkProcess call (Call o k) :: ps'))
           (mkSystem w' (ps ++ mkProcess call (k r) :: ps'))
  | step_crash w ps p ps' : step (mkSystem w (ps ++ p :: ps')) (mkSystem w (ps ++ ps'))
  | step_environment w ps key v :
      ¬ is_control key →
      step (mkSystem w ps) (mkSystem (mkWorld (partial_alter (fun _ => v) key (objects w)) (log w)) ps).
Definition reachable : system → Prop := rtc step initial.

(** ** Steps of the admission ledger *)

Definition has_slot (job_id : string) (slots : list WorkerReservation) : bool :=
  bool_decide (job_id ∈ map wr_job_id slots).

Inductive ledger_step (ledger : AdmissionLedger) : AdmissionLedger → Prop :=
  | ledger_denied now retained :
      al_observed_at ledger ≤ now → Forall (fun s => s ≤ now) (al_starts ledger) →
      sublist retained (al_reservations ledger) →
      ledger_step ledger
        (mkAdmissionLedger retained (List.filter (recent now) (al_starts ledger)) now)
  | ledger_granted now retained job_id launch_until :
      al_observed_at ledger ≤ now → Forall (fun s => s ≤ now) (al_starts ledger) →
      sublist retained (al_reservations ledger) →
      has_slot job_id (al_reservations ledger) = false →
      admission_denied self retained (List.filter (recent now) (al_starts ledger)) = false →
      ledger_step ledger
        (mkAdmissionLedger (retained ++ [mkWorkerReservation job_id launch_until (Some now)])
           (List.filter (recent now) (al_starts ledger) ++ [now]) now).

(** ** Steps of a work record *)

Definition untouched (w : WorkAttempt) : Prop :=
  wa_launched w = false ∧ wa_completed w = false ∧ wa_admission_denied w = false.
Definition fresh_record (work_id : string) (request : CanonicalRequest) (now generation : N)
    (w : WorkAttempt) : Prop :=
  fresh_attempt self work_id request now generation = Ok w.

Inductive work_step (work_id : string) : option WorkAttempt → WorkAttempt → Prop :=
  | work_create request now w : fresh_record work_id request now 0 w → work_step work_id None w
  | work_next request now w w' :
      wa_completed w = false → stq_request (wa_stored w) = request →
      fresh_record work_id request now (wa_generation w + 1) w' → work_step work_id (Some w) w'
  | work_resume w t : untouched w → work_step work_id (Some w) (set_launch_retry_at t w)
  | work_deny w : untouched w → work_step work_id (Some w) (set_admission_denied w)
  | work_launch w : untouched w → work_step work_id (Some w) (set_launched w)
  | work_complete w : wa_completed w = false → work_step work_id (Some w) (set_completed w).

(** ** Events the service may cause *)

Definition ledger_write (old : option (list byte)) (value : list byte) : Prop :=
  ∃ ledger ledger', ledger_of old = Ok ledger ∧ value = ledger_to_vec ledger' ∧
    ledger_step ledger ledger'.
Definition work_write (work_id : string) (old : option (list byte)) (value : list byte) : Prop :=
  ∃ w w', match old with Some bytes => work_from_slice bytes = w ∧ is_Some w | None => w = None end ∧
    value = work_to_vec w' ∧ work_step work_id w w'.
Definition is_work_key (key : string) : Prop := ∃ work_id, key = work_key work_id.
Definition is_settlement_key (key : string) : Prop := ∃ rest, key = "settlements/" +:+ rest.

(** The job has a slot in a ledger that was written. *)
Definition reserved (l : list event) (job_id : string) (launch_until : N) : Prop :=
  ∃ old revision value ledger started, Written ADMISSION_KEY old revision value ∈ l ∧
    ledger_from_slice value = Some ledger ∧
    mkWorkerReservation job_id launch_until started ∈ al_reservations ledger.
(** A record of the attempt, not launched yet, was written. *)
Definition attempted (l : list event) (job_id : string) (deadline : N) : Prop :=
  ∃ work_id old revision value w, Written (work_key work_id) old revision value ∈ l ∧
    work_from_slice value = Some w ∧ untouched w ∧ stq_job_id (wa_stored w) = job_id ∧ launch_deadline (wa_stored w) = deadline.
(** The bytes are those of a settlement that was verified for its request, whose work
    record was written as completed, under the settlement's own key. *)
Definition sealed (l : list event) (stored : StoredRequest) : Prop :=
  ∃ work_id old revision value w, Written (work_key work_id) old revision value ∈ l ∧
    work_from_slice value = Some w ∧ wa_stored w = stored ∧ wa_completed w = true.
Definition published (l : list event) (key : string) (value : list byte) : Prop :=
  ∃ stored terminal locator,
    parse_terminal self value (Some (stq_job_id stored)) = Ok terminal ∧
    settlement_locator_from_terminal terminal (ac_registry (app_config self)) = Ok (Some locator) ∧
    key = locator_key locator ∧ request_matches (stq_request stored) locator = true ∧
    verify_job_request_binding (stq_job_id stored) (stq_request stored) = Ok tt ∧
    Verified (stq_request stored) terminal ∈ l ∧ sealed l stored.

Definition current (l : list event) (key : string) : option (list byte) :=
  head (omap (fun e => match e with
                       | Written k _ _ value => if bool_decide (k = key) then Some value else None
                       | _ => None
                       end) l).

(** What each event is allowed to be, given those before it. *)
Definition allowed (l : list event) (e : event) : Prop :=
  match e with
  | Written key old revision value =>
      old = current l key ∧ revision_free l key revision value ∧
      ((key = ADMISSION_KEY ∧ ledger_write old value) ∨
       (∃ work_id, key = work_key work_id ∧ work_write work_id old value))
  | Stored key value =>
      key ≠ ADMISSION_KEY ∧ ¬ is_work_key key ∧ (is_settlement_key key → published l key value)
  | Launched job_id deadline => reserved l job_id deadline ∧ attempted l job_id deadline
  | Verified _ _ => True
  end.
Fixpoint well_formed (l : list event) : Prop :=
  match l with [] => True | e :: l => well_formed l ∧ allowed l e end.
End System.

(* ------------------------------------------------------------------ *)
(** ** A logic for the programs

    [wp m l Q]: whatever the other calls do to a log that starts as [l], the program
    [m] causes allowed events only, and its result satisfies [Q]. *)

Definition extends (l l' : list event) : Prop := ∃ k, l' = k ++ l.
#[export] Instance extends_preorder : PreOrder extends.
Proof.
  split; [by exists []|]. intros l1 l2 l3 [k ->] [k' ->]. exists (k' ++ k). by rewrite app_assoc.
Qed.
Lemma extends_in e l l' : extends l l' → e ∈ l → e ∈ l'.
Proof. intros [k ->] He. apply elem_of_app. by right. Qed.
Lemma extends_cons e l : extends l (e :: l).
Proof. by exists [e]. Qed.

Section Logic.
Context `{HexCrate, HmacCrate, Sha2Crate, JobJson, WorkJson}.
Context (self : App).

(** A conditional write the service may attempt over the contents [old]. *)
Definition may_write (key : string) (old : option (list byte)) (value : list byte) : Prop :=
  (key = ADMISSION_KEY ∧ ledger_write self old value) ∨
  (∃ work_id, key = work_key work_id ∧ work_write self work_id old value).
Definition control_record (key : string) : Prop := key = ADMISSION_KEY ∨ is_work_key key.

Definition allowed_op (l : list event) (o : op) : Prop :=
  match o with
  | CompareExchange key None value => may_write key None value
  | CompareExchange key (Some revision) value =>
      ∃ old bytes, Written key old revision bytes ∈ l ∧ may_write key (Some bytes) value
  | Create key value =>
      key ≠ ADMISSION_KEY ∧ ¬ is_work_key key ∧ (is_settlement_key key → published self l key value)
  | LaunchBefore job_id deadline => reserved l job_id deadline ∧ attempted l job_id deadline
  | _ => True
  end.
(** What an answer tells. *)
Definition learned (l : list event) (o : op) : answer o → Prop :=
  match o return answer o → Prop with
  | GetVersioned key _ => fun r => ∀ v, r = Ok (Some v) → control_record key →
      ∃ old, Written key old (vo_revision v) (vo_bytes v) ∈ l
  | CompareExchange key _ value => fun r => r = Ok true → ∃ old revision, Written key old revision value ∈ l
  | Verify request terminal => fun r => ∀ u, r = Ok u → Verified request terminal ∈ l
  | _ => fun _ => True
  end.

Fixpoint wp {A} (m : prog A) (l : list event) (Q : list event → A → Prop) : Prop :=
  match m with
  | Ret a => ∀ l1, extends l l1 → well_formed self l1 → Q l1 a
  | Call o k => ∀ l1, extends l l1 → well_formed self l1 →
      allowed_op l1 o ∧
      ∀ r l2, extends l1 l2 → well_formed self l2 → learned l2 o r → wp (k r) l2 Q
  end.

Lemma wp_extends {A} (m : prog A) l l' Q : extends l l' → wp m l Q → wp m l' Q.
Proof. destruct m as [a|o k]; cbn; intros Hl Hm l1 X1; apply Hm; by transitivity l'. Qed.
Lemma wp_mono {A} (m : prog A) l (Q Q' : list event → A → Prop) :
  (∀ l' a, extends l l' → well_formed self l' → Q l' a → Q' l' a) → wp m l Q → wp m l Q'.
Proof.
  revert l. induction m as [a|o k IH]; cbn; intros l HQ Hm l1 X1 Hw; [by auto|].
  destruct (Hm l1 X1 Hw) as [Ha Hk]. split; [done|]. intros r l2 X2 Hw2 Hr.
  eapply IH; [|by apply Hk]. intros l' a Hl'. apply HQ. etransitivity; [|done]. by transitivity l1.
Qed.
Lemma wp_bind {A B} (f : A → prog B) (m : prog A) l Q :
  wp m l (fun l' a => wp (f a) l' Q) → wp (prog_bind f m) l Q.
Proof.
  revert l. induction m as [a|o k IH]; intros l Hm.
  - cbn in *. destruct (f a) as [b|o k] eqn:E; cbn in *; intros l1 X1 Hw.
    + by apply (Hm l1 X1 Hw l1).
    + by apply (Hm l1 X1 Hw l1).
  - cbn in *. intros l1 X1 Hw. destruct (Hm l1 X1 Hw) as [Ha Hk]. split; [done|].
    intros r l2 X2 Hw2 Hr. by apply IH, Hk.
Qed.

(** Partial correctness: nothing is asked of errors. *)
Definition hoare {A} (m : job A) (l : list event) (Q : list event → A → Prop) : Prop :=
  wp m l (fun l' r => ∀ a, r = Ok a → Q l' a).

Lemma hoare_extends {A} (m : job A) l l' Q : extends l l' → hoare m l Q → hoare m l' Q.
Proof. apply wp_extends. Qed.
Lemma hoare_mono {A} (m : job A) l (Q Q' : list event → A → Prop) :
  hoare m l Q → (∀ l' a, extends l l' → well_formed self l' → Q l' a → Q' l' a) → hoare m l Q'.
Proof. intros Hm HQ. eapply wp_mono; [|exact Hm]. cbn. eauto. Qed.
Lemma hoare_err {A} (e : ServiceError) l Q : hoare (A := A) (Ret (Err e)) l Q.
Proof. by intros l1 _ _ a Ha. Qed.
Lemma hoare_panic {A} why l Q : hoare (A := A) (Ret (Panic why)) l Q.
Proof. by intros l1 _ _ a Ha. Qed.
Lemma hoare_ret {A} (a : A) l (Q : list event → A → Prop) :
  (∀ l', extends l l' → well_formed self l' → Q l' a) → hoare (mret a) l Q.
Proof. intros HQ l1 X1 Hw b [= <-]. by apply HQ. Qed.
Lemma hoare_bind {A B} (m : job A) (f : A → job B) l R Q :
  hoare m l R → (∀ l' a, extends l l' → well_formed self l' → R l' a → hoare (f a) l' Q) →
  hoare (m ≫= f) l Q.
Proof.
  intros Hm Hf. apply wp_bind. eapply wp_mono; [|exact Hm]. cbn.
  intros l' [a|e|why] Hl Hw HR; [by apply Hf, HR|apply hoare_err|apply hoare_panic].
Qed.
Lemma hoare_attempt {A B} (m : job A) (f : outcome ServiceError A → job B) l R Q :
  hoare m l R →
  (∀ l' r, extends l l' → well_formed self l' → (∀ a, r = Ok a → R l' a) → hoare (f r) l' Q) →
  hoare (attempt m ≫= f) l Q.
Proof.
  intros Hm Hf. apply wp_bind, wp_bind. eapply wp_mono; [|exact Hm]. cbn.
  intros l' r Hl Hw HR. pose proof (Hf l' r Hl Hw HR) as Hr. clear HR.
  destruct r as [a|e|why]; [| |intros l1 X1 Hw1; apply hoare_panic]; intros l1 X1 Hw1;
    exact (hoare_extends _ _ _ _ X1 Hr).
Qed.
Lemma hoare_outcome {A B} (m : outcome ServiceError A) (f : A → job B) l Q :
  (∀ a, m = Ok a → hoare (f a) l Q) → hoare (of_outcome m ≫= f) l Q.
Proof.
  intros Hf. destruct m as [a|e|why]; [by apply Hf|apply hoare_err|apply hoare_panic].
Qed.
Lemma hoare_of_outcome {A} (m : outcome ServiceError A) l (Q : list event → A → Prop) :
  (∀ l' a, extends l l' → well_formed self l' → m = Ok a → Q l' a) → hoare (of_outcome m) l Q.
Proof. intros HQ l1 X1 Hw a Ha. by apply HQ. Qed.

Definition monotone {A} (Q : list event → A → Prop) : Prop :=
  ∀ l l' a, extends l l' → Q l a → Q l' a.
Lemma hoare_retry {A} n (body : job (option A)) l (Q : list event → A → Prop) : monotone Q →
  (∀ l', extends l l' → hoare body l' (fun l'' r => ∀ a, r = Some a → Q l'' a)) →
  hoare (retry n body) l Q.
Proof.
  intros HQ. revert l. induction n as [|n IH]; intros l Hb; [apply hoare_err|].
  cbn [retry]. eapply hoare_bind; [by apply Hb|]. intros l' [a|] Hl Hw HR.
  - apply hoare_ret. intros l'' Hl' _. eapply HQ; [exact Hl'|]. by apply HR.
  - apply IH. intros l'' Hl'. apply Hb. by transitivity l'.
Qed.
Lemma hoare_fold {S A} (f : S → A → job S) (items : list A) (P : S → Prop) s l :
  P s → (∀ s x l', x ∈ items → extends l l' → P s → hoare (f s x) l' (fun _ s' => P s')) →
  hoare (fold_m f s items) l (fun _ s' => P s').
Proof.
  revert s l. induction items as [|x items IH]; intros s l Hs Hf; [by apply hoare_ret|].
  cbn [fold_m]. eapply hoare_bind; [by apply Hf; [left| |]|]. intros l' s' Hl _ Hs'.
  apply IH; [done|]. intros s2 y l2 Hy Hl2. apply Hf; [by right|]. by transitivity l'.
Qed.

(** One operation and the rest of the program. *)
Lemma hoare_call {A B} (o : op) (g : answer o → outcome ServiceError A) (f : A → job B) l Q :
  (∀ l', extends l l' → well_formed self l' → allowed_op l' o) →
  (∀ l' a r, extends l l' → well_formed self l' → learned l' o r → g r = Ok a → hoare (f a) l' Q) →
  hoare ((Call o (fun r => Ret (g r)) : job A) ≫= f) l Q.
Proof.
  intros Ha Hf. unfold mbind, job_bind. cbn. intros l1 X1 Hw1. split; [by apply Ha|].
  intros r l2 X2 Hw2 Hr. destruct (g r) as [a|e|why] eqn:E; [|apply hoare_err|apply hoare_panic].
  eapply (Hf l2 a r); try done. by transitivity l1.
Qed.
Lemma hoare_get_versioned {B} key max_bytes (f : option VersionedObject → job B) l Q :
  control_record key →
  (∀ l' current, extends l l' → well_formed self l' →
     (∀ v, current = Some v → ∃ old, Written key old (vo_revision v) (vo_bytes v) ∈ l') →
     hoare (f current) l' Q) →
  hoare (get_versioned key max_bytes ≫= f) l Q.
Proof.
  intros Hkey Hf. apply (hoare_call (GetVersioned key max_bytes) id); [done|].
  intros l' v r Hl Hw Hr Er. unfold id in Er. subst r. apply Hf; [done..|]. intros x ->. by apply Hr.
Qed.
Lemma hoare_compare_exchange {B} key revision value (f : bool → job B) l Q :
  (∀ l', extends l l' → well_formed self l' → allowed_op l' (CompareExchange key revision value)) →
  (∀ l' swapped, extends l l' → well_formed self l' →
     (swapped = true → ∃ old revision', Written key old revision' value ∈ l') → hoare (f swapped) l' Q) →
  hoare (compare_exchange key revision value ≫= f) l Q.
Proof.
  intros Ha Hf. apply (hoare_call (CompareExchange key revision value) id); [done|].
  intros l' b r Hl Hw Hr Er. unfold id in Er. subst r. apply Hf; [done..|]. intros ->. by apply Hr.
Qed.
Lemma hoare_create {B} key value (f : CreateOutcome → job B) l Q :
  (∀ l', extends l l' → well_formed self l' → allowed_op l' (Create key value)) →
  (∀ l' a, extends l l' → well_formed self l' → hoare (f a) l' Q) →
  hoare (create key value ≫= f) l Q.
Proof. intros Ha Hf. apply (hoare_call (Create key value) id); [done|]. eauto. Qed.
Lemma hoare_launch_before {B} job_id deadline (f : unit → job B) l Q :
  (∀ l', extends l l' → reserved l' job_id deadline ∧ attempted l' job_id deadline) →
  (∀ l' a, extends l l' → well_formed self l' → hoare (f a) l' Q) →
  hoare (launch_before job_id deadline ≫= f) l Q.
Proof. intros Ha Hf. apply (hoare_call (LaunchBefore job_id deadline) id); [intros l' Hl _; by apply Ha|].
  eauto.
Qed.

(** Operations that write and launch nothing, and whose answer tells nothing. *)
Definition quiet (o : op) : Prop :=
  match o with Get _ _ | DownloadUrl _ _ | Precheck _ | IsTerminated _ | CanReleaseReservation _ _ _
             | Clock | SystemClock => True | _ => False end.
Lemma hoare_quiet {A B} (o : op) (g : answer o → outcome ServiceError A) (f : A → job B) l Q :
  quiet o → (∀ l' a, extends l l' → well_formed self l' → hoare (f a) l' Q) →
  hoare ((Call o (fun r => Ret (g r)) : job A) ≫= f) l Q.
Proof.
  intros Ho Hf. apply hoare_call; [|by eauto]. intros l' _ _. by destruct o.
Qed.
Lemma hoare_verify request terminal l :
  hoare (verify request terminal) l (fun l' _ => Verified request terminal ∈ l').
Proof.
  intros l1 X1 Hw1. split; [done|]. intros r l2 X2 Hw2 Hr l3 X3 Hw3 [] ->.
  eapply extends_in; [exact X3|]. by eapply Hr.
Qed.

(** *** Facts of well-formed logs *)

Lemma well_formed_extends l l' : extends l l' → well_formed self l' → well_formed self l.
Proof. intros [k ->]. induction k as [|e k IH]; [done|]. cbn. intros [Hw _]. auto. Qed.
Lemma well_formed_in l e : well_formed self l → e ∈ l →
  ∃ l', extends (e :: l') l ∧ well_formed self l' ∧ allowed self l' e.
Proof.
  induction l as [|x l IH]; [by intros _ ?%elem_of_nil|]. intros [Hw Ha] [->|He]%elem_of_cons.
  - exists l. by split; [|split].
  - destruct (IH Hw He) as (l' & Hl & Hl'). exists l'. split; [|done].
    etransitivity; [exact Hl|]. apply extends_cons.
Qed.
Lemma current_written key old revision value l :
  current (Written key old revision value :: l) key = Some value.
Proof. unfold current. cbn. by rewrite bool_decide_eq_true_2. Qed.
Lemma current_other key e l :
  (∀ old revision value, e ≠ Written key old revision value) → current (e :: l) key = current l key.
Proof.
  intros He. unfold current. cbn. destruct e as [k old revision value| | |]; try done.
  rewrite bool_decide_eq_false_2; [done|]. intros ->. by eapply He.
Qed.
Lemma current_in l key value : current l key = Some value →
  ∃ old revision, Written key old revision value ∈ l.
Proof.
  induction l as [|e l IH]; [done|]. intros Hc.
  destruct e as [k old revision v| | |]; [destruct (decide (k = key)) as [->|Hne]|..].
  1: { rewrite current_written in Hc. injection Hc as ->. exists old, revision. left. }
  all: rewrite current_other in Hc by congruence; destruct (IH Hc) as (o & r & Hin);
    exists o, r; by right.
Qed.
Lemma work_key_not_admission work_id : work_key work_id ≠ ADMISSION_KEY.
Proof. discriminate. Qed.
Lemma work_key_inj work_id work_id' : work_key work_id = work_key work_id' → work_id = work_id'.
Proof. unfold work_key. intros E. by apply str_app_cancel, str_app_cancel_r in E. Qed.
Lemma control_record_control key : control_record key → is_control key.
Proof. intros [->|[work_id ->]]; eexists; reflexivity. Qed.

(** A revision found in the log names its bytes. *)
Lemma revision_unique l key old old' revision value value' : well_formed self l →
  Written key old revision value ∈ l → Written key old' revision value' ∈ l → value = value'.
Proof.
  induction l as [|e l IH]; [by intros _ ?%elem_of_nil|].
  intros [Hw Ha] [He|He]%elem_of_cons [He'|He']%elem_of_cons.
  - congruence.
  - subst e. destruct Ha as (_ & Hfree & _). symmetry. by eapply Hfree.
  - subst e. destruct Ha as (_ & Hfree & _). by eapply Hfree.
  - by apply IH.
Qed.

(** *** The programs run in the shared world *)

(** The log is allowed, and the store holds the last write of every control record. *)
Record world_ok (w : world) : Prop := {
  log_ok : well_formed self (log w);
  store_ok key : control_record key → contents w key = current (log w) key;
  revision_ok key v : control_record key → objects w !! key = Some v →
    ∃ old, Written key old (vo_revision v) (vo_bytes v) ∈ log w
}.

Lemma swapped_ok w key revision value w' : world_ok w →
  allowed_op (log w) (CompareExchange key revision value) → swapped_to w key revision value w' →
  world_ok w' ∧ extends (log w) (log w') ∧ ∃ old revision', Written key old revision' value ∈ log w'.
Proof.
  intros [Hl Hs Hr] Ha [Hrev (new & Hfree & ->)]. cbn [log objects].
  assert (control_record key ∧ may_write key (contents w key) value) as [Hkey Hmay].
  { assert (∀ old, may_write key old value → control_record key) as Hc.
    { intros old [[-> _]|(work_id & -> & _)]; [by left|right; by exists work_id]. }
    unfold contents. destruct revision as [revision|]; cbn in Ha.
    - destruct Ha as (old & bytes & Hin & Hmay). pose proof (Hc _ Hmay) as Hkey. split; [done|].
      apply fmap_Some in Hrev as (v & Hv & ->). rewrite Hv. cbn.
      destruct (Hr key v Hkey Hv) as [old' Hin']. by rewrite (revision_unique _ _ _ _ _ _ _ Hl Hin' Hin).
    - split; [by eapply Hc|]. apply fmap_None in Hrev. by rewrite Hrev. }
  split; [|split; [apply extends_cons|by exists (contents w key), new; left]].
  constructor; cbn [log objects].
  - split; [exact Hl|]. split; [by apply Hs|]. split; [exact Hfree|exact Hmay].
  - intros k Hk. unfold contents. cbn [objects]. destruct (decide (k = key)) as [->|Hne].
    + by rewrite lookup_insert_eq, current_written.
    + rewrite lookup_insert_ne by done. rewrite current_other by congruence. by apply Hs.
  - intros k v Hk. destruct (decide (k = key)) as [->|Hne].
    + rewrite lookup_insert_eq. intros [= <-]. exists (contents w key). left.
    + rewrite lookup_insert_ne by done. intros Hv. destruct (Hr k v Hk Hv) as [old Hin].
      exists old. by right.
Qed.

(** A change of the objects that are not control records, and an allowed event that
    is not a write of one. *)
Lemma world_ok_event w e objects' : world_ok w → allowed self (log w) e →
  (∀ key old revision value, e ≠ Written key old revision value) →
  (∀ key, control_record key → objects' !! key = objects w !! key) →
  world_ok (mkWorld objects' (e :: log w)).
Proof.
  intros [Hl Hs Hr] Ha He Ho. constructor; cbn [log objects].
  - by split.
  - intros key Hk. unfold contents. cbn. rewrite Ho, current_other by done. by apply Hs.
  - intros key v Hk. rewrite Ho by done. intros Hv. destruct (Hr key v Hk Hv) as [old Hin].
    exists old. by right.
Qed.

Lemma respond_ok w o r w' : world_ok w → allowed_op (log w) o → respond w o r w' →
  world_ok w' ∧ extends (log w) (log w') ∧ learned (log w') o r.
Proof.
  intros Hw Ha Hr. destruct o; cbn in Hr |- *.
  all: try (subst w'; split; [done|]; by split).
  - destruct Hr as [-> Hr]. split; [done|]. split; [done|]. intros v -> Hk.
    eapply revision_ok; [done..|]. symmetry. by apply Hr.
  - destruct Hr as [[-> Hr]|Hr].
    + split; [done|]. split; [done|]. done.
    + destruct (swapped_ok _ _ _ _ _ Hw Ha Hr) as (Hw' & He & Hin). done.
  - destruct Hr as [(-> & _)|[[Hnone (new & ->)] _]]; [by split; [|split]|].
    split; [|split; [apply extends_cons|done]]. apply world_ok_event; [done|done|done|].
    destruct Ha as (Ha1 & Ha2 & _). intros k [->|Hk]; apply lookup_insert_ne; congruence.
  - destruct Hr as [-> _]. by split; [|split].
  - subst w'. split; [|split; [apply extends_cons|done]]. by apply world_ok_event.
  - destruct r as [[]|e|why]; subst w'.
    + split; [by apply world_ok_event|]. split; [apply extends_cons|]. intros u _. left.
    + by split; [|split].
    + by split; [|split].
Qed.
End Logic.
