(* ===== verification/JobSafety.v ===== *)
(** * Safety of concurrent calls of the job service

    The calls of [JobApp] keep the log allowed ([JobSystem]); what follows for the
    admission ledger, the work records, the launches and the published settlements. *)

From S2P Require Import Prelude Bytes Text Commit Rpc Abi Config Checkpoint CheckpointStore JobProtocol JobApp JobSystem.
From Stdlib Require Import Strings.Byte Strings.Ascii.

Open Scope string_scope.
Open Scope N_scope.
Open Scope list_scope.

Section Calls.
Context `{HexCrate, HmacCrate, Sha2Crate, JobJson, WorkJsonLaws}.
Context (sepolia : bool) (self : App).
Abbreviation hoare := (hoare self).
Abbreviation well_formed := (well_formed self).

(** *** Admission *)

Lemma released_quiet {B} now slot (f : bool → job B) l Q :
  (∀ l' gone, extends l l' → hoare (f gone) l' Q) → hoare (released self now slot ≫= f) l Q.
Proof.
  intros Hf. unfold released. destruct (_ =? 0); [by apply Hf|].
  eapply hoare_bind with (R := fun _ _ => True); [|by eauto].
  eapply hoare_attempt with (R := fun _ _ => True).
  - intros l1 X1 Hw. split; [done|]. by intros r l2 X2 Hw2 _ l3 X3 Hw3 a _.
  - intros l' r _ _ _. by apply hoare_ret.
Qed.
Lemma retain_step_sublist now retained slot l processed : sublist retained processed →
  hoare (retain_step self now retained slot) l (fun _ r => sublist r (processed ++ [slot])).
Proof.
  intros Hs. unfold retain_step. apply hoare_outcome. intros paths _. apply released_quiet.
  intros l' [] Hl; apply hoare_ret; intros l'' _ _.
  - etransitivity; [exact Hs|]. apply sublist_inserts_r. done.
  - by apply sublist_app.
Qed.
Lemma retained_sublist now slots l :
  hoare (fold_m (retain_step self now) [] slots) l (fun _ retained => sublist retained slots).
Proof.
  enough (∀ retained processed, sublist retained processed →
    hoare (fold_m (retain_step self now) retained slots) l
      (fun _ r => sublist r (processed ++ slots))) as Hg by exact (Hg [] [] (sublist_nil)).
  revert l. induction slots as [|slot slots IH]; intros l retained processed Hs.
  - rewrite app_nil_r. by apply hoare_ret.
  - cbn [fold_m]. eapply hoare_bind; [by apply retain_step_sublist|]. intros l' r Hl Hw Hr.
    replace (processed ++ slot :: slots) with ((processed ++ [slot]) ++ slots) by by rewrite <-app_assoc.
    by apply IH.
Qed.

Lemma find_slot_some job_id slots slot : find_slot job_id slots = Some slot →
  slot ∈ slots ∧ wr_job_id slot = job_id.
Proof.
  unfold find_slot. intros Hf. assert (slot ∈ List.filter (fun s => String.eqb (wr_job_id s) job_id) slots) as Hin.
  { by apply head_Some_elem_of. }
  apply list_elem_of_In, filter_In in Hin as [Hin E]. apply list_elem_of_In in Hin.
  by apply String.eqb_eq in E.
Qed.
Lemma find_slot_none job_id slots : find_slot job_id slots = None → has_slot job_id slots = false.
Proof.
  intros Hf. apply bool_decide_eq_false_2. intros (slot & -> & Hin)%list_elem_of_fmap.
  unfold find_slot in Hf.
  assert (slot ∈ List.filter (fun s => String.eqb (wr_job_id s) (wr_job_id slot)) slots) as Hx.
  { apply list_elem_of_In, filter_In. split; [by apply list_elem_of_In|apply String.eqb_refl]. }
  destruct (List.filter _ _); [by apply elem_of_nil in Hx|done].
Qed.

Lemma check_time_ok ledger now : check_time ledger now = Ok tt →
  al_observed_at ledger ≤ now ∧ Forall (fun s => s ≤ now) (al_starts ledger).
Proof.
  intros [[_ Hobs%N.ltb_ge]%orb_false_iff Hs]%bail_if_ok%orb_false_iff. split; [done|].
  apply Forall_forall. intros s Hin. apply N.ltb_ge. destruct (now <? s) eqn:E; [|done].
  assert (existsb (fun started => now <? started) (al_starts ledger) = true); [|congruence].
  apply existsb_exists. exists s. by apply list_elem_of_In in Hin.
Qed.

(** Where the ledger that was read comes from. *)
Definition read_from (l : list event) (key : string) (current : option VersionedObject) : Prop :=
  ∀ v, current = Some v → ∃ old, Written key old (vo_revision v) (vo_bytes v) ∈ l.
Lemma read_from_extends l l' key current : extends l l' → read_from l key current → read_from l' key current.
Proof. intros Hl Hr v Hv. destruct (Hr v Hv) as [old Hin]. exists old. by eapply extends_in. Qed.
(** A conditional write over what was read. *)
Lemma allowed_swap l key current value : read_from l key current →
  may_write self key (vo_bytes <$> current) value →
  allowed_op self l (CompareExchange key (vo_revision <$> current) value).
Proof.
  intros Hr Hm. destruct current as [v|]; cbn; [|exact Hm]. destruct (Hr v eq_refl) as [old Hin].
  by exists old, (vo_bytes v).
Qed.

Lemma reserved_monotone job_id until : monotone (fun l (_ : unit) => reserved l job_id until).
Proof.
  intros l l' _ Hl (old & revision & value & ledger & started & Hin & Hd & Hs).
  exists old, revision, value, ledger, started. split; [by eapply extends_in|done].
Qed.
Lemma commit_reservation_safe current ledger job_id until now l :
  read_from l ADMISSION_KEY current → ledger_of (vo_bytes <$> current) = Ok ledger →
  check_time ledger now = Ok tt → find_slot job_id (al_reservations ledger) = None →
  hoare (commit_reservation self current ledger job_id until now) l
    (fun l' r => ∀ a : unit, r = Some a → reserved l' job_id until).
Proof.
  intros Hread Hledger [Hobs Hstarts]%check_time_ok Hfind%find_slot_none.
  unfold commit_reservation. eapply hoare_bind; [apply retained_sublist|].
  intros l1 retained Hl1 _ Hsub. cbn zeta.
  set (starts := List.filter _ _). destruct (admission_denied self retained starts) eqn:Hdenied.
  all: apply hoare_compare_exchange.
  1, 3: intros l2 Hl2 _; apply allowed_swap; [eapply read_from_extends; [|exact Hread]; by transitivity l1|];
    left; split; [done|]; eexists _, _; split; [exact Hledger|]; split; [reflexivity|].
  - by apply ledger_denied.
  - by apply ledger_granted.
  - intros l2 [] _ _ _; [apply hoare_err|]. by apply hoare_ret.
  - intros l2 [] _ _ Hin; [|by apply hoare_ret]. destruct (Hin eq_refl) as (old & revision & Hw).
    apply hoare_ret. intros l3 Hl3 _ [] _. eapply (reserved_monotone _ _ _ _ tt); [exact Hl3|].
    eexists old, revision, _, _, (Some now). split; [exact Hw|]. split; [apply ledger_round_trip|].
    apply elem_of_app. right. by left.
Qed.
Lemma reserve_worker_safe job_id until l :
  hoare (reserve_worker self job_id until) l (fun l' _ => reserved l' job_id until).
Proof.
  apply hoare_retry; [apply reserved_monotone|]. intros l0 _. unfold reserve_attempt.
  apply hoare_get_versioned; [by left|]. intros l1 current Hl1 _ Hread.
  apply hoare_outcome. intros ledger Hledger. apply hoare_outcome. intros _ _.
  apply hoare_quiet; [done|]. intros l2 now Hl2 _. apply hoare_outcome. intros [] Htime.
  assert (read_from l2 ADMISSION_KEY current) as Hread2 by by eapply read_from_extends.
  destruct (find_slot job_id (al_reservations ledger)) as [slot|] eqn:Hfind.
  - apply hoare_outcome. intros _ Huntil%bail_if_ok%negb_false_iff%N.eqb_eq.
    apply hoare_ret. intros l3 Hl3 _ [] _. apply find_slot_some in Hfind as [Hin Hid].
    destruct current as [v|]; cbn in Hledger.
    + destruct (Hread2 v eq_refl) as [old Hw]. apply ok_or_ok in Hledger.
      exists old, (vo_revision v), (vo_bytes v), ledger, (wr_started_at slot).
      split; [by eapply extends_in|]. split; [done|]. by destruct slot; cbn in *; subst.
    + injection Hledger as <-. by apply elem_of_nil in Hin.
  - by apply commit_reservation_safe.
Qed.

(** *** Verification and publication *)

Definition is_settlement (request : CanonicalRequest) : Prop :=
  match request with SettlementRequest _ => True | OpenRequest _ => False end.
Definition vouched (l : list event) (stored : StoredRequest) (terminal : TerminalEnvelope) : Prop :=
  is_settlement (stq_request stored) → Verified (stq_request stored) terminal ∈ l.
Lemma vouched_extends l l' stored terminal : extends l l' →
  vouched l stored terminal → vouched l' stored terminal.
Proof. intros Hl Hv Hs. eapply extends_in; [exact Hl|]. by apply Hv. Qed.

Lemma call_verifier_safe request terminal l :
  hoare (call_verifier self request terminal) l (fun l' _ => Verified request terminal ∈ l').
Proof. apply hoare_outcome. intros _ _. apply hoare_verify. Qed.
Lemma verify_completion_safe stored terminal l :
  hoare (verify_completion self stored terminal) l (fun l' _ => vouched l' stored terminal).
Proof.
  unfold verify_completion, vouched. destruct (stq_request stored) as [request|request].
  - eapply hoare_bind; [apply call_verifier_safe|]. intros l1 ? _ _ Hin.
    apply hoare_outcome. intros locator _. apply hoare_outcome. intros locator' _.
    apply hoare_outcome. intros _ _. apply hoare_outcome. intros defi _.
    apply hoare_of_outcome. intros l2 _ Hl2 _ _ _. by eapply extends_in.
  - by apply hoare_ret.
Qed.

Lemma read_from_some l key v : read_from l key (Some v) → ∃ old, Written key old (vo_revision v) (vo_bytes v) ∈ l.
Proof. intros Hr. by apply Hr. Qed.
(** A conditional write over a work record that was read. *)
Lemma may_step work_id bytes w w' : work_from_slice bytes = Some w → work_step self work_id (Some w) w' →
  may_write self (work_key work_id) (Some bytes) (work_to_vec w').
Proof. intros Hd Hs. right. exists work_id. split; [done|]. by exists (Some w), w'. Qed.

Lemma sealed_extends l l' stored : extends l l' → sealed l stored → sealed l' stored.
Proof.
  intros Hl (work_id & old & revision & value & w & Hin & Hd).
  exists work_id, old, revision, value, w. split; [by eapply extends_in|done].
Qed.
Lemma seal_safe stored l :
  hoare (seal_settlement_completion sepolia self stored) l (fun l' b => b = true → sealed l' stored).
Proof.
  apply hoare_outcome. intros work_id _. apply hoare_retry.
  { intros l0 l' a Hl Hs Ha. eapply sealed_extends; [exact Hl|]. by apply Hs. }
  intros l0 _. unfold seal_attempt. apply hoare_get_versioned; [right; by exists work_id|].
  intros l1 [current|] Hl1 _ Hread; [|by apply hoare_ret; intros l2 _ _ a [= <-]].
  apply hoare_outcome. intros state Hstate%ok_or_ok. destruct (bool_decide_reflect (wa_stored state = stored)) as [Es|];
    cbn [negb]; [|by apply hoare_ret; intros l2 _ _ a [= <-]].
  destruct (Hread current eq_refl) as [old Hin].
  destruct (wa_completed state) eqn:Hc.
  - apply hoare_ret. intros l2 Hl2 _ a [= <-] _.
    exists work_id, old, (vo_revision current), (vo_bytes current), state.
    split; [by eapply extends_in|done].
  - apply hoare_compare_exchange.
    + intros l2 Hl2 _. apply (allowed_swap _ _ (Some current)).
      { by eapply read_from_extends. }
      eapply may_step; [exact Hstate|]. by apply work_complete.
    + intros l2 [] Hl2 _ Hw; apply hoare_ret; intros l3 Hl3 _ a Ha; [|done]. injection Ha as <-.
      intros _. destruct (Hw eq_refl) as (old' & revision' & Hin').
      eapply sealed_extends; [exact Hl3|]. eexists work_id, old', revision', _, (set_completed state).
      split; [exact Hin'|]. split; [apply work_round_trip|]. done.
Qed.

Lemma create_same_safe key value l :
  (∀ l', extends l l' → allowed_op self l' (Create key value)) →
  hoare (create_same key value) l (fun _ _ => True).
Proof.
  intros Ha. apply hoare_create; [by auto|]. intros l1 [] _ _; [by apply hoare_ret|].
  by apply hoare_of_outcome.
Qed.
(** Keys outside the control records and the settlements. *)
Lemma allowed_create_plain l key value :
  key ≠ ADMISSION_KEY → ¬ is_work_key key → ¬ is_settlement_key key →
  allowed_op self l (Create key value).
Proof. by intros Ha Hw Hs. Qed.
Lemma retain_completion_safe stored bytes l :
  hoare (retain_completion stored bytes) l (fun _ _ => True).
Proof.
  apply (hoare_fold _ _ _ (fun _ => True)); [done|]. intros [] [key value] l' Hkey _ _.
  apply create_same_safe. intros l2 _.
  apply elem_of_cons in Hkey as [[= -> ->]|[[= -> ->]|[]%elem_of_nil]%elem_of_cons];
    (apply allowed_create_plain; [discriminate|intros [? E]; discriminate|intros [? E]; discriminate]).
Qed.

Lemma publish_settlement_safe stored bytes terminal l :
  vouched l stored terminal → parse_terminal self bytes (Some (stq_job_id stored)) = Ok terminal →
  hoare (publish_settlement sepolia self stored bytes terminal) l (fun _ _ => True).
Proof.
  intros Hv Hparse. apply hoare_outcome. intros [locator|] Hlocator; [|by apply hoare_ret].
  apply hoare_outcome. intros _ Hchecks%bail_if_ok.
  apply orb_false_iff in Hchecks as [[[_ Hid]%orb_false_iff Hbind]%orb_false_iff Hm%negb_false_iff].
  eapply hoare_bind; [apply seal_safe|]. intros l1 [] Hl1 _ Hsealed; cbn [negb]; [|by apply hoare_ret].
  apply hoare_create.
  - intros l2 Hl2 _. split; [discriminate|]. split; [intros [? E]; discriminate|]. intros _.
    exists stored, terminal, locator. split; [exact Hparse|]. split; [exact Hlocator|].
    split; [done|]. split; [exact Hm|]. split.
    { apply negb_false_iff in Hbind. destruct (verify_job_request_binding _ _) as [[]| |]; done. }
    split; [|eapply sealed_extends; [exact Hl2|by apply Hsealed]].
    eapply (vouched_extends l); [by transitivity l1|exact Hv|].
    by destruct (stq_request stored).
  - intros l2 [|existing] _ _; [by apply hoare_ret|]. unfold check_published.
    apply hoare_outcome. intros found _. apply hoare_outcome. intros _ _.
    eapply hoare_bind; [apply verify_completion_safe|]. intros l3 ? _ _ _.
    apply hoare_outcome. intros _ _. apply hoare_outcome. intros ? _. by apply hoare_of_outcome.
Qed.
Lemma completion_bytes_safe paths l : hoare (completion_bytes self paths) l (fun _ _ => True).
Proof.
  apply hoare_quiet; [done|]. intros l1 [bytes|] _ _; [by apply hoare_ret|].
  intros l2 _ _. split; [done|]. by intros r l3 _ _ _ l4 _ _ ? _.
Qed.

(** *** Submitting *)

Lemma read_candidate_some job_id candidate terminal invalid :
  read_candidate self job_id candidate = Ok (Some terminal, invalid) →
  ∃ bytes, candidate = Ok (Some bytes) ∧ parse_terminal self bytes (Some job_id) = Ok terminal.
Proof.
  unfold read_candidate. destruct candidate as [[bytes|]|[]|]; try discriminate.
  destruct (parse_terminal self bytes (Some job_id)) as [t|[]|] eqn:E; try discriminate.
  intros [= -> _]. by exists bytes.
Qed.
Lemma check_candidate_safe state terminal invalid l :
  hoare (check_candidate self state terminal invalid) l
    (fun _ r => r.1 = false → wa_completed state = false).
Proof.
  unfold check_candidate. destruct (wa_completed state); [by apply hoare_ret|].
  destruct terminal as [terminal|]; [|by apply hoare_ret].
  case_bool_decide; [|by apply hoare_ret].
  eapply hoare_attempt; [apply verify_completion_safe|].
  intros l1 [a|[]|why] _ _ _; try apply hoare_err; try apply hoare_panic; by apply hoare_ret.
Qed.

(** What a decision lets the call do next. *)
Definition justified (state : WorkAttempt) (d : decision) : Prop :=
  match d with
  | Fresh generation => generation = wa_generation state + 1 ∧ wa_completed state = false
  | Resume state' => untouched state ∧ ∃ t, state' = set_launch_retry_at t state
  | _ => True
  end.
Lemma next_step_justified state has_terminal invalid now d :
  wa_completed state = false → next_step state has_terminal invalid now = Ok d → justified state d.
Proof.
  intros Hc. unfold next_step.
  destruct (wa_admission_denied state) eqn:Hd; cbn [orb].
  - intros (g & Hg%ok_or_ok & <-%(inj Ok))%bind_ok. split; [|done].
    unfold checked_add in Hg. by repeat case_match; simplify_eq.
  - destruct (_ || _).
    + intros (g & Hg%ok_or_ok & <-%(inj Ok))%bind_ok. split; [|done].
      unfold checked_add in Hg. by repeat case_match; simplify_eq.
    + destruct (_ && _) eqn:E; intros <-%(inj Ok); [|done].
      apply andb_prop in E as [E _]. apply andb_prop in E as [E _]. apply andb_prop in E as [_ E%negb_true_iff].
      split; [done|]. by eexists.
Qed.

Lemma finish_completed_safe work_id current state terminal candidate old l :
  Written (work_key work_id) old (vo_revision current) (vo_bytes current) ∈ l →
  work_from_slice (vo_bytes current) = Some state →
  (∀ t, terminal = Some t → ∃ bytes, candidate = Ok (Some bytes) ∧
     parse_terminal self bytes (Some (stq_job_id (wa_stored state))) = Ok t) →
  hoare (finish_completed sepolia self (work_key work_id) (vo_revision current) state terminal candidate) l
    (fun _ d => justified state d).
Proof.
  intros Hin Hstate Hterminal. apply hoare_outcome. intros t ->%ok_or_ok.
  destruct (Hterminal t eq_refl) as (bytes & -> & Hparse).
  eapply hoare_bind; [apply verify_completion_safe|]. intros l1 ? Hl1 _ Hv.
  apply hoare_outcome. intros ? [= <-]. apply hoare_outcome. intros ? [= <-].
  eapply hoare_bind; [apply retain_completion_safe|]. intros l2 ? Hl2 _ _.
  eapply hoare_bind with (R := fun _ _ => True).
  - destruct (wa_completed state) eqn:Hc; [by apply hoare_ret|].
    intros l3 Hl3 _. split; [|by intros r l4 _ _ _ l5 _ _ ? _].
    exists old, (vo_bytes current). split.
    { eapply extends_in; [|exact Hin]. transitivity l1; [done|]. by transitivity l2. }
    eapply may_step; [exact Hstate|]. by apply work_complete.
  - intros l3 [] Hl3 _ _; cbn [negb]; [|by apply hoare_ret].
    eapply hoare_bind; [eapply publish_settlement_safe; [|exact Hparse]|].
    + eapply (vouched_extends l1); [by transitivity l2|exact Hv].
    + intros l4 ? _ _ _. by apply hoare_ret.
Qed.

Lemma decide_existing_safe work_id request now current old l :
  Written (work_key work_id) old (vo_revision current) (vo_bytes current) ∈ l →
  hoare (decide_existing sepolia self (work_key work_id) request now current) l
    (fun _ d => ∃ state, work_from_slice (vo_bytes current) = Some state ∧
       stq_request (wa_stored state) = request ∧ justified state d).
Proof.
  intros Hin. apply hoare_outcome. intros state Hstate%ok_or_ok.
  apply hoare_outcome. intros _ Hcheck%bail_if_ok.
  assert (stq_request (wa_stored state) = request) as Hrequest.
  { apply orb_false_iff in Hcheck as [[Hr%negb_false_iff _]%orb_false_iff _].
    by apply bool_decide_eq_true in Hr. }
  clear Hcheck. cbn zeta. apply hoare_outcome. intros paths _.
  eapply hoare_attempt; [apply completion_bytes_safe|]. intros l1 candidate Hl1 _ _.
  apply hoare_outcome. intros [terminal invalid] Hcandidate.
  eapply hoare_bind; [apply check_candidate_safe|]. intros l2 [[] invalid'] Hl2 _ Hverified.
  - eapply hoare_mono; [eapply finish_completed_safe|].
    + eapply extends_in; [|exact Hin]. by transitivity l1.
    + exact Hstate.
    + intros t ->. by eapply read_candidate_some.
    + intros l3 d _ _ Hd. by exists state.
  - apply hoare_of_outcome. intros l3 d _ _ Hd%next_step_justified; [|by apply Hverified].
    by exists state.
Qed.

Lemma attempted_extends l l' job_id deadline : extends l l' →
  attempted l job_id deadline → attempted l' job_id deadline.
Proof.
  intros Hl (work_id & old & revision & value & w & Hin & Hd).
  exists work_id, old, revision, value, w. split; [by eapply extends_in|done].
Qed.

Section Started.
(** A record of an attempt that the call has just written. *)
Context (work_id : string) (state : WorkAttempt).
Hypothesis Huntouched : untouched state.
Definition started (l : list event) : Prop :=
  ∃ old revision, Written (work_key work_id) old revision (work_to_vec state) ∈ l.
Lemma started_extends l l' : extends l l' → started l → started l'.
Proof. intros Hl (old & revision & Hin). exists old, revision. by eapply extends_in. Qed.
Lemma started_attempted l : started l →
  attempted l (stq_job_id (wa_stored state)) (launch_deadline (wa_stored state)).
Proof.
  intros (old & revision & Hin). exists work_id, old, revision, (work_to_vec state), state.
  split; [done|]. split; [apply work_round_trip|done].
Qed.
Lemma allowed_update l old revision w' :
  Written (work_key work_id) old revision (work_to_vec state) ∈ l →
  work_step self work_id (Some state) w' →
  allowed_op self l (CompareExchange (work_key work_id) (Some revision) (work_to_vec w')).
Proof.
  intros Hin Hs. exists old, (work_to_vec state). split; [done|].
  eapply may_step; [apply work_round_trip|done].
Qed.

Lemma reserve_or_deny_safe old revision l :
  Written (work_key work_id) old revision (work_to_vec state) ∈ l →
  hoare (reserve_or_deny self (work_key work_id) revision state) l
    (fun l' _ => reserved l' (stq_job_id (wa_stored state)) (launch_deadline (wa_stored state))).
Proof.
  intros Hin. eapply hoare_attempt; [apply reserve_worker_safe|].
  intros l1 [a|e|why] Hl1 _ Hr; [| |apply hoare_panic].
  - apply hoare_ret. intros l2 Hl2 _.
    eapply (reserved_monotone _ _ _ _ tt); [exact Hl2|]. by eapply Hr.
  - case_bool_decide; [|apply hoare_err].
    apply hoare_compare_exchange; [|intros; apply hoare_err].
    intros l2 Hl2 _. eapply (allowed_update _ old).
    + eapply extends_in; [|exact Hin]. by transitivity l1.
    + by apply work_deny.
Qed.
Lemma launch_owned_safe old revision l :
  Written (work_key work_id) old revision (work_to_vec state) ∈ l →
  reserved l (stq_job_id (wa_stored state)) (launch_deadline (wa_stored state)) →
  hoare (launch_owned (work_key work_id) revision state (work_to_vec state)) l (fun _ _ => True).
Proof.
  intros Hin Hr. apply hoare_get_versioned; [right; by exists work_id|]. intros l1 fresh Hl1 _ _.
  apply hoare_quiet; [done|]. intros l2 now Hl2 _.
  assert (extends l l2) as Hl by by transitivity l1.
  destruct (_ || _); [by apply hoare_ret|]. apply hoare_launch_before.
  - intros l3 Hl3. assert (extends l l3) as Hl' by by transitivity l2. split.
    + by eapply (reserved_monotone _ _ _ _ tt).
    + eapply attempted_extends; [exact Hl'|]. apply started_attempted. by exists old, revision.
  - intros l3 [] Hl3 _. apply hoare_compare_exchange; [|by intros; apply hoare_ret].
    intros l4 Hl4 _. eapply (allowed_update _ old); [|by apply work_launch].
    eapply extends_in; [|exact Hin]. transitivity l2; [done|]. by transitivity l3.
Qed.
Lemma reserve_and_launch_safe l :
  hoare (reserve_and_launch self (work_key work_id) state (work_to_vec state)) l (fun _ _ => True).
Proof.
  apply hoare_get_versioned; [right; by exists work_id|]. intros l1 [owned|] Hl1 _ Hread; [|by apply hoare_ret].
  destruct (bool_decide_reflect (vo_bytes owned = work_to_vec state)) as [Eb|]; cbn [negb]; [|by apply hoare_ret].
  destruct (Hread owned eq_refl) as [old Hin]. rewrite Eb in Hin.
  apply hoare_quiet; [done|]. intros l2 now Hl2 _. destruct (_ <=? _); [by apply hoare_ret|].
  eapply hoare_bind; [eapply reserve_or_deny_safe; by eapply extends_in|]. intros l3 ? Hl3 _ Hr.
  eapply launch_owned_safe; [|exact Hr]. eapply extends_in; [|exact Hin]. by transitivity l2.
Qed.

Lemma start_attempt_safe current l :
  read_from l (work_key work_id) current →
  may_write self (work_key work_id) (vo_bytes <$> current) (work_to_vec state) →
  hoare (start_attempt self (work_key work_id) current state) l (fun _ _ => True).
Proof.
  intros Hread Hmay. unfold start_attempt. cbn zeta. apply hoare_compare_exchange.
  - intros l1 Hl1 _. apply allowed_swap; [by eapply read_from_extends|exact Hmay].
  - intros l1 [] Hl1 _ _; cbn [negb]; [|by apply hoare_ret].
    apply hoare_outcome. intros paths Hpaths%map_err_ok%JobPaths_new_ok.
    eapply hoare_bind with (R := fun _ _ => True).
    + apply create_same_safe. intros l2 _. destruct Hpaths as (_ & _ & ->). cbn.
      apply allowed_create_plain; [discriminate|intros [? E]; discriminate|intros [? E]; discriminate].
    + intros l2 ? _ _ _. eapply hoare_bind; [apply reserve_and_launch_safe|].
      intros l3 ? _ _ _. by apply hoare_ret.
Qed.
End Started.

Lemma fresh_untouched work_id request now generation w :
  fresh_attempt self work_id request now generation = Ok w → untouched w.
Proof. by intros (job_id & _ & <-%(inj Ok))%bind_ok. Qed.
Lemma submit_canonical_safe work_id request l :
  hoare (submit_canonical sepolia self work_id request) l (fun _ _ => True).
Proof.
  apply hoare_retry; [done|]. intros l0 _. unfold submit_attempt. apply hoare_quiet; [done|].
  intros l1 now Hl1 _. apply hoare_outcome. intros _ _.
  apply hoare_get_versioned; [right; by exists work_id|]. intros l2 current Hl2 _ Hread.
  eapply hoare_bind with (R := fun _ d => match current with
    | Some v => ∃ state, work_from_slice (vo_bytes v) = Some state ∧
                  stq_request (wa_stored state) = request ∧ justified state d
    | None => d = Fresh 0
    end).
  - destruct current as [v|]; [|by apply hoare_ret]. destruct (Hread v eq_refl) as [old Hin].
    by eapply decide_existing_safe.
  - intros l3 d Hl3 _ Hd. assert (read_from l3 (work_key work_id) current) as Hread3
      by by eapply read_from_extends.
    destruct d as [job_id| |generation|state]; [by apply hoare_ret|by apply hoare_ret|..].
    + apply hoare_quiet; [done|]. intros l4 [] Hl4 _. apply hoare_outcome. intros state Hstate.
      eapply hoare_mono; [apply start_attempt_safe|done].
      * by eapply fresh_untouched.
      * by eapply read_from_extends.
      * destruct current as [v|].
        -- destruct Hd as (state0 & Hdecode & Hrequest & -> & Hc).
           eapply may_step; [exact Hdecode|]. by eapply work_next.
        -- injection Hd as ->. right. exists work_id. split; [done|]. exists None, state.
           split; [done|]. split; [done|]. by eapply work_create.
    + destruct current as [v|]; [|discriminate].
      destruct Hd as (state0 & Hdecode & _ & Hu & t & ->).
      apply hoare_quiet; [done|]. intros l4 [] Hl4 _.
      eapply hoare_mono; [apply start_attempt_safe|done].
      * exact Hu.
      * by eapply read_from_extends.
      * eapply may_step; [exact Hdecode|]. by apply work_resume.
Qed.

(** *** Reading results *)

Definition reports (out : PollOutcome) (terminal : TerminalEnvelope) : Prop :=
  po_job_id out = te_job_id terminal ∧
  (po_status out = "completed" → te_status terminal = Completed) ∧
  ∀ payload, po_payload out = Some payload → payload = te_payload terminal.
Lemma terminal_outcome_safe key bytes terminal l :
  hoare (terminal_outcome self key bytes terminal) l (fun _ out => reports out terminal).
Proof.
  unfold terminal_outcome, reports. cbn zeta. destruct (_ <=? _).
  - apply hoare_ret. cbn. intros _ _ _. split; [done|]. split; [by destruct (te_status terminal)|].
    by intros payload [= <-].
  - apply hoare_quiet; [done|]. intros l1 url _ _. apply hoare_ret. cbn. intros _ _ _.
    split; [done|]. split; [by destruct (te_status terminal)|done].
Qed.

(** The answer of [poll] is that of a terminal of the job, verified for the request
    the job is bound to when it is a settlement. *)
Definition vouched_answer (l : list event) (job_id : string) (out : PollOutcome) : Prop :=
  ∃ stored terminal, reports out terminal ∧ te_job_id terminal = job_id ∧
    verify_job_request_binding job_id (stq_request stored) = Ok tt ∧ vouched l stored terminal.
Definition settled_answer (l : list event) (chain_id : N) (reg defi_insurance incident_id root : string)
    (out : PollOutcome) : Prop :=
  ∃ locator reg' terminal, reports out terminal ∧ te_status terminal = Completed ∧
    SettlementLocator_new chain_id reg defi_insurance incident_id root = Ok locator ∧
    normalize_registry reg = Ok reg' ∧
    settlement_locator_from_terminal terminal (ac_registry (app_config self)) = Ok (Some locator) ∧
    let request := SettlementRequest (mkCanonicalSettlementRequest incident_id reg') in
    verify_job_request_binding (te_job_id terminal) request = Ok tt ∧ Verified request terminal ∈ l.

Lemma stored_live_binding stored now : stored_request_is_live stored now = true →
  verify_job_request_binding (stq_job_id stored) (stq_request stored) = Ok tt.
Proof.
  unfold stored_request_is_live. intros [_ Hb]%andb_prop.
  by destruct (verify_job_request_binding _ _) as [[]| |].
Qed.
Lemma parse_terminal_job_id bytes job_id terminal :
  parse_terminal self bytes (Some job_id) = Ok terminal → te_job_id terminal = job_id.
Proof.
  intros (_ & _ & (t & _ & (_ & Hc%bail_if_ok & <-%(inj Ok))%bind_ok)%bind_ok)%bind_ok.
  apply orb_false_iff in Hc as [[[_ Hid%negb_false_iff]%orb_false_iff _]%orb_false_iff _].
  by apply String.eqb_eq.
Qed.

Lemma poll_completed_safe paths job_id bytes terminal l :
  parse_terminal self bytes (Some job_id) = Ok terminal →
  hoare (poll_completed sepolia self paths job_id bytes terminal) l
    (fun l' out => vouched_answer l' job_id out).
Proof.
  intros Hparse. apply hoare_quiet; [done|]. intros l1 kept _ _.
  eapply hoare_bind with (R := fun _ _ => True).
  { destruct kept as [kept|]; [by apply hoare_ret|]. apply hoare_quiet; [done|].
    intros l2 found _ _. by apply hoare_of_outcome. }
  intros l2 request_bytes _ _ _. apply hoare_outcome. intros stored _.
  apply hoare_outcome. intros _ [Hid%negb_false_iff%String.eqb_eq Hlive%negb_false_iff]%bail_if_ok%orb_false_iff.
  apply stored_live_binding in Hlive. rewrite Hid in Hlive.
  eapply hoare_bind; [apply verify_completion_safe|]. intros l3 ? Hl3 _ Hv.
  eapply hoare_bind; [apply retain_completion_safe|]. intros l4 ? Hl4 _ _.
  eapply hoare_bind; [eapply publish_settlement_safe; [by eapply vouched_extends|by rewrite Hid]|].
  intros l5 ? Hl5 _ _. eapply hoare_mono; [apply terminal_outcome_safe|].
  intros l6 out Hl6 _ Hout. exists stored, terminal. split; [exact Hout|].
  split; [by eapply parse_terminal_job_id|]. split; [exact Hlive|].
  eapply vouched_extends; [|exact Hv]. transitivity l4; [done|]. by transitivity l5.
Qed.
Lemma poll_safe job_id l :
  hoare (poll sepolia self job_id) l (fun l' out => po_status out = "completed" → vouched_answer l' job_id out).
Proof.
  apply hoare_outcome. intros paths _. eapply hoare_bind; [apply completion_bytes_safe|].
  intros l1 [bytes|] _ _ _.
  - apply hoare_outcome. intros terminal Hparse. case_bool_decide as Hstatus.
    + eapply hoare_mono; [by apply poll_completed_safe|done].
    + eapply hoare_mono; [apply terminal_outcome_safe|]. intros l2 out _ _ (_ & Hs & _) Hout.
      by apply Hs in Hout.
  - apply hoare_quiet; [done|]. intros l2 request _ _. apply hoare_outcome. intros ? _.
    apply hoare_outcome. intros stored _. apply hoare_outcome. intros _ _.
    apply hoare_quiet; [done|]. intros l3 now _ _. apply hoare_ret. cbn. intros l4 _ _.
    by destruct (_ <? _).
Qed.

Lemma settlement_safe chain_id reg defi_insurance incident_id root l :
  hoare (settlement self chain_id reg defi_insurance incident_id root) l
    (fun l' out => settled_answer l' chain_id reg defi_insurance incident_id root out).
Proof.
  apply hoare_outcome. intros locator Hlocator%map_err_ok. apply hoare_outcome. intros configured _.
  apply hoare_outcome. intros _ _. eapply hoare_bind with (R := fun _ _ => True).
  { apply hoare_quiet; [done|]. intros l1 [bytes|] _ _; [by apply hoare_ret|].
    apply hoare_quiet; [done|]. intros l2 found _ _. apply hoare_outcome. intros bytes _. by apply hoare_ret. }
  intros l1 [key bytes] _ _ _. apply hoare_outcome. intros terminal _.
  apply hoare_outcome. intros _ Hstatus%bail_if_ok%negb_false_iff%bool_decide_eq_true.
  apply hoare_outcome. intros found Hfound.
  apply hoare_outcome. intros _ Hsame%bail_if_ok%negb_false_iff%bool_decide_eq_true. subst found.
  apply hoare_outcome. intros reg' Hreg%map_err_ok. cbn zeta.
  apply hoare_outcome. intros [] Hbind%map_err_ok.
  eapply hoare_bind; [apply call_verifier_safe|]. intros l2 ? _ _ Hv.
  eapply hoare_mono; [apply terminal_outcome_safe|]. intros l3 out Hl3 _ Hout.
  exists locator, reg', terminal. do 5 (split; [done|]). split; [exact Hbind|]. by eapply extends_in.
Qed.

(** *** Every call *)

Definition promised (call : request_call) (l : list event) (r : reply) : Prop :=
  match call, r with
  | CallPoll job_id, PollReply out => po_status out = "completed" → vouched_answer l job_id out
  | CallSettlement chain_id reg defi_insurance incident_id root, PollReply out =>
      settled_answer l chain_id reg defi_insurance incident_id root out
  | _, _ => True
  end.
Lemma vouched_answer_extends l l' job_id out : extends l l' →
  vouched_answer l job_id out → vouched_answer l' job_id out.
Proof.
  intros Hl (stored & terminal & Hr & Hid & Hb & Hv). exists stored, terminal.
  do 3 (split; [done|]). by eapply vouched_extends.
Qed.
Lemma settled_answer_extends l l' chain_id reg defi_insurance incident_id root out : extends l l' →
  settled_answer l chain_id reg defi_insurance incident_id root out →
  settled_answer l' chain_id reg defi_insurance incident_id root out.
Proof.
  intros Hl (locator & reg' & terminal & H1' & H2' & H3' & H4' & H5' & H6' & Hin).
  exists locator, reg', terminal. do 6 (split; [done|]). by eapply extends_in.
Qed.
Lemma run_call_safe call l : hoare (run_call sepolia self call) l (promised call).
Proof.
  destruct call as [key body|key body|job_id|chain_id reg defi incident root]; cbn [run_call].
  - eapply hoare_bind with (R := fun _ _ => True); [|by intros; apply hoare_ret].
    apply hoare_outcome. intros request _. apply hoare_outcome. intros _ _.
    apply hoare_outcome. intros work_id _. apply submit_canonical_safe.
  - eapply hoare_bind with (R := fun _ _ => True); [|by intros; apply hoare_ret].
    apply hoare_outcome. intros request _. apply hoare_outcome. intros _ _.
    apply hoare_outcome. intros work_id _. apply submit_canonical_safe.
  - eapply hoare_bind; [apply poll_safe|]. intros l1 out _ _ Hout. apply hoare_ret.
    intros l2 Hl2 _ Hs. eapply vouched_answer_extends; [exact Hl2|]. by apply Hout.
  - eapply hoare_bind; [apply settlement_safe|]. intros l1 out _ _ Hout. apply hoare_ret.
    intros l2 Hl2 _. by eapply settled_answer_extends.
Qed.

(** *** The invariant of the system *)

Record system_ok (s : system) : Prop := {
  world_is_ok : world_ok self (sy_world s);
  processes_ok : Forall (fun p => hoare (pr_rest p) (log (sy_world s)) (promised (pr_call p)))
                   (sy_processes s)
}.
Lemma processes_extend l l' ps : extends l l' →
  Forall (fun p => hoare (pr_rest p) l (promised (pr_call p))) ps →
  Forall (fun p => hoare (pr_rest p) l' (promised (pr_call p))) ps.
Proof. intros Hl Hp. eapply Forall_impl; [exact Hp|]. intros p. by apply hoare_extends. Qed.

Lemma environment_ok w key v : ¬ is_control key → world_ok self w →
  world_ok self (mkWorld (partial_alter (fun _ => v) key (objects w)) (log w)).
Proof.
  intros Hkey [Hl Hs Hr].
  assert (∀ k, control_record k → partial_alter (fun _ => v) key (objects w) !! k = objects w !! k) as Ho.
  { intros k Hk. apply lookup_partial_alter_ne. intros ->. by apply Hkey, control_record_control. }
  constructor; cbn [log objects]; [done|..].
  - intros k Hk. unfold contents. cbn. rewrite Ho by done. by apply Hs.
  - intros k x Hk. rewrite Ho by done. by apply Hr.
Qed.
Lemma step_ok s s' : step sepolia self s s' → system_ok s → system_ok s'.
Proof.
  intros Hstep [Hw Hp]. destruct Hstep as [w ps call|w w' ps ps' call o k r Hr|w ps p ps'|w ps key v Hkey];
    cbn [sy_world sy_processes] in *.
  - constructor; [done|]. apply Forall_app. split; [done|]. constructor; [apply run_call_safe|constructor].
  - apply Forall_app in Hp as [Hp Hq]. apply Forall_cons in Hq as [Hthis Hq]. cbn in Hthis.
    destruct (Hthis (log w)) as [Ha Hk]; [done|apply Hw|].
    destruct (respond_ok self w o r w' Hw Ha Hr) as (Hw' & He & Hlearned).
    constructor; [exact Hw'|]. cbn. apply Forall_app. split; [by eapply processes_extend|].
    constructor; [|by eapply processes_extend]. apply Hk; [done|apply Hw'|done].
  - apply Forall_app in Hp as [Hp Hq]. apply Forall_cons in Hq as [_ Hq].
    constructor; [done|]. by apply Forall_app.
  - constructor; [by apply environment_ok|done].
Qed.
Lemma reachable_ok s : reachable sepolia self s → system_ok s.
Proof.
  intros Hr. eapply (rtc_ind_r system_ok initial); [|intros; by eapply step_ok|exact Hr].
  constructor; [|constructor]. constructor; cbn; [done|..].
  - intros key _. unfold contents. cbn. by rewrite lookup_empty.
  - intros key v _. by rewrite lookup_empty.
Qed.
End Calls.
