(* ===== verification/JobAdmission.v ===== *)
(** * Admission, attempts and publication under concurrency

    What the allowed logs of [JobSafety] say of the worker budget, of the life of a
    work record, and of the results the service gives out. *)

From S2P Require Import Prelude Bytes Text Commit Rpc Abi Config Checkpoint CheckpointStore JobProtocol JobApp JobSystem JobSafety.
From Stdlib Require Import Strings.Byte Strings.Ascii.

Open Scope string_scope.
Open Scope N_scope.
Open Scope list_scope.

(** ** Starts in a window of time *)

Definition in_window (t s : N) : bool := (t <=? s) && (s <=? t + 3600).

Lemma recent_spec now s : s ≤ now → recent now s = (now - s <=? 3600).
Proof.
  intros Hs. unfold recent, checked_sub. destruct (N.ltb_spec now s) as [|_]; [lia|].
  destruct (N.leb_spec s now); [done|lia].
Qed.
Lemma filter_recent_twice seen now times : seen ≤ now → Forall (fun s => s ≤ seen) times →
  List.filter (recent now) (List.filter (recent seen) times) = List.filter (recent now) times.
Proof.
  intros Hn Ht. induction Ht as [|s times Hs Ht IH]; [done|]. cbn.
  rewrite !recent_spec by lia. destruct (seen - s <=? 3600) eqn:E1; cbn; rewrite ?recent_spec, IH by lia; [done|].
  apply N.leb_gt in E1. rewrite (proj2 (N.leb_gt (now - s) 3600)) by lia. done.
Qed.
(** A window that reaches [now] is inside the hour before [now]. *)
Lemma window_recent t now times : t ≤ now → now ≤ t + 3600 → Forall (fun s => s ≤ now) times →
  (length (List.filter (in_window t) times) ≤ length (List.filter (recent now) times))%nat.
Proof.
  intros Ht Hn Hs. induction Hs as [|s times Hs _ IH]; [done|]. cbn.
  rewrite recent_spec by done. unfold in_window at 1.
  destruct (N.leb_spec t s); destruct (N.leb_spec s (t + 3600)); destruct (N.leb_spec (now - s) 3600);
    cbn; lia.
Qed.
Lemma window_cons_out t s times : in_window t s = false →
  List.filter (in_window t) (s :: times) = List.filter (in_window t) times.
Proof. intros E. cbn. by rewrite E. Qed.

Section Admission.
Context `{HexCrate, HmacCrate, Sha2Crate, JobJson, WorkJsonLaws}.
Context (sepolia : bool) (self : App).

(** The slots a write adds to the ledger, and all those added, newest first. *)
Definition added (old : option (list byte)) (value : list byte) : list WorkerReservation :=
  match ledger_of old, ledger_from_slice value with
  | Ok ledger, Some ledger' =>
      List.filter (fun slot => negb (has_slot (wr_job_id slot) (al_reservations ledger)))
        (al_reservations ledger')
  | _, _ => []
  end.
Definition charged (e : event) : list WorkerReservation :=
  match e with
  | Written key old _ value => if bool_decide (key = ADMISSION_KEY) then added old value else []
  | _ => []
  end.
Definition charges (l : list event) : list WorkerReservation := flat_map charged l.
Definition start_times (l : list event) : list N := omap wr_started_at (charges l).

Lemma charges_extends l l' slot : extends l l' → slot ∈ charges l → slot ∈ charges l'.
Proof.
  intros [k ->] Hin. unfold charges. rewrite flat_map_app. apply elem_of_app. by right.
Qed.

(** What is true of the ledger after a log. *)
Record ledger_inv (l : list event) (ledger : AdmissionLedger) : Prop := {
  inv_timed : Forall (fun slot => is_Some (wr_started_at slot)) (charges l);
  inv_observed : Forall (fun s => s ≤ al_observed_at ledger) (start_times l);
  inv_starts : al_starts ledger = rev (List.filter (recent (al_observed_at ledger)) (start_times l));
  inv_window t : N.of_nat (length (List.filter (in_window t) (start_times l))) ≤
    max_starts_per_hour (app_admission self);
  inv_charged : Forall (fun slot => slot ∈ charges l) (al_reservations ledger);
  inv_distinct : NoDup (map wr_job_id (al_reservations ledger));
  inv_slots : N.of_nat (length (al_reservations ledger)) ≤ MAX_RESERVATIONS;
  inv_active : 0 < max_active_workers (app_admission self) →
    N.of_nat (length (al_reservations ledger)) ≤ max_active_workers (app_admission self)
}.

Lemma has_slot_in slot slots : slot ∈ slots → has_slot (wr_job_id slot) slots = true.
Proof. intros Hin. apply bool_decide_eq_true_2, list_elem_of_fmap. by exists slot. Qed.
Lemma old_slots_filtered retained slots : sublist retained slots →
  List.filter (fun slot => negb (has_slot (wr_job_id slot) slots)) retained = [].
Proof.
  intros Hs. assert (∀ slot, slot ∈ retained → has_slot (wr_job_id slot) slots = true) as Hin.
  { intros slot Hr. apply has_slot_in. by eapply elem_of_sublist. }
  clear Hs. induction retained as [|slot retained IH]; [done|]. cbn. rewrite Hin by left.
  cbn. apply IH. intros x Hx. apply Hin. by right.
Qed.
Lemma added_denied old ledger retained starts now value :
  ledger_of old = Ok ledger → value = ledger_to_vec (mkAdmissionLedger retained starts now) →
  sublist retained (al_reservations ledger) → added old value = [].
Proof.
  intros Ho -> Hs. unfold added. rewrite Ho, ledger_round_trip. by apply old_slots_filtered.
Qed.
Lemma added_granted old ledger retained slot starts now value :
  ledger_of old = Ok ledger →
  value = ledger_to_vec (mkAdmissionLedger (retained ++ [slot]) starts now) →
  sublist retained (al_reservations ledger) →
  has_slot (wr_job_id slot) (al_reservations ledger) = false → added old value = [slot].
Proof.
  intros Ho -> Hs Hn. unfold added. rewrite Ho, ledger_round_trip. cbn [al_reservations].
  rewrite List.filter_app, old_slots_filtered by done. cbn. by rewrite Hn.
Qed.

Lemma charges_written old revision value l :
  charges (Written ADMISSION_KEY old revision value :: l) = added old value ++ charges l.
Proof. unfold charges. cbn [flat_map charged]. by rewrite bool_decide_eq_true_2. Qed.
Lemma charges_other e l : (∀ old revision value, e ≠ Written ADMISSION_KEY old revision value) →
  charges (e :: l) = charges l.
Proof.
  intros He. unfold charges. cbn [flat_map]. destruct e as [key old revision value| | |]; cbn [charged]; try done.
  case_bool_decide as Hk; [|done]. subst key. by edestruct He.
Qed.

Lemma sublist_jobs retained slots : sublist retained slots →
  sublist (map wr_job_id retained) (map wr_job_id slots).
Proof. intros Hs. induction Hs; cbn; [constructor|by constructor|by constructor]. Qed.

Lemma inv_denied l ledger old revision value now retained : ledger_inv l ledger →
  ledger_of old = Ok ledger →
  al_observed_at ledger ≤ now → sublist retained (al_reservations ledger) →
  let ledger' := mkAdmissionLedger retained (List.filter (recent now) (al_starts ledger)) now in
  value = ledger_to_vec ledger' →
  ledger_inv (Written ADMISSION_KEY old revision value :: l) ledger'.
Proof.
  intros [Htimed Hobs Hstarts Hwindow Hcharged Hdistinct Hslots Hactive] Ho Hnow Hsub ledger' Hv.
  pose proof (sublist_length _ _ Hsub) as Hlen.
  assert (charges (Written ADMISSION_KEY old revision value :: l) = charges l) as Ec.
  { rewrite charges_written. by rewrite (added_denied _ _ _ _ _ _ Ho Hv Hsub). }
  constructor; unfold start_times; rewrite ?Ec; fold (start_times l); cbn [ledger' al_reservations al_starts al_observed_at].
  - done.
  - eapply Forall_impl; [exact Hobs|]. cbn. lia.
  - by rewrite Hstarts, List.filter_rev, filter_recent_twice.
  - done.
  - eapply Forall_forall. intros slot Hin. rewrite Forall_forall in Hcharged. apply Hcharged.
    by eapply elem_of_sublist.
  - eapply sublist_NoDup; [exact Hdistinct|]. by apply sublist_jobs.
  - lia.
  - intros Hm. specialize (Hactive Hm). lia.
Qed.

Lemma admission_denied_false retained starts : admission_denied self retained starts = false →
  N.of_nat (length starts) < max_starts_per_hour (app_admission self) ∧
  N.of_nat (length retained) < MAX_RESERVATIONS ∧
  (0 < max_active_workers (app_admission self) →
   N.of_nat (length retained) < max_active_workers (app_admission self)).
Proof.
  unfold admission_denied.
  intros [[Ha Hs%N.leb_gt]%orb_false_iff Hr%N.leb_gt]%orb_false_iff. split; [done|]. split; [done|].
  intros Hm. apply N.ltb_lt in Hm. rewrite Hm in Ha. by apply N.leb_gt in Ha.
Qed.

Lemma inv_granted l ledger old revision value now retained job_id until : ledger_inv l ledger →
  ledger_of old = Ok ledger →
  al_observed_at ledger ≤ now → sublist retained (al_reservations ledger) →
  has_slot job_id (al_reservations ledger) = false →
  admission_denied self retained (List.filter (recent now) (al_starts ledger)) = false →
  let slot := mkWorkerReservation job_id until (Some now) in
  let ledger' := mkAdmissionLedger (retained ++ [slot])
                   (List.filter (recent now) (al_starts ledger) ++ [now]) now in
  value = ledger_to_vec ledger' →
  ledger_inv (Written ADMISSION_KEY old revision value :: l) ledger'.
Proof.
  intros [Htimed Hobs Hstarts Hwindow Hcharged Hdistinct Hslots Hactive] Ho Hnow Hsub Hnew
    (Hs & Hr & Ha)%admission_denied_false slot ledger' Hv.
  assert (charges (Written ADMISSION_KEY old revision value :: l) = slot :: charges l) as Ec.
  { rewrite charges_written. by rewrite (added_granted _ _ _ _ _ _ _ Ho Hv Hsub Hnew). }
  assert (Forall (fun s => s ≤ now) (start_times l)) as Hpast.
  { eapply Forall_impl; [exact Hobs|]. cbn. lia. }
  rewrite Hstarts, List.filter_rev, filter_recent_twice in Hs by done. rewrite length_rev in Hs.
  constructor; unfold start_times; rewrite ?Ec; cbn [omap list_omap slot wr_started_at]; fold (start_times l);
    cbn [ledger' al_reservations al_starts al_observed_at].
  - by constructor.
  - by constructor.
  - rewrite Hstarts, List.filter_rev, filter_recent_twice by done. cbn [List.filter].
    rewrite recent_spec, N.sub_diag by lia. done.
  - intros t. destruct (in_window t now) eqn:E; [|by rewrite window_cons_out].
    cbn [List.filter]. rewrite E. cbn [length].
    apply andb_prop in E as [E1%N.leb_le E2%N.leb_le].
    pose proof (window_recent t now (start_times l) E1 E2 Hpast). lia.
  - apply Forall_app. split; [|by constructor; [left|constructor]]. apply Forall_forall.
    intros x Hin. right. rewrite Forall_forall in Hcharged. apply Hcharged. by eapply elem_of_sublist.
  - rewrite map_app. apply NoDup_app. split; [eapply sublist_NoDup; [exact Hdistinct|by apply sublist_jobs]|].
    split; [|by apply NoDup_singleton]. intros x Hx ->%list_elem_of_singleton.
    apply bool_decide_eq_false in Hnew. apply Hnew. cbn.
    eapply elem_of_sublist; [exact Hx|by apply sublist_jobs].
  - rewrite length_app. cbn. lia.
  - intros Hm. specialize (Ha Hm). rewrite length_app. cbn. lia.
Qed.

Lemma inv_unchanged l ledger e : (∀ old revision value, e ≠ Written ADMISSION_KEY old revision value) →
  ledger_inv l ledger → ledger_inv (e :: l) ledger.
Proof. intros He []. constructor; unfold start_times; rewrite ?charges_other by done; done. Qed.

Lemma ledger_invariant l : well_formed self l →
  ∃ ledger, ledger_of (current l ADMISSION_KEY) = Ok ledger ∧ ledger_inv l ledger.
Proof.
  induction l as [|e l IH].
  - intros _. exists AdmissionLedger_default. split; [done|]. constructor; try (by constructor); cbn; lia.
  - intros [Hw Ha]. destruct (IH Hw) as (ledger & Hl & Hinv).
    assert ((∃ old revision value, e = Written ADMISSION_KEY old revision value) ∨
            ∀ old revision value, e ≠ Written ADMISSION_KEY old revision value) as [(old & revision & value & ->)|He].
    { destruct e as [key old revision value| | |]; [|by right..].
      destruct (decide (key = ADMISSION_KEY)) as [->|Hne]; [left; by eauto|right; congruence]. }
    + destruct Ha as (Hold & _ & Hwrite). rewrite <-Hold in Hl.
      assert (ledger_write self old value) as (ledger0 & ledger' & Ho & Hv & Hstep).
      { destruct Hwrite as [[_ Hwrite]|(work_id & E & _)]; [done|discriminate E]. }
      rewrite Hl in Ho. injection Ho as <-. exists ledger'. rewrite current_written. split.
      { cbn. by rewrite Hv, ledger_round_trip. }
      destruct Hstep; [by eapply inv_denied|by eapply inv_granted].
    + exists ledger. rewrite current_other by done. split; [done|]. by apply inv_unchanged.
Qed.

Lemma reserved_charged l job_id until : well_formed self l → reserved l job_id until →
  ∃ slot, slot ∈ charges l ∧ wr_job_id slot = job_id ∧ wr_launch_until slot = until.
Proof.
  intros Hw (old & revision & value & ledger & started & Hin & Hd & Hslot).
  destruct (well_formed_in _ _ _ Hw Hin) as (l' & Hext & Hw' & Ha).
  destruct (ledger_invariant (Written ADMISSION_KEY old revision value :: l')) as (ledger' & Hl & Hinv).
  { by split. }
  rewrite current_written in Hl. cbn in Hl. rewrite Hd in Hl. injection Hl as <-.
  exists (mkWorkerReservation job_id until started). split; [|done].
  eapply charges_extends; [exact Hext|].
  pose proof (inv_charged _ _ Hinv) as Hc. rewrite Forall_forall in Hc. by apply Hc.
Qed.

(** ** The life of a work record *)

(** [later] is reached from [earlier]: generations only grow, an attempt keeps its
    request, its identity and its times, and a completed record never changes. *)
Record evolved (earlier later : WorkAttempt) : Prop := {
  generation_grows : wa_generation earlier ≤ wa_generation later;
  attempt_kept : wa_generation earlier = wa_generation later →
    wa_stored later = wa_stored earlier ∧ (wa_launched earlier = true → wa_launched later = true);
  request_kept : stq_request (wa_stored later) = stq_request (wa_stored earlier);
  completed_final : wa_completed earlier = true → later = earlier
}.
#[export] Instance evolved_preorder : PreOrder evolved.
Proof.
  split; [by constructor|]. intros a b c [Hg Hk Hr Hc] [Hg' Hk' Hr' Hc'].
  constructor; [lia| |congruence|].
  - intros E. assert (wa_generation a = wa_generation b) as E1 by lia.
    assert (wa_generation b = wa_generation c) as E2 by lia.
    destruct (Hk E1) as [Hs Hl], (Hk' E2) as [Hs' Hl']. split; [congruence|auto].
  - intros Ha. pose proof (Hc Ha). subst b. by apply Hc'.
Qed.
Lemma fresh_attempt_ok work_id request now generation w :
  fresh_attempt self work_id request now generation = Ok w →
  wa_generation w = generation ∧ stq_request (wa_stored w) = request ∧ stq_created_at (wa_stored w) = now ∧
  derive_job_id (ac_job_secret (app_config self)) (work_id +:+ ":" +:+ to_decimal generation) request =
    Ok (stq_job_id (wa_stored w)).
Proof. by intros (job_id & ?%map_err_ok & <-%(inj Ok))%bind_ok. Qed.
Lemma work_step_evolved work_id w w' : work_step self work_id (Some w) w' → evolved w w'.
Proof.
  intros Hs. inversion Hs as [|? now ? ? Hc Hreq Hfresh|? t (_ & Hc & _)|? (Hl & Hc & Hd)|? (_ & Hc & _)|? Hc]; subst.
  - apply fresh_attempt_ok in Hfresh as (Hg & Hr & _). constructor; [lia|lia|done|congruence].
  - constructor; cbn; [lia|done|done|congruence].
  - constructor; cbn; [lia|done|done|congruence].
  - constructor; cbn; [lia|done|done|congruence].
  - constructor; cbn; [lia|done|done|congruence].
Qed.

(** The job id of a record is the one derived from its generation. *)
Definition derived (work_id : string) (w : WorkAttempt) : Prop :=
  derive_job_id (ac_job_secret (app_config self)) (work_id +:+ ":" +:+ to_decimal (wa_generation w))
    (stq_request (wa_stored w)) = Ok (stq_job_id (wa_stored w)).
Lemma work_step_derived work_id w w' : work_step self work_id w w' →
  match w with Some w => derived work_id w | None => True end → derived work_id w'.
Proof.
  intros Hs. inversion Hs as [? now ? Hfresh|? now ? ? _ _ Hfresh|? t Hu|? Hu|? Hu|? Hu]; subst; try done.
  all: apply fresh_attempt_ok in Hfresh as (Hg & Hr & _ & Hj); intros _; unfold derived; congruence.
Qed.

(** Every record that was written evolved into the present one. *)
Lemma work_history l work_id old revision value : well_formed self l →
  Written (work_key work_id) old revision value ∈ l →
  ∃ w w', work_from_slice value = Some w ∧ current l (work_key work_id) = Some (work_to_vec w') ∧
    evolved w w' ∧ derived work_id w ∧ derived work_id w'.
Proof.
  induction l as [|e l IH] in old, revision, value |- *; [by intros _ ?%elem_of_nil|].
  intros [Hw Ha] Hin.
  assert ((∃ old' revision' value', e = Written (work_key work_id) old' revision' value') ∨
          ∀ old' revision' value', e ≠ Written (work_key work_id) old' revision' value')
    as [(old' & revision' & value' & ->)|He].
  { destruct e as [key o r v| | |]; [|by right..].
    destruct (decide (key = work_key work_id)) as [->|Hne]; [left; by eauto|right; congruence]. }
  - destruct Ha as (Hold & _ & Hwrite).
    assert (work_write self work_id old' value') as (wo & w' & Ho & Hv & Hstep).
    { destruct Hwrite as [[E _]|(work_id' & E & Hwrite)]; [discriminate E|].
      apply work_key_inj in E as <-. exact Hwrite. }
    subst value'. rewrite current_written.
    assert (∀ w0, wo = Some w0 → derived work_id w0) as Hd0.
    { intros w0 ->. destruct old' as [bytes|]; [|done]. destruct Ho as [Ho _]. symmetry in Hold.
      apply current_in in Hold as (o2 & r2 & Hin2).
      destruct (IH o2 r2 bytes Hw Hin2) as (w2 & _ & Hw2 & _ & _ & Hd & _). congruence. }
    assert (derived work_id w') as Hd'.
    { eapply work_step_derived; [exact Hstep|]. destruct wo; by auto. }
    apply elem_of_cons in Hin as [[= -> -> ->]|Hin].
    + exists w', w'. rewrite work_round_trip. by split_and!.
    + destruct (IH _ _ _ Hw Hin) as (w & w1 & Hdec & Hcur & Hev & Hd & _).
      rewrite Hcur in Hold. subst old'. destruct Ho as [Ho _]. rewrite work_round_trip in Ho. subst wo.
      exists w, w'. split_and!; try done. etransitivity; [exact Hev|]. by eapply work_step_evolved.
  - apply elem_of_cons in Hin as [<-|Hin]; [by edestruct He|].
    destruct (IH _ _ _ Hw Hin) as (w & w' & Hdec & Hcur & Hev & Hd & Hd').
    exists w, w'. rewrite current_other by done. done.
Qed.

Lemma reachable_log s : reachable sepolia self s → well_formed self (log (sy_world s)).
Proof. intros Hr%reachable_ok. apply (log_ok _ _ (world_is_ok _ _ Hr)). Qed.
Lemma reachable_contents s key : reachable sepolia self s → control_record key →
  contents (sy_world s) key = current (log (sy_world s)) key.
Proof. intros Hr%reachable_ok. apply (store_ok _ _ (world_is_ok _ _ Hr)). Qed.

Lemma published_extends l l' key value : extends l l' → published self l key value → published self l' key value.
Proof.
  intros Hl (stored & terminal & locator & X1 & X2 & X3 & X4 & X5 & Hv & Hs).
  exists stored, terminal, locator. do 5 (split; [done|]).
  split; [by eapply extends_in|by eapply sealed_extends].
Qed.

(* ------------------------------------------------------------------ *)
(** ** Theorems *)

(** C18: The hourly budget of paid starts holds over every interleaving of calls, with
    crashes, lost replies and clocks that disagree: in any window of 3600 seconds, at
    most [max_starts_per_hour] slots are added to the ledger; every slot added has its
    start time, and every launch is of a job with such a slot and the same deadline. *)
Theorem start_budget_holds (s : system) (t : N) :
  reachable sepolia self s →
  N.of_nat (length (List.filter (in_window t) (start_times (log (sy_world s))))) ≤
    max_starts_per_hour (app_admission self) ∧
  Forall (fun slot => is_Some (wr_started_at slot)) (charges (log (sy_world s))) ∧
  ∀ job_id deadline, Launched job_id deadline ∈ log (sy_world s) →
    ∃ slot, slot ∈ charges (log (sy_world s)) ∧ wr_job_id slot = job_id ∧ wr_launch_until slot = deadline.
Proof.
  intros Hw%reachable_log. destruct (ledger_invariant _ Hw) as (ledger & _ & Hinv).
  split; [apply (inv_window _ _ Hinv)|]. split; [apply (inv_timed _ _ Hinv)|].
  intros job_id deadline Hin. destruct (well_formed_in _ _ _ Hw Hin) as (l' & Hext & Hw' & [Hr _]).
  destruct (reserved_charged _ _ _ Hw' Hr) as (slot & Hslot & Hs). exists slot. split; [|exact Hs].
  eapply charges_extends; [|exact Hslot]. etransitivity; [apply extends_cons|exact Hext].
Qed.

(** The ledger in the store can always be read, has one slot per job, at most
    [MAX_RESERVATIONS] slots and, when the policy limits the workers, at most
    [max_active_workers]; no slot is in it that was not charged. *)
Theorem admission_ledger_bounded (s : system) :
  reachable sepolia self s →
  ∃ ledger, ledger_of (contents (sy_world s) ADMISSION_KEY) = Ok ledger ∧
    NoDup (map wr_job_id (al_reservations ledger)) ∧
    N.of_nat (length (al_reservations ledger)) ≤ MAX_RESERVATIONS ∧
    (0 < max_active_workers (app_admission self) →
     N.of_nat (length (al_reservations ledger)) ≤ max_active_workers (app_admission self)) ∧
    ∀ slot, slot ∈ al_reservations ledger → slot ∈ charges (log (sy_world s)).
Proof.
  intros Hr. destruct (ledger_invariant _ (reachable_log _ Hr)) as (ledger & Hl & Hinv).
  exists ledger. rewrite (reachable_contents _ _ Hr) by (by left).
  split; [exact Hl|]. split; [apply (inv_distinct _ _ Hinv)|]. split; [apply (inv_slots _ _ Hinv)|].
  split; [apply (inv_active _ _ Hinv)|]. apply Forall_forall, (inv_charged _ _ Hinv).
Qed.

(** C19: A work record only moves forward, whatever calls race on it: a record that was
    ever written evolved into the one in the store, so the generation never goes back,
    an attempt keeps its request, job id and times, and a completed record is there
    for good; its job id is the one derived from the work and the generation. *)
Theorem work_record_evolves (s : system) (work_id : string) (old : option (list byte))
    (revision : string) (value : list byte) :
  reachable sepolia self s → Written (work_key work_id) old revision value ∈ log (sy_world s) →
  ∃ w w', work_from_slice value = Some w ∧
    contents (sy_world s) (work_key work_id) = Some (work_to_vec w') ∧ evolved w w' ∧
    derived work_id w ∧ (wa_completed w = true → contents (sy_world s) (work_key work_id) = Some value).
Proof.
  intros Hr Hin. pose proof (reachable_log _ Hr) as Hw.
  destruct (work_history _ _ _ _ _ Hw Hin) as (w & w' & Hd & Hc & He & Hj & _). exists w, w'.
  rewrite (reachable_contents _ _ Hr) by (right; by exists work_id).
  split; [done|]. split; [done|]. split; [done|]. split; [done|]. intros Hcompleted.
  rewrite Hc, (completed_final _ _ He Hcompleted).
  destruct (well_formed_in _ _ _ Hw Hin) as (l' & _ & _ & (_ & _ & [[E _]|(id' & _ & Hwrite)])); [discriminate E|].
  destruct Hwrite as (wo & w2 & _ & -> & _). rewrite work_round_trip in Hd. by injection Hd as ->.
Qed.

(** C20: Nothing is published that was not verified: an object the service stores under
    [settlements/] is a completed settlement the verifier accepted for the request the
    job is bound to, under the key of its own locator, and its work record had been
    sealed as completed before. *)
Theorem published_settlements_verified (s : system) (key : string) (value : list byte) :
  reachable sepolia self s → Stored key value ∈ log (sy_world s) → is_settlement_key key →
  published self (log (sy_world s)) key value.
Proof.
  intros Hw%reachable_log Hin Hkey.
  destruct (well_formed_in _ _ _ Hw Hin) as (l' & Hext & _ & (_ & _ & Hp)).
  eapply published_extends; [|by apply Hp]. etransitivity; [apply extends_cons|exact Hext].
Qed.

(** C21: The answers of the service are vouched for: when [poll] reports a job as
    completed, what it reports is a terminal of that job, accepted by the verifier for
    the settlement request the job id commits to; what [settlement] returns was
    accepted for the incident asked for and has exactly the locator asked for. *)
Theorem answers_are_vouched (s : system) (call : request_call) (out : PollOutcome) :
  reachable sepolia self s →
  mkProcess call (Ret (Ok (PollReply out))) ∈ sy_processes s →
  match call with
  | CallPoll job_id => po_status out = "completed" → vouched_answer (log (sy_world s)) job_id out
  | CallSettlement chain_id reg defi_insurance incident_id root =>
      settled_answer self (log (sy_world s)) chain_id reg defi_insurance incident_id root out
  | _ => True
  end.
Proof.
  intros Hr%reachable_ok Hin. pose proof (processes_ok _ _ Hr) as Hp. rewrite Forall_forall in Hp.
  specialize (Hp _ Hin). cbn in Hp.
  specialize (Hp (log (sy_world s)) (reflexivity _) (log_ok _ _ (world_is_ok _ _ Hr)) _ eq_refl).
  by destruct call.
Qed.
End Admission.
