(* ===== verification/JobRuns.v ===== *)
(** * Undisturbed runs of the job service

    A call alone, on a store and a launcher that answer every operation: such a run is
    one of the runs of the system ([JobSystem]); a first submission launches its
    worker.  The evaluated instances of [JobAdmission]'s theorems are here too. *)

From S2P Require Import Prelude Bytes Text Commit Rpc Abi Config Checkpoint CheckpointStore JobProtocol JobApp JobSystem JobSafety JobAdmission.
From Stdlib Require Import Strings.Byte Strings.Ascii.

Open Scope string_scope.
Open Scope N_scope.
Open Scope list_scope.

Section Runs.
Context `{HexLaws, HmacCrate, Sha2Crate, JobJson, WorkJsonLaws}.
Context (sepolia : bool) (self : App).

(** A store whose revisions are the contents; the clocks show [now]. *)
Definition stored_object (value : list byte) : VersionedObject :=
  mkVersionedObject value (hex_encode value).
Definition put_object (key : string) (value : list byte) (e : event) (w : world) : world :=
  mkWorld (<[key := stored_object value]> (objects w)) (e :: log w).
Definition undisturbed (now : N) (w : world) (o : op) : answer o * world :=
  match o return answer o * world with
  | GetVersioned key _ => (Ok (objects w !! key), w)
  | CompareExchange key revision value =>
      if bool_decide (vo_revision <$> objects w !! key = revision)
      then (Ok true, put_object key value (Written key (contents w key) (hex_encode value) value) w)
      else (Ok false, w)
  | Create key value =>
      match contents w key with
      | None => (Ok Created, put_object key value (Stored key value) w)
      | Some existing => (Ok (Exists existing), w)
      end
  | Get key _ => (Ok (contents w key), w)
  | DownloadUrl key _ => (Ok key, w)
  | Precheck _ => (Ok tt, w)
  | IsTerminated _ => (Ok false, w)
  | CanReleaseReservation _ _ _ => (Ok false, w)
  | LaunchBefore job_id deadline => (Ok tt, record_event (Launched job_id deadline) w)
  | Verify request terminal => (Ok tt, record_event (Verified request terminal) w)
  | Clock => (now, w)
  | SystemClock => (Ok now, w)
  end.
Fixpoint exec {A} (now : N) (w : world) (m : prog A) : A * world :=
  match m with
  | Ret a => (a, w)
  | Call o k => let '(r, w') := undisturbed now w o in exec now w' (k r)
  end.

(** *** Undisturbed runs are runs of the system *)

Definition content_revisions (w : world) : Prop :=
  ∀ key old revision value, Written key old revision value ∈ log w → revision = hex_encode value.
Lemma content_revision_free w key value : content_revisions w →
  revision_free (log w) key (hex_encode value) value.
Proof.
  intros Hc old other Hin%Hc. pose proof (hex_decode_encode value) as Hd. rewrite Hin in Hd.
  rewrite hex_decode_encode in Hd. by injection Hd.
Qed.
Lemma content_revisions_cons w objects' e : content_revisions w →
  (∀ key old revision value, e = Written key old revision value → revision = hex_encode value) →
  content_revisions (mkWorld objects' (e :: log w)).
Proof. intros Hc He key old revision value [E|Hin]%elem_of_cons; [by eapply He|by eapply Hc]. Qed.

Lemma undisturbed_responds now w o : content_revisions w →
  respond w o (undisturbed now w o).1 (undisturbed now w o).2 ∧ content_revisions (undisturbed now w o).2.
Proof.
  intros Hc. destruct o; cbn; try done.
  - split; [|done]. split; [done|]. by intros v [= <-].
  - case_bool_decide as Hr; cbn.
    + split; [right|apply content_revisions_cons; [done|by intros ???? [= <- <- <- <-]]].
      split; [done|]. exists (hex_encode value). split; [by apply content_revision_free|done].
    + split; [|done]. by left.
  - unfold contents. destruct (objects w !! key) as [v|] eqn:E; cbn.
    + split; [|done]. left. split; [done|]. split; [done|]. by intros existing [= <-].
    + split; [right|apply content_revisions_cons; [done|done]].
      split; [|done]. split; [done|]. by eexists.
  - split; [|done]. split; [done|]. by intros v [= <-].
  - split; [done|]. by apply content_revisions_cons.
  - split; [done|]. by apply content_revisions_cons.
Qed.
Lemma exec_reachable call (m : job reply) now w ps : content_revisions w →
  reachable sepolia self (mkSystem w (ps ++ [mkProcess call m])) →
  reachable sepolia self (mkSystem (exec now w m).2 (ps ++ [mkProcess call (Ret (exec now w m).1)])) ∧
  content_revisions (exec now w m).2.
Proof.
  revert w. induction m as [a|o k IH]; intros w Hc Hr; [by split|]. cbn [exec].
  destruct (undisturbed_responds now w o Hc) as [Hresp Hc'].
  destruct (undisturbed now w o) as [r w'] eqn:E. cbn in Hresp, Hc'. apply IH; [done|].
  eapply rtc_r; [exact Hr|]. by eapply (step_operation _ _ w w' ps [] call o k r).
Qed.
(** One call after the other. *)
Definition served (call : request_call) (now : N) (w : world) : outcome ServiceError reply * world :=
  exec now w (run_call sepolia self call).
Lemma served_reachable call now w ps : content_revisions w → reachable sepolia self (mkSystem w ps) →
  reachable sepolia self
    (mkSystem (served call now w).2 (ps ++ [mkProcess call (Ret (served call now w).1)])) ∧
  content_revisions (served call now w).2.
Proof. intros Hc Hr. apply exec_reachable; [done|]. eapply rtc_r; [exact Hr|]. apply step_call. Qed.
(** A worker's object appears. *)
Definition delivered (key : string) (value : list byte) (w : world) : world :=
  mkWorld (partial_alter (fun _ => Some (stored_object value)) key (objects w)) (log w).
Lemma delivered_reachable key value w ps : ¬ is_control key → content_revisions w →
  reachable sepolia self (mkSystem w ps) →
  reachable sepolia self (mkSystem (delivered key value w) ps) ∧ content_revisions (delivered key value w).
Proof. intros Hk Hc Hr. split; [|done]. eapply rtc_r; [exact Hr|]. by apply step_environment. Qed.

(** *** Running a program step by step *)

Lemma exec_prog_bind {A B} now w (f : A → prog B) (m : prog A) :
  exec now w (prog_bind f m) = exec now (exec now w m).2 (f (exec now w m).1).
Proof.
  revert w. induction m as [a|o k IH]; intros w; [done|]. cbn.
  destruct (undisturbed now w o) as [r w']. apply IH.
Qed.
Lemma exec_bind {A B} now w w' (m : job A) (f : A → job B) a :
  exec now w m = (Ok a, w') → exec now w (m ≫= f) = exec now w' (f a).
Proof. intros E. unfold mbind, job_bind. by rewrite exec_prog_bind, E. Qed.
Lemma exec_attempt {A} now w w' (m : job A) a :
  exec now w m = (Ok a, w') → exec now w (attempt m) = (Ok (Ok a), w').
Proof. intros E. unfold attempt. by rewrite exec_prog_bind, E. Qed.
Lemma exec_outcome {A B} now w (m : outcome ServiceError A) (f : A → job B) a :
  m = Ok a → exec now w (of_outcome m ≫= f) = exec now w (f a).
Proof. by intros ->. Qed.
Lemma exec_retry {A} now w w' n (body : job (option A)) a :
  exec now w body = (Ok (Some a), w') → exec now w (retry (S n) body) = (Ok a, w').
Proof. intros E. cbn [retry]. by rewrite (exec_bind _ _ _ _ _ _ E). Qed.

(** *** A reservation *)

(** The ledger has room for a job that has no slot in it. *)
Record has_room (ledger : AdmissionLedger) (job_id : string) (now : N) : Prop := {
  room_valid : check_ledger ledger = Ok tt;
  room_time : check_time ledger now = Ok tt;
  room_slot : find_slot job_id (al_reservations ledger) = None;
  room_jobs : Forall (fun slot => is_ok (JobPaths_new (wr_job_id slot)) = true) (al_reservations ledger);
  room_starts : N.of_nat (length (List.filter (recent now) (al_starts ledger))) <
                max_starts_per_hour (app_admission self);
  room_slots : N.of_nat (length (al_reservations ledger)) < MAX_RESERVATIONS;
  room_active : 0 < max_active_workers (app_admission self) →
    N.of_nat (length (al_reservations ledger)) < max_active_workers (app_admission self)
}.

Lemma exec_released now w slot :
  ∃ gone, exec now w (released self now slot) = (Ok gone, w).
Proof. unfold released. destruct (_ =? 0); by eexists. Qed.
Lemma exec_retained now w slots retained :
  Forall (fun slot => is_ok (JobPaths_new (wr_job_id slot)) = true) slots →
  ∃ kept, exec now w (fold_m (retain_step self now) retained slots) = (Ok kept, w) ∧
    (length kept ≤ length retained + length slots)%nat.
Proof.
  intros Hv. revert retained. induction Hv as [|slot slots Hslot _ IH]; intros retained.
  - exists retained. split; [done|]. cbn. lia.
  - cbn [fold_m]. destruct (JobPaths_new (wr_job_id slot)) as [paths| |] eqn:E; [|discriminate Hslot..].
    destruct (exec_released now w slot) as [gone Hgone].
    assert (exec now w (retain_step self now retained slot) =
            (Ok (if gone then retained else retained ++ [slot]), w)) as Hstep.
    { unfold retain_step. rewrite (exec_outcome _ _ _ _ paths) by by rewrite E.
      by rewrite (exec_bind _ _ _ _ _ _ Hgone). }
    destruct (IH (if gone then retained else retained ++ [slot])) as (kept & Hk & Hl).
    exists kept. rewrite (exec_bind _ _ _ _ _ _ Hstep). split; [done|].
    destruct gone; rewrite ?length_app in Hl; cbn in *; lia.
Qed.
Lemma exec_reserve now w ledger job_id until :
  ledger_of (contents w ADMISSION_KEY) = Ok ledger → has_room ledger job_id now →
  ∃ value, exec now w (reserve_worker self job_id until) =
    (Ok tt, put_object ADMISSION_KEY value
              (Written ADMISSION_KEY (contents w ADMISSION_KEY) (hex_encode value) value) w).
Proof.
  intros Hledger [Hvalid Htime Hslot Hjobs Hstarts Hslots Hactive].
  destruct (exec_retained now w (al_reservations ledger) [] Hjobs) as (kept & Hkept & Hlen).
  cbn in Hlen.
  assert (admission_denied self kept (List.filter (recent now) (al_starts ledger)) = false) as Hdenied.
  { unfold admission_denied. apply orb_false_iff. split; [apply orb_false_iff; split|].
    - destruct (N.ltb_spec 0 (max_active_workers (app_admission self))); [|done].
      apply N.leb_gt. specialize (Hactive ltac:(lia)). lia.
    - apply N.leb_gt. lia.
    - apply N.leb_gt. lia. }
  eexists. unfold reserve_worker. erewrite exec_retry; [reflexivity|]. unfold reserve_attempt.
  erewrite exec_bind by reflexivity. rewrite (exec_outcome _ _ _ _ _ Hledger).
  rewrite (exec_outcome _ _ _ _ _ Hvalid). erewrite exec_bind by reflexivity.
  rewrite (exec_outcome _ _ _ _ _ Htime), Hslot. unfold commit_reservation.
  rewrite (exec_bind _ _ _ _ _ _ Hkept). cbn zeta. rewrite Hdenied.
  erewrite exec_bind; [|cbn; rewrite bool_decide_eq_true_2 by done; reflexivity]. done.
Qed.

(** *** Objects after a write *)

Lemma objects_put key value e w : objects (put_object key value e w) !! key = Some (stored_object value).
Proof. apply lookup_insert_eq. Qed.
Lemma objects_put_ne key key' value e w : key' ≠ key →
  objects (put_object key value e w) !! key' = objects w !! key'.
Proof. intros Hne. by apply lookup_insert_ne. Qed.
Lemma exec_compare_exchange now w key value :
  exec now w (compare_exchange key (vo_revision <$> objects w !! key) value) =
    (Ok true, put_object key value (Written key (contents w key) (hex_encode value) value) w).
Proof. unfold compare_exchange. cbn. by rewrite bool_decide_eq_true_2. Qed.
Lemma exec_create now w key value : objects w !! key = None →
  exec now w (create_same key value) = (Ok tt, put_object key value (Stored key value) w).
Proof.
  intros E. unfold create_same.
  rewrite (exec_bind now w (put_object key value (Stored key value) w) _ _ Created); [done|].
  unfold create. cbn. unfold contents. by rewrite E.
Qed.

(** The launch of an attempt that the store holds, with room in the ledger. *)
Lemma exec_launch now w work_id state ledger :
  objects w !! work_key work_id = Some (stored_object (work_to_vec state)) →
  ledger_of (contents w ADMISSION_KEY) = Ok ledger →
  has_room ledger (stq_job_id (wa_stored state)) now → now < launch_deadline (wa_stored state) →
  ∃ w', exec now w (reserve_and_launch self (work_key work_id) state (work_to_vec state)) = (Ok tt, w') ∧
    Launched (stq_job_id (wa_stored state)) (launch_deadline (wa_stored state)) ∈ log w' ∧
    contents w' (work_key work_id) = Some (work_to_vec (set_launched state)).
Proof.
  intros Howned Hledger Hroom Htime%N.leb_gt.
  destruct (exec_reserve now w ledger (stq_job_id (wa_stored state)) (launch_deadline (wa_stored state))
    Hledger Hroom) as [value Hreserve].
  set (w1 := put_object ADMISSION_KEY value _ w) in Hreserve.
  assert (objects w1 !! work_key work_id = Some (stored_object (work_to_vec state))) as Howned1.
  { unfold w1. by rewrite objects_put_ne by apply work_key_not_admission. }
  unfold reserve_and_launch. eexists. split.
  - erewrite exec_bind by reflexivity. rewrite Howned. cbn [vo_bytes stored_object].
    rewrite bool_decide_eq_true_2 by done. cbn [negb].
    erewrite exec_bind by reflexivity. rewrite Htime.
    unfold reserve_or_deny. erewrite exec_bind.
    2: { erewrite exec_bind; [|by apply exec_attempt, Hreserve]. reflexivity. }
    unfold launch_owned. erewrite exec_bind by reflexivity. erewrite exec_bind by reflexivity.
    rewrite Htime, Howned1. cbn [fmap option_fmap option_map vo_bytes stored_object].
    rewrite bool_decide_eq_true_2 by done. cbn [negb orb]. erewrite exec_bind by reflexivity.
    erewrite exec_bind; [reflexivity|].
    change (Some (vo_revision (stored_object (work_to_vec state))))
      with (vo_revision <$> Some (stored_object (work_to_vec state))).
    rewrite <-Howned1. apply (exec_compare_exchange _ (record_event _ w1)).
  - split.
    + right. left.
    + unfold contents. by rewrite objects_put.
Qed.

(* ------------------------------------------------------------------ *)
(** ** Theorems *)

(** C22: A first submission gets its worker: alone, with a ledger that has room and the
    clock short of its end, the submission of work that has no record and whose request
    object is not there answers with the derived job id, launches that job with the
    deadline of its record, and leaves the record marked as launched. *)
Theorem first_submission_launches (now : N) (w : world) (work_id job_id : string)
    (request : CanonicalRequest) (ledger : AdmissionLedger) (paths : JobPaths) :
  0 < now → now + 120 ≤ u64_max →
  objects w !! work_key work_id = None → objects w !! jp_request paths = None →
  ledger_of (contents w ADMISSION_KEY) = Ok ledger → has_room ledger job_id now →
  derive_job_id (ac_job_secret (app_config self)) (work_id +:+ ":0") request = Ok job_id →
  JobPaths_new job_id = Ok paths →
  ∃ w' state, exec now w (submit_canonical sepolia self work_id request) =
      (Ok (mkSubmitOutcome true job_id), w') ∧
    Launched job_id (now + 120) ∈ log w' ∧
    contents w' (work_key work_id) = Some (work_to_vec state) ∧
    wa_generation state = 0 ∧ wa_launched state = true ∧ wa_completed state = false ∧
    stq_job_id (wa_stored state) = job_id ∧ stq_request (wa_stored state) = request.
Proof.
  intros Hnow Hend Hwork Hrequest Hledger Hroom Hid Hpaths.
  set (state := mkWorkAttempt 0 (mkStoredRequest STORED_REQUEST_SCHEMA_VERSION job_id request now
    (saturating_add now (ac_job_ttl_seconds (app_config self)))) (saturating_add now 60) false false false).
  assert (fresh_attempt self work_id request now 0 = Ok state) as Hfresh.
  { unfold fresh_attempt. change (":" +:+ to_decimal 0) with ":0". by rewrite Hid. }
  assert (launch_deadline (wa_stored state) = now + 120) as Hdeadline.
  { unfold launch_deadline, saturating_add. cbn. lia. }
  pose proof (proj1 (JobPaths_new_ok _ _) Hpaths) as (_ & _ & Epaths).
  assert (jp_request paths ≠ ADMISSION_KEY ∧ jp_request paths ≠ work_key work_id) as [Hne1 Hne2].
  { by subst paths. }
  set (w1 := put_object (work_key work_id) (work_to_vec state)
    (Written (work_key work_id) None (hex_encode (work_to_vec state)) (work_to_vec state)) w).
  set (w2 := put_object (jp_request paths) (stored_to_vec (wa_stored state))
    (Stored (jp_request paths) (stored_to_vec (wa_stored state))) w1).
  destruct (exec_launch now w2 work_id state ledger) as (w' & Hlaunch & Hin & Hrecord).
  { unfold w2. rewrite objects_put_ne by done. apply objects_put. }
  { unfold contents, w2, w1. rewrite !objects_put_ne by done. exact Hledger. }
  { exact Hroom. }
  { rewrite Hdeadline. lia. }
  exists w', (set_launched state). split; [|by rewrite <-Hdeadline].
  unfold submit_canonical. apply exec_retry. unfold submit_attempt. erewrite exec_bind by reflexivity.
  rewrite (exec_outcome _ _ _ _ tt) by (apply bail_if_ok; by apply N.eqb_neq; lia).
  erewrite exec_bind by reflexivity. rewrite Hwork. erewrite exec_bind by reflexivity.
  cbv beta iota. erewrite exec_bind by reflexivity. rewrite (exec_outcome _ _ _ _ _ Hfresh).
  unfold start_attempt. cbn zeta. erewrite exec_bind.
  2: { change (vo_revision <$> None) with (vo_revision <$> (None : option VersionedObject)).
       rewrite <-Hwork. apply exec_compare_exchange. }
  unfold contents. rewrite Hwork. fold w1. cbn [negb].
  rewrite (exec_outcome _ _ _ _ paths) by (cbn [state wa_stored stq_job_id]; by rewrite Hpaths).
  erewrite exec_bind.
  2: { apply exec_create. unfold w1. by rewrite objects_put_ne. }
  fold w2. by rewrite (exec_bind _ _ _ _ _ _ Hlaunch).
Qed.

Lemma exec_completion_none now w paths :
  contents w (jp_terminal paths) = None →
  contents w (replace_first "terminal/" "control/completions/" (jp_terminal paths)) = None →
  exec now w (completion_bytes self paths) = (Ok None, w).
Proof.
  intros Ht Hc. unfold completion_bytes. rewrite (exec_bind now w w _ _ None).
  - cbv beta iota. unfold store_get. cbn. by rewrite Hc.
  - unfold store_get. cbn. by rewrite Ht.
Qed.

(** A submission of work whose launched attempt is still running does nothing but
    answer with its job id: until the attempt expires or leaves a terminal, no object
    is written, no admission is asked for and no worker is launched. *)
Theorem resubmission_is_idle (now : N) (w : world) (work_id : string) (request : CanonicalRequest)
    (record : VersionedObject) (state : WorkAttempt) (paths : JobPaths) :
  0 < now → now ≤ stq_expires_at (wa_stored state) →
  objects w !! work_key work_id = Some record → work_from_slice (vo_bytes record) = Some state →
  stq_request (wa_stored state) = request →
  stored_request_is_live (wa_stored state) (stq_created_at (wa_stored state)) = true →
  wa_launched state = true → wa_completed state = false → wa_admission_denied state = false →
  JobPaths_new (stq_job_id (wa_stored state)) = Ok paths → contents w (jp_terminal paths) = None →
  contents w (replace_first "terminal/" "control/completions/" (jp_terminal paths)) = None →
  exec now w (submit_canonical sepolia self work_id request) =
    (Ok (mkSubmitOutcome true (stq_job_id (wa_stored state))), w).
Proof.
  intros Hnow Hexpires Hrecord Hstate Hrequest Hlive Hlaunched Hcompleted Hdenied Hpaths Hterminal Hkept.
  apply exec_retry. unfold submit_attempt. erewrite exec_bind by reflexivity.
  rewrite (exec_outcome _ _ _ _ tt) by (apply bail_if_ok; by apply N.eqb_neq; lia).
  erewrite exec_bind by reflexivity. rewrite Hrecord.
  rewrite (exec_bind now w w _ _ (Accepted (stq_job_id (wa_stored state)))); [done|].
  unfold decide_existing. rewrite (exec_outcome _ _ _ _ state) by by apply ok_or_ok.
  rewrite (exec_outcome _ _ _ _ tt).
  2: { unfold check_work. by rewrite bool_decide_eq_true_2, Hlive, Hdenied. }
  cbn zeta. rewrite (exec_outcome _ _ _ _ paths) by by rewrite Hpaths.
  erewrite exec_bind by by apply exec_attempt, exec_completion_none.
  rewrite (exec_outcome _ _ _ _ (None, false)) by done.
  erewrite exec_bind by (unfold check_candidate; rewrite Hcompleted; reflexivity).
  cbv beta iota. unfold next_step. rewrite Hdenied, Hlaunched.
  assert ((stq_expires_at (wa_stored state) <? now) = false) as -> by by apply N.ltb_ge.
  done.
Qed.
End Runs.

(* ------------------------------------------------------------------ *)
(** ** Evaluated instances *)

Module RefWork.
#[local] Existing Instance RefJob.stored_countable.
#[export] Instance WorkAttempt_eq_dec : EqDecision WorkAttempt.
Proof. solve_decision. Defined.
Definition bit (b : bool) : RefJob.field := inl (if b then 1 else 0).
Definition attempt_fields (w : WorkAttempt) : list RefJob.field :=
  [inl (wa_generation w); inl (wa_launch_retry_at w); bit (wa_launched w); bit (wa_completed w);
   bit (wa_admission_denied w)] ++ RefJob.stored_fields (wa_stored w).
Definition attempt_of (l : list RefJob.field) : option WorkAttempt :=
  match l with
  | inl a :: inl b :: inl c :: inl d :: inl e :: l =>
      stored ← RefJob.stored_of l; Some (mkWorkAttempt a stored b (c =? 1) (d =? 1) (e =? 1))
  | _ => None
  end.
Lemma attempt_of_fields w : attempt_of (attempt_fields w) = Some w.
Proof.
  unfold attempt_fields, attempt_of. cbn [app bit]. rewrite RefJob.stored_of_fields.
  by destruct w as [? ? ? [] [] []].
Qed.
#[export] Instance attempt_countable : Countable WorkAttempt.
Proof. exact (inj_countable attempt_fields attempt_of attempt_of_fields). Defined.
#[export] Instance WorkerReservation_eq_dec : EqDecision WorkerReservation.
Proof. solve_decision. Defined.
#[export] Instance reservation_countable : Countable WorkerReservation :=
  inj_countable' (fun r => (wr_job_id r, wr_launch_until r, wr_started_at r))
    (fun '(a, b, c) => mkWorkerReservation a b c) (fun '(mkWorkerReservation _ _ _) => eq_refl).
#[export] Instance AdmissionLedger_eq_dec : EqDecision AdmissionLedger.
Proof. solve_decision. Defined.
#[export] Instance ledger_countable : Countable AdmissionLedger :=
  inj_countable' (fun l => (al_reservations l, al_starts l, al_observed_at l))
    (fun '(a, b, c) => mkAdmissionLedger a b c) (fun '(mkAdmissionLedger _ _ _) => eq_refl).
#[export] Instance work_json : WorkJson := {|
  work_to_vec w := RefAbi.write w;
  work_from_slice text := RefAbi.read text;
  ledger_to_vec l := RefAbi.write l;
  ledger_from_slice text := RefAbi.read text
|}.
#[export] Instance work_json_laws : WorkJsonLaws.
Proof. split; intros; apply RefAbi.read_write. Qed.
End RefWork.

#[local] Existing Instances RefHex.hex_crate RefHex.hex_laws RefCheckpoint.hmac_crate.
#[local] Existing Instances RefJob.job_json RefJob.job_json_laws RefJob.sha2_crate.
#[local] Existing Instances RefWork.work_json RefWork.work_json_laws.

Definition demo_registry : string := "0x" +:+ str_repeat 20 "0a".
Definition demo_config : AppConfig :=
  mkAppConfig demo_registry ("0x" +:+ str_repeat 20 "0b") demo_secret 100000 50000 60 3600.
Definition demo_app : App := mkApp demo_config AdmissionPolicy_default true.
Definition demo_call : request_call := CallSubmit "key" (RefAbi.write "7").
Definition demo_empty : world := mkWorld ∅ [].
Definition demo_now : N := 1000000.
Definition demo_job (r : outcome ServiceError reply) : string :=
  match r with Ok (SubmitReply out) => so_job_id out | _ => "" end.

(** The worker's terminal for the demo's job. *)
Definition demo_digest : string := "0x" +:+ str_repeat 32 "5c".
Definition demo_artifact : Value :=
  VObject [("schemaVersion", VNumber (PosInt 2)); ("settlementDigest", VString demo_digest);
           ("nitroAttestedDigest", VString demo_digest); ("teePcrHash", VString "0x01");
           ("measuredTeePcrHash", VString "0x01"); ("nitroAttestationDocument", VString "0xabcd");
           ("chainId", VNumber (PosInt 1)); ("registry", VString demo_registry);
           ("defiInsurance", VString (ac_defi_insurance demo_config)); ("incidentId", VString "7");
           ("root", VString ("0x" +:+ str_repeat 32 "3d"))].
Definition demo_terminal (job_id : string) : TerminalEnvelope :=
  terminal_completed job_id
    (VObject [("artifact", demo_artifact); ("digest", VString demo_digest);
              ("signature", VString ("0x" +:+ str_repeat 65 "1b")); ("signer", VString demo_registry)]).
(** A submission, its worker's terminal, and a poll. *)
Section TwoCalls.
Context (self : App) (call : request_call) (now : N).
Definition submitted : outcome ServiceError reply * world := served false self call now demo_empty.
Definition polled (r : outcome ServiceError reply * world) : outcome ServiceError reply * world :=
  served false self (CallPoll (demo_job r.1)) now
    (delivered ("terminal/" +:+ demo_job r.1 +:+ ".json")
       (RefJob.terminal_text (demo_terminal (demo_job r.1))) r.2).
Lemma submitted_reachable :
  reachable false self (mkSystem submitted.2 [mkProcess call (Ret submitted.1)]) ∧
  content_revisions submitted.2.
Proof. apply (served_reachable false self call now demo_empty []); [by intros ???? ?%elem_of_nil|apply rtc_refl]. Qed.
Lemma polled_reachable r : reachable false self (mkSystem r.2 [mkProcess call (Ret r.1)]) →
  content_revisions r.2 →
  reachable false self (mkSystem (polled r).2
    [mkProcess call (Ret r.1); mkProcess (CallPoll (demo_job r.1)) (Ret (polled r).1)]).
Proof.
  intros Hr Hc. destruct (delivered_reachable false self ("terminal/" +:+ demo_job r.1 +:+ ".json")
    (RefJob.terminal_text (demo_terminal (demo_job r.1))) r.2 [mkProcess call (Ret r.1)]) as [Hd Hc'];
    [by intros [rest E]|done|done|].
  by destruct (served_reachable false self (CallPoll (demo_job r.1)) now _ _ Hc' Hd).
Qed.
End TwoCalls.

(** What the instances use of the two runs. *)
Definition launch_checks (r : outcome ServiceError reply * world) : bool :=
  match r.1, log r.2 with
  | Ok (SubmitReply out), Written key _ _ value :: Launched job_id deadline :: _ =>
      String.eqb job_id (so_job_id out) && (deadline =? demo_now + 120) &&
      String.eqb key (work_key (match canonical_work_id false demo_request (ac_defi_insurance demo_config) with
                                | Ok work_id => work_id | _ => "" end)) &&
      bool_decide (wa_launched <$> work_from_slice value = Some true)
  | _, _ => false
  end.
Definition settled_checks (r : outcome ServiceError reply * world) : bool :=
  match r.1, log r.2 with
  | Ok (PollReply out), Stored key _ :: _ =>
      String.eqb (po_status out) "completed" && starts_with "settlements/" key
  | _, _ => false
  end.
Lemma starts_with_app prefix s : starts_with prefix s = true → ∃ rest, s = prefix +:+ rest.
Proof.
  revert s. induction prefix as [|a prefix IH]; intros s; [by exists s|].
  destruct s as [|b s]; [discriminate|]. cbn. destruct (ascii_dec a b) as [->|]; [|discriminate].
  intros [rest ->]%IH. by exists rest.
Qed.
Lemma launch_checks_log r w : launch_checks (r, w) = true →
  ∃ work_id old revision value job_id state, Written (work_key work_id) old revision value ∈ log w ∧
    work_from_slice value = Some state ∧ wa_launched state = true ∧
    Launched job_id (demo_now + 120) ∈ log w.
Proof.
  unfold launch_checks. cbn [fst snd]. destruct r as [[out|]| |]; try discriminate.
  destruct (log w) as [|[key old revision value| | |] [|[| |job_id deadline|] l]]; try discriminate.
  intros [[[_ ->%N.eqb_eq]%andb_prop ->%String.eqb_eq]%andb_prop Hv%bool_decide_eq_true]%andb_prop.
  apply fmap_Some in Hv as (state & Hd & Hl).
  eexists _, old, revision, value, job_id, state. split; [left|]. split; [done|]. split; [done|].
  right. left.
Qed.
Lemma settled_checks_log r w : settled_checks (r, w) = true →
  ∃ out key value, r = Ok (PollReply out) ∧ po_status out = "completed" ∧
    Stored key value ∈ log w ∧ is_settlement_key key.
Proof.
  unfold settled_checks. cbn [fst snd]. destruct r as [[|out]| |]; try discriminate.
  destruct (log w) as [|[|key value| |] l]; try discriminate.
  intros [Hs%String.eqb_eq Hk%starts_with_app]%andb_prop. exists out, key, value.
  split; [done|]. split; [done|]. split; [left|exact Hk].
Qed.

(** The two runs are runs of the system. *)
Definition run_checks (self : App) (call : request_call) (now : N) : bool :=
  let r := submitted self call now in launch_checks r && settled_checks (polled self now r).
Lemma checked_runs self call now : run_checks self call now = true →
  ∃ r w, reachable false self (mkSystem w [mkProcess call (Ret r)]) ∧
    launch_checks (r, w) = true ∧
    ∃ r' w', reachable false self
        (mkSystem w' [mkProcess call (Ret r); mkProcess (CallPoll (demo_job r)) (Ret r')]) ∧
      settled_checks (r', w') = true.
Proof.
  unfold run_checks. intros [Hc1 Hc2]%andb_prop.
  destruct (submitted_reachable self call now) as [Hr Hrev].
  pose proof (polled_reachable self call now _ Hr Hrev) as Hp.
  exists (submitted self call now).1, (submitted self call now).2. split; [exact Hr|].
  split; [by rewrite <-surjective_pairing|]. eexists _, _. split; [exact Hp|].
  by rewrite <-surjective_pairing.
Qed.
Lemma demo_checked : run_checks demo_app demo_call demo_now = true.
Proof. vm_compute. reflexivity. Qed.
Lemma demo_runs :
  ∃ r w, reachable false demo_app (mkSystem w [mkProcess demo_call (Ret r)]) ∧
    launch_checks (r, w) = true ∧
    ∃ r' w', reachable false demo_app
        (mkSystem w' [mkProcess demo_call (Ret r); mkProcess (CallPoll (demo_job r)) (Ret r')]) ∧
      settled_checks (r', w') = true.
Proof. exact (checked_runs _ _ _ demo_checked). Qed.

Example start_budget_holds_witness :
  ∃ s job_id, Launched job_id (demo_now + 120) ∈ log (sy_world s) ∧
    N.of_nat (length (List.filter (in_window demo_now) (start_times (log (sy_world s))))) ≤ 16 ∧
    ∃ slot, slot ∈ charges (log (sy_world s)) ∧ wr_job_id slot = job_id.
Proof.
  destruct demo_runs as (r & w & Hr & Hc & _).
  destruct (launch_checks_log r w Hc) as (work_id & old & revision & value & job_id & state & _ & _ & _ & Hl).
  destruct (start_budget_holds false demo_app _ demo_now Hr) as (Hb & _ & Hs).
  destruct (Hs _ _ Hl) as (slot & Hin & Hj & _). exists (mkSystem w [mkProcess demo_call (Ret r)]), job_id.
  split; [exact Hl|].
  split; [exact Hb|]. exists slot. split; [exact Hin|exact Hj].
Defined.
Example admission_ledger_bounded_witness :
  ∃ s ledger, sy_processes s ≠ [] ∧ ledger_of (contents (sy_world s) ADMISSION_KEY) = Ok ledger ∧
    NoDup (map wr_job_id (al_reservations ledger)).
Proof.
  destruct demo_runs as (r & w & Hr & _).
  destruct (admission_ledger_bounded false demo_app _ Hr) as (ledger & Hl & Hn & _).
  exists (mkSystem w [mkProcess demo_call (Ret r)]), ledger.
  split; [discriminate|]. split; [exact Hl|exact Hn].
Defined.
Example work_record_evolves_witness :
  ∃ s work_id w w', contents (sy_world s) (work_key work_id) = Some (work_to_vec w') ∧ evolved w w' ∧
    wa_launched w = true.
Proof.
  destruct demo_runs as (r & w & Hr & Hc & _).
  destruct (launch_checks_log r w Hc) as (work_id & old & revision & value & job_id & state & Hin & Hd & Hl & _).
  destruct (work_record_evolves false demo_app _ work_id old revision value Hr Hin)
    as (w1 & w2 & Hd1 & Hw2 & He & _).
  exists (mkSystem w [mkProcess demo_call (Ret r)]), work_id, w1, w2. split; [exact Hw2|]. split; [exact He|].
  rewrite Hd in Hd1. injection Hd1 as <-. exact Hl.
Defined.
Example published_settlements_verified_witness :
  ∃ s key value, is_settlement_key key ∧ published demo_app (log (sy_world s)) key value.
Proof.
  destruct demo_runs as (r & w & _ & _ & r' & w' & Hr & Hc).
  destruct (settled_checks_log r' w' Hc) as (out & key & value & _ & _ & Hin & Hk).
  exists (mkSystem w' [mkProcess demo_call (Ret r); mkProcess (CallPoll (demo_job r)) (Ret r')]), key, value.
  split; [exact Hk|].
  exact (published_settlements_verified false demo_app _ key value Hr Hin Hk).
Defined.
Example answers_are_vouched_witness :
  ∃ s job_id out, po_status out = "completed" ∧ vouched_answer (log (sy_world s)) job_id out.
Proof.
  destruct demo_runs as (r & w & _ & _ & r' & w' & Hr & Hc).
  destruct (settled_checks_log r' w' Hc) as (out & key & value & -> & Hs & _).
  exists (mkSystem w' [mkProcess demo_call (Ret (r)); mkProcess (CallPoll (demo_job r)) (Ret (Ok (PollReply out)))]),
    (demo_job r), out.
  split; [exact Hs|].
  refine (answers_are_vouched false demo_app _ (CallPoll (demo_job r)) out Hr _ Hs). right. left.
Defined.

Example first_submission_launches_witness :
  ∃ w' state job_id, Launched job_id (demo_now + 120) ∈ log w' ∧
    contents w' (work_key "77") = Some (work_to_vec state) ∧ wa_launched state = true.
Proof.
  assert (∃ job_id paths, derive_job_id demo_secret "77:0" demo_request = Ok job_id ∧
    JobPaths_new job_id = Ok paths) as (job_id & paths & Hid & Hpaths).
  { eexists _, _. split; vm_compute; reflexivity. }
  destruct (first_submission_launches false demo_app demo_now demo_empty "77" job_id demo_request
    AdmissionLedger_default paths) as (w' & state & _ & Hl & Hc & _ & Hs & _).
  - reflexivity.
  - vm_compute. discriminate.
  - reflexivity.
  - apply lookup_empty.
  - reflexivity.
  - split; try reflexivity; [constructor|]. intros Hm. vm_compute in Hm. discriminate Hm.
  - exact Hid.
  - exact Hpaths.
  - exists w', state, job_id. split; [exact Hl|]. split; [exact Hc|exact Hs].
Defined.

Example resubmission_is_idle_witness :
  ∃ w work_id state, objects w ≠ ∅ ∧ wa_launched state = true ∧
    exec (demo_now + 10) w (submit_canonical false demo_app work_id demo_request) =
      (Ok (mkSubmitOutcome true (stq_job_id (wa_stored state))), w).
Proof.
  assert (∃ state paths, fresh_attempt demo_app "77" demo_request demo_now 0 = Ok state ∧
    JobPaths_new (stq_job_id (wa_stored state)) = Ok paths ∧
    stq_request (wa_stored state) = demo_request ∧ demo_now + 10 ≤ stq_expires_at (wa_stored state) ∧
    stored_request_is_live (wa_stored state) (stq_created_at (wa_stored state)) = true)
    as (state & paths & Hfresh & Hpaths & Hrequest & Hexpires & Hlive).
  { eexists _, _. split; [vm_compute; reflexivity|]. split; [vm_compute; reflexivity|].
    split; [vm_compute; reflexivity|]. split; [vm_compute; discriminate|vm_compute; reflexivity]. }
  destruct (fresh_untouched demo_app _ _ _ _ _ Hfresh) as (_ & Hc & Hd).
  set (w := mkWorld {[work_key "77" := stored_object (work_to_vec (set_launched state))]} []).
  exists w, "77", (set_launched state). split; [|split; [reflexivity|]].
  { unfold w. cbn [objects]. apply map_non_empty_singleton. }
  assert (∀ key, key ≠ work_key "77" → contents w key = None) as Hnone.
  { intros key Hne. unfold contents, w. cbn [objects]. by rewrite lookup_singleton_ne. }
  destruct (proj1 (JobPaths_new_ok _ _) Hpaths) as (_ & _ & Epaths).
  apply (resubmission_is_idle false demo_app (demo_now + 10) w "77" demo_request
    (stored_object (work_to_vec (set_launched state))) (set_launched state) paths).
  - reflexivity.
  - exact Hexpires.
  - apply lookup_singleton_eq.
  - apply work_round_trip.
  - exact Hrequest.
  - exact Hlive.
  - reflexivity.
  - exact Hc.
  - exact Hd.
  - exact Hpaths.
  - apply Hnone. subst paths. discriminate.
  - apply Hnone. subst paths. discriminate.
Defined.
