(* ===== verification/Aws.v ===== *)
(** * The AWS side of the job service
      ([job-api/src/bin/lambda.rs], [admission_reconciliation.rs], [bin/janitor.rs])

    The object store over S3, the launcher over EC2 with its settlement preflight,
    the proof that a job has no live instance, and the janitor.  The AWS SDK
    calls, the system clock and [tokio]'s timeout are parameters: computations
    over a world. *)

From S2P Require Import Prelude Bytes Text Commit Rpc Abi Config Chain ChainConfig JobProtocol.
From S2P Require Import JobApp.
From Stdlib Require Import Strings.Byte Strings.Ascii.

Open Scope string_scope.
Open Scope N_scope.
Open Scope list_scope.

(* ------------------------------------------------------------------ *)
(** ** The SDK *)

(** An SDK error, as far as the program looks at it: the modelled service error
    and the status of the raw response, each when there is one. *)
Record S3ServiceError := mkS3ServiceError {
  s3_no_such_key : bool;
  s3_code : option string;
  s3_message : option string
}.
Record S3Error := mkS3Error { s3_service_error : option S3ServiceError; s3_raw_status : option N }.

(** The answer of [GetObject]; the body stream ends well or breaks off. *)
Record GetObjectOutput := mkGetObjectOutput {
  go_e_tag : option string;
  go_content_length : option Z;
  go_body : list byte;
  go_complete : bool
}.
Inductive PutCondition := IfMatch (etag : string) | IfNoneMatch.

Record InstanceTag := mkInstanceTag { it_key : option string; it_value : option string }.
Record Instance_ := mkInstance {
  in_instance_id : option string;
  in_state : option string;
  in_tags : list InstanceTag;
  in_launch_time : option Z
}.
(** A page of [DescribeInstances], the reservations flattened. *)
Record DescribeOutput := mkDescribeOutput {
  de_instances : list Instance_;
  de_next_token : option string
}.
Inductive InstanceFilter := TagJobId (job_id : string) | LiveOfProject.
(** The parameters of [RunInstances] that vary; one instance is asked for. *)
Record RunInstances := mkRunInstances {
  ri_image_id : string;
  ri_instance_type : string;
  ri_instance_profile : string;
  ri_subnet_id : string;
  ri_security_group_id : string;
  ri_client_token : string;
  ri_job_id_tag : string;
  ri_user_data : string
}.

Class Aws (W : Type) := {
  s3_get_object : string → io W S3Error GetObjectOutput;
  s3_put_object : string → PutCondition → list byte → io W S3Error unit;
  s3_presign_get : string → N → io W unit string;
  s3_presign_put : string → N → io W unit string;
  ec2_describe_instances : InstanceFilter → option N → option string → io W unit DescribeOutput;
  ec2_terminate_instances : list string → io W unit unit;
  (** An error with the message of the service, or the instance ids. *)
  ec2_run_instances : RunInstances → io W (option string) (list (option string));
  (** [SystemTime::now()] since the epoch, in seconds. *)
  system_seconds : io W unit N;
  tokio_timeout : ∀ {E A}, N → io W E A → W → option (outcome E A) * W
}.
(** [base64] and the JSON of the capabilities. *)
Class LaunchCodec := {
  base64_encode : string → string;
  capabilities_to_vec : WorkerCapabilities → option (list byte);
  capabilities_from_slice : list byte → option WorkerCapabilities
}.

Definition MAX_REQUEST_BYTES : N := 4096.
Definition CAPABILITY_BOOT_MARGIN_SECONDS : N := 900.
Definition MAX_S3_PRESIGN_TTL_SECONDS : N := 604800.
Definition SIGNER_OBJECT : string := "secrets/signer.bin".
Definition DRPC_OBJECT : string := "secrets/drpc.bin".
Definition PRECHECK_TIMEOUT_SECONDS : N := 24.

Definition create_conflict_read_limit (key : string) : N :=
  if starts_with "settlements/" key || starts_with "control/completions/" key
  then MAX_RESULT_BYTES else MAX_REQUEST_BYTES.

Definition capability_ttl_seconds (job_ttl_seconds : N) : outcome ServiceError N :=
  ok_or (ttl ← checked_add job_ttl_seconds CAPABILITY_BOOT_MARGIN_SECONDS;
         if ttl <=? MAX_S3_PRESIGN_TTL_SECONDS then Some ttl else None) InvalidRequest.

Section Aws.
Context {W : Type} `{!Aws W}.

(** The result of a call, looked at by the caller. *)
Definition observe {E E' A} (m : io W E A) : io W E' (outcome E A) :=
  fun w => let '(r, w') := m w in
           match r with Panic s => (Panic s, w') | r => (Ok r, w') end.
(** [tokio::time::timeout(..).await.map_err(|_| late)?]. *)
Definition within {E A} (late : E) (seconds : N) (m : io W E A) : io W E A :=
  fun w => let '(r, w') := tokio_timeout seconds m w in
           (match r with Some r => r | None => Err late end, w').

(* ------------------------------------------------------------------ *)
(** ** [S3Store] *)

Definition no_such_key (error : S3Error) : bool :=
  match s3_service_error error with Some e => s3_no_such_key e | None => false end.

(** Both the declared and the streamed length are bounded. *)
Definition length_exceeds (output : GetObjectOutput) (max_bytes : N) : bool :=
  match go_content_length output with
  | Some n => (n <? 0)%Z || (max_bytes <? Z.to_N n)
  | None => false
  end.
(** [take(max_bytes + 1).read_to_end(..)]: a stream that breaks off later is not
    noticed. *)
Definition read_bounded (output : GetObjectOutput) (max_bytes : N) : outcome ServiceError (list byte) :=
  let bytes := take (N.to_nat max_bytes + 1) (go_body output) in
  _ ← bail_if (negb (go_complete output) && (length (go_body output) <=? N.to_nat max_bytes)%nat)
        RequestReadUnavailable;
  Ok bytes.

Definition versioned_of (max_bytes : N) (output : GetObjectOutput) :
    outcome ServiceError (option VersionedObject) :=
  revision ← ok_or (etag ← go_e_tag output; if str_is_empty etag then None else Some etag)
               InvalidStoredResult;
  _ ← bail_if (length_exceeds output max_bytes) InvalidStoredResult;
  bytes ← read_bounded output max_bytes;
  _ ← bail_if (max_bytes <? N.of_nat (length bytes)) InvalidStoredResult;
  Ok (Some (mkVersionedObject bytes revision)).
Definition s3_get_versioned (key : string) (max_bytes : N) :
    io W ServiceError (option VersionedObject) :=
  output ← observe (s3_get_object key);
  lift (match output with
        | Ok output => versioned_of max_bytes output
        | Err error => if no_such_key error then Ok None else Err RequestReadUnavailable
        | Panic s => Panic s
        end).

Definition s3_compare_exchange (key : string) (revision : option string) (value : list byte) :
    io W ServiceError bool :=
  put ← observe (s3_put_object key
          (match revision with Some etag => IfMatch etag | None => IfNoneMatch end) value);
  lift (match put with
        | Ok _ => Ok true
        | Err error =>
            match s3_raw_status error with
            | Some status => if (status =? 409) || (status =? 412) then Ok false
                             else Err RequestWriteUnavailable
            | None => Err RequestWriteUnavailable
            end
        | Panic s => Panic s
        end).

Definition denied (error : S3Error) : option string :=
  match s3_service_error error with
  | Some e => if bool_decide (s3_code e = Some "AccessDenied") then Some (default "" (s3_message e)) else None
  | None => None
  end.
Definition read_error (error : S3Error) : outcome ServiceError (option (list byte)) :=
  if no_such_key error then Ok None
  else
    match denied error with
    | Some message =>
        if negb (str_is_empty message) then Err (RequestReadDeniedDetail message)
        else if str_contains "no identity-based policy" message then Err RequestReadIdentityDenied
        else if str_contains "explicit deny" message then Err RequestReadExplicitDenied
        else Err RequestReadDenied
    | None => Err RequestReadUnavailable
    end.
Definition object_of (max_bytes : N) (output : GetObjectOutput) :
    outcome ServiceError (option (list byte)) :=
  _ ← bail_if (length_exceeds output max_bytes) InvalidStoredResult;
  _ ← bail_if (negb (go_complete output)) RequestReadUnavailable;
  _ ← bail_if (max_bytes <? N.of_nat (length (go_body output))) InvalidStoredResult;
  Ok (Some (go_body output)).
Definition s3_get (key : string) (max_bytes : N) : io W ServiceError (option (list byte)) :=
  output ← observe (s3_get_object key);
  lift (match output with
        | Ok output => object_of max_bytes output
        | Err error => read_error error
        | Panic s => Panic s
        end).

Definition s3_create (key : string) (value : list byte) : io W ServiceError CreateOutcome :=
  put ← observe (s3_put_object key IfNoneMatch value);
  match put with
  | Ok _ => mret Created
  | Err _ =>
      existing ← s3_get key (create_conflict_read_limit key);
      match existing with
      | Some existing => mret (Exists existing)
      | None => lift (Err RequestWriteUnavailable)
      end
  | Panic s => lift (Panic s)
  end.

Definition s3_download_url (key : string) (ttl_seconds : N) : io W ServiceError string :=
  map_err_io (fun _ => Unavailable) (s3_presign_get key ttl_seconds).

(** [impl JobStore for S3Store]: the store's operations of the job service. *)
Definition s3_store (o : op) : option (W → answer o * W) :=
  match o return option (W → answer o * W) with
  | GetVersioned key max_bytes => Some (s3_get_versioned key max_bytes)
  | CompareExchange key revision value => Some (s3_compare_exchange key revision value)
  | Create key value => Some (s3_create key value)
  | Get key max_bytes => Some (s3_get key max_bytes)
  | DownloadUrl key ttl_seconds => Some (s3_download_url key ttl_seconds)
  | _ => None
  end.

(* ------------------------------------------------------------------ *)
(** ** No live instance ([admission_reconciliation.rs]) *)

Definition Terminated : string := "terminated".
Definition tagged (job_id : string) (instance : Instance_) : bool :=
  existsb (fun tag => bool_decide (it_key tag = Some "JobId") && bool_decide (it_value tag = Some job_id))
    (in_tags instance).
(** The instance is not proved gone. *)
Definition suspect (job_id : string) (instance : Instance_) : bool :=
  match in_instance_id instance with Some id => str_is_empty id | None => true end ||
  negb (bool_decide (in_state instance = Some Terminated)) || negb (tagged job_id instance).

(** One of the at most 32 pages. *)
Fixpoint scan_pages (pages : nat) (job_id : string) (token : option string)
    (seen_tokens : gset string) : io W ServiceError bool :=
  match pages with
  | O => lift (Err Unavailable)
  | S pages =>
      output ← map_err_io (fun _ => Unavailable)
                 (ec2_describe_instances (TagJobId job_id) (Some 1000) token);
      if existsb (suspect job_id) (de_instances output) then mret false
      else
        match de_next_token output with
        | None => mret true
        | Some next =>
            if negb (str_is_empty next) && negb (bool_decide (next ∈ seen_tokens))
            then scan_pages pages job_id (Some next) ({[next]} ∪ seen_tokens)
            else lift (Err Unavailable)
        end
  end.

Definition launch_fence (launch_until : N) (ambiguity_seconds : option N) : option N :=
  bound ← (match ambiguity_seconds with
           | Some bound => if 0 <? bound then Some bound else None
           | None => None
           end);
  horizon ← checked_add launch_until 900;
  checked_add horizon bound.

Definition no_active_instances (job_id : string) (launch_until now : N)
    (ambiguity_seconds : option N) : io W ServiceError bool :=
  _ ← lift (map_err (fun _ => InvalidRequest) (JobPaths_new job_id));
  match launch_fence launch_until ambiguity_seconds with
  | None => mret false
  | Some fence =>
      if now <=? fence then mret false
      else within Unavailable 10 (scan_pages 32 job_id None ∅)
  end.

(* ------------------------------------------------------------------ *)
(** ** [Ec2Launcher] *)

Record Ec2Launcher := mkEc2Launcher {
  el_registry : Address;
  el_module : Address;
  el_image_id : string;
  el_instance_type : string;
  el_instance_profile : string;
  el_subnet_id : string;
  el_security_group_id : string;
  el_launch_template : LaunchTemplate;
  el_capability_ttl_seconds : N;
  el_ec2_ambiguity_seconds : option N
}.

Definition ec2_is_terminated (job_id : string) : io W ServiceError bool :=
  _ ← lift (map_err (fun _ => InvalidRequest) (JobPaths_new job_id));
  output ← within Unavailable 10 (map_err_io (fun _ => Unavailable)
             (ec2_describe_instances (TagJobId job_id) None None));
  match de_next_token output with
  | Some _ => mret false
  | None =>
      let instances := de_instances output in
      mret (match instances with [] => false | _ => true end &&
            forallb (fun instance => bool_decide (in_state instance = Some Terminated) &&
                                     tagged job_id instance) instances)
  end.

Section Launcher.
Context (self : Ec2Launcher).

Definition reconcile_reservation (job_id : string) (launch_until now : N) : io W ServiceError bool :=
  match el_ec2_ambiguity_seconds self with
  | None =>
      if now <=? saturating_add launch_until 900 then mret false else ec2_is_terminated job_id
  | Some _ => no_active_instances job_id launch_until now (el_ec2_ambiguity_seconds self)
  end.

Definition presign_get (key : string) : io W ServiceError string :=
  map_err_io (fun _ => CapabilitiesUnavailable) (s3_presign_get key (el_capability_ttl_seconds self)).
Definition presign_terminal_put (key : string) : io W ServiceError string :=
  map_err_io (fun _ => CapabilitiesUnavailable) (s3_presign_put key (el_capability_ttl_seconds self)).
Definition new_capabilities (job_id : string) : io W ServiceError WorkerCapabilities :=
  paths ← lift (map_err (fun _ => InvalidRequest) (JobPaths_new job_id));
  request_get_url ← presign_get (jp_request paths);
  signer_get_url ← presign_get SIGNER_OBJECT;
  drpc_get_url ← presign_get DRPC_OBJECT;
  terminal_put_url ← presign_terminal_put (jp_terminal paths);
  mret (mkWorkerCapabilities request_get_url signer_get_url drpc_get_url terminal_put_url).

Context `{LaunchCodec}.
(** The first writer's capabilities are everybody's. *)
Definition capabilities (job_id : string) : io W ServiceError WorkerCapabilities :=
  let key := "launch/" +:+ job_id +:+ ".json" in
  capabilities ← new_capabilities job_id;
  body ← lift (ok_or (capabilities_to_vec capabilities) CapabilitiesUnavailable);
  created ← observe (s3_put_object key IfNoneMatch body);
  match created with
  | Ok _ => mret capabilities
  | Err _ =>
      existing ← map_err_io (fun _ => CapabilitiesUnavailable) (s3_get_object key);
      _ ← lift (bail_if (negb (go_complete existing)) CapabilitiesUnavailable);
      _ ← lift (bail_if (20000 <? N.of_nat (length (go_body existing))) InvalidStoredResult);
      lift (ok_or (capabilities_from_slice (go_body existing)) InvalidStoredResult)
  | Panic s => lift (Panic s)
  end.

(** The launch is not sent at or after the deadline. *)
Definition before_deadline (deadline : N) : io W ServiceError unit :=
  now ← map_err_io (fun _ => Unavailable) system_seconds;
  lift (bail_if (deadline <=? now) LaunchUnavailable).

(** Everything before [RunInstances]: the user data of the instance. *)
Definition prepare_launch `{HexCrate} (job_id : string) (deadline : N) : io W ServiceError string :=
  _ ← before_deadline deadline;
  capabilities ← capabilities job_id;
  data ← lift (user_data (el_launch_template self) job_id capabilities);
  _ ← before_deadline deadline;
  mret data.

Definition ec2_launch_before `{HexCrate} (job_id : string) (deadline : N) : io W ServiceError unit :=
  data ← prepare_launch job_id deadline;
  ids ← map_err_io (fun message => LaunchUnavailableDetail
                      (default "EC2 RunInstances transport failure" message))
          (ec2_run_instances {| ri_image_id := el_image_id self;
             ri_instance_type := el_instance_type self;
             ri_instance_profile := el_instance_profile self;
             ri_subnet_id := el_subnet_id self;
             ri_security_group_id := el_security_group_id self;
             ri_client_token := job_id;
             ri_job_id_tag := job_id;
             ri_user_data := base64_encode data |});
  lift (match ids with [Some _] => Ok tt | _ => Err LaunchUnavailable end).
End Launcher.

(** [Ec2Launcher::launch]: a launch without a deadline is refused. *)
Definition ec2_launch (job_id : string) : io W ServiceError unit := lift (Err InvalidRequest).
End Aws.

(* ------------------------------------------------------------------ *)
(** ** The settlement preflight *)

Section Preflight.
Context `{HexCrate, AbiCodec} {W : Type} `{!RpcIface W, !Aws W}.
(** The build's feature flag. *)
Context (sepolia : bool).

Definition ZERO_ROOT : string := "0x" +:+ str_repeat 32 "00".
(** [map_err(|_| ServiceError::Unavailable)]. *)
Definition unavailable {A} : io W ChainError A → io W ServiceError A := map_err_io (fun _ => Unavailable).
Definition same_anchor (anchor : BlockAnchor) : io W ServiceError unit :=
  actual ← unavailable (block_by_number (ba_number anchor));
  lift (bail_if (negb (bool_decide (actual = anchor))) Unavailable).

Definition settlement_preflight (registry_ module : Address) (incident_id : string) :
    io W ServiceError unit :=
  actual_chain ← unavailable chain_id;
  _ ← lift (bail_if (negb (actual_chain =? configured_chain_id sepolia)) Unavailable);
  head ← unavailable finalized_block;
  defi_insurance ← unavailable (defi_insurance_at registry_ (Some (ba_number head)));
  _ ← lift (bail_if (negb (bool_decide (defi_insurance = module))) Unavailable);
  id ← lift (ok_or (biguint_from_str incident_id) InvalidRequest);
  incident ← unavailable (incident_at module id (Some (ba_number head)));
  _ ← lift (bail_if (address_is_zero (inc_insured_token incident)) NotFound);
  _ ← lift (bail_if ((ba_number head <? inc_open_block incident) ||
                     (ba_number head <? inc_reference_block incident)) Unavailable);
  open ← unavailable (block_by_number (inc_open_block incident));
  deadline ← unavailable (incident_claim_deadline_at module id (inc_open_block incident));
  window ← lift (ok_or (window ← checked_sub deadline (ba_timestamp open);
                        if 0 <? window then Some window else None) Unavailable);
  settlement_deadline ← lift (ok_or (checked_add deadline window) Unavailable);
  let unsettled := String.eqb (inc_root incident) ZERO_ROOT in
  _ ← lift (bail_if ((ba_timestamp head <=? deadline) ||
                     (unsettled && (settlement_deadline <? ba_timestamp head))) SettlementNotEligible);
  _ ← same_anchor head;
  same_anchor open.

Definition launcher_precheck (self : Ec2Launcher) (request : CanonicalRequest) : io W ServiceError unit :=
  match request with
  | OpenRequest _ => mret tt
  | SettlementRequest request =>
      registry_ ← lift (ok_or (address_from_str (cs_registry request)) InvalidRequest);
      _ ← lift (bail_if (negb (bool_decide (registry_ = el_registry self))) InvalidRequest);
      within Unavailable PRECHECK_TIMEOUT_SECONDS
        (settlement_preflight (el_registry self) (el_module self) (cs_incident_id request))
  end.
End Preflight.

(* ------------------------------------------------------------------ *)
(** ** The janitor ([bin/janitor.rs]) *)

Section Janitor.
Context {W : Type} `{!Aws W}.

Definition expired_ids (now ttl_secs : Z) (output : DescribeOutput) : list string :=
  omap in_instance_id (List.filter (fun instance =>
    match in_launch_time instance with Some time => is_expired time now ttl_secs | None => false end)
    (de_instances output)).

(** The loop over the pages; [fuel] bounds their number. *)
Fixpoint sweep_pages (fuel : nat) (now ttl_secs : Z) (next_token : option string) (terminated : N) :
    io W unit N :=
  match fuel with
  | O => lift (Panic "out of fuel")
  | S fuel =>
      output ← ec2_describe_instances LiveOfProject None next_token;
      let ids := expired_ids now ttl_secs output in
      terminated ← (match ids with
                    | [] => mret terminated
                    | _ => _ ← ec2_terminate_instances ids; mret (terminated + N.of_nat (length ids))
                    end);
      match de_next_token output with
      | None => mret terminated
      | Some next => sweep_pages fuel now ttl_secs (Some next) terminated
      end
  end.

(** [as_secs() as i64]. *)
Definition seconds_i64 (seconds : N) : Z :=
  let n := (Z.of_N seconds mod 2 ^ 64)%Z in if (n <? 2 ^ 63)%Z then n else (n - 2 ^ 64)%Z.
Definition janitor_run (fuel : nat) (ttl_secs : Z) : io W unit N :=
  now ← system_seconds;
  sweep_pages fuel (seconds_i64 now) ttl_secs None 0.
End Janitor.
