(* ===== verification/AwsFacts.v ===== *)
(** * The AWS side is what the job service assumes

    Against the documented behaviour of S3 the object store refines the store of
    [JobSystem]; against that of EC2 a reservation is released only when its job
    has no live instance.  The theorems are about the definitions of [Aws]. *)

From S2P Require Import Prelude Bytes Text Commit Rpc Abi Config Chain ChainConfig JobProtocol.
From S2P Require Import JobApp JobSystem Aws.
From Stdlib Require Import Strings.Byte Strings.Ascii.

Open Scope string_scope.
Open Scope N_scope.
Open Scope list_scope.

Lemma observe_ok {W E E' A} (m : io W E A) w r w' :
  observe (E' := E') m w = (Ok r, w') ↔ m w = (r, w') ∧ ∀ s, r ≠ Panic s.
Proof.
  unfold observe. destruct (m w) as [[a|e|s] w1]; split.
  1,3: intros [= <- <-]; by split.
  1,2: by intros [[= <- <-] _].
  - done.
  - intros [[= <- <-] Hn]. by destruct (Hn s).
Qed.

(* ------------------------------------------------------------------ *)
(** ** S3 *)

Section S3.
Context {W : Type} `{!Aws W}.
(** The objects of the bucket in a world, and the ETag of a content. *)
Context (bucket : W → gmap string VersionedObject) (etag : list byte → string).

Definition condition_holds (w : W) (key : string) (condition : PutCondition) : Prop :=
  match condition with
  | IfMatch tag => vo_revision <$> bucket w !! key = Some tag
  | IfNoneMatch => bucket w !! key = None
  end.

(** S3 as documented: reads are strongly consistent; a conditional write whose
    condition holds happens atomically or not at all, and a reply can be lost or
    come from a retry; no two contents have one ETag. *)
Class S3Laws : Prop := {
  etag_inj :: Inj (=) (=) etag;
  s3_get_law : ∀ key w r w', s3_get_object key w = (r, w') →
    bucket w' = bucket w ∧
    match r with
    | Ok output => ∃ v, bucket w !! key = Some v ∧ go_e_tag output = Some (vo_revision v) ∧
        go_body output `prefix_of` vo_bytes v ∧ (go_complete output = true → go_body output = vo_bytes v)
    | Err error => no_such_key error = true → bucket w !! key = None
    | Panic _ => True
    end;
  s3_put_law : ∀ key condition value w r w', s3_put_object key condition value w = (r, w') →
    (bucket w' = bucket w ∧ r ≠ Ok tt) ∨
    (condition_holds w key condition ∧
     bucket w' = <[key := mkVersionedObject value (etag value)]> (bucket w));
  s3_presign_law : ∀ key ttl w r w', s3_presign_get key ttl w = (r, w') → bucket w' = bucket w
}.
Context `{!S3Laws}.

(** The shared world of [JobSystem], with a log. *)
Definition shared (w : W) (l : list event) : world := mkWorld (bucket w) l.
(** Every revision in the log is an ETag. *)
Definition etags_logged (l : list event) : Prop :=
  ∀ key old revision value, Written key old revision value ∈ l → revision = etag value.

Lemma etag_free l key value : etags_logged l → revision_free l key (etag value) value.
Proof. intros Hl old other Hw%Hl. by apply (inj etag) in Hw. Qed.

Lemma etags_written l key old value : etags_logged l → etags_logged (Written key old (etag value) value :: l).
Proof. intros Hl k o r v [[= -> -> -> ->]|Hin]%elem_of_cons; [done|by eapply Hl]. Qed.
Lemma etags_stored l key value : etags_logged l → etags_logged (Stored key value :: l).
Proof. intros Hl k o r v [?|Hin]%elem_of_cons; [done|by eapply Hl]. Qed.

(** A bounded read that succeeds has read the whole object. *)
Lemma read_bounded_ok output max_bytes v bytes : go_body output `prefix_of` vo_bytes v →
  (go_complete output = true → go_body output = vo_bytes v) →
  read_bounded output max_bytes = Ok bytes → N.of_nat (length bytes) ≤ max_bytes → bytes = vo_bytes v.
Proof.
  intros Hpre Hcomplete Hr Hlen. unfold read_bounded in Hr.
  apply bind_ok in Hr as (? & Hb%bail_if_ok & <-%(inj Ok)). rewrite length_take in Hlen.
  apply andb_false_iff in Hb as [Hc%negb_false_iff|Hl%Nat.leb_gt]; [|lia].
  rewrite take_ge by lia. by apply Hcomplete.
Qed.

Lemma get_versioned_refines key max_bytes w r w' l :
  s3_get_versioned key max_bytes w = (r, w') → respond (shared w l) (GetVersioned key max_bytes) r (shared w' l).
Proof.
  unfold s3_get_versioned. unfold mbind, io_bind, observe.
  destruct (s3_get_object key w) as [g w1] eqn:E. apply s3_get_law in E as [Hw Hg].
  assert (shared w1 l = shared w l) as Hsame by (unfold shared; by rewrite Hw).
  destruct g as [output|error|s]; intros [= <- <-]; split; try done.
  - destruct Hg as (v & Hv & Htag & Hpre & Hcomplete). intros o Ho. unfold versioned_of in Ho.
    rewrite Htag in Ho. cbn [mbind option_bind] in Ho.
    apply bind_ok in Ho as (revision & Hrev%ok_or_ok & Ho).
    destruct (str_is_empty (vo_revision v)); [done|]. injection Hrev as <-.
    apply bind_ok in Ho as (? & _ & Ho). apply bind_ok in Ho as (bytes & Hb & Ho).
    apply bind_ok in Ho as (? & Hlen%bail_if_ok%N.ltb_ge & <-%(inj Ok)).
    eapply read_bounded_ok in Hb as ->; [|done..]. cbn. rewrite Hv. by destruct v.
  - intros o Ho. destruct (no_such_key error); [|done]. injection Ho as <-. cbn. by rewrite Hg.
Qed.

Lemma get_refines key max_bytes w r w' l :
  s3_get key max_bytes w = (r, w') → respond (shared w l) (Get key max_bytes) r (shared w' l).
Proof.
  unfold s3_get. unfold mbind, io_bind, observe.
  destruct (s3_get_object key w) as [g w1] eqn:E. apply s3_get_law in E as [Hw Hg].
  assert (shared w1 l = shared w l) as Hsame by (unfold shared; by rewrite Hw).
  destruct g as [output|error|s]; intros [= <- <-]; split; try done.
  - destruct Hg as (v & Hv & _ & _ & Hcomplete). intros o Ho. unfold object_of in Ho.
    apply bind_ok in Ho as (? & _ & Ho). apply bind_ok in Ho as (? & Hc%bail_if_ok%negb_false_iff & Ho).
    apply bind_ok in Ho as (? & _ & <-%(inj Ok)). unfold contents. cbn. rewrite Hv. cbn.
    by rewrite Hcomplete.
  - intros o Ho. unfold read_error in Ho. destruct (no_such_key error).
    + injection Ho as <-. unfold contents. cbn. by rewrite Hg.
    + destruct (denied error) as [message|]; [|done].
      destruct (negb _); [done|]. destruct (str_contains _ _); [done|]. by destruct (str_contains _ _).
Qed.

Lemma compare_exchange_refines key revision value w r w' l : etags_logged l →
  s3_compare_exchange key revision value w = (r, w') →
  ∃ l', etags_logged l' ∧ respond (shared w l) (CompareExchange key revision value) r (shared w' l').
Proof.
  intros Hl. unfold s3_compare_exchange. unfold mbind, io_bind, observe.
  destruct (s3_put_object _ _ _ w) as [p w1] eqn:E. intros Hr.
  assert (w' = w1 ∧ (r = Ok true → p = Ok tt)) as [-> Hp].
  { destruct p as [[]|error|s]; injection Hr as <- <-; [done| |done]. split; [done|].
    destruct (s3_raw_status error); [destruct (_ || _)|]; done. }
  apply s3_put_law in E as [[Hw Hne]|[Hc Hw]].
  - exists l. split; [done|]. left. split; [unfold shared; by rewrite Hw|]. intros Hr'. by apply Hne, Hp.
  - exists (Written key (contents (shared w l) key) (etag value) value :: l).
    split; [by apply etags_written|]. right. split.
    + destruct revision as [tag|]; [exact Hc|]. cbn. by rewrite Hc.
    + exists (etag value). split; [by apply etag_free|]. unfold shared. by rewrite Hw.
Qed.

Lemma create_refines key value w r w' l : etags_logged l →
  s3_create key value w = (r, w') →
  ∃ l', etags_logged l' ∧ respond (shared w l) (Create key value) r (shared w' l').
Proof.
  intros Hl. unfold s3_create. unfold mbind at 1, io_bind at 1, observe.
  destruct (s3_put_object key IfNoneMatch value w) as [p w1] eqn:E. intros Hr.
  (* after the write: its reply is [Created], or an error, or an existing object *)
  assert (shared w' l = shared w1 l ∧ (r = Ok Created → p = Ok tt) ∧
    ∀ existing, r = Ok (Exists existing) → contents (shared w1 l) key = Some existing) as (Hw' & Hcreated & Hexists).
  { destruct p as [[]|error|s]; [by injection Hr as <- <-| |by injection Hr as <- <-].
    unfold mbind, io_bind in Hr.
    destruct (s3_get key (create_conflict_read_limit key) w1) as [g w2] eqn:Eg.
    apply (get_refines _ _ _ _ _ l) in Eg as [Hs Hg].
    destruct g as [[existing|]|e|s]; injection Hr as <- <-; split; try done.
    split; [done|]. intros x [= <-]. symmetry. by apply Hg. }
  apply s3_put_law in E as [[Hw Hne]|[Hc Hw]].
  - exists l. split; [done|]. left. rewrite Hw'. unfold shared in *. rewrite Hw in *.
    split; [done|]. split; [intros Hr'; by apply Hne, Hcreated|exact Hexists].
  - exists (Stored key value :: l). split; [by apply etags_stored|]. right.
    assert (bucket w' = bucket w1) as Hb by by injection Hw'. split.
    + split; [exact Hc|]. exists (etag value). unfold shared. by rewrite Hb, Hw.
    + intros existing Hx%Hexists. unfold contents, shared in Hx. cbn in Hx.
      rewrite Hw, lookup_insert_eq in Hx. by injection Hx.
Qed.

Lemma download_url_refines key ttl w r w' l :
  s3_download_url key ttl w = (r, w') → respond (shared w l) (DownloadUrl key ttl) r (shared w' l).
Proof.
  unfold s3_download_url, map_err_io. destruct (s3_presign_get key ttl w) as [p w1] eqn:E.
  intros [= _ <-]. cbn. unfold shared. by rewrite (s3_presign_law _ _ _ _ _ E).
Qed.
End S3.

(* ------------------------------------------------------------------ *)
(** ** EC2 *)

Section Ec2.
Context {W : Type} `{!Aws W}.

(** A complete walk over the pages, each asked for with the token of the one before. *)
Inductive scanned (filter : InstanceFilter) (max_results : option N) :
    option string → W → list DescribeOutput → W → Prop :=
  | scanned_last token w output w' :
      ec2_describe_instances filter max_results token w = (Ok output, w') →
      de_next_token output = None → scanned filter max_results token w [output] w'
  | scanned_more token w output w1 next outputs w' :
      ec2_describe_instances filter max_results token w = (Ok output, w1) →
      de_next_token output = Some next → scanned filter max_results (Some next) w1 outputs w' →
      scanned filter max_results token w (output :: outputs) w'.

(** EC2 and the runtime as documented.  [live w job_id]: the job has an instance
    that is not terminated.  A complete walk shows it; a timeout that does not fire
    changes nothing. *)
Class Ec2Laws (live : W → string → Prop) : Prop := {
  inventory_law : ∀ max_results job_id w outputs w', live w job_id →
    scanned (TagJobId job_id) max_results None w outputs w' →
    ∃ output instance, output ∈ outputs ∧ instance ∈ de_instances output ∧
      in_state instance ≠ Some Terminated;
  timeout_law : ∀ {E A} seconds (m : io W E A) w r w',
    tokio_timeout seconds m w = (Some r, w') → m w = (r, w')
}.
Context (live : W → string → Prop) `{!Ec2Laws live}.

Lemma within_ok {E A} (late : E) seconds (m : io W E A) w a w' :
  within late seconds m w = (Ok a, w') → m w = (Ok a, w').
Proof.
  unfold within. destruct (tokio_timeout seconds m w) as [[r|] w1] eqn:Et; intros [= -> <-].
  by apply (timeout_law (Ec2Laws := Ec2Laws0)) in Et.
Qed.

Lemma scan_pages_ok n job_id : ∀ token seen w w', scan_pages n job_id token seen w = (Ok true, w') →
  ∃ outputs, scanned (TagJobId job_id) (Some 1000) token w outputs w' ∧ (length outputs ≤ n)%nat ∧
    Forall (fun output => existsb (suspect job_id) (de_instances output) = false) outputs.
Proof.
  induction n as [|n IH]; intros token seen w w'; cbn [scan_pages]; [by intros [? _]%lift_ok|].
  intros (output & w1 & Hd%map_err_io_ok & Hs)%io_bind_ok.
  destruct (existsb _ _) eqn:E; [by apply io_ret_ok in Hs as [? _]|].
  destruct (de_next_token output) as [next|] eqn:En.
  - destruct (_ && _); [|by apply lift_ok in Hs as [? _]].
    apply IH in Hs as (outputs & Hscan & Hlen & Hall). exists (output :: outputs).
    split; [by eapply scanned_more|]. split; [cbn; lia|by constructor].
  - apply io_ret_ok in Hs as [_ <-]. exists [output]. split; [by apply scanned_last|].
    split; [cbn; lia|]. by repeat constructor.
Qed.

Lemma suspect_terminated job_id instance : suspect job_id instance = false →
  in_state instance = Some Terminated.
Proof.
  unfold suspect. intros [[_ Hs%negb_false_iff]%orb_false_iff _]%orb_false_iff.
  by apply bool_decide_eq_true in Hs.
Qed.

Lemma launch_fence_Some launch_until ambiguity fence :
  launch_fence launch_until ambiguity = Some fence →
  ∃ bound, ambiguity = Some bound ∧ 0 < bound ∧ fence = launch_until + 900 + bound ∧ fence ≤ u64_max.
Proof.
  unfold launch_fence. destruct ambiguity as [bound|]; [|done]. cbn [mbind option_bind].
  destruct (N.ltb_spec 0 bound) as [Hb|]; [|done]. cbn [mbind option_bind].
  destruct (checked_add launch_until 900) as [horizon|] eqn:E; [|done]. cbn [mbind option_bind].
  apply checked_add_Some in E as [-> _]. intros [-> Hle]%checked_add_Some.
  exists bound. split; [done|]. split; [done|]. split; [done|]. unfold u64_max in *. lia.
Qed.

Lemma no_active_instances_ok job_id launch_until now ambiguity w w' :
  no_active_instances job_id launch_until now ambiguity w = (Ok true, w') →
  (∃ bound, ambiguity = Some bound ∧ 0 < bound ∧ launch_until + 900 + bound < now) ∧ ¬ live w job_id.
Proof.
  intros (? & w1 & [_ ->]%lift_ok & Hs)%io_bind_ok.
  destruct (launch_fence launch_until ambiguity) as [fence|] eqn:Ef; [|by apply io_ret_ok in Hs as [? _]].
  destruct (N.leb_spec now fence) as [|Hlt]; [by apply io_ret_ok in Hs as [? _]|].
  apply launch_fence_Some in Ef as (bound & -> & Hb & -> & _).
  split; [by exists bound|]. apply within_ok in Hs.
  apply scan_pages_ok in Hs as (outputs & Hscan & _ & Hall). intros Hlive.
  destruct (inventory_law (Ec2Laws := Ec2Laws0) _ _ _ _ _ Hlive Hscan) as (output & i & Hout & Hi & Hne).
  rewrite Forall_forall in Hall. specialize (Hall _ Hout). apply Hne, (suspect_terminated job_id).
  destruct (suspect job_id i) eqn:Es; [|done]. apply not_true_iff_false in Hall. exfalso.
  apply Hall, existsb_exists. exists i. split; [by apply list_elem_of_In|done].
Qed.

Lemma is_terminated_ok job_id w w' : ec2_is_terminated job_id w = (Ok true, w') → ¬ live w job_id.
Proof.
  intros (? & w1 & [_ ->]%lift_ok & (output & w2 & Hd%within_ok%map_err_io_ok & Hs)%io_bind_ok)%io_bind_ok.
  destruct (de_next_token output) eqn:En; [by apply io_ret_ok in Hs as [? _]|].
  apply io_ret_ok in Hs as [[_ Hall]%andb_prop _]. intros Hlive.
  destruct (inventory_law (Ec2Laws := Ec2Laws0) None _ _ [output] w2 Hlive) as (out & i & Hout & Hi & Hne).
  { by apply scanned_last. }
  apply list_elem_of_singleton in Hout as ->. rewrite forallb_forall in Hall.
  apply list_elem_of_In, Hall, andb_prop in Hi as [Hs _]. by apply bool_decide_eq_true in Hs.
Qed.
End Ec2.

(** A launch that is prepared has read the clock last, before the deadline. *)
Lemma prepare_launch_ok {W} `{!Aws W, LaunchCodec, HexCrate} self job_id deadline (w : W) data w' :
  prepare_launch self job_id deadline w = (Ok data, w') →
  ∃ v now, system_seconds v = (Ok now, w') ∧ now < deadline.
Proof.
  intros (? & w1 & _ & (c & w2 & _ & (d & w3 & _ & (? & w4 & Hb & [_ <-]%io_ret_ok)%io_bind_ok)%io_bind_ok)
    %io_bind_ok)%io_bind_ok.
  apply io_bind_ok in Hb as (now & w5 & Hn%map_err_io_ok & [Hb%bail_if_ok%N.leb_gt <-]%lift_ok).
  by exists w3, now.
Qed.

(* ------------------------------------------------------------------ *)
(** ** Properties *)



(* ------------------------------------------------------------------ *)
(** ** Evaluated instances

    A bucket and a list of instances, without failures. *)

Module RefAws.
#[local] Existing Instance RefHex.hex_crate.
Definition cloud : Type := gmap string VersionedObject * list Instance_.
Definition etag_of (value : list byte) : string := String.string_of_list_byte value.
#[local] Instance etag_of_inj : Inj (=) (=) etag_of.
Proof.
  intros a b Hab. apply (f_equal String.list_byte_of_string) in Hab. unfold etag_of in Hab.
  by rewrite !String.list_byte_of_string_of_list_byte in Hab.
Qed.

Definition met (w : cloud) (key : string) (condition : PutCondition) : bool :=
  bool_decide (vo_revision <$> w.1 !! key = match condition with IfMatch tag => Some tag | IfNoneMatch => None end).
Definition put (key : string) (condition : PutCondition) (value : list byte) : io cloud S3Error unit :=
  fun w => if met w key condition then (Ok tt, (<[key := mkVersionedObject value (etag_of value)]> w.1, w.2))
           else (Err (mkS3Error None (Some 412)), w).
Definition fetch (key : string) : io cloud S3Error GetObjectOutput :=
  fun w => (match w.1 !! key with
            | Some v => Ok (mkGetObjectOutput (Some (vo_revision v)) None (vo_bytes v) true)
            | None => Err (mkS3Error (Some (mkS3ServiceError true None None)) (Some 404))
            end, w).
Definition describe (filter : InstanceFilter) : io cloud unit DescribeOutput :=
  fun w => (Ok (mkDescribeOutput (match filter with
    | TagJobId job_id => List.filter (tagged job_id) w.2
    | LiveOfProject => w.2
    end) None), w).
#[local] Instance aws : Aws cloud := {
  s3_get_object := fetch;
  s3_put_object := put;
  s3_presign_get key ttl := fun w => (Ok ("https://bucket/" +:+ key), w);
  s3_presign_put key ttl := fun w => (Ok ("https://bucket/" +:+ key), w);
  ec2_describe_instances filter _ _ := describe filter;
  ec2_terminate_instances ids := fun w => (Ok tt, w);
  ec2_run_instances request := fun w => (Ok [Some "i-1"], w);
  system_seconds := fun w => (Ok 50, w);
  tokio_timeout E A seconds m w := let '(r, w') := m w in (Some r, w')
}.

#[local] Instance s3_laws : S3Laws fst etag_of.
Proof.
  split; [apply _| | |].
  - intros key w r w' [= <- <-]. split; [done|]. destruct (w.1 !! key) as [v|] eqn:E; [|done].
    by exists v.
  - intros key condition value w r w'. unfold s3_put_object, aws, put.
    destruct (met w key condition) eqn:E; intros [= <- <-]; [right|by left].
    apply bool_decide_eq_true in E. split; [|done].
    destruct condition; [exact E|by apply fmap_None in E].
  - by intros key ttl w r w' [= _ <-].
Qed.

(** The job has an instance that is not terminated. *)
Definition live (w : cloud) (job_id : string) : Prop :=
  ∃ i, i ∈ w.2 ∧ tagged job_id i = true ∧ in_state i ≠ Some Terminated.
#[local] Instance ec2_laws : Ec2Laws live.
Proof.
  split.
  - intros max job_id w outputs w' (i & Hi & Htag & Hs) Hscan.
    inversion Hscan as [token v output v' Hd Hn|token v output v1 next outs v' Hd Hn]; subst;
      injection Hd as <- <-; [|done].
    eexists _, i. split; [left|]. split; [|done]. cbn. apply list_elem_of_In, filter_In.
    by split; [apply list_elem_of_In|].
  - intros E A seconds m w r w' Ht. cbn in Ht. destruct (m w). by injection Ht as -> ->.
Qed.

Definition demo_job : string := str_repeat 64 "a".
Definition demo_instance (state : string) : Instance_ :=
  mkInstance (Some "i-1") (Some state) [mkInstanceTag (Some "JobId") (Some demo_job)] (Some 60%Z).
Definition demo_launcher : Ec2Launcher :=
  mkEc2Launcher (zero_array 20) (zero_array 20) "ami" "m5" "profile" "subnet" "group"
    (mkLaunchTemplate "eu-central-1") 2700 (Some 300).
#[local] Instance launch_codec : LaunchCodec := {
  base64_encode s := s;
  capabilities_to_vec c := Some [];
  capabilities_from_slice b := None
}.


End RefAws.
