(* ===== verification/Cms.v ===== *)
(** * The KMS recipient envelope ([job-api/src/kms_recipient_cms.rs])

    The enclave asks KMS for a plaintext and receives it as a CMS EnvelopedData
    document, encrypted for the enclave's own key. This file has the parser of that
    document (a reader of BER elements, definite and indefinite lengths, and the
    fixed layout KMS answers with) and the decryption. The RSA and AES primitives are
    parameters. [CmsFacts] has the grammar the parser decides. *)

From S2P Require Import Prelude Bytes.
From Stdlib Require Import Strings.Byte.

Open Scope string_scope.
Open Scope N_scope.
Open Scope list_scope.

Definition MAX_CMS_BYTES : N := 1024 * 1024.
Definition MAX_ASN1_DEPTH : nat := 16.

Definition OID_PKCS7_ENVELOPED_DATA : list byte := [x2a; x86; x48; x86; xf7; x0d; x01; x07; x03].
Definition OID_PKCS7_DATA : list byte := [x2a; x86; x48; x86; xf7; x0d; x01; x07; x01].
Definition OID_RSAES_OAEP : list byte := [x2a; x86; x48; x86; xf7; x0d; x01; x01; x07].
Definition OID_MGF1 : list byte := [x2a; x86; x48; x86; xf7; x0d; x01; x01; x08].
Definition OID_PSPECIFIED : list byte := [x2a; x86; x48; x86; xf7; x0d; x01; x01; x09].
Definition OID_SHA256 : list byte := [x60; x86; x48; x01; x65; x03; x04; x02; x01].
Definition OID_AES_256_CBC : list byte := [x60; x86; x48; x01; x65; x03; x04; x01; x2a].

Record KmsRecipientEnvelope := mkEnvelope {
  encrypted_key : list byte;
  iv : list byte;
  ciphertext : list byte
}.

Record Tlv := mkTlv { tlv_tag : byte; tlv_content : list byte }.
Record Reader := mkReader { rd_input : list byte; rd_offset : N }.

Definition len (l : list byte) : N := N.of_nat (length l).

(** [input.get(i)], [input.get(a..b)] and [input[a..b]]. *)
Definition byte_at (input : list byte) (i : N) : option byte := input !! N.to_nat i.
Definition get_range (input : list byte) (a b : N) : option (list byte) :=
  if (a <=? b) && (b <=? len input) then Some (take (N.to_nat (b - a)) (drop (N.to_nat a) input)) else None.
Definition index_range (input : list byte) (a b : N) : outcome string (list byte) :=
  match get_range input a b with Some s => Ok s | None => Panic "range out of bounds for slice" end.

Definition high_tag (tag : byte) : bool := N.land (Byte.to_N tag) 0x1f =? 0x1f.
Definition is_primitive (tag : byte) : bool := N.land (Byte.to_N tag) 0x20 =? 0.

(** The loop that skips the elements of an indefinite-length content up to its
    end-of-contents octets; [nested] parses one element. *)
Fixpoint contents_end (nested : N → outcome string (Tlv * N)) (fuel : nat) (input : list byte)
    (cursor : N) : outcome string N :=
  match fuel with
  | O => Panic "out of fuel"
  | S fuel =>
      if bool_decide (get_range input cursor (cursor + 2) = Some [x00; x00]) then Ok cursor
      else '(_, nested_next) ← nested cursor; contents_end nested fuel input nested_next
  end.

Definition length_step (length : N) (b : byte) : outcome string N :=
  ok_or (length ← checked_mul length 256; checked_add length (Byte.to_N b)) "CMS_ASN1_OVERFLOW".
(** The content's length and the number of length octets. *)
Definition definite_length (input : list byte) (length_offset : N) (first : byte) :
    outcome string (N * N) :=
  let first := Byte.to_N first in
  if N.land first 0x80 =? 0 then Ok (first, 1)
  else
    let count := N.land first 0x7f in
    _ ← bail_if ((count =? 0) || (4 <? count)) "CMS_ASN1_LENGTH";
    length_bytes ← ok_or (get_range input (length_offset + 1) (length_offset + 1 + count)) "CMS_ASN1_EOF";
    match length_bytes with
    | [] => Panic "index out of bounds"
    | b :: _ =>
        _ ← bail_if (bool_decide (b = x00)) "CMS_ASN1_NON_MINIMAL_LENGTH";
        length ← fold_m length_step 0 length_bytes;
        Ok (length, 1 + count)
    end.

(** [parse_tlv_at] with [levels] levels of nesting left: [MAX_ASN1_DEPTH - depth]. *)
Fixpoint parse_tlv_from (levels : nat) (input : list byte) (offset : N) : outcome string (Tlv * N) :=
  match levels with
  | O => Err "CMS_ASN1_DEPTH_OR_EOF"
  | S levels =>
      tag ← ok_or (byte_at input offset) "CMS_ASN1_DEPTH_OR_EOF";
      _ ← bail_if (high_tag tag) "CMS_ASN1_HIGH_TAG";
      length_offset ← ok_or (checked_add offset 1) "CMS_ASN1_OVERFLOW";
      first ← ok_or (byte_at input length_offset) "CMS_ASN1_EOF";
      '(content_start, content_end, next) ←
        (if bool_decide (first = x80) then
           _ ← bail_if (is_primitive tag) "CMS_ASN1_INDEFINITE_PRIMITIVE";
           let content_start := length_offset + 1 in
           content_end ← contents_end (parse_tlv_from levels input) (S (length input)) input content_start;
           Ok (content_start, content_end, content_end + 2)
         else
           '(length, header_bytes) ← definite_length input length_offset first;
           content_start ← ok_or (checked_add length_offset header_bytes) "CMS_ASN1_OVERFLOW";
           content_end ← ok_or (checked_add content_start length) "CMS_ASN1_OVERFLOW";
           _ ← bail_if (len input <? content_end) "CMS_ASN1_EOF";
           Ok (content_start, content_end, content_end));
      content ← index_range input content_start content_end;
      Ok (mkTlv tag content, next)
  end.
Definition parse_tlv_at (input : list byte) (offset : N) (depth : nat) : outcome string (Tlv * N) :=
  parse_tlv_from (MAX_ASN1_DEPTH - depth) input offset.

(* ------------------------------------------------------------------ *)
(** ** [Reader] *)

Definition Reader_new (input : list byte) : Reader := mkReader input 0.
Definition is_empty (self : Reader) : bool := rd_offset self =? len (rd_input self).
Definition peek_tag (self : Reader) : option byte := byte_at (rd_input self) (rd_offset self).
Definition read (self : Reader) : outcome string (Tlv * Reader) :=
  '(value, next) ← parse_tlv_at (rd_input self) (rd_offset self) 0;
  Ok (value, mkReader (rd_input self) next).
Definition expect (tag : byte) (self : Reader) : outcome string (Tlv * Reader) :=
  '(value, self) ← read self;
  _ ← bail_if (negb (bool_decide (tlv_tag value = tag))) "CMS_ASN1_TAG";
  Ok (value, self).
(** [if !reader.is_empty() { return Err(e) }]. *)
Definition finish (self : Reader) (e : string) : outcome string unit := bail_if (negb (is_empty self)) e.

Definition expect_oid (expected : list byte) (reader : Reader) : outcome string Reader :=
  '(value, reader) ← expect x06 reader;
  _ ← bail_if (negb (bool_decide (tlv_content value = expected))) "CMS_OID";
  Ok reader.
Definition expect_version (expected : byte) (reader : Reader) : outcome string Reader :=
  '(value, reader) ← expect x02 reader;
  _ ← bail_if (negb (bool_decide (tlv_content value = [expected]))) "CMS_VERSION";
  Ok reader.

(* ------------------------------------------------------------------ *)
(** ** The ciphertext's octet strings *)

Fixpoint collect_loop (nested : list byte → list byte → outcome string (list byte)) (fuel : nat)
    (reader : Reader) (output : list byte) : outcome string (list byte) :=
  match fuel with
  | O => Panic "out of fuel"
  | S fuel =>
      if is_empty reader then Ok output
      else
        '(value, reader) ← read reader;
        output ← (if bool_decide (tlv_tag value ∈ [x04; x80]) then Ok (output ++ tlv_content value)
                  else if bool_decide (tlv_tag value ∈ [x24; xa0]) then nested (tlv_content value) output
                  else Err "CMS_ENCRYPTED_CONTENT_TAG");
        _ ← bail_if (MAX_CMS_BYTES <? len output) "CMS_ENCRYPTED_CONTENT_TOO_LARGE";
        collect_loop nested fuel reader output
  end.
(** [levels]: [MAX_ASN1_DEPTH - depth]. *)
Fixpoint collect_from (levels : nat) (input output : list byte) : outcome string (list byte) :=
  match levels with
  | O => Err "CMS_ASN1_DEPTH_OR_EOF"
  | S levels => collect_loop (collect_from levels) (S (length input)) (Reader_new input) output
  end.
Definition collect_octet_strings (input output : list byte) (depth : nat) : outcome string (list byte) :=
  collect_from (MAX_ASN1_DEPTH - depth) input output.

(* ------------------------------------------------------------------ *)
(** ** The document *)

Definition expect_sha256_algorithm_identifier (input : list byte) : outcome string unit :=
  algorithm ← expect_oid OID_SHA256 (Reader_new input);
  '(parameters, algorithm) ← expect x05 algorithm;
  bail_if (negb (len (tlv_content parameters) =? 0) || negb (is_empty algorithm))
    "CMS_OAEP_SHA256_PARAMETERS".

(** The optional label source: absent, or the empty label. *)
Definition expect_empty_label (parameters : Reader) : outcome string Reader :=
  if bool_decide (peek_tag parameters = Some xa2) then
    '(source_context, parameters) ← expect xa2 parameters;
    '(source_algorithm, source_context) ← expect x30 (Reader_new (tlv_content source_context));
    _ ← finish source_context "CMS_OAEP_SOURCE_TRAILING";
    source_algorithm ← expect_oid OID_PSPECIFIED (Reader_new (tlv_content source_algorithm));
    '(label, source_algorithm) ← expect x04 source_algorithm;
    _ ← bail_if (negb (len (tlv_content label) =? 0) || negb (is_empty source_algorithm))
          "CMS_OAEP_NONEMPTY_LABEL";
    Ok parameters
  else Ok parameters.

Definition expect_oaep_sha256_parameters (reader : Reader) : outcome string Reader :=
  '(parameters, reader) ← expect x30 reader;
  _ ← finish reader "CMS_OAEP_ALGORITHM_TRAILING";
  '(hash_context, parameters) ← expect xa0 (Reader_new (tlv_content parameters));
  '(hash_algorithm, hash_context) ← expect x30 (Reader_new (tlv_content hash_context));
  _ ← finish hash_context "CMS_OAEP_HASH_TRAILING";
  _ ← expect_sha256_algorithm_identifier (tlv_content hash_algorithm);
  '(mgf_context, parameters) ← expect xa1 parameters;
  '(mgf_algorithm, mgf_context) ← expect x30 (Reader_new (tlv_content mgf_context));
  _ ← finish mgf_context "CMS_OAEP_MGF_TRAILING";
  mgf_algorithm ← expect_oid OID_MGF1 (Reader_new (tlv_content mgf_algorithm));
  '(mgf_hash_algorithm, mgf_algorithm) ← expect x30 mgf_algorithm;
  _ ← finish mgf_algorithm "CMS_OAEP_MGF_PARAMETERS_TRAILING";
  _ ← expect_sha256_algorithm_identifier (tlv_content mgf_hash_algorithm);
  parameters ← expect_empty_label parameters;
  _ ← finish parameters "CMS_OAEP_PARAMETERS_TRAILING";
  Ok reader.

(** The one recipient: its encrypted key. *)
Definition parse_recipient (input : list byte) : outcome string (list byte) :=
  recipient ← expect_version x02 (Reader_new input);
  '(_, recipient) ← read recipient;
  '(key_algorithm, recipient) ← expect x30 recipient;
  key_algorithm ← expect_oid OID_RSAES_OAEP (Reader_new (tlv_content key_algorithm));
  _ ← expect_oaep_sha256_parameters key_algorithm;
  '(encrypted_key, recipient) ← expect x04 recipient;
  _ ← bail_if (negb (len (tlv_content encrypted_key) =? 256) || negb (is_empty recipient))
        "CMS_ENCRYPTED_KEY_LENGTH";
  Ok (tlv_content encrypted_key).

Fixpoint ciphertext_loop (fuel : nat) (reader : Reader) (ciphertext : list byte) :
    outcome string (list byte) :=
  match fuel with
  | O => Panic "out of fuel"
  | S fuel =>
      if is_empty reader then Ok ciphertext
      else
        '(value, reader) ← read reader;
        ciphertext ← (if bool_decide (tlv_tag value = x80) then Ok (ciphertext ++ tlv_content value)
                      else if bool_decide (tlv_tag value = xa0)
                      then collect_octet_strings (tlv_content value) ciphertext 0
                      else Err "CMS_ENCRYPTED_CONTENT_TAG");
        ciphertext_loop fuel reader ciphertext
  end.

(** The encrypted content: its IV and ciphertext. *)
Definition parse_encrypted_content (input : list byte) : outcome string (list byte * list byte) :=
  content ← expect_oid OID_PKCS7_DATA (Reader_new input);
  '(algorithm, content) ← expect x30 content;
  algorithm ← expect_oid OID_AES_256_CBC (Reader_new (tlv_content algorithm));
  '(iv, algorithm) ← expect x04 algorithm;
  _ ← bail_if (negb (len (tlv_content iv) =? 16) || negb (is_empty algorithm)) "CMS_IV_LENGTH";
  ciphertext ← ciphertext_loop (S (length input)) content [];
  _ ← bail_if ((len ciphertext =? 0) || negb (len ciphertext mod 16 =? 0) ||
               (MAX_CMS_BYTES <? len ciphertext)) "CMS_CIPHERTEXT_LENGTH";
  Ok (tlv_content iv, ciphertext).

Definition parse_kms_recipient_cms (input : list byte) : outcome string KmsRecipientEnvelope :=
  _ ← bail_if ((len input =? 0) || (MAX_CMS_BYTES <? len input)) "CMS_SIZE";
  '(outer, root) ← expect x30 (Reader_new input);
  _ ← finish root "CMS_TRAILING_DATA";
  content_info ← expect_oid OID_PKCS7_ENVELOPED_DATA (Reader_new (tlv_content outer));
  '(explicit, content_info) ← expect xa0 content_info;
  _ ← finish content_info "CMS_CONTENT_INFO_TRAILING";
  '(enveloped, explicit) ← expect x30 (Reader_new (tlv_content explicit));
  _ ← finish explicit "CMS_EXPLICIT_TRAILING";
  enveloped ← expect_version x02 (Reader_new (tlv_content enveloped));
  enveloped ← (if bool_decide (peek_tag enveloped = Some xa0)
               then '(_, enveloped) ← read enveloped; Ok enveloped else Ok enveloped);
  '(recipient_set, enveloped) ← expect x31 enveloped;
  '(recipient, recipient_set) ← expect x30 (Reader_new (tlv_content recipient_set));
  _ ← finish recipient_set "CMS_MULTIPLE_RECIPIENTS";
  encrypted_key ← parse_recipient (tlv_content recipient);
  '(encrypted_content_info, enveloped) ← expect x30 enveloped;
  _ ← finish enveloped "CMS_ENVELOPED_TRAILING";
  '(iv, ciphertext) ← parse_encrypted_content (tlv_content encrypted_content_info);
  Ok (mkEnvelope encrypted_key iv ciphertext).

(* ------------------------------------------------------------------ *)
(** ** Decryption *)

(** RSA-OAEP (SHA-256, MGF1-SHA-256, empty label) and AES-256-CBC with PKCS#7
    padding; [None] is the library's error. *)
Class EnvelopeCrypto := {
  PrivateDecryptingKey : Type;
  OaepKey : Type;
  oaep_new : PrivateDecryptingKey → option OaepKey;
  oaep_decrypt : OaepKey → list byte → option (list byte);
  CbcDecryptor : Type;
  cbc_new_from_slices : list byte → list byte → option CbcDecryptor;
  cbc_decrypt_padded : CbcDecryptor → list byte → option (list byte)
}.

Definition decrypt_kms_recipient_envelope `{EnvelopeCrypto} (private_key : PrivateDecryptingKey)
    (envelope : KmsRecipientEnvelope) : outcome string (list byte) :=
  private_key ← ok_or (oaep_new private_key) "RSA_UNWRAP_FAILED";
  symmetric_key ← ok_or (oaep_decrypt private_key (encrypted_key envelope)) "RSA_UNWRAP_FAILED";
  _ ← bail_if (negb (len symmetric_key =? 32) || negb (len (iv envelope) =? 16)) "CMS_KEY_OR_IV_LENGTH";
  decryptor ← ok_or (cbc_new_from_slices symmetric_key (iv envelope)) "CMS_KEY_OR_IV_LENGTH";
  ok_or (cbc_decrypt_padded decryptor (ciphertext envelope)) "CMS_CONTENT_DECRYPT_FAILED".
