(* ===== verification/CmsFacts.v ===== *)
(** * What the recipient-envelope parser accepts

    The grammar of BER elements and of the envelope documents, as predicates on byte
    strings, and the theorems that [Cms.parse_kms_recipient_cms] decides it and never
    panics. *)

From S2P Require Import Prelude Bytes Cms.
From Stdlib Require Import Strings.Byte.

Open Scope string_scope.
Open Scope N_scope.
Open Scope list_scope.

(* ------------------------------------------------------------------ *)
(** ** The grammar *)

(** [l] are length octets of [n]: one octet below 128, or one to four octets, the
    first not zero, after their number. *)
Definition is_length (l : list byte) (n : N) : Prop :=
  (∃ b, l = [b] ∧ Byte.to_N b < 128 ∧ n = Byte.to_N b) ∨
  (∃ c b rest, l = c :: b :: rest ∧ b ≠ x00 ∧ (length rest ≤ 3)%nat ∧
     Byte.to_N c = 129 + N.of_nat (length rest) ∧ n = from_bytes_be (b :: rest)).

(** [bytes] is an element with this tag and content, nested at most [levels] deep.
    The elements of an indefinite-length content are counted, for their end has to
    be found, and none of them is the end marker. *)
Fixpoint encodes (levels : nat) (tag : byte) (content bytes : list byte) : Prop :=
  match levels with
  | O => False
  | S levels =>
      high_tag tag = false ∧
      ((∃ l, is_length l (len content) ∧ bytes = tag :: l ++ content) ∨
       (is_primitive tag = false ∧ bytes = tag :: x80 :: content ++ [x00; x00] ∧
        ∃ es, content = concat es ∧
              Forall (fun e => e ≠ [x00; x00] ∧ ∃ t c, encodes levels t c e) es))
  end.

(** [input] is the elements with these tags and contents, one after the other. *)
Fixpoint elements (l : list (byte * list byte)) (input : list byte) : Prop :=
  match l with
  | [] => input = []
  | (tag, content) :: l =>
      ∃ bytes tail, input = bytes ++ tail ∧ encodes MAX_ASN1_DEPTH tag content bytes ∧ elements l tail
  end.

(** [output] is made of one piece for each element of [input]. *)
Definition pieces_of (piece : byte → list byte → list byte → Prop) (input output : list byte) : Prop :=
  ∃ l pieces, elements l input ∧ output = concat pieces ∧ Forall2 (fun e p => piece e.1 e.2 p) l pieces.
(** [output] is the content of the octet strings in [input], nested at most [levels] deep. *)
Fixpoint octet_strings (levels : nat) (input output : list byte) : Prop :=
  match levels with
  | O => False
  | S levels =>
      pieces_of (fun tag content piece =>
        (tag ∈ [x04; x80] ∧ piece = content) ∨ (tag ∈ [x24; xa0] ∧ octet_strings levels content piece))
        input output
  end.
(** A piece of the ciphertext: one octet string, or several in a container. *)
Definition ciphertext_piece (tag : byte) (content piece : list byte) : Prop :=
  (tag = x80 ∧ piece = content) ∨ (tag = xa0 ∧ octet_strings MAX_ASN1_DEPTH content piece).

Definition sha256_identifier (c : list byte) : Prop := elements [(x06, OID_SHA256); (x05, [])] c.
Definition empty_label (l : list (byte * list byte)) : Prop :=
  l = [] ∨ ∃ context source, l = [(xa2, context)] ∧ elements [(x30, source)] context ∧
                             elements [(x06, OID_PSPECIFIED); (x04, [])] source.
Definition oaep_sha256 (parameters : list byte) : Prop :=
  ∃ hash_context hash mgf_context mgf mgf_hash label,
    elements ([(xa0, hash_context); (xa1, mgf_context)] ++ label) parameters ∧
    elements [(x30, hash)] hash_context ∧ sha256_identifier hash ∧
    elements [(x30, mgf)] mgf_context ∧
    elements [(x06, OID_MGF1); (x30, mgf_hash)] mgf ∧ sha256_identifier mgf_hash ∧
    empty_label label.
(** The recipient: version 2, its identifier (unread), the key algorithm, the key. *)
Definition recipient_info (c key : list byte) : Prop :=
  ∃ tag id algorithm parameters,
    elements [(x02, [x02]); (tag, id); (x30, algorithm); (x04, key)] c ∧
    elements [(x06, OID_RSAES_OAEP); (x30, parameters)] algorithm ∧
    oaep_sha256 parameters ∧ len key = 256.
(** The content: AES-256-CBC, its IV, and the ciphertext in one or more pieces. *)
Definition content_info (c iv ciphertext : list byte) : Prop :=
  ∃ algorithm chunks pieces,
    elements ([(x06, OID_PKCS7_DATA); (x30, algorithm)] ++ chunks) c ∧
    elements [(x06, OID_AES_256_CBC); (x04, iv)] algorithm ∧ len iv = 16 ∧
    Forall2 (fun e piece => ciphertext_piece e.1 e.2 piece) chunks pieces ∧
    ciphertext = concat pieces ∧
    0 < len ciphertext ∧ len ciphertext mod 16 = 0 ∧ len ciphertext ≤ MAX_CMS_BYTES.
Definition envelope_document (input : list byte) (envelope : KmsRecipientEnvelope) : Prop :=
  ∃ outer explicit enveloped originator recipient_set recipient content,
    len input ≤ MAX_CMS_BYTES ∧ elements [(x30, outer)] input ∧
    elements [(x06, OID_PKCS7_ENVELOPED_DATA); (xa0, explicit)] outer ∧
    elements [(x30, enveloped)] explicit ∧
    elements ([(x02, [x02])] ++ originator ++ [(x31, recipient_set); (x30, content)]) enveloped ∧
    (originator = [] ∨ ∃ c, originator = [(xa0, c)]) ∧
    elements [(x30, recipient)] recipient_set ∧
    recipient_info recipient (encrypted_key envelope) ∧
    content_info content (iv envelope) (ciphertext envelope).

(* ------------------------------------------------------------------ *)
(** ** Slices *)

(** The input from an offset on. *)
Definition from (input : list byte) (offset : N) : list byte := drop (N.to_nat offset) input.

Lemma len_app l k : len (l ++ k) = len l + len k.
Proof. unfold len. rewrite length_app. lia. Qed.
Lemma len_nil : len [] = 0.
Proof. done. Qed.
Lemma len_cons b l : len (b :: l) = 1 + len l.
Proof. unfold len. simpl. lia. Qed.
Lemma len_from input offset : len (from input offset) = len input - offset.
Proof. unfold len, from. rewrite length_drop. lia. Qed.
Lemma from_from input a b : from (from input a) b = from input (a + b).
Proof. unfold from. rewrite drop_drop. f_equal. lia. Qed.
Lemma from_app input offset l k : from input offset = l ++ k → from input (offset + len l) = k.
Proof.
  intros E. rewrite <- from_from, E. unfold from, len. by rewrite Nat2N.id, drop_app_length.
Qed.
Lemma from_end input offset : offset ≤ len input → (from input offset = [] ↔ offset = len input).
Proof.
  intros Hle. split; intros H.
  - apply (f_equal len) in H. rewrite len_from, len_nil in H. lia.
  - apply nil_length_inv. subst. unfold from, len. rewrite length_drop. lia.
Qed.
Lemma byte_at_from input offset : byte_at input offset = head (from input offset).
Proof.
  unfold byte_at, from. rewrite <- (Nat.add_0_r (N.to_nat offset)) at 1.
  rewrite <- lookup_drop. by destruct (drop _ _).
Qed.
Lemma get_range_from input a n s :
  get_range input a (a + n) = Some s ↔ ∃ k, from input a = s ++ k ∧ len s = n ∧ a + n ≤ len input.
Proof.
  unfold get_range. destruct (_ && _) eqn:Ec; split; intros H; try done.
  - apply andb_prop in Ec as [_ Hle%N.leb_le]. simplify_eq.
    exists (drop (N.to_nat n) (from input a)). unfold from, len in *.
    replace (a + n - a) with n by lia. rewrite take_drop. split; [done|].
    rewrite length_take, length_drop. lia.
  - destruct H as (k & E & Hn & Hle). f_equal. fold (from input a). rewrite E.
    replace (N.to_nat (a + n - a)) with (length s) by (unfold len in Hn; lia). by rewrite take_app_length.
  - exfalso. destruct H as (k & E & Hn & Hle).
    apply not_true_iff_false in Ec. apply Ec. apply andb_true_intro. rewrite !N.leb_le. lia.
Qed.

(* ------------------------------------------------------------------ *)
(** ** Length octets *)

Lemma short_form b : (N.land (Byte.to_N b) 0x80 =? 0) = (Byte.to_N b <? 128).
Proof. by destruct b. Qed.
Lemma long_form_count b : 128 ≤ Byte.to_N b → N.land (Byte.to_N b) 0x7f = Byte.to_N b - 128.
Proof. destruct b; solve [reflexivity | intros []; reflexivity]. Qed.
Lemma to_N_x80 b : b ≠ x80 → Byte.to_N b ≠ 128.
Proof. destruct b; done. Qed.
Lemma byte_lt b : Byte.to_N b < 256.
Proof. by destruct b. Qed.

Lemma fold_length l : (length l ≤ 4)%nat → fold_m length_step 0 l = Ok (from_bytes_be l).
Proof.
  induction l as [|b l IH] using rev_ind; intros Hl; [done|].
  rewrite length_app in Hl; simpl in Hl.
  assert (from_bytes_be l < 256 ^ 3).
  { eapply N.lt_le_trans; [apply from_bytes_be_lt|]. apply N.pow_le_mono_r; lia. }
  pose proof (byte_lt b). change (256 ^ 3) with 16777216 in *.
  rewrite fold_m_snoc, IH, from_bytes_be_snoc by lia. simpl. unfold length_step.
  assert (checked_mul (from_bytes_be l) 256 = Some (from_bytes_be l * 256)) as E1.
  { unfold checked_mul, u64_max. by rewrite (proj2 (N.leb_le _ _)) by lia. }
  assert (checked_add (from_bytes_be l * 256) (Byte.to_N b) = Some (from_bytes_be l * 256 + Byte.to_N b)) as E2.
  { apply checked_add_Some. unfold u64_max. lia. }
  rewrite E1. simpl. by rewrite E2.
Qed.

Lemma definite_length_spec input offset first n h :
  byte_at input offset = Some first → first ≠ x80 →
  definite_length input offset first = Ok (n, h) ↔
  ∃ l tail, from input offset = l ++ tail ∧ is_length l n ∧ len l = h.
Proof.
  intros Hf Hn. rewrite byte_at_from in Hf. pose proof (to_N_x80 _ Hn) as H80.
  unfold definite_length. rewrite short_form.
  destruct (from input offset) as [|f tail] eqn:Ef; simplify_eq/=.
  destruct (N.ltb_spec (Byte.to_N first) 128) as [Hs|Hs]; split.
  - intros [= <- <-]. exists [first], tail. split_and!; [done| |done]. left. by exists first.
  - intros (l & k & E & [(b & -> & Hb & ->)|(c & b & rest & -> & _ & _ & Hc & _)] & <-); simplify_eq/=;
      [done|lia].
  - intros H. rewrite long_form_count in H by lia. inv_all_ok.
    rename select (_ || _ = false) into Hc. apply orb_false_elim in Hc as [Hz%N.eqb_neq Hle%N.ltb_ge].
    rename select (get_range _ _ _ = _) into Hg. apply get_range_from in Hg as (k & E & Hlen & _).
    pose proof (from_app input offset [first] tail Ef) as E1.
    change (len [first]) with 1 in E1. rewrite E1 in E. subst tail.
    rename select (match _ with [] => _ | _ => _ end = _) into H.
    destruct x0 as [|b rest]; [done|]. inv_all_ok.
    rewrite bool_decide_eq_false in *. rewrite len_cons in Hlen. unfold len in Hlen.
    rename select (fold_m _ _ _ = _) into Hfold. rewrite fold_length in Hfold by (simpl; lia). simplify_eq.
    exists (first :: b :: rest), k. split_and!; [done| |rewrite !len_cons; unfold len; lia].
    right. exists first, b, rest. split_and!; [done|done|lia|lia|done].
  - intros (l & k & E & [(b & -> & Hb & ->)|(c & b & rest & -> & Hb & Hr & Hc & ->)] & <-); simplify_eq/=; [lia|].
    rewrite long_form_count, Hc by lia.
    rewrite (proj2 (N.eqb_neq _ _)), (proj2 (N.ltb_ge _ _)) by lia. simpl.
    assert (get_range input (offset + 1) (offset + 1 + (129 + N.of_nat (length rest) - 128)) = Some (b :: rest)) as ->.
    { pose proof (from_app input offset [c] (b :: rest ++ k) Ef) as E1.
      change (len [c]) with 1 in E1.
      assert (offset < len input).
      { pose proof (len_from input offset) as Hlf. rewrite Ef, len_cons in Hlf. lia. }
      apply get_range_from. exists k. split_and!; [done|rewrite len_cons; unfold len; lia|].
      pose proof (len_from input offset) as Hlf. rewrite Ef, !len_cons, len_app in Hlf. unfold len in *. lia. }
    simpl ok_or. simpl. rewrite bool_decide_eq_false_2 by done. simpl.
    pose proof (fold_length (b :: rest)) as Hfold. simpl in Hfold. rewrite Hfold by lia. simpl. f_equal. f_equal.
    rewrite !len_cons. unfold len. lia.
Qed.

(* ------------------------------------------------------------------ *)
(** ** Elements *)

Lemma is_length_len l n : is_length l n → 1 ≤ len l ≤ 5.
Proof.
  intros [(b & -> & _)|(c & b & rest & -> & _ & Hr & _)]; rewrite !len_cons; unfold len; simpl; lia.
Qed.
Lemma is_length_first l n : is_length l n → ∃ f k, l = f :: k ∧ f ≠ x80 ∧ (f = x00 → k = [] ∧ n = 0).
Proof.
  intros [(b & -> & Hb & ->)|(c & b & rest & -> & _ & Hr & Hc & _)].
  - exists b, []. split_and!; [done| |]; intros ->; done.
  - exists c, (b :: rest). split_and!; [done| |]; intros ->; simpl in Hc; lia.
Qed.
Lemma encodes_len levels tag content bytes : encodes levels tag content bytes → 2 ≤ len bytes.
Proof.
  destruct levels; [done|]. intros (_ & [(l & Hl%is_length_len & ->)|(_ & -> & _)]);
    rewrite !len_cons, ?len_app; lia.
Qed.
(** Only the end marker starts with two zero octets. *)
Lemma encodes_not_end levels tag content bytes tail :
  encodes levels tag content bytes → bytes ≠ [x00; x00] → get_range (bytes ++ tail) 0 2 ≠ Some [x00; x00].
Proof.
  destruct levels; [done|]. intros (_ & [(l & Hl & ->)|(_ & -> & _)]) Hne Hg.
  - pose proof (is_length_first _ _ Hl) as (f & k & -> & _ & H0).
    apply (get_range_from _ 0 2) in Hg as (k' & E & _). unfold from in E. simpl in E. simplify_eq.
    destruct H0 as [-> Hc]; [done|]. unfold len in Hc. by destruct content.
  - apply (get_range_from _ 0 2) in Hg as (k' & E & _). unfold from in E. simpl in E. simplify_eq.
Qed.

(** The element [t] stands at [o] and ends before [next]. *)
Definition element_at (levels : nat) (input : list byte) (o : N) (t : Tlv) (next : N) : Prop :=
  next ≤ len input ∧
  ∃ bytes, from input o = bytes ++ from input next ∧ next = o + len bytes ∧
           encodes levels (tlv_tag t) (tlv_content t) bytes.

Lemma get_range_end input cursor : get_range input cursor (cursor + 2) = Some [x00; x00] ↔
  ∃ k, from input cursor = [x00; x00] ++ k ∧ cursor + 2 ≤ len input.
Proof. rewrite get_range_from. naive_solver. Qed.

Lemma contents_end_sound levels fuel input : ∀ cursor e,
  (∀ o t next, o ≤ len input → parse_tlv_from levels input o = Ok (t, next) → element_at levels input o t next) →
  cursor ≤ len input → contents_end (parse_tlv_from levels input) fuel input cursor = Ok e →
  e + 2 ≤ len input ∧
  ∃ es, from input cursor = concat es ++ [x00; x00] ++ from input (e + 2) ∧ e = cursor + len (concat es) ∧
        Forall (fun e => e ≠ [x00; x00] ∧ ∃ t c, encodes levels t c e) es.
Proof.
  induction fuel as [|fuel IH]; intros cursor e Hn Hle H; [done|]. simpl in H.
  case_bool_decide as Hg.
  - simplify_eq. apply get_range_end in Hg as (k & E & Hk). split; [done|].
    exists []. simpl. rewrite len_nil. split_and!; [|lia|done].
    rewrite E. simpl. do 2 f_equal. symmetry. apply (from_app input e [x00; x00]). done.
  - inv_all_ok. destruct x as [t next]. apply Hn in H0 as (Hnext & bytes & E & -> & Henc); [|done].
    apply IH in H as (He & es & E2 & -> & Hes); [|done..]. split; [done|].
    exists (bytes :: es). change (concat (bytes :: es)) with (bytes ++ concat es).
    rewrite len_app, <- app_assoc, <- E2. split_and!; [done|lia|].
    constructor; [|done]. split; [|eauto]. intros ->. apply Hg, get_range_end. eexists.
    split; [exact E|]. change (len [x00; x00]) with 2 in Hnext. lia.
Qed.

Lemma concat_len_ge es n : Forall (fun e => n ≤ len e) es → n * N.of_nat (length es) ≤ len (concat es).
Proof. induction 1; simpl; [rewrite len_nil; lia|]. rewrite len_app. lia. Qed.

Lemma contents_end_complete levels input tail : ∀ es fuel cursor,
  (∀ o t c bytes k, from input o = bytes ++ k → encodes levels t c bytes →
     parse_tlv_from levels input o = Ok (mkTlv t c, o + len bytes)) →
  from input cursor = concat es ++ [x00; x00] ++ tail → (length es < fuel)%nat →
  Forall (fun e => e ≠ [x00; x00] ∧ ∃ t c, encodes levels t c e) es →
  contents_end (parse_tlv_from levels input) fuel input cursor = Ok (cursor + len (concat es)).
Proof.
  induction es as [|e es IH]; intros fuel cursor Hn E Hf Hes; (destruct fuel as [|fuel]; [simpl in Hf; lia|]); simpl.
  - rewrite bool_decide_eq_true_2; [rewrite len_nil; f_equal; lia|].
    apply get_range_end. exists tail. split; [done|].
    pose proof (len_from input cursor) as Hl. rewrite E in Hl. simpl in Hl. rewrite !len_cons in Hl. lia.
  - apply Forall_cons in Hes as [(Hne & t & c & Henc) Hes]. simpl in E. rewrite <- app_assoc in E.
    rewrite bool_decide_eq_false_2.
    + rewrite (Hn _ _ _ _ _ E Henc). simpl. rewrite (IH fuel); [|done|by apply (from_app _ _ e)|simpl in Hf; lia|done].
      rewrite len_app. f_equal. lia.
    + intros Hg%get_range_end. destruct Hg as (k & E2 & _). rewrite E in E2.
      apply (encodes_not_end _ _ _ _ (concat es ++ [x00; x00] ++ tail) Henc Hne).
      apply (get_range_end _ 0). exists k. split; [exact E2|].
      rewrite len_app. pose proof (encodes_len _ _ _ _ Henc). lia.
Qed.

Lemma from_head input o tag : byte_at input o = Some tag → from input o = tag :: from input (o + 1).
Proof.
  rewrite byte_at_from. intros Hh. destruct (from input o) as [|b k] eqn:E; simplify_eq/=.
  f_equal. symmetry. by apply (from_app input o [tag]).
Qed.
Lemma index_range_ok input a b c : index_range input a b = Ok c → a ≤ b →
  b ≤ len input ∧ from input a = c ++ from input b ∧ len c = b - a.
Proof.
  unfold index_range. intros H Hab. destruct (get_range input a b) as [s|] eqn:E; simplify_eq.
  replace b with (a + (b - a)) in E by lia. apply get_range_from in E as (k & E & Hl & Hle).
  split; [lia|]. split; [|done]. rewrite E. f_equal. symmetry.
  replace b with (a + len c) by lia. by apply from_app.
Qed.
Lemma index_range_from input a c k : from input a = c ++ k → a ≤ len input →
  index_range input a (a + len c) = Ok c.
Proof.
  intros E Ha. unfold index_range. rewrite (proj2 (get_range_from input a (len c) c)); [done|].
  exists k. split_and!; [done..|]. pose proof (len_from input a) as Hl. rewrite E, len_app in Hl. lia.
Qed.

Lemma parse_tlv_sound levels input : ∀ o t next,
  o ≤ len input → parse_tlv_from levels input o = Ok (t, next) → element_at levels input o t next.
Proof.
  induction levels as [|levels IH]; intros o t next Ho H; [done|]. cbn [parse_tlv_from] in H.
  apply bind_ok in H as (tag & Htag%ok_or_ok & H). apply bind_ok in H as ([] & Hhigh%bail_if_ok & H).
  apply bind_ok in H as (o1 & Ho1%ok_or_ok%checked_add_Some & H). destruct Ho1 as [-> _].
  apply bind_ok in H as (first & Hfirst%ok_or_ok & H). apply bind_ok in H as ([[start stop] next'] & Hc & H).
  apply bind_ok in H as (content & Hr & H). simplify_eq. pose proof (from_head _ _ _ Htag) as E.
  case_bool_decide as Hf.
  - subst first. apply bind_ok in Hc as ([] & Hp%bail_if_ok & Hc). apply bind_ok in Hc as (stop' & Hc & Heq).
    simplify_eq. pose proof (from_head _ _ _ Hfirst) as E1.
    apply contents_end_sound in Hc as (Hle & es & E2 & -> & Hes); [|exact IH|].
    2: { pose proof (len_from input (o + 1)) as Hl. rewrite E1, len_cons in Hl. lia. }
    apply index_range_ok in Hr as (_ & E3 & Hl); [|lia]. split; [done|].
    rewrite E2 in E3. apply app_inj_1 in E3 as [<- E3]; [|unfold len in Hl; lia].
    exists (tag :: x80 :: concat es ++ [x00; x00]). rewrite E, E1, E2. split_and!.
    + rewrite <- !app_comm_cons, <- app_assoc. done.
    + rewrite !len_cons, len_app. change (len [x00; x00]) with 2. lia.
    + simpl. split; [done|]. right. split_and!; [done..|]. by exists es.
  - apply bind_ok in Hc as ([n h] & Hd & Hc). apply definite_length_spec in Hd as (l & k & E1 & Hl & <-); [|done..].
    apply bind_ok in Hc as (a & Ha%ok_or_ok%checked_add_Some & Hc). destruct Ha as [-> _].
    apply bind_ok in Hc as (b & Hb%ok_or_ok%checked_add_Some & Hc). destruct Hb as [-> _].
    apply bind_ok in Hc as ([] & Hle%bail_if_ok%N.ltb_ge & Hc). simplify_eq.
    apply index_range_ok in Hr as (_ & E3 & Hlen); [|lia]. split; [done|].
    rewrite (from_app _ _ _ _ E1) in E3. subst k.
    exists (tag :: l ++ content). rewrite E, E1. split_and!.
    + by rewrite <- app_comm_cons, <- app_assoc.
    + rewrite len_cons, len_app. lia.
    + simpl. split; [done|]. left. exists l. split; [|done]. by replace (len content) with n by lia.
Qed.
#[local] Arguments contents_end : simpl never.

Lemma parse_tlv_complete levels input : len input < 2 ^ 63 → ∀ o t c bytes k,
  from input o = bytes ++ k → encodes levels t c bytes →
  parse_tlv_from levels input o = Ok (mkTlv t c, o + len bytes).
Proof.
  intros Hmax. induction levels as [|levels IH]; intros o t c bytes k E Henc; [done|].
  pose proof (encodes_len _ _ _ _ Henc) as Hlen2.
  assert (o + len bytes ≤ len input) as Hbound.
  { pose proof (len_from input o) as Hl. rewrite E, len_app in Hl. lia. }
  assert (∀ x, x ≤ len input → ∀ y z, x = y + z → checked_add y z = Some x) as Hadd.
  { intros x Hx y z ->. apply checked_add_Some. unfold u64_max. split; [done|]. lia. }
  destruct Henc as (Hh & Hcases). cbn [parse_tlv_from].
  assert (∃ f tl, bytes = t :: f :: tl) as (f & tl & Hb).
  { destruct Hcases as [(l & Hl & ->)|(_ & -> & _)]; [|eauto].
    destruct (is_length_first _ _ Hl) as (f & l' & -> & _). by exists f, (l' ++ c). }
  assert (byte_at input o = Some t) as Ht by (rewrite byte_at_from, E, Hb; done).
  pose proof (from_head _ _ _ Ht) as E0.
  assert (from input (o + 1) = (f :: tl) ++ k) as E1.
  { rewrite E, Hb in E0. simpl in E0. by simplify_eq. }
  assert (byte_at input (o + 1) = Some f) as Hf by (rewrite byte_at_from, E1; done).
  rewrite Ht. simpl. rewrite Hh. simpl. rewrite (Hadd (o + 1)) by lia. simpl. rewrite Hf. simpl.
  destruct Hcases as [(l & Hl & ->)|(Hp & -> & es & -> & Hes)].
  - destruct (is_length_first _ _ Hl) as (f' & l' & -> & Hne & _). simpl in Hb. simplify_eq.
    rewrite bool_decide_eq_false_2 by done.
    assert (definite_length input (o + 1) f = Ok (len c, len (f :: l'))) as ->.
    { apply definite_length_spec; [done..|]. exists (f :: l'), (c ++ k). split_and!; [|done..].
      rewrite E1. by rewrite <- app_comm_cons, <- app_assoc. }
    simpl. rewrite !len_cons, len_app, len_cons in *.
    rewrite (Hadd (o + 1 + (1 + len l'))) by lia. simpl.
    rewrite (Hadd (o + 1 + (1 + len l') + len c)) by lia. simpl.
    rewrite (proj2 (N.ltb_ge _ _)) by lia. simpl.
    rewrite (index_range_from _ _ c k); [simpl; do 2 f_equal; lia| |lia].
    rewrite <- len_cons with (b := f). apply from_app. rewrite E1. simpl. by rewrite <- app_assoc.
  - simplify_eq. rewrite bool_decide_eq_true_2, Hp by done. simpl.
    assert (from input (o + 1 + 1) = concat es ++ [x00; x00] ++ k) as E2.
    { apply (from_app input (o + 1) [x80]). rewrite E1. simpl. f_equal. by rewrite <- app_assoc. }
    rewrite !len_cons, len_app in *. change (len [x00; x00]) with 2 in *.
    assert (length es < S (length input))%nat as Hfuel.
    { pose proof (concat_len_ge es 2) as Hge. unfold len in *.
      cut (2 * N.of_nat (length es) ≤ N.of_nat (length (concat es))); [lia|]. apply Hge.
      eapply Forall_impl; [exact Hes|]. intros e (_ & t' & c & He). exact (encodes_len _ _ _ _ He). }
    rewrite (contents_end_complete levels input k es); [|exact IH|done|done|done]. simpl.
    rewrite (index_range_from _ _ (concat es) _ E2); [simpl; do 2 f_equal; lia|lia].
Qed.

(** Parsing never panics: no index is out of range, and the fuel of the skipping
    loop suffices, for every element it skips is at least two octets. *)
Lemma contents_end_no_panic levels input fuel : ∀ cursor,
  (∀ o, no_panic (parse_tlv_from levels input o)) → cursor ≤ len input →
  len input - cursor < N.of_nat fuel → no_panic (contents_end (parse_tlv_from levels input) fuel input cursor).
Proof.
  induction fuel as [|fuel IH]; intros cursor Hn Hle Hf; [lia|]. simpl contents_end. unfold contents_end; fold contents_end.
  case_bool_decide; [apply no_panic_Ok|]. apply no_panic_bind; [done|]. intros [t next] Hp.
  apply parse_tlv_sound in Hp as (Hnext & bytes & _ & -> & Henc); [|done].
  apply encodes_len in Henc. apply IH; [done|lia|lia].
Qed.
Lemma definite_length_no_panic input offset first : no_panic (definite_length input offset first).
Proof.
  unfold definite_length. destruct (_ =? 0) eqn:E1; [apply no_panic_Ok|].
  destruct ((_ || _) : bool) eqn:E2; [done|]. simpl.
  apply orb_false_elim in E2 as [Hz%N.eqb_neq _].
  destruct (get_range _ _ _) as [[|b l]|] eqn:Eg; simpl; [|solve_no_panic|apply no_panic_Err].
  apply get_range_from in Eg as (k & _ & Hl & _). rewrite len_nil in Hl. lia.
Qed.
Lemma parse_tlv_no_panic levels input o : no_panic (parse_tlv_from levels input o).
Proof.
  revert o. induction levels as [|levels IH]; intros o; [apply no_panic_Err|]. cbn [parse_tlv_from].
  apply no_panic_bind; [apply no_panic_ok_or|]. intros tag Htag%ok_or_ok.
  apply no_panic_bind; [apply no_panic_bail_if|]. intros _ _.
  apply no_panic_bind; [apply no_panic_ok_or|]. intros o1 Ho1%ok_or_ok.
  apply no_panic_bind; [apply no_panic_ok_or|]. intros first Hfirst%ok_or_ok.
  assert (o1 + 1 ≤ len input) as Hle.
  { unfold byte_at in Hfirst. apply lookup_lt_Some in Hfirst. unfold len. lia. }
  apply no_panic_bind.
  - case_bool_decide.
    + apply no_panic_bind; [apply no_panic_bail_if|]. intros _ _.
      apply no_panic_bind; [|intros; apply no_panic_Ok].
      apply contents_end_no_panic; [done|done|unfold len; lia].
    + apply no_panic_bind; [apply definite_length_no_panic|]. intros [n h] _. solve_no_panic.
  - intros [[start stop] next] Hc. apply no_panic_bind; [|intros; apply no_panic_Ok].
    assert (start ≤ stop ∧ stop ≤ len input) as [H1' H2'].
    { case_bool_decide; inv_all_ok.
      - rename select (contents_end _ _ _ _ = _) into Hend.
        apply contents_end_sound in Hend as (? & es & _ & -> & _); [lia| |done].
        intros. by apply parse_tlv_sound.
      - destruct x as [n h]. inv_all_ok. rename select ((_ <? _) = false) into Hl. apply N.ltb_ge in Hl.
        repeat match goal with H : checked_add _ _ = Some _ |- _ => apply checked_add_Some in H as [-> _] end.
        lia. }
    unfold index_range, get_range. apply N.leb_le in H1', H2'.
    by rewrite H1', H2'.
Qed.

(* ------------------------------------------------------------------ *)
(** ** Readers *)

#[local] Arguments encodes : simpl never.
#[local] Arguments elements : simpl never.

Definition small (l : list byte) : Prop := len l < 2 ^ 63.
Definition reader_wf (r : Reader) : Prop := rd_offset r ≤ len (rd_input r) ∧ small (rd_input r).
Definition unread (r : Reader) : list byte := from (rd_input r) (rd_offset r).

Lemma reader_new input : small input → reader_wf (Reader_new input) ∧ unread (Reader_new input) = input.
Proof. intros Hs. split; [split; [|done]|done]. unfold Reader_new. simpl. lia. Qed.
Lemma reader_new_wf input : small input → reader_wf (Reader_new input).
Proof. apply reader_new. Qed.
Lemma is_empty_spec r : reader_wf r → is_empty r = bool_decide (unread r = []).
Proof.
  intros [Hle _]. unfold is_empty, unread. apply eq_true_iff_eq. rewrite N.eqb_eq, bool_decide_eq_true.
  symmetry. by apply from_end.
Qed.
Lemma finish_ok r e u : reader_wf r → finish r e = Ok u ↔ unread r = [].
Proof. intros Hw. unfold finish. rewrite bail_if_ok, is_empty_spec by done. by case_bool_decide. Qed.
Lemma encodes_content levels t c bytes : encodes levels t c bytes → len c ≤ len bytes.
Proof.
  destruct levels; [done|]. intros (_ & [(l & _ & ->)|(_ & -> & _)]); rewrite !len_cons, len_app; lia.
Qed.
Lemma elements_small t c l input : small input → elements ((t, c) :: l) input → small c.
Proof.
  intros Hs (bytes & tail & -> & Hc%encodes_content & _). unfold small in *. rewrite len_app in Hs. lia.
Qed.
Lemma elements_count l input : elements l input → 2 * N.of_nat (length l) ≤ len input.
Proof.
  revert input. induction l as [|[t c] l IH]; intros input; [intros ->; done|].
  intros (bytes & tail & -> & Hc%encodes_len & Hl%IH). rewrite len_app. simpl length. lia.
Qed.
Lemma unread_small r : reader_wf r → small (unread r).
Proof. intros [_ Hs]. unfold small, unread in *. rewrite len_from. lia. Qed.

Lemma read_sound r t r' : reader_wf r → read r = Ok (t, r') →
  reader_wf r' ∧ small (tlv_content t) ∧ len (unread r') + 2 ≤ len (unread r) ∧
  ∀ l, elements l (unread r') → elements ((tlv_tag t, tlv_content t) :: l) (unread r).
Proof.
  intros [Hle Hs] H. unfold read in H. inv_all_ok. destruct x as [v next]. simplify_eq.
  apply parse_tlv_sound in H0 as (Hnext & bytes & E & -> & Henc); [|done]. unfold reader_wf, unread. simpl.
  pose proof (encodes_content _ _ _ _ Henc). pose proof (encodes_len _ _ _ _ Henc).
  rewrite E, len_app. unfold small in *. split_and!; [done|done|lia|lia|].
  intros l Hl. by exists bytes, (from (rd_input r) (rd_offset r + len bytes)).
Qed.
Lemma read_complete r t c l : reader_wf r → elements ((t, c) :: l) (unread r) →
  ∃ r', read r = Ok (mkTlv t c, r') ∧ reader_wf r' ∧ elements l (unread r').
Proof.
  intros [Hle Hs] (bytes & tail & E & Henc & Hl). unfold read, parse_tlv_at.
  change (MAX_ASN1_DEPTH - 0)%nat with MAX_ASN1_DEPTH.
  rewrite (parse_tlv_complete _ _ Hs _ _ _ _ _ E Henc). simpl. eexists. split; [done|].
  unfold reader_wf, unread. simpl. rewrite (from_app _ _ _ _ E). split; [|done].
  unfold unread in E. pose proof (len_from (rd_input r) (rd_offset r)) as Hf. rewrite E, len_app in Hf.
  pose proof (encodes_len _ _ _ _ Henc). split; [lia|done].
Qed.
Lemma read_no_panic r : no_panic (read r).
Proof. apply no_panic_bind; [apply parse_tlv_no_panic|]. intros [? ?] _. apply no_panic_Ok. Qed.

Lemma expect_sound tag r t r' : reader_wf r → expect tag r = Ok (t, r') →
  reader_wf r' ∧ small (tlv_content t) ∧
  ∀ l, elements l (unread r') → elements ((tag, tlv_content t) :: l) (unread r).
Proof.
  intros Hw H. unfold expect in H. inv_all_ok. destruct x as [v r2]. inv_all_ok.
  apply negb_false_iff, bool_decide_eq_true in H1. subst tag.
  apply read_sound in H0 as (? & ? & _ & ?); [|done]. done.
Qed.
Lemma expect_complete tag c l r : reader_wf r → elements ((tag, c) :: l) (unread r) →
  ∃ r', expect tag r = Ok (mkTlv tag c, r') ∧ reader_wf r' ∧ small c ∧ elements l (unread r').
Proof.
  intros Hw He. destruct (read_complete _ _ _ _ Hw He) as (r' & Hr & Hw' & Hl). exists r'.
  unfold expect. rewrite Hr. simpl. rewrite bool_decide_eq_true_2 by done.
  split_and!; [done..| |done]. by apply (elements_small tag c l (unread r)); [apply unread_small|].
Qed.
Lemma expect_no_panic tag r : no_panic (expect tag r).
Proof. apply no_panic_bind; [apply read_no_panic|]. intros [? ?] _. solve_no_panic. Qed.

Lemma peek_element r t c l : reader_wf r → elements ((t, c) :: l) (unread r) → peek_tag r = Some t.
Proof.
  intros _ (bytes & tail & E & Henc & _). unfold peek_tag. rewrite byte_at_from. fold (unread r). rewrite E.
  destruct Henc as (_ & [(l' & _ & ->)|(_ & -> & _)]); done.
Qed.
Lemma peek_end r : unread r = [] → peek_tag r = None.
Proof. intros E. unfold peek_tag. rewrite byte_at_from. fold (unread r). by rewrite E. Qed.

(* ------------------------------------------------------------------ *)
(** ** The fixed parts *)

(** [inv_expect H]: what a successful [expect] has read. *)
Ltac inv_expect H w s e :=
  apply expect_sound in H; [destruct H as (w & s & e)|solve [done | by apply reader_new_wf]].
(** The next [expect] of the goal reads the first element of [He]. *)
Ltac run_expect He r w s :=
  let E := fresh in
  lazymatch type of He with
  | elements _ (unread _) => idtac
  | elements ?l ?c => change (elements l (unread (Reader_new c))) in He
  end;
  apply expect_complete in He; [destruct He as (r & E & w & s & He); rewrite E; clear E; simpl|
                                solve [done | by apply reader_new_wf]].

Lemma expect_oid_sound oid r r' : reader_wf r → expect_oid oid r = Ok r' →
  reader_wf r' ∧ ∀ l, elements l (unread r') → elements ((x06, oid) :: l) (unread r).
Proof.
  intros Hw H. unfold expect_oid in H. inv_all_ok. destruct x as [v r2]. inv_all_ok. inv_expect H0 Hw' Hs He.
  apply negb_false_iff, bool_decide_eq_true in H1. by rewrite <- H1.
Qed.
Lemma expect_oid_complete oid l r : reader_wf r → elements ((x06, oid) :: l) (unread r) →
  ∃ r', expect_oid oid r = Ok r' ∧ reader_wf r' ∧ elements l (unread r').
Proof.
  intros Hw He. unfold expect_oid. run_expect He r' Hw' Hs. rewrite bool_decide_eq_true_2 by done. by exists r'.
Qed.
Lemma expect_version_sound v r r' : reader_wf r → expect_version v r = Ok r' →
  reader_wf r' ∧ ∀ l, elements l (unread r') → elements ((x02, [v]) :: l) (unread r).
Proof.
  intros Hw H. unfold expect_version in H. inv_all_ok. destruct x as [t r2]. inv_all_ok. inv_expect H0 Hw' Hs He.
  apply negb_false_iff, bool_decide_eq_true in H1. by rewrite <- H1.
Qed.
Lemma expect_version_complete v l r : reader_wf r → elements ((x02, [v]) :: l) (unread r) →
  ∃ r', expect_version v r = Ok r' ∧ reader_wf r' ∧ elements l (unread r').
Proof.
  intros Hw He. unfold expect_version. run_expect He r' Hw' Hs. rewrite bool_decide_eq_true_2 by done. by exists r'.
Qed.

Lemma last_is_sound n (c : list byte) r : reader_wf r →
  negb (len c =? n) || negb (is_empty r) = false → len c = n ∧ elements [] (unread r).
Proof.
  intros Hw [Hc He]%orb_false_elim. rewrite is_empty_spec in He by done.
  apply negb_false_iff, N.eqb_eq in Hc. apply negb_false_iff, bool_decide_eq_true in He. done.
Qed.
Lemma last_is_complete n (c : list byte) r : reader_wf r → len c = n → elements [] (unread r) →
  negb (len c =? n) || negb (is_empty r) = false.
Proof. intros Hw -> He. rewrite N.eqb_refl, is_empty_spec, bool_decide_eq_true_2 by done. done. Qed.
Lemma len_0 (c : list byte) : len c = 0 → c = [].
Proof. unfold len. destruct c; [done|]. simpl. lia. Qed.

Lemma sha256_identifier_spec c u : small c →
  expect_sha256_algorithm_identifier c = Ok u ↔ sha256_identifier c.
Proof.
  intros Hs. unfold expect_sha256_algorithm_identifier, sha256_identifier. split.
  - intros H. inv_all_ok. apply expect_oid_sound in H0 as (Hw & He); [|by apply reader_new_wf].
    destruct x0 as [v r]. inv_all_ok. inv_expect H1 Hw' Hs' He'.
    apply last_is_sound in H as [Hl%len_0 Hnil]; [|done]. apply He' in Hnil. rewrite Hl in Hnil. by apply He in Hnil.
  - intros He. destruct (expect_oid_complete _ _ (Reader_new c) (reader_new_wf _ Hs) He) as (r & -> & Hw & He').
    simpl. run_expect He' r' Hw' Hs'. rewrite is_empty_spec, bool_decide_eq_true_2 by done. by destruct u.
Qed.

Lemma empty_label_sound r r' : reader_wf r → expect_empty_label r = Ok r' →
  reader_wf r' ∧ ∃ label, empty_label label ∧ ∀ l, elements l (unread r') → elements (label ++ l) (unread r).
Proof.
  intros Hw H. unfold expect_empty_label in H. case_bool_decide; [|simplify_eq; split; [done|]; exists []; split; [by left|done]].
  apply bind_ok in H as ([sc r1] & H1 & H). inv_expect H1 Hw1 Hs1 He1.
  apply bind_ok in H as ([sa r2] & H2 & H). inv_expect H2 Hw2 Hs2 He2.
  apply bind_ok in H as ([] & Hf2%finish_ok & H); [|done].
  apply bind_ok in H as (r3 & H3 & H). apply expect_oid_sound in H3 as (Hw3 & He3); [|by apply reader_new_wf].
  apply bind_ok in H as ([lb r4] & H4 & H). inv_expect H4 Hw4 Hs4 He4.
  apply bind_ok in H as ([] & H5%bail_if_ok & H). simplify_eq.
  apply last_is_sound in H5 as [Hl%len_0 Hnil]; [|done]. split; [done|].
  exists [(xa2, tlv_content sc)]. split; [|exact He1]. right. exists (tlv_content sc), (tlv_content sa).
  split_and!; [done|by apply (He2 [])|]. apply He4 in Hnil. rewrite Hl in Hnil. by apply He3 in Hnil.
Qed.
Lemma empty_label_complete r label : reader_wf r → empty_label label → elements label (unread r) →
  ∃ r', expect_empty_label r = Ok r' ∧ reader_wf r' ∧ unread r' = [].
Proof.
  intros Hw [->|(sc & sa & -> & Hsc & Hsa)] He; unfold expect_empty_label.
  - rewrite peek_end by done. simpl. by exists r.
  - rewrite (peek_element _ _ _ _ Hw He), bool_decide_eq_true_2 by done. run_expect He r1 Hw1 Hs1.
    run_expect Hsc r2 Hw2 Hs2. rewrite (proj2 (finish_ok r2 _ tt Hw2) Hsc). simpl.
    destruct (expect_oid_complete _ _ (Reader_new sa) (reader_new_wf _ Hs2) Hsa) as (r3 & -> & Hw3 & He3). simpl.
    run_expect He3 r4 Hw4 Hs4. rewrite is_empty_spec, bool_decide_eq_true_2 by done. simpl. by exists r1.
Qed.

Lemma oaep_sound r r' : reader_wf r → expect_oaep_sha256_parameters r = Ok r' →
  ∃ parameters, elements [(x30, parameters)] (unread r) ∧ oaep_sha256 parameters.
Proof.
  intros Hw H. unfold expect_oaep_sha256_parameters in H.
  apply bind_ok in H as ([p r1] & H1 & H). inv_expect H1 Hw1 Hs1 He1.
  apply bind_ok in H as ([] & Hf1%finish_ok & H); [|done].
  apply bind_ok in H as ([hc r2] & H2 & H). inv_expect H2 Hw2 Hs2 He2.
  apply bind_ok in H as ([h r3] & H3 & H). inv_expect H3 Hw3 Hs3 He3.
  apply bind_ok in H as ([] & Hf3%finish_ok & H); [|done].
  apply bind_ok in H as ([] & Hid1%sha256_identifier_spec & H); [|done].
  apply bind_ok in H as ([mc r4] & H4 & H). inv_expect H4 Hw4 Hs4 He4.
  apply bind_ok in H as ([m r5] & H5 & H). inv_expect H5 Hw5 Hs5 He5.
  apply bind_ok in H as ([] & Hf5%finish_ok & H); [|done].
  apply bind_ok in H as (r6 & H6 & H). apply expect_oid_sound in H6 as (Hw6 & He6); [|by apply reader_new_wf].
  apply bind_ok in H as ([mh r7] & H7 & H). inv_expect H7 Hw7 Hs7 He7.
  apply bind_ok in H as ([] & Hf7%finish_ok & H); [|done].
  apply bind_ok in H as ([] & Hid2%sha256_identifier_spec & H); [|done].
  apply bind_ok in H as (r8 & H8 & H). apply empty_label_sound in H8 as (Hw8 & label & Hlabel & He8); [|done].
  apply bind_ok in H as ([] & Hf8%finish_ok & H); [|done].
  exists (tlv_content p). split; [by apply He1|].
  exists (tlv_content hc), (tlv_content h), (tlv_content mc), (tlv_content m), (tlv_content mh), label.
  split_and!; [|by apply (He3 [])|done|by apply (He5 [])|by apply He6, He7|done|done].
  apply He2, He4. rewrite <- (app_nil_r label). by apply He8.
Qed.
Lemma oaep_complete r parameters : reader_wf r → elements [(x30, parameters)] (unread r) →
  oaep_sha256 parameters → ∃ r', expect_oaep_sha256_parameters r = Ok r'.
Proof.
  intros Hw He (hc & h & mc & m & mh & label & Hp & Hhc & Hid1 & Hmc & Hm & Hid2 & Hlabel).
  unfold expect_oaep_sha256_parameters. run_expect He r1 Hw1 Hs1. rewrite (proj2 (finish_ok r1 _ tt Hw1) He). simpl.
  run_expect Hp r2 Hw2 Hs2. run_expect Hhc r3 Hw3 Hs3. rewrite (proj2 (finish_ok r3 _ tt Hw3) Hhc). simpl.
  rewrite (proj2 (sha256_identifier_spec h tt Hs3) Hid1). simpl. run_expect Hp r4 Hw4 Hs4.
  run_expect Hmc r5 Hw5 Hs5. rewrite (proj2 (finish_ok r5 _ tt Hw5) Hmc). simpl.
  destruct (expect_oid_complete _ _ (Reader_new m) (reader_new_wf _ Hs5) Hm) as (r6 & -> & Hw6 & He6). simpl.
  run_expect He6 r7 Hw7 Hs7. rewrite (proj2 (finish_ok r7 _ tt Hw7) He6). simpl.
  rewrite (proj2 (sha256_identifier_spec mh tt Hs7) Hid2). simpl.
  destruct (empty_label_complete r4 label Hw4 Hlabel Hp) as (r8 & -> & Hw8 & He8). simpl.
  rewrite (proj2 (finish_ok r8 _ tt Hw8) He8). simpl. by exists r1.
Qed.

Lemma recipient_spec c key : small c → parse_recipient c = Ok key ↔ recipient_info c key.
Proof.
  intros Hs. unfold parse_recipient, recipient_info. split.
  - intros H. apply bind_ok in H as (r1 & H1 & H).
    apply expect_version_sound in H1 as (Hw1 & He1); [|by apply reader_new_wf].
    apply bind_ok in H as ([id r2] & H2 & H). apply read_sound in H2 as (Hw2 & Hs2 & _ & He2); [|done].
    apply bind_ok in H as ([alg r3] & H3 & H). inv_expect H3 Hw3 Hs3 He3.
    apply bind_ok in H as (r4 & H4 & H). apply expect_oid_sound in H4 as (Hw4 & He4); [|by apply reader_new_wf].
    apply bind_ok in H as (r5 & H5 & H). apply oaep_sound in H5 as (p & Hp & Hoaep); [|done].
    apply bind_ok in H as ([k r6] & H6 & H). inv_expect H6 Hw6 Hs6 He6.
    apply bind_ok in H as ([] & Hl%bail_if_ok & H). apply last_is_sound in Hl as [Hl Hnil]; [|done]. simplify_eq.
    exists (tlv_tag id), (tlv_content id), (tlv_content alg), p.
    split_and!; [by apply (He1 [_; _; _]), (He2 [_; _]), (He3 [_]), He6|by apply (He4 [_])|done|done].
  - intros (tag & id & alg & p & He & Halg & Hp & Hkey).
    destruct (expect_version_complete _ _ (Reader_new c) (reader_new_wf _ Hs) He) as (r1 & -> & Hw1 & He1). simpl.
    destruct (read_complete _ _ _ _ Hw1 He1) as (r2 & -> & Hw2 & He2). simpl. run_expect He2 r3 Hw3 Hs3.
    destruct (expect_oid_complete _ _ (Reader_new alg) (reader_new_wf _ Hs3) Halg) as (r4 & -> & Hw4 & He4). simpl.
    destruct (oaep_complete _ _ Hw4 He4 Hp) as (r5 & ->). simpl. run_expect He2 r6 Hw6 Hs6.
    by rewrite last_is_complete.
Qed.

(* ------------------------------------------------------------------ *)
(** ** The ciphertext *)

Lemma pieces_nil piece : pieces_of piece [] [].
Proof. exists [], []. done. Qed.
Lemma pieces_cons piece r t r' p rest : reader_wf r → read r = Ok (t, r') →
  piece (tlv_tag t) (tlv_content t) p → pieces_of piece (unread r') rest →
  pieces_of piece (unread r) (p ++ rest).
Proof.
  intros Hw Hr Hp (l & ps & He & -> & Hps). apply read_sound in Hr as (_ & _ & _ & Hr); [|done].
  exists ((tlv_tag t, tlv_content t) :: l), (p :: ps). split_and!; [by apply Hr|done|by constructor].
Qed.
Lemma unread_nil r : reader_wf r → is_empty r = true ↔ unread r = [].
Proof. intros Hw. rewrite is_empty_spec by done. apply bool_decide_eq_true. Qed.

Lemma collect_loop_sound nested levels fuel :
  (∀ c out out', small c → nested c out = Ok out' → ∃ p, out' = out ++ p ∧ octet_strings levels c p) →
  ∀ r output out, reader_wf r → collect_loop nested fuel r output = Ok out →
  ∃ rest, out = output ++ rest ∧
    pieces_of (fun t c p => (t ∈ [x04; x80] ∧ p = c) ∨ (t ∈ [x24; xa0] ∧ octet_strings levels c p)) (unread r) rest.
Proof.
  intros Hn. induction fuel as [|fuel IH]; intros r output out Hw H; [done|]. cbn [collect_loop] in H.
  destruct (is_empty r) eqn:Ee.
  { simplify_eq. apply unread_nil in Ee as ->; [|done]. exists []. split; [by rewrite app_nil_r|apply pieces_nil]. }
  apply bind_ok in H as ([t r'] & Hr & H). apply bind_ok in H as (out1 & H1 & H).
  apply bind_ok in H as ([] & _ & H). destruct (read_sound _ _ _ Hw Hr) as (Hw' & Hs & _ & _).
  apply IH in H as (rest & -> & Hrest); [|done].
  assert (∃ p, out1 = output ++ p ∧ ((tlv_tag t ∈ [x04; x80] ∧ p = tlv_content t) ∨
            (tlv_tag t ∈ [x24; xa0] ∧ octet_strings levels (tlv_content t) p))) as (p & -> & Hp).
  { repeat case_bool_decide; simplify_eq; [by eexists; eauto|].
    apply Hn in H1 as (p & -> & Hp); [|done]. eauto. }
  exists (p ++ rest). rewrite app_assoc. split; [done|]. by apply (pieces_cons _ r t r').
Qed.
Lemma collect_sound levels : ∀ c out out', small c → collect_from levels c out = Ok out' →
  ∃ p, out' = out ++ p ∧ octet_strings levels c p.
Proof.
  induction levels as [|levels IH]; intros c out out' Hs H; [done|]. cbn [collect_from] in H.
  apply (collect_loop_sound _ levels) in H; [done|done|by apply reader_new_wf].
Qed.
Lemma constructed_octets t : t ∈ [x24; xa0] → t ∉ [x04; x80].
Proof. rewrite !elem_of_cons, !elem_of_nil. by intros [->|[->|[]]] [?|[?|[]]]. Qed.
(** The reader of a list of elements: at its end, or at the first one. *)
Lemma at_end r : reader_wf r → elements [] (unread r) → is_empty r = true.
Proof. intros Hw He. by apply unread_nil. Qed.
Lemma at_element r t c l : reader_wf r → elements ((t, c) :: l) (unread r) → is_empty r = false.
Proof.
  intros Hw He. apply not_true_iff_false. rewrite unread_nil by done. intros E. rewrite E in He.
  apply elements_count in He. simpl in He. rewrite len_nil in He. lia.
Qed.
Lemma collect_loop_complete nested levels l pieces :
  (∀ c out p, small c → octet_strings levels c p → len (out ++ p) ≤ MAX_CMS_BYTES →
     nested c out = Ok (out ++ p)) →
  Forall2 (fun e p => (e.1 ∈ [x04; x80] ∧ p = e.2) ∨ (e.1 ∈ [x24; xa0] ∧ octet_strings levels e.2 p)) l pieces →
  ∀ fuel r output, reader_wf r → elements l (unread r) → (length l < fuel)%nat →
    len (output ++ concat pieces) ≤ MAX_CMS_BYTES →
    collect_loop nested fuel r output = Ok (output ++ concat pieces).
Proof.
  intros Hn. induction 1 as [|[t c] p l ps Hp _ IH]; intros [|fuel] r output Hw He Hf Hmax;
    [simpl in Hf; lia| |simpl in Hf; lia|]; cbn [collect_loop].
  { rewrite (at_end _ Hw He). simpl. by rewrite app_nil_r. }
  rewrite (at_element _ _ _ _ Hw He). destruct (read_complete _ _ _ _ Hw He) as (r' & -> & Hw' & He').
  apply elements_small in He; [|by apply unread_small]. simpl in Hp, Hmax |- *. rewrite app_assoc in Hmax |- *.
  assert (len (output ++ p) ≤ MAX_CMS_BYTES) as Hmax' by (rewrite len_app in Hmax; lia).
  assert ((if bool_decide (t ∈ [x04; x80]) then Ok (output ++ c)
           else if bool_decide (t ∈ [x24; xa0]) then nested c output
           else Err "CMS_ENCRYPTED_CONTENT_TAG") = Ok (output ++ p)) as ->.
  { destruct Hp as [[Ht ->]|[Ht Hp]].
    - by rewrite bool_decide_eq_true_2.
    - rewrite bool_decide_eq_false_2, bool_decide_eq_true_2 by (done || by apply constructed_octets). by apply Hn. }
  simpl. rewrite (proj2 (N.ltb_ge _ _)) by done. simpl in Hf |- *. apply IH; [done|done|lia|done].
Qed.
Lemma collect_complete levels : ∀ c out p, small c → octet_strings levels c p →
  len (out ++ p) ≤ MAX_CMS_BYTES → collect_from levels c out = Ok (out ++ p).
Proof.
  induction levels as [|levels IH]; intros c out p Hs Hp Hmax; [done|]. cbn [collect_from].
  destruct Hp as (l & ps & He & -> & Hps). pose proof (elements_count _ _ He). unfold len in *.
  apply (collect_loop_complete _ levels l); [exact IH|exact Hps|by apply reader_new_wf|done|lia|done].
Qed.

Lemma ciphertext_sound fuel : ∀ r out out', reader_wf r → ciphertext_loop fuel r out = Ok out' →
  ∃ rest, out' = out ++ rest ∧ pieces_of ciphertext_piece (unread r) rest.
Proof.
  induction fuel as [|fuel IH]; intros r out out' Hw H; [done|]. cbn [ciphertext_loop] in H.
  destruct (is_empty r) eqn:Ee.
  { simplify_eq. apply unread_nil in Ee as ->; [|done]. exists []. split; [by rewrite app_nil_r|apply pieces_nil]. }
  apply bind_ok in H as ([t r'] & Hr & H). apply bind_ok in H as (out1 & H1 & H).
  destruct (read_sound _ _ _ Hw Hr) as (Hw' & Hs & _ & _).
  apply IH in H as (rest & -> & Hrest); [|done].
  assert (∃ p, out1 = out ++ p ∧ ciphertext_piece (tlv_tag t) (tlv_content t) p) as (p & -> & Hp).
  { unfold ciphertext_piece. repeat case_bool_decide; simplify_eq; [by eexists; eauto|].
    apply collect_sound in H1 as (p & -> & Hp); [|done]. eauto. }
  exists (p ++ rest). rewrite app_assoc. split; [done|]. by apply (pieces_cons _ r t r').
Qed.
Lemma ciphertext_complete l pieces : Forall2 (fun e p => ciphertext_piece e.1 e.2 p) l pieces →
  ∀ fuel r out, reader_wf r → elements l (unread r) → (length l < fuel)%nat →
    len (out ++ concat pieces) ≤ MAX_CMS_BYTES → ciphertext_loop fuel r out = Ok (out ++ concat pieces).
Proof.
  induction 1 as [|[t c] p l ps Hp _ IH]; intros [|fuel] r out Hw He Hf Hmax;
    [simpl in Hf; lia| |simpl in Hf; lia|]; cbn [ciphertext_loop].
  { rewrite (at_end _ Hw He). simpl. by rewrite app_nil_r. }
  rewrite (at_element _ _ _ _ Hw He). destruct (read_complete _ _ _ _ Hw He) as (r' & -> & Hw' & He').
  apply elements_small in He; [|by apply unread_small]. simpl in Hp, Hmax, Hf |- *. rewrite app_assoc in Hmax |- *.
  destruct Hp as [[-> ->]|[-> Hp]]; simpl; [apply IH; [done|done|lia|done]|].
  unfold collect_octet_strings. change (MAX_ASN1_DEPTH - 0)%nat with MAX_ASN1_DEPTH.
  rewrite (collect_complete _ _ _ _ He Hp) by (rewrite len_app in Hmax; lia). simpl.
  apply IH; [done|done|lia|done].
Qed.

#[local] Arguments ciphertext_loop : simpl never.

Lemma content_spec c iv ciphertext : small c →
  parse_encrypted_content c = Ok (iv, ciphertext) ↔ content_info c iv ciphertext.
Proof.
  intros Hs. unfold parse_encrypted_content, content_info. split.
  - intros H. apply bind_ok in H as (r1 & H1 & H). apply expect_oid_sound in H1 as (Hw1 & He1); [|by apply reader_new_wf].
    apply bind_ok in H as ([alg r2] & H2 & H). inv_expect H2 Hw2 Hs2 He2.
    apply bind_ok in H as (r3 & H3 & H). apply expect_oid_sound in H3 as (Hw3 & He3); [|by apply reader_new_wf].
    apply bind_ok in H as ([v r4] & H4 & H). inv_expect H4 Hw4 Hs4 He4.
    apply bind_ok in H as ([] & Hl%bail_if_ok & H). apply last_is_sound in Hl as [Hl Hnil]; [|done].
    apply bind_ok in H as (ct & Hct & H). apply bind_ok in H as ([] & Hlen%bail_if_ok & H). simplify_eq.
    apply ciphertext_sound in Hct as (rest & -> & l & ps & He & -> & Hps); [|done]. simpl app in *.
    apply orb_false_elim in Hlen as [[Hz%N.eqb_neq Hm]%orb_false_elim Hmax%N.ltb_ge].
    apply negb_false_iff, N.eqb_eq in Hm.
    exists (tlv_content alg), l, ps. split_and!; try done; [by apply (He1 (_ :: l)), He2|by apply (He3 [_]), He4|lia].
  - intros (alg & chunks & ps & He & Halg & Hiv & Hps & -> & Hpos & Hm & Hmax).
    pose proof (elements_count _ _ He) as Hcount.
    destruct (expect_oid_complete _ _ (Reader_new c) (reader_new_wf _ Hs) He) as (r1 & -> & Hw1 & He1). simpl.
    run_expect He1 r2 Hw2 Hs2.
    destruct (expect_oid_complete _ _ (Reader_new alg) (reader_new_wf _ Hs2) Halg) as (r3 & -> & Hw3 & He3). cbn [mbind outcome_bind].
    run_expect He3 r4 Hw4 Hs4. rewrite last_is_complete by done. simpl.
    rewrite (ciphertext_complete chunks ps Hps (S (length c)) r2 [] Hw2 He1); [|unfold len in *; simpl in *; lia|done].
    cbn [mbind outcome_bind app].
    rewrite (proj2 (N.eqb_neq _ _)), Hm, (proj2 (N.ltb_ge _ _)) by lia. done.
Qed.

(* ------------------------------------------------------------------ *)
(** ** No panic *)

(** A reader inside its input, with at most [n] octets to read. *)
Definition unread_within (n : N) (r : Reader) : Prop := rd_offset r ≤ len (rd_input r) ∧ len (unread r) ≤ n.
Lemma read_within n r t r' : unread_within n r → read r = Ok (t, r') → unread_within (n - 2) r' ∧ 2 ≤ n.
Proof.
  intros [Hle Hn] H. unfold read in H. inv_all_ok. destruct x as [v next]. simplify_eq.
  apply parse_tlv_sound in H0 as (Hnext & bytes & E & -> & Henc); [|done]. unfold unread_within, unread in *. simpl.
  apply encodes_len in Henc. rewrite E, len_app in Hn. split; [split; [done|lia]|lia].
Qed.
Lemma expect_within n tag r t r' : unread_within n r → expect tag r = Ok (t, r') → unread_within n r'.
Proof.
  intros Hw H. unfold expect in H. inv_all_ok. destruct x as [v r2]. inv_all_ok.
  apply (read_within n) in H0 as [[? ?] ?]; [|done]. split; [done|lia].
Qed.
Lemma expect_oid_within n oid r r' : unread_within n r → expect_oid oid r = Ok r' → unread_within n r'.
Proof.
  intros Hw H. unfold expect_oid in H. inv_all_ok. destruct x as [v r2]. inv_all_ok. by eapply expect_within.
Qed.
Lemma reader_new_within c : unread_within (len c) (Reader_new c).
Proof. split; [simpl; lia|]. by change (unread (Reader_new c)) with c. Qed.

Lemma collect_loop_no_panic nested fuel : (∀ c out, no_panic (nested c out)) →
  ∀ n r out, unread_within n r → n < N.of_nat fuel → no_panic (collect_loop nested fuel r out).
Proof.
  intros Hn. induction fuel as [|fuel IH]; intros n r out Hw Hf; [lia|]. cbn [collect_loop].
  destruct (is_empty r); [apply no_panic_Ok|].
  apply no_panic_bind; [apply read_no_panic|]. intros [t r'] Hr.
  destruct (read_within _ _ _ _ Hw Hr) as [Hw' Hl].
  apply no_panic_bind; [repeat case_bool_decide; solve [apply no_panic_Ok|apply Hn|apply no_panic_Err]|]. intros out' _.
  apply no_panic_bind; [apply no_panic_bail_if|]. intros _ _. apply (IH (n - 2)); [done|lia].
Qed.
Lemma collect_no_panic levels : ∀ c out, no_panic (collect_from levels c out).
Proof.
  induction levels as [|levels IH]; intros c out; [apply no_panic_Err|]. cbn [collect_from].
  apply (collect_loop_no_panic _ _ IH (len c)); [apply reader_new_within|unfold len; lia].
Qed.
Lemma ciphertext_no_panic fuel : ∀ n r out, unread_within n r → n < N.of_nat fuel →
  no_panic (ciphertext_loop fuel r out).
Proof.
  induction fuel as [|fuel IH]; intros n r out Hw Hf; [lia|]. unfold ciphertext_loop; fold ciphertext_loop.
  destruct (is_empty r); [apply no_panic_Ok|].
  apply no_panic_bind; [apply read_no_panic|]. intros [t r'] Hr.
  destruct (read_within _ _ _ _ Hw Hr) as [Hw' Hl].
  apply no_panic_bind; [repeat case_bool_decide; solve [apply no_panic_Ok|apply collect_no_panic|apply no_panic_Err]|].
  intros out' _. apply (IH (n - 2)); [done|lia].
Qed.

Lemma expect_oid_no_panic oid r : no_panic (expect_oid oid r).
Proof. apply no_panic_bind; [apply expect_no_panic|]. intros [? ?] _. solve_no_panic. Qed.
Lemma expect_version_no_panic v r : no_panic (expect_version v r).
Proof. apply no_panic_bind; [apply expect_no_panic|]. intros [? ?] _. solve_no_panic. Qed.
#[local] Hint Resolve expect_no_panic expect_oid_no_panic expect_version_no_panic read_no_panic : no_panic.

(** A sequence of reads, without a look at what they have read. *)
Ltac reads_no_panic :=
  repeat match goal with
  | |- no_panic (_ ≫= _) => apply no_panic_bind; [|intros ? _]
  | |- no_panic (let '(_, _) := ?x in _) => destruct x
  | |- no_panic (if ?b then _ else _) => destruct b
  | _ => solve [auto with no_panic | apply no_panic_Ok | apply no_panic_bail_if]
  end.
Lemma sha256_identifier_no_panic c : no_panic (expect_sha256_algorithm_identifier c).
Proof. unfold expect_sha256_algorithm_identifier. reads_no_panic. Qed.
Lemma empty_label_no_panic r : no_panic (expect_empty_label r).
Proof. unfold expect_empty_label, finish. reads_no_panic. Qed.
#[local] Hint Resolve sha256_identifier_no_panic empty_label_no_panic : no_panic.
Lemma oaep_no_panic r : no_panic (expect_oaep_sha256_parameters r).
Proof. unfold expect_oaep_sha256_parameters, finish. reads_no_panic. Qed.
#[local] Hint Resolve oaep_no_panic : no_panic.
Lemma recipient_no_panic c : no_panic (parse_recipient c).
Proof. unfold parse_recipient. reads_no_panic. Qed.
Lemma content_no_panic c : no_panic (parse_encrypted_content c).
Proof.
  unfold parse_encrypted_content. apply no_panic_bind; [auto with no_panic|]. intros r1 H1.
  apply (expect_oid_within (len c)) in H1; [|apply reader_new_within].
  apply no_panic_bind; [auto with no_panic|]. intros [alg r2] H2. apply (expect_within (len c)) in H2; [|done].
  apply no_panic_bind; [auto with no_panic|]. intros r3 _.
  apply no_panic_bind; [auto with no_panic|]. intros [v r4] _.
  apply no_panic_bind; [apply no_panic_bail_if|]. intros _ _.
  apply no_panic_bind; [apply (ciphertext_no_panic _ (len c)); [done|unfold len; lia]|]. intros ct _.
  reads_no_panic.
Qed.
#[local] Hint Resolve recipient_no_panic content_no_panic : no_panic.
Lemma parse_no_panic input : no_panic (parse_kms_recipient_cms input).
Proof. unfold parse_kms_recipient_cms, finish. reads_no_panic. Qed.

(* ------------------------------------------------------------------ *)
(** ** The parser *)

Lemma parse_sound input envelope :
  parse_kms_recipient_cms input = Ok envelope → envelope_document input envelope.
Proof.
  unfold parse_kms_recipient_cms, envelope_document. intros H.
  apply bind_ok in H as ([] & Hl%bail_if_ok & H).
  apply orb_false_elim in Hl as [Hz Hmax%N.ltb_ge].
  assert (small input) as Hs by (unfold small, MAX_CMS_BYTES in *; lia).
  apply bind_ok in H as ([outer r1] & H1 & H). inv_expect H1 Hw1 Hs1 He1.
  apply bind_ok in H as ([] & Hf1%finish_ok & H); [|done].
  apply bind_ok in H as (r2 & H2 & H). apply expect_oid_sound in H2 as (Hw2 & He2); [|by apply reader_new_wf].
  apply bind_ok in H as ([explicit r3] & H3 & H). inv_expect H3 Hw3 Hs3 He3.
  apply bind_ok in H as ([] & Hf3%finish_ok & H); [|done].
  apply bind_ok in H as ([enveloped r4] & H4 & H). inv_expect H4 Hw4 Hs4 He4.
  apply bind_ok in H as ([] & Hf4%finish_ok & H); [|done].
  apply bind_ok in H as (r5 & H5 & H). apply expect_version_sound in H5 as (Hw5 & He5); [|by apply reader_new_wf].
  apply bind_ok in H as (r6 & H6 & H).
  assert (reader_wf r6 ∧ ∃ originator,
            (originator = [] ∨ ∃ t c, originator = [(t, c)] ∧ peek_tag r5 = Some xa0) ∧
            ∀ l, elements l (unread r6) → elements (originator ++ l) (unread r5))
    as (Hw6 & originator & Horig & He6).
  { case_bool_decide as Hpeek; [|simplify_eq; split; [done|]; exists []; split; [by left|done]].
    apply bind_ok in H6 as ([t r6'] & Hr & H6). simplify_eq.
    destruct (read_sound _ _ _ Hw5 Hr) as (Hw6 & _ & _ & He6). split; [done|].
    exists [(tlv_tag t, tlv_content t)]. split; [right; by eexists _, _|exact He6]. }
  apply bind_ok in H as ([set r7] & H7 & H). inv_expect H7 Hw7 Hs7 He7.
  apply bind_ok in H as ([recipient r8] & H8 & H). inv_expect H8 Hw8 Hs8 He8.
  apply bind_ok in H as ([] & Hf8%finish_ok & H); [|done].
  apply bind_ok in H as (key & Hkey%recipient_spec & H); [|done].
  apply bind_ok in H as ([content r9] & H9 & H). inv_expect H9 Hw9 Hs9 He9.
  apply bind_ok in H as ([] & Hf9%finish_ok & H); [|done].
  apply bind_ok in H as ([v ct] & Hc%content_spec & H); [|done]. simplify_eq.
  assert (elements (originator ++ [(x31, tlv_content set); (x30, tlv_content content)]) (unread r5)) as Hall
    by (apply He6, (He7 [_]), He9; done).
  exists (tlv_content outer), (tlv_content explicit), (tlv_content enveloped), originator, (tlv_content set),
    (tlv_content recipient), (tlv_content content).
  split_and!; [done|by apply (He1 [])|by apply (He2 [_]), He3|by apply (He4 [])|by apply He5| |by apply (He8 [])|done|done].
  destruct Horig as [->|(t & c & -> & Hpeek)]; [by left|right]. exists c.
  rewrite (peek_element _ _ _ _ Hw5 Hall) in Hpeek. by simplify_eq.
Qed.
Lemma parse_complete input envelope :
  envelope_document input envelope → parse_kms_recipient_cms input = Ok envelope.
Proof.
  unfold parse_kms_recipient_cms, envelope_document.
  intros (outer & explicit & enveloped & originator & set & recipient & content & Hmax & He & Houter & Hexp &
    Henv & Horig & Hset & Hrec & Hcont).
  assert (small input) as Hs by (unfold small, MAX_CMS_BYTES in *; lia).
  pose proof (elements_count _ _ He) as Hcount.
  rewrite (proj2 (N.eqb_neq _ _)), (proj2 (N.ltb_ge _ _)) by (simpl in Hcount; lia). cbn [orb bail_if mbind outcome_bind].
  run_expect He r1 Hw1 Hs1. rewrite (proj2 (finish_ok r1 _ tt Hw1) He). simpl.
  destruct (expect_oid_complete _ _ (Reader_new outer) (reader_new_wf _ Hs1) Houter) as (r2 & -> & Hw2 & He2). simpl.
  run_expect He2 r3 Hw3 Hs3. rewrite (proj2 (finish_ok r3 _ tt Hw3) He2). simpl.
  run_expect Hexp r4 Hw4 Hs4. rewrite (proj2 (finish_ok r4 _ tt Hw4) Hexp). simpl.
  destruct (expect_version_complete _ _ (Reader_new enveloped) (reader_new_wf _ Hs4) Henv) as (r5 & -> & Hw5 & He5). simpl.
  assert (∃ r6, (if bool_decide (peek_tag r5 = Some xa0)
                 then '(_, enveloped) ← read r5; Ok enveloped else Ok r5) = Ok r6 ∧
                reader_wf r6 ∧ elements [(x31, set); (x30, content)] (unread r6)) as (r6 & -> & Hw6 & He6).
  { destruct Horig as [->|(c & ->)]; simpl in He5; rewrite (peek_element _ _ _ _ Hw5 He5); simpl; [by exists r5|].
    destruct (read_complete _ _ _ _ Hw5 He5) as (r6 & -> & Hw6 & He6). simpl. by exists r6. }
  simpl. run_expect He6 r7 Hw7 Hs7. run_expect Hset r8 Hw8 Hs8. rewrite (proj2 (finish_ok r8 _ tt Hw8) Hset). simpl.
  rewrite (proj2 (recipient_spec recipient _ Hs8) Hrec). simpl.
  run_expect He6 r9 Hw9 Hs9. rewrite (proj2 (finish_ok r9 _ tt Hw9) He6). simpl.
  rewrite (proj2 (content_spec content _ _ Hs9) Hcont). simpl. by destruct envelope.
Qed.

(** C29: The parser of the KMS answer decides the envelope grammar: it returns an
    envelope exactly for the inputs of at most 1 MiB that are one EnvelopedData
    document in the layout KMS uses (one recipient, RSAES-OAEP with SHA-256 and an
    empty label, a 256-byte encrypted key, AES-256-CBC with a 16-byte IV, and a
    ciphertext of whole blocks in any number of octet strings), with definite or
    indefinite lengths nested at most 16 deep, and it returns that document's key,
    IV and ciphertext. *)
Theorem cms_parser_decides input envelope :
  parse_kms_recipient_cms input = Ok envelope ↔ envelope_document input envelope.
Proof. split; [apply parse_sound|apply parse_complete]. Qed.

(** Parsing terminates without a panic on every input: it ends in an error or
    in an envelope with a 256-byte key, a 16-byte IV and a non-empty ciphertext of
    whole 16-byte blocks within 1 MiB. *)
Theorem cms_parser_total input :
  (∃ e, parse_kms_recipient_cms input = Err e) ∨
  (∃ envelope, parse_kms_recipient_cms input = Ok envelope ∧
     len (encrypted_key envelope) = 256 ∧ len (iv envelope) = 16 ∧
     0 < len (ciphertext envelope) ≤ MAX_CMS_BYTES ∧ len (ciphertext envelope) mod 16 = 0).
Proof.
  pose proof (parse_no_panic input) as Hn.
  destruct (parse_kms_recipient_cms input) as [envelope|e|m] eqn:E; [right|by left; exists e|by destruct (Hn m)].
  exists envelope. split; [done|]. apply parse_sound in E as (? & ? & ? & ? & ? & ? & ? & _ & _ & _ & _ & _ & _ & _ & Hr & Hc).
  destruct Hr as (? & ? & ? & ? & _ & _ & _ & Hk). destruct Hc as (? & ? & ? & _ & _ & Hiv & _ & _ & Hpos & Hm & Hmax).
  done.
Qed.

(* ------------------------------------------------------------------ *)
(** ** A document *)

Module CmsDemo.

Definition octets_of_length (n : nat) : list byte :=
  if (n <? 128)%nat then be_bytes 1 (N.of_nat n) else x82 :: be_bytes 2 (N.of_nat n).
Definition element (tag : byte) (content : list byte) : list byte :=
  tag :: octets_of_length (length content) ++ content.
Definition container (tag : byte) (content : list byte) : list byte := tag :: x80 :: content ++ [x00; x00].
Definition sha256 : list byte := element x30 (element x06 OID_SHA256 ++ element x05 []).
Definition oaep : list byte :=
  element x30 (element xa0 sha256 ++ element xa1 (element x30 (element x06 OID_MGF1 ++ sha256))).
Definition key : list byte := replicate 256 x5a.
Definition vector : list byte := replicate 16 x11.
Definition recipient : list byte :=
  element x30 (element x02 [x02] ++ element x80 [x01; x02] ++
               element x30 (element x06 OID_RSAES_OAEP ++ oaep) ++ element x04 key).
Definition content : list byte :=
  container x30 (element x06 OID_PKCS7_DATA ++
                 element x30 (element x06 OID_AES_256_CBC ++ element x04 vector) ++
                 container xa0 (element x04 (replicate 20 x22) ++ element x04 (replicate 12 x33))).
Definition document : list byte :=
  container x30 (element x06 OID_PKCS7_ENVELOPED_DATA ++
                 container xa0 (container x30 (element x02 [x02] ++ element x31 recipient ++ content))).

(** An answer with indefinite lengths and its ciphertext in two pieces. *)
Example document_parses : parse_kms_recipient_cms document =
  Ok (mkEnvelope key vector (replicate 20 x22 ++ replicate 12 x33)).
Proof. vm_compute. reflexivity. Qed.
(** An octet after the document. *)
Example trailing_refused : parse_kms_recipient_cms (document ++ [x00]) = Err "CMS_TRAILING_DATA".
Proof. vm_compute. reflexivity. Qed.

End CmsDemo.
