(* ===== verification/Advisory.v ===== *)
(** * The cached price-drop advisory
      ([job-api/src/open_advisory_cache.rs], [open_advisory_rpc.rs])

    Before an incident-open job is started the service looks for the price drop
    itself, at most once a minute per token: one object holds the last attempt and
    the last result, and a conditional write reserves the next attempt.  [check] is
    a program over the operations of the store, the source and the clock; its
    deadline may cancel it between any two of them.  [AdvisoryFacts] runs any number
    of such programs against one object. *)

From S2P Require Import Prelude Bytes Text Commit Merkle Kernel TypedData Rpc Abi Config Chain ChainConfig History IncidentOpen JobProtocol JobApp.
From Stdlib Require Import Strings.Byte.

Open Scope string_scope.
Open Scope N_scope.
Open Scope list_scope.

Inductive Semantic := NoDrop | Qualifying (reference_block observation_block : N).
Inductive CheckError := CheckUnavailable | CheckActive | CheckUnapproved.
Record Binding := mkBinding { bd_commitment : string; bd_head : N; bd_finalized : N; bd_max_age : N }.
Record Advisory := mkAdvisory {
  ad_checked_at : N;
  ad_expires_at : N;
  ad_configuration : string;
  ad_result : Semantic
}.
Record Decision := mkDecision { dc_fresh : bool; dc_advisory : option Advisory }.
(** The source's [Record]: the stored object. *)
Record CacheRecord := mkCacheRecord { cr_attempt_at : option N; cr_snapshot : option Advisory }.
Definition CacheRecord_default : CacheRecord := mkCacheRecord None None.

(** [serde_json::to_vec] and [from_slice] at [Record]. *)
Class AdvisoryJson := {
  record_to_vec : CacheRecord → option (list byte);
  record_from_slice : list byte → option CacheRecord
}.

Definition eligible (result : Semantic) (binding : Binding) : bool :=
  if (bd_head binding =? 0) || (bd_finalized binding =? 0) || (bd_head binding <? bd_finalized binding) ||
     (bd_max_age binding =? 0) || str_is_empty (bd_commitment binding)
  then false
  else
    match result with
    | NoDrop => true
    | Qualifying reference_block observation_block =>
        (0 <? reference_block) && (reference_block <? bd_head binding) &&
        (bd_head binding - reference_block <=? bd_max_age binding) &&
        (reference_block <? observation_block) && (observation_block <=? bd_finalized binding)
    end.

(* ------------------------------------------------------------------ *)
(** ** Programs *)

(** [Now] is [tokio::time::Instant::now()], in nanoseconds; [Timer] asks whether the
    deadline of a [select!] has fired; [Refresh] answers [None] when it fired first. *)
Inductive op :=
  | GetVersioned (key : string) (max_bytes : N)
  | CompareExchange (key : string) (revision : option string) (value : list byte)
  | SourceBinding
  | SourceRefresh
  | Now
  | Timer.
Definition answer (o : op) : Type :=
  match o with
  | GetVersioned _ _ => outcome ServiceError (option VersionedObject)
  | CompareExchange _ _ _ => outcome ServiceError bool
  | SourceBinding => outcome CheckError Binding
  | SourceRefresh => option (outcome CheckError Semantic)
  | Now => N
  | Timer => bool
  end.

(** [Note] sets the fallback of a cancellation. *)
Inductive task (A : Type) : Type :=
  | Done (a : A)
  | Call (o : op) (k : answer o → task A)
  | Note (fallback : option Advisory) (m : task A).
Arguments Done {A} a.
Arguments Call {A} o k.
Arguments Note {A} fallback m.
Fixpoint task_bind {A B} (f : A → task B) (m : task A) : task B :=
  match m with
  | Done a => f a
  | Call o k => Call o (fun r => task_bind f (k r))
  | Note fallback m => Note fallback (task_bind f m)
  end.
Definition checked (A : Type) : Type := task (outcome CheckError A).
#[export] Instance checked_ret : MRet checked := fun A a => Done (Ok a).
#[export] Instance checked_bind : MBind checked := fun A B f =>
  task_bind (fun r => match r with Ok a => f a | Err e => Done (Err e) | Panic s => Done (Panic s) end).
Definition of_outcome {A} (m : outcome CheckError A) : checked A := Done m.
Definition note {A} (fallback : option Advisory) (m : checked A) : checked A := Note fallback m.
(** [map_err(|_| CheckError::Unavailable)]. *)
Definition unavailable {A} (r : outcome ServiceError A) : outcome CheckError A :=
  map_err (fun _ => CheckUnavailable) r.

Definition get_versioned (key : string) (max_bytes : N) : checked (option VersionedObject) :=
  Call (GetVersioned key max_bytes) (fun r => Done (unavailable r)).
Definition compare_exchange (key : string) (revision : option string) (value : list byte) : checked bool :=
  Call (CompareExchange key revision value) (fun r => Done (unavailable r)).
(** The result, looked at by the caller. *)
Definition source_binding : checked (outcome CheckError Binding) := Call SourceBinding (fun r => Done (Ok r)).
Definition instant : checked N := Call Now (fun t => Done (Ok t)).

(** [within_deadline] around [m]: the timer is polled before every operation and
    before its answer is looked at. [None] is the deadline's error. *)
Fixpoint cancellable {A} (fallback : option Advisory) (m : task A) : task (option A * option Advisory) :=
  match m with
  | Done a => Done (Some a, fallback)
  | Note fallback m => cancellable fallback m
  | Call o k =>
      Call Timer (fun fired => if (fired : bool) then Done (None, fallback) else
      Call o (fun r =>
      Call Timer (fun fired => if (fired : bool) then Done (None, fallback) else
      cancellable fallback (k r))))
  end.
Definition within_deadline {A} (deadline : N) (fallback : option Advisory) (m : task A) :
    checked (option A * option Advisory) :=
  before ← instant;
  if deadline <=? before then mret (None, fallback)
  else
    '(result, fallback) ← (task_bind (fun r => Done (Ok r)) (cancellable fallback m)
                            : checked (option A * option Advisory));
    match result with
    | None => mret (None, fallback)
    | Some result =>
        after ← instant;
        mret (if deadline <=? after then (None, fallback) else (Some result, fallback))
    end.
(** [within_deadline(deadline, source.refresh())]: [None] is its error. *)
Definition refresh_within (deadline : N) : checked (option (outcome CheckError Semantic)) :=
  before ← instant;
  if deadline <=? before then mret None
  else
    result ← (Call SourceRefresh (fun r => Done (Ok r)) : checked (option (outcome CheckError Semantic)));
    match result with
    | None => mret None
    | Some result =>
        after ← instant;
        mret (if deadline <=? after then None else Some result)
    end.

(* ------------------------------------------------------------------ *)
(** ** [check] *)

Definition SECOND : N := 1000000000.
Definition CACHE_BUDGET : N := 24 * SECOND.
Definition MAX_RECORD_BYTES : N := 16384.

Definition stale (advisory : option Advisory) : checked Decision := mret (mkDecision false advisory).
Definition filter_advisory (p : Advisory → bool) (a : option Advisory) : option Advisory :=
  match a with Some s => if p s then Some s else None | None => None end.

Section Check.
Context `{HexCrate, Sha2Crate, AdvisoryJson}.

Definition advisory_key (namespace : string) : string :=
  "control/open-advisory/v1/" +:+ hex_encode (array_val (sha256 (as_bytes namespace))) +:+ ".json".

Definition retained_at (now : N) (s : Advisory) : bool :=
  (ad_checked_at s <=? now) && (now <? ad_expires_at s) &&
  (ad_expires_at s =? saturating_add (ad_checked_at s) 3600).

(** The new result: published over the reservation that was read back. *)
Definition publish (key : string) (reserved : VersionedObject) (record : CacheRecord)
    (binding : Binding) (now : N) (result : Semantic) : checked Decision :=
  expires_at ← of_outcome (ok_or (checked_add now 3600) CheckUnavailable);
  let snapshot := mkAdvisory now expires_at (bd_commitment binding) result in
  bytes ← of_outcome (ok_or (record_to_vec (mkCacheRecord (cr_attempt_at record) (Some snapshot)))
                        CheckUnavailable);
  written ← compare_exchange key (Some (vo_revision reserved)) bytes;
  if (written : bool) then mret (mkDecision true (Some snapshot)) else of_outcome (Err CheckUnavailable).

(** The bounded scan, on a reservation of this call. *)
Definition refresh_reserved (key : string) (reserved : VersionedObject) (record : CacheRecord)
    (binding : Binding) (prior : option Advisory) (now deadline : N) : checked Decision :=
  at_ ← instant;
  if deadline <=? at_ then stale prior
  else
    refreshed ← refresh_within deadline;
    match refreshed with
    | Some (Ok result) =>
        current ← source_binding;
        match current with
        | Ok current =>
            if String.eqb (bd_commitment current) (bd_commitment binding) then
              if negb (eligible result current) then stale prior
              else publish key reserved record binding now result
            else stale None
        | Err CheckUnavailable => stale prior
        | Err _ => stale None
        | Panic s => of_outcome (Panic s)
        end
    | Some (Panic s) => of_outcome (Panic s)
    | _ => stale prior
    end.

(** The next attempt is reserved by a conditional write and read back. *)
Definition reserve_attempt (key : string) (object : option VersionedObject) (record : CacheRecord)
    (binding : Binding) (prior : option Advisory) (now deadline : N) : checked Decision :=
  let record := mkCacheRecord (Some now) (cr_snapshot record) in
  bytes ← of_outcome (ok_or (record_to_vec record) CheckUnavailable);
  written ← compare_exchange key (vo_revision <$> object) bytes;
  if negb written then stale prior
  else
    reserved ← get_versioned key MAX_RECORD_BYTES;
    reserved ← of_outcome (ok_or reserved CheckUnavailable);
    if negb (bool_decide (vo_bytes reserved = bytes)) then of_outcome (Err CheckUnavailable)
    else refresh_reserved key reserved record binding prior now deadline.

Definition check_inner (namespace : string) (now deadline : N) : checked Decision :=
  let key := advisory_key namespace in
  object ← get_versioned key MAX_RECORD_BYTES;
  record ← of_outcome (match object with
                       | Some object => ok_or (record_from_slice (vo_bytes object)) CheckUnavailable
                       | None => Ok CacheRecord_default
                       end);
  let retained := filter_advisory (retained_at now) (cr_snapshot record) in
  note retained (
  binding ← source_binding;
  match binding with
  | Err CheckUnavailable => stale retained
  | Err error => of_outcome (Err error)
  | Panic s => of_outcome (Panic s)
  | Ok binding =>
      let prior := filter_advisory (fun s => String.eqb (ad_configuration s) (bd_commitment binding)) retained in
      note prior (
      match filter_advisory (fun s => (now - ad_checked_at s <? 60) && eligible (ad_result s) binding) prior with
      | Some snapshot => mret (mkDecision true (Some snapshot))
      | None =>
          if match cr_attempt_at record with
             | Some attempt => now <? saturating_add attempt 60
             | None => false
             end
          then stale prior
          else reserve_attempt key object record binding prior now deadline
      end)
  end).

(** Expiry and freshness count the time the call took. *)
Definition age_decision (returned_at : N) (decision : Decision) : Decision :=
  let advisory := filter_advisory (fun s => returned_at <? ad_expires_at s) (dc_advisory decision) in
  mkDecision (dc_fresh decision &&
              match advisory with
              | Some s => saturating_sub returned_at (ad_checked_at s) <? 60
              | None => false
              end) advisory.
Definition check (namespace : string) (now deadline : N) : checked Decision :=
  started ← instant;
  let deadline := N.min deadline (started + CACHE_BUDGET) in
  '(result, retained) ← within_deadline deadline None (check_inner namespace now deadline);
  decision ← (match result with
              | Some result => of_outcome result
              | None => stale retained
              end);
  ended ← instant;
  mret (age_decision (saturating_add now ((ended - started) / SECOND)) decision).
End Check.

(* ------------------------------------------------------------------ *)
(** ** The source on the chain ([open_advisory_rpc.rs]) *)

Section Source.
Context `{HexCrate, Sha3Crate, AbiCodec} {W : Type} `{!RpcIface W}.
(** [tokio::time::timeout] around a reading of the source. *)
Context (tokio_timeout : ∀ A, N → io W CheckError A → W → option (outcome CheckError A) * W).
(** The build's feature flag. *)
Context (sepolia : bool).

Record Source := mkSource { src_registry : Address; src_module : Address; src_token : Address }.

Definition or_unavailable {A} : io W ChainError A → io W CheckError A := map_err_io (fun _ => CheckUnavailable).
Definition refuse (b : bool) : io W CheckError unit := lift (bail_if b CheckUnavailable).
Definition decode_at (f : SolFn) (reads : list (list byte)) (i : nat) : io W CheckError (sol_return f) :=
  lift (match reads !! i with
        | Some data => map_err (fun _ => CheckUnavailable) (decode_read f data)
        | None => Panic "index out of bounds"
        end).

(** The contract reads the commitment covers. *)
Definition binding_calls (self : Source) : list Call3 :=
  [read_call registry (src_module self) tt; read_call nextIncidentId (src_module self) tt;
   read_call incidentTimingConfig (src_registry self) tt; read_call incidentOpenPriceConfig (src_registry self) tt;
   read_call getInsuredToken (src_module self) (src_token self);
   read_call incidentOpenEligibilityHash (src_module self) (src_token self);
   read_call teePcrHash (src_registry self) tt;
   mkCall3 (src_module self) false (take 4 (array_val (keccak256 (as_bytes "activeIncidentId()"))))].
(** The hash of the reads, each after its length. *)
Definition commitment_preimage (reads : list (list byte)) : list byte :=
  as_bytes "usd8-open-advisory-config-v1" ++
  concat (map (fun read => be_bytes 8 (N.of_nat (length read)) ++ read) reads).
Definition binding_commitment (reads : list (list byte)) : string :=
  hex_encode (array_val (keccak256 (commitment_preimage reads))).

Definition invalid_config (timing : IncidentTimingConfig) (price : IncidentOpenPriceConfig)
    (eligibility pcr : Hash) (active : list byte) : bool :=
  (maxReferenceBlockAge timing =? 0) || (twapBlocks price =? 0) || (op_sampleStepBlocks price =? 0) ||
  (minimumDropBps price =? 0) || (10000 <=? minimumDropBps price) ||
  bool_decide (eligibility = zero_array 32) || bool_decide (pcr = zero_array 32) ||
  negb (N.of_nat (length active) =? 32).

Definition read_binding (self : Source) : io W CheckError Binding :=
  _ ← refuse (address_is_zero (src_registry self) || address_is_zero (src_module self) ||
              address_is_zero (src_token self));
  actual_chain ← or_unavailable chain_id;
  _ ← refuse (negb (actual_chain =? configured_chain_id sepolia));
  head ← or_unavailable latest_block;
  finalized ← or_unavailable finalized_block;
  _ ← refuse ((ba_number head =? 0) || (ba_number finalized =? 0) || (ba_number head <? ba_number finalized));
  module ← or_unavailable (defi_insurance_at (src_registry self) (Some (ba_number head)));
  _ ← refuse (negb (bool_decide (module = src_module self)));
  reads ← or_unavailable (aggregate_reads (binding_calls self) (ba_number head));
  reverse_registry ← decode_at registry reads 0;
  _ ← refuse (negb (bool_decide (reverse_registry = src_registry self)));
  next_incident ← decode_at nextIncidentId reads 1;
  _ ← refuse (next_incident =? 0);
  timing ← decode_at incidentTimingConfig reads 2;
  price ← decode_at incidentOpenPriceConfig reads 3;
  insured ← decode_at getInsuredToken reads 4;
  eligibility ← decode_at incidentOpenEligibilityHash reads 5;
  pcr ← decode_at teePcrHash reads 6;
  active ← lift (match reads !! 7%nat with Some active => Ok active | None => Panic "index out of bounds" end);
  _ ← refuse (invalid_config timing price eligibility pcr active);
  _ ← lift (bail_if (maxCoverageBps insured =? 0) CheckUnapproved);
  _ ← lift (bail_if (existsb (fun b => negb (bool_decide (b = x00))) active) CheckActive);
  head_now ← or_unavailable (block_by_number (ba_number head));
  _ ← refuse (negb (bool_decide (head_now = head)));
  mret (mkBinding (binding_commitment reads) (ba_number head) (ba_number finalized) (maxReferenceBlockAge timing)).

Definition source_read_binding (self : Source) : io W CheckError Binding :=
  fun w => let '(r, w') := tokio_timeout _ 12 (read_binding self) w in
           (match r with Some r => r | None => Err CheckUnavailable end, w').
End Source.

Definition refresh_result `{HexCrate} (self : Source) (r : outcome IncidentOpenError IncidentOpenPrecheck) :
    outcome CheckError Semantic :=
  match r with
  | Ok result =>
      if String.eqb (ip_defi_insurance result) (address_to_string (src_module self))
      then Ok (Qualifying (ip_reference_block result) (ip_observation_block result))
      else Err CheckUnavailable
  | Err (InsufficientPriceDrop _) => Ok NoDrop
  | Err ActiveIncident => Err CheckActive
  | Err IncidentOpen.UnapprovedToken => Err CheckUnapproved
  | Err _ => Err CheckUnavailable
  | Panic s => Panic s
  end.
Definition source_refresh `{HexCrate, Sha3Crate, AbiCodec} {W : Type} `{!RpcIface W} (sepolia : bool)
    (self : Source) : io W CheckError Semantic :=
  fun w => let '(r, w') := precheck_incident_open (configured_chain_id sepolia) (src_registry self) (src_token self) w in
           (refresh_result self r, w').
