(* ===== verification/AdvisoryFacts.v ===== *)
(** * The advisory is fresh, and refreshed at most once a minute

    What a decision that calls itself fresh rests on, and what any number of calls
    do to the one object they share when their operations interleave, conditional
    writes lose their answers and deadlines cancel calls at any point.  The theorems
    are about [Advisory.check]. *)

From S2P Require Import Prelude Bytes Text Abi Chain JobProtocol JobApp Advisory.
From Stdlib Require Import Strings.Byte.

Open Scope string_scope.
Open Scope N_scope.
Open Scope list_scope.

(* ------------------------------------------------------------------ *)
(** ** Runs of one call *)

Definition event : Type := sigT answer.
Definition ev (o : op) (r : answer o) : event := existT o r.

(** [m] ends in [a] after these operations and answers. *)
Fixpoint run {A} (m : task A) (l : list event) (a : A) : Prop :=
  match m with
  | Done b => l = [] ∧ b = a
  | Note _ m => run m l a
  | Call o k => ∃ r tail, l = ev o r :: tail ∧ run (k r) tail a
  end.

Lemma run_bind {A B} (f : A → task B) (m : task A) l b :
  run (task_bind f m) l b → ∃ l1 l2 a, l = l1 ++ l2 ∧ run m l1 a ∧ run (f a) l2 b.
Proof.
  revert l. induction m as [a|o k IH|fb m IH]; intros l H; simpl in H.
  - by exists [], l, a.
  - destruct H as (r & tail & -> & H). apply IH in H as (l1 & l2 & a & -> & H1 & H2).
    exists (ev o r :: l1), l2, a. split_and!; [done|by exists r, l1|done].
  - by apply IH.
Qed.
(** What a sequence of two checked programs did before it ended in [Ok]. *)
Lemma run_bind_ok {A B} (m : checked A) (f : A → checked B) l b :
  run (m ≫= f) l (Ok b) → ∃ l1 l2 a, l = l1 ++ l2 ∧ run m l1 (Ok a) ∧ run (f a) l2 (Ok b).
Proof.
  intros (l1 & l2 & r & -> & H1 & H2)%run_bind. destruct r as [a|e|s]; [|by destruct H2..].
  by exists l1, l2, a.
Qed.
Lemma run_of_outcome {A} (m : outcome CheckError A) l a : run (of_outcome m) l (Ok a) → l = [] ∧ m = Ok a.
Proof. by intros [-> ->]. Qed.
Lemma run_mret {A} (a b : A) l : run (mret a : checked A) l (Ok b) → l = [] ∧ a = b.
Proof. intros [-> H]. by simplify_eq. Qed.
Lemma run_note {A} f (m : checked A) l a : run (note f m) l a ↔ run m l a.
Proof. done. Qed.
Lemma run_instant l t : run instant l (Ok t) → l = [ev Now t].
Proof. intros (r & tail & -> & -> & H). by simplify_eq. Qed.
Lemma run_get_versioned key max l r : run (get_versioned key max) l (Ok r) → l = [ev (GetVersioned key max) (Ok r)].
Proof.
  intros (a & tail & -> & -> & H). unfold unavailable in H. by apply map_err_ok in H as ->.
Qed.
Lemma run_compare_exchange key rev v l b : run (compare_exchange key rev v) l (Ok b) →
  l = [ev (CompareExchange key rev v) (Ok b)].
Proof.
  intros (a & tail & -> & -> & H). unfold unavailable in H. by apply map_err_ok in H as ->.
Qed.
Lemma run_binding l r : run source_binding l (Ok r) → l = [ev SourceBinding r].
Proof. intros (a & tail & -> & -> & H). by simplify_eq. Qed.

(** A cancellable program either ran to its end, with the timer's answers between
    its operations, or was cut off. *)
Inductive interleaved : list event → list event → Prop :=
  | il_nil : interleaved [] []
  | il_step o r t1 t2 l l' : interleaved l l' → interleaved (ev o r :: l) (ev Timer t1 :: ev o r :: ev Timer t2 :: l').
Lemma interleaved_elem l l' e : interleaved l l' → e ∈ l → e ∈ l'.
Proof. induction 1; [done|]. rewrite !elem_of_cons. naive_solver. Qed.
Lemma run_cancellable {A} (m : task A) fb l a fb' : run (cancellable fb m) l (Some a, fb') →
  ∃ l0, interleaved l0 l ∧ run m l0 a.
Proof.
  revert fb l. induction m as [b|o k IH|fb0 m IH]; intros fb l H; simpl in H.
  - destruct H as [-> ?]. simplify_eq. exists []. split; [constructor|done].
  - destruct H as ([] & tail & -> & H); [by destruct H|]. destruct H as (r & tail2 & -> & [] & tail3 & -> & H); [by destruct H|].
    apply IH in H as (l0 & Hi & Hr). exists (ev o r :: l0). split; [by constructor|by exists r, l0].
  - eapply IH. exact H.
Qed.

(* ------------------------------------------------------------------ *)
(** ** What a fresh decision rests on *)

(** The event is in the log by its place. *)
Ltac in_log :=
  simpl; first [assumption | apply list_elem_of_here | apply list_elem_of_further; in_log |
                apply elem_of_app; left; in_log | apply elem_of_app; right; in_log].

Section Fresh.
Context {hex : HexCrate} {sha2 : Sha2Crate} {json : AdvisoryJson}.

(** The advisory [s] is eligible under a binding the source returned, and was either
    computed and published by this call or stored in the object it read. *)
Definition vouched (namespace : string) (now : N) (s : Advisory) (l : list event) : Prop :=
  ad_checked_at s ≤ now ∧
  (∃ b, ev SourceBinding (Ok b) ∈ l ∧ ad_configuration s = bd_commitment b ∧ eligible (ad_result s) b = true) ∧
  ((ad_checked_at s = now ∧ ev SourceRefresh (Some (Ok (ad_result s))) ∈ l ∧
    ∃ attempt revision bytes, record_to_vec (mkCacheRecord attempt (Some s)) = Some bytes ∧
      ev (CompareExchange (advisory_key namespace) (Some revision) bytes) (Ok true) ∈ l) ∨
   (∃ o record, ev (GetVersioned (advisory_key namespace) MAX_RECORD_BYTES) (Ok (Some o)) ∈ l ∧
      record_from_slice (vo_bytes o) = Some record ∧ cr_snapshot record = Some s)).

Lemma filter_advisory_Some p a s : filter_advisory p a = Some s ↔ a = Some s ∧ p s = true.
Proof.
  unfold filter_advisory. destruct a as [s'|]; [destruct (p s') eqn:E|]; split; intros H'; destruct_and?; simplify_eq; auto; congruence.
Qed.
Lemma run_stale a l d : run (stale a) l (Ok d) → dc_fresh d = false.
Proof. intros [_ <-]%run_mret. done. Qed.

Lemma publish_fresh key reserved record binding now result l d :
  run (publish key reserved record binding now result) l (Ok d) →
  ∃ s, d = mkDecision true (Some s) ∧ ad_checked_at s = now ∧ ad_configuration s = bd_commitment binding ∧
    ad_result s = result ∧ ∃ bytes, record_to_vec (mkCacheRecord (cr_attempt_at record) (Some s)) = Some bytes ∧
      ev (CompareExchange key (Some (vo_revision reserved)) bytes) (Ok true) ∈ l.
Proof.
  intros (l1 & l2 & e & -> & [-> He]%run_of_outcome & H)%run_bind_ok.
  apply run_bind_ok in H as (l3 & l4 & bytes & -> & [-> Hb%ok_or_ok]%run_of_outcome & H).
  apply run_bind_ok in H as (l5 & l6 & w & -> & ->%run_compare_exchange & H).
  destruct w; [|by apply run_of_outcome in H as [_ H]]. apply run_mret in H as [-> <-].
  eexists. split; [done|]. split_and!; [done..|]. exists bytes. split; [done|]. in_log.
Qed.

Lemma run_refresh_within deadline l r : run (refresh_within deadline) l (Ok (Some r)) →
  ev SourceRefresh (Some r) ∈ l.
Proof.
  intros (l1 & l2 & t & -> & _ & H)%run_bind_ok. destruct (_ <=? _); [by apply run_mret in H as [_ H]|].
  apply run_bind_ok in H as (l3 & l4 & a & -> & (a' & tail & -> & -> & Ha) & H). simplify_eq.
  destruct a as [a|]; [|by apply run_mret in H as [_ H]].
  apply run_bind_ok in H as (l5 & l6 & t2 & -> & _ & H). apply run_mret in H as [_ H].
  destruct (_ <=? _); simplify_eq. in_log.
Qed.

Lemma refresh_reserved_fresh namespace reserved record binding prior now deadline l d :
  run (refresh_reserved (advisory_key namespace) reserved record binding prior now deadline) l (Ok d) →
  dc_fresh d = true → ∃ s, dc_advisory d = Some s ∧ vouched namespace now s l.
Proof.
  intros H Hf. apply run_bind_ok in H as (l1 & l2 & t & -> & _ & H).
  destruct (_ <=? _); [apply run_stale in H; congruence|].
  apply run_bind_ok in H as (l3 & l4 & refreshed & -> & Hr & H).
  destruct refreshed as [[result|e|s]|]; [|apply run_stale in H; congruence|by apply run_of_outcome in H as [_ H]|
    apply run_stale in H; congruence].
  apply run_refresh_within in Hr. apply run_bind_ok in H as (l5 & l6 & c & -> & ->%run_binding & H).
  destruct c as [current|e|s]; [|destruct e; apply run_stale in H; congruence|by apply run_of_outcome in H as [_ H]].
  destruct (String.eqb_spec (bd_commitment current) (bd_commitment binding)) as [Hc|]; [|apply run_stale in H; congruence].
  destruct (eligible result current) eqn:He; simpl in H; [|apply run_stale in H; congruence].
  apply publish_fresh in H as (s & -> & Hat & Hconf & Hres & bytes & Hb & Hcas). exists s. split; [done|].
  split_and!; [lia| |].
  - exists current. split_and!; [in_log|congruence|congruence].
  - left. split_and!; [done|rewrite Hres; in_log|]. exists (cr_attempt_at record), (vo_revision reserved), bytes. split; [exact Hb|in_log].
Qed.

Lemma vouched_mono namespace now s l l' : (∀ e, e ∈ l → e ∈ l') → vouched namespace now s l → vouched namespace now s l'.
Proof.
  intros Hl (Hle & (b & Hb & Hc & He) & Hor). split_and!; [done|exists b; naive_solver|].
  destruct Hor as [(? & ? & a & r & bytes & ? & ?)|(o & rec & ? & ? & ?)]; [left; naive_solver|right].
  exists o, rec. naive_solver.
Qed.

Lemma check_inner_fresh namespace now deadline l d :
  run (check_inner namespace now deadline) l (Ok d) → dc_fresh d = true →
  ∃ s, dc_advisory d = Some s ∧ vouched namespace now s l.
Proof.
  intros H Hf. apply run_bind_ok in H as (l1 & l2 & object & -> & ->%run_get_versioned & H).
  apply run_bind_ok in H as (l3 & l4 & record & -> & [-> Hrec]%run_of_outcome & H).
  cbv zeta in H. apply run_note in H.
  apply run_bind_ok in H as (l5 & l6 & b & -> & ->%run_binding & H).
  destruct b as [binding|e|s]; [|destruct e; [apply run_stale in H; congruence|by apply run_of_outcome in H as [_ H]..]|
    by apply run_of_outcome in H as [_ H]].
  cbv zeta in H. apply run_note in H. destruct (filter_advisory (fun s => (now - ad_checked_at s <? 60) && eligible (ad_result s) binding) _)
    as [s|] eqn:Es.
  - apply run_mret in H as [-> <-]. exists s. split; [done|].
    apply filter_advisory_Some in Es as [Es [_ He]%andb_prop].
    apply filter_advisory_Some in Es as [Es Hc%String.eqb_eq]. apply filter_advisory_Some in Es as [Es Hr].
    unfold retained_at in Hr. apply andb_prop in Hr as [[Hle%N.leb_le _]%andb_prop _].
    split_and!; [done|exists binding; split_and!; [in_log|done|done]|right].
    destruct object as [o|]; [|simplify_eq; done]. apply ok_or_ok in Hrec. exists o, record.
    split_and!; [in_log|done|done].
  - destruct (match cr_attempt_at record with Some _ => _ | None => _ end); [apply run_stale in H; congruence|].
    apply run_bind_ok in H as (l7 & l8 & bytes & -> & [-> _]%run_of_outcome & H).
    apply run_bind_ok in H as (l9 & l10 & w & -> & ->%run_compare_exchange & H).
    destruct w; cbn [negb] in H; [|apply run_stale in H; congruence].
    apply run_bind_ok in H as (l11 & l12 & r & -> & ->%run_get_versioned & H).
    apply run_bind_ok in H as (l13 & l14 & reserved & -> & [-> _]%run_of_outcome & H).
    destruct (negb _); [by apply run_of_outcome in H as [_ H]|].
    apply refresh_reserved_fresh in H as (s & Hs & Hv); [|done]. exists s. split; [done|].
    eapply vouched_mono; [|exact Hv]. intros e He. rewrite !elem_of_app. tauto.
Qed.

Lemma lt_of_sub a b c : 0 < c → a - b < c → a < b + c.
Proof. lia. Qed.

(** C31: When [check] answers that an advisory is fresh, it carries an advisory [s]
    that on return has not expired and is less than 60 seconds old, the time the call
    took included; [s] is eligible under a binding the chain source returned in this
    call and commits to that binding's configuration; and [s] was either computed by
    the refresh of this call and published by a conditional write that succeeded, or
    is the snapshot of the object this call read. *)
Theorem fresh_advisory_vouched namespace now deadline l d
  (Hrun : run (check namespace now deadline) l (Ok d)) (Hfresh : dc_fresh d = true) :
  ∃ s started ended middle, dc_advisory d = Some s ∧
    l = ev Now started :: middle ++ [ev Now ended] ∧
    (let returned := saturating_add now ((ended - started) / SECOND) in
     returned < ad_expires_at s ∧ returned < ad_checked_at s + 60) ∧
    vouched namespace now s l.
Proof.
  apply run_bind_ok in Hrun as (l1 & l2 & started & -> & ->%run_instant & H).
  apply run_bind_ok in H as (l3 & l4 & [result retained] & -> & Hw & H).
  apply run_bind_ok in H as (l5 & l6 & decision & -> & Hd & H).
  apply run_bind_ok in H as (l7 & l8 & ended & -> & ->%run_instant & H). apply run_mret in H as [-> <-].
  unfold age_decision in *. simpl in Hfresh. apply andb_prop in Hfresh as [Hf Hage].
  destruct (filter_advisory _ _) as [s|] eqn:Es; [|done]. apply filter_advisory_Some in Es as [Es Hexp%N.ltb_lt].
  apply N.ltb_lt in Hage. unfold saturating_sub in Hage.
  exists s, started, ended, (l3 ++ l5). split; [done|]. split; [by rewrite <- !app_assoc|].
  split; [split; [done|apply lt_of_sub; [done|exact Hage]]|].
  destruct result as [r|]; [|apply run_stale in Hd; congruence].
  apply run_of_outcome in Hd as [-> ->].
  apply run_bind_ok in Hw as (l6 & l7 & t & -> & _ & H). destruct (_ <=? t); [by apply run_mret in H as [_ H]|].
  apply run_bind_ok in H as (l8 & l9 & [result' fb] & -> & Hc & H).
  apply run_bind in Hc as (l10 & l11 & p & -> & Hc & [-> Hp]). simplify_eq.
  destruct result' as [r|]; [|by apply run_mret in H as [_ H]].
  apply run_bind_ok in H as (l12 & l13 & t2 & -> & _ & H). apply run_mret in H as [_ H].
  destruct (_ <=? t2); simplify_eq. apply run_cancellable in Hc as (l0 & Hi & Hc).
  apply check_inner_fresh in Hc as (s' & Hs' & Hv); [|done]. rewrite Es in Hs'. simplify_eq.
  eapply vouched_mono; [|exact Hv]. intros e He. apply (interleaved_elem _ _ _ Hi) in He. in_log.
Qed.
End Fresh.

(** What is written is what is read back. *)
Class AdvisoryJsonLaws {json : AdvisoryJson} : Prop :=
  record_roundtrip : ∀ record bytes, record_to_vec record = Some bytes → record_from_slice bytes = Some record.

(* ------------------------------------------------------------------ *)
(** ** Any number of calls on one object *)

Section System.
Context {hex : HexCrate} {sha2 : Sha2Crate} {json : AdvisoryJson}.
Context (namespace : string).

(** The stored object, every object there has been, the calls (their clock and what
    they have left to do) and the refreshes that were started, each with the clock of
    its call. *)
Record system := mkSystem {
  sy_object : option VersionedObject;
  sy_history : list VersionedObject;
  sy_calls : list (N * checked Decision);
  sy_refreshed : list (nat * N)
}.
Definition initial : system := mkSystem None [] [] [].

(** What the environment answers: an instant, the timer, the source, a read or a
    conditional write that is carried out (at a new revision), one that is carried out
    and loses its answer, one that is refused, a fault of the store. *)
Inductive reply :=
  | RInstant (t : N)
  | RTimer (fired : bool)
  | RBinding (r : outcome CheckError Binding)
  | RRefresh (r : option (outcome CheckError Semantic))
  | RRead
  | RWritten (revision : string)
  | RLost (revision : string) (r : option ServiceError)
  | RRefused
  | RFault (e : ServiceError).
Inductive choice := Spawn (now deadline : N) | Proceed (i : nat) (r : reply) | Skip (i : nat).

Definition store_state : Type := option VersionedObject * list VersionedObject.
Definition holds (revision : option string) (object : option VersionedObject) : bool :=
  bool_decide (revision = vo_revision <$> object).
(** A revision names one content: it is not that of another one there has been. *)
Definition put (st : store_state) (key : string) (condition : option string) (value : list byte)
    (revision : string) : option store_state :=
  if bool_decide (key = advisory_key namespace) && holds condition st.1 &&
     forallb (fun o => negb (bool_decide (vo_revision o = revision)) || bool_decide (vo_bytes o = value)) st.2
  then Some (Some (mkVersionedObject value revision), mkVersionedObject value revision :: st.2)
  else None.
Definition respond (st : store_state) (o : op) (r : reply) : option (answer o * store_state) :=
  match o return option (answer o * store_state) with
  | Now => match r with RInstant t => Some (t, st) | _ => None end
  | Timer => match r with RTimer fired => Some (fired, st) | _ => None end
  | SourceBinding => match r with RBinding b => Some (b, st) | _ => None end
  | SourceRefresh => match r with RRefresh a => Some (a, st) | _ => None end
  | GetVersioned key _ =>
      if bool_decide (key = advisory_key namespace) then
        match r with RRead => Some (Ok st.1, st) | RFault e => Some (Err e, st) | _ => None end
      else None
  | CompareExchange key condition value =>
      match r with
      | RWritten revision => st' ← put st key condition value revision; Some (Ok true, st')
      | RLost revision e =>
          st' ← put st key condition value revision;
          Some (match e with Some e => Err e | None => Ok false end, st')
      | RRefused => Some (Ok false, st)
      | RFault e => Some (Err e, st)
      | _ => None
      end
  end.

Definition is_refresh (o : op) : bool := match o with SourceRefresh => true | _ => false end.
Definition step (s : system) (c : choice) : option system :=
  match c with
  | Spawn now deadline =>
      if now <? 2 ^ 63 then
        Some (mkSystem (sy_object s) (sy_history s) (sy_calls s ++ [(now, check namespace now deadline)])
                (sy_refreshed s))
      else None
  | Skip i =>
      '(now, m) ← sy_calls s !! i;
      match m with
      | Note _ m => Some (mkSystem (sy_object s) (sy_history s) (<[i := (now, m)]> (sy_calls s)) (sy_refreshed s))
      | _ => None
      end
  | Proceed i r =>
      '(now, m) ← sy_calls s !! i;
      match m with
      | Call o k =>
          '(a, (object, history)) ← respond (sy_object s, sy_history s) o r;
          Some (mkSystem object history (<[i := (now, k a)]> (sy_calls s))
                  (if is_refresh o then (i, now) :: sy_refreshed s else sy_refreshed s))
      | _ => None
      end
  end.
Fixpoint execute (s : system) (l : list choice) : option system :=
  match l with [] => Some s | c :: l => s' ← step s c; execute s' l end.

(* ------------------------------------------------------------------ *)
(** ** How far a call is, and what it may do there *)

Inductive phase :=
  | Start
  | HasRead (object : option VersionedObject)
  | Sent
  | Reserved (object : VersionedObject)
  | Refreshed (object : VersionedObject)
  | Over.

Definition attempt_of (bytes : list byte) : option N := record ← record_from_slice bytes; cr_attempt_at record.
(** [value] reserves an attempt at [now] over [object], a minute after its last one. *)
Definition reserves (now : N) (object : option VersionedObject) (value : list byte) : Prop :=
  attempt_of value = Some now ∧
  match object with
  | Some object => ∀ a, attempt_of (vo_bytes object) = Some a → saturating_add a 60 ≤ now
  | None => True
  end.
Definition allowed (now : N) (p : phase) (o : op) : Prop :=
  match o, p with
  | CompareExchange _ revision value, HasRead object =>
      revision = vo_revision <$> object ∧ reserves now object value
  | CompareExchange _ revision value, Refreshed object =>
      revision = Some (vo_revision object) ∧ attempt_of value = Some now ∧
      attempt_of (vo_bytes object) = Some now
  | CompareExchange _ _ _, _ => False
  | SourceRefresh, Reserved _ => True
  | SourceRefresh, _ => False
  | _, _ => True
  end.
Definition after (p : phase) (o : op) : answer o → phase :=
  match o return answer o → phase with
  | GetVersioned _ _ => fun r =>
      match p, r with
      | Start, Ok object => HasRead object
      | Sent, Ok (Some object) => Reserved object
      | _, _ => Over
      end
  | CompareExchange _ _ _ => fun r => match p, r with HasRead _, Ok true => Sent | _, _ => Over end
  | SourceRefresh => fun _ => match p with Reserved object => Refreshed object | _ => Over end
  | _ => fun _ => p
  end.
Fixpoint legal {A} (now : N) (p : phase) (m : task A) : Prop :=
  match m with
  | Done _ => True
  | Note _ m => legal now p m
  | Call o k => allowed now p o ∧ ∀ r, legal now (after p o r) (k r)
  end.

Lemma legal_bind {A B} now (f : A → task B) (m : task A) : (∀ p a, legal now p (f a)) →
  ∀ p, legal now p m → legal now p (task_bind f m).
Proof.
  intros Hf. induction m as [a|o k IH|fb m IH]; intros p Hm; simpl in *; [apply Hf| |by apply IH].
  destruct Hm as [Ha Hk]. split; [done|]. intros r. by apply IH.
Qed.
Lemma legal_cancellable {A} now (m : task A) : ∀ p fb, legal now p m → legal now p (cancellable fb m).
Proof.
  induction m as [a|o k IH|fb0 m IH]; intros p fb Hm; simpl in *; [done| |by apply IH].
  destruct Hm as [Ha Hk]. split; [done|]. intros [|]; [done|]. simpl. split; [done|]. intros r. split; [done|].
  intros [|]; [done|]. simpl. by apply IH.
Qed.

Lemma legal_checked_bind {A B} now p (m : checked A) (f : A → checked B) :
  (∀ p a, legal now p (f a)) → legal now p m → legal now p (m ≫= f).
Proof. intros Hf. apply legal_bind. by intros p' [a|e|w]. Qed.
Lemma legal_instant {A} now p (f : N → checked A) : (∀ t, legal now p (f t)) → legal now p (instant ≫= f).
Proof. by intros Hf. Qed.
Lemma legal_outcome {A B} now p (m : outcome CheckError A) (f : A → checked B) :
  (∀ a, m = Ok a → legal now p (f a)) → legal now p (of_outcome m ≫= f).
Proof. intros Hf. destruct m; simpl; [by apply Hf|done..]. Qed.
Lemma legal_binding {A} now p (f : outcome CheckError Binding → checked A) :
  (∀ b, legal now p (f b)) → legal now p (source_binding ≫= f).
Proof. by intros Hf. Qed.
Lemma legal_within {A} now p deadline fb (m : task A) : legal now p m → legal now p (within_deadline deadline fb m).
Proof.
  intros Hm. unfold within_deadline. apply legal_instant. intros t. destruct (_ <=? t); [done|].
  apply legal_checked_bind.
  - intros p' [[a|] fb']; [|done]. by apply legal_instant.
  - apply legal_bind; [done|]. by apply legal_cancellable.
Qed.

Context {laws : AdvisoryJsonLaws}.

Lemma attempt_of_written record bytes : record_to_vec record = Some bytes → attempt_of bytes = cr_attempt_at record.
Proof. intros Hb%record_roundtrip. unfold attempt_of. by rewrite Hb. Qed.

Lemma legal_publish now reserved record binding result key :
  attempt_of (vo_bytes reserved) = Some now → cr_attempt_at record = Some now →
  legal now (Refreshed reserved) (publish key reserved record binding now result).
Proof.
  intros Hr Hrec. unfold publish. apply legal_outcome. intros expires_at _. apply legal_outcome.
  intros bytes Hb%ok_or_ok%attempt_of_written. simpl in Hb. simpl. split; [by rewrite Hb|].
  intros [[]|e|w]; simpl; done.
Qed.
Lemma legal_refresh now reserved record binding prior deadline key :
  attempt_of (vo_bytes reserved) = Some now → cr_attempt_at record = Some now →
  legal now (Reserved reserved) (refresh_reserved key reserved record binding prior now deadline).
Proof.
  intros Hr Hrec. unfold refresh_reserved. apply legal_instant. intros t. destruct (_ <=? t); [done|].
  unfold refresh_within. simpl. split; [done|]. intros t2. destruct (_ <=? t2); [done|]. simpl.
  split; [done|]. intros [r|]; [|done]. simpl. split; [done|]. intros t3. destruct (_ <=? t3); [done|]. simpl.
  destruct r as [result|e|w]; [|done..]. apply (legal_binding now (Refreshed reserved)). intros [b|[]|w]; try done.
  destruct (String.eqb _ _); [|done]. destruct (negb _); [done|]. by apply legal_publish.
Qed.
Lemma legal_reserve now object record binding prior deadline key :
  match object with
  | Some object => record_from_slice (vo_bytes object) = Some record
  | None => True
  end →
  (∀ a, cr_attempt_at record = Some a → saturating_add a 60 ≤ now) →
  legal now (HasRead object) (reserve_attempt key object record binding prior now deadline).
Proof.
  intros Hobj Hgap. unfold reserve_attempt. apply legal_outcome. intros bytes Hb%ok_or_ok.
  apply attempt_of_written in Hb as Hat. simpl in Hat. simpl. split.
  { split; [done|]. split; [done|]. destruct object as [o|]; [|done]. unfold attempt_of. by rewrite Hobj. }
  intros [[]|e|w]; try done. simpl. split; [done|]. intros [[reserved|]|e|w]; try done.
  cbn [after mbind checked_bind of_outcome task_bind unavailable map_err ok_or].
  case_bool_decide as Eb; [|done]. simpl negb. cbv iota. apply legal_refresh; [by rewrite Eb|done].
Qed.
Lemma legal_inner now deadline : legal now Start (check_inner namespace now deadline).
Proof.
  unfold check_inner. simpl. split; [done|]. intros [object|e|w]; try done.
  apply (legal_outcome now (HasRead object)). intros record Hrec. simpl.
  split; [done|]. intros [binding|[]|w]; try done. simpl.
  destruct (filter_advisory (fun s => (now - ad_checked_at s <? 60) && eligible (ad_result s) binding) _); [done|].
  destruct (match cr_attempt_at record with Some _ => _ | None => _ end) eqn:Egap; [done|].
  apply legal_reserve.
  - destruct object; [|done]. by apply ok_or_ok in Hrec.
  - intros a Ha. rewrite Ha in Egap. by apply N.ltb_ge.
Qed.
Lemma legal_check now deadline : legal now Start (check namespace now deadline).
Proof.
  unfold check. apply legal_instant. intros started. apply legal_checked_bind.
  - intros p [[r|] retained]; [|by apply legal_instant]. apply legal_outcome. intros d _. by apply legal_instant.
  - apply legal_within, legal_inner.
Qed.

(* ------------------------------------------------------------------ *)
(** ** The invariant of the system *)

Definition spaced (x y : nat * N) : Prop := y.2 + 60 ≤ x.2.
(** The reservations so far, the last one first: each a minute after the one before. *)
Definition object_ok (object : option VersionedObject) (reserved : list (nat * N)) : Prop :=
  match object with
  | None => reserved = []
  | Some o => ∃ c t rest, reserved = (c, t) :: rest ∧ attempt_of (vo_bytes o) = Some t
  end.
Definition history_ok (object : option VersionedObject) (history : list VersionedObject) : Prop :=
  (∀ o, object = Some o → o ∈ history) ∧
  (∀ o1 o2, o1 ∈ history → o2 ∈ history → vo_revision o1 = vo_revision o2 → vo_bytes o1 = vo_bytes o2).
Definition phase_ok (history : list VersionedObject) (reserved refreshed : list (nat * N))
    (c : nat) (now : N) (p : phase) : Prop :=
  match p with
  | Start => True
  | HasRead object => ∀ o, object = Some o → o ∈ history
  | Sent => (c, now) ∈ reserved
  | Reserved o | Refreshed o => (c, now) ∈ reserved ∧ o ∈ history
  | Over => True
  end ∧
  match p with Refreshed _ | Over => True | _ => ∀ t, (c, t) ∉ refreshed end.
Definition call_ok (s : system) (reserved : list (nat * N)) (c : nat) (call : N * checked Decision) : Prop :=
  call.1 < 2 ^ 63 ∧ ∃ p, legal call.1 p call.2 ∧ phase_ok (sy_history s) reserved (sy_refreshed s) c call.1 p.
Definition invariant (s : system) : Prop :=
  ∃ reserved, object_ok (sy_object s) reserved ∧ StronglySorted spaced reserved ∧
    history_ok (sy_object s) (sy_history s) ∧ sy_refreshed s ⊆ reserved ∧ NoDup (sy_refreshed s) ∧
    (∀ c t, (c, t) ∈ sy_refreshed s → (c < length (sy_calls s))%nat) ∧
    ∀ c call, sy_calls s !! c = Some call → call_ok s reserved c call.

Lemma phase_ok_mono history history' reserved reserved' refreshed c now p :
  history ⊆ history' → reserved ⊆ reserved' →
  phase_ok history reserved refreshed c now p → phase_ok history' reserved' refreshed c now p.
Proof.
  intros Hh Hr [H1 H2]. split; [|done]. destruct p as [|[o|]| | | |]; naive_solver.
Qed.

(** A conditional write that is carried out: over an object with the bytes the call
    has read. *)
Lemma put_ok st key condition value revision st' : put st key condition value revision = Some st' →
  condition = vo_revision <$> st.1 ∧ st' = (Some (mkVersionedObject value revision), mkVersionedObject value revision :: st.2) ∧
  ∀ o, o ∈ st.2 → vo_revision o = revision → vo_bytes o = value.
Proof.
  unfold put. destruct (_ && _) eqn:E; [|done]. intros [= <-].
  apply andb_prop in E as [[_ Hc%bool_decide_eq_true]%andb_prop Hall]. split_and!; [done|done|].
  intros o Ho Hr. rewrite forallb_forall in Hall. apply list_elem_of_In in Ho. apply Hall in Ho.
  apply orb_prop in Ho as [Ho%negb_true_iff%bool_decide_eq_false|Ho%bool_decide_eq_true]; done.
Qed.
Lemma history_put object history value revision :
  history_ok object history → (∀ o, o ∈ history → vo_revision o = revision → vo_bytes o = value) →
  history_ok (Some (mkVersionedObject value revision)) (mkVersionedObject value revision :: history).
Proof.
  intros [_ Hh] Hv. split.
  - intros o [= <-]. left.
  - intros o1 o2. rewrite !elem_of_cons. intros [->|H1] [->|H2] E; simpl in *; [done| | |by apply Hh].
    + symmetry. by apply Hv.
    + by apply Hv.
Qed.

(** The bytes of the object whose revision a call holds. *)
Lemma same_bytes object history o : history_ok object history → o ∈ history →
  Some (vo_revision o) = vo_revision <$> object → ∃ cur, object = Some cur ∧ vo_bytes cur = vo_bytes o.
Proof.
  intros [Hin Hh] Ho E. destruct object as [cur|]; simplify_eq/=. exists cur. split; [done|].
  apply Hh; [by apply Hin|done|done].
Qed.

Lemma unsaturated a now : now < 2 ^ 63 → saturating_add a 60 ≤ now → a + 60 ≤ now.
Proof. unfold saturating_add, u64_max. lia. Qed.

(** The ledger of reservations after a write in these phases. *)
Lemma reservation_put object history reserved c now read condition value revision :
  object_ok object reserved → StronglySorted spaced reserved → history_ok object history →
  now < 2 ^ 63 → (∀ o, read = Some o → o ∈ history) →
  condition = vo_revision <$> read → condition = vo_revision <$> object → reserves now read value →
  object_ok (Some (mkVersionedObject value revision)) ((c, now) :: reserved) ∧
  StronglySorted spaced ((c, now) :: reserved).
Proof.
  intros Hobj Hs Hh Hnow Hread Hc Hc' [Hat Hgap]. split.
  { exists c, now, reserved. done. }
  destruct object as [cur|]; simpl in Hobj; [|subst; repeat constructor].
  destruct Hobj as (c' & t & rest & -> & Ht). constructor; [done|].
  assert (t + 60 ≤ now) as Ht'.
  { destruct read as [o|]; [|subst; done]. destruct (same_bytes _ _ o Hh) as (cur' & [= <-] & Eb);
      [by apply Hread|simpl in *; congruence|].
    rewrite Eb in Ht. apply Hgap in Ht. by apply unsaturated. }
  inversion Hs as [|? ? Hs' Hall]; subst. constructor; [exact Ht'|].
  eapply Forall_impl; [exact Hall|]. intros [c2 t2] Hx. unfold spaced in *. simpl in *. lia.
Qed.
Lemma publication_put object history reserved now o condition value revision :
  object_ok object reserved → history_ok object history → o ∈ history →
  condition = Some (vo_revision o) → condition = vo_revision <$> object →
  attempt_of value = Some now → attempt_of (vo_bytes o) = Some now →
  object_ok (Some (mkVersionedObject value revision)) reserved.
Proof.
  intros Hobj Hh Ho Hc Hc' Hv Hat. destruct (same_bytes _ _ o Hh Ho) as (cur & -> & Eb); [congruence|].
  destruct Hobj as (c & t & rest & -> & Ht). exists c, now, rest. split; [|done]. congruence.
Qed.

Lemma advisory_respond_ok object history reserved refreshed c now p o r a object' history' :
  object_ok object reserved → StronglySorted spaced reserved → history_ok object history → now < 2 ^ 63 →
  allowed now p o → phase_ok history reserved refreshed c now p →
  respond (object, history) o r = Some (a, (object', history')) →
  ∃ reserved', object_ok object' reserved' ∧ StronglySorted spaced reserved' ∧ history_ok object' history' ∧
    history ⊆ history' ∧ reserved ⊆ reserved' ∧
    phase_ok history' reserved' (if is_refresh o then (c, now) :: refreshed else refreshed) c now (after p o a).
Proof.
  intros Hobj Hs Hh Hnow Hall Hp Hr.
  assert (∀ p', phase_ok history reserved (if is_refresh o then (c, now) :: refreshed else refreshed) c now p' →
            object' = object → history' = history → after p o a = p' →
          ∃ reserved', object_ok object' reserved' ∧ StronglySorted spaced reserved' ∧ history_ok object' history' ∧
            history ⊆ history' ∧ reserved ⊆ reserved' ∧
            phase_ok history' reserved' (if is_refresh o then (c, now) :: refreshed else refreshed) c now (after p o a))
    as Hsame by (intros p' Hp' -> -> ->; by exists reserved).
  assert (phase_ok history reserved refreshed c now Over) as Hover by done.
  destruct o as [key max|key condition value| | | |].
  - simpl in Hr. destruct (bool_decide _); [|done]. destruct r; simplify_eq; (eapply Hsame; [|done..]).
    + destruct Hp as [Hp1 Hp2]. destruct p; try done; simpl.
      * split; [|done]. intros o ->. by apply Hh.
      * destruct object' as [o|]; [|done]. split; [|done]. split; [done|]. by apply Hh.
    + destruct p; done.
  - simpl in Hr. destruct Hp as [Hp1 Hp2].
    destruct r as [| | | | |revision|revision e| |e]; simplify_eq; try (eapply Hsame; [exact Hover|done|done|by destruct p]).
    + destruct (put _ _ _ _ _) as [st'|] eqn:Eput; simplify_eq/=.
      apply put_ok in Eput as (Hc & Est & Hfresh). simplify_eq/=. destruct p as [|read| | |o|]; try done.
      * destruct Hall as [Hcond Hres].
        destruct (reservation_put _ _ _ c now read _ _ revision Hobj Hs Hh Hnow Hp1 Hcond eq_refl Hres) as [Ho' Hs'].
        exists ((c, now) :: reserved). split_and!; [done|done|by apply (history_put object)|set_solver|set_solver|].
        split; [left|done].
      * destruct Hall as (Hcond & Hv & Hat). exists reserved.
        split_and!; [apply (publication_put object history _ now o (vo_revision <$> object) _ revision); try done; apply Hp1|done|by apply (history_put object)|set_solver|done|done].
    + destruct (put _ _ _ _ _) as [st'|] eqn:Eput; simplify_eq/=.
      apply put_ok in Eput as (Hc & Est & Hfresh). simplify_eq/=. destruct p as [|read| | |o|]; try done.
      * destruct Hall as [Hcond Hres].
        destruct (reservation_put _ _ _ c now read _ _ revision Hobj Hs Hh Hnow Hp1 Hcond eq_refl Hres) as [Ho' Hs'].
        exists ((c, now) :: reserved). split_and!; [done|done|by apply (history_put object)|set_solver|set_solver|].
        by destruct e.
      * destruct Hall as (Hcond & Hv & Hat). exists reserved.
        split_and!; [apply (publication_put object history _ now o (vo_revision <$> object) _ revision); try done; apply Hp1|done|by apply (history_put object)|set_solver|done|done].
  - simpl in Hr. destruct r; simplify_eq. by apply (Hsame p).
  - simpl in Hr. destruct r; simplify_eq. eapply Hsame; [|done..].
    destruct p; try done. destruct Hp as [Hp1 _]. by split.
  - simpl in Hr. destruct r; simplify_eq. by apply (Hsame p).
  - simpl in Hr. destruct r; simplify_eq. by apply (Hsame p).
Qed.

Lemma refreshed_calls c now reserved refreshed o p history :
  allowed now p o → phase_ok history reserved refreshed c now p → refreshed ⊆ reserved → NoDup refreshed →
  (if is_refresh o then (c, now) :: refreshed else refreshed) ⊆ reserved ∧
  NoDup (if is_refresh o then (c, now) :: refreshed else refreshed).
Proof.
  intros Hall [Hp1 Hp2] Hsub Hnd. destruct o; try done. destruct p as [| | |o| |]; try done. simpl.
  destruct Hp1 as [Hin _]. split; [set_solver|]. constructor; [apply Hp2|done].
Qed.
(** A call other than the one that moved. *)
Lemma phase_ok_other history reserved refreshed c c' now now' p b :
  c ≠ c' → phase_ok history reserved refreshed c now p →
  phase_ok history reserved (if b : bool then (c', now') :: refreshed else refreshed) c now p.
Proof.
  intros Hne [H1 H2]. split; [done|]. destruct b; [|done].
  destruct p; try done; intros t [?|?]%elem_of_cons; simplify_eq; by eapply H2.
Qed.

Lemma step_invariant s c s' : invariant s → step s c = Some s' → invariant s'.
Proof.
  intros (reserved & Hobj & Hs & Hh & Hsub & Hnd & Hlen & Hcalls) Hstep. destruct c as [now deadline|i r|i]; simpl in Hstep.
  - destruct (now <? 2 ^ 63) eqn:Enow; simplify_eq. apply N.ltb_lt in Enow. exists reserved. split_and!; try done.
    { intros c t Hin%Hlen. simpl. rewrite length_app. lia. }
    intros c call Hc. apply lookup_app_Some in Hc as [Hc|[Hge Hc]]; [by apply Hcalls|].
    apply list_lookup_singleton_Some in Hc as [Hc <-]. split; [done|]. exists Start. split; [apply legal_check|].
    split; [done|]. intros t Hin%Hlen. lia.
  - destruct (sy_calls s !! i) as [[now m]|] eqn:Ei; simplify_eq/=. destruct m as [|o k|]; try done.
    destruct (respond _ o r) as [[a [object history]]|] eqn:Er; simplify_eq/=.
    destruct (Hcalls _ _ Ei) as (Hnow & p & Hlegal & Hp). simpl in *. destruct Hlegal as [Hall Hk].
    destruct (refreshed_calls _ _ _ _ _ _ _ Hall Hp Hsub Hnd) as [Hsub' Hnd'].
    destruct (advisory_respond_ok _ _ _ _ _ _ _ _ _ _ _ _ Hobj Hs Hh Hnow Hall Hp Er)
      as (reserved' & Hobj' & Hs' & Hh' & Hhist & Hres & Hp').
    exists reserved'. split_and!; try done; [set_solver| |].
    { intros c t Hin. simpl in *. rewrite length_insert. destruct (is_refresh o); [|by apply (Hlen c t)].
      apply elem_of_cons in Hin as [?|?]; simplify_eq; [by apply lookup_lt_Some in Ei|by eapply Hlen]. }
    intros c call Hc. simpl in Hc. apply list_lookup_insert_Some in Hc as [(<- & <- & _)|[Hne Hc]].
    + split; [done|]. exists (after p o a). split; [apply Hk|done].
    + destruct (Hcalls _ _ Hc) as (Hnow2 & p2 & Hl2 & Hp2). split; [done|]. exists p2. split; [done|].
      simpl. apply phase_ok_other; [done|]. by eapply phase_ok_mono.
  - destruct (sy_calls s !! i) as [[now m]|] eqn:Ei; simplify_eq/=. destruct m as [| |fb m]; simplify_eq.
    exists reserved. split_and!; try done.
    { intros c t Hin%Hlen. simpl. by rewrite length_insert. }
    intros c call Hc. simpl in Hc. apply list_lookup_insert_Some in Hc as [(<- & <- & _)|[Hne Hc]]; [|by apply Hcalls].
    destruct (Hcalls _ _ Ei) as (Hnow & p & Hlegal & Hp). split; [exact Hnow|]. by exists p.
Qed.
Lemma execute_invariant l : ∀ s s', invariant s → execute s l = Some s' → invariant s'.
Proof.
  induction l as [|c l IH]; intros s s' Hi H; simpl in H; [by simplify_eq|].
  destruct (step s c) as [s1|] eqn:E; simplify_eq/=. eapply IH; [|done]. by eapply step_invariant.
Qed.
Lemma initial_invariant : invariant initial.
Proof.
  exists []. split_and!; try done; try solve [constructor].
  - split; [done|]. intros o1 o2 Hin. by apply elem_of_nil in Hin.
  - intros c t Hin. by apply elem_of_nil in Hin.
Qed.

Lemma spaced_lookup (l : list (nat * N)) : StronglySorted spaced l → ∀ x y, x ∈ l → y ∈ l → x ≠ y →
  x.2 + 60 ≤ y.2 ∨ y.2 + 60 ≤ x.2.
Proof.
  induction 1 as [|z l Hl IH Hall]; intros x y Hx Hy Hne; [by apply elem_of_nil in Hx|].
  rewrite Forall_forall in Hall. apply elem_of_cons in Hx as [->|Hx], Hy as [->|Hy]; [done|right|left|by apply IH];
    by apply Hall.
Qed.

(** C30: Calls of [check] for one token, any number of them, interleaved operation by
    operation on one object, with conditional writes that lose their answers, faults
    of the store, deadlines that cancel calls anywhere and clocks that disagree: any
    two refreshes that were started belong to clocks at least 60 seconds apart (so
    each call starts at most one). *)
Theorem refreshes_spaced choices s (Hrun : execute initial choices = Some s) i j x y
  (Hx : sy_refreshed s !! i = Some x) (Hy : sy_refreshed s !! j = Some y) (Hne : i ≠ j) :
  x.2 + 60 ≤ y.2 ∨ y.2 + 60 ≤ x.2.
Proof.
  destruct (execute_invariant _ _ _ initial_invariant Hrun) as (reserved & _ & Hs & _ & Hsub & Hnd & _).
  apply (spaced_lookup reserved Hs).
  - by apply Hsub, (list_elem_of_lookup_2 _ i).
  - by apply Hsub, (list_elem_of_lookup_2 _ j).
  - intros ->. by apply Hne, (NoDup_lookup _ _ _ _ Hnd Hx Hy).
Qed.
End System.

(* ------------------------------------------------------------------ *)
(** ** Evaluated instances *)

Module AdvisoryDemo.
#[local] Existing Instances RefHex.hex_crate RefJob.sha2_crate.
#[local] Instance semantic_eq_dec : EqDecision Semantic. Proof. solve_decision. Defined.
#[local] Instance advisory_eq_dec : EqDecision Advisory. Proof. solve_decision. Defined.
#[local] Instance record_eq_dec : EqDecision CacheRecord. Proof. solve_decision. Defined.
#[local] Instance semantic_countable : Countable Semantic :=
  inj_countable' (fun r => match r with NoDrop => None | Qualifying a b => Some (a, b) end)
    (fun r => match r with None => NoDrop | Some (a, b) => Qualifying a b end)
    (fun r => match r with NoDrop => eq_refl | Qualifying _ _ => eq_refl end).
#[local] Instance advisory_countable : Countable Advisory :=
  inj_countable' (fun a => (ad_checked_at a, ad_expires_at a, ad_configuration a, ad_result a))
    (fun '(a, b, c, d) => mkAdvisory a b c d) (fun '(mkAdvisory _ _ _ _) => eq_refl).
#[local] Instance record_countable : Countable CacheRecord :=
  inj_countable' (fun r => (cr_attempt_at r, cr_snapshot r)) (fun '(a, b) => mkCacheRecord a b)
    (fun '(mkCacheRecord _ _) => eq_refl).
#[local] Instance advisory_json : AdvisoryJson :=
  {| record_to_vec r := Some (RefAbi.write r); record_from_slice text := RefAbi.read text |}.
#[local] Instance advisory_json_laws : AdvisoryJsonLaws.
Proof. intros record bytes [= <-]. apply RefAbi.read_write. Qed.

Definition demo_binding : Binding := mkBinding "c0ffee" 100 90 50.
Definition demo_result : Semantic := Qualifying 60 70.
Definition timed (i : nat) (r : reply) : list choice :=
  [Proceed i (RTimer false); Proceed i r; Proceed i (RTimer false)].
Definition instants (i : nat) (n : nat) : list choice := replicate n (Proceed i (RInstant 0)).
(** A call up to its reservation, and from there to its end. *)
Definition reserve (i : nat) (revision : string) : list choice :=
  instants i 2 ++ mjoin (map (timed i) [RRead; RBinding (Ok demo_binding); RWritten revision; RRead]).
Definition refresh (i : nat) (revision : string) : list choice :=
  mjoin (map (timed i) [RInstant 0; RInstant 0; RRefresh (Some (Ok demo_result)); RInstant 0;
                        RBinding (Ok demo_binding); RWritten revision]) ++ instants i 2.
Definition demo_choices : list choice :=
  [Spawn 1000 100; Spawn 1060 100] ++ reserve 0 "r1" ++ refresh 0 "r2" ++ reserve 1 "r3" ++ refresh 1 "r4".
Definition demo_system : system := default initial (execute "token" initial demo_choices).

Example refreshes_spaced_witness : 1060 + 60 ≤ 1000 ∨ 1000 + 60 ≤ 1060.
Proof.
  apply (refreshes_spaced "token" demo_choices demo_system) with (i := 0%nat) (j := 1%nat)
    (x := (1%nat, 1060)) (y := (0%nat, 1000)); [vm_compute; reflexivity..|lia].
Defined.

(** A call that reads the object another one wrote half a minute before. *)
Definition cached : Advisory := mkAdvisory 1000 4600 "c0ffee" demo_result.
Definition cached_object : VersionedObject :=
  mkVersionedObject (RefAbi.write (mkCacheRecord (Some 1000) (Some cached))) "r2".
(** The run of a program on these replies. *)
Fixpoint follow {A} (st : store_state) (m : task A) (l : list reply) : option (list event * A) :=
  match m with
  | Done a => match l with [] => Some ([], a) | _ => None end
  | Note _ m => follow st m l
  | Call o k =>
      match l with
      | [] => None
      | r :: l => '(a, st) ← respond "token" st o r; '(es, b) ← follow st (k a) l; Some (ev o a :: es, b)
      end
  end.
Lemma follow_run {A} (m : task A) : ∀ st l es a, follow st m l = Some (es, a) → run m es a.
Proof.
  induction m as [a|o k IH|fb m IH]; intros st l es b H; simpl in H.
  - destruct l; by simplify_eq.
  - destruct l as [|r l]; [done|]. destruct (respond "token" st o r) as [[a st']|]; simplify_eq/=.
    destruct (follow st' (k a) l) as [[es' b']|] eqn:E; simplify_eq/=. exists a, es'. split; [done|]. by eapply IH.
  - by eapply IH.
Qed.
Definition cached_replies : list reply :=
  [RInstant 0; RInstant 0; RTimer false; RRead; RTimer false; RTimer false; RBinding (Ok demo_binding);
   RTimer false; RInstant 5; RInstant (7 * SECOND)].
Definition cached_decision : Decision := mkDecision true (Some cached).
Definition cached_events : list event :=
  default [] (fst <$> follow (Some cached_object, [cached_object]) (check "token" 1030 (9 * SECOND)) cached_replies).
Lemma cached_run : run (check "token" 1030 (9 * SECOND)) cached_events (Ok cached_decision).
Proof.
  apply (follow_run _ (Some cached_object, [cached_object]) cached_replies). vm_compute. reflexivity.
Qed.
Example fresh_advisory_vouched_witness :
  ∃ s, Some cached = Some s ∧ vouched "token" 1030 s cached_events.
Proof.
  destruct (fresh_advisory_vouched "token" 1030 (9 * SECOND) cached_events cached_decision cached_run)
    as (s & _ & _ & _ & Hs & _ & _ & Hv); [exact eq_refl|].
  exists s. split; [exact Hs|exact Hv].
Defined.
End AdvisoryDemo.
