(* ===== verification/Handler.v ===== *)
(** * The HTTP front of the job service ([job-api/src/bin/lambda.rs], request handling)

    Routes, responses and the incident-open precheck in front of [JobApp].  The
    programs of the service and of the advisory cache are carried out by the runtime,
    a parameter, which also gives the clocks and cancels at a deadline.  A response's
    body is the JSON value whose text it carries. *)

From S2P Require Import Prelude Bytes Text Commit Merkle Kernel TypedData Rpc Abi Config Chain ChainConfig Checkpoint IncidentOpen Artifact JobProtocol JobApp Aws Advisory.
From Stdlib Require Import Strings.Byte Strings.Ascii.

Open Scope string_scope.
Open Scope N_scope.
Open Scope list_scope.

(** Of [lambda_http]'s request: the method, the path, the idempotency-key header when
    it is text, and the body. *)
Record Request := mkRequest {
  rq_method : string;
  rq_path : string;
  rq_idempotency_key : option string;
  rq_body : list byte
}.
Record Response := mkResponse { rs_status : N; rs_body : Value }.
Inductive OpenPrecheckError :=
  | PrecheckInvalidRequest
  | PrecheckIncident (error : IncidentOpenError)
  | PrecheckUnavailable.

(** What executes the service's programs: [run_job] those of [JobApp], [run_advisory]
    those of [Advisory] against a source; [instant_now] is the monotonic clock in
    nanoseconds, [wall_clock] the system's, from the epoch; [select_until] runs a
    computation unless the instant comes first. *)
Class Runtime (W : Type) := {
  run_job : ∀ {A}, prog A → W → A * W;
  run_advisory : ∀ {A}, Source → task A → W → A * W;
  instant_now : W → N * W;
  wall_clock : W → Z * W;
  select_until : ∀ {A}, N → (W → A * W) → W → option A * W
}.

(* ------------------------------------------------------------------ *)
(** ** Routes *)

Definition parse_settlement_route (path : string) : outcome ServiceError SettlementLocator :=
  path ← ok_or (strip_prefix "/settlements/" path) InvalidRequest;
  match str_split "/" path with
  | chain_id :: segments =>
      chain_id ← ok_or (parse_u64 chain_id) InvalidRequest;
      match segments with
      | [registry_; defi_insurance; incident_id; root_] =>
          map_err (fun _ => InvalidRequest) (SettlementLocator_new chain_id registry_ defi_insurance incident_id root_)
      | _ => Err InvalidRequest
      end
  | [] => Err InvalidRequest
  end.

Definition open_job_key (insured_token : string) (reference_block : N) : string :=
  "open:" +:+ insured_token +:+ ":" +:+ to_decimal reference_block.

(* ------------------------------------------------------------------ *)
(** ** Responses *)

Definition error_code (code : string) : Value := VObject [("error", VString code)].
Definition error_response (error : ServiceError) : Response :=
  match error with
  | RequestReadDeniedDetail _ => mkResponse 503 (error_code "REQUEST_READ_DENIED")
  | LaunchUnavailableDetail _ => mkResponse 503 (error_code "WORKER_LAUNCH_UNAVAILABLE")
  | InvalidRequest => mkResponse 400 (error_code "INVALID_REQUEST")
  | NotFound => mkResponse 404 (error_code "NOT_FOUND")
  | AdmissionLimited =>
      mkResponse 429 (VObject [("error", VString "WORKER_BUDGET_EXHAUSTED");
        ("message", VString "Worker launch capacity is currently full. Please retry.");
        ("retryable", VBool true)])
  | SettlementNotEligible => mkResponse 422 (error_code "SETTLEMENT_NOT_ELIGIBLE")
  | Unavailable => mkResponse 503 (error_code "UNAVAILABLE")
  | RequestWriteUnavailable => mkResponse 503 (error_code "REQUEST_WRITE_UNAVAILABLE")
  | RequestReadUnavailable => mkResponse 503 (error_code "REQUEST_READ_UNAVAILABLE")
  | RequestReadDenied => mkResponse 503 (error_code "REQUEST_READ_DENIED")
  | RequestReadIdentityDenied => mkResponse 503 (error_code "REQUEST_READ_IDENTITY_DENIED")
  | RequestReadExplicitDenied => mkResponse 503 (error_code "REQUEST_READ_EXPLICIT_DENIED")
  | CapabilitiesUnavailable => mkResponse 503 (error_code "CAPABILITIES_UNAVAILABLE")
  | LaunchUnavailable => mkResponse 503 (error_code "WORKER_LAUNCH_UNAVAILABLE")
  | InvalidStoredResult => mkResponse 500 (error_code "INVALID_JOB_STATE")
  end.
Definition precheck_error_response (error : OpenPrecheckError) : Response :=
  match error with
  | PrecheckInvalidRequest => mkResponse 400 (error_code "INVALID_REQUEST")
  | PrecheckIncident (InsufficientPriceDrop _) => mkResponse 422 (error_code "PRICE_DROP_NOT_DETECTED")
  | PrecheckIncident ActiveIncident => mkResponse 409 (error_code "INCIDENT_ALREADY_ACTIVE")
  | PrecheckIncident UnapprovedToken => mkResponse 400 (error_code "UNAPPROVED_TOKEN")
  | PrecheckIncident _ | PrecheckUnavailable => mkResponse 503 (error_code "PRICE_PRECHECK_UNAVAILABLE")
  end.
Definition advisory_rejection (decision : Decision) : option (N * string) :=
  match dc_fresh decision, ad_result <$> dc_advisory decision with
  | true, Some (Qualifying _ _) => None
  | true, Some NoDrop => Some (422, "PRICE_DROP_NOT_DETECTED")
  | _, _ => Some (503, "PRICE_PRECHECK_UNAVAILABLE")
  end.

Definition submit_json (value : SubmitOutcome) : Value :=
  VObject [("accepted", VBool (so_accepted value)); ("jobId", VString (so_job_id value))].
Definition download_json (value : ResultDownload) : Value :=
  VObject [("url", VString (rd_url value)); ("sha256", VString (rd_sha256 value));
           ("bytes", number (rd_bytes value)); ("expiresInSeconds", number (rd_expires_in_seconds value))].
Definition poll_json (value : PollOutcome) : Value :=
  VObject ([("jobId", VString (po_job_id value)); ("status", VString (po_status value));
            ("apiVerified", VBool (po_api_verified value))] ++
           match po_payload value with Some payload => [("payload", payload)] | None => [] end ++
           match po_download value with Some d => [("download", download_json d)] | None => [] end).
Definition semantic_json (value : Semantic) : Value :=
  match value with
  | NoDrop => VObject [("outcome", VString "noDrop")]
  | Qualifying reference_block observation_block =>
      VObject [("outcome", VString "qualifying"); ("referenceBlock", number reference_block);
               ("observationBlock", number observation_block)]
  end.
Definition snapshot_json (value : Advisory) : Value :=
  VObject [("checkedAt", number (ad_checked_at value)); ("expiresAt", number (ad_expires_at value));
           ("configuration", VString (ad_configuration value)); ("result", semantic_json (ad_result value))].
(** [value["advisory"] = advisory] on an object without that key. *)
Definition with_advisory (advisory value : Value) : Value :=
  match value with VObject fields => VObject (fields ++ [("advisory", advisory)]) | other => other end.

(* ------------------------------------------------------------------ *)
(** ** Handling a request *)

Section Handle.
Context `{HexCrate, HmacCrate, Sha2Crate, JobJson, WorkJson, AdvisoryJson} {W : Type} `{!Runtime W}.
(** The build's feature flag, the service, and the prechecker's configuration. *)
Context (sepolia : bool) (app : App).
Record OpenPrechecker := mkOpenPrechecker {
  op_registry : Address;
  op_configured_registry : string;
  op_module : Address
}.

(** [within_deadline]: [None] is its error. *)
Definition within_instant {A} (deadline : N) (m : W → A * W) : W → option A * W :=
  fun w =>
    let '(before, w) := instant_now w in
    if deadline <=? before then (None, w)
    else
      let '(result, w) := select_until deadline m w in
      match result with
      | None => (None, w)
      | Some result =>
          let '(after, w) := instant_now w in
          (if deadline <=? after then None else Some result, w)
      end.

Definition advisory_namespace (self : OpenPrechecker) (insured_token : Address) : string :=
  to_decimal (configured_chain_id sepolia) +:+ ":" +:+ address_to_string (op_registry self) +:+ ":" +:+
  address_to_string (op_module self) +:+ ":" +:+ address_to_string insured_token.
Definition precheck_error (error : CheckError) : OpenPrecheckError :=
  match error with
  | CheckActive => PrecheckIncident ActiveIncident
  | CheckUnapproved => PrecheckIncident UnapprovedToken
  | CheckUnavailable => PrecheckUnavailable
  end.
Definition precheck_now : io W OpenPrecheckError N :=
  fun w => let '(now, w) := wall_clock w in
           (if (now <? 0)%Z then Err PrecheckUnavailable else Ok (Z.to_N now / SECOND), w).
Definition prechecker_check (self : OpenPrechecker) (body : list byte) (deadline : N) :
    io W OpenPrecheckError (string * Decision) :=
  request ← lift (map_err (fun _ => PrecheckInvalidRequest)
                    (canonicalize_open_request body (op_configured_registry self)));
  match request with
  | SettlementRequest _ => lift (Err PrecheckInvalidRequest)
  | OpenRequest request =>
      insured_token ← lift (ok_or (address_from_str (co_insured_token request)) PrecheckInvalidRequest);
      let source := mkSource (op_registry self) (op_module self) insured_token in
      let namespace := advisory_namespace self insured_token in
      now ← precheck_now;
      decision ← map_err_io precheck_error (run_advisory source (check namespace now deadline) : io W CheckError Decision);
      mret (co_insured_token request, decision)
  end.

Definition advisory_json (self : OpenPrechecker) (token : string) (decision : Decision) : Value :=
  VObject [("schemaVersion", number 1); ("chainId", number (configured_chain_id sepolia));
    ("registry", VString (address_to_string (op_registry self)));
    ("defiInsurance", VString (address_to_string (op_module self)));
    ("insuredToken", VString token); ("stale", VBool (negb (dc_fresh decision)));
    ("displayOnly", VBool true);
    ("snapshot", match dc_advisory decision with Some s => snapshot_json s | None => VNull end)].

(** What is left of the minute of the advisory, in nanoseconds. *)
Definition fresh_remaining (checked_at : N) : io W unit N :=
  fun w =>
    let seconds := saturating_add checked_at 60 in
    if 2 ^ 63 <=? seconds then (Panic "overflow when adding duration to instant", w)
    else
      let '(now, w) := wall_clock w in
      let remaining := (Z.of_N (seconds * SECOND) - now)%Z in
      (if (remaining <? 0)%Z then Err tt else Ok (Z.to_N remaining), w).

Definition service {A} (m : job A) : io W ServiceError A := run_job m.

(** [POST /jobs/open] on a fresh, qualifying advisory. *)
Definition submit_checked (self : OpenPrechecker) (request : Request) (deadline : N) (token : string)
    (decision : Decision) (checked_at reference_block : N) : io W unit Response :=
  let advisory := advisory_json self token decision in
  fun w =>
    let '(submit_started, w) := instant_now w in
    let '(remaining, w) := fresh_remaining checked_at w in
    match remaining with
    | Err _ => (Ok (precheck_error_response PrecheckUnavailable), w)
    | Panic s => (Panic s, w)
    | Ok remaining =>
        let submit_deadline := N.min deadline (submit_started + remaining) in
        let '(submitted, w) := within_instant submit_deadline
              (service (submit_open sepolia app (open_job_key token reference_block) (rq_body request))) w in
        (match default (Err Unavailable) submitted with
         | Ok value => Ok (mkResponse 202 (with_advisory advisory (submit_json value)))
         | Err error =>
             let response := error_response error in
             Ok (mkResponse (rs_status response) (with_advisory advisory (rs_body response)))
         | Panic s => Panic s
         end, w)
    end.
Definition handle_open (self : OpenPrechecker) (request : Request) (deadline : N) : io W unit Response :=
  fun w =>
    match prechecker_check self (rq_body request) (deadline - 4 * SECOND) w with
    | (Err error, w) => (Ok (precheck_error_response error), w)
    | (Panic s, w) => (Panic s, w)
    | (Ok (token, decision), w) =>
        match advisory_rejection decision with
        | Some (status, code) =>
            (Ok (mkResponse status (VObject [("error", VString code);
                   ("advisory", advisory_json self token decision); ("retryAfterSeconds", number 60)])), w)
        | None =>
            match dc_advisory decision with
            | Some (mkAdvisory checked_at _ _ (Qualifying reference_block _)) =>
                submit_checked self request deadline token decision checked_at reference_block w
            | _ => (Ok (precheck_error_response PrecheckUnavailable), w)
            end
        end
    end.

(** A response of the service, or its error's. *)
Definition respond_with {A} (status : N) (json : A → Value) (m : io W ServiceError A) : io W unit Response :=
  fun w => let '(r, w) := m w in
           (match r with
            | Ok value => Ok (mkResponse status (json value))
            | Err error => Ok (error_response error)
            | Panic s => Panic s
            end, w).

Definition is_submit_path (path : string) : bool :=
  String.eqb path "/jobs" || String.eqb path "/jobs/settlement" || String.eqb path "/jobs/open".
Definition job_id_of (path : string) : option string :=
  job_id ← strip_prefix "/jobs/" path; if str_contains "/" job_id then None else Some job_id.

Definition handle_inner (self : OpenPrechecker) (request : Request) (deadline : N) : io W unit Response :=
  let path := rq_path request in
  if String.eqb (rq_method request) "POST" && is_submit_path path then
    match rq_idempotency_key request with
    | Some key =>
        if N.of_nat (length (rq_body request)) <=? MAX_REQUEST_BYTES then
          if String.eqb path "/jobs/open" then handle_open self request deadline
          else respond_with 202 submit_json (service (submit sepolia app key (rq_body request)))
        else mret (error_response InvalidRequest)
    | None => mret (error_response InvalidRequest)
    end
  else if String.eqb (rq_method request) "GET" then
    if starts_with "/settlements/" path then
      match parse_settlement_route path with
      | Ok locator =>
          respond_with 200 poll_json
            (service (settlement app (loc_chain_id locator) (loc_registry locator)
                        (loc_defi_insurance locator) (loc_incident_id locator) (loc_root locator)))
      | Err error => mret (error_response error)
      | Panic s => lift (Panic s)
      end
    else
      match job_id_of path with
      | Some job_id => respond_with 200 poll_json (service (poll sepolia app job_id))
      | None => mret (error_response InvalidRequest)
      end
  else mret (mkResponse 404 (error_code "NOT_FOUND")).

Definition handle (self : OpenPrechecker) (request : Request) : io W unit Response :=
  fun w =>
    let '(started, w) := instant_now w in
    let deadline := started + 28 * SECOND in
    if String.eqb (rq_method request) "POST" && String.eqb (rq_path request) "/jobs/open" then
      let '(response, w) := within_instant deadline (handle_inner self request deadline) w in
      (default (Ok (precheck_error_response PrecheckUnavailable)) response, w)
    else handle_inner self request deadline w.
End Handle.
