(* ===== verification/HandlerFacts.v ===== *)
(** * What the HTTP front lets through

    The settlement route is the inverse of the locator's text, an incident-open job is
    submitted only on a fresh qualifying advisory and within its minute, and an error's
    details stay inside.  The theorems are about [Handler]. *)

From S2P Require Import Prelude Bytes Text Commit Rpc Abi Config Chain Checkpoint CheckpointStore IncidentOpen Artifact JobProtocol JobApp JobSystem JobRuns Advisory Handler.
From Stdlib Require Import Strings.Byte Strings.Ascii.

Open Scope string_scope.
Open Scope N_scope.
Open Scope list_scope.

(* ------------------------------------------------------------------ *)
(** ** The settlement route *)

Definition route_text (chain_id registry defi_insurance incident_id root : string) : string :=
  "/settlements/" +:+ chain_id +:+ "/" +:+ registry +:+ "/" +:+ defi_insurance +:+ "/" +:+ incident_id +:+ "/" +:+ root.
(** The route of a settlement. *)
Definition route_of (loc : SettlementLocator) : string :=
  route_text (to_decimal (loc_chain_id loc)) (loc_registry loc) (loc_defi_insurance loc) (loc_incident_id loc)
    (loc_root loc).

Lemma split_no_slash s : no_slash s = true → str_split "/" s = [s].
Proof.
  induction s as [|c s IH]; [done|]. cbn [str_split]. unfold no_slash in *. cbn [str_all].
  intros [Hc Hs]%andb_prop. apply negb_true_iff in Hc. by rewrite Hc, IH.
Qed.
Lemma split_slash s rest : no_slash s = true → str_split "/" (s +:+ "/" +:+ rest) = s :: str_split "/" rest.
Proof.
  induction s as [|c s IH]; [done|]. unfold no_slash in *. cbn [str_all]. intros [Hc Hs]%andb_prop.
  apply negb_true_iff in Hc. rewrite str_app_cons. cbn [str_split]. rewrite Hc.
  by rewrite IH.
Qed.
(** The text of segments with the separator between them. *)
Fixpoint join_slash (l : list string) : string :=
  match l with [] => "" | [s] => s | s :: l => s +:+ "/" +:+ join_slash l end.
Lemma split_nonempty c s : str_split c s ≠ [].
Proof. destruct s as [|a s]; [done|]. cbn [str_split]. destruct (Ascii.eqb a c); [done|]. by destruct (str_split c s). Qed.
Lemma join_split s : join_slash (str_split "/" s) = s.
Proof.
  induction s as [|a s IH]; [done|]. cbn [str_split]. pose proof (split_nonempty "/" s) as Hne.
  destruct (Ascii.eqb_spec a "/") as [->|Ha].
  - destruct (str_split "/" s) as [|t l]; [done|]. change (String "/" (join_slash (t :: l)) = String "/" s). by rewrite IH.
  - destruct (str_split "/" s) as [|t l]; [done|]. rewrite <- IH. by destruct l.
Qed.

Lemma lower_hex_id s : str_all is_lower_hex s = true → to_ascii_lowercase s = s.
Proof.
  induction s as [|c s IH]; [done|]. unfold to_ascii_lowercase in *. cbn [str_all str_map]. intros [Hc Hs]%andb_prop.
  rewrite IH by done. f_equal. revert Hc. by destruct c as [[][][][][][][][]].
Qed.
Lemma lower_hex_is_hex s : str_all is_lower_hex s = true → str_all is_ascii_hexdigit s = true.
Proof. apply str_all_impl. intros c [? _]%andb_prop. done. Qed.
Lemma zero_digits_lowercase s : str_all is_zero_digit (to_ascii_lowercase s) = str_all is_zero_digit s.
Proof.
  induction s as [|c s IH]; [done|]. unfold to_ascii_lowercase in *. cbn [str_all str_map]. rewrite IH. f_equal.
  by destruct c as [[][][][][][][][]].
Qed.
Lemma normalize_address_idem value out : normalize_address value = Ok out → normalize_address out = Ok out.
Proof.
  intros Hv. pose proof (normalize_address_ok _ _ Hv) as (digits & -> & Hl & Hx). unfold normalize_address in Hv.
  apply bind_ok in Hv as (hex & _ & Hv). apply bind_ok in Hv as (? & _ & Hv). apply bind_ok in Hv as (? & Hz%bail_if_ok & Hv).
  apply (inj Ok), str_app_cancel in Hv. subst digits.
  unfold normalize_address. rewrite strip_prefix_app. cbn [ok_or mbind outcome_bind].
  rewrite Hl, (lower_hex_is_hex _ Hx). cbn [negb orb N.eqb Pos.eqb bail_if]. rewrite zero_digits_lowercase, Hz. simpl.
  by rewrite to_ascii_lowercase_idem.
Qed.
Lemma locator_new_idem chain registry defi incident root loc :
  SettlementLocator_new chain registry defi incident root = Ok loc →
  SettlementLocator_new (loc_chain_id loc) (loc_registry loc) (loc_defi_insurance loc) (loc_incident_id loc)
    (loc_root loc) = Ok loc.
Proof.
  unfold SettlementLocator_new. intros H.
  apply bind_ok in H as ([] & Hc & H). apply bind_ok in H as ([] & Hv & H).
  apply bind_ok in H as (reg & Hr%map_err_ok & H). apply bind_ok in H as (ins & Hd%map_err_ok & H).
  apply bind_ok in H as (hex & _ & H). apply bind_ok in H as (? & Hb%bail_if_ok & <-%(inj Ok)).
  cbn [loc_chain_id loc_registry loc_defi_insurance loc_incident_id loc_root].
  apply normalize_address_idem in Hr, Hd. unfold normalize_registry. rewrite Hc, Hv, Hr, Hd.
  cbn [mbind outcome_bind map_err]. rewrite strip_prefix_app. cbn [ok_or mbind outcome_bind].
  apply orb_false_iff in Hb as [[Hl Hh%negb_false_iff]%orb_false_iff Hz].
  rewrite str_len_lowercase, Hl, (lower_hex_is_hex _ (lower_hex _ Hh)), zero_digits_lowercase, Hz. simpl.
  by rewrite to_ascii_lowercase_idem.
Qed.

(** The settlement route is read back: the route of a validated settlement parses
    to that settlement, whatever casing it was validated from; and whatever parses is
    [/settlements/] and five segments, a [u64] and the other four parts of a locator
    that validates to the result. *)
Theorem settlement_route_roundtrip :
  (∀ chain registry defi incident root loc, chain ≤ u64_max →
     SettlementLocator_new chain registry defi incident root = Ok loc →
     parse_settlement_route (route_of loc) = Ok loc) ∧
  (∀ path loc, parse_settlement_route path = Ok loc →
     ∃ chain registry defi incident root, path = route_text chain registry defi incident root ∧
       parse_u64 chain = Some (loc_chain_id loc) ∧
       SettlementLocator_new (loc_chain_id loc) registry defi incident root = Ok loc).
Proof.
  split.
  - intros chain registry defi incident root loc Hmax Hnew. pose proof (locator_new_ok _ _ _ _ _ _ Hnew) as (H1 & H2 & H3 & H4).
    pose proof (locator_new_idem _ _ _ _ _ _ Hnew) as Hidem.
    assert (loc_chain_id loc = chain) as Hchain.
    { unfold SettlementLocator_new in Hnew. inv_all_ok. done. }
    unfold parse_settlement_route, route_of, route_text. rewrite strip_prefix_app. cbn [ok_or mbind outcome_bind].
    rewrite split_slash by apply to_decimal_no_slash. rewrite !split_slash, split_no_slash by done.
    rewrite parse_u64_decimal by (rewrite Hchain; done). cbn [ok_or mbind outcome_bind]. by rewrite Hidem.
  - intros path loc H. unfold parse_settlement_route in H.
    apply bind_ok in H as (rest & Hp%ok_or_ok & H). apply strip_prefix_Some in Hp.
    pose proof (join_split rest) as Hj. destruct (str_split "/" rest) as [|chain segments]; [done|].
    apply bind_ok in H as (n & Hn%ok_or_ok & H).
    destruct segments as [|registry [|defi [|incident [|root [|]]]]]; try done.
    apply map_err_ok in H. assert (loc_chain_id loc = n) as <-.
    { unfold SettlementLocator_new in H. inv_all_ok. done. }
    exists chain, registry, defi, incident, root. split_and!; [|done|done]. rewrite Hp, <- Hj. done.
Qed.

Lemma error_status error : rs_status (error_response error) ∈ [400; 404; 422; 429; 500; 503].
Proof. destruct error; simpl; set_solver. Qed.

(* ------------------------------------------------------------------ *)
(** ** Incident-open jobs *)

(** A computation that was not cut off has run. *)
Class RuntimeLaws (W : Type) `{!Runtime W} : Prop :=
  select_until_ran : ∀ A deadline (m : W → A * W) w a w',
    select_until deadline m w = (Some a, w') → m w = (a, w').

Section Open.
Context {hex : HexCrate} {hmac : HmacCrate} {sha2 : Sha2Crate} {jobs : JobJson} {work : WorkJson} {json : AdvisoryJson}
  {W : Type} {runtime : Runtime W}.
Context (sepolia : bool) (app : App).

(** The response is of a job that was submitted on a fresh advisory with a price
    drop: the precheck of this request, before its deadline less four seconds,
    returned it; the wall clock then showed at most 60 seconds after the advisory was
    computed; and the submission, for the advisory's reference block, ended before
    what was left of those 60 seconds and before the deadline. *)
Definition opened (self : OpenPrechecker) (request : Request) (deadline : N) (response : Response) (w : W) : Prop :=
  ∃ token decision s reference observation value started now w1 w2 w3 w4,
    prechecker_check sepolia self (rq_body request) (deadline - 4 * SECOND) w = (Ok (token, decision), w1) ∧
    dc_fresh decision = true ∧ dc_advisory decision = Some s ∧ ad_result s = Qualifying reference observation ∧
    instant_now w1 = (started, w2) ∧ wall_clock w2 = (now, w3) ∧
    (now ≤ Z.of_N (saturating_add (ad_checked_at s) 60 * SECOND))%Z ∧
    within_instant
      (N.min deadline (started + Z.to_N (Z.of_N (saturating_add (ad_checked_at s) 60 * SECOND) - now)))
      (service (submit_open sepolia app (open_job_key token reference) (rq_body request))) w3 = (Some (Ok value), w4) ∧
    response = mkResponse 202 (with_advisory (advisory_json sepolia self token decision) (submit_json value)).

Lemma precheck_error_status error : rs_status (precheck_error_response error) ≠ 202.
Proof. by destruct error as [|[]|]. Qed.
Lemma error_not_accepted error : rs_status (error_response error) ≠ 202.
Proof. by destruct error. Qed.
Lemma rejection_status decision status code : advisory_rejection decision = Some (status, code) → status ≠ 202.
Proof.
  unfold advisory_rejection. destruct (dc_fresh decision), (ad_result <$> dc_advisory decision) as [[]|];
    intros; by simplify_eq.
Qed.
Lemma rejection_none decision : advisory_rejection decision = None →
  dc_fresh decision = true ∧ ∃ s reference observation, dc_advisory decision = Some s ∧
    ad_result s = Qualifying reference observation.
Proof.
  unfold advisory_rejection. destruct (dc_fresh decision), (dc_advisory decision) as [[at_ ex conf [|a b]]|]; simpl; try done.
  intros _. split; [done|]. by eexists _, a, b.
Qed.

Lemma fresh_remaining_ok checked_at w remaining w' : fresh_remaining checked_at w = (Ok remaining, w') →
  ∃ now, wall_clock w = (now, w') ∧ (now ≤ Z.of_N (saturating_add checked_at 60 * SECOND))%Z ∧
    remaining = Z.to_N (Z.of_N (saturating_add checked_at 60 * SECOND) - now).
Proof.
  unfold fresh_remaining. destruct (2 ^ 63 <=? _); [done|]. destruct (wall_clock w) as [now w1].
  destruct (_ <? 0)%Z eqn:E; intros; simplify_eq. apply Z.ltb_ge in E. exists now. split_and!; [done| |done].
  revert E. generalize (Z.of_N (saturating_add checked_at 60 * SECOND)). intros z E. lia.
Qed.

Lemma handle_open_accepted self request deadline w response w' :
  handle_open sepolia app self request deadline w = (Ok response, w') → rs_status response = 202 →
  opened self request deadline response w.
Proof.
  unfold handle_open. intros Hh Hs.
  destruct (prechecker_check sepolia self (rq_body request) (deadline - 4 * SECOND) w) as [[[token decision]|error|p] w1]
    eqn:Ecp; [|simplify_eq; by apply precheck_error_status in Hs|done].
  destruct (advisory_rejection decision) as [[status code]|] eqn:Er.
  { simplify_eq. simpl in Hs. by apply rejection_status in Er. }
  apply rejection_none in Er as (Hf & s & reference & observation & Hadv & Hres). rewrite Hadv in Hh.
  destruct s as [checked_at expires_at conf result]. simpl in Hres. subst result.
  unfold submit_checked in Hh. destruct (instant_now w1) as [started w2] eqn:Ei.
  destruct (fresh_remaining checked_at w2) as [[remaining|e|p] w3] eqn:Ef; [|simplify_eq; by apply precheck_error_status in Hs|done].
  apply fresh_remaining_ok in Ef as (now & Ewall & Hnow & ->).
  destruct (within_instant _ _ w3) as [submitted w4] eqn:Esub. injection Hh as Hr <-.
  destruct submitted as [[value|error|p]|]; simpl in Hr; simplify_eq;
    [|by apply error_not_accepted in Hs].
  by exists token, decision, (mkAdvisory checked_at expires_at conf (Qualifying reference observation)), reference,
    observation, value, started, now, w1, w2, w3, w4.
Qed.

Lemma within_ran `{!RuntimeLaws W} {A} deadline (m : W → A * W) w a w' :
  within_instant deadline m w = (Some a, w') → ∃ before w1 after w2,
    instant_now w = (before, w1) ∧ before < deadline ∧ m w1 = (a, w2) ∧ instant_now w2 = (after, w') ∧ after < deadline.
Proof.
  unfold within_instant. destruct (instant_now w) as [before w1]. destruct (deadline <=? before) eqn:E1; [done|].
  destruct (select_until deadline m w1) as [[r|] w2] eqn:Es; [|done].
  destruct (instant_now w2) as [after w3] eqn:Ea. destruct (deadline <=? after) eqn:E2; intros; simplify_eq.
  apply select_until_ran in Es. apply N.leb_gt in E1, E2. by exists before, w1, after, w2.
Qed.

(** C32: [POST /jobs/open] answers 202 only for a job that was submitted, within 28
    seconds of the request, on an advisory the precheck of this very request returned
    as fresh with a qualifying price drop: the submission started while the wall
    clock showed at most 60 seconds since the advisory was computed and was over
    before those 60 seconds were, and the job's key names the advisory's reference
    block. *)
Theorem open_job_needs_fresh_drop `{!RuntimeLaws W} self request w response w'
  (Hh : handle sepolia app self request w = (Ok response, w'))
  (Hpost : rq_method request = "POST") (Hpath : rq_path request = "/jobs/open")
  (Hs : rs_status response = 202) :
  ∃ started w0 before w1 w2 after,
    instant_now w = (started, w0) ∧ instant_now w0 = (before, w1) ∧ before < started + 28 * SECOND ∧
    opened self request (started + 28 * SECOND) response w1 ∧
    instant_now w2 = (after, w') ∧ after < started + 28 * SECOND ∧
    rq_idempotency_key request ≠ None ∧ N.of_nat (length (rq_body request)) ≤ Aws.MAX_REQUEST_BYTES.
Proof.
  unfold handle in Hh. rewrite Hpost, Hpath in Hh. change (("POST" =? "POST")%string && ("/jobs/open" =? "/jobs/open")%string) with true in Hh.
  destruct (instant_now w) as [started w0] eqn:E0. cbv iota in Hh.
  destruct (within_instant (started + 28 * SECOND) _ w0) as [r w3] eqn:Ew. injection Hh as Hr ->.
  destruct r as [r|]; simpl in Hr; [|simplify_eq; by apply precheck_error_status in Hs]. subst r.
  apply within_ran in Ew as (before & w1 & after & w2 & Hb & Hlt & Hin & Ha & Hlt2).
  unfold handle_inner in Hin. rewrite Hpost, Hpath in Hin.
  change (("POST" =? "POST")%string && is_submit_path "/jobs/open") with true in Hin.
  change ("/jobs/open" =? "/jobs/open")%string with true in Hin. cbv iota in Hin.
  destruct (rq_idempotency_key request) as [key|] eqn:Ek; [|injection Hin as <- _; discriminate Hs].
  destruct (N.of_nat (length (rq_body request)) <=? Aws.MAX_REQUEST_BYTES) eqn:El;
    [|injection Hin as <- _; discriminate Hs].
  apply N.leb_le in El. exists started, w0, before, w1, w2, after. split_and!; try done.
  by eapply handle_open_accepted.
Qed.
End Open.

(** What an error's response says depends only on the kind of the error: the
    messages of the storage and of the instance launcher never leave the service,
    and no error is answered with success. *)
Theorem error_details_hidden :
  (∀ a b, error_response (RequestReadDeniedDetail a) = error_response (RequestReadDeniedDetail b) ∧
          error_response (RequestReadDeniedDetail a) = error_response RequestReadDenied) ∧
  (∀ a b, error_response (LaunchUnavailableDetail a) = error_response (LaunchUnavailableDetail b) ∧
          error_response (LaunchUnavailableDetail a) = error_response LaunchUnavailable) ∧
  (∀ error, rs_status (error_response error) ∈ [400; 404; 422; 429; 500; 503]).
Proof. split_and!; [done|done|apply error_status]. Qed.

(* ------------------------------------------------------------------ *)
(** ** An evaluated instance *)

Module HandlerDemo.
#[local] Existing Instances RefHex.hex_crate RefHex.hex_laws RefCheckpoint.hmac_crate.
#[local] Existing Instances RefJob.job_json RefJob.sha2_crate RefWork.work_json.

Definition demo_binding : Binding := mkBinding "c0ffee" 100 90 50.
Definition cached : Advisory := mkAdvisory 1000 4600 "c0ffee" (Qualifying 60 70).
#[local] Instance one_record : AdvisoryJson :=
  {| record_to_vec _ := Some []; record_from_slice _ := Some (mkCacheRecord (Some 1000) (Some cached)) |}.
(** The answers of a store with a cached advisory, an idle chain and a clock at rest. *)
Definition advisory_answer (o : Advisory.op) : Advisory.answer o :=
  match o return Advisory.answer o with
  | Advisory.GetVersioned _ _ => Ok (Some (mkVersionedObject [] "r"))
  | Advisory.CompareExchange _ _ _ => Ok true
  | SourceBinding => Ok demo_binding
  | SourceRefresh => None
  | Now => 0
  | Timer => false
  end.
Fixpoint follow {A} (m : task A) : A :=
  match m with Done a => a | Advisory.Call o k => follow (k (advisory_answer o)) | Note _ m => follow m end.
Definition demo_seconds : N := 1030.
#[local] Instance demo_runtime : Runtime world := {|
  run_job A m w := exec demo_seconds w m;
  run_advisory A _ m w := (follow m, w);
  instant_now w := (0, w);
  wall_clock w := (Z.of_N (demo_seconds * SECOND), w);
  select_until A _ m w := let '(a, w) := m w in (Some a, w)
|}.
#[local] Instance demo_runtime_laws : RuntimeLaws world.
Proof. intros A deadline m w a w' H. simpl in H. destruct (m w) as [b w1]. by simplify_eq. Qed.

Definition demo_address (b : byte) : Address := array_of 20 (replicate 20 b).
Definition demo_prechecker : OpenPrechecker :=
  mkOpenPrechecker (demo_address x0a) demo_registry (demo_address x0b).
Definition demo_open : Request :=
  mkRequest "POST" "/jobs/open" (Some "key") (RefAbi.write ("0x" +:+ str_repeat 20 "0c")).
Definition demo_response : outcome unit Response * world :=
  handle true demo_app demo_prechecker demo_open demo_empty.
Definition demo_accepted : Response :=
  match demo_response.1 with Ok r => r | _ => mkResponse 0 VNull end.
Lemma demo_handled : handle true demo_app demo_prechecker demo_open demo_empty = (Ok demo_accepted, demo_response.2).
Proof. vm_compute. reflexivity. Qed.
Lemma demo_status : rs_status demo_accepted = 202.
Proof. vm_compute. reflexivity. Qed.

Example open_job_needs_fresh_drop_witness :
  opened true demo_app demo_prechecker demo_open (28 * SECOND) demo_accepted demo_empty.
Proof.
  destruct (open_job_needs_fresh_drop true demo_app demo_prechecker demo_open demo_empty demo_accepted demo_response.2
              demo_handled eq_refl eq_refl demo_status)
    as (started & w0 & before & w1 & w2 & after & Hs & Hb & _ & Ho & _).
  simpl in Hs, Hb. injection Hs as <- <-. injection Hb as <- <-. exact Ho.
Defined.
End HandlerDemo.
