(* ===== verification/ScoreServe.v ===== *)
(** * The score service's request handler ([score-api/src/bin/lambda.rs])

    One table holds a row per account: the last checkpoint and snapshot, their
    version, and the lease of the request that is replaying the account.  Another kind
    of row counts the replays of a time window.  A request is served from the row when
    its snapshot is of the current day; otherwise it takes the lease, reserves work
    from the window's budget, replays the account on the chain and saves the result
    over the version it had read.

    Requests are programs over the operations of the table, the chain and the clock.
    Updates are kept as the service receives them: an update and a condition in the
    table's expression language, with their placeholders. *)

From S2P Require Import Prelude Bytes Text Commit ScoreCore Rpc Abi Config Chain ChainConfig History ScoreApi.
From Stdlib Require Import Strings.Byte Strings.Ascii.

Open Scope string_scope.
Open Scope N_scope.
Open Scope list_scope.

Definition MAX_CHECKPOINT_BYTES : N := 128 * 1024.
Definition SCORE_LIST_CACHE_SECONDS : N := 300.
Definition MAX_SCORE_LIST_PAGES : nat := 200.
Definition DAILY_EPOCH_SECONDS : N := 24 * 60 * 60.
Definition REFRESH_COOLDOWN_SECONDS : N := 5 * 60.
Definition LEGACY_SEPOLIA_CHAIN_ID : N := 11155111.
Definition DEFAULT_SEPOLIA_SCORE_RPC_URL : string := "https://rpc.sepolia.ethpandaops.io".

Definition completed_utc_epoch (finalized_timestamp : N) : option N :=
  let epoch := finalized_timestamp / DAILY_EPOCH_SECONDS * DAILY_EPOCH_SECONDS in
  if DAILY_EPOCH_SECONDS <=? epoch then Some epoch else None.
Definition daily_cache_max_age (epoch now : N) : N :=
  saturating_sub (saturating_add epoch DAILY_EPOCH_SECONDS) now.
Definition is_current_daily_snapshot (snapshot_epoch : option N) (snapshot_version epoch : N) : bool :=
  bool_decide (snapshot_epoch = Some epoch) && (snapshot_version =? SCORE_SNAPSHOT_VERSION).
Definition refresh_requested (query : option string) : bool :=
  match query with
  | Some query => existsb (String.eqb "refresh=1") (str_split "&" query)
  | None => false
  end.
Definition refresh_throttled (last_refresh_at : option N) (now : N) : bool :=
  match last_refresh_at with
  | Some timestamp => now <? saturating_add timestamp REFRESH_COOLDOWN_SECONDS
  | None => false
  end.

Record StoredCheckpoint := mkStoredCheckpoint {
  sto_checkpoint : UserCheckpoint;
  sto_snapshot : option CachedInsuranceScoreSnapshot;
  sto_snapshot_epoch : option N;
  sto_last_refresh_at : option N;
  sto_version : N
}.
Record PersistedCheckpoint := mkPersistedCheckpoint {
  pc_checkpoint : UserCheckpoint;
  pc_snapshot : option CachedInsuranceScoreSnapshot;
  pc_snapshot_epoch : option N
}.
Record CalculatedScore := mkCalculatedScore {
  cal_value : Value;
  cal_cache_max_age : N
}.
Record ScoreNetworkConfig := mkScoreNetworkConfig {
  nc_chain_id : N; nc_name : string; nc_registry : string; nc_rpc_url : string
}.
Record WorkPolicy := mkWorkPolicy {
  calculation_timeout_ms : N;
  lease_seconds : N;
  failure_cooldown_seconds : N;
  budget_window_seconds : N;
  budget_max_attempts : N
}.

(** [serde_json] at the types the service reads and writes. *)
Class ScoreJson := {
  persisted_to_string : PersistedCheckpoint → option string;
  persisted_from_str : string → option PersistedCheckpoint;
  value_from_str : string → option Value;
  user_checkpoint_from_value : Value → option UserCheckpoint;
  network_configs_from_str : string → option (list ScoreNetworkConfig);
  work_policy_from_str : string → option WorkPolicy
}.

(** [Box<dyn Error>]: what was converted into it. *)
Inductive LambdaError :=
  | Message (text : string)
  | JsonError
  | ClockError
  | ParseError
  | TableError (error : string)
  | RpcClientError (error : RpcError)
  | LambdaChain (error : ChainError)
  | LambdaScore (error : IncrementalScoreError).

(* ------------------------------------------------------------------ *)
(** ** Configuration *)

(** [char::is_whitespace] over the UTF-8 text: [value.trim().is_empty()]. *)
Definition is_ascii_white (c : ascii) : bool := in_range 9 13 c || in_range 32 32 c.
Definition is_white2 (a b : ascii) : bool :=
  in_range 194 194 a && (in_range 133 133 b || in_range 160 160 b).
Definition is_white3 (a b c : ascii) : bool :=
  (in_range 225 225 a && in_range 154 154 b && in_range 128 128 c) ||
  (in_range 226 226 a && in_range 128 128 b && (in_range 128 138 c || in_range 168 169 c || in_range 175 175 c)) ||
  (in_range 226 226 a && in_range 129 129 b && in_range 159 159 c) ||
  (in_range 227 227 a && in_range 128 128 b && in_range 128 128 c).
Fixpoint trim_is_empty (s : string) : bool :=
  match s with
  | "" => true
  | String a s =>
      if is_ascii_white a then trim_is_empty s
      else match s with
           | String b s =>
               if is_white2 a b then trim_is_empty s
               else match s with
                    | String c s => is_white3 a b c && trim_is_empty s
                    | "" => false
                    end
           | "" => false
           end
  end.

Section Configuration.
Context `{HexCrate, ScoreJson}.
(** [HttpRpc::new(url, None, timeout)]: the client of an endpoint. *)
Context {HttpRpc : Type} (http_rpc_new : string → N → outcome RpcError HttpRpc).

Definition WorkPolicy_default : WorkPolicy := mkWorkPolicy 20000 30 30 60 10.
Definition within (lo hi n : N) : bool := (lo <=? n) && (n <=? hi).
(** [ms.div_ceil(1000)]. *)
Definition ceil_seconds (ms : N) : N := ms / 1000 + (if ms mod 1000 =? 0 then 0 else 1).
Definition invalid_policy (policy : WorkPolicy) : bool :=
  negb (within 1 25000 (calculation_timeout_ms policy)) ||
  negb (within 1 300 (lease_seconds policy)) ||
  (lease_seconds policy <? ceil_seconds (calculation_timeout_ms policy) + 5) ||
  negb (within 1 3600 (failure_cooldown_seconds policy)) ||
  negb (within (lease_seconds policy) 86400 (budget_window_seconds policy)) ||
  negb (within 1 1000 (budget_max_attempts policy)).
Definition WorkPolicy_from_json (raw : option string) : outcome LambdaError WorkPolicy :=
  policy ← match raw with
           | Some raw => ok_or (work_policy_from_str raw) JsonError
           | None => Ok WorkPolicy_default
           end;
  _ ← bail_if (invalid_policy policy) (Message "invalid USD8_SCORE_WORK_POLICY_JSON bounds");
  Ok policy.

Record RuntimeNetwork := mkRuntimeNetwork {
  rn_score : ScoreNetwork;
  rn_registry : Address;
  rn_rpc : HttpRpc
}.
Record App := mkApp {
  ap_work_policy : WorkPolicy;
  ap_networks : gmap N RuntimeNetwork;
  ap_allowed_origin : string
}.

Definition accept_network (by_chain_id : gmap N ScoreNetworkConfig) (config : ScoreNetworkConfig) :
    outcome LambdaError (gmap N ScoreNetworkConfig) :=
  _ ← bail_if ((nc_chain_id config =? 0) || trim_is_empty (nc_name config) || trim_is_empty (nc_rpc_url config) ||
               match address_from_str (nc_registry config) with Some _ => false | None => true end)
        (Message "USD8_SCORE_NETWORKS_JSON contains an invalid network profile");
  _ ← bail_if (match by_chain_id !! nc_chain_id config with Some _ => true | None => false end)
        (Message "USD8_SCORE_NETWORKS_JSON contains a duplicate chain ID");
  Ok (<[nc_chain_id config := config]> by_chain_id).
Definition network_configs_from_json (raw : string) : outcome LambdaError (gmap N ScoreNetworkConfig) :=
  configs ← ok_or (network_configs_from_str raw) JsonError;
  _ ← bail_if (match configs with [] => true | _ => false end)
        (Message "USD8_SCORE_NETWORKS_JSON must configure at least one network");
  fold_m accept_network ∅ configs.

Definition not_empty (value : option string) : option string :=
  match value with Some s => if str_is_empty s then None else Some s | None => None end.
Definition configured_networks (network_json legacy_registry legacy_rpc_url : option string) :
    outcome LambdaError (gmap N ScoreNetworkConfig) :=
  match not_empty network_json with
  | Some network_json => network_configs_from_json network_json
  | None =>
      registry_ ← ok_or (not_empty legacy_registry)
        (Message "missing required environment variable: USD8_SCORE_NETWORKS_JSON or USD8_REGISTRY");
      let rpc_url := default DEFAULT_SEPOLIA_SCORE_RPC_URL (not_empty legacy_rpc_url) in
      Ok {[ LEGACY_SEPOLIA_CHAIN_ID := mkScoreNetworkConfig LEGACY_SEPOLIA_CHAIN_ID "Sepolia" registry_ rpc_url ]}
  end.
Definition runtime_network (networks : gmap N RuntimeNetwork) (config : ScoreNetworkConfig) :
    outcome LambdaError (gmap N RuntimeNetwork) :=
  registry_ ← ok_or (address_from_str (nc_registry config))
    (Message "USD8_SCORE_NETWORKS_JSON has an invalid Registry address");
  rpc ← map_err RpcClientError (http_rpc_new (nc_rpc_url config) 10000);
  Ok (<[nc_chain_id config :=
        mkRuntimeNetwork (mkScoreNetwork (nc_chain_id config) (nc_name config)) registry_ rpc]> networks).
Definition runtime_networks_from_configs (configs : gmap N ScoreNetworkConfig) :
    outcome LambdaError (gmap N RuntimeNetwork) :=
  fold_m runtime_network ∅ (map snd (btree_iter configs)).

(** Chain served by the chain-less routes. *)
Definition legacy_chain_id (networks : gmap N RuntimeNetwork) : option N :=
  if (size networks =? 1)%nat then fst <$> head (btree_iter networks)
  else match networks !! LEGACY_SEPOLIA_CHAIN_ID with
       | Some _ => Some LEGACY_SEPOLIA_CHAIN_ID
       | None => None
       end.
End Configuration.
Arguments RuntimeNetwork HttpRpc : clear implicits.
Arguments App HttpRpc : clear implicits.

(* ------------------------------------------------------------------ *)
(** ** Routes *)

Inductive ScoreRequest := ExplicitScore (chain_id : N) (account : Address) | LegacyScore (account : Address).
Inductive ScoreListRequest := ExplicitList (chain_id : N) | LegacyList.

(** [str::strip_suffix] of one character. *)
Fixpoint strip_suffix_char (c : ascii) (s : string) : option string :=
  match s with
  | "" => None
  | String a "" => if Ascii.eqb a c then Some "" else None
  | String a s => String a <$> strip_suffix_char c s
  end.
Definition nonzero_chain (text : string) : option N :=
  chain_id ← parse_u64 text; if chain_id =? 0 then None else Some chain_id.

(** The outer [None] is another route, the inner one an invalid request. *)
Definition score_request_from_path `{HexCrate} (path : string) : option (option ScoreRequest) :=
  rest ← strip_prefix "/score/" path;
  match str_split "/" rest with
  | [account] => Some (LegacyScore <$> address_from_str account)
  | [chain; account] =>
      Some (chain_id ← nonzero_chain chain; ExplicitScore chain_id <$> address_from_str account)
  | _ => None
  end.
Definition score_list_request_from_path (path : string) : option (option ScoreListRequest) :=
  rest ← strip_prefix "/scores" path;
  let rest := default rest (strip_suffix_char "/" rest) in
  if str_is_empty rest then Some (Some LegacyList)
  else
    chain ← strip_prefix "/" rest;
    if str_contains "/" chain then None else Some (ExplicitList <$> nonzero_chain chain).

(* ------------------------------------------------------------------ *)
(** ** The table *)

Inductive AttributeValue := AvS (text : string) | AvN (text : string) | AvOther.
Abbreviation Item := (gmap string AttributeValue).
Definition as_s (value : AttributeValue) : option string := match value with AvS s => Some s | _ => None end.
Definition as_n (value : AttributeValue) : option string := match value with AvN s => Some s | _ => None end.
Definition number_value (n : N) : AttributeValue := AvN (to_decimal n).

(** A condition: comparisons of an attribute with a placeholder. *)
Inductive Condition :=
  | AttributeNotExists (name : string)
  | Compare (name symbol value : string)
  | And (c d : Condition)
  | Or (c d : Condition)
  | Group (c : Condition).
(** The clauses of an update: [SET], [REMOVE] and [ADD]. *)
Record UpdateExpression := mkUpdateExpression {
  ue_set : list (string * string);
  ue_remove : list string;
  ue_add : list (string * string)
}.
Record UpdateRequest := mkUpdateRequest {
  ur_key : string;
  ur_update : UpdateExpression;
  ur_condition : Condition;
  ur_names : list (string * string);
  ur_values : list (string * AttributeValue);
  ur_all_new : bool
}.
Inductive UpdateReply :=
  | Updated (attributes : option Item)
  | ConditionalCheckFailed
  | UpdateFailed (error : string).

Fixpoint render_condition (c : Condition) : string :=
  match c with
  | AttributeNotExists name => "attribute_not_exists(" +:+ name +:+ ")"
  | Compare name symbol value => name +:+ " " +:+ symbol +:+ " " +:+ value
  | And c d => render_condition c +:+ " AND " +:+ render_condition d
  | Or c d => render_condition c +:+ " OR " +:+ render_condition d
  | Group c => "(" +:+ render_condition c +:+ ")"
  end.
Definition render_set (assignment : string * string) : string :=
  assignment.1 +:+ " = " +:+ assignment.2.
Definition render_update (u : UpdateExpression) : string :=
  String.concat " "
    (["SET " +:+ String.concat ", " (map render_set (ue_set u))] ++
     match ue_remove u with [] => [] | names => ["REMOVE " +:+ String.concat ", " names] end ++
     match ue_add u with
     | [] => []
     | adds => ["ADD " +:+ String.concat ", " (map (fun a => a.1 +:+ " " +:+ a.2) adds)]
     end).

(* ------------------------------------------------------------------ *)
(** ** Programs *)

(** What is read of a chain, and the answers. *)
Inductive chain_op :=
  | FinalizedBlock
  | BlockAtOrBefore (timestamp upper_bound : N)
  | RegistryExistedAt (registry : Address) (block : N)
  | BlockByNumber (number : N)
  | ComputeIncremental (network : ScoreNetwork) (registry account : Address)
      (reference : BlockAnchor) (previous : option UserCheckpoint).
Definition chain_answer (c : chain_op) : Type :=
  match c with
  | FinalizedBlock => outcome ChainError BlockAnchor
  | BlockAtOrBefore _ _ => outcome ChainError N
  | RegistryExistedAt _ _ => outcome ChainError bool
  | BlockByNumber _ => outcome ChainError BlockAnchor
  | ComputeIncremental _ _ _ _ _ =>
      outcome IncrementalScoreError (CachedInsuranceScoreSnapshot * UserCheckpoint)
  end.
(** Whether the Registry had bytecode at [block]. *)
Definition registry_existed_at `{HexCrate, AbiCodec} {W} `{!RpcIface W} (registry : Address) (block : N) :
    io W ChainError bool :=
  fun w =>
    match assert_contract_code_at (address_to_string registry) "Registry" block w with
    | (Ok _, w) => (Ok true, w)
    | (Err (MissingCode _ _ _), w) => (Ok false, w)
    | (Err error, w) => (Err error, w)
    | (Panic s, w) => (Panic s, w)
    end.
Definition run_chain `{HexCrate, AbiCodec} {W} `{!RpcIface W} (c : chain_op) : W → chain_answer c * W :=
  match c with
  | FinalizedBlock => finalized_block
  | BlockAtOrBefore timestamp upper_bound => block_at_or_before_timestamp timestamp upper_bound
  | RegistryExistedAt registry_ block => registry_existed_at registry_ block
  | BlockByNumber number => block_by_number number
  | ComputeIncremental network registry_ account reference previous =>
      compute_incremental_score_at network registry_ account reference previous
  end.

(** [SystemClock] is [SystemTime::now().duration_since(UNIX_EPOCH)] in seconds; the
    chain reads go to the client of the network [chain_id]. *)
Inductive op :=
  | SystemClock
  | GetItem (pk : string)
  | UpdateItem (request : UpdateRequest)
  | ScanPage (prefix : string) (start_key : option Item)
  | OnChain (chain_id : N) (c : chain_op).
Definition answer (o : op) : Type :=
  match o with
  | SystemClock => option N
  | GetItem _ => outcome string (option Item)
  | UpdateItem _ => UpdateReply
  | ScanPage _ _ => outcome string (list Item * option Item)
  | OnChain _ c => chain_answer c
  end.

(** [Call] is an operation the program waits for; [Limited] one waited for under a
    timeout, which answers [None] when the timeout fires first. *)
Inductive task (A : Type) : Type :=
  | Done (a : A)
  | Call (o : op) (k : answer o → task A)
  | Limited (o : op) (k : option (answer o) → task A).
Arguments Done {A} a.
Arguments Call {A} o k.
Arguments Limited {A} o k.
Fixpoint task_bind {A B} (f : A → task B) (m : task A) : task B :=
  match m with
  | Done a => f a
  | Call o k => Call o (fun r => task_bind f (k r))
  | Limited o k => Limited o (fun r => task_bind f (k r))
  end.
Definition lambda (A : Type) : Type := task (outcome LambdaError A).
#[export] Instance lambda_ret : MRet lambda := fun A a => Done (Ok a).
#[export] Instance lambda_bind : MBind lambda := fun A B f =>
  task_bind (fun r => match r with Ok a => f a | Err e => Done (Err e) | Panic s => Done (Panic s) end).
Definition result {A} (m : outcome LambdaError A) : lambda A := Done m.
Definition request {A} (o : op) (k : answer o → outcome LambdaError A) : lambda A :=
  Call o (fun r => Done (k r)).

(** [tokio::time::timeout] around a program: the clock is read without waiting. *)
Fixpoint with_timeout {A} (m : task A) : task (option A) :=
  match m with
  | Done a => Done (Some a)
  | Call SystemClock k => Call SystemClock (fun r => with_timeout (k r))
  | Call o k => Limited o (fun r => match r with Some r => with_timeout (k r) | None => Done None end)
  | Limited o k => Limited o (fun r => match r with Some r => with_timeout (k (Some r)) | None => Done None end)
  end.

Definition now_seconds : lambda N := request SystemClock (fun r => ok_or r ClockError).
Definition get_item (pk : string) : lambda (option Item) :=
  request (GetItem pk) (fun r => map_err TableError r).
(** [Ok(None)]: the condition did not hold. *)
Definition update_item (u : UpdateRequest) : lambda (option (option Item)) :=
  request (UpdateItem u) (fun r =>
    match r with
    | Updated attributes => Ok (Some attributes)
    | ConditionalCheckFailed => Ok None
    | UpdateFailed error => Err (TableError error)
    end).
Definition scan_page (prefix : string) (start_key : option Item) : lambda (list Item * option Item) :=
  request (ScanPage prefix start_key) (fun r => map_err TableError r).
Definition finalized_on (chain_id : N) : lambda BlockAnchor :=
  request (OnChain chain_id FinalizedBlock) (fun r => map_err LambdaChain r).
Definition at_or_before_on (chain_id timestamp upper_bound : N) : lambda N :=
  request (OnChain chain_id (BlockAtOrBefore timestamp upper_bound)) (fun r => map_err LambdaChain r).
Definition existed_on (chain_id : N) (registry : Address) (block : N) : lambda bool :=
  request (OnChain chain_id (RegistryExistedAt registry block)) (fun r => map_err LambdaChain r).
Definition by_number_on (chain_id number : N) : lambda BlockAnchor :=
  request (OnChain chain_id (BlockByNumber number)) (fun r => map_err LambdaChain r).

(* ------------------------------------------------------------------ *)
(** ** Rows *)

Record ListedScore := mkListedScore {
  ls_account : string;
  ls_gross_earned_score : string;
  ls_available_score : string;
  ls_score_spent : string;
  ls_reference_block : string;
  ls_snapshot_timestamp : string;
  ls_last_refresh_at : option N
}.

(** [trim_start_matches('0')]. *)
Fixpoint trim_zeros (s : string) : string :=
  match s with String "0" s => trim_zeros s | _ => s end.
(** [str]'s order, by bytes. *)
Fixpoint str_compare (a b : string) : comparison :=
  match a, b with
  | "", "" => Eq
  | "", _ => Lt
  | _, "" => Gt
  | String x a, String y b =>
      match N.compare (N_of_ascii x) (N_of_ascii y) with Eq => str_compare a b | c => c end
  end.
Definition then_with (c : comparison) (d : comparison) : comparison := match c with Eq => d | _ => c end.
Definition compare_decimal (left right : string) : comparison :=
  let left := trim_zeros left in
  let right := trim_zeros right in
  then_with (N.compare (str_len left) (str_len right)) (str_compare left right).
Definition listed_compare (a b : ListedScore) : comparison :=
  then_with (compare_decimal (ls_gross_earned_score b) (ls_gross_earned_score a))
    (str_compare (ls_account a) (ls_account b)).
(** [slice::sort_by], which is stable. *)
Fixpoint sorted_insert {A} (cmp : A → A → comparison) (x : A) (l : list A) : list A :=
  match l with
  | [] => [x]
  | y :: l => match cmp x y with Gt => y :: sorted_insert cmp x l | _ => x :: y :: l end
  end.
Definition sort_by {A} (cmp : A → A → comparison) (l : list A) : list A := foldr (sorted_insert cmp) [] l.
Definition sort_listed_scores (rows : list ListedScore) : list ListedScore := sort_by listed_compare rows.

Section Rows.
Context `{HexCrate, ScoreJson}.

Definition decode_checkpoint_payload (payload : string) :
    outcome LambdaError (UserCheckpoint * option CachedInsuranceScoreSnapshot * option N) :=
  match persisted_from_str payload with
  | Some persisted => Ok (pc_checkpoint persisted, pc_snapshot persisted, pc_snapshot_epoch persisted)
  | None =>
      value ← ok_or (value_from_str payload) JsonError;
      match get "checkpoint" value with
      | Some checkpoint =>
          checkpoint ← ok_or (user_checkpoint_from_value checkpoint) JsonError; Ok (checkpoint, None, None)
      | None => checkpoint ← ok_or (user_checkpoint_from_value value) JsonError; Ok (checkpoint, None, None)
      end
  end.

Definition last_refresh_of (item : Item) : option N :=
  value ← item !! "lastRefreshAt"; text ← as_n value; parse_u64 text.
Definition listed_score_from_item (item : Item) : option ListedScore :=
  value ← item !! "payload";
  payload ← as_s value;
  if MAX_CHECKPOINT_BYTES <? str_len payload then None
  else
    match decode_checkpoint_payload payload with
    | Ok (_, Some snapshot, _) =>
        Some (mkListedScore (cs_account snapshot) (cs_gross_earned_score snapshot) (cs_available_score snapshot)
                (cs_score_spent snapshot) (cs_reference_block snapshot) (cs_snapshot_timestamp snapshot)
                (last_refresh_of item))
    | _ => None
    end.

Definition checkpoint_key (chain_id : N) (registry account : Address) : string :=
  to_decimal chain_id +:+ "#" +:+ address_to_string registry +:+ "#" +:+ address_to_string account.
Record Lease := mkLease { generation : N }.

(* ------------------------------------------------------------------ *)
(** ** The operations of [App] on the table *)

Context {HttpRpc : Type} (app : App HttpRpc).
Let policy : WorkPolicy := ap_work_policy app.

Definition budget_key (now : N) : string :=
  "work-budget#" +:+ to_decimal (now / budget_window_seconds policy).
Definition budget_request (now : N) : UpdateRequest := {|
  ur_key := budget_key now;
  ur_update := mkUpdateExpression [("expiresAt", ":ttl")] [] [("used", ":one")];
  ur_condition := Or (AttributeNotExists "used") (Compare "used" "<" ":limit");
  ur_names := [];
  ur_values := [(":ttl", number_value (u64_add now DAILY_EPOCH_SECONDS)); (":one", AvN "1");
                (":limit", number_value (budget_max_attempts policy))];
  ur_all_new := false
|}.
Definition reserve_budget (now : N) : lambda bool :=
  _ ← result (if budget_window_seconds policy =? 0 then Panic "attempt to divide by zero" else Ok tt);
  reply ← update_item (budget_request now);
  mret (match reply with Some _ => true | None => false end).

(** [attribute_not_exists(#v)], or [#v = :expected] with the value. *)
Definition version_condition (name : string) (expected : option N) : Condition :=
  match expected with Some _ => Compare name "=" ":expected" | None => AttributeNotExists name end.
Definition expected_value (expected : option N) : list (string * AttributeValue) :=
  match expected with Some expected => [(":expected", number_value expected)] | None => [] end.
Definition acquire_request (key : string) (epoch : N) (expected : option N) (now : N) : UpdateRequest := {|
  ur_key := key;
  ur_update := mkUpdateExpression
    [("leaseUntil", ":until"); ("retryAfter", ":retry"); ("attemptedAt", ":now"); ("snapshotGeneration", ":epoch")]
    ["expiresAt"] [("generation", ":one")];
  ur_condition :=
    And (And (Group (Or (AttributeNotExists "leaseUntil") (Compare "leaseUntil" "<=" ":now")))
             (Group (Or (AttributeNotExists "retryAfter") (Compare "retryAfter" "<=" ":now"))))
        (Group (version_condition "#v" expected));
  ur_names := [("#v", "version")];
  ur_values := [(":until", number_value (u64_add now (lease_seconds policy)));
                (":retry", number_value (u64_add (u64_add now (lease_seconds policy)) (failure_cooldown_seconds policy)));
                (":now", number_value now); (":epoch", number_value epoch); (":one", AvN "1")] ++
               expected_value expected;
  ur_all_new := true
|}.
Definition lease_of (attributes : option Item) : outcome LambdaError Lease :=
  text ← ok_or (attrs ← attributes; value ← attrs !! "generation"; as_n value) (Message "lease generation missing");
  generation ← ok_or (parse_u64 text) ParseError;
  Ok (mkLease generation).
Definition acquire (key : string) (epoch : N) (expected : option N) (now : N) : lambda (option Lease) :=
  reply ← update_item (acquire_request key epoch expected now);
  match reply with
  | Some attributes => lease ← result (lease_of attributes); mret (Some lease)
  | None => mret None
  end.

(** The pages of the table, at most [fuel] of them. *)
Fixpoint list_pages (fuel : nat) (prefix : string) (start_key : option Item) (rows : list ListedScore) :
    lambda (list ListedScore) :=
  match fuel with
  | O => result (Err (Message "score list exceeds the page limit"))
  | S fuel =>
      '(items, last_evaluated_key) ← scan_page prefix start_key;
      let rows := rows ++ omap listed_score_from_item items in
      match last_evaluated_key with
      | None => mret (sort_listed_scores rows)
      | Some key => list_pages fuel prefix (Some key) rows
      end
  end.
Definition list_scores (network : RuntimeNetwork HttpRpc) : lambda (list ListedScore) :=
  list_pages MAX_SCORE_LIST_PAGES
    (to_decimal (sn_chain_id (rn_score network)) +:+ "#" +:+ address_to_string (rn_registry network) +:+ "#")
    None [].

Definition key_of (network : RuntimeNetwork HttpRpc) (account : Address) : string :=
  checkpoint_key (sn_chain_id (rn_score network)) (rn_registry network) account.
(** The row of the account, decoded. *)
Definition stored_of_item (item : Item) : outcome LambdaError (option StoredCheckpoint) :=
  match item !! "payload" with
  | None => Ok None
  | Some payload_value =>
      payload ← ok_or (as_s payload_value) (Message "invalid checkpoint payload");
      _ ← bail_if (MAX_CHECKPOINT_BYTES <? str_len payload) (Message "checkpoint payload exceeds size limit");
      version ← ok_or (value ← item !! "version"; as_n value) (Message "checkpoint version missing");
      version ← ok_or (parse_u64 version) ParseError;
      '(checkpoint, snapshot, snapshot_epoch) ← decode_checkpoint_payload payload;
      Ok (Some (mkStoredCheckpoint checkpoint snapshot snapshot_epoch (last_refresh_of item) version))
  end.
Definition load (network : RuntimeNetwork HttpRpc) (account : Address) : lambda (option StoredCheckpoint) :=
  item ← get_item (key_of network account);
  match item with Some item => result (stored_of_item item) | None => mret None end.

Definition save_request (key payload : string) (next_version cursor_block snapshot_epoch : N)
    (expected_version last_refresh_at : option N) (lease : Lease) (now : N) : UpdateRequest := {|
  ur_key := key;
  ur_update := mkUpdateExpression
    ([("payload", ":payload"); ("#version", ":version"); ("cursorBlock", ":cursor"); ("snapshotEpoch", ":epoch");
      ("leaseUntil", ":zero"); ("retryAfter", ":zero")] ++
     match last_refresh_at with Some _ => [("lastRefreshAt", ":refresh")] | None => [] end)
    ["expiresAt"] [];
  ur_condition :=
    And (And (And (Compare "generation" "=" ":generation") (Compare "leaseUntil" ">" ":now"))
             (Compare "snapshotGeneration" "=" ":epoch"))
        (Group (version_condition "#version" expected_version));
  ur_names := [("#version", "version")];
  ur_values := [(":payload", AvS payload); (":version", number_value next_version);
                (":cursor", number_value cursor_block); (":epoch", number_value snapshot_epoch); (":zero", AvN "0");
                (":generation", number_value (generation lease)); (":now", number_value now)] ++
               expected_value expected_version ++
               match last_refresh_at with Some refresh => [(":refresh", number_value refresh)] | None => [] end;
  ur_all_new := false
|}.
Definition save (network : RuntimeNetwork HttpRpc) (account : Address) (checkpoint : UserCheckpoint)
    (snapshot : CachedInsuranceScoreSnapshot) (snapshot_epoch cursor_block : N)
    (expected_version last_refresh_at : option N) (lease : Lease) : lambda bool :=
  payload ← result (ok_or (persisted_to_string
                             (mkPersistedCheckpoint checkpoint (Some snapshot) (Some snapshot_epoch))) JsonError);
  _ ← result (bail_if (MAX_CHECKPOINT_BYTES <? str_len payload) (Message "checkpoint payload exceeds size limit"));
  next_version ← result (ok_or (checked_add (default 0 expected_version) 1) (Message "checkpoint version overflow"));
  now ← now_seconds;
  reply ← update_item (save_request (key_of network account) payload next_version cursor_block snapshot_epoch
                         expected_version last_refresh_at lease now);
  mret (match reply with Some _ => true | None => false end).
End Rows.

(* ------------------------------------------------------------------ *)
(** ** Calculating a score *)

Definition token_score_json (score : TokenScoreSnapshot) : Value :=
  VObject [("token", VString (ts_token score)); ("balance", VString (ts_balance score));
    ("grossEarnedScore", VString (ts_gross_earned_score score));
    ("grossScorePerSecond", VString (ts_gross_score_per_second score))].
Definition score_snapshot_json (s : CachedInsuranceScoreSnapshot) : Value :=
  VObject [("snapshotVersion", VNumber (PosInt (cs_snapshot_version s))); ("network", VString (cs_network s));
    ("chainId", VString (cs_chain_id s)); ("registry", VString (cs_registry s)); ("account", VString (cs_account s));
    ("referenceBlock", VString (cs_reference_block s)); ("referenceBlockHash", VString (cs_reference_block_hash s));
    ("scoreCutoffBlock", VString (cs_score_cutoff_block s));
    ("scoreCutoffBlockHash", VString (cs_score_cutoff_block_hash s));
    ("minHoldingRequired", VString (cs_min_holding_required s));
    ("snapshotTimestamp", VString (cs_snapshot_timestamp s));
    ("grossEarnedScore", VString (cs_gross_earned_score s));
    ("maturedGrossEarnedScore", VString (cs_matured_gross_earned_score s));
    ("scoreSpent", VString (cs_score_spent s)); ("availableScore", VString (cs_available_score s));
    ("grossScorePerSecond", VString (cs_gross_score_per_second s));
    ("maturingScorePerSecond", VString (cs_maturing_score_per_second s));
    ("tokenScores", VArray (map token_score_json (cs_token_scores s)));
    ("scoredTokens", VArray (map VString (cs_scored_tokens s)));
    ("logRequests", VString (cs_log_requests s)); ("cacheStatus", VString (cs_cache_status s))].
(** A stored snapshot, served: its status is the request's and it cost no logs. *)
Definition served_as (status : string) (s : CachedInsuranceScoreSnapshot) : CachedInsuranceScoreSnapshot := {|
  cs_snapshot_version := cs_snapshot_version s; cs_network := cs_network s; cs_chain_id := cs_chain_id s;
  cs_registry := cs_registry s; cs_account := cs_account s; cs_reference_block := cs_reference_block s;
  cs_reference_block_hash := cs_reference_block_hash s; cs_score_cutoff_block := cs_score_cutoff_block s;
  cs_score_cutoff_block_hash := cs_score_cutoff_block_hash s; cs_min_holding_required := cs_min_holding_required s;
  cs_snapshot_timestamp := cs_snapshot_timestamp s; cs_gross_earned_score := cs_gross_earned_score s;
  cs_matured_gross_earned_score := cs_matured_gross_earned_score s; cs_score_spent := cs_score_spent s;
  cs_available_score := cs_available_score s; cs_gross_score_per_second := cs_gross_score_per_second s;
  cs_maturing_score_per_second := cs_maturing_score_per_second s; cs_token_scores := cs_token_scores s;
  cs_scored_tokens := cs_scored_tokens s; cs_log_requests := "0"; cs_cache_status := status
|}.

Definition stale_checkpoint (error : IncrementalScoreError) : bool :=
  match error with
  | Malformed _ | TokenMismatch | DecimalsMismatch | RateHistoryMismatch | RetroactiveRate | CursorRollback
  | CheckpointIdentity | CheckpointBlockHash => true
  | _ => false
  end.
Definition unavailable_checkpoint_history (error : IncrementalScoreError) : bool :=
  match error with
  | IsChain (ChainRpc (JsonRpc code message)) =>
      (code =? -32000)%Z && str_contains "historical state" (to_ascii_lowercase message) &&
      str_contains "not available" (to_ascii_lowercase message)
  | _ => false
  end.
Definition deferred_score (stored : option StoredCheckpoint) (status : string) :
    outcome LambdaError CalculatedScore :=
  match stored ≫= sto_snapshot with
  | Some snapshot =>
      if cs_snapshot_version snapshot =? SCORE_SNAPSHOT_VERSION
      then Ok (mkCalculatedScore (score_snapshot_json (served_as status snapshot)) 0)
      else Err (Message "score work deferred; retry later")
  | None => Err (Message "score work deferred; retry later")
  end.

Section Calculate.
Context `{HexCrate, ScoreJson} {HttpRpc : Type} (app : App HttpRpc).

(** The stored snapshot, if it answers the request. *)
Definition cached_snapshot (stored : option StoredCheckpoint) (epoch now : N) (force_refresh : bool) :
    option CachedInsuranceScoreSnapshot :=
  value ← stored;
  if is_current_daily_snapshot (sto_snapshot_epoch value)
       (match sto_snapshot value with Some s => cs_snapshot_version s | None => 0 end) epoch &&
     (negb force_refresh || refresh_throttled (sto_last_refresh_at value) now)
  then sto_snapshot value else None.

(** The block the score is taken at. *)
Definition reference_block (network : RuntimeNetwork HttpRpc) (epoch : N) (finalized : BlockAnchor)
    (force_refresh : bool) : lambda BlockAnchor :=
  let chain := sn_chain_id (rn_score network) in
  if force_refresh then mret finalized
  else
    reference_number ← at_or_before_on chain (saturating_sub epoch 1) (ba_number finalized);
    existed ← existed_on chain (rn_registry network) reference_number;
    if (existed : bool) then by_number_on chain reference_number else mret finalized.

(** The replay from the stored checkpoint, or from nothing when that is unusable. *)
Definition compute (network : RuntimeNetwork HttpRpc) (account : Address) (reference : BlockAnchor)
    (stored : option StoredCheckpoint) : lambda (CachedInsuranceScoreSnapshot * UserCheckpoint) :=
  let at_ previous := OnChain (sn_chain_id (rn_score network))
                        (ComputeIncremental (rn_score network) (rn_registry network) account reference previous) in
  computed ← request (at_ (sto_checkpoint <$> stored)) Ok;
  match computed with
  | Ok value => mret value
  | Err error =>
      if match stored with Some _ => true | None => false end &&
         (stale_checkpoint error || unavailable_checkpoint_history error)
      then request (at_ None) (fun r => map_err LambdaScore r)
      else result (Err (LambdaScore error))
  | Panic s => result (Panic s)
  end.

(** What follows the lease. *)
Definition replay (network : RuntimeNetwork HttpRpc) (account : Address) (force_refresh : bool)
    (now epoch cache_max_age : N) (stored : option StoredCheckpoint) (lease : Lease) : lambda CalculatedScore :=
  reserved_at ← now_seconds;
  reserved ← reserve_budget app reserved_at;
  if negb reserved then result (deferred_score stored "work-throttled")
  else
    finalized ← finalized_on (sn_chain_id (rn_score network));
    if negb (bool_decide (completed_utc_epoch (ba_timestamp finalized) = Some epoch))
    then result (deferred_score stored "updating")
    else
      reference ← reference_block network epoch finalized force_refresh;
      '(snapshot, checkpoint) ← compute network account reference stored;
      cursor_block ← result (ok_or (parse_u64 (cs_reference_block snapshot)) ParseError);
      saved ← save network account checkpoint snapshot epoch cursor_block (sto_version <$> stored)
                (if force_refresh then Some now else None) lease;
      if (saved : bool)
      then mret (mkCalculatedScore (score_snapshot_json snapshot) (if force_refresh then 0 else cache_max_age))
      else
        latest ← load network account;
        result (deferred_score latest "updating").

Definition calculate_inner (network : RuntimeNetwork HttpRpc) (account : Address) (force_refresh : bool) :
    lambda CalculatedScore :=
  now ← now_seconds;
  epoch ← result (ok_or (completed_utc_epoch now) (Message "score clock predates first UTC day"));
  let cache_max_age := daily_cache_max_age epoch now in
  stored ← load network account;
  match cached_snapshot stored epoch now force_refresh with
  | Some snapshot =>
      mret (mkCalculatedScore
              (score_snapshot_json (served_as (if force_refresh then "refresh-throttled" else "daily-hit") snapshot))
              (if force_refresh then 0 else cache_max_age))
  | None =>
      lease ← acquire app (key_of network account) epoch (sto_version <$> stored) now;
      match lease with
      | None => latest ← load network account; result (deferred_score latest "updating")
      | Some lease => replay network account force_refresh now epoch cache_max_age stored lease
      end
  end.

Definition calculate (network : RuntimeNetwork HttpRpc) (account : Address) (force_refresh : bool) :
    lambda CalculatedScore :=
  task_bind (fun r => Done (default (Err (Message "score calculation deadline exceeded")) r))
    (with_timeout (calculate_inner network account force_refresh)).

(* ------------------------------------------------------------------ *)
(** ** Handling a request *)

Record Request := mkRequest { rq_method : string; rq_path : string; rq_query : option string }.
(** The body is the JSON value whose text is sent. *)
Record Response := mkResponse {
  rs_status : N;
  rs_value : Value;
  rs_origin : string;
  rs_cache_control : string;
  rs_retry_after : option string
}.
Definition response (status : N) (value : Value) (origin : string) (cache_max_age : option N) : Response :=
  mkResponse status value origin
    (match cache_max_age with
     | Some seconds => "public, max-age=" +:+ to_decimal seconds +:+ ", s-maxage=" +:+ to_decimal seconds
     | None => "no-store"
     end)
    (if status =? 503 then Some "60" else None).
Definition refused (status : N) (code : string) : Response :=
  response status (VObject [("error", VString code)]) (ap_allowed_origin app) None.

Definition listed_json (row : ListedScore) : Value :=
  VObject [("account", VString (ls_account row)); ("grossEarnedScore", VString (ls_gross_earned_score row));
    ("availableScore", VString (ls_available_score row)); ("scoreSpent", VString (ls_score_spent row));
    ("referenceBlock", VString (ls_reference_block row)); ("snapshotTimestamp", VString (ls_snapshot_timestamp row));
    ("lastRefreshAt", match ls_last_refresh_at row with Some t => VNumber (PosInt t) | None => VNull end)].
Definition listing_json (chain_id : N) (registry : Address) (accounts : list ListedScore) : Value :=
  VObject [("chainId", VString (to_decimal chain_id)); ("registry", VString (address_to_string registry));
    ("count", VNumber (PosInt (N.of_nat (length accounts)))); ("accounts", VArray (map listed_json accounts))].

(** A failure of the work below is answered, and logged, here. *)
Definition respond {A} (m : lambda A) (answered : A → Response) (code : string) : task (outcome unit Response) :=
  task_bind (fun r => Done match r with
                           | Ok a => Ok (answered a)
                           | Err _ => Ok (refused 503 code)
                           | Panic s => Panic s
                           end) m.
Definition handle_list (list_request : option ScoreListRequest) : task (outcome unit Response) :=
  let serve chain_id :=
    match ap_networks app !! chain_id with
    | None => Done (Ok (refused 404 "UNSUPPORTED_CHAIN"))
    | Some network =>
        respond (list_scores network)
          (fun accounts => response 200 (listing_json chain_id (rn_registry network) accounts)
                             (ap_allowed_origin app) (Some SCORE_LIST_CACHE_SECONDS))
          "SCORE_LIST_UNAVAILABLE"
    end in
  match list_request with
  | Some (ExplicitList chain_id) => serve chain_id
  | Some LegacyList =>
      match legacy_chain_id (ap_networks app) with
      | Some chain_id => serve chain_id
      | None => Done (Ok (refused 404 "LEGACY_ROUTE_AMBIGUOUS"))
      end
  | None => Done (Ok (refused 400 "INVALID_REQUEST"))
  end.
Definition handle_score (score_request : ScoreRequest) (query : option string) : task (outcome unit Response) :=
  let serve chain_id account :=
    match ap_networks app !! chain_id with
    | None => Done (Ok (refused 404 "UNSUPPORTED_CHAIN"))
    | Some network =>
        respond (calculate network account (refresh_requested query))
          (fun calculated => response 200 (cal_value calculated) (ap_allowed_origin app)
                               (Some (cal_cache_max_age calculated)))
          "SCORE_UNAVAILABLE"
    end in
  match score_request with
  | ExplicitScore chain_id account => serve chain_id account
  | LegacyScore account =>
      match legacy_chain_id (ap_networks app) with
      | Some chain_id => serve chain_id account
      | None => Done (Ok (refused 404 "LEGACY_ROUTE_AMBIGUOUS"))
      end
  end.
Definition handle (request : Request) : task (outcome unit Response) :=
  if negb (String.eqb (rq_method request) "GET") then Done (Ok (refused 405 "METHOD_NOT_ALLOWED"))
  else
    match score_list_request_from_path (rq_path request) with
    | Some list_request => handle_list list_request
    | None =>
        match score_request_from_path (rq_path request) with
        | Some (Some request') => handle_score request' (rq_query request)
        | Some None => Done (Ok (refused 400 "INVALID_REQUEST"))
        | None => Done (Ok (refused 404 "NOT_FOUND"))
        end
    end.
End Calculate.
