(* ===== verification/ScoreLeases.v ===== *)
(** * The score service's table under concurrent requests

    [TableService] is the table's service: whether an update's condition holds of a
    row and what the update makes of it; its laws are the documented meaning of the
    expressions.  A system is one table, a clock, any number of requests at any point
    of [ScoreServe.calculate], and every update that was ever sent: an update may be
    carried out without its sender learning of it, again, or late; requests stop at
    their timeout; the chain answers each read from a world of its own; rows with an
    expiry date are deleted after it. *)

From S2P Require Import Prelude Bytes Text Commit ScoreCore Rpc Abi Config Chain ChainConfig History Checkpoint CheckpointStore Replay ReplayFacts ScoreApi ScoreApiFacts ScoreServe ScoreServeFacts.
From Stdlib Require Import Strings.Byte Strings.Ascii.

Open Scope string_scope.
Open Scope N_scope.
Open Scope list_scope.

(* ------------------------------------------------------------------ *)
(** ** What the table's expressions mean *)

Definition number (value : AttributeValue) : option N :=
  match value with AvN text => biguint_from_str text | _ => None end.
Definition num (item : Item) (name : string) : option N := item !! name ≫= number.
Definition assoc_of {A} (key : string) (l : list (string * A)) : option A :=
  snd <$> List.find (fun p => String.eqb p.1 key) l.
Definition resolve (u : UpdateRequest) (name : string) : string := default name (assoc_of name (ur_names u)).
Definition placeholder (u : UpdateRequest) (value : string) : option AttributeValue := assoc_of value (ur_values u).
Definition compare_holds (symbol : string) (x y : N) : bool :=
  if String.eqb symbol "=" then x =? y
  else if String.eqb symbol "<" then x <? y
  else if String.eqb symbol "<=" then x <=? y
  else if String.eqb symbol ">" then y <? x else false.
Fixpoint condition_holds (u : UpdateRequest) (item : Item) (c : Condition) : bool :=
  match c with
  | AttributeNotExists name => match item !! resolve u name with Some _ => false | None => true end
  | Compare name symbol value =>
      match num item (resolve u name), placeholder u value ≫= number with
      | Some x, Some y => compare_holds symbol x y
      | _, _ => false
      end
  | And c d => condition_holds u item c && condition_holds u item d
  | Or c d => condition_holds u item c || condition_holds u item d
  | Group c => condition_holds u item c
  end.
Definition set_attribute (u : UpdateRequest) (item : Item) (assignment : string * string) : Item :=
  match placeholder u assignment.2 with Some v => <[resolve u assignment.1 := v]> item | None => item end.
Definition remove_attribute (u : UpdateRequest) (item : Item) (name : string) : Item := delete (resolve u name) item.
Definition add_attribute (u : UpdateRequest) (item : Item) (addition : string * string) : Item :=
  let name := resolve u addition.1 in
  <[name := number_value (default 0 (num item name) + default 0 (placeholder u addition.2 ≫= number))]> item.
Definition applied (u : UpdateRequest) (item : Item) : Item :=
  foldl (add_attribute u)
    (foldl (remove_attribute u) (foldl (set_attribute u) item (ue_set (ur_update u))) (ue_remove (ur_update u)))
    (ue_add (ur_update u)).

Class TableService := {
  ts_check : UpdateRequest → Item → bool;
  ts_apply : UpdateRequest → Item → Item
}.
Class TableLaws {service : TableService} : Prop := {
  law_check : ∀ u item, ts_check u item = condition_holds u item (ur_condition u);
  law_apply : ∀ u item, ts_apply u item = applied u item
}.

Lemma number_number_value n : number (number_value n) = Some n.
Proof. apply biguint_from_to. Qed.
Lemma num_lookup item name v : item !! name = Some (number_value v) → num item name = Some v.
Proof. unfold num. intros ->. apply number_number_value. Qed.
Lemma num_insert_eq (item : Item) a v : num (<[a := v]> item) a = number v.
Proof. unfold num. by rewrite lookup_insert_eq. Qed.
Lemma num_insert_ne (item : Item) a b v : a ≠ b → num (<[a := v]> item) b = num item b.
Proof. intros H. unfold num. by rewrite lookup_insert_ne. Qed.
Lemma num_delete_ne (item : Item) a b : a ≠ b → num (delete a item) b = num item b.
Proof. intros H. unfold num. by rewrite lookup_delete_ne. Qed.
Lemma number_zero : number (AvN "0") = Some 0.
Proof. done. Qed.
Lemma number_one : number (AvN "1") = Some 1.
Proof. done. Qed.
Lemma parse_u64_number g x : parse_u64 (to_decimal g) = Some x → x = g.
Proof.
  intros H. destruct (N.le_gt_cases g u64_max) as [Hg|Hg]; [rewrite parse_u64_decimal in H by done; by simplify_eq|].
  unfold parse_u64 in H. destruct (strip_prefix "+" (to_decimal g)) as [r|] eqn:E.
  - apply strip_prefix_Some in E. pose proof (to_decimal_canonical g) as Hc. unfold canonical_decimal in Hc.
    apply andb_prop in Hc as [_ Hd]. by rewrite E in Hd.
  - simpl in H. destruct (_ || _); [done|]. rewrite biguint_from_to in H. simpl in H. destruct (g <=? u64_max); by simplify_eq.
Qed.

(* ------------------------------------------------------------------ *)
(** ** The three updates of the service *)

Section Updates.
Context {hex : HexCrate} {service : TableService} {laws : TableLaws} {HttpRpc : Type} (app : App HttpRpc).
Let policy := ap_work_policy app.

Definition version_is (expected : option N) (item : Item) : Prop :=
  match expected with Some v => num item "version" = Some v | None => item !! "version" = None end.
(** The row keeps these attributes. *)
Definition keeps (names : list string) (before after : Item) : Prop := ∀ a, a ∈ names → after !! a = before !! a.

Ltac evaluate := rewrite ?law_check, ?law_apply; unfold applied, set_attribute, remove_attribute, add_attribute,
  placeholder, resolve, assoc_of; cbn [ur_condition ur_update ur_names ur_values ue_set ue_remove ue_add].

Lemma check_budget now item : ts_check (budget_request app now) item = true →
  default 0 (num item "used") < budget_max_attempts policy ∨ item !! "used" = None.
Proof.
  evaluate. cbn -[num number_value N.ltb]. rewrite number_number_value.
  destruct (item !! "used") as [v|] eqn:E; [|by auto]. cbn -[num number_value N.ltb].
  destruct (num item "used") as [x|]; [|done]. intros H%N.ltb_lt. by left.
Qed.
Lemma apply_budget now item : let item' := ts_apply (budget_request app now) item in
  num item' "used" = Some (default 0 (num item "used") + 1) ∧
  num item' "expiresAt" = Some (u64_add now DAILY_EPOCH_SECONDS).
Proof.
  cbv zeta. evaluate. cbn -[num number number_value]. rewrite number_one. simpl default.
  split; [by rewrite num_insert_eq, number_number_value, num_insert_ne|].
  by rewrite num_insert_ne, num_insert_eq, number_number_value.
Qed.

Lemma check_acquire key epoch expected now item : ts_check (acquire_request app key epoch expected now) item = true →
  (item !! "leaseUntil" = None ∨ ∃ l, num item "leaseUntil" = Some l ∧ l ≤ now) ∧ version_is expected item.
Proof.
  evaluate. intros H. cbn -[num number_value N.leb N.eqb resolve placeholder] in H.
  apply andb_prop in H as [[H1 _]%andb_prop H2]. split.
  - destruct (item !! "leaseUntil") as [v|] eqn:E; [right|by left]. 
    revert H1. unfold resolve, placeholder, assoc_of. cbn -[num number_value N.leb]. rewrite E, number_number_value.
    destruct (num item "leaseUntil") as [x|]; [|done]. intros H%N.leb_le. eauto.
  - destruct expected as [v|]; revert H2; unfold resolve, placeholder, assoc_of; cbn -[num number_value N.eqb].
    + rewrite number_number_value. simpl. destruct (num item "version") as [x|]; [|done]. by intros ->%N.eqb_eq.
    + by destruct (item !! "version").
Qed.
Lemma apply_acquire key epoch expected now item :
  let item' := ts_apply (acquire_request app key epoch expected now) item in
  num item' "leaseUntil" = Some (u64_add now (lease_seconds policy)) ∧
  item' !! "generation" = Some (number_value (default 0 (num item "generation") + 1)) ∧
  keeps ["payload"; "version"; "used"; "lastRefreshAt"] item item' ∧ item' !! "expiresAt" = None.
Proof.
  cbv zeta. evaluate. destruct expected as [v|]; cbn -[num number number_value]; rewrite number_one; simpl default; split_and!;
    first [rewrite num_insert_ne, num_delete_ne by done; rewrite ?num_insert_ne by done; by rewrite num_insert_eq, number_number_value
          |by rewrite lookup_insert_eq, num_delete_ne, !num_insert_ne
          |by rewrite lookup_insert_ne, lookup_delete_eq
          |intros a Ha; repeat (apply elem_of_cons in Ha as [->|Ha]; [by rewrite lookup_insert_ne, lookup_delete_ne, !lookup_insert_ne|]);
           by apply not_elem_of_nil in Ha].
Qed.

Lemma check_save key payload next cursor epoch expected refresh lease now item :
  ts_check (save_request key payload next cursor epoch expected refresh lease now) item = true →
  num item "generation" = Some (generation lease) ∧ version_is expected item ∧
  ∃ l, num item "leaseUntil" = Some l ∧ now < l.
Proof.
  evaluate. intros H. cbn -[num number_value N.ltb N.eqb resolve placeholder] in H.
  apply andb_prop in H as [[[H1 H2]%andb_prop _]%andb_prop H3]. split_and!.
  - revert H1. unfold resolve, placeholder, assoc_of. cbn -[num number_value N.eqb]. rewrite number_number_value.
    destruct (num item "generation") as [x|]; [|done]. by intros ->%N.eqb_eq.
  - destruct expected as [v|]; revert H3; unfold resolve, placeholder, assoc_of; cbn -[num number_value N.eqb].
    + rewrite number_number_value. simpl. destruct (num item "version") as [x|]; [|done]. by intros ->%N.eqb_eq.
    + by destruct (item !! "version").
  - revert H2. unfold resolve, placeholder, assoc_of. cbn -[num number_value N.ltb]. rewrite number_number_value.
    destruct (num item "leaseUntil") as [x|]; [|done]. intros H%N.ltb_lt. eauto.
Qed.
Lemma apply_save key payload next cursor epoch expected refresh lease now item :
  let item' := ts_apply (save_request key payload next cursor epoch expected refresh lease now) item in
  item' !! "payload" = Some (AvS payload) ∧ item' !! "version" = Some (number_value next) ∧
  keeps ["generation"; "used"] item item' ∧ item' !! "expiresAt" = None ∧ num item' "leaseUntil" = Some 0.
Proof.
  cbv zeta. evaluate. destruct expected as [v|], refresh as [r|]; cbn -[num number number_value]; split_and!;
    first [by rewrite lookup_delete_eq
          |rewrite lookup_delete_ne by done; rewrite ?lookup_insert_ne by done; by rewrite lookup_insert_eq
          |rewrite num_delete_ne by done; rewrite ?num_insert_ne by done; by rewrite num_insert_eq
          |intros a Ha; repeat (apply elem_of_cons in Ha as [->|Ha]; [by rewrite lookup_delete_ne, !lookup_insert_ne|]);
           by apply not_elem_of_nil in Ha].
Qed.
End Updates.

(* ------------------------------------------------------------------ *)
(** ** How far a request is *)

(** The phases of a request: what it has read ([now], the row), the generation of its
    lease, the times it read for the budget and for saving, and what the chain
    computed for it. *)
Inductive phase :=
  | Started
  | Timed (now : N)
  | Loaded (now : N) (row : option Item)
  | Leased (now : N) (row : option Item) (g : N)
  | Budgeting (now : N) (row : option Item) (g at_ : N)
  | Replaying (now : N) (row : option Item) (g : N) (results : list (CachedInsuranceScoreSnapshot * UserCheckpoint))
  | Saving (now : N) (row : option Item) (g : N) (results : list (CachedInsuranceScoreSnapshot * UserCheckpoint)) (at_ : N)
  | Sent (u : UpdateRequest)
  | Over.

(** The generation held, until the save is sent. *)
Definition held (p : phase) : option (N * N) :=
  match p with
  | Leased now _ g | Budgeting now _ g _ | Replaying now _ g _ | Saving now _ g _ _ => Some (now, g)
  | _ => None
  end.
Definition loaded_row (p : phase) : option (option Item) :=
  match p with
  | Loaded _ row | Leased _ row _ | Budgeting _ row _ _ | Replaying _ row _ _ | Saving _ row _ _ _ => Some row
  | _ => None
  end.
Definition results_of (p : phase) : list (CachedInsuranceScoreSnapshot * UserCheckpoint) :=
  match p with Replaying _ _ _ results | Saving _ _ _ results _ => results | _ => [] end.

Section Phases.
Context {hex : HexCrate} {json : ScoreJson} {HttpRpc : Type} (app : App HttpRpc).
Context (network : RuntimeNetwork HttpRpc) (account : Address).
Let key : string := key_of network account.

(** The checkpoint a row holds, decoded. *)
Definition stored_in (row : option Item) : option StoredCheckpoint :=
  match row with
  | Some item => match stored_of_item item with Ok stored => stored | _ => None end
  | None => None
  end.
Definition decodes (row : option Item) : Prop :=
  match row with Some item => ∃ stored, stored_of_item item = Ok stored | None => True end.

(** A save of what the chain computed, over the row that was loaded. *)
Definition saves (row : option Item) (g now : N) (results : list (CachedInsuranceScoreSnapshot * UserCheckpoint))
    (u : UpdateRequest) : Prop :=
  ∃ snapshot checkpoint epoch payload next cursor refresh,
    (snapshot, checkpoint) ∈ results ∧
    persisted_to_string (mkPersistedCheckpoint checkpoint (Some snapshot) (Some epoch)) = Some payload ∧
    checked_add (default 0 (sto_version <$> stored_in row)) 1 = Some next ∧
    u = save_request key payload next cursor epoch (sto_version <$> stored_in row) refresh (mkLease g) now.
(** What a request may do where it is. *)
Definition allowed (p : phase) (o : op) : Prop :=
  match o with
  | SystemClock => True
  | GetItem pk => pk = key
  | ScanPage _ _ => False
  | UpdateItem u =>
      match p with
      | Loaded now row => decodes row ∧ ∃ epoch, u = acquire_request app key epoch (sto_version <$> stored_in row) now
      | Budgeting _ _ _ at_ => u = budget_request app at_
      | Saving _ row g results at_ => decodes row ∧ saves row g at_ results u
      | Sent u' => u = u'
      | _ => False
      end
  | OnChain _ c =>
      match p with
      | Replaying _ row _ _ =>
          match c with
          | ComputeIncremental n r a _ previous =>
              n = rn_score network ∧ r = rn_registry network ∧ a = account ∧
              (previous = None ∨ previous = sto_checkpoint <$> stored_in row)
          | _ => True
          end
      | _ => False
      end
  end.
Definition after_update (p : phase) (r : UpdateReply) : phase :=
  match p, r with
  | Loaded now row, Updated attributes =>
      match lease_of attributes with Ok lease => Leased now row (generation lease) | _ => Over end
  | Budgeting now row g _, Updated _ => Replaying now row g []
  | _, _ => Over
  end.
Definition after_chain (p : phase) (c : chain_op) : chain_answer c → phase :=
  match c return chain_answer c → phase with
  | ComputeIncremental _ _ _ _ _ => fun r =>
      match p, r with
      | Replaying now row g results, Ok result => Replaying now row g (result :: results)
      | _, _ => p
      end
  | _ => fun _ => p
  end.
Definition after (p : phase) (o : op) : answer o → phase :=
  match o return answer o → phase with
  | SystemClock => fun r =>
      match p, r with
      | Started, Some now => Timed now
      | Leased now row g, Some at_ => Budgeting now row g at_
      | Replaying now row g results, Some at_ => Saving now row g results at_
      | _, _ => p
      end
  | GetItem _ => fun r => match p, r with Timed now, Ok row => Loaded now row | _, _ => Over end
  | UpdateItem _ => after_update p
  | ScanPage _ _ => fun _ => Over
  | OnChain _ c => after_chain p c
  end.
(** Every operation [m] may still do is allowed where it does it, and it ends in [Q]. *)
Fixpoint legal {A} (Q : phase → A → Prop) (p : phase) (m : task A) : Prop :=
  match m with
  | Done a => Q p a
  | Call o k => allowed p o ∧ ∀ r, legal Q (after p o r) (k r)
  | Limited o k => allowed p o ∧ (∀ r, legal Q (after p o r) (k (Some r))) ∧ legal Q Over (k None)
  end.
Definition always {A} (p : phase) (a : A) : Prop := True.

Lemma task_legal_bind {A B} (Q : phase → B → Prop) (f : A → task B) (m : task A) :
  ∀ p, legal (fun p a => legal Q p (f a)) p m → legal Q p (task_bind f m).
Proof.
  induction m as [a|o k IH|o k IH]; intros p Hm; simpl in *; [done| |].
  - destruct Hm as [Ha Hk]. split; [done|]. intros r. by apply IH.
  - destruct Hm as (Ha & Hk & Hn). split_and!; [done|intros r; by apply IH|by apply IH].
Qed.
Lemma legal_then {A B} (f : A → lambda B) (m : lambda A) p :
  legal (fun p r => match r with Ok a => legal always p (f a) | _ => True end) p m → legal always p (m ≫= f).
Proof.
  intros H. apply task_legal_bind. revert p H. induction m as [r|o k IH|o k IH]; intros p H; simpl in *.
  - by destruct r.
  - destruct H as [Ha Hk]. split; [done|]. intros r. by apply IH.
  - destruct H as (Ha & Hk & Hn). split_and!; [done|intros r; by apply IH|by apply IH].
Qed.
Lemma legal_with_timeout {A} (m : task A) : ∀ p, legal always p m → legal always p (with_timeout m).
Proof.
  induction m as [a|o k IH|o k IH]; intros p Hm; [done| |].
  - destruct Hm as [Ha Hk]. destruct o; (split; [done|]); [intros r; by apply IH|..];
      (split; [intros r; by apply IH|done]).
  - destruct Hm as (Ha & Hk & Hn). split_and!; [done|intros r; by apply IH|done].
Qed.

(** Sequences, by the operation that comes first. *)
Lemma legal_now {A} (Q : phase → outcome LambdaError A → Prop) p (f : N → lambda A) :
  (∀ p e, Q p (Err e)) → (∀ t, legal Q (after p SystemClock (Some t)) (f t)) → legal Q p (now_seconds ≫= f).
Proof. intros HQ Hf. split; [done|]. intros [t|]; [apply Hf|apply HQ]. Qed.
Lemma legal_result {A B} p (m : outcome LambdaError A) (f : A → lambda B) :
  (∀ a, m = Ok a → legal always p (f a)) → legal always p (result m ≫= f).
Proof. intros Hf. destruct m; simpl; [by apply Hf|done..]. Qed.
Lemma legal_update {A} p u (f : option (option Item) → lambda A) : allowed p (UpdateItem u) →
  (∀ attributes, legal always (after p (UpdateItem u) (Updated attributes)) (f (Some attributes))) →
  legal always Over (f None) → legal always p (update_item u ≫= f).
Proof.
  intros Ha Hu Hn. split; [done|]. intros [attributes| |e]; simpl; [apply Hu| |by destruct p].
  assert (after_update p ConditionalCheckFailed = Over) as -> by (by destruct p). done.
Qed.
Lemma legal_load {A} p (f : option StoredCheckpoint → lambda A) :
  (∀ row, decodes row → legal always (after p (GetItem key) (Ok row)) (f (stored_in row))) →
  legal always p (load network account ≫= f).
Proof.
  intros Hf. split; [done|]. intros [[item|]|e|s]; simpl; try done.
  - destruct (stored_of_item item) as [stored|e|s] eqn:E; [|done..].
    assert (decodes (Some item)) as Hd by (by exists stored).
    specialize (Hf (Some item) Hd). simpl in Hf. by rewrite E in Hf.
  - apply (Hf None). done.
Qed.
Lemma legal_load_end {A} p (f : option StoredCheckpoint → outcome LambdaError A) :
  legal always p (load network account ≫= fun latest => result (f latest)).
Proof. by apply legal_load. Qed.
Lemma legal_chain {A} (Q : phase → outcome LambdaError A → Prop) p id c (k : chain_answer c → outcome LambdaError A) :
  allowed p (OnChain id c) → (∀ r, Q (after p (OnChain id c) r) (k r)) → legal Q p (request (OnChain id c) k).
Proof. intros Ha Hf. split; [done|]. intros r. apply Hf. Qed.

(** Replaying with some results. *)
Definition replaying (now : N) (row : option Item) (g : N) (p : phase) : Prop :=
  ∃ results, p = Replaying now row g results.
Lemma legal_chain_then {A B} now row g p id c (k : chain_answer c → outcome LambdaError A) (f : A → lambda B) :
  replaying now row g p → allowed p (OnChain id c) →
  (∀ p a, replaying now row g p → legal always p (f a)) → legal always p (request (OnChain id c) k ≫= f).
Proof.
  intros [results ->] Ha Hf. apply legal_then. apply legal_chain; [done|]. intros r.
  destruct (k r) as [a|e|s]; [|done..]. apply Hf. destruct c; try (by eexists). cbn. destruct r as [x|e|s]; by eexists.
Qed.
Lemma legal_reference {B} now row g p epoch finalized force (f : BlockAnchor → lambda B) : replaying now row g p →
  (∀ p a, replaying now row g p → legal always p (f a)) →
  legal always p (reference_block network epoch finalized force ≫= f).
Proof.
  intros Hp Hf. apply legal_then. unfold reference_block. destruct force; [by apply Hf|].
  destruct Hp as [results ->].
  split; [done|]. intros [number|e|s]; [|done..]. split; [done|]. intros [[]|e|s]; [|apply Hf; by eexists|done..].
  split; [done|]. intros [a|e|s]; [|done..]. apply Hf. by eexists.
Qed.
(** The chain's result is among those of the phase. *)
Lemma legal_compute {B} now row g results reference (f : CachedInsuranceScoreSnapshot * UserCheckpoint → lambda B) :
  (∀ results a, a ∈ results → legal always (Replaying now row g results) (f a)) →
  legal always (Replaying now row g results) (compute network account reference (stored_in row) ≫= f).
Proof.
  intros Hf. apply legal_then. unfold compute. split; [simpl; auto|].
  intros [a|error|s]; [apply Hf; apply list_elem_of_here| |done].
  change (legal (fun p r => match r with Ok a => legal always p (f a) | _ => True end) (Replaying now row g results)
    (if match stored_in row with Some _ => true | None => false end &&
        (stale_checkpoint error || unavailable_checkpoint_history error)
     then request (OnChain (sn_chain_id (rn_score network)) (ComputeIncremental (rn_score network) (rn_registry network) account reference None))
            (fun r => map_err LambdaScore r)
     else result (Err (LambdaScore error)))).
  destruct (_ && _); [|done]. split; [simpl; auto|].
  intros [a|error'|s]; [apply Hf; apply list_elem_of_here|done..].
Qed.
Lemma legal_save now row g results snapshot checkpoint epoch cursor refresh : decodes row →
  (snapshot, checkpoint) ∈ results →
  ∀ {B} (f : bool → lambda B), (∀ p b, legal always p (f b)) →
  legal always (Replaying now row g results)
    (save network account checkpoint snapshot epoch cursor (sto_version <$> stored_in row) refresh (mkLease g) ≫= f).
Proof.
  intros Hd Hin B f Hf. apply legal_then. unfold save.
  assert (∀ A (m : outcome LambdaError A) (k : A → lambda bool) Q p, (∀ p e, Q p (Err e)) → (∀ p s, Q p (Panic s)) →
    (∀ a, m = Ok a → legal Q p (k a)) → legal Q p (result m ≫= k)) as Hres.
  { intros A m k Q p He Hs Hk. destruct m; simpl; [by apply Hk|apply He|apply Hs]. }
  apply Hres; [done..|]. intros payload Hp%ok_or_ok. apply Hres; [done..|]. intros _ _.
  apply Hres; [done..|]. intros next Hn%ok_or_ok. apply legal_now; [done|]. intros t. split.
  - split; [done|]. by exists snapshot, checkpoint, epoch, payload, next, cursor, refresh.
  - intros [attributes| |e]; simpl; done.
Qed.

Lemma legal_budget {B} now row g at_ (f : bool → lambda B) :
  legal always (Replaying now row g []) (f true) → legal always Over (f false) →
  legal always (Budgeting now row g at_) (reserve_budget app at_ ≫= f).
Proof.
  intros Ht Hf. unfold reserve_budget. apply legal_then. destruct (budget_window_seconds _ =? 0); [done|].
  split; [done|]. intros [attributes| |e]; simpl; done.
Qed.
Lemma legal_acquire {B} now row epoch (f : option Lease → lambda B) : decodes row →
  (∀ g, legal always (Leased now row g) (f (Some (mkLease g)))) → legal always Over (f None) →
  legal always (Loaded now row) (acquire app key epoch (sto_version <$> stored_in row) now ≫= f).
Proof.
  intros Hd Hs Hn. unfold acquire. apply legal_then. split; [by split; [done|exists epoch]|].
  intros [attributes| |e]; simpl; [|done..]. destruct (lease_of attributes) as [[g]|e|s]; simpl; [apply Hs|done..].
Qed.

Lemma legal_replay now row g epoch cma force : decodes row →
  legal always (Leased now row g) (replay app network account force now epoch cma (stored_in row) (mkLease g)).
Proof.
  intros Hd. unfold replay. apply legal_now; [done|]. intros at_. apply legal_budget; [|exact I].
  apply (legal_chain_then now row g); [by eexists|done|]. intros p finalized Hp.
  destruct (negb _); [done|]. apply (legal_reference now row g); [done|]. intros p' reference [results ->].
  apply legal_compute. intros results' [snapshot checkpoint] Hin.
  apply legal_result. intros cursor _. apply legal_save; [done..|]. intros p'' []; [done|]. apply legal_load_end.
Qed.
Lemma legal_calculate force : legal always Started (calculate app network account force).
Proof.
  unfold calculate. apply task_legal_bind.
  assert (∀ A (m : task A) (Q : phase → A → Prop) p, (∀ p a, Q p a) → legal always p m → legal Q p m) as Hw.
  { intros A m Q p HQ. revert p. induction m as [a|o k IH|o k IH]; intros p; simpl; [auto| |]; naive_solver. }
  apply Hw; [done|]. apply legal_with_timeout. unfold calculate_inner. apply legal_now; [done|]. intros now.
  apply legal_result. intros epoch _. apply legal_load. intros row Hd. cbn [after].
  destruct (cached_snapshot _ _ _ _); [done|]. apply legal_acquire; [done| |apply legal_load_end].
  intros g. by apply legal_replay.
Qed.
End Phases.

(* ------------------------------------------------------------------ *)
(** ** The system *)

Section System.
Context {hex : HexCrate} {json : ScoreJson} {abi : AbiCodec} {W : Type} {rpc : RpcIface W}.
Context {service : TableService} {HttpRpc : Type} (app : App HttpRpc).
Let policy := ap_work_policy app.

Record call := mkCall {
  cl_started : N;
  cl_network : RuntimeNetwork HttpRpc;
  cl_account : Address;
  cl_phase : phase;
  cl_granted : option N;
  cl_task : task (outcome LambdaError CalculatedScore)
}.
Definition cl_key (c : call) : string := key_of (cl_network c) (cl_account c).
Record system := mkSystem {
  sy_now : N;
  sy_table : gmap string Item;
  sy_calls : list call;
  sy_sent : list UpdateRequest
}.
Definition initial (now : N) : system := mkSystem now ∅ [] [].
Definition row (s : system) (key : string) : Item := default ∅ (sy_table s !! key).

(** The table carries out an update. *)
Definition deliver (table : gmap string Item) (u : UpdateRequest) : UpdateReply * gmap string Item :=
  let item := default ∅ (table !! ur_key u) in
  if ts_check u item
  then (Updated (if ur_all_new u then Some (ts_apply u item) else None), <[ur_key u := ts_apply u item]> table)
  else (ConditionalCheckFailed, table).

(** How an operation is answered: the clock's time, the row as it is, the update
    carried out, the chain read in some world, or a fault. *)
Inductive reply := RClock | RRead | RCarried | RChain (w : W) | RFault (error : string).
Definition respond (s : system) (o : op) (r : reply) : option (answer o * gmap string Item) :=
  match o return option (answer o * gmap string Item) with
  | SystemClock => match r with RClock => Some (Some (sy_now s), sy_table s) | _ => None end
  | GetItem pk =>
      match r with
      | RRead => Some (Ok (sy_table s !! pk), sy_table s)
      | RFault e => Some (Err e, sy_table s)
      | _ => None
      end
  | UpdateItem u =>
      match r with
      | RCarried => Some (deliver (sy_table s) u)
      | RFault e => Some (UpdateFailed e, sy_table s)
      | _ => None
      end
  | ScanPage _ _ => None
  | OnChain _ c => match r with RChain w => Some ((run_chain c w).1, sy_table s) | _ => None end
  end.
Definition updates_of (o : op) : list UpdateRequest := match o with UpdateItem u => [u] | _ => [] end.
Definition next_op (m : task (outcome LambdaError CalculatedScore)) : option op :=
  match m with Done _ => None | Call o _ | Limited o _ => Some o end.

(** A save that is on its way. *)
Definition sent_phase (p : phase) (u : UpdateRequest) : phase := match p with Saving _ _ _ _ _ => Sent u | _ => p end.
Definition granted_after (c : call) (o : op) : answer o → option N :=
  match o return answer o → option N with
  | UpdateItem _ => fun r =>
      match cl_phase c, r with
      | Budgeting _ _ _ at_, Updated _ => Some (at_ / budget_window_seconds policy)
      | _, _ => cl_granted c
      end
  | _ => fun _ => cl_granted c
  end.
(** The timeout stops a request, at the latest this long after it started. *)
Definition time_limit : N := ceil_seconds (calculation_timeout_ms policy) + 5.
Definition live (s : system) (c : call) : bool := sy_now s <? cl_started c + time_limit.

Inductive choice :=
  | Tick (seconds : N)
  | Spawn (network : RuntimeNetwork HttpRpc) (account : Address) (force_refresh : bool)
  | Proceed (i : nat) (r : reply)
  | TimeOut (i : nat)
  | Deliver (i : nat)
  | Redeliver (j : nat)
  | Expire (key : string).
Definition with_call (s : system) (i : nat) (c : call) (table : gmap string Item) (sent : list UpdateRequest) : system :=
  mkSystem (sy_now s) table (<[i := c]> (sy_calls s)) (sent ++ sy_sent s).
Definition moved (c : call) (p : phase) (granted : option N) (m : task (outcome LambdaError CalculatedScore)) : call :=
  mkCall (cl_started c) (cl_network c) (cl_account c) p granted m.
Definition step (s : system) (ch : choice) : option system :=
  match ch with
  | Tick seconds =>
      if sy_now s + seconds <? 2 ^ 63
      then Some (mkSystem (sy_now s + seconds) (sy_table s) (sy_calls s) (sy_sent s)) else None
  | Spawn network account force =>
      Some (mkSystem (sy_now s) (sy_table s)
              (sy_calls s ++ [mkCall (sy_now s) network account Started None (calculate app network account force)])
              (sy_sent s))
  | Proceed i r =>
      c ← sy_calls s !! i;
      if live s c then
        match cl_task c with
        | Done _ => None
        | Call o k =>
            '(a, table) ← respond s o r;
            Some (with_call s i (moved c (after (cl_phase c) o a) (granted_after c o a) (k a)) table (updates_of o))
        | Limited o k =>
            '(a, table) ← respond s o r;
            Some (with_call s i (moved c (after (cl_phase c) o a) (granted_after c o a) (k (Some a))) table (updates_of o))
        end
      else None
  | TimeOut i =>
      c ← sy_calls s !! i;
      match cl_task c with
      | Limited o k => Some (with_call s i (moved c Over (cl_granted c) (k None)) (sy_table s) (updates_of o))
      | _ => None
      end
  | Deliver i =>
      c ← sy_calls s !! i;
      match next_op (cl_task c) with
      | Some (UpdateItem u) =>
          Some (with_call s i (moved c (sent_phase (cl_phase c) u) (cl_granted c) (cl_task c))
                  (deliver (sy_table s) u).2 [u])
      | _ => None
      end
  | Redeliver j =>
      u ← sy_sent s !! j;
      Some (mkSystem (sy_now s) (deliver (sy_table s) u).2 (sy_calls s) (sy_sent s))
  | Expire key =>
      item ← sy_table s !! key;
      expires ← num item "expiresAt";
      if expires <=? sy_now s
      then Some (mkSystem (sy_now s) (delete key (sy_table s)) (sy_calls s) (sy_sent s)) else None
  end.
Fixpoint execute (s : system) (l : list choice) : option system :=
  match l with [] => Some s | ch :: l => s' ← step s ch; execute s' l end.
(** What some requests led to, from an empty table. *)
Definition reachable (s : system) : Prop := ∃ now l, now < 2 ^ 63 ∧ execute (initial now) l = Some s.

(* ------------------------------------------------------------------ *)
(** ** Rows and what is known of them *)

Definition vnum (item : Item) : N := default 0 (num item "version").
Definition row_ok (item : Item) : Prop :=
  item !! "expiresAt" = None ∧
  (item !! "version" = None ∧ item !! "payload" = None ∨
   ∃ v payload, item !! "version" = Some (number_value v) ∧ 1 ≤ v ∧ item !! "payload" = Some (AvS payload)).
(** The row is [item] or a later state of it. *)
Definition older (item r : Item) : Prop :=
  row_ok item ∧ vnum item ≤ vnum r ∧
  (vnum item = vnum r → item !! "payload" = r !! "payload" ∧ item !! "version" = r !! "version").

(** The chain computed the result for the account, from the row's checkpoint or from nothing. *)
Definition computed_for (network : RuntimeNetwork HttpRpc) (account : Address) (r : option Item)
    (result : CachedInsuranceScoreSnapshot * UserCheckpoint) : Prop :=
  ∃ reference previous w w', (previous = None ∨ previous = sto_checkpoint <$> stored_in r) ∧
    compute_incremental_score_at (W := W) (rn_score network) (rn_registry network) account reference previous w =
      (Ok result, w').

Definition phase_now (p : phase) : option N :=
  match p with
  | Timed now | Loaded now _ | Leased now _ _ | Budgeting now _ _ _ | Replaying now _ _ _ | Saving now _ _ _ _ => Some now
  | _ => None
  end.
Definition phase_at (p : phase) : option N :=
  match p with Budgeting _ _ _ at_ | Saving _ _ _ _ at_ => Some at_ | _ => None end.

(** The lease [g] that was taken at [now]: the row's last one and running until
    [lease_seconds] later, or superseded after that time. *)
Definition lease_ok (s : system) (key : string) (now g : N) : Prop :=
  ∃ last, num (row s key) "generation" = Some last ∧ g ≤ last ∧
    (g = last → num (row s key) "leaseUntil" = Some (now + lease_seconds policy)) ∧
    (g < last → now + lease_seconds policy ≤ sy_now s).
Record call_ok (s : system) (c : call) : Prop := {
  ok_legal : legal app (cl_network c) (cl_account c) always (cl_phase c) (cl_task c);
  ok_started : cl_started c ≤ sy_now s;
  ok_now : ∀ now, phase_now (cl_phase c) = Some now → cl_started c ≤ now ≤ sy_now s;
  ok_at : ∀ at_, phase_at (cl_phase c) = Some at_ → cl_started c ≤ at_ ≤ sy_now s;
  ok_row : ∀ r, loaded_row (cl_phase c) = Some r → older (default ∅ r) (row s (cl_key c));
  ok_held : ∀ now g, held (cl_phase c) = Some (now, g) → lease_ok s (cl_key c) now g;
  ok_results : ∀ r result, loaded_row (cl_phase c) = Some r → result ∈ results_of (cl_phase c) →
    computed_for (cl_network c) (cl_account c) r result;
  ok_granted : match cl_phase c with Replaying _ _ _ _ | Saving _ _ _ _ _ => cl_granted c ≠ None | _ => True end;
  ok_sent : ∀ u, cl_phase c = Sent u → u ∈ sy_sent s
}.
(** A save that was sent: of what a request computed from the row it had loaded. *)
Definition save_ok (s : system) (u : UpdateRequest) : Prop :=
  ∃ network account r g now results,
    decodes r ∧ saves network account r g now results u ∧ older (default ∅ r) (row s (key_of network account)) ∧
    ∀ result, result ∈ results → computed_for network account r result.
Definition budget_sent (s : system) (u : UpdateRequest) : Prop := ∃ at_, at_ ≤ sy_now s ∧ u = budget_request app at_.
Definition acquire_sent (s : system) (u : UpdateRequest) : Prop := ∃ (network : RuntimeNetwork HttpRpc) account epoch expected now,
  now ≤ sy_now s ∧ u = acquire_request app (key_of network account) epoch expected now.
(** The generation a save is for. *)
Definition gen_of (u : UpdateRequest) : option N := placeholder u ":generation" ≫= number.
Definition sent_ok (s : system) (u : UpdateRequest) : Prop := budget_sent s u ∨ acquire_sent s u ∨ save_ok s u.

Record good (s : system) : Prop := {
  good_now : sy_now s < 2 ^ 63;
  good_rows : ∀ network account, row_ok (row s (key_of (HttpRpc := HttpRpc) network account));
  good_calls : ∀ i c, sy_calls s !! i = Some c → call_ok s c;
  good_sent : ∀ u, u ∈ sy_sent s → sent_ok s u;
  good_unique : ∀ i j c d now g now' g', sy_calls s !! i = Some c → sy_calls s !! j = Some d → i ≠ j →
    cl_key c = cl_key d → held (cl_phase c) = Some (now, g) → held (cl_phase d) = Some (now', g') → g ≠ g';
  good_gens : ∀ u g, u ∈ sy_sent s → gen_of u = Some g →
    ∃ last, num (row s (ur_key u)) "generation" = Some last ∧ g ≤ last;
  good_released : ∀ u g i c now g', u ∈ sy_sent s → gen_of u = Some g → sy_calls s !! i = Some c →
    cl_key c = ur_key u → held (cl_phase c) = Some (now, g') → g ≠ g'
}.

(* ------------------------------------------------------------------ *)
(** ** The invariant is kept *)

Context {laws : TableLaws} (valid : invalid_policy policy = false).

Lemma policy_bounds : time_limit ≤ lease_seconds policy ∧ lease_seconds policy ≤ 300 ∧
  1 ≤ budget_window_seconds policy ∧ budget_window_seconds policy ≤ 86400.
Proof.
  revert valid. unfold invalid_policy, within, time_limit. fold policy.
  rewrite !orb_false_iff, !negb_false_iff, !andb_true_iff, N.ltb_ge, !N.leb_le. lia.
Qed.

Lemma key_not_budget (network : RuntimeNetwork HttpRpc) account at_ : key_of network account ≠ budget_key app at_.
Proof.
  unfold key_of, checkpoint_key, budget_key. pose proof (to_decimal_canonical (sn_chain_id (rn_score network))) as Hc.
  unfold canonical_decimal in Hc. apply andb_prop in Hc as [[Hne _]%andb_prop Hd].
  destruct (to_decimal (sn_chain_id (rn_score network))) as [|a d]; [done|]. intros [= -> _]. done.
Qed.
Lemma older_refl item : row_ok item → older item item.
Proof. done. Qed.
Lemma older_keeps item r r' : keeps ["payload"; "version"] r r' → older item r → older item r'.
Proof.
  intros Hk (Hi & Hv & He).
  assert (r' !! "version" = r !! "version") as E1 by (apply Hk; set_solver).
  assert (r' !! "payload" = r !! "payload") as E2 by (apply Hk; set_solver).
  assert (vnum r' = vnum r) as E3 by (unfold vnum, num; by rewrite E1).
  unfold older. by rewrite E1, E2, E3.
Qed.
Lemma older_newer item r r' : vnum r < vnum r' → older item r → older item r'.
Proof. intros Hv (Hi & Hle & _). split_and!; [done|lia|lia]. Qed.

Definition with_table (s : system) (table : gmap string Item) : system :=
  mkSystem (sy_now s) table (sy_calls s) (sy_sent s).
(** What an update may do to the row of an account. *)
Definition evolves (r r' : Item) : Prop :=
  row_ok r' ∧ (∀ item, older item r → older item r') ∧
  ∀ last, num r "generation" = Some last → ∃ last', num r' "generation" = Some last' ∧ last ≤ last'.
Lemma evolves_refl r : row_ok r → evolves r r.
Proof. intros H. split_and!; [done|done|]. intros last Hl. by exists last. Qed.

Lemma good_table s table : good s →
  (∀ (network : RuntimeNetwork HttpRpc) account,
     evolves (row s (key_of network account)) (row (with_table s table) (key_of network account))) →
  (∀ i c now g, sy_calls s !! i = Some c → held (cl_phase c) = Some (now, g) →
     lease_ok s (cl_key c) now g → lease_ok (with_table s table) (cl_key c) now g) →
  good (with_table s table).
Proof.
  intros [G1 G2 G3 G4 G5 G6 G7] He Hl. constructor; cbn; [done| | | |done| |done].
  - intros n a. apply He.
  - intros i c Hc. destruct (G3 i c Hc). constructor; try done.
    + intros r Hr. apply He. by apply ok_row0.
    + intros now g Hg. apply (Hl i c); auto.
  - intros u Hu. destruct (G4 u Hu) as [H|[H|(n & a & r & g & now & results & H1 & H2 & H3 & H4)]]; [by left|by right; left|].
    right. right. exists n, a, r, g, now, results. split_and!; try done. by apply He.
  - intros u g Hu Hg. destruct (G6 u g Hu Hg) as (last & Hlast & Hle).
    destruct (G4 u Hu) as [(at_ & _ & ->)|[(n & a & ep & ex & now & _ & ->)|(n & a & r & g' & now & results & H1 & H2 & H3 & H4)]].
    + done.
    + destruct ex; done.
    + assert (ur_key u = key_of n a) as Hk by (destruct H2 as (? & ? & ? & ? & ? & ? & ? & ? & ? & ? & ->); done).
      rewrite Hk in *. destruct (He n a) as (_ & _ & Hgen). destruct (Hgen last Hlast) as (last' & Hl' & Hle').
      exists last'. split; [done|lia].
Qed.

Lemma deliver_unchanged table u : ts_check u (default ∅ (table !! ur_key u)) = false →
  deliver table u = (ConditionalCheckFailed, table).
Proof. unfold deliver. by intros ->. Qed.
Lemma row_delivered s u key : ts_check u (row s (ur_key u)) = true →
  row (with_table s (deliver (sy_table s) u).2) key =
    if decide (key = ur_key u) then ts_apply u (row s (ur_key u)) else row s key.
Proof.
  intros Hc. unfold deliver, row in *. rewrite Hc. cbn. destruct (decide (key = ur_key u)) as [->|Hne].
  - by rewrite lookup_insert_eq.
  - by rewrite lookup_insert_ne.
Qed.

Lemma time_add s now : now ≤ sy_now s → sy_now s < 2 ^ 63 →
  u64_add now (lease_seconds policy) = now + lease_seconds policy.
Proof.
  intros H1 H2. pose proof policy_bounds as (_ & H3 & _). apply u64_add_small.
  change u64_modulus with (2 ^ 64). assert (2 ^ 63 + 300 < 2 ^ 64) by done. lia.
Qed.

Lemma acquire_evolves key epoch expected now r : row_ok r →
  evolves r (ts_apply (acquire_request app key epoch expected now) r).
Proof.
  intros Hr. destruct (apply_acquire app key epoch expected now r) as (_ & Hg & Hk & He).
  assert (∀ a, a ∈ ["payload"; "version"] → ts_apply (acquire_request app key epoch expected now) r !! a = r !! a) as Hk'.
  { intros a Ha. apply Hk. set_solver. }
  split_and!.
  - destruct Hr as [_ Hr]. split; [done|]. rewrite !Hk' by set_solver. done.
  - intros item. by apply older_keeps.
  - intros last Hl. exists (last + 1). split; [|lia]. apply num_lookup. rewrite Hg, Hl. done.
Qed.
Lemma acquire_good s (network : RuntimeNetwork HttpRpc) account epoch expected now : good s → now ≤ sy_now s →
  let u := acquire_request app (key_of network account) epoch expected now in
  ts_check u (row s (key_of network account)) = true → good (with_table s (deliver (sy_table s) u).2).
Proof.
  intros Hs Hnow u Hc. pose proof (check_acquire _ _ _ _ _ _ Hc) as [Hl _].
  destruct (apply_acquire app (key_of network account) epoch expected now (row s (key_of network account)))
    as (Hu & Hg & _ & _). fold u in Hu, Hg.
  pose proof (time_add s now Hnow (good_now s Hs)) as Ht. fold policy in Hu. rewrite Ht in Hu.
  apply good_table; [done| |].
  - intros n a. rewrite row_delivered by done. destruct (decide _) as [E|_].
    + rewrite E. apply acquire_evolves. apply (good_rows s Hs).
    + apply evolves_refl, (good_rows s Hs).
  - intros i c now' g Hi Hh (last & Hlast & Hle & Hrun & Hover). unfold lease_ok. rewrite row_delivered by done.
    destruct (decide _) as [E|_]; [|by exists last]. change (ur_key u) with (key_of network account) in *. rewrite E in *.
    exists (last + 1). apply num_lookup in Hg. rewrite Hlast in Hg. cbn in Hg. split_and!; [done|lia|lia|].
    intros _. cbn. destruct (N.eq_dec g last) as [->|Hne]; [|apply Hover; lia].
    specialize (Hrun eq_refl). destruct Hl as [Hl|(l & Hl & Hle')].
    + unfold num in Hrun. by rewrite Hl in Hrun.
    + rewrite Hrun in Hl. simplify_eq. lia.
Qed.

Lemma save_evolves (network : RuntimeNetwork HttpRpc) account r g now results u item :
  row_ok item → saves network account r g now results u → ts_check u item = true →
  evolves item (ts_apply u item) ∧ vnum (ts_apply u item) = vnum item + 1.
Proof.
  intros Hok (snapshot & checkpoint & epoch & payload & next & cursor & refresh & _ & _ & Hnext & ->) Hc.
  apply check_save in Hc as (_ & Hv & _).
  destruct (apply_save (key_of network account) payload next cursor epoch (sto_version <$> stored_in r) refresh
    (mkLease g) now item) as (Hp & Hver & Hk & He & _).
  set (item' := ts_apply _ item) in *.
  assert (vnum item' = next) as Hn by (unfold vnum; by rewrite (num_lookup _ _ _ Hver)).
  assert (next = vnum item + 1) as Hn'.
  { apply checked_add_Some in Hnext as [-> _]. f_equal. destruct (sto_version <$> stored_in r) as [v|]; simpl in *; unfold vnum.
    - by rewrite Hv.
    - unfold num. by rewrite Hv. }
  split; [|lia]. split_and!.
  - split; [done|]. right. exists next, payload. split_and!; [done|lia|done].
  - intros it. apply older_newer. lia.
  - intros last Hl. exists last. split; [|lia]. unfold num. rewrite Hk by set_solver. done.
Qed.
Lemma save_good s u : good s → u ∈ sy_sent s → save_ok s u → ts_check u (row s (ur_key u)) = true →
  good (with_table s (deliver (sy_table s) u).2).
Proof.
  intros Hs Hin (n0 & a0 & r & g0 & now0 & results & Hd & Hsv & Ho & Hr) Hc.
  assert (ur_key u = key_of n0 a0) as Hkey by (destruct Hsv as (? & ? & ? & ? & ? & ? & ? & ? & ? & ? & ->); done).
  assert (gen_of u = Some g0 ∧ num (row s (ur_key u)) "generation" = Some g0 ∧
          num (ts_apply u (row s (ur_key u))) "generation" = Some g0) as (Hgen & Hrow & Hrow').
  { destruct Hsv as (? & ? & ? & ? & ? & ? & ? & ? & ? & ? & ->). pose proof Hc as (Hg & _)%check_save.
    split_and!; [by apply number_number_value|done|].
    match goal with |- num (ts_apply (save_request ?k ?p ?n ?c ?e ?x ?r ?l ?t) ?i) _ = _ =>
      destruct (apply_save k p n c e x r l t i) as (_ & _ & Hk & _) end.
    unfold num. rewrite Hk by set_solver. done. }
  apply good_table; [done| |].
  - intros n a. rewrite row_delivered by done. destruct (decide _) as [E|_].
    + rewrite E. eapply save_evolves; [|done|done]. rewrite Hkey. apply (good_rows s Hs).
    + apply evolves_refl, (good_rows s Hs).
  - intros i c now g Hi Hh (last & Hlast & Hle & Hrun & Hover). unfold lease_ok. rewrite row_delivered by done.
    destruct (decide _) as [E|_]; [|by exists last]. rewrite E, Hrow in Hlast. simplify_eq.
    exists last. split_and!; [done|done| |done]. intros ->.
    destruct (good_released s Hs u last i c now last); done.
Qed.
Lemma budget_good s at_ : good s → ts_check (budget_request app at_) (row s (budget_key app at_)) = true →
  good (with_table s (deliver (sy_table s) (budget_request app at_)).2).
Proof.
  intros Hs Hc. apply good_table; [done| |].
  - intros n a. rewrite row_delivered by done. rewrite decide_False by apply key_not_budget.
    apply evolves_refl, (good_rows s Hs).
  - intros i c now g Hi Hh Hl. unfold lease_ok, cl_key. rewrite row_delivered by done.
    rewrite decide_False by apply key_not_budget. done.
Qed.
Lemma with_table_id s : with_table s (sy_table s) = s.
Proof. by destruct s. Qed.
(** An update that was sent may be carried out at any time. *)
Lemma deliver_good s u : good s → u ∈ sy_sent s → good (with_table s (deliver (sy_table s) u).2).
Proof.
  intros Hs Hin. destruct (ts_check u (row s (ur_key u))) eqn:Hc.
  - destruct (good_sent s Hs u Hin) as [(at_ & _ & ->)|[(n & a & ep & ex & now & Hnow & ->)|H]].
    + by apply budget_good.
    + by apply acquire_good.
    + by apply save_good.
  - rewrite deliver_unchanged by done. cbn. by rewrite with_table_id.
Qed.

(** A request that moved on: in another phase, perhaps with a lease of its own. *)
Definition fresh (s : system) (i : nat) (key : string) (g : N) : Prop :=
  (∀ j d now' g', sy_calls s !! j = Some d → j ≠ i → cl_key d = key → held (cl_phase d) = Some (now', g') → g' ≠ g) ∧
  ∀ u g', u ∈ sy_sent s → gen_of u = Some g' → ur_key u = key → g' ≠ g.
Definition with_moved (s : system) (i : nat) (c : call) : system :=
  mkSystem (sy_now s) (sy_table s) (<[i := c]> (sy_calls s)) (sy_sent s).
Lemma call_ok_ext s s' c : sy_now s' = sy_now s → sy_table s' = sy_table s → sy_sent s' = sy_sent s →
  call_ok s c → call_ok s' c.
Proof.
  intros E1 E2 E3 []. constructor; try done; unfold lease_ok, row in *; rewrite ?E1, ?E2, ?E3; done.
Qed.
Lemma good_moved s i c p granted m : good s → sy_calls s !! i = Some c → call_ok s (moved c p granted m) →
  (∀ now g, held p = Some (now, g) → held (cl_phase c) = Some (now, g) ∨ fresh s i (cl_key c) g) →
  good (with_moved s i (moved c p granted m)).
Proof.
  intros Hs Hi Hok Hheld. pose proof Hs as [G1 G2 G3 G4 G5 G6 G7].
  assert (∀ j d, <[i := moved c p granted m]> (sy_calls s) !! j = Some d →
    j = i ∧ d = moved c p granted m ∨ j ≠ i ∧ sy_calls s !! j = Some d) as Hj.
  { intros j d H. destruct (decide (j = i)) as [->|Hne].
    - rewrite list_lookup_insert_eq in H by (by eapply lookup_lt_Some). left. by simplify_eq.
    - rewrite list_lookup_insert_ne in H by done. by right. }
  constructor; cbn; try done.
  - intros j d [[-> ->]|[_ H]]%Hj; [by apply (call_ok_ext s)|]. by apply (call_ok_ext s), (G3 j d).
  - assert (∀ j d now g now' g', sy_calls s !! j = Some d → j ≠ i → cl_key d = cl_key c →
      held p = Some (now, g) → held (cl_phase d) = Some (now', g') → g ≠ g') as Hone.
    { intros j d now g now' g' Hd Hne Hk Hp Hdp. destruct (Hheld now g Hp) as [Hc|[Hf _]].
      - by apply (G5 i j c d now g now' g').
      - intros ->. by destruct (Hf j d now' g'). }
    intros j k d e now g now' g' [[-> ->]|[Hne Hd]]%Hj [[-> ->]|[Hne' He]]%Hj Hjk Hk Hh Hh'; [done| | |].
    + by eapply Hone.
    + intros ->. by eapply Hone.
    + by apply (G5 j k d e now g now' g').
  - intros u g j d now g' Hu Hg [[-> ->]|[Hne Hd]]%Hj Hk Hh; [|by apply (G7 u g j d now g')].
    destruct (Hheld now g' Hh) as [Hc|[_ Hf]]; [by apply (G7 u g i c now g')|]. by apply (Hf u g).
Qed.

Lemma legal_next app' (network : RuntimeNetwork HttpRpc) account p (m : task (outcome LambdaError CalculatedScore)) o :
  legal app' network account always p m → next_op m = Some o → allowed app' network account p o.
Proof. destruct m; intros H [= <-]; apply H. Qed.

(** An update that is sent. *)
Definition with_sent (s : system) (u : UpdateRequest) : system :=
  mkSystem (sy_now s) (sy_table s) (sy_calls s) (u :: sy_sent s).
Lemma good_with_sent s u : good s → sent_ok s u →
  (∀ g, gen_of u = Some g → ∃ last, num (row s (ur_key u)) "generation" = Some last ∧ g ≤ last) →
  (∀ g i c now g', gen_of u = Some g → sy_calls s !! i = Some c → cl_key c = ur_key u →
     held (cl_phase c) = Some (now, g') → g ≠ g') → good (with_sent s u).
Proof.
  intros [G1 G2 G3 G4 G5 G6 G7] Hu Hg Hr. constructor; cbn; try done.
  - intros i c Hc. destruct (G3 i c Hc). constructor; try done. intros u' Hu'. apply elem_of_cons. right. by apply ok_sent0.
  - intros u' [->|Hu']%elem_of_cons; [done|by apply G4].
  - intros u' g [->|Hu']%elem_of_cons; [apply Hg|by apply G6].
  - intros u' g i c now g' [->|Hu']%elem_of_cons; [by apply Hr|by apply G7].
Qed.
Lemma gen_of_budget at_ : gen_of (budget_request app at_) = None.
Proof. done. Qed.
Lemma gen_of_acquire key epoch expected now : gen_of (acquire_request app key epoch expected now) = None.
Proof. by destruct expected. Qed.
Lemma saves_facts (network : RuntimeNetwork HttpRpc) account r g now results u : saves network account r g now results u →
  ur_key u = key_of network account ∧ gen_of u = Some g.
Proof. intros (? & ? & ? & ? & ? & ? & ? & _ & _ & _ & ->). split; [done|]. apply number_number_value. Qed.

Lemma legal_sent network account p (m : task (outcome LambdaError CalculatedScore)) u :
  legal app network account always p m → next_op m = Some (UpdateItem u) →
  legal app network account always (sent_phase p u) m.
Proof.
  intros Hl Hn. destruct p; try done. destruct m; [done|..]; injection Hn as ->; cbn [legal] in *; (split; [done|]);
    apply Hl.
Qed.
Lemma good_send s i c u : good s → sy_calls s !! i = Some c → next_op (cl_task c) = Some (UpdateItem u) →
  good (with_moved (with_sent s u) i (moved c (sent_phase (cl_phase c) u) (cl_granted c) (cl_task c))).
Proof.
  intros Hs Hi Hn. pose proof (good_calls s Hs i c Hi) as Hok. pose proof (legal_next _ _ _ _ _ _ (ok_legal _ _ Hok) Hn) as Ha.
  (* the call moves first *)
  assert (call_ok (with_sent s u) (moved c (sent_phase (cl_phase c) u) (cl_granted c) (cl_task c))) as Hok'.
  { destruct Hok. constructor; cbn; try done.
    - by apply legal_sent.
    - intros now H. apply ok_now0. by destruct (cl_phase c).
    - intros at_ H. apply ok_at0. by destruct (cl_phase c).
    - intros r H. apply ok_row0. by destruct (cl_phase c).
    - intros now g H. apply ok_held0. by destruct (cl_phase c).
    - intros r result H1 H2. apply ok_results0; by destruct (cl_phase c).
    - by destruct (cl_phase c).
    - intros u' H. apply elem_of_cons. destruct (cl_phase c); try (right; by apply ok_sent0). simpl in H. simplify_eq. by left. }
  cbn [allowed] in Ha. destruct (cl_phase c) as [ | |now r| |now r g at_| |now r g results at_|u'| ] eqn:Ep; try done.
  - destruct Ha as (Hd & epoch & ->). apply good_moved; [|done|done|rewrite Ep; by left].
    assert (now ≤ sy_now s) as Hnow by (apply (ok_now _ _ Hok); by rewrite Ep).
    apply good_with_sent; [done| |by rewrite gen_of_acquire..]. right. left. by eexists _, _, _, _, now.
  - subst u. apply good_moved; [|done|done|rewrite Ep; by left].
    assert (at_ ≤ sy_now s) as Hat by (apply (ok_at _ _ Hok); by rewrite Ep).
    apply good_with_sent; [done| |done..]. left. by exists at_.
  - destruct Ha as [Hd Hsv]. pose proof (saves_facts _ _ _ _ _ _ _ Hsv) as [Hk Hg].
    assert (lease_ok s (cl_key c) now g) as (last & Hlast & Hle & _) by (apply (ok_held _ _ Hok); by rewrite Ep).
    set (gone := moved c Over (cl_granted c) (Done (Err ClockError))).
    assert (good (with_moved s i gone)) as Hs1.
    { apply good_moved; [done|done| |done]. destruct Hok. by constructor. }
    assert (good (with_sent (with_moved s i gone) u)) as Hs2.
    { apply good_with_sent; [done| | |].
      - right. right. exists (cl_network c), (cl_account c), r, g, at_, results. split_and!; [done|done| |].
        + apply (ok_row _ _ Hok). by rewrite Ep.
        + intros result Hin. apply (ok_results _ _ Hok); by rewrite Ep.
      - intros g' Hg'. rewrite Hg in Hg'. simplify_eq. rewrite Hk. by exists last.
      - intros g' j d now' g'' Hg' Hj Hkd Hh. rewrite Hg in Hg'. simplify_eq. cbn in Hj.
        destruct (decide (j = i)) as [->|Hne].
        + rewrite list_lookup_insert_eq in Hj by (by eapply lookup_lt_Some). by simplify_eq.
        + rewrite list_lookup_insert_ne in Hj by done. intros <-.
          apply (good_unique s Hs i j c d now g' now' g'); try done; [|by rewrite Ep]. by rewrite Hkd, Hk. }
    assert (sy_calls (with_sent (with_moved s i gone) u) !! i = Some gone) as Hi2
      by (cbn; by rewrite list_lookup_insert_eq by (by eapply lookup_lt_Some)).
    pose proof (good_moved _ _ _ (Sent u) (cl_granted c) (cl_task c) Hs2 Hi2) as Hs3.
    unfold with_moved in Hs3 |- *. cbn in Hs3 |- *. rewrite list_insert_insert_eq in Hs3. apply Hs3; [|done].
    by apply (call_ok_ext (with_sent s u)).
  - subst u'. apply good_moved; [|done|done|rewrite Ep; by left].
    assert (u ∈ sy_sent s) as Hu by (apply (ok_sent _ _ Hok); by rewrite Ep).
    apply good_with_sent; [done|by apply (good_sent s Hs)|by intros g; apply (good_gens s Hs)|].
    intros g j d now g' Hg Hd Hk Hh. by apply (good_released s Hs u g j d now g').
Qed.

Lemma call_ok_moved s c p granted m : call_ok s c → legal app (cl_network c) (cl_account c) always p m →
  (∀ now, phase_now p = Some now → phase_now (cl_phase c) = Some now ∨ now = sy_now s) →
  (∀ at_, phase_at p = Some at_ → phase_at (cl_phase c) = Some at_ ∨ at_ = sy_now s) →
  (∀ r, loaded_row p = Some r → loaded_row (cl_phase c) = Some r ∨ older (default ∅ r) (row s (cl_key c))) →
  (∀ now g, held p = Some (now, g) → held (cl_phase c) = Some (now, g) ∨ lease_ok s (cl_key c) now g) →
  (∀ r result, loaded_row p = Some r → result ∈ results_of p →
     loaded_row (cl_phase c) = Some r ∧ result ∈ results_of (cl_phase c) ∨
     computed_for (cl_network c) (cl_account c) r result) →
  match p with Replaying _ _ _ _ | Saving _ _ _ _ _ => granted ≠ None | _ => True end →
  (∀ u, p ≠ Sent u) → call_ok s (moved c p granted m).
Proof.
  intros [] Hl Hnow Hat Hrow Hheld Hres Hg Hsent. constructor; cbn; try done.
  - intros now [H| ->]%Hnow; [by apply ok_now0|done].
  - intros at_ [H| ->]%Hat; [by apply ok_at0|done].
  - intros r [H|H]%Hrow; [by apply ok_row0|done].
  - intros now g [H|H]%Hheld; [by apply ok_held0|done].
  - intros r result H1 H2. destruct (Hres r result H1 H2) as [[H3 H4]|H]; [by apply ok_results0|done].
  - intros u H. by apply Hsent in H.
Qed.
Lemma good_over s i c granted m : good s → sy_calls s !! i = Some c →
  legal app (cl_network c) (cl_account c) always Over m → good (with_moved s i (moved c Over granted m)).
Proof. intros Hs Hi Hl. apply good_moved; [done|done| |done]. by apply call_ok_moved; [apply (good_calls s Hs i)|..]. Qed.

(** What is read moves a request from phase to phase. *)
Lemma good_clock s i c m : good s → sy_calls s !! i = Some c →
  legal app (cl_network c) (cl_account c) always (after (cl_phase c) SystemClock (Some (sy_now s))) m →
  good (with_moved s i (moved c (after (cl_phase c) SystemClock (Some (sy_now s))) (cl_granted c) m)).
Proof.
  intros Hs Hi Hl. pose proof (good_calls s Hs i c Hi) as Hok.
  apply good_moved; [done|done| |intros now g H; left; destruct (cl_phase c); done].
  pose proof (ok_granted _ _ Hok) as Hg. pose proof (ok_sent _ _ Hok) as Hsent.
  destruct (cl_phase c) as [ | | | | | | |u| ] eqn:Ep; cbn [after] in *.
  8: { destruct Hok. constructor; cbn; try done; by rewrite Ep in *. }
  all: apply call_ok_moved; rewrite ?Ep; cbn; auto; naive_solver.
Qed.
Lemma good_read s i c m r : good s → sy_calls s !! i = Some c →
  (∀ r', r = Ok r' → r' = sy_table s !! cl_key c) →
  let p := after (cl_phase c) (GetItem (cl_key c)) r in
  legal app (cl_network c) (cl_account c) always p m → good (with_moved s i (moved c p (cl_granted c) m)).
Proof.
  intros Hs Hi Hr p Hl. pose proof (good_calls s Hs i c Hi) as Hok.
  assert (p = Over ∨ ∃ now, cl_phase c = Timed now ∧ p = Loaded now (sy_table s !! cl_key c)) as [E|(now & Ep & E)].
  { subst p. cbn [after]. destruct (cl_phase c); auto. destruct r as [r'|e|w]; auto. right. rewrite <- (Hr r' eq_refl). eauto. }
  - rewrite E in *. by apply good_over.
  - rewrite E in *. apply good_moved; [done|done| |done]. apply call_ok_moved; rewrite ?Ep; cbn; auto; try done.
    + intros r' [= <-]. right. apply older_refl, (good_rows s Hs).
    + by intros r' result _ []%not_elem_of_nil.
Qed.
Lemma good_chain s i c id co m w : good s → sy_calls s !! i = Some c →
  allowed app (cl_network c) (cl_account c) (cl_phase c) (OnChain id co) →
  let p := after (cl_phase c) (OnChain id co) (run_chain co w).1 in
  legal app (cl_network c) (cl_account c) always p m → good (with_moved s i (moved c p (cl_granted c) m)).
Proof.
  intros Hs Hi Ha p Hl. pose proof (good_calls s Hs i c Hi) as Hok. pose proof (ok_granted _ _ Hok) as Hg.
  cbn [allowed] in Ha. destruct (cl_phase c) as [ | | | | |now r g results| | | ] eqn:Ep; try done.
  assert (p = Replaying now r g results ∨ ∃ result, p = Replaying now r g (result :: results) ∧
    computed_for (cl_network c) (cl_account c) r result) as Hp.
  { subst p. destruct co as [|ts ub|rg b|n|nw rg acc rf prev]; cbn [after after_chain]; auto.
    destruct Ha as (-> & -> & -> & Hprev). cbn [run_chain].
    destruct (compute_incremental_score_at _ _ _ _ _ w) as [[result|e|x] w'] eqn:Er; cbn; auto.
    right. exists result. split; [done|]. by exists rf, prev, w, w'. }
  assert (∀ results', p = Replaying now r g results' → (∀ result, result ∈ results' → result ∈ results ∨
    computed_for (cl_network c) (cl_account c) r result) → good (with_moved s i (moved c p (cl_granted c) m))) as Hgo.
  { intros results' E Hin. rewrite E in *. apply good_moved; [done|done| |].
    - apply call_ok_moved; rewrite ?Ep; cbn; auto; try done. intros r' result [= <-] H. apply Hin in H as [H|H]; auto.
    - intros now' g' H. left. by rewrite Ep. }
  destruct Hp as [E|(result & E & Hc)]; (eapply Hgo; [exact E|]); [by left|].
  intros result' [->|H]%elem_of_cons; [by right|by left].
Qed.

Lemma insert_moved s u i c c' c'' table : sy_calls s !! i = Some c →
  with_moved (with_table (with_moved (with_sent s u) i c') table) i c'' = with_call s i c'' table [u].
Proof. intros _. unfold with_moved, with_table, with_call. cbn. by rewrite list_insert_insert_eq. Qed.
Lemma moved_moved c p g m p' g' m' : moved (moved c p g m) p' g' m' = moved c p' g' m'.
Proof. done. Qed.

(** The update [u] of request [i] was carried out by the table, or not, and the
    request goes on. *)
Lemma good_answered s i c u table p granted m : good s → sy_calls s !! i = Some c →
  next_op (cl_task c) = Some (UpdateItem u) → table = sy_table s ∨ table = (deliver (sy_table s) u).2 →
  (∀ s2, sy_now s2 = sy_now s → sy_table s2 = table → good s2 →
     call_ok s2 (moved c (sent_phase (cl_phase c) u) (cl_granted c) (cl_task c)) → call_ok s2 (moved c p granted m)) →
  (∀ now g, held p = Some (now, g) →
     held (sent_phase (cl_phase c) u) = Some (now, g) ∨ fresh (with_sent s u) i (cl_key c) g) →
  good (with_call s i (moved c p granted m) table [u]).
Proof.
  intros Hs Hi Hn Ht Hok Hheld. pose proof (good_send s i c u Hs Hi Hn) as Hs1.
  set (c1 := moved c (sent_phase (cl_phase c) u) (cl_granted c) (cl_task c)) in *.
  set (s1 := with_moved (with_sent s u) i c1) in *.
  assert (good (with_table s1 table)) as Hs2.
  { destruct Ht as [->| ->].
    - change (sy_table s) with (sy_table s1). by rewrite with_table_id.
    - apply (deliver_good s1); [done|]. apply elem_of_cons. by left. }
  rewrite <- (insert_moved s u i c c1) by done.
  assert (sy_calls (with_table s1 table) !! i = Some c1) as Hi1
    by (cbn; by rewrite list_lookup_insert_eq by (by eapply lookup_lt_Some)).
  replace (moved c p granted m) with (moved c1 p granted m) by done.
  apply good_moved; [done|done| |].
  - apply Hok; [done|done|done|]. by apply (good_calls _ Hs2 i).
  - intros now g Hp. destruct (Hheld now g Hp) as [H|[H1 H2]]; [by left|right].
    split; [|exact H2]. intros j d now' g' Hd Hne. cbn in Hd. rewrite list_lookup_insert_ne in Hd by done.
    by apply (H1 j d now' g').
Qed.
Lemma lease_of_number item g : lease_of (Some item) = Ok (mkLease g) →
  ∀ n, item !! "generation" = Some (number_value n) → g = n.
Proof.
  intros H n Hn. unfold lease_of in H. cbn in H. rewrite Hn in H. cbn in H.
  destruct (parse_u64 (to_decimal n)) as [x|] eqn:E; [|done]. cbn in H. simplify_eq. by apply parse_u64_number in E.
Qed.

Lemma good_carried s i c u m : good s → sy_calls s !! i = Some c →
  next_op (cl_task c) = Some (UpdateItem u) →
  let r := (deliver (sy_table s) u).1 in
  let p := after (cl_phase c) (UpdateItem u) r in
  legal app (cl_network c) (cl_account c) always p m →
  good (with_call s i (moved c p (granted_after c (UpdateItem u) r) m) (deliver (sy_table s) u).2 [u]).
Proof.
  intros Hs Hi Hn r p Hl. pose proof (good_calls s Hs i c Hi) as Hok.
  pose proof (legal_next _ _ _ _ _ _ (ok_legal _ _ Hok) Hn) as Ha. cbn [allowed] in Ha.
  assert (p = Over → good (with_call s i (moved c p (granted_after c (UpdateItem u) r) m) (deliver (sy_table s) u).2 [u]))
    as Hover.
  { intros E. rewrite E in *. apply good_answered; [done|done|done|by right| |done].
    intros s2 _ _ _ Hc. by apply (call_ok_moved s2 (moved c (sent_phase (cl_phase c) u) (cl_granted c) (cl_task c))). }
  destruct r as [attributes| |e] eqn:Er; [|apply Hover; by destruct (cl_phase c)..].
  assert (ts_check u (row s (ur_key u)) = true ∧ attributes = if ur_all_new u then Some (ts_apply u (row s (ur_key u))) else None)
    as [Hc Hattr].
  { subst r. unfold deliver, row in *. destruct (ts_check u _); [|done]. cbn in Er. by simplify_eq. }
  destruct (cl_phase c) as [ | |now r0| |now r0 g at_| | |u'| ] eqn:Ep; try done; try (by apply Hover).
  - (* the lease *)
    destruct Ha as (Hd & epoch & Hu). cbn [after after_update] in p.
    destruct (lease_of attributes) as [[g]|e|w] eqn:El; [|by apply Hover..].
    rewrite Hu in Hattr. cbn in Hattr. rewrite Hattr in El. change (key_of (cl_network c) (cl_account c)) with (cl_key c) in *.
    assert (ur_key u = cl_key c) as Hk by (by rewrite Hu). rewrite <- Hu, Hk in *.
    destruct (apply_acquire app (cl_key c) epoch (sto_version <$> stored_in r0) now (row s (cl_key c))) as (Hlu & Hg & _ & _).
    rewrite <- Hu in Hlu, Hg. pose proof (lease_of_number _ _ El _ Hg) as Hgen.
    assert (now ≤ sy_now s) as Hnow by (apply (ok_now _ _ Hok); by rewrite Ep).
    subst p. cbn [generation] in *. apply good_answered; [done|done|done|by right| |].
    + intros s2 En Et Hs2 Hc2. apply (call_ok_moved s2 _ _ _ _ Hc2); cbn; rewrite ?Ep; cbn; auto; try done.
      intros now' g' [= <- <-]. right. exists g. unfold row. rewrite Et.
        pose proof (row_delivered s u (cl_key c)) as Hrow. rewrite Hk in Hrow. specialize (Hrow Hc).
        rewrite decide_True in Hrow by done. unfold row at 1 in Hrow. cbn in Hrow. unfold cl_key at 1 2 in Hrow.
        unfold cl_key; cbn. fold (cl_key c). unfold cl_key in *. rewrite Hrow. split_and!; [rewrite Hgen; by apply num_lookup|done| |lia].
        intros _. fold policy in Hlu. by rewrite (time_add s) in Hlu by (done || apply (good_now s Hs)).
    + intros now' g' [= <- <-]. right. split.
      * intros j d now2 g2 Hj Hne Hkd Hh Heq. pose proof (good_calls s Hs j d Hj) as Hokd.
        destruct (ok_held _ _ Hokd _ _ Hh) as (last & Hlast & Hle & _). rewrite Hkd in Hlast. rewrite Hlast in Hgen. cbn in Hgen. lia.
      * intros u2 g2 [->|Hu2]%elem_of_cons Hg2 Hk2 Heq; [rewrite Hu, gen_of_acquire in Hg2; done|].
        destruct (good_gens s Hs u2 g2 Hu2 Hg2) as (last & Hlast & Hle). rewrite Hk2 in Hlast. rewrite Hlast in Hgen.
        cbn in Hgen. lia.
  - (* the budget *)
    subst p. cbn [after after_update]. apply good_answered; [done|done|done|by right| |by intros now' g' H; rewrite Ep; left].
    intros s2 En Et Hs2 Hc2. apply (call_ok_moved s2 _ _ _ _ Hc2); cbn; rewrite ?Ep; cbn; auto; done.
Qed.
Lemma good_lost s i c u m granted : good s → sy_calls s !! i = Some c → next_op (cl_task c) = Some (UpdateItem u) →
  legal app (cl_network c) (cl_account c) always Over m →
  good (with_call s i (moved c Over granted m) (sy_table s) [u]).
Proof.
  intros Hs Hi Hn Hl. apply good_answered; [done|done|done|by left| |done].
  intros s2 _ _ _ Hc. by apply (call_ok_moved s2 (moved c (sent_phase (cl_phase c) u) (cl_granted c) (cl_task c))).
Qed.

Lemma good_tick s seconds : good s → sy_now s + seconds < 2 ^ 63 →
  good (mkSystem (sy_now s + seconds) (sy_table s) (sy_calls s) (sy_sent s)).
Proof.
  intros [G1 G2 G3 G4 G5 G6 G7] Hlt. constructor; try done.
  - intros i c Hc. destruct (G3 i c Hc). constructor; cbn; try done.
    + lia.
    + intros now H. apply ok_now0 in H. lia.
    + intros at_ H. apply ok_at0 in H. lia.
    + intros now g (last & H1 & H2 & H3 & H4)%ok_held0. exists last. split_and!; [done..|]. intros H. apply H4 in H. cbn. lia.
  - intros u Hu. destruct (G4 u Hu) as [(at_ & H & ->)|[(n & a & ep & ex & now & H & ->)|H]]; [left|right; left|by right; right].
    + exists at_. split; [cbn; lia|done].
    + exists n, a, ep, ex, now. split; [cbn; lia|done].
Qed.
Lemma lookup_snoc_inv {A} (l : list A) x i y : (l ++ [x]) !! i = Some y → l !! i = Some y ∨ i = length l ∧ y = x.
Proof.
  intros [H|[Hi H]]%lookup_app_Some; [by left|right].
  destruct (i - length l)%nat eqn:E; [|done]. simpl in H. simplify_eq. split; [lia|done].
Qed.
Lemma good_spawn s network account force : good s →
  good (mkSystem (sy_now s) (sy_table s)
          (sy_calls s ++ [mkCall (sy_now s) network account Started None (calculate app network account force)]) (sy_sent s)).
Proof.
  intros [G1 G2 G3 G4 G5 G6 G7]. constructor; cbn; try done.
  - intros i c [Hc|[_ ->]]%lookup_snoc_inv; [by apply (call_ok_ext s), (G3 i c)|].
    constructor; cbn; try done. apply legal_calculate.
  - intros i j c d now g now' g' [Hc|[-> ->]]%lookup_snoc_inv [Hd|[-> ->]]%lookup_snoc_inv; try done. by apply G5.
  - intros u g i c now g' Hu Hg [Hc|[-> ->]]%lookup_snoc_inv; [by apply (G7 u g i c)|done].
Qed.
Lemma good_expire s key : good s → (∃ item e, sy_table s !! key = Some item ∧ num item "expiresAt" = Some e) →
  good (mkSystem (sy_now s) (delete key (sy_table s)) (sy_calls s) (sy_sent s)).
Proof.
  intros Hs (item & e & Hi & He).
  assert (∀ (n : RuntimeNetwork HttpRpc) a, row (with_table s (delete key (sy_table s))) (key_of n a) = row s (key_of n a)) as Hrow.
  { intros n a. unfold row. cbn. rewrite lookup_delete_ne; [done|]. intros ->.
    pose proof (good_rows s Hs n a) as [Hex _]. unfold row in Hex. rewrite Hi in Hex. cbn in Hex. unfold num in He. by rewrite Hex in He. }
  apply (good_table s); [done| |].
  - intros n a. rewrite Hrow. apply evolves_refl, (good_rows s Hs).
  - intros i c now g _ _ (last & H). exists last. unfold cl_key in *. by rewrite Hrow.
Qed.

(** A request goes on with an answer. *)
Lemma good_proceed s i c o r a table m : good s → sy_calls s !! i = Some c → next_op (cl_task c) = Some o →
  respond s o r = Some (a, table) → legal app (cl_network c) (cl_account c) always (after (cl_phase c) o a) m →
  good (with_call s i (moved c (after (cl_phase c) o a) (granted_after c o a) m) table (updates_of o)).
Proof.
  intros Hs Hi Hn Hr Hl. pose proof (legal_next _ _ _ _ _ _ (ok_legal _ _ (good_calls s Hs i c Hi)) Hn) as Ha.
  destruct o as [|pk|u|px sk|id co]; cbn [respond] in Hr.
  - destruct r; simplify_eq. by apply good_clock.
  - cbn [allowed] in Ha. subst pk. destruct r; simplify_eq; (apply good_read; [done|done| |done]); naive_solver.
  - destruct r; simplify_eq.
    + rewrite (surjective_pairing (deliver (sy_table s) u)) in Hr. simplify_eq. by apply good_carried.
    + assert (after (cl_phase c) (UpdateItem u) (UpdateFailed error) = Over) as E by (by destruct (cl_phase c)).
      rewrite E in *. by apply good_lost.
  - done.
  - destruct r; simplify_eq. by apply good_chain.
Qed.
Lemma step_good s ch s' : good s → step s ch = Some s' → good s'.
Proof.
  intros Hs H. destruct ch as [seconds|network account force|i r|i|i|j|key]; cbn [step] in H.
  - destruct (N.ltb_spec (sy_now s + seconds) (2 ^ 63)); simplify_eq. by apply good_tick.
  - simplify_eq. by apply good_spawn.
  - destruct (sy_calls s !! i) as [c|] eqn:Hi; [|done]. simpl in H. destruct (live s c); [|done].
    pose proof (ok_legal _ _ (good_calls s Hs i c Hi)) as Hl.
    destruct (cl_task c) as [a|o k|o k] eqn:Em; [done|..]; destruct (respond s o r) as [[a table]|] eqn:Er; try done;
      cbn in H; simplify_eq; eapply good_proceed; try done; try (by rewrite Em); apply Hl.
  - destruct (sy_calls s !! i) as [c|] eqn:Hi; [|done]. simpl in H.
    pose proof (ok_legal _ _ (good_calls s Hs i c Hi)) as Hl.
    destruct (cl_task c) as [a|o k|o k] eqn:Em; [done|done|]. simplify_eq. destruct Hl as (Ha & Hk & Hn).
    destruct o as [|pk|u|px sk|id co]; try (by apply (good_over s i c)). by apply good_lost; [..|rewrite Em|].
  - destruct (sy_calls s !! i) as [c|] eqn:Hi; [|done]. simpl in H.
    destruct (next_op (cl_task c)) as [o|] eqn:En; [|done]. destruct o as [|pk|u|px sk|id co]; simplify_eq.
    apply (deliver_good (with_moved (with_sent s u) i (moved c (sent_phase (cl_phase c) u) (cl_granted c) (cl_task c))) u);
      [by apply good_send|]. apply elem_of_cons. by left.
  - destruct (sy_sent s !! j) as [u|] eqn:Hu; [|done]. simpl in H. simplify_eq.
    apply (deliver_good _ u); [done|by eapply list_elem_of_lookup_2].
  - destruct (sy_table s !! key) as [item|] eqn:Hi; [|done]. simpl in H.
    destruct (num item "expiresAt") as [e|] eqn:He; [|done]. simpl in H. destruct (e <=? sy_now s); simplify_eq.
    apply good_expire; [done|]. by exists item, e.
Qed.
Lemma initial_good now : now < 2 ^ 63 → good (initial now).
Proof.
  intros H. constructor; cbn; try done; try (intros u; intros; by destruct (not_elem_of_nil u)).
  intros n a. unfold row. cbn. rewrite lookup_empty. split; [done|by left].
Qed.
(** What one step keeps holds wherever the system gets to. *)
Lemma reachable_ind (P : system → Prop) : (∀ now, now < 2 ^ 63 → P (initial now)) →
  (∀ s ch s', good s → P s → step s ch = Some s' → P s') → ∀ s, reachable s → good s ∧ P s.
Proof.
  intros H0 Hstep s (now & l & Hn & Hl).
  assert (good (initial now) ∧ P (initial now)) as Hi by (split; [by apply initial_good|by apply H0]).
  revert Hl Hi. generalize (initial now). induction l as [|ch l IH]; intros s0 Hl [Hg HP]; cbn [execute] in Hl; [by simplify_eq|].
  destruct (step s0 ch) as [s1|] eqn:E; [|done]. simpl in Hl. apply (IH s1); [done|]. split; [by eapply step_good|by eapply Hstep].
Qed.
Lemma reachable_good s : reachable s → good s.
Proof. intros H. by apply (reachable_ind (fun _ => True)) in H as [H _]. Qed.

(* ------------------------------------------------------------------ *)
(** ** One replay at a time *)

(** The request waits for the chain, within its time. *)
Definition reads_chain (s : system) (c : call) : Prop :=
  live s c = true ∧ ∃ id co, next_op (cl_task c) = Some (OnChain id co).

Lemma reads_replaying s c : call_ok s c → reads_chain s c →
  ∃ now r g results, cl_phase c = Replaying now r g results.
Proof.
  intros Hok (_ & id & co & Hn). pose proof (legal_next _ _ _ _ _ _ (ok_legal _ _ Hok) Hn) as Ha. cbn in Ha.
  destruct (cl_phase c); try done. by eexists _, _, _, _.
Qed.

(** C33: Whatever requests there are and however their operations interleave, updates
    arriving late, twice or unnoticed, at most one request at a time reads the chain
    for an account. *)
Theorem one_replay_per_account s i j c d (Hr : reachable s)
  (Hi : sy_calls s !! i = Some c) (Hj : sy_calls s !! j = Some d) (Hkey : cl_key c = cl_key d)
  (Hc : reads_chain s c) (Hd : reads_chain s d) : i = j.
Proof.
  apply reachable_good in Hr. destruct (decide (i = j)) as [|Hne]; [done|exfalso].
  pose proof (good_calls s Hr i c Hi) as Hok. pose proof (good_calls s Hr j d Hj) as Hokd.
  destruct (reads_replaying s c Hok Hc) as (now & r & g & results & Ep).
  destruct (reads_replaying s d Hokd Hd) as (now' & r' & g' & results' & Ep').
  assert (held (cl_phase c) = Some (now, g)) as Hh by (by rewrite Ep).
  assert (held (cl_phase d) = Some (now', g')) as Hh' by (by rewrite Ep').
  pose proof (good_unique s Hr i j c d now g now' g' Hi Hj Hne Hkey Hh Hh') as Hg.
  destruct (ok_held _ _ Hok _ _ Hh) as (last & Hlast & Hle & _ & Hover).
  destruct (ok_held _ _ Hokd _ _ Hh') as (last' & Hlast' & Hle' & _ & Hover').
  rewrite Hkey, Hlast' in Hlast. injection Hlast as ->.
  pose proof policy_bounds as (Hlim & _).
  destruct Hc as [Hlc _], Hd as [Hld _]. apply N.ltb_lt in Hlc, Hld.
  assert (cl_started c ≤ now) by (apply (ok_now _ _ Hok); by rewrite Ep).
  assert (cl_started d ≤ now') by (apply (ok_now _ _ Hokd); by rewrite Ep').
  destruct (N.lt_ge_cases g last) as [Hg1|Hg1]; [specialize (Hover Hg1); lia|].
  destruct (N.lt_ge_cases g' last) as [Hg2|Hg2]; [specialize (Hover' Hg2); lia|lia].
Qed.

(* ------------------------------------------------------------------ *)
(** ** What a step does to the table *)

(** The table stays, carries out an update that is or was sent, or loses a row that
    has expired. *)
Definition table_step (s s' : system) : Prop :=
  sy_table s' = sy_table s ∨
  (∃ u s1, good s1 ∧ sy_table s1 = sy_table s ∧ sy_now s1 = sy_now s ∧ u ∈ sy_sent s1 ∧
     sy_table s' = (deliver (sy_table s) u).2) ∨
  ∃ key item e, sy_table s !! key = Some item ∧ num item "expiresAt" = Some e ∧ e ≤ sy_now s ∧
    sy_table s' = delete key (sy_table s).
Lemma step_table s ch s' : good s → step s ch = Some s' → table_step s s'.
Proof.
  intros Hs H.
  assert (∀ i c u, sy_calls s !! i = Some c → next_op (cl_task c) = Some (UpdateItem u) →
    sy_table s' = (deliver (sy_table s) u).2 → table_step s s') as Hsend.
  { intros i c u Hi Hn Ht. right. left. exists u. eexists. split; [exact (good_send s i c u Hs Hi Hn)|].
    split_and!; [done|done|apply elem_of_cons; by left|done]. }
  destruct ch as [seconds|network account force|i r|i|i|j|key]; cbn [step] in H.
  - destruct (_ <? _); simplify_eq. by left.
  - simplify_eq. by left.
  - destruct (sy_calls s !! i) as [c|] eqn:Hi; [|done]. simpl in H. destruct (live s c); [|done].
    destruct (cl_task c) as [a|o k|o k] eqn:Em; [done|..]; destruct (respond s o r) as [[a table]|] eqn:Er; try done;
      cbn in H; simplify_eq; destruct o as [|pk|u|px sk|id co]; cbn [respond] in Er; destruct r; simplify_eq;
      try (by left); (eapply Hsend; [exact Hi|by rewrite Em|cbn; by rewrite Er]).
  - destruct (sy_calls s !! i) as [c|]; [|done]. simpl in H. destruct (cl_task c); simplify_eq. by left.
  - destruct (sy_calls s !! i) as [c|] eqn:Hi; [|done]. simpl in H.
    destruct (next_op (cl_task c)) as [[|pk|u|px sk|id co]|] eqn:En; simplify_eq. by eapply Hsend.
  - destruct (sy_sent s !! j) as [u|] eqn:Hu; [|done]. simpl in H. simplify_eq. right. left. exists u, s.
    split_and!; [done..|by eapply list_elem_of_lookup_2|done].
  - destruct (sy_table s !! key) as [item|] eqn:Hi; [|done]. simpl in H.
    destruct (num item "expiresAt") as [e|] eqn:He; [|done]. simpl in H. destruct (N.leb_spec e (sy_now s)); simplify_eq.
    right. right. by exists key, item, e.
Qed.
Lemma row_step s s' s1 u key : sy_table s1 = sy_table s → sy_table s' = (deliver (sy_table s) u).2 →
  row s' key = row s key ∧ (key ≠ ur_key u ∨ ts_check u (row s key) = false) ∨
  key = ur_key u ∧ ts_check u (row s key) = true ∧ row s' key = ts_apply u (row s key).
Proof.
  intros _ E2. assert (row s' key = row (with_table s (deliver (sy_table s) u).2) key) as -> by (unfold row; by rewrite E2).
  destruct (ts_check u (row s (ur_key u))) eqn:Hc.
  - rewrite row_delivered by done. destruct (decide (key = ur_key u)) as [->|]; [by right|]. left. split; [done|by left].
  - rewrite deliver_unchanged by done. cbn. rewrite with_table_id. left. split; [done|].
    destruct (decide (key = ur_key u)) as [->|]; auto.
Qed.

(* ------------------------------------------------------------------ *)
(** ** Every stored checkpoint follows from the one before *)

Lemma stored_of_item_ext item r stored : item !! "payload" = r !! "payload" → item !! "version" = r !! "version" →
  stored_of_item item = Ok stored →
  ∃ stored', stored_of_item r = Ok stored' ∧ sto_checkpoint <$> stored' = sto_checkpoint <$> stored.
Proof.
  intros E1 E2. unfold stored_of_item. rewrite E1, E2. destruct (r !! "payload") as [v|]; [|intros [= <-]; by exists None].
  intros H. destruct (ok_or (as_s v) _) as [payload|e|w]; try done. cbn in *.
  destruct (bail_if _ _); try done. cbn in *. destruct (ok_or _ _) as [version|e|w]; try done. cbn in *.
  destruct (ok_or _ _) as [n|e|w]; try done. cbn in *.
  destruct (decode_checkpoint_payload payload) as [[[checkpoint snapshot] epoch]|e|w]; try done. cbn in *. simplify_eq.
  eexists. split; [done|]. done.
Qed.
(** A row a request loaded and whose version is still the current one. *)
Lemma current_row r0 r stored : older (default ∅ r0) r → decodes r0 → stored_in r0 = stored →
  version_is (sto_version <$> stored) r → row_ok r →
  ∃ stored', stored_of_item r = Ok stored' ∧ sto_checkpoint <$> stored' = sto_checkpoint <$> stored.
Proof.
  intros ([_ Hok] & Hle & He) Hd <- Hv [_ Hr].
  destruct r0 as [item|]; cbn [stored_in decodes default from_option] in *; unfold id in *.
  - destruct Hd as [stored E]. rewrite E in *.
    assert (vnum item = vnum r) as Hvn.
    { destruct stored as [st|]; cbn in Hv.
      - destruct Hok as [[Ev Ep]|(v & p & Ev & _ & _)].
        + unfold stored_of_item in E. by rewrite Ep in E.
        + unfold vnum. rewrite Hv, (num_lookup _ _ _ Ev). cbn. unfold stored_of_item in E.
          destruct (item !! "payload") as [pv|]; [|done].
          destruct (ok_or (as_s pv) _) as [payload|e|w]; try done. cbn in E.
          destruct (bail_if _ _); try done. cbn in E. rewrite Ev in E. cbn in E.
          destruct (parse_u64 (to_decimal v)) as [x|] eqn:Ex; [|done]. apply parse_u64_number in Ex as ->. cbn in E.
          destruct (decode_checkpoint_payload payload) as [[[checkpoint snapshot] epoch]|e|w]; try done. cbn in E. by simplify_eq.
      - assert (vnum r = 0) as Hz by (unfold vnum, num; by rewrite Hv). lia. }
    destruct (He Hvn) as [Hp Hve]. by eapply stored_of_item_ext.
  - exists None. split; [|done]. cbn in Hv. destruct Hr as [[_ Hp]|(v & p & Hv' & _)]; [|by rewrite Hv in Hv'].
    unfold stored_of_item. by rewrite Hp.
Qed.

(** The stored payload is the text of what the chain computed for this account, from the
    checkpoint of the row [r] or from nothing. *)
Definition follows (key : string) (r r' : Item) : Prop :=
  ∃ (network : RuntimeNetwork HttpRpc) account stored snapshot checkpoint reference previous epoch payload w w',
    key_of network account = key ∧ stored_of_item r = Ok stored ∧
    (previous = None ∨ previous = sto_checkpoint <$> stored) ∧
    compute_incremental_score_at (W := W) (rn_score network) (rn_registry network) account reference previous w =
      (Ok (snapshot, checkpoint), w') ∧
    persisted_to_string (mkPersistedCheckpoint checkpoint (Some snapshot) (Some epoch)) = Some payload ∧
    r' !! "payload" = Some (AvS payload) ∧ vnum r' = vnum r + 1.

(** C34: No stored score is lost or overwritten by an older one: whatever the
    interleaving, a step leaves the checkpoint and the version of an account's row as
    they are, or replaces them by what the chain computed from the very checkpoint
    stored there (or from nothing), under the next version. *)
Theorem stored_scores_follow s ch s' (network : RuntimeNetwork HttpRpc) account
  (Hr : reachable s) (Hstep : step s ch = Some s') :
  let key := key_of network account in
  keeps ["payload"; "version"] (row s key) (row s' key) ∨ follows key (row s key) (row s' key).
Proof.
  intros key. apply reachable_good in Hr. destruct (step_table s ch s' Hr Hstep) as [E|[H|H]].
  - left. intros a _. unfold row. by rewrite E.
  - destruct H as (u & s1 & Hs1 & E1 & _ & Hu & E).
    destruct (row_step s s' s1 u key E1 E) as [[Hrow _]|(Hk & Hc & Hrow)]; [left; intros a _; by rewrite Hrow|].
    assert (∀ k, row s1 k = row s k) as Hrows by (intros k; unfold row; by rewrite E1).
    destruct (good_sent s1 Hs1 u Hu) as [(at_ & _ & ->)|[(n & a & ep & ex & now & _ & ->)|Hsave]].
    + by apply key_not_budget in Hk.
    + left. rewrite Hrow. destruct (apply_acquire app (key_of n a) ep ex now (row s key)) as (_ & _ & Hkeep & _).
      intros b Hb. apply Hkeep. set_solver.
    + destruct Hsave as (n & a & r0 & g & now & results & Hd & Hsv & Ho & Hres).
      right. pose proof (saves_facts _ _ _ _ _ _ _ Hsv) as [Hkey _]. rewrite Hk, Hkey in *. rewrite Hrows in Ho.
      pose proof (good_rows s Hr n a) as Hok.
      destruct (save_evolves n a r0 g now results u (row s (key_of n a)) Hok Hsv Hc) as [_ Hv].
      destruct Hsv as (snapshot & checkpoint & epoch & payload & next & cursor & refresh & Hin & Hp & _ & ->).
      destruct (Hres _ Hin) as (reference & previous & w & w' & Hprev & Hcomp).
      pose proof (check_save _ _ _ _ _ _ _ _ _ _ Hc) as (_ & Hver & _).
      destruct (current_row r0 _ _ Ho Hd eq_refl Hver Hok) as (stored & Hst & Hck).
      exists n, a, stored, snapshot, checkpoint, reference, previous, epoch, payload, w, w'.
      rewrite Hrow. split_and!; try done; [by rewrite Hck|]. by apply apply_save.
  - destruct H as (k & item & e & Hi & He & _ & E). left. intros a _. unfold row. rewrite E.
    destruct (decide (k = key)) as [->|Hne]; [|by rewrite lookup_delete_ne].
    pose proof (good_rows s Hr network account) as [Hex _]. unfold row in Hex. fold key in Hex. rewrite Hi in Hex. cbn in Hex.
    unfold num in He. by rewrite Hex in He.
Qed.

(* ------------------------------------------------------------------ *)
(** ** The work budget *)

Definition window_key (b : N) : string := "work-budget#" +:+ to_decimal b.
Definition used (s : system) (b : N) : N := default 0 (num (row s (window_key b)) "used").
Definition granted_in (b : N) (c : call) : bool := bool_decide (cl_granted c = Some b).
(** How many requests were granted work in window [b]. *)
Definition grants (s : system) (b : N) : N := N.of_nat (length (List.filter (granted_in b) (sy_calls s))).

Lemma count_insert {A} (P : A → bool) l i c c' : l !! i = Some c → (P c = true ∨ P c' = false) →
  (length (List.filter P (<[i := c']> l)) ≤ length (List.filter P l))%nat.
Proof.
  revert i. induction l as [|x l IH]; intros [|i] Hi Hp; try done; simpl in *.
  - simplify_eq. destruct (P c'), (P c); simpl; destruct Hp; try done; lia.
  - specialize (IH i Hi Hp). destruct (P x); simpl; lia.
Qed.
Lemma count_insert_succ {A} (P : A → bool) l i c c' : l !! i = Some c →
  (length (List.filter P (<[i := c']> l)) ≤ S (length (List.filter P l)))%nat.
Proof.
  revert i. induction l as [|x l IH]; intros [|i] Hi; try done; simpl in *.
  - simplify_eq. destruct (P c'), (P c); simpl; lia.
  - specialize (IH i Hi). destruct (P x); simpl; lia.
Qed.

(** What is known of window [b]: until a day after it began its counter counts the
    grants, and its row is kept. *)
Definition window_ok (s : system) (b : N) : Prop :=
  grants s b ≤ budget_max_attempts policy ∧
  used s b ≤ budget_max_attempts policy ∧
  (sy_now s < b * budget_window_seconds policy + DAILY_EPOCH_SECONDS → grants s b ≤ used s b) ∧
  ∀ e, num (row s (window_key b)) "expiresAt" = Some e → b * budget_window_seconds policy + DAILY_EPOCH_SECONDS ≤ e.

Lemma policy_budget : 1 ≤ budget_max_attempts policy.
Proof.
  revert valid. unfold invalid_policy, within. fold policy.
  rewrite !orb_false_iff, !negb_false_iff, !andb_true_iff, N.ltb_ge, !N.leb_le. lia.
Qed.
Lemma window_start at_ : at_ / budget_window_seconds policy * budget_window_seconds policy ≤ at_.
Proof. pose proof policy_bounds as (_ & _ & H & _). rewrite N.mul_comm. apply N.Div0.mul_div_le. Qed.
Lemma window_end at_ : at_ < (at_ / budget_window_seconds policy + 1) * budget_window_seconds policy.
Proof.
  pose proof policy_bounds as (_ & _ & H & _).
  pose proof (N.mul_succ_div_gt at_ (budget_window_seconds policy)) as Hg. rewrite N.add_1_r, N.mul_comm. apply Hg. lia.
Qed.
Lemma window_key_inj b b' : window_key b = window_key b' → b = b'.
Proof. unfold window_key. intros [= H]. by apply (inj to_decimal) in H. Qed.

Lemma window_not_key b (network : RuntimeNetwork HttpRpc) account : window_key b ≠ key_of network account.
Proof.
  assert (window_key b = budget_key app (b * budget_window_seconds policy)) as ->.
  { unfold budget_key. fold policy. rewrite N.div_mul by (pose proof policy_bounds; lia). done. }
  intros H. by apply (key_not_budget network account (b * budget_window_seconds policy)).
Qed.

(** An update that is sent to a window's row reserves there. *)
Lemma window_update s u b : good s → u ∈ sy_sent s → window_key b = ur_key u →
  ∃ at_, at_ ≤ sy_now s ∧ u = budget_request app at_ ∧ b = at_ / budget_window_seconds policy.
Proof.
  intros Hs Hu Hk.
  destruct (good_sent s Hs u Hu) as [(at_ & Hat & ->)|[(n & a & ep & ex & now & _ & ->)|(n & a & r & g & now & results & _ & Hsv & _)]].
  - exists at_. split_and!; [done|done|]. by apply window_key_inj in Hk.
  - by apply window_not_key in Hk.
  - apply saves_facts in Hsv as [Hk' _]. rewrite Hk' in Hk. by apply window_not_key in Hk.
Qed.

(** The counter of a window after a step: as before, one higher by a reservation, or
    gone with its row a day after the window began. *)
Lemma used_step s s' b : good s → table_step s s' → window_ok s b →
  (∀ e, num (row s' (window_key b)) "expiresAt" = Some e → b * budget_window_seconds policy + DAILY_EPOCH_SECONDS ≤ e) ∧
  used s' b ≤ budget_max_attempts policy ∧
  (sy_now s < b * budget_window_seconds policy + DAILY_EPOCH_SECONDS → used s b ≤ used s' b).
Proof.
  intros Hs Ht (_ & Hmax & _ & Hexp). destruct Ht as [E|[(u & s1 & Hs1 & E1 & En & Hu & E)|(key & item & e & Hi & He & Hle & E)]].
  - unfold used, row. rewrite E. by split_and!.
  - destruct (row_step s s' s1 u (window_key b) E1 E) as [[Hrow _]|(Hk & Hc & Hrow)]; [unfold used; by rewrite Hrow|].
    destruct (window_update s1 u b Hs1 Hu Hk) as (at_ & Hat & -> & ->).
    pose proof (check_budget app at_ _ Hc) as Hlt. destruct (apply_budget app at_ (row s (window_key (at_ / budget_window_seconds policy)))) as [Hused Hex].
    unfold used. rewrite Hrow, Hused, Hex.
    match goal with |- context [Some (?n + 1)] => change (default 0 (Some (n + 1))) with (n + 1) end. split_and!.
    + intros e [= <-]. pose proof (window_start at_). rewrite u64_add_small; [lia|].
      pose proof (good_now s1 Hs1). change u64_modulus with (2 ^ 64). change DAILY_EPOCH_SECONDS with 86400.
      assert (2 ^ 63 + 86400 < 2 ^ 64) by done. lia.
    + fold policy in Hlt. destruct Hlt as [Hlt|Hnone]; [lia|].
      unfold num at 1. rewrite Hnone. cbn. pose proof policy_budget. lia.
    + lia.
  - unfold used, row. rewrite E. destruct (decide (key = window_key b)) as [->|Hne].
    + assert (∀ a, num (default ∅ (None : option Item)) a = None) as Hn by (intros a; unfold num; cbn; by rewrite lookup_empty).
      rewrite lookup_delete_eq, !Hn. split_and!; [done|apply N.le_0_l|].
      intros Hnow. unfold row in Hexp. rewrite Hi in Hexp. specialize (Hexp e He). lia.
    + by rewrite lookup_delete_ne.
Qed.

(** A request is granted work when its reservation is carried out. *)
Definition grant_step (s s' : system) : Prop :=
  (∀ b, grants s' b ≤ grants s b) ∨
  ∃ i c now r g at_, sy_calls s !! i = Some c ∧ live s c = true ∧ cl_phase c = Budgeting now r g at_ ∧
    ts_check (budget_request app at_) (row s (budget_key app at_)) = true ∧
    sy_table s' = (deliver (sy_table s) (budget_request app at_)).2 ∧
    ∀ b, grants s' b ≤ grants s b + if b =? at_ / budget_window_seconds policy then 1 else 0.
Lemma grants_insert s i c c' b : sy_calls s !! i = Some c → cl_granted c' = cl_granted c →
  N.of_nat (length (List.filter (granted_in b) (<[i := c']> (sy_calls s)))) ≤ grants s b.
Proof.
  intros Hi Hc. unfold grants. assert (granted_in b c' = granted_in b c) as E by (unfold granted_in; by rewrite Hc).
  pose proof (count_insert (granted_in b) (sy_calls s) i c c' Hi). rewrite E in H.
  destruct (granted_in b c); specialize (H ltac:(auto)); lia.
Qed.
Lemma proceed_grants s i c o r a table m : good s → sy_calls s !! i = Some c → live s c = true →
  next_op (cl_task c) = Some o → respond s o r = Some (a, table) →
  grant_step s (with_call s i (moved c (after (cl_phase c) o a) (granted_after c o a) m) table (updates_of o)).
Proof.
  intros Hs Hi Hlive Hn Hr.
  assert (granted_after c o a = cl_granted c → grant_step s (with_call s i (moved c (after (cl_phase c) o a) (granted_after c o a) m) table (updates_of o)))
    as Hsame by (intros E; left; intros b; by apply (grants_insert s i c)).
  destruct o as [|pk|u|px sk|id co]; try (by apply Hsame).
  destruct (cl_phase c) as [ | | | |now r0 g at_| | | | ] eqn:Ep; try (by apply Hsame; cbn; rewrite Ep).
  pose proof (legal_next _ _ _ _ _ _ (ok_legal _ _ (good_calls s Hs i c Hi)) Hn) as Ha. rewrite Ep in Ha. cbn in Ha. subst u.
  destruct a as [attributes| |e]; try (by apply Hsame; cbn; rewrite Ep).
  destruct r; cbn [respond] in Hr; simplify_eq.
  right. exists i, c, now, r0, g, at_.
  destruct (ts_check (budget_request app at_) (row s (budget_key app at_))) eqn:Hc.
  - split_and!; try done; [cbn; by rewrite Hr|]. intros b. unfold grants. cbn [with_call sy_calls granted_after].
    rewrite Ep. destruct (N.eqb_spec b (at_ / budget_window_seconds policy)) as [->|Hne].
    + pose proof (count_insert_succ (granted_in (at_ / budget_window_seconds policy)) (sy_calls s) i c
        (moved c (after (Budgeting now r0 g at_) (UpdateItem (budget_request app at_)) (Updated attributes))
           (Some (at_ / budget_window_seconds policy)) m) Hi). lia.
    + pose proof (count_insert (granted_in b) (sy_calls s) i c
        (moved c (after (Budgeting now r0 g at_) (UpdateItem (budget_request app at_)) (Updated attributes))
           (Some (at_ / budget_window_seconds policy)) m) Hi) as H.
      assert (granted_in b (moved c (after (Budgeting now r0 g at_) (UpdateItem (budget_request app at_)) (Updated attributes))
           (Some (at_ / budget_window_seconds policy)) m) = false) as E.
      { unfold granted_in. cbn. apply bool_decide_eq_false. by intros [= <-]. }
      specialize (H (or_intror E)). lia.
  - unfold row in Hc. rewrite deliver_unchanged in Hr by done. done.
Qed.
Lemma step_grants s ch s' : good s → step s ch = Some s' → grant_step s s'.
Proof.
  intros Hs H. destruct ch as [seconds|network account force|i r|i|i|j|key]; cbn [step] in H.
  - destruct (_ <? _); simplify_eq. by left.
  - simplify_eq. left. intros b. unfold grants. cbn [sy_calls]. rewrite List.filter_app, length_app. cbn [List.filter].
    assert (granted_in b (mkCall (sy_now s) network account Started None (calculate app network account force)) = false) as -> by
      (by apply bool_decide_eq_false).
    cbn. lia.
  - destruct (sy_calls s !! i) as [c|] eqn:Hi; [|done]. simpl in H. destruct (live s c) eqn:Hl; [|done].
    destruct (cl_task c) as [a|o k|o k] eqn:Em; [done|..]; destruct (respond s o r) as [[a table]|] eqn:Er; try done;
      cbn in H; simplify_eq; eapply proceed_grants; try done; by rewrite Em.
  - destruct (sy_calls s !! i) as [c|] eqn:Hi; [|done]. simpl in H. destruct (cl_task c); simplify_eq.
    left. intros b. by apply (grants_insert s i c).
  - destruct (sy_calls s !! i) as [c|] eqn:Hi; [|done]. simpl in H.
    destruct (next_op (cl_task c)) as [[|pk|u|px sk|id co]|]; simplify_eq. left. intros b. by apply (grants_insert s i c).
  - destruct (sy_sent s !! j); simpl in H; simplify_eq. by left.
  - destruct (sy_table s !! key); [|done]. simpl in H. destruct (num _ _); [|done]. simpl in H.
    destruct (_ <=? _); simplify_eq. by left.
Qed.
Lemma step_time s ch s' : step s ch = Some s' → sy_now s ≤ sy_now s'.
Proof.
  intros H. destruct ch as [seconds|network account force|i r|i|i|j|key]; cbn [step] in H.
  - destruct (_ <? _); simplify_eq. cbn. lia.
  - by simplify_eq.
  - destruct (sy_calls s !! i) as [c|]; [|done]. simpl in H. destruct (live s c); [|done].
    destruct (cl_task c) as [a|o k|o k]; [done|..]; destruct (respond s o r) as [[a table]|]; try done; cbn in H; by simplify_eq.
  - destruct (sy_calls s !! i) as [c|]; [|done]. simpl in H. destruct (cl_task c); by simplify_eq.
  - destruct (sy_calls s !! i) as [c|]; [|done]. simpl in H.
    destruct (next_op (cl_task c)) as [[|pk|u|px sk|id co]|]; by simplify_eq.
  - destruct (sy_sent s !! j); simpl in H; by simplify_eq.
  - destruct (sy_table s !! key); [|done]. simpl in H. destruct (num _ _); [|done]. simpl in H. destruct (_ <=? _); by simplify_eq.
Qed.

Lemma window_step s ch s' b : budget_window_seconds policy + time_limit ≤ DAILY_EPOCH_SECONDS →
  good s → window_ok s b → step s ch = Some s' → window_ok s' b.
Proof.
  intros Hbw Hs Hok Hstep.
  destruct (used_step s s' b Hs (step_table s ch s' Hs Hstep) Hok) as (Hexp & Hmax & Hused).
  destruct Hok as (Hg & _ & Hcount & _). pose proof (step_time s ch s' Hstep) as Hnow.
  assert (grants s' b ≤ grants s b → window_ok s' b) as Hle.
  { intros H. split_and!; [lia|done| |done]. intros Hlt.
    assert (sy_now s < b * budget_window_seconds policy + DAILY_EPOCH_SECONDS) as H' by lia.
    specialize (Hcount H'). specialize (Hused H'). lia. }
  destruct (step_grants s ch s' Hs Hstep) as [H|(i & c & now & r & g & at_ & Hi & Hl & Ep & Hc & Et & H)]; [by apply Hle|].
  specialize (H b). destruct (N.eqb_spec b (at_ / budget_window_seconds policy)) as [->|Hne]; [|apply Hle; lia].
  clear Hle. set (b := at_ / budget_window_seconds policy) in *.
  (* a reservation that is carried out in time *)
  assert (sy_now s < b * budget_window_seconds policy + DAILY_EPOCH_SECONDS) as Hopen.
  { pose proof (good_calls s Hs i c Hi) as Hok. assert (cl_started c ≤ at_ ≤ sy_now s) as Hat by (apply (ok_at _ _ Hok); by rewrite Ep).
    apply N.ltb_lt in Hl. pose proof (window_end at_) as He. fold b in He. lia. }
  specialize (Hcount Hopen).
  assert (used s' b = used s b + 1) as Hu.
  { destruct (row_step s s' s (budget_request app at_) (window_key b) eq_refl Et) as [[_ [Hne|Hf]]|(_ & _ & Hrow)].
    - by destruct Hne.
    - change (budget_key app at_) with (window_key b) in Hc. congruence.
    - unfold used. rewrite Hrow. destruct (apply_budget app at_ (row s (window_key b))) as [E _]. by rewrite E. }
  split_and!; [lia|done|lia|done].
Qed.

End System.

(* ------------------------------------------------------------------ *)
(** ** An evaluated instance *)

Module LeaseDemo.
#[local] Existing Instances RefHex.hex_crate RefHex.hex_laws RefAbi.abi_codec.
(** A chain of two days, four blocks high. *)
#[local] Instance provider : RpcIface unit :=
  RefProvider.provider (fun n => 172800 + demo_ts n) demo_block_hash 4 ScoreDemo.answer demo_mint_ledger.
#[local] Instance demo_json : ScoreJson := {|
  persisted_to_string p := Some (uc_account (pc_checkpoint p));
  persisted_from_str _ := None;
  value_from_str _ := None;
  user_checkpoint_from_value _ := None;
  network_configs_from_str _ := None;
  work_policy_from_str _ := None
|}.
#[local] Instance demo_table : TableService :=
  {| ts_check u item := condition_holds u item (ur_condition u); ts_apply := applied |}.
#[local] Instance demo_laws : TableLaws.
Proof. by split. Qed.

Definition demo_network : RuntimeNetwork unit := mkRuntimeNetwork ScoreDemo.network demo_registry tt.
Definition demo_app : App unit := mkApp WorkPolicy_default {[ 1 := demo_network ]} "https://usd8.fi".
Definition after_steps (l : list (choice (W := unit) (HttpRpc := unit))) : system (HttpRpc := unit) :=
  default (initial 200000) (execute demo_app (initial 200000) l).

(** Two requests for one account: the first takes the lease and starts to replay, the
    second does not get it. *)
Definition contended : list (choice (W := unit) (HttpRpc := unit)) :=
  [Spawn demo_network demo_account true; Spawn demo_network demo_account true;
   Proceed 0 RClock; Proceed 1 RClock; Proceed 0 RRead; Proceed 1 RRead; Deliver 0; Redeliver 0;
   Tick 1; Tick 59; Spawn demo_network demo_account true; Proceed 2 RClock; Proceed 2 RRead; Proceed 2 RCarried;
   Proceed 2 RClock; Proceed 2 RCarried].
(** Then it reads the chain and is about to save. *)
Definition computed : list (choice (W := unit) (HttpRpc := unit)) :=
  contended ++ [Proceed 2 (RChain tt); Proceed 2 (RChain tt); Proceed 2 RClock].
Definition replaying_state := after_steps contended.
Definition saving_state := after_steps computed.
Definition third : call (HttpRpc := unit) :=
  default (mkCall 0 demo_network demo_account Over None (Done (Err ClockError))) (sy_calls replaying_state !! 2%nat).

Lemma replaying_reachable : reachable (W := unit) demo_app replaying_state.
Proof.
  exists 200000, contended. split; [done|].
  assert (match execute demo_app (initial 200000) contended with Some _ => true | None => false end = true) as H
    by (vm_compute; reflexivity).
  unfold replaying_state, after_steps. by destruct (execute demo_app (initial 200000) contended).
Qed.
Lemma saving_reachable : reachable (W := unit) demo_app saving_state.
Proof.
  exists 200000, computed. split; [done|].
  assert (match execute demo_app (initial 200000) computed with Some _ => true | None => false end = true) as H
    by (vm_compute; reflexivity).
  unfold saving_state, after_steps. by destruct (execute demo_app (initial 200000) computed).
Qed.
Lemma third_there : sy_calls replaying_state !! 2%nat = Some third.
Proof.
  unfold third. assert (match sy_calls replaying_state !! 2%nat with Some _ => true | None => false end = true) as H
    by (vm_compute; reflexivity).
  by destruct (sy_calls replaying_state !! 2%nat).
Qed.
Lemma third_reads : reads_chain demo_app replaying_state third.
Proof.
  split; [vm_compute; reflexivity|].
  assert (match next_op (cl_task third) with Some (OnChain _ _) => true | _ => false end = true) as H
    by (vm_compute; reflexivity).
  destruct (next_op (cl_task third)) as [[]|]; try discriminate H. by eexists _, _.
Qed.

Example one_replay_per_account_witness :
  reads_chain demo_app replaying_state third ∧
  ∀ i c, sy_calls replaying_state !! i = Some c → cl_key c = cl_key third →
    reads_chain demo_app replaying_state c → i = 2%nat.
Proof.
  split; [exact third_reads|]. intros i c Hi Hk Hc.
  apply (one_replay_per_account demo_app eq_refl replaying_state i 2 c third); [exact replaying_reachable|exact Hi|
    exact third_there|exact Hk|exact Hc|exact third_reads].
Defined.


Definition payload_set (r r' : Item) : bool :=
  bool_decide (r !! "payload" = None) && match r' !! "payload" with Some _ => true | None => false end.
Lemma payload_set_changes r r' : payload_set r r' = true → keeps ["payload"; "version"] r r' → False.
Proof.
  intros [H1%bool_decide_eq_true H2]%andb_prop Hk. rewrite (Hk "payload"), H1 in H2 by set_solver. done.
Qed.
(** The first save of the account. *)
Example stored_scores_follow_witness :
  ∃ s', step demo_app saving_state (Proceed 2 RCarried) = Some s' ∧
    follows (W := unit) (HttpRpc := unit) (key_of demo_network demo_account)
      (row saving_state (key_of demo_network demo_account)) (row s' (key_of demo_network demo_account)).
Proof.
  assert (match step demo_app saving_state (Proceed 2 RCarried) with
          | Some s' => payload_set (row saving_state (key_of demo_network demo_account)) (row s' (key_of demo_network demo_account))
          | None => false end = true) as H by (vm_compute; reflexivity).
  destruct (step demo_app saving_state (Proceed 2 RCarried)) as [s'|] eqn:E; [|discriminate H].
  exists s'. split; [reflexivity|].
  destruct (stored_scores_follow demo_app eq_refl saving_state (Proceed 2 RCarried) s' demo_network demo_account
              saving_reachable E) as [Hk|Hf]; [exfalso|exact Hf].
  exact (payload_set_changes _ _ H Hk).
Defined.
End LeaseDemo.
