(* ===== verification/Json.v ===== *)
(** * The kernel's JSON interface ([src/json.rs])

    Every number of the kernel's input and output travels as canonical decimal text.
    Reading and writing the texts themselves ([serde_json] on the derived traits) is a
    parameter; the theorems say which records are accepted and that each number has one
    text. *)

From S2P Require Import Prelude Bytes Text Commit Merkle Kernel JobProtocol SettlementVerifier CandidateFacts.

Open Scope string_scope.
Open Scope N_scope.
Open Scope list_scope.

Record JsonPoolInput := mkJsonPoolInput {
  jp_balance : string;
  jp_asset_usd : string;
  jp_asset_decimals : N
}.
Record JsonClaimInput := mkJsonClaimInput {
  jc_claim_id : string;
  jc_user : string;
  jc_escrow_amount : string;
  jc_min_held : string;
  jc_gross_earned_score : string;
  jc_spent_score : string;
  jc_score_to_spend : string;
  jc_booster_amount : string;
  jc_booster_held : string
}.
Record JsonKernelInput := mkJsonKernelInput {
  jk_incident_id : string;
  jk_coverage_bps : string;
  jk_booster_boost_bps : string;
  jk_insured_decimals : N;
  jk_twap_ratio : string;
  jk_underlying_usd : string;
  jk_max_cover_pool_payout_bps : string;
  jk_protocol_fee_share_bps : string;
  jk_pools : list JsonPoolInput;
  jk_claims : list JsonClaimInput
}.
Record JsonSettledRow := mkJsonSettledRow {
  js_claim_id : string;
  js_user : string;
  js_escrow_amount : string;
  js_eligible_amount : string;
  js_loss_usd : string;
  js_gross_earned_score : string;
  js_earned_score : string;
  js_score_spent : string;
  js_boosted_score : string;
  js_booster_amount : string;
  js_eligible_booster_amount : string;
  js_payout_usd : string;
  js_amounts : list string
}.
Record JsonKernelOutput := mkJsonKernelOutput {
  jo_rows : list JsonSettledRow;
  jo_pool_payouts : list string;
  jo_claim_set_hash : string;
  jo_settlement_input_hash : string;
  jo_root : string;
  jo_proofs : gmap string (list string)
}.
(** [serde_json] on the derived traits: camel-case names, unknown fields refused. *)
Class KernelJson := {
  kernel_input_from_str : string → outcome string JsonKernelInput;
  kernel_output_to_string : JsonKernelOutput → outcome string string
}.

Section Json.
Context `{HexCrate}.

Definition json_decimal (field value : string) : outcome KernelError N :=
  _ ← bail_if (str_is_empty value || ((1 <? str_len value) && starts_with "0" value) ||
               negb (str_all is_ascii_digit value) || (78 <? str_len value)) (InvalidDecimal field value);
  parsed ← ok_or (biguint_from_str value) (InvalidDecimal field value);
  _ ← uint256_word parsed;
  Ok parsed.
Definition json_address (field value : string) : outcome KernelError Address :=
  ok_or (address_from_str value) (InvalidAddress field value).

Definition indexed (name : string) (index : nat) : string :=
  name +:+ "[" +:+ to_decimal (N.of_nat index) +:+ "]".
Definition pool_of_json (index : nat) (pool : JsonPoolInput) : outcome KernelError PoolInput :=
  balance ← json_decimal (indexed "pools" index +:+ ".balance") (jp_balance pool);
  asset_usd ← json_decimal (indexed "pools" index +:+ ".assetUsd") (jp_asset_usd pool);
  Ok (mkPoolInput balance asset_usd (jp_asset_decimals pool)).
Definition claim_of_json (index : nat) (claim : JsonClaimInput) : outcome KernelError ClaimInput :=
  let prefix := indexed "claims" index in
  claim_id ← json_decimal (prefix +:+ ".claimId") (jc_claim_id claim);
  user ← json_address (prefix +:+ ".user") (jc_user claim);
  escrow_amount ← json_decimal (prefix +:+ ".escrowAmount") (jc_escrow_amount claim);
  min_held ← json_decimal (prefix +:+ ".minHeld") (jc_min_held claim);
  gross_earned_score ← json_decimal (prefix +:+ ".grossEarnedScore") (jc_gross_earned_score claim);
  spent_score ← json_decimal (prefix +:+ ".spentScore") (jc_spent_score claim);
  score_to_spend ← json_decimal (prefix +:+ ".scoreToSpend") (jc_score_to_spend claim);
  booster_amount ← json_decimal (prefix +:+ ".boosterAmount") (jc_booster_amount claim);
  booster_held ← json_decimal (prefix +:+ ".boosterHeld") (jc_booster_held claim);
  Ok (mkClaimInput claim_id user escrow_amount min_held gross_earned_score spent_score score_to_spend
        booster_amount booster_held).
(** [iter().enumerate().map(f).collect::<Result<_, _>>()]. *)
Fixpoint collect_indexed {A B} (f : nat → A → outcome KernelError B) (index : nat) (l : list A) :
    outcome KernelError (list B) :=
  match l with
  | [] => Ok []
  | x :: l => y ← f index x; ys ← collect_indexed f (S index) l; Ok (y :: ys)
  end.
Definition kernel_input_try_from (value : JsonKernelInput) : outcome KernelError KernelInput :=
  pools ← collect_indexed pool_of_json 0 (jk_pools value);
  claims ← collect_indexed claim_of_json 0 (jk_claims value);
  incident_id ← json_decimal "incidentId" (jk_incident_id value);
  coverage_bps ← json_decimal "coverageBps" (jk_coverage_bps value);
  booster_boost_bps ← json_decimal "boosterBoostBps" (jk_booster_boost_bps value);
  twap_ratio ← json_decimal "twapRatio" (jk_twap_ratio value);
  underlying_usd ← json_decimal "underlyingUsd" (jk_underlying_usd value);
  max_cover_pool_payout_bps ← json_decimal "maxCoverPoolPayoutBps" (jk_max_cover_pool_payout_bps value);
  protocol_fee_share_bps ← json_decimal "protocolFeeShareBps" (jk_protocol_fee_share_bps value);
  Ok (mkKernelInput incident_id coverage_bps booster_boost_bps (jk_insured_decimals value) twap_ratio
        underlying_usd max_cover_pool_payout_bps protocol_fee_share_bps pools claims).

Definition json_row (row : SettledRow) : JsonSettledRow :=
  {| js_claim_id := to_decimal (sr_claim_id row); js_user := address_to_string (sr_user row);
     js_escrow_amount := to_decimal (sr_escrow_amount row);
     js_eligible_amount := to_decimal (sr_eligible_amount row); js_loss_usd := to_decimal (sr_loss_usd row);
     js_gross_earned_score := to_decimal (sr_gross_earned_score row);
     js_earned_score := to_decimal (sr_earned_score row); js_score_spent := to_decimal (sr_score_spent row);
     js_boosted_score := to_decimal (sr_boosted_score row);
     js_booster_amount := to_decimal (sr_booster_amount row);
     js_eligible_booster_amount := to_decimal (sr_eligible_booster_amount row);
     js_payout_usd := to_decimal (sr_payout_usd row); js_amounts := map to_decimal (sr_amounts row) |}.
Definition json_output (value : KernelOutput) : JsonKernelOutput :=
  {| jo_rows := map json_row (ko_rows value); jo_pool_payouts := map to_decimal (ko_pool_payouts value);
     jo_claim_set_hash := ko_claim_set_hash value; jo_settlement_input_hash := ko_settlement_input_hash value;
     jo_root := ko_root value; jo_proofs := kmap to_decimal (ko_proofs value) |}.

Context `{Sha3Crate, KernelJson}.
Definition parse_json (input : string) : outcome KernelError KernelInput :=
  dto ← map_err Json (kernel_input_from_str input);
  kernel_input_try_from dto.
Definition serialize_output (output : KernelOutput) : outcome KernelError string :=
  map_err Json (kernel_output_to_string (json_output output)).
Definition compute_json (input : string) : outcome KernelError string :=
  input ← parse_json input;
  output ← allocate input;
  serialize_output output.
End Json.

(* ------------------------------------------------------------------ *)
(** ** One text for each number *)

Lemma decimal_text_short n : n < 2 ^ 256 → str_len (to_decimal n) ≤ 78.
Proof.
  intros Hn. pose proof (canonical_value _ _ (to_decimal_canonical n) (biguint_from_to n)) as Hv.
  assert (validate_incident_id (to_decimal n) = Ok tt) as Hok.
  { apply incident_id_accepted. split; [apply to_decimal_canonical|]. rewrite Hv. unfold uint256_max. lia. }
  unfold validate_incident_id in Hok. apply bail_if_ok, orb_false_iff in Hok as [Hok _].
  by apply orb_false_iff in Hok as [_ ?%N.ltb_ge].
Qed.
Lemma json_decimal_ok field s n : json_decimal field s = Ok n ↔ s = to_decimal n ∧ n < 2 ^ 256.
Proof.
  unfold json_decimal. split.
  - intros (? & Hb%bail_if_ok & (m & Hm%ok_or_ok & (w & [Hw _]%uint256_word_ok & Hs)%bind_ok)%bind_ok)%bind_ok.
    injection Hs as <-. split; [|done]. apply canonical_decimal_unique; [|done].
    apply orb_false_iff in Hb as [[[He Hz]%orb_false_iff Hd%negb_false_iff]%orb_false_iff _].
    unfold canonical_decimal. by rewrite He, Hz, Hd.
  - intros [-> Hn]. pose proof (to_decimal_canonical n) as Hc. unfold canonical_decimal in Hc.
    apply andb_true_iff in Hc as [[He Hz]%andb_true_iff Hd]. apply negb_true_iff in He, Hz.
    assert ((78 <? str_len (to_decimal n)) = false) as Hl by (by apply N.ltb_ge, decimal_text_short).
    rewrite He, Hz, Hd, Hl. cbn. rewrite biguint_from_to. cbn.
    destruct (uint256_word n) as [w|e|] eqn:E; [done| |].
    + apply uint256_word_err in E as [? _]. lia.
    + by apply uint256_word_no_panic in E.
Qed.

Section JsonFacts.
#[local] Arguments address_from_str : simpl never.
#[local] Arguments address_to_string : simpl never.
#[local] Arguments json_decimal : simpl never.
Context `{HX : HexLaws}.

(** The texts of an input. *)
Definition json_of_pool (pool : PoolInput) : JsonPoolInput :=
  mkJsonPoolInput (to_decimal (pool_balance pool)) (to_decimal (pool_asset_usd pool)) (pool_asset_decimals pool).
Definition json_of_claim (c : ClaimInput) : JsonClaimInput :=
  mkJsonClaimInput (to_decimal (ci_claim_id c)) (address_to_string (ci_user c)) (to_decimal (ci_escrow_amount c))
    (to_decimal (ci_min_held c)) (to_decimal (ci_gross_earned_score c)) (to_decimal (ci_spent_score c))
    (to_decimal (ci_score_to_spend c)) (to_decimal (ci_booster_amount c)) (to_decimal (ci_booster_held c)).
Definition json_of_input (i : KernelInput) : JsonKernelInput :=
  mkJsonKernelInput (to_decimal (ki_incident_id i)) (to_decimal (ki_coverage_bps i))
    (to_decimal (ki_booster_boost_bps i)) (ki_insured_decimals i) (to_decimal (ki_twap_ratio i))
    (to_decimal (ki_underlying_usd i)) (to_decimal (ki_max_cover_pool_payout_bps i))
    (to_decimal (ki_protocol_fee_share_bps i)) (map json_of_pool (ki_pools i)) (map json_of_claim (ki_claims i)).
(** Every number is a [uint256]. *)
Definition claim_in_range (c : ClaimInput) : Prop :=
  Forall (fun n => n < 2 ^ 256) [ci_claim_id c; ci_escrow_amount c; ci_min_held c; ci_gross_earned_score c;
    ci_spent_score c; ci_score_to_spend c; ci_booster_amount c; ci_booster_held c].
Definition pool_in_range (p : PoolInput) : Prop := pool_balance p < 2 ^ 256 ∧ pool_asset_usd p < 2 ^ 256.
Definition input_in_range (i : KernelInput) : Prop :=
  Forall (fun n => n < 2 ^ 256) [ki_incident_id i; ki_coverage_bps i; ki_booster_boost_bps i; ki_twap_ratio i;
    ki_underlying_usd i; ki_max_cover_pool_payout_bps i; ki_protocol_fee_share_bps i] ∧
  Forall pool_in_range (ki_pools i) ∧ Forall claim_in_range (ki_claims i).
(** The same texts, up to the case of the users' digits. *)
Definition same_claim (a b : JsonClaimInput) : Prop :=
  address_from_str (jc_user a) = address_from_str (jc_user b) ∧
  (jc_claim_id a, jc_escrow_amount a, jc_min_held a, jc_gross_earned_score a, jc_spent_score a,
   jc_score_to_spend a, jc_booster_amount a, jc_booster_held a) =
  (jc_claim_id b, jc_escrow_amount b, jc_min_held b, jc_gross_earned_score b, jc_spent_score b,
   jc_score_to_spend b, jc_booster_amount b, jc_booster_held b).
Definition same_input (a b : JsonKernelInput) : Prop :=
  (jk_incident_id a, jk_coverage_bps a, jk_booster_boost_bps a, jk_insured_decimals a, jk_twap_ratio a,
   jk_underlying_usd a, jk_max_cover_pool_payout_bps a, jk_protocol_fee_share_bps a, jk_pools a) =
  (jk_incident_id b, jk_coverage_bps b, jk_booster_boost_bps b, jk_insured_decimals b, jk_twap_ratio b,
   jk_underlying_usd b, jk_max_cover_pool_payout_bps b, jk_protocol_fee_share_bps b, jk_pools b) ∧
  Forall2 same_claim (jk_claims a) (jk_claims b).

Ltac decimals H := repeat match type of H with
  | (_ ≫= _) = Ok _ => let n := fresh "n" in let E := fresh "E" in
      apply bind_ok in H as (n & E & H); first [apply json_decimal_ok in E as [? ?]|idtac]
  end.
Lemma pool_of_json_ok i j p : pool_of_json i j = Ok p ↔ j = json_of_pool p ∧ pool_in_range p.
Proof.
  unfold pool_of_json, pool_in_range. split.
  - intros Hp. decimals Hp. injection Hp as <-. destruct j. cbn in *. by subst.
  - intros [-> [Hb Ha]]. cbn.
    do 2 rewrite (proj2 (json_decimal_ok _ _ _)) by (by split). by destruct p.
Qed.
Lemma claim_of_json_ok i j c : claim_of_json i j = Ok c ↔ same_claim j (json_of_claim c) ∧ claim_in_range c.
Proof.
  unfold claim_of_json, claim_in_range, same_claim. cbn zeta. split.
  - intros Hc. decimals Hc. injection Hc as <-. destruct j. cbn in *. apply ok_or_ok in E. subst.
    rewrite E, address_from_to_string. by repeat constructor.
  - intros [[Hu Ht] Hr]. destruct j, c. cbn in *. simplify_eq. rewrite address_from_to_string in Hu.
    rewrite !Forall_cons in Hr. destruct Hr as (? & ? & ? & ? & ? & ? & ? & ? & _).
    rewrite (proj2 (json_decimal_ok _ _ _)) by (by split). cbn. unfold json_address. rewrite Hu. cbn.
    by do 7 rewrite (proj2 (json_decimal_ok _ _ _)) by (by split).
Qed.
Lemma collect_indexed_ok {A B} (f : nat → A → outcome KernelError B) (R : A → B → Prop) :
  (∀ i x y, f i x = Ok y ↔ R x y) → ∀ l i ys, collect_indexed f i l = Ok ys ↔ Forall2 R l ys.
Proof.
  intros Hf l. induction l as [|x l IH]; intros i ys; cbn.
  - split; [by intros [= <-]|by inversion 1].
  - split.
    + intros (y & Hy%Hf & (ys' & Hys%IH & Hs)%bind_ok)%bind_ok. injection Hs as <-. by constructor.
    + inversion 1 as [|? y ? ys' Hy Hys]; subst. apply Hf with (i := i) in Hy. rewrite Hy. cbn.
      apply IH with (i := S i) in Hys. by rewrite Hys.
Qed.

Lemma collect_pools_ok i l pools : collect_indexed pool_of_json i l = Ok pools ↔
  l = map json_of_pool pools ∧ Forall pool_in_range pools.
Proof.
  rewrite (collect_indexed_ok _ _ pool_of_json_ok). split.
  - induction 1 as [|j p l pools [-> Hp] _ [-> IH]]; [done|]. split; [done|by constructor].
  - intros [-> Hp]. induction Hp as [|p pools Hp _ IH]; cbn; by constructor.
Qed.
Lemma collect_claims_ok i l claims : collect_indexed claim_of_json i l = Ok claims ↔
  Forall2 same_claim l (map json_of_claim claims) ∧ Forall claim_in_range claims.
Proof.
  rewrite (collect_indexed_ok _ _ claim_of_json_ok). split.
  - induction 1 as [|j c l claims [Hc Hr] _ [IH1 IH2]]; split; by constructor.
  - intros [Hs Hr]. revert l Hs. induction Hr as [|c claims Hc _ IH]; intros l Hs.
    + apply Forall2_nil_inv_r in Hs as ->. constructor.
    + apply Forall2_cons_inv_r in Hs as (j & l' & Hj & Hs & ->). constructor; [by split|by apply IH].
Qed.

(** The kernel's input is accepted exactly in one form: every number in canonical decimal
    text below [2^256], the users' addresses in either case; reading gives back the input
    that was written, and two inputs never share a text. *)
Theorem json_input_roundtrip (j : JsonKernelInput) (i : KernelInput) :
  kernel_input_try_from j = Ok i ↔ same_input j (json_of_input i) ∧ input_in_range i.
Proof.
  unfold kernel_input_try_from, same_input, input_in_range. split.
  - intros Hs. apply bind_ok in Hs as (pools & [Hp Hpr]%collect_pools_ok & Hs).
    apply bind_ok in Hs as (claims & [Hc Hcr]%collect_claims_ok & Hs). decimals Hs. injection Hs as <-.
    destruct j. cbn in *. subst. by repeat constructor.
  - intros [[Hj Hc] (Hr & Hpr & Hcr)]. destruct j, i. cbn in *. simplify_eq.
    rewrite (proj2 (collect_pools_ok _ _ _)) by (by split). cbn.
    rewrite (proj2 (collect_claims_ok _ _ _)) by (by split). cbn.
    rewrite !Forall_cons in Hr. destruct Hr as (? & ? & ? & ? & ? & ? & ? & _).
    by do 7 rewrite (proj2 (json_decimal_ok _ _ _)) by (by split).
Qed.
End JsonFacts.
