(* ===== verification/Tee.v ===== *)
(** * Attestation ([src/tee.rs]) and the attested runtime ([src/attested_runtime.rs])

    The Nitro Security Module signs a document over a fresh nonce and the digest of an
    artifact; the document's measurements give the code identity the incident pins.
    The runtime computes a settlement or an incident authorization, has its digest
    attested and attaches the evidence.  The module's driver and the CBOR decoder are
    parameters.  The theorems at the end: what an attestation that is returned
    establishes, and what a settlement artifact that is returned is. *)

From S2P Require Import Prelude Bytes Text Commit Merkle Kernel TypedData Rpc Http Abi Config Chain ChainConfig.
From S2P Require Import History Checkpoint CheckpointStore Replay ReplayFacts Artifact Engine IncidentOpen.
From Stdlib Require Import Strings.Byte.

Open Scope string_scope.
Open Scope N_scope.
Open Scope list_scope.

Definition PCR_BYTE_LENGTH : N := 48.
Definition PCR_HASH_DOMAIN : list byte := as_bytes "USD8_TEE_PCR0_2_V1".
Definition FRESH_NONCE_LENGTH : N := 32.

Inductive TeeError :=
  | InvalidPcrLength (index actual : N)
  | NsmUnavailable (message : string)
  | InvalidAttestation (message : string).
Record FreshAttestation := mkFreshAttestation {
  fa_document : list byte;
  fa_pcr_hash : string
}.
Record AttestationPayload := mkAttestationPayload {
  ap_digest : string;
  ap_pcrs : gmap N (list byte);
  ap_certificate : list byte;
  ap_cabundle : list (list byte);
  ap_user_data : option (list byte);
  ap_nonce : option (list byte)
}.

(* ------------------------------------------------------------------ *)
(** ** Third-party code *)

(** [ciborium::value::Value], as far as it is matched on. *)
#[warnings="-register-all"]
Inductive Cbor :=
  | CborTag (tag : N) (value : Cbor)
  | CborArray (l : list Cbor)
  | CborBytes (l : list byte)
  | CborOther.
(** [ciborium::de::from_reader] at [Value] and at [AttestationPayload]. *)
Class CborCrate := {
  cbor_value : list byte → outcome string Cbor;
  cbor_payload : list byte → outcome string AttestationPayload
}.
(** The driver of [aws_nitro_enclaves_nsm_api]; an error response has its [Debug] text. *)
Inductive NsmRequest :=
  | RequestRandom
  | RequestAttestation (user_data nonce public_key : option (list byte)).
Inductive NsmResponse :=
  | ResponseRandom (random : list byte)
  | ResponseDocument (document : list byte)
  | ResponseError (error : string)
  | ResponseOther.
Class NsmDriver (W : Type) := {
  nsm_init : W → Z * W;
  nsm_process_request : Z → NsmRequest → W → NsmResponse * W;
  nsm_exit : Z → W → W;
  nsm_debug : NsmResponse → string
}.

(* ------------------------------------------------------------------ *)
(** ** The code identity *)

Section Tee.
Context `{HexCrate, Sha3Crate}.

Fixpoint check_pcrs (index : N) (pcrs : list (list byte)) : outcome TeeError unit :=
  match pcrs with
  | [] => Ok tt
  | pcr :: pcrs =>
      _ ← bail_if (negb (N.of_nat (length pcr) =? PCR_BYTE_LENGTH))
            (InvalidPcrLength index (N.of_nat (length pcr)));
      check_pcrs (index + 1) pcrs
  end.
Definition pcr0_2_hash (pcr0 pcr1 pcr2 : list byte) : outcome TeeError string :=
  _ ← check_pcrs 0 [pcr0; pcr1; pcr2];
  Ok (hash_hex (keccak256 (PCR_HASH_DOMAIN ++ pcr0 ++ pcr1 ++ pcr2))).

Definition payload_bytes (fields : list Cbor) : outcome TeeError (list byte) :=
  match fields !! 2%nat with
  | Some (CborBytes bytes) => Ok bytes
  | _ => Err (InvalidAttestation "COSE_Sign1 payload must be bytes")
  end.
Definition signed (fields : list Cbor) : bool :=
  match fields !! 3%nat with Some (CborBytes (_ :: _)) => true | _ => false end.
Definition locked_pcr (payload : AttestationPayload) (index : N) : outcome TeeError (list byte) :=
  ok_or (ap_pcrs payload !! index)
    (InvalidAttestation ("attestation is missing locked PCR" +:+ to_decimal index)).

Definition parse_local_nsm_attestation `{CborCrate} (document expected_nonce expected_user_data : list byte) :
    outcome TeeError string :=
  decoded ← map_err (fun error => InvalidAttestation ("invalid COSE_Sign1: " +:+ error)) (cbor_value document);
  envelope ← match decoded with
             | CborTag tag value =>
                 if tag =? 18 then Ok value
                 else Err (InvalidAttestation ("unexpected COSE tag " +:+ to_decimal tag))
             | value => Ok value
             end;
  fields ← match envelope with
           | CborArray ([_; _; _; _] as fields) => Ok fields
           | _ => Err (InvalidAttestation "COSE_Sign1 must be a four-element array")
           end;
  payload_bytes ← payload_bytes fields;
  _ ← bail_if (negb (signed fields)) (InvalidAttestation "COSE_Sign1 signature is empty");
  payload ← map_err (fun error => InvalidAttestation ("invalid payload: " +:+ error)) (cbor_payload payload_bytes);
  _ ← bail_if (negb (String.eqb (ap_digest payload) "SHA384"))
        (InvalidAttestation ("unexpected PCR digest " +:+ ap_digest payload));
  _ ← bail_if (match ap_certificate payload with [] => true | _ => false end ||
               match ap_cabundle payload with [] => true | _ => false end)
        (InvalidAttestation "certificate chain is empty");
  _ ← bail_if (negb (bool_decide (ap_nonce payload = Some expected_nonce)))
        (InvalidAttestation "attestation nonce mismatch");
  _ ← bail_if (negb (bool_decide (ap_user_data payload = Some expected_user_data)))
        (InvalidAttestation "attestation user_data mismatch");
  pcr0 ← locked_pcr payload 0;
  pcr1 ← locked_pcr payload 1;
  pcr2 ← locked_pcr payload 2;
  pcr0_2_hash pcr0 pcr1 pcr2.

(* ------------------------------------------------------------------ *)
(** ** A fresh attestation *)

Record NsmClient (W : Type) := mkNsmClient {
  get_random : io W TeeError (list byte);
  attest : list byte → list byte → io W TeeError (list byte)
}.
Arguments get_random {W} _.
Arguments attest {W} _ _ _.

Definition fresh_nitro_attestation_with `{CborCrate} {W} (nsm : NsmClient W) (user_data : list byte) :
    io W TeeError FreshAttestation :=
  random ← get_random nsm;
  _ ← lift (bail_if (N.of_nat (length random) <? FRESH_NONCE_LENGTH)
              (NsmUnavailable ("GetRandom returned " +:+ to_decimal (N.of_nat (length random)) +:+
                 " bytes, need at least " +:+ to_decimal FRESH_NONCE_LENGTH)));
  let nonce := take (N.to_nat FRESH_NONCE_LENGTH) random in
  document ← attest nsm nonce user_data;
  pcr_hash ← lift (parse_local_nsm_attestation document nonce user_data);
  mret (mkFreshAttestation document pcr_hash).

Definition driver_nsm `{NsmDriver W} (fd : Z) : NsmClient W := mkNsmClient W
  (fun w =>
     let '(response, w) := nsm_process_request fd RequestRandom w in
     (match response with
      | ResponseRandom random => Ok random
      | ResponseError error => Err (NsmUnavailable ("GetRandom failed: " +:+ error))
      | response => Err (InvalidAttestation ("unexpected GetRandom response: " +:+ nsm_debug response))
      end, w))
  (fun nonce user_data w =>
     let '(response, w) := nsm_process_request fd (RequestAttestation (Some user_data) (Some nonce) None) w in
     (match response with
      | ResponseDocument document => Ok document
      | ResponseError error => Err (NsmUnavailable ("Attestation failed: " +:+ error))
      | response => Err (InvalidAttestation ("unexpected attestation response: " +:+ nsm_debug response))
      end, w)).

(** The Nitro build; the descriptor is closed when the client is dropped. *)
Definition fresh_nitro_attestation `{CborCrate, NsmDriver W} (user_data : list byte) :
    io W TeeError FreshAttestation :=
  fun w =>
    let '(fd, w) := nsm_init w in
    if (fd <? 0)%Z then (Err (NsmUnavailable "cannot open /dev/nsm; run inside a Nitro Enclave"), w)
    else
      let '(r, w) := fresh_nitro_attestation_with (driver_nsm fd) user_data w in
      (r, nsm_exit fd w).
End Tee.
Arguments get_random {W} _.
Arguments attest {W} _ _ _.

(* ------------------------------------------------------------------ *)
(** ** The attested runtime *)

(** The source keeps the text of the [RuntimeDetail]; nothing reads it. *)
Inductive AttestedRuntimeError := mkAttestedRuntimeError (code : string) (detail : RuntimeDetail)
with RuntimeDetail :=
  | DetailText (message : string)
  | DetailHex (text : string)
  | DetailRpc (error : RpcError)
  | DetailEngine (error : EngineError)
  | DetailArtifact (error : Artifact.ArtifactError)
  | DetailOpen (error : IncidentOpenError)
  | DetailTee (error : TeeError)
  | DetailRuntime (error : AttestedRuntimeError).
Definition runtime_code (error : AttestedRuntimeError) : string :=
  let 'mkAttestedRuntimeError code _ := error in code.
Inductive SettlementStage := StageConfig | StageBuild.
Record AttestedRuntimeOptions := mkAttestedRuntimeOptions {
  aro_proxy_url : option string;
  aro_maximum_artifact_bytes : N
}.

Definition failure (code : string) (detail : RuntimeDetail) : AttestedRuntimeError :=
  mkAttestedRuntimeError code detail.
Definition fail (detail : RuntimeDetail) : AttestedRuntimeError := failure "ATTESTED_RUNTIME_FAILED" detail.

Definition state_is_pruned (error : RpcError) : bool :=
  match error with
  | JsonRpc _ message =>
      let message := to_ascii_lowercase message in
      (str_contains "state at block #" message && str_contains " is pruned" message) ||
      str_contains "state unavailable: pruned" message
  | _ => false
  end.
Definition score_failure_code (error : CheckpointError) : string :=
  match error with
  | CpChain (ChainRpc rpc) =>
      if state_is_pruned rpc then "SETTLEMENT_SCORE_STATE_PRUNED"
      else match rpc with
           | HttpStatus method _ =>
               if String.eqb method "eth_getLogs" then "SETTLEMENT_SCORE_GET_LOGS_HTTP_FAILED"
               else "SETTLEMENT_SCORE_RPC_FAILED"
           | _ => "SETTLEMENT_SCORE_RPC_FAILED"
           end
  | CpChain _ => "SETTLEMENT_SCORE_CHAIN_FAILED"
  | _ => "SETTLEMENT_SCORE_FAILED"
  end.
Definition chain_failure_code (stage : SettlementStage) (error : ChainError) : string :=
  match error with
  | ChainRpc rpc =>
      match stage, state_is_pruned rpc with
      | StageConfig, true => "SETTLEMENT_CONFIG_STATE_PRUNED"
      | StageConfig, false => "SETTLEMENT_CONFIG_RPC_FAILED"
      | StageBuild, true => "SETTLEMENT_CHAIN_STATE_PRUNED"
      | StageBuild, false => "SETTLEMENT_CHAIN_RPC_FAILED"
      end
  | WindowNotFinalized _ _ _ | AnchorNotFinalized _ _ _ => "SETTLEMENT_FINALITY_FAILED"
  | AnchorChanged _ _ _ _ => "SETTLEMENT_ANCHOR_CHANGED"
  | InvalidOracle _ _ => "SETTLEMENT_ORACLE_FAILED"
  | InvalidConversion _ _ => "SETTLEMENT_CONVERSION_FAILED"
  | InvalidPoolTopology _ | PoolAssetMismatch _ _ _ => "SETTLEMENT_POOL_TOPOLOGY_FAILED"
  | EventDecode _ _ _ _ | ReplayUnderflow _ _ _ | BalanceReplayMismatch _ _ _ _ | BatchLengthMismatch =>
      "SETTLEMENT_REPLAY_FAILED"
  | _ => match stage with
         | StageConfig => "SETTLEMENT_CONFIG_CHAIN_FAILED"
         | StageBuild => "SETTLEMENT_CHAIN_FAILED"
         end
  end.
Definition settlement_engine_failure (stage : SettlementStage) (error : EngineError) : AttestedRuntimeError :=
  let code := match error with
              | EngChain error => chain_failure_code stage error
              | EngCheckpoint error => score_failure_code error
              | EngConfig _ => "SETTLEMENT_CONFIG_FAILED"
              | EngKernel _ => "SETTLEMENT_ALLOCATION_FAILED"
              | EngTypedData _ => "SETTLEMENT_DIGEST_FAILED"
              | EngInvariant _ | EngAnchorsDiffer _ _ => "SETTLEMENT_INVARIANT_FAILED"
              end in
  failure code (DetailEngine error).

(** [serde_json::Map::insert]. *)
Definition object_insert (key : string) (v : Value) (fields : list (string * Value)) : list (string * Value) :=
  List.filter (fun '(k, _) => negb (String.eqb k key)) fields ++ [(key, v)].

Section Attach.
Context `{HexCrate, Sha3Crate, CborCrate} {W : Type} `{!NsmDriver W}.

Definition runtime_address (value : string) : outcome AttestedRuntimeError Address :=
  ok_or (address_from_str value) (fail (DetailText "invalid address")).

(** [digest] is the artifact's; its bytes are the attested [user_data]. *)
Definition digest_bytes (digest : string) : outcome AttestedRuntimeError (list byte) :=
  digits ← ok_or (strip_prefix "0x" digest) (fail (DetailText "invalid digest"));
  bytes ← ok_or (hex_decode digits) (fail (DetailHex digits));
  _ ← bail_if (negb (length bytes =? 32)%nat) (fail (DetailText "invalid digest"));
  Ok bytes.
Definition with_evidence (fields : list (string * Value)) (attestation : FreshAttestation) (digest : string) : Value :=
  VObject (object_insert "nitroAttestedDigest" (VString digest)
    (object_insert "measuredTeePcrHash" (VString (fa_pcr_hash attestation))
      (object_insert "nitroAttestationDocument" (VString ("0x" +:+ hex_encode (fa_document attestation))) fields))).
Definition attach_attestation (artifact : Value) (digest expected_pcr_hash : string) :
    io W AttestedRuntimeError Value :=
  bytes ← lift (digest_bytes digest);
  attestation ← map_err_io (fun error => fail (DetailTee error)) (fresh_nitro_attestation bytes);
  _ ← lift (bail_if (negb (eq_ignore_ascii_case (fa_pcr_hash attestation) expected_pcr_hash))
              (fail (DetailText "PCR commitment mismatch")));
  object ← lift (ok_or (as_object artifact) (fail (DetailText "artifact is not an object")));
  mret (with_evidence object attestation digest).

Definition bounded_artifact `{Http.ValueJson} (artifact : Value) (maximum : N) : outcome AttestedRuntimeError Value :=
  let size := N.of_nat (length (value_to_bytes artifact)) in
  _ ← bail_if ((size =? 0) || (maximum <? size)) (fail (DetailText "artifact exceeds size limit"));
  Ok artifact.
Definition artifact_for_attestation (run : SettlementRun) (config : BootstrapConfig) : Value :=
  artifact run config false.
Definition settlement_artifact_available (is_unsettled root_matches : bool) : bool := is_unsettled || root_matches.
End Attach.

(** [#[derive(Serialize)]] with camel-case names. *)
Definition authorization_json (a : IncidentOpenAuthorization) : Value :=
  VObject
   [("schemaVersion", number (ia_schema_version a)); ("artifactType", VString (ia_artifact_type a));
    ("chainId", number (ia_chain_id a)); ("registry", VString (ia_registry a));
    ("defiInsurance", VString (ia_defi_insurance a)); ("insuredToken", VString (ia_insured_token a));
    ("referenceBlock", number (ia_reference_block a)); ("observationBlock", number (ia_observation_block a));
    ("baselineTwap", VString (ia_baseline_twap a)); ("distressTwap", VString (ia_distress_twap a));
    ("baselineRatioSum", VString (ia_baseline_ratio_sum a));
    ("distressRatioSum", VString (ia_distress_ratio_sum a)); ("sampleCount", number (ia_sample_count a));
    ("twapBlocks", number (ia_twap_blocks a)); ("sampleStepBlocks", number (ia_sample_step_blocks a));
    ("minimumDropBps", number (ia_minimum_drop_bps a)); ("eligibilityHash", VString (ia_eligibility_hash a));
    ("incidentId", VString (ia_incident_id a)); ("teePcrHash", VString (ia_tee_pcr_hash a));
    ("openDigest", VString (ia_open_digest a))].

(* ------------------------------------------------------------------ *)
(** ** The artifacts of a run *)

(** [BigUint::from_str]. *)
Class BigUintCrate := { biguint_parse : string → option N }.

Section Runtime.
Context `{HexCrate, Sha3Crate, AbiCodec, SerdeJson, HmacCrate, CheckpointJson, CborCrate, BigUintCrate}.
Context `{UrlCrate} {W : Type} `{!HttpCrate W, !Http.ValueJson, !NsmDriver W}.
(** The compiled chain, the environment's proxy flag, the current directory; [tokio]'s
    clock and timeout under the client. *)
Context (CHAIN_ID : N) (enclave_proxy : bool) (current_dir : outcome IoError string).
Context (now : HttpState * W → N * (HttpState * W)).
Context (timeout : ∀ {A}, N → http (W := W) A → HttpState * W → option (outcome RpcError A) * (HttpState * W)).

Definition runtime_rpc (rpc_url : string) (drpc_key proxy_url : option string) : outcome RpcError HttpRpc :=
  match proxy_url with
  | Some proxy => new_with_https_proxy (W := W) rpc_url drpc_key 30000 proxy
  | None => http_new (W := W) enclave_proxy rpc_url drpc_key 30000
  end.
(** The client's counters live as long as the client. *)
Definition with_client {E A} (m : io (FileSystem * (HttpState * W)) E A) : io (FileSystem * W) E A :=
  fun '(fs, w) => let '(r, (fs, (_, w))) := m (fs, (new_state, w)) in (r, (fs, w)).

Definition settlement_run (client : HttpRpc) (registry_ : Address) (incident_id : N) (score_mode : ScoreMode) :
    io (FileSystem * (HttpState * W)) AttestedRuntimeError (BootstrapConfig * SettlementRun) :=
  let rpc := http_rpc client now (@timeout) in
  config ← map_err_io (settlement_engine_failure StageConfig)
             (on_rpc (@settlement_config_from_registry _ _ _ rpc CHAIN_ID registry_ incident_id));
  run ← map_err_io (settlement_engine_failure StageBuild)
          (@build_settlement _ _ _ _ _ _ _ rpc current_dir config incident_id score_mode);
  mret (config, run).

Definition settlement_artifact (rpc_url : string) (drpc_key : option string) (registry_ incident_id : string)
    (score_mode : ScoreMode) (options : AttestedRuntimeOptions) : io (FileSystem * W) AttestedRuntimeError Value :=
  client ← lift (map_err (fun error => failure "SETTLEMENT_RPC_INIT_FAILED" (DetailRpc error))
             (runtime_rpc rpc_url drpc_key (aro_proxy_url options)));
  incident_id ← lift (ok_or (biguint_parse incident_id)
                  (failure "SETTLEMENT_INPUT_INVALID" (DetailText "invalid incident ID")));
  registry_ ← lift (ok_or (address_from_str registry_)
                (failure "SETTLEMENT_INPUT_INVALID" (DetailText "invalid Registry address")));
  '(config, run) ← with_client (settlement_run client registry_ incident_id score_mode);
  _ ← lift (bail_if (negb (settlement_artifact_available (is_unsettled run) (root_matches run)))
        (failure "SETTLEMENT_ROOT_MISMATCH"
           (DetailText "incident standing root does not match the recomputed settlement root")));
  _ ← lift (map_err (fun error => failure "SETTLEMENT_VERIFY_FAILED" (DetailArtifact error)) (verify_run run config));
  artifact ← map_err_io (fun error => failure "SETTLEMENT_ATTESTATION_FAILED" (DetailRuntime error))
               (on_rpc (attach_attestation (artifact_for_attestation run config) (run_digest run) (run_tee_pcr_hash run)));
  lift (map_err (fun error => failure "SETTLEMENT_ARTIFACT_SIZE_FAILED" (DetailRuntime error))
          (bounded_artifact artifact (aro_maximum_artifact_bytes options))).

Definition incident_open_artifact (rpc_url : string) (drpc_key : option string)
    (registry_ insured_token expected_signer : string) (options : AttestedRuntimeOptions) :
    io (FileSystem * W) AttestedRuntimeError Value :=
  client ← lift (map_err (fun error => fail (DetailRpc error)) (runtime_rpc rpc_url drpc_key (aro_proxy_url options)));
  registry_ ← lift (runtime_address registry_);
  insured_token ← lift (runtime_address insured_token);
  expected_signer ← lift (runtime_address expected_signer);
  authorization ← with_client (map_err_io (fun error => fail (DetailOpen error))
    (on_rpc (@build_incident_open _ _ _ _ (http_rpc client now (@timeout)) CHAIN_ID registry_ insured_token expected_signer)));
  artifact ← on_rpc (attach_attestation (authorization_json authorization)
                       (ia_open_digest authorization) (ia_tee_pcr_hash authorization));
  lift (bounded_artifact artifact (aro_maximum_artifact_bytes options)).
End Runtime.

(* ------------------------------------------------------------------ *)
(** ** What an attestation that is returned establishes *)

Section TeeFacts.
Context `{HX : HexCrate, HK : Sha3Crate, HB : CborCrate}.

(** [document] is signed evidence over this nonce and these bytes, of code with this
    identity. *)
Record attests (document nonce user_data : list byte) (pcr_hash : string) (payload : AttestationPayload) : Prop := mkAttests {
  at_payload : ∃ bytes, cbor_payload bytes = Ok payload;
  at_digest : ap_digest payload = "SHA384";
  at_chain : ap_certificate payload ≠ [] ∧ ap_cabundle payload ≠ [];
  at_nonce : ap_nonce payload = Some nonce;
  at_user_data : ap_user_data payload = Some user_data;
  at_identity : ∃ pcr0 pcr1 pcr2, ap_pcrs payload !! 0 = Some pcr0 ∧ ap_pcrs payload !! 1 = Some pcr1 ∧
    ap_pcrs payload !! 2 = Some pcr2 ∧ pcr0_2_hash pcr0 pcr1 pcr2 = Ok pcr_hash
}.

Lemma parse_attestation_ok document nonce user_data h : parse_local_nsm_attestation document nonce user_data = Ok h →
  ∃ payload, attests document nonce user_data h payload.
Proof.
  unfold parse_local_nsm_attestation. intros (decoded & _ & (envelope & _ & (fields & _ & Hs)%bind_ok)%bind_ok)%bind_ok.
  apply bind_ok in Hs as (bytes & _ & Hs). apply bind_ok in Hs as (_ & _ & Hs).
  apply bind_ok in Hs as (payload & Hp%map_err_ok & Hs).
  apply bind_ok in Hs as (_ & Hd%bail_if_ok%negb_false_iff%String.eqb_eq & Hs).
  apply bind_ok in Hs as (_ & [Hc Hb]%bail_if_ok%orb_false_iff & Hs).
  apply bind_ok in Hs as (_ & Hn%bail_if_ok%negb_false_iff%bool_decide_eq_true & Hs).
  apply bind_ok in Hs as (_ & Hu%bail_if_ok%negb_false_iff%bool_decide_eq_true & Hs).
  apply bind_ok in Hs as (pcr0 & H0%ok_or_ok & Hs). apply bind_ok in Hs as (pcr1 & H1%ok_or_ok & Hs).
  apply bind_ok in Hs as (pcr2 & H2%ok_or_ok & Hs).
  exists payload. split; try done; [by exists bytes| |by exists pcr0, pcr1, pcr2].
  split; [by destruct (ap_certificate payload)|by destruct (ap_cabundle payload)].
Qed.

Lemma pcr_hash_ok pcr0 pcr1 pcr2 h : pcr0_2_hash pcr0 pcr1 pcr2 = Ok h ↔
  length pcr0 = 48%nat ∧ length pcr1 = 48%nat ∧ length pcr2 = 48%nat ∧
  h = hash_hex (keccak256 (PCR_HASH_DOMAIN ++ pcr0 ++ pcr1 ++ pcr2)).
Proof.
  unfold pcr0_2_hash, check_pcrs, PCR_BYTE_LENGTH. split.
  - intros (? & Hc & Hs)%bind_ok. injection Hs as <-.
    apply bind_ok in Hc as (? & H0%bail_if_ok%negb_false_iff%N.eqb_eq & Hc).
    apply bind_ok in Hc as (? & H1%bail_if_ok%negb_false_iff%N.eqb_eq & Hc).
    apply bind_ok in Hc as (? & H2%bail_if_ok%negb_false_iff%N.eqb_eq & _). split_and!; [lia..|done].
  - intros (H0 & H1 & H2 & ->). by rewrite H0, H1, H2.
Qed.
(** Equal identities are of equal measurements, up to a collision of the hash. *)
Lemma pcr_hash_binding `{HL : !HexLaws} p0 p1 p2 q0 q1 q2 h : pcr0_2_hash p0 p1 p2 = Ok h → pcr0_2_hash q0 q1 q2 = Ok h →
  (p0 = q0 ∧ p1 = q1 ∧ p2 = q2) ∨ keccak_collision.
Proof.
  intros (P0 & P1 & P2 & ->)%pcr_hash_ok (Q0 & Q1 & Q2 & E%hash_hex_inj)%pcr_hash_ok.
  destruct (decide (PCR_HASH_DOMAIN ++ p0 ++ p1 ++ p2 = PCR_HASH_DOMAIN ++ q0 ++ q1 ++ q2)) as [Eq|Hne].
  - left. apply app_inv_head in Eq. apply app_inj_1 in Eq as [-> Eq]; [|congruence].
    apply app_inj_1 in Eq as [-> ->]; [done|congruence].
  - right. eexists _, _. split; [exact Hne|done].
Qed.

Context {W : Type} `{HN : !NsmDriver W}.
(** The module was asked for a nonce and then for a document over it and [user_data]. *)
Definition asked_module (user_data nonce document : list byte) : Prop :=
  ∃ fd random w1 w2 w3, (0 ≤ fd)%Z ∧
    nsm_process_request fd RequestRandom w1 = (ResponseRandom random, w2) ∧
    (32 ≤ length random)%nat ∧ nonce = take 32 random ∧
    nsm_process_request fd (RequestAttestation (Some user_data) (Some nonce) None) w2 = (ResponseDocument document, w3).

Lemma fresh_attestation_ok user_data w a w' : fresh_nitro_attestation (W := W) user_data w = (Ok a, w') →
  ∃ nonce payload, asked_module user_data nonce (fa_document a) ∧
    attests (fa_document a) nonce user_data (fa_pcr_hash a) payload.
Proof.
  unfold fresh_nitro_attestation. destruct (nsm_init w) as [fd w0] eqn:Ei. destruct (Z.ltb_spec fd 0) as [|Hfd]; [done|].
  destruct (fresh_nitro_attestation_with _ _ _) as [r w1] eqn:E. intros [= -> _].
  unfold fresh_nitro_attestation_with in E. apply io_bind_ok in E as (random & w2 & Hr & E).
  apply io_bind_ok in E as (_ & w3 & [Hl%bail_if_ok%N.ltb_ge ->]%lift_ok & E).
  apply io_bind_ok in E as (document & w4 & Ha & E). apply io_bind_ok in E as (h & w5 & [Hp ->]%lift_ok & E).
  apply io_ret_ok in E as [<- _]. apply parse_attestation_ok in Hp as [payload Hp].
  exists (take 32 random), payload. split; [|done]. cbn in Hr, Ha.
  destruct (nsm_process_request fd RequestRandom w0) as [[random'| | |] w6] eqn:E1; simplify_eq.
  destruct (nsm_process_request fd _ w2) as [[|document'| |] w7] eqn:E2; simplify_eq.
  exists fd, random, w0, w2, w4. unfold FRESH_NONCE_LENGTH in Hl. split_and!; try done. lia.
Qed.
End TeeFacts.

(* ------------------------------------------------------------------ *)
(** ** What an artifact that is returned is *)

Section RuntimeFacts.
Context `{HX : HexCrate, HK : Sha3Crate, HA : AbiCodec, HS : SerdeJson, HM : HmacCrate, HC : CheckpointJson}.
Context `{HB : CborCrate, HI : BigUintCrate, HU : UrlCrate} {W : Type} `{HH : !HttpCrate W, HV : !Http.ValueJson, HN : !NsmDriver W}.
Context (CHAIN_ID : N) (enclave_proxy : bool) (current_dir : outcome IoError string).
Context (now : HttpState * W → N * (HttpState * W)).
Context (timeout : ∀ A, N → http (W := W) A → HttpState * W → option (outcome RpcError A) * (HttpState * W)).

(** The evidence in [artifact]: the module's document over the digest [bytes], with the
    identity [expected]. *)
Definition carries_evidence (artifact : Value) (fields : list (string * Value)) (digest : string)
    (bytes : list byte) (expected : string) : Prop :=
  digest_bytes digest = Ok bytes ∧ ∃ attestation nonce payload,
    artifact = with_evidence fields attestation digest ∧
    asked_module (W := W) bytes nonce (fa_document attestation) ∧
    attests (fa_document attestation) nonce bytes (fa_pcr_hash attestation) payload ∧
    eq_ignore_ascii_case (fa_pcr_hash attestation) expected = true.

Lemma attach_attestation_ok artifact digest expected w r w' :
  attach_attestation (W := W) artifact digest expected w = (Ok r, w') →
  ∃ fields bytes, artifact = VObject fields ∧ carries_evidence r fields digest bytes expected.
Proof.
  unfold attach_attestation. intros (bytes & w1 & [Hb ->]%lift_ok & Hs)%io_bind_ok.
  apply io_bind_ok in Hs as (a & w2 & Ha%map_err_io_ok & Hs).
  apply io_bind_ok in Hs as (? & w3 & [Hp%bail_if_ok%negb_false_iff ->]%lift_ok & Hs).
  apply io_bind_ok in Hs as (fields & w4 & [Hf%ok_or_ok ->]%lift_ok & [<- _]%io_ret_ok).
  apply fresh_attestation_ok in Ha as (nonce & payload & Hm & Hatt).
  destruct artifact as [| | | | |fields']; try done. injection Hf as ->.
  exists fields, bytes. split; [done|]. split; [done|]. by exists a, nonce, payload.
Qed.
Lemma bounded_artifact_ok artifact maximum r : bounded_artifact artifact maximum = Ok r →
  r = artifact ∧ 0 < N.of_nat (length (value_to_bytes r)) ≤ maximum.
Proof.
  unfold bounded_artifact. cbn zeta. intros (? & [Hz%N.eqb_neq Hm%N.ltb_ge]%bail_if_ok%orb_false_iff & Hs)%bind_ok.
  injection Hs as <-. split; [done|]. lia.
Qed.
Lemma with_client_ok {E A} (m : io (FileSystem * (HttpState * W)) E A) fw a fw' :
  with_client m fw = (Ok a, fw') → ∃ s, m (fw.1, (new_state, fw.2)) = (Ok a, (fw'.1, (s, fw'.2))).
Proof.
  destruct fw as [fs w], fw' as [fs' w']. cbn. destruct (m _) as [r [fs1 [s w1]]] eqn:Em. intros [= -> -> ->]. by exists s.
Qed.

(** A run the engine made under a configuration it derived from the Registry, with
    everything the verifier checks. *)
Record settled (client : HttpRpc) (registry_ : Address) (incident_id : N) (mode : ScoreMode)
    (config : BootstrapConfig) (run : SettlementRun) : Prop := mkSettled {
  se_built : ∃ fw fw', @build_settlement _ _ _ _ _ _ _ (http_rpc client now timeout) current_dir config incident_id mode fw
               = (Ok run, fw');
  se_registry : cfg_registry config = registry_;
  se_chain : cfg_chain_id config = CHAIN_ID;
  se_incident : run_incident_id run = incident_id;
  se_digest : settlement_digest (digest_input_of run config) = Ok (run_digest run);
  se_root : is_unsettled run || root_matches run = true;
  se_verified : verify_run run config = Ok tt
}.

Lemma config_from_registry_ok {V} `{HR : !RpcIface V} registry_ id w config w' :
  settlement_config_from_registry (W := V) CHAIN_ID registry_ id w = (Ok config, w') →
  cfg_registry config = registry_ ∧ cfg_chain_id config = CHAIN_ID.
Proof.
  unfold settlement_config_from_registry. intros Hs. do 5 (apply io_bind_ok in Hs as (? & ? & _ & Hs)).
  apply map_err_io_ok in Hs. unfold derive_bootstrap_config_at in Hs.
  do 10 (apply io_bind_ok in Hs as (? & ? & _ & Hs)).
  apply lift_ok in Hs as [Hs%map_err_ok _]. unfold derived in Hs.
  do 4 (apply bind_ok in Hs as (? & _ & Hs)). destruct (List.find _ _) as [[? ?]|]; [done|]. by injection Hs as <-.
Qed.
Lemma build_settlement_verified {V} `{HR : !RpcIface V} config id mode fw run fw' :
  build_settlement (W := V) current_dir config id mode fw = (Ok run, fw') →
  run_incident_id run = id ∧ settlement_digest (digest_input_of run config) = Ok (run_digest run) ∧
  is_unsettled run || root_matches run = true ∧ verify_run run config = Ok tt.
Proof.
  destruct fw as [fs w]. intros Hb%build_settlement_parts.
  destruct Hb as (snapshot & terms & events & claims & source & cutoff & metrics & w1 & w2 & w3 & w4 & w5 & w6 & w7 &
    _ & _ & _ & _ & _ & _ & Hf).
  apply finish_run_ok in Hf as (_ & _ & _ & Hd & Hc & Hi & _). unfold check_run in Hc.
  apply bind_ok in Hc as (? & Hr%bail_if_ok & Hv%map_err_ok). split_and!; try done.
  by destruct (is_unsettled run), (root_matches run).
Qed.
Lemma settlement_run_ok client registry_ id mode fw config run fw' :
  settlement_run CHAIN_ID current_dir now timeout client registry_ id mode fw = (Ok (config, run), fw') →
  settled client registry_ id mode config run.
Proof.
  unfold settlement_run. intros (c & fw1 & [Hc _]%map_err_io_ok%on_rpc_ok & Hs)%io_bind_ok.
  apply io_bind_ok in Hs as (r & fw2 & Hb%map_err_io_ok & [[= -> ->] _]%io_ret_ok).
  destruct (config_from_registry_ok _ _ _ _ _ Hc) as [Hreg Hch].
  destruct (build_settlement_verified _ _ _ _ _ _ Hb) as (Hi & Hd & Hr & Hv).
  split; try done. by eexists _, _.
Qed.

Lemma settlement_artifact_ok url key registry_ id mode options fw r fw' :
  settlement_artifact CHAIN_ID enclave_proxy current_dir now timeout url key registry_ id mode options fw = (Ok r, fw') →
  ∃ client n a config run fields bytes,
    runtime_rpc (W := W) enclave_proxy url key (aro_proxy_url options) = Ok client ∧
    biguint_parse id = Some n ∧ address_from_str registry_ = Some a ∧
    settled client a n mode config run ∧ artifact run config false = VObject fields ∧
    carries_evidence r fields (run_digest run) bytes (run_tee_pcr_hash run) ∧
    0 < N.of_nat (length (value_to_bytes r)) ≤ aro_maximum_artifact_bytes options.
Proof.
  unfold settlement_artifact. intros (client & fw1 & [Hc%map_err_ok ->]%lift_ok & Hs)%io_bind_ok.
  apply io_bind_ok in Hs as (n & fw2 & [Hn%ok_or_ok ->]%lift_ok & Hs).
  apply io_bind_ok in Hs as (a & fw3 & [Ha%ok_or_ok ->]%lift_ok & Hs).
  apply io_bind_ok in Hs as ([config run] & fw4 & [s Hrun]%with_client_ok & Hs).
  apply io_bind_ok in Hs as (? & fw5 & [_ ->]%lift_ok & Hs).
  apply io_bind_ok in Hs as (? & fw6 & [_ ->]%lift_ok & Hs).
  apply io_bind_ok in Hs as (artifact' & fw7 & [Hatt _]%map_err_io_ok%on_rpc_ok & Hs).
  apply lift_ok in Hs as [Hs%map_err_ok _]. apply bounded_artifact_ok in Hs as [-> Hsize].
  apply settlement_run_ok in Hrun. apply attach_attestation_ok in Hatt as (fields & bytes & Hf & Hev).
  exists client, n, a, config, run, fields, bytes. split_and!; try done; lia.
Qed.
Lemma incident_open_artifact_ok url key registry_ token signer options fw r fw' :
  incident_open_artifact CHAIN_ID enclave_proxy now timeout url key registry_ token signer options fw = (Ok r, fw') →
  ∃ client a t g auth w1 w2 fields bytes,
    runtime_rpc (W := W) enclave_proxy url key (aro_proxy_url options) = Ok client ∧
    address_from_str registry_ = Some a ∧ address_from_str token = Some t ∧ address_from_str signer = Some g ∧
    @build_incident_open _ _ _ _ (http_rpc client now timeout) CHAIN_ID a t g w1 = (Ok auth, w2) ∧
    authorization_json auth = VObject fields ∧
    carries_evidence r fields (ia_open_digest auth) bytes (ia_tee_pcr_hash auth).
Proof.
  unfold incident_open_artifact. intros (client & fw1 & [Hc%map_err_ok ->]%lift_ok & Hs)%io_bind_ok.
  apply io_bind_ok in Hs as (a & fw2 & [Ha%ok_or_ok ->]%lift_ok & Hs).
  apply io_bind_ok in Hs as (t & fw3 & [Ht%ok_or_ok ->]%lift_ok & Hs).
  apply io_bind_ok in Hs as (g & fw4 & [Hg%ok_or_ok ->]%lift_ok & Hs).
  apply io_bind_ok in Hs as (auth & fw5 & [s [Hb _]%map_err_io_ok%on_rpc_ok]%with_client_ok & Hs).
  apply io_bind_ok in Hs as (artifact' & fw6 & [Hatt _]%on_rpc_ok & Hs).
  apply lift_ok in Hs as [[-> _]%bounded_artifact_ok _].
  apply attach_attestation_ok in Hatt as (fields & bytes & Hf & Hev).
  exists client, a, t, g, auth, (new_state, fw.2), (s, fw5.2), fields, bytes. split_and!; done.
Qed.
End RuntimeFacts.

(** Attached evidence leaves the other keys alone. *)
Lemma assoc_insert_ne key k v fields : k ≠ key → assoc k (object_insert key v fields) = assoc k fields.
Proof.
  intros Hne. unfold assoc, object_insert. f_equal. induction fields as [|[k' v'] fields IH].
  - cbn. by rewrite (proj2 (String.eqb_neq key k)) by done.
  - cbn. destruct (String.eqb_spec k' key) as [->|Hk]; cbn.
    + rewrite (proj2 (String.eqb_neq key k)) by done. exact IH.
    + by destruct (String.eqb k' k).
Qed.
Lemma with_evidence_get `{HexCrate} key fields attestation digest : 
  key ∉ ["nitroAttestedDigest"; "measuredTeePcrHash"; "nitroAttestationDocument"] →
  get key (with_evidence fields attestation digest) = assoc key fields.
Proof. intros Hk. cbn. rewrite !assoc_insert_ne; [done|set_solver..]. Qed.
