(* ===== verification/Enclave.v ===== *)
(** * The enclave ([job-api/src/bin/enclave.rs]) and its parent ([job-api/src/bin/parent.rs])

    The parent fetches a stored request and the two ciphertexts, starts the enclave and
    sends it one frame; the enclave validates the request against the Registry it was
    compiled for, has the provider's key decrypted, computes the attested artifact, has
    the signer's key decrypted for that digest alone, signs and answers with a terminal;
    the parent stores it.  The KMS, RSA, the vsock streams and the clocks are parameters.
    The theorems at the end: what a completed terminal is, which failure codes leave the
    enclave, where its proxy connects, and what the parent stores. *)

From S2P Require Import Prelude Bytes Text Commit Merkle Kernel TypedData Rpc Http Abi Config Chain ChainConfig.
From S2P Require Import History Checkpoint CheckpointStore Replay ReplayFacts Artifact Engine IncidentOpen Tee.
From S2P Require Import JobProtocol Cms CmsFacts SettlementVerifier CandidateFacts.
From Stdlib Require Import Strings.Ascii Strings.Byte.

Open Scope string_scope.
Open Scope N_scope.
Open Scope list_scope.

Definition settlement_score_mode : ScoreMode := BulkMode.

Definition SETTLEMENT_TERMINAL_CODES : list string :=
  ["SETTLEMENT_RPC_INIT_FAILED"; "SETTLEMENT_INPUT_INVALID"; "SETTLEMENT_CONFIG_STATE_PRUNED";
   "SETTLEMENT_CONFIG_RPC_FAILED"; "SETTLEMENT_CONFIG_CHAIN_FAILED"; "SETTLEMENT_SCORE_STATE_PRUNED";
   "SETTLEMENT_SCORE_GET_LOGS_HTTP_FAILED"; "SETTLEMENT_SCORE_RPC_FAILED"; "SETTLEMENT_SCORE_CHAIN_FAILED";
   "SETTLEMENT_SCORE_FAILED"; "SETTLEMENT_FINALITY_FAILED"; "SETTLEMENT_ANCHOR_CHANGED";
   "SETTLEMENT_ORACLE_FAILED"; "SETTLEMENT_CONVERSION_FAILED"; "SETTLEMENT_POOL_TOPOLOGY_FAILED";
   "SETTLEMENT_REPLAY_FAILED"; "SETTLEMENT_CHAIN_STATE_PRUNED"; "SETTLEMENT_CHAIN_RPC_FAILED";
   "SETTLEMENT_CHAIN_FAILED"; "SETTLEMENT_CONFIG_FAILED"; "SETTLEMENT_ALLOCATION_FAILED";
   "SETTLEMENT_DIGEST_FAILED"; "SETTLEMENT_INVARIANT_FAILED"; "SETTLEMENT_ALREADY_ROOTED";
   "SETTLEMENT_VERIFY_FAILED"; "SETTLEMENT_ATTESTATION_FAILED"; "SETTLEMENT_ARTIFACT_SIZE_FAILED";
   "SETTLEMENT_COMPUTE_TIMEOUT"; "SETTLEMENT_ARTIFACT_FAILED"].
Definition RECIPIENT_FAILURES : list string :=
  ["CMS_PARSE_FAILED"; "CMS_KEY_OR_IV_LENGTH"; "CMS_CONTENT_DECRYPT_FAILED"; "RSA_UNWRAP_FAILED"].
Definition ENCLAVE_CODES : list string :=
  ["ENCLAVE_VALIDATE_FAILED"; "DRPC_DECRYPT_FAILED"; "LOCAL_RSA_FAILED"; "NSM_ATTESTATION_FAILED";
   "KMS_ACCESS_DENIED"; "KMS_SERVICE_FAILED"; "KMS_SERVICE_UNMODELED"; "KMS_TRANSPORT_FAILED";
   "KMS_CONSTRUCTION_FAILED"; "KMS_TIMEOUT_FAILED"; "KMS_DISPATCH_TIMEOUT"; "KMS_DISPATCH_IO";
   "KMS_IO_NO_PROXY_ACCEPT"; "KMS_IO_PROXY_REQUEST_READ"; "KMS_IO_PROXY_REQUEST_PARSE";
   "KMS_IO_VSOCK_CONNECT"; "KMS_IO_CONNECT_RESPONSE"; "KMS_IO_TUNNEL"; "KMS_IO_TUNNEL_EOF";
   "KMS_DISPATCH_USER"; "KMS_DISPATCH_OTHER"; "KMS_RESPONSE_PARSE_FAILED"; "KMS_RESPONSE_FAILED";
   "OPEN_COMPUTE_FAILED"; "OPEN_ARTIFACT_FAILED"; "SIGNER_DECRYPT_FAILED"; "SIGNER_FAILED"].
Definition terminal_error_code (detail : string) : string :=
  if bool_decide (detail ∈ SETTLEMENT_TERMINAL_CODES) then detail
  else if bool_decide (detail ∈ RECIPIENT_FAILURES) then "KMS_RECIPIENT_DECRYPT_FAILED"
  else if bool_decide (detail ∈ ENCLAVE_CODES) then detail
  else "ENCLAVE_FAILED".

Definition PARENT_CID : N := 3.
Definition settlement_rpc_url (sepolia : bool) : string :=
  if sepolia then "https://rpc.sepolia.ethpandaops.io" else "https://lb.drpc.org/ogrpc?network=ethereum".
Definition settlement_rpc_requires_drpc_key (sepolia : bool) : bool := negb sepolia.

(* ------------------------------------------------------------------ *)
(** ** Third-party code *)

(** [base64]'s standard alphabet. *)
Class Base64Crate := {
  b64_encode : list byte → string;
  b64_decode : string → option (list byte)
}.
(** [serde_json] on the frames. *)
Class WireJson := {
  wire_to_vec : JobWireRequest → option (list byte);
  wire_from_slice : list byte → option JobWireRequest;
  terminal_to_vec : TerminalEnvelope → option (list byte)
}.
(** [aws_sdk_kms::error::SdkError]. *)
Inductive KmsError :=
  | KmsConstruction
  | KmsTimeout
  | KmsDispatch (is_timeout is_io is_user : bool)
  | KmsResponse
  | KmsService (code : option string)
  | KmsOther.
(** The client's region, credentials and proxy. *)
Record KmsClient := mkKmsClient {
  kc_region : string;
  kc_access_key_id : string;
  kc_secret_access_key : string;
  kc_session_token : string;
  kc_proxy : string
}.
(** A decryption names its purpose and carries the recipient's attestation document;
    RSA keys of 2048 bits. *)
Class KmsCrate `{EnvelopeCrypto} (W : Type) := {
  proxy_config_https : string → outcome string unit;
  kms_decrypt : KmsClient → list byte → string → list byte → W → outcome KmsError (option (list byte)) * W;
  rsa_generate : W → option PrivateDecryptingKey * W;
  public_key_der : PrivateDecryptingKey → option (list byte)
}.

(** *** [std::str::from_utf8] *)

Definition utf8_tail (b : byte) : bool := (0x80 <=? Byte.to_N b) && (Byte.to_N b <=? 0xbf).
Definition utf8_two (a : N) (b : byte) : bool := (0xc2 <=? a) && (a <=? 0xdf) && utf8_tail b.
Definition utf8_three (a : N) (b c : byte) : bool :=
  utf8_tail c && utf8_tail b &&
  (if a =? 0xe0 then 0xa0 <=? Byte.to_N b
   else if a =? 0xed then Byte.to_N b <=? 0x9f else (0xe1 <=? a) && (a <=? 0xef)).
Definition utf8_four (a : N) (b c d : byte) : bool :=
  utf8_tail d && utf8_tail c && utf8_tail b &&
  (if a =? 0xf0 then 0x90 <=? Byte.to_N b
   else if a =? 0xf4 then Byte.to_N b <=? 0x8f else (0xf1 <=? a) && (a <=? 0xf3)).
Fixpoint utf8_valid (l : list byte) : bool :=
  match l with
  | [] => true
  | a :: l =>
      if Byte.to_N a <? 0x80 then utf8_valid l
      else match l with
      | b :: l =>
          if utf8_two (Byte.to_N a) b then utf8_valid l
          else match l with
          | c :: l =>
              if utf8_three (Byte.to_N a) b c then utf8_valid l
              else match l with
                   | d :: l => utf8_four (Byte.to_N a) b c d && utf8_valid l
                   | [] => false
                   end
          | [] => false
          end
      | [] => false
      end
  end.
Definition from_utf8 (l : list byte) : option string :=
  if utf8_valid l then Some (String.string_of_list_byte l) else None.

(* ------------------------------------------------------------------ *)
(** ** The enclave's proxy *)

(** One accepted connection: what its reads return, one after the other ([None]: an
    error, a timeout; an empty read is the end), up to the blank line or 4,096 bytes. *)
Fixpoint proxy_request (reads : list (option (list byte))) (request : list byte) : option (list byte) :=
  if (N.of_nat (length request) <? 4096) && negb (ends_with (CRLF ++ CRLF) request) then
    match reads with
    | Some ((_ :: _) as chunk) :: reads => proxy_request reads (request ++ chunk)
    | _ => None
    end
  else Some request.
(** The stage the connection reaches, and the parent's port it is relayed to; whether
    the parent answers and the local side takes the reply. *)
Definition proxy_connection (sepolia : bool) (reads : list (option (list byte))) (connected replied : bool) :
    N * option N :=
  match proxy_request reads [] with
  | None => (1, None)
  | Some request =>
      match connect_proxy_port sepolia request with
      | None => (2, None)
      | Some parent_port =>
          if negb connected then (3, None)
          else if replied then (6, Some parent_port) else (4, None)
      end
  end.

(* ------------------------------------------------------------------ *)
(** ** One request *)

Section Enclave.
Context `{HexCrate, Sha3Crate, AbiCodec, SerdeJson, HmacCrate, CheckpointJson, CborCrate, BigUintCrate}.
Context `{Sha2Crate, JobJson, K256Crate, Base64Crate, WireJson, UrlCrate} {W : Type}.
Context `{!HttpCrate W, !Http.ValueJson, !NsmDriver W, !EnvelopeCrypto, !KmsCrate W}.
(** The build: its chain and Registry; the environment: the proxy flag, the current
    directory, the expected signer, the clock (seconds), the stage of the proxy. *)
Context (sepolia : bool) (CHAIN_ID : N) (EXPECTED_REGISTRY : string).
Context (enclave_proxy : bool) (current_dir : outcome IoError string) (USD8_EXPECTED_SIGNER : option string).
Context (system_time : W → option N * W) (PROXY_STAGE : W → N).
Context (now : HttpState * W → N * (HttpState * W)).
Context (rpc_deadline : ∀ A, N → http (W := W) A → HttpState * W → option (outcome RpcError A) * (HttpState * W)).
Context (timeout : N → io (FileSystem * W) AttestedRuntimeError Value → FileSystem * W →
           option (outcome AttestedRuntimeError Value) * (FileSystem * W)).

(** [process] drops the texts of [validate]'s errors. *)
Definition protocol {A} (m : outcome ProtocolError A) : outcome string A := map_err (fun _ => "protocol") m.
Definition canonical_of_stored (request : CanonicalRequest) : outcome string CanonicalRequest :=
  protocol match request with
           | SettlementRequest settlement =>
               canonicalize_request
                 (value_to_bytes (VObject [("incidentId", VString (cs_incident_id settlement))])) EXPECTED_REGISTRY
           | OpenRequest open =>
               canonicalize_open_request
                 (value_to_bytes (VObject [("insuredToken", VString (co_insured_token open))])) EXPECTED_REGISTRY
           end.
Definition str_over (s : string) (n : N) : bool := n <? str_len s.
Definition validate_at (request : JobWireRequest) (now : N) : outcome string (list byte * list byte) :=
  let stored := jw_stored_request request in
  _ ← bail_if (negb (stored_request_is_live stored now)) "stored request is invalid or expired";
  _ ← protocol (JobPaths_new (stq_job_id stored));
  _ ← protocol (verify_job_request_binding (stq_job_id stored) (stq_request stored));
  canonical ← canonical_of_stored (stq_request stored);
  _ ← bail_if (negb (jw_schema_version request =? JOB_WIRE_SCHEMA_VERSION) ||
               negb (String.eqb (jw_region request) "eu-central-1") ||
               negb (bool_decide (canonical = stq_request stored)) ||
               str_is_empty (jw_access_key_id request) || str_is_empty (jw_secret_access_key request) ||
               str_is_empty (jw_session_token request) ||
               str_over (jw_access_key_id request) MAX_ACCESS_KEY_ID_BYTES ||
               str_over (jw_secret_access_key request) MAX_SECRET_ACCESS_KEY_BYTES ||
               str_over (jw_session_token request) MAX_SESSION_TOKEN_BYTES) "invalid enclave request";
  signer ← ok_or (b64_decode (jw_signer_ciphertext_b64 request)) "base64";
  drpc ← ok_or (b64_decode (jw_drpc_ciphertext_b64 request)) "base64";
  _ ← bail_if (match signer with [] => true | _ => false end || match drpc with [] => true | _ => false end ||
               (MAX_CIPHERTEXT_BYTES <? len signer) || (MAX_CIPHERTEXT_BYTES <? len drpc)) "invalid ciphertext";
  Ok (signer, drpc).
Definition validate (request : JobWireRequest) : io W string (list byte * list byte) :=
  now ← (fun w => let '(t, w) := system_time w in (ok_or t "second time provided was later than self", w));
  lift (validate_at request now).

Definition binding (domain : list byte) (parts : list (list byte)) : array 32 :=
  sha256 (domain ++ mjoin (map (fun part => be_bytes 8 (len part) ++ part) parts)).

Definition attestation (public_key user_data : list byte) : io W string (list byte) :=
  fun w =>
    let '(fd, w) := nsm_init w in
    if (fd <? 0)%Z then (Err "NSM unavailable", w)
    else
      let '(response, w) := nsm_process_request fd (RequestAttestation (Some user_data) None (Some public_key)) w in
      let w := nsm_exit fd w in
      match response with
      | ResponseDocument ((_ :: _) as document) => (Ok document, w)
      | _ => (Err "NSM attestation failed", w)
      end.

Definition kms_error_code (error : KmsError) (stage : N) : string :=
  match error with
  | KmsConstruction => "KMS_CONSTRUCTION_FAILED"
  | KmsTimeout => "KMS_TIMEOUT_FAILED"
  | KmsDispatch is_timeout is_io is_user =>
      if (is_timeout : bool) then "KMS_DISPATCH_TIMEOUT"
      else if (is_io : bool) then
        match stage with
        | 0 => "KMS_IO_NO_PROXY_ACCEPT"
        | 1 => "KMS_IO_PROXY_REQUEST_READ"
        | 2 => "KMS_IO_PROXY_REQUEST_PARSE"
        | 3 => "KMS_IO_VSOCK_CONNECT"
        | 4 => "KMS_IO_CONNECT_RESPONSE"
        | 5 => "KMS_IO_TUNNEL"
        | _ => "KMS_IO_TUNNEL_EOF"
        end
      else if (is_user : bool) then "KMS_DISPATCH_USER" else "KMS_DISPATCH_OTHER"
  | KmsResponse => "KMS_RESPONSE_PARSE_FAILED"
  | KmsService (Some code) =>
      if String.eqb code "AccessDeniedException" then "KMS_ACCESS_DENIED" else "KMS_SERVICE_FAILED"
  | KmsService None => "KMS_SERVICE_UNMODELED"
  | KmsOther => "KMS_TRANSPORT_FAILED"
  end.

(** The plaintext only the holder of the fresh key reads, and the module's document over
    that key and [user_data]. *)
Definition recipient_decrypt (kms : KmsClient) (ciphertext : list byte) (purpose : string) (user_data : list byte) :
    io W string (list byte * list byte) :=
  private_key ← (fun w => let '(key, w) := rsa_generate w in (ok_or key "LOCAL_RSA_FAILED", w));
  public_key ← lift (ok_or (public_key_der private_key) "LOCAL_RSA_FAILED");
  document ← map_err_io (fun _ => "NSM_ATTESTATION_FAILED") (attestation public_key user_data);
  output ← (fun w => let '(r, w) := kms_decrypt kms ciphertext purpose document w in
                     (map_err (fun error => kms_error_code error (PROXY_STAGE w)) r, w));
  wrapped ← lift (ok_or output "KMS_RESPONSE_FAILED");
  envelope ← lift (map_err (fun _ => "CMS_PARSE_FAILED") (parse_kms_recipient_cms wrapped));
  plaintext ← lift (decrypt_kms_recipient_envelope private_key envelope);
  mret (plaintext, document).

Definition enclave_options : AttestedRuntimeOptions :=
  mkAttestedRuntimeOptions (Some "http://127.0.0.1:8080") MAX_ARTIFACT_BYTES.
(** [timeout(..).await.map_err(..)?.map_err(..)]. *)
Definition within (seconds : N) (late : string) (code : AttestedRuntimeError → string)
    (m : io (FileSystem * W) AttestedRuntimeError Value) : io (FileSystem * W) string Value :=
  fun w => match timeout seconds m w with
           | (None, w) => (Err late, w)
           | (Some result, w) => (map_err code result, w)
           end.
Definition compute (request : JobWireRequest) (drpc_key : string) : io (FileSystem * W) string Value :=
  let request := stq_request (jw_stored_request request) in
  let request_timeout := enclave_timeout_seconds request in
  let rpc_key := if settlement_rpc_requires_drpc_key sepolia then Some drpc_key else None in
  match request with
  | SettlementRequest settlement =>
      within request_timeout "SETTLEMENT_COMPUTE_TIMEOUT" runtime_code
        (settlement_artifact CHAIN_ID enclave_proxy current_dir now rpc_deadline (settlement_rpc_url sepolia) rpc_key
           (cs_registry settlement) (cs_incident_id settlement) settlement_score_mode enclave_options)
  | OpenRequest open =>
      signer ← lift (ok_or USD8_EXPECTED_SIGNER "environment variable not found");
      within request_timeout "OPEN_COMPUTE_FAILED" (fun _ => "OPEN_COMPUTE_FAILED")
        (incident_open_artifact CHAIN_ID enclave_proxy now rpc_deadline (settlement_rpc_url sepolia) rpc_key
           (co_registry open) (co_insured_token open) signer enclave_options)
  end.

Definition DRPC_DOMAIN : list byte := as_bytes "USD8_TEE_DRPC_V1" ++ [x00].
Definition SIGNER_DOMAIN : list byte := as_bytes "USD8_TEE_SIGNER_V1" ++ [x00].
Definition has_nul (s : string) : bool := negb (str_all (fun c => negb (Ascii.eqb c (ascii_of_nat 0))) s).
Definition drpc_key_of (plaintext : list byte) : outcome string string :=
  drpc_key ← ok_or (from_utf8 plaintext) "invalid dRPC key";
  _ ← bail_if (str_is_empty drpc_key || (512 <? str_len drpc_key) || has_nul drpc_key) "invalid dRPC key";
  Ok drpc_key.
Definition expected_kind (request : CanonicalRequest) : AttestedDigestKind :=
  match request with SettlementRequest _ => DigestSettlement | OpenRequest _ => DigestIncidentOpen end.
Definition artifact_error (request : CanonicalRequest) : string :=
  match request with SettlementRequest _ => "SETTLEMENT_ARTIFACT_FAILED" | OpenRequest _ => "OPEN_ARTIFACT_FAILED" end.
(** The signature, by the signer the environment names. *)
Definition sign_artifact (private_key : list byte) (digest : array 32) : outcome string EthereumSignature :=
  _ ← bail_if (negb (len private_key =? 32)) "invalid signer key";
  signature ← map_err (fun _ => "SIGNER_FAILED") (sign_digest private_key (array_val digest));
  expected_signer ← ok_or USD8_EXPECTED_SIGNER "SIGNER_FAILED";
  _ ← bail_if (negb (String.eqb (es_signer signature) (to_ascii_lowercase expected_signer))) "signer address mismatch";
  Ok signature.
Definition completed_payload (artifact : Value) (signature : EthereumSignature) (signer_attestation : list byte) : Value :=
  VObject [("artifact", artifact); ("digest", VString (es_digest signature)); ("signer", VString (es_signer signature));
           ("signature", VString (es_signature signature));
           ("kmsRecipientAttestation", VString ("0x" +:+ hex_encode signer_attestation))].

Definition process (request : JobWireRequest) : io (FileSystem * W) string TerminalEnvelope :=
  let stored := jw_stored_request request in
  '(signer_ciphertext, drpc_ciphertext) ← map_err_io (fun _ => "ENCLAVE_VALIDATE_FAILED") (on_rpc (validate request));
  _ ← lift (proxy_config_https "http://127.0.0.1:8080");
  let kms := mkKmsClient (jw_region request) (jw_access_key_id request) (jw_secret_access_key request)
               (jw_session_token request) "http://127.0.0.1:8080" in
  let canonical_request := canonical_to_vec (stq_request stored) in
  let job_binding := binding DRPC_DOMAIN [as_bytes (stq_job_id stored); canonical_request] in
  '(drpc_plaintext, _) ← on_rpc (recipient_decrypt kms drpc_ciphertext "usd8-tee-drpc-v1" (array_val job_binding));
  drpc_key ← lift (drpc_key_of drpc_plaintext);
  artifact ← compute request drpc_key;
  digest ← lift (map_err (fun _ => artifact_error (stq_request stored))
             (extract_attested_digest artifact (expected_kind (stq_request stored))));
  let signer_binding := binding SIGNER_DOMAIN [as_bytes (stq_job_id stored); array_val digest] in
  '(private_key, signer_attestation) ← map_err_io (fun _ => "SIGNER_DECRYPT_FAILED")
    (on_rpc (recipient_decrypt kms signer_ciphertext "usd8-tee-signer-v1" (array_val signer_binding)));
  signature ← lift (sign_artifact private_key digest);
  mret (terminal_completed (stq_job_id stored) (completed_payload artifact signature signer_attestation)).

(** What [run] answers to a request: an error ends as a code. *)
Definition answer (request : JobWireRequest) : io (FileSystem * W) string TerminalEnvelope :=
  fun w =>
    match process request w with
    | (Err detail, w) =>
        (Ok (terminal_failed (stq_job_id (jw_stored_request request)) (terminal_error_code detail)), w)
    | result => result
    end.
(** [run] after its listeners are up: the peer that connects, the bytes it sends, the
    frame that is sent back. *)
Definition enclave_run (peer : N) (stream : list byte) : io (FileSystem * W) string (list byte) :=
  _ ← lift (bail_if (negb (peer =? PARENT_CID)) "unexpected vsock peer");
  '(request, _) ← lift (map_err (fun _ => "wire") (read_frame wire_from_slice MAX_WIRE_REQUEST_BYTES stream));
  terminal ← answer request;
  lift (map_err (fun _ => "wire") (write_frame terminal_to_vec terminal MAX_RESULT_BYTES)).
End Enclave.

(* ------------------------------------------------------------------ *)
(** ** What a completed terminal is *)

Section EnclaveFacts.
Context `{HX : HexCrate, HK : Sha3Crate, HA : AbiCodec, HS : SerdeJson, HM : HmacCrate, HP : CheckpointJson, HB : CborCrate, HI : BigUintCrate}.
Context `{H2 : Sha2Crate, HJ : JobJson, HG : K256Crate, H64 : Base64Crate, HWJ : WireJson, HU : UrlCrate} {W : Type}.
Context `{HH : !HttpCrate W, HV : !Http.ValueJson, HN : !NsmDriver W, HE : !EnvelopeCrypto, HKMS : !KmsCrate W}.
Context (sepolia : bool) (CHAIN_ID : N) (EXPECTED_REGISTRY : string).
Context (enclave_proxy : bool) (current_dir : outcome IoError string) (USD8_EXPECTED_SIGNER : option string).
Context (system_time : W → option N * W) (PROXY_STAGE : W → N).
Context (now : HttpState * W → N * (HttpState * W)).
Context (rpc_deadline : ∀ A, N → http (W := W) A → HttpState * W → option (outcome RpcError A) * (HttpState * W)).
Context (timeout : N → io (FileSystem * W) AttestedRuntimeError Value → FileSystem * W →
           option (outcome AttestedRuntimeError Value) * (FileSystem * W)).

Lemma validate_at_ok request t ciphertexts : validate_at EXPECTED_REGISTRY request t = Ok ciphertexts →
  let stored := jw_stored_request request in
  stored_request_is_live stored t = true ∧
  verify_job_request_binding (stq_job_id stored) (stq_request stored) = Ok tt ∧
  canonical_of_stored EXPECTED_REGISTRY (stq_request stored) = Ok (stq_request stored) ∧
  b64_decode (jw_signer_ciphertext_b64 request) = Some ciphertexts.1 ∧
  b64_decode (jw_drpc_ciphertext_b64 request) = Some ciphertexts.2.
Proof.
  unfold validate_at. cbn zeta. intros (? & Hl%bail_if_ok%negb_false_iff & (? & _ & (u & Hb & Hs)%bind_ok)%bind_ok)%bind_ok.
  apply map_err_ok in Hb. destruct u. apply bind_ok in Hs as (canonical & Hc & Hs).
  apply bind_ok in Hs as (? & Hchecks%bail_if_ok & Hs).
  apply bind_ok in Hs as (signer & Hsig%ok_or_ok & Hs). apply bind_ok in Hs as (drpc & Hdrpc%ok_or_ok & Hs).
  apply bind_ok in Hs as (? & _ & Hs). injection Hs as <-.
  rewrite !orb_false_iff in Hchecks.
  destruct Hchecks as [[[[[[[_ ->%negb_false_iff%bool_decide_eq_true] _] _] _] _] _] _]. by split_and!.
Qed.

(** The artifact is of the request, and its attested digest is [digest]. *)
Definition computed (request : CanonicalRequest) (artifact : Value) (digest : list byte) : Prop :=
  match request with
  | SettlementRequest settlement =>
      ∃ client n a config run fields, biguint_parse (cs_incident_id settlement) = Some n ∧
        address_from_str (cs_registry settlement) = Some a ∧
        settled CHAIN_ID current_dir now rpc_deadline client a n BulkMode config run ∧
        Artifact.artifact run config false = VObject fields ∧
        carries_evidence (W := W) artifact fields (run_digest run) digest (run_tee_pcr_hash run)
  | OpenRequest open =>
      ∃ client a t g auth w1 w2 fields, address_from_str (co_registry open) = Some a ∧
        address_from_str (co_insured_token open) = Some t ∧ (USD8_EXPECTED_SIGNER ≫= address_from_str) = Some g ∧
        @build_incident_open _ _ _ _ (http_rpc client now rpc_deadline) CHAIN_ID a t g w1 = (Ok auth, w2) ∧
        authorization_json auth = VObject fields ∧
        carries_evidence (W := W) artifact fields (ia_open_digest auth) digest (ia_tee_pcr_hash auth)
  end.

(** The digest that is extracted is the one that was attested. *)
Lemma extract_digest_of_evidence kind artifact fields digest bytes expected d key :
  carries_evidence (W := W) artifact fields digest bytes expected →
  (kind, key) = (DigestSettlement, "settlementDigest") ∨ (kind, key) = (DigestIncidentOpen, "openDigest") →
  assoc key fields = Some (VString digest) →
  extract_attested_digest artifact kind = Ok d → array_val d = bytes.
Proof.
  intros (Hb & a & nonce & payload & -> & _) Hk Hd. unfold extract_attested_digest.
  intros (? & _ & Hs)%bind_ok. apply bind_ok in Hs as (? & _ & Hs).
  apply bind_ok in Hs as (text & Ht%ok_or_ok & Hs).
  assert (text = digest) as ->.
  { assert (as_str (at_key (with_evidence fields a digest) key) = Some digest) as Hkey.
    { unfold at_key. rewrite with_evidence_get by (destruct Hk; simplify_eq; set_solver). by rewrite Hd. }
    destruct Hk as [Hk|Hk]; simplify_eq; unfold attested_text in Ht; rewrite Hkey in Ht.
    - by destruct (as_str (at_key (with_evidence fields a digest) "openDigest")); simplify_eq.
    - destruct (as_str (at_key (with_evidence fields a digest) "settlementDigest")); [done|]. by case_bool_decide; simplify_eq. }
  do 8 (apply bind_ok in Hs as (? & _ & Hs)).
  apply bind_ok in Hs as (digits & Hp%ok_or_ok & Hs). apply ok_or_ok in Hs. unfold decode_32 in Hs.
  apply bind_Some in Hs as (l & Hl & Hs). apply try_array_Some in Hs as <-.
  unfold digest_bytes in Hb. rewrite Hp in Hb. cbn in Hb. rewrite Hl in Hb. cbn in Hb.
  apply bind_ok in Hb as (? & _ & Hb). by injection Hb.
Qed.

(** [tokio]'s timeout hands over what finished in time. *)
Hypothesis timeout_done : ∀ seconds m w r w', timeout seconds m w = (Some r, w') → m w = (r, w').

Lemma compute_ok request key w artifact w' d :
  compute sepolia CHAIN_ID enclave_proxy current_dir USD8_EXPECTED_SIGNER now rpc_deadline timeout request key w = (Ok artifact, w') →
  extract_attested_digest artifact (expected_kind (stq_request (jw_stored_request request))) = Ok d →
  computed (stq_request (jw_stored_request request)) artifact (array_val d).
Proof.
  unfold compute. destruct (stq_request (jw_stored_request request)) as [settlement|open]; cbn zeta.
  - unfold within. destruct (timeout _ _ w) as [[r|] w1] eqn:Et; [|done]. apply timeout_done in Et.
    intros [= Hr ->] Hd. apply map_err_ok in Hr as ->.
    apply settlement_artifact_ok in Et as (client & n & a & config & run & fields & bytes & _ & Hn & Ha & Hs & Hf & He & _).
    exists client, n, a, config, run, fields. split_and!; try done.
    erewrite (extract_digest_of_evidence _ _ _ _ _ _ _ _ He); [exact He|by left| |exact Hd]. by injection Hf as <-.
  - intros (signer & w1 & [Hs%ok_or_ok ->]%lift_ok & Hw)%io_bind_ok Hd. unfold within in Hw.
    destruct (timeout _ _ w) as [[r|] w2] eqn:Et; [|done]. apply timeout_done in Et.
    injection Hw as Hr ->. apply map_err_ok in Hr as ->.
    apply incident_open_artifact_ok in Et as (client & a & t & g & auth & w1 & w3 & fields & bytes & _ & Ha & Ht & Hg & Hb & Hf & He).
    exists client, a, t, g, auth, w1, w3, fields. split_and!; try done; [by rewrite Hs|].
    erewrite (extract_digest_of_evidence _ _ _ _ _ _ _ _ He); [exact He|by right| |exact Hd]. by injection Hf as <-.
Qed.
Lemma sign_artifact_ok key digest signature : sign_artifact USD8_EXPECTED_SIGNER key digest = Ok signature →
  length key = 32%nat ∧ sign_digest key (array_val digest) = Ok signature ∧
  ∃ expected, USD8_EXPECTED_SIGNER = Some expected ∧ es_signer signature = to_ascii_lowercase expected.
Proof.
  unfold sign_artifact. intros (? & Hl%bail_if_ok%negb_false_iff%N.eqb_eq & Hs)%bind_ok.
  apply bind_ok in Hs as (sig & Hsig%map_err_ok & Hs). apply bind_ok in Hs as (expected & He%ok_or_ok & Hs).
  apply bind_ok in Hs as (? & Hb%bail_if_ok%negb_false_iff%String.eqb_eq & Hs). injection Hs as <-.
  unfold len in Hl. split_and!; [lia|done|]. by exists expected.
Qed.

Definition request_registry (request : CanonicalRequest) : string :=
  match request with SettlementRequest s => cs_registry s | OpenRequest o => co_registry o end.
Lemma canonical_registry request : canonical_of_stored EXPECTED_REGISTRY request = Ok request →
  normalize_registry EXPECTED_REGISTRY = Ok (request_registry request).
Proof.
  unfold canonical_of_stored, protocol. destruct request as [s|o]; intros Hc%map_err_ok.
  - unfold canonicalize_request in Hc. apply bind_ok in Hc as (id & _ & (? & _ & (r & Hr & Hc)%bind_ok)%bind_ok).
    injection Hc as <-. exact Hr.
  - unfold canonicalize_open_request in Hc. apply bind_ok in Hc as (token & _ & (? & _ & (r & Hr & Hc)%bind_ok)%bind_ok).
    injection Hc as <-. exact Hr.
Qed.

(** A terminal that was computed, attested and signed for this request. *)
Definition vouched (request : JobWireRequest) (payload : Value) : Prop :=
  let stored := jw_stored_request request in
  ∃ instant artifact (digest : array 32) key signature signer_document kms ciphertext expected w1 w2,
    payload = completed_payload artifact signature signer_document ∧
    stored_request_is_live stored instant = true ∧
    verify_job_request_binding (stq_job_id stored) (stq_request stored) = Ok tt ∧
    normalize_registry EXPECTED_REGISTRY = Ok (request_registry (stq_request stored)) ∧
    computed (stq_request stored) artifact (array_val digest) ∧
    recipient_decrypt (W := W) PROXY_STAGE kms ciphertext "usd8-tee-signer-v1"
      (array_val (binding SIGNER_DOMAIN [as_bytes (stq_job_id stored); array_val digest])) w1
      = (Ok (key, signer_document), w2) ∧
    b64_decode (jw_signer_ciphertext_b64 request) = Some ciphertext ∧
    sign_digest key (array_val digest) = Ok signature ∧
    USD8_EXPECTED_SIGNER = Some expected ∧ es_signer signature = to_ascii_lowercase expected.

Lemma process_ok request fw terminal fw' :
  process sepolia CHAIN_ID EXPECTED_REGISTRY enclave_proxy current_dir USD8_EXPECTED_SIGNER system_time PROXY_STAGE
    now rpc_deadline timeout request fw = (Ok terminal, fw') →
  ∃ payload, terminal = terminal_completed (stq_job_id (jw_stored_request request)) payload ∧ vouched request payload.
Proof.
  unfold process. cbn zeta. intros ([signer drpc] & fw1 & [Hv _]%map_err_io_ok%on_rpc_ok & Hs)%io_bind_ok.
  unfold validate in Hv. apply io_bind_ok in Hv as (t & w1 & _ & [Hv _]%lift_ok).
  apply validate_at_ok in Hv as (Hlive & Hbind & Hcanon%canonical_registry & Hsigner & _).
  apply io_bind_ok in Hs as (? & fw2 & [_ ->]%lift_ok & Hs).
  apply io_bind_ok in Hs as ([plaintext ?] & fw3 & _ & Hs).
  apply io_bind_ok in Hs as (drpc_key & fw4 & [_ ->]%lift_ok & Hs).
  apply io_bind_ok in Hs as (artifact & fw5 & Hcompute & Hs).
  apply io_bind_ok in Hs as (digest & fw6 & [Hd%map_err_ok ->]%lift_ok & Hs).
  apply io_bind_ok in Hs as ([key document] & fw7 & [Hkey _]%map_err_io_ok%on_rpc_ok & Hs).
  apply io_bind_ok in Hs as (signature & fw8 & [Hsign ->]%lift_ok & [<- _]%io_ret_ok).
  apply sign_artifact_ok in Hsign as (_ & Hsign & expected & He & Hs).
  eexists. split; [done|]. eexists t, artifact, digest, key, signature, document, _, signer, expected, _, _.
  split_and!; try done. by eapply compute_ok.
Qed.

Definition PUBLIC_CODES : list string :=
  SETTLEMENT_TERMINAL_CODES ++ "KMS_RECIPIENT_DECRYPT_FAILED" :: "ENCLAVE_FAILED" :: ENCLAVE_CODES.
Lemma terminal_error_code_public detail : terminal_error_code detail ∈ PUBLIC_CODES.
Proof.
  unfold terminal_error_code, PUBLIC_CODES. repeat case_bool_decide; rewrite ?elem_of_app, ?elem_of_cons; tauto.
Qed.

(** Every terminal of the enclave is of the job it was asked for.  A completed one
    was vouched for: the request was live, bound by its identifier and for the Registry
    the enclave was compiled for; its artifact is of that request (a settlement the
    verifier accepted under the configuration read from that Registry, or an incident
    authorization), attested by the security module over its own digest with the pinned
    code identity; the signer's key was released for this job and this digest alone, and
    the signature over the digest is the expected signer's.  A failed one holds a code
    of a fixed list and nothing else. *)
Theorem enclave_terminals_vouched request fw terminal fw' :
  answer sepolia CHAIN_ID EXPECTED_REGISTRY enclave_proxy current_dir USD8_EXPECTED_SIGNER system_time PROXY_STAGE
    now rpc_deadline timeout request fw = (Ok terminal, fw') →
  te_schema_version terminal = 1 ∧ te_job_id terminal = stq_job_id (jw_stored_request request) ∧
  match te_status terminal with
  | Completed => vouched request (te_payload terminal)
  | Failed => ∃ code, te_payload terminal = VObject [("code", VString code)] ∧ code ∈ PUBLIC_CODES
  end.
Proof.
  unfold answer. destruct (process _ _ _ _ _ _ _ _ _ _ _ request fw) as [[t|detail|why] fw1] eqn:Ep; [| |done].
  - intros [= <- _]. apply process_ok in Ep as (payload & -> & Hv). done.
  - intros [= <- _]. split_and!; [done|done|]. exists (terminal_error_code detail).
    split; [done|apply terminal_error_code_public].
Qed.
End EnclaveFacts.

(* ------------------------------------------------------------------ *)
(** ** The codes of a failed settlement *)

(** [m] fails with errors in [P] only. *)
Definition fails_only {S E A} (P : E → Prop) (m : io S E A) : Prop := ∀ w e w', m w = (Err e, w') → P e.
Lemma fails_only_bind {S E A B} (P : E → Prop) (m : io S E A) (f : A → io S E B) :
  fails_only P m → (∀ w a w', m w = (Ok a, w') → fails_only P (f a)) → fails_only P (m ≫= f).
Proof.
  intros Hm Hf w e w'. unfold mbind, io_bind. destruct (m w) as [[a|e'|s] w1] eqn:Em; [by eapply Hf| |done].
  intros [= -> ->]. by eapply Hm.
Qed.
Lemma fails_only_map_err {S E1 E2 A} (P : E2 → Prop) (f : E1 → E2) (m : io S E1 A) :
  (∀ e, P (f e)) → fails_only P (map_err_io f m).
Proof. intros Hf w e w'. unfold map_err_io. destruct (m w) as [[a|e'|s] w1]; intros [=]; simplify_eq. apply Hf. Qed.
Lemma fails_only_lift {S E A} (P : E → Prop) (m : outcome E A) : (∀ e, m = Err e → P e) → fails_only (S := S) P (lift m).
Proof. intros Hm w e w' [= He _]. by apply Hm. Qed.
Lemma fails_only_lift_map_err {S E1 E2 A} (P : E2 → Prop) (f : E1 → E2) (m : outcome E1 A) :
  (∀ e, P (f e)) → fails_only (S := S) P (lift (map_err f m)).
Proof. intros Hf. apply fails_only_lift. destruct m; intros e' [=]; simplify_eq. apply Hf. Qed.
Lemma fails_only_ok_or {S E A} (P : E → Prop) (o : option A) e : P e → fails_only (S := S) P (lift (ok_or o e)).
Proof. intros He. apply fails_only_lift. destruct o; intros e' [=]; by subst. Qed.

Definition listed (error : AttestedRuntimeError) : Prop := runtime_code error ∈ SETTLEMENT_TERMINAL_CODES.
Ltac listed := unfold listed; cbn; apply (bool_decide_eq_true_1 _); vm_compute; reflexivity.
Lemma chain_failure_listed stage e : chain_failure_code stage e ∈ SETTLEMENT_TERMINAL_CODES.
Proof.
  destruct e, stage; cbn; try destruct (state_is_pruned _); apply (bool_decide_eq_true_1 _); vm_compute; reflexivity.
Qed.
Lemma score_failure_listed e : score_failure_code e ∈ SETTLEMENT_TERMINAL_CODES.
Proof.
  destruct e as [[]| | | | |]; cbn; repeat case_match; apply (bool_decide_eq_true_1 _); vm_compute; reflexivity.
Qed.
Lemma engine_failure_listed stage e : listed (settlement_engine_failure stage e).
Proof.
  unfold listed. destruct e; cbn; [apply chain_failure_listed|apply score_failure_listed|..]; apply (bool_decide_eq_true_1 _); vm_compute; reflexivity.
Qed.

Section Codes.
Context `{HX : HexCrate, HK : Sha3Crate, HA : AbiCodec, HS : SerdeJson, HM : HmacCrate, HP : CheckpointJson, HB : CborCrate, HI : BigUintCrate}.
Context `{HU : UrlCrate} {W : Type} `{HH : !HttpCrate W, HV : !Http.ValueJson, HN : !NsmDriver W}.

(** C40: whatever fails in the computation of a settlement, its code reaches the failed
    terminal unchanged: each code the attested runtime can end with is one of the codes
    the enclave passes on.  (The one code of the runtime that is not, a root mismatch
    after the engine's own check of the root, cannot occur.) *)
Theorem settlement_codes_survive CHAIN_ID enclave_proxy current_dir now timeout url key registry_ id mode options fw e fw' :
  settlement_artifact (W := W) CHAIN_ID enclave_proxy current_dir now timeout url key registry_ id mode options fw = (Err e, fw') →
  terminal_error_code (runtime_code e) = runtime_code e ∧ runtime_code e ≠ "SETTLEMENT_ROOT_MISMATCH".
Proof.
  intros He. assert (listed e) as Hl.
  { revert He. generalize dependent fw'. revert e. cut (fails_only listed (settlement_artifact CHAIN_ID enclave_proxy
      current_dir now timeout url key registry_ id mode options)); [intros Hf e fw'; apply Hf|].
    unfold settlement_artifact. apply fails_only_bind; [apply fails_only_lift_map_err; intros; listed|intros _ client _ _].
    apply fails_only_bind; [apply fails_only_ok_or; listed|intros _ n _ _].
    apply fails_only_bind; [apply fails_only_ok_or; listed|intros _ a _ _].
    apply fails_only_bind.
    - intros [fs w] e [fs' w'] He. unfold with_client in He.
      destruct (settlement_run _ _ _ _ _ _ _ _ _) as [r [fs1 [s w1]]] eqn:Er. injection He as -> _ _.
      revert Er. cut (fails_only listed (settlement_run CHAIN_ID current_dir now timeout client a n mode)); [intros Hf; apply Hf|].
      unfold settlement_run. apply fails_only_bind; [apply fails_only_map_err, engine_failure_listed|intros _ c _ _].
      apply fails_only_bind; [apply fails_only_map_err, engine_failure_listed|intros _ r _ _]. by intros ? ? ?.
    - intros fw1 [config run] fw2 [s Hrun]%with_client_ok. apply settlement_run_ok in Hrun.
      apply fails_only_bind.
      { apply fails_only_lift. intros e. unfold settlement_artifact_available. by rewrite (se_root _ _ _ _ _ _ _ _ _ _ Hrun). }
      intros _ ? _ _. apply fails_only_bind; [apply fails_only_lift_map_err; intros; listed|intros _ ? _ _].
      apply fails_only_bind; [apply fails_only_map_err; intros; listed|intros _ ? _ _].
      apply fails_only_lift_map_err. intros. listed. }
  unfold listed in Hl. split; [unfold terminal_error_code; by rewrite bool_decide_true|].
  intros E. rewrite E in Hl. revert Hl. apply (bool_decide_eq_false_1 _). vm_compute. reflexivity.
Qed.
End Codes.

(* ------------------------------------------------------------------ *)
(** ** A job from request to terminal *)

Module EnclaveDemo.
#[local] Existing Instances RefHex.hex_crate RefSha3.sha3_crate RefSerde.serde_json RefAbi.abi_codec.
#[local] Existing Instances RefCheckpoint.hmac_crate RefCheckpoint.checkpoint_json RefJob.sha2_crate RefK256.k256_crate.
#[local] Existing Instances RefJob.canonical_countable RefJob.stored_countable.

(** *** JSON texts: a tag, lengths in four bytes *)

Definition sized (l : list byte) : list byte := be_bytes 4 (N.of_nat (length l)) ++ l.
Fixpoint encode (v : Value) : list byte :=
  match v with
  | VNull => [x00]
  | VBool b => [x01; if b then x01 else x00]
  | VNumber (PosInt n) => x02 :: be_bytes 8 n
  | VNumber _ => [x00]
  | VString s => x03 :: sized (as_bytes s)
  | VArray l => x04 :: be_bytes 4 (N.of_nat (length l)) ++ mjoin (map encode l)
  | VObject fields => x05 :: be_bytes 4 (N.of_nat (length fields)) ++
                      mjoin (map (fun '(k, v) => sized (as_bytes k) ++ encode v) fields)
  end.
Definition take_sized (l : list byte) : string * list byte :=
  let n := N.to_nat (from_bytes_be (take 4 l)) in
  (String.string_of_list_byte (take n (drop 4 l)), drop n (drop 4 l)).
Fixpoint decode_many {A} (one : list byte → option (A * list byte)) (n : nat) (l : list byte) : option (list A * list byte) :=
  match n with
  | O => Some ([], l)
  | S n => '(x, l) ← one l; '(xs, l) ← decode_many one n l; Some (x :: xs, l)
  end.
Fixpoint decode (fuel : nat) (l : list byte) : option (Value * list byte) :=
  match fuel, l with
  | S fuel, x00 :: l => Some (VNull, l)
  | S fuel, x01 :: b :: l => Some (VBool (Byte.eqb b x01), l)
  | S fuel, x02 :: l => Some (VNumber (PosInt (from_bytes_be (take 8 l))), drop 8 l)
  | S fuel, x03 :: l => let '(s, l) := take_sized l in Some (VString s, l)
  | S fuel, x04 :: l =>
      '(xs, l) ← decode_many (decode fuel) (N.to_nat (from_bytes_be (take 4 l))) (drop 4 l); Some (VArray xs, l)
  | S fuel, x05 :: l =>
      '(xs, l) ← decode_many (fun l => let '(k, l) := take_sized l in '(v, l) ← decode fuel l; Some ((k, v), l))
                   (N.to_nat (from_bytes_be (take 4 l))) (drop 4 l);
      Some (VObject xs, l)
  | _, _ => None
  end.
#[local] Instance json : Http.ValueJson := {|
  Http.value_from_slice bytes := fst <$> decode 20 bytes;
  value_to_bytes := encode
|}.
Definition value_of_terminal (t : TerminalEnvelope) : Value :=
  VObject [("schemaVersion", number (te_schema_version t)); ("jobId", VString (te_job_id t));
           ("completed", VBool (bool_decide (te_status t = Completed))); ("payload", te_payload t)].
Definition terminal_of_value (v : Value) : option TerminalEnvelope :=
  match v with
  | VObject [(_, VNumber (PosInt n)); (_, VString job_id); (_, VBool ok); (_, payload)] =>
      Some (mkTerminalEnvelope n job_id (if ok then Completed else Failed) payload)
  | _ => None
  end.
#[local] Instance JobWireRequest_eq_dec : EqDecision JobWireRequest.
Proof. solve_decision. Defined.
#[local] Instance TerminalEnvelope_eq_dec : EqDecision TerminalEnvelope.
Proof. solve_decision. Defined.
#[local] Instance job_json : JobJson := {|
  settlement_api_from_slice bytes := v ← Http.value_from_slice bytes; as_str (at_key v "incidentId");
  open_api_from_slice bytes := v ← Http.value_from_slice bytes; as_str (at_key v "insuredToken");
  canonical_to_vec request := RefAbi.write request;
  stored_to_vec stored := RefAbi.write stored;
  stored_from_slice text := RefAbi.read text;
  terminal_from_slice bytes := v ← Http.value_from_slice bytes; terminal_of_value v
|}.
Definition terminal_bytes (t : TerminalEnvelope) : option (list byte) :=
  let bytes := encode (value_of_terminal t) in
  if bool_decide (terminal_from_slice bytes = Some t) then Some bytes else None.
(** A frame to the enclave is the list of its fields. *)
Definition wire_fields (w : JobWireRequest) : list RefJob.field :=
  [inl (jw_schema_version w); inr (jw_region w); inr (jw_access_key_id w); inr (jw_secret_access_key w);
   inr (jw_session_token w); inr (jw_signer_ciphertext_b64 w); inr (jw_drpc_ciphertext_b64 w)] ++
  RefJob.stored_fields (jw_stored_request w).
Definition wire_of (l : list RefJob.field) : option JobWireRequest :=
  match l with
  | inl a :: inr b :: inr c :: inr d :: inr e :: inr f :: inr g :: l =>
      stored ← RefJob.stored_of l; Some (mkJobWireRequest a stored b c d e f g)
  | _ => None
  end.
Definition wire_bytes (w : JobWireRequest) : option (list byte) :=
  let bytes := RefAbi.write (wire_fields w) in
  if bool_decide ((RefAbi.read bytes ≫= wire_of) = Some w) then Some bytes else None.
Lemma terminal_bytes_read t bytes : terminal_bytes t = Some bytes → terminal_from_slice bytes = Some t.
Proof.
  unfold terminal_bytes. cbv zeta. destruct (bool_decide _) eqn:E; [|done]. intros [= <-]. by apply bool_decide_eq_true_1 in E.
Qed.
Lemma wire_bytes_read w bytes : wire_bytes w = Some bytes → (RefAbi.read bytes ≫= wire_of) = Some w.
Proof.
  unfold wire_bytes. cbv zeta. destruct (bool_decide _) eqn:E; [|done]. intros [= <-]. by apply bool_decide_eq_true_1 in E.
Qed.
#[local] Instance wire_json : WireJson := {|
  wire_to_vec := wire_bytes; wire_from_slice bytes := RefAbi.read bytes ≫= wire_of; terminal_to_vec := terminal_bytes
|}.
#[local] Instance numbers : BigUintCrate := {| biguint_parse := biguint_from_str |}.
#[local] Instance base64 : Base64Crate := {| b64_encode := String.string_of_list_byte; b64_decode s := Some (as_bytes s) |}.

(** *** The security module, the KMS and RSA *)

#[local] Instance cbor : CborCrate := {|
  cbor_value bytes := Ok (CborTag 18 (CborArray [CborBytes [xa0]; CborOther; CborBytes bytes; CborBytes [x03]]));
  cbor_payload bytes := Ok (mkAttestationPayload "SHA384"
    (<[0 := replicate 48 x00]> (<[1 := replicate 48 x11]> {[2 := replicate 48 x22]}))
    [x01] [[x02]] (Some (drop 32 bytes)) (Some (take 32 bytes)))
|}.
#[local] Instance nsm : NsmDriver unit := {|
  nsm_init w := (3%Z, w);
  nsm_process_request _ request w :=
    (match request with
     | RequestRandom => ResponseRandom (replicate 40 x09)
     | RequestAttestation user_data nonce _ => ResponseDocument (default [x01] nonce ++ default [] user_data)
     end, w);
  nsm_exit _ w := w;
  nsm_debug _ := ""
|}.
#[local] Instance envelopes : EnvelopeCrypto := {|
  PrivateDecryptingKey := unit; OaepKey := unit; CbcDecryptor := unit;
  oaep_new _ := Some tt; oaep_decrypt _ _ := Some (replicate 32 x44);
  cbc_new_from_slices _ _ := Some tt; cbc_decrypt_padded _ text := Some text
|}.
Definition sealed (text : list byte) : list byte :=
  CmsDemo.container x30 (CmsDemo.element x06 OID_PKCS7_ENVELOPED_DATA ++
    CmsDemo.container xa0 (CmsDemo.container x30
      (CmsDemo.element x02 [x02] ++ CmsDemo.element x31 CmsDemo.recipient ++
       CmsDemo.container x30 (CmsDemo.element x06 OID_PKCS7_DATA ++
         CmsDemo.element x30 (CmsDemo.element x06 OID_AES_256_CBC ++ CmsDemo.element x04 CmsDemo.vector) ++
         CmsDemo.container xa0 (CmsDemo.element x04 text))))).
Definition signer_key : list byte := replicate 32 x07.
#[local] Instance kms : KmsCrate unit := {|
  proxy_config_https _ := Ok tt;
  kms_decrypt _ _ purpose _ w :=
    (Ok (Some (sealed (if String.eqb purpose "usd8-tee-drpc-v1" then as_bytes "demo-drpc-key-01" else signer_key))), w);
  rsa_generate w := (Some tt, w);
  public_key_der _ := Some [x30]
|}.

(** *** The chain behind the provider *)

Definition identity : Hash :=
  keccak256 (PCR_HASH_DOMAIN ++ replicate 48 x00 ++ replicate 48 x11 ++ replicate 48 x22).
Definition table : list (Address * SolFn * list byte) := Eval vm_compute in
  [(demo_registry, incidents, returns incidents
      (mkIncidentsReturn SettleDemo.insured 0 8 10 1220 (array_of 32 (be_bytes 32 0)) 1 SettleDemo.set_hash identity 500));
   (demo_registry, defiInsurance, returns defiInsurance demo_registry);
   (demo_registry, registry, returns registry demo_registry);
   (demo_registry, boosterConfig, returns boosterConfig (mkBoosterConfigReturn demo_registry 1 100));
   (demo_registry, maxOracleStaleness, returns maxOracleStaleness 3600);
   (demo_registry, assetUsdFeed, returns assetUsdFeed demo_feed)] ++ SettleDemo.table.
Definition chain (to : Address) (data : list byte) (number : N) : list byte :=
  if bool_decide (to = demo_token) && bool_decide (take 4 data = RefAbi.selector erc20_balanceOf)
  then abi_encode_returns erc20_balanceOf (demo_balance number)
  else table_answer table to data number.
Definition serve (body : Value) : Value :=
  let id := ("id", at_key body "id") in
  let version := ("jsonrpc", VString "2.0") in
  match RefProvider.reply demo_ts demo_block_hash 20 chain SettleDemo.ledger
          (default "" (as_str (at_key body "method"))) (at_key body "params") with
  | Ok v => VObject [version; id; ("result", v)]
  | _ => VObject [version; id; ("error", VObject [("code", VNumber (PosInt 1)); ("message", VString "no")])]
  end.
#[local] Instance urls : UrlCrate := {|
  Url := unit;
  url_parse _ := Some tt; url_scheme _ := "https"; url_host_str _ := Some "lb.drpc.org"; url_port _ := None;
  url_username _ := ""; url_password _ := None
|}.
#[local] Instance net : HttpCrate unit := {|
  header_value_ok _ := true; proxy_https _ := Ok tt; client_build _ := Ok tt;
  client_post _ _ body w :=
    (Ok (mkHttpResponse 200 None [Ok (encode (match body with VArray l => VArray (map serve l) | _ => serve body end))]), w);
  sleep_ms _ w := w
|}.

(** *** The job *)

Definition request : CanonicalRequest :=
  SettlementRequest (mkCanonicalSettlementRequest "4" (address_to_string demo_registry)).
Definition job_id : string := Eval vm_compute in
  match derive_job_id demo_secret "work:0" request with Ok id => id | _ => "" end.
Definition wire : JobWireRequest :=
  mkJobWireRequest 3 (mkStoredRequest 3 job_id request 100 200) "eu-central-1" "id" "secret" "token" "signer" "drpc".
Definition expected_signer : string := Eval vm_compute in
  match ethereum_address signer_key with Ok a => a | _ => "" end.
Definition clock (w : unit) : option N * unit := (Some 150, w).
Definition client_clock (w : HttpState * unit) : N * (HttpState * unit) := (0, w).
(** Everything finishes in time. *)
Definition prompt {A S E} (_ : N) (m : io S E A) (w : S) : option (outcome E A) * S := let '(r, w) := m w in (Some r, w).
Lemma prompt_done {A S E} seconds (m : io S E A) w r w' : prompt seconds m w = (Some r, w') → m w = (r, w').
Proof. unfold prompt. destruct (m w). by intros [= -> ->]. Qed.
Abbreviation run_answer := (answer false 1 (address_to_string demo_registry) true (Ok "/") (Some expected_signer)
  clock (fun _ => 0) client_clock (fun A => prompt) prompt wire (demo_fs [], tt)).

(** A settlement job is computed, attested and signed. *)
Example enclave_terminals_vouched_witness :
  ∃ terminal fw', run_answer = (Ok terminal, fw') ∧ te_status terminal = Completed ∧ te_job_id terminal = job_id ∧
    vouched 1 (address_to_string demo_registry) (Ok "/") (Some expected_signer) (fun _ => 0) client_clock
      (fun A => prompt) wire (te_payload terminal).
Proof.
  assert (match run_answer with (Ok terminal, _) => bool_decide (te_status terminal = Completed) | _ => false end = true)
    as Hr by (vm_compute; reflexivity).
  destruct run_answer as [[terminal|e|s] fw'] eqn:E; [|discriminate Hr|discriminate Hr].
  apply bool_decide_eq_true in Hr. exists terminal, fw'. split; [reflexivity|].
  destruct (enclave_terminals_vouched false 1 (address_to_string demo_registry) true (Ok "/") (Some expected_signer)
    clock (fun _ => 0) client_clock (fun A => prompt) prompt (@prompt_done _ _ _) wire (demo_fs [], tt) terminal fw' E)
    as (_ & Hj & Hs).
  split; [exact Hr|]. split; [exact Hj|]. rewrite Hr in Hs. exact Hs.
Defined.

(** A settlement of an incident that is not there. *)
Example settlement_codes_survive_witness :
  ∃ e fw', settlement_artifact 1 true (Ok "/") client_clock (fun A => prompt) "https://lb.drpc.org" (Some "key")
      (address_to_string demo_registry) "none" BulkMode enclave_options (demo_fs [], tt) = (Err e, fw') ∧
    runtime_code e = "SETTLEMENT_INPUT_INVALID" ∧ terminal_error_code (runtime_code e) = runtime_code e.
Proof.
  destruct (settlement_artifact 1 true (Ok "/") client_clock (fun A => prompt) "https://lb.drpc.org" (Some "key")
      (address_to_string demo_registry) "none" BulkMode enclave_options (demo_fs [], tt)) as [[v|e|s] fw'] eqn:E;
    [vm_compute in E; discriminate E| |vm_compute in E; discriminate E].
  exists e, fw'. split; [reflexivity|].
  pose proof (settlement_codes_survive _ _ _ _ _ _ _ _ _ _ _ _ _ _ E) as [Hc _].
  split; [|exact Hc]. vm_compute in E. injection E as <- _. reflexivity.
Defined.
End EnclaveDemo.
